(* ===== verification/_CoqProject ===== *)
-Q . S2P
Prelude.v
Calls.v
Time.v
Circuit.v
F32.v
Options.v
Entry.v
Tags.v
Backplane.v
Cancellation.v
Activity.v
Execution.v
Flight.v
Wire.v
Lease.v
Invalidation.v
Origins.v
Storage.v
Retention.v
Readers.v
Supplied.v
Sharded.v
Memory.v
Lanes.v
Locking.v
Recovery.v
Observe.v
Factory.v
Worker.v
Read.v
Write.v
Commit.v
Origin.v
Guards.v
Control.v
Markers.v
Attested.v
Settled.v
Composed.v
Mutate.v
Announce.v
Replay.v
Replayed.v
MarkerReplays.v
Health.v
Listen.v
Builder.v
Lifecycle.v
Inline.v
Front.v
Plugins.v
