(* ===== verification/Prelude.v ===== *)
(** * amalgam: a verification library for the hybrid cache

    amalgam is a two-level cache: a process-local memory store (L1), an optional
    distributed store (L2), a backplane that tells other nodes what changed, and
    origins (factories) that compute missing values under same-key locks. Values
    carry tags; marking a tag, or clearing a scope, invalidates them by the time
    of the mark. This library models the code under [src/src/] and proves what
    makes it correct.

    ** How it reads

    A Rust function is a Rocq function of the same name; a struct is a [Record],
    an enum an [Inductive] with the source's constructors (prefixed where two
    enums share a name). [Result] is [result], [?] the monadic bind. Integers
    keep their width: a 64-bit quantity is a [Z] with its range, saturation and
    wrap-around written out. Shared allocations are numbers compared by
    identity. Concurrency has two treatments.
    - Lock-free or finely locked components are step relations: a state, labels
      for the atomic accesses of each thread, and an executable step function;
      theorems hold in every state reachable by any interleaving
      ([Circuit], [Activity], [Cancellation], [Execution], [Flight], [Lanes],
      [Locking], [Lease], [Readers], [Lifecycle], [Health], [Plugins]).
    - The value pipelines are programs ([Calls.prog]): finite trees of accesses
      to other components. Other tasks act between two accesses, so an access
      may be answered with anything of its type; a theorem [traced p R] says
      that whatever the answers, the program's own record of accesses explains
      its result. An access is atomic: that is what the theorems of the
      component it belongs to are for.

    ** Files

    - [Prelude] this file: results, machine integers, sums over maps, records.
      [Calls] programs, their weakest preconditions, handlers, simulation.
    - [Time] ([time.rs], [time/local.rs]), [Circuit] ([circuit.rs]), [F32] and
      [Options] ([options.rs]), [Entry] ([entry.rs], [entry/plain.rs]),
      [Tags] ([tags.rs]), [Backplane] ([backplane.rs]): the data of the cache.
    - [Cancellation], [Activity], [Execution] ([execution.rs]), [Flight]
      ([single_flight.rs]), [Locking] ([locking.rs]), [Lanes] ([commit.rs],
      [commit/ordered.rs]): the scheduling of operations.
    - [Origins], [Storage], [Retention], [Sharded], [Memory] ([memory.rs] and
      [memory/]): the memory store, its two backends behind one contract.
    - [Wire], [Lease], [Invalidation] ([distributed.rs], [distributed_lock.rs],
      [marker_snapshots.rs]): the distributed formats and in-memory providers.
    - [Recovery] ([recovery.rs]): the bounded queue of work to replay.
    - [Factory] ([factory.rs]), [Worker] ([cache.rs], [error.rs], [events.rs]),
      [Read] and [Origin] ([cache/read.rs]), [Write] ([cache/write.rs],
      [cache/memory_inline.rs]): the pipelines; [Commit] and [Guards] are the
      theory of the mutations and of the guards all of them hold.
    - [Readers] ([reader_slots.rs]): the reader/writer lock of a memory shard.
      [Supplied] ([memory_storage.rs], [memory/custom.rs]): a memory store the user
      supplies, behind the same contract.
    - [Observe] ([marker_reads.rs], [marker_leases.rs]): what a node remembers of
      the markers. [Control] is the language of the pipelines over markers;
      [Markers] ([cache/markers.rs], [cache/marker_eager.rs],
      [cache/marker_local.rs]) reads and refreshes them, with [Attested] and
      [Settled] as its theory; [Composed] runs the marker reads inside the value
      pipelines, which see them as one access.
    - [Mutate] ([cache/markers.rs], [cache/ordinary_markers.rs]): invalidations,
      with [Announce] as its theory. [Replay] ([cache/recovery.rs],
      [cache/marker_recovery.rs]): the replays of queued work, with [Replayed]
      and [MarkerReplays].
    - [Health] and [Listen] ([cache/runtime.rs]): the connection to the peers, what
      a gap or a loss of history retires, the barrier of the recovery queue, and
      what a node does with the messages it receives. [Health] also runs any number
      of checks and listener turns at once, one access at a time.
    - [Builder] ([cache/builder.rs], [cache/clock.rs], [cache/advice.rs]): the
      validation of a configuration, the selection of its plans, the order of its
      services. [Inline] ([cache/inline_cold.rs], [cache/memory_inline.rs]) and
      [Front] ([cache/api.rs], [cache/plain_ready.rs], [cache/callback_free.rs],
      [cache/ready.rs], [cache/immediate_read.rs]): what a cache does on its caller's
      stack, before it owns any work.
    - [Lifecycle] ([lifecycle.rs], [cache/runtime.rs]): supervised tasks, close and
      shutdown. [Plugins] ([plugins.rs]): attachments, the delivery of events to
      them, and their teardown, as a step relation over any number of callers.

    ** What the theorems show

    - Values: a read serves only what it vetted (present, eligible in the
      current continuity epoch, not removed by a marker, fresh, or stale where
      the options allow it); get-or-set answers with such a value, with the
      product of an origin it ran after missing, or within fail-safe; hydration
      never replaces a newer entry.
    - Mutations: receipts tell what happened; peers learn of stored values
      after they are stored; nothing shows under a lost lease; every lane, lock
      and lease is released exactly once.
    - Stores: conditional writes are compare-and-swaps, an origin commits at
      most once, a clear is a barrier, the limits are respected.
    - Invalidation: the registry of markers never forgets and refines the
      history of marks; the journal is bounded and durable.
    - Markers: a reconciliation applies what the provider said and nothing else;
      a distributed hit was judged after the markers it depends on were read and
      applied;
      what is remembered of a marker never regresses; an invalidation writes,
      publishes and queues only revisions it committed, and its report says so.
    - Recovery: a replay acts only while its ticket is the queue's and the cache
      may act, under the lane of its key; applied work is done; marker writes hold
      their lane; a drain waits out the reconnect delay of every transition.
    - Peers: a gap in the connection retires what was captured before it, an
      invalidation survives any reordering, lost history is reconciled before
      anything is served.
    - Construction and entry: a built cache is coherent, whatever was configured;
      every way into it agrees with the others; standalone misses and assignments
      do what the general pipelines would.
    - Ends: a shutdown waits for everything that was admitted, and reports every
      failure; a plugin session stops once, after its callbacks.
    - Concurrency: one computation per key, mutual exclusion and progress of
      lanes, shutdown that waits for all admitted work, cancellation that is
      final, leases that fence superseded writers.
    - Formats: round trips, the canonical decoder against its grammar, frames
      that never fall back to another format, control that is authenticated.

    ** Bounds and fuel

    Loops that are not structural carry fuel bounded by the data they consume,
    with a theorem that the fuel suffices (the decoder's digits, the reclaim
    scans, the bounded acquisition, whose turns are bounded by what a sleep takes). Widths are those of a 64-bit target.

    ** Parameters

    Code that is not under [src/] is an argument: the user's codecs and cloners,
    factories, [serde_json], the hash of a map, random samples, clocks, and the
    distributed providers. What a theorem needs of one is a named hypothesis,
    instantiated in the theorem's witness.

    ** Not modelled, and why

    - Input and output: the Redis client ([redis_backend.rs]), telemetry
      ([observability.rs], [otel.rs]), tracing spans and metric labels. They are
      behind the provider and observer traits, which are accesses of the model.
    - The request objects and the blocking executor ([cache/*_request.rs],
      [cache/blocking/], accessors of [cache/api.rs]): they carry arguments to the
      modelled operations and drive their futures.
    - The typed plugin handle ([cache/plugin.rs]) and the registry of caches
      ([registry.rs]): a weak handle to a cache, and a map from names to caches
      under a lock.
    - Memory ordering: steps are sequentially consistent. The admission
      handshakes of the source are SeqCst, and its other orderings publish data
      the model reads in the same step.
    - Real time and fairness: a timeout is an answer, so its moment is arbitrary. *)
From stdpp Require Export base tactics option list gmap sets strings.
From Stdlib Require Export ZArith Lia.

#[export] Set Default Goal Selector "!".

(** ** Fallible operations

    A Rust [Result<A, E>] is a value of [result E A]; [?] is the monadic bind,
    written with stdpp's [x ← e; k] notation. *)
Inductive result (E A : Type) : Type :=
| Ok (a : A)
| Err (e : E).
Arguments Ok {E A} a.
Arguments Err {E A} e.

#[export] Instance result_ret {E} : MRet (result E) := λ A a, Ok a.
#[export] Instance result_bind {E} : MBind (result E) := λ A B f r,
  match r with Ok a => f a | Err e => Err e end.
#[export] Instance result_fmap {E} : FMap (result E) := λ A B f r,
  match r with Ok a => Ok (f a) | Err e => Err e end.

Definition is_ok {E A} (r : result E A) : bool :=
  match r with Ok _ => true | Err _ => false end.

Lemma result_bind_ok {E A B} (r : result E A) (f : A → result E B) b :
  r ≫= f = Ok b ↔ ∃ a, r = Ok a ∧ f a = Ok b.
Proof. destruct r; simpl; naive_solver. Qed.

Lemma result_fmap_ok {E A B} (r : result E A) (f : A → B) b :
  f <$> r = Ok b ↔ ∃ a, r = Ok a ∧ b = f a.
Proof. destruct r; simpl; naive_solver. Qed.

(** ** Machine integers

    A [w]-bit integer is a [Z] in the range of its type. The bounds are
    notations for numerals, so that [lia] sees them. *)
Declare Scope amalgam_scope.
Delimit Scope amalgam_scope with amalgam.
Open Scope Z_scope.

Abbreviation i64_min := (-9223372036854775808) (only parsing).
Abbreviation i64_max := 9223372036854775807 (only parsing).
Abbreviation u32_max := 4294967295 (only parsing).
Abbreviation u64_max := 18446744073709551615 (only parsing).
Abbreviation u128_max := 340282366920938463463374607431768211455 (only parsing).

Definition is_i64 (z : Z) : Prop := i64_min ≤ z ≤ i64_max.
Definition is_u64 (z : Z) : Prop := 0 ≤ z ≤ u64_max.
Definition is_u128 (z : Z) : Prop := 0 ≤ z ≤ u128_max.

(** [i64::try_from] on a wider integer. *)
Definition try_i64 (z : Z) : option Z :=
  if (i64_min <=? z) && (z <=? i64_max) then Some z else None.

(** [u64::checked_add], [u64::saturating_add], [i64::saturating_add]. *)
Definition checked_add_u64 (a b : Z) : option Z :=
  if a + b <=? u64_max then Some (a + b) else None.
Definition saturating_add_u64 (a b : Z) : Z := Z.min u64_max (a + b).
Definition saturating_add_u128 (a b : Z) : Z := Z.min u128_max (a + b).
Definition saturating_add_i64 (a b : Z) : Z :=
  Z.max i64_min (Z.min i64_max (a + b)).

Lemma try_i64_spec z w : try_i64 z = Some w ↔ z = w ∧ is_i64 z.
Proof. unfold try_i64, is_i64. destruct (_ && _) eqn:?; naive_solver lia. Qed.

Lemma try_i64_default_max z :
  i64_min ≤ z → default i64_max (try_i64 z) = Z.min i64_max z.
Proof. unfold try_i64. destruct (_ && _) eqn:?; simpl; lia. Qed.

Lemma checked_add_u64_Some a b c :
  checked_add_u64 a b = Some c ↔ c = a + b ∧ a + b ≤ u64_max.
Proof. unfold checked_add_u64. case_match; naive_solver lia. Qed.

(** ** Record update

    [r <| f := v |>] is the assignment [r.f = v]. A record type declares the
    list of its fields once, as an [Eta] instance; the update of a field is
    obtained from it by abstracting the projection. *)
Class Eta (R : Type) := eta : R → R.
Class FieldSet {R T : Type} (proj : R → T) := fset : T → R → R.
Arguments fset {R T} proj {_} v r /.

Ltac derive_field_set proj :=
  lazymatch type of proj with
  | ?R → _ =>
      let inst := constr:(_ : Eta R) in
      let e := eval cbv delta [eta] in inst in
      let e := eval red in e in
      let p := eval pattern proj in e in
      lazymatch p with ?f _ => exact (λ v r, f (λ _, v) r) end
  end.
#[export] Hint Extern 1 (FieldSet ?proj) => (derive_field_set proj) : typeclass_instances.
#[warnings="-postfix-notation-not-level-1"]
Notation "r <| f := v |>" := (fset f v r)
  (at level 12, left associativity, f constr at level 10, v at level 200) : amalgam_scope.
Open Scope amalgam_scope.

(** ** Tactics *)

(** [unfold_ints] exposes the ranges to [lia]; [zsolve] is the usual closer. *)
Ltac unfold_ints :=
  unfold is_i64, is_u64, is_u128, saturating_add_u64, saturating_add_u128,
    saturating_add_i64 in *.
Ltac zsolve := unfold_ints; lia.

(** Split every conditional and match of the goal and the hypotheses, turning
    boolean comparisons into propositions. *)
Ltac bool_to_prop :=
  repeat match goal with
  | H : (_ && _) = true |- _ => apply andb_prop in H as [? ?]
  | H : (_ || _) = false |- _ => apply orb_false_elim in H as [? ?]
  | H : negb _ = true |- _ => apply negb_true_iff in H
  | H : negb _ = false |- _ => apply negb_false_iff in H
  | H : (_ <? _) = true |- _ => apply Z.ltb_lt in H
  | H : (_ <? _) = false |- _ => apply Z.ltb_ge in H
  | H : (_ <=? _) = true |- _ => apply Z.leb_le in H
  | H : (_ <=? _) = false |- _ => apply Z.leb_gt in H
  | H : (_ =? _) = true |- _ => apply Z.eqb_eq in H
  | H : (_ =? _) = false |- _ => apply Z.eqb_neq in H
  | H : bool_decide _ = true |- _ => apply bool_decide_eq_true in H
  | H : bool_decide _ = false |- _ => apply bool_decide_eq_false in H
  end.
Ltac split_cases := repeat (case_match; simplify_eq/=); bool_to_prop.

(** ** Sums over finite maps *)
Section msum.
Context {K : Type} `{Countable K} {A : Type} (f : A → Z).

Definition msum (m : gmap K A) : Z := map_fold (λ _ a acc, f a + acc) 0 m.

Lemma msum_empty : msum ∅ = 0.
Proof. apply map_fold_empty. Qed.

Lemma msum_insert m k a :
  m !! k = None → msum (<[k := a]> m) = f a + msum m.
Proof.
  intros Hk. unfold msum. rewrite map_fold_insert_L; [done| |done].
  intros; lia.
Qed.

Lemma msum_delete m k a : m !! k = Some a → msum (delete k m) = msum m - f a.
Proof.
  intros Hk. rewrite <-(insert_delete_id m k a) at 2 by done.
  rewrite msum_insert by apply lookup_delete_eq. lia.
Qed.

Lemma msum_insert_any m k a :
  msum (<[k := a]> m) = msum m - from_option f 0 (m !! k) + f a.
Proof.
  rewrite <-insert_delete_eq, msum_insert by apply lookup_delete_eq.
  destruct (m !! k) as [b|] eqn:Hk; simpl.
  - rewrite (msum_delete m k b Hk). lia.
  - rewrite delete_id by done. lia.
Qed.

Lemma msum_nonneg m : (∀ k a, m !! k = Some a → 0 ≤ f a) → 0 ≤ msum m.
Proof.
  induction m as [|k a m Hk IH] using map_ind; intros Hf.
  - by rewrite msum_empty.
  - rewrite msum_insert by done.
    assert (0 ≤ f a) by (apply (Hf k); by simplify_map_eq).
    enough (0 ≤ msum m) by lia.
    apply IH. intros j b Hj. apply (Hf j).
    rewrite lookup_insert_ne; [done|]. intros ->. congruence.
Qed.

Lemma msum_lookup_le m k a :
  (∀ j b, m !! j = Some b → 0 ≤ f b) → m !! k = Some a → f a ≤ msum m.
Proof.
  intros Hf Hk. pose proof (msum_delete m k a Hk).
  enough (0 ≤ msum (delete k m)) by lia.
  apply msum_nonneg. intros j b [_ Hj]%lookup_delete_Some. eauto.
Qed.

Lemma msum_bound m c :
  (∀ k a, m !! k = Some a → f a ≤ c) → msum m ≤ c * Z.of_nat (size m).
Proof.
  induction m as [|k a m Hk IH] using map_ind; intros Hf.
  - rewrite msum_empty, map_size_empty. lia.
  - rewrite msum_insert, map_size_insert_None by done.
    assert (f a ≤ c) by (apply (Hf k); by simplify_map_eq).
    enough (msum m ≤ c * Z.of_nat (size m)) by lia.
    apply IH. intros j b Hj. apply (Hf j).
    rewrite lookup_insert_ne; [done|]. intros ->. congruence.
Qed.

Lemma msum_subseteq m1 m2 :
  m1 ⊆ m2 → (∀ k a, m2 !! k = Some a → 0 ≤ f a) → msum m1 ≤ msum m2.
Proof.
  revert m2. induction m1 as [|k a m1 Hk IH] using map_ind; intros m2 Hsub Hf.
  { rewrite msum_empty. by apply msum_nonneg. }
  assert (m2 !! k = Some a) as Hk2 by (eapply lookup_weaken; [apply lookup_insert_eq|done]).
  rewrite msum_insert by done. pose proof (msum_delete m2 k a Hk2).
  enough (msum m1 ≤ msum (delete k m2)) by lia.
  apply IH.
  - apply map_subseteq_spec. intros j b Hj. apply lookup_delete_Some.
    split; [intros ->; congruence|]. eapply lookup_weaken; [|done].
    rewrite lookup_insert_ne; [done|]. intros ->. congruence.
  - intros j b [_ Hj]%lookup_delete_Some. eauto.
Qed.

Lemma msum_zero m : (∀ k a, m !! k = Some a → f a = 0) → msum m = 0.
Proof.
  induction m as [|k a m Hk IH] using map_ind; intros Hf; [apply msum_empty|].
  rewrite msum_insert by done. rewrite (Hf k a) by apply lookup_insert_eq.
  rewrite IH; [done|]. intros j b Hj. apply (Hf j).
  rewrite lookup_insert_ne; [done|]. intros ->. congruence.
Qed.
End msum.

Lemma msum_fmap {K} `{Countable K} {A B} (f : B → Z) (g : A → B) (m : gmap K A) :
  msum f (g <$> m) = msum (f ∘ g) m.
Proof.
  induction m as [|k a m Hk IH] using map_ind; [by rewrite fmap_empty, !msum_empty|].
  rewrite fmap_insert, !msum_insert by (done || by rewrite lookup_fmap, Hk).
  by rewrite IH.
Qed.

Lemma msum_ext {K} `{Countable K} {A} (f g : A → Z) (m : gmap K A) :
  (∀ k a, m !! k = Some a → f a = g a) → msum f m = msum g m.
Proof.
  induction m as [|k a m Hk IH] using map_ind; intros Hf; [by rewrite !msum_empty|].
  rewrite !msum_insert by done. rewrite (Hf k a) by apply lookup_insert_eq. f_equal.
  apply IH. intros j b Hj. apply (Hf j).
  rewrite lookup_insert_ne; [done|]. intros ->. congruence.
Qed.

Lemma size_delete_Some {K} `{Countable K} {A} (m : gmap K A) k a :
  m !! k = Some a → size m = S (size (delete k m)).
Proof.
  intros Hk. rewrite <-(insert_delete_id m k a) at 1 by done.
  by rewrite map_size_insert_None by apply lookup_delete_eq.
Qed.

Create HintDb amalgam discriminated.
Create Rewrite HintDb amalgam.
#[export] Hint Rewrite @msum_empty @map_size_empty : amalgam.
