(* ===== verification/Calls.v ===== *)
(** * Programs that call the other components

    The value pipelines ([Read.v], [Write.v]) are straight-line async code that
    accesses components shared with other tasks. Each is a [prog]: a finite tree
    of calls, one per access, whose continuation takes the answer. Other tasks
    act between two calls, so an answer is not determined by the earlier ones:
    an environment [Env] says which answers are possible, and a property holds
    in it when the weakest precondition [wp] does, for every possible answer.
    [run] executes a program against one handler. *)
From S2P Require Import Prelude.

Inductive prog {C : Type} (ans : C → Type) (A : Type) : Type :=
| Ret (a : A)
| Act (c : C) (k : ans c → prog ans A).
Arguments Ret {C ans A} a.
Arguments Act {C ans A} c k.

(** One access and what it answered. *)
Record event {C : Type} (ans : C → Type) : Type := Ev { ev_call : C; ev_answer : ans ev_call }.
Arguments Ev {C ans} ev_call ev_answer.
Arguments ev_call {C ans}.
Arguments ev_answer {C ans}.

Section prog.
Context {C : Type} {ans : C → Type}.
Local Abbreviation prog := (prog ans).
Local Abbreviation event := (event ans).

(** ** The monads of calls, and of calls that may fail *)
Fixpoint bind {A B} (p : prog A) (f : A → prog B) : prog B :=
  match p with
  | Ret a => f a
  | Act c k => Act c (λ x, bind (k x) f)
  end.

Definition call (c : C) : prog (ans c) := Act c Ret.
Definition ok {E A} (a : A) : prog (result E A) := Ret (Ok a).
Definition raise {E A} (e : E) : prog (result E A) := Ret (Err e).

(** [?] returns early with the error. *)
Definition attempt {E A B} (p : prog (result E A)) (f : A → prog (result E B)) : prog (result E B) :=
  bind p (λ r, match r with Ok a => f a | Err e => Ret (Err e) end).

(** ** Environments *)
Record Env := mkEnv {
  env_state : Type;
  allows : env_state → ∀ c, ans c → env_state → Prop }.

Fixpoint wp (E : Env) {A} (p : prog A) (s : env_state E) (Q : A → env_state E → Prop) : Prop :=
  match p with
  | Ret a => Q a s
  | Act c k => ∀ x s', allows E s c x s' → wp E (k x) s' Q
  end.

Lemma wp_mono E {A} (p : prog A) s (Q Q' : A → env_state E → Prop) :
  wp E p s Q → (∀ a s', Q a s' → Q' a s') → wp E p s Q'.
Proof. revert s. induction p as [a|c k IH]; intros s H HQ; [by apply HQ|]. intros x s' Hx. eauto. Qed.

Lemma wp_bind E {A B} (p : prog A) (f : A → prog B) s Q :
  wp E (bind p f) s Q ↔ wp E p s (λ a s', wp E (f a) s' Q).
Proof.
  revert s. induction p as [a|c k IH]; intros s; simpl; [done|].
  split; intros H x s' Hx; apply IH; auto.
Qed.

Lemma wp_attempt E {A B X} (p : prog (result X A)) (f : A → prog (result X B)) s Q :
  wp E (attempt p f) s Q ↔
  wp E p s (λ r s', match r with Ok a => wp E (f a) s' Q | Err e => Q (Err e) s' end).
Proof.
  unfold attempt. rewrite wp_bind.
  split; intros H; (eapply wp_mono; [done|]); by intros [a|e] s'.
Qed.

(** ** Invariants *)

(** Every call of the program satisfies [P]. *)
Fixpoint only (P : C → Prop) {A} (p : prog A) : Prop :=
  match p with Ret _ => True | Act c k => P c ∧ ∀ x, only P (k x) end.

Lemma only_mono (P P' : C → Prop) {A} (p : prog A) : only P p → (∀ c, P c → P' c) → only P' p.
Proof. intros Hp HP. induction p as [a|c k IH]; simpl in *; [done|]. destruct Hp. split; auto. Qed.

Lemma only_bind P {A B} (p : prog A) (f : A → prog B) :
  only P p → (∀ a, only P (f a)) → only P (bind p f).
Proof. induction p as [a|c k IH]; simpl; [auto|]. intros [? ?] ?. split; [done|]. eauto. Qed.

Lemma only_attempt P {A B X} (p : prog (result X A)) (f : A → prog (result X B)) :
  only P p → (∀ a, only P (f a)) → only P (attempt p f).
Proof. intros Hp Hf. apply only_bind; [done|]. intros [a|e]; [apply Hf|done]. Qed.

Lemma wp_invariant E (P : C → Prop) (I : env_state E → Prop) {A} (p : prog A) s :
  only P p → I s → (∀ s c x s', P c → I s → allows E s c x s' → I s') → wp E p s (λ _, I).
Proof.
  intros Hp Hs Hstep. induction p as [a|c k IH] in s, Hp, Hs |- *; [done|].
  destruct Hp as [Hc Hk]. intros x s' Hx. apply IH; [done|]. by eapply Hstep.
Qed.

Lemma wp_conj E {A} (p : prog A) s (Q Q' : A → env_state E → Prop) :
  wp E p s Q → wp E p s Q' → wp E p s (λ a s', Q a s' ∧ Q' a s').
Proof. revert s. induction p as [a|c k IH]; intros s H H'; [done|]. intros x s' Hx. apply IH; auto. Qed.

(** ** Every possible answer, with the accesses [keep] selects recorded newest
    first *)
Definition record (keep : C → bool) (c : C) (x : ans c) (h : list event) : list event :=
  if keep c then Ev c x :: h else h.
Definition any (keep : C → bool) : Env :=
  mkEnv (list event) (λ h c x h', h' = record keep c x h).

(** [l] is what happened after [ev]. *)
Inductive since (ev : event) : list event → list event → Prop :=
| since_now h : since ev [] (ev :: h)
| since_later x l h : since ev l h → since ev (x :: l) (x :: h).

Lemma since_app ev l l' h : since ev l h → since ev (l' ++ l) (l' ++ h).
Proof. induction l'; simpl; [done|]. intros. constructor. auto. Qed.
Lemma since_app_r ev l h t : since ev l h → since ev l (h ++ t).
Proof. induction 1; simpl; by constructor. Qed.
Lemma since_elem ev l h : since ev l h → ev ∈ h.
Proof. induction 1; [left|by right]. Qed.
Lemma since_incl ev l h x : since ev l h → x ∈ l → x ∈ h.
Proof. induction 1; [by intros ?%elem_of_nil|]. rewrite !elem_of_cons. naive_solver. Qed.

(** Whatever a program does, the record only grows. *)
Lemma wp_grows keep {A} (p : prog A) h : wp (any keep) p h (λ _ h', ∃ l, h' = l ++ h).
Proof.
  apply (wp_invariant _ (λ _, True) (λ h' : env_state (any keep), ∃ l, h' = l ++ h)).
  - by induction p as [|c k IH]; simpl; [|split].
  - by exists [].
  - intros h' c x ? _ [l ->] ->. unfold record. destruct (keep c); [by exists (Ev c x :: l)|by exists l].
Qed.

(** ... with calls of the program. *)
Lemma wp_only keep (P : C → Prop) {A} (p : prog A) h Q :
  only P p → wp (any keep) p h (λ a h', ∃ l, h' = l ++ h ∧ Q a l) →
  wp (any keep) p h (λ a h', ∃ l, h' = l ++ h ∧ Forall (λ ev, P (ev_call ev)) l ∧ Q a l).
Proof.
  intros Hp HQ. eapply wp_mono; [eapply wp_conj; [exact HQ|]|].
  - apply (wp_invariant _ P (λ h' : env_state (any keep),
      ∃ l, h' = l ++ h ∧ Forall (λ ev, P (ev_call ev)) l)); [done|by exists []|].
    intros h' c x ? Hc (l & -> & Hl) ->. unfold record.
    destruct (keep c); [exists (Ev c x :: l)|exists l]; auto.
  - intros a h' [(l & -> & HQ') (l' & E & Hl)]. apply app_inv_tail in E as <-. eauto.
Qed.

(** An access whose outcome does not matter to the rest of a proof. *)
Lemma wp_skip keep {A B} (p : prog A) (f : A → prog B) h Q :
  (∀ a l, wp (any keep) (f a) (l ++ h) Q) → wp (any keep) (bind p f) h Q.
Proof. intros H. apply wp_bind. eapply wp_mono; [apply wp_grows|]. intros a h' [l ->]. apply H. Qed.

Lemma wp_skip_attempt keep {A B X} (p : prog (result X A)) (f : A → prog (result X B)) h Q :
  (∀ a l, wp (any keep) (f a) (l ++ h) Q) → (∀ e l, Q (Err e) (l ++ h)) →
  wp (any keep) (attempt p f) h Q.
Proof. intros H He. apply wp_skip. intros [a|e] l; [apply H|apply He]. Qed.

(** ** Executions *)
Definition handler (S : Type) : Type := S → ∀ c, ans c * S.

Fixpoint run {S A} (h : handler S) (p : prog A) (s : S) : A * S :=
  match p with
  | Ret a => (a, s)
  | Act c k => let '(x, s') := h s c in run h (k x) s'
  end.

(** The environment in which each call has the handler's answer. *)
Definition handled {S} (h : handler S) : Env := mkEnv S (λ s c x s', h s c = (x, s')).

Lemma wp_handled {S A} (h : handler S) (p : prog A) s Q :
  wp (handled h) p s Q ↔ Q (run h p s).1 (run h p s).2.
Proof.
  revert s. induction p as [a|c k IH]; intros s; simpl; [done|].
  destruct (h s c) as [x s'] eqn:Hx.
  split; [intros H; by apply IH, H|]. intros H x' s'' [= <- <-]. by apply IH.
Qed.

Lemma run_bind {S A B} (h : handler S) (p : prog A) (f : A → prog B) s :
  run h (bind p f) s = let '(a, s') := run h p s in run h (f a) s'.
Proof. revert s. induction p as [a|c k IH]; intros s; simpl; [done|]. destruct (h s c). apply IH. Qed.

(** A handler that also records its answers. *)
Definition recording {S} (keep : C → bool) (h : handler S) : handler (S * list event) :=
  λ '(s, l) c, let '(x, s') := h s c in (x, (s', record keep c x l)).

(** ** Simulation: what holds for the possible answers of [E'] holds for those
    of an environment it simulates *)
Definition simulates (E E' : Env) (R : env_state E → env_state E' → Prop) : Prop :=
  ∀ s t c x s', R s t → allows E s c x s' → ∃ t', allows E' t c x t' ∧ R s' t'.

Lemma wp_simulates E E' R {A} (p : prog A) s t Q :
  simulates E E' R → R s t → wp E' p t (λ a t', ∀ s', R s' t' → Q a s') → wp E p s Q.
Proof.
  intros Hsim. revert s t. induction p as [a|c k IH]; intros s t HR H; [by apply H|].
  intros x s' Hx. destruct (Hsim _ _ _ _ _ HR Hx) as (t' & Ht & HR').
  eapply IH; [done|]. by apply H.
Qed.

(** A property proved for every answer holds of every recorded execution. *)
Lemma wp_any_run {S A} keep (h : handler S) (p : prog A) s l Q :
  wp (any keep) p l Q →
  let '(a, (_, l')) := run (recording keep h) p (s, l) in Q a l'.
Proof.
  intros H.
  enough (wp (handled (recording keep h)) p (s, l) (λ a s', Q a s'.2)) as Hr.
  { rewrite wp_handled in Hr. by destruct (run (recording keep h) p (s, l)) as [a [s' l']]. }
  apply (wp_simulates (handled (recording keep h)) (any keep) (λ s l, s.2 = l)) with (t := l); [|done|].
  - intros [s1 l1] l2 c x [s1' l1'] <-. simpl. destruct (h s1 c) as [y s2]. intros [= <- <- <-].
    eauto.
  - eapply wp_mono; [done|]. by intros a l' Ha [s' l''] <-.
Qed.
End prog.
Arguments Env {C} ans.

Declare Scope prog_scope.
Delimit Scope prog_scope with prog.
Notation "'let*' x := p 'in' k" := (bind p (λ x, k))
  (at level 10, x binder, p at level 100, k at level 200) : prog_scope.
Notation "'let?' x := p 'in' k" := (attempt p (λ x, k))
  (at level 10, x binder, p at level 100, k at level 200) : prog_scope.
Notation "p ';;;' k" := (bind p (λ _ : unit, k))
  (at level 199, right associativity) : prog_scope.
