(* ===== verification/Time.v ===== *)
(** * Time: timestamps, durations, clocks and timeouts

    Models [src/src/time.rs] and [src/src/time/local.rs]. A [Timestamp] is the
    signed 64-bit tick count the code wraps, a [Duration] the standard
    library's pair of seconds ([u64]) and nanoseconds ([u32], below one
    billion), an [Instant] a monotonic reading in nanoseconds with the range of
    the Unix [Timespec] (signed 64-bit seconds). *)
From S2P Require Import Prelude.

Abbreviation TICKS_PER_SECOND := 10000000 (only parsing).
Abbreviation NANOS_PER_TICK := 100 (only parsing).
Abbreviation NANOS_PER_SEC := 1000000000 (only parsing).

(** ** std::time::Duration *)
Record Duration := mkDuration { d_secs : Z; d_nanos : Z }.

#[export] Instance Duration_eq_dec : EqDecision Duration.
Proof. solve_decision. Defined.

Definition duration_wf (d : Duration) : Prop :=
  0 ≤ d_secs d ≤ u64_max ∧ 0 ≤ d_nanos d < NANOS_PER_SEC.

Definition Duration_ZERO : Duration := mkDuration 0 0.
Definition from_secs (s : Z) : Duration := mkDuration s 0.
Definition as_nanos (d : Duration) : Z := d_secs d * NANOS_PER_SEC + d_nanos d.
Definition as_millis (d : Duration) : Z := as_nanos d / 1000000.
Definition is_zero (d : Duration) : bool :=
  (d_secs d =? 0) && (d_nanos d =? 0).
Definition of_nanos (n : Z) : Duration :=
  mkDuration (n / NANOS_PER_SEC) (n mod NANOS_PER_SEC).

(** The derived lexicographic order of the two fields. *)
Definition duration_ltb (a b : Duration) : bool :=
  (d_secs a <? d_secs b)
  || ((d_secs a =? d_secs b) && (d_nanos a <? d_nanos b)).
Definition duration_max (a b : Duration) : Duration :=
  if duration_ltb b a then a else b.
Definition duration_min (a b : Duration) : Duration :=
  if duration_ltb b a then b else a.

(** ** Tick conversions and Timestamp *)
Abbreviation Timestamp := Z (only parsing).
Abbreviation timestamp_MIN := i64_min (only parsing).
Abbreviation timestamp_MAX := i64_max (only parsing).

Definition duration_ticks_wide (duration : Duration) : Z :=
  d_secs duration * TICKS_PER_SECOND + d_nanos duration / NANOS_PER_TICK.

Definition unsigned_ticks_to_duration (ticks : Z) : Duration :=
  let seconds := ticks / TICKS_PER_SECOND in
  let nanos := (ticks mod TICKS_PER_SECOND) * NANOS_PER_TICK in
  mkDuration seconds nanos.

Definition saturating_add (self : Timestamp) (duration : Duration) : Timestamp :=
  let result := self + duration_ticks_wide duration in
  default i64_max (try_i64 result).

Definition saturating_duration_since (self earlier : Timestamp) : Duration :=
  if self <=? earlier then Duration_ZERO
  else unsigned_ticks_to_duration (Z.abs (self - earlier)).

Definition is_before (self other : Timestamp) : bool := self <? other.

Definition duration_to_ticks (duration : Duration) : Z :=
  default i64_max (try_i64 (duration_ticks_wide duration)).

Definition ticks_to_duration (ticks : Z) : Duration :=
  unsigned_ticks_to_duration (Z.max ticks 0).

(** [LifetimeSpan(i128)]: a duration converted once. *)
Record LifetimeSpan := mkLifetimeSpan { span_ticks : Z }.
Module LifetimeSpan.
Definition new (duration : Duration) : LifetimeSpan :=
  mkLifetimeSpan (duration_ticks_wide duration).
Definition after (self : LifetimeSpan) (timestamp : Timestamp) : Timestamp :=
  default i64_max (try_i64 (timestamp + span_ticks self)).
End LifetimeSpan.

#[export] Instance LifetimeSpan_eq_dec : EqDecision LifetimeSpan.
Proof. solve_decision. Defined.

(** [at.duration_since(UNIX_EPOCH)] is [Ok] of the elapsed time, or [Err] of
    the time missing to the epoch. *)
Definition timestamp_from_system_time
    (since_epoch : result Duration Duration) : Timestamp :=
  match since_epoch with
  | Ok elapsed => duration_to_ticks elapsed
  | Err before_epoch =>
      let ticks := (as_nanos before_epoch + (NANOS_PER_TICK - 1)) / NANOS_PER_TICK in
      default i64_min (try_i64 (- ticks))
  end.

(** ** Clocks *)
Inductive ClockTiming := RealTime_timing | Controlled.

(** [ManualClock]'s atomic tick count; [advance] is one [fetch_update]. *)
Record ManualClock := mkManualClock { clock_ticks : Timestamp }.
Module ManualClock.
Definition new (start : Timestamp) : ManualClock := mkManualClock start.
Definition advance (self : ManualClock) (duration : Duration) : ManualClock :=
  mkManualClock (saturating_add (clock_ticks self) duration).
Definition set (self : ManualClock) (at_ : Timestamp) : ManualClock :=
  mkManualClock at_.
Definition default : ManualClock := new (1000000000 * TICKS_PER_SECOND).
Definition now (self : ManualClock) : Timestamp := clock_ticks self.
End ManualClock.

(** ** Timeout *)
Inductive Timeout := Infinite | After (d : Duration).

#[export] Instance Timeout_eq_dec : EqDecision Timeout.
Proof. solve_decision. Defined.

Module Timeout.
Definition from_option (duration : option Duration) : Timeout :=
  match duration with Some d => After d | None => Infinite end.
Definition is_infinite (self : Timeout) : bool :=
  match self with Infinite => true | After _ => false end.
Definition is_immediate (self : Timeout) : bool :=
  match self with After d => is_zero d | Infinite => false end.
Definition as_duration (self : Timeout) : option Duration :=
  match self with Infinite => None | After d => Some d end.
Definition min (self other : Timeout) : Timeout :=
  match self, other with
  | Infinite, o => o
  | s, Infinite => s
  | After a, After b => After (duration_min a b)
  end.
End Timeout.

(** ** std::time::Instant and the local monotonic clock *)
Abbreviation Instant := Z (only parsing).
Abbreviation instant_limit := (9223372036854775808 * 1000000000) (only parsing).

Definition instant_wf (i : Instant) : Prop :=
  - instant_limit ≤ i < instant_limit.
Definition instant_checked_add (i : Instant) (d : Duration) : option Instant :=
  if i + as_nanos d <? instant_limit then Some (i + as_nanos d) else None.
Definition instant_duration_since (self earlier : Instant) : Duration :=
  if self <? earlier then Duration_ZERO else of_nanos (self - earlier).

Inductive WriteTime :=
| WT_Clock (now : Timestamp)
| WT_Elapsed (now : Timestamp) (instant : Instant).
Module WriteTime.
Definition now (self : WriteTime) : Timestamp :=
  match self with WT_Clock now | WT_Elapsed now _ => now end.
(** [instant_now] is the reading [Instant::now()] returns at the call. *)
Definition physical_start (self : WriteTime) (instant_now : Instant) : Instant :=
  match self with
  | WT_Clock _ => instant_now
  | WT_Elapsed _ instant => instant
  end.
End WriteTime.

Inductive MonotonicDeadline := At (i : Instant) | BeyondRange.
Module MonotonicDeadline.
Definition expired (self : MonotonicDeadline) (now : Instant) : bool :=
  match self with At deadline => deadline <=? now | BeyondRange => false end.
End MonotonicDeadline.

Record LocalClock := mkLocalClock { lc_epoch : Timestamp; lc_origin : Instant }.
Module LocalClock.
(** One [Instant::now()] reading [elapsed] yields both coordinates. *)
Definition sample (self : LocalClock) (elapsed : Instant) : Timestamp * Instant :=
  (saturating_add (lc_epoch self)
     (instant_duration_since elapsed (lc_origin self)), elapsed).
Definition deadline (self : LocalClock) (at_ : Timestamp) : MonotonicDeadline :=
  match instant_checked_add (lc_origin self)
          (saturating_duration_since at_ (lc_epoch self)) with
  | Some deadline => At deadline
  | None => BeyondRange
  end.
End LocalClock.

(** [CacheClock]: the private local clock, or a shared one whose reading is an
    argument. *)
Inductive CacheClock := Local (clock : LocalClock) | Shared.
Module CacheClock.
Definition now (self : CacheClock) (elapsed : Instant) (shared : Timestamp)
    : Timestamp :=
  match self with
  | Local clock => (LocalClock.sample clock elapsed).1
  | Shared => shared
  end.
Definition write_time (self : CacheClock) (elapsed : Instant) (shared : Timestamp)
    : WriteTime :=
  match self with
  | Local clock =>
      let '(now, instant) := LocalClock.sample clock elapsed in
      WT_Elapsed now instant
  | Shared => WT_Clock shared
  end.
End CacheClock.

(** ** Lemmas on durations and ticks *)
Section duration_lemmas.
Implicit Types d a b : Duration.

Lemma as_nanos_nonneg d : duration_wf d → 0 ≤ as_nanos d.
Proof. unfold duration_wf, as_nanos. lia. Qed.

(** The split conversion agrees with one wide division of the nanoseconds. *)
Lemma duration_ticks_wide_nanos d :
  duration_ticks_wide d = as_nanos d / NANOS_PER_TICK.
Proof.
  unfold duration_ticks_wide, as_nanos.
  replace (d_secs d * 1000000000) with (d_secs d * 10000000 * 100) by lia.
  rewrite Z.div_add_l by lia. done.
Qed.

Lemma duration_ticks_wide_bounds d :
  duration_wf d → 0 ≤ duration_ticks_wide d ≤ u64_max * TICKS_PER_SECOND + 9999999.
Proof.
  unfold duration_wf, duration_ticks_wide. intros [? ?].
  pose proof (Z.div_pos (d_nanos d) 100).
  pose proof (Z.div_lt_upper_bound (d_nanos d) 100 10000000). lia.
Qed.

Lemma duration_ltb_nanos a b :
  duration_wf a → duration_wf b → duration_ltb a b = (as_nanos a <? as_nanos b).
Proof.
  unfold duration_wf, duration_ltb, as_nanos. intros [??] [??].
  apply eq_bool_prop_intro. rewrite Is_true_true, Is_true_true.
  rewrite orb_true_iff, andb_true_iff, !Z.ltb_lt, Z.eqb_eq. lia.
Qed.

Lemma duration_eq_nanos a b :
  duration_wf a → duration_wf b → as_nanos a = as_nanos b → a = b.
Proof.
  destruct a, b. unfold duration_wf, as_nanos; simpl. intros.
  f_equal; lia.
Qed.

Lemma duration_max_nanos a b :
  duration_wf a → duration_wf b →
  as_nanos (duration_max a b) = Z.max (as_nanos a) (as_nanos b).
Proof.
  intros. unfold duration_max. rewrite duration_ltb_nanos by done.
  case_match; bool_to_prop; lia.
Qed.

Lemma duration_max_wf a b :
  duration_wf a → duration_wf b → duration_wf (duration_max a b).
Proof. intros. unfold duration_max. by case_match. Qed.

Lemma duration_max_ticks a b :
  duration_wf a → duration_wf b →
  duration_ticks_wide (duration_max a b) =
  Z.max (duration_ticks_wide a) (duration_ticks_wide b).
Proof.
  intros. rewrite !duration_ticks_wide_nanos, duration_max_nanos by done.
  destruct (Z.max_spec (as_nanos a) (as_nanos b)) as [[? ->]|[? ->]].
  - pose proof (Z.div_le_mono (as_nanos a) (as_nanos b) 100). lia.
  - pose proof (Z.div_le_mono (as_nanos b) (as_nanos a) 100). lia.
Qed.

Lemma of_nanos_spec n :
  0 ≤ n < 18446744073709551616 * NANOS_PER_SEC → duration_wf (of_nanos n) ∧ as_nanos (of_nanos n) = n.
Proof.
  intros. unfold duration_wf, as_nanos, of_nanos; simpl.
  pose proof (Z.div_mod n 1000000000). pose proof (Z.mod_pos_bound n 1000000000).
  pose proof (Z.div_pos n 1000000000).
  pose proof (Z.div_lt_upper_bound n 1000000000 18446744073709551616). lia.
Qed.

Lemma unsigned_ticks_to_duration_spec t :
  is_u64 t →
  duration_wf (unsigned_ticks_to_duration t) ∧
  as_nanos (unsigned_ticks_to_duration t) = t * NANOS_PER_TICK ∧
  duration_ticks_wide (unsigned_ticks_to_duration t) = t.
Proof.
  unfold is_u64. intros Ht.
  assert (as_nanos (unsigned_ticks_to_duration t) = t * NANOS_PER_TICK) as Hn.
  { unfold as_nanos, unsigned_ticks_to_duration; simpl.
    pose proof (Z.div_mod t 10000000). lia. }
  split_and!; [|done|].
  - unfold duration_wf, unsigned_ticks_to_duration; simpl.
    pose proof (Z.mod_pos_bound t 10000000). pose proof (Z.div_pos t 10000000).
    pose proof (Z.div_le_upper_bound t 10000000 u64_max). lia.
  - rewrite duration_ticks_wide_nanos, Hn. by rewrite Z.div_mul.
Qed.
End duration_lemmas.

(** ** Lemmas on timestamps *)
Section timestamp_lemmas.
Implicit Types (t : Timestamp) (d : Duration).

Lemma saturating_add_min t d :
  is_i64 t → duration_wf d →
  saturating_add t d = Z.min i64_max (t + duration_ticks_wide d).
Proof.
  unfold is_i64. intros ? Hd. pose proof (duration_ticks_wide_bounds d Hd).
  unfold saturating_add. apply try_i64_default_max. lia.
Qed.

Lemma saturating_add_i64_range t d :
  is_i64 t → duration_wf d → is_i64 (saturating_add t d).
Proof.
  intros Ht Hd. rewrite saturating_add_min by done.
  pose proof (duration_ticks_wide_bounds d Hd). zsolve.
Qed.

Lemma saturating_add_ge t d :
  is_i64 t → duration_wf d → t ≤ saturating_add t d.
Proof.
  intros Ht Hd. rewrite saturating_add_min by done.
  pose proof (duration_ticks_wide_bounds d Hd). zsolve.
Qed.

Lemma saturating_add_zero t : is_i64 t → saturating_add t Duration_ZERO = t.
Proof.
  intros. rewrite saturating_add_min by (done || (unfold duration_wf; simpl; lia)).
  change (duration_ticks_wide Duration_ZERO) with 0. zsolve.
Qed.

Lemma saturating_add_mono t d d' :
  is_i64 t → duration_wf d → duration_wf d' →
  duration_ticks_wide d ≤ duration_ticks_wide d' →
  saturating_add t d ≤ saturating_add t d'.
Proof. intros. rewrite !saturating_add_min by done. lia. Qed.

Lemma span_after_saturating_add t d :
  LifetimeSpan.after (LifetimeSpan.new d) t = saturating_add t d.
Proof. done. Qed.

Lemma since_wf a b :
  is_i64 a → is_i64 b → duration_wf (saturating_duration_since a b).
Proof.
  unfold is_i64, saturating_duration_since. intros.
  case_match; [unfold duration_wf; simpl; lia|]. bool_to_prop.
  apply unsigned_ticks_to_duration_spec. zsolve.
Qed.

Lemma since_ticks a b :
  is_i64 a → is_i64 b →
  duration_ticks_wide (saturating_duration_since a b) = Z.max 0 (a - b).
Proof.
  unfold is_i64, saturating_duration_since. intros.
  case_match; bool_to_prop; [change (duration_ticks_wide Duration_ZERO) with 0; lia|].
  pose proof (unsigned_ticks_to_duration_spec (Z.abs (a - b))) as [_ [_ ->]];
    zsolve.
Qed.

Lemma since_nanos a b :
  is_i64 a → is_i64 b →
  as_nanos (saturating_duration_since a b) = Z.max 0 (a - b) * NANOS_PER_TICK.
Proof.
  unfold is_i64, saturating_duration_since. intros.
  case_match; bool_to_prop; [unfold as_nanos; simpl; lia|].
  pose proof (unsigned_ticks_to_duration_spec (Z.abs (a - b))) as [_ [-> _]];
    zsolve.
Qed.

(** Adding back the distance from an earlier instant is exact. *)
Lemma saturating_add_since a b :
  is_i64 a → is_i64 b →
  saturating_add b (saturating_duration_since a b) = Z.max a b.
Proof.
  intros. rewrite saturating_add_min, since_ticks by auto using since_wf.
  zsolve.
Qed.
End timestamp_lemmas.

(** ** The local clock *)
Lemma deadline_expired_sample (c : LocalClock) (at_ : Timestamp) (now : Instant) :
  is_i64 (lc_epoch c) → is_i64 at_ →
  instant_wf (lc_origin c) → instant_wf now → lc_origin c ≤ now →
  MonotonicDeadline.expired (LocalClock.deadline c at_) now =
  negb (is_before (LocalClock.sample c now).1 at_).
Proof.
  destruct c as [epoch origin]; simpl. unfold instant_wf. intros He Hat Ho Hn Hle.
  unfold LocalClock.deadline, LocalClock.sample, is_before; simpl.
  unfold instant_duration_since. destruct (now <? origin) eqn:?; bool_to_prop; [lia|].
  destruct (of_nanos_spec (now - origin)) as [Hwf Hns]; [lia|].
  rewrite saturating_add_min, duration_ticks_wide_nanos, Hns by done.
  unfold instant_checked_add. rewrite since_nanos by done.
  unfold is_i64 in *.
  pose proof (Z.div_mod (now - origin) 100).
  pose proof (Z.mod_pos_bound (now - origin) 100).
  destruct (_ <? instant_limit) eqn:Hc; simpl; bool_to_prop;
    destruct (Z.min _ _ <? at_) eqn:Hm; simpl; bool_to_prop;
    rewrite ?Z.leb_le, ?Z.leb_gt; lia || reflexivity.
Qed.

(** ** Properties *)

(** Tick arithmetic never wraps. For every 64-bit timestamp and every
    [Duration], [saturating_add] is the exact sum of the timestamp and the
    duration's whole ticks (its nanoseconds divided by 100 and rounded down),
    cut at [Timestamp::MAX]; the result is a 64-bit value, not before the
    start; and [saturating_duration_since] recovers exactly the added whole
    ticks as long as the sum did not reach the upper bound. *)
Theorem saturating_add_exact (t : Timestamp) (d : Duration) :
  is_i64 t → duration_wf d →
  saturating_add t d = Z.min i64_max (t + as_nanos d / NANOS_PER_TICK) ∧
  is_i64 (saturating_add t d) ∧ t ≤ saturating_add t d ∧
  (saturating_add t d < i64_max →
   as_nanos (saturating_duration_since (saturating_add t d) t) =
   as_nanos d - as_nanos d mod NANOS_PER_TICK).
Proof.
  intros Ht Hd.
  pose proof (saturating_add_i64_range t d Ht Hd) as Hr.
  pose proof (saturating_add_ge t d Ht Hd).
  split_and!; [|done..|].
  - rewrite saturating_add_min, duration_ticks_wide_nanos by done. done.
  - intros Hlt. rewrite since_nanos by done.
    rewrite saturating_add_min, duration_ticks_wide_nanos in * by done.
    pose proof (Z.div_mod (as_nanos d) 100).
    pose proof (Z.div_pos (as_nanos d) 100). pose proof (as_nanos_nonneg d Hd). lia.
Qed.

Lemma saturating_add_exact_witness :
  saturating_add 5 (mkDuration 3 150) = 30000006 ∧
  as_nanos (saturating_duration_since 30000006 5) = 3000000100.
Proof.
  pose proof (saturating_add_exact 5 (mkDuration 3 150)) as H.
  destruct H as (H & _ & _ & H').
  - vm_compute; split; discriminate.
  - vm_compute; repeat split; discriminate || reflexivity.
  - split; [exact H|]. rewrite H in H'. apply H'. vm_compute. reflexivity.
Defined.

(** [SystemTime] as signed nanoseconds from the epoch. *)
Definition signed_nanos (since_epoch : result Duration Duration) : Z :=
  match since_epoch with Ok d => as_nanos d | Err d => - as_nanos d end.

(** The wall-clock reading is floored at tick precision on both sides of
    the epoch: for every [SystemTime] the timestamp is the floor of its signed
    nanoseconds over 100, cut to the 64-bit range. *)
Theorem timestamp_from_system_time_floor (at_ : result Duration Duration) :
  match at_ with Ok d | Err d => duration_wf d end →
  timestamp_from_system_time at_ =
  Z.max i64_min (Z.min i64_max (signed_nanos at_ / NANOS_PER_TICK)).
Proof.
  destruct at_ as [d|d]; simpl; intros Hd; pose proof (as_nanos_nonneg d Hd).
  - unfold duration_to_ticks. rewrite duration_ticks_wide_nanos.
    pose proof (Z.div_pos (as_nanos d) 100).
    rewrite try_i64_default_max by lia. lia.
  - assert (- ((as_nanos d + 99) / 100) = - as_nanos d / 100) as Hf.
    { apply (Z.div_unique_pos _ _ _ (99 - (as_nanos d + 99) mod 100)).
      - pose proof (Z.mod_pos_bound (as_nanos d + 99) 100). lia.
      - pose proof (Z.div_mod (as_nanos d + 99) 100). lia. }
    change (as_nanos d + (100 - 1)) with (as_nanos d + 99). rewrite Hf.
    pose proof (Z.div_le_upper_bound (- as_nanos d) 100 0).
    unfold try_i64. destruct (_ && _) eqn:Hc; simpl; bool_to_prop; [lia|].
    apply andb_false_iff in Hc. lia.
Qed.

Lemma timestamp_from_system_time_floor_witness :
  timestamp_from_system_time (Err (mkDuration 0 1)) = -1 ∧
  signed_nanos (Err (mkDuration 0 1)) / NANOS_PER_TICK = -1.
Proof.
  split; [|reflexivity].
  rewrite (timestamp_from_system_time_floor (Err (mkDuration 0 1))).
  - vm_compute. reflexivity.
  - vm_compute; repeat split; discriminate || reflexivity.
Defined.

(** A deadline stored on the monotonic scale decides expiry exactly as
    projecting the elapsed reading to a timestamp would. For the local clock
    and every reading not before its origin, the prepared deadline of [at_] has
    passed if and only if the sampled timestamp has reached [at_]; a deadline
    outside the representable range never passes, and neither does the sample
    reach it. *)
Theorem local_deadline_agrees (c : LocalClock) (at_ : Timestamp) (now : Instant) :
  is_i64 (lc_epoch c) → is_i64 at_ →
  instant_wf (lc_origin c) → instant_wf now → lc_origin c ≤ now →
  MonotonicDeadline.expired (LocalClock.deadline c at_) now =
  negb (is_before (LocalClock.sample c now).1 at_).
Proof. apply deadline_expired_sample. Qed.

Lemma local_deadline_agrees_witness :
  MonotonicDeadline.expired
    (LocalClock.deadline (mkLocalClock 1000 50) 1003) 349 = false ∧
  negb (is_before (LocalClock.sample (mkLocalClock 1000 50) 349).1 1003) = false.
Proof.
  rewrite <-(local_deadline_agrees (mkLocalClock 1000 50) 1003 349);
    first [vm_compute; done | vm_compute; split; discriminate].
Defined.
