(* ===== verification/Circuit.v ===== *)
(** * The circuit breaker

    Models [src/src/circuit.rs]. The breaker's only mutable state is the atomic
    word [reopen_at]. Each method is given twice: as the function it computes
    when no other thread interferes, and, in [step], as the sequence of atomic
    accesses it performs, interleaved with those of every other caller. *)
From S2P Require Import Prelude Time.

Abbreviation CLOSED := i64_min (only parsing).

Inductive CircuitCheck :=
| Closed
| Open (until : Timestamp)
| ClosedAfterCooldown.

#[export] Instance CircuitCheck_eq_dec : EqDecision CircuitCheck.
Proof. solve_decision. Defined.

Record CircuitBreaker := mkBreaker { open_duration : Duration; reopen_at : Z }.

Module CircuitBreaker.
Definition new (open_duration : Duration) : CircuitBreaker :=
  mkBreaker open_duration CLOSED.

Definition is_disabled (self : CircuitBreaker) : bool :=
  is_zero (open_duration self).

Definition store (self : CircuitBreaker) (v : Z) : CircuitBreaker :=
  mkBreaker (open_duration self) v.

(** Without interference the compare-exchange succeeds on its first attempt. *)
Definition check (self : CircuitBreaker) (now : Timestamp)
    : CircuitCheck * CircuitBreaker :=
  if is_disabled self then (Closed, self)
  else
    let reopen := reopen_at self in
    if reopen =? CLOSED then (Closed, self)
    else if now <? reopen then (Open reopen, self)
    else (ClosedAfterCooldown, store self CLOSED).

Definition is_closed (self : CircuitBreaker) (now : Timestamp)
    : bool * CircuitBreaker :=
  let '(c, self') := check self now in
  (match c with Open _ => false | _ => true end, self').

Definition is_closed_without_clock (self : CircuitBreaker) : bool :=
  is_disabled self || (reopen_at self =? CLOSED).

(** The reopening tick a failure observed at [now] asks for. *)
Definition trip_until (self : CircuitBreaker) (now : Timestamp) : Z :=
  Z.max (saturating_add now (open_duration self)) (saturating_add_i64 now 1).

Definition trip (self : CircuitBreaker) (now : Timestamp) : bool * CircuitBreaker :=
  if is_disabled self then (false, self)
  else
    let reopen := trip_until self now in
    let previous := reopen_at self in
    (previous =? CLOSED, store self (Z.max previous reopen)).

Definition close (self : CircuitBreaker) : bool * CircuitBreaker :=
  if reopen_at self =? CLOSED then (false, self)
  else
    let previous := reopen_at self in
    (negb (previous =? CLOSED), store self CLOSED).
End CircuitBreaker.

(** ** Interleaved execution *)

(** Where a caller is between two atomic accesses: [check] at the head of its
    loop, or between its load and its compare-exchange; [close] between its load
    and its swap. *)
Inductive Caller :=
| Idle
| Looping (now : Timestamp)
| Checking (now : Timestamp) (reopen : Z)
| Closing.

(** What a completed call reports of the admission state. *)
Inductive Transition := Opened | ClosedAgain.

Record World := mkWorld {
  breaker : CircuitBreaker;
  callers : gmap nat Caller;
  transitions : list Transition   (* newest first *)
}.

Definition caller (w : World) (t : nat) : Caller := default Idle (callers w !! t).

Definition moves (w : World) (b : CircuitBreaker) (t : nat) (c : Caller)
    (reported : list Transition) : World :=
  mkWorld b (<[t := c]> (callers w)) (reported ++ transitions w).

(** One atomic access of caller [t]. *)
Inductive step : World → World → Prop :=
| step_check_disabled w t :
    caller w t = Idle → CircuitBreaker.is_disabled (breaker w) = true → step w w
| step_check_enter w t now :
    caller w t = Idle → CircuitBreaker.is_disabled (breaker w) = false →
    step w (moves w (breaker w) t (Looping now) [])
| step_check_load_closed w t now :
    caller w t = Looping now → reopen_at (breaker w) = CLOSED →
    step w (moves w (breaker w) t Idle [])
| step_check_load_open w t now :
    caller w t = Looping now → reopen_at (breaker w) ≠ CLOSED →
    now < reopen_at (breaker w) → step w (moves w (breaker w) t Idle [])
| step_check_load_elapsed w t now :
    caller w t = Looping now → reopen_at (breaker w) ≠ CLOSED →
    reopen_at (breaker w) ≤ now →
    step w (moves w (breaker w) t (Checking now (reopen_at (breaker w))) [])
| step_check_cas_won w t now reopen :
    caller w t = Checking now reopen → reopen_at (breaker w) = reopen →
    step w (moves w (CircuitBreaker.store (breaker w) CLOSED) t Idle [ClosedAgain])
| step_check_cas_lost w t now reopen :
    caller w t = Checking now reopen → reopen_at (breaker w) ≠ reopen →
    step w (moves w (breaker w) t (Looping now) [])
| step_trip w t now :
    caller w t = Idle → is_i64 now →
    step w (moves w (CircuitBreaker.trip (breaker w) now).2 t Idle
              (if (CircuitBreaker.trip (breaker w) now).1 then [Opened] else []))
| step_close_load_closed w t :
    caller w t = Idle → reopen_at (breaker w) = CLOSED → step w w
| step_close_load_open w t :
    caller w t = Idle → reopen_at (breaker w) ≠ CLOSED →
    step w (moves w (breaker w) t Closing [])
| step_close_swap w t :
    caller w t = Closing →
    step w (moves w (CircuitBreaker.store (breaker w) CLOSED) t Idle
              (if reopen_at (breaker w) =? CLOSED then [] else [ClosedAgain])).

Definition initial (d : Duration) : World := mkWorld (CircuitBreaker.new d) ∅ [].

(** Transitions alternate, starting with an opening; [last] is the newest. *)
Fixpoint alternating (l : list Transition) : bool :=
  match l with
  | [] => true
  | [Opened] => true
  | [ClosedAgain] => false
  | Opened :: ((ClosedAgain :: _) as l') => alternating l'
  | ClosedAgain :: ((Opened :: _) as l') => alternating l'
  | _ => false
  end.

Definition last_open (l : list Transition) : bool :=
  match l with Opened :: _ => true | _ => false end.

(** ** Lemmas *)
Lemma trip_until_gt b now :
  is_i64 now → duration_wf (open_duration b) → CLOSED < CircuitBreaker.trip_until b now.
Proof.
  intros ? ?. pose proof (saturating_add_ge now (open_duration b)).
  unfold CircuitBreaker.trip_until. zsolve.
Qed.

Lemma alternating_open l :
  alternating l = true → last_open l = false → alternating (Opened :: l) = true.
Proof. destruct l as [|[] l]; done. Qed.

Lemma alternating_close l :
  alternating l = true → last_open l = true → alternating (ClosedAgain :: l) = true.
Proof. destruct l as [|[] l]; done. Qed.

Definition breaker_inv (w : World) : Prop :=
  duration_wf (open_duration (breaker w)) ∧
  CLOSED ≤ reopen_at (breaker w) ∧
  alternating (transitions w) = true ∧
  last_open (transitions w) = negb (reopen_at (breaker w) =? CLOSED) ∧
  (∀ t now reopen, caller w t = Checking now reopen → reopen ≠ CLOSED).

Lemma caller_moves w b t c r t' :
  caller (moves w b t c r) t' = if decide (t = t') then c else caller w t'.
Proof. unfold caller, moves; simpl. rewrite lookup_insert. by case_decide. Qed.

Lemma breaker_inv_moves w b t c r :
  breaker_inv w →
  open_duration b = open_duration (breaker w) →
  CLOSED ≤ reopen_at b →
  alternating (r ++ transitions w) = true →
  last_open (r ++ transitions w) = negb (reopen_at b =? CLOSED) →
  (∀ now reopen, c = Checking now reopen → reopen ≠ CLOSED) →
  breaker_inv (moves w b t c r).
Proof.
  intros (Hd & ? & ? & ? & Hc) Hb ? ? ? Hnew.
  split_and!; simpl; [by rewrite Hb|done..|].
  intros t' now reopen. rewrite caller_moves. case_decide; eauto.
Qed.

Lemma breaker_inv_step w w' : breaker_inv w → step w w' → breaker_inv w'.
Proof.
  intros Hinv Hstep. pose proof Hinv as (Hd & Hr & Ha & Hl & Hc).
  destruct Hstep as [|w t now|w t now|w t now|w t now ? ? Hn|w t now reopen Ht Heq
    |w t now reopen Ht|w t now Ht Hnow| |w t|w t Ht];
    try solve [done | by apply breaker_inv_moves].
  - apply breaker_inv_moves; try done. naive_solver.
  - apply breaker_inv_moves; try done; simpl.
    apply alternating_close; [done|]. rewrite Hl, Heq. apply negb_true_iff, Z.eqb_neq. eauto.
  - unfold CircuitBreaker.trip. destruct (CircuitBreaker.is_disabled _); simpl.
    { by apply breaker_inv_moves. }
    pose proof (trip_until_gt (breaker w) now Hnow Hd).
    destruct (reopen_at (breaker w) =? CLOSED) eqn:Hz; bool_to_prop; apply breaker_inv_moves;
      try done; simpl in *; try lia.
    + by apply alternating_open.
    + rewrite Hl. symmetry. apply negb_true_iff, Z.eqb_neq. lia.
  - destruct (reopen_at (breaker w) =? CLOSED) eqn:Hz; apply breaker_inv_moves; try done; simpl.
    apply alternating_close; [done|]. by rewrite Hl.
Qed.

(** ** Properties *)

(** Exactly one caller reports each admission change. In every
    interleaving of any number of callers of [check], [trip] and [close], at
    the granularity of their atomic accesses, the reported transitions
    alternate strictly between opening and closing, beginning with an opening,
    and the last one reported tells whether the breaker is open: no opening or
    cooldown close is reported twice, and none is lost. *)
Theorem transitions_alternate (d : Duration) (w : World) :
  duration_wf d → rtc step (initial d) w →
  alternating (transitions w) = true ∧
  last_open (transitions w) = negb (reopen_at (breaker w) =? CLOSED).
Proof.
  intros Hd Hsteps.
  enough (breaker_inv w) as (_ & _ & ? & ? & _) by done.
  assert (breaker_inv (initial d)) as Hinit by done.
  clear Hd. revert Hinit. induction Hsteps; eauto using breaker_inv_step.
Qed.

(** One opening, one check past the cooldown that wins its exchange. *)
Definition demo_world : World :=
  moves (moves (moves (moves (initial (from_secs 1))
    (mkBreaker (from_secs 1) 10000000) 0%nat Idle [Opened])
    (mkBreaker (from_secs 1) 10000000) 1%nat (Looping 10000000) [])
    (mkBreaker (from_secs 1) 10000000) 1%nat (Checking 10000000 10000000) [])
    (mkBreaker (from_secs 1) CLOSED) 1%nat Idle [ClosedAgain].

Lemma demo_world_reachable : rtc step (initial (from_secs 1)) demo_world.
Proof.
  eapply rtc_l; [apply (step_trip _ 0%nat 0); [done|vm_compute; split; discriminate]|].
  eapply rtc_l; [apply (step_check_enter _ 1%nat 10000000)|]; [done|done|].
  eapply rtc_l; [apply (step_check_load_elapsed _ 1%nat 10000000)|];
    [done|done|vm_compute; discriminate|].
  eapply rtc_l; [apply (step_check_cas_won _ 1%nat 10000000 10000000)|]; [done|done|].
  apply rtc_refl.
Qed.

Lemma transitions_alternate_witness :
  transitions demo_world = [ClosedAgain; Opened] ∧ alternating (transitions demo_world) = true.
Proof.
  split; [reflexivity|].
  apply (transitions_alternate (from_secs 1) demo_world).
  - vm_compute. repeat split; discriminate || reflexivity.
  - exact demo_world_reachable.
Defined.

(** A trip keeps operations blocked for the whole configured window, and
    a delayed failure never shortens it. After a failure at [now] on an enabled
    breaker, [check] at every later instant before the end of the window
    answers [Open], a further failure with any clock reading does not lower the
    reopening tick, and [check] at the reopening tick closes the breaker. *)
Theorem trip_blocks_window (b : CircuitBreaker) (now other later : Timestamp) :
  let tripped := (CircuitBreaker.trip b now).2 in
  is_i64 now → is_i64 later → duration_wf (open_duration b) →
  CircuitBreaker.is_disabled b = false → CLOSED ≤ reopen_at b →
  (later < saturating_add now (open_duration b) →
     CircuitBreaker.check tripped later = (Open (reopen_at tripped), tripped)) ∧
  reopen_at tripped ≤ reopen_at (CircuitBreaker.trip tripped other).2 ∧
  CircuitBreaker.check tripped (reopen_at tripped) =
    (ClosedAfterCooldown, CircuitBreaker.store b CLOSED).
Proof.
  intros tripped Hn Hl Hd Hen Hr. subst tripped.
  pose proof (trip_until_gt b now Hn Hd) as Hgt.
  unfold CircuitBreaker.check, CircuitBreaker.trip, CircuitBreaker.is_disabled in *.
  rewrite Hen; simpl. rewrite Hen; simpl. split_and!.
  - intros Hlt. destruct (_ =? _) eqn:E; bool_to_prop; [lia|].
    destruct (later <? _) eqn:E2; bool_to_prop; [done|].
    unfold CircuitBreaker.trip_until in *. lia.
  - lia.
  - destruct (_ =? _) eqn:E; bool_to_prop; [lia|].
    by rewrite Z.ltb_irrefl.
Qed.

Lemma trip_blocks_window_witness :
  CircuitBreaker.check (CircuitBreaker.trip (CircuitBreaker.new (from_secs 10)) 0).2 50000000
  = (Open 100000000, mkBreaker (from_secs 10) 100000000).
Proof.
  pose proof (trip_blocks_window (CircuitBreaker.new (from_secs 10)) 0 0 50000000) as H.
  cbv zeta in H. destruct H as (H & _ & _);
    [vm_compute; repeat split; discriminate || reflexivity ..|].
  rewrite H; [reflexivity|]. vm_compute. reflexivity.
Defined.
