(* ===== verification/F32.v ===== *)
(** * Single-precision arithmetic on durations

    The eager-refresh threshold of [src/src/options.rs] is an [f32], and its
    only use is the standard library's [Duration::mul_f32]. Both are modelled
    on the standard library's specification of IEEE 754 arithmetic
    ([SpecFloat]) at 24 bits of precision and exponent bound 128. *)
From Stdlib Require Import SpecFloat.
From S2P Require Import Prelude Time.

Abbreviation f32 := spec_float (only parsing).

Definition f32_prec : Z := 24.
Definition f32_emax : Z := 128.
Definition f32_zero : f32 := S754_zero false.
(** [n as f32] of a nonnegative integer: rounded to nearest, ties to even. *)
Definition f32_of_Z (n : Z) : f32 := binary_normalize f32_prec f32_emax n 0 false.
Definition f32_one : f32 := f32_of_Z 1.
Definition f32_add : f32 → f32 → f32 := SFadd f32_prec f32_emax.
Definition f32_mul : f32 → f32 → f32 := SFmul f32_prec f32_emax.
Definition f32_div : f32 → f32 → f32 := SFdiv f32_prec f32_emax.
Definition f32_ltb : f32 → f32 → bool := SFltb.

(** [Duration::as_secs_f32]. *)
Definition as_secs_f32 (d : Duration) : f32 :=
  f32_add (f32_of_Z (d_secs d)) (f32_div (f32_of_Z (d_nanos d)) (f32_of_Z NANOS_PER_SEC)).

(** Half-to-even rounding of [num / 2^k]. *)
Definition round_half_even (num k : Z) : Z :=
  let q := Z.shiftr num k in
  let rem := num - Z.shiftl q k in
  if (2 * rem >? 2 ^ k) || ((2 * rem =? 2 ^ k) && Z.odd q) then q + 1 else q.

(** [Duration::from_secs_f32]: the nearest nanosecond; [None] is the panic on a
    negative, non-finite or unrepresentable number of seconds. *)
Definition from_secs_f32 (s : f32) : option Duration :=
  match s with
  | S754_zero _ => Some Duration_ZERO
  | S754_finite false m e =>
      let num := Z.pos m * NANOS_PER_SEC in
      let n := if 0 <=? e then Z.shiftl num e else round_half_even num (- e) in
      if n <? 18446744073709551616 * NANOS_PER_SEC then Some (of_nanos n) else None
  | _ => None
  end.

(** [Duration::mul_f32]. *)
Definition mul_f32 (d : Duration) (rhs : f32) : option Duration :=
  from_secs_f32 (f32_mul rhs (as_secs_f32 d)).

(** 80% of ten seconds, and of one hundred nanoseconds. *)
Example mul_f32_ten_seconds :
  mul_f32 (from_secs 10) (f32_div (f32_of_Z 4) (f32_of_Z 5)) = Some (from_secs 8).
Proof. vm_compute. reflexivity. Qed.

Lemma round_half_even_nonneg num k : 0 ≤ num → 0 ≤ k → 0 ≤ round_half_even num k.
Proof.
  intros. unfold round_half_even.
  assert (0 ≤ Z.shiftr num k) by (by apply Z.shiftr_nonneg).
  case_match; lia.
Qed.

Lemma from_secs_f32_wf s d : from_secs_f32 s = Some d → duration_wf d.
Proof.
  destruct s as [|[]| |[] m e]; simpl; try done.
  - intros [= <-]. unfold duration_wf; simpl; lia.
  - destruct (_ <? _) eqn:Hlt; [|done]. intros [= <-]. bool_to_prop.
    apply of_nanos_spec. split; [|done].
    destruct (0 <=? e) eqn:He; bool_to_prop.
    + apply Z.shiftl_nonneg. lia.
    + apply round_half_even_nonneg; lia.
Qed.

Lemma mul_f32_wf d f d' : mul_f32 d f = Some d' → duration_wf d'.
Proof. apply from_secs_f32_wf. Qed.
