(* ===== verification/Options.v ===== *)
(** * Entry options

    Models [src/src/options.rs]: the option record with its defaults, builders,
    accessors, validation of the timer budgets, resolved lifetimes, and the
    pure jitter and eager-refresh arithmetic. A value the code samples from the
    clock or from a random source is an argument of the definition. *)
From S2P Require Import Prelude Time F32.

(** [error::ConfigError] and the two enumerations it carries. *)
Inductive RuntimeComponent := RC_Execution | RC_Backplane | RC_Recovery | RC_Plugin.
Inductive IdentityField := IF_CacheName | IF_InstanceId | IF_WireVersion.
Inductive ConfigError :=
| SuppliedMemoryWithBuiltinLimits
| UnstableMemoryStorageEpoch
| SuppliedMarkerMemoryRequiresControlledReads
| AliasedMarkerMemoryStorageEpoch
| LocalReconciliationWithExternalStorage
| UnavailableBackplaneContinuity
| BestEffortReconciliationWithoutBackplane
| DeadlineOutOfRange
| ZeroReconciliationInterval
| NegativeEntryWeight (size : Z)
| DistributedWithoutSerializer
| FencedLockerWithoutOwnedLifetime
| FencedDistributedWithoutAtomicWrites
| AtomicInvalidationUnavailable
| MarkerLifecycleRequiresControlledReads
| MarkerSnapshotCapabilityUnavailable
| AutoCloneWithoutCloner
| MissingRuntime (component : RuntimeComponent)
| BlankIdentity (field : IdentityField)
| InvalidEntryDeadlines
| ZeroRecoveryInterval
| InvalidJitterSample (sample maximum : Duration).

(** An error value, or a Rust panic. *)
Inductive Error := Config (e : ConfigError) | Panicked.

Definition config {A} (r : result ConfigError A) : result Error A :=
  match r with Ok a => Ok a | Err e => Err (Config e) end.
Definition unwrap_panic {A} (o : option A) : result Error A :=
  match o with Some a => Ok a | None => Err Panicked end.

(** ** Jitter *)
Record JitterSample := mkJitterSample { jitter_duration : Duration }.

Module JitterSample.
Definition new (sample maximum : Duration) : result ConfigError JitterSample :=
  if duration_ltb maximum sample then Err (InvalidJitterSample sample maximum)
  else Ok (mkJitterSample sample).
Definition ZERO : JitterSample := mkJitterSample Duration_ZERO.
End JitterSample.

(** [drawn] is the value [fastrand::u128(0..=maximum.as_nanos())] returns. *)
Definition random_sample (drawn : Z) (maximum : Duration) : Duration :=
  if is_zero maximum then Duration_ZERO else of_nanos drawn.

Inductive JitterPlan := Standard | Configured (source : Duration → Duration).
Module JitterPlan.
Definition select (source : option (Duration → Duration)) : JitterPlan :=
  match source with None => Standard | Some source => Configured source end.
Definition sample (self : JitterPlan) (drawn : Z) (maximum : Duration)
    : result ConfigError JitterSample :=
  match self with
  | Standard =>
      if is_zero maximum then Ok JitterSample.ZERO
      else JitterSample.new (random_sample drawn maximum) maximum
  | Configured source => JitterSample.new (source maximum) maximum
  end.
End JitterPlan.

(** ** Priorities, weights, thresholds *)
Inductive Priority := Low | Normal | High | NeverRemove.

#[export] Instance Priority_eq_dec : EqDecision Priority.
Proof. solve_decision. Defined.

Definition eviction_rank (self : Priority) : Z :=
  match self with Low => 0 | Normal => 1 | High => 2 | NeverRemove => 3 end.

(** [EntryWeight(u64)]. *)
Abbreviation EntryWeight := Z (only parsing).
Definition entry_weight_try_from (size : Z) : result ConfigError EntryWeight :=
  if 0 <=? size then Ok size else Err (NegativeEntryWeight size).

Inductive EntrySize := Unspecified | Weight (w : EntryWeight) | Rejected_size (size : Z).

Inductive RemoveByTagBehavior := RBT_Expire | RBT_Remove.
Inductive KeyModifierMode := KM_Prefix | KM_Suffix | KM_None.

#[export] Instance KeyModifierMode_eq_dec : EqDecision KeyModifierMode.
Proof. solve_decision. Defined.

Record EagerThreshold := mkEagerThreshold { fraction : f32 }.
Definition eager_threshold_new (fraction : f32) : option EagerThreshold :=
  if f32_ltb f32_zero fraction && f32_ltb fraction f32_one
  then Some (mkEagerThreshold fraction) else None.

Inductive TimerRequirement := Inline | Runtime.
Inductive BudgetState := BS_Valid (r : TimerRequirement) | OutOfRange.

(** ** The option record *)
Record EntryOptions := mkEntryOptions {
  opt_budgets : BudgetState;
  opt_duration : Duration;
  opt_memory_duration : option Duration;
  opt_distributed_duration : option Duration;
  opt_eager_refresh_threshold : option EagerThreshold;
  opt_jitter_max : Duration;
  opt_lock_timeout : Timeout;
  opt_memory_lock_timeout : option Timeout;
  opt_distributed_lock_timeout : option Timeout;
  opt_is_fail_safe_enabled : bool;
  opt_fail_safe_max_duration : Duration;
  opt_fail_safe_throttle_duration : Duration;
  opt_distributed_fail_safe_max_duration : option Duration;
  opt_factory_soft_timeout : Timeout;
  opt_factory_hard_timeout : Timeout;
  opt_allow_timed_out_factory_background_completion : bool;
  opt_skip_memory_read : bool;
  opt_skip_memory_write : bool;
  opt_priority : Priority;
  opt_size : EntrySize;
  opt_allow_stale_on_read_only : bool;
  opt_distributed_soft_timeout : Timeout;
  opt_distributed_hard_timeout : Timeout;
  opt_allow_background_distributed_operations : bool;
  opt_rethrow_distributed_exceptions : bool;
  opt_rethrow_distributed_locker_exceptions : bool;
  opt_rethrow_serialization_exceptions : bool;
  opt_skip_distributed_read : bool;
  opt_skip_distributed_write : bool;
  opt_skip_distributed_read_when_stale : bool;
  opt_skip_distributed_locker : bool;
  opt_enable_auto_clone : bool;
  opt_skip_backplane_notifications : bool;
  opt_allow_background_backplane_operations : bool;
  opt_rethrow_backplane_exceptions : bool
}.

#[export] Instance eta_options : Eta EntryOptions := λ o,
  mkEntryOptions (opt_budgets o) (opt_duration o) (opt_memory_duration o)
    (opt_distributed_duration o) (opt_eager_refresh_threshold o) (opt_jitter_max o)
    (opt_lock_timeout o) (opt_memory_lock_timeout o) (opt_distributed_lock_timeout o)
    (opt_is_fail_safe_enabled o) (opt_fail_safe_max_duration o)
    (opt_fail_safe_throttle_duration o) (opt_distributed_fail_safe_max_duration o)
    (opt_factory_soft_timeout o) (opt_factory_hard_timeout o)
    (opt_allow_timed_out_factory_background_completion o) (opt_skip_memory_read o)
    (opt_skip_memory_write o) (opt_priority o) (opt_size o)
    (opt_allow_stale_on_read_only o) (opt_distributed_soft_timeout o)
    (opt_distributed_hard_timeout o) (opt_allow_background_distributed_operations o)
    (opt_rethrow_distributed_exceptions o) (opt_rethrow_distributed_locker_exceptions o)
    (opt_rethrow_serialization_exceptions o) (opt_skip_distributed_read o)
    (opt_skip_distributed_write o) (opt_skip_distributed_read_when_stale o)
    (opt_skip_distributed_locker o) (opt_enable_auto_clone o)
    (opt_skip_backplane_notifications o) (opt_allow_background_backplane_operations o)
    (opt_rethrow_backplane_exceptions o).

Definition default_options : EntryOptions := {|
  opt_budgets := BS_Valid Inline;
  opt_duration := from_secs 30;
  opt_memory_duration := None;
  opt_distributed_duration := None;
  opt_eager_refresh_threshold := None;
  opt_jitter_max := Duration_ZERO;
  opt_lock_timeout := Infinite;
  opt_memory_lock_timeout := None;
  opt_distributed_lock_timeout := None;
  opt_is_fail_safe_enabled := false;
  opt_fail_safe_max_duration := from_secs (60 * 60 * 24);
  opt_fail_safe_throttle_duration := from_secs 30;
  opt_distributed_fail_safe_max_duration := None;
  opt_factory_soft_timeout := Infinite;
  opt_factory_hard_timeout := Infinite;
  opt_allow_timed_out_factory_background_completion := true;
  opt_skip_memory_read := false;
  opt_skip_memory_write := false;
  opt_priority := Normal;
  opt_size := Unspecified;
  opt_allow_stale_on_read_only := false;
  opt_distributed_soft_timeout := Infinite;
  opt_distributed_hard_timeout := Infinite;
  opt_allow_background_distributed_operations := false;
  opt_rethrow_distributed_exceptions := false;
  opt_rethrow_distributed_locker_exceptions := false;
  opt_rethrow_serialization_exceptions := true;
  opt_skip_distributed_read := false;
  opt_skip_distributed_write := false;
  opt_skip_distributed_read_when_stale := false;
  opt_skip_distributed_locker := false;
  opt_enable_auto_clone := false;
  opt_skip_backplane_notifications := false;
  opt_allow_background_backplane_operations := true;
  opt_rethrow_backplane_exceptions := false
|}.

(** ** Resolved values and validation *)
Definition is_after_nonzero (t : Timeout) : bool :=
  match t with After d => negb (is_zero d) | Infinite => false end.
Definition unrepresentable (now : Instant) (t : Timeout) : bool :=
  match t with
  | After d => match instant_checked_add now d with None => true | Some _ => false end
  | Infinite => false
  end.

Module EntryOptions.
Definition duration (self : EntryOptions) : Duration := opt_duration self.
Definition jitter_max (self : EntryOptions) : Duration := opt_jitter_max self.
Definition is_fail_safe_enabled (self : EntryOptions) : bool := opt_is_fail_safe_enabled self.
Definition fail_safe_throttle_duration (self : EntryOptions) : Duration := opt_fail_safe_throttle_duration self.
Definition eager_refresh_threshold (self : EntryOptions) : option EagerThreshold := opt_eager_refresh_threshold self.
Definition lock_timeout (self : EntryOptions) : Timeout := opt_lock_timeout self.
Definition factory_soft_timeout (self : EntryOptions) : Timeout := opt_factory_soft_timeout self.
Definition factory_hard_timeout (self : EntryOptions) : Timeout := opt_factory_hard_timeout self.
Definition allow_timed_out_factory_background_completion (self : EntryOptions) : bool := opt_allow_timed_out_factory_background_completion self.
Definition skip_memory_read (self : EntryOptions) : bool := opt_skip_memory_read self.
Definition skip_memory_write (self : EntryOptions) : bool := opt_skip_memory_write self.
Definition allow_stale_on_read_only (self : EntryOptions) : bool := opt_allow_stale_on_read_only self.
Definition priority (self : EntryOptions) : Priority := opt_priority self.
Definition skip_backplane_notifications (self : EntryOptions) : bool := opt_skip_backplane_notifications self.
Definition allow_background_backplane_operations (self : EntryOptions) : bool := opt_allow_background_backplane_operations self.
Definition skip_distributed_read (self : EntryOptions) : bool := opt_skip_distributed_read self.
Definition skip_distributed_read_when_stale (self : EntryOptions) : bool := opt_skip_distributed_read_when_stale self.
Definition skip_distributed_locker (self : EntryOptions) : bool := opt_skip_distributed_locker self.
Definition enable_auto_clone (self : EntryOptions) : bool := opt_enable_auto_clone self.
Definition distributed_soft_timeout (self : EntryOptions) : Timeout := opt_distributed_soft_timeout self.
Definition distributed_hard_timeout (self : EntryOptions) : Timeout := opt_distributed_hard_timeout self.
Definition skip_distributed_write (self : EntryOptions) : bool := opt_skip_distributed_write self.
Definition allow_background_distributed_operations (self : EntryOptions) : bool := opt_allow_background_distributed_operations self.
Definition rethrow_distributed_exceptions (self : EntryOptions) : bool := opt_rethrow_distributed_exceptions self.
Definition rethrow_distributed_locker_exceptions (self : EntryOptions) : bool := opt_rethrow_distributed_locker_exceptions self.
Definition rethrow_serialization_exceptions (self : EntryOptions) : bool := opt_rethrow_serialization_exceptions self.
Definition rethrow_backplane_exceptions (self : EntryOptions) : bool := opt_rethrow_backplane_exceptions self.
Definition memory_lock_timeout (self : EntryOptions) : Timeout :=
  default (opt_lock_timeout self) (opt_memory_lock_timeout self).
Definition distributed_lock_timeout (self : EntryOptions) : Timeout :=
  default (opt_lock_timeout self) (opt_distributed_lock_timeout self).

Definition size (self : EntryOptions) : result ConfigError (option EntryWeight) :=
  match opt_size self with
  | Unspecified => Ok None
  | Weight weight => Ok (Some weight)
  | Rejected_size size => Err (NegativeEntryWeight size)
  end.

Definition validate (self : EntryOptions) : result ConfigError unit :=
  _ ← size self;
  match opt_budgets self with
  | BS_Valid _ => Ok tt
  | OutOfRange => Err DeadlineOutOfRange
  end.

Definition timeouts (self : EntryOptions) : list Timeout :=
  [ memory_lock_timeout self; distributed_lock_timeout self;
    factory_soft_timeout self; factory_hard_timeout self;
    distributed_soft_timeout self; distributed_hard_timeout self ].

(** [now] is the [Instant::now()] reading. Index 1, the distributed lock
    budget, needs no runtime. *)
Definition refresh_budgets (now : Instant) (self : EntryOptions) : EntryOptions :=
  if existsb (unrepresentable now) (timeouts self)
  then self <| opt_budgets := OutOfRange |>
  else
    let timers :=
      existsb (λ '(index, timeout), negb (index =? 1)%nat && is_after_nonzero timeout)
        (combine (seq 0 6) (timeouts self)) in
    self <| opt_budgets := BS_Valid (if timers then Runtime else Inline) |>.

Definition requires_timer_runtime (self : EntryOptions) : bool :=
  match opt_budgets self with
  | BS_Valid Inline => false
  | BS_Valid Runtime | OutOfRange => true
  end.

Definition validate_with_cloner (self : EntryOptions) (has_cloner : bool)
    : result ConfigError unit :=
  _ ← validate self;
  if opt_enable_auto_clone self && negb has_cloner then Err AutoCloneWithoutCloner
  else Ok tt.

(** *** Builders *)
Definition new (duration : Duration) : EntryOptions := default_options <| opt_duration := duration |>.
Definition with_duration duration (self : EntryOptions) := self <| opt_duration := duration |>.
Definition with_memory_duration duration (self : EntryOptions) := self <| opt_memory_duration := (Some duration) |>.
Definition with_distributed_duration duration (self : EntryOptions) :=
  self <| opt_distributed_duration := (Some duration) |>.
Definition with_eager_refresh threshold (self : EntryOptions) := self <| opt_eager_refresh_threshold := threshold |>.
Definition with_jitter_max jitter_max (self : EntryOptions) := self <| opt_jitter_max := jitter_max |>.
Definition with_lock_timeout (now : Instant) timeout (self : EntryOptions) :=
  refresh_budgets now (self <| opt_lock_timeout := timeout |>).
Definition with_memory_lock_timeout (now : Instant) timeout (self : EntryOptions) :=
  refresh_budgets now (self <| opt_memory_lock_timeout := (Some timeout) |>).
Definition with_distributed_lock_timeout (now : Instant) timeout (self : EntryOptions) :=
  refresh_budgets now (self <| opt_distributed_lock_timeout := (Some timeout) |>).
Definition with_fail_safe (enabled : bool)
    (max_duration throttle_duration : option Duration) (self : EntryOptions) :=
  let self := self <| opt_is_fail_safe_enabled := enabled |> in
  let self := match max_duration with
              | Some max => self <| opt_fail_safe_max_duration := max |> | None => self end in
  match throttle_duration with
  | Some throttle => self <| opt_fail_safe_throttle_duration := throttle |> | None => self end.
Definition with_factory_timeouts (now : Instant) (soft hard : Timeout)
    (allow_background_completion : bool) (self : EntryOptions) :=
  refresh_budgets now
    (self <| opt_factory_soft_timeout := soft |> <| opt_factory_hard_timeout := hard |>
       <| opt_allow_timed_out_factory_background_completion := allow_background_completion |>).
Definition with_priority priority (self : EntryOptions) := self <| opt_priority := priority |>.
Definition with_size (size : Z) (self : EntryOptions) : EntryOptions :=
  self <| opt_size := if 0 <=? size then Weight size else Rejected_size size |>.
Definition with_entry_weight (weight : EntryWeight) (self : EntryOptions) :=
  self <| opt_size := Weight weight |>.
Definition try_with_size (size : Z) (self : EntryOptions)
    : result ConfigError EntryOptions :=
  weight ← entry_weight_try_from size; Ok (with_entry_weight weight self).
Definition with_allow_stale_on_read_only allow (self : EntryOptions) := self <| opt_allow_stale_on_read_only := allow |>.
Definition with_skip_memory (skip_read skip_write : bool) (self : EntryOptions) :=
  self <| opt_skip_memory_read := skip_read |> <| opt_skip_memory_write := skip_write |>.
Definition with_skip_distributed (skip_read skip_write : bool) (self : EntryOptions) :=
  self <| opt_skip_distributed_read := skip_read |> <| opt_skip_distributed_write := skip_write |>.
Definition with_skip_distributed_read_when_stale skip (self : EntryOptions) :=
  self <| opt_skip_distributed_read_when_stale := skip |>.
Definition with_distributed_fail_safe_max_duration max (self : EntryOptions) :=
  self <| opt_distributed_fail_safe_max_duration := (Some max) |>.
Definition with_rethrow_distributed_exceptions rethrow (self : EntryOptions) :=
  self <| opt_rethrow_distributed_exceptions := rethrow |>.
Definition with_rethrow_distributed_locker_exceptions rethrow (self : EntryOptions) :=
  self <| opt_rethrow_distributed_locker_exceptions := rethrow |>.
Definition with_rethrow_backplane_exceptions rethrow (self : EntryOptions) :=
  self <| opt_rethrow_backplane_exceptions := rethrow |>.
Definition with_rethrow_serialization_exceptions rethrow (self : EntryOptions) :=
  self <| opt_rethrow_serialization_exceptions := rethrow |>.
Definition with_allow_background_backplane_operations allow (self : EntryOptions) :=
  self <| opt_allow_background_backplane_operations := allow |>.
Definition with_distributed_timeouts (now : Instant) (soft hard : Timeout)
    (self : EntryOptions) :=
  refresh_budgets now
    (self <| opt_distributed_soft_timeout := soft |> <| opt_distributed_hard_timeout := hard |>).
Definition with_allow_background_distributed_operations allow (self : EntryOptions) :=
  self <| opt_allow_background_distributed_operations := allow |>.
Definition with_skip_backplane_notifications skip (self : EntryOptions) :=
  self <| opt_skip_backplane_notifications := skip |>.
Definition with_skip_distributed_locker skip (self : EntryOptions) := self <| opt_skip_distributed_locker := skip |>.
Definition with_enable_auto_clone enable (self : EntryOptions) := self <| opt_enable_auto_clone := enable |>.

Definition tag_defaults : EntryOptions :=
  let o := new (from_secs (60 * 60)) in
  let o := with_distributed_duration (from_secs (60 * 60 * 24)) o in
  let o := with_fail_safe true (Some (from_secs (60 * 60 * 24 * 10))) None o in
  let o := with_allow_background_backplane_operations false o in
  let o := with_rethrow_serialization_exceptions false o in
  let o := with_skip_distributed_locker true o in
  let o := with_priority NeverRemove o in
  with_size 0 o.

(** *** Resolved lifetimes and timeouts *)
Definition resolved_memory_duration (self : EntryOptions) : Duration :=
  default (opt_duration self) (opt_memory_duration self).
Definition resolved_distributed_duration (self : EntryOptions) : Duration :=
  default (opt_duration self) (opt_distributed_duration self).
Definition resolved_distributed_fail_safe_max_duration (self : EntryOptions) : Duration :=
  default (opt_fail_safe_max_duration self) (opt_distributed_fail_safe_max_duration self).
Definition physical_ttl (self : EntryOptions) : Duration :=
  let logical := resolved_memory_duration self in
  if opt_is_fail_safe_enabled self
  then duration_max logical (opt_fail_safe_max_duration self) else logical.
Definition distributed_physical_ttl (self : EntryOptions) : Duration :=
  let logical := resolved_distributed_duration self in
  if opt_is_fail_safe_enabled self
  then duration_max logical (resolved_distributed_fail_safe_max_duration self)
  else logical.
Definition appropriate_factory_timeout (self : EntryOptions) (has_fallback : bool)
    : Timeout :=
  let selected :=
    if opt_is_fail_safe_enabled self && has_fallback
       && negb (Timeout.is_infinite (opt_factory_soft_timeout self))
    then opt_factory_soft_timeout self else Infinite in
  Timeout.min selected (opt_factory_hard_timeout self).
Definition appropriate_distributed_timeout (self : EntryOptions) (has_fallback : bool)
    : Timeout :=
  let selected :=
    if opt_is_fail_safe_enabled self && has_fallback
       && negb (Timeout.is_infinite (opt_distributed_soft_timeout self))
    then opt_distributed_soft_timeout self else Infinite in
  Timeout.min selected (opt_distributed_hard_timeout self).

(** *** Expiration arithmetic *)
Definition logical_expiration (self : EntryOptions) (drawn : Z) (created : Timestamp)
    : Timestamp :=
  let sample := random_sample drawn (opt_jitter_max self) in
  saturating_add (saturating_add created (resolved_memory_duration self)) sample.
Definition logical_expiration_with_jitter (self : EntryOptions)
    (inserted_at : Timestamp) (jitter : JitterSample) : result ConfigError Timestamp :=
  sample ← JitterSample.new (jitter_duration jitter) (opt_jitter_max self);
  Ok (saturating_add (saturating_add inserted_at (resolved_memory_duration self))
        (jitter_duration sample)).
(** A panic of [mul_f32] is [Err Panicked]. *)
Definition eager_refresh_at_expiration (self : EntryOptions)
    (inserted_at expiration : Timestamp) : result Error (option Timestamp) :=
  match opt_eager_refresh_threshold self with
  | None => Ok None
  | Some threshold =>
      if expiration <=? inserted_at then Ok None
      else
        d ← unwrap_panic (mul_f32 (saturating_duration_since expiration inserted_at)
                            (fraction threshold));
        Ok (Some (saturating_add inserted_at d))
  end.
Definition eager_refresh_at (self : EntryOptions) (created : Timestamp)
    : result Error (option Timestamp) :=
  match opt_eager_refresh_threshold self with
  | None => Ok None
  | Some threshold =>
      let window := resolved_memory_duration self in
      elapsed ← unwrap_panic (mul_f32 window (fraction threshold));
      Ok (Some (saturating_add created elapsed))
  end.
End EntryOptions.

(** ** Builder chains

    A value of [Builder] is one call of a builder method with its arguments
    (the clock reading included, where the method takes one); a configuration
    is a chain of them applied to [EntryOptions::new]. *)
Inductive Builder :=
| B_duration (d : Duration)
| B_memory_duration (d : Duration)
| B_distributed_duration (d : Duration)
| B_eager_refresh (t : option EagerThreshold)
| B_jitter_max (d : Duration)
| B_lock_timeout (now : Instant) (t : Timeout)
| B_memory_lock_timeout (now : Instant) (t : Timeout)
| B_distributed_lock_timeout (now : Instant) (t : Timeout)
| B_fail_safe (enabled : bool) (max throttle : option Duration)
| B_factory_timeouts (now : Instant) (soft hard : Timeout) (allow : bool)
| B_priority (p : Priority)
| B_size (size : Z)
| B_entry_weight (w : EntryWeight)
| B_allow_stale_on_read_only (b : bool)
| B_skip_memory (r w : bool)
| B_skip_distributed (r w : bool)
| B_skip_distributed_read_when_stale (b : bool)
| B_distributed_fail_safe_max_duration (d : Duration)
| B_rethrow_distributed_exceptions (b : bool)
| B_rethrow_distributed_locker_exceptions (b : bool)
| B_rethrow_backplane_exceptions (b : bool)
| B_rethrow_serialization_exceptions (b : bool)
| B_allow_background_backplane_operations (b : bool)
| B_distributed_timeouts (now : Instant) (soft hard : Timeout)
| B_allow_background_distributed_operations (b : bool)
| B_skip_backplane_notifications (b : bool)
| B_skip_distributed_locker (b : bool)
| B_enable_auto_clone (b : bool).

Definition apply_builder (o : EntryOptions) (b : Builder) : EntryOptions :=
  match b with
  | B_duration d => EntryOptions.with_duration d o
  | B_memory_duration d => EntryOptions.with_memory_duration d o
  | B_distributed_duration d => EntryOptions.with_distributed_duration d o
  | B_eager_refresh t => EntryOptions.with_eager_refresh t o
  | B_jitter_max d => EntryOptions.with_jitter_max d o
  | B_lock_timeout now t => EntryOptions.with_lock_timeout now t o
  | B_memory_lock_timeout now t => EntryOptions.with_memory_lock_timeout now t o
  | B_distributed_lock_timeout now t => EntryOptions.with_distributed_lock_timeout now t o
  | B_fail_safe e m t => EntryOptions.with_fail_safe e m t o
  | B_factory_timeouts now s h a => EntryOptions.with_factory_timeouts now s h a o
  | B_priority p => EntryOptions.with_priority p o
  | B_size s => EntryOptions.with_size s o
  | B_entry_weight w => EntryOptions.with_entry_weight w o
  | B_allow_stale_on_read_only b => EntryOptions.with_allow_stale_on_read_only b o
  | B_skip_memory r w => EntryOptions.with_skip_memory r w o
  | B_skip_distributed r w => EntryOptions.with_skip_distributed r w o
  | B_skip_distributed_read_when_stale b =>
      EntryOptions.with_skip_distributed_read_when_stale b o
  | B_distributed_fail_safe_max_duration d =>
      EntryOptions.with_distributed_fail_safe_max_duration d o
  | B_rethrow_distributed_exceptions b => EntryOptions.with_rethrow_distributed_exceptions b o
  | B_rethrow_distributed_locker_exceptions b =>
      EntryOptions.with_rethrow_distributed_locker_exceptions b o
  | B_rethrow_backplane_exceptions b => EntryOptions.with_rethrow_backplane_exceptions b o
  | B_rethrow_serialization_exceptions b =>
      EntryOptions.with_rethrow_serialization_exceptions b o
  | B_allow_background_backplane_operations b =>
      EntryOptions.with_allow_background_backplane_operations b o
  | B_distributed_timeouts now s h => EntryOptions.with_distributed_timeouts now s h o
  | B_allow_background_distributed_operations b =>
      EntryOptions.with_allow_background_distributed_operations b o
  | B_skip_backplane_notifications b => EntryOptions.with_skip_backplane_notifications b o
  | B_skip_distributed_locker b => EntryOptions.with_skip_distributed_locker b o
  | B_enable_auto_clone b => EntryOptions.with_enable_auto_clone b o
  end.

Definition build (d : Duration) (chain : list Builder) : EntryOptions :=
  fold_left apply_builder chain (EntryOptions.new d).

(** ** Lemmas *)

(** The budget state is the one computed from the timeouts at some instant. *)
Definition budgets_current (o : EntryOptions) : Prop :=
  ∃ now, instant_wf now ∧ EntryOptions.refresh_budgets now o = o.

Lemma timeouts_budgets o v :
  EntryOptions.timeouts (o <| opt_budgets := v |>) = EntryOptions.timeouts o.
Proof. reflexivity. Qed.

Lemma refresh_budgets_idem now o :
  EntryOptions.refresh_budgets now (EntryOptions.refresh_budgets now o) =
  EntryOptions.refresh_budgets now o.
Proof.
  unfold EntryOptions.refresh_budgets.
  destruct (existsb (unrepresentable now) (EntryOptions.timeouts o)) eqn:E;
    rewrite timeouts_budgets, E; reflexivity.
Qed.

Lemma budgets_current_refresh now o :
  instant_wf now → budgets_current (EntryOptions.refresh_budgets now o).
Proof. intros. exists now. auto using refresh_budgets_idem. Qed.

(** An assignment that leaves the timeouts and the budget state alone keeps
    them in agreement. *)
Lemma budgets_current_same o o' :
  EntryOptions.timeouts o' = EntryOptions.timeouts o →
  opt_budgets o' = opt_budgets o →
  budgets_current o → budgets_current o'.
Proof.
  intros Ht Hb (now & Hwf & Hr). exists now. split; [done|].
  apply (f_equal opt_budgets) in Hr. rewrite <-Hb in Hr.
  unfold EntryOptions.refresh_budgets in *. rewrite Ht.
  destruct o'; destruct (existsb _ _); simpl in *; by rewrite <-Hr.
Qed.

Definition builder_clock_wf (b : Builder) : Prop :=
  match b with
  | B_lock_timeout now _ | B_memory_lock_timeout now _ | B_distributed_lock_timeout now _
  | B_factory_timeouts now _ _ _ | B_distributed_timeouts now _ _ => instant_wf now
  | _ => True
  end.

Lemma budgets_current_apply o b :
  builder_clock_wf b → budgets_current o → budgets_current (apply_builder o b).
Proof.
  intros Hwf Ho.
  destruct b; try solve [by apply budgets_current_refresh
    | by apply (budgets_current_same o)].
  simpl. unfold EntryOptions.with_fail_safe.
  repeat case_match; by apply (budgets_current_same o).
Qed.

Lemma budgets_current_chain o chain :
  Forall builder_clock_wf chain → budgets_current o →
  budgets_current (fold_left apply_builder chain o).
Proof. intros H. revert o. induction H; simpl; eauto using budgets_current_apply. Qed.

(** ** Properties *)

(** However a configuration is built, its stored budget state describes its
    timeouts. For every chain of builder calls there is a clock reading at
    which: validation rejects the deadlines exactly when one of the six
    timeouts cannot be represented on the monotonic clock; and the options need
    no timer runtime exactly when all are representable and every finite
    timeout other than the distributed lock's is zero. *)
Theorem budgets_describe_timeouts (d : Duration) (chain : list Builder) :
  Forall builder_clock_wf chain →
  let o := build d chain in
  ∃ now, instant_wf now ∧
    (opt_budgets o = OutOfRange ↔
       ∃ t, In t (EntryOptions.timeouts o) ∧ unrepresentable now t = true) ∧
    (EntryOptions.requires_timer_runtime o = false ↔
       (∀ t, In t (EntryOptions.timeouts o) → unrepresentable now t = false) ∧
       is_after_nonzero (EntryOptions.memory_lock_timeout o) = false ∧
       is_after_nonzero (opt_factory_soft_timeout o) = false ∧
       is_after_nonzero (opt_factory_hard_timeout o) = false ∧
       is_after_nonzero (opt_distributed_soft_timeout o) = false ∧
       is_after_nonzero (opt_distributed_hard_timeout o) = false).
Proof.
  intros Hchain o.
  assert (budgets_current o) as (now & Hnow & Hr).
  { apply budgets_current_chain; [done|]. exists 0. split; [|reflexivity].
    vm_compute; split; [discriminate|reflexivity]. }
  exists now. split; [done|]. clearbody o. clear Hchain d chain.
  apply (f_equal opt_budgets) in Hr. unfold EntryOptions.refresh_budgets in Hr.
  unfold EntryOptions.requires_timer_runtime. rewrite <-Hr. clear Hr.
  destruct (existsb (unrepresentable now) (EntryOptions.timeouts o)) eqn:E; simpl.
  - apply existsb_exists in E as (t & Ht & Hu).
    split; [by split; [intros _; exists t|]|].
    split; [done|]. intros [H _]. by rewrite H in Hu.
  - assert (∀ t, In t (EntryOptions.timeouts o) → unrepresentable now t = false) as Hall.
    { intros t Ht. destruct (unrepresentable now t) eqn:Hu; [|done].
      rewrite <-E. symmetry. apply existsb_exists. eauto. }
    split.
    + split; [done|]. intros (t & Ht & Hu). by rewrite Hall in Hu.
    + unfold EntryOptions.factory_soft_timeout, EntryOptions.factory_hard_timeout,
        EntryOptions.distributed_soft_timeout, EntryOptions.distributed_hard_timeout.
      destruct (is_after_nonzero (EntryOptions.memory_lock_timeout o)),
        (is_after_nonzero (opt_factory_soft_timeout o)),
        (is_after_nonzero (opt_factory_hard_timeout o)),
        (is_after_nonzero (opt_distributed_soft_timeout o)),
        (is_after_nonzero (opt_distributed_hard_timeout o)); simpl;
        (split; [intros ?; first [done | by split_and!] | by intros (? & ? & ? & ? & ? & ?)]).
Qed.

Lemma budgets_describe_timeouts_witness :
  EntryOptions.requires_timer_runtime
    (build (from_secs 1) [B_distributed_lock_timeout 0 (After (from_secs 2))]) = false ∧
  ∃ now, instant_wf now.
Proof.
  split; [reflexivity|].
  destruct (budgets_describe_timeouts (from_secs 1)
    [B_distributed_lock_timeout 0 (After (from_secs 2))]) as (now & Hnow & _).
  - repeat constructor; vm_compute; first [discriminate | reflexivity].
  - exists now. exact Hnow.
Defined.

(** *** Well-formed options *)
Definition option_duration_wf (o : option Duration) : Prop :=
  match o with Some d => duration_wf d | None => True end.

(** Every stored duration is a [Duration] and a stored weight a [u64]. *)
Definition options_wf (o : EntryOptions) : Prop :=
  duration_wf (opt_duration o) ∧ option_duration_wf (opt_memory_duration o) ∧
  option_duration_wf (opt_distributed_duration o) ∧ duration_wf (opt_jitter_max o) ∧
  duration_wf (opt_fail_safe_max_duration o) ∧
  duration_wf (opt_fail_safe_throttle_duration o) ∧
  option_duration_wf (opt_distributed_fail_safe_max_duration o) ∧
  match opt_size o with Weight w => is_u64 w | _ => True end.

Lemma resolved_memory_duration_wf o :
  options_wf o → duration_wf (EntryOptions.resolved_memory_duration o).
Proof.
  intros (? & Hm & _). unfold EntryOptions.resolved_memory_duration.
  by destruct (opt_memory_duration o).
Qed.

Lemma physical_ttl_wf o : options_wf o → duration_wf (EntryOptions.physical_ttl o).
Proof.
  intros Ho. pose proof (resolved_memory_duration_wf o Ho).
  destruct Ho as (_ & _ & _ & _ & ? & _). unfold EntryOptions.physical_ttl.
  case_match; [by apply duration_max_wf|done].
Qed.

Lemma physical_ttl_covers_logical o :
  options_wf o →
  duration_ticks_wide (EntryOptions.resolved_memory_duration o) ≤
  duration_ticks_wide (EntryOptions.physical_ttl o).
Proof.
  intros Ho. pose proof (resolved_memory_duration_wf o Ho).
  destruct Ho as (_ & _ & _ & _ & ? & _). unfold EntryOptions.physical_ttl.
  case_match; [rewrite duration_max_ticks by done|]; lia.
Qed.

Lemma options_size_u64 o w :
  options_wf o → EntryOptions.size o = Ok (Some w) → is_u64 w.
Proof.
  intros (_ & _ & _ & _ & _ & _ & _ & Hs). unfold EntryOptions.size.
  destruct (opt_size o); naive_solver.
Qed.

Lemma jitter_sample_new_ok s m j : JitterSample.new s m = Ok j → jitter_duration j = s.
Proof. unfold JitterSample.new. case_match; naive_solver. Qed.

#[export] Hint Resolve resolved_memory_duration_wf physical_ttl_wf
  physical_ttl_covers_logical saturating_add_i64_range since_wf : amalgam.
