(* ===== verification/Entry.v ===== *)
(** * Cache entries

    Models [src/src/entry.rs] and [src/src/entry/plain.rs]: the entry envelope,
    the constructors that derive its deadlines from options, and the
    transformations that throttle, expire, hydrate or replace it.

    An [Entry] is a shared allocation ([Arc]): its identity is [ptr], compared
    by [is_same_instance], and a function that allocates takes the new address
    as an argument. The continuity epochs are shared atomics, read through an
    [Epochs] store. Cloning a user value gives the same model value. *)
From S2P Require Import Prelude Time F32 Options.

Abbreviation Loc := positive (only parsing).
(** The current value of every shared epoch counter. *)
Abbreviation Epochs := (Loc → Z) (only parsing).

Inductive Freshness := Fresh | Stale.
#[export] Instance Freshness_eq_dec : EqDecision Freshness.
Proof. solve_decision. Defined.
Definition is_fresh (f : Freshness) : bool := match f with Fresh => true | Stale => false end.

Inductive EntryOrigin :=
| EO_Fresh (eager_refresh_at : option Timestamp)
| EO_FailSafe.

Inductive RetentionMetadata :=
| RM_Unspecified
| RM_Specified (size : option EntryWeight) (priority : Priority).

Record Metadata := mkMetadata {
  created : Timestamp;
  inserted_at : Timestamp;
  logical_expiration : Timestamp;
  physical_expiration : Timestamp;
  meta_backend_ttl : Duration;
  origin : EntryOrigin;
  etag : option string;
  last_modified : option Timestamp;
  tags : list string;
  retention : RetentionMetadata
}.
#[export] Instance eta_metadata : Eta Metadata := λ m,
  mkMetadata (created m) (inserted_at m) (logical_expiration m) (physical_expiration m)
    (meta_backend_ttl m) (origin m) (etag m) (last_modified m) (tags m) (retention m).

Module Metadata.
Definition size (self : Metadata) : option EntryWeight :=
  match retention self with RM_Unspecified => None | RM_Specified size _ => size end.
Definition priority (self : Metadata) : Priority :=
  match retention self with RM_Unspecified => Normal | RM_Specified _ p => p end.
Definition stored_priority (self : Metadata) : option Priority :=
  match retention self with RM_Unspecified => None | RM_Specified _ p => Some p end.
Definition eager_refresh_at (self : Metadata) : option Timestamp :=
  match origin self with EO_Fresh e => e | EO_FailSafe => None end.
Definition is_from_fail_safe (self : Metadata) : bool :=
  match origin self with EO_FailSafe => true | EO_Fresh _ => false end.
End Metadata.

(** ** Read fences *)
Record ContinuityStamp := mkStamp { stamp_epoch : Loc; captured : Z }.
Definition stamp_is_current (h : Epochs) (self : ContinuityStamp) : bool :=
  h (stamp_epoch self) =? captured self.

Inductive Eligibility := EL_Local | EL_Hydrated (stamp : ContinuityStamp).

Record EntryInner (V : Type) := mkInner {
  inner_value : V; inner_meta : Metadata; eligibility : Eligibility }.
Arguments mkInner {V}.
Arguments inner_value {V}.
Arguments inner_meta {V}.
Arguments eligibility {V}.

(** [Entry { inner: Arc<EntryInner> }] and [FreshValue(EntryInner)]. *)
Record Entry (V : Type) := mkEntry { ptr : Loc; inner : EntryInner V }.
Arguments mkEntry {V}.
Arguments ptr {V}.
Arguments inner {V}.
Record FreshValue (V : Type) := mkFreshValue { fresh_inner : EntryInner V }.
Arguments mkFreshValue {V}.
Arguments fresh_inner {V}.

Definition into_entry {V} (p : Loc) (self : FreshValue V) : Entry V :=
  mkEntry p (fresh_inner self).
Definition fresh_meta {V} (self : FreshValue V) : Metadata := inner_meta (fresh_inner self).

(** ** Prepared default lifetimes *)
Record FreshPlan := mkFreshPlan {
  plan_logical : LifetimeSpan; plan_physical : LifetimeSpan;
  plan_retention : RetentionMetadata }.

Module FreshPlan.
Definition for_options (options : EntryOptions) : result Error (option FreshPlan) :=
  if negb (is_zero (EntryOptions.jitter_max options))
     || bool_decide (is_Some (EntryOptions.eager_refresh_threshold options))
  then Ok None
  else
    size ← config (EntryOptions.size options);
    let retention :=
      if bool_decide (is_Some size)
         || negb (bool_decide (EntryOptions.priority options = Normal))
         || EntryOptions.is_fail_safe_enabled options
      then RM_Specified size (EntryOptions.priority options)
      else RM_Unspecified in
    Ok (Some (mkFreshPlan
      (LifetimeSpan.new (EntryOptions.resolved_memory_duration options))
      (LifetimeSpan.new (EntryOptions.physical_ttl options)) retention)).

Definition prepare {V} (self : FreshPlan) (value : V) (now : Timestamp)
    (tags : list string) : FreshValue V :=
  let logical_expiration := LifetimeSpan.after (plan_logical self) now in
  let physical_expiration :=
    Z.max (LifetimeSpan.after (plan_physical self) now) logical_expiration in
  mkFreshValue (mkInner value
    {| created := now; inserted_at := now;
       logical_expiration := logical_expiration;
       physical_expiration := physical_expiration;
       meta_backend_ttl := saturating_duration_since physical_expiration now;
       origin := EO_Fresh None; etag := None; last_modified := None;
       tags := tags; retention := plan_retention self |} EL_Local).
End FreshPlan.

Record PlainPlan := mkPlainPlan { lifetime : LifetimeSpan }.
Record PlainMetadata := mkPlainMetadata { plain_created : Timestamp; expires : Timestamp }.

Module PlainMetadata.
Definition logical (self : PlainMetadata) : Timestamp := expires self.
Definition physical (self : PlainMetadata) : Timestamp := expires self.
Definition install (self : PlainMetadata) (meta : Metadata) : Metadata :=
  meta <| created := plain_created self |> <| inserted_at := plain_created self |>
       <| logical_expiration := expires self |> <| physical_expiration := expires self |>
       <| meta_backend_ttl := saturating_duration_since (expires self) (plain_created self) |>
       <| origin := EO_Fresh None |> <| etag := None |> <| last_modified := None |>
       <| tags := [] |> <| retention := RM_Unspecified |>.
Definition into_fresh {V} (self : PlainMetadata) (value : V) (tags : list string)
    : FreshValue V :=
  mkFreshValue (mkInner value
    {| created := plain_created self; inserted_at := plain_created self;
       logical_expiration := expires self; physical_expiration := expires self;
       meta_backend_ttl := saturating_duration_since (expires self) (plain_created self);
       origin := EO_Fresh None; etag := None; last_modified := None;
       tags := tags; retention := RM_Unspecified |} EL_Local).
End PlainMetadata.

Module PlainPlan.
Definition metadata (self : PlainPlan) (now : Timestamp) : PlainMetadata :=
  mkPlainMetadata now (LifetimeSpan.after (lifetime self) now).
Definition prepare {V} (self : PlainPlan) (value : V) (now : Timestamp)
    (tags : list string) : FreshValue V :=
  PlainMetadata.into_fresh (metadata self now) value tags.
End PlainPlan.

Inductive DefaultFreshPlan := Plain (p : PlainPlan) | Prepared (p : FreshPlan) | General.
Definition default_plan_for_options (options : EntryOptions)
    : result Error DefaultFreshPlan :=
  plan ← FreshPlan.for_options options;
  Ok match plan with
     | Some plan =>
         match plan_retention plan with
         | RM_Unspecified =>
             if decide (plan_logical plan = plan_physical plan)
             then Plain (mkPlainPlan (plan_logical plan)) else Prepared plan
         | RM_Specified _ _ => Prepared plan
         end
     | None => General
     end.

(** ** Operations *)
Module Entry.
Section entry.
Context {V : Type}.
Implicit Types (self : Entry V) (options : EntryOptions) (h : Epochs).

Definition value self : V := inner_value (inner self).
Definition meta self : Metadata := inner_meta (inner self).
Definition backend_ttl self : Duration := meta_backend_ttl (meta self).
Definition backend_ttl_at self (now : Timestamp) : Duration :=
  saturating_duration_since (physical_expiration (meta self)) now.
Definition is_same_instance self (other : Entry V) : bool :=
  bool_decide (ptr self = ptr other).
Definition is_read_eligible h self : bool :=
  match eligibility (inner self) with
  | EL_Local => true
  | EL_Hydrated stamp => stamp_is_current h stamp
  end.

(** [Arc::get_mut] succeeds exactly when [unique]; the incoming value is only
    then consumed, and the allocation keeps its address. *)
Definition replace_unique_payload (unique : bool) self (fresh : FreshValue V)
    : option (V * Entry V) :=
  if unique then Some (value self, mkEntry (ptr self) (fresh_inner fresh)) else None.

(** [PlainReplacement::Replaced] with the retired value, or [Shared]. *)
Definition replace_plain (unique : bool) self (incoming : V) (m : PlainMetadata)
    : option (V * Entry V) :=
  if unique
  then Some (value self,
         mkEntry (ptr self) (mkInner incoming (PlainMetadata.install m (meta self)) EL_Local))
  else None.

Definition at_insertion (p : Loc) self (inserted : Timestamp) : Entry V :=
  if inserted =? inserted_at (meta self) then self
  else mkEntry p (mkInner (value self)
    (meta self <| inserted_at := inserted |>
               <| meta_backend_ttl := backend_ttl_at self inserted |>)
    (eligibility (inner self))).

Definition with_hydrated_value (p : Loc) self (v : V) (stamp : ContinuityStamp) : Entry V :=
  mkEntry p (mkInner v (meta self) (EL_Hydrated stamp)).

Definition without_eager_refresh (p : Loc) self : Entry V :=
  mkEntry p (mkInner (value self)
    (meta self <| origin := match origin (meta self) with
                            | EO_Fresh _ => EO_Fresh None
                            | EO_FailSafe => EO_FailSafe end |>)
    (eligibility (inner self))).

Definition with_value (p : Loc) self (v : V) : Entry V :=
  mkEntry p (mkInner v (meta self) (eligibility (inner self))).

Definition freshness self (now : Timestamp) : Freshness :=
  if is_before now (logical_expiration (meta self)) then Fresh else Stale.
Definition is_logically_expired self (now : Timestamp) : bool :=
  negb (is_before now (logical_expiration (meta self))).
Definition is_physically_expired self (now : Timestamp) : bool :=
  negb (is_before now (physical_expiration (meta self))).
Definition should_eager_refresh self (now : Timestamp) : bool :=
  match Metadata.eager_refresh_at (meta self) with
  | Some at_ => negb (is_before now at_) && is_before now (logical_expiration (meta self))
  | None => false
  end.

(** *** Fresh representations *)
Definition prepare_fresh_with_jitter (v : V) options
    (snapshot_created inserted : Timestamp) (jitter : JitterSample)
    (tags : list string) (etag : option string) (last_modified : option Timestamp)
    : result Error (FreshValue V) :=
  size ← config (EntryOptions.size options);
  logical ← config (EntryOptions.logical_expiration_with_jitter options inserted jitter);
  let physical :=
    Z.max (saturating_add inserted (EntryOptions.physical_ttl options)) logical in
  let retention :=
    if bool_decide (is_Some size)
       || negb (bool_decide (EntryOptions.priority options = Normal))
       || EntryOptions.is_fail_safe_enabled options
       || bool_decide (is_Some (EntryOptions.eager_refresh_threshold options))
       || bool_decide (is_Some etag) || bool_decide (is_Some last_modified)
    then RM_Specified size (EntryOptions.priority options)
    else RM_Unspecified in
  eager ← EntryOptions.eager_refresh_at_expiration options inserted logical;
  Ok (mkFreshValue (mkInner v
    {| created := snapshot_created; inserted_at := inserted;
       logical_expiration := logical; physical_expiration := physical;
       meta_backend_ttl := saturating_duration_since physical inserted;
       origin := EO_Fresh eager; etag := etag; last_modified := last_modified;
       tags := tags; retention := retention |} EL_Local)).

Definition try_fresh_with_jitter (p : Loc) (v : V) options snapshot_created inserted
    jitter tags etag last_modified : result Error (Entry V) :=
  into_entry p <$> prepare_fresh_with_jitter v options snapshot_created inserted
                     jitter tags etag last_modified.

Definition try_fresh_at (p : Loc) (drawn : Z) (v : V) options snapshot_created inserted
    tags etag last_modified : result Error (Entry V) :=
  jitter ← config (JitterSample.new (random_sample drawn (EntryOptions.jitter_max options))
                     (EntryOptions.jitter_max options));
  try_fresh_with_jitter p v options snapshot_created inserted jitter tags etag last_modified.

(** The panicking adapters: every error is a panic. *)
Definition or_panic {A} (r : result Error A) : result Error A :=
  match r with Ok a => Ok a | Err _ => Err Panicked end.
Definition fresh_at (p : Loc) (drawn : Z) (v : V) options snapshot_created inserted
    tags etag last_modified : result Error (Entry V) :=
  or_panic (try_fresh_at p drawn v options snapshot_created inserted tags etag last_modified).
Definition fresh (p : Loc) (drawn : Z) (v : V) options created_at tags etag last_modified
    : result Error (Entry V) :=
  fresh_at p drawn v options created_at created_at tags etag last_modified.

(** *** Fail-safe *)
Definition try_throttled (p : Loc) h (source : Entry V) options (now : Timestamp)
    : result Error (option (Entry V)) :=
  _ ← config (EntryOptions.validate options);
  if negb (is_read_eligible h source) || is_physically_expired source now then Ok None
  else
    let physical := physical_expiration (meta source) in
    let backend_ttl := saturating_duration_since physical now in
    let logical :=
      Z.min (saturating_add now (EntryOptions.fail_safe_throttle_duration options))
        physical in
    Ok (Some (mkEntry p (mkInner (value source)
      {| created := created (meta source); inserted_at := now;
         logical_expiration := logical; physical_expiration := physical;
         meta_backend_ttl := backend_ttl; origin := EO_FailSafe;
         etag := etag (meta source); last_modified := last_modified (meta source);
         tags := tags (meta source); retention := retention (meta source) |}
      (eligibility (inner source))))).
Definition throttled (p : Loc) h source options now : result Error (option (Entry V)) :=
  or_panic (try_throttled p h source options now).

Definition try_from_fail_safe_default (p : Loc) (v : V) options (now : Timestamp)
    : result Error (Entry V) :=
  size ← config (EntryOptions.size options);
  let throttle := EntryOptions.fail_safe_throttle_duration options in
  let physical := saturating_add now (EntryOptions.physical_ttl options) in
  Ok (mkEntry p (mkInner v
    {| created := now; inserted_at := now;
       logical_expiration := Z.min (saturating_add now throttle) physical;
       physical_expiration := physical;
       meta_backend_ttl := EntryOptions.physical_ttl options;
       origin := EO_FailSafe; etag := None; last_modified := None; tags := [];
       retention := RM_Specified size (EntryOptions.priority options) |} EL_Local)).
Definition from_fail_safe_default (p : Loc) v options now : result Error (Entry V) :=
  or_panic (try_from_fail_safe_default p v options now).

(** *** Expiration *)
Definition with_logical_expiration_at (p : Loc) self (at_ inserted : Timestamp) : Entry V :=
  let m := meta self in
  mkEntry p (mkInner (value self)
    (m <| logical_expiration := Z.min at_ (physical_expiration m) |>
       <| inserted_at := inserted |>
       <| origin := match origin m with
                    | EO_Fresh _ => EO_Fresh None
                    | EO_FailSafe => EO_FailSafe end |>
       <| meta_backend_ttl := saturating_duration_since (physical_expiration m) inserted |>)
    (eligibility (inner self))).
Definition with_logical_expiration (p : Loc) self (at_ : Timestamp) : Entry V :=
  with_logical_expiration_at p self at_ at_.

(** *** Distributed snapshots *)
Definition try_rehydrate_with_retention (p : Loc) (v : V)
    (created_at logical physical : Timestamp) (from_fail_safe : bool)
    (etag : option string) (last_modified : option Timestamp) (tags : list string)
    (retention : RetentionMetadata) (now : Timestamp) : result Error (Entry V) :=
  if physical <? logical then Err (Config InvalidEntryDeadlines)
  else Ok (mkEntry p (mkInner v
    {| created := created_at; inserted_at := now;
       logical_expiration := logical; physical_expiration := physical;
       meta_backend_ttl := saturating_duration_since physical now;
       origin := if from_fail_safe then EO_FailSafe else EO_Fresh None;
       etag := etag; last_modified := last_modified; tags := tags;
       retention := retention |} EL_Local)).
Definition try_rehydrate (p : Loc) (v : V) created_at logical physical from_fail_safe
    etag last_modified tags now : result Error (Entry V) :=
  try_rehydrate_with_retention p v created_at logical physical from_fail_safe etag
    last_modified tags RM_Unspecified now.
Definition rehydrate (p : Loc) (v : V) created_at logical physical from_fail_safe
    etag last_modified tags now : result Error (Entry V) :=
  or_panic (try_rehydrate p v created_at logical physical from_fail_safe etag
    last_modified tags now).

Definition with_retention (p : Loc) self (size : option EntryWeight) (priority : Priority)
    : Entry V :=
  mkEntry p (mkInner (value self)
    (meta self <| retention := RM_Specified size priority |>) (eligibility (inner self))).

(** [MemoryHydration(Metadata)] is the prepared metadata. *)
Definition prepare_memory_hydration h self options (now : Timestamp)
    : result Error (option Metadata) :=
  requested_size ← config (EntryOptions.size options);
  if negb (is_read_eligible h self) || is_physically_expired self now then Ok None
  else
    let m := meta self in
    let logical :=
      Z.min (logical_expiration m)
        (saturating_add now (EntryOptions.resolved_memory_duration options)) in
    let physical :=
      Z.max (Z.min (physical_expiration m)
               (saturating_add now (EntryOptions.physical_ttl options))) logical in
    let retention' :=
      match retention m with
      | RM_Specified size priority =>
          RM_Specified (match size with Some s => Some s | None => requested_size end) priority
      | RM_Unspecified => RM_Specified requested_size (EntryOptions.priority options)
      end in
    origin' ←
      match origin m with
      | EO_FailSafe => Ok EO_FailSafe
      | EO_Fresh _ =>
          match EntryOptions.eager_refresh_threshold options with
          | Some threshold =>
              if now <? logical then
                d ← unwrap_panic (mul_f32 (saturating_duration_since logical now)
                                    (fraction threshold));
                Ok (EO_Fresh (Some (saturating_add now d)))
              else Ok (EO_Fresh None)
          | None => Ok (EO_Fresh None)
          end
      end;
    Ok (Some (m <| inserted_at := now |> <| logical_expiration := logical |>
                <| physical_expiration := physical |>
                <| meta_backend_ttl := saturating_duration_since physical now |>
                <| retention := retention' |> <| origin := origin' |>)).

Definition for_memory_hydration (p : Loc) h self options (now : Timestamp)
    : result Error (option (Entry V)) :=
  (λ prepared : option Metadata,
     (λ m, mkEntry p (mkInner (value self) m (eligibility (inner self)))) <$> prepared)
  <$> prepare_memory_hydration h self options now.
End entry.
End Entry.

(** ** The deadline invariant *)
Section invariant.
Context {V : Type}.
Implicit Types (e : Entry V) (m : Metadata) (o : EntryOptions).

(** The remaining ticks of the backend TTL reach the physical boundary; they
    are the whole distance, except on a fail-safe default. *)
Definition meta_wf m : Prop :=
  is_i64 (inserted_at m) ∧ is_i64 (logical_expiration m) ∧
  is_i64 (physical_expiration m) ∧
  logical_expiration m ≤ physical_expiration m ∧
  duration_wf (meta_backend_ttl m) ∧
  physical_expiration m - inserted_at m ≤ duration_ticks_wide (meta_backend_ttl m) ∧
  (Metadata.is_from_fail_safe m = false →
   meta_backend_ttl m = saturating_duration_since (physical_expiration m) (inserted_at m)).

(** How an entry comes to exist: every constructor and transformer of the
    module, at any epoch values, addresses and well-formed arguments. *)
Inductive constructed : Entry V → Prop :=
| c_fresh p v o c i j tags et lm f :
    options_wf o → is_i64 i → duration_wf (jitter_duration j) →
    Entry.prepare_fresh_with_jitter v o c i j tags et lm = Ok f →
    constructed (into_entry p f)
| c_prepared p v o plan now tags :
    options_wf o → is_i64 now → default_plan_for_options o = Ok (Prepared plan) →
    constructed (into_entry p (FreshPlan.prepare plan v now tags))
| c_plain p v o plan now tags :
    options_wf o → is_i64 now → default_plan_for_options o = Ok (Plain plan) →
    constructed (into_entry p (PlainPlan.prepare plan v now tags))
| c_default p v o now e :
    options_wf o → is_i64 now → Entry.try_from_fail_safe_default p v o now = Ok e →
    constructed e
| c_rehydrate p v c l ph ff et lm tags r now e :
    is_i64 l → is_i64 ph → is_i64 now →
    Entry.try_rehydrate_with_retention p v c l ph ff et lm tags r now = Ok e →
    constructed e
| c_throttled p h src o now e :
    constructed src → options_wf o → is_i64 now →
    Entry.try_throttled p h src o now = Ok (Some e) → constructed e
| c_hydration p h src o now e :
    constructed src → options_wf o → is_i64 now →
    Entry.for_memory_hydration p h src o now = Ok (Some e) → constructed e
| c_at_insertion p e i :
    constructed e → is_i64 i → constructed (Entry.at_insertion p e i)
| c_hydrated_value p e v stamp :
    constructed e → constructed (Entry.with_hydrated_value p e v stamp)
| c_without_eager p e : constructed e → constructed (Entry.without_eager_refresh p e)
| c_with_value p e v : constructed e → constructed (Entry.with_value p e v)
| c_expired p e at_ i :
    constructed e → is_i64 at_ → is_i64 i →
    constructed (Entry.with_logical_expiration_at p e at_ i)
| c_retention p e s pr : constructed e → constructed (Entry.with_retention p e s pr)
| c_replaced e p f old e' :
    constructed e → constructed (into_entry p f) →
    Entry.replace_unique_payload true e f = Some (old, e') → constructed e'
| c_replaced_plain e o plan v now old e' :
    constructed e → options_wf o → is_i64 now →
    default_plan_for_options o = Ok (Plain plan) →
    Entry.replace_plain true e v (PlainPlan.metadata plan now) = Some (old, e') →
    constructed e'.

Lemma since_meta_wf p i :
  is_i64 p → is_i64 i →
  duration_wf (saturating_duration_since p i) ∧
  p - i ≤ duration_ticks_wide (saturating_duration_since p i).
Proof. intros. split; [by apply since_wf|]. rewrite since_ticks by done. lia. Qed.

(** The common shape of every constructor but the fail-safe default. *)
Lemma meta_wf_since m :
  is_i64 (inserted_at m) → is_i64 (logical_expiration m) →
  is_i64 (physical_expiration m) → logical_expiration m ≤ physical_expiration m →
  meta_backend_ttl m = saturating_duration_since (physical_expiration m) (inserted_at m) →
  meta_wf m.
Proof.
  intros Hi Hl Hp Hle Httl.
  destruct (since_meta_wf (physical_expiration m) (inserted_at m)) as [? ?]; [done..|].
  unfold meta_wf. rewrite Httl. split_and!; done.
Qed.

Lemma plan_spans o plan :
  FreshPlan.for_options o = Ok (Some plan) →
  plan_logical plan = LifetimeSpan.new (EntryOptions.resolved_memory_duration o) ∧
  plan_physical plan = LifetimeSpan.new (EntryOptions.physical_ttl o).
Proof.
  unfold FreshPlan.for_options. case_match; [done|].
  intros (size & _ & Heq)%result_bind_ok. by simplify_eq/=.
Qed.

Lemma default_plan_prepared o plan :
  default_plan_for_options o = Ok (Prepared plan) → FreshPlan.for_options o = Ok (Some plan).
Proof.
  unfold default_plan_for_options. intros ([pl|] & Hp & Heq)%result_bind_ok; [|done].
  destruct (plan_retention pl); [case_match|]; by simplify_eq.
Qed.

Lemma default_plan_plain o plan :
  default_plan_for_options o = Ok (Plain plan) →
  ∃ full, FreshPlan.for_options o = Ok (Some full) ∧
    plan_retention full = RM_Unspecified ∧
    lifetime plan = plan_logical full ∧ plan_logical full = plan_physical full.
Proof.
  unfold default_plan_for_options. intros ([pl|] & Hp & Heq)%result_bind_ok; [|done].
  destruct (plan_retention pl) eqn:?; [case_match|]; simplify_eq. eauto.
Qed.

Lemma plain_after o plan now :
  options_wf o → is_i64 now → default_plan_for_options o = Ok (Plain plan) →
  is_i64 (LifetimeSpan.after (lifetime plan) now).
Proof.
  intros Ho Hn (full & Hf & _ & -> & _)%default_plan_plain.
  apply plan_spans in Hf as [-> _].
  rewrite span_after_saturating_add. auto with amalgam.
Qed.

Lemma min_i64 a b : is_i64 a → is_i64 b → is_i64 (Z.min a b).
Proof. zsolve. Qed.
Lemma max_i64 a b : is_i64 a → is_i64 b → is_i64 (Z.max a b).
Proof. zsolve. Qed.
End invariant.
#[export] Hint Resolve min_i64 max_i64 Z.le_min_r Z.le_max_r : amalgam.

(** *** One lemma per operation *)
Section operation_lemmas.
Context {V : Type}.
Implicit Types (e src : Entry V) (o : EntryOptions).

Lemma prepare_fresh_inv v o c i j tags et lm (f : FreshValue V) :
  Entry.prepare_fresh_with_jitter v o c i j tags et lm = Ok f →
  inserted_at (fresh_meta f) = i ∧
  logical_expiration (fresh_meta f) =
    saturating_add (saturating_add i (EntryOptions.resolved_memory_duration o))
      (jitter_duration j) ∧
  physical_expiration (fresh_meta f) =
    Z.max (saturating_add i (EntryOptions.physical_ttl o)) (logical_expiration (fresh_meta f)) ∧
  meta_backend_ttl (fresh_meta f) =
    saturating_duration_since (physical_expiration (fresh_meta f)) i.
Proof.
  unfold Entry.prepare_fresh_with_jitter.
  intros (size & _ & H)%result_bind_ok. apply result_bind_ok in H as (l & Hl & H).
  apply result_bind_ok in H as (eager & _ & H). injection H as <-.
  unfold EntryOptions.logical_expiration_with_jitter, config in Hl.
  destruct (JitterSample.new _ _) as [s|] eqn:Hs; simplify_eq/=.
  apply jitter_sample_new_ok in Hs. by rewrite Hs.
Qed.

Lemma prepare_fresh_wf v o c i j tags et lm (f : FreshValue V) :
  options_wf o → is_i64 i → duration_wf (jitter_duration j) →
  Entry.prepare_fresh_with_jitter v o c i j tags et lm = Ok f → meta_wf (fresh_meta f).
Proof.
  intros Ho Hi Hj (Hins & Hl & Hp & Httl)%prepare_fresh_inv.
  assert (is_i64 (logical_expiration (fresh_meta f))) by (rewrite Hl; auto with amalgam).
  apply meta_wf_since; rewrite ?Hins, ?Httl, ?Hp; auto with amalgam.
Qed.

Lemma plan_prepare_wf v o plan now tags :
  options_wf o → is_i64 now → FreshPlan.for_options o = Ok (Some plan) →
  meta_wf (fresh_meta (FreshPlan.prepare (V:=V) plan v now tags)).
Proof.
  intros Ho Hn [Hl Hp]%plan_spans. unfold FreshPlan.prepare.
  rewrite Hl, Hp, !span_after_saturating_add.
  apply meta_wf_since; simpl; auto with amalgam.
Qed.

Lemma plain_metadata_wf o plan now m :
  options_wf o → is_i64 now → default_plan_for_options o = Ok (Plain plan) →
  meta_wf (PlainMetadata.install (PlainPlan.metadata plan now) m).
Proof.
  intros Ho Hn Hp. pose proof (plain_after _ _ _ Ho Hn Hp).
  by apply meta_wf_since; simpl.
Qed.

Lemma plain_prepare_wf v o plan now tags :
  options_wf o → is_i64 now → default_plan_for_options o = Ok (Plain plan) →
  meta_wf (fresh_meta (PlainPlan.prepare (V:=V) plan v now tags)).
Proof.
  intros Ho Hn Hp. pose proof (plain_after _ _ _ Ho Hn Hp).
  by apply meta_wf_since; simpl.
Qed.

Lemma fail_safe_default_wf p v o now e :
  options_wf o → is_i64 now → Entry.try_from_fail_safe_default p v o now = Ok e →
  meta_wf (Entry.meta e).
Proof.
  intros Ho Hn (s & _ & [= <-])%result_bind_ok.
  pose proof (physical_ttl_wf o Ho) as Hwf.
  pose proof (saturating_add_i64_range _ _ Hn Hwf).
  assert (duration_wf (opt_fail_safe_throttle_duration o)) by apply Ho.
  unfold meta_wf, Entry.meta; simpl. split_and!; auto with amalgam; [|done].
  rewrite saturating_add_min by done. lia.
Qed.

Lemma throttled_inv p h src o now e :
  Entry.try_throttled p h src o now = Ok (Some e) →
  is_ok (EntryOptions.validate o) = true ∧
  Entry.is_read_eligible h src = true ∧ Entry.is_physically_expired src now = false ∧
  let physical := physical_expiration (Entry.meta src) in
  e = mkEntry p (mkInner (Entry.value src)
    (mkMetadata (created (Entry.meta src)) now
      (Z.min (saturating_add now (EntryOptions.fail_safe_throttle_duration o)) physical)
      physical (saturating_duration_since physical now) EO_FailSafe
      (etag (Entry.meta src)) (last_modified (Entry.meta src)) (tags (Entry.meta src))
      (retention (Entry.meta src)))
    (eligibility (inner src))).
Proof.
  unfold Entry.try_throttled. intros (u & Hv & H)%result_bind_ok.
  destruct (EntryOptions.validate o); [|done].
  destruct (Entry.is_read_eligible h src), (Entry.is_physically_expired src now);
    simplify_eq/=. done.
Qed.

Lemma throttled_wf p h src o now e :
  options_wf o → is_i64 now → meta_wf (Entry.meta src) →
  Entry.try_throttled p h src o now = Ok (Some e) → meta_wf (Entry.meta e).
Proof.
  intros Ho Hn (? & ? & ? & ? & ?) (_ & _ & _ & ->)%throttled_inv.
  assert (duration_wf (opt_fail_safe_throttle_duration o)) by apply Ho.
  apply meta_wf_since; simpl; auto with amalgam.
Qed.

Lemma hydration_inv h src o now m :
  Entry.prepare_memory_hydration h src o now = Ok (Some m) →
  Entry.is_read_eligible h src = true ∧ Entry.is_physically_expired src now = false ∧
  inserted_at m = now ∧
  logical_expiration m =
    Z.min (logical_expiration (Entry.meta src))
      (saturating_add now (EntryOptions.resolved_memory_duration o)) ∧
  physical_expiration m =
    Z.max (Z.min (physical_expiration (Entry.meta src))
             (saturating_add now (EntryOptions.physical_ttl o))) (logical_expiration m) ∧
  meta_backend_ttl m = saturating_duration_since (physical_expiration m) now ∧
  created m = created (Entry.meta src) ∧ tags m = tags (Entry.meta src) ∧
  etag m = etag (Entry.meta src) ∧ last_modified m = last_modified (Entry.meta src) ∧
  Metadata.is_from_fail_safe m = Metadata.is_from_fail_safe (Entry.meta src).
Proof.
  unfold Entry.prepare_memory_hydration. intros (s & _ & H)%result_bind_ok.
  destruct (Entry.is_read_eligible h src), (Entry.is_physically_expired src now);
    try done; cbv beta iota zeta in H; simpl in H.
  apply result_bind_ok in H as (og & Hog & H). injection H as <-. simpl.
  split_and!; try done. unfold Metadata.is_from_fail_safe; simpl.
  destruct (origin (Entry.meta src)); [|by injection Hog as <-].
  repeat case_match; simplify_eq/=; try done.
  destruct (mul_f32 _ _); by simplify_eq/=.
Qed.

Lemma hydration_wf h src o now m :
  options_wf o → is_i64 now → meta_wf (Entry.meta src) →
  Entry.prepare_memory_hydration h src o now = Ok (Some m) → meta_wf m.
Proof.
  intros Ho Hn (? & ? & ? & ? & ?) Hm.
  apply hydration_inv in Hm as (_ & _ & Hi & Hl & Hp & Httl & _).
  assert (is_i64 (logical_expiration m)) by (rewrite Hl; auto with amalgam).
  apply meta_wf_since; rewrite ?Hi, ?Hp; auto 10 with amalgam. by rewrite Httl, Hp.
Qed.

Lemma for_memory_hydration_inv p h src o now e :
  Entry.for_memory_hydration p h src o now = Ok (Some e) →
  Entry.prepare_memory_hydration h src o now = Ok (Some (Entry.meta e)) ∧
  Entry.value e = Entry.value src ∧ ptr e = p.
Proof.
  unfold Entry.for_memory_hydration. intros ([m|] & Hm & He)%result_fmap_ok;
    simplify_eq/=. done.
Qed.

Lemma constructed_wf e : constructed e → meta_wf (Entry.meta e).
Proof.
  induction 1 as [| | | | |p h src o now e _ IH Ho Hn Ht|p h src o now e _ IH Ho Hn Hh
    |p e i _ IH Hi|p e v stamp _ IH|p e _ IH|p e v _ IH|p e a i _ IH Ha Hi
    |p e s pr _ IH|e p f old e' _ _ _ IH Hr|e o plan v now old e' _ _ Ho Hn Hp Hr].
  - by eapply prepare_fresh_wf.
  - by eapply (plan_prepare_wf v), default_plan_prepared.
  - by eapply (plain_prepare_wf v).
  - by eapply fail_safe_default_wf.
  - unfold Entry.try_rehydrate_with_retention in *. case_match; simplify_eq.
    bool_to_prop. by apply meta_wf_since; simpl.
  - by eapply throttled_wf.
  - apply for_memory_hydration_inv in Hh as [Hh _]. by eapply hydration_wf.
  - unfold Entry.at_insertion. case_match; [done|].
    destruct IH as (? & ? & ? & ? & _). by apply meta_wf_since; simpl.
  - done.
  - destruct IH as (? & ? & ? & ? & ? & ? & Hex). split_and!; try done.
    intros Hff. apply Hex. unfold Metadata.is_from_fail_safe in *; simpl in Hff.
    by destruct (origin (Entry.meta e)).
  - done.
  - destruct IH as (? & ? & ? & ? & _). apply meta_wf_since; simpl; auto with amalgam.
  - done.
  - by simplify_eq/=.
  - simplify_eq/=. by eapply plain_metadata_wf.
Qed.
End operation_lemmas.

(** ** Properties *)

(** C31: the deadlines of an entry stay coherent however it was produced. For
    every entry obtained by a constructor and any sequence of transformations,
    the freshness boundary is not after the physical one, a physically dead
    entry is never fresh, an eager refresh is only asked for while the entry is
    fresh, and the backend TTL counted from the insertion instant never ends
    before the physical boundary; it ends exactly there (or is zero, when the
    boundary has passed) for every entry that did not come from a fail-safe
    activation. *)
Theorem entry_deadlines_coherent {V} (e : Entry V) (now : Timestamp) :
  constructed e → is_i64 now →
  let m := Entry.meta e in
  logical_expiration m ≤ physical_expiration m ∧
  (Entry.is_physically_expired e now = true → Entry.freshness e now = Stale) ∧
  (Entry.should_eager_refresh e now = true → Entry.freshness e now = Fresh) ∧
  physical_expiration m ≤ saturating_add (inserted_at m) (Entry.backend_ttl e) ∧
  (Metadata.is_from_fail_safe m = false →
   saturating_add (inserted_at m) (Entry.backend_ttl e) =
   Z.max (physical_expiration m) (inserted_at m)).
Proof.
  intros (Hi & Hl & Hp & Hle & Hwf & Hcov & Hex)%constructed_wf Hn. cbv zeta.
  unfold Entry.is_physically_expired, Entry.should_eager_refresh, Entry.freshness,
    is_before, Entry.backend_ttl.
  split_and!; [done|..].
  - intros ?. bool_to_prop. destruct (now <? logical_expiration _) eqn:?; bool_to_prop; [lia|done].
  - case_match; [|done]. intros [_ ->]%andb_prop. done.
  - rewrite saturating_add_min by done. zsolve.
  - intros Hff. rewrite (Hex Hff). by apply saturating_add_since.
Qed.

Definition example_entry : result Error (Entry nat) :=
  Entry.try_from_fail_safe_default 1%positive 7%nat
    (EntryOptions.with_fail_safe true None None (EntryOptions.new (from_secs 60))) 1000.

Lemma entry_deadlines_coherent_witness :
  match example_entry with
  | Ok e => Entry.freshness e (i64_max) = Stale
  | Err _ => False
  end.
Proof.
  destruct example_entry as [e|] eqn:He; [|by vm_compute in He].
  assert (constructed e) as Hc.
  { eapply c_default; [| |exact He].
    - vm_compute; repeat split; discriminate || reflexivity.
    - vm_compute; split; discriminate. }
  destruct (entry_deadlines_coherent e i64_max Hc) as (_ & H & _).
  - vm_compute; split; discriminate.
  - apply H. vm_compute in He. injection He as <-. vm_compute. reflexivity.
Defined.

(** The prepared default lifetimes are an optimisation only. Whenever the
    options admit a plan, preparing a value through it gives exactly the
    representation of the general constructor with no jitter and no validators,
    including when the plan drops the retention data or the second deadline;
    options the plan rejects are rejected with the same error by the general
    constructor; and the general path is kept exactly when jitter or eager
    refresh is configured. *)
Theorem default_plan_agrees {V} (v : V) (o : EntryOptions) (now : Timestamp)
    (tgs : list string) :
  options_wf o → is_i64 now →
  let general := Entry.prepare_fresh_with_jitter v o now now JitterSample.ZERO tgs None None in
  match default_plan_for_options o with
  | Ok (Plain plan) => general = Ok (PlainPlan.prepare plan v now tgs)
  | Ok (Prepared plan) => general = Ok (FreshPlan.prepare plan v now tgs)
  | Ok General =>
      is_zero (EntryOptions.jitter_max o) = false ∨
      is_Some (EntryOptions.eager_refresh_threshold o)
  | Err e => general = Err e
  end.
Proof.
  intros Ho Hn. unfold default_plan_for_options, FreshPlan.for_options.
  unfold EntryOptions.jitter_max, EntryOptions.eager_refresh_threshold.
  destruct (is_zero (opt_jitter_max o)) eqn:Hz; [|simpl; by left]. simpl.
  destruct (opt_eager_refresh_threshold o) as [th|] eqn:Hth; simpl; [by right; eexists|].
  assert (opt_jitter_max o = Duration_ZERO) as Hj.
  { unfold is_zero in Hz. destruct (opt_jitter_max o); simpl in *. bool_to_prop.
    by subst. }
  unfold Entry.prepare_fresh_with_jitter.
  destruct (config (EntryOptions.size o)) as [size|] eqn:Hs; simpl; [|done].
  unfold EntryOptions.logical_expiration_with_jitter, EntryOptions.eager_refresh_at_expiration,
    EntryOptions.eager_refresh_threshold.
  rewrite Hj, Hth. simpl.
  rewrite saturating_add_zero by auto with amalgam.
  unfold PlainPlan.prepare, PlainPlan.metadata, PlainMetadata.into_fresh, FreshPlan.prepare.
  rewrite !orb_false_r.
  destruct (bool_decide (is_Some size) || _ || _); simpl;
    [by rewrite !span_after_saturating_add|].
  case_decide as Heq; simpl; rewrite !span_after_saturating_add; [|done].
  injection Heq as Heq.
  rewrite !saturating_add_min by auto with amalgam. rewrite Heq, Z.max_id. done.
Qed.

Lemma default_plan_agrees_witness :
  Entry.prepare_fresh_with_jitter 7%nat (EntryOptions.new (from_secs 60)) 1000 1000
    JitterSample.ZERO [] None None =
  Ok (PlainPlan.prepare (mkPlainPlan (mkLifetimeSpan 600000000)) 7%nat 1000 []).
Proof.
  apply (default_plan_agrees 7%nat (EntryOptions.new (from_secs 60)) 1000 []).
  - vm_compute; repeat split; discriminate || reflexivity.
  - vm_compute; split; discriminate.
Defined.

(** Throttling a stale value never extends its life. The call fails exactly
    when the options are invalid and otherwise yields nothing exactly when the
    source is fenced off or physically dead. A yielded entry carries the same
    value, tags and creation time, is marked as fail-safe, is never eagerly
    refreshed, is readable under the same epochs and physically dead at the
    same instants as its source, and is fresh no longer than the throttle
    window. *)
Theorem throttled_never_extends {V} (p : Loc) (h : Epochs) (src : Entry V)
    (o : EntryOptions) (now : Timestamp) :
  (is_ok (Entry.try_throttled p h src o now) = is_ok (EntryOptions.validate o)) ∧
  (is_ok (EntryOptions.validate o) = true →
   (Entry.try_throttled p h src o now = Ok None ↔
    Entry.is_read_eligible h src = false ∨ Entry.is_physically_expired src now = true)) ∧
  ∀ e, Entry.try_throttled p h src o now = Ok (Some e) →
    Entry.value e = Entry.value src ∧
    tags (Entry.meta e) = tags (Entry.meta src) ∧
    created (Entry.meta e) = created (Entry.meta src) ∧
    Metadata.is_from_fail_safe (Entry.meta e) = true ∧
    ∀ h' t,
      Entry.should_eager_refresh e t = false ∧
      Entry.is_read_eligible h' e = Entry.is_read_eligible h' src ∧
      Entry.is_physically_expired e t = Entry.is_physically_expired src t ∧
      (Entry.freshness e t = Fresh →
       t < saturating_add now (EntryOptions.fail_safe_throttle_duration o) ∧
       Entry.is_physically_expired src t = false).
Proof.
  split_and!.
  - unfold Entry.try_throttled. destruct (EntryOptions.validate o); [|done]. simpl.
    by case_match.
  - unfold Entry.try_throttled. destruct (EntryOptions.validate o); [|done]. intros _. simpl.
    destruct (Entry.is_read_eligible h src), (Entry.is_physically_expired src now); simpl;
      (split; [intros ?; simplify_eq; auto|intros []; done]).
  - intros e (_ & _ & _ & ->)%throttled_inv. split_and!; try done.
    intros h' t. split_and!; [done..|].
    unfold Entry.freshness, Entry.is_physically_expired, is_before; simpl.
    destruct (t <? _) eqn:Ht; [|done]. intros _. bool_to_prop.
    split; [lia|]. apply negb_false_iff, Z.ltb_lt. unfold Entry.meta in *; simpl in *. lia.
Qed.

Lemma throttled_never_extends_witness :
  match example_entry with
  | Ok e => Entry.try_throttled 2%positive (λ _, 0) e
              (EntryOptions.new (from_secs 60)) i64_max = Ok None
  | Err _ => False
  end.
Proof.
  destruct example_entry as [e|] eqn:He; [|by vm_compute in He].
  apply (throttled_never_extends 2%positive (λ _, 0) e
           (EntryOptions.new (from_secs 60)) i64_max).
  - reflexivity.
  - right. vm_compute in He. injection He as <-. reflexivity.
Defined.

(** Hydrating an entry into memory never renews its source. The local copy
    is fresh exactly while the source is fresh and the configured memory
    duration from now has not elapsed, and physically alive exactly while the
    source is and the configured physical lifetime from now has not elapsed; it
    keeps the value, the tags and the creation time the tag markers are
    compared with, and the fail-safe mark. *)
Theorem hydration_never_renews {V} (p : Loc) (h : Epochs) (src e : Entry V)
    (o : EntryOptions) (now t : Timestamp) :
  constructed src → options_wf o → is_i64 now →
  Entry.for_memory_hydration p h src o now = Ok (Some e) →
  (Entry.is_logically_expired e t =
     Entry.is_logically_expired src t ||
     negb (is_before t (saturating_add now (EntryOptions.resolved_memory_duration o)))) ∧
  (Entry.is_physically_expired e t =
     Entry.is_physically_expired src t ||
     negb (is_before t (saturating_add now (EntryOptions.physical_ttl o)))) ∧
  Entry.value e = Entry.value src ∧
  tags (Entry.meta e) = tags (Entry.meta src) ∧
  created (Entry.meta e) = created (Entry.meta src) ∧
  Metadata.is_from_fail_safe (Entry.meta e) = Metadata.is_from_fail_safe (Entry.meta src).
Proof.
  intros Hc Ho Hn (Hm & Hv & _)%for_memory_hydration_inv.
  apply constructed_wf in Hc as (_ & _ & _ & Hle & _).
  apply hydration_inv in Hm as (_ & _ & _ & Hl & Hp & _ & Hcr & Ht & _ & _ & Hff).
  pose proof (saturating_add_mono now _ _ Hn (resolved_memory_duration_wf o Ho)
    (physical_ttl_wf o Ho) (physical_ttl_covers_logical o Ho)) as Hmono.
  unfold Entry.is_logically_expired, Entry.is_physically_expired, is_before.
  split_and!; try done; rewrite <-negb_andb; f_equal; apply eq_bool_prop_intro;
    rewrite !Is_true_true, andb_true_iff, !Z.ltb_lt; lia.
Qed.

Lemma hydration_never_renews_witness :
  match example_entry with
  | Ok src =>
      match Entry.for_memory_hydration 2%positive (λ _, 0) src
              (EntryOptions.new (from_secs 5)) 2000 with
      | Ok (Some e) => Entry.is_physically_expired e 50002000 = true
      | _ => False
      end
  | Err _ => False
  end.
Proof.
  destruct example_entry as [src|] eqn:He; [|by vm_compute in He].
  assert (constructed src) as Hc.
  { eapply c_default; [| |exact He].
    - vm_compute; repeat split; discriminate || reflexivity.
    - vm_compute; split; discriminate. }
  destruct (Entry.for_memory_hydration _ _ _ _ _) as [[e|]|] eqn:Hh;
    [|by vm_compute in He; injection He as <-; vm_compute in Hh..].
  destruct (hydration_never_renews 2%positive (λ _, 0) src e
    (EntryOptions.new (from_secs 5)) 2000 50002000 Hc) as (_ & -> & _); [..|exact Hh|].
  - vm_compute; repeat split; discriminate || reflexivity.
  - vm_compute; split; discriminate.
  - apply orb_true_r || (apply orb_true_intro; right; vm_compute; reflexivity).
Defined.

(** The fail-safe default keeps the configured TTL, not the distance to its
    physical boundary, so a sub-tick remainder outlives the boundary. *)
Theorem fail_safe_default_ttl_exceeds_distance :
  let o := EntryOptions.with_memory_duration (mkDuration 0 150)
             (EntryOptions.new (mkDuration 0 150)) in
  match Entry.try_from_fail_safe_default 1%positive tt o 0 with
  | Ok e =>
      Entry.backend_ttl e = mkDuration 0 150 ∧
      Entry.backend_ttl_at e (inserted_at (Entry.meta e)) = mkDuration 0 100
  | Err _ => False
  end.
Proof. vm_compute. done. Qed.
