(* ===== verification/Tags.v ===== *)
(** * Tags, scopes and invalidation markers

    Models [src/src/tags.rs]: validated tags, the collision-free scope
    identifier, the ordered text form of a marker revision, the bounded marker
    state with its conservative compaction, and the registry that publishes it
    to concurrent readers.

    A [str] is the [string] of its UTF-8 bytes, so [len] is [String.length]. *)
From Stdlib Require Import NArith Decimal DecimalString DecimalPos DecimalN.
From S2P Require Import Prelude Time Options.

(** ** Decimal text *)

(** [usize] and [u64] formatted by [{}]. *)
Definition decimal (n : N) : string := NilZero.string_of_uint (N.to_uint n).

Definition str_len (s : string) : N := N.of_nat (String.length s).

(** ** Tags *)

(** The UTF-8 encodings of the code points [char::is_whitespace] accepts, by
    length. *)
Definition ascii_white (a : N) : bool := ((9 <=? a) && (a <=? 13) || (a =? 32))%N.
Definition white2 (a b : N) : bool := ((a =? 194) && ((b =? 133) || (b =? 160)))%N.
Definition white3 (a b c : N) : bool :=
  ((a =? 225) && (b =? 154) && (c =? 128)
   || (a =? 226) && (b =? 128)
      && ((128 <=? c) && (c <=? 138) || (c =? 168) || (c =? 169) || (c =? 175))
   || (a =? 226) && (b =? 129) && (c =? 159)
   || (a =? 227) && (b =? 128) && (c =? 128))%N.

(** [s.trim().is_empty()]. *)
Fixpoint trims_empty (s : string) : bool :=
  match s with
  | EmptyString => true
  | String a r =>
      if ascii_white (Ascii.N_of_ascii a) then trims_empty r
      else match r with
      | EmptyString => false
      | String b r' =>
          if white2 (Ascii.N_of_ascii a) (Ascii.N_of_ascii b) then trims_empty r'
          else match r' with
          | EmptyString => false
          | String c r'' =>
              white3 (Ascii.N_of_ascii a) (Ascii.N_of_ascii b) (Ascii.N_of_ascii c)
              && trims_empty r''
          end
      end
  end.

Inductive TagError := Blank.
Abbreviation Tag := string (only parsing).

Definition Tag_new (tag : string) : result TagError Tag :=
  if trims_empty tag then Err Blank else Ok tag.

Fixpoint try_collect_tags (tags : list string) : result TagError (list Tag) :=
  match tags with
  | [] => Ok []
  | t :: rest => tag ← Tag_new t; collected ← try_collect_tags rest; Ok (tag :: collected)
  end.

Fixpoint collect_tags (tags : list string) : list Tag :=
  match tags with
  | [] => []
  | t :: rest =>
      match Tag_new t with
      | Ok tag => tag :: collect_tags rest
      | Err _ => collect_tags rest
      end
  end.

(** ** Marker errors and scopes *)

(** [MarkerError], without the causes external backends and parsers attach. *)
Inductive MarkerError :=
| Unsupported
| BlankWireVersion
| ZeroCapacity
| ScopeCapacity (limit : N)
| Backend
| Protocol
| ProtocolWithSource.

Record CacheScope := mkScope {
  prefix : string; version : string; modifier : KeyModifierMode;
  physical_prefix : string; physical_suffix : string }.

Module CacheScope.
Definition new (prefix version : string) (modifier : KeyModifierMode)
    : result MarkerError CacheScope :=
  if trims_empty version then Err BlankWireVersion
  else
    let '(physical_prefix, physical_suffix) :=
      match modifier with
      | KM_Prefix => ((version +:+ ":" +:+ prefix)%string, EmptyString)
      | KM_Suffix => (prefix, (":" +:+ version)%string)
      | KM_None => (prefix, EmptyString)
      end in
    Ok (mkScope prefix version modifier physical_prefix physical_suffix).

(** [PartialEq]: only the physical namespace counts. *)
Definition eqb (self other : CacheScope) : bool :=
  bool_decide (physical_prefix self = physical_prefix other)
  && bool_decide (physical_suffix self = physical_suffix other).

Definition storage_id (self : CacheScope) : string :=
  (decimal (str_len (physical_prefix self)) +:+ ":" +:+ physical_prefix self
   +:+ decimal (str_len (physical_suffix self)) +:+ ":" +:+ physical_suffix self)%string.
End CacheScope.

(** ** Marker revisions *)
Inductive MarkerKind := MK_Tag (tag : Tag) | MK_ClearExpire | MK_ClearRemove.

#[export] Instance MarkerKind_eq_dec : EqDecision MarkerKind.
Proof. solve_decision. Defined.

(** [MarkerVersion(Timestamp)]. *)
Abbreviation MarkerVersion := Z (only parsing).

(** The low [n] hexadecimal digits of [x], most significant first. *)
Fixpoint hex_digits (n : nat) (x : Z) : list Z :=
  match n with
  | O => []
  | S n => Z.land (Z.shiftr x (4 * Z.of_nat n)) 15 :: hex_digits n x
  end.
(** A digit [d] of [{:016x}] is the character ['0' + d] or ['a' + d - 10]. *)
Definition hex_char (d : Z) : Ascii.ascii :=
  Ascii.ascii_of_N (Z.to_N (if d <? 10 then 48 + d else 87 + d)).
Definition hex_value (c : Ascii.ascii) : option Z :=
  let n := Z.of_N (Ascii.N_of_ascii c) in
  if (48 <=? n) && (n <=? 57) then Some (n - 48)
  else if (97 <=? n) && (n <=? 102) then Some (n - 87)
  else if (65 <=? n) && (n <=? 70) then Some (n - 55)
  else None.

Fixpoint string_of_list (l : list Ascii.ascii) : string :=
  match l with [] => EmptyString | c :: l => String c (string_of_list l) end.
Fixpoint list_of_string (s : string) : list Ascii.ascii :=
  match s with EmptyString => [] | String c s => c :: list_of_string s end.

Module MarkerVersion.
(** [ticks as u64] and back, by two's complement. *)
Definition to_u64 (ticks : Z) : Z := ticks mod 2 ^ 64.
Definition to_i64 (bits : Z) : Z := if bits <? 2 ^ 63 then bits else bits - 2 ^ 64.

Definition ordered_hex (self : MarkerVersion) : string :=
  string_of_list (hex_char <$> hex_digits 16 (Z.lxor (to_u64 self) (Z.shiftl 1 63))).

Definition from_ordered_hex (encoded : string) : result MarkerError MarkerVersion :=
  match mapM hex_value (list_of_string encoded) with
  | Some ds =>
      if (length ds =? 16)%nat
      then
        let biased := fold_left (λ acc d, acc * 16 + d) ds 0 in
        Ok (to_i64 (Z.lxor biased (Z.shiftl 1 63)))
      else Err Protocol
  | None => Err Protocol
  end.
End MarkerVersion.

Record StoredMarker := mkStoredMarker { kind : MarkerKind; stored_version : MarkerVersion }.

Inductive MarkerAdvanceOutcome :=
| Advanced (m : StoredMarker)
| Compacted (m : StoredMarker) (through : MarkerVersion).
Definition outcome_marker (self : MarkerAdvanceOutcome) : StoredMarker :=
  match self with Advanced m | Compacted m _ => m end.

Record MarkerStoreLimits := mkLimits { max_tags : N; max_scopes : N }.
Definition limits_new (max_tags max_scopes : N) : result MarkerError MarkerStoreLimits :=
  if (max_tags =? 0)%N || (max_scopes =? 0)%N then Err ZeroCapacity
  else Ok (mkLimits max_tags max_scopes).
Definition limits_default : MarkerStoreLimits := mkLimits 4096 1024.

Inductive TagVerdict := Valid | Expire | Remove.
#[export] Instance TagVerdict_eq_dec : EqDecision TagVerdict.
Proof. solve_decision. Defined.

(** ** Marker state *)
Record MarkerState := mkMarkerState {
  state_tags : gmap Tag MarkerVersion;
  clear_expire : option MarkerVersion;
  clear_remove : option MarkerVersion }.
#[export] Instance eta_marker_state : Eta MarkerState := λ s,
  mkMarkerState (state_tags s) (clear_expire s) (clear_remove s).

(** [values().copied().max()]. *)
Definition max_version (m : gmap Tag MarkerVersion) : option MarkerVersion :=
  map_fold (λ _ v acc, Some (from_option (Z.max v) v acc)) None m.

Module MarkerState.
Definition default : MarkerState := mkMarkerState ∅ None None.

Definition read (self : MarkerState) (k : MarkerKind) : option MarkerVersion :=
  match k with
  | MK_Tag tag => state_tags self !! tag
  | MK_ClearExpire => clear_expire self
  | MK_ClearRemove => clear_remove self
  end.

Definition merge (old : option MarkerVersion) (candidate : MarkerVersion) : MarkerVersion :=
  from_option (λ o, Z.max o candidate) candidate old.

Definition write (self : MarkerState) (k : MarkerKind) (v : MarkerVersion) : MarkerState :=
  match k with
  | MK_Tag tag => self <| state_tags := <[tag := v]> (state_tags self) |>
  | MK_ClearExpire => self <| clear_expire := Some v |>
  | MK_ClearRemove => self <| clear_remove := Some v |>
  end.

Definition advance (self : MarkerState) (k : MarkerKind) (candidate : MarkerVersion)
    (capacity : nat) : MarkerAdvanceOutcome * MarkerState :=
  let version := merge (read self k) candidate in
  let self := write self k version in
  let marker := mkStoredMarker k version in
  if (size (state_tags self) <=? capacity)%nat then (Advanced marker, self)
  else
    let through := from_option id version (max_version (state_tags self)) in
    let fence := merge (clear_remove self) through in
    let self :=
      self <| clear_remove := Some fence |>
           <| state_tags := filter (λ '(_, at_), fence < at_) (state_tags self) |> in
    if decide (k = MK_ClearRemove)
    then (Advanced (mkStoredMarker MK_ClearRemove fence), self)
    else (Compacted marker fence, self).

Definition tag_count (self : MarkerState) : nat := size (state_tags self).
End MarkerState.

(** The verdict on a published state. *)
Definition covered_by (created : Timestamp) (m : option MarkerVersion) : bool :=
  from_option (λ at_, created <=? at_) false m.
Definition of_behavior (b : RemoveByTagBehavior) : TagVerdict :=
  match b with RBT_Expire => Expire | RBT_Remove => Remove end.
Definition evaluate_state (state : MarkerState) (created : Timestamp) (tags : list Tag)
    (behavior : RemoveByTagBehavior) : TagVerdict :=
  if covered_by created (clear_remove state) then Remove
  else if existsb (λ tag, covered_by created (state_tags state !! tag)) tags
  then of_behavior behavior
  else if covered_by created (clear_expire state) then Expire
  else Valid.

(** ** The registry *)
Record TagRegistry := mkRegistry {
  state : MarkerState;           (* behind the mutex *)
  snapshot : MarkerState;        (* the published pointer *)
  marker_observed : bool;        (* the fast-path flag *)
  capacity : nat }.

Module TagRegistry.
Definition default : TagRegistry :=
  mkRegistry MarkerState.default MarkerState.default false 4096.
Definition with_capacity (capacity : nat) : result MarkerError TagRegistry :=
  if (capacity =? 0)%nat then Err ZeroCapacity
  else Ok (mkRegistry MarkerState.default MarkerState.default false capacity).

(** The three effects of [advance], in the order they become visible. *)
Definition advance_state (self : TagRegistry) (k : MarkerKind) (at_ : MarkerVersion)
    : MarkerAdvanceOutcome * TagRegistry :=
  let '(outcome, s) := MarkerState.advance (state self) k at_ (capacity self) in
  (outcome, mkRegistry s (snapshot self) (marker_observed self) (capacity self)).
Definition publish (self : TagRegistry) : TagRegistry :=
  mkRegistry (state self) (state self) (marker_observed self) (capacity self).
Definition observe (self : TagRegistry) : TagRegistry :=
  mkRegistry (state self) (snapshot self) true (capacity self).

Definition advance (self : TagRegistry) (k : MarkerKind) (at_ : MarkerVersion)
    : MarkerAdvanceOutcome * TagRegistry :=
  let '(outcome, self) := advance_state self k at_ in
  (outcome, observe (publish self)).

Definition mark_tag (self : TagRegistry) (tag : Tag) (at_ : Timestamp) : TagRegistry :=
  (advance self (MK_Tag tag) at_).2.
Definition mark_clear_expire (self : TagRegistry) (at_ : Timestamp) : TagRegistry :=
  (advance self MK_ClearExpire at_).2.
Definition mark_clear_remove (self : TagRegistry) (at_ : Timestamp) : TagRegistry :=
  (advance self MK_ClearRemove at_).2.
Definition marker_version (self : TagRegistry) (k : MarkerKind) : option MarkerVersion :=
  MarkerState.read (snapshot self) k.
Definition tag_marker (self : TagRegistry) (tag : Tag) : option Timestamp :=
  marker_version self (MK_Tag tag).

Definition evaluate (self : TagRegistry) (created : Timestamp) (tags : list Tag)
    (behavior : RemoveByTagBehavior) : TagVerdict :=
  if negb (marker_observed self) then Valid
  else evaluate_state (snapshot self) created tags behavior.

Definition len (self : TagRegistry) : nat := MarkerState.tag_count (snapshot self).
Definition is_empty (self : TagRegistry) : bool := (len self =? 0)%nat.
End TagRegistry.

(** ** Lemmas on text *)
Section text.

Lemma to_uint_nonnil n : N.to_uint n ≠ Nil.
Proof. destruct n; [done|]. apply DecimalPos.Unsigned.to_uint_nonnil. Qed.

Lemma decimal_inj (a b : N) : decimal a = decimal b → a = b.
Proof.
  unfold decimal. intros H. apply (f_equal NilZero.uint_of_string) in H.
  rewrite !NilZero.usu in H by apply to_uint_nonnil.
  injection H as H. by apply DecimalN.Unsigned.to_uint_inj.
Qed.

(** A string of decimal digits. *)
Fixpoint digits (s : string) : bool :=
  match s with
  | EmptyString => true
  | String c s => (48 <=? Ascii.N_of_ascii c)%N && (Ascii.N_of_ascii c <=? 57)%N && digits s
  end.

Lemma string_of_uint_digits d : digits (NilEmpty.string_of_uint d) = true.
Proof. induction d; simpl; try rewrite IHd; reflexivity. Qed.

Lemma decimal_digits n : digits (decimal n) = true.
Proof.
  unfold decimal, NilZero.string_of_uint.
  destruct (N.to_uint n) eqn:E; first [reflexivity | apply string_of_uint_digits].
Qed.

(** The separator ends the digits: what precedes it is determined. *)
Lemma digits_split a b s t :
  digits a = true → digits b = true →
  (a +:+ ":" +:+ s)%string = (b +:+ ":" +:+ t)%string → a = b ∧ s = t.
Proof.
  revert b. induction a as [|c a IH]; intros [|c' b]; simpl; intros Ha Hb H.
  - injection H as H. done.
  - injection H as Hc _. subst c'. vm_compute in Hb. done.
  - injection H as Hc _. subst c. vm_compute in Ha. done.
  - injection H as -> H. bool_to_prop.
    destruct (IH b) as [-> ->]; done.
Qed.

Lemma append_inj_length a b s t :
  String.length a = String.length b → (a +:+ s)%string = (b +:+ t)%string → a = b ∧ s = t.
Proof.
  revert b. induction a as [|c a IH]; intros [|c' b]; simpl; intros Hl H; try done.
  injection H as -> H. injection Hl as Hl. destruct (IH b Hl H) as [-> ->]. done.
Qed.

(** A length-delimited field followed by anything is read back. *)
Lemma length_delimited_inj a b s t :
  (decimal (str_len a) +:+ ":" +:+ a +:+ s)%string =
  (decimal (str_len b) +:+ ":" +:+ b +:+ t)%string → a = b ∧ s = t.
Proof.
  intros [Hd H]%digits_split; [|apply decimal_digits..].
  apply decimal_inj in Hd. unfold str_len in Hd.
  apply append_inj_length; [lia|done].
Qed.

Lemma list_of_string_of_list l : list_of_string (string_of_list l) = l.
Proof. induction l; simpl; congruence. Qed.

Lemma length_string_of_list l : String.length (string_of_list l) = length l.
Proof. induction l; simpl; congruence. Qed.
End text.

(** ** Lemmas on hexadecimal digits *)
Section hex.
Definition is_digit (d : Z) : Prop := 0 ≤ d < 16.

Lemma hex_digits_range n x : Forall is_digit (hex_digits n x).
Proof.
  induction n as [|n IH]; simpl; [constructor|]. constructor; [|done].
  unfold is_digit. change 15 with (Z.ones 4). rewrite Z.land_ones by lia.
  apply Z.mod_pos_bound. lia.
Qed.

Lemma length_hex_digits n x : length (hex_digits n x) = n.
Proof. induction n; simpl; congruence. Qed.

Lemma pow16_succ n : 2 ^ (4 * Z.of_nat (S n)) = 16 * 2 ^ (4 * Z.of_nat n).
Proof.
  replace (4 * Z.of_nat (S n)) with (4 + 4 * Z.of_nat n) by lia.
  rewrite Z.pow_add_r by lia. reflexivity.
Qed.

(** The leading digit and the rest. *)
Lemma hex_step n x :
  x mod 2 ^ (4 * Z.of_nat (S n)) =
  Z.land (Z.shiftr x (4 * Z.of_nat n)) 15 * 2 ^ (4 * Z.of_nat n)
  + x mod 2 ^ (4 * Z.of_nat n).
Proof.
  change 15 with (Z.ones 4). rewrite Z.land_ones, Z.shiftr_div_pow2 by lia.
  rewrite pow16_succ, (Z.mul_comm 16). change (2 ^ 4) with 16.
  rewrite Z.rem_mul_r by lia. lia.
Qed.

Lemma fold_hex_digits n x acc :
  fold_left (λ acc d, acc * 16 + d) (hex_digits n x) acc =
  acc * 2 ^ (4 * Z.of_nat n) + x mod 2 ^ (4 * Z.of_nat n).
Proof.
  revert acc. induction n as [|n IH]; intros acc.
  - simpl. rewrite Z.mod_1_r. lia.
  - simpl hex_digits. simpl fold_left. rewrite IH, hex_step, pow16_succ. lia.
Qed.

Lemma digit_cases (P : Z → Prop) :
  Forall P (seqZ 0 16) → ∀ d, is_digit d → P d.
Proof.
  intros H d Hd. rewrite Forall_forall in H. apply H. apply elem_of_seqZ.
  unfold is_digit in Hd. lia.
Qed.

Lemma hex_value_char d : is_digit d → hex_value (hex_char d) = Some d.
Proof.
  revert d. apply (digit_cases (λ d, hex_value (hex_char d) = Some d)).
  repeat constructor.
Qed.

Lemma hex_values l : Forall is_digit l → mapM hex_value (hex_char <$> l) = Some l.
Proof.
  intros Hl. apply mapM_Some. induction Hl; simpl; constructor; auto using hex_value_char.
Qed.

Lemma hex_char_compare a b :
  is_digit a → is_digit b → Ascii.compare (hex_char a) (hex_char b) = (a ?= b).
Proof.
  intros Ha Hb. revert b Hb. revert a Ha.
  apply (digit_cases (λ a, ∀ b, is_digit b → Ascii.compare (hex_char a) (hex_char b) = (a ?= b))).
  repeat constructor;
    match goal with |- ∀ b, _ → Ascii.compare (hex_char ?a) _ = _ =>
      apply (digit_cases (λ b, Ascii.compare (hex_char a) (hex_char b) = (a ?= b))) end;
    repeat constructor.
Qed.

Lemma hex_compare n x y :
  String.compare (string_of_list (hex_char <$> hex_digits n x))
    (string_of_list (hex_char <$> hex_digits n y)) =
  (x mod 2 ^ (4 * Z.of_nat n) ?= y mod 2 ^ (4 * Z.of_nat n)).
Proof.
  induction n as [|n IH]; [by rewrite !Z.mod_1_r|].
  rewrite !hex_step.
  pose proof (hex_digits_range (S n) x) as Hx. pose proof (hex_digits_range (S n) y) as Hy.
  cbn [hex_digits] in *. rewrite !fmap_cons. cbn [string_of_list String.compare].
  apply Forall_cons in Hx as [Hdx _]. apply Forall_cons in Hy as [Hdy _].
  rewrite hex_char_compare, IH by done.
  set (p := 2 ^ (4 * Z.of_nat n)).
  assert (0 < p) by (apply Z.pow_pos_nonneg; lia).
  pose proof (Z.mod_pos_bound x p). pose proof (Z.mod_pos_bound y p).
  set (a := Z.land (Z.shiftr x (4 * Z.of_nat n)) 15) in *.
  set (b := Z.land (Z.shiftr y (4 * Z.of_nat n)) 15) in *.
  destruct (Z.compare_spec a b) as [->|Hlt|Hlt].
  - by rewrite Z.add_compare_mono_l || rewrite <-Z.add_compare_mono_l.
  - symmetry. apply Z.compare_lt_iff. nia.
  - symmetry. apply Z.compare_gt_iff. nia.
Qed.

Lemma lxor_sign u :
  0 ≤ u < 2 ^ 64 → Z.lxor u (2 ^ 63) = (if u <? 2 ^ 63 then u + 2 ^ 63 else u - 2 ^ 63).
Proof.
  intros Hu.
  assert (∀ v, 0 ≤ v < 2 ^ 63 → Z.lxor v (2 ^ 63) = v + 2 ^ 63) as Hlow.
  { intros v Hv. symmetry. apply Z.add_nocarry_lxor.
    apply Z.bits_inj'. intros i Hi. rewrite Z.land_spec, Z.bits_0.
    rewrite Z.pow2_bits_eqb by lia. destruct (63 =? i) eqn:E; [|by rewrite andb_false_r].
    bool_to_prop. subst i. rewrite andb_true_r.
    rewrite Z.testbit_false by lia. rewrite Z.div_small by lia. reflexivity. }
  case_match; bool_to_prop; [apply Hlow; lia|].
  replace u with (Z.lxor (u - 2 ^ 63) (2 ^ 63)) at 1 by (rewrite Hlow; lia).
  by rewrite Z.lxor_assoc, Z.lxor_nilpotent, Z.lxor_0_r.
Qed.

(** The bias turns the signed order into the unsigned one. *)
Lemma biased t :
  is_i64 t → Z.lxor (MarkerVersion.to_u64 t) (Z.shiftl 1 63) = t + 2 ^ 63.
Proof.
  unfold is_i64, MarkerVersion.to_u64. intros Ht. change (Z.shiftl 1 63) with (2 ^ 63).
  rewrite lxor_sign by (apply Z.mod_pos_bound; lia).
  destruct (decide (0 ≤ t)).
  - rewrite Z.mod_small by lia. case_match; bool_to_prop; lia.
  - replace (t mod 2 ^ 64) with (t + 2 ^ 64).
    2: { rewrite <-(Z.mod_small (t + 2 ^ 64) (2 ^ 64)) by lia.
         rewrite <-Z.add_mod_idemp_r by lia. rewrite Z.mod_same by lia. f_equal. lia. }
    case_match; bool_to_prop; lia.
Qed.

Lemma unbiased u :
  0 ≤ u < 2 ^ 64 → MarkerVersion.to_i64 (Z.lxor u (Z.shiftl 1 63)) = u - 2 ^ 63.
Proof.
  intros Hu. change (Z.shiftl 1 63) with (2 ^ 63). rewrite lxor_sign by done.
  unfold MarkerVersion.to_i64. repeat (case_match; bool_to_prop); lia.
Qed.

Lemma hex_value_range c d : hex_value c = Some d → is_digit d.
Proof. unfold hex_value, is_digit. intros H. repeat case_match; simplify_eq; bool_to_prop; lia. Qed.

Lemma fold_hex_range l acc :
  Forall is_digit l → 0 ≤ acc →
  0 ≤ fold_left (λ acc d, acc * 16 + d) l acc < (acc + 1) * 2 ^ (4 * Z.of_nat (length l)).
Proof.
  intros Hl. revert acc. induction Hl as [|d l Hd _ IH]; intros acc Hacc.
  - simpl fold_left. simpl length. change (2 ^ (4 * Z.of_nat 0)) with 1. lia.
  - simpl fold_left. simpl length. rewrite pow16_succ. unfold is_digit in Hd.
    specialize (IH (acc * 16 + d)). nia.
Qed.
End hex.

(** ** Lemmas on the marker state *)
Section marker_state.
Implicit Types (s : MarkerState) (k : MarkerKind) (m : gmap Tag MarkerVersion).

Lemma max_version_spec m :
  match max_version m with
  | None => m = ∅
  | Some t => (∀ j v, m !! j = Some v → v ≤ t) ∧ ∃ j, m !! j = Some t
  end.
Proof.
  unfold max_version.
  apply (map_fold_weak_ind (λ acc m, match acc with
    | None => m = ∅
    | Some t => (∀ j v, m !! j = Some v → v ≤ t) ∧ ∃ j, m !! j = Some t end)); [done|].
  intros i x m' acc Hi IH. destruct acc as [t|]; simpl.
  - destruct IH as [Hall [j Hj]]. split.
    + intros j' v [[-> ->]|[Hne Hv]]%lookup_insert_Some; [lia|]. specialize (Hall _ _ Hv). lia.
    + destruct (Z.max_spec x t) as [[? ->]|[? ->]].
      * exists j. rewrite lookup_insert_ne; [done|]. intros ->. congruence.
      * exists i. apply lookup_insert_eq.
  - subst m'. split; [|exists i; apply lookup_insert_eq].
    intros j v [[-> ->]|[_ Hv]]%lookup_insert_Some; [lia|done].
Qed.

Lemma read_write s k v k' :
  MarkerState.read (MarkerState.write s k v) k' =
  if decide (k = k') then Some v else MarkerState.read s k'.
Proof.
  destruct k, k'; simpl; try case_decide; simplify_eq; try done.
  - by rewrite lookup_insert_eq.
  - rewrite lookup_insert_ne by congruence. done.
Qed.

Lemma merge_ge old c : c ≤ MarkerState.merge old c.
Proof. destruct old; simpl; lia. Qed.
Lemma merge_old o c : o ≤ MarkerState.merge (Some o) c.
Proof. simpl. lia. Qed.

(** [advance], when the tags fit and when they do not. *)
Lemma advance_fits s k c cap :
  let s' := MarkerState.write s k (MarkerState.merge (MarkerState.read s k) c) in
  (size (state_tags s') ≤ cap)%nat →
  MarkerState.advance s k c cap =
    (Advanced (mkStoredMarker k (MarkerState.merge (MarkerState.read s k) c)), s').
Proof. intros s' H. unfold MarkerState.advance. fold s'. by rewrite (proj2 (Nat.leb_le _ _) H). Qed.

Lemma advance_compacts s k c cap :
  let v := MarkerState.merge (MarkerState.read s k) c in
  let s' := MarkerState.write s k v in
  (cap < size (state_tags s'))%nat →
  ∃ through, (∀ t at_, state_tags s' !! t = Some at_ → at_ ≤ through) ∧
    (∃ t, state_tags s' !! t = Some through) ∧
    let fence := MarkerState.merge (clear_remove s') through in
    MarkerState.advance s k c cap =
      (if decide (k = MK_ClearRemove) then Advanced (mkStoredMarker MK_ClearRemove fence)
       else Compacted (mkStoredMarker k v) fence,
       mkMarkerState ∅ (clear_expire s') (Some fence)).
Proof.
  intros v s' H. pose proof (max_version_spec (state_tags s')) as Hmax.
  unfold MarkerState.advance. fold v. fold s'.
  rewrite (proj2 (Nat.leb_gt _ _) H).
  destruct (max_version (state_tags s')) as [through|].
  2: { rewrite Hmax, map_size_empty in H. lia. }
  destruct Hmax as [Hall Hex]. exists through. split_and!; [done..|]. simpl.
  replace (filter _ (state_tags s')) with (∅ : gmap Tag MarkerVersion).
  - by case_decide.
  - symmetry. apply map_empty. intros t. apply map_lookup_filter_None. right.
    intros at_ Ht. apply Hall in Ht. simpl. pose proof (merge_ge (clear_remove s') through). lia.
Qed.

(** What a state still invalidates. *)
Definition known s k (at_ : MarkerVersion) : Prop :=
  (∃ v, MarkerState.read s k = Some v ∧ at_ ≤ v) ∨ (∃ c, clear_remove s = Some c ∧ at_ ≤ c).

Lemma known_write s k c k' at_ :
  known s k' at_ →
  known (MarkerState.write s k (MarkerState.merge (MarkerState.read s k) c)) k' at_.
Proof.
  intros [(v & Hv & Hle)|(v & Hv & Hle)].
  - left. rewrite read_write. case_decide as Hk; [subst k'|by eauto].
    exists (MarkerState.merge (MarkerState.read s k) c). split; [done|].
    rewrite Hv. pose proof (merge_old v c). lia.
  - right. destruct k; simpl; eauto. exists (MarkerState.merge (clear_remove s) c).
    split; [done|]. rewrite Hv. pose proof (merge_old v c). lia.
Qed.

Lemma known_written s k c :
  known (MarkerState.write s k (MarkerState.merge (MarkerState.read s k) c)) k c.
Proof.
  left. rewrite read_write, decide_True by done. eexists. split; [done|]. apply merge_ge.
Qed.

Lemma known_compacted s through k at_ :
  (∀ t v, state_tags s !! t = Some v → v ≤ through) →
  known s k at_ →
  known (mkMarkerState ∅ (clear_expire s)
           (Some (MarkerState.merge (clear_remove s) through))) k at_.
Proof.
  intros Hall Hk. pose proof (merge_ge (clear_remove s) through).
  assert (∀ c, clear_remove s = Some c → c ≤ MarkerState.merge (clear_remove s) through)
    by (intros c ->; apply merge_old).
  destruct Hk as [(v & Hv & Hle)|(v & Hv & Hle)].
  - destruct k as [t| |]; simpl in Hv.
    + right. eexists. split; [done|]. specialize (Hall _ _ Hv). lia.
    + left. eauto.
    + right. eexists. split; [done|]. specialize (H0 _ Hv). lia.
  - right. eexists. split; [done|]. specialize (H0 _ Hv). lia.
Qed.

(** Advancing keeps everything known and learns the candidate. *)
Lemma known_advance s k c cap :
  (∀ k' at_, known s k' at_ → known (MarkerState.advance s k c cap).2 k' at_) ∧
  known (MarkerState.advance s k c cap).2 k c.
Proof.
  pose proof (advance_fits s k c cap) as Hfit.
  pose proof (advance_compacts s k c cap) as Hcomp. simpl in *.
  destruct (decide (size (state_tags (MarkerState.write s k
    (MarkerState.merge (MarkerState.read s k) c))) ≤ cap)%nat) as [Hle|Hgt].
  - rewrite Hfit by done. split; [intros; by apply known_write|apply known_written].
  - destruct Hcomp as (through & Hall & _ & ->); [lia|]. simpl.
    split; [intros; apply known_compacted; [done|by apply known_write]
           |apply known_compacted; [done|apply known_written]].
Qed.

Lemma advance_bounded s k c cap :
  (MarkerState.tag_count (MarkerState.advance s k c cap).2 ≤ cap)%nat.
Proof.
  pose proof (advance_fits s k c cap) as Hfit.
  pose proof (advance_compacts s k c cap) as Hcomp. simpl in *.
  destruct (decide (size (state_tags (MarkerState.write s k
    (MarkerState.merge (MarkerState.read s k) c))) ≤ cap)%nat) as [Hle|Hgt].
  - by rewrite Hfit.
  - destruct Hcomp as (through & _ & _ & ->); [lia|].
    unfold MarkerState.tag_count; simpl. rewrite map_size_empty. lia.
Qed.

(** Every revision in the state, or the fence, was asked for. *)
Definition sourced s (hist : list (MarkerKind * MarkerVersion)) : Prop :=
  ∀ k v, MarkerState.read s k = Some v →
    ∃ k', (k', v) ∈ hist ∧ (k' = k ∨ k = MK_ClearRemove).

Lemma sourced_write s k c hist :
  sourced s hist →
  sourced (MarkerState.write s k (MarkerState.merge (MarkerState.read s k) c)) ((k, c) :: hist).
Proof.
  intros Hs k' v. rewrite read_write. case_decide as Hk; [subst k'|].
  - intros [= <-]. destruct (MarkerState.read s k) as [o|] eqn:Ho; simpl.
    + destruct (Z.max_spec o c) as [[? ->]|[? ->]].
      * exists k. split; [apply list_elem_of_here|auto].
      * destruct (Hs _ _ Ho) as (k' & Hin & Hor). exists k'.
        split; [by apply list_elem_of_further|auto].
    + exists k. split; [apply list_elem_of_here|auto].
  - intros Hv. destruct (Hs _ _ Hv) as (k'' & Hin & Hor). exists k''.
    split; [by apply list_elem_of_further|auto].
Qed.

Lemma sourced_advance s k c cap hist :
  sourced s hist → sourced (MarkerState.advance s k c cap).2 ((k, c) :: hist).
Proof.
  intros Hs. pose proof (advance_fits s k c cap) as Hfit.
  pose proof (advance_compacts s k c cap) as Hcomp. simpl in *.
  pose proof (sourced_write s k c hist Hs) as Hw.
  destruct (decide (size (state_tags (MarkerState.write s k
    (MarkerState.merge (MarkerState.read s k) c))) ≤ cap)%nat) as [Hle|Hgt];
    [by rewrite Hfit|].
  destruct Hcomp as (through & _ & [t Ht] & ->); [lia|]. simpl.
  set (s' := MarkerState.write _ _ _) in *.
  intros k' v. destruct k' as [t'| |]; simpl; [by rewrite lookup_empty|apply (Hw MK_ClearExpire)|].
  intros [= <-]. destruct (clear_remove s') as [o|] eqn:Ho; simpl.
  - destruct (Z.max_spec o through) as [[? ->]|[? ->]].
    + destruct (Hw (MK_Tag t) _ Ht) as (k' & ? & _). eauto.
    + destruct (Hw MK_ClearRemove _ Ho) as (k' & ? & _). eauto.
  - destruct (Hw (MK_Tag t) _ Ht) as (k' & ? & _). eauto.
Qed.
End marker_state.

(** ** Histories of advances, newest first *)
Abbreviation History := (list (MarkerKind * MarkerVersion)) (only parsing).

Fixpoint run (cap : nat) (h : History) : MarkerState :=
  match h with
  | [] => MarkerState.default
  | (k, c) :: h => (MarkerState.advance (run cap h) k c cap).2
  end.
Fixpoint run_registry (r : TagRegistry) (h : History) : TagRegistry :=
  match h with
  | [] => r
  | (k, c) :: h => (TagRegistry.advance (run_registry r h) k c).2
  end.
Definition empty_registry (cap : nat) : TagRegistry :=
  mkRegistry MarkerState.default MarkerState.default false cap.

Definition strength (v : TagVerdict) : Z :=
  match v with Valid => 0 | Expire => 1 | Remove => 2 end.
(** The verdict a marker kind calls for, and the entries it concerns. *)
Definition calls_for (k : MarkerKind) (b : RemoveByTagBehavior) : TagVerdict :=
  match k with MK_Tag _ => of_behavior b | MK_ClearExpire => Expire | MK_ClearRemove => Remove end.
Definition concerns (k : MarkerKind) (tags : list Tag) : bool :=
  match k with MK_Tag t => bool_decide (t ∈ tags) | _ => true end.

(** The specification: the verdict on an unbounded history. *)
Definition asked (h : History) (created : Timestamp) (k : MarkerKind) : bool :=
  existsb (λ '(k', c), bool_decide (k' = k) && (created <=? c)) h.
Definition spec_verdict (h : History) (created : Timestamp) (tags : list Tag)
    (b : RemoveByTagBehavior) : TagVerdict :=
  if asked h created MK_ClearRemove then Remove
  else if existsb (λ t, asked h created (MK_Tag t)) tags then of_behavior b
  else if asked h created MK_ClearExpire then Expire
  else Valid.

(** The distinct tags of a history. *)
Fixpoint history_tags (h : History) : gset Tag :=
  match h with
  | [] => ∅
  | (MK_Tag t, _) :: h => {[ t ]} ∪ history_tags h
  | _ :: h => history_tags h
  end.

Section history.
Implicit Types (h : History) (s : MarkerState) (b : RemoveByTagBehavior).

Lemma run_registry_run cap h :
  run_registry (empty_registry cap) h =
  mkRegistry (run cap h) (run cap h) (match h with [] => false | _ => true end) cap.
Proof.
  induction h as [|[k c] h IH]; [done|]. simpl. rewrite IH.
  unfold TagRegistry.advance, TagRegistry.advance_state. simpl.
  by destruct (MarkerState.advance _ _ _ _).
Qed.

Lemma run_known cap h k at_ : (k, at_) ∈ h → known (run cap h) k at_.
Proof.
  induction h as [|[k' c] h IH]; [by intros ?%not_elem_of_nil|].
  pose proof (known_advance (run cap h) k' c cap) as [Hold Hnew].
  intros [[= -> ->]|Hin]%elem_of_cons; simpl; auto.
Qed.

Lemma run_sourced cap h : sourced (run cap h) h.
Proof.
  induction h as [|[k c] h IH]; [|by apply sourced_advance].
  intros [t| |] v; simpl; [by rewrite lookup_empty|done..].
Qed.

(** A known marker is not weaker in the verdict. *)
Lemma known_strength s k at_ created tags b :
  known s k at_ → created ≤ at_ → concerns k tags = true →
  strength (calls_for k b) ≤ strength (evaluate_state s created tags b).
Proof.
  intros Hk Hle Hc. unfold evaluate_state.
  destruct (covered_by created (clear_remove s)) eqn:Hr; [by destruct k, b|].
  assert (∃ v, MarkerState.read s k = Some v ∧ at_ ≤ v) as (v & Hv & Hat).
  { destruct Hk as [|(c & Hcl & Hle')]; [done|].
    rewrite Hcl in Hr; simpl in Hr. bool_to_prop. lia. }
  destruct k as [t| |]; simpl in *.
  - rewrite (proj2 (existsb_exists _ _)); [done|]. exists t.
    apply bool_decide_eq_true, list_elem_of_In in Hc. split; [done|].
    rewrite Hv; simpl. apply Z.leb_le. lia.
  - rewrite Hv; simpl. rewrite (proj2 (Z.leb_le created v)) by lia.
    by destruct (existsb _ _), b.
  - rewrite Hv in Hr; simpl in Hr. bool_to_prop. lia.
Qed.

Lemma evaluate_state_sourced s h created tags b :
  sourced s h → evaluate_state s created tags b ≠ Valid →
  ∃ k at_, (k, at_) ∈ h ∧ created ≤ at_.
Proof.
  intros Hs.
  assert (∀ k, covered_by created (MarkerState.read s k) = true →
    ∃ k' at_, (k', at_) ∈ h ∧ created ≤ at_) as Hk.
  { intros k Hc. destruct (MarkerState.read s k) as [v|] eqn:Hv; [|done].
    destruct (Hs _ _ Hv) as (k' & Hin & _). exists k', v.
    simpl in Hc. bool_to_prop. done. }
  unfold evaluate_state.
  destruct (covered_by created (clear_remove s)) eqn:Hr; [intros _; by apply (Hk MK_ClearRemove)|].
  destruct (existsb _ _) eqn:Ht.
  { intros _. apply existsb_exists in Ht as (t & _ & Ht). by apply (Hk (MK_Tag t)). }
  destruct (covered_by created (clear_expire s)) eqn:He; [intros _; by apply (Hk MK_ClearExpire)|done].
Qed.

Lemma covered_merge created old c :
  covered_by created (Some (MarkerState.merge old c)) =
  covered_by created old || (created <=? c).
Proof.
  destruct old as [o|]; simpl; [|done].
  apply eq_bool_prop_intro. rewrite !Is_true_true, orb_true_iff, !Z.leb_le. lia.
Qed.

(** Within capacity nothing is compacted and the state is exact. *)
Lemma run_exact cap h :
  (size (history_tags h) ≤ cap)%nat →
  dom (state_tags (run cap h)) = history_tags h ∧
  ∀ k created, covered_by created (MarkerState.read (run cap h) k) = asked h created k.
Proof.
  induction h as [|[k c] h IH]; intros Hsize.
  { simpl. split; [by rewrite dom_empty_L|]. intros [t| |] ?; simpl; [by rewrite lookup_empty|done..]. }
  assert (size (history_tags h) ≤ size (history_tags ((k, c) :: h)))%nat as Hmono.
  { destruct k as [t| |]; simpl; [apply subseteq_size; set_solver|done..]. }
  destruct IH as [Hdom Hread]; [lia|].
  assert (dom (state_tags (MarkerState.write (run cap h) k
    (MarkerState.merge (MarkerState.read (run cap h) k) c))) = history_tags ((k, c) :: h)) as Hdom'.
  { destruct k; simpl; [by rewrite dom_insert_L, Hdom|done..]. }
  change (run cap ((k, c) :: h)) with (MarkerState.advance (run cap h) k c cap).2.
  rewrite advance_fits by (rewrite <-size_dom, Hdom'; done).
  split; [exact Hdom'|]. intros k' created. cbn [snd]. rewrite read_write. simpl.
  destruct (decide (k = k')) as [->|Hne].
  - rewrite covered_merge, Hread, bool_decide_eq_true_2 by done. simpl. by rewrite orb_comm.
  - rewrite bool_decide_eq_false_2 by done. apply Hread.
Qed.
End history.

(** ** Readers without the lock

    A writer holds the mutex from the merge to the flag; its three effects are
    separate steps. [done] lists the advances that have returned. *)
Inductive Writer :=
| W_Idle
| W_Merged (k : MarkerKind) (c : MarkerVersion)
| W_Published (k : MarkerKind) (c : MarkerVersion).

Record World := mkWorld { reg : TagRegistry; writer : Writer; done_ : History }.

Inductive step : World → World → Prop :=
| step_merge r d k c :
    step (mkWorld r W_Idle d) (mkWorld (TagRegistry.advance_state r k c).2 (W_Merged k c) d)
| step_publish r d k c :
    step (mkWorld r (W_Merged k c) d) (mkWorld (TagRegistry.publish r) (W_Published k c) d)
| step_observe r d k c :
    step (mkWorld r (W_Published k c) d) (mkWorld (TagRegistry.observe r) W_Idle ((k, c) :: d)).

Definition initial_world (cap : nat) : World := mkWorld (empty_registry cap) W_Idle [].

(** [evaluate] loads the flag in one world and the snapshot in a later one. *)
Definition evaluate_between (w1 w2 : World) (created : Timestamp) (tags : list Tag)
    (b : RemoveByTagBehavior) : TagVerdict :=
  if negb (marker_observed (reg w1)) then Valid
  else evaluate_state (snapshot (reg w2)) created tags b.

Definition published_inv (w : World) : Prop :=
  (∀ k at_, (k, at_) ∈ done_ w → known (snapshot (reg w)) k at_) ∧
  (done_ w ≠ [] → marker_observed (reg w) = true) ∧
  (∀ k at_, known (snapshot (reg w)) k at_ → known (state (reg w)) k at_) ∧
  match writer w with
  | W_Idle => True
  | W_Merged k c => known (state (reg w)) k c
  | W_Published k c => known (snapshot (reg w)) k c
  end.

Lemma published_inv_initial cap : published_inv (initial_world cap).
Proof. split_and!; simpl; [|done..]. by intros ?? ?%not_elem_of_nil. Qed.

Lemma published_inv_step w w' : step w w' → published_inv w → published_inv w'.
Proof.
  intros [r d k c|r d k c|r d k c] (Hdone & Hflag & Hsub & Hw); simpl in *.
  - unfold TagRegistry.advance_state.
    pose proof (known_advance (state r) k c (capacity r)) as [Hold Hnew].
    destruct (MarkerState.advance _ _ _ _) as [o s]; simpl in *.
    split_and!; simpl; auto.
  - split_and!; simpl; auto.
  - split_and!; simpl; try done.
    intros k' at_ [[= -> ->]|Hin]%elem_of_cons; auto.
Qed.

Lemma step_done w w' : step w w' → ∀ x, x ∈ done_ w → x ∈ done_ w'.
Proof. intros []; simpl; [done..|]. intros ? ?. by apply list_elem_of_further. Qed.

Lemma published_inv_steps w w' : rtc step w w' → published_inv w → published_inv w'.
Proof. induction 1; eauto using published_inv_step. Qed.

Lemma tags_reachable_inv cap w : rtc step (initial_world cap) w → published_inv w.
Proof. intros Hr. eapply published_inv_steps; [done|]. apply published_inv_initial. Qed.

Lemma reachable_done w w' : rtc step w w' → ∀ x, x ∈ done_ w → x ∈ done_ w'.
Proof. induction 1; eauto using step_done. Qed.

(** ** Properties *)

(** C27: the bounded registry never forgets an invalidation. After any sequence
    of advances at any capacity, an entry created no later than a recorded
    marker that concerns it gets a verdict at least as strong as that marker
    calls for, whatever compaction did in between; no verdict other than valid
    is given to an entry newer than every marker; and the retained tags never
    exceed the capacity. *)
Theorem registry_never_forgets (cap : nat) (h : list (MarkerKind * MarkerVersion))
    (created : Timestamp) (tags : list Tag) (b : RemoveByTagBehavior) :
  let r := run_registry (empty_registry cap) h in
  (∀ k at_, (k, at_) ∈ h → created ≤ at_ → concerns k tags = true →
     strength (calls_for k b) ≤ strength (TagRegistry.evaluate r created tags b)) ∧
  (TagRegistry.evaluate r created tags b ≠ Valid → ∃ k at_, (k, at_) ∈ h ∧ created ≤ at_) ∧
  (TagRegistry.len r ≤ cap)%nat.
Proof.
  cbv zeta. rewrite run_registry_run. unfold TagRegistry.evaluate, TagRegistry.len; simpl.
  split_and!.
  - intros k at_ Hin Hle Hc. destruct h; [by apply not_elem_of_nil in Hin|].
    eapply known_strength; eauto using run_known.
  - destruct h as [|x h]; [done|]. cbv [negb]. apply evaluate_state_sourced, run_sourced.
  - destruct h as [|[k c] h]; [vm_compute; lia|]. apply advance_bounded.
Qed.

(** While the distinct tags fit the capacity, the registry's verdict is
    exactly the one of the unbounded history of markers: a clear-remove marker
    first, then a marker of one of the entry's tags with the configured
    behaviour, then a clear-expire marker, each compared inclusively with the
    creation time. *)
Theorem registry_refines_history (cap : nat) (h : list (MarkerKind * MarkerVersion))
    (created : Timestamp) (tags : list Tag) (b : RemoveByTagBehavior) :
  (size (history_tags h) ≤ cap)%nat →
  TagRegistry.evaluate (run_registry (empty_registry cap) h) created tags b =
  spec_verdict h created tags b.
Proof.
  intros [_ Hread]%run_exact. rewrite run_registry_run.
  unfold TagRegistry.evaluate; simpl. destruct h as [|x h].
  { simpl. unfold spec_verdict; simpl. by induction tags. }
  cbv [negb]. unfold evaluate_state, spec_verdict.
  rewrite (Hread MK_ClearRemove), (Hread MK_ClearExpire).
  replace (existsb (λ tag, covered_by created (state_tags (run cap (x :: h)) !! tag)) tags)
    with (existsb (λ t, asked (x :: h) created (MK_Tag t)) tags); [done|].
  clear -Hread. induction tags as [|t tags IH]; [done|]. cbn [existsb].
  f_equal; [|done]. symmetry. apply (Hread (MK_Tag t)).
Qed.

Lemma registry_refines_history_witness :
  TagRegistry.evaluate
    (run_registry (empty_registry 2) [(MK_Tag "b"%string, 9); (MK_Tag "a"%string, 5)])
    5 ["a"%string] RBT_Expire = Expire.
Proof.
  rewrite (registry_refines_history 2 [(MK_Tag "b"%string, 9); (MK_Tag "a"%string, 5)]
             5 ["a"%string] RBT_Expire).
  - vm_compute. reflexivity.
  - vm_compute. lia.
Defined.

(** A marker is visible to every later evaluation once its advance has
    returned. In every interleaving of writers with a lock-free reader that
    loads the fast-path flag and afterwards the snapshot, the verdict is at
    least as strong as every marker whose advance had returned before the flag
    was loaded calls for. *)
Theorem completed_advances_visible (cap : nat) (w1 w2 : World) (k : MarkerKind)
    (at_ : MarkerVersion) (created : Timestamp) (tags : list Tag) (b : RemoveByTagBehavior) :
  rtc step (initial_world cap) w1 → rtc step w1 w2 →
  (k, at_) ∈ done_ w1 → created ≤ at_ → concerns k tags = true →
  strength (calls_for k b) ≤ strength (evaluate_between w1 w2 created tags b).
Proof.
  intros H1 H12 Hin Hle Hc. unfold evaluate_between.
  destruct (tags_reachable_inv cap w1 H1) as (_ & Hflag & _).
  rewrite Hflag by (intros Hd; rewrite Hd in Hin; by apply not_elem_of_nil in Hin). simpl.
  assert (published_inv w2) as (Hdone & _) by (apply (tags_reachable_inv cap); by etrans).
  eapply known_strength; eauto using reachable_done.
Qed.

Lemma completed_advances_visible_witness :
  let w := mkWorld (run_registry (empty_registry 1) [(MK_ClearExpire, 7)]) W_Idle
             [(MK_ClearExpire, 7)] in
  1 ≤ strength (evaluate_between w w 7 [] RBT_Remove).
Proof.
  intros w. assert (rtc step (initial_world 1) w) as Hr.
  { eapply rtc_l; [apply (step_merge _ _ MK_ClearExpire 7)|].
    eapply rtc_l; [apply step_publish|]. eapply rtc_l; [apply step_observe|]. apply rtc_refl. }
  apply (completed_advances_visible 1 w w MK_ClearExpire 7 7 [] RBT_Remove Hr).
  - apply rtc_refl.
  - apply list_elem_of_here.
  - lia.
  - reflexivity.
Defined.

(** The text form of a marker revision is exact and ordered. Every 64-bit
    revision is written as sixteen characters and read back unchanged, and the
    byte order of two written revisions is the order of the revisions; whatever
    text is accepted denotes a 64-bit revision. *)
Theorem ordered_hex_exact (a b : MarkerVersion) :
  is_i64 a → is_i64 b →
  String.length (MarkerVersion.ordered_hex a) = 16%nat ∧
  MarkerVersion.from_ordered_hex (MarkerVersion.ordered_hex a) = Ok a ∧
  String.compare (MarkerVersion.ordered_hex a) (MarkerVersion.ordered_hex b) = (a ?= b) ∧
  (∀ text v, MarkerVersion.from_ordered_hex text = Ok v → is_i64 v).
Proof.
  intros Ha Hb. unfold MarkerVersion.ordered_hex. rewrite !biased by done.
  assert (∀ t, is_i64 t → (t + 2 ^ 63) mod 2 ^ (4 * Z.of_nat 16) = t + 2 ^ 63) as Hmod.
  { intros t Ht. apply Z.mod_small. zsolve. }
  split_and!.
  - by rewrite length_string_of_list, length_fmap, length_hex_digits.
  - unfold MarkerVersion.from_ordered_hex.
    rewrite list_of_string_of_list, hex_values, length_hex_digits by apply hex_digits_range.
    cbv beta iota zeta. change ((16 =? 16)%nat) with true. cbv iota.
    rewrite fold_hex_digits, Hmod by done. f_equal.
    rewrite unbiased by zsolve. lia.
  - rewrite hex_compare, !Hmod by done. rewrite !(Z.add_comm _ (2 ^ 63)). apply Z.add_compare_mono_l.
  - intros text v. unfold MarkerVersion.from_ordered_hex.
    destruct (mapM hex_value _) as [ds|] eqn:Hds; [|done].
    destruct (length ds =? 16)%nat eqn:Hlen; [|done]. intros [= <-].
    apply Nat.eqb_eq in Hlen. apply mapM_Some in Hds.
    assert (Forall is_digit ds) as Hd.
    { clear Hlen. induction Hds; constructor; eauto using hex_value_range. }
    pose proof (fold_hex_range ds 0 Hd) as Hr. rewrite Hlen in Hr.
    rewrite unbiased; [zsolve|]. apply Hr. lia.
Qed.

Lemma ordered_hex_exact_witness :
  MarkerVersion.from_ordered_hex "7fffffffffffffff" = Ok (-1) ∧
  String.compare "7fffffffffffffff" "8000000000000003" = Lt.
Proof.
  destruct (ordered_hex_exact (-1) 3) as (_ & H & H' & _).
  - vm_compute; split; discriminate.
  - vm_compute; split; discriminate.
  - split; [exact H | exact H'].
Defined.

(** A scope's storage identifier is collision-free: two scopes have the
    same identifier exactly when they are equal, that is when they give every
    value key the same physical prefix and the same suffix, whatever separators
    or digits occur inside prefix and version. *)
Theorem storage_id_collision_free (s1 s2 : CacheScope) :
  CacheScope.storage_id s1 = CacheScope.storage_id s2 ↔ CacheScope.eqb s1 s2 = true.
Proof.
  unfold CacheScope.storage_id, CacheScope.eqb.
  rewrite andb_true_iff, !bool_decide_eq_true. split.
  - intros [Hp H]%length_delimited_inj. split; [done|].
    apply digits_split in H as [_ H]; [done|apply decimal_digits..].
  - by intros [-> ->].
Qed.

(** Different configurations of one physical namespace share the identifier. *)
Example same_physical_scope :
  match CacheScope.new "app:" "v1" KM_Prefix, CacheScope.new "v1:app:" "v9" KM_None with
  | Ok s1, Ok s2 => CacheScope.storage_id s1 = CacheScope.storage_id s2
  | _, _ => False
  end.
Proof. vm_compute. reflexivity. Qed.
