(* ===== verification/Backplane.v ===== *)
(** * Notification commands and their wire form

    Models [src/src/backplane.rs]: the typed commands, their encoding into the
    compatible envelope, and the continuity epoch of a connection. The JSON
    library is a parameter: [to_vec] and [from_slice] are
    [serde_json::to_vec] and [serde_json::from_slice] at the type of the source
    frame. Bytes are [Z] in [0..255]; a [str] is the string of its bytes. *)
From S2P Require Import Prelude Time Options Tags.

(** [CONTROL_PREFIX]. *)
Definition CONTROL_PREFIX : string := String (Ascii.ascii_of_N 31) "amalgam-control-v2:".

Inductive BackplaneAction := BA_Set | BA_Remove | BA_Expire.
#[export] Instance BackplaneAction_eq_dec : EqDecision BackplaneAction.
Proof. solve_decision. Defined.

Record BackplaneMessage := mkMessage {
  msg_source_id : string;
  msg_timestamp : Timestamp;
  msg_action : BackplaneAction;
  msg_key : string;
}.
#[export] Instance eta_BackplaneMessage : Eta BackplaneMessage := λ m,
  mkMessage (msg_source_id m) (msg_timestamp m) (msg_action m) (msg_key m).
#[export] Instance BackplaneMessage_eq_dec : EqDecision BackplaneMessage.
Proof. solve_decision. Defined.

Record MarkerCommand := mkCommand {
  cmd_source_id : string;
  cmd_scope : CacheScope;
  cmd_marker : StoredMarker;
}.

Module MarkerCommand.
Definition new (source_id : string) (scope : CacheScope) (marker : StoredMarker)
    : result MarkerError MarkerCommand :=
  if trims_empty source_id then Err Protocol else Ok (mkCommand source_id scope marker).
End MarkerCommand.

Inductive BackplaneCommand :=
| BC_Data (message : BackplaneMessage)
| BC_Marker (command : MarkerCommand).

(** ** The source frame *)
Inductive WireMarker := WM_Tag (tag : string) | WM_ClearExpire | WM_ClearRemove.

Inductive SourceFrame :=
| SF_Data (source : string)
| SF_Marker (source prefix version : string) (modifier : Z) (marker : WireMarker) (ticks : Z).

#[export] Instance WireMarker_eq_dec : EqDecision WireMarker.
Proof. solve_decision. Defined.
#[export] Instance SourceFrame_eq_dec : EqDecision SourceFrame.
Proof. solve_decision. Defined.

Definition modifier_byte (modifier : KeyModifierMode) : Z :=
  match modifier with KM_Prefix => 1 | KM_Suffix => 2 | KM_None => 3 end.

Definition modifier_from_byte (byte : Z) : result MarkerError KeyModifierMode :=
  match byte with
  | 1 => Ok KM_Prefix
  | 2 => Ok KM_Suffix
  | 3 => Ok KM_None
  | _ => Err Protocol
  end.

Definition encode_hex (bytes : list Z) : string :=
  string_of_list (bytes ≫= λ byte, [hex_char (Z.shiftr byte 4); hex_char (Z.land byte 15)]).

(** The pairs of an even number of characters. *)
Fixpoint decode_pairs (l : list Ascii.ascii) : result MarkerError (list Z) :=
  match l with
  | a :: b :: l =>
      match hex_value a, hex_value b with
      | Some high, Some low =>
          rest ← decode_pairs l;
          Ok (Z.land (Z.lor (Z.shiftl high 4) low) 255 :: rest)
      | _, _ => Err Protocol
      end
  | _ => Ok []
  end.

Definition decode_hex (encoded : string) : result MarkerError (list Z) :=
  if Nat.even (String.length encoded) then decode_pairs (list_of_string encoded)
  else Err Protocol.

(** [str::strip_prefix]. *)
Fixpoint strip_prefix (p s : string) : option string :=
  match p, s with
  | EmptyString, _ => Some s
  | String a p, String b s => if Ascii.eqb a b then strip_prefix p s else None
  | String _ _, EmptyString => None
  end.
Definition starts_with (s p : string) : bool := bool_decide (is_Some (strip_prefix p s)).

Section wire.
Context {JsonError : Type}.
Context (to_vec : SourceFrame → result JsonError (list Z)).
Context (from_slice : list Z → result JsonError SourceFrame).

(** [map_err(MarkerError::protocol)]. *)
Definition protocol {A} (r : result JsonError A) : result MarkerError A :=
  match r with Ok a => Ok a | Err _ => Err ProtocolWithSource end.

Definition encode_source (frame : SourceFrame) : result MarkerError string :=
  bytes ← protocol (to_vec frame);
  Ok (CONTROL_PREFIX +:+ encode_hex bytes)%string.

Definition wire_kind (k : MarkerKind) : WireMarker :=
  match k with
  | MK_Tag tag => WM_Tag tag
  | MK_ClearExpire => WM_ClearExpire
  | MK_ClearRemove => WM_ClearRemove
  end.

Definition frame_of (command : MarkerCommand) : SourceFrame :=
  let scope := cmd_scope command in
  SF_Marker (cmd_source_id command) (prefix scope) (version scope) (modifier_byte (modifier scope))
    (wire_kind (kind (cmd_marker command))) (stored_version (cmd_marker command)).

Definition into_message (self : BackplaneCommand) : result MarkerError BackplaneMessage :=
  match self with
  | BC_Data message =>
      if starts_with (msg_source_id message) CONTROL_PREFIX then
        source ← encode_source (SF_Data (msg_source_id message));
        Ok (message <| msg_source_id := source |>)
      else Ok message
  | BC_Marker command =>
      source_id ← encode_source (frame_of command);
      Ok (mkMessage source_id (stored_version (cmd_marker command)) BA_Set
            (CacheScope.storage_id (cmd_scope command)))
  end.

Definition kind_of (marker : WireMarker) : result MarkerError MarkerKind :=
  match marker with
  | WM_Tag tag => match Tag_new tag with Ok tag => Ok (MK_Tag tag) | Err _ => Err ProtocolWithSource end
  | WM_ClearExpire => Ok MK_ClearExpire
  | WM_ClearRemove => Ok MK_ClearRemove
  end.

Definition from_message (message : BackplaneMessage) : result MarkerError BackplaneCommand :=
  match strip_prefix CONTROL_PREFIX (msg_source_id message) with
  | None => Ok (BC_Data message)
  | Some encoded =>
      bytes ← decode_hex encoded;
      frame ← protocol (from_slice bytes);
      match frame with
      | SF_Data source => Ok (BC_Data (message <| msg_source_id := source |>))
      | SF_Marker source prefix version modifier marker ticks =>
          modifier ← modifier_from_byte modifier;
          scope ← CacheScope.new prefix version modifier;
          kind ← kind_of marker;
          if negb (msg_timestamp message =? ticks)
             || bool_decide (msg_key message ≠ CacheScope.storage_id scope)
             || bool_decide (msg_action message ≠ BA_Set)
          then Err Protocol
          else BC_Marker <$> MarkerCommand.new source scope (mkStoredMarker kind ticks)
      end
  end.
End wire.

Definition source_id (self : BackplaneCommand) : string :=
  match self with BC_Data message => msg_source_id message | BC_Marker command => cmd_source_id command end.

(** ** Connection continuity *)
Module ContinuityEpoch.
Definition INITIAL : Z := 1.
Definition next (self : Z) : result MarkerError Z :=
  match checked_add_u64 self 1 with Some e => Ok e | None => Err Protocol end.
End ContinuityEpoch.

Inductive BackplaneState :=
| BS_Connected (epoch : Z)
| BS_Disconnected (epoch : Z)
| BS_Stopped.

(** ** Lemmas *)
Lemma encode_hex_length bytes : Nat.even (String.length (encode_hex bytes)) = true.
Proof.
  unfold encode_hex. rewrite length_string_of_list. induction bytes as [|b l IH]; [done|]. exact IH.
Qed.

Lemma byte_nibbles b : 0 ≤ b ≤ 255 → is_digit (Z.shiftr b 4) ∧ is_digit (Z.land b 15) ∧
  Z.land (Z.lor (Z.shiftl (Z.shiftr b 4) 4) (Z.land b 15)) 255 = b.
Proof.
  intros Hb. rewrite (Z.land_ones b 4 ltac:(lia) : Z.land b 15 = b mod 2 ^ 4).
  rewrite Z.shiftr_div_pow2 by lia. unfold is_digit. split; [|split].
  - split; [apply Z.div_pos; lia|]. apply Z.div_lt_upper_bound; lia.
  - apply Z.mod_pos_bound. lia.
  - rewrite (Z.land_ones _ 8 ltac:(lia) : Z.land _ 255 = _ mod 2 ^ 8).
    rewrite <-Z.shiftr_div_pow2, <-(Z.land_ones b 4) by lia.
    replace (Z.lor _ _) with b; [apply Z.mod_small; lia|].
    apply Z.bits_inj'. intros n Hn. rewrite Z.lor_spec, Z.land_spec.
    destruct (decide (n < 4)).
    + rewrite Z.shiftl_spec_low, Z.ones_spec_low by lia. by rewrite andb_true_r.
    + rewrite Z.shiftl_spec, Z.shiftr_spec, Z.ones_spec_high by lia.
      rewrite andb_false_r, orb_false_r. f_equal. lia.
Qed.

Lemma decode_encode_hex bytes : Forall (λ b, 0 ≤ b ≤ 255) bytes → decode_hex (encode_hex bytes) = Ok bytes.
Proof.
  intros Hb. unfold decode_hex. rewrite encode_hex_length. unfold encode_hex.
  rewrite list_of_string_of_list. induction Hb as [|b l Hb _ IH]; [done|].
  destruct (byte_nibbles b Hb) as (Hh & Hl & Heq). cbn [mbind list_bind app decode_pairs].
  rewrite !hex_value_char by done. change (list_bind _ _ ?f ?l) with (l ≫= f). rewrite IH.
  cbn [mbind result_bind]. by rewrite Heq.
Qed.

Lemma strip_prefix_app p s : strip_prefix p (p +:+ s) = Some s.
Proof. induction p as [|a p IH]; [done|]. simpl. by rewrite Ascii.eqb_refl. Qed.

Lemma strip_prefix_Some p s r : strip_prefix p s = Some r → s = (p +:+ r)%string.
Proof.
  revert s. induction p as [|a p IH]; intros s; simpl; [by intros [= ->]|].
  destruct s as [|b s]; [done|]. destruct (Ascii.eqb a b) eqn:He; [|done].
  apply Ascii.eqb_eq in He as ->. by intros ->%IH.
Qed.

Lemma modifier_roundtrip m : modifier_from_byte (modifier_byte m) = Ok m.
Proof. by destruct m. Qed.

(** ** What the wire form preserves *)
#[local] Arguments strip_prefix : simpl never.
#[local] Arguments decode_hex : simpl never.

(** The commands the typed constructors produce. *)
Definition valid_scope (scope : CacheScope) : Prop :=
  CacheScope.new (prefix scope) (version scope) (modifier scope) = Ok scope.
Definition valid_kind (k : MarkerKind) : Prop :=
  match k with MK_Tag tag => Tag_new tag = Ok tag | _ => True end.
Definition valid_command (c : BackplaneCommand) : Prop :=
  match c with
  | BC_Data _ => True
  | BC_Marker cmd =>
      trims_empty (cmd_source_id cmd) = false ∧ valid_scope (cmd_scope cmd) ∧
      valid_kind (kind (cmd_marker cmd))
  end.

Lemma scope_new_valid p v m scope :
  CacheScope.new p v m = Ok scope →
  prefix scope = p ∧ version scope = v ∧ modifier scope = m ∧ valid_scope scope.
Proof.
  intros H. pose proof H as H'. unfold valid_scope. unfold CacheScope.new in H.
  destruct (trims_empty v); [done|]. destruct m; injection H as <-; simpl; auto.
Qed.

Lemma kind_of_valid marker k : kind_of marker = Ok k → wire_kind k = marker ∧ valid_kind k.
Proof.
  destruct marker as [tag| |]; simpl; [|by intros [= <-]..].
  unfold Tag_new. destruct (trims_empty tag) eqn:Ht; [done|]. intros [= <-].
  split; [done|]. simpl. unfold Tag_new. by rewrite Ht.
Qed.

(** The documented behaviour of the JSON library: it writes bytes, and reads
    back what it wrote. *)
Definition json_laws {E} (to_vec : SourceFrame → result E (list Z)) (from_slice : list Z → result E SourceFrame) : Prop :=
  ∀ f bs, to_vec f = Ok bs → Forall (λ b, 0 ≤ b ≤ 255) bs ∧ from_slice bs = Ok f.

Lemma decode_source {E} to_vec (from_slice : list Z → result E SourceFrame) f s :
  json_laws to_vec from_slice → encode_source to_vec f = Ok s →
  ∃ encoded bs, strip_prefix CONTROL_PREFIX s = Some encoded ∧ decode_hex encoded = Ok bs ∧
    protocol (from_slice bs) = Ok f.
Proof.
  intros Hlaw (bs & Hbs & [= <-])%result_bind_ok.
  unfold protocol in Hbs. destruct (to_vec f) as [bs'|] eqn:Hf; simplify_eq.
  destruct (Hlaw f bs Hf) as [Hr Hd]. exists (encode_hex bs), bs.
  split; [apply strip_prefix_app|]. split; [by apply decode_encode_hex|]. by rewrite Hd.
Qed.

(** C38: every command survives the wire. Whatever command the typed
    constructors produced, if it is encoded into an envelope then decoding that
    envelope gives the command back; a data notification whose source happens
    to begin with the control prefix is escaped and recovered, and any other
    data notification travels unchanged. *)
Theorem command_roundtrip {E} to_vec (from_slice : list Z → result E SourceFrame) c m :
  json_laws to_vec from_slice → valid_command c → into_message to_vec c = Ok m →
  from_message from_slice m = Ok c ∧
  (∀ d, c = BC_Data d → starts_with (msg_source_id d) CONTROL_PREFIX = false → m = d).
Proof.
  intros Hlaw Hv Hm. destruct c as [d|cmd]; simpl in Hm.
  - unfold starts_with in *. case_bool_decide as Hp.
    + apply result_bind_ok in Hm as (s & Hs & [= <-]).
      destruct (decode_source _ _ _ _ Hlaw Hs) as (enc & bs & H1 & H2 & H3).
      unfold from_message. cbn [msg_source_id fset]. simpl. rewrite H1, H2. simpl. rewrite H3. simpl.
      split; [by destruct d|]. intros d' [= <-]. by rewrite bool_decide_true.
    + injection Hm as <-. unfold from_message.
      destruct (strip_prefix _ _) eqn:Hs; [destruct Hp; eauto|]. split; [done|congruence].
  - apply result_bind_ok in Hm as (s & Hs & [= <-]). split; [|done].
    destruct (decode_source _ _ _ _ Hlaw Hs) as (enc & bs & H1 & H2 & H3).
    destruct cmd as [src scope [k v]], Hv as (Hsrc & Hsc & Hk). simpl in *.
    unfold from_message. simpl. rewrite H1, H2. simpl. rewrite H3. simpl.
    rewrite modifier_roundtrip. simpl. unfold valid_scope in Hsc. rewrite Hsc. simpl.
    assert (kind_of (wire_kind k) = Ok k) as ->.
    { destruct k; [|done..]. simpl in *. by rewrite Hk. }
    simpl. rewrite Z.eqb_refl. rewrite !bool_decide_false by naive_solver. simpl.
    unfold MarkerCommand.new. by rewrite Hsrc.
Qed.

Definition sample_scope : CacheScope := mkScope "app" "v1" KM_Prefix "v1:app" "".
Definition sample_command : BackplaneCommand :=
  BC_Marker (mkCommand "node-1" sample_scope (mkStoredMarker (MK_Tag "users") 7000)).
Definition sample_frame : SourceFrame := SF_Marker "node-1" "app" "v1" 1 (WM_Tag "users") 7000.
(** A library that can only write one frame. *)
Definition sample_to_vec (f : SourceFrame) : result unit (list Z) :=
  if decide (f = sample_frame) then Ok [123; 255; 0] else Err tt.
Definition sample_from_slice (bs : list Z) : result unit SourceFrame :=
  if decide (bs = [123; 255; 0]) then Ok sample_frame else Err tt.

Lemma sample_json_laws : json_laws sample_to_vec sample_from_slice.
Proof.
  intros f bs. unfold sample_to_vec, sample_from_slice. case_decide; [|done]. intros [= <-]. subst.
  split; [repeat constructor; lia|done].
Qed.

Lemma command_roundtrip_witness :
  json_laws sample_to_vec sample_from_slice ∧ valid_command sample_command ∧
  into_message sample_to_vec sample_command =
    Ok (mkMessage (CONTROL_PREFIX +:+ "7bff00") 7000 BA_Set "6:v1:app0:") ∧
  from_message sample_from_slice (mkMessage (CONTROL_PREFIX +:+ "7bff00") 7000 BA_Set "6:v1:app0:")
    = Ok sample_command.
Proof.
  assert (Hm : into_message sample_to_vec sample_command =
    Ok (mkMessage (CONTROL_PREFIX +:+ "7bff00") 7000 BA_Set "6:v1:app0:")) by (vm_compute; reflexivity).
  assert (Hv : valid_command sample_command) by (split; [reflexivity|split; reflexivity]).
  split; [exact sample_json_laws|]. split; [exact Hv|]. split; [exact Hm|].
  exact (proj1 (command_roundtrip sample_to_vec sample_from_slice sample_command _ sample_json_laws Hv Hm)).
Defined.

(** No envelope can pass for a control command it does not carry. An
    envelope without the control prefix decodes to itself as data, whatever its
    key; and whenever decoding yields a marker command, whatever the JSON
    library does, the envelope's source carries the control prefix, its key is
    the identifier of the command's scope, its timestamp is the marker's
    revision, its action is [Set], and the command is one the typed
    constructors could have produced. *)
Theorem control_is_authenticated {E} (from_slice : list Z → result E SourceFrame) m :
  (starts_with (msg_source_id m) CONTROL_PREFIX = false → from_message from_slice m = Ok (BC_Data m)) ∧
  ∀ cmd, from_message from_slice m = Ok (BC_Marker cmd) →
    starts_with (msg_source_id m) CONTROL_PREFIX = true ∧
    msg_key m = CacheScope.storage_id (cmd_scope cmd) ∧
    msg_timestamp m = stored_version (cmd_marker cmd) ∧ msg_action m = BA_Set ∧
    valid_command (BC_Marker cmd).
Proof.
  unfold from_message, starts_with. split.
  - intros Hs%bool_decide_eq_false. destruct (strip_prefix _ _); [destruct Hs; eauto|done].
  - intros cmd. destruct (strip_prefix _ _) as [enc|]; [|done].
    intros (bs & _ & (f & _ & Hf)%result_bind_ok)%result_bind_ok.
    rewrite bool_decide_true by eauto. split; [done|].
    destruct f as [|src p v md marker ticks]; [done|].
    apply result_bind_ok in Hf as (md' & _ & (scope & Hsc & (k & Hk & Hf)%result_bind_ok)%result_bind_ok).
    apply scope_new_valid in Hsc as (_ & _ & _ & Hsc). apply kind_of_valid in Hk as [_ Hk].
    destruct (negb _ || _ || _) eqn:Hc; [done|]. apply orb_false_elim in Hc as [[Ht Hkey]%orb_false_elim Ha].
    apply negb_false_iff, Z.eqb_eq in Ht. apply bool_decide_eq_false in Hkey, Ha.
    apply result_fmap_ok in Hf as (c & Hc & [= ->]). unfold MarkerCommand.new in Hc.
    destruct (trims_empty src) eqn:Hsrc; simplify_eq. simpl.
    apply dec_stable in Hkey, Ha. done.
Qed.

Lemma control_is_authenticated_witness :
  from_message sample_from_slice (mkMessage (CONTROL_PREFIX +:+ "7bff00") 7000 BA_Set "6:v1:app0:")
    = Ok sample_command ∧
  starts_with (CONTROL_PREFIX +:+ "7bff00") CONTROL_PREFIX = true ∧
  "6:v1:app0:"%string = CacheScope.storage_id sample_scope.
Proof.
  assert (H : from_message sample_from_slice
    (mkMessage (CONTROL_PREFIX +:+ "7bff00") 7000 BA_Set "6:v1:app0:") = Ok sample_command)
    by (vm_compute; reflexivity).
  destruct (proj2 (control_is_authenticated sample_from_slice _) _ H) as (H1 & H2 & _).
  split; [exact H|]. split; [exact H1|exact H2].
Defined.
