(* ===== verification/Cancellation.v ===== *)
(** * Cancellation requests

    Models the requests of [src/src/execution.rs]: the terminal reason stored
    as a byte, [Request::cancel_with], [LinkMode] and the listeners that
    [FactoryCancellation::link] adds. *)
From S2P Require Import Prelude.

(** [FactoryCancellationReason] of [src/src/error.rs]; [LeaseLostReason] is its
    [LeaseLost]. *)
Inductive CancellationReason :=
| CallerCancelled | CallerDropped | SoftTimeout | HardTimeout | CacheShutdown | LeaseLostReason | ScopeFinished.
#[export] Instance CancellationReason_eq_dec : EqDecision CancellationReason.
Proof. solve_decision. Defined.

Inductive CancellationState := Active | Cancelled (reason : CancellationReason).

Module CancellationState.
Definition reason (self : CancellationState) : option CancellationReason :=
  match self with Active => None | Cancelled r => Some r end.

(** [unreachable!] is [None]. *)
Definition load (state : Z) : option CancellationState :=
  match state with
  | 0 => Some Active
  | 1 => Some (Cancelled CallerCancelled)
  | 2 => Some (Cancelled CallerDropped)
  | 3 => Some (Cancelled SoftTimeout)
  | 4 => Some (Cancelled HardTimeout)
  | 5 => Some (Cancelled CacheShutdown)
  | 6 => Some (Cancelled LeaseLostReason)
  | 7 => Some (Cancelled ScopeFinished)
  | _ => None
  end.

Definition cancelled_code (reason : CancellationReason) : Z :=
  match reason with
  | CallerCancelled => 1
  | CallerDropped => 2
  | SoftTimeout => 3
  | HardTimeout => 4
  | CacheShutdown => 5
  | LeaseLostReason => 6
  | ScopeFinished => 7
  end.

Lemma load_cancelled_code r : load (cancelled_code r) = Some (Cancelled r).
Proof. by destruct r. Qed.
Lemma cancelled_code_nonzero r : cancelled_code r ≠ 0.
Proof. by destruct r. Qed.
End CancellationState.

(** The reason a request records; a byte no code stores has none. *)
Definition recorded_reason (state : Z) : option CancellationReason :=
  CancellationState.load state ≫= CancellationState.reason.

Inductive LinkMode := Explicit | CallerScope | OriginCaller.

Definition accepts (self : LinkMode) (reason : CancellationReason) : bool :=
  match self with
  | Explicit => true
  | CallerScope => bool_decide (reason ≠ ScopeFinished)
  | OriginCaller => negb (bool_decide (reason = ScopeFinished) || bool_decide (reason = CallerDropped))
  end.

Inductive CancellationRequest := CR_Cancelled | CR_AlreadyCancelled.

(** The compare-exchange of [Request::cancel_with]. *)
Definition publish (state : Z) (reason : CancellationReason) : CancellationRequest * Z :=
  if state =? 0 then (CR_Cancelled, CancellationState.cancelled_code reason) else (CR_AlreadyCancelled, state).

(** [RequestOwner::terminal_reason]: [bound] requests also end with their cache. *)
Definition terminal_reason (bound closed : bool) (state : Z) : option CancellationReason :=
  match recorded_reason state with
  | Some r => Some r
  | None => if bound && closed then Some CacheShutdown else None
  end.

Lemma publish_recorded state r :
  recorded_reason state ≠ None → publish state r = (CR_AlreadyCancelled, state).
Proof. intros H. unfold publish. case_match; [|done]. bool_to_prop. by subst. Qed.

Lemma publish_fresh r : recorded_reason (publish 0 r).2 = Some r.
Proof. simpl. unfold recorded_reason. by rewrite CancellationState.load_cancelled_code. Qed.

(** States a request can have. *)
Definition valid_state (state : Z) : Prop := state = 0 ∨ ∃ r, state = CancellationState.cancelled_code r.

Lemma valid_publish state r : valid_state state → valid_state (publish state r).2.
Proof. intros H. unfold publish. case_match; simpl; [by right; eexists|done]. Qed.

Lemma valid_recorded state : valid_state state → recorded_reason state = None → state = 0.
Proof.
  intros [->|[r ->]]; [done|]. unfold recorded_reason. by rewrite CancellationState.load_cancelled_code.
Qed.

Lemma recorded_publish state r :
  valid_state state →
  recorded_reason (publish state r).2 = Some (default r (recorded_reason state)).
Proof.
  intros [->|[r' ->]]; [by rewrite publish_fresh|].
  assert (recorded_reason (CancellationState.cancelled_code r') = Some r') as E
    by (unfold recorded_reason; by rewrite CancellationState.load_cancelled_code).
  rewrite publish_recorded; [simpl; by rewrite E|by rewrite E].
Qed.

(** ** Links between requests

    A work is linked to a request ([link]: pruning and pushing under the
    listener lock, then reading the reason) while the request is being
    cancelled ([cancel_with]: the compare-exchange, then collecting the live
    listeners under the lock, then cancelling them one by one). *)
Module Links.
Record Listener := mkListener { target : nat; mode : LinkMode }.

Inductive Pc :=
| L_Push (t : nat) (m : LinkMode) | L_Read (t : nat) (m : LinkMode)
| C_Exchange (r : CancellationReason) | C_Collect (r : CancellationReason)
| C_Deliver (r : CancellationReason) (targets : list Listener)
| Finished.

Record World := mkWorld {
  state : Z;
  listeners : list Listener;
  dead : gset nat;
  delivered : gmap nat CancellationReason;
  calls : gmap nat Pc;
}.
#[export] Instance eta_World : Eta World := λ w,
  mkWorld (state w) (listeners w) (dead w) (delivered w) (calls w).

#[export] Instance LinkMode_eq_dec : EqDecision LinkMode.
Proof. solve_decision. Defined.
#[export] Instance Listener_eq_dec : EqDecision Listener.
Proof. solve_decision. Defined.
#[export] Instance Pc_eq_dec : EqDecision Pc.
Proof. solve_decision. Defined.

Inductive Label :=
| Link (c t : nat) (m : LinkMode) | Cancel (c : nat) (r : CancellationReason)
| Die (t : nat) | Run (c : nat).

Definition goto (c : nat) (p : Pc) (w : World) : World := w <| calls := <[c := p]> (calls w) |>.

Definition live (w : World) (l : Listener) : bool := bool_decide (target l ∉ dead w).

(** [target.cancel(reason)]: the work keeps the first reason it is given. *)
Definition deliver (t : nat) (r : CancellationReason) (w : World) : World :=
  w <| delivered := partial_alter (λ o, Some (default r o)) t (delivered w) |>.

(** Up to four listeners from the front are dropped when dead and moved to the
    back when alive. *)
Fixpoint prune (w : World) (n : nat) (l : list Listener) : list Listener :=
  match n, l with
  | S n, old :: l => prune w n (if live w old then l ++ [old] else l)
  | _, _ => l
  end.

Definition run_step (c : nat) (w : World) : option World :=
  match calls w !! c with
  | Some (L_Push t m) =>
      let pruned := prune w (Nat.min (length (listeners w)) 4) (listeners w) in
      Some (goto c (L_Read t m) (w <| listeners := pruned ++ [mkListener t m] |>))
  | Some (L_Read t m) =>
      Some (goto c Finished
        match recorded_reason (state w) with
        | Some r => if accepts m r then deliver t r w else w
        | None => w
        end)
  | Some (C_Exchange r) =>
      Some (match publish (state w) r with
            | (CR_Cancelled, state') => goto c (C_Collect r) (w <| state := state' |>)
            | (CR_AlreadyCancelled, _) => goto c Finished w
            end)
  | Some (C_Collect r) => Some (goto c (C_Deliver r (filter (λ l, live w l = true) (listeners w))) w)
  | Some (C_Deliver r (l :: ls)) =>
      Some (goto c (C_Deliver r ls) (if accepts (mode l) r then deliver (target l) r w else w))
  | Some (C_Deliver r []) => Some (goto c Finished w)
  | _ => None
  end.

Definition step (w : World) (l : Label) : option World :=
  match l with
  | Link c t m => match calls w !! c with None => Some (goto c (L_Push t m) w) | Some _ => None end
  | Cancel c r => match calls w !! c with None => Some (goto c (C_Exchange r) w) | Some _ => None end
  | Die t => Some (w <| dead := {[t]} ∪ dead w |>)
  | Run c => run_step c w
  end.

Definition initial : World := mkWorld 0 [] ∅ ∅ ∅.

Fixpoint execute (w : World) (ls : list Label) : option World :=
  match ls with [] => Some w | l :: ls => w' ← step w l; execute w' ls end.

(** *** The invariant

    A link that has pushed is remembered until it is dead, has been delivered
    to, or its mode does not want the reason. *)
Definition served (w : World) (l : Listener) : Prop :=
  target l ∈ dead w ∨
  match recorded_reason (state w) with
  | None => l ∈ listeners w
  | Some r =>
      accepts (mode l) r = false ∨ is_Some (delivered w !! target l) ∨
      (∃ c, calls w !! c = Some (L_Read (target l) (mode l))) ∨
      l ∈ listeners w ∧ (∃ c, calls w !! c = Some (C_Collect r)) ∨
      ∃ c ls, calls w !! c = Some (C_Deliver r ls) ∧ l ∈ ls
  end.

Definition basic (w : World) : Prop :=
  valid_state (state w) ∧
  (∀ c r, calls w !! c = Some (C_Collect r) ∨ (∃ ls, calls w !! c = Some (C_Deliver r ls)) →
     recorded_reason (state w) = Some r) ∧
  (∀ t r, delivered w !! t = Some r → recorded_reason (state w) = Some r) ∧
  (∀ c t m, calls w !! c = Some (L_Read t m) → served w (mkListener t m)).

Lemma prune_keeps w n l x : x ∈ l → live w x = true → x ∈ prune w n l.
Proof.
  revert l. induction n as [|n IH]; intros [|old l] Hx Hl; simpl; try done.
  apply IH; [|done]. apply elem_of_cons in Hx as [<-|Hx]; [rewrite Hl; set_solver|].
  destruct (live w old); set_solver.
Qed.

(** What a call may do for the listeners that depend on it. *)
Definition hands_over (w w' : World) (p : Pc) : Prop :=
  match p with
  | L_Read t m => ∀ r, recorded_reason (state w) = Some r → accepts m r = true → is_Some (delivered w' !! t)
  | C_Collect r => ∃ c ls, calls w' !! c = Some (C_Deliver r ls) ∧ ∀ x, x ∈ listeners w → target x ∉ dead w → x ∈ ls
  | C_Deliver r ls => ls = [] ∨ ∃ c ls', calls w' !! c = Some (C_Deliver r ls') ∧
      ∀ x, x ∈ ls → x ∈ ls' ∨ accepts (mode x) r = false ∨ is_Some (delivered w' !! target x)
  | _ => True
  end.

Definition moves (w w' : World) : Prop :=
  state w' = state w ∧ dead w ⊆ dead w' ∧
  (∀ x, x ∈ listeners w → target x ∉ dead w → x ∈ listeners w') ∧
  (∀ t, is_Some (delivered w !! t) → is_Some (delivered w' !! t)) ∧
  (∀ c p, calls w !! c = Some p → calls w' !! c = Some p ∨ hands_over w w' p).

Lemma served_moves w w' l : moves w w' → served w l → served w' l.
Proof.
  intros (Hst & Hdead & Hlis & Hdel & Hcalls) Hs. unfold served in *. rewrite Hst.
  destruct (decide (target l ∈ dead w')) as [|Hnd]; [by left|right].
  destruct Hs as [Hd|Hs]; [by apply Hdead in Hd|].
  assert (target l ∉ dead w) as Hnd0 by set_solver.
  destruct (recorded_reason (state w)) as [r|] eqn:Hr; [|by apply Hlis].
  destruct Hs as [?|[?|[[c Hc]|[[Hl [c Hc]]|(c & ls & Hc & Hl)]]]].
  - by left.
  - right; left. auto.
  - destruct (Hcalls _ _ Hc) as [Hc'|Hc']; [right; right; left; eauto|].
    destruct (accepts (mode l) r) eqn:Ha; [|by left]. right; left. eauto.
  - destruct (Hcalls _ _ Hc) as [Hc'|(c' & ls & Hc' & Hin)].
    + do 3 right. left. split; [by apply Hlis|eauto].
    + do 4 right. exists c', ls. auto.
  - destruct (Hcalls _ _ Hc) as [Hc'|[->|(c' & ls' & Hc' & Hin)]]; [do 4 right; eauto|by apply elem_of_nil in Hl|].
    destruct (Hin _ Hl) as [?|[?|?]]; [do 4 right; eauto|by left|right; by left].
Qed.

Lemma delivered_deliver t r w t' :
  delivered (deliver t r w) !! t' = if decide (t = t') then Some (default r (delivered w !! t')) else delivered w !! t'.
Proof. simpl. case_decide; [subst; by rewrite lookup_partial_alter_eq|by rewrite lookup_partial_alter_ne]. Qed.

(** A call that goes on, touching nothing but its place. *)
Lemma moves_goto w w1 c p0 p :
  calls w1 = calls w → calls w !! c = p0 → state w1 = state w → dead w ⊆ dead w1 →
  (∀ x, x ∈ listeners w → target x ∉ dead w → x ∈ listeners w1) →
  (∀ t, is_Some (delivered w !! t) → is_Some (delivered w1 !! t)) →
  from_option (hands_over w (goto c p w1)) True p0 → moves w (goto c p w1).
Proof.
  intros Hcalls Hc ? ? ? ? Hh. split_and!; try done. intros c' p' Hc'. simpl. rewrite Hcalls.
  destruct (decide (c = c')) as [<-|]; [|left; by rewrite lookup_insert_ne].
  right. subst p0. by rewrite Hc' in Hh.
Qed.

Lemma moves_run w c w' :
  basic w → run_step c w = Some w' → (∀ r, calls w !! c ≠ Some (C_Exchange r)) → moves w w'.
Proof.
  intros (Hv & Hrec & Hdel & _) Hs Hne. unfold run_step in Hs.
  destruct (calls w !! c) as [[t m|t m|r|r|r [|l ls]|]|] eqn:Hc; try done; injection Hs as <-.
  - eapply moves_goto; [done|exact Hc|done|set_solver| |done|]; simpl; [|done].
    intros x Hx Hnd. apply elem_of_app. left. apply prune_keeps; [done|]. by apply bool_decide_eq_true.
  - destruct (recorded_reason (state w)) as [r|] eqn:Hr; [destruct (accepts m r) eqn:Ha|].
    + eapply moves_goto; [done|exact Hc|done|done|done| |].
      * intros t' Ht'. rewrite (delivered_deliver t r w t'). case_decide; [by eexists|done].
      * intros r' _ _. change (is_Some (delivered (deliver t r w) !! t)). rewrite delivered_deliver, decide_True by done. by eexists.
    + eapply moves_goto; [done|exact Hc|done|done|done|done|]. simpl. intros r' Hr' Ha'. congruence.
    + eapply moves_goto; [done|exact Hc|done|done|done|done|]. simpl. intros r' Hr'. congruence.
  - by destruct (Hne r).
  - eapply moves_goto; [done|exact Hc|done|done|done|done|]. simpl. exists c. eexists.
    split; [by rewrite lookup_insert_eq|].
    intros x Hx Hnd. apply list_elem_of_filter. split; [|done]. by apply bool_decide_eq_true.
  - eapply moves_goto; [done|exact Hc|done|done|done|done|]. by left.
  - eapply moves_goto; [by case_match|exact Hc|by case_match|by case_match|by case_match| |].
    + intros t' Ht'. case_match; [|done]. rewrite (delivered_deliver (target l) r w t'). case_decide; [by eexists|done].
    + right. exists c, ls. split; [simpl; by rewrite lookup_insert_eq|].
      intros x [->|Hx]%elem_of_cons; [right|by left]. destruct (accepts (mode l) r) eqn:Ha; [right|by left].
      change (is_Some (delivered (deliver (target l) r w) !! target l)). rewrite delivered_deliver, decide_True by done. by eexists.
Qed.

(** The compare-exchange: from then on the winner answers for every listener. *)
Lemma served_exchange w c r w' l :
  basic w → calls w !! c = Some (C_Exchange r) → run_step c w = Some w' → served w l → served w' l.
Proof.
  intros (Hv & _) Hc Hs Hl. unfold run_step in Hs. rewrite Hc in Hs. injection Hs as <-.
  destruct (recorded_reason (state w)) as [r0|] eqn:Hr.
  - rewrite publish_recorded by congruence. apply served_moves with w; [|done].
    by eapply moves_goto; [done|exact Hc|done|done|done|done|].
  - rewrite (valid_recorded _ Hv Hr). change (publish 0 r) with (CR_Cancelled, (publish 0 r).2). cbv beta iota.
    unfold served in *. rewrite Hr in Hl. simpl in *.
    destruct Hl as [?|Hl]; [by left|right].
    change (recorded_reason (CancellationState.cancelled_code r)) with (recorded_reason (publish 0 r).2).
    rewrite publish_fresh. do 3 right. left. split; [done|]. exists c. by rewrite lookup_insert_eq.
Qed.

Lemma served_step w l w' x : basic w → step w l = Some w' → served w x → served w' x.
Proof.
  intros Hb Hs. destruct l as [c t m|c r|t|c]; simpl in Hs.
  - destruct (calls w !! c) eqn:Hc; [done|]. injection Hs as <-. apply served_moves.
    by eapply moves_goto; [done|exact Hc|done|done|done|done|].
  - destruct (calls w !! c) eqn:Hc; [done|]. injection Hs as <-. apply served_moves.
    by eapply moves_goto; [done|exact Hc|done|done|done|done|].
  - injection Hs as <-. apply served_moves. split_and!; try done; [set_solver|]. by left.
  - destruct (calls w !! c) as [p|] eqn:Hc; [|unfold run_step in Hs; by rewrite Hc in Hs].
    destruct p; try (apply served_moves; eapply moves_run; [done|done|]; intros ?; congruence).
    by eapply served_exchange.
Qed.

Lemma basic_step w l w' : basic w → step w l = Some w' → basic w'.
Proof.
  intros Hb Hs. pose proof Hb as (Hv & Hrec & Hdel & Hread).
  assert (∀ c t m, calls w !! c = Some (L_Read t m) → served w' (mkListener t m)) as Hold
    by (intros; eapply served_step; eauto).
  assert (Hnew : ∀ c0 p, calls w' = <[c0 := p]> (calls w) → state w' = state w →
    (∀ t r, delivered w' !! t = Some r → recorded_reason (state w) = Some r) →
    (match p with
     | C_Collect r | C_Deliver r _ => recorded_reason (state w) = Some r
     | L_Read t m => served w' (mkListener t m)
     | _ => True end) → basic w').
  { intros c0 p Hcalls Hst Hd Hp. unfold basic. rewrite Hst, Hcalls. split; [done|]. split; [|split; [done|]].
    - intros c r. destruct (decide (c0 = c)) as [<-|].
      + rewrite lookup_insert_eq. by intros [[= ->]|[? [= ->]]].
      + rewrite lookup_insert_ne by done. apply Hrec.
    - intros c t m. destruct (decide (c0 = c)) as [<-|].
      + rewrite lookup_insert_eq. by intros [= ->].
      + rewrite lookup_insert_ne by done. apply Hold. }
  destruct l as [c t m|c r|t|c]; simpl in Hs.
  - destruct (calls w !! c) eqn:Hc; [done|]. injection Hs as <-. by eapply Hnew.
  - destruct (calls w !! c) eqn:Hc; [done|]. injection Hs as <-. by eapply Hnew.
  - injection Hs as <-. by split_and!.
  - unfold run_step in Hs. destruct (calls w !! c) as [[t m|t m|r|r|r [|l ls]|]|] eqn:Hc; try done; injection Hs as <-.
    + eapply Hnew; [done|done|done|]. right. simpl. destruct (recorded_reason (state w)) as [r|] eqn:Hr.
      * do 2 right. left. exists c. simpl. by rewrite lookup_insert_eq.
      * set_solver.
    + destruct (recorded_reason (state w)) as [r|] eqn:Hr; [destruct (accepts m r)|]; eapply Hnew; try done.
      intros t' r'. change (delivered (deliver t r w) !! t' = Some r' → Some r = Some r'). rewrite delivered_deliver. case_decide; [|intros ?%Hdel; congruence].
      intros [= <-]. destruct (delivered w !! t') eqn:E; [apply Hdel in E; simpl; congruence|done].
    + destruct (publish (state w) r) as [[|] s'] eqn:Hp.
      * unfold publish in Hp. case_match eqn:E; [|done]. injection Hp as <-. bool_to_prop. rewrite E in *.
        assert (∀ c r, calls w !! c = Some (C_Collect r) ∨ (∃ ls, calls w !! c = Some (C_Deliver r ls)) → False) as Hno
          by (intros c' r' Hc'; by apply Hrec in Hc').
        split; [by right; eexists|]. split; [|split].
        -- intros c' r'. simpl. destruct (decide (c = c')) as [<-|].
           ++ rewrite lookup_insert_eq. intros [[= ->]|[? [=]]]. apply publish_fresh.
           ++ rewrite lookup_insert_ne by done. by intros ?%Hno.
        -- intros t r' Ht. by apply Hdel in Ht.
        -- intros c' t m. simpl. destruct (decide (c = c')) as [<-|]; [by rewrite lookup_insert_eq|].
           rewrite lookup_insert_ne by done. apply Hold.
      * by eapply Hnew.
    + eapply Hnew; try done. simpl. apply (Hrec c). by left.
    + by eapply Hnew.
    + eapply Hnew; [by case_match|by case_match| |].
      * intros t r'. case_match; [|apply Hdel].
        change (delivered (deliver (target l) r w) !! t = Some r' → recorded_reason (state w) = Some r'). rewrite delivered_deliver.
        case_decide; [|apply Hdel]. intros [= <-].
        destruct (delivered w !! t) eqn:E; [by apply Hdel in E|]. apply (Hrec c). eauto.
      * apply (Hrec c). eauto.
Qed.

Lemma execute_inv w ls w' x :
  basic w → served w x → execute w ls = Some w' → basic w' ∧ served w' x.
Proof.
  revert w. induction ls as [|l ls IH]; simpl; intros w Hb Hx He; [by injection He as <-|].
  destruct (step w l) as [w1|] eqn:Hs; [|done]. apply (IH w1); [by eapply basic_step|by eapply served_step|done].
Qed.

Lemma basic_execute w ls w' : basic w → execute w ls = Some w' → basic w'.
Proof.
  revert w. induction ls as [|l ls IH]; simpl; intros w Hb He; [by injection He as <-|].
  destruct (step w l) as [w1|] eqn:Hs; [|done]. by eapply IH, He; eapply basic_step.
Qed.

Lemma basic_initial : basic initial.
Proof. split; [by left|]. split; [|split]; intros; simpl in *; naive_solver. Qed.

(** The first reason stays. *)
Lemma reason_step w l w' r :
  recorded_reason (state w) = Some r → step w l = Some w' → recorded_reason (state w') = Some r.
Proof.
  intros Hr Hs. destruct l as [c t m|c r1|t|c]; simpl in Hs.
  - case_match; [done|]. by injection Hs as <-.
  - case_match; [done|]. by injection Hs as <-.
  - by injection Hs as <-.
  - unfold run_step in Hs. destruct (calls w !! c) as [[| |r1| |r1 [|x xs]|]|]; try done; injection Hs as <-; try done.
    + rewrite Hr. by case_match.
    + by rewrite publish_recorded by congruence.
    + by case_match.
Qed.

Lemma reason_execute w ls w' r :
  recorded_reason (state w) = Some r → execute w ls = Some w' → recorded_reason (state w') = Some r.
Proof.
  revert w. induction ls as [|l ls IH]; simpl; intros w Hr He; [by injection He as <-|].
  destruct (step w l) as [w1|] eqn:Hs; [|done]. by eapply IH, He; eapply reason_step.
Qed.

(** No linked work misses its cancellation. However links, cancellations,
    deliveries and the deaths of targets interleave: once a link has pushed its
    listener, then whenever the request has a terminal reason and no call is
    under way, the target is dead, or its mode does not accept that reason, or
    it has been cancelled; and the reason given, here and to every other
    target, is the one the request recorded first, which no later cancellation
    replaces. *)
Theorem linked_work_is_cancelled ls w c t m ls' w' r ls'' w'' :
  execute initial ls = Some w → calls w !! c = Some (L_Read t m) →
  execute w ls' = Some w' → (∀ c' p, calls w' !! c' = Some p → p = Finished) →
  recorded_reason (state w') = Some r → execute w' ls'' = Some w'' →
  (t ∈ dead w' ∨ accepts m r = false ∨ delivered w' !! t = Some r) ∧
  recorded_reason (state w'') = Some r ∧
  (∀ t' r', delivered w'' !! t' = Some r' → r' = r).
Proof.
  intros He Hc He' Hfin Hr He''.
  assert (basic w) as Hb by (eapply basic_execute, He; apply basic_initial).
  assert (served w (mkListener t m)) as Hs by (destruct Hb as (_ & _ & _ & Hread); eauto).
  destruct (execute_inv _ _ _ _ Hb Hs He') as [Hb' Hs']. split.
  - unfold served in Hs'. rewrite Hr in Hs'. simpl in Hs'.
    destruct Hs' as [?|[?|[[r' Hd]|[[c' Hc']|[[_ [c' Hc']]|(c' & l & Hc' & _)]]]]];
      try (by left); try (by right; left); try (by apply Hfin in Hc').
    right; right. rewrite Hd. f_equal. destruct Hb' as (_ & _ & Hdel & _). apply Hdel in Hd. congruence.
  - assert (recorded_reason (state w'') = Some r) as Hr'' by by eapply reason_execute.
    split; [done|]. intros t' r' Hd. destruct (basic_execute _ _ _ Hb' He'') as (_ & _ & Hdel & _).
    apply Hdel in Hd. congruence.
Qed.

(** A link races a cancellation: its listener is pushed after the cancellation
    has collected, and it delivers to itself. *)
Definition race_start : list Label := [Cancel 0 CallerCancelled; Run 0; Link 1 9 CallerScope; Run 0; Run 1].
Definition race_end : list Label := [Run 0; Run 1].
Definition world_of (ls : list Label) : World := default initial (execute initial ls).

Lemma linked_work_is_cancelled_witness :
  delivered (world_of (race_start ++ race_end)) !! 9%nat = Some CallerCancelled.
Proof.
  assert (execute initial race_start = Some (world_of race_start)) as H1 by (vm_compute; reflexivity).
  assert (calls (world_of race_start) !! 1%nat = Some (L_Read 9 CallerScope)) as H2 by (vm_compute; reflexivity).
  assert (execute (world_of race_start) race_end = Some (world_of (race_start ++ race_end))) as H3 by (vm_compute; reflexivity).
  assert (map_Forall (λ _ p, p = Finished) (calls (world_of (race_start ++ race_end)))) as H4 by (by apply (bool_decide_unpack _); vm_compute).
  assert (recorded_reason (state (world_of (race_start ++ race_end))) = Some CallerCancelled) as H5 by (vm_compute; reflexivity).
  destruct (linked_work_is_cancelled _ _ 1%nat 9%nat CallerScope _ _ CallerCancelled [] _ H1 H2 H3 H4 H5 eq_refl) as [[Hd|[Ha|Hd]] _].
  - exfalso. revert Hd. assert (dead (world_of (race_start ++ race_end)) = ∅) as -> by (vm_compute; reflexivity).
    apply not_elem_of_empty.
  - discriminate Ha.
  - exact Hd.
Defined.
End Links.
