(* ===== verification/Activity.v ===== *)
(** * Activity accounting and shutdown

    Models the admission counters of [src/src/execution.rs]: [current_stripe],
    [Scopes::reserve_activity], [Scopes::inline_owned], the guards' [admit] and
    [Drop], [Scopes::close]'s publication and the scan of [Scopes::idle] that
    [Scopes::drained] waits for.

    A step is one atomic access: a load, a store, a compare-exchange or a
    fetch-and-add of one counter. The counters of one [Scopes] are accessed with
    sequentially consistent or acquire/release orderings which the code's
    comment argues suffice for the single total order used here. Counters are
    unbounded: a counter is the number of live guards, so [usize::MAX] of them
    cannot exist, and [NEXT_STRIPE] panics before it hands out zero. *)
From S2P Require Import Prelude.

Module Activity.
Definition ACTIVE_STRIPES : Z := 64.

(** Which of a stripe's two counts. *)
Inductive Count := Local | Shared.
#[export] Instance Count_eq_dec : EqDecision Count.
Proof. solve_decision. Defined.

Record ActiveStripe := mkStripe { owner : Z; local : Z; shared : Z }.
#[export] Instance eta_ActiveStripe : Eta ActiveStripe := λ s, mkStripe (owner s) (local s) (shared s).

(** One reservation: [ThreadActivity] ([bound] to its thread) or
    [OwnedInlinePermit]. [admitted]: one of its [admit] calls returned [Ok]. *)
Record Hold := mkHold {
  hold_thread : nat;
  bound : bool;
  position : Z;
  counted : Count;
  admitted : bool;
}.
#[export] Instance eta_Hold : Eta Hold := λ h,
  mkHold (hold_thread h) (bound h) (position h) (counted h) (admitted h).

(** What a thread is doing; [h] is the reservation being released.

    - [NewStripe]: [current_stripe] of a thread without one;
    - [ReadOwner], [ClaimOwner], [LoadLocal], [StoreLocal], [AddShared]:
      [reserve_activity] ([AddOwned]: [inline_owned]);
    - [LoadDown], [StoreDown], [CheckClosed]: the guards' [Drop]. *)
Inductive Pc :=
| Idle
| NewStripe (owned : bool)
| ReadOwner | ClaimOwner
| LoadLocal | StoreLocal (count : Z)
| AddShared | AddOwned
| LoadDown (h : nat) | StoreDown (h : nat) (count : Z)
| CheckClosed.
#[export] Instance Pc_eq_dec : EqDecision Pc.
Proof. solve_decision. Defined.

Record Thread := mkThread { stripe : option Z; pc : Pc }.
#[export] Instance eta_Thread : Eta Thread := λ t, mkThread (stripe t) (pc t).

(** A pass of [drained]: subscribed to [changed], then scanning. *)
Inductive Progress := Scanning (i : Z) (c : Count) | Found (i : Z) (c : Count) | Clear.
Record Scan := mkScan { progress : Progress; woken : bool }.
#[export] Instance eta_Scan : Eta Scan := λ s, mkScan (progress s) (woken s).

Record World := mkWorld {
  next_stripe : Z;
  closing : bool;
  stripes : gmap Z ActiveStripe;
  threads : gmap nat Thread;
  next_hold : nat;
  holds : gmap nat Hold;
  scans : gmap nat Scan;
}.
#[export] Instance eta_World : Eta World := λ w,
  mkWorld (next_stripe w) (closing w) (stripes w) (threads w) (next_hold w) (holds w) (scans w).

Definition stripe_at (w : World) (i : Z) : ActiveStripe := default (mkStripe 0 0 0) (stripes w !! i).
Definition thread_at (w : World) (t : nat) : Thread := default (mkThread None Idle) (threads w !! t).
Definition count (w : World) (i : Z) (c : Count) : Z :=
  match c with Local => local (stripe_at w i) | Shared => shared (stripe_at w i) end.

Definition goto (t : nat) (p : Pc) (w : World) : World :=
  w <| threads := <[t := thread_at w t <| pc := p |>]> (threads w) |>.
Definition set_owner (i v : Z) (w : World) : World :=
  w <| stripes := <[i := stripe_at w i <| owner := v |>]> (stripes w) |>.
Definition set_count (i : Z) (c : Count) (v : Z) (w : World) : World :=
  w <| stripes := <[i := match c with
                        | Local => stripe_at w i <| local := v |>
                        | Shared => stripe_at w i <| shared := v |>
                        end]> (stripes w) |>.
Definition put_hold (h : nat) (a : Hold) (w : World) : World := w <| holds := <[h := a]> (holds w) |>.
Definition new_hold (a : Hold) (w : World) : World :=
  put_hold (next_hold w) a w <| next_hold := S (next_hold w) |>.
Definition drop_hold (h : nat) (w : World) : World := w <| holds := delete h (holds w) |>.

(** [StripeIndex::position] of the identifier [me]. *)
Definition position_of (me : Z) : Z := me mod ACTIVE_STRIPES.

(** The guard of a reservation thread [t] has just counted as [n]. *)
Definition reserve (t : nat) (bound : bool) (me : Z) (c : Count) (n : Z) (w : World) : World :=
  goto t Idle (new_hold (mkHold t bound (position_of me) c false) (set_count (position_of me) c n w)).

(** [changed.notify_waiters]. *)
Definition notify_waiters (w : World) : World := w <| scans := (λ s, s <| woken := true |>) <$> scans w |>.

(** After a release that took the count from [count] to [count - 1]. *)
Definition released (t : nat) (count : Z) : World → World :=
  goto t (if count =? 1 then CheckClosed else Idle).

Definition run_step (t : nat) (w : World) : option World :=
  let thread := thread_at w t in
  match pc thread, stripe thread with
  | NewStripe owned, None =>
      let me := next_stripe w in
      Some (w <| next_stripe := me + 1 |>
              <| threads := <[t := mkThread (Some me) (if owned then AddOwned else ReadOwner)]> (threads w) |>)
  | ReadOwner, Some me =>
      let o := owner (stripe_at w (position_of me)) in
      Some (goto t (if o =? me then LoadLocal else if o =? 0 then ClaimOwner else AddShared) w)
  | ClaimOwner, Some me =>
      Some (if owner (stripe_at w (position_of me)) =? 0
            then goto t LoadLocal (set_owner (position_of me) me w) else goto t AddShared w)
  | LoadLocal, Some me => Some (goto t (StoreLocal (count w (position_of me) Local)) w)
  | StoreLocal count, Some me => Some (reserve t true me Local (count + 1) w)
  | AddShared, Some me => Some (reserve t true me Shared (count w (position_of me) Shared + 1) w)
  | AddOwned, Some me => Some (reserve t false me Shared (count w (position_of me) Shared + 1) w)
  | LoadDown h, _ => a ← holds w !! h; Some (goto t (StoreDown h (count w (position a) Local)) w)
  | StoreDown h count, _ =>
      a ← holds w !! h;
      Some (released t count (drop_hold h (set_count (position a) Local (count - 1) w)))
  | CheckClosed, _ => Some (goto t Idle (if closing w then notify_waiters w else w))
  | _, _ => None
  end.

(** What the environment does: a thread enters the cache ([Inline],
    [InlineOwned]), asks for admission, releases a guard, goes on with its
    code; somebody closes; a pass of [drained] starts or reads one counter. *)
Inductive Label :=
| Inline (t : nat) | InlineOwned (t : nat)
| Admit (h : nat) | Release (t h : nat) | Run (t : nat)
| Close | Subscribe (s : nat) | Look (s : nat).

Definition enter (t : nat) (owned : bool) (w : World) : option World :=
  match pc (thread_at w t) with
  | Idle =>
      Some (goto t (match stripe (thread_at w t) with
                    | None => NewStripe owned
                    | Some _ => if owned then AddOwned else ReadOwner
                    end) w)
  | _ => None
  end.

(** The counter read after [(i, c)], in the order of [idle]. *)
Definition following (i : Z) (c : Count) : Progress :=
  match c with
  | Local => Scanning i Shared
  | Shared => if i + 1 <? ACTIVE_STRIPES then Scanning (i + 1) Local else Clear
  end.

Definition step (w : World) (l : Label) : option World :=
  match l with
  | Inline t => enter t false w
  | InlineOwned t => enter t true w
  | Admit h =>
      a ← holds w !! h;
      Some (put_hold h (a <| admitted := admitted a || negb (closing w) |>) w)
  | Release t h =>
      a ← holds w !! h;
      if decide (pc (thread_at w t) = Idle ∧ (bound a = true → hold_thread a = t)) then
        match counted a with
        | Local => Some (goto t (LoadDown h) w)
        | Shared =>
            let n := count w (position a) Shared in
            Some (released t n (drop_hold h (set_count (position a) Shared (n - 1) w)))
        end
      else None
  | Run t => run_step t w
  | Close => Some (w <| closing := true |>)
  | Subscribe s =>
      match scans w !! s with
      | None => Some (w <| scans := <[s := mkScan (Scanning 0 Local) false]> (scans w) |>)
      | Some _ => None
      end
  | Look s =>
      '(mkScan p woken) ← scans w !! s;
      match p with
      | Scanning i c =>
          let p' := if count w i c =? 0 then following i c else Found i c in
          Some (w <| scans := <[s := mkScan p' woken]> (scans w) |>)
      | _ => None
      end
  end.

Definition initial : World := mkWorld 1 false ∅ ∅ O ∅ ∅.

Fixpoint execute (w : World) (ls : list Label) : option World :=
  match ls with [] => Some w | l :: ls => w' ← step w l; execute w' ls end.
End Activity.

(** ** The invariant *)
Module ActivityInv.
Import Activity.

(** The reservations counted at [(i, c)]. *)
Definition at_counter (i : Z) (c : Count) (a : Hold) : Z :=
  if decide (position a = i ∧ counted a = c) then 1 else 0.
Definition tally (w : World) (i : Z) (c : Count) : Z := msum (at_counter i c) (holds w).

Definition owns (w : World) (t : nat) (i : Z) : Prop :=
  ∃ me, stripe (thread_at w t) = Some me ∧ position_of me = i ∧ owner (stripe_at w i) = me.

Definition releasing (w : World) (t h : nat) (a : Hold) : Prop :=
  holds w !! h = Some a ∧ hold_thread a = t ∧ counted a = Local.

(** What a thread at [p] relies on. *)
Definition pc_ok (w : World) (t : nat) (p : Pc) : Prop :=
  match p with
  | LoadLocal => ∃ i, owns w t i
  | StoreLocal n => ∃ i, owns w t i ∧ n = count w i Local
  | LoadDown h => ∃ a, releasing w t h a
  | StoreDown h n => ∃ a, releasing w t h a ∧ n = count w (position a) Local
  | _ => True
  end.

Definition hold_ok (w : World) (h : nat) (a : Hold) : Prop :=
  (h < next_hold w)%nat ∧ 0 ≤ position a < ACTIVE_STRIPES ∧
  (counted a = Local → bound a = true ∧ owns w (hold_thread a) (position a)).

Definition thread_ok (w : World) : Prop :=
  1 ≤ next_stripe w ∧
  (∀ t me, stripe (thread_at w t) = Some me → 1 ≤ me < next_stripe w) ∧
  (∀ t t' me, stripe (thread_at w t) = Some me → stripe (thread_at w t') = Some me → t = t').

(** The invariant, but for where thread [t] stands: what holds in the middle
    of one of its steps. *)
Definition inv_but (w : World) (t : nat) : Prop :=
  thread_ok w ∧ (∀ t', t' ≠ t → pc_ok w t' (pc (thread_at w t'))) ∧
  (∀ h a, holds w !! h = Some a → hold_ok w h a) ∧
  (∀ i c, count w i c = tally w i c).

Definition inv (w : World) : Prop := ∀ t, inv_but w t ∧ pc_ok w t (pc (thread_at w t)).

Lemma position_range me : 0 ≤ position_of me < ACTIVE_STRIPES.
Proof. by apply Z.mod_pos_bound. Qed.

Lemma thread_at_insert (m : gmap nat Thread) t x t' :
  default (mkThread None Idle) (<[t := x]> m !! t') =
  if decide (t = t') then x else default (mkThread None Idle) (m !! t').
Proof. case_decide; [subst; by rewrite lookup_insert_eq|by rewrite lookup_insert_ne]. Qed.

Lemma thread_at_goto t p w t' :
  thread_at (goto t p w) t' = if decide (t = t') then thread_at w t <| pc := p |> else thread_at w t'.
Proof. unfold thread_at at 1, goto. simpl. by rewrite thread_at_insert. Qed.

Lemma stripe_goto t p w t' : stripe (thread_at (goto t p w) t') = stripe (thread_at w t').
Proof. rewrite thread_at_goto. case_decide; by subst. Qed.

Lemma stripe_at_insert (m : gmap Z ActiveStripe) i x j :
  default (mkStripe 0 0 0) (<[i := x]> m !! j) = if decide (i = j) then x else default (mkStripe 0 0 0) (m !! j).
Proof. case_decide; [subst; by rewrite lookup_insert_eq|by rewrite lookup_insert_ne]. Qed.

Lemma owner_set_count i c v w j : owner (stripe_at (set_count i c v w) j) = owner (stripe_at w j).
Proof.
  unfold stripe_at at 1, set_count. simpl. rewrite stripe_at_insert. case_decide; [subst|done].
  by destruct c.
Qed.

Lemma count_set_count i c v w j d :
  count (set_count i c v w) j d = if decide (i = j ∧ c = d) then v else count w j d.
Proof.
  unfold count at 1, stripe_at, set_count. simpl. rewrite stripe_at_insert.
  destruct c, d; repeat case_decide; naive_solver.
Qed.

Lemma count_set_owner i v w j d : count (set_owner i v w) j d = count w j d.
Proof.
  unfold count at 1, stripe_at, set_owner. simpl. rewrite stripe_at_insert.
  destruct d; case_decide; by subst.
Qed.

Lemma owner_set_owner i v w j :
  owner (stripe_at (set_owner i v w) j) = if decide (i = j) then v else owner (stripe_at w j).
Proof. unfold stripe_at at 1, set_owner. simpl. rewrite stripe_at_insert. by case_decide. Qed.

(** Only one thread may write the local count of a stripe. *)
Lemma owns_unique w t t' i : thread_ok w → owns w t i → owns w t' i → t = t'.
Proof. intros (_ & _ & Hu) (me & H1 & _ & <-) (me' & H2 & _ & ?). subst. eauto. Qed.

(** *** Preservation, change by change *)
Lemma owns_goto t p w t' i : owns (goto t p w) t' i ↔ owns w t' i.
Proof. unfold owns. setoid_rewrite stripe_goto. done. Qed.
Lemma pc_ok_goto t p w t' q : pc_ok (goto t p w) t' q ↔ pc_ok w t' q.
Proof. destruct q; simpl; try done; by setoid_rewrite owns_goto. Qed.
Lemma hold_ok_goto t p w h a : hold_ok (goto t p w) h a ↔ hold_ok w h a.
Proof. unfold hold_ok. by rewrite owns_goto. Qed.

Lemma inv_goto w t p : inv_but w t → pc_ok w t p → inv (goto t p w).
Proof.
  intros (Ht & Hp & Hh & Hc) Hok.
  assert (∀ t', pc_ok (goto t p w) t' (pc (thread_at (goto t p w) t'))) as Hpc.
  { intros t'. rewrite pc_ok_goto, thread_at_goto. case_decide; [by subst|by apply Hp]. }
  intros t'. split; [|done]. split; [|split; [|split]]; [|done| |done].
  - unfold thread_ok. setoid_rewrite stripe_goto. done.
  - intros h a Ha. by apply hold_ok_goto, Hh.
Qed.

Lemma tally_insert w h a i c :
  holds w !! h = None → tally (put_hold h a w) i c = tally w i c + at_counter i c a.
Proof. intros Hn. unfold tally. simpl. rewrite msum_insert by done. lia. Qed.

(** A write of a count by a thread entitled to it disturbs no pending write. *)
Lemma count_other w t i c n t' j :
  thread_ok w → (c = Local → owns w t i) → t' ≠ t → owns w t' j →
  count (set_count i c n w) j Local = count w j Local.
Proof.
  intros Ht Hl Hne Hj. rewrite count_set_count. case_decide as E; [|done].
  destruct E as [<- ->]. destruct Hne. by eapply owns_unique, Hl.
Qed.

Lemma owns_set_count i c n w t j : owns (set_count i c n w) t j ↔ owns w t j.
Proof. unfold owns. by setoid_rewrite owner_set_count. Qed.

Lemma inv_reserve w t (b : bool) i c n :
  inv_but w t → 0 ≤ i < ACTIVE_STRIPES → n = count w i c + 1 → (c = Local → b = true ∧ owns w t i) →
  inv_but (new_hold (mkHold t b i c false) (set_count i c n w)) t.
Proof.
  intros (Ht & Hp & Hh & Hc) Hi -> Hl.
  assert (c = Local → owns w t i) as Hl' by naive_solver.
  assert (holds w !! next_hold w = None) as Hfresh.
  { destruct (holds w !! next_hold w) as [a|] eqn:E; [|done]. destruct (Hh _ _ E). lia. }
  set (w' := new_hold _ _).
  assert (∀ t' j, owns w' t' j ↔ owns w t' j) as Ho by apply owns_set_count.
  assert (∀ t' j, t' ≠ t → owns w t' j → count w' j Local = count w j Local) as Hcnt by (intros; by eapply count_other).
  assert (∀ h a, holds w !! h = Some a → holds w' !! h = Some a) as Hkeep.
  { intros h a Ha. unfold w'. simpl. rewrite lookup_insert_ne; [done|]. intros <-. congruence. }
  split; [done|]. split; [|split].
  - intros t' Hne. specialize (Hp t' Hne). change (thread_at w' t') with (thread_at w t').
    destruct (pc (thread_at w t')) eqn:Hpc; simpl in *; try done.
    + destruct Hp as [j Hj]. exists j. by apply Ho.
    + destruct Hp as (j & Hj & ->). exists j. split; [by apply Ho|]. symmetry. by apply (Hcnt t').
    + destruct Hp as (a & ? & ?). exists a. split; auto.
    + destruct Hp as (a & (Ha & <- & Hloc) & ->). exists a. split; [split; auto|].
      destruct (Hh _ _ Ha) as (_ & _ & Hb). symmetry. by apply (Hcnt (hold_thread a)); [|apply Hb].
  - intros h a. unfold w' at 1. simpl. rewrite lookup_insert_Some.
    assert (next_hold w' = S (next_hold w)) as Hn by done.
    unfold hold_ok. setoid_rewrite Ho. rewrite Hn. intros [[<- <-]|[Hne Ha]].
    + simpl. split; [lia|]. by split.
    + destruct (Hh _ _ Ha) as (? & ? & ?). split; [lia|]. by split.
  - intros j d. change (count w' j d) with (count (set_count i c (count w i c + 1) w) j d).
    change (tally w' j d) with (tally (put_hold (next_hold w) (mkHold t b i c false) w) j d).
    rewrite tally_insert, count_set_count, <-Hc by done. unfold at_counter. simpl.
    repeat case_decide; naive_solver lia.
Qed.

Lemma tally_delete w h a i c :
  holds w !! h = Some a → tally (drop_hold h w) i c = tally w i c - at_counter i c a.
Proof. intros Ha. unfold tally. simpl. by apply msum_delete. Qed.

Lemma inv_release w t h a n :
  inv_but w t → holds w !! h = Some a → (counted a = Local → hold_thread a = t) →
  n = count w (position a) (counted a) →
  inv_but (drop_hold h (set_count (position a) (counted a) (n - 1) w)) t.
Proof.
  intros (Ht & Hp & Hh & Hc) Ha Hl ->. destruct (Hh _ _ Ha) as (_ & _ & Hb).
  assert (counted a = Local → owns w t (position a)) as Hl'.
  { intros E. destruct (Hb E). by rewrite <-(Hl E). }
  set (w' := drop_hold _ _).
  assert (∀ t' j, owns w' t' j ↔ owns w t' j) as Ho by apply owns_set_count.
  assert (∀ t' j, t' ≠ t → owns w t' j → count w' j Local = count w j Local) as Hcnt by (intros; by eapply count_other).
  assert (∀ t' h' a', t' ≠ t → releasing w t' h' a' → releasing w' t' h' a') as Hrel.
  { intros t' h' a' Hne (Ha' & <- & Hloc). split; [|done]. unfold w'. simpl.
    rewrite lookup_delete_ne; [done|]. intros <-. destruct Hne. assert (a' = a) as -> by congruence. auto. }
  split; [done|]. split; [|split].
  - intros t' Hne. specialize (Hp t' Hne). change (thread_at w' t') with (thread_at w t').
    destruct (pc (thread_at w t')) eqn:Hpc; simpl in *; try done.
    + destruct Hp as [j Hj]. exists j. by apply Ho.
    + destruct Hp as (j & Hj & ->). exists j. split; [by apply Ho|]. symmetry. by apply (Hcnt t').
    + destruct Hp as (a' & ?). exists a'. auto.
    + destruct Hp as (a' & Hr & ->). exists a'. split; [auto|]. destruct Hr as (Ha' & <- & Hloc).
      destruct (Hh _ _ Ha') as (_ & _ & Hb'). symmetry. by apply (Hcnt (hold_thread a')); [|apply Hb'].
  - intros h' a'. unfold w' at 1. simpl. intros [_ Ha']%lookup_delete_Some. destruct (Hh _ _ Ha') as (? & ? & ?).
    split; [done|]. split; [done|]. by rewrite Ho.
  - intros j d. change (count w' j d) with (count (set_count (position a) (counted a) (count w (position a) (counted a) - 1) w) j d).
    change (tally w' j d) with (tally (drop_hold h w) j d).
    rewrite (tally_delete _ _ a), count_set_count, <-Hc by done. unfold at_counter.
    repeat case_decide; naive_solver lia.
Qed.

(** Admissions, closing and scans touch nothing the invariant speaks of. *)
Lemma inv_same w w' :
  inv w → next_stripe w' = next_stripe w → stripes w' = stripes w → threads w' = threads w →
  next_hold w' = next_hold w →
  (∀ h, option_map (λ a, (hold_thread a, bound a, position a, counted a)) (holds w' !! h) =
        option_map (λ a, (hold_thread a, bound a, position a, counted a)) (holds w !! h)) → inv w'.
Proof.
  intros Hi Hn Hs Hth Hnh Hholds.
  assert (∀ t, thread_at w' t = thread_at w t) as Ht by (intros; unfold thread_at; by rewrite Hth).
  assert (∀ i, stripe_at w' i = stripe_at w i) as Hst by (intros; unfold stripe_at; by rewrite Hs).
  assert (∀ t i, owns w' t i ↔ owns w t i) as Ho.
  { intros. unfold owns. setoid_rewrite Ht. by setoid_rewrite Hst. }
  assert (∀ i c, count w' i c = count w i c) as Hcnt by (intros ? []; simpl; by rewrite Hst).
  assert (∀ h a', holds w' !! h = Some a' → ∃ a, holds w !! h = Some a ∧
            hold_thread a' = hold_thread a ∧ bound a' = bound a ∧ position a' = position a ∧ counted a' = counted a) as Hback.
  { intros h a' Ha. specialize (Hholds h). rewrite Ha in Hholds. clear -Hholds. destruct (holds w !! h) as [a|]; naive_solver. }
  assert (∀ h a, holds w !! h = Some a → ∃ a', holds w' !! h = Some a' ∧
            hold_thread a' = hold_thread a ∧ bound a' = bound a ∧ position a' = position a ∧ counted a' = counted a) as Hforth.
  { intros h a Ha. specialize (Hholds h). rewrite Ha in Hholds. clear -Hholds. destruct (holds w' !! h) as [a'|]; naive_solver. }
  assert (∀ t h a, releasing w t h a → ∃ a', releasing w' t h a' ∧ position a' = position a) as Hrel.
  { intros t h a (Ha & <- & Hloc). destruct (Hforth _ _ Ha) as (a' & ? & ? & ? & ? & ?).
    exists a'. split; [split; [done|]; split; congruence|done]. }
  assert (∀ t q, pc_ok w t q → pc_ok w' t q) as Hpc.
  { intros t []; simpl; try done.
    - intros [i ?]. exists i. by apply Ho.
    - intros (i & ? & ->). exists i. split; [by apply Ho|]. symmetry. apply (Hcnt i Local).
    - intros (a & Hr). destruct (Hrel _ _ _ Hr) as (a' & ? & _). eauto.
    - intros (a & Hr & ->). destruct (Hrel _ _ _ Hr) as (a' & ? & Hpos). exists a'. split; [done|].
      rewrite Hpos. symmetry. apply (Hcnt _ Local). }
  intros t. destruct (Hi t) as [(Hthr & Hp & Hh & Hc) Hme]. rewrite Ht. split; [|by apply Hpc].
  split; [|split; [|split]].
  - unfold thread_ok. rewrite Hn. by setoid_rewrite Ht.
  - intros t' Hne. rewrite Ht. by apply Hpc, Hp.
  - intros h a' (a & Ha & E1 & E2 & E3 & E4)%Hback. destruct (Hh _ _ Ha) as (? & ? & Hb).
    unfold hold_ok. rewrite Hnh, E1, E2, E3, E4. setoid_rewrite Ho. done.
  - intros i c. rewrite Hcnt, Hc. unfold tally.
    transitivity (msum (λ x : Z * Count, if decide (x.1 = i ∧ x.2 = c) then 1 else 0) ((λ a, (position a, counted a)) <$> holds w)).
    { rewrite msum_fmap. by apply msum_ext. }
    transitivity (msum (λ x : Z * Count, if decide (x.1 = i ∧ x.2 = c) then 1 else 0) ((λ a, (position a, counted a)) <$> holds w')).
    { f_equal. apply map_eq. intros h. rewrite !lookup_fmap. specialize (Hholds h).
      clear -Hholds. destruct (holds w !! h), (holds w' !! h); simpl in *; congruence. }
    rewrite msum_fmap. by apply msum_ext.
Qed.

(** [ClaimOwner]: an unowned stripe has no local reservation and no thread at
    work on its local count. *)
Lemma owns_claim w t me t' i :
  thread_ok w → stripe (thread_at w t) = Some me → owner (stripe_at w (position_of me)) = 0 →
  owns w t' i → owns (set_owner (position_of me) me w) t' i.
Proof.
  intros (_ & Hr & _) Hme H0 (me' & ? & ? & E). exists me'. split; [done|]. split; [done|].
  rewrite owner_set_owner. case_decide; [|done]. destruct (Hr t' me'); [done|].
  assert (me' = 0) by congruence. lia.
Qed.

Lemma inv_claim w t me :
  inv_but w t → stripe (thread_at w t) = Some me → owner (stripe_at w (position_of me)) = 0 →
  inv_but (set_owner (position_of me) me w) t ∧ owns (set_owner (position_of me) me w) t (position_of me).
Proof.
  intros (Ht & Hp & Hh & Hc) Hme H0.
  assert (∀ t' i, owns w t' i → owns (set_owner (position_of me) me w) t' i) as Ho by (intros; by eapply owns_claim).
  split.
  - split; [done|]. split; [|split].
    + intros t' Hne. specialize (Hp t' Hne). change (thread_at (set_owner _ _ _) t') with (thread_at w t').
      destruct (pc (thread_at w t')); simpl in *; try done.
      * naive_solver.
      * destruct Hp as (i & ? & ->). exists i. split; [auto|]. symmetry. apply (count_set_owner _ _ _ _ Local).
      * destruct Hp as (a & ? & ->). exists a. split; [done|]. symmetry. apply (count_set_owner _ _ _ _ Local).
    + intros h a Ha. destruct (Hh _ _ Ha) as (? & ? & Hb). split; [done|]. split; [done|].
      intros Hloc. destruct (Hb Hloc). auto.
    + intros i c. rewrite count_set_owner. apply Hc.
  - exists me. split; [done|]. split; [done|]. rewrite owner_set_owner. by rewrite decide_True.
Qed.

(** [NewStripe]: the first stripe of a thread. *)
Lemma inv_new_stripe w t p :
  inv_but w t → stripe (thread_at w t) = None → (p = AddOwned ∨ p = ReadOwner) →
  inv (w <| next_stripe := next_stripe w + 1 |>
         <| threads := <[t := mkThread (Some (next_stripe w)) p]> (threads w) |>).
Proof.
  intros ((H1 & Hr & Hu) & Hp & Hh & Hc) Hnone Hpc. set (w' := fset threads _ _).
  assert (∀ t', thread_at w' t' = if decide (t = t') then mkThread (Some (next_stripe w)) p else thread_at w t') as Hth.
  { intros t'. unfold thread_at at 1, w'. simpl. by rewrite thread_at_insert. }
  assert (∀ t' i, owns w t' i → owns w' t' i) as Ho.
  { intros t' i (me & Hme & ?). exists me. split; [|done]. rewrite Hth. case_decide; [congruence|done]. }
  assert (∀ t' q, pc_ok w t' q → pc_ok w' t' q) as Hpcs.
  { intros t' []; simpl; try done; naive_solver. }
  assert (thread_ok w') as Hthr.
  { assert (next_stripe w' = next_stripe w + 1) as Hn by done. unfold thread_ok. rewrite Hn. setoid_rewrite Hth.
    split; [lia|]. split.
    - intros t' me. case_decide; [intros [= <-]; lia|]. intros ?%Hr. lia.
    - intros t1 t2 me. repeat case_decide; simpl; intros E1 E2; subst; try done; try (by eapply Hu).
      + apply Hr in E2. injection E1 as <-. lia.
      + apply Hr in E1. injection E2 as <-. lia. }
  assert (∀ h a, holds w' !! h = Some a → hold_ok w' h a) as Hh'.
  { intros h a Ha. destruct (Hh h a Ha) as (? & ? & Hb). split; [done|]. split; [done|].
    intros Hloc. destruct (Hb Hloc). auto. }
  assert (∀ t', pc_ok w' t' (pc (thread_at w' t'))) as Hall.
  { intros t'. rewrite Hth. case_decide; [by destruct Hpc as [-> | ->]|]. apply Hpcs, Hp. congruence. }
  intros t'. split; [|done]. split; [done|]. split; [auto|]. split; [done|]. exact Hc.
Qed.

Lemma inv_initial : inv initial.
Proof.
  assert (∀ t, thread_at initial t = mkThread None Idle) as Ht by done.
  assert (∀ i, stripe_at initial i = mkStripe 0 0 0) as Hs by done.
  intros t. rewrite Ht. split; [|done]. split; [|split; [|split]].
  - unfold thread_ok. setoid_rewrite Ht. simpl. split; [lia|]. by split.
  - intros t' _. by rewrite Ht.
  - intros h a Ha. simpl in Ha. by apply lookup_empty_Some in Ha.
  - intros i []; unfold tally; simpl; by rewrite msum_empty, Hs.
Qed.

Lemma inv_run_step w t w' : inv w → run_step t w = Some w' → inv w'.
Proof.
  intros Hi Hs. pose proof Hi as [Hbut Hme]%(λ H, H t). unfold run_step in Hs.
  destruct (pc (thread_at w t)) eqn:Hpc, (stripe (thread_at w t)) as [me|] eqn:Hstr; try done; simpl in Hs, Hme.
  - injection Hs as <-. apply inv_new_stripe; [done|done|]. destruct owned; auto.
  - injection Hs as <-. apply inv_goto; [done|]. case_match eqn:E; simpl; [|by case_match].
    exists (position_of me), me. split_and!; try done. lia.
  - injection Hs as <-. case_match eqn:E; [|by apply inv_goto].
    destruct (inv_claim w t me) as [Hb Ho]; [done|done|lia|]. apply inv_goto; [done|]. by exists (position_of me).
  - injection Hs as <-. apply inv_goto; [done|]. exists (position_of me). split; [|done].
    destruct Hme as (i & me' & Hme' & <- & Ho). assert (me' = me) as -> by congruence. by exists me.
  - injection Hs as <-. destruct Hme as (i & (me' & Hme' & <- & Ho) & ->).
    assert (me' = me) as -> by congruence.
    apply inv_goto; [|done]. apply inv_reserve; [done|apply position_range|done|]. intros _. split; [done|]. by exists me.
  - injection Hs as <-. apply inv_goto; [|done]. apply inv_reserve; [done|apply position_range|done|done].
  - injection Hs as <-. apply inv_goto; [|done]. apply inv_reserve; [done|apply position_range|done|done].
  - destruct Hme as (a & Hr). pose proof Hr as (Ha & _). rewrite Ha in Hs. injection Hs as <-.
    apply inv_goto; [done|]. by exists a.
  - destruct Hme as (a & Hr). pose proof Hr as (Ha & _). rewrite Ha in Hs. injection Hs as <-.
    apply inv_goto; [done|]. by exists a.
  - destruct Hme as (a & (Ha & Hth & Hloc) & ->). rewrite Ha in Hs. injection Hs as <-.
    apply inv_goto; [|by case_match]. rewrite <-Hloc. apply inv_release; try done. by rewrite Hloc.
  - destruct Hme as (a & (Ha & Hth & Hloc) & ->). rewrite Ha in Hs. injection Hs as <-.
    apply inv_goto; [|by case_match]. rewrite <-Hloc. apply inv_release; try done. by rewrite Hloc.
  - injection Hs as <-. case_match; [|by apply inv_goto].
    apply inv_goto; [|done]. assert (inv (notify_waiters w)) as Hn by (by eapply inv_same). apply Hn.
  - injection Hs as <-. case_match; [|by apply inv_goto].
    apply inv_goto; [|done]. assert (inv (notify_waiters w)) as Hn by (by eapply inv_same). apply Hn.
Qed.

Lemma inv_step w l w' : inv w → step w l = Some w' → inv w'.
Proof.
  intros Hi Hs. destruct l as [t|t|h|t h|t| |s|s]; simpl in Hs.
  - unfold enter in Hs. case_match; try done. injection Hs as <-. apply inv_goto; [apply Hi|]. by case_match.
  - unfold enter in Hs. case_match; try done. injection Hs as <-. apply inv_goto; [apply Hi|]. by case_match.
  - destruct (holds w !! h) as [a|] eqn:Ha; [|done]. injection Hs as <-. eapply inv_same; try done.
    intros h'. simpl. destruct (decide (h = h')) as [<-|]; [|by rewrite lookup_insert_ne].
    by rewrite lookup_insert_eq, Ha.
  - destruct (holds w !! h) as [a|] eqn:Ha; [|done]. simpl in Hs. case_decide as E; [|done]. destruct E as [Hpc Hb].
    destruct (Hi t) as [Hbut _]. pose proof Hbut as (_ & _ & Hh & _). destruct (Hh _ _ Ha) as (_ & _ & Hl).
    destruct (counted a) eqn:Hc; injection Hs as <-.
    + apply inv_goto; [done|]. destruct (Hl eq_refl) as [Hbd _]. exists a. split_and!; auto.
    + apply inv_goto; [|by case_match]. rewrite <-Hc. apply inv_release; [done|done|congruence|by rewrite Hc].
  - by eapply inv_run_step.
  - injection Hs as <-. by eapply inv_same.
  - case_match; [done|]. injection Hs as <-. by eapply inv_same.
  - destruct (scans w !! s) as [[p b]|] eqn:Hsc; [|done]. simpl in Hs. destruct p; try done.
    injection Hs as <-. by eapply inv_same.
Qed.

Lemma inv_execute w ls w' : inv w → execute w ls = Some w' → inv w'.
Proof.
  revert w. induction ls as [|l ls IH]; simpl; intros w Hi He; [by injection He as <-|].
  destruct (step w l) as [w1|] eqn:Hs; [|done]. by eapply IH, He; eapply inv_step.
Qed.

(** *** Scans *)

(** The counters a pass has read as zero. *)
Definition passed (p : Progress) (i : Z) (c : Count) : Prop :=
  match p with
  | Scanning j d => i < j ∨ i = j ∧ c = Local ∧ d = Shared
  | Found _ _ => False
  | Clear => True
  end.

(** What a pass [s] that began after closing has established. *)
Definition scan_ok (w : World) (s : nat) : Prop :=
  closing w = true ∧
  ∀ sc, scans w !! s = Some sc →
    (∀ i d, progress sc = Scanning i d → i < ACTIVE_STRIPES) ∧
    (∀ h a, holds w !! h = Some a → admitted a = true → ¬ passed (progress sc) (position a) (counted a)) ∧
    (∀ i c, progress sc = Found i c → woken sc = false →
       count w i c ≠ 0 ∨ ∃ t, pc (thread_at w t) = CheckClosed).

Lemma passed_following i c j d : passed (following i c) j d → j < ACTIVE_STRIPES → passed (Scanning i c) j d ∨ i = j ∧ c = d.
Proof.
  unfold following, ACTIVE_STRIPES. intros Hp Hlt. destruct (decide (i = j)) as [->|Hne].
  - destruct c, d; simpl in *; auto. naive_solver lia.
  - left. destruct c; [|case_match]; simpl in *; bool_to_prop; left; naive_solver lia.
Qed.

(** A counter at zero has no reservation left. *)
Lemma zero_empty w i c h a :
  inv w → count w i c = 0 → holds w !! h = Some a → ¬ (position a = i ∧ counted a = c).
Proof.
  intros Hi H0 Ha E. destruct (Hi O) as [(_ & _ & _ & Hc) _]. rewrite Hc in H0.
  assert (1 ≤ tally w i c); [|lia]. transitivity (at_counter i c a).
  - unfold at_counter. by rewrite decide_True.
  - unfold tally. apply msum_lookup_le with h; [|done]. intros j b _. unfold at_counter. case_decide; lia.
Qed.

(** The steps that neither scan nor wake: reservations admitted before, counts
    that reach zero only under a thread about to look at [closing]. *)
Definition quiet (w w' : World) : Prop :=
  (closing w = true → closing w' = true) ∧
  scans w' = scans w ∧
  (closing w = true → ∀ h a, holds w' !! h = Some a → admitted a = true →
     ∃ a0, holds w !! h = Some a0 ∧ admitted a0 = true ∧ position a0 = position a ∧ counted a0 = counted a) ∧
  (∀ i c, count w i c ≠ 0 → count w' i c ≠ 0 ∨ ∃ t, pc (thread_at w' t) = CheckClosed) ∧
  (∀ t, pc (thread_at w t) = CheckClosed → pc (thread_at w' t) = CheckClosed).

Lemma scan_ok_quiet w w' s : quiet w w' → scan_ok w s → scan_ok w' s.
Proof.
  intros (Hcl & Hsc & Hadm & Hcnt & Hpc) [Hclosed Hs]. split; [auto|].
  intros sc E. rewrite Hsc in E. destruct (Hs _ E) as (Hlt & Hp & Hf). split; [done|]. split.
  - intros h a Ha Hadmitted. destruct (Hadm Hclosed h a Ha Hadmitted) as (a0 & ? & ? & <- & <-). eauto.
  - intros i c Hfound Hwoken. destruct (Hf i c Hfound Hwoken) as [Hne|[t Ht]]; [by apply Hcnt|]. right. eauto.
Qed.

Lemma quiet_goto w t p : pc (thread_at w t) ≠ CheckClosed → quiet w (goto t p w).
Proof.
  intros Hne. split; [done|]. split; [done|]. split; [eauto|]. split; [eauto|].
  intros t' Ht'. rewrite thread_at_goto. case_decide; [by subst|done].
Qed.

Lemma quiet_trans w1 w2 w3 : quiet w1 w2 → quiet w2 w3 → quiet w1 w3.
Proof.
  intros (A1 & A2 & A3 & A4 & A5) (B1 & B2 & B3 & B4 & B5). split; [auto|]. split; [congruence|]. split; [|split].
  - intros Hc h a Ha Hadm. destruct (B3 (A1 Hc) h a Ha Hadm) as (a1 & Ha1 & Hadm1 & <- & <-).
    destruct (A3 Hc h a1 Ha1 Hadm1) as (a0 & ? & ? & <- & <-). eauto.
  - intros i c [?|[t ?]]%A4; [by apply B4|]. right. eauto.
  - auto.
Qed.

Lemma quiet_reserve w t b me c n :
  inv w → n = count w (position_of me) c + 1 → pc (thread_at w t) ≠ CheckClosed → quiet w (reserve t b me c n w).
Proof.
  intros Hi -> Hpc. destruct (Hi O) as [(_ & _ & Hh & Hc) _]. unfold reserve. set (i := position_of me).
  set (w1 := new_hold _ _). apply (quiet_trans _ w1); [|by apply quiet_goto].
  split; [done|]. split; [done|]. split; [|split; [|done]].
  - intros _ h a. unfold w1. simpl. rewrite lookup_insert_Some. intros [[<- <-]|[? ?]]; [done|]. eauto.
  - intros j d Hne. left. change (count (set_count i c (count w i c + 1) w) j d ≠ 0). rewrite count_set_count.
    case_decide as E; [|done]. destruct E as [<- <-].
    assert (0 ≤ tally w i c) by (apply msum_nonneg; intros; unfold at_counter; case_decide; lia).
    rewrite Hc. lia.
Qed.

Lemma quiet_release w t h a n :
  holds w !! h = Some a → n = count w (position a) (counted a) → pc (thread_at w t) ≠ CheckClosed →
  quiet w (released t n (drop_hold h (set_count (position a) (counted a) (n - 1) w))).
Proof.
  intros Ha -> Hpc. unfold released. set (w1 := drop_hold _ _). split; [done|]. split; [done|]. split; [|split].
  - intros _ h' a'. simpl. intros [_ ?]%lookup_delete_Some. eauto.
  - intros i c Hne. set (p := if count w (position a) (counted a) =? 1 then CheckClosed else Idle). change (count (goto t p w1) i c) with (count (set_count (position a) (counted a) (count w (position a) (counted a) - 1) w) i c).
    rewrite count_set_count. case_decide as E; [|by left]. destruct E as [<- <-].
    destruct (decide (count w (position a) (counted a) = 1)) as [E1|]; [|left; lia].
    right. exists t. rewrite thread_at_goto, decide_True by done. unfold p. by rewrite E1.
  - intros t' Ht'. rewrite thread_at_goto. change (thread_at w1 t') with (thread_at w t'). case_decide; [by subst|done].
Qed.

Lemma quiet_run_step w t w' :
  inv w → run_step t w = Some w' → pc (thread_at w t) ≠ CheckClosed → quiet w w'.
Proof.
  intros Hi Hs Hne. pose proof Hi as [_ Hme]%(λ H, H t). unfold run_step in Hs.
  destruct (pc (thread_at w t)) eqn:Hpc, (stripe (thread_at w t)) as [me|] eqn:Hstr; try done; simpl in Hs, Hme.
  - injection Hs as <-. split_and!; try done; try by eauto.
    intros t' Ht'. unfold thread_at. simpl. rewrite thread_at_insert. case_decide; [congruence|done].
  - injection Hs as <-. apply quiet_goto. congruence.
  - injection Hs as <-. case_match; [|apply quiet_goto; congruence].
    eapply (quiet_trans _ (set_owner _ _ w)); [|apply quiet_goto; change (pc (thread_at w t) ≠ CheckClosed); congruence].
    split_and!; try done; try by eauto. intros i c. rewrite count_set_owner. auto.
  - injection Hs as <-. apply quiet_goto. congruence.
  - injection Hs as <-. destruct Hme as (i & (me' & Hme' & <- & Ho) & ->).
    assert (me' = me) as -> by congruence. apply quiet_reserve; [done|done|congruence].
  - injection Hs as <-. apply quiet_reserve; [done|done|congruence].
  - injection Hs as <-. apply quiet_reserve; [done|done|congruence].
  - destruct Hme as (a & Ha & _). rewrite Ha in Hs. injection Hs as <-. apply quiet_goto. congruence.
  - destruct Hme as (a & Ha & _). rewrite Ha in Hs. injection Hs as <-. apply quiet_goto. congruence.
  - destruct Hme as (a & (Ha & _ & Hloc) & ->). rewrite Ha in Hs. injection Hs as <-.
    rewrite <-Hloc. apply quiet_release; [done|by rewrite Hloc|congruence].
  - destruct Hme as (a & (Ha & _ & Hloc) & ->). rewrite Ha in Hs. injection Hs as <-.
    rewrite <-Hloc. apply quiet_release; [done|by rewrite Hloc|congruence].
Qed.

(** [CheckClosed] wakes every pass. *)
Lemma scan_ok_notify w t s :
  scan_ok w s → scan_ok (goto t Idle (if closing w then notify_waiters w else w)) s.
Proof.
  intros [Hc Hs]. rewrite Hc. split; [done|]. intros sc E. simpl in E. rewrite lookup_fmap in E.
  apply fmap_Some in E as (sc0 & E & ->). destruct (Hs _ E) as (Hlt & Hp & _). simpl. split; [done|]. by split.
Qed.

(** One look: either the counter is zero and passed, or it is remembered. *)
Lemma scan_ok_look w s i c b :
  inv w → scan_ok w s → scans w !! s = Some (mkScan (Scanning i c) b) →
  scan_ok (w <| scans := <[s := mkScan (if count w i c =? 0 then following i c else Found i c) b]> (scans w) |>) s.
Proof.
  intros Hi [Hc Hs] E. destruct (Hs _ E) as (Hlt & Hp & _). simpl in Hlt, Hp.
  assert (i < ACTIVE_STRIPES) as Hi64 by by eapply Hlt.
  split; [done|]. simpl. intros sc. rewrite lookup_insert_eq. intros [= <-]. simpl.
  case_match eqn:Hz; bool_to_prop.
  - split; [|split].
    + intros j d. unfold following. destruct c; [by intros [= <- <-]|]. case_match; [|done]. bool_to_prop.
      intros [= <- <-]. lia.
    + intros h a Ha Hadm Hpass. destruct (Hi O) as [(_ & _ & Hh & _) _]. destruct (Hh _ _ Ha) as (_ & Hpos & _).
      destruct (passed_following i c (position a) (counted a)) as [Hbefore|[E1 E2]]; [done|lia| |].
      * by eapply Hp.
      * by eapply (zero_empty w i c h a).
    + unfold following. intros j d. destruct c; [done|]. by case_match.
  - split; [done|]. split; [by intros h a _ _ []|]. intros j d [= <- <-] _. by left.
Qed.

Lemma scan_ok_step w l w' s : inv w → scan_ok w s → step w l = Some w' → scan_ok w' s.
Proof.
  intros Hi Hok Hs. pose proof Hok as [Hclosed Hscans]. destruct l as [t|t|h|t h|t| |s'|s']; simpl in Hs.
  - unfold enter in Hs. case_match eqn:Hpc; try done. injection Hs as <-.
    eapply scan_ok_quiet, Hok. apply quiet_goto. congruence.
  - unfold enter in Hs. case_match eqn:Hpc; try done. injection Hs as <-.
    eapply scan_ok_quiet, Hok. apply quiet_goto. congruence.
  - destruct (holds w !! h) as [a|] eqn:Ha; [|done]. injection Hs as <-. eapply scan_ok_quiet, Hok.
    split_and!; try done; [|by eauto]. intros _ h' a'. simpl. rewrite lookup_insert_Some, Hclosed, orb_false_r.
    intros [[<- <-]|[? ?]]; eauto.
  - destruct (holds w !! h) as [a|] eqn:Ha; [|done]. simpl in Hs. case_decide as E; [|done]. destruct E as [Hpc _].
    eapply scan_ok_quiet, Hok. destruct (counted a) eqn:Hc; injection Hs as <-.
    + apply quiet_goto. congruence.
    + rewrite <-Hc. apply quiet_release; [done|by rewrite Hc|congruence].
  - destruct (decide (pc (thread_at w t) = CheckClosed)) as [E|E].
    + unfold run_step in Hs. rewrite E in Hs. assert (w' = goto t Idle (if closing w then notify_waiters w else w)) as ->
        by (destruct (stripe (thread_at w t)); congruence). by apply scan_ok_notify.
    + eapply scan_ok_quiet, Hok. by eapply quiet_run_step.
  - injection Hs as <-. eapply scan_ok_quiet, Hok. split_and!; try done; by eauto.
  - destruct (scans w !! s') eqn:E; [done|]. injection Hs as <-. destruct (decide (s' = s)) as [->|Hne].
    + split; [done|]. simpl. intros sc. rewrite lookup_insert_eq. intros [= <-]. simpl. split; [by intros ? ? [= <- <-]|].
      split; [|done]. intros h a Ha _ Hp. destruct (Hi O) as [(_ & _ & Hh & _) _]. destruct (Hh _ _ Ha) as (_ & ? & _).
      naive_solver lia.
    + split; [done|]. simpl. intros sc. rewrite lookup_insert_ne by done. apply Hscans.
  - destruct (scans w !! s') as [[p b]|] eqn:E; [|done]. simpl in Hs. destruct p as [i c| |]; try done. injection Hs as <-.
    destruct (decide (s' = s)) as [->|Hne]; [by apply scan_ok_look|].
    split; [done|]. simpl. intros sc. rewrite lookup_insert_ne by done. apply Hscans.
Qed.

Lemma scan_ok_execute w ls w' s : inv w → scan_ok w s → execute w ls = Some w' → inv w' ∧ scan_ok w' s.
Proof.
  revert w. induction ls as [|l ls IH]; simpl; intros w Hi Hok He; [by injection He as <-|].
  destruct (step w l) as [w1|] eqn:Hs; [|done]. apply (IH w1); [by eapply inv_step|by eapply scan_ok_step|done].
Qed.

Lemma scan_ok_start w s : closing w = true → scans w !! s = None → scan_ok w s.
Proof. intros Hc Hn. split; [done|]. intros sc E. congruence. Qed.

(** After closing no reservation becomes admitted. *)
Lemma admitted_closed w ls w' h :
  inv w → closing w = true → execute w ls = Some w' →
  (∀ h a, holds w !! h = Some a → admitted a = false) → ∀ a, holds w' !! h = Some a → admitted a = false.
Proof.
  revert w. induction ls as [|l ls IH]; simpl; intros w Hi Hc He Hnone a Ha.
  { injection He as <-. eauto. }
  destruct (step w l) as [w1|] eqn:Hs; [|done].
  assert (closing w1 = true ∧ ∀ h a, holds w1 !! h = Some a → admitted a = false) as [Hc1 Hnone1]; [|by eapply (IH w1); [eapply inv_step|..]].
  destruct l as [t|t|h'|t h'|t| |s'|s']; simpl in Hs.
  - unfold enter in Hs. case_match; try done. by injection Hs as <-.
  - unfold enter in Hs. case_match; try done. by injection Hs as <-.
  - destruct (holds w !! h') as [b|] eqn:Hb; [|done]. injection Hs as <-. split; [done|]. intros h1 a1. simpl.
    rewrite lookup_insert_Some, Hc, orb_false_r. intros [[<- <-]|[? ?]]; simpl; eauto.
  - destruct (holds w !! h') as [b|] eqn:Hb; [|done]. simpl in Hs. case_decide; [|done].
    destruct (counted b); injection Hs as <-; [by split|]. split; [done|].
    intros h1 a1 Ha1. simpl in Ha1. apply lookup_delete_Some in Ha1 as [_ ?]. eauto.
  - destruct (decide (pc (thread_at w t) = CheckClosed)) as [E|E].
    + unfold run_step in Hs. rewrite E in Hs. destruct (stripe (thread_at w t)); injection Hs as <-; by rewrite Hc.
    + destruct (quiet_run_step w t w1 Hi Hs E) as (H1 & _ & H2 & _). split; [auto|].
      intros h1 a1 Ha1. destruct (admitted a1) eqn:Hadm; [|done]. destruct (H2 Hc h1 a1 Ha1 Hadm) as (a0 & Ha0 & Hadm0 & _).
      by rewrite (Hnone _ _ Ha0) in Hadm0.
  - by injection Hs as <-.
  - case_match; [done|]. by injection Hs as <-.
  - destruct (scans w !! s') as [[p b]|]; [|done]. simpl in Hs. destruct p; try done. by injection Hs as <-.
Qed.
End ActivityInv.

(** ** What shutdown may rely on *)
Module ActivityTheorems.
Import Activity ActivityInv.

(** C14: a drained cache has no admitted work. Whatever threads did before,
    and whatever they do during it: when a pass of [drained] that began after
    [close] has read all the counters as zero, every reservation that was ever
    admitted has been released, no reservation is admitted from then on, and the
    counters are exactly the numbers of live reservations. *)
Theorem drain_excludes_admitted ls w ls' w' s b ls'' w'' :
  execute initial ls = Some w → closing w = true → scans w !! s = None →
  execute w ls' = Some w' → scans w' !! s = Some (mkScan Clear b) →
  execute w' ls'' = Some w'' →
  (∀ h a, holds w' !! h = Some a → admitted a = false) ∧
  (∀ h a, holds w'' !! h = Some a → admitted a = false) ∧
  (∀ i c, count w'' i c = Z.of_nat (size (filter (λ x : nat * Hold, position x.2 = i ∧ counted x.2 = c) (holds w'')))).
Proof.
  intros He Hc Hs He' Hclear He''. assert (inv w) as Hi by (eapply inv_execute, He; apply inv_initial).
  destruct (scan_ok_execute w ls' w' s) as [Hi' [Hc' Hok]]; [done|by apply scan_ok_start|done|].
  destruct (Hok _ Hclear) as (_ & Hp & _). simpl in Hp.
  assert (∀ h a, holds w' !! h = Some a → admitted a = false) as Hnone.
  { intros h a Ha. destruct (admitted a) eqn:E; [|done]. by destruct (Hp h a Ha E). }
  split; [done|]. split; [intros h; by eapply admitted_closed|].
  intros i c. assert (inv w'') as Hi'' by by eapply inv_execute.
  destruct (Hi'' O) as [(_ & _ & _ & Hcount) _]. rewrite Hcount. unfold tally.
  generalize (holds w''). intros m. induction m as [|h a m Hm IH] using map_ind; [by rewrite msum_empty|].
  rewrite msum_insert, IH by done. unfold at_counter. case_decide as E.
  - rewrite map_filter_insert_True, map_size_insert_None by (done || by rewrite map_lookup_filter_None; auto). lia.
  - rewrite map_filter_insert_False by done. rewrite delete_id by done. lia.
Qed.

(** Shutdown does not sleep through the last release. A pass that began
    after [close] and went to sleep because it read a counter as positive is
    woken: as long as it has not been, that counter is still positive or a
    releasing thread is about to look at [closing] and wake every pass; in
    particular it has been woken once no reservation is left and no thread is
    in the middle of a release. *)
Theorem drain_never_misses_a_release ls w ls' w' s i c b :
  execute initial ls = Some w → closing w = true → scans w !! s = None →
  execute w ls' = Some w' → scans w' !! s = Some (mkScan (Found i c) b) →
  (b = false → count w' i c ≠ 0 ∨ ∃ t, pc (thread_at w' t) = CheckClosed) ∧
  (holds w' = ∅ → (∀ t, pc (thread_at w' t) ≠ CheckClosed) → b = true).
Proof.
  intros He Hc Hs He' Hf. assert (inv w) as Hi by (eapply inv_execute, He; apply inv_initial).
  destruct (scan_ok_execute w ls' w' s) as [Hi' [Hc' Hok]]; [done|by apply scan_ok_start|done|].
  destruct (Hok _ Hf) as (_ & _ & Hw). simpl in Hw. split; [intros ->; by apply Hw|].
  intros Hempty Hpc. destruct b; [done|]. destruct (Hw i c eq_refl eq_refl) as [Hne|[t Ht]]; [|by destruct (Hpc t)].
  destruct Hne. destruct (Hi' O) as [(_ & _ & _ & Hcount) _]. rewrite Hcount. unfold tally. by rewrite Hempty, msum_empty.
Qed.

(** A thread works through [close]; a first pass finds its count and sleeps; it
    leaves and wakes that pass; a second pass finds nothing. *)
Definition before_close : list Label :=
  [Inline 0] ++ repeat (Run 0) 5 ++ [Admit 0; InlineOwned 5; Run 5; Run 5; Release 3 1; Run 3; Close].
Definition asleep : list Label := [Subscribe 7; Look 7; Look 7; Look 7].
Definition until_drained : list Label :=
  asleep ++ [Release 0 0; Run 0; Run 0; Run 0; Subscribe 8] ++ repeat (Look 8) 128.
Definition world_of (ls : list Label) : World := default initial (execute initial ls).

Lemma drain_excludes_admitted_witness :
  let w := world_of before_close in let w' := world_of (before_close ++ until_drained) in
  holds w = {[O := mkHold 0 true 1 Local true]} ∧
  ∀ h a, holds w' !! h = Some a → admitted a = false.
Proof.
  assert (execute initial before_close = Some (world_of before_close)) as H1 by (vm_compute; reflexivity).
  assert (execute (world_of before_close) until_drained = Some (world_of (before_close ++ until_drained))) as H2
    by (vm_compute; reflexivity).
  assert (closing (world_of before_close) = true) as H3 by (vm_compute; reflexivity).
  assert (scans (world_of before_close) !! 8%nat = None) as H4 by (vm_compute; reflexivity).
  assert (scans (world_of (before_close ++ until_drained)) !! 8%nat = Some (mkScan Clear false)) as H5 by (vm_compute; reflexivity).
  assert (holds (world_of before_close) = {[O := mkHold 0 true 1 Local true]}) as H6 by (vm_compute; reflexivity).
  refine (conj H6 _).
  apply (drain_excludes_admitted _ _ _ _ 8%nat false [] _ H1 H3 H4 H2 H5 eq_refl).
Defined.

Lemma drain_never_misses_a_release_witness :
  let w' := world_of (before_close ++ asleep) in
  count w' 1 Local ≠ 0 ∨ ∃ t, pc (thread_at w' t) = CheckClosed.
Proof.
  assert (execute initial before_close = Some (world_of before_close)) as H1 by (vm_compute; reflexivity).
  assert (execute (world_of before_close) asleep = Some (world_of (before_close ++ asleep))) as H2 by (vm_compute; reflexivity).
  assert (closing (world_of before_close) = true) as H3 by (vm_compute; reflexivity).
  assert (scans (world_of before_close) !! 7%nat = None) as H4 by (vm_compute; reflexivity).
  assert (scans (world_of (before_close ++ asleep)) !! 7%nat = Some (mkScan (Found 1 Local) false)) as H5 by (vm_compute; reflexivity).
  by apply (drain_never_misses_a_release _ _ _ _ 7%nat 1 Local false H1 H3 H4 H2 H5).
Defined.
End ActivityTheorems.
