(* ===== verification/Execution.v ===== *)
(** * Execution scopes

    Models the scope of [src/src/execution.rs] that owns a suspended operation:
    [Execution::poll_work], [PollLease::drop], [CancelWork::cancel for Scope],
    [Execution::cancel] and [Execution::drop].

    A step is one critical section of the state mutex, one access of the
    request's state or of [closing], or one stretch of user code (a poll, a
    destructor). The owner of the execution polls and drops it; any number of
    other threads, and the polled code itself, cancel it. Wakers, the listeners
    of the request and the task tracker are left out; destructors of user work
    return. *)
From S2P Require Import Prelude Cancellation.

Module Scope.
Inductive State :=
| Pending
| Polling (cancellation : option CancellationReason)
| SCancelled (reason : CancellationReason)
| Completed.
#[export] Instance State_eq_dec : EqDecision State.
Proof. solve_decision. Defined.

(** Where a [cancel] of a source, [RequestOwner::cancel_with], stands: about to
    read the terminal reason, or to exchange. *)
Inductive Publish := ReadTerminal (r : CancellationReason) | Exchange (r : CancellationReason).
#[export] Instance Publish_eq_dec : EqDecision Publish.
Proof. solve_decision. Defined.

(** A [CancelWork::cancel]: reading the terminal reason, entering the state
    mutex, publishing the recorded reason, destroying the work if it took it. *)
Inductive Canceller :=
| K_Start (r : CancellationReason)
| K_Lock (r : CancellationReason)
| K_Publish (p : Publish) (work : bool)
| K_Retire (work : bool)
| K_Done.
#[export] Instance Canceller_eq_dec : EqDecision Canceller.
Proof. solve_decision. Defined.

(** What a poll returned: the work's own result, [OperationCancelled], or
    nothing yet. *)
Inductive Returned := R_Value | R_Cancelled (r : CancellationReason) | R_Pending.
#[export] Instance Returned_eq_dec : EqDecision Returned.
Proof. solve_decision. Defined.

(** The owner of the [Execution]. *)
Inductive Owner :=
| O_Idle
| O_Lock
| O_User
| O_Decide (ready : bool)
| O_Publish (p : Publish) (cancellation : option CancellationReason)
| O_Retire (cancellation : option CancellationReason)
| O_Refused (p : Publish) (r : CancellationReason)
| O_Unwind
| O_Lease
| O_LeaseActive
| O_LeasePublish (p : Publish)
| O_Drop
| O_DropActive
| O_Dropping (k : Canceller)
| O_Gone
| O_Panicked.
#[export] Instance Owner_eq_dec : EqDecision Owner.
Proof. solve_decision. Defined.

(** [destroyed]: what the token
    said each time the work was destroyed, and whether by unwinding. *)
Record World := mkWorld {
  closed : bool;
  request : Z;
  state : State;
  owner : Owner;
  cancellers : gmap nat Canceller;
  destroyed : list (option CancellationReason * bool);
  returned : list Returned;
}.
#[export] Instance eta_World : Eta World := λ w,
  mkWorld (closed w) (request w) (state w) (owner w) (cancellers w) (destroyed w) (returned w).

(** [terminal_reason]: a scope's source is not bound to a cache ([promote]). *)
Definition reason (w : World) : option CancellationReason := terminal_reason false (closed w) (request w).

(** [PollLease::drop] reads [closing] inside its critical section. *)
Definition locked (w : World) : bool := bool_decide (owner w = O_LeaseActive).

(** [RequestOwner::cancel_with], one access at a time. *)
Definition publish_step (p : Publish) (w : World) : option Publish * World :=
  match p with
  | ReadTerminal r => (Some (Exchange (default r (reason w))), w)
  | Exchange r => (None, w <| request := (publish (request w) r).2 |>)
  end.

(** The user's work is destroyed. *)
Definition destroy (unwinding : bool) (w : World) : World :=
  w <| destroyed := destroyed w ++ [(reason w, unwinding)] |>.

(** [CancelWork::cancel]'s critical section: the new state, whether the work was
    taken, and the reason to publish. *)
Definition cancel_locked (s : State) (r : CancellationReason) : State * bool * CancellationReason :=
  match s with
  | Pending => (SCancelled r, true, r)
  | Polling c => (Polling (Some (default r c)), false, default r c)
  | SCancelled recorded => (s, false, recorded)
  | Completed => (s, false, ScopeFinished)
  end.

Definition cancel_step (k : Canceller) (w : World) : option (Canceller * World) :=
  match k with
  | K_Start r => Some (K_Lock (default r (reason w)), w)
  | K_Lock r =>
      if locked w then None else
      let '(s, work, recorded) := cancel_locked (state w) r in
      Some (K_Publish (ReadTerminal recorded) work, w <| state := s |>)
  | K_Publish p work =>
      let '(p', w') := publish_step p w in
      Some (match p' with Some p' => K_Publish p' work | None => K_Retire work end, w')
  | K_Retire work => Some (K_Done, if work then destroy false w else w)
  | K_Done => None
  end.

Definition return_ (r : Returned) (w : World) : World :=
  w <| returned := returned w ++ [r] |> <| owner := O_Idle |>.

(** [drop_reason], after its load of the request's state. *)
Definition drop_reason_active (w : World) : CancellationReason :=
  if closed w then CacheShutdown else CallerDropped.

(** What the work does when polled. *)
Inductive Label :=
| Close | CancelSource (r : CancellationReason)
| StartCancel (k : nat) (r : CancellationReason) | RunCancel (k : nat)
| Poll | Drop | Run | UserReturns (ready : bool) | UserPanics.

Definition run_owner (w : World) : option World :=
  match owner w with
  | O_Lock =>
      Some match state w with
           | SCancelled r => w <| owner := O_Refused (ReadTerminal r) r |>
           | Completed | Polling _ => w <| owner := O_Panicked |>
           | Pending => w <| state := Polling None |> <| owner := O_User |>
           end
  | O_Refused p r =>
      let '(p', w') := publish_step p w in
      Some (match p' with Some p' => w' <| owner := O_Refused p' r |> | None => return_ (R_Cancelled r) w' end)
  | O_Decide ready =>
      match state w with
      | Polling c =>
          let cancellation := match c with Some r => Some r | None => if closed w then Some CacheShutdown else None end in
          Some match cancellation, ready with
               | None, false => return_ R_Pending (w <| state := Pending |>)
               | None, true =>
                   w <| state := Completed |> <| owner := O_Publish (ReadTerminal ScopeFinished) None |>
               | Some r, _ =>
                   w <| state := SCancelled r |> <| owner := O_Publish (ReadTerminal r) (Some r) |>
               end
      | _ => Some (w <| owner := O_Panicked |>)
      end
  | O_Publish p c =>
      let '(p', w') := publish_step p w in
      Some (w' <| owner := match p' with Some p' => O_Publish p' c | None => O_Retire c end |>)
  | O_Retire c => Some (return_ (match c with Some r => R_Cancelled r | None => R_Value end) (destroy false w))
  | O_Unwind => Some (destroy true w <| owner := O_Lease |>)
  | O_Lease =>
      Some (match state w with
            | Polling (Some r) => w <| state := SCancelled r |> <| owner := O_LeasePublish (ReadTerminal r) |>
            | Polling None =>
                match recorded_reason (request w) with
                | Some r => w <| state := SCancelled r |> <| owner := O_LeasePublish (ReadTerminal r) |>
                | None => w <| owner := O_LeaseActive |>
                end
            | _ => w <| owner := O_Gone |>
            end)
  | O_LeaseActive =>
      let r := drop_reason_active w in
      Some (w <| state := SCancelled r |> <| owner := O_LeasePublish (ReadTerminal r) |>)
  | O_LeasePublish p =>
      let '(p', w') := publish_step p w in
      Some (w' <| owner := match p' with Some p' => O_LeasePublish p' | None => O_Gone end |>)
  | O_Drop =>
      Some (w <| owner := match recorded_reason (request w) with
                          | Some r => O_Dropping (K_Start r)
                          | None => O_DropActive
                          end |>)
  | O_DropActive => Some (w <| owner := O_Dropping (K_Start (drop_reason_active w)) |>)
  | O_Dropping k =>
      match cancel_step k w with
      | Some (k', w') => Some (w' <| owner := O_Dropping k' |>)
      | None => Some (w <| owner := O_Gone |>)
      end
  | O_Idle | O_User | O_Gone | O_Panicked => None
  end.

Definition step (w : World) (l : Label) : option World :=
  match l with
  | Close => Some (w <| closed := true |>)
  | CancelSource r => Some (w <| request := (publish (request w) r).2 |>)
  | StartCancel k r =>
      match cancellers w !! k with
      | None => Some (w <| cancellers := <[k := K_Start r]> (cancellers w) |>)
      | Some _ => None
      end
  | RunCancel k =>
      c ← cancellers w !! k;
      '(c', w') ← cancel_step c w;
      Some (w' <| cancellers := <[k := c']> (cancellers w') |>)
  | Poll => match owner w with O_Idle => Some (w <| owner := O_Lock |>) | _ => None end
  | Drop => match owner w with O_Idle => Some (w <| owner := O_Drop |>) | _ => None end
  | UserReturns ready => match owner w with O_User => Some (w <| owner := O_Decide ready |>) | _ => None end
  | UserPanics => match owner w with O_User => Some (w <| owner := O_Unwind |>) | _ => None end
  | Run => run_owner w
  end.

Definition initial : World := mkWorld false 0 Pending O_Idle ∅ [] [].

Fixpoint execute (w : World) (ls : list Label) : option World :=
  match ls with [] => Some w | l :: ls => w' ← step w l; execute w' ls end.
End Scope.

(** ** The invariant *)
Module ScopeInv.
Import Scope.

(** Who has the work. *)
Definition state_has (s : State) : Z := match s with Pending => 1 | _ => 0 end.
Definition canceller_has (k : Canceller) : Z :=
  match k with K_Publish _ true | K_Retire true => 1 | _ => 0 end.
Definition owner_has (o : Owner) : Z :=
  match o with
  | O_User | O_Decide _ | O_Publish _ _ | O_Retire _ | O_Unwind => 1
  | O_Dropping k => canceller_has k
  | _ => 0
  end.
Definition copies (w : World) : Z :=
  state_has (state w) + owner_has (owner w) + msum canceller_has (cancellers w)
  + Z.of_nat (length (destroyed w)).

Definition verdict (c : option CancellationReason) : State :=
  match c with Some r => SCancelled r | None => Completed end.

Definition is_polling (s : State) : bool := match s with Polling _ => true | _ => false end.

(** A canceller that has passed the critical section. *)
Definition past_lock (k : Canceller) : bool := match k with K_Start _ | K_Lock _ => false | _ => true end.

(** A state some cancellation has reached. *)
Definition struck (s : State) : bool := match s with Pending | Polling None => false | _ => true end.
Definition terminal (s : State) : bool := match s with Completed | SCancelled _ => true | _ => false end.

Definition canceller_ok (w : World) (k : Canceller) : Prop :=
  (past_lock k = true → struck (state w) = true) ∧
  match k with K_Retire _ => recorded_reason (request w) ≠ None | _ => True end.

Definition owner_ok (w : World) : Prop :=
  match owner w with
  | O_User | O_Decide _ | O_Unwind | O_Lease => is_polling (state w) = true
  | O_LeaseActive => state w = Polling None
  | O_Publish _ c => state w = verdict c
  | O_Retire c => state w = verdict c ∧ recorded_reason (request w) ≠ None
  | O_Refused _ r => state w = SCancelled r
  | O_LeasePublish _ | O_Gone => terminal (state w) = true
  | O_Dropping k => is_polling (state w) = false ∧ canceller_ok w k
  | O_Panicked => state w = Completed
  | O_Idle | O_Lock | O_Drop | O_DropActive => is_polling (state w) = false
  end ∧
  (state w = Completed →
     R_Value ∈ returned w ∨ match owner w with O_Publish _ None | O_Retire None => True | _ => False end).

Definition returned_ok (w : World) : Prop :=
  ∀ r, r ∈ returned w →
    match r with
    | R_Pending => True
    | R_Value => state w = Completed ∧ recorded_reason (request w) ≠ None
    | R_Cancelled c => state w = SCancelled c ∧ recorded_reason (request w) ≠ None
    end.

Definition inv (w : World) : Prop :=
  valid_state (request w) ∧ copies w = 1 ∧ owner_ok w ∧
  (∀ k c, cancellers w !! k = Some c → canceller_ok w c) ∧
  returned_ok w ∧ (∀ d, d ∈ destroyed w → d.2 = false → d.1 ≠ None).

(** *** Steps *)

(** Terminal states stay, and a cancellation stays recorded. *)
Definition evolves (s s' : State) : Prop :=
  (terminal s = true → s' = s) ∧ (struck s = true → struck s' = true).

Lemma evolves_refl s : evolves s s.
Proof. by split. Qed.
Lemma evolves_live s s' : terminal s = false → struck s = false ∨ struck s' = true → evolves s s'.
Proof. intros H1 H2. split; [congruence|]. intros. destruct H2; congruence. Qed.
Hint Resolve evolves_refl : core.

Lemma reason_recorded w : reason w = recorded_reason (request w).
Proof. unfold reason, terminal_reason. by destruct (recorded_reason _). Qed.

Lemma recorded_kept s r : valid_state s → recorded_reason s ≠ None → recorded_reason (publish s r).2 ≠ None.
Proof. intros Hv H. by rewrite recorded_publish. Qed.

Lemma canceller_ok_mono w w' k :
  (recorded_reason (request w) ≠ None → recorded_reason (request w') ≠ None) →
  evolves (state w) (state w') → canceller_ok w k → canceller_ok w' k.
Proof. intros Hr [_ He] [H1 H2]. split; [auto|]. destruct k; auto. Qed.

(** How one step may change a world that satisfies the invariant. *)
Lemma inv_change w w' :
  inv w → valid_state (request w') →
  (recorded_reason (request w) ≠ None → recorded_reason (request w') ≠ None) →
  evolves (state w) (state w') → copies w' = 1 → owner_ok w' →
  (∀ k c, cancellers w' !! k = Some c → cancellers w !! k = Some c ∨ canceller_ok w' c) →
  (∀ r, r ∈ returned w' → r ∈ returned w ∨
     match r with
     | R_Pending => True
     | R_Value => state w' = Completed ∧ recorded_reason (request w') ≠ None
     | R_Cancelled c => state w' = SCancelled c ∧ recorded_reason (request w') ≠ None
     end) →
  (∀ d, d ∈ destroyed w' → d ∈ destroyed w ∨ (d.2 = false → d.1 ≠ None)) → inv w'.
Proof.
  intros (Hv & Hc & Ho & Hk & Hret & Hd) Hv' Hrec Hev Hc' Ho' Hk' Hret' Hd'. split_and!; try done.
  - intros k c [Hkc|?]%Hk'; [|done]. eapply canceller_ok_mono; eauto.
  - intros r [Hr|?]%Hret'; [|done]. specialize (Hret r Hr). destruct Hev as [Hev _].
    destruct r; [..|done]; destruct Hret as [Hst Hreq]; rewrite Hst in Hev; by rewrite Hev; auto.
  - intros d [?|?]%Hd'; eauto.
Qed.

Lemma copies_cancellers w k c c' :
  cancellers w !! k = Some c →
  msum canceller_has (<[k := c']> (cancellers w)) = msum canceller_has (cancellers w) - canceller_has c + canceller_has c'.
Proof. intros Hk. by rewrite msum_insert_any, Hk. Qed.

Lemma owner_ok_mono w w' :
  (recorded_reason (request w) ≠ None → recorded_reason (request w') ≠ None) →
  evolves (state w) (state w') → is_polling (state w') = is_polling (state w) →
  (state w' = Completed → state w = Completed) → (locked w = true → state w' = state w) →
  owner w' = owner w → returned w' = returned w → owner_ok w → owner_ok w'.
Proof.
  intros Hr Hev Hp Hcomp Hl Ho Hret [H1 H2]. unfold locked in Hl. unfold owner_ok. rewrite Ho, Hret, Hp. split; [|auto].
  destruct Hev as [Hterm Hstruck].
  assert (∀ c, state w = verdict c → state w' = verdict c) as Hver
    by (intros c Hs; rewrite Hterm; [done|]; rewrite Hs; by destruct c).
  destruct (owner w) as [| | | | |c|p r| | | |p| | |k| |]; try exact H1.
  - auto.
  - destruct H1. split; auto.
  - by apply (Hver (Some r)).
  - by rewrite Hl.
  - by rewrite Hterm.
  - destruct H1. split; [done|]. by eapply canceller_ok_mono.
  - by rewrite Hterm.
  - by apply (Hver None).
Qed.

Lemma inv_publish w r : inv w → inv (w <| request := (publish (request w) r).2 |>).
Proof.
  intros Hi. pose proof Hi as (Hv & Hc & Ho & _). eapply inv_change; try done; eauto.
  - by apply valid_publish.
  - by apply recorded_kept.
  - eapply owner_ok_mono, Ho; try done. by apply recorded_kept.
Qed.

(** [publish_step] ends with the reason published. *)
Lemma publish_step_spec p w p' w' :
  inv w → publish_step p w = (p', w') →
  inv w' ∧ state w' = state w ∧ owner w' = owner w ∧ cancellers w' = cancellers w ∧ returned w' = returned w ∧
  destroyed w' = destroyed w ∧ (p' = None → recorded_reason (request w') ≠ None).
Proof.
  intros Hi Hp. destruct p; simpl in Hp; injection Hp as <- <-; [done|].
  split; [by apply inv_publish|]. split_and!; try done. intros _. simpl. by rewrite recorded_publish by apply Hi.
Qed.

Lemma cancel_locked_spec s r s' work recorded :
  cancel_locked s r = (s', work, recorded) →
  evolves s s' ∧ struck s' = true ∧ is_polling s' = is_polling s ∧ (s' = Completed → s = Completed) ∧
  state_has s = state_has s' + if work then 1 else 0.
Proof. intros H. destruct s as [|c| |]; simpl in H; injection H as <- <- <-; done. Qed.

(** One step of a cancellation, wherever its canceller is kept. *)
Lemma cancel_step_spec k w k' w' :
  inv w → canceller_ok w k → cancel_step k w = Some (k', w') →
  valid_state (request w') ∧
  (recorded_reason (request w) ≠ None → recorded_reason (request w') ≠ None) ∧
  evolves (state w) (state w') ∧ is_polling (state w') = is_polling (state w) ∧
  (state w' = Completed → state w = Completed) ∧ (locked w = true → state w' = state w) ∧ canceller_ok w' k' ∧
  owner w' = owner w ∧ cancellers w' = cancellers w ∧ returned w' = returned w ∧
  (∀ d, d ∈ destroyed w' → d ∈ destroyed w ∨ (d.2 = false → d.1 ≠ None)) ∧
  state_has (state w') + canceller_has k' + Z.of_nat (length (destroyed w')) =
  state_has (state w) + canceller_has k + Z.of_nat (length (destroyed w)).
Proof.
  intros Hi Hk Hs. pose proof Hi as (Hv & _). destruct k as [r|r|p work|work|]; simpl in Hs; [| | | |done].
  - injection Hs as <- <-. by split_and!; auto.
  - destruct (locked w) eqn:Hlk; [done|]. destruct (cancel_locked (state w) r) as [[s' work] recorded] eqn:Hl.
    injection Hs as <- <-. destruct (cancel_locked_spec _ _ _ _ _ Hl) as (He & Hst & Hp & Hc & Hh). simpl.
    split_and!; auto; [done|by split|]. destruct work; simpl in *; lia.
  - destruct (publish_step p w) as [p' w1] eqn:Hp. injection Hs as <- <-.
    destruct (publish_step_spec _ _ _ _ Hi Hp) as (Hi1 & Hst & Ho & Hc & Hret & Hd & Hpub).
    rewrite Hst, Ho, Hc, Hret, Hd. split_and!; auto.
    + apply Hi1.
    + destruct p; simpl in Hp; injection Hp as <- <-; [done|]. by apply recorded_kept.
    + destruct Hk as [Hk _]. destruct p'; (split; [intros _; rewrite Hst; by apply Hk|]); [done|by apply Hpub].
    + by destruct p'.
  - injection Hs as <- <-. destruct Hk as [Hk1 Hk2]. destruct work; [|by split_and!; auto].
    simpl. split_and!; auto.
    + by split.
    + intros d. rewrite elem_of_app, list_elem_of_singleton. intros [? | ->]; [by left|right]. intros _. simpl.
      by rewrite reason_recorded.
    + rewrite length_app. simpl. lia.
Qed.

Lemma inv_run_cancel w k c c' w' :
  inv w → cancellers w !! k = Some c → cancel_step c w = Some (c', w') →
  inv (w' <| cancellers := <[k := c']> (cancellers w') |>).
Proof.
  intros Hi Hk Hs. pose proof Hi as (Hv & Hcop & Ho & Hcs & _).
  destruct (cancel_step_spec _ _ _ _ Hi (Hcs _ _ Hk) Hs) as (? & ? & ? & ? & ? & ? & Hok & How & Hc & Hret & Hd & Hcount).
  eapply inv_change; [exact Hi|done|done|done| | | | |done].
  - unfold copies in *. simpl. rewrite How, Hc, (copies_cancellers w k c) by done. lia.
  - by eapply owner_ok_mono, Ho.
  - simpl. rewrite Hc. intros k0 c0. rewrite lookup_insert_Some. intros [[<- <-]|[? ?]]; auto.
  - simpl. rewrite Hret. auto.
Qed.

(** The owner moves, and perhaps the state, while nobody is cancelled. *)
Lemma inv_owner w w' :
  inv w → request w' = request w → evolves (state w) (state w') →
  cancellers w' = cancellers w → destroyed w' = destroyed w →
  state_has (state w') + owner_has (owner w') = state_has (state w) + owner_has (owner w) →
  owner_ok w' →
  (∀ r, r ∈ returned w' → r ∈ returned w ∨
     match r with
     | R_Pending => True
     | R_Value => state w' = Completed ∧ recorded_reason (request w') ≠ None
     | R_Cancelled c => state w' = SCancelled c ∧ recorded_reason (request w') ≠ None
     end) → inv w'.
Proof.
  intros Hi Hreq Hev Hc Hd Hcount Ho Hr. pose proof Hi as (Hv & Hcop & _).
  eapply inv_change; [exact Hi|by rewrite Hreq|by rewrite Hreq|done| |done| |done|].
  - unfold copies in *. rewrite Hc, Hd. lia.
  - rewrite Hc. auto.
  - rewrite Hd. auto.
Qed.

Lemma inv_destroy w b : inv w → (b = false → recorded_reason (request w) ≠ None) →
  ∀ d, d ∈ destroyed (destroy b w) → d ∈ destroyed w ∨ (d.2 = false → d.1 ≠ None).
Proof.
  intros Hi Hb d. simpl. rewrite elem_of_app, list_elem_of_singleton.
  intros [? | ->]; [by left|right]. simpl. rewrite reason_recorded. auto.
Qed.

(** The owner goes on publishing: only its place and the request change. *)
Lemma inv_owner_publish w p p' w1 o :
  inv w → publish_step p w = (p', w1) → owner_has o = owner_has (owner w) →
  owner_ok (w1 <| owner := o |>) → inv (w1 <| owner := o |>).
Proof.
  intros Hi Hp Hh Ho. destruct (publish_step_spec _ _ _ _ Hi Hp) as (Hi1 & Hst & How & Hc & Hret & Hd & _).
  eapply inv_owner; try done; simpl; [|by auto]. rewrite Hh. by rewrite How.
Qed.

Lemma terminal_verdict c : terminal (verdict c) = true.
Proof. by destruct c. Qed.

Lemma copies_state w : inv w → state_has (state w) + owner_has (owner w) ≤ 1.
Proof.
  intros (_ & Hc & _). unfold copies in Hc.
  assert (0 ≤ msum canceller_has (cancellers w)); [|lia].
  apply msum_nonneg. intros k c _. destruct c as [| |? []|[]|]; simpl; lia.
Qed.

(** The owner moves by [inv_owner]: what is left is the new place's own part. *)
Ltac move_owner Hst How :=
  eapply inv_owner;
    [eassumption | done
    | simpl; rewrite ?Hst; first [apply evolves_refl | by apply evolves_live; auto]
    | done | done
    | simpl; rewrite ?Hst, ?How; try done; by case_match
    | split; simpl; rewrite ?Hst; try done
    | simpl; try by auto ].

Lemma inv_run_owner w w' : inv w → run_owner w = Some w' → inv w'.
Proof.
  intros Hi Hs. pose proof Hi as (Hv & Hcop & Ho & Hcs & Hret & Hdes). pose proof Ho as [Ho1 Ho2].
  unfold run_owner in Hs.
  destruct (owner w) as [| | |ready|p c|c|p r| | | |p| | |k| |] eqn:How; try done.
  - (* O_Lock *) injection Hs as <-. destruct (state w) as [|[r|]|r|] eqn:Hst; try done.
    + move_owner Hst How.
    + move_owner Hst How.
    + move_owner Hst How.
  - (* O_Decide *) destruct (state w) as [|c|r|] eqn:Hst; try done. simpl in Hs.
    destruct (match c with Some r => Some r | None => if closed w then Some CacheShutdown else None end)
      as [r|] eqn:Hc; [|destruct ready]; injection Hs as <-.
    + move_owner Hst How.
    + move_owner Hst How. by right.
    + assert (c = None) as -> by by destruct c. move_owner Hst How.
      intros r. rewrite elem_of_app, list_elem_of_singleton. intros [? | ->]; auto.
  - (* O_Publish *) destruct (publish_step p w) as [p' w1] eqn:Hp. injection Hs as <-.
    destruct (publish_step_spec _ _ _ _ Hi Hp) as (Hi1 & Hst & How1 & Hc1 & Hret1 & Hd1 & Hpub).
    eapply inv_owner_publish; [exact Hi|exact Hp|by rewrite How; destruct p'|].
    destruct p' as [p'|]; (split; simpl; rewrite Hst; [|rewrite Hret1; intros Hcomp; destruct (Ho2 Hcomp); [by left|by right]]);
      [done|]. split; [done|]. by apply Hpub.
  - (* O_Retire *) injection Hs as <-. destruct Ho1 as [Hst Hrec].
    eapply inv_change; [exact Hi|done|done|apply evolves_refl| | |by left| |].
    + unfold copies in *. simpl. rewrite How in Hcop. simpl in Hcop. rewrite length_app. simpl. lia.
    + split; simpl; [rewrite Hst; by destruct c|]. intros Hcomp. left. rewrite Hcomp in Hst. destruct c; [done|].
      rewrite elem_of_app, list_elem_of_singleton. by right.
    + intros r. simpl. rewrite elem_of_app, list_elem_of_singleton. intros [? | ->]; [by left|right]. by destruct c.
    + apply inv_destroy; [done|]. auto.
  - (* O_Refused *) destruct (publish_step p w) as [p' w1] eqn:Hp. injection Hs as <-.
    destruct (publish_step_spec _ _ _ _ Hi Hp) as (Hi1 & Hst & How1 & Hc1 & Hret1 & Hd1 & Hpub). destruct p' as [p'|].
    + eapply inv_owner_publish; [exact Hi|exact Hp|by rewrite How|]. split; simpl; rewrite Hst; [done|]. by rewrite Ho1.
    + rewrite How in How1. move_owner Hst How1; [by rewrite Ho1|by rewrite Ho1|].
      intros r'. rewrite elem_of_app, list_elem_of_singleton. intros [? | ->]; [by left|right]. rewrite Hst. auto.
  - (* O_Unwind *) injection Hs as <-. eapply inv_change; [exact Hi|done|done|apply evolves_refl| | |by left|by left|].
    + unfold copies in *. simpl. rewrite How in Hcop. simpl in Hcop. rewrite length_app. simpl. lia.
    + split; simpl; [done|]. intros Hcomp. by rewrite Hcomp in Ho1.
    + by apply inv_destroy.
  - (* O_Lease *) injection Hs as <-. destruct (state w) as [|[r|]|r|] eqn:Hst; try done; [by move_owner Hst How|].
    destruct (recorded_reason (request w)) as [r|] eqn:Hr; by move_owner Hst How.
  - (* O_LeaseActive *) injection Hs as <-. destruct (state w) as [|c|r|] eqn:Hst; try done. by move_owner Hst How.
  - (* O_LeasePublish *) destruct (publish_step p w) as [p' w1] eqn:Hp. injection Hs as <-.
    destruct (publish_step_spec _ _ _ _ Hi Hp) as (Hi1 & Hst & How1 & Hc1 & Hret1 & Hd1 & Hpub).
    eapply inv_owner_publish; [exact Hi|exact Hp|by rewrite How; destruct p'|].
    split; simpl; rewrite Hst; [by destruct p'|]. rewrite Hret1. intros Hcomp. destruct (Ho2 Hcomp) as [?|[]]. by left.
  - (* O_Drop *) injection Hs as <-. move_owner How How.
    + destruct (recorded_reason (request w)); [by split|done].
    + intros Hcomp. destruct (Ho2 Hcomp) as [?|[]]. by left.
  - (* O_DropActive *) injection Hs as <-. by move_owner How How.
  - (* O_Dropping *) destruct Ho1 as [Hpoll Hk]. destruct (cancel_step k w) as [[k' w1]|] eqn:Hstep; injection Hs as <-.
    + destruct (cancel_step_spec _ _ _ _ Hi Hk Hstep) as (? & ? & ? & Hp & Hcomp & Hlk & Hok & How1 & Hc & Hret1 & Hd & Hcount).
      eapply inv_change; [exact Hi|done|done|done| | | | |done].
      * unfold copies in *. rewrite How in Hcop. simpl in *. rewrite Hc. lia.
      * split; simpl; [split; [by rewrite Hp|done]|]. rewrite Hret1. intros Hcomp'.
        destruct (Ho2 (Hcomp Hcomp')) as [?|[]]. by left.
      * simpl. rewrite Hc. auto.
      * simpl. rewrite Hret1. auto.
    + destruct k as [|r|p work|work|]; simpl in Hstep; try done.
      * unfold locked in Hstep. rewrite How in Hstep. simpl in Hstep. by destruct (cancel_locked (state w) r) as [[]].
      * by destruct (publish_step p w).
      * destruct Hk as [Hk _]. specialize (Hk eq_refl). move_owner How How.
        by destruct (state w) as [|[]| |].
Qed.

Lemma execution_inv_step w l w' : inv w → step w l = Some w' → inv w'.
Proof.
  intros Hi Hs. pose proof Hi as (Hv & Hcop & Ho & Hcs & Hret & Hdes). pose proof Ho as [Ho1 Ho2].
  destruct l as [|r|k r|k| | | |ready|]; simpl in Hs.
  - injection Hs as <-. by split_and!.
  - injection Hs as <-. by apply inv_publish.
  - destruct (cancellers w !! k) eqn:Hk; [done|]. injection Hs as <-.
    eapply inv_change; [exact Hi|done|done|apply evolves_refl| |done| |by left|by left].
    + unfold copies in *. simpl. rewrite msum_insert by done. simpl. lia.
    + intros k0 c0. simpl. rewrite lookup_insert_Some. intros [[<- <-]|[? ?]]; [by right|by left].
  - destruct (cancellers w !! k) as [c|] eqn:Hk; [|done]. simpl in Hs.
    destruct (cancel_step c w) as [[c' w1]|] eqn:Hc; [|done]. injection Hs as <-. by eapply inv_run_cancel.
  - destruct (owner w) eqn:How; try done. injection Hs as <-. by move_owner How How.
  - destruct (owner w) eqn:How; try done. injection Hs as <-. by move_owner How How.
  - by eapply inv_run_owner.
  - destruct (owner w) eqn:How; try done. injection Hs as <-. by move_owner How How.
  - destruct (owner w) eqn:How; try done. injection Hs as <-. by move_owner How How.
Qed.

Lemma execution_inv_initial : inv initial.
Proof.
  split; [by left|]. split; [done|]. split; [by split|]. split; [done|]. split; [|intros d Hd; by apply elem_of_nil in Hd].
  intros r Hr. by apply elem_of_nil in Hr.
Qed.

Lemma execution_inv_execute w ls w' : inv w → execute w ls = Some w' → inv w'.
Proof.
  revert w. induction ls as [|l ls IH]; simpl; intros w Hi He; [by injection He as <-|].
  destruct (step w l) as [w1|] eqn:Hs; [|done]. by eapply IH, He; eapply execution_inv_step.
Qed.

(** *** Cancellations are final *)

(** The scope has been cancelled for [r]: terminally, or while it is polled. *)
Definition cancelled_for (r : CancellationReason) (s : State) : bool :=
  match s with
  | SCancelled r' | Polling (Some r') => bool_decide (r' = r)
  | _ => false
  end.

Lemma cancelled_for_step w l w' r :
  inv w → step w l = Some w' → cancelled_for r (state w) = true → cancelled_for r (state w') = true.
Proof.
  intros Hi Hs Hr. pose proof Hi as (_ & _ & Ho & _).
  assert (Hcan : ∀ k k' w1, cancel_step k w = Some (k', w1) → cancelled_for r (state w1) = true).
  { intros [r0|r0|p work|work|] k' w1 Hc; simpl in Hc.
    - by injection Hc as <- <-.
    - destruct (locked w); [done|]. destruct (state w) as [|[r1|]|r1|]; simpl in *; try done; by injection Hc as <- <-.
    - destruct (publish_step p w) as [p' w2] eqn:Hp. injection Hc as <- <-.
      by destruct (publish_step_spec _ _ _ _ Hi Hp) as (_ & -> & _).
    - injection Hc as <- <-. by destruct work.
    - done. }
  destruct l as [|r0|k r0|k| | | |ready|]; simpl in Hs; try (by injection Hs as <-); try (destruct (owner w); try done; by injection Hs as <-).
  - destruct (cancellers w !! k); [done|]. by injection Hs as <-.
  - destruct (cancellers w !! k) as [c|]; [|done]. simpl in Hs.
    destruct (cancel_step c w) as [[c' w1]|] eqn:Hc; [|done]. injection Hs as <-. exact (Hcan _ _ _ Hc).
  - unfold run_owner in Hs. destruct Ho as [Ho _].
    destruct (owner w) as [| | |ready|p c|c|p r0| | | |p| | |k| |]; try done.
    + injection Hs as <-. destruct (state w) as [|[r1|]|r1|] eqn:Hst; simpl; rewrite ?Hst; done.
    + destruct (state w) as [|[r1|]|r1|] eqn:Hst; try done; by injection Hs as <-.
    + destruct (publish_step p w) as [p' w1] eqn:Hp. injection Hs as <-.
      by destruct (publish_step_spec _ _ _ _ Hi Hp) as (_ & Hst & _); destruct p'; simpl; rewrite Hst.
    + by injection Hs as <-.
    + destruct (publish_step p w) as [p' w1] eqn:Hp. injection Hs as <-.
      by destruct (publish_step_spec _ _ _ _ Hi Hp) as (_ & Hst & _); destruct p'; simpl; rewrite Hst.
    + by injection Hs as <-.
    + destruct (state w) as [|[r1|]|r1|] eqn:Hst; try done; by injection Hs as <-.
    + by rewrite Ho in Hr.
    + destruct (publish_step p w) as [p' w1] eqn:Hp. injection Hs as <-.
      by destruct (publish_step_spec _ _ _ _ Hi Hp) as (_ & Hst & _); destruct p'; simpl; rewrite Hst.
    + by injection Hs as <-.
    + by injection Hs as <-.
    + destruct (cancel_step k w) as [[k' w1]|] eqn:Hc; injection Hs as <-; [exact (Hcan _ _ _ Hc)|done].
Qed.

Lemma cancelled_for_execute w ls w' r :
  inv w → execute w ls = Some w' → cancelled_for r (state w) = true → cancelled_for r (state w') = true.
Proof.
  revert w. induction ls as [|l ls IH]; simpl; intros w Hi He Hr; [by injection He as <-|].
  destruct (step w l) as [w1|] eqn:Hs; [|done]. by eapply (IH w1); [eapply execution_inv_step|done|eapply cancelled_for_step].
Qed.

(** A scope of a closed cache completes no more. *)
Lemma closed_step w l w' :
  inv w → step w l = Some w' → closed w = true → state w ≠ Completed →
  closed w' = true ∧ state w' ≠ Completed.
Proof.
  intros Hi Hs Hcl Hst.
  assert (Hpub : ∀ p p' w1, publish_step p w = (p', w1) → closed w1 = true ∧ state w1 ≠ Completed)
    by (intros [] p' w1 Hp; simpl in Hp; by injection Hp as <- <-).
  assert (Hcan : ∀ k k' w1, cancel_step k w = Some (k', w1) → closed w1 = true ∧ state w1 ≠ Completed).
  { intros [r0|r0|p work|work|] k' w1 Hc; simpl in Hc; [by injection Hc as <- <-| | | |done].
    - destruct (locked w); [done|]. destruct (state w); simpl in Hc; by injection Hc as <- <-.
    - destruct (publish_step p w) as [p' w2] eqn:Hp. injection Hc as <- <-. by eapply Hpub.
    - injection Hc as <- <-. by destruct work. }
  destruct l as [|r0|k r0|k| | | |ready|]; simpl in Hs; try (by injection Hs as <-);
    try (destruct (owner w); try done; by injection Hs as <-).
  - destruct (cancellers w !! k); [done|]. by injection Hs as <-.
  - destruct (cancellers w !! k) as [c|]; [|done]. simpl in Hs.
    destruct (cancel_step c w) as [[c' w1]|] eqn:Hc; [|done]. injection Hs as <-. exact (Hcan _ _ _ Hc).
  - unfold run_owner in Hs.
    destruct (owner w) as [| | |ready|p c|c|p r0| | | |p| | |k| |]; try done;
      try (destruct (publish_step p w) as [p' w1] eqn:Hp; injection Hs as <-; destruct p'; exact (Hpub _ _ _ Hp));
      try (injection Hs as <-; done).
    + injection Hs as <-. by destruct (state w) eqn:E; simpl; rewrite ?E.
    + rewrite Hcl in Hs. destruct (state w) as [|[r1|]|r1|] eqn:E; try done; simpl in Hs; injection Hs as <-; simpl; rewrite ?E; done.
    + destruct (state w) as [|[r1|]|r1|] eqn:E; try done; injection Hs as <-; simpl; rewrite ?E; try done.
      by destruct (recorded_reason _); simpl; rewrite ?E.
    + destruct (cancel_step k w) as [[k' w1]|] eqn:Hc; injection Hs as <-; [exact (Hcan _ _ _ Hc)|done].
Qed.

Lemma closed_execute w ls w' :
  inv w → execute w ls = Some w' → closed w = true → state w ≠ Completed → state w' ≠ Completed.
Proof.
  revert w. induction ls as [|l ls IH]; simpl; intros w Hi He Hc Hst; [by injection He as <-|].
  destruct (step w l) as [w1|] eqn:Hs; [|done]. destruct (closed_step _ _ _ Hi Hs Hc Hst).
  by eapply (IH w1); [eapply execution_inv_step|..].
Qed.
End ScopeInv.

(** ** What a scope promises *)
Module ScopeTheorems.
Import Scope ScopeInv.

(** C15: a scope retires its work exactly once, after its verdict. However
    polls, cancellations by any number of threads, the drop of the execution
    and the closing of the cache interleave: the work is destroyed at most once,
    and exactly once when the execution is gone and the cancellations under way
    have ended; unless a panic is unwinding, the token already has its terminal
    reason when the work is destroyed, and when a result is returned; a
    returned value means that the scope completed, a returned cancellation that
    it was cancelled for the reason returned; and polling panics only when the
    scope is polled again after it has returned its value. *)
Theorem scope_retires_its_work_once ls w :
  execute initial ls = Some w →
  (length (destroyed w) ≤ 1)%nat ∧
  (owner w = O_Gone → (∀ k c, cancellers w !! k = Some c → c = K_Done) → length (destroyed w) = 1%nat) ∧
  (∀ o, (o, false) ∈ destroyed w → is_Some o) ∧
  (∀ r, r ∈ returned w → r = R_Pending ∨
     is_Some (recorded_reason (request w)) ∧
     state w = match r with R_Cancelled c => SCancelled c | _ => Completed end) ∧
  (owner w = O_Panicked → R_Value ∈ returned w).
Proof.
  intros He. assert (inv w) as Hi by (eapply execution_inv_execute, He; apply execution_inv_initial).
  pose proof Hi as (_ & Hcop & [Ho1 Ho2] & _ & Hret & Hdes). pose proof (copies_state w Hi) as Hone.
  assert (0 ≤ msum canceller_has (cancellers w)) as Hm.
  { apply msum_nonneg. intros k c _. destruct c as [| |? []|[]|]; simpl; lia. }
  unfold copies in Hcop. split_and!.
  - destruct (state w), (owner w) as [| | | | | | | | | | | | |[| |? []|[]|]| |]; simpl in *; lia.
  - intros How Hdone. rewrite How in *. simpl in *.
    rewrite msum_zero in Hcop by (intros k c Hk; by rewrite (Hdone k c Hk)).
    destruct (state w); simpl in *; [done|lia..].
  - intros o Hd. specialize (Hdes _ Hd eq_refl). by destruct o.
  - intros r Hr. specialize (Hret r Hr). destruct r; [right|right|by left]; destruct Hret as [-> Hrec];
      (split; [by apply not_eq_None_Some|done]).
  - intros How. rewrite How in *. by destruct (Ho2 Ho1) as [?|[]].
Qed.

(** Cancelling is final. Once a cancellation for [r] has been recorded,
    be it while the work is being polled, whatever any thread does afterwards
    every result the scope returns is that cancellation, with that reason; and
    once its cache is closed, a scope that has not completed never returns a
    value. *)
Theorem cancellation_is_final ls w ls' w' r :
  execute initial ls = Some w → execute w ls' = Some w' →
  (cancelled_for r (state w) = true → ∀ x, x ∈ returned w' → x = R_Pending ∨ x = R_Cancelled r) ∧
  (closed w = true → state w ≠ Completed → R_Value ∉ returned w').
Proof.
  intros He He'. assert (inv w) as Hi by (eapply execution_inv_execute, He; apply execution_inv_initial).
  assert (inv w') as (_ & _ & _ & _ & Hret & _) by by eapply execution_inv_execute. split.
  - intros Hr x Hx. pose proof (cancelled_for_execute _ _ _ _ Hi He' Hr) as Hr'. specialize (Hret x Hx).
    destruct x as [|r'|]; [destruct Hret as [Hst _]; by rewrite Hst in Hr'| |by left].
    destruct Hret as [Hst _]. rewrite Hst in Hr'. simpl in Hr'. bool_to_prop. subst. by right.
  - intros Hc Hst Hx. destruct (Hret _ Hx) as [Hst' _]. by apply (closed_execute _ _ _ Hi He' Hc Hst).
Qed.

Definition world_of (ls : list Label) : World := default initial (execute initial ls).

(** The work is polled while another thread cancels it: its result is refused. *)
Definition cancelled_poll : list Label :=
  [Poll; Run; UserReturns false; Run; Poll; Run; StartCancel 3 CallerCancelled; RunCancel 3; RunCancel 3].
Definition refused : list Label :=
  [UserReturns true; Run; Run; Run; Run; RunCancel 3; RunCancel 3; RunCancel 3; Drop; Run] ++ repeat Run 6.

Lemma scope_retires_its_work_once_witness :
  let w := world_of (cancelled_poll ++ refused) in
  owner w = O_Gone ∧ length (destroyed w) = 1%nat ∧ returned w = [R_Pending; R_Cancelled CallerCancelled].
Proof.
  set (w := world_of (cancelled_poll ++ refused)).
  assert (execute initial (cancelled_poll ++ refused) = Some w) as H1 by (vm_compute; reflexivity).
  assert (owner w = O_Gone) as H2 by (vm_compute; reflexivity).
  assert (map_Forall (λ _ c, c = K_Done) (cancellers w)) as H3 by (by apply (bool_decide_unpack _); vm_compute).
  assert (returned w = [R_Pending; R_Cancelled CallerCancelled]) as H4 by (vm_compute; reflexivity).
  destruct (scope_retires_its_work_once _ w H1) as (_ & Hone & _).
  exact (conj H2 (conj (Hone H2 H3) H4)).
Defined.

Lemma cancellation_is_final_witness :
  let w := world_of cancelled_poll in
  state w = Polling (Some CallerCancelled) ∧
  ∀ x, x ∈ returned (world_of (cancelled_poll ++ refused)) → x = R_Pending ∨ x = R_Cancelled CallerCancelled.
Proof.
  set (w := world_of cancelled_poll). set (w' := world_of (cancelled_poll ++ refused)).
  assert (execute initial cancelled_poll = Some w) as H1 by (vm_compute; reflexivity).
  assert (execute w refused = Some w') as H2 by (vm_compute; reflexivity).
  assert (state w = Polling (Some CallerCancelled)) as H3 by (vm_compute; reflexivity).
  assert (cancelled_for CallerCancelled (state w) = true) as H4 by (vm_compute; reflexivity).
  destruct (cancellation_is_final _ w _ w' CallerCancelled H1 H2) as [Hfin _].
  exact (conj H3 (Hfin H4)).
Defined.
End ScopeTheorems.
