(* ===== verification/Flight.v ===== *)
(** * Single flight

    Models [src/src/single_flight.rs]: the table of active computations, their
    subscriptions and drivers, completion, cancellation and abandonment.

    A step is one critical section (of a table shard, of a flight's cell, or of
    the cell nested in the shard where the code nests them), one access of a
    flight's request or flag, or one poll of the user's work. Every agent is a
    subscription, a driver or a cancelling thread; each does one thing at a
    time, and any number of them interleave. Keys and the results of the work
    are numbers: the code only compares and moves them. Wakers, the task
    tracker and the counting of callbacks (see [Activity]) are left out, and the
    table outlives its flights. *)
From S2P Require Import Prelude Cancellation.

Module Flight.
(** The work's result; [Lease_lost] is [Error::Lease(LeaseError::Lost)], the one
    error a cancellation may leave in place. *)
Inductive Product := Value (v : nat) | Lease_lost.
#[export] Instance Product_eq_dec : EqDecision Product.
Proof. solve_decision. Defined.

(** [Panicked payload]: whether the panic is still to be delivered. *)
Inductive Terminal :=
| Owned (result : Product)
| Shared (result : Product)
| Panicked (payload : bool)
| TCancelled (reason : CancellationReason).
#[export] Instance Terminal_eq_dec : EqDecision Terminal.
Proof. solve_decision. Defined.

Inductive State := Starting | Pending | Polling | Completed (t : Terminal) | Finished.
#[export] Instance State_eq_dec : EqDecision State.
Proof. solve_decision. Defined.

Record Flight := mkFlight {
  key : nat;
  request : Z;
  subscribers : Z;
  state : State;
  runnable : bool;
  panicked : bool;
}.
#[export] Instance eta_Flight : Eta Flight := λ f,
  mkFlight (key f) (request f) (subscribers f) (state f) (runnable f) (panicked f).

(** [Completion]; [C_Cancelled] is its [Owned(Err(OperationCancelled))]. *)
Inductive Completion :=
| C_Owned (result : Product)
| C_Shared (result : Product)
| C_Panicked
| C_FollowerPanicked
| C_Cancelled (reason : CancellationReason).
#[export] Instance Completion_eq_dec : EqDecision Completion.
Proof. solve_decision. Defined.

(** What the polled work does. *)
Inductive Outcome := Ready (result : Product) | NotReady | Panics.
#[export] Instance Outcome_eq_dec : EqDecision Outcome.
Proof. solve_decision. Defined.

(** Where an agent stands.

    - [PollWork]: entering [poll_work]; [User]: polling the work outside every
      guard; [Retire] [Reason] [Publish] [Finish]: [complete]; [Inspect]: the
      work is pending, the token is read; [Suspend], [Recheck]: the work is put
      back, the token read again;
    - [CancelCell], [CancelTable]: [cancel], once its request is cancelled;
    - [After]: back from [poll_work]: a subscription's [try_complete];
    - [Abandon], [AbandonCancel], [Leave]: the rest of [Subscription::drop]. *)
Inductive Pc :=
| Rest | PollWork | User
| Retire (t : Terminal) | Reason (t : Terminal) | Publish (t : Terminal) | Finish
| Inspect | Suspend | Recheck
| CancelRequest (r : CancellationReason) | CancelCell (r : CancellationReason) | CancelTable
| After
| Abandon | AbandonCancel | Leave
| Gone | Paniced.
#[export] Instance Pc_eq_dec : EqDecision Pc.
Proof. solve_decision. Defined.

(** A subscription, with what it was given; or a driver, or a canceller. *)
Inductive Role :=
| Subscription (leader : bool) (consumed : option Completion)
| Other.
#[export] Instance Role_eq_dec : EqDecision Role.
Proof. solve_decision. Defined.

Record Agent := mkAgent { flight : nat; role : Role; pc : Pc }.
#[export] Instance eta_Agent : Eta Agent := λ a, mkAgent (flight a) (role a) (pc a).

(** [products]: history, what the work of each flight returned. *)
Record World := mkWorld {
  table : gmap nat nat;
  flights : gmap nat Flight;
  next_flight : nat;
  agents : gmap nat Agent;
  products : gmap nat Product;
}.
#[export] Instance eta_World : Eta World := λ w,
  mkWorld (table w) (flights w) (next_flight w) (agents w) (products w).

Definition set_agent (i : nat) (a : Agent) (w : World) : World := w <| agents := <[i := a]> (agents w) |>.
Definition goto (i : nat) (a : Agent) (p : Pc) (w : World) : World := set_agent i (a <| pc := p |>) w.
Definition set_flight (n : nat) (f : Flight) (w : World) : World := w <| flights := <[n := f]> (flights w) |>.

(** Removal of a table entry that is this very flight. *)
Definition unlist (n : nat) (f : Flight) (w : World) : World :=
  if decide (table w !! key f = Some n) then w <| table := delete (key f) (table w) |> else w.

(** [acquire]: join the key's flight, or start one. *)
Definition acquire (i k : nat) (w : World) : option World :=
  match agents w !! i with
  | Some _ => None
  | None =>
      match table w !! k with
      | Some n =>
          f ← flights w !! n;
          Some (set_agent i (mkAgent n (Subscription false None) Rest)
                  (set_flight n (f <| subscribers := subscribers f + 1 |>) w))
      | None =>
          let n := next_flight w in
          Some (set_agent i (mkAgent n (Subscription true None) Rest)
                  (set_flight n (mkFlight k 0 1 Starting true false)
                     (w <| table := <[k := n]> (table w) |> <| next_flight := S n |>)))
      end
  end.

(** [install], into a flight that still waits for its work. *)
Definition install (f : Flight) : Flight :=
  match state f with Starting => f <| state := Pending |> | _ => f end.

(** The terminal a completion publishes when the token has reason [r]. *)
Definition verdict (r : option CancellationReason) (t : Terminal) : Terminal :=
  match r, t with
  | Some LeaseLostReason, Owned Lease_lost => t
  | Some r, _ => TCancelled r
  | None, _ => t
  end.

(** The cell section of [complete]. *)
Definition publish_terminal (t : Terminal) (f : Flight) : Flight :=
  let t := match t with Owned v => if 1 <? subscribers f then Shared v else t | _ => t end in
  if subscribers f =? 0 then f <| state := Finished |> else f <| state := Completed t |>.

(** The cell section of [try_complete]: [None] when there is nothing yet, and
    otherwise what the subscription is given ([None]: the code panics). *)
Definition take (leader : bool) (f : Flight) : option (option Completion * Flight) :=
  match state f with
  | Completed (Owned v) => Some (Some (C_Owned v), f <| state := Finished |>)
  | Completed (Shared v) => Some (Some (C_Shared v), f)
  | Completed (Panicked payload) =>
      Some (if leader && payload then (Some C_Panicked, f <| state := Completed (Panicked false) |>)
            else (Some C_FollowerPanicked, f))
  | Completed (TCancelled r) => Some (Some (C_Cancelled r), f)
  | Finished => Some (None, f)
  | Starting | Pending | Polling => None
  end.

Definition run_agent (i : nat) (a : Agent) (f : Flight) (w : World) : option World :=
  let n := flight a in
  let reason := recorded_reason (request f) in
  match pc a with
  | PollWork =>
      match state f with
      | Pending =>
          if runnable f then Some (goto i a User (set_flight n (f <| state := Polling |> <| runnable := false |>) w))
          else Some (goto i a After w)
      | _ => Some (goto i a After w)
      end
  | Inspect => Some (goto i a match reason with Some r => Retire (TCancelled r) | None => Suspend end w)
  | Suspend => Some (goto i a Recheck (set_flight n (f <| state := Pending |>) w))
  | Recheck => Some (goto i a match reason with Some r => CancelRequest r | None => After end w)
  | Retire t => Some (goto i a (Reason t) (unlist n f w))
  | Reason t => Some (goto i a (Publish (verdict reason t)) w)
  | Publish t => Some (goto i a Finish (set_flight n (publish_terminal t f) w))
  | Finish =>
      Some (goto i a After (set_flight n (f <| request := (publish (request f) ScopeFinished).2 |>) w))
  | CancelRequest r =>
      Some (goto i a (CancelCell r) (set_flight n (f <| request := (publish (request f) r).2 |>) w))
  | CancelCell r =>
      Some (goto i a CancelTable
              match state f with
              | Starting | Pending => set_flight n (f <| state := Completed (TCancelled r) |>) w
              | _ => w
              end)
  | CancelTable => Some (goto i a After (unlist n f w))
  | After =>
      match role a with
      | Other => Some (goto i a Rest w)
      | Subscription leader _ =>
          match take leader f with
          | None => Some (goto i a Rest w)
          | Some (Some c, f') =>
              Some (set_agent i (mkAgent n (Subscription leader (Some c)) Rest) (set_flight n f' w))
          | Some (None, _) => Some (goto i a Paniced w)
          end
      end
  | Abandon =>
      if (subscribers f =? 0) && bool_decide (state f = Starting)
      then Some (goto i a AbandonCancel
                   (set_flight n (f <| state := Finished |>) (w <| table := delete (key f) (table w) |>)))
      else Some (goto i a Leave w)
  | AbandonCancel =>
      Some (goto i a Leave (set_flight n (f <| request := (publish (request f) ScopeFinished).2 |>) w))
  | Leave => Some (goto i a Gone (set_flight n (f <| runnable := true |>) w))
  | Rest | User | Gone | Paniced => None
  end.

(** [Subscription::drop], its cell section. *)
Definition leave_cell (f : Flight) : Flight * bool :=
  let f := f <| subscribers := subscribers f - 1 |> in
  let last := subscribers f =? 0 in
  let f' := match state f with Completed _ => if last then f <| state := Finished |> else f | _ => f end in
  (f', last && bool_decide (state f = Starting)).

Inductive Label :=
| Acquire (i k : nat)
| Install (i : nat)
| Drive (i n : nat)
| Cancel (i n : nat) (r : CancellationReason)
| Wake (n : nat)
| Poll (i : nat)
| TryComplete (i : nat)
| Drop (i : nat)
| Polled (i : nat) (o : Outcome)
| Run (i : nat).

(** [Wake]: every store of [true] to [runnable], by a waker or before a first
    poll. *)

(** An agent that is not yet there and what it will stand at. *)
Definition enlist (i n : nat) (p : Pc) (w : World) : option World :=
  match agents w !! i, flights w !! n with
  | None, Some _ => Some (set_agent i (mkAgent n Other p) w)
  | _, _ => None
  end.

Definition step (w : World) (l : Label) : option World :=
  match l with
  | Acquire i k => acquire i k w
  | Install i =>
      a ← agents w !! i;
      f ← flights w !! flight a;
      match role a, pc a with
      | Subscription true None, Rest => Some (set_flight (flight a) (install f) w)
      | _, _ => None
      end
  | Drive i n => enlist i n Rest w
  | Cancel i n r => enlist i n (CancelRequest r) w
  | Wake n => f ← flights w !! n; Some (set_flight n (f <| runnable := true |>) w)
  | Poll i =>
      a ← agents w !! i;
      match role a, pc a with
      | Subscription _ (Some _), _ => None
      | _, Rest => Some (goto i a PollWork w)
      | _, _ => None
      end
  | TryComplete i =>
      a ← agents w !! i;
      match role a, pc a with
      | Subscription _ None, Rest => Some (goto i a After w)
      | _, _ => None
      end
  | Drop i =>
      a ← agents w !! i;
      f ← flights w !! flight a;
      match role a, pc a with
      | Subscription _ _, Rest =>
          let '(f', abandoned) := leave_cell f in
          Some (goto i a (if abandoned then Abandon else Leave) (set_flight (flight a) f' w))
      | _, _ => None
      end
  | Polled i o =>
      a ← agents w !! i;
      f ← flights w !! flight a;
      match pc a, o with
      | User, Ready v =>
          Some (goto i a (Retire (Owned v)) (w <| products := <[flight a := v]> (products w) |>))
      | User, NotReady => Some (goto i a Inspect w)
      | User, Panics => Some (goto i a (Retire (Panicked true)) (set_flight (flight a) (f <| panicked := true |>) w))
      | _, _ => None
      end
  | Run i => a ← agents w !! i; f ← flights w !! flight a; run_agent i a f w
  end.

Definition initial : World := mkWorld ∅ ∅ O ∅ ∅.

Fixpoint execute (w : World) (ls : list Label) : option World :=
  match ls with [] => Some w | l :: ls => w' ← step w l; execute w' ls end.
End Flight.

(** ** The invariant *)
Module FlightInv.
Import Flight.

Definition live (a : Agent) : bool :=
  match role a, pc a with
  | Subscription _ _, (Abandon | AbandonCancel | Leave | Gone) => false
  | Subscription _ _, _ => true
  | Other, _ => false
  end.

Definition counts (n : nat) (a : Agent) : Z := if bool_decide (flight a = n) && live a then 1 else 0.
Definition tally (w : World) (n : nat) : Z := msum (counts n) (agents w).

(** Places that own the poll of the work, and those where it is still running. *)
Definition holds (p : Pc) : bool :=
  match p with User | Inspect | Suspend | Retire _ | Reason _ | Publish _ => true | _ => false end.
Definition works (p : Pc) : bool := match p with User | Inspect | Suspend => true | _ => false end.

Definition produced (w : World) (n : nat) (t : Terminal) : Prop :=
  match t with Owned v | Shared v => products w !! n = Some v | _ => True end.

(** What a terminal state says of the completions already given. *)
Definition agrees (s : State) (c : Completion) : Prop :=
  match s with
  | Completed (Shared v) => c = C_Shared v
  | Completed (TCancelled r) => c = C_Cancelled r
  | Completed (Panicked payload) => c = C_FollowerPanicked ∨ payload = false ∧ c = C_Panicked
  | Finished => True
  | _ => False
  end.

Definition given (w : World) (n : nat) (c : Completion) : Prop :=
  match c with C_Owned v | C_Shared v => products w !! n = Some v | _ => True end.

Definition compatible (c d : Completion) : Prop :=
  match c, d with
  | C_Shared v, C_Shared v' => v = v'
  | C_Cancelled r, C_Cancelled r' => r = r'
  | C_FollowerPanicked, (C_Panicked | C_FollowerPanicked) | C_Panicked, C_FollowerPanicked => True
  | _, _ => False
  end.

Definition listed (w : World) (n : nat) (f : Flight) : Prop := table w !! key f = Some n.
Definition cancelled (f : Flight) : Prop := recorded_reason (request f) ≠ None.

Definition agent_ok (w : World) (a : Agent) (f : Flight) : Prop :=
  (holds (pc a) = true → state f = Polling) ∧
  (works (pc a) = true → cancelled f ∨ listed w (flight a) f) ∧
  match pc a with
  | Reason t | Publish t => ¬ listed w (flight a) f ∧ produced w (flight a) t
  | Retire t => produced w (flight a) t
  | CancelCell _ => cancelled f
  | CancelTable => cancelled f ∧ state f ≠ Starting
  | _ => True
  end ∧
  match role a with
  | Subscription _ (Some c) => agrees (state f) c ∧ given w (flight a) c
  | _ => True
  end.

Definition flight_ok (w : World) (n : nat) (f : Flight) : Prop :=
  (n < next_flight w)%nat ∧ valid_state (request f) ∧ subscribers f = tally w n ∧
  match state f with
  | Starting => listed w n f
  | Pending => cancelled f ∨ listed w n f
  | Completed t => produced w n t ∧ match t with Owned _ => ¬ listed w n f ∧ subscribers f = 1 | _ => True end
  | _ => True
  end.

Definition inv (w : World) : Prop :=
  (∀ n f, flights w !! n = Some f → flight_ok w n f) ∧
  (∀ i a, agents w !! i = Some a → ∃ f, flights w !! flight a = Some f ∧ agent_ok w a f) ∧
  (∀ k n, table w !! k = Some n → ∃ f, flights w !! n = Some f ∧ key f = k) ∧
  (∀ i j a b, agents w !! i = Some a → agents w !! j = Some b → flight a = flight b →
     holds (pc a) = true → holds (pc b) = true → i = j) ∧
  (∀ i j a b l l' c d, agents w !! i = Some a → agents w !! j = Some b → flight a = flight b → i ≠ j →
     role a = Subscription l (Some c) → role b = Subscription l' (Some d) → compatible c d).

(** *** One agent and its flight move *)

(** The world after a step of agent [i] at flight [n]. *)
Definition moved (w : World) (T : gmap nat nat) (P : gmap nat Product) (n : nat) (f' : Flight) (i : nat) (a' : Agent) : World :=
  mkWorld T (<[n := f']> (flights w)) (next_flight w) (<[i := a']> (agents w)) P.

Lemma tally_moved w T P n f' i a a' m :
  agents w !! i = Some a → tally (moved w T P n f' i a') m = tally w m - counts m a + counts m a'.
Proof. intros Hi. unfold tally. simpl. by rewrite msum_insert_any, Hi. Qed.

Lemma counts_other m a : flight a ≠ m → counts m a = 0.
Proof. intros Hne. unfold counts. by rewrite bool_decide_eq_false_2. Qed.

Lemma produced_same w w' n t : products w' !! n = products w !! n → produced w n t → produced w' n t.
Proof. intros H. unfold produced. by rewrite H. Qed.
Lemma given_same w w' n c : products w' !! n = products w !! n → given w n c → given w' n c.
Proof. intros H. unfold given. by rewrite H. Qed.

(** Nothing of what an agent relies on has changed. *)
Lemma agent_ok_same w w' a f :
  table w' !! key f = Some (flight a) ↔ table w !! key f = Some (flight a) →
  products w' !! flight a = products w !! flight a → agent_ok w a f → agent_ok w' a f.
Proof.
  intros Ht Hp (H1 & H2 & H3 & H4). unfold agent_ok, listed in *. rewrite Ht. split_and!; auto.
  - destruct (pc a); try done; [by eapply produced_same| |]; (destruct H3; split; [by rewrite Ht|by eapply produced_same]).
  - destruct (role a) as [? [c|]|]; try done. destruct H4. split; eauto using given_same.
Qed.

Lemma flight_ok_same w w' n f :
  table w' !! key f = Some n ↔ table w !! key f = Some n → (next_flight w ≤ next_flight w')%nat →
  products w' !! n = products w !! n → tally w' n = tally w n → flight_ok w n f → flight_ok w' n f.
Proof.
  intros Ht Hn Hp Hc (H1 & H2 & H3 & H4). unfold flight_ok, listed in *. rewrite Hc.
  split; [lia|]. split_and!; [done|done|]. destruct (state f) as [| | |t|]; rewrite ?Ht; try done.
  destruct H4 as [H4 H5]. split; [by eapply produced_same|]. destruct t; try done. by rewrite Ht.
Qed.

Lemma inv_moved w T P n f f' i a a' :
  inv w → agents w !! i = Some a → flight a = n → flight a' = n → flights w !! n = Some f → key f' = key f →
  (∀ m k, m ≠ n → T !! k = Some m ↔ table w !! k = Some m) →
  (∀ k, T !! k = Some n → k = key f) →
  (∀ m, m ≠ n → P !! m = products w !! m) →
  let w' := moved w T P n f' i a' in
  flight_ok w' n f' → agent_ok w' a' f' →
  (∀ j b, j ≠ i → flight b = n → agent_ok w b f → (holds (pc b) = true → holds (pc a) = false) →
     agent_ok w' b f') →
  (holds (pc a') = true → holds (pc a) = true ∨ state f ≠ Polling) →
  (∀ l c j b l' d, role a' = Subscription l (Some c) → role a ≠ role a' → j ≠ i → agents w !! j = Some b →
     flight b = n → role b = Subscription l' (Some d) → agrees (state f) d → compatible c d ∧ compatible d c) →
  inv w'.
Proof.
  intros (Hf & Ha & Ht & Hu & Hc) Hi Hn Hn' Hfl Hk HT HTn HP w' Hfok Haok Hothers Hhold Hcompat.
  assert (Hrole : ∀ j b, agents w !! j = Some b → j ≠ i → flight b = n → holds (pc b) = true → holds (pc a) = false).
  { intros j b Hj Hne Hb Hh. destruct (holds (pc a)) eqn:E; [|done]. destruct Hne. eapply (Hu j i); eauto. congruence. }
  split_and!.
  - intros m g. unfold w'. simpl. rewrite lookup_insert_Some. intros [[<- <-]|[Hne Hg]]; [done|].
    eapply (flight_ok_same w), Hf, Hg; simpl; [by apply HT|done|by apply HP|].
    fold w'. unfold w'. rewrite (tally_moved _ _ _ _ _ _ a) by done. rewrite !counts_other by congruence. lia.
  - intros j b. unfold w' at 1. simpl. rewrite lookup_insert_Some. intros [[<- <-]|[Hne Hj]].
    { exists f'. rewrite Hn', lookup_insert_eq. done. }
    destruct (Ha j b Hj) as (g & Hg & Hok). destruct (decide (flight b = n)) as [Hb|Hb].
    + exists f'. rewrite Hb, lookup_insert_eq. split; [done|]. assert (g = f) as -> by congruence.
      eapply Hothers; eauto.
    + exists g. rewrite lookup_insert_ne by done. split; [done|].
      eapply agent_ok_same, Hok; simpl; [by apply HT|by apply HP].
  - intros k m Hkm. simpl in Hkm. destruct (decide (m = n)) as [->|Hne].
    + exists f'. simpl. rewrite lookup_insert_eq. split; [done|]. rewrite Hk. symmetry. by apply HTn.
    + apply HT in Hkm; [|done]. destruct (Ht _ _ Hkm) as (g & ? & ?). exists g. simpl.
      by rewrite lookup_insert_ne.
  - intros j1 j2 b1 b2. unfold w'. simpl. rewrite !lookup_insert_Some.
    assert (∀ j b, agents w !! j = Some b → i ≠ j → flight a' = flight b → holds (pc a') = true → holds (pc b) = true → False) as Hx.
    { intros j b Hj Hne Hb Hh Hhb. destruct (Hhold Hh) as [?|Hst].
      - destruct Hne. eapply (Hu i j); eauto. congruence.
      - destruct (Ha j b Hj) as (g & Hg & Hok). assert (g = f) as -> by congruence. by apply Hst, Hok. }
    intros [[<- <-]|[Hne1 Hj1]] [[<- <-]|[Hne2 Hj2]] Hfb Hh1 Hh2; [done| | |eauto].
    + exfalso. by eapply Hx.
    + exfalso. by eapply (Hx j1 b1).
  - intros j1 j2 b1 b2 l l' c d. unfold w'. simpl. rewrite !lookup_insert_Some.
    assert (∀ j b l l' c d, agents w !! j = Some b → i ≠ j → flight b = n →
              role a' = Subscription l (Some c) → role b = Subscription l' (Some d) → compatible c d ∧ compatible d c) as Hx.
    { intros j b l1 l2 c1 d1 Hj Hne Hb Hr1 Hr2. destruct (decide (role a = role a')) as [E|E].
      - split; [apply (Hc i j a b l1 l2)|apply (Hc j i b a l2 l1)]; congruence.
      - destruct (Ha j b Hj) as (g & Hg & (_ & _ & _ & Hok)). assert (g = f) as -> by congruence.
        rewrite Hr2 in Hok. destruct Hok as [Hok _]. by eapply (Hcompat l1 c1 j b l2 d1). }
    intros [[<- <-]|[Hne1 Hj1]] [[<- <-]|[Hne2 Hj2]] Hfb Hne Hr1 Hr2; [done| | |by eapply (Hc j1 j2 b1 b2 l l')].
    + destruct (Hx j2 b2 l l' c d) as [? _]; auto; congruence.
    + destruct (Hx j1 b1 l' l d c) as [_ ?]; auto; congruence.
Qed.

(** The same for an agent that only joins a flight. *)
Lemma counts_cases n a : counts n a = 0 ∨ counts n a = 1.
Proof. unfold counts. destruct (_ && _); auto. Qed.

Lemma tally_nonneg w n : 0 ≤ tally w n.
Proof. apply msum_nonneg. intros i a _. destruct (counts_cases n a); lia. Qed.

(** At one subscriber, the others are gone. *)
Lemma tally_one w n i a j b :
  tally w n ≤ 1 → agents w !! i = Some a → agents w !! j = Some b → i ≠ j → counts n a = 1 → counts n b = 0.
Proof.
  intros Ht Hi Hj Hne Ha. destruct (counts_cases n b) as [?|Hb]; [done|exfalso].
  unfold tally in Ht. assert (counts n b ≤ msum (counts n) (delete i (agents w))) as Hle.
  { apply msum_lookup_le with j; [intros ? x _; destruct (counts_cases n x); lia|]. by rewrite lookup_delete_ne. }
  rewrite (msum_delete _ _ _ a) in Hle by done. lia.
Qed.

Lemma other_ok w w' b f f' :
  agent_ok w b f → (holds (pc b) = true → state f' = Polling) → (cancelled f → cancelled f') →
  (works (pc b) = true → listed w (flight b) f → cancelled f' ∨ listed w' (flight b) f') →
  (listed w' (flight b) f' → listed w (flight b) f) →
  products w' !! flight b = products w !! flight b → (state f' = Starting → state f = Starting) →
  (∀ c, agrees (state f) c → agrees (state f') c) → agent_ok w' b f'.
Proof.
  intros (H1 & H2 & H3 & H4) Hh Hcan Hl Hl' Hp Hs Hag. split_and!; auto.
  - intros Hw. destruct (H2 Hw); [left|]; auto.
  - destruct (pc b); try done; [by eapply produced_same| | | |]; try (by apply Hcan).
    1,2: destruct H3; split; [auto|by eapply produced_same].
    destruct H3; split; auto.
  - destruct (role b) as [? [c|]|]; try done. destruct H4. split; [auto|by eapply given_same].
Qed.

(** The flight's state, table entry and subscribers stay as they are. *)
Lemma inv_soft w i a f f' p :
  inv w → agents w !! i = Some a → flights w !! flight a = Some f →
  key f' = key f → state f' = state f → subscribers f' = subscribers f → valid_state (request f') →
  (cancelled f → cancelled f') → live (a <| pc := p |>) = live a → (holds p = true → holds (pc a) = true) →
  agent_ok w (a <| pc := p |>) f' →
  inv (goto i a p (set_flight (flight a) f' w)).
Proof.
  intros Hi Ha Hf Hk Hs Hsub Hv Hcan Hlive Hhold Hok. pose proof Hi as (If & Ia & It & _).
  pose proof (If _ _ Hf) as (Hn & _ & Hcount & Hst).
  assert (∀ m, tally (moved w (table w) (products w) (flight a) f' i (a <| pc := p |>)) m = tally w m) as Ht.
  { intros m. rewrite (tally_moved _ _ _ _ _ _ a) by done. unfold counts. rewrite Hlive. simpl. lia. }
  apply (inv_moved w (table w) (products w) (flight a) f f' i a (a <| pc := p |>)); try done.
  - intros k Hkn. destruct (It _ _ Hkn) as (g & Hg & <-). congruence.
  - split_and!; [done|done|rewrite Hsub, Ht; done|].
    rewrite Hs. unfold listed. rewrite Hk, Hsub. destruct (state f); try done. destruct Hst; auto.
  - intros j b Hne Hb Hbok _. eapply other_ok; [exact Hbok|..]; rewrite ?Hs; unfold listed; simpl; rewrite ?Hk; auto.
    by apply Hbok.
  - auto.
Qed.

Lemma goto_set_flight w n f i a p : flights w !! n = Some f → goto i a p (set_flight n f w) = goto i a p w.
Proof. intros Hf. unfold goto, set_agent, set_flight. simpl. rewrite insert_id by done. by destruct w. Qed.

Lemma flight_inv_goto w i a f p :
  inv w → agents w !! i = Some a → flights w !! flight a = Some f →
  live (a <| pc := p |>) = live a → (holds p = true → holds (pc a) = true) →
  agent_ok w (a <| pc := p |>) f → inv (goto i a p w).
Proof.
  intros Hi Ha Hf Hl Hh Hok. rewrite <-(goto_set_flight w _ f) by done. eapply inv_soft; try done. by apply Hi in Hf as (_ & ? & _).
Qed.

Definition lives (a : Agent) : Z := if live a then 1 else 0.

Lemma counts_own a n : flight a = n → counts n a = lives a.
Proof. intros <-. unfold counts, lives. by rewrite bool_decide_eq_true_2. Qed.

(** What [flight_ok] asks of a state. *)
Definition state_ok (w : World) (n : nat) (f : Flight) : Prop :=
  match state f with
  | Starting => listed w n f
  | Pending => cancelled f ∨ listed w n f
  | Completed t => produced w n t ∧ match t with Owned _ => ¬ listed w n f ∧ subscribers f = 1 | _ => True end
  | _ => True
  end.

(** The flight's state changes, in the hands of one agent; the table stays. *)
Lemma inv_state w i a f f' a' :
  inv w → agents w !! i = Some a → flights w !! flight a = Some f → flight a' = flight a →
  key f' = key f → request f' = request f → subscribers f' = subscribers f - lives a + lives a' →
  state_ok w (flight a) f' → (state f' = Starting → state f = Starting) →
  (∀ c, agrees (state f) c → agrees (state f') c) →
  (state f = Polling → state f' = Polling ∨ holds (pc a) = true) →
  (holds (pc a') = true → holds (pc a) = true ∨ state f ≠ Polling) →
  agent_ok w a' f' →
  (∀ l c l' d j b, role a' = Subscription l (Some c) → role a ≠ role a' → j ≠ i → agents w !! j = Some b →
     flight b = flight a → role b = Subscription l' (Some d) → agrees (state f) d → compatible c d ∧ compatible d c) →
  inv (set_agent i a' (set_flight (flight a) f' w)).
Proof.
  intros Hi Ha Hf Hn' Hk Hr Hsub Hst Hstart Hag Hpoll Hhold Hok Hcompat. pose proof Hi as (If & Ia & It & _).
  pose proof (If _ _ Hf) as (Hn & Hv & Hcount & _).
  apply (inv_moved w (table w) (products w) (flight a) f f' i a a'); try done.
  - intros k Hkn. destruct (It _ _ Hkn) as (g & Hg & <-). congruence.
  - split_and!; [done|by rewrite Hr| |done].
    rewrite (tally_moved _ _ _ _ _ _ a), !counts_own by done. lia.
  - intros j b Hne Hb Hbok Hexcl. eapply other_ok; [exact Hbok|..]; unfold listed, cancelled; simpl; rewrite ?Hk, ?Hr; auto.
    intros Hh. destruct Hbok as [Hbp _]. destruct (Hpoll (Hbp Hh)) as [?|E]; [done|]. rewrite Hexcl in E; done.
  - intros l c j b l' d Hrole Hne Hj Hb Hfb Hrb Hagr. eapply Hcompat; eauto.
Qed.

(** A table entry that is this very flight is removed. *)
Lemma inv_unlist w i a f p :
  inv w → agents w !! i = Some a → flights w !! flight a = Some f → live (a <| pc := p |>) = live a →
  (holds p = true → holds (pc a) = true) → state f ≠ Starting →
  (cancelled f ∨ holds (pc a) = true ∧ works p = false) →
  (∀ w', products w' = products w → ¬ listed w' (flight a) f → agent_ok w' (a <| pc := p |>) f) →
  inv (goto i a p (unlist (flight a) f w)).
Proof.
  intros Hi Ha Hf Hlive Hhold Hns Hwhy Hok. unfold unlist. case_decide as Hl.
  2: { eapply flight_inv_goto; try done. by apply Hok. }
  pose proof Hi as (If & Ia & It & _). pose proof (If _ _ Hf) as (Hn & Hv & Hcount & Hst).
  set (w' := moved w (delete (key f) (table w)) (products w) (flight a) f i (a <| pc := p |>)).
  assert (goto i a p (w <| table := delete (key f) (table w) |>) = w') as ->.
  { unfold w', goto, set_agent, moved. simpl. by rewrite (insert_id (flights w)). }
  assert (¬ listed w' (flight a) f) as Hnl by (unfold listed, w'; simpl; by rewrite lookup_delete_eq).
  assert (∀ m, tally w' m = tally w m) as Htally.
  { intros m. unfold w'. rewrite (tally_moved _ _ _ _ _ _ a) by done. unfold counts. rewrite Hlive. simpl. lia. }
  apply (inv_moved w (delete (key f) (table w)) (products w) (flight a) f f i a (a <| pc := p |>)); try done.
  - intros m k Hne. rewrite lookup_delete_Some. split; [tauto|]. intros Hm. split; [|done]. intros <-. congruence.
  - intros k [_ Hkn]%lookup_delete_Some. destruct (It _ _ Hkn) as (g & Hg & <-). congruence.
  - fold w'. split_and!; [done|done|by rewrite Htally|]. destruct (state f) as [| | |t|] eqn:Es; try done.
    + left. destruct Hwhy as [?|[Hh _]]; [done|]. destruct (Ia _ _ Ha) as (g & Hg & [Hp _]).
      assert (g = f) as -> by congruence. by rewrite (Hp Hh) in Es.
    + destruct Hst as [Hpr Ho]. split; [done|]. destruct t; try done. by destruct Ho.
  - by apply Hok.
  - intros j b Hne Hb Hbok Hexcl. eapply other_ok; [exact Hbok|..]; auto.
    + apply Hbok.
    + intros Hw Hlb. destruct Hwhy as [?|[Hh _]]; [by left|]. rewrite Hexcl in Hh by (by destruct (pc b)). done.
    + rewrite Hb. done.
  - auto.
Qed.

(** A new agent, at rest, that makes its flight's subscribers grow if it is a
    subscription. *)
Lemma inv_new_agent w i a f f' :
  inv w → agents w !! i = None → flights w !! flight a = Some f →
  key f' = key f → request f' = request f → state f' = state f → subscribers f' = subscribers f + lives a →
  state_ok w (flight a) f' → holds (pc a) = false → (∀ l c, role a ≠ Subscription l (Some c)) →
  agent_ok w a f' → inv (set_agent i a (set_flight (flight a) f' w)).
Proof.
  intros (If & Ia & It & Iu & Ic) Hi Hf Hk Hr Hs Hsub Hst Hh Hrole Hok.
  pose proof (If _ _ Hf) as (Hn & Hv & Hcount & _). set (w' := set_agent i a _).
  assert (∀ m, tally w' m = tally w m + counts m a) as Ht by (intros m; unfold tally, w'; simpl; rewrite msum_insert by done; lia).
  assert (∀ j b, agents w' !! j = Some b → j = i ∧ b = a ∨ j ≠ i ∧ agents w !! j = Some b) as Hag.
  { intros j b. unfold w'. simpl. rewrite lookup_insert_Some. naive_solver. }
  split_and!.
  - intros m g. unfold w' at 1. simpl. rewrite lookup_insert_Some. intros [[<- <-]|[Hne Hg]].
    + split_and!; [done|by rewrite Hr|rewrite Ht, counts_own by done; lia|done].
    + eapply (flight_ok_same w), If, Hg; try done. rewrite Ht, counts_other by congruence. lia.
  - intros j b [[-> ->]|[Hne Hj]]%Hag.
    + exists f'. unfold w'. simpl. by rewrite lookup_insert_eq.
    + destruct (Ia j b Hj) as (g & Hg & Hbok). destruct (decide (flight b = flight a)) as [E|E].
      * exists f'. unfold w'. simpl. rewrite E, lookup_insert_eq. split; [done|]. assert (g = f) as -> by congruence.
        eapply other_ok; [exact Hbok|..]; unfold listed, cancelled; simpl; rewrite ?Hk, ?Hr, ?Hs; auto. apply Hbok.
      * exists g. unfold w'. simpl. by rewrite lookup_insert_ne.
  - intros k m Hkm. destruct (It k m Hkm) as (g & Hg & <-). destruct (decide (flight a = m)) as [<-|E].
    + exists f'. unfold w'. simpl. rewrite lookup_insert_eq. split; [done|]. rewrite Hk. congruence.
    + exists g. unfold w'. simpl. by rewrite lookup_insert_ne.
  - intros j1 j2 b1 b2 [[-> ->]|[Hne1 Hj1]]%Hag [[-> ->]|[Hne2 Hj2]]%Hag; [done|congruence..|by eapply Iu].
  - intros j1 j2 b1 b2 l l' c d [[-> ->]|[Hne1 Hj1]]%Hag [[-> ->]|[Hne2 Hj2]]%Hag Hfb Hne Hr1 Hr2;
      [done|by destruct (Hrole l c)|by destruct (Hrole l' d)|by eapply (Ic j1 j2 b1 b2)].
Qed.

(** A new flight, with its leader. *)
Lemma inv_new_flight w i k :
  inv w → agents w !! i = None → table w !! k = None →
  inv (set_agent i (mkAgent (next_flight w) (Subscription true None) Rest)
         (set_flight (next_flight w) (mkFlight k 0 1 Starting true false)
            (w <| table := <[k := next_flight w]> (table w) |> <| next_flight := S (next_flight w) |>))).
Proof.
  intros (If & Ia & It & Iu & Ic) Hi Hk. set (n := next_flight w). set (a := mkAgent _ _ _). set (f := mkFlight _ _ _ _ _ _).
  assert (flights w !! n = None) as Hn.
  { destruct (flights w !! n) as [g|] eqn:E; [|done]. destruct (If _ _ E). lia. }
  assert (∀ m g, flights w !! m = Some g → m ≠ n) as Hold by (intros m g Hm ->; congruence).
  assert (∀ j b, agents w !! j = Some b → flight b ≠ n) as Hno.
  { intros j b Hj. destruct (Ia j b Hj) as (g & Hg & _). eauto. }
  set (w' := set_agent i a _).
  assert (∀ m, tally w' m = tally w m + counts m a) as Ht by (intros m; unfold tally, w'; simpl; rewrite msum_insert by done; lia).
  assert (∀ m k', m ≠ n → table w' !! k' = Some m ↔ table w !! k' = Some m) as Htab.
  { intros m k' Hm. unfold w'. simpl. rewrite lookup_insert_Some. split; [naive_solver|].
    intros Hkm. right. split; [|done]. intros <-. congruence. }
  assert (∀ j b, agents w' !! j = Some b → j = i ∧ b = a ∨ j ≠ i ∧ agents w !! j = Some b) as Hag.
  { intros j b. unfold w'. simpl. rewrite lookup_insert_Some. naive_solver. }
  split_and!.
  - intros m g. unfold w' at 1. simpl. rewrite lookup_insert_Some. intros [[<- <-]|[Hne Hg]].
    + split_and!; [unfold w'; simpl; lia|by left| |].
      * rewrite Ht, counts_own by done. unfold tally. rewrite msum_zero; [done|].
        intros j b Hj. apply counts_other. eauto.
      * unfold listed, w'. simpl. apply lookup_insert_eq.
    + eapply (flight_ok_same w), If, Hg; [by apply Htab|unfold w'; simpl; lia|done|].
      rewrite Ht, counts_other by done. lia.
  - intros j b [[-> ->]|[Hne Hj]]%Hag.
    + exists f. unfold w'. simpl. rewrite lookup_insert_eq. split; [done|]. by split_and!.
    + destruct (Ia j b Hj) as (g & Hg & Hbok). exists g. unfold w' at 1. simpl.
      rewrite lookup_insert_ne by (by apply not_eq_sym, (Hold _ g)). split; [done|].
      eapply (agent_ok_same w); [apply Htab; eauto|done|done].
  - intros k' m. destruct (decide (m = n)) as [->|Hm].
    + intros Hkm. exists f. unfold w'. simpl. rewrite lookup_insert_eq. split; [done|].
      unfold w' in Hkm. simpl in Hkm. apply lookup_insert_Some in Hkm as [[-> _]|[_ Hkm]]; [done|].
      destruct (It _ _ Hkm) as (g & Hg & _). by destruct (Hold _ _ Hg).
    + intros Hkm%Htab; [|done]. destruct (It _ _ Hkm) as (g & Hg & ?). exists g. unfold w'. simpl.
      by rewrite lookup_insert_ne by (by apply not_eq_sym).
  - intros j1 j2 b1 b2 [[-> ->]|[Hne1 Hj1]]%Hag [[-> ->]|[Hne2 Hj2]]%Hag; [done|by intros ? [=]..|by eapply Iu].
  - intros j1 j2 b1 b2 l l' c d [[-> ->]|[Hne1 Hj1]]%Hag [[-> ->]|[Hne2 Hj2]]%Hag Hfb Hne Hr1 Hr2;
      [done|by destruct l|by destruct l'|by eapply (Ic j1 j2 b1 b2)].
Qed.

Lemma cancelled_publish f r : valid_state (request f) → cancelled (f <| request := (publish (request f) r).2 |>).
Proof. intros Hv. unfold cancelled. simpl. by rewrite recorded_publish. Qed.

Lemma take_spec leader f c f' w n :
  take leader f = Some (Some c, f') → state_ok w n f →
  key f' = key f ∧ request f' = request f ∧ subscribers f' = subscribers f ∧ state f ≠ Polling ∧
  state f' ≠ Starting ∧ state_ok w n f' ∧ agrees (state f') c ∧ given w n c ∧
  ∀ d, agrees (state f) d → agrees (state f') d ∧ compatible c d ∧ compatible d c.
Proof.
  unfold take, state_ok. intros Ht Hs. destruct (state f) as [| | |[v|v|payload|r]|] eqn:Est; try done.
  - injection Ht as <- <-. split_and!; try done. by destruct Hs.
  - injection Ht as <- <-. rewrite Est. split_and!; try done; try (by destruct Hs). by intros d ->.
  - destruct (leader && payload) eqn:E; injection Ht as <- <-; simpl; rewrite ?Est;
      do 5 (split; [done|]); (split; [done|]).
    + split; [by right|]. split; [done|]. apply andb_prop in E as [_ ->]. intros d [->|[? _]]; [|done]. by split; [left|].
    + split; [by left|]. split; [done|]. intros d Hd. split; [done|]. by destruct Hd as [->|[_ ->]].
  - injection Ht as <- <-. rewrite Est. split_and!; try done. by intros d ->.
Qed.

(** [live] and [holds] of an agent whose place is known. *)
Ltac at_pc Epc := unfold lives, live; simpl; rewrite ?Epc; try done; try (by case_match); try lia.

Lemma inv_run_agent w i a f w' :
  inv w → agents w !! i = Some a → flights w !! flight a = Some f → run_agent i a f w = Some w' → inv w'.
Proof.
  intros Hi Ha Hf Hs. pose proof Hi as (If & Ia & It & _).
  pose proof (If _ _ Hf) as (Hn & Hv & Hcount & Hst). fold (state_ok w (flight a) f) in Hst.
  destruct (Ia _ _ Ha) as (g & Hg & Hok). assert (g = f) as -> by congruence. clear Hg.
  pose proof Hok as (Hhold & Hwork & Hpc & Hrole).
  assert (Hgo : ∀ p, live (a <| pc := p |>) = live a → (holds p = true → holds (pc a) = true) →
            agent_ok w (a <| pc := p |>) f → inv (goto i a p w)) by (intros; by eapply flight_inv_goto).
  unfold run_agent in Hs.
  destruct (pc a) as [| | |t|t|t| | | | |r|r| | | | | | |] eqn:Epc; try done; simpl in *.
  - (* PollWork *)
    assert (inv (goto i a After w)) as Hback by (apply Hgo; [at_pc Epc|done|by split_and!]).
    destruct (state f) eqn:Est; try (by injection Hs as <-). destruct (runnable f); [|by injection Hs as <-].
    injection Hs as <-. unfold goto.
    eapply (inv_state w i a f); [done..|at_pc Epc|done|done|rewrite Est; by intros c []|by left|right; by rewrite Est| |done].
    split; [done|]. split; [intros _; unfold state_ok in Hst; by rewrite Est in Hst|]. split; [done|]. simpl. destruct (role a) as [? [c|]|]; try done; by destruct Hrole.
  - (* Retire *) injection Hs as <-.
    apply inv_unlist; [done|done|done|at_pc Epc|by rewrite Epc|by rewrite Hhold|right; by rewrite Epc|].
    intros w1 Hp Hnl. split_and!; try done; simpl; [split; [done|]|].
    + eapply produced_same, Hpc. by rewrite Hp.
    + destruct (role a) as [? [c|]|]; try done. destruct Hrole. split; [done|]. eapply given_same; [|done]. by rewrite Hp.
  - (* Reason *) injection Hs as <-. apply Hgo; [at_pc Epc|done|].
    destruct Hpc as [Hnl Hp]. split_and!; try done. simpl. split; [done|].
    destruct (recorded_reason (request f)) as [r|]; [|done]. by destruct r, t as [[]| | |].
  - (* Publish *) injection Hs as <-. destruct Hpc as [Hnl Hp]. specialize (Hhold eq_refl). rewrite Hhold in Hrole.
    unfold goto. eapply (inv_state w i a f); try done.
    + unfold publish_terminal. by destruct (subscribers f =? 0).
    + unfold publish_terminal. by destruct (subscribers f =? 0).
    + unfold publish_terminal. destruct (subscribers f =? 0); at_pc Epc.
    + unfold publish_terminal, state_ok. destruct (subscribers f =? 0) eqn:Ez; simpl; [done|]. bool_to_prop.
      destruct t as [v|v|p|r]; try done.
      destruct (1 <? subscribers f) eqn:E1; simpl; [split; [exact Hp|done]|]. bool_to_prop.
      split; [done|]. split; [done|]. pose proof (tally_nonneg w (flight a)). lia.
    + unfold publish_terminal. by destruct (subscribers f =? 0).
    + rewrite Hhold. by intros c [].
    + intros _. right. by rewrite Epc.
    + split_and!; try done; simpl; destruct (role a) as [? [c|]|]; try done; by destruct Hrole.
  - (* Finish *) injection Hs as <-.
    eapply inv_soft; [done..|by apply valid_publish|intros _; by apply cancelled_publish|at_pc Epc|done|by split_and!].
  - (* Inspect *) injection Hs as <-. destruct (recorded_reason (request f)); (apply Hgo; [at_pc Epc|done|by split_and!]).
  - (* Suspend *) injection Hs as <-. specialize (Hhold eq_refl). rewrite Hhold in Hrole. unfold goto.
    eapply (inv_state w i a f); [done..|at_pc Epc|by apply Hwork|done|rewrite Hhold; by intros c []|right; by rewrite Epc|done| |done].
    split_and!; try done; simpl; destruct (role a) as [? [c|]|]; try done; by destruct Hrole.
  - (* Recheck *) injection Hs as <-. destruct (recorded_reason (request f)); (apply Hgo; [at_pc Epc|done|by split_and!]).
  - (* CancelRequest *) injection Hs as <-.
    eapply inv_soft; [done..|by apply valid_publish|intros _; by apply cancelled_publish|at_pc Epc|done|].
    split_and!; try done; by apply cancelled_publish.
  - (* CancelCell *)
    assert (state f ≠ Starting → inv (goto i a CancelTable w)) as Hback
      by (intros Hns; apply Hgo; [at_pc Epc|done|by split_and!]).
    assert (∀ s, state f = s → s = Starting ∨ s = Pending →
              inv (goto i a CancelTable (set_flight (flight a) (f <| state := Completed (TCancelled r) |>) w))) as Hset.
    { intros s Est Hs'. unfold goto.
      eapply (inv_state w i a f); [done..|at_pc Epc|done|done| | |done| |done].
      - rewrite Est. destruct Hs' as [-> | ->]; by intros c [].
      - rewrite Est. destruct Hs' as [-> | ->]; by intros.
      - split_and!; try done. simpl. destruct (role a) as [? [c|]|]; try done. rewrite Est in Hrole.
        destruct Hs' as [-> | ->]; by destruct Hrole. }
    injection Hs as <-. destruct (state f) eqn:Est; try (by apply Hback); eapply Hset; eauto.
  - (* CancelTable *) injection Hs as <-. destruct Hpc as [Hcan Hns].
    apply inv_unlist; [done|done|done|at_pc Epc|done|done|by left|].
    intros w1 Hp Hnl. split_and!; try done. simpl.
    destruct (role a) as [? [c|]|]; try done. destruct Hrole. split; [done|]. eapply given_same; [|done]. by rewrite Hp.
  - (* After *) destruct (role a) as [leader consumed|] eqn:Erole.
    + destruct (take leader f) as [[[c|] f']|] eqn:Etake; injection Hs as <-.
      * destruct (take_spec _ _ _ _ w (flight a) Etake Hst) as (Hk & Hr & Hsub & Hnp & Hns & Hst' & Hag & Hgiv & Hd).
        eapply (inv_state w i a f); [done..| |done|done|intros d Hd'; by apply Hd|done|done|by split_and!|].
        -- rewrite Hsub. unfold lives, live. simpl. rewrite Erole, Epc. lia.
        -- intros l c' l' d j b [= <- <-] _ _ _ _ _ Hd'. by apply Hd.
      * apply Hgo; [unfold live; simpl; by rewrite Erole, Epc|done|]. split_and!; try done; simpl; by rewrite Erole.
      * apply Hgo; [unfold live; simpl; by rewrite Erole, Epc|done|]. split_and!; try done; simpl; by rewrite Erole.
    + injection Hs as <-. apply Hgo; [unfold live; simpl; by rewrite Erole|done|]. split_and!; try done; simpl; by rewrite Erole.
  - (* Abandon *) destruct ((subscribers f =? 0) && bool_decide (state f = Starting)) eqn:E; injection Hs as <-.
    + apply andb_prop in E as [_ E]. bool_to_prop. rewrite E in Hrole. unfold state_ok in Hst. rewrite E in Hst.
      change (inv (moved w (delete (key f) (table w)) (products w) (flight a) (f <| state := Finished |>) i (a <| pc := AbandonCancel |>))).
      apply (inv_moved w (delete (key f) (table w)) (products w) (flight a) f (f <| state := Finished |>)
               i a (a <| pc := AbandonCancel |>)); try done.
      * intros m k Hne. rewrite lookup_delete_Some. split; [tauto|]. intros Hm. split; [|done].
        intros <-. unfold listed in Hst. congruence.
      * intros k [_ Hkn]%lookup_delete_Some. destruct (It _ _ Hkn) as (g & Hg & <-). congruence.
      * split_and!; try done. rewrite (tally_moved _ _ _ _ _ _ a) by done. rewrite !counts_own by done. at_pc Epc.
      * split_and!; try done; simpl; destruct (role a) as [? [c|]|]; try done; by destruct Hrole.
      * intros j b Hne Hb Hbok _. destruct Hbok as (Hb1 & Hb2 & Hb3 & Hb4).
        split_and!; simpl.
        -- intros Hh. by rewrite E in Hb1; specialize (Hb1 Hh).
        -- intros Hw. assert (holds (pc b) = true) as Hh by by destruct (pc b). by rewrite E in Hb1; specialize (Hb1 Hh).
        -- destruct (pc b); try done; [by rewrite E in Hb1; specialize (Hb1 eq_refl)..|]. by destruct Hb3.
        -- rewrite E in Hb4. destruct (role b) as [? [c|]|]; try done. by destruct Hb4.
    + apply Hgo; [at_pc Epc|done|by split_and!].
  - (* AbandonCancel *) injection Hs as <-.
    eapply inv_soft; [done..|by apply valid_publish|intros _; by apply cancelled_publish|at_pc Epc|done|by split_and!].
  - (* Leave *) injection Hs as <-. eapply inv_soft; [done..|at_pc Epc|done|by split_and!].
Qed.

Lemma set_agent_same w i a n f : agents w !! i = Some a → set_agent i a (set_flight n f w) = set_flight n f w.
Proof. intros Ha. unfold set_agent, set_flight. simpl. rewrite (insert_id (agents w)) by done. by destruct w. Qed.

(** The work has returned: its product is recorded, the flight's own. *)
Lemma inv_ready w i a f v :
  inv w → agents w !! i = Some a → flights w !! flight a = Some f → pc a = User →
  inv (goto i a (Retire (Owned v)) (w <| products := <[flight a := v]> (products w) |>)).
Proof.
  intros Hi Ha Hf Hpc. pose proof Hi as (If & Ia & It & _). pose proof (If _ _ Hf) as (Hn & Hv & Hcount & _).
  destruct (Ia _ _ Ha) as (g & Hg & Hok). assert (g = f) as -> by congruence.
  pose proof Hok as (Hhold & _ & _ & Hrole). rewrite Hpc in Hhold. specialize (Hhold eq_refl). rewrite Hhold in Hrole.
  set (P := <[flight a := v]> (products w)).
  assert (goto i a (Retire (Owned v)) (w <| products := P |>) = moved w (table w) P (flight a) f i (a <| pc := Retire (Owned v) |>)) as ->.
  { unfold moved, goto, set_agent. simpl. by rewrite (insert_id (flights w)). }
  apply (inv_moved w (table w) P (flight a) f f i a (a <| pc := Retire (Owned v) |>)); try done.
  - intros k Hk. destruct (It _ _ Hk) as (g' & ? & <-). congruence.
  - intros m Hne. unfold P. by rewrite lookup_insert_ne.
  - split_and!; [done|done| |by rewrite Hhold].
    rewrite (tally_moved _ _ _ _ _ _ a), !counts_own by done. unfold lives, live. simpl. rewrite Hpc. lia.
  - split_and!; try done; simpl; [unfold P; by rewrite lookup_insert_eq|].
    destruct (role a) as [? [c|]|]; try done; by destruct Hrole.
  - intros j b Hne Hb (Hb1 & Hb2 & Hb3 & Hb4) Hexcl.
    assert (holds (pc b) = false) as Hnh.
    { destruct (holds (pc b)) eqn:Eh; [|done]. rewrite Hpc in Hexcl. by specialize (Hexcl eq_refl). }
    split_and!; [congruence|intros Hw; by destruct (pc b)| |].
    + destruct (pc b); done.
    + rewrite Hhold in Hb4. destruct (role b) as [? [c|]|]; try done; by destruct Hb4.
  - intros _. left. by rewrite Hpc.
Qed.

Lemma set_flight_same w n f : flights w !! n = Some f → set_flight n f w = w.
Proof. intros Hf. unfold set_flight. simpl. rewrite (insert_id (flights w)) by done. by destruct w. Qed.

(** A flag of a flight is stored. *)
Lemma inv_flag w n f f' :
  inv w → flights w !! n = Some f → key f' = key f → state f' = state f → subscribers f' = subscribers f →
  request f' = request f → inv (set_flight n f' w).
Proof.
  intros (If & Ia & It & Iu & Ic) Hf Hk Hs Hsub Hr. split_and!; try done.
  - intros m g. simpl. rewrite lookup_insert_Some. intros [[<- <-]|[Hne Hg]]; [|by apply (flight_ok_same w), If].
    destruct (If _ _ Hf) as (H1 & H2 & H3 & H4). split_and!; [done|by rewrite Hr|by rewrite Hsub|].
    rewrite Hs, Hsub. unfold listed, cancelled in *. by rewrite Hk, Hr.
  - intros i a Ha. destruct (Ia i a Ha) as (g & Hg & Hok). simpl. destruct (decide (n = flight a)) as [->|Hne].
    + exists f'. rewrite lookup_insert_eq. split; [done|]. assert (g = f) as -> by congruence.
      eapply other_ok; [exact Hok|..]; unfold listed, cancelled; simpl; rewrite ?Hk, ?Hr, ?Hs; auto. apply Hok.
    + exists g. by rewrite lookup_insert_ne.
  - intros k m Hm. destruct (It k m Hm) as (g & Hg & <-). simpl. destruct (decide (n = m)) as [->|Hne].
    + exists f'. rewrite lookup_insert_eq. split; [done|]. congruence.
    + exists g. by rewrite lookup_insert_ne.
Qed.

Lemma inv_drop w i a f l c :
  inv w → agents w !! i = Some a → flights w !! flight a = Some f → role a = Subscription l c → pc a = Rest →
  let '(f', abandoned) := leave_cell f in
  inv (goto i a (if abandoned then Abandon else Leave) (set_flight (flight a) f' w)).
Proof.
  intros Hi Ha Hf Hr Hpc. pose proof Hi as (If & Ia & _).
  pose proof (If _ _ Hf) as (_ & _ & Hcount & Hst). fold (state_ok w (flight a) f) in Hst.
  destruct (Ia _ _ Ha) as (g & Hg & Hok). assert (g = f) as -> by congruence. destruct Hok as (_ & _ & _ & Hrole).
  set (b := snd (leave_cell f)). set (f' := fst (leave_cell f)).
  assert (leave_cell f = (f', b)) as -> by done. unfold goto.
  assert (key f' = key f ∧ request f' = request f ∧ subscribers f' = subscribers f - 1) as (Hk & Hreq & Hsub).
  { unfold f', leave_cell. simpl. destruct (state f); try done. by destruct (subscribers f - 1 =? 0). }
  assert (state f' = state f ∨ (∃ t, state f = Completed t) ∧ state f' = Finished) as Hs.
  { unfold f', leave_cell. simpl. destruct (state f) eqn:E; simpl; rewrite ?E; auto.
    destruct (subscribers f - 1 =? 0); simpl; rewrite ?E; eauto. }
  eapply (inv_state w i a f); try done.
  - rewrite Hsub. unfold lives, live. simpl. rewrite Hr, Hpc. destruct b; lia.
  - unfold state_ok. destruct Hs as [Hs|[_ ->]]; [|done]. unfold listed, cancelled. rewrite Hs, Hk, Hreq.
    unfold state_ok in Hst. destruct (state f) as [| | |t|] eqn:Est; try done. destruct Hst as [Hp Ht]. split; [done|].
    destruct t; try done. destruct Ht as [_ Hone]. exfalso.
    unfold f', leave_cell in Hs. simpl in Hs. rewrite Est, Hone in Hs. done.
  - intros E. by destruct Hs as [<-|[_ Hs]]; [|rewrite Hs in E].
  - intros d. destruct Hs as [->|[_ ->]]; [done|]. by intros.
  - intros E. left. destruct Hs as [->|[[t Ht] _]]; [done|]. by rewrite Ht in E.
  - by destruct b.
  - split_and!; [by destruct b|by destruct b|by destruct b|]. simpl. rewrite Hr in *. destruct c as [c|]; [|done].
    destruct Hrole as [Hag ?]. split; [|done]. by destruct Hs as [->|[_ ->]].
Qed.

Lemma flight_inv_step w l w' : inv w → step w l = Some w' → inv w'.
Proof.
  intros Hi Hs. pose proof Hi as (If & Ia & It & _).
  assert (Henlist : ∀ i n p, enlist i n p w = Some w' → (p = Rest ∨ ∃ r, p = CancelRequest r) → inv w').
  { intros i n p He Hp. unfold enlist in He. destruct (agents w !! i) eqn:Ei; [done|].
    destruct (flights w !! n) as [f|] eqn:Ef; [|done]. injection He as <-.
    rewrite <-(set_flight_same w n f) by done.
    eapply (inv_new_agent w i (mkAgent n Other p) f f); try done; [unfold lives, live; simpl; lia|by apply If in Ef as (_ & _ & _ & ?)|..];
      by destruct Hp as [->|[? ->]]. }
  assert (Hgo : ∀ i a f p, agents w !! i = Some a → flights w !! flight a = Some f → pc a = Rest →
            live (a <| pc := p |>) = live a → p = PollWork ∨ p = After → inv (goto i a p w)).
  { intros i a f p Ea Ef Epc Hl Hp. eapply flight_inv_goto; try done; [by destruct Hp as [-> | ->]|].
    destruct (Ia _ _ Ea) as (g & Hg & (_ & _ & _ & Hr)). assert (g = f) as -> by congruence.
    destruct Hp as [-> | ->]; by split_and!. }
  destruct l as [i k|i|i n|i n r|n|i|i|i|i o|i]; simpl in Hs;
    try (destruct (agents w !! i) as [a|] eqn:Ei; [|done]; simpl in Hs;
         destruct (Ia _ _ Ei) as (f & Ef & Hok); rewrite ?Ef in Hs; simpl in Hs).
  - unfold acquire in Hs. destruct (agents w !! i) eqn:Ei; [done|]. destruct (table w !! k) as [n|] eqn:Ek.
    + destruct (flights w !! n) as [f|] eqn:Ef; [|done]. injection Hs as <-.
      pose proof (If _ _ Ef) as (_ & _ & _ & Hst). destruct (It _ _ Ek) as (g & Hg & Hkey).
      assert (g = f) as -> by congruence. subst k.
      eapply (inv_new_agent w i (mkAgent n (Subscription false None) Rest) f); try done.
      unfold state_ok. simpl. destruct (state f) as [| | |t|]; try done. destruct Hst as [Hp Ht]. split; [done|].
      destruct t; try done. by destruct Ht.
    + injection Hs as <-. by apply inv_new_flight.
  - destruct (role a) as [[] [c|]|] eqn:Er; try done. destruct (pc a) eqn:Epc; try done. injection Hs as <-.
    pose proof (If _ _ Ef) as (_ & _ & _ & Hst). unfold install.
    destruct (state f) eqn:Est; try (by rewrite set_flight_same).
    rewrite <-(set_agent_same _ i a) by done.
    eapply (inv_state w i a f); [done..| | |done|rewrite Est; by intros c []|by rewrite Est|by rewrite Epc| |done].
    + simpl. lia.
    + unfold state_ok. simpl. by right.
    + destruct Hok as (_ & _ & H3 & H4). split_and!; try done; rewrite ?Epc; try done. by rewrite Er.
  - apply (Henlist i n Rest); auto.
  - apply (Henlist i n (CancelRequest r)); eauto.
  - destruct (flights w !! n) as [f|] eqn:Ef; [|done]. injection Hs as <-. by eapply inv_flag.
  - destruct (role a) as [l [c|]|] eqn:Er; try done; destruct (pc a) eqn:Epc; try done; injection Hs as <-;
      (eapply Hgo; [done|done|done|unfold live; simpl; by rewrite Er, ?Epc|auto]).
  - destruct (role a) as [l [c|]|] eqn:Er; try done; destruct (pc a) eqn:Epc; try done; injection Hs as <-;
      (eapply Hgo; [done|done|done|unfold live; simpl; by rewrite Er, ?Epc|auto]).
  - destruct (role a) as [l c|] eqn:Er; [|done]. destruct (pc a) eqn:Epc; try done.
    injection Hs as <-. exact (inv_drop w i a f l c Hi Ei Ef Er Epc).
  - destruct (pc a) eqn:Epc; try done. pose proof Hok as (Hh & Hw & _ & Hr). rewrite Epc in Hh, Hw.
    destruct o as [v| |]; injection Hs as <-.
    + by eapply inv_ready.
    + eapply flight_inv_goto; [done..|unfold live; simpl; by rewrite Epc|by rewrite Epc|by split_and!].
    + eapply inv_soft; [done..|by apply If in Ef as (_ & ? & _)|done|unfold live; simpl; by rewrite Epc|by rewrite Epc|].
      by split_and!.
  - by eapply inv_run_agent.
Qed.

Lemma flight_inv_initial : inv initial.
Proof. by split_and!. Qed.

Lemma flight_inv_execute w ls w' : inv w → execute w ls = Some w' → inv w'.
Proof.
  revert w. induction ls as [|l ls IH]; simpl; intros w Hi He; [by injection He as <-|].
  destruct (step w l) as [w1|] eqn:Hs; [|done]. by eapply IH, He; eapply flight_inv_step.
Qed.

(** *** Flights that nobody cancels *)

Definition uncancelled (l : Label) : bool := match l with Cancel _ _ _ => false | _ => true end.

Definition ended (s : State) : bool := match s with Completed _ | Finished => true | _ => false end.

(** A computation that ended by itself may still be found ended by a thread
    that has just polled it, and is then cancelled to no effect. *)
Definition plain_agent (a : Agent) (f : Flight) : Prop :=
  match pc a with
  | CancelRequest _ | CancelCell _ | CancelTable | Finish | AbandonCancel => ended (state f) = true
  | Paniced => False
  | _ => True
  end ∧
  (* A subscription that has its completion is only dropped. *)
  match role a, pc a with
  | Subscription _ (Some _), (Rest | Abandon | AbandonCancel | Leave | Gone) => True
  | Subscription _ (Some _), _ => False
  | _, _ => True
  end.

Definition plain_flight (w : World) (n : nat) (f : Flight) : Prop :=
  match state f with
  | Starting | Pending | Polling => recorded_reason (request f) = None
  | Completed _ => ¬ listed w n f
  | Finished => ¬ listed w n f ∧
      ∀ i a l, agents w !! i = Some a → flight a = n → role a = Subscription l None → live a = false
  end.

Definition plain (w : World) : Prop :=
  (∀ i a f, agents w !! i = Some a → flights w !! flight a = Some f → plain_agent a f) ∧
  (∀ n f, flights w !! n = Some f → plain_flight w n f).

(** What a step of agent [i] at flight [n] leaves of [plain]. *)
Lemma plain_moved w T P n f f' i a a' :
  plain w → agents w !! i = Some a → flight a = n → flight a' = n → flights w !! n = Some f →
  (∀ m k, m ≠ n → T !! k = Some m → table w !! k = Some m) →
  (ended (state f) = true → ended (state f') = true) → plain_agent a' f' →
  plain_flight (moved w T P n f' i a') n f' → plain (moved w T P n f' i a').
Proof.
  intros [Hp Hf] Ha Hn Hn' Hfl HT Hend Hpc Hpf. split.
  - intros j b g. simpl. rewrite lookup_insert_Some. intros [[<- <-]|[Hne Hj]].
    + rewrite Hn', lookup_insert_eq. by intros [= <-].
    + rewrite lookup_insert_Some. intros [[Hb <-]|[_ Hg]]; [|eauto]. rewrite Hb in Hfl. specialize (Hp j b f Hj Hfl).
      unfold plain_agent in *. destruct Hp as [Hp1 Hp2]. split; [|done]. destruct (pc b); auto.
  - intros m g. simpl. rewrite lookup_insert_Some. intros [[<- <-]|[Hne Hg]]; [done|].
    specialize (Hf m g Hg). unfold plain_flight, listed in *. destruct (state g); try done; simpl.
    + intros Hl. apply Hf, HT; [congruence|done].
    + destruct Hf as [Hf1 Hf2]. split; [intros Hl; apply Hf1, HT; [congruence|done]|].
      intros j b l. rewrite lookup_insert_Some. intros [[<- <-]|[_ Hj]]; [congruence|eauto].
Qed.

(** The agent goes on; its flight keeps its state. *)
Lemma plain_soft w T i a f f' a' :
  plain_flight w (flight a) f → agents w !! i = Some a → key f' = key f → state f' = state f →
  (ended (state f) = true ∨ request f' = request f) →
  (T !! key f = Some (flight a) → table w !! key f = Some (flight a)) →
  (∀ l, role a' = Subscription l None → role a = Subscription l None) → (live a' = true → live a = true) →
  ∀ P, plain_flight (moved w T P (flight a) f' i a') (flight a) f'.
Proof.
  intros Hp Ha Hk Hs Hr HT Hrole Hl P. unfold plain_flight, listed in *. rewrite Hs, Hk.
  destruct (state f) eqn:E; try (by destruct Hr as [?|Hr]; [|rewrite Hr]); simpl; [tauto|].
  destruct Hp as [Hp1 Hp2]. split; [tauto|]. intros j b l. rewrite lookup_insert_Some.
  intros [[<- <-]|[_ Hj]]; [|eauto]. intros Hb Hr'. specialize (Hp2 i a l Ha eq_refl (Hrole l Hr')).
  destruct (live a'); [|done]. rewrite Hl in Hp2; done.
Qed.

(** Once the subscribers are gone nobody unconsumed is left. *)
Lemma no_subscriber w n i a :
  inv w → tally w n = 0 → agents w !! i = Some a → flight a = n → live a = false.
Proof.
  intros Hi H0 Ha Hn. destruct (live a) eqn:E; [|done]. exfalso.
  assert (counts n a ≤ tally w n) as H.
  { apply msum_lookup_le with i; [|done]. intros j b _. destruct (counts_cases n b); lia. }
  rewrite counts_own in H by done. unfold lives in H. rewrite E in H. lia.
Qed.

Lemma plain_go w i a f p :
  plain w → agents w !! i = Some a → flights w !! flight a = Some f → plain_agent (a <| pc := p |>) f →
  (live (a <| pc := p |>) = true → live a = true) → plain (goto i a p w).
Proof.
  intros Hp Ha Hf Hpc Hl. rewrite <-(goto_set_flight w _ f) by done.
  change (plain (moved w (table w) (products w) (flight a) f i (a <| pc := p |>))).
  eapply plain_moved; [done..|by intros|done|done|].
  eapply plain_soft; [by apply Hp|done|done|done|by right|done|done|done].
Qed.

Lemma plain_put w i a f f' p :
  plain w → agents w !! i = Some a → flights w !! flight a = Some f → key f' = key f → state f' = state f →
  (ended (state f) = true ∨ request f' = request f) → plain_agent (a <| pc := p |>) f →
  (live (a <| pc := p |>) = true → live a = true) → plain (goto i a p (set_flight (flight a) f' w)).
Proof.
  intros Hp Ha Hf Hk Hs Hr Hpc Hl.
  change (plain (moved w (table w) (products w) (flight a) f' i (a <| pc := p |>))).
  eapply plain_moved; [done..|by intros|by rewrite Hs| |].
  - unfold plain_agent in *. by rewrite Hs.
  - eapply plain_soft; [by apply Hp|done..].
Qed.

Lemma plain_unlist w i a f p :
  plain w → agents w !! i = Some a → flights w !! flight a = Some f → plain_agent (a <| pc := p |>) f →
  (live (a <| pc := p |>) = true → live a = true) → plain (goto i a p (unlist (flight a) f w)).
Proof.
  intros Hp Ha Hf Hpc Hl. unfold unlist. case_decide as E; [|by eapply plain_go].
  assert (goto i a p (w <| table := delete (key f) (table w) |>) =
          moved w (delete (key f) (table w)) (products w) (flight a) f i (a <| pc := p |>)) as ->.
  { unfold goto, set_agent, moved. simpl. by rewrite (insert_id (flights w)). }
  eapply plain_moved; [done..|by intros m k _ [_ ?]%lookup_delete_Some|done|done|].
  eapply plain_soft; [by apply Hp|done|done|done|by right|by intros [_ ?]%lookup_delete_Some|done|done].
Qed.

Lemma plain_run_agent w i a f w' :
  inv w → plain w → agents w !! i = Some a → flights w !! flight a = Some f → run_agent i a f w = Some w' → plain w'.
Proof.
  intros Hi Hp Ha Hf Hs. pose proof Hi as (If & Ia & It & _).
  pose proof (If _ _ Hf) as (_ & _ & Hcount & Hst). fold (state_ok w (flight a) f) in Hst.
  destruct (Ia _ _ Ha) as (g & Hg & Hok). assert (g = f) as -> by congruence. clear Hg.
  pose proof Hok as (Hhold & _ & Hpc & Hrole). pose proof Hp as [Hpa Hpf].
  pose proof (Hpa _ _ _ Ha Hf) as Hme. pose proof (Hpf _ _ Hf) as Hfl. destruct Hme as [Hme Hcons].
  (* How to leave a flight whose state changes. *)
  assert (Hset : ∀ f' a', flight a' = flight a → (ended (state f) = true → ended (state f') = true) → plain_agent a' f' →
            plain_flight (moved w (table w) (products w) (flight a) f' i a') (flight a) f' →
            plain (set_agent i a' (set_flight (flight a) f' w))).
  { intros f' a' ? ? ? ?. change (plain (moved w (table w) (products w) (flight a) f' i a')).
    eapply plain_moved; [done..|by intros|done|done|done]. }
  unfold run_agent in Hs.
  destruct (pc a) as [| | |t|t|t| | | | |r|r| | | | | | |] eqn:Epc; try done; simpl in *.
  - (* PollWork *) assert (plain (goto i a After w)) as Hback by (eapply plain_go; [done..|by split|unfold live; simpl; by rewrite ?Epc]).
    destruct (state f) eqn:Est; try (by injection Hs as <-). destruct (runnable f); injection Hs as <-; [|done].
    apply Hset; try done. unfold plain_flight in *. by rewrite Est in Hfl.
  - (* Retire *) injection Hs as <-. eapply plain_unlist; [done..|by split|unfold live; simpl; by rewrite ?Epc].
  - (* Reason *) injection Hs as <-. eapply plain_go; [done..|by split|unfold live; simpl; by rewrite ?Epc].
  - (* Publish *) injection Hs as <-. destruct Hpc as [Hnl _]. apply Hset; [done| | |].
    + unfold publish_terminal. by destruct (subscribers f =? 0).
    + split; [|done]. simpl. unfold publish_terminal. by destruct (subscribers f =? 0).
    + unfold publish_terminal. destruct (subscribers f =? 0) eqn:E; bool_to_prop; unfold plain_flight, listed; simpl; [|done].
      split; [done|]. intros j b l. rewrite lookup_insert_Some. intros [[<- <-]|[_ Hj]] Hb Hr.
      * assert (live a = false) as Hla by (apply (no_subscriber w (flight a) i a); [done|lia|done|done]).
        unfold live in *. simpl. by rewrite Epc in Hla.
      * apply (no_subscriber w (flight a) j b); [done|lia|done|done].
  - (* Finish *) injection Hs as <-. eapply plain_put; [done..|by left|by split|unfold live; simpl; by rewrite ?Epc].
  - (* Inspect *) injection Hs as <-.
    destruct (recorded_reason (request f)); (eapply plain_go; [done..|by split|unfold live; simpl; by rewrite ?Epc]).
  - (* Suspend *) injection Hs as <-. specialize (Hhold eq_refl). apply Hset; try done; [by rewrite Hhold|].
    unfold plain_flight in *. by rewrite Hhold in Hfl.
  - (* Recheck *) injection Hs as <-. unfold plain_flight in Hfl.
    eapply plain_go; [done..| |unfold live; simpl; rewrite ?Epc; by destruct (recorded_reason (request f))].
    destruct (recorded_reason (request f)); [|by split]. split; [simpl; by destruct (state f)|done].
  - (* CancelRequest *) injection Hs as <-. eapply plain_put; [done..|by left|by split|unfold live; simpl; by rewrite ?Epc].
  - (* CancelCell *) injection Hs as <-.
    assert (plain (goto i a CancelTable w)) by (eapply plain_go; [done..|by split|unfold live; simpl; by rewrite ?Epc]).
    by destruct (state f).
  - (* CancelTable *) injection Hs as <-. eapply plain_unlist; [done..|by split|unfold live; simpl; by rewrite ?Epc].
  - (* After *) destruct (role a) as [leader consumed|] eqn:Er.
    2: { injection Hs as <-. eapply plain_go; [done..|split; [done|simpl; by rewrite Er]|unfold live; simpl; by rewrite Er]. }
    destruct (take leader f) as [[[c|] f']|] eqn:Etake; injection Hs as <-.
    + apply Hset; try done.
      * unfold take in Etake. destruct (state f) as [| | |[]|] eqn:Est; try done; try (injection Etake as <- <-; by rewrite ?Est).
        destruct (leader && payload); injection Etake as <- <-; by rewrite ?Est.
      * unfold take in Etake. unfold plain_flight, listed in *.
        destruct (state f) as [| | |[v|v|payload|r]|] eqn:Est; try done; try (injection Etake as <- <-; simpl; by rewrite ?Est).
        2: { destruct (leader && payload); injection Etake as <- <-; simpl; by rewrite ?Est. }
        injection Etake as <- <-. simpl. split; [done|]. intros j b l. rewrite lookup_insert_Some.
        intros [[<- <-]|[Hne Hj]] Hb Hr; [done|]. unfold state_ok in Hst. rewrite Est in Hst. destruct Hst as [_ [_ Hone]].
        pose proof (tally_one w (flight a) i a j b) as H1. rewrite !counts_own in H1 by done.
        unfold lives, live in *. rewrite Er, Epc, Hr in *. specialize (H1 ltac:(lia) Ha Hj Hne eq_refl). by destruct (pc b).
    + (* A live subscription never finds a finished flight. *)
      exfalso. unfold take in Etake. unfold plain_flight in Hfl. destruct (state f) as [| | |[]|] eqn:Est; try done;
        try (by destruct (leader && payload)).
      destruct consumed as [c|]; [done|].
      destruct Hfl as [_ Hfl]. specialize (Hfl i a leader Ha eq_refl Er). unfold live in Hfl. by rewrite Er, Epc in Hfl.
    + eapply plain_go; [done..|split; [done|simpl; rewrite Er; by destruct consumed]|unfold live; simpl; by rewrite Er, Epc].
  - (* Abandon *) destruct ((subscribers f =? 0) && bool_decide (state f = Starting)) eqn:E; injection Hs as <-.
    + apply andb_prop in E as [E0 E]. bool_to_prop.
      change (plain (moved w (delete (key f) (table w)) (products w) (flight a) (f <| state := Finished |>) i (a <| pc := AbandonCancel |>))).
      eapply plain_moved; [done..|by intros m k _ [_ ?]%lookup_delete_Some|done|split; [done|simpl; by destruct (role a) as [? []|]]|].
      unfold plain_flight, listed. simpl. split; [by rewrite lookup_delete_eq|].
      intros j b l. rewrite lookup_insert_Some. intros [[<- <-]|[_ Hj]] Hb Hr; [unfold live; simpl; by destruct (role a)|].
      apply (no_subscriber w (flight a) j b); [done|lia|done|done].
    + eapply plain_go; [done..|split; [done|simpl; by destruct (role a) as [? []|]]|unfold live; simpl; by destruct (role a)].
  - (* AbandonCancel *) injection Hs as <-. eapply plain_put; [done..|by left|by split|unfold live; simpl; by destruct (role a)].
  - (* Leave *) injection Hs as <-. eapply plain_put; [done..|by right|split; [done|simpl; by destruct (role a) as [? []|]]|unfold live; simpl; by destruct (role a)].
Qed.

Lemma plain_step w l w' : inv w → plain w → step w l = Some w' → uncancelled l = true → plain w'.
Proof.
  intros Hi Hp Hs Hl. pose proof Hi as (If & Ia & It & _). pose proof Hp as [Hpa Hpf].
  assert (Hadd : ∀ i a f f', agents w !! i = None → flights w !! flight a = Some f → key f' = key f → state f' = state f →
            request f' = request f → plain_agent a f' →
            (state f = Finished → live a = false) → plain (set_agent i a (set_flight (flight a) f' w))).
  { intros i a f f' Hn Hf Hk Hst Hr Hpc Hfin. split.
    - intros j b g. simpl. rewrite lookup_insert_Some. intros [[<- <-]|[Hne Hj]].
      + rewrite lookup_insert_eq. by intros [= <-].
      + rewrite lookup_insert_Some. intros [[Hb <-]|[_ Hg]]; [|eauto]. rewrite Hb in Hf.
        specialize (Hpa j b f Hj Hf). unfold plain_agent in *. by rewrite Hst.
    - intros m g. simpl. rewrite lookup_insert_Some. intros [[<- <-]|[Hne Hg]].
      + specialize (Hpf _ _ Hf). unfold plain_flight, listed in *. rewrite Hst, Hr, Hk.
        destruct (state f); try done. destruct Hpf as [H1 H2]. split; [done|]. intros j b l0. simpl.
        rewrite lookup_insert_Some. intros [[<- <-]|[_ Hj]]; [by intros; apply Hfin|eauto].
      + specialize (Hpf _ _ Hg). unfold plain_flight, listed in *. destruct (state g); try done.
        destruct Hpf as [H1 H2]. split; [done|]. intros j b l0. simpl.
        rewrite lookup_insert_Some. intros [[<- <-]|[_ Hj]]; [congruence|eauto]. }
  destruct l as [i k|i|i n|i n r|n|i|i|i|i o|i]; simpl in Hs; try done;
    try (destruct (agents w !! i) as [a|] eqn:Ei; [|done]; simpl in Hs;
         destruct (Ia _ _ Ei) as (f & Ef & Hok); rewrite ?Ef in Hs; simpl in Hs;
         pose proof (Hpa _ _ _ Ei Ef) as Hme; pose proof (Hpf _ _ Ef) as Hfl).
  - unfold acquire in Hs. destruct (agents w !! i) eqn:Ei; [done|]. destruct (table w !! k) as [n|] eqn:Ek.
    + destruct (flights w !! n) as [f|] eqn:Ef; [|done]. injection Hs as <-.
      apply (Hadd i (mkAgent n (Subscription false None) Rest) f); try done. intros Hfin.
      specialize (Hpf _ _ Ef). unfold plain_flight, listed in Hpf. rewrite Hfin in Hpf. destruct Hpf as [Hnl _].
      destruct (It _ _ Ek) as (g & Hg & Hkey). assert (g = f) as -> by congruence. by rewrite Hkey in Hnl.
    + injection Hs as <-. set (n := next_flight w).
      assert (flights w !! n = None) as Hn.
      { destruct (flights w !! n) as [g|] eqn:E; [|done]. destruct (If _ _ E). lia. }
      split.
      * intros j b g. simpl. rewrite lookup_insert_Some. intros [[<- <-]|[Hne Hj]].
        -- rewrite lookup_insert_eq. by intros [= <-].
        -- rewrite lookup_insert_Some. intros [[Hb <-]|[_ Hg]]; [|eauto]. destruct (Ia _ _ Hj) as (g' & Hg' & _). congruence.
      * intros m g. simpl. rewrite lookup_insert_Some. intros [[<- <-]|[Hne Hg]]; [done|].
        specialize (Hpf _ _ Hg). unfold plain_flight, listed in *. simpl.
        assert (<[k:=n]> (table w) !! key g = Some m → table w !! key g = Some m) as Hl'
          by (rewrite lookup_insert_Some; intros [[_ ?]|[_ ?]]; congruence).
        destruct (state g); try done; [tauto|]. destruct Hpf as [H1 H2]. split; [tauto|]. intros j b l0.
        rewrite lookup_insert_Some. intros [[<- <-]|[_ Hj]]; [|eauto]. simpl. congruence.
  - destruct (role a) as [[] [c|]|] eqn:Er; try done. destruct (pc a) eqn:Epc; try done. injection Hs as <-.
    unfold install. destruct (state f) eqn:Est; try (by rewrite set_flight_same).
    rewrite <-(set_agent_same _ i a) by done.
    change (plain (moved w (table w) (products w) (flight a) (f <| state := Pending |>) i a)).
    eapply plain_moved; [done..|by intros|by rewrite Est| |].
    + unfold plain_agent. by rewrite Er, Epc.
    + unfold plain_flight in *. by rewrite Est in Hfl.
  - unfold enlist in Hs. destruct (agents w !! i) eqn:Ei; [done|]. destruct (flights w !! n) as [f|] eqn:Ef; [|done].
    injection Hs as <-. rewrite <-(set_flight_same w n f) by done. by apply (Hadd i (mkAgent n Other Rest) f).
  - destruct (flights w !! n) as [f|] eqn:Ef; [|done]. injection Hs as <-. split.
    + intros j b g Hj. simpl. rewrite lookup_insert_Some. intros [[Hb <-]|[_ Hg]]; [|eauto]. rewrite Hb in Ef. apply (Hpa j b f Hj Ef).
    + intros m g. simpl. rewrite lookup_insert_Some. intros [[<- <-]|[_ Hg]]; [apply (Hpf _ _ Ef)|apply (Hpf _ _ Hg)].
  - destruct (role a) as [l [c|]|] eqn:Er; try done; destruct (pc a) eqn:Epc; try done; injection Hs as <-;
      (eapply plain_go; [done..|split; [done|simpl; by rewrite Er]|unfold live; simpl; by rewrite Er, ?Epc]).
  - destruct (role a) as [l [c|]|] eqn:Er; try done; destruct (pc a) eqn:Epc; try done; injection Hs as <-;
      (eapply plain_go; [done..|split; [done|simpl; by rewrite Er]|unfold live; simpl; by rewrite Er, ?Epc]).
  - destruct (role a) as [l c|] eqn:Er; [|done]. destruct (pc a) eqn:Epc; try done. injection Hs as <-.
    set (f1 := f <| subscribers := subscribers f - 1 |>). set (b := _ && _).
    set (f' := match state f with Completed _ => _ | _ => _ end).
    change (plain (moved w (table w) (products w) (flight a) f' i (a <| pc := if b then Abandon else Leave |>))).
    eapply plain_moved; [done..|by intros| | |].
    + unfold f'. by destruct (state f); try done; destruct (subscribers f - 1 =? 0).
    + split; [by destruct b|]. simpl. rewrite Er. destruct c; [|done]. by destruct b.
    + assert (∀ p, live (a <| pc := if b then Abandon else Leave |>) = true → p) as Hgone
        by (intros p; unfold live; simpl; rewrite Er; by destruct b).
      assert (state f' = state f ∧ key f' = key f ∧ request f' = request f ∨
              (∃ t, state f = Completed t) ∧ state f' = Finished ∧ key f' = key f ∧ subscribers f = 1) as Hcase.
      { unfold f'. destruct (state f) eqn:Est; simpl; rewrite ?Est; auto.
        destruct (subscribers f - 1 =? 0) eqn:E0; simpl; rewrite ?Est; auto. bool_to_prop. right. split_and!; eauto; lia. }
      destruct Hcase as [(Hst & Hk & Hr)|([t Hst] & Hst' & Hk & Hone)].
      * eapply plain_soft; [done|done|done|done|by right|done|simpl; by intros ? ->|by apply Hgone].
      * unfold plain_flight, listed in *. rewrite Hst in Hfl. rewrite Hst', Hk. split; [done|].
        intros j b0 l0. simpl. rewrite lookup_insert_Some. intros [[<- <-]|[Hne Hj]] Hb Hr0.
        -- destruct (live _) eqn:E; [|done]. by apply Hgone.
        -- destruct (If _ _ Ef) as (_ & _ & Hcount & _).
           pose proof (tally_one w (flight a) i a j b0) as H1. rewrite !counts_own in H1 by done.
           unfold lives in H1. replace (live a) with true in H1 by (unfold live; by rewrite Er, Epc).
           specialize (H1 ltac:(lia) Ei Hj Hne eq_refl). by destruct (live b0).
  - destruct (pc a) eqn:Epc; try done. destruct Hme as [_ Hcons]. rewrite Epc in Hcons.
    destruct o as [v| |]; injection Hs as <-.
    + assert (plain (w <| products := <[flight a := v]> (products w) |>)) as Hp' by exact Hp.
      apply (plain_go _ i a f (Retire (Owned v)) Hp'); [done..|by split|unfold live; simpl; by rewrite Epc].
    + eapply plain_go; [done..|by split|unfold live; simpl; by rewrite Epc].
    + eapply plain_put; [done..|by right|by split|unfold live; simpl; by rewrite Epc].
  - by eapply plain_run_agent.
Qed.

Lemma plain_initial : plain initial.
Proof. by split. Qed.

Lemma plain_execute w ls w' :
  inv w → plain w → execute w ls = Some w' → forallb uncancelled ls = true → plain w'.
Proof.
  revert w. induction ls as [|l ls IH]; simpl; intros w Hi Hp He Hl; [by injection He as <-|].
  apply andb_prop in Hl as [Hl Hls]. destruct (step w l) as [w1|] eqn:Hs; [|done].
  by apply (IH w1); [eapply flight_inv_step|eapply plain_step| |].
Qed.
End FlightInv.

(** ** What single flight promises *)
Module FlightTheorems.
Import Flight FlightInv.

(** A flight whose work has still to run, is suspended or is being polled. *)
Definition working (w : World) (n : nat) : Prop :=
  (∃ f, flights w !! n = Some f ∧ (state f = Starting ∨ state f = Pending)) ∨
  ∃ i a, agents w !! i = Some a ∧ flight a = n ∧ pc a = User.

(** C1: one computation per key. However callers, drivers, cancellations and
    drops interleave: the work of a flight is never polled by two threads at
    once, and two flights of one key that both still have work to run are one
    and the same, unless one of them has been cancelled. *)
Theorem one_flight_per_key ls w n m f g :
  execute initial ls = Some w → flights w !! n = Some f → flights w !! m = Some g → key f = key g →
  working w n → working w m →
  (n = m ∨ is_Some (recorded_reason (request f)) ∨ is_Some (recorded_reason (request g))) ∧
  (∀ i j a b, agents w !! i = Some a → agents w !! j = Some b → flight a = n → flight b = n →
     pc a = User → pc b = User → i = j).
Proof.
  intros He Hf Hg Hk Hn Hm. assert (inv w) as (If & Ia & It & Iu & _) by (eapply flight_inv_execute, He; apply flight_inv_initial).
  assert (∀ n f, flights w !! n = Some f → working w n → is_Some (recorded_reason (request f)) ∨ listed w n f) as Hlist.
  { intros n0 f0 Hf0 [(f1 & Hf1 & Hs)|(i & a & Ha & <- & Hpc)].
    - assert (f1 = f0) as -> by congruence. destruct (If _ _ Hf0) as (_ & _ & _ & Hst). destruct Hs as [Hs|Hs]; rewrite Hs in Hst.
      + by right.
      + destruct Hst; [left|by right]. by apply not_eq_None_Some.
    - destruct (Ia _ _ Ha) as (f1 & Hf1 & (_ & Hw & _)). assert (f1 = f0) as -> by congruence. rewrite Hpc in Hw.
      destruct (Hw eq_refl); [left|by right]. by apply not_eq_None_Some. }
  split.
  - destruct (Hlist _ _ Hf Hn) as [?|Hl1]; [by right; left|]. destruct (Hlist _ _ Hg Hm) as [?|Hl2]; [by right; right|].
    left. unfold listed in *. rewrite Hk in Hl1. congruence.
  - intros i j a b Ha Hb Hna Hnb Hpa Hpb. eapply (Iu i j a b); [done|done|congruence|by rewrite Hpa|by rewrite Hpb].
Qed.

(** Every subscriber gets the verdict of its own flight, once. Two
    subscriptions of one flight never receive different values, a value that is
    given away unshared is given to nobody else, a panic is delivered at most
    once, all other subscribers seeing only that it happened; and a value is the
    one the flight's own work has returned. *)
Theorem subscribers_agree ls w i j a b l l' c d :
  execute initial ls = Some w → agents w !! i = Some a → agents w !! j = Some b → flight a = flight b →
  role a = Subscription l (Some c) → role b = Subscription l' (Some d) →
  (i = j ∨ compatible c d) ∧ given w (flight a) c.
Proof.
  intros He Ha Hb Hf Hra Hrb. assert (inv w) as (_ & Ia & _ & _ & Ic) by (eapply flight_inv_execute, He; apply flight_inv_initial).
  split.
  - destruct (decide (i = j)); [by left|right]. by eapply (Ic i j a b).
  - destruct (Ia _ _ Ha) as (f & _ & (_ & _ & _ & Hr)). rewrite Hra in Hr. apply Hr.
Qed.

(** The interleaving the code does not survive: the leader's flight is cancelled
    by another thread, which is stopped between the flight's cell and the table;
    the last subscriber leaves, and finishes the flight; a new caller of the key
    finds it still in the table, joins it, and polls. *)
Definition joined_after_cancel : list Label :=
  [Acquire 0 5; Install 0; Cancel 9 0 CallerCancelled; Run 9; Run 9; Drop 0; Run 0; Acquire 1 5; TryComplete 1; Run 1].

(** C37: A subscription never finds its flight finished by others - the
    condition under which [try_complete] panics - as long as no computation is
    cancelled, whatever callers, drivers, completions and drops interleave; and
    cancellation does break it: there is an interleaving in which a caller that
    holds a fresh subscription panics. *)
Theorem only_cancelled_flights_panic :
  (∀ ls w i a, execute initial ls = Some w → forallb uncancelled ls = true → agents w !! i = Some a → pc a ≠ Paniced) ∧
  ∃ ls w i a, execute initial ls = Some w ∧ agents w !! i = Some a ∧ role a = Subscription false None ∧ pc a = Paniced.
Proof.
  split.
  - intros ls w i a He Hl Ha Hpc.
    assert (inv w) as (_ & Ia & _) by (eapply flight_inv_execute, He; apply flight_inv_initial).
    destruct (plain_execute _ _ _ flight_inv_initial plain_initial He Hl) as [Hp _].
    destruct (Ia _ _ Ha) as (f & Hf & _). destruct (Hp _ _ _ Ha Hf) as [Hme _]. by rewrite Hpc in Hme.
  - exists joined_after_cancel, (default initial (execute initial joined_after_cancel)), 1%nat,
      (mkAgent 0 (Subscription false None) Paniced). by vm_compute.
Qed.

Definition world_of (ls : list Label) : World := default initial (execute initial ls).

(** Two callers and a driver share one computation. *)
Definition shared : list Label :=
  [Acquire 0 5; Install 0; Acquire 1 5; Poll 0; Run 0].
Definition served : list Label :=
  [Polled 0 (Ready (Value 7)); Run 0; Run 0; Run 0; Run 0; Run 0; TryComplete 1; Run 1].

Lemma one_flight_per_key_witness :
  working (world_of shared) 0 ∧
  (0%nat = 0%nat ∨ is_Some (recorded_reason 0) ∨ is_Some (recorded_reason 0)).
Proof.
  assert (execute initial shared = Some (world_of shared)) as H1 by (vm_compute; reflexivity).
  assert (flights (world_of shared) !! 0%nat = Some (mkFlight 5 0 2 Polling false false)) as H2 by (vm_compute; reflexivity).
  assert (agents (world_of shared) !! 0%nat = Some (mkAgent 0 (Subscription true None) User)) as H3 by (vm_compute; reflexivity).
  assert (working (world_of shared) 0) as H4 by (right; eexists _, _; split; [exact H3|done]).
  exact (conj H4 (proj1 (one_flight_per_key _ _ _ _ _ _ H1 H2 H2 eq_refl H4 H4))).
Defined.

Lemma subscribers_agree_witness :
  compatible (C_Shared (Value 7)) (C_Shared (Value 7)) ∧ products (world_of (shared ++ served)) !! 0%nat = Some (Value 7).
Proof.
  set (w := world_of (shared ++ served)).
  assert (execute initial (shared ++ served) = Some w) as H1 by (vm_compute; reflexivity).
  assert (agents w !! 0%nat = Some (mkAgent 0 (Subscription true (Some (C_Shared (Value 7)))) Rest)) as H2 by (vm_compute; reflexivity).
  assert (agents w !! 1%nat = Some (mkAgent 0 (Subscription false (Some (C_Shared (Value 7)))) Rest)) as H3 by (vm_compute; reflexivity).
  destruct (subscribers_agree _ w 0 1 _ _ true false (C_Shared (Value 7)) (C_Shared (Value 7)) H1 H2 H3 eq_refl eq_refl eq_refl)
    as [[Hij|Hc] Hg]; [discriminate Hij|exact (conj Hc Hg)].
Defined.
End FlightTheorems.
