(* ===== verification/Wire.v ===== *)
(** * The distributed wire format

    Models the envelope of [src/src/distributed.rs]: capturing and hydrating
    [DistributedEntry] and [DistributedSnapshot], the framed snapshot, the
    decoder of canonical JSON with its word-parallel decimal reader, and the
    choice of a codec. [serde_json] and the value's own codec are parameters.

    A [String] is the [string] of its bytes. A byte literal of the code is
    written [lit "..."], in which a single quote stands for the double quote. *)
From Stdlib Require Import Strings.Byte Ascii.
From S2P Require Import Prelude Time F32 Options Entry Tags Cancellation.

Abbreviation bytes := (list byte) (only parsing).
#[export] Instance byte_eq_decision : EqDecision byte := Byte.byte_eq_dec.

Definition quote : byte := x22.
Definition of_string (s : string) : bytes := String.list_byte_of_string s.
Definition lit (s : string) : bytes :=
  map (λ b, if decide (b = "'"%byte) then quote else b) (of_string s).
Definition code (b : byte) : Z := Z.of_N (Byte.to_N b).

(** [slice::strip_prefix]. *)
Fixpoint strip_prefix (p l : bytes) : option bytes :=
  match p, l with
  | [], _ => Some l
  | a :: p, b :: l => if decide (a = b) then strip_prefix p l else None
  | _ :: _, [] => None
  end.

(** ** The word-parallel decimal reader *)

Definition wrap64 (z : Z) : Z := z mod 2 ^ 64.
Definition digit (b : byte) : Z := code b - 48.
Definition is_ascii_digit (b : byte) : bool := (48 <=? code b) && (code b <=? 57).

(** [u64::from_le_bytes]. *)
Definition from_le_bytes (l : bytes) : Z := foldr (λ b acc, code b + 256 * acc) 0 l.

Definition eight_digits (chunk : bytes) : Z :=
  let word := wrap64 (from_le_bytes chunk - 0x3030303030303030) in
  let word := Z.land (wrap64 (wrap64 (word * 10) + Z.shiftr word 8)) 0x00FF00FF00FF00FF in
  let word := Z.land (wrap64 (wrap64 (word * 100) + Z.shiftr word 16)) 0x0000FFFF0000FFFF in
  Z.land (wrap64 (wrap64 (word * 10000) + Z.shiftr word 32)) 0xFFFFFFFF.

(** The chunks of eight, then the remaining digits. *)
Fixpoint decimal_from (value : Z) (digits : bytes) : Z :=
  match digits with
  | b0 :: b1 :: b2 :: b3 :: b4 :: b5 :: b6 :: b7 :: rest =>
      decimal_from
        (wrap64 (wrap64 (value * 100000000) + eight_digits [b0; b1; b2; b3; b4; b5; b6; b7])) rest
  | rest => fold_left (λ value b, wrap64 (wrap64 (value * 10) + digit b)) rest value
  end.
Definition decimal (digits : bytes) : Z := decimal_from 0 digits.

(** [take_while(is_ascii_digit)] and [split_at] of its length. *)
Fixpoint span_digits (l : bytes) : bytes * bytes :=
  match l with
  | b :: r => if is_ascii_digit b then (λ '(n, rest), (b :: n, rest)) (span_digits r) else ([], l)
  | [] => ([], [])
  end.

Definition canonical_i64 (l : bytes) : option (Z * bytes) :=
  match l with
  | [] => None
  | first :: tail =>
      let '(negative, digits) := if decide (first = "-"%byte) then (true, tail) else (false, l) in
      let '(number, rest) := span_digits digits in
      let len := length number in
      if (len =? 0)%nat || (19 <? len)%nat
         || ((1 <? len)%nat && bool_decide (head number = Some "0"%byte))
      then None
      else
        magnitude ← try_i64 (decimal number);
        Some (if negative then - magnitude else magnitude, rest)
  end.

(** ** Strings *)

(** [std::str::from_utf8] succeeds. *)
Definition continuation (b : byte) : bool := (128 <=? code b) && (code b <=? 191).
Definition utf8_three (a b : Z) : bool :=
  (a =? 0xE0) && (0xA0 <=? b) && (b <=? 0xBF)
  || (0xE1 <=? a) && (a <=? 0xEC) && (0x80 <=? b) && (b <=? 0xBF)
  || (a =? 0xED) && (0x80 <=? b) && (b <=? 0x9F)
  || (0xEE <=? a) && (a <=? 0xEF) && (0x80 <=? b) && (b <=? 0xBF).
Definition utf8_four (a b : Z) : bool :=
  (a =? 0xF0) && (0x90 <=? b) && (b <=? 0xBF)
  || (0xF1 <=? a) && (a <=? 0xF3) && (0x80 <=? b) && (b <=? 0xBF)
  || (a =? 0xF4) && (0x80 <=? b) && (b <=? 0x8F).
Fixpoint utf8 (l : bytes) : bool :=
  match l with
  | [] => true
  | a :: r =>
      if code a <? 128 then utf8 r
      else match r with
      | [] => false
      | b :: r1 =>
          if (0xC2 <=? code a) && (code a <=? 0xDF) && continuation b then utf8 r1
          else match r1 with
          | [] => false
          | c :: r2 =>
              if utf8_three (code a) (code b) && continuation c then utf8 r2
              else match r2 with
              | [] => false
              | d :: r3 => utf8_four (code a) (code b) && continuation c && continuation d && utf8 r3
              end
          end
      end
  end.

(** Up to the first quote, and behind it. *)
Fixpoint split_quote (l : bytes) : option (bytes * bytes) :=
  match l with
  | [] => None
  | b :: r =>
      if decide (b = quote) then Some ([], r)
      else '(text, rest) ← split_quote r; Some (b :: text, rest)
  end.

(** A byte that JSON text writes escaped: a backslash or a control. *)
Definition needs_escape (b : byte) : bool := bool_decide (b = "\"%byte) || (code b <? 32).

Definition canonical_string (l : bytes) : option (string * bytes) :=
  rest ← strip_prefix [quote] l;
  '(text, rest) ← split_quote rest;
  if existsb needs_escape text then None
  else if utf8 text then Some (String.string_of_list_byte text, rest) else None.

(** ** The envelope *)
Section model.
Context {V : Type}.

Record DistributedEntry := mkDistributedEntry {
  value : V; created_ticks : Z; logical_expiration_ticks : Z; physical_expiration_ticks : Z;
  from_fail_safe : bool; entry_etag : option string; last_modified_ticks : option Z;
  entry_tags : list string }.

Inductive SnapshotRetention :=
| SR_Unspecified
| SR_Specified (size : option EntryWeight) (priority : Priority).

Record DistributedSnapshot := mkSnapshot {
  entry : DistributedEntry; snapshot_inserted_at : Timestamp; snapshot_retention : SnapshotRetention }.
End model.
Arguments DistributedEntry : clear implicits.
Arguments DistributedSnapshot : clear implicits.

(** [crate::Error], as far as this file returns it. *)
Inductive WireError :=
| Serialization | Deserialization | WE_Tag (e : TagError) | WE_Entry (e : Error)
| OperationCancelled (r : CancellationReason).
Definition tag_error {A} (r : result TagError A) : result WireError A :=
  match r with Ok a => Ok a | Err e => Err (WE_Tag e) end.
Definition entry_error {A} (r : result Error A) : result WireError A :=
  match r with Ok a => Ok a | Err e => Err (WE_Entry e) end.

Module DistributedEntry.
Section operations.
Context {V : Type}.

Definition from_entry (e : Entry V) : DistributedEntry V :=
  let m := Entry.meta e in
  mkDistributedEntry (Entry.value e) (created m) (logical_expiration m) (physical_expiration m)
    (Metadata.is_from_fail_safe m) (etag m) (last_modified m) (tags m).

Definition validate (self : DistributedEntry V) : result WireError unit :=
  if physical_expiration_ticks self <? logical_expiration_ticks self
  then Err (WE_Entry (Config InvalidEntryDeadlines))
  else
    (fix check (tags : list string) : result WireError unit :=
       match tags with
       | [] => Ok tt
       | t :: rest => _ ← tag_error (Tag_new t); check rest
       end) (entry_tags self).

Definition from_entry_with_options (e : Entry V) (options : EntryOptions) (inserted_at : Timestamp)
    : result WireError (DistributedEntry V) :=
  _ ← entry_error (config (EntryOptions.validate options));
  let snapshot := from_entry e in
  let logical := saturating_add inserted_at (EntryOptions.resolved_distributed_duration options) in
  let physical := saturating_add inserted_at (EntryOptions.distributed_physical_ttl options) in
  let m := Entry.meta e in
  let '(logical, physical) :=
    if Metadata.is_from_fail_safe m
    then (Z.min logical (logical_expiration m), Z.min physical (physical_expiration m))
    else (logical, physical) in
  let snapshot :=
    mkDistributedEntry (value snapshot) (created_ticks snapshot) logical physical
      (from_fail_safe snapshot) (entry_etag snapshot) (last_modified_ticks snapshot)
      (entry_tags snapshot) in
  _ ← validate snapshot;
  Ok snapshot.

(** [p] is the address of the new entry. *)
Definition try_into_entry_with_retention (p : Loc) (self : DistributedEntry V) (now : Timestamp)
    (retention : RetentionMetadata) : result WireError (Entry V) :=
  tags ← tag_error (try_collect_tags (entry_tags self));
  entry_error (Entry.try_rehydrate_with_retention p (value self) (created_ticks self)
    (logical_expiration_ticks self) (physical_expiration_ticks self) (from_fail_safe self)
    (entry_etag self) (last_modified_ticks self) tags retention now).
Definition try_into_entry (p : Loc) (self : DistributedEntry V) (now : Timestamp)
    : result WireError (Entry V) :=
  try_into_entry_with_retention p self now RM_Unspecified.
Definition into_entry (p : Loc) (self : DistributedEntry V) (now : Timestamp)
    : result WireError (Entry V) :=
  match try_into_entry p self now with Ok e => Ok e | Err _ => Err (WE_Entry Panicked) end.
End operations.
End DistributedEntry.

Module DistributedSnapshot.
Section operations.
Context {V : Type}.

Definition new (e : DistributedEntry V) (inserted_at : Timestamp) (retention : SnapshotRetention)
    : result WireError (DistributedSnapshot V) :=
  _ ← DistributedEntry.validate e; Ok (mkSnapshot e inserted_at retention).

Definition backend_ttl_at (self : DistributedSnapshot V) (now : Timestamp) : Duration :=
  saturating_duration_since (physical_expiration_ticks (entry self)) now.

Definition from_entry_with_options (e : Entry V) (options : EntryOptions) (inserted_at : Timestamp)
    : result WireError (DistributedSnapshot V) :=
  let retention :=
    match Metadata.stored_priority (Entry.meta e) with
    | Some priority => SR_Specified (Metadata.size (Entry.meta e)) priority
    | None => SR_Unspecified
    end in
  d ← DistributedEntry.from_entry_with_options e options inserted_at;
  new d inserted_at retention.

Definition try_into_cache_entry (p : Loc) (self : DistributedSnapshot V) (now : Timestamp)
    : result WireError (Entry V) :=
  let retention :=
    match snapshot_retention self with
    | SR_Unspecified => RM_Unspecified
    | SR_Specified size priority => RM_Specified size priority
    end in
  DistributedEntry.try_into_entry_with_retention p (entry self) now retention.

(** [with_retention] builds a second entry, at [p']. *)
Definition try_into_entry (p p' : Loc) (self : DistributedSnapshot V) (now : Timestamp)
    : result WireError (Entry V) :=
  e ← DistributedEntry.try_into_entry p (entry self) now;
  Ok match snapshot_retention self with
     | SR_Unspecified => e
     | SR_Specified size priority => Entry.with_retention p' e size priority
     end.

Definition for_memory_hydration (p p' p'' : Loc) (h : Epochs) (self : DistributedSnapshot V)
    (options : EntryOptions) (now : Timestamp) : result WireError (option (Entry V)) :=
  e ← try_into_entry p p' self now;
  entry_error (Entry.for_memory_hydration p'' h e options now).
End operations.
End DistributedSnapshot.

(** ** The snapshot frame *)
Definition SNAPSHOT_MAGIC : bytes := of_string "AMALGAM" ++ [x00].
Definition SNAPSHOT_VERSION : byte := x02.

Inductive WireRetention := WR_Unspecified | WR_Specified (size : option Z) (priority : Z).
Record SnapshotHeader := mkHeader { inserted_ticks : Z; wire_retention : WireRetention }.

Definition priority_byte (p : Priority) : Z :=
  match p with Low => 1 | Normal => 2 | High => 3 | NeverRemove => 4 end.
Definition priority_from_byte (b : Z) : result WireError Priority :=
  if b =? 1 then Ok Low else if b =? 2 then Ok Normal else if b =? 3 then Ok High
  else if b =? 4 then Ok NeverRemove else Err Deserialization.

Definition byte_of (z : Z) : byte := default x00 (Byte.of_N (Z.to_N (z mod 256))).
(** [u32::to_be_bytes] and [u32::from_be_bytes]. *)
Definition to_be_bytes (z : Z) : bytes :=
  [byte_of (z / 2 ^ 24); byte_of (z / 2 ^ 16); byte_of (z / 2 ^ 8); byte_of z].
Definition from_be_bytes (l : bytes) : Z := fold_left (λ acc b, acc * 256 + code b) l 0.

Definition canonical_header (l : bytes) : option SnapshotHeader :=
  rest ← strip_prefix (lit "{'inserted_ticks':") l;
  '(ticks, rest) ← canonical_i64 rest;
  if decide (rest = lit ",'retention':{'kind':'Unspecified'}}")
  then Some (mkHeader ticks WR_Unspecified) else None.

Section frame.
Context {V JsonError : Type}.
(** [serde_json] on headers. *)
Context (header_to_vec : SnapshotHeader → result JsonError bytes).
Context (header_from_slice : bytes → result JsonError SnapshotHeader).

Definition frame_snapshot (snapshot : DistributedSnapshot V) (payload : bytes) : result WireError bytes :=
  let retention :=
    match snapshot_retention snapshot with
    | SR_Unspecified => WR_Unspecified
    | SR_Specified size priority => WR_Specified size (priority_byte priority)
    end in
  match header_to_vec (mkHeader (snapshot_inserted_at snapshot) retention) with
  | Err _ => Err Serialization
  | Ok header =>
      let len := Z.of_nat (length header) in
      if u32_max <? len then Err Serialization
      else Ok (SNAPSHOT_MAGIC ++ [SNAPSHOT_VERSION] ++ to_be_bytes len ++ header ++ payload)
  end.

Definition unframe_snapshot (l : bytes) : result WireError (option (SnapshotHeader * bytes)) :=
  match strip_prefix SNAPSHOT_MAGIC l with
  | None => Ok None
  | Some _ =>
      if (length l <? 13)%nat || negb (bool_decide (l !! 8%nat = Some SNAPSHOT_VERSION))
      then Err Deserialization
      else
        let len := from_be_bytes (take 4 (drop 9 l)) in
        let end_ := 13 + len in
        if (u64_max <? end_) || (Z.of_nat (length l) <? end_) then Err Deserialization
        else
          let header := take (Z.to_nat len) (drop 13 l) in
          h ← match canonical_header header with
              | Some h => Ok h
              | None => match header_from_slice header with
                        | Ok h => Ok h
                        | Err _ => Err Deserialization
                        end
              end;
          Ok (Some (h, drop (Z.to_nat end_) l))
  end.

(** [DistributedSerializer]'s provided methods, over its codec. *)
Context (serialize : DistributedEntry V → result WireError bytes).
Context (deserialize : bytes → result WireError (DistributedEntry V)).

Definition serialize_snapshot (snapshot : DistributedSnapshot V) : result WireError bytes :=
  payload ← serialize (entry snapshot); frame_snapshot snapshot payload.

Definition deserialize_snapshot (l : bytes) : result WireError (DistributedSnapshot V) :=
  framed ← unframe_snapshot l;
  match framed with
  | Some (header, payload) =>
      retention ← match wire_retention header with
                  | WR_Unspecified => Ok SR_Unspecified
                  | WR_Specified size priority =>
                      p ← priority_from_byte priority; Ok (SR_Specified size p)
                  end;
      e ← deserialize payload;
      DistributedSnapshot.new e (inserted_ticks header) retention
  | None =>
      e ← deserialize l;
      DistributedSnapshot.new e (created_ticks e) SR_Unspecified
  end.
End frame.

(** ** The JSON codec *)
Section json.
Context {V JsonError : Type}.
(** [serde_json] on envelopes, and the first value of a stream with the bytes
    behind it. *)
Context (entry_to_vec : DistributedEntry V → result JsonError bytes).
Context (entry_from_slice : bytes → result JsonError (DistributedEntry V)).
Context (first_value : bytes → option (V * bytes)).

Definition canonical_bool (l : bytes) : option (bool * bytes) :=
  match strip_prefix (lit "false") l with
  | Some rest => Some (false, rest)
  | None => rest ← strip_prefix (lit "true") l; Some (true, rest)
  end.

(** [null], or what [read] reads. *)
Definition canonical_option {A} (read : bytes → option (A * bytes)) (l : bytes)
    : option (option A * bytes) :=
  match strip_prefix (lit "null") l with
  | Some rest => Some (None, rest)
  | None => '(a, rest) ← read l; Some (Some a, rest)
  end.

(** The loop over the tags; every turn consumes a byte. *)
Fixpoint tag_loop (fuel : nat) (l : bytes) (tags : list string) : option (list string * bytes) :=
  match fuel with
  | O => None
  | S fuel =>
      '(tag, after) ← canonical_string l;
      let tags := tags ++ [tag] in
      match after with
      | [] => None
      | b :: next =>
          if decide (b = ","%byte) then tag_loop fuel next tags
          else if decide (b = "]"%byte) then Some (tags, next) else None
      end
  end.
Definition canonical_tags (l : bytes) : option (list string * bytes) :=
  match strip_prefix (lit "]") l with
  | Some after => Some ([], after)
  | None => tag_loop (length l) l []
  end.

Definition canonical_entry (l : bytes) : option (DistributedEntry V) :=
  rest ← strip_prefix (lit "{'value':") l;
  '(v, rest) ← first_value rest;
  rest ← strip_prefix (lit ",'created_ticks':") rest;
  '(created, rest) ← canonical_i64 rest;
  rest ← strip_prefix (lit ",'logical_expiration_ticks':") rest;
  '(logical, rest) ← canonical_i64 rest;
  rest ← strip_prefix (lit ",'physical_expiration_ticks':") rest;
  '(physical, rest) ← canonical_i64 rest;
  rest ← strip_prefix (lit ",'is_from_fail_safe':") rest;
  '(fail_safe, rest) ← canonical_bool rest;
  rest ← strip_prefix (lit ",'etag':") rest;
  '(etag, rest) ← canonical_option canonical_string rest;
  rest ← strip_prefix (lit ",'last_modified_ticks':") rest;
  '(last_modified, rest) ← canonical_option canonical_i64 rest;
  rest ← strip_prefix (lit ",'tags':[") rest;
  '(tags, rest) ← canonical_tags rest;
  if decide (rest = lit "}")
  then Some (mkDistributedEntry v created logical physical fail_safe etag last_modified tags)
  else None.

Definition json_serialize (e : DistributedEntry V) : result WireError bytes :=
  match entry_to_vec e with Ok l => Ok l | Err _ => Err Serialization end.
Definition json_deserialize (l : bytes) : result WireError (DistributedEntry V) :=
  match canonical_entry l with
  | Some e => Ok e
  | None => match entry_from_slice l with Ok e => Ok e | Err _ => Err Deserialization end
  end.
End json.

(** ** The choice of a codec *)
Inductive SerializationMode := SyncPreferred | AsyncPreferred.

(** The synchronous codec [S]; an asynchronous one may carry one as well. *)
Inductive Serializer (S A : Type) :=
| Ser_Sync (codec : S)
| Ser_Async (codec : A) (sync_serializer : option S).
Arguments Ser_Sync {S A}.
Arguments Ser_Async {S A}.
Inductive CodecModel (S A : Type) := CM_Sync (codec : S) | CM_Async (codec : A).
Arguments CM_Sync {S A}.
Arguments CM_Async {S A}.

Module Serializer.
Section operations.
Context {S A : Type}.

Definition model (self : Serializer S A) (mode : SerializationMode) : CodecModel S A :=
  match self, mode with
  | Ser_Sync codec, _ => CM_Sync codec
  | Ser_Async codec _, AsyncPreferred => CM_Async codec
  | Ser_Async codec sync, SyncPreferred =>
      match sync with Some sync => CM_Sync sync | None => CM_Async codec end
  end.

Definition decodes_synchronously (self : Serializer S A) (mode : SerializationMode) : bool :=
  match model self mode with CM_Sync _ => true | CM_Async _ => false end.

(** [FactoryCancellation::check], when the token reads [now]. *)
Definition check (now : option CancellationReason) : result WireError unit :=
  match now with Some r => Err (OperationCancelled r) | None => Ok tt end.

(** [encode] and [decode]: [run_sync] and [run_async] are the codec's call, and
    the token reads [before] and then [after] it. *)
Definition run {R} (run_sync : S → result WireError R) (run_async : A → result WireError R)
    (self : Serializer S A) (mode : SerializationMode) (before after : option CancellationReason)
    : result WireError R :=
  _ ← check before;
  let result := match model self mode with
                | CM_Sync codec => run_sync codec
                | CM_Async codec => run_async codec
                end in
  _ ← check after;
  result.

(** [AsyncDistributedSerializer]'s [.._with_cancellation] defaults. *)
Definition with_cancellation {R} (call : result WireError R) (before after : option CancellationReason)
    : result WireError R :=
  _ ← check before; _ ← check after; call.
End operations.
End Serializer.

(** ** Decimal text is read exactly *)
Lemma wrap64_id z : 0 ≤ z < 2 ^ 64 → wrap64 z = z.
Proof. apply Z.mod_small. Qed.

Lemma code_range b : 0 ≤ code b < 256.
Proof. unfold code. pose proof (Byte.to_N_bounded b). lia. Qed.

Lemma code_inj a b : code a = code b → a = b.
Proof.
  intros H. assert (Byte.to_N a = Byte.to_N b) as E by (unfold code in H; lia).
  assert (Some a = Some b) as [= ->] by (by rewrite <-!Byte.of_to_N, E). done.
Qed.

Lemma land_lane k a x c m :
  0 ≤ k → 0 ≤ a < 2 ^ k → 0 ≤ c < 2 ^ k →
  Z.land (a + 2 ^ k * x) (c + 2 ^ k * m) = Z.land a c + 2 ^ k * Z.land x m.
Proof.
  intros Hk Ha Hc. assert (0 < 2 ^ k) by lia.
  rewrite (Z.div_mod (Z.land (a + 2 ^ k * x) (c + 2 ^ k * m)) (2 ^ k)) by lia.
  rewrite <-Z.shiftr_div_pow2, Z.shiftr_land, !Z.shiftr_div_pow2 by done.
  rewrite !(Z.mul_comm (2 ^ k)), !Z.div_add, !(Z.div_small _ (2 ^ k)), !Z.add_0_l by lia.
  assert (Z.land (a + x * 2 ^ k) (c + m * 2 ^ k) mod 2 ^ k = Z.land a c) as ->; [|lia].
  rewrite <-Z.land_ones by done.
  transitivity (Z.land (Z.land (a + x * 2 ^ k) (Z.ones k)) (Z.land (c + m * 2 ^ k) (Z.ones k))).
  { apply Z.bits_inj'. intros n _. rewrite !Z.land_spec. destruct (Z.testbit (Z.ones k) n); rewrite ?andb_true_r, ?andb_false_r; done. }
  rewrite !Z.land_ones, !Z.mod_add, !Z.mod_small by lia. done.
Qed.

(** A register of lanes [k] bits wide. *)
Fixpoint lanes (k : Z) (l : list Z) : Z := match l with [] => 0 | a :: l => a + 2 ^ k * lanes k l end.

Lemma land_lanes k l masks :
  0 ≤ k → length l = length masks → Forall (λ a, 0 ≤ a < 2 ^ k) l → Forall (λ a, 0 ≤ a < 2 ^ k) masks →
  Z.land (lanes k l) (lanes k masks) = lanes k (zip_with Z.land l masks).
Proof.
  intros Hk. revert masks. induction l as [|a l IH]; intros [|c masks] Hlen Hl Hm; try done; simpl.
  inversion Hl; inversion Hm; subst. rewrite land_lane by done. rewrite IH by auto with lia. done.
Qed.

Lemma shiftr_lanes k a l : 0 ≤ k → 0 ≤ a < 2 ^ k → Z.shiftr (lanes k (a :: l)) k = lanes k l.
Proof.
  intros. simpl. generalize (lanes k l); intros x. rewrite Z.shiftr_div_pow2, (Z.mul_comm (2 ^ k)), Z.div_add, Z.div_small by lia. lia.
Qed.

Definition decimal_digit (d : Z) : Prop := 0 ≤ d ≤ 9.
Lemma is_ascii_digit_spec b : is_ascii_digit b = true ↔ decimal_digit (digit b).
Proof. unfold is_ascii_digit, decimal_digit, digit. lia. Qed.

(** The value of decimal digits, one at a time. *)
Definition horner (value : Z) (digits : bytes) : Z := fold_left (λ v b, v * 10 + digit b) digits value.

Lemma eight_digits_exact b0 b1 b2 b3 b4 b5 b6 b7 :
  Forall (λ b, is_ascii_digit b = true) [b0; b1; b2; b3; b4; b5; b6; b7] →
  eight_digits [b0; b1; b2; b3; b4; b5; b6; b7] = horner 0 [b0; b1; b2; b3; b4; b5; b6; b7].
Proof.
  intros H. repeat match goal with H : Forall _ (_ :: _) |- _ => inversion H; subst; clear H end.
  repeat match goal with H : is_ascii_digit ?b = true |- _ =>
    apply is_ascii_digit_spec in H; unfold decimal_digit in H end.
  unfold eight_digits, horner, from_le_bytes. simpl fold_left. simpl foldr.
  assert (∀ b, code b = digit b + 48) as Hc by (unfold digit; lia). rewrite !Hc. clear Hc.
  generalize dependent (digit b0). generalize dependent (digit b1). generalize dependent (digit b2).
  generalize dependent (digit b3). generalize dependent (digit b4). generalize dependent (digit b5).
  generalize dependent (digit b6). generalize dependent (digit b7). intros d7 ? d6 ? d5 ? d4 ? d3 ? d2 ? d1 ? d0 ?.
  match goal with |- context [wrap64 (?z - ?c)] => assert (wrap64 (z - c) = lanes 8 [d0; d1; d2; d3; d4; d5; d6; d7]) as -> end.
  { rewrite wrap64_id by lia. simpl. lia. }
  rewrite shiftr_lanes by lia.
  match goal with |- context [Z.land (wrap64 ?z) 0x00FF00FF00FF00FF] => assert (wrap64 z = lanes 8 [d0 * 10 + d1; d1 * 10 + d2; d2 * 10 + d3;
     d3 * 10 + d4; d4 * 10 + d5; d5 * 10 + d6; d6 * 10 + d7; d7 * 10]) as -> end.
  { rewrite (wrap64_id (_ * 10)) by (simpl; lia). rewrite wrap64_id by (simpl; lia). simpl; lia. }
  change 0x00FF00FF00FF00FF with (lanes 8 [255; 0; 255; 0; 255; 0; 255; 0]).
  rewrite land_lanes by (try done; repeat constructor; lia).
  unfold zip_with. rewrite !Z.land_0_r. change 255 with (Z.ones 8). rewrite !Z.land_ones, !Z.mod_small by lia.
  match goal with |- context [lanes 8 ?l] => assert (lanes 8 l = lanes 16 [d0 * 10 + d1; d2 * 10 + d3; d4 * 10 + d5; d6 * 10 + d7]) as ->
     by (simpl; lia) end.
  rewrite shiftr_lanes by lia.
  match goal with |- context [Z.land (wrap64 ?z) 0x0000FFFF0000FFFF] =>
    assert (wrap64 z = lanes 16 [(d0 * 10 + d1) * 100 + (d2 * 10 + d3); (d2 * 10 + d3) * 100 + (d4 * 10 + d5);
      (d4 * 10 + d5) * 100 + (d6 * 10 + d7); (d6 * 10 + d7) * 100]) as -> end.
  { rewrite (wrap64_id (_ * 100)) by (simpl; lia). rewrite wrap64_id by (simpl; lia). simpl; lia. }
  change 0x0000FFFF0000FFFF with (lanes 16 [65535; 0; 65535; 0]).
  rewrite land_lanes by (try done; repeat constructor; lia).
  unfold zip_with. rewrite !Z.land_0_r. change 65535 with (Z.ones 16). rewrite !Z.land_ones, !Z.mod_small by lia.
  match goal with |- context [lanes 16 ?l] => assert (lanes 16 l = lanes 32 [(d0 * 10 + d1) * 100 + (d2 * 10 + d3); (d4 * 10 + d5) * 100 + (d6 * 10 + d7)]) as ->
     by (simpl; lia) end.
  rewrite shiftr_lanes by lia. rewrite (wrap64_id (_ * 10000)) by (simpl; lia). rewrite wrap64_id by (simpl; lia).
  change 0xFFFFFFFF with (Z.ones 32). rewrite Z.land_ones by lia. simpl.
  match goal with |- ?z mod ?m = ?v => symmetry; apply (Z.mod_unique_pos z m (((d4 * 10 + d5) * 100 + (d6 * 10 + d7)) * 10000) v); lia end.
Qed.

Lemma horner_app v l1 l2 : horner v (l1 ++ l2) = horner (horner v l1) l2.
Proof. apply fold_left_app. Qed.

Definition all_digits (l : bytes) : Prop := Forall (λ b, is_ascii_digit b = true) l.

Lemma horner_bounds v l :
  all_digits l → 0 ≤ v → v * 10 ^ Z.of_nat (length l) ≤ horner v l < (v + 1) * 10 ^ Z.of_nat (length l).
Proof.
  revert v. induction l as [|b l IH]; intros v Hl Hv; [simpl; lia|]. inversion_clear Hl.
  apply is_ascii_digit_spec in H. unfold decimal_digit in H. change (horner v (b :: l)) with (horner (v * 10 + digit b) l).
  specialize (IH (v * 10 + digit b) H0 ltac:(lia)). rewrite length_cons, Nat2Z.inj_succ, Z.pow_succ_r by lia. nia.
Qed.

(** Chunks of eight or not, the value is the same, as long as it fits. *)
Lemma decimal_from_exact v l :
  all_digits l → 0 ≤ v → (v + 1) * 10 ^ Z.of_nat (length l) ≤ 2 ^ 64 → decimal_from v l = horner v l.
Proof.
  assert (Hone : ∀ l v, all_digits l → 0 ≤ v → (v + 1) * 10 ^ Z.of_nat (length l) ≤ 2 ^ 64 →
            fold_left (λ value b, wrap64 (wrap64 (value * 10) + digit b)) l v = horner v l).
  { clear. induction l as [|b l IH]; intros v Hl Hv Hb; [done|]. inversion_clear Hl.
    apply is_ascii_digit_spec in H. unfold decimal_digit in H.
    rewrite length_cons, Nat2Z.inj_succ, Z.pow_succ_r in Hb by lia. assert (0 < 10 ^ Z.of_nat (length l)) by lia.
    change (horner v (b :: l)) with (horner (v * 10 + digit b) l). simpl.
    rewrite (wrap64_id (v * 10)) by nia. rewrite wrap64_id by nia. apply IH; [done|lia|nia]. }
  remember (length l) as n eqn:Hn. revert v l Hn. induction n as [n IH] using lt_wf_ind. intros v l -> Hl Hv Hb.
  destruct l as [|b0 [|b1 [|b2 [|b3 [|b4 [|b5 [|b6 [|b7 rest]]]]]]]]; try (by apply Hone).
  change (decimal_from v (b0 :: b1 :: b2 :: b3 :: b4 :: b5 :: b6 :: b7 :: rest)) with
    (decimal_from (wrap64 (wrap64 (v * 100000000) + eight_digits [b0; b1; b2; b3; b4; b5; b6; b7])) rest).
  change (b0 :: b1 :: b2 :: b3 :: b4 :: b5 :: b6 :: b7 :: rest) with ([b0; b1; b2; b3; b4; b5; b6; b7] ++ rest) in *.
  apply Forall_app in Hl as [H8 Hrest]. rewrite horner_app, eight_digits_exact by done.
  assert (horner v [b0; b1; b2; b3; b4; b5; b6; b7] = v * 100000000 + horner 0 [b0; b1; b2; b3; b4; b5; b6; b7]) as ->
    by (unfold horner; simpl; lia).
  pose proof (horner_bounds 0 _ H8 ltac:(lia)) as Hh. rewrite length_app in Hb.
  set (h := horner 0 _) in *. change (Z.of_nat (length [b0; b1; b2; b3; b4; b5; b6; b7])) with 8 in Hh. change (10 ^ 8) with 100000000 in Hh.
  rewrite Nat2Z.inj_add, Z.pow_add_r in Hb by lia. change (10 ^ Z.of_nat _) with 100000000 in Hb at 1.
  assert (0 < 10 ^ Z.of_nat (length rest)) by lia.
  rewrite (wrap64_id (v * _)) by nia. rewrite wrap64_id by nia.
  eapply IH; [|done|done|lia|nia]. rewrite length_app. simpl. lia.
Qed.

Corollary decimal_exact l : all_digits l → (length l ≤ 19)%nat → decimal l = horner 0 l.
Proof.
  intros Hl Hn. apply decimal_from_exact; [done|lia|].
  assert (10 ^ Z.of_nat (length l) ≤ 10 ^ 19) by (apply Z.pow_le_mono_r; lia). lia.
Qed.

(** *** The text of an integer *)
Lemma code_byte_of z : code (byte_of z) = z mod 256.
Proof.
  unfold byte_of, code. assert (0 ≤ z mod 256 < 256) as H by (by apply Z.mod_pos_bound).
  destruct (Byte.of_N (Z.to_N (z mod 256))) as [b|] eqn:E; simpl.
  - apply Byte.to_of_N in E. lia.
  - apply Byte.of_N_None_iff in E. lia.
Qed.

Definition digit_byte (d : Z) : byte := byte_of (48 + d).
Lemma digit_digit_byte d : decimal_digit d → digit (digit_byte d) = d.
Proof. intros H. unfold digit, digit_byte, decimal_digit in *. rewrite code_byte_of, Z.mod_small by lia. lia. Qed.
Lemma digit_byte_ascii d : decimal_digit d → is_ascii_digit (digit_byte d) = true.
Proof. intros H. apply is_ascii_digit_spec. by rewrite digit_digit_byte. Qed.
Lemma digit_inj a b : digit a = digit b → a = b.
Proof. unfold digit. intros. apply code_inj. lia. Qed.

(** Decimal text without leading zeros, as [serde_json] writes integers. *)
Fixpoint show_digits (fuel : nat) (n : Z) : bytes :=
  match fuel with
  | O => []
  | S fuel => if n <? 10 then [digit_byte n] else show_digits fuel (n / 10) ++ [digit_byte (n mod 10)]
  end.
Definition show_i64 (z : Z) : bytes :=
  if z <? 0 then "-"%byte :: show_digits 19 (- z) else show_digits 19 z.

(** Digits, at least one, and no leading zero but in [0]. *)
Definition canonical_digits (l : bytes) : Prop :=
  all_digits l ∧ l ≠ [] ∧ (1 < length l → head l ≠ Some "0"%byte)%nat.

Lemma horner_snoc v l b : horner v (l ++ [b]) = horner v l * 10 + digit b.
Proof. by rewrite horner_app. Qed.

Lemma show_digits_spec fuel n :
  0 ≤ n < 10 ^ Z.of_nat fuel → (0 < fuel)%nat →
  canonical_digits (show_digits fuel n) ∧ (length (show_digits fuel n) ≤ fuel)%nat ∧
  horner 0 (show_digits fuel n) = n ∧ (0 < n → head (show_digits fuel n) ≠ Some "0"%byte).
Proof.
  revert n. induction fuel as [|fuel IH]; intros n Hn Hf; [lia|]. simpl.
  destruct (n <? 10) eqn:E; bool_to_prop.
  - assert (decimal_digit n) as Hd by (unfold decimal_digit; lia).
    split; [split; [by repeat constructor; apply digit_byte_ascii|split; [done|simpl; lia]]|]. simpl.
    split; [lia|]. split; [unfold horner; simpl; by rewrite digit_digit_byte|].
    intros H [= H0]. apply (f_equal digit) in H0. rewrite digit_digit_byte in H0 by done. change (digit "0"%byte) with 0 in H0. lia.
  - assert (0 < n / 10) as Hpos by (apply Z.div_str_pos; lia).
    rewrite Nat2Z.inj_succ, Z.pow_succ_r in Hn by lia.
    assert (n / 10 < 10 ^ Z.of_nat fuel) by (apply Z.div_lt_upper_bound; lia).
    assert (0 < fuel)%nat by (destruct fuel; simpl in *; lia).
    destruct (IH (n / 10)) as ((Hall & Hne & _) & Hlen & Hval & Hhead); [lia|done|].
    pose proof (Z.mod_pos_bound n 10). assert (decimal_digit (n mod 10)) as Hd by (unfold decimal_digit; lia).
    assert (head (show_digits fuel (n / 10) ++ [digit_byte (n mod 10)]) ≠ Some "0"%byte) as Hh.
    { destruct (show_digits fuel (n / 10)); [done|]. by apply Hhead. }
    split; [split; [apply Forall_app; split; [done|by repeat constructor; apply digit_byte_ascii]|split; [by destruct (show_digits fuel (n / 10))|done]]|].
    rewrite length_app. simpl. split; [lia|]. split; [|done].
    rewrite horner_snoc, Hval, digit_digit_byte by done. pose proof (Z.div_mod n 10). lia.
Qed.

Lemma horner_inj l l' : all_digits l → all_digits l' → length l = length l' → horner 0 l = horner 0 l' → l = l'.
Proof.
  revert l'. induction l as [|b l IH] using rev_ind; intros l' Hl Hl' Hlen Hh.
  { by destruct l'. }
  induction l' as [|b' l' _] using rev_ind; [rewrite length_app in Hlen; simpl in Hlen; lia|].
  rewrite !length_app in Hlen. simpl in Hlen. apply Forall_app in Hl as [Hl Hb]. apply Forall_app in Hl' as [Hl' Hb'].
  inversion_clear Hb. inversion_clear Hb'. apply is_ascii_digit_spec in H, H1. unfold decimal_digit in *.
  rewrite !horner_snoc in Hh. f_equal; [apply IH; [done|done|lia|lia]|]. f_equal. apply digit_inj. lia.
Qed.

(** Canonical digits are determined by their value. *)
Lemma canonical_digits_inj l l' :
  canonical_digits l → canonical_digits l' → horner 0 l = horner 0 l' → l = l'.
Proof.
  assert (Hlow : ∀ l, canonical_digits l → (1 < length l)%nat → 10 ^ (Z.of_nat (length l) - 1) ≤ horner 0 l).
  { clear. intros [|b l] (Hall & Hne & Hz) Hlen; [done|]. simpl in *. inversion_clear Hall.
    change (horner 0 (b :: l)) with (horner (0 * 10 + digit b) l). apply is_ascii_digit_spec in H as Hd. unfold decimal_digit in Hd.
    destruct (decide (digit b = 0)) as [E|E].
    { destruct Hz; [lia|]. f_equal. by apply digit_inj. }
    pose proof (horner_bounds (digit b) l H0 ltac:(lia)). replace (Z.of_nat (S (length l)) - 1) with (Z.of_nat (length l)) by lia.
    replace (0 * 10 + digit b) with (digit b) by lia. nia. }
  assert (Hle : ∀ l l', canonical_digits l → canonical_digits l' → horner 0 l = horner 0 l' → (length l ≤ length l')%nat).
  { intros a b Ha Hb Heq. destruct (decide (length a ≤ length b)%nat) as [?|Hlt]; [done|]. exfalso.
    assert (1 < length a)%nat by (destruct Hb as (_ & Hne & _); destruct b; [done|simpl in *; lia]).
    pose proof (Hlow a Ha ltac:(lia)) as H1. destruct Hb as (Hb & _). pose proof (horner_bounds 0 b Hb ltac:(lia)).
    assert (10 ^ Z.of_nat (length b) ≤ 10 ^ (Z.of_nat (length a) - 1)) by (apply Z.pow_le_mono_r; lia). lia. }
  intros Hl Hl' Heq. apply horner_inj; [apply Hl|apply Hl'| |done].
  pose proof (Hle _ _ Hl Hl' Heq). pose proof (Hle _ _ Hl' Hl (eq_sym Heq)). lia.
Qed.

(** ** The canonical decoders accept exactly one text *)
Lemma strip_prefix_spec p l r : strip_prefix p l = Some r ↔ l = p ++ r.
Proof.
  revert l. induction p as [|a p IH]; intros l; simpl; [naive_solver|].
  destruct l as [|b l]; [naive_solver|]. case_decide as E; [subst; rewrite IH; naive_solver|]. split; [done|congruence].
Qed.
Lemma wire_strip_prefix_app p r : strip_prefix p (p ++ r) = Some r.
Proof. by apply strip_prefix_spec. Qed.

(** The text of an integer ends here. *)
Definition no_digit (l : bytes) : Prop := match l with b :: _ => is_ascii_digit b = false | [] => True end.

Lemma span_digits_spec l n r :
  span_digits l = (n, r) ↔ l = n ++ r ∧ all_digits n ∧ no_digit r.
Proof.
  revert n r. induction l as [|b l IH]; intros n r; simpl.
  { split; [intros [= <- <-]; repeat constructor|]. intros (E & _). by destruct n; [destruct r|]. }
  destruct (is_ascii_digit b) eqn:Eb.
  - destruct (span_digits l) as [n' r'] eqn:E. destruct (proj1 (IH n' r') eq_refl) as (-> & Hn & Hr). split.
    + intros [= <- <-]. split_and!; [done|by constructor|done].
    + intros (Heq & Hall & Hno). destruct n as [|c n]; [simpl in *; subst; simpl in *; congruence|].
      injection Heq as -> Heq. inversion_clear Hall.
      assert ((n', r') = (n, r)) as [= -> ->]; [|done]. apply IH. done.
  - split.
    + intros [= <- <-]. split_and!; [done|constructor|done].
    + intros (Heq & Hall & Hno). destruct n as [|c n]; [by simpl in *; subst|].
      injection Heq as <- Heq. inversion_clear Hall. congruence.
Qed.

Lemma dash_no_digit : is_ascii_digit "-"%byte = false.
Proof. done. Qed.

(** The texts [canonical_i64] reads as [z]. *)
Definition number_text (z : Z) (t : bytes) : Prop := t = show_i64 z ∨ z = 0 ∧ t = lit "-0".

Lemma show_i64_nonneg z : 0 ≤ z → show_i64 z = show_digits 19 z.
Proof. unfold show_i64. destruct (z <? 0) eqn:E; bool_to_prop; [lia|done]. Qed.

Lemma canonical_digits_show l : canonical_digits l → horner 0 l ≤ i64_max → l = show_digits 19 (horner 0 l).
Proof.
  intros Hl Hb. pose proof (horner_bounds 0 l (proj1 Hl) ltac:(lia)).
  destruct (show_digits_spec 19 (horner 0 l)) as (Hc & _ & Hv & _); [lia|lia|].
  by apply canonical_digits_inj.
Qed.

Lemma canonical_digits_length l : canonical_digits l → horner 0 l ≤ i64_max → (length l ≤ 19)%nat.
Proof.
  intros Hl Hb. rewrite (canonical_digits_show l Hl Hb) at 1. apply show_digits_spec; [|lia].
  pose proof (horner_bounds 0 l (proj1 Hl) ltac:(lia)). lia.
Qed.

(** The digits after the optional sign. *)
Definition unsigned_part (l : bytes) : option (Z * bytes) :=
  let '(number, rest) := span_digits l in
  let len := length number in
  if (len =? 0)%nat || (19 <? len)%nat || ((1 <? len)%nat && bool_decide (head number = Some "0"%byte))
  then None else magnitude ← try_i64 (decimal number); Some (magnitude, rest).

Lemma unsigned_part_spec l m r :
  unsigned_part l = Some (m, r) ↔
  ∃ n, l = n ++ r ∧ no_digit r ∧ canonical_digits n ∧ horner 0 n = m ∧ m ≤ i64_max.
Proof.
  unfold unsigned_part. destruct (span_digits l) as [n' r'] eqn:E. apply span_digits_spec in E as (-> & Hn & Hr). split.
  - destruct (_ || _) eqn:Eb; [done|]. apply orb_false_elim in Eb as [Eb Hz]. apply orb_false_elim in Eb as [H1 H2].
    apply Nat.eqb_neq in H1. apply Nat.ltb_ge in H2.
    rewrite decimal_exact by done. intros Hs. destruct (try_i64 (horner 0 n')) as [m'|] eqn:Em; [|done].
    injection Hs as <- <-. apply try_i64_spec in Em as [<- Hm].
    exists n'. do 2 (split; [done|]). split; [|split; [done|unfold_ints; lia]]. split; [done|]. split; [intros ->; by apply H1|].
    intros Hlen Hh. rewrite Hh in Hz. apply Nat.ltb_lt in Hlen. by rewrite Hlen in Hz.
  - intros (n & Heq & Hno & Hc & <- & Hm). assert ((n', r') = (n, r)) as [= -> ->].
    { rewrite <-(proj2 (span_digits_spec (n ++ r) n r)) by (split_and!; [done|apply Hc|done]).
      rewrite <-Heq. symmetry. by apply span_digits_spec. }
    pose proof (canonical_digits_length n Hc Hm). destruct Hc as (Hall & Hne & Hz).
    assert (negb ((length n =? 0)%nat || (19 <? length n)%nat || ((1 <? length n)%nat && bool_decide (head n = Some "0"%byte))) = true) as Hg.
    { rewrite !negb_orb, negb_andb. apply andb_true_intro; split; [apply andb_true_intro; split|].
      - apply negb_true_iff, Nat.eqb_neq. by destruct n.
      - apply negb_true_iff, Nat.ltb_ge. lia.
      - destruct (1 <? length n)%nat eqn:El; [|done]. apply Nat.ltb_lt in El. simpl. rewrite bool_decide_eq_false_2; auto. }
    apply negb_true_iff in Hg. rewrite Hg, decimal_exact by done.
    pose proof (horner_bounds 0 n Hall ltac:(lia)).
    rewrite (proj2 (try_i64_spec (horner 0 n) (horner 0 n))) by (split; [done|unfold_ints; lia]). done.
Qed.

Lemma canonical_i64_dash tail : canonical_i64 ("-"%byte :: tail) = '(m, r) ← unsigned_part tail; Some (- m, r).
Proof.
  unfold canonical_i64, unsigned_part. rewrite decide_True by done. destruct (span_digits tail) as [n r].
  destruct (_ || _); [done|]. by destruct (try_i64 (decimal n)).
Qed.
Lemma canonical_i64_plain b tail : b ≠ "-"%byte → canonical_i64 (b :: tail) = unsigned_part (b :: tail).
Proof.
  intros. unfold canonical_i64, unsigned_part. rewrite decide_False by done. destruct (span_digits (b :: tail)) as [n r].
  destruct (_ || _); [done|]. by destruct (try_i64 (decimal n)).
Qed.

Lemma canonical_i64_spec l z r :
  canonical_i64 l = Some (z, r) ↔
  ∃ t, l = t ++ r ∧ number_text z t ∧ no_digit r ∧ - i64_max ≤ z ≤ i64_max.
Proof.
  split.
  - destruct l as [|first tail]; [done|]. destruct (decide (first = "-"%byte)) as [->|Ed].
    + rewrite canonical_i64_dash. destruct (unsigned_part tail) as [[m r']|] eqn:E; [|done]. intros [= <- <-].
      apply unsigned_part_spec in E as (n & -> & Hno & Hc & <- & Hm). exists ("-"%byte :: n).
      pose proof (horner_bounds 0 n (proj1 Hc) ltac:(lia)). split_and!; [done| |done|lia|lia].
      destruct (decide (horner 0 n = 0)) as [E0|E0].
      * right. rewrite E0. split; [done|]. rewrite (canonical_digits_show n Hc Hm), E0. done.
      * left. unfold show_i64. rewrite (proj2 (Z.ltb_lt _ _)), Z.opp_involutive by lia. f_equal. by apply canonical_digits_show.
    + rewrite canonical_i64_plain by done. intros (n & Heq & Hno & Hc & <- & Hm)%unsigned_part_spec. rewrite Heq. exists n.
      pose proof (horner_bounds 0 n (proj1 Hc) ltac:(lia)). split_and!; [done| |done|lia|lia].
      left. rewrite show_i64_nonneg by lia. by apply canonical_digits_show.
  - intros (t & -> & Ht & Hno & Hz).
    assert (∀ n, 0 ≤ n ≤ i64_max → unsigned_part (show_digits 19 n ++ r) = Some (n, r)) as Hun.
    { intros n Hn. destruct (show_digits_spec 19 n) as (Hc & _ & Hv & _); [lia|lia|]. apply unsigned_part_spec.
      exists (show_digits 19 n). do 3 (split; [done|]). split; [done|lia]. }
    destruct Ht as [->|[-> ->]].
    + unfold show_i64. destruct (z <? 0) eqn:E; bool_to_prop.
      * rewrite <-app_comm_cons, canonical_i64_dash, Hun by lia. cbn [mbind option_bind]. by rewrite Z.opp_involutive.
      * destruct (show_digits_spec 19 z) as ((Hall & Hne & _) & _); [lia|lia|].
        rewrite <-(Hun z) by lia. destruct (show_digits 19 z) as [|b n]; [done|]. inversion_clear Hall.
        apply (canonical_i64_plain b). by intros ->.
    + change (lit "-0" ++ r) with ("-"%byte :: (show_digits 19 0 ++ r)). by rewrite canonical_i64_dash, Hun.
Qed.

(** A string that JSON writes without escapes. *)
Definition plain (s : string) : Prop :=
  Forall (λ b, b ≠ quote ∧ needs_escape b = false) (of_string s) ∧ utf8 (of_string s) = true.
Definition string_text (s : string) (t : bytes) : Prop := t = quote :: of_string s ++ [quote] ∧ plain s.
Definition i64_text (z : Z) (t : bytes) : Prop := number_text z t ∧ - i64_max ≤ z ≤ i64_max.
Definition option_text {A} (text : A → bytes → Prop) (o : option A) (t : bytes) : Prop :=
  match o with Some a => text a t | None => t = lit "null" end.
Definition bool_text (b : bool) (t : bytes) : Prop := t = if b then lit "true" else lit "false".

(** The tags behind the opening bracket. *)
Fixpoint tags_text (tags : list string) (t : bytes) : Prop :=
  match tags with
  | [] => False
  | [tag] => ∃ s, string_text tag s ∧ t = s ++ lit "]"
  | tag :: tags => ∃ s rest, string_text tag s ∧ tags_text tags rest ∧ t = s ++ lit "," ++ rest
  end.
Definition array_text (tags : list string) (t : bytes) : Prop :=
  match tags with [] => t = lit "]" | _ => tags_text tags t end.

Lemma split_quote_spec l t r :
  split_quote l = Some (t, r) ↔ l = t ++ quote :: r ∧ Forall (λ b, b ≠ quote) t.
Proof.
  revert t r. induction l as [|b l IH]; intros t r; simpl.
  { split; [done|]. intros [E _]. by destruct t. }
  case_decide as E.
  - subst. split; [intros [= <- <-]; by repeat constructor|]. intros [Heq Hall].
    destruct t as [|c t]; [simpl in Heq; congruence|]. injection Heq as <- _. by inversion_clear Hall.
  - destruct (split_quote l) as [[t' r']|] eqn:El; simpl.
    + destruct (proj1 (IH t' r') eq_refl) as [-> Hall]. split.
      * intros [= <- <-]. split; [done|by constructor].
      * intros [Heq Hall']. destruct t as [|c t]; [simpl in Heq; congruence|]. injection Heq as -> Heq.
        inversion_clear Hall'. assert (Some (t', r') = Some (t, r)) as [= -> ->]; [|done]. by apply IH.
    + split; [done|]. intros [Heq Hall]. destruct t as [|c t]; [simpl in Heq; congruence|]. injection Heq as -> Heq.
      inversion_clear Hall. assert (None = Some (t, r)); [|done]. by apply IH.
Qed.

Lemma no_escape l : existsb needs_escape l = false ↔ Forall (λ b, needs_escape b = false) l.
Proof.
  induction l as [|b l IH]; simpl; [split; [constructor|done]|]. rewrite orb_false_iff, IH, Forall_cons. done.
Qed.

Lemma canonical_string_spec l s r :
  canonical_string l = Some (s, r) ↔ ∃ t, l = t ++ r ∧ string_text s t.
Proof.
  unfold canonical_string. split.
  - destruct (strip_prefix [quote] l) as [rest|] eqn:E; [|done]. apply strip_prefix_spec in E as ->. simpl.
    destruct (split_quote rest) as [[t r']|] eqn:E; [|done]. apply split_quote_spec in E as [-> Hq]. simpl.
    destruct (existsb _ t) eqn:Ee; [done|]. destruct (utf8 t) eqn:Eu; [|done]. intros [= <- <-].
    exists (quote :: t ++ [quote]). unfold of_string, string_text. apply no_escape in Ee. split; [by rewrite <-app_comm_cons, <-app_assoc|].
    unfold plain, of_string. rewrite String.list_byte_of_string_of_list_byte. split; [done|]. split; [|done].
    apply Forall_and. done.
  - intros (t & -> & -> & Hp & Hu). rewrite <-app_comm_cons, <-app_assoc. change (quote :: of_string s ++ [quote] ++ r) with ([quote] ++ (of_string s ++ quote :: r)).
    rewrite wire_strip_prefix_app. simpl. apply Forall_and in Hp as [Hq He].
    rewrite (proj2 (split_quote_spec _ (of_string s) r)) by done. simpl.
    rewrite (proj2 (no_escape _)) by done. rewrite Hu. unfold of_string. by rewrite String.string_of_list_byte_of_string.
Qed.

Lemma string_text_inj s s' t : string_text s t → string_text s' t → s = s'.
Proof.
  intros Hs Hs'. assert (Some (s, @nil byte) = Some (s', [])) as [= ->]; [|done].
  transitivity (canonical_string (t ++ [])); [symmetry|]; apply canonical_string_spec; by exists t.
Qed.

Lemma strip_null_string s t r : string_text s t → strip_prefix (lit "null") (t ++ r) = None.
Proof. by intros [-> _]. Qed.

Lemma show_i64_head z : is_i64 z → ∃ b n, show_i64 z = b :: n ∧ (b = "-"%byte ∨ is_ascii_digit b = true).
Proof.
  unfold show_i64, is_i64. intros Hz. destruct (z <? 0) eqn:E; bool_to_prop; [eauto|].
  destruct (show_digits_spec 19 z) as ((Hall & Hne & _) & _); [lia|lia|].
  destruct (show_digits 19 z) as [|b n]; [done|]. inversion_clear Hall. eauto.
Qed.

Lemma strip_null_show z r : is_i64 z → strip_prefix (lit "null") (show_i64 z ++ r) = None.
Proof. intros (b & n & -> & Hb)%show_i64_head. simpl. case_decide as E; [|done]. subst. by destruct Hb. Qed.

Lemma strip_null_i64 z t r : i64_text z t → strip_prefix (lit "null") (t ++ r) = None.
Proof. intros [[->|[_ ->]] Hz]; [apply strip_null_show; unfold_ints; lia|done]. Qed.

Lemma canonical_i64_reads l z r :
  canonical_i64 l = Some (z, r) ↔ ∃ t, l = t ++ r ∧ i64_text z t ∧ no_digit r.
Proof. rewrite canonical_i64_spec. unfold i64_text. naive_solver. Qed.

Lemma canonical_bool_spec l b r : canonical_bool l = Some (b, r) ↔ ∃ t, l = t ++ r ∧ bool_text b t.
Proof.
  unfold canonical_bool, bool_text. split.
  - destruct (strip_prefix (lit "false") l) as [r'|] eqn:E.
    + apply strip_prefix_spec in E as ->. intros [= <- <-]. by exists (lit "false").
    + destruct (strip_prefix (lit "true") l) as [r'|] eqn:E'; [|done]. apply strip_prefix_spec in E' as ->.
      intros [= <- <-]. by exists (lit "true").
  - intros (t & -> & ->). by destruct b; [simpl; rewrite ?wire_strip_prefix_app|rewrite wire_strip_prefix_app].
Qed.

Lemma canonical_option_some {A} read (text : A → bytes → Prop) l o r :
  (∀ l a r, read l = Some (a, r) → ∃ t, l = t ++ r ∧ text a t) →
  canonical_option read l = Some (o, r) → ∃ t, l = t ++ r ∧ option_text text o t.
Proof.
  unfold canonical_option. intros Hread. destruct (strip_prefix (lit "null") l) as [r'|] eqn:E.
  - apply strip_prefix_spec in E as ->. intros [= <- <-]. by exists (lit "null").
  - destruct (read l) as [[a r']|] eqn:Er; [|done]. intros [= <- <-]. apply Hread in Er as (t & -> & Ht). by exists t.
Qed.

Lemma canonical_option_reads {A} read (text : A → bytes → Prop) o t r :
  (∀ a t, text a t → strip_prefix (lit "null") (t ++ r) = None) →
  (∀ a t, text a t → read (t ++ r) = Some (a, r)) →
  option_text text o t → canonical_option read (t ++ r) = Some (o, r).
Proof.
  unfold canonical_option. intros Hnull Hread. destruct o as [a|]; cbn [option_text].
  - intros Ht. by rewrite (Hnull a), (Hread a).
  - intros ->. by rewrite wire_strip_prefix_app.
Qed.

Lemma tags_text_length tags t : tags_text tags t → (length tags < length t)%nat.
Proof.
  revert t. induction tags as [|tag tags IH]; intros t; [done|]. simpl. destruct tags as [|tag' tags].
  - intros (s & [-> _] & ->). rewrite length_app. simpl. rewrite length_app. simpl. lia.
  - intros (s & rest & [-> _] & Hr & ->). specialize (IH rest Hr). rewrite !length_app. simpl in *. rewrite length_app. simpl. lia.
Qed.

Lemma tag_loop_some fuel l acc tags r :
  tag_loop fuel l acc = Some (tags, r) → ∃ more t, tags = acc ++ more ∧ l = t ++ r ∧ tags_text more t.
Proof.
  revert l acc. induction fuel as [|fuel IH]; intros l acc; simpl; [done|].
  destruct (canonical_string l) as [[tag after]|] eqn:E; [|done]. simpl.
  apply canonical_string_spec in E as (s & -> & Hs). destruct after as [|b next]; [done|].
  case_decide as Ec.
  - subst. intros (more & t & -> & -> & Ht)%IH. exists (tag :: more), (s ++ lit "," ++ t).
    rewrite <-!app_assoc. split_and!; [done|done|]. destruct more; [done|]. simpl. eauto.
  - case_decide as Eb; [|done]. subst. intros [= <- <-]. exists [tag], (s ++ lit "]").
    rewrite <-!app_assoc. split_and!; [done|done|]. simpl. eauto.
Qed.

Lemma tag_loop_reads fuel t acc tags r :
  tags_text tags t → (length tags ≤ fuel)%nat → tag_loop fuel (t ++ r) acc = Some (acc ++ tags, r).
Proof.
  revert fuel t acc. induction tags as [|tag tags IH]; intros fuel t acc Ht Hf; [done|].
  destruct fuel as [|fuel]; [simpl in *; lia|]. cbn [tag_loop]. simpl in Ht. destruct tags as [|tag' tags].
  - destruct Ht as (s & Hs & ->). rewrite <-app_assoc.
    rewrite (proj2 (canonical_string_spec _ tag (lit "]" ++ r))) by eauto. done.
  - destruct Ht as (s & rest & Hs & Hr & ->). rewrite <-!app_assoc.
    rewrite (proj2 (canonical_string_spec _ tag (lit "," ++ rest ++ r))) by eauto.
    change (tag_loop fuel (rest ++ r) (acc ++ [tag]) = Some (acc ++ tag :: tag' :: tags, r)).
    rewrite IH; [by rewrite <-app_assoc|done|simpl in *; lia].
Qed.

Lemma strip_bracket_tags tags t r : tags_text tags t → strip_prefix (lit "]") (t ++ r) = None.
Proof. destruct tags as [|tag [|tag' tags]]; simpl; [done|by intros (s & [-> _] & ->)|by intros (s & rest & [-> _] & _ & ->)]. Qed.

Lemma canonical_tags_spec l tags r : canonical_tags l = Some (tags, r) ↔ ∃ t, l = t ++ r ∧ array_text tags t.
Proof.
  unfold canonical_tags. split.
  - destruct (strip_prefix (lit "]") l) as [r'|] eqn:E.
    + apply strip_prefix_spec in E as ->. intros [= <- <-]. by exists (lit "]").
    + intros (more & t & -> & -> & Ht)%tag_loop_some. exists t. split; [done|]. by destruct more.
  - intros (t & -> & Ht). destruct tags as [|tag tags].
    + simpl in Ht. subst. by rewrite wire_strip_prefix_app.
    + change (tags_text (tag :: tags) t) in Ht. rewrite (strip_bracket_tags (tag :: tags)) by done.
      rewrite (tag_loop_reads _ _ _ (tag :: tags)) by (done || (apply tags_text_length in Ht; rewrite length_app; lia)). done.
Qed.

(** The members behind the value, in the order of the declaration. *)
Definition entry_layout {V} (e : DistributedEntry V) (l : bytes) : Prop :=
  ∃ tc tl tp tf te tm tt,
    i64_text (created_ticks e) tc ∧ i64_text (logical_expiration_ticks e) tl ∧
    i64_text (physical_expiration_ticks e) tp ∧ bool_text (from_fail_safe e) tf ∧
    option_text string_text (entry_etag e) te ∧ option_text i64_text (last_modified_ticks e) tm ∧
    array_text (entry_tags e) tt ∧
    l = lit ",'created_ticks':" ++ tc ++ lit ",'logical_expiration_ticks':" ++ tl ++
        lit ",'physical_expiration_ticks':" ++ tp ++ lit ",'is_from_fail_safe':" ++ tf ++
        lit ",'etag':" ++ te ++ lit ",'last_modified_ticks':" ++ tm ++ lit ",'tags':[" ++ tt ++ lit "}".

Ltac step_prefix :=
  match goal with |- context [strip_prefix ?p ?l ≫= _] =>
    let r := fresh "r" in let E := fresh "E" in
    destruct (strip_prefix p l) as [r|] eqn:E; [|done]; apply strip_prefix_spec in E; cbn [mbind option_bind]
  end.
Ltac step_read read :=
  match goal with |- context [read ?l ≫= _] =>
    let a := fresh "a" in let r := fresh "r" in let E := fresh "E" in
    destruct (read l) as [[a r]|] eqn:E; [|done]; cbn [mbind option_bind]
  end.

Lemma canonical_i64_text l z r : canonical_i64 l = Some (z, r) → ∃ t, l = t ++ r ∧ i64_text z t.
Proof. rewrite canonical_i64_reads. naive_solver. Qed.
Lemma canonical_string_text l s r : canonical_string l = Some (s, r) → ∃ t, l = t ++ r ∧ string_text s t.
Proof. by rewrite canonical_string_spec. Qed.

Section codec.
Context {V : Type} (first_value : bytes → option (V * bytes)).

Lemma canonical_entry_layout l e :
  canonical_entry first_value l = Some e →
  ∃ vt tail, l = lit "{'value':" ++ vt ∧ first_value vt = Some (value e, tail) ∧ entry_layout e tail.
Proof.
  unfold canonical_entry. step_prefix. step_read first_value.
  step_prefix. step_read canonical_i64. step_prefix. step_read canonical_i64. step_prefix. step_read canonical_i64.
  step_prefix. step_read canonical_bool. step_prefix. step_read (canonical_option canonical_string).
  step_prefix. step_read (canonical_option canonical_i64). step_prefix. step_read canonical_tags.
  case_decide; [|done]. intros [= <-].
  repeat match goal with
  | H : canonical_i64 _ = _ |- _ => apply canonical_i64_text in H as (? & -> & ?)
  | H : canonical_bool _ = _ |- _ => apply canonical_bool_spec in H as (? & -> & ?)
  | H : canonical_option canonical_string _ = _ |- _ => apply (canonical_option_some _ _ _ _ _ canonical_string_text) in H as (? & -> & ?)
  | H : canonical_option canonical_i64 _ = _ |- _ => apply (canonical_option_some _ _ _ _ _ canonical_i64_text) in H as (? & -> & ?)
  | H : canonical_tags _ = _ |- _ => apply canonical_tags_spec in H as (? & -> & ?)
  end. subst. do 2 eexists. split; [done|]. split; [done|]. unfold entry_layout. simpl.
  do 7 eexists. do 7 (split; [eassumption|]). done.
Qed.

Lemma layout_canonical_entry vt tail e :
  first_value vt = Some (value e, tail) → entry_layout e tail →
  canonical_entry first_value (lit "{'value':" ++ vt) = Some e.
Proof.
  intros Hv (tc & tl & tp & tf & te & tm & tt & Hc & Hl & Hp & Hf & He & Hm & Ht & ->).
  unfold canonical_entry. rewrite wire_strip_prefix_app. cbn [mbind option_bind]. rewrite Hv. cbn [mbind option_bind].
  assert (Hread : ∀ z t r, i64_text z t → no_digit r → canonical_i64 (t ++ r) = Some (z, r)) by (intros; apply canonical_i64_reads; eauto).
  rewrite wire_strip_prefix_app. cbn [mbind option_bind]. rewrite (Hread _ _ _ Hc) by done. cbn [mbind option_bind].
  rewrite wire_strip_prefix_app. cbn [mbind option_bind]. rewrite (Hread _ _ _ Hl) by done. cbn [mbind option_bind].
  rewrite wire_strip_prefix_app. cbn [mbind option_bind]. rewrite (Hread _ _ _ Hp) by done. cbn [mbind option_bind].
  rewrite wire_strip_prefix_app. cbn [mbind option_bind].
  rewrite (proj2 (canonical_bool_spec _ _ _)) by eauto. cbn [mbind option_bind].
  rewrite wire_strip_prefix_app. cbn [mbind option_bind].
  rewrite (canonical_option_reads canonical_string string_text (entry_etag e) te)
    by (done || (intros; by eapply strip_null_string) || (intros; apply canonical_string_spec; eauto)). cbn [mbind option_bind].
  rewrite wire_strip_prefix_app. cbn [mbind option_bind].
  rewrite (canonical_option_reads canonical_i64 i64_text (last_modified_ticks e) tm)
    by (done || (intros; by eapply strip_null_i64) || (intros; by apply Hread)). cbn [mbind option_bind].
  rewrite wire_strip_prefix_app. cbn [mbind option_bind]. rewrite (proj2 (canonical_tags_spec _ _ _)) by eauto. cbn [mbind option_bind].
  rewrite decide_True by done. by destruct e.
Qed.
End codec.

(** ** The general encoder, and round trips

    How [serde_json] writes an envelope: the members in the order of the
    declaration, integers in plain decimal, and strings by [quoted], which
    writes an ordinary string verbatim and any other with a backslash. *)
Section printer.
Context {V : Type} (show : V → bytes) (quoted : string → bytes).

Fixpoint print_tags (tags : list string) : bytes :=
  match tags with
  | [] => lit "]"
  | [tag] => quoted tag ++ lit "]"
  | tag :: tags => quoted tag ++ lit "," ++ print_tags tags
  end.
Definition print_option {A} (print : A → bytes) (o : option A) : bytes :=
  match o with Some a => print a | None => lit "null" end.
Definition print_members (e : DistributedEntry V) : bytes :=
  lit ",'created_ticks':" ++ show_i64 (created_ticks e) ++
  lit ",'logical_expiration_ticks':" ++ show_i64 (logical_expiration_ticks e) ++
  lit ",'physical_expiration_ticks':" ++ show_i64 (physical_expiration_ticks e) ++
  lit ",'is_from_fail_safe':" ++ (if from_fail_safe e then lit "true" else lit "false") ++
  lit ",'etag':" ++ print_option quoted (entry_etag e) ++
  lit ",'last_modified_ticks':" ++ print_option show_i64 (last_modified_ticks e) ++
  lit ",'tags':[" ++ print_tags (entry_tags e) ++ lit "}".
Definition print_entry (e : DistributedEntry V) : bytes := lit "{'value':" ++ show (value e) ++ print_members e.

Definition ordinary (s : string) : Prop := Forall (λ b, b ≠ quote ∧ needs_escape b = false) (of_string s).
Definition quoting_laws : Prop :=
  (∀ s, ordinary s → quoted s = quote :: of_string s ++ [quote]) ∧
  (∀ s, ¬ ordinary s → ∃ pre post, quoted s = quote :: pre ++ "\"%byte :: post ∧ Forall (λ b, b ≠ quote) pre).

Definition ticks_wf (e : DistributedEntry V) : Prop :=
  is_i64 (created_ticks e) ∧ is_i64 (logical_expiration_ticks e) ∧ is_i64 (physical_expiration_ticks e) ∧
  from_option is_i64 True (last_modified_ticks e).

(** A reader either declines what was printed or reads it back. *)
Definition declines_or_reads {A} (read : bytes → option (A * bytes)) (l : bytes) (a : A) (r : bytes) : Prop :=
  read (l ++ r) = Some (a, r) ∨ read (l ++ r) = None.

Lemma i64_declines_or_reads z r : is_i64 z → no_digit r → declines_or_reads canonical_i64 (show_i64 z) z r.
Proof.
  intros Hz Hr. unfold declines_or_reads. destruct (decide (z = i64_min)) as [->|Hne].
  - right. change (show_i64 i64_min) with ("-"%byte :: show_digits 19 (i64_max + 1)).
    destruct (show_digits_spec 19 (i64_max + 1)) as (Hc & _ & Hv & _); [lia|lia|].
    generalize dependent (show_digits 19 (i64_max + 1)). intros d Hc Hv.
    rewrite <-app_comm_cons, canonical_i64_dash.
    destruct (unsigned_part (d ++ r)) as [[m r']|] eqn:Eu; [|done]. exfalso.
    apply unsigned_part_spec in Eu as (n & Heq & Hno & Hn & Hm & Hle).
    assert ((d, r) = (n, r')) as [= <- <-]; [|lia].
    rewrite <-(proj2 (span_digits_spec (n ++ r') n r')) by (split; [done|split; [apply Hn|done]]).
    rewrite <-Heq. symmetry. apply span_digits_spec. split; [done|]. split; [apply Hc|done].
  - left. apply canonical_i64_reads. exists (show_i64 z). split; [done|]. split; [|done]. split; [by left|]. unfold_ints. lia.
Qed.

Lemma string_declines_or_reads s r : quoting_laws → declines_or_reads canonical_string (quoted s) s r.
Proof.
  intros [Hplain Hesc]. unfold declines_or_reads. destruct (decide (ordinary s)) as [Ho|Ho].
  - rewrite (Hplain s Ho). destruct (utf8 (of_string s)) eqn:Eu.
    + left. apply canonical_string_spec. exists (quote :: of_string s ++ [quote]). done.
    + right. unfold canonical_string. rewrite <-app_comm_cons, <-app_assoc.
      change (quote :: of_string s ++ [quote] ++ r) with ([quote] ++ (of_string s ++ quote :: r)).
      rewrite wire_strip_prefix_app. simpl. apply Forall_and in Ho as [Hq He].
      rewrite (proj2 (split_quote_spec _ (of_string s) r)) by done. simpl.
      rewrite (proj2 (no_escape _)) by done. by rewrite Eu.
  - right. destruct (Hesc s Ho) as (pre & post & -> & Hpre). unfold canonical_string. simpl.
    destruct (split_quote _) as [[t r']|] eqn:E; [|done]. simpl. apply split_quote_spec in E as [Heq Hall].
    destruct (existsb needs_escape t) eqn:Ee; [done|]. exfalso. apply no_escape in Ee.
    (* The backslash comes before the closing quote. *)
    assert ("\"%byte ∈ t) as Hin; [|by rewrite Forall_forall in Ee; specialize (Ee _ Hin)].
    rewrite <-app_assoc in Heq. clear Ee Hplain Hesc Ho. revert t Hall Heq. induction pre as [|b pre IH]; intros [|c t] Hall Heq; try done.
    + injection Heq as <- _. by left.
    + injection Heq as -> _. by inversion_clear Hpre.
    + injection Heq as -> Heq. right. inversion_clear Hpre. inversion_clear Hall. by apply IH.
Qed.

Lemma option_declines_or_reads {A} read (print : A → bytes) o r :
  (∀ a, o = Some a → declines_or_reads read (print a) a r) →
  (∀ a, o = Some a → strip_prefix (lit "null") (print a ++ r) = None) →
  declines_or_reads (canonical_option read) (print_option print o) o r.
Proof.
  unfold declines_or_reads, canonical_option. intros Hread Hnull. destruct o as [a|]; cbn [print_option].
  - rewrite (Hnull a) by done. destruct (Hread a eq_refl) as [->| ->]; auto.
  - rewrite wire_strip_prefix_app. auto.
Qed.

Lemma quoted_head s r : quoting_laws → ∃ t, quoted s ++ r = quote :: t.
Proof.
  intros [Hp He]. destruct (decide (ordinary s)) as [Ho|Ho]; [rewrite (Hp s Ho); by eexists|].
  destruct (He s Ho) as (pre & post & -> & _). by eexists.
Qed.

Lemma tag_loop_declines_or_reads tags fuel acc r :
  quoting_laws → tags ≠ [] →
  tag_loop fuel (print_tags tags ++ r) acc = None ∨ tag_loop fuel (print_tags tags ++ r) acc = Some (acc ++ tags, r).
Proof.
  intros Hq. revert fuel acc. induction tags as [|tag tags IH]; intros fuel acc Hne; [done|].
  destruct fuel as [|fuel]; [by left|]. cbn [tag_loop]. destruct tags as [|tag' tags].
  - cbn [print_tags]. rewrite <-app_assoc. destruct (string_declines_or_reads tag (lit "]" ++ r) Hq) as [->| ->]; auto.
  - change (print_tags (tag :: tag' :: tags)) with (quoted tag ++ lit "," ++ print_tags (tag' :: tags)).
    rewrite <-!app_assoc. destruct (string_declines_or_reads tag (lit "," ++ print_tags (tag' :: tags) ++ r) Hq) as [->| ->]; [|by left].
    change (tag_loop fuel (print_tags (tag' :: tags) ++ r) (acc ++ [tag]) = None ∨
            tag_loop fuel (print_tags (tag' :: tags) ++ r) (acc ++ [tag]) = Some (acc ++ tag :: tag' :: tags, r)).
    destruct (IH fuel (acc ++ [tag])) as [->| ->]; [done|by left|right; by rewrite <-app_assoc].
Qed.

Lemma tags_declines_or_reads tags r : quoting_laws → declines_or_reads canonical_tags (print_tags tags) tags r.
Proof.
  intros Hq. unfold declines_or_reads, canonical_tags. destruct tags as [|tag tags]; [by left|].
  assert (strip_prefix (lit "]") (print_tags (tag :: tags) ++ r) = None) as ->.
  { assert (∃ t, print_tags (tag :: tags) = quoted tag ++ t) as [t ->] by (destruct tags; by eexists).
    rewrite <-app_assoc. by destruct (quoted_head tag (t ++ r) Hq) as [t' ->]. }
  destruct (tag_loop_declines_or_reads (tag :: tags) (length (print_tags (tag :: tags) ++ r)) [] r) as [->| ->]; auto.
Qed.

Lemma bool_declines_or_reads (b : bool) r : declines_or_reads canonical_bool (if b then lit "true" else lit "false") b r.
Proof. left. apply canonical_bool_spec. by exists (if b then lit "true" else lit "false"). Qed.

(** The canonical decoder never misreads what was printed. *)
Lemma printed_declines_or_reads (first_value : bytes → option (V * bytes)) e :
  quoting_laws → (∀ v r, first_value (show v ++ lit "," ++ r) = Some (v, lit "," ++ r)) → ticks_wf e →
  canonical_entry first_value (print_entry e) = Some e ∨ canonical_entry first_value (print_entry e) = None.
Proof.
  intros Hq Hv (Hc & Hl & Hp & Hm). unfold canonical_entry, print_entry. rewrite wire_strip_prefix_app. cbn [mbind option_bind].
  assert (∃ r, print_members e = lit "," ++ r) as [r0 Er0] by (by eexists).
  rewrite Er0, Hv. cbn [mbind option_bind]. rewrite <-Er0. clear r0 Er0. unfold print_members.
  rewrite wire_strip_prefix_app. cbn [mbind option_bind].
  edestruct (i64_declines_or_reads (created_ticks e)) as [->| ->]; [done|by compute| |by right]. cbn [mbind option_bind].
  rewrite wire_strip_prefix_app. cbn [mbind option_bind].
  edestruct (i64_declines_or_reads (logical_expiration_ticks e)) as [->| ->]; [done|by compute| |by right]. cbn [mbind option_bind].
  rewrite wire_strip_prefix_app. cbn [mbind option_bind].
  edestruct (i64_declines_or_reads (physical_expiration_ticks e)) as [->| ->]; [done|by compute| |by right]. cbn [mbind option_bind].
  rewrite wire_strip_prefix_app. cbn [mbind option_bind].
  edestruct (bool_declines_or_reads (from_fail_safe e)) as [->| ->]; [|by right]. cbn [mbind option_bind].
  rewrite wire_strip_prefix_app. cbn [mbind option_bind].
  edestruct (option_declines_or_reads canonical_string quoted (entry_etag e)) as [->| ->];
    [intros; by apply string_declines_or_reads|intros a _; by edestruct (quoted_head a) as [? ->]| |by right]. cbn [mbind option_bind].
  rewrite wire_strip_prefix_app. cbn [mbind option_bind].
  edestruct (option_declines_or_reads canonical_i64 show_i64 (last_modified_ticks e)) as [->| ->];
    [intros a Ha; rewrite Ha in Hm; by apply i64_declines_or_reads|intros a Ha; rewrite Ha in Hm; by apply strip_null_show| |by right].
  cbn [mbind option_bind]. rewrite wire_strip_prefix_app. cbn [mbind option_bind].
  edestruct (tags_declines_or_reads (entry_tags e)) as [->| ->]; [done| |by right]. cbn [mbind option_bind].
  left. rewrite decide_True by done. by destruct e.
Qed.
End printer.

(** ** Frames *)
Lemma from_to_be_bytes z : 0 ≤ z ≤ u32_max → from_be_bytes (to_be_bytes z) = z.
Proof.
  intros Hz. unfold from_be_bytes, to_be_bytes. simpl fold_left. rewrite !code_byte_of.
  assert (z / 2 ^ 24 mod 256 = z / 2 ^ 24) as -> by (apply Z.mod_small; split; [apply Z.div_pos; lia|apply Z.div_lt_upper_bound; lia]).
  pose proof (Z.div_mod z 256). pose proof (Z.div_mod (z / 256) 256). pose proof (Z.div_mod (z / 256 / 256) 256).
  change (2 ^ 24) with (256 * 256 * 256). change (2 ^ 16) with (256 * 256). change (2 ^ 8) with 256.
  rewrite <-!Z.div_div by lia. lia.
Qed.

Lemma to_from_be_bytes a b c d : to_be_bytes (from_be_bytes [a; b; c; d]) = [a; b; c; d].
Proof.
  unfold from_be_bytes, to_be_bytes. simpl fold_left.
  pose proof (code_range a); pose proof (code_range b); pose proof (code_range c); pose proof (code_range d).
  assert (∀ x z q, z = 256 * q + code x → byte_of z = x) as Hb.
  { intros x z q ->. apply code_inj. rewrite code_byte_of. pose proof (code_range x).
    rewrite Z.add_comm, Z.mul_comm, Z.mod_add by lia. by apply Z.mod_small. }
  assert (∀ z k r q, 0 ≤ r < k → z = k * q + r → z / k = q) as Hd by (intros; symmetry; by eapply Z.div_unique_pos).
  f_equal; [|f_equal; [|f_equal; [|f_equal]]].
  - erewrite (Hd _ (2 ^ 24) (code b * 2 ^ 16 + code c * 2 ^ 8 + code d) (code a)) by lia. apply (Hb _ _ 0). lia.
  - erewrite (Hd _ (2 ^ 16) (code c * 2 ^ 8 + code d) (code a * 256 + code b)) by lia. apply (Hb _ _ (code a)). lia.
  - erewrite (Hd _ (2 ^ 8) (code d) (code a * 2 ^ 16 + code b * 256 + code c)) by lia. apply (Hb _ _ (code a * 256 + code b)). lia.
  - apply (Hb _ _ (code a * 2 ^ 16 + code b * 256 + code c)). lia.
Qed.

Definition framed (header payload : bytes) : bytes :=
  SNAPSHOT_MAGIC ++ [SNAPSHOT_VERSION] ++ to_be_bytes (Z.of_nat (length header)) ++ header ++ payload.

Section frames.
Context {JsonError : Type} (header_from_slice : bytes → result JsonError SnapshotHeader).

Definition read_header (header : bytes) : result WireError SnapshotHeader :=
  match canonical_header header with
  | Some h => Ok h
  | None => match header_from_slice header with Ok h => Ok h | Err _ => Err Deserialization end
  end.

Lemma unframe_framed header payload :
  Z.of_nat (length header) ≤ u32_max →
  unframe_snapshot header_from_slice (framed header payload) =
    (λ h, Some (h, payload)) <$> read_header header.
Proof.
  intros Hlen. unfold unframe_snapshot, framed. rewrite wire_strip_prefix_app.
  set (len := Z.of_nat (length header)) in *.
  assert (Hl : length (SNAPSHOT_MAGIC ++ [SNAPSHOT_VERSION] ++ to_be_bytes len ++ header ++ payload) = (13 + length header + length payload)%nat).
  { rewrite !length_app. unfold SNAPSHOT_MAGIC, to_be_bytes. simpl. lia. }
  rewrite Hl. rewrite (proj2 (Nat.ltb_ge _ _)) by lia.
  rewrite bool_decide_eq_true_2 by done. cbn [orb negb].
  assert (take 4 (drop 9 (SNAPSHOT_MAGIC ++ [SNAPSHOT_VERSION] ++ to_be_bytes len ++ header ++ payload)) = to_be_bytes len) as -> by done.
  rewrite from_to_be_bytes by lia.
  rewrite (proj2 (Z.ltb_ge u64_max _)) by lia. rewrite (proj2 (Z.ltb_ge (Z.of_nat _) _)) by lia. cbn [orb].
  assert (drop 13 (SNAPSHOT_MAGIC ++ [SNAPSHOT_VERSION] ++ to_be_bytes len ++ header ++ payload) = header ++ payload) as Hd by done.
  rewrite Hd. replace (Z.to_nat (13 + len)) with (13 + length header)%nat by lia. rewrite <-drop_drop, Hd.
  replace (Z.to_nat len) with (length header) by lia. rewrite take_app_length, drop_app_length.
  unfold read_header. destruct (canonical_header header); [done|]. by destruct (header_from_slice header).
Qed.

(** What is accepted as a frame is one. *)
Lemma unframe_some l h payload :
  unframe_snapshot header_from_slice l = Ok (Some (h, payload)) →
  ∃ header, l = framed header payload ∧ Z.of_nat (length header) ≤ u32_max ∧ read_header header = Ok h.
Proof.
  unfold unframe_snapshot. destruct (strip_prefix SNAPSHOT_MAGIC l) as [rest|] eqn:E; [|done].
  apply strip_prefix_spec in E as ->. destruct (_ || _) eqn:E1; [done|].
  apply orb_false_elim in E1 as [E1 E2]. apply Nat.ltb_ge in E1. apply negb_false_iff, bool_decide_eq_true in E2.
  destruct rest as [|v [|a [|b [|c [|d rest]]]]]; try (simpl in E1; lia). injection E2 as ->.
  change (take 4 (drop 9 (SNAPSHOT_MAGIC ++ SNAPSHOT_VERSION :: a :: b :: c :: d :: rest))) with [a; b; c; d].
  change (drop 13 (SNAPSHOT_MAGIC ++ SNAPSHOT_VERSION :: a :: b :: c :: d :: rest)) with rest.
  set (len := from_be_bytes [a; b; c; d]).
  assert (0 ≤ len ≤ u32_max) as Hlen.
  { unfold len, from_be_bytes. simpl. pose proof (code_range a); pose proof (code_range b); pose proof (code_range c); pose proof (code_range d). lia. }
  destruct (_ || _) eqn:E3; [done|]. bool_to_prop.
  assert (length (SNAPSHOT_MAGIC ++ SNAPSHOT_VERSION :: a :: b :: c :: d :: rest) = 13 + length rest)%nat as Hl by (rewrite length_app; simpl; lia).
  rewrite Hl in *. fold (read_header (take (Z.to_nat len) rest)).
  destruct (read_header (take (Z.to_nat len) rest)) as [h'|] eqn:Eh; [|done]. intros [= <- <-].
  exists (take (Z.to_nat len) rest). rewrite length_take, Nat.min_l by lia. split; [|split; [lia|done]].
  unfold framed. rewrite length_take, Nat.min_l, Z2Nat.id by lia. unfold len at 1. rewrite to_from_be_bytes.
  replace (Z.to_nat (13 + len)) with (13 + Z.to_nat len)%nat by lia. rewrite <-drop_drop.
  change (drop 13 (SNAPSHOT_MAGIC ++ SNAPSHOT_VERSION :: a :: b :: c :: d :: rest)) with rest. simpl. by rewrite take_drop.
Qed.
End frames.

(** ** Lifetimes *)
Lemma resolved_distributed_duration_wf o : options_wf o → duration_wf (EntryOptions.resolved_distributed_duration o).
Proof.
  intros (? & _ & Hd & _). unfold EntryOptions.resolved_distributed_duration. by destruct (opt_distributed_duration o).
Qed.

Lemma distributed_physical_ttl_covers o :
  options_wf o →
  duration_wf (EntryOptions.distributed_physical_ttl o) ∧
  duration_ticks_wide (EntryOptions.resolved_distributed_duration o) ≤
  duration_ticks_wide (EntryOptions.distributed_physical_ttl o).
Proof.
  intros Ho. pose proof (resolved_distributed_duration_wf o Ho).
  assert (duration_wf (EntryOptions.resolved_distributed_fail_safe_max_duration o)).
  { destruct Ho as (_ & _ & _ & _ & Hm & _ & Hd & _). unfold EntryOptions.resolved_distributed_fail_safe_max_duration.
    by destruct (opt_distributed_fail_safe_max_duration o). }
  unfold EntryOptions.distributed_physical_ttl. case_match; [|done].
  split; [by apply duration_max_wf|]. rewrite duration_max_ticks by done. lia.
Qed.

Lemma validate_ok {V} (e : DistributedEntry V) :
  DistributedEntry.validate e = Ok tt ↔
  logical_expiration_ticks e ≤ physical_expiration_ticks e ∧ Forall (λ t, Tag_new t = Ok t) (entry_tags e).
Proof.
  unfold DistributedEntry.validate. destruct (_ <? _) eqn:E; bool_to_prop; [split; [done|intros [? _]; lia]|].
  generalize (entry_tags e). intros tags. assert (∀ t t', Tag_new t = Ok t' → t' = t) as Hsame.
  { intros t t'. unfold Tag_new. case_match; congruence. }
  split; [intros H; split; [lia|]|intros [_ H]].
  - induction tags as [|t tags IH]; [constructor|]. simpl in H. destruct (Tag_new t) as [t'|] eqn:Et; [|done].
    rewrite (Hsame _ _ Et) in Et. constructor; auto.
  - induction H as [|t tags Ht _ IH]; [done|]. simpl. by rewrite Ht.
Qed.

Lemma collect_valid tags : Forall (λ t, Tag_new t = Ok t) tags → try_collect_tags tags = Ok tags.
Proof. induction 1 as [|t tags Ht _ IH]; simpl; [done|]. rewrite Ht. simpl. by rewrite IH. Qed.

(** The header a snapshot is framed with. *)
Definition header_of {V} (s : DistributedSnapshot V) : SnapshotHeader :=
  mkHeader (snapshot_inserted_at s)
    match snapshot_retention s with
    | SR_Unspecified => WR_Unspecified
    | SR_Specified size priority => WR_Specified size (priority_byte priority)
    end.

(** How [serde_json] writes headers: the members in order, the tag of the
    retention first. *)
Definition header_text (h : SnapshotHeader) (l : bytes) : Prop :=
  ∃ rest, l = lit "{'inserted_ticks':" ++ show_i64 (inserted_ticks h) ++ lit ",'retention':{'kind':" ++ rest ∧
  match wire_retention h with
  | WR_Unspecified => rest = lit "'Unspecified'}}"
  | WR_Specified _ _ => ∃ fields, rest = lit "'Specified'," ++ fields
  end.

Lemma canonical_header_text h l h' :
  is_i64 (inserted_ticks h) → header_text h l → canonical_header l = Some h' → h' = h.
Proof.
  intros Hi (rest & -> & Hr). unfold canonical_header. rewrite wire_strip_prefix_app. cbn [mbind option_bind].
  edestruct (i64_declines_or_reads (inserted_ticks h)) as [->| ->]; [done|by compute| |done]. cbn [mbind option_bind].
  case_decide as E; [|done]. intros [= <-]. destruct h as [t [|size priority]]; [done|].
  destruct Hr as [fields ->]. exfalso. revert E. vm_compute. done.
Qed.

Lemma priority_roundtrip p : priority_from_byte (priority_byte p) = Ok p.
Proof. by destruct p. Qed.

(** ** What the fast decoder reads, and what the encoder writes *)
Section spelling.
Context (quoted : string → bytes) (Hq : quoting_laws quoted).

Lemma quoted_text s : plain s → string_text s (quoted s).
Proof. intros Hs. split; [|done]. apply Hq, Hs. Qed.
Lemma string_text_quoted s t : string_text s t → t = quoted s.
Proof. intros [-> [Hs _]]. symmetry. by apply Hq. Qed.
Lemma print_tags_text tags : Forall plain tags → array_text tags (print_tags quoted tags).
Proof.
  intros H. destruct H as [|tag tags Ht H]; [done|]. change (tags_text (tag :: tags) (print_tags quoted (tag :: tags))).
  revert tag Ht. induction H as [|tag' tags Ht' H IH]; intros tag Ht.
  - exists (quoted tag). by split; [apply quoted_text|].
  - exists (quoted tag), (print_tags quoted (tag' :: tags)). split_and!; [by apply quoted_text|by apply IH|done].
Qed.
Lemma array_text_tags tags t : array_text tags t → t = print_tags quoted tags ∧ Forall plain tags.
Proof.
  destruct tags as [|tag tags]; [done|]. change (array_text (tag :: tags) t) with (tags_text (tag :: tags) t).
  revert tag t. induction tags as [|tag' tags IH]; intros tag t.
  - intros (s & Hs & ->). rewrite (string_text_quoted _ _ Hs). split; [done|]. by apply Forall_singleton, Hs.
  - intros (s & rest & Hs & Hr & ->). rewrite (string_text_quoted _ _ Hs). destruct (IH _ _ Hr) as [-> Hp].
    split; [done|]. constructor; [by apply Hs|done].
Qed.

(** The envelopes that can be read: strings without escapes, symmetric ticks. *)
Definition symmetric (z : Z) : Prop := - i64_max ≤ z ≤ i64_max.
Definition readable {V} (e : DistributedEntry V) : Prop :=
  symmetric (created_ticks e) ∧ symmetric (logical_expiration_ticks e) ∧ symmetric (physical_expiration_ticks e) ∧
  from_option plain True (entry_etag e) ∧ from_option symmetric True (last_modified_ticks e) ∧ Forall plain (entry_tags e).
Definition without_zeros {V} (e : DistributedEntry V) : Prop :=
  created_ticks e ≠ 0 ∧ logical_expiration_ticks e ≠ 0 ∧ physical_expiration_ticks e ≠ 0 ∧ last_modified_ticks e ≠ Some 0.

Lemma number_text_show z t : number_text z t → z ≠ 0 → t = show_i64 z.
Proof. by intros [->|[-> _]]. Qed.
Lemma layout_readable {V} (e : DistributedEntry V) tail : entry_layout e tail → readable e.
Proof.
  intros (tc & tl & tp & tf & te & tm & tt & [_ Hc] & [_ Hl] & [_ Hp] & _ & He & Hm & Ht & _). apply array_text_tags in Ht as [_ Ht].
  split_and!; try done; [by destruct (entry_etag e); [apply He|]|by destruct (last_modified_ticks e); [apply Hm|]].
Qed.
Lemma layout_printed {V} (e : DistributedEntry V) tail :
  entry_layout e tail → without_zeros e → tail = print_members quoted e.
Proof.
  intros (tc & tl & tp & tf & te & tm & tt & [Hc _] & [Hl _] & [Hp _] & -> & He & Hm & Ht & ->) (Zc & Zl & Zp & Zm).
  apply array_text_tags in Ht as [-> _]. rewrite (number_text_show _ _ Hc Zc), (number_text_show _ _ Hl Zl), (number_text_show _ _ Hp Zp).
  unfold print_members, print_option. f_equal. assert (te = match entry_etag e with Some s => quoted s | None => lit "null" end) as ->.
  { destruct (entry_etag e); [by apply string_text_quoted|done]. }
  assert (tm = match last_modified_ticks e with Some z => show_i64 z | None => lit "null" end) as ->; [|done].
  destruct (last_modified_ticks e); [|done]. apply number_text_show; [apply Hm|congruence].
Qed.
Lemma printed_layout {V} (e : DistributedEntry V) : readable e → entry_layout e (print_members quoted e).
Proof.
  intros (Hc & Hl & Hp & He & Hm & Ht). do 7 eexists. split_and!; [by split; [left|]..|done| | |by apply print_tags_text|reflexivity].
  - unfold print_option. destruct (entry_etag e); [by apply quoted_text|done].
  - unfold print_option. destruct (last_modified_ticks e); [by split; [left|]|done].
Qed.
End spelling.

Module WireTheorems.
(** C39: the fast decoder accepts one layout and reads it exactly. It answers
    an envelope precisely on the texts that begin with the member [value], go on
    with a text that the JSON library reads as that value (in the library's own
    spelling: white space before it is accepted too), and end in the members of
    the envelope, in declaration order, every string without escapes, every
    integer the decimal text of a tick in the symmetric 64-bit range, with nothing
    behind the closing brace. Behind the value this is the general encoder's text
    and no other, except that a zero may be spelled [-0]; and the encoder's text is
    accepted for every envelope with such strings and ticks. In particular the
    eight-digits-at-a-time reader computes every integer exactly, without carrying
    between lanes or overflowing. *)
Theorem canonical_entry_exact {V} (first_value : bytes → option (V * bytes)) (quoted : string → bytes) :
  quoting_laws quoted →
  (∀ l (e : DistributedEntry V), canonical_entry first_value l = Some e ↔
     ∃ vt tail, l = lit "{'value':" ++ vt ∧ first_value vt = Some (value e, tail) ∧ entry_layout e tail) ∧
  (∀ (e : DistributedEntry V) tail, entry_layout e tail →
     readable e ∧ (without_zeros e → tail = print_members quoted e)) ∧
  (∀ e : DistributedEntry V, readable e → entry_layout e (print_members quoted e)).
Proof.
  intros Hq. split_and!.
  - intros l e. split; [apply canonical_entry_layout|]. intros (vt & tail & -> & Hv & Hl). by eapply layout_canonical_entry.
  - intros e tail Hl. split; [by eapply layout_readable|by apply layout_printed].
  - by apply printed_layout.
Qed.

(** What one node writes, every node reads. If [serde_json] reads back
    what it wrote, the JSON codec returns the very snapshot that was
    serialised - value, ticks, validators, tags, insertion instant and
    retention - whether the fast decoders take the bytes or decline them, for
    every tick and every string. *)
Theorem snapshot_roundtrip {V JE}
    (header_to_vec : SnapshotHeader → result JE bytes) (header_from_slice : bytes → result JE SnapshotHeader)
    (entry_to_vec : DistributedEntry V → result JE bytes) (entry_from_slice : bytes → result JE (DistributedEntry V))
    (first_value : bytes → option (V * bytes)) (show : V → bytes) (quoted : string → bytes)
    (s : DistributedSnapshot V) (l header : bytes) :
  quoting_laws quoted → (∀ v r, first_value (show v ++ lit "," ++ r) = Some (v, lit "," ++ r)) →
  entry_to_vec (entry s) = Ok (print_entry show quoted (entry s)) →
  entry_from_slice (print_entry show quoted (entry s)) = Ok (entry s) →
  header_to_vec (header_of s) = Ok header → header_text (header_of s) header → header_from_slice header = Ok (header_of s) →
  ticks_wf (entry s) → is_i64 (snapshot_inserted_at s) → DistributedEntry.validate (entry s) = Ok tt →
  serialize_snapshot header_to_vec (json_serialize entry_to_vec) s = Ok l →
  deserialize_snapshot header_from_slice (json_deserialize entry_from_slice first_value) l = Ok s.
Proof.
  intros Hq Hv He He' Hh Ht Hh' Hw Hi Hval Hs.
  unfold serialize_snapshot, json_serialize in Hs. rewrite He in Hs. simpl in Hs.
  unfold frame_snapshot in Hs. fold (header_of s) in Hs. rewrite Hh in Hs.
  destruct (u32_max <? _) eqn:Elen; [done|]. bool_to_prop.
  assert (framed header (print_entry show quoted (entry s)) = l) as <- by (by injection Hs).
  unfold deserialize_snapshot. rewrite unframe_framed by done.
  assert (read_header header_from_slice header = Ok (header_of s)) as ->.
  { unfold read_header. destruct (canonical_header header) as [h'|] eqn:Ec; [|by rewrite Hh'].
    by rewrite (canonical_header_text (header_of s) header h'). }
  simpl. assert (json_deserialize entry_from_slice first_value (print_entry show quoted (entry s)) = Ok (entry s)) as ->.
  { unfold json_deserialize. destruct (printed_declines_or_reads show quoted first_value (entry s) Hq Hv Hw) as [->| ->]; [done|].
    by rewrite He'. }
  destruct s as [e t r]. unfold DistributedSnapshot.new. simpl in *.
  destruct r as [|size priority]; simpl; [by rewrite Hval|]. rewrite priority_roundtrip. simpl. by rewrite Hval.
Qed.

(** A malformed frame is an error, never a legacy payload. Bytes that
    begin with the magic are decoded only if they are a complete frame of this
    version: then the payload goes to the codec alone, the insertion instant is
    the header's, and the envelope's deadlines and tags have been validated. *)
Theorem frames_never_fall_back {V JE} (header_from_slice : bytes → result JE SnapshotHeader)
    (deserialize : bytes → result WireError (DistributedEntry V)) (rest : bytes) (s : DistributedSnapshot V) :
  deserialize_snapshot header_from_slice deserialize (SNAPSHOT_MAGIC ++ rest) = Ok s →
  ∃ header payload h,
    SNAPSHOT_MAGIC ++ rest = framed header payload ∧ Z.of_nat (length header) ≤ u32_max ∧
    read_header header_from_slice header = Ok h ∧ deserialize payload = Ok (entry s) ∧
    snapshot_inserted_at s = inserted_ticks h ∧
    logical_expiration_ticks (entry s) ≤ physical_expiration_ticks (entry s) ∧
    Forall (λ t, Tag_new t = Ok t) (entry_tags (entry s)).
Proof.
  remember (SNAPSHOT_MAGIC ++ rest) as l eqn:Hl.
  unfold deserialize_snapshot. destruct (unframe_snapshot _ _) as [[[h payload]|]|] eqn:E; [| |done].
  - simpl. apply unframe_some in E as (header & Heq & Hlen & Hr). rewrite Heq. intros Hs. exists header, payload, h.
    destruct (match wire_retention h with WR_Unspecified => _ | _ => _ end) as [retention|]; [|done]. simpl in Hs.
    destruct (deserialize payload) as [e|] eqn:Ed; [|done]. simpl in Hs. unfold DistributedSnapshot.new in Hs.
    destruct (DistributedEntry.validate e) as [[]|] eqn:Ev; [|done]. injection Hs as <-. apply validate_ok in Ev. simpl. tauto.
  - unfold unframe_snapshot in E. rewrite Hl, wire_strip_prefix_app in E. destruct (_ || _); [done|]. destruct (_ || _); [done|].
    destruct (match canonical_header _ with Some _ => _ | None => _ end); done.
Qed.

(** Crossing the wire never extends a lifetime. A captured snapshot has
    the entry's value, creation, validators, tags and retention; its deadlines
    are the distributed lifetimes from the insertion instant, and for a
    fail-safe value no later than the ones it already had. Hydrating it, by
    either path and at any later instant, gives an entry with exactly these. *)
Theorem snapshot_keeps_lifetime {V} (e : Entry V) (o : EntryOptions) (t now : Timestamp) (s : DistributedSnapshot V) (p p' : Loc) :
  options_wf o → is_i64 t → logical_expiration (Entry.meta e) ≤ physical_expiration (Entry.meta e) →
  DistributedSnapshot.from_entry_with_options e o t = Ok s →
  ∃ e' e'', DistributedSnapshot.try_into_cache_entry p s now = Ok e' ∧ DistributedSnapshot.try_into_entry p p' s now = Ok e'' ∧
    inner e'' = inner e' ∧ Entry.value e' = Entry.value e ∧
    let m := Entry.meta e in let m' := Entry.meta e' in
    created m' = created m ∧ etag m' = etag m ∧ last_modified m' = last_modified m ∧ tags m' = tags m ∧
    retention m' = retention m ∧ Metadata.is_from_fail_safe m' = Metadata.is_from_fail_safe m ∧ inserted_at m' = now ∧
    logical_expiration m' ≤ saturating_add t (EntryOptions.resolved_distributed_duration o) ∧
    physical_expiration m' ≤ saturating_add t (EntryOptions.distributed_physical_ttl o) ∧
    logical_expiration m' ≤ physical_expiration m' ∧
    (Metadata.is_from_fail_safe m = false →
       logical_expiration m' = saturating_add t (EntryOptions.resolved_distributed_duration o) ∧
       physical_expiration m' = saturating_add t (EntryOptions.distributed_physical_ttl o)) ∧
    (Metadata.is_from_fail_safe m = true →
       logical_expiration m' ≤ logical_expiration m ∧ physical_expiration m' ≤ physical_expiration m).
Proof.
  intros Ho Ht Hcoh Hs. destruct (distributed_physical_ttl_covers o Ho) as [Hw Hle].
  pose proof (resolved_distributed_duration_wf o Ho).
  pose proof (saturating_add_mono t _ _ Ht ltac:(eassumption) Hw Hle).
  unfold DistributedSnapshot.from_entry_with_options, DistributedEntry.from_entry_with_options in Hs.
  destruct (entry_error _) as [?|]; [|done]. simpl in Hs.
  destruct (if Metadata.is_from_fail_safe _ then _ else _) as [lo ph] eqn:Ed.
  set (d := mkDistributedEntry _ _ lo ph _ _ _ _) in Hs.
  destruct (DistributedEntry.validate d) as [[]|] eqn:Ev; [|done]. simpl in Hs. unfold DistributedSnapshot.new in Hs.
  rewrite Ev in Hs. injection Hs as <-. apply validate_ok in Ev as [Hlp Htags]. simpl in Hlp, Htags.
  unfold DistributedSnapshot.try_into_cache_entry, DistributedSnapshot.try_into_entry, DistributedEntry.try_into_entry,
    DistributedEntry.try_into_entry_with_retention, Entry.try_rehydrate_with_retention. simpl.
  rewrite !(collect_valid _ Htags). simpl. rewrite (proj2 (Z.ltb_ge _ _)) by lia. simpl.
  do 2 eexists. split; [done|]. split; [done|]. unfold Metadata.stored_priority, Metadata.size, Metadata.is_from_fail_safe in *.
  split; [by destruct (retention (Entry.meta e))|].
  destruct (origin (Entry.meta e)); simplify_eq/=; split_and!; try done; try lia; by destruct (retention (Entry.meta e)).
Qed.

(** *** A sample envelope of a Boolean *)
Definition show_bool (b : bool) : bytes := if b then lit "true" else lit "false".
Definition sample_quoted (s : string) : bytes :=
  if decide (ordinary s) then quote :: of_string s ++ [quote] else [quote; "\"%byte; quote].
Definition sample_entry : DistributedEntry bool :=
  mkDistributedEntry true 5 (-7) 638000000000000000 false (Some "etag-1"%string) None ["a"%string; "b"%string].
Definition sample_snapshot : DistributedSnapshot bool := mkSnapshot sample_entry 4 SR_Unspecified.
Definition sample_header : bytes := lit "{'inserted_ticks':4,'retention':{'kind':'Unspecified'}}".
Definition sample_text : bytes := print_entry show_bool sample_quoted sample_entry.
Definition sample_bytes : bytes := framed sample_header sample_text.

Lemma sample_quoting : quoting_laws sample_quoted.
Proof.
  split; intros s H; unfold sample_quoted; [by rewrite decide_True|]. rewrite decide_False by done.
  by exists [], [quote].
Qed.

(** White space before the value, and a zero with a sign, are accepted. *)
Definition spaced_bool (l : bytes) : option (bool * bytes) :=
  canonical_bool (match l with x20 :: l => l | _ => l end).
Definition odd_entry : DistributedEntry bool := mkDistributedEntry true 5 0 7 false None None [].
Definition odd_text : bytes :=
  lit "{'value': true,'created_ticks':5,'logical_expiration_ticks':-0,'physical_expiration_ticks':7,'is_from_fail_safe':false,'etag':null,'last_modified_ticks':null,'tags':[]}".
Lemma canonical_entry_exact_witness :
  quoting_laws sample_quoted ∧ canonical_entry spaced_bool odd_text = Some odd_entry ∧
  canonical_entry canonical_bool sample_text = Some sample_entry ∧
  (∃ vt tail, odd_text = lit "{'value':" ++ vt ∧ spaced_bool vt = Some (true, tail) ∧ entry_layout odd_entry tail).
Proof.
  split; [exact sample_quoting|]. split; [vm_compute; reflexivity|]. split; [vm_compute; reflexivity|].
  destruct (canonical_entry_exact spaced_bool sample_quoted sample_quoting) as [H _].
  apply (proj1 (H odd_text odd_entry)). vm_compute. reflexivity.
Defined.

Lemma snapshot_roundtrip_witness :
  deserialize_snapshot (λ _, Ok (header_of sample_snapshot) : result unit _)
    (json_deserialize (λ _, Ok sample_entry : result unit _) canonical_bool) sample_bytes = Ok sample_snapshot.
Proof.
  apply (snapshot_roundtrip (JE := unit) (λ _, Ok sample_header) (λ _, Ok (header_of sample_snapshot))
    (λ _, Ok sample_text) (λ _, Ok sample_entry) canonical_bool show_bool sample_quoted sample_snapshot sample_bytes sample_header).
  - exact sample_quoting.
  - intros [] r; reflexivity.
  - reflexivity.
  - reflexivity.
  - reflexivity.
  - exists (lit "'Unspecified'}}"). split; vm_compute; reflexivity.
  - reflexivity.
  - repeat split; vm_compute; discriminate.
  - vm_compute. split; discriminate.
  - vm_compute. reflexivity.
  - vm_compute. reflexivity.
Defined.

Lemma frames_never_fall_back_witness :
  ∃ header payload, sample_bytes = framed header payload.
Proof.
  destruct (frames_never_fall_back (V := bool) (JE := unit) (λ _, Err tt) (json_deserialize (λ _, Err tt : result unit _) canonical_bool)
    (drop 8 sample_bytes) sample_snapshot) as (header & payload & h & Heq & _).
  - vm_compute. reflexivity.
  - exists header, payload. rewrite <-Heq. vm_compute. reflexivity.
Defined.

Definition sample_options : EntryOptions := EntryOptions.with_fail_safe true None None (EntryOptions.new (from_secs 60)).
Definition sample_source : Entry bool :=
  mkEntry 1 (mkInner true {| created := 5; inserted_at := 6; logical_expiration := 10; physical_expiration := 20;
    meta_backend_ttl := from_secs 1; origin := EO_FailSafe; etag := None; last_modified := None; tags := ["a"%string];
    retention := RM_Unspecified |} EL_Local).

Lemma snapshot_keeps_lifetime_witness :
  match DistributedSnapshot.from_entry_with_options sample_source sample_options 7 with
  | Ok s => match DistributedSnapshot.try_into_cache_entry 2 s 8 with
            | Ok e => logical_expiration (Entry.meta e) ≤ 10
            | Err _ => False
            end
  | Err _ => False
  end.
Proof.
  destruct (DistributedSnapshot.from_entry_with_options sample_source sample_options 7) as [s|] eqn:Es; [|by vm_compute in Es].
  destruct (snapshot_keeps_lifetime sample_source sample_options 7 8 s 2 3) as (e' & e'' & He & _ & _ & _ & H).
  - vm_compute; repeat split; discriminate || reflexivity.
  - vm_compute. split; discriminate.
  - vm_compute. discriminate.
  - exact Es.
  - rewrite He. destruct H as (_ & _ & _ & _ & _ & _ & _ & _ & _ & _ & _ & Hf). apply Hf. reflexivity.
Defined.
End WireTheorems.
