(* ===== verification/Lease.v ===== *)
(** * Distributed leases and the in-memory distributed cache

    Models [src/src/distributed_lock.rs] and [InMemoryDistributedCache] of
    [src/src/distributed.rs]: lease lifetimes and tokens, the authority that
    grants, renews, checks and releases them, the bounded acquisition loop, the
    value store whose leased writes commit under the authority's lock, and the
    owned lease with its renewal worker.

    Clock readings are arguments; those of an acquisition are accesses of its
    program, as its attempts and its sleeps are. The authority's table and each access to the
    value map are guarded by one lock, so each is one step; a read of the value
    store and its lazy eviction are two. A backend other than the reference is
    an answer given to the worker. *)
From Stdlib Require Import Strings.Byte.
From S2P Require Import Prelude Calls Time Tags Wire.

Inductive LeaseError :=
| MissingRuntime | InvalidTtl | InvalidToken | InvalidDeadline | UnsupportedTokenAcquisition
| UnsupportedRenewal | OpaqueLifetime | UnsupportedFencing | Lost | AcquisitionTimeout | Cancelled
| CleanupTimeout | Task | Backend.

Module LeaseTtl.
(** [LeaseTtl(Duration)]. *)
Definition new (duration : Duration) : result LeaseError Duration :=
  if is_zero duration || (i64_max <? as_millis duration) then Err InvalidTtl else Ok duration.
Definition millis (self : Duration) : Z :=
  Z.min ((as_nanos self + (1000000 - 1)) / 1000000) i64_max.
End LeaseTtl.

Module LeaseToken.
(** [LeaseToken(Arc<str>)]. *)
Definition new (token : string) : result LeaseError string :=
  if trims_empty token then Err InvalidToken else Ok token.
End LeaseToken.

Inductive LeaseSupport := OpaqueLegacy | HeldUntilRelease | FixedTtl | Renewable.
#[export] Instance LeaseSupport_eq_dec : EqDecision LeaseSupport.
Proof. solve_decision. Defined.
Inductive RenewalOutcome := Renewed | RO_Lost | Unsupported.
Inductive OwnershipCheck := OC_Held | OC_Lost | Unknown.

(** ** The authority *)
Record Held := mkHeld { token : string; expires_at : Timestamp }.
(** [MemoryLeaseAuthority::locks]. *)
Abbreviation Locks := (gmap string Held) (only parsing).

Module MemoryLeaseAuthority.
Definition try_once (locks : Locks) (key token : string) (ttl : Duration) (now : Timestamp) : bool * Locks :=
  if from_option (λ held, now <? expires_at held) false (locks !! key) then (false, locks)
  else (true, <[key := mkHeld token (saturating_add now ttl)]> locks).

(** Whether [operation] runs. *)
Definition while_held (locks : Locks) (key tok : string) (now : Timestamp) : bool :=
  from_option (λ held, bool_decide (token held = tok) && (now <? expires_at held)) false (locks !! key).
End MemoryLeaseAuthority.

Module InMemoryDistributedLocker.
Definition held_count (locks : Locks) (now : Timestamp) : nat * Locks :=
  let locks := filter (λ '(_, held), now < expires_at held) locks in (size locks, locks).

Definition release (locks : Locks) (key tok : string) : Locks :=
  if from_option (λ held, bool_decide (token held = tok)) false (locks !! key) then delete key locks else locks.

Definition renew (locks : Locks) (key tok : string) (ttl : Duration) (now : Timestamp) : RenewalOutcome * Locks :=
  match locks !! key with
  | Some held =>
      if bool_decide (token held = tok) && (now <? expires_at held)
      then (Renewed, <[key := mkHeld tok (saturating_add now ttl)]> locks)
      else (RO_Lost, locks)
  | None => (RO_Lost, locks)
  end.

Definition ownership_check (locks : Locks) (key tok : string) (now : Timestamp) : OwnershipCheck :=
  if MemoryLeaseAuthority.while_held locks key tok now then OC_Held else OC_Lost.
End InMemoryDistributedLocker.

(** [LeaseProof]: the authority checks a memory proof; any other is
    [ProofAuthority::BackendAtomic]. *)
Inductive ProofAuthority := Memory | BackendAtomic.
Record LeaseProof := mkProof { proof_key : string; proof_token : string; authority : ProofAuthority }.
Definition with_memory_ownership (locks : Locks) (self : LeaseProof) (now : Timestamp) : result LeaseError bool :=
  match authority self with
  | Memory => Ok (MemoryLeaseAuthority.while_held locks (proof_key self) (proof_token self) now)
  | BackendAtomic => Err UnsupportedFencing
  end.

(** ** The value store *)
Record StoredBytes := mkStored { stored : bytes; stored_until : option Timestamp }.
Abbreviation Values := (gmap string StoredBytes) (only parsing).

Inductive LeasedMutation := LM_Set (value : bytes) (ttl : option Duration) | LM_Remove.
Inductive LeasedWriteOutcome := Committed | LeaseLost.

Module InMemoryDistributedCache.
Definition live (now : Timestamp) (s : StoredBytes) : bool :=
  match stored_until s with None => true | Some at_ => is_before now at_ end.

(** [read_now]: the lookup, and the eviction after a miss, with one reading. *)
Definition hit (map : Values) (key : string) (now : Timestamp) : option bytes :=
  match map !! key with Some s => if live now s then Some (stored s) else None | None => None end.
Definition evict (map : Values) (key : string) (now : Timestamp) : Values :=
  if from_option (λ s, from_option (λ at_, at_ <=? now) false (stored_until s)) false (map !! key)
  then delete key map else map.

Definition set (map : Values) (key : string) (value : bytes) (ttl : option Duration) (now : Timestamp) : Values :=
  <[key := mkStored value (saturating_add now <$> ttl)]> map.
Definition remove (map : Values) (key : string) : Values := delete key map.

(** [checked] is the authority's reading, [now] the one the mutation makes. *)
Definition write_with_lease (locks : Locks) (map : Values) (key : string) (mutation : LeasedMutation)
    (proof : LeaseProof) (checked now : Timestamp) : result LeaseError (LeasedWriteOutcome * Values) :=
  committed ← with_memory_ownership locks proof checked;
  Ok (if committed : bool
      then (Committed, match mutation with
                       | LM_Set value ttl => set map key value ttl now
                       | LM_Remove => remove map key
                       end)
      else (LeaseLost, map)).
End InMemoryDistributedCache.

(** ** Bounded waiting *)
Record WaitBudget := mkBudget { deadline : option Instant; immediate : bool }.

(** The accesses of an acquisition: [Instant::now()], [try_once] on the authority
    and [tokio::time::sleep]. *)
Inductive WaitCall := W_Instant | W_TryOnce | W_Sleep (duration : Duration).
Definition wanswer (c : WaitCall) : Type :=
  match c with W_Instant => Instant | W_TryOnce => bool | W_Sleep _ => unit end.

Module WaitBudget.
Definition new (timeout : Timeout) : prog wanswer (result LeaseError WaitBudget) :=
  match timeout with
  | Infinite => Ret (Ok (mkBudget None false))
  | After duration =>
      bind (call W_Instant) (λ now,
        Ret match instant_checked_add now duration with
            | Some at_ => Ok (mkBudget (Some at_) (is_zero duration))
            | None => Err InvalidDeadline
            end)
  end.
Definition exhausted (self : WaitBudget) : prog wanswer bool :=
  match deadline self with
  | Some at_ => bind (call W_Instant) (λ now, Ret (at_ <=? now))
  | None => Ret false
  end.
Definition remaining (self : WaitBudget) : prog wanswer (option Duration) :=
  match deadline self with
  | Some at_ => bind (call W_Instant) (λ now, Ret (Some (instant_duration_since at_ now)))
  | None => Ret None
  end.
Definition pause (self : WaitBudget) (interval : Duration) : prog wanswer unit :=
  bind (remaining self) (λ remaining,
    call (W_Sleep (from_option (λ r, duration_min r interval) interval remaining))).
End WaitBudget.

Definition pause_interval : Duration := of_nanos 10000000.

(** The loop of [acquire_receipt], over at most [fuel] turns; an acquired lease is
    answered with the start of its attempt. *)
Fixpoint acquire_loop (fuel : nat) (budget : WaitBudget) (first : bool) : prog wanswer (option (option Instant)) :=
  match fuel with
  | O => Ret None
  | S fuel =>
      bind (WaitBudget.exhausted budget) (λ spent,
      if spent && negb (first && immediate budget) then Ret (Some None)
      else
        bind (call W_Instant) (λ started,
        bind (call W_TryOnce) (λ acquired : bool,
        if acquired then Ret (Some (Some started))
        else
          bind (WaitBudget.exhausted budget) (λ spent,
          if spent : bool then Ret (Some None)
          else bind (WaitBudget.pause budget pause_interval) (λ _, acquire_loop fuel budget false)))))
  end.
Definition acquire_receipt (fuel : nat) (timeout : Timeout) : prog wanswer (option (result LeaseError (option Instant))) :=
  bind (WaitBudget.new timeout) (λ budget,
  match budget with
  | Ok budget => bind (acquire_loop fuel budget true) (λ r, Ret (Ok <$> r))
  | Err e => Ret (Some (Err e))
  end).

(** ** The reference cluster: one authority, one value store *)
Record World := mkWorld { locks : gmap string Held; values : gmap string StoredBytes }.
#[export] Instance eta_World : Eta World := λ w, mkWorld (locks w) (values w).

Inductive Op :=
| Acquire (key tok : string) (ttl : Duration) (now : Timestamp)
| Release (key tok : string)
| Renew (key tok : string) (ttl : Duration) (now : Timestamp)
| HeldCount (now : Timestamp)
| Get (key : string) (now : Timestamp)
| Evict (key : string) (now : Timestamp)
| Put (key : string) (value : bytes) (ttl : option Duration) (now : Timestamp)
| Delete (key : string)
| LeasedWrite (key : string) (mutation : LeasedMutation) (proof : LeaseProof) (checked now : Timestamp).

Inductive Answer :=
| A_None | A_Acquired (granted : bool) | A_Renewed (r : RenewalOutcome) | A_Count (n : nat)
| A_Value (v : option bytes) | A_Leased (r : result LeaseError LeasedWriteOutcome).

Definition apply (w : World) (o : Op) : World * Answer :=
  match o with
  | Acquire key tok ttl now =>
      let '(granted, l) := MemoryLeaseAuthority.try_once (locks w) key tok ttl now in
      (w <| locks := l |>, A_Acquired granted)
  | Release key tok => (w <| locks := InMemoryDistributedLocker.release (locks w) key tok |>, A_None)
  | Renew key tok ttl now =>
      let '(r, l) := InMemoryDistributedLocker.renew (locks w) key tok ttl now in
      (w <| locks := l |>, A_Renewed r)
  | HeldCount now =>
      let '(n, l) := InMemoryDistributedLocker.held_count (locks w) now in
      (w <| locks := l |>, A_Count n)
  | Get key now => (w, A_Value (InMemoryDistributedCache.hit (values w) key now))
  | Evict key now => (w <| values := InMemoryDistributedCache.evict (values w) key now |>, A_None)
  | Put key value ttl now => (w <| values := InMemoryDistributedCache.set (values w) key value ttl now |>, A_None)
  | Delete key => (w <| values := InMemoryDistributedCache.remove (values w) key |>, A_None)
  | LeasedWrite key mutation proof checked now =>
      match InMemoryDistributedCache.write_with_lease (locks w) (values w) key mutation proof checked now with
      | Ok (outcome, v) => (w <| values := v |>, A_Leased (Ok outcome))
      | Err e => (w, A_Leased (Err e))
      end
  end.

Fixpoint run (w : World) (os : list Op) : World * list Answer :=
  match os with
  | [] => (w, [])
  | o :: os => let '(w, a) := apply w o in let '(w, rest) := run w os in (w, a :: rest)
  end.

(** ** The owned lease

    [DistributedLease] with its renewal worker and calls of [proof], one access
    to the shared state at a time. Backend answers, the readings of the clock
    and the abortion of the worker at an await are labels. *)
Module Owned.
Inductive LeaseState := LS_Held | LS_Lost | LS_Released.

(** The worker of [DistributedLease::new]: asleep; then each test of a turn;
    awaiting the renewal it began at [at_]; testing again; storing. *)
Inductive Worker :=
| Sleeping | TestState | TestOwned | Request | Renewing (at_ : Instant)
| RetestState (at_ : Instant) | RetestOwned (at_ : Instant) | Store (at_ : Instant) | Ended.

(** A call of [proof]: about to read the state, about to check ownership. *)
Inductive ProofCall := P_State | P_Owned.

(** [granted], a history: when the requests the backend acknowledged began. *)
Record Lease := mkLease {
  support : LeaseSupport; ttl : Duration; state : LeaseState; valid_until : option Instant;
  worker : Worker; proofs : gmap nat ProofCall; handle : bool; granted : list Instant }.
#[export] Instance eta_Lease : Eta Lease := λ l,
  mkLease (support l) (ttl l) (state l) (valid_until l) (worker l) (proofs l) (handle l) (granted l).

Definition new (support : LeaseSupport) (ttl : Duration) (started : Instant) : Lease :=
  mkLease support ttl LS_Held
    match support with
    | HeldUntilRelease | OpaqueLegacy => None
    | FixedTtl | Renewable => instant_checked_add started ttl
    end
    (if decide (support = Renewable) then Sleeping else Ended) ∅ true [started].

(** Between two turns of the worker. *)
Definition renewal_interval (ttl : Duration) : Duration :=
  duration_max (of_nanos (as_nanos ttl / 3)) (of_nanos 1000000).

Definition locally_valid (l : Lease) (check : OwnershipCheck) (now : Instant) : bool :=
  match check with
  | OC_Held => true
  | OC_Lost => false
  | Unknown =>
      match support l with
      | HeldUntilRelease => true
      | OpaqueLegacy => false
      | FixedTtl | Renewable => from_option (λ at_, now <? at_) false (valid_until l)
      end
  end.

Inductive Label :=
| Work (check : OwnershipCheck) (now : Instant)
| Reply (outcome : option RenewalOutcome)
| Abort
| StartProof (c : nat)
| StepProof (c : nat) (check : OwnershipCheck) (now : Instant)
| ReleaseLease.

Inductive Outcome := Nothing | Proved | Refused (e : LeaseError).

Definition is_held (s : LeaseState) : bool := match s with LS_Held => true | _ => false end.

Definition step (l : Lease) (a : Label) : option (Lease * Outcome) :=
  match a with
  | Work check now =>
      (λ l, (l, Nothing)) <$>
      match worker l with
      | Sleeping => Some (l <| worker := TestState |>)
      | TestState => Some (l <| worker := if is_held (state l) then TestOwned else Ended |>)
      | TestOwned =>
          Some (if locally_valid l check now then l <| worker := Request |>
                else l <| state := LS_Lost |> <| worker := Ended |>)
      | Request => Some (l <| worker := Renewing now |>)
      | Renewing _ => None
      | RetestState at_ =>
          Some (if is_held (state l) then l <| worker := RetestOwned at_ |>
                else l <| state := LS_Lost |> <| worker := Ended |>)
      | RetestOwned at_ =>
          Some (if locally_valid l check now then l <| worker := Store at_ |>
                else l <| state := LS_Lost |> <| worker := Ended |>)
      | Store at_ => Some (l <| valid_until := instant_checked_add at_ (ttl l) |> <| worker := Sleeping |>)
      | Ended => None
      end
  | Reply outcome =>
      (λ l, (l, Nothing)) <$>
      match worker l with
      | Renewing at_ =>
          Some match outcome with
               | Some Renewed => l <| worker := RetestState at_ |> <| granted := at_ :: granted l |>
               | _ => l <| state := LS_Lost |> <| worker := Ended |>
               end
      | _ => None
      end
  | Abort =>
      match handle l, worker l with
      | false, (Sleeping | Renewing _) => Some (l <| worker := Ended |>, Nothing)
      | _, _ => None
      end
  | StartProof c =>
      match handle l, proofs l !! c with
      | true, None => Some (l <| proofs := <[c := P_State]> (proofs l) |>, Nothing)
      | _, _ => None
      end
  | StepProof c check now =>
      let finish l := l <| proofs := delete c (proofs l) |> in
      match proofs l !! c with
      | Some P_State =>
          Some (if negb (is_held (state l)) then (finish l, Refused Lost)
                else if decide (support l = OpaqueLegacy) then (finish l, Refused OpaqueLifetime)
                else (l <| proofs := <[c := P_Owned]> (proofs l) |>, Nothing))
      | Some P_Owned =>
          Some (if locally_valid l check now then (finish l, Proved)
                else (finish l <| state := LS_Lost |>, Refused Lost))
      | None => None
      end
  | ReleaseLease =>
      (* [release] and [drop] consume the handle: no call of [proof] borrows it. *)
      if handle l && bool_decide (proofs l = ∅)
      then Some (l <| state := LS_Released |> <| handle := false |>, Nothing) else None
  end.

Fixpoint execute (l : Lease) (ls : list Label) : option (Lease * list Outcome) :=
  match ls with
  | [] => Some (l, [])
  | a :: ls => '(l, o) ← step l a; '(l, os) ← execute l ls; Some (l, o :: os)
  end.
End Owned.

(** ** Lemmas *)
Section authority.
Import MemoryLeaseAuthority InMemoryDistributedLocker.

(** Another token, or none, has the key. *)
Definition without (k t : string) (w : World) : Prop := ∀ h, locks w !! k = Some h → token h ≠ t.
Definition acquires (k t : string) (o : Op) : bool :=
  match o with Acquire k' t' _ _ => bool_decide (k' = k) && bool_decide (t' = t) | _ => false end.

Lemma leased_locks w key m p c n : locks (apply w (LeasedWrite key m p c n)).1 = locks w.
Proof. simpl. by destruct (InMemoryDistributedCache.write_with_lease _ _ _ _ _ _ _) as [[]|]. Qed.

Lemma without_step k t w o : without k t w → acquires k t o = false → without k t (apply w o).1.
Proof.
  intros Hw Ha h. destruct o as [k' t' ttl now|k' t'|k' t' ttl now|now|?|?|?|?|]; try apply Hw; [..|rewrite leased_locks; apply Hw]; simpl in *.
  - unfold try_once. destruct (from_option _ _ _); simpl; [apply Hw|]. rewrite lookup_insert_Some.
    intros [[<- <-]|[_ Hh]]; [simpl; intros ->; by rewrite !bool_decide_eq_true_2 in Ha|by apply Hw].
  - unfold release. destruct (from_option _ _ _); [|apply Hw]. intros [_ Hh]%lookup_delete_Some. by apply Hw.
  - unfold renew. destruct (locks w !! k') as [held|] eqn:E; [|apply Hw]. destruct (_ && _) eqn:Eb; [|apply Hw]. simpl.
    bool_to_prop. rewrite lookup_insert_Some. intros [[<- <-]|[_ Hh]]; [simpl; subst; by apply Hw|by apply Hw].
  - intros [Hh _]%map_lookup_filter_Some. by apply Hw.
Qed.

Lemma without_run k t os w :
  without k t w → Forall (λ o, acquires k t o = false) os → without k t (run w os).1.
Proof.
  intros Hw Hos. revert w Hw. induction Hos as [|o os Ho _ IH]; intros w Hw; [done|]. simpl.
  pose proof (without_step k t w o Hw Ho) as Hw'. destruct (apply w o) as [w' a]. specialize (IH w' Hw').
  by destruct (run w' os).
Qed.

Lemma without_not_held k t w now : without k t w → while_held (locks w) k t now = false.
Proof.
  intros Hw. unfold while_held. destruct (locks w !! k) as [h|] eqn:E; [|done]. simpl.
  rewrite bool_decide_eq_false_2 by (by apply Hw). done.
Qed.

(** The operation leaves the lease [t] of [k], which runs until [T] at least. *)
Definition spares (k t : string) (T : Timestamp) (o : Op) : Prop :=
  match o with
  | Acquire k' _ _ now => k' = k → now < T
  | HeldCount now => now < T
  | Release k' t' => k' = k → t' ≠ t
  | Renew k' t' ttl now => k' = k → t' = t → T ≤ saturating_add now ttl
  | _ => True
  end.
Definition holds_until (k t : string) (T : Timestamp) (w : World) : Prop :=
  ∃ T', locks w !! k = Some (mkHeld t T') ∧ T ≤ T'.
Definition refuses (k : string) (o : Op) (a : Answer) : Prop :=
  match o with Acquire k' _ _ _ => k' = k → a = A_Acquired false | _ => True end.

Lemma holds_step k t T w o :
  holds_until k t T w → spares k t T o → holds_until k t T (apply w o).1 ∧ refuses k o (apply w o).2.
Proof.
  intros (T' & Hk & HT) Hs. assert (Hsame : holds_until k t T w) by (by exists T').
  destruct o as [k' t' ttl now|k' t'|k' t' ttl now|now|?|?|?|?|]; simpl in Hs; try (by split).
  - simpl. unfold try_once. destruct (decide (k' = k)) as [->|Hne].
    + rewrite Hk. simpl. rewrite (proj2 (Z.ltb_lt _ _)) by (specialize (Hs eq_refl); lia). done.
    + destruct (from_option _ _ _); simpl; (split; [|by intros]); [done|]. exists T'. simpl. by rewrite lookup_insert_ne.
  - simpl. unfold release. destruct (from_option _ _ _) eqn:Er; [|done]. simpl. split; [|done]. exists T'.
    destruct (decide (k' = k)) as [->|Hne]; [|simpl; by rewrite lookup_delete_ne].
    exfalso. rewrite Hk in Er. simpl in Er. bool_to_prop. by apply (Hs eq_refl).
  - simpl. unfold renew. destruct (decide (k' = k)) as [->|Hne].
    + rewrite Hk. destruct (_ && _) eqn:Eb; [|by split]. bool_to_prop. simpl in *. split; [|done].
      exists (saturating_add now ttl). simpl. rewrite lookup_insert_eq. subst. auto.
    + destruct (locks w !! k') as [held|]; [|by split]. destruct (_ && _); [|by split]. simpl. split; [|done].
      exists T'. simpl. by rewrite lookup_insert_ne.
  - simpl. split; [|done]. exists T'. split; [|done]. apply map_lookup_filter_Some. split; [done|]. simpl. lia.
  - split; [|done]. destruct (apply w _) eqn:E. change (holds_until k t T w0). 
    unfold holds_until. replace (locks w0) with (locks w); [done|]. by rewrite <-(leased_locks w key mutation proof checked now), E.
Qed.

Lemma holds_run k t T os w :
  holds_until k t T w → Forall (spares k t T) os →
  holds_until k t T (run w os).1 ∧ Forall2 (refuses k) os (run w os).2.
Proof.
  intros Hw Hos. revert w Hw. induction Hos as [|o os Ho _ IH]; intros w Hw; [by split|]. simpl.
  destruct (holds_step k t T w o Hw Ho) as [Hw' Ha]. destruct (apply w o) as [w' a]. specialize (IH w' Hw').
  destruct (run w' os) as [w'' l]. simpl in *. split; [tauto|]. constructor; tauto.
Qed.
End authority.

(** *** Lazy eviction *)
Section eviction.
Import InMemoryDistributedCache.

Definition keeps (o : Op) : bool := match o with Evict _ _ => false | _ => true end.
Definition visible (a : Answer) : option (option bytes) := match a with A_Value v => Some v | _ => None end.
(** The reading an operation on values makes. *)
Definition reading (o : Op) : option Timestamp :=
  match o with Get _ now | Evict _ now | Put _ _ _ now | LeasedWrite _ _ _ _ now => Some now | _ => None end.
Fixpoint monotone (n : Timestamp) (os : list Op) : Prop :=
  match os with
  | [] => True
  | o :: os => n ≤ default n (reading o) ∧ monotone (default n (reading o)) os
  end.

(** The values differ only in what has expired by [n]. *)
Definition evicted_at (n : Timestamp) (v s : gmap string StoredBytes) : Prop :=
  ∀ k, v !! k = s !! k ∨ v !! k = None ∧ ∃ x at_, s !! k = Some x ∧ stored_until x = Some at_ ∧ at_ ≤ n.

Lemma evicted_weaken n m v s : n ≤ m → evicted_at n v s → evicted_at m v s.
Proof. intros Hle H k. destruct (H k) as [?|(? & x & at_ & ? & ? & ?)]; [by left|]. right. split; [done|]. exists x, at_. split_and!; try done. lia. Qed.
Lemma evicted_insert n v s k x : evicted_at n v s → evicted_at n (<[k := x]> v) (<[k := x]> s).
Proof.
  intros H j. destruct (decide (k = j)) as [->|Hne]; [left; by rewrite !lookup_insert_eq|].
  rewrite !lookup_insert_ne by done. apply H.
Qed.
Lemma evicted_delete n v s k : evicted_at n v s → evicted_at n (delete k v) (delete k s).
Proof.
  intros H j. destruct (decide (k = j)) as [->|Hne]; [left; by rewrite !lookup_delete_eq|].
  rewrite !lookup_delete_ne by done. apply H.
Qed.
Lemma evicted_hit n v s k : evicted_at n v s → hit v k n = hit s k n.
Proof.
  intros H. unfold hit. destruct (H k) as [->|(-> & x & at_ & -> & Hx & Hle)]; [done|].
  unfold live. rewrite Hx. unfold is_before. by rewrite (proj2 (Z.ltb_ge _ _)).
Qed.
Lemma evicted_evict n v s k : evicted_at n v s → evicted_at n (evict v k n) s.
Proof.
  intros H. unfold evict. destruct (v !! k) as [x|] eqn:E; [|done]. simpl.
  destruct (stored_until x) as [at_|] eqn:Ex; [|done]. simpl. destruct (at_ <=? n) eqn:Ele; [|done]. bool_to_prop.
  intros j. destruct (decide (k = j)) as [<-|Hne]; [|rewrite lookup_delete_ne by done; apply H].
  right. rewrite lookup_delete_eq. split; [done|]. exists x, at_. destruct (H k) as [Heq|[Heq _]]; [|congruence].
  split; [congruence|done].
Qed.

Lemma evicted_run os n w s :
  locks w = locks s → evicted_at n (values w) (values s) → monotone n os →
  omap visible (run w os).2 = omap visible (run s (filter (λ o, keeps o = true) os)).2.
Proof.
  revert n w s. induction os as [|o os IH]; intros n w s Hl Hv Hm; [done|]. destruct Hm as [Hn Hm].
  apply (evicted_weaken _ _ _ _ Hn) in Hv. rewrite filter_cons.
  assert (Hgo : ∀ w' a s' b, apply w o = (w', a) → keeps o = true → apply s o = (s', b) → visible a = visible b →
            locks w' = locks s' → evicted_at (default n (reading o)) (values w') (values s') →
            omap visible (run w (o :: os)).2 = omap visible (run s (if decide (keeps o = true) then o :: filter (λ o, keeps o = true) os else filter (λ o, keeps o = true) os)).2).
  { intros w' a s' b Hw Hk Hs Hab Hl' Hv'. rewrite decide_True by done. simpl. rewrite Hw, Hs. specialize (IH _ w' s' Hl' Hv' Hm).
    destruct (run w' os) as [w'' l1]. destruct (run s' _) as [s'' l2]. simpl in *. rewrite Hab. by destruct (visible b); [f_equal|]. }
  destruct o as [k' t' ttl now|k' t'|k' t' ttl now|now|k' now|k' now|k' v ttl now|k'|k' m p c now]; simpl in Hv, Hn.
  - destruct (MemoryLeaseAuthority.try_once (locks w) k' t' ttl now) as [g l] eqn:E.
    eapply Hgo; [simpl; by rewrite E|done|simpl; by rewrite <-Hl, E|done..].
  - eapply Hgo; [done..|simpl; by rewrite Hl|done].
  - destruct (InMemoryDistributedLocker.renew (locks w) k' t' ttl now) as [g l] eqn:E.
    eapply Hgo; [simpl; by rewrite E|done|simpl; by rewrite <-Hl, E|done..].
  - eapply Hgo; [done..|simpl; by rewrite Hl|done].
  - eapply Hgo; [done..|simpl; by erewrite evicted_hit|done|done].
  - rewrite decide_False by done. simpl. specialize (IH now (mkWorld (locks w) (evict (values w) k' now)) s Hl (evicted_evict _ _ _ k' Hv) Hm).
    by destruct (run (mkWorld (locks w) (evict (values w) k' now)) os) as [w'' l].
  - eapply Hgo; [done..|by apply evicted_insert].
  - eapply Hgo; [done..|by apply evicted_delete].
  - pose proof (leased_locks w k' m p c now) as H1. pose proof (leased_locks s k' m p c now) as H2.
    destruct (apply w (LeasedWrite k' m p c now)) as [w' a] eqn:Ew. destruct (apply s (LeasedWrite k' m p c now)) as [s' b] eqn:Es.
    eapply Hgo; [done|done|done| |simpl in *; congruence|].
    + simpl in Ew, Es. destruct (write_with_lease (locks w) _ _ _ _ _ _) as [[]|], (write_with_lease (locks s) _ _ _ _ _ _) as [[]|]; by simplify_eq.
    + simpl in Ew, Es. unfold write_with_lease in *. rewrite <-Hl in Es. destruct (with_memory_ownership (locks w) p c) as [[]|];
        simplify_eq/=; try done. destruct m; [by apply evicted_insert|by apply evicted_delete].
Qed.
End eviction.

(** *** The acquisition loop *)

(** The environment of an acquisition: the clock never goes back, a sleep lasts
    at least as long as it was asked to, and the authority may answer anything;
    any time may pass besides. What happened is recorded, newest first. *)
Local Abbreviation chronicle := (list (event wanswer)).
Definition elapses (s : Instant * chronicle) (c : WaitCall) (x : wanswer c) (s' : Instant * chronicle) : Prop :=
  s'.2 = Ev c x :: s.2 ∧
  match c return wanswer c → Prop with
  | W_Instant => λ now, s.1 ≤ now ∧ s'.1 = now
  | W_TryOnce => λ _, s.1 ≤ s'.1
  | W_Sleep d => λ _, s.1 + as_nanos d ≤ s'.1
  end x.
Definition clockwork : Env wanswer := mkEnv (Instant * chronicle) elapses.

Definition is_attempt (ev : event wanswer) : bool := match ev_call ev with W_TryOnce => true | _ => false end.
Definition granted (ev : event wanswer) : bool := match ev with Ev W_TryOnce acquired => acquired | _ => false end.
Fixpoint attempts (h : chronicle) : nat :=
  match h with [] => O | ev :: h => ((if is_attempt ev then 1 else 0) + attempts h)%nat end.
Definition all_refused (h : chronicle) : Prop := Forall (λ ev, granted ev = false) h.
(** No sleep reaches beyond the deadline, or takes longer than the interval. *)
Fixpoint restful (at_ : Instant) (h : chronicle) : Prop :=
  match h with
  | [] => True
  | Ev (W_Sleep d) _ :: h =>
      match h with
      | Ev W_Instant now :: _ => now + as_nanos d ≤ Z.max now at_ ∧ as_nanos d ≤ as_nanos pause_interval
      | _ => False
      end ∧ restful at_ h
  | _ :: h => restful at_ h
  end.

Lemma duration_min_nanos a b : duration_wf a → duration_wf b → as_nanos (duration_min a b) = Z.min (as_nanos a) (as_nanos b).
Proof.
  intros. unfold duration_min. rewrite duration_ltb_nanos by done. destruct (_ <? _) eqn:E; bool_to_prop; lia.
Qed.
Lemma pause_nanos at_ now :
  instant_wf at_ → - instant_limit ≤ now →
  as_nanos (duration_min (instant_duration_since at_ now) pause_interval) = Z.max 0 (Z.min (at_ - now) 10000000).
Proof.
  unfold instant_wf. intros Ha Hn. unfold instant_duration_since, pause_interval.
  destruct (of_nanos_spec 10000000) as [Hw' Hv']; [lia|].
  destruct (at_ <? now) eqn:E; bool_to_prop.
  - rewrite duration_min_nanos, Hv'; [|vm_compute; repeat split; discriminate || reflexivity|done].
    change (as_nanos Duration_ZERO) with 0. lia.
  - destruct (of_nanos_spec (at_ - now)) as [Hw Hv]; [lia|]. rewrite duration_min_nanos, Hv, Hv' by done. lia.
Qed.

(** How the loop ends, with an attempt of its own or without. *)
Definition ended (at_ : Instant) (imm : bool) (bound : nat) (r : option (option Instant)) (s : Instant * chronicle) : Prop :=
  restful at_ s.2 ∧ (attempts s.2 ≤ bound)%nat ∧
  match r with
  | None => False
  | Some (Some started) => ∃ head h,
      s.2 = Ev W_TryOnce true :: Ev W_Instant started :: Ev W_Instant head :: h ∧ all_refused h ∧ head ≤ started ∧
      (head < at_ ∨ imm = true ∧ attempts h = O)
  | Some None => all_refused s.2 ∧ at_ ≤ s.1 ∧ (imm = true → attempts s.2 ≠ O)
  end.

(** The record only grows. *)
Lemma clockwork_grows {A} (p : prog wanswer A) s : wp clockwork p s (λ _ s', ∃ l, s'.2 = l ++ s.2).
Proof.
  apply (wp_invariant clockwork (λ _, True) (λ s' : Instant * chronicle, ∃ l, s'.2 = l ++ s.2)).
  - by induction p as [|c k IH]; simpl; [|split].
  - by exists [].
  - intros s1 c x s2 _ [l Hl] [E _]. exists (Ev c x :: l). by rewrite E, Hl.
Qed.

Section loop.
Context (at_ : Instant) (imm : bool) (Hat : instant_wf at_).
Local Abbreviation budget := (mkBudget (Some at_) imm).

(** What a turn starts from. *)
Definition turning (first : bool) (s : Instant * chronicle) : Prop :=
  - instant_limit ≤ s.1 ∧ restful at_ s.2 ∧ all_refused s.2 ∧ (first = true ↔ attempts s.2 = O).

(** A turn that is not the last pauses. *)
Lemma wp_turn bound first next s :
  turning first s → (attempts s.2 < bound)%nat →
  (∀ s', turning false s' → attempts s'.2 = S (attempts s.2) → s.1 < at_ → at_ - s'.1 ≤ Z.max 0 (at_ - s.1 - 10000000) →
     wp clockwork next s' (ended at_ imm bound)) →
  wp clockwork
    (bind (WaitBudget.exhausted budget) (λ spent,
      if spent && negb (first && imm) then Ret (Some None)
      else
        bind (call W_Instant) (λ started,
        bind (call W_TryOnce) (λ acquired : bool,
        if acquired then Ret (Some (Some started))
        else
          bind (WaitBudget.exhausted budget) (λ spent,
          if spent : bool then Ret (Some None)
          else bind (WaitBudget.pause budget pause_interval) (λ _, next)))))) s (ended at_ imm bound).
Proof.
  intros (Hlo & Hrest & Href & Hfirst) Hb Hnext. destruct s as [t h]. simpl in Hlo, Hrest, Href, Hfirst, Hb.
  intros head [t1 h1] [E1 [H1 H1']]. simpl in E1, H1, H1'. subst t1 h1. simpl.
  destruct ((at_ <=? head) && negb (first && imm)) eqn:Eh; simpl.
  - bool_to_prop. split_and!; simpl; [done|lia|by constructor|lia|]. intros ->. rewrite andb_true_r in *. subst first.
    intros Hz. by apply Hfirst in Hz.
  - intros started [t2 h2] [E2 [H2 H2']]. simpl in E2, H2, H2'. subst t2 h2. intros acquired [t3 h3] [E3 H3]. simpl in E3, H3. subst h3.
    destruct acquired; simpl.
    + split_and!; [done|simpl; lia|]. exists head, h. split_and!; [done..|].
      apply andb_false_iff in Eh as [Eh|Eh]; bool_to_prop; [by left|]. right. split; [done|]. by apply Hfirst.
    + intros x [t4 h4] [E4 [H4 H4']]. simpl in E4, H4, H4'. subst t4 h4. destruct (at_ <=? x) eqn:Ex; bool_to_prop; simpl.
      * split_and!; simpl; [done|lia|by repeat constructor|lia|done].
      * intros z [t5 h5] [E5 [H5 H5']]. simpl in E5, H5, H5'. subst t5 h5. intros u [t6 h6] [E6 H6]. simpl in E6, H6. subst h6.
        pose proof (pause_nanos at_ z Hat ltac:(lia)) as Hp. apply Hnext; simpl; [|done|lia|lia].
        split_and!; simpl; [lia| |by repeat constructor|done].
        split; [|done]. rewrite Hp. change (as_nanos pause_interval) with 10000000. split; lia.
Qed.

(** With [k] pauses left before the deadline, [k + 2] turns suffice. *)
Lemma wp_acquire_loop k bound first s :
  turning first s → at_ - s.1 ≤ Z.of_nat k * 10000000 → (attempts s.2 + k < bound)%nat →
  wp clockwork (acquire_loop (k + 2) budget first) s (ended at_ imm bound).
Proof.
  induction k as [|k IH] in first, s |- *; destruct s as [t h]; intros Ht Hk Hb; simpl in Hk, Hb; cbn [Nat.add acquire_loop].
  - apply wp_turn; [done|cbn [snd]; lia|]. cbn [fst]. lia.
  - apply wp_turn; [done|cbn [snd]; lia|]. intros [t' h'] Ht' Ha _ Hd. cbn [fst snd] in *. apply IH; [done|cbn [fst snd]; lia..].
Qed.
End loop.

(** *** The owned lease *)
Section owned.
Import Owned.

Definition conservative (l : Lease) : Prop :=
  (∀ u, valid_until l = Some u → ∃ s, s ∈ granted l ∧ instant_checked_add s (ttl l) = Some u) ∧
  match worker l with RetestState at_ | RetestOwned at_ | Store at_ => at_ ∈ granted l | _ => True end.

Lemma conservative_step l a l' o : conservative l → step l a = Some (l', o) → conservative l' ∧ ttl l' = ttl l.
Proof.
  intros [Hv Hw] Hs. unfold conservative. destruct a as [check now|outcome| |c|c check now|]; simpl in Hs.
  - destruct (worker l) eqn:Ew; simplify_eq/=; try done;
      repeat case_match; simplify_eq/=; rewrite ?Ew; try done.
    split; [|done]. split; [|done]. intros u Hu. eauto.
  - destruct (worker l) as [| | | |at_| | | |] eqn:Ew; simplify_eq/=; try done. destruct outcome as [[]|]; simplify_eq/=; try done.
    split; [|done]. split; [|by left]. intros u (s & Hs & Hu)%Hv. exists s. split; [by right|done].
  - repeat case_match; simplify_eq/=; done.
  - repeat case_match; simplify_eq/=; rewrite ?H; done.
  - repeat case_match; simplify_eq/=; done.
  - repeat case_match; simplify_eq/=; done.
Qed.

(** Nothing makes a lease held again, and a proof begun when it is not fails. *)
Definition finished (l : Lease) : Prop := is_held (state l) = false ∧ ∀ c, proofs l !! c ≠ Some P_Owned.

Lemma finished_step l a l' o : finished l → step l a = Some (l', o) → finished l' ∧ o ≠ Proved.
Proof.
  intros [Hh Hp] Hs. unfold finished. destruct a as [check now|outcome| |c|c check now|]; simpl in Hs.
  - destruct (worker l) eqn:Ew; simplify_eq/=; try done; repeat case_match; simplify_eq/=; done.
  - destruct (worker l) eqn:Ew; simplify_eq/=; try done; repeat case_match; simplify_eq/=; done.
  - repeat case_match; simplify_eq/=; done.
  - destruct (handle l); [|done]. destruct (proofs l !! c) eqn:Ec; simplify_eq/=. split; [|done]. split; [done|].
    intros d. destruct (decide (c = d)) as [->|]; [by rewrite lookup_insert_eq|by rewrite lookup_insert_ne].
  - destruct (proofs l !! c) as [[]|] eqn:Ec; [|by destruct (Hp c)|done]. rewrite Hh in Hs. simplify_eq/=.
    split; [|done]. split; [done|]. intros d. destruct (decide (c = d)) as [->|]; [by rewrite lookup_delete_eq|by rewrite lookup_delete_ne].
  - repeat case_match; simplify_eq/=; done.
Qed.

Lemma lost_stays_lost l a l' o : is_held (state l) = false → step l a = Some (l', o) → is_held (state l') = false.
Proof.
  intros Hh Hs. destruct a as [check now|outcome| |c|c check now|]; simpl in Hs;
    [destruct (worker l); simplify_eq/=; try done|destruct (worker l); simplify_eq/=; try done|..];
    repeat case_match; simplify_eq/=; done.
Qed.

Lemma conservative_execute ls l l' os : conservative l → execute l ls = Some (l', os) → conservative l' ∧ ttl l' = ttl l.
Proof.
  revert l os. induction ls as [|a ls IH]; intros l os Hc He; simpl in He; [by simplify_eq|].
  destruct (step l a) as [[l1 o]|] eqn:Es; [|done]. simpl in He. destruct (execute l1 ls) as [[l2 os']|] eqn:El; [|done].
  simplify_eq/=. destruct (conservative_step _ _ _ _ Hc Es) as [Hc' <-]. by eapply IH.
Qed.

Lemma finished_execute ls l l' os : finished l → execute l ls = Some (l', os) → finished l' ∧ Proved ∉ os.
Proof.
  revert l os. induction ls as [|a ls IH]; intros l os Hc He; simpl in He; [simplify_eq; split; [done|apply not_elem_of_nil]|].
  destruct (step l a) as [[l1 o]|] eqn:Es; [|done]. simpl in He. destruct (execute l1 ls) as [[l2 os']|] eqn:El; [|done].
  simplify_eq/=. destruct (finished_step _ _ _ _ Hc Es) as [Hc' Ho]. destruct (IH _ _ Hc' El) as [Hf Hn].
  split; [done|]. by apply not_elem_of_cons.
Qed.

Lemma lost_execute ls l l' os : is_held (state l) = false → execute l ls = Some (l', os) → is_held (state l') = false.
Proof.
  revert l os. induction ls as [|a ls IH]; intros l os Hc He; simpl in He; [by simplify_eq|].
  destruct (step l a) as [[l1 o]|] eqn:Es; [|done]. simpl in He. destruct (execute l1 ls) as [[l2 os']|] eqn:El; [|done].
  simplify_eq/=. eapply IH, El. by eapply lost_stays_lost.
Qed.
End owned.

Module LeaseTheorems.
(** A superseded writer is fenced out. Once the lease of a token on a key
    is released, or another token is granted the key, every value mutation
    proved by the old token is refused and changes nothing - whatever anybody
    does in between, and however the clocks read - until that token is granted
    the key again. *)
Theorem superseded_writer_is_fenced w0 w ended a os k t :
  apply w0 ended = (w, a) →
  (ended = Release k t ∨ ∃ t' ttl now, t' ≠ t ∧ ended = Acquire k t' ttl now ∧ a = A_Acquired true) →
  Forall (λ o, acquires k t o = false) os →
  ∀ key mutation checked now,
    apply (run w os).1 (LeasedWrite key mutation (mkProof k t Memory) checked now) = ((run w os).1, A_Leased (Ok LeaseLost)).
Proof.
  intros Happ Hend Hos key mutation checked now.
  assert (without k t w) as Hw.
  { destruct Hend as [->|(t' & ttl & now' & Hne & -> & ->)]; simpl in Happ.
    - simplify_eq/=. intros h. simpl. unfold InMemoryDistributedLocker.release.
      destruct (locks w0 !! k) as [h0|] eqn:E; simpl; [|by rewrite E]. case_bool_decide; [by rewrite lookup_delete_eq|].
      rewrite E. by intros [= <-].
    - unfold MemoryLeaseAuthority.try_once in Happ. destruct (from_option _ _ _); simplify_eq/=.
      intros h. simpl. rewrite lookup_insert_eq. by intros [= <-]. }
  pose proof (without_not_held _ _ _ checked (without_run _ _ os w Hw Hos)) as Hn.
  simpl. unfold InMemoryDistributedCache.write_with_lease, with_memory_ownership. simpl. rewrite Hn. simpl. by destruct (run w os).1.
Qed.

(** A live lease is exclusive. Up to any instant before its expiry, and
    unless its own token releases it or shortens it by a renewal, nobody is
    granted the key, the sweep of expired leases leaves it, and its holder's
    mutations commit exactly. *)
Theorem live_lease_is_exclusive w k t T T' os :
  locks w !! k = Some (mkHeld t T') → T ≤ T' → Forall (spares k t T) os →
  Forall2 (refuses k) os (run w os).2 ∧
  ∀ key mutation checked now, checked < T →
    (apply (run w os).1 (LeasedWrite key mutation (mkProof k t Memory) checked now)).2 = A_Leased (Ok Committed) ∧
    values (apply (run w os).1 (LeasedWrite key mutation (mkProof k t Memory) checked now)).1 =
      match mutation with
      | LM_Set value ttl => InMemoryDistributedCache.set (values (run w os).1) key value ttl now
      | LM_Remove => delete key (values (run w os).1)
      end.
Proof.
  intros Hk HT Hos. destruct (holds_run k t T os w) as [(T'' & Hk' & HT') Hr]; [by exists T'|done|].
  split; [done|]. intros key mutation checked now Hc. simpl.
  unfold InMemoryDistributedCache.write_with_lease, with_memory_ownership, MemoryLeaseAuthority.while_held. simpl.
  rewrite Hk'. simpl. rewrite bool_decide_eq_true_2 by done. rewrite (proj2 (Z.ltb_lt _ _)) by lia. simpl. by destruct mutation.
Qed.

(** Lazy eviction is invisible. As long as the clock does not go back, the
    reads of the value store give exactly the answers of a store that never
    evicts and only tests expiry - so an eviction racing a write, a leased
    write or a removal never loses a live value. *)
Theorem lazy_eviction_is_invisible n w os :
  monotone n os → omap visible (run w os).2 = omap visible (run w (filter (λ o, keeps o = true) os)).2.
Proof. intros Hm. apply (evicted_run os n); [done|by left|done]. Qed.

(** C40: a bounded acquisition ends. However long each access takes and whatever
    the authority answers, as long as the clock never goes back and a sleep lasts
    as long as it was asked to: an acquisition with a finite timeout reads its
    start and, unless the deadline cannot be represented, returns within the
    timeout divided by the pause, plus three turns, because every failed turn
    sleeps the pause or what is left of the timeout, and never beyond the deadline.
    A lease it obtains is the authority's answer to its last attempt, answered with
    the start of that attempt, which was read directly after a check of the
    deadline that found it ahead (the attempt itself may be later), or is the one
    attempt that a zero timeout makes although its deadline has passed. It gives up
    only when the deadline has passed and the authority refused every attempt, and
    with a zero timeout not before one. *)
Theorem bounded_acquisition_ends timeout now0 :
  duration_wf timeout → - instant_limit ≤ now0 →
  let turns := Z.to_nat (as_nanos timeout / 10000000) in
  wp clockwork (acquire_receipt (turns + 3) (After timeout)) (now0, []) (λ r s,
    ∃ start, last s.2 = Some (Ev W_Instant start) ∧ now0 ≤ start ∧
    let deadline := start + as_nanos timeout in
    match r with
    | None => False
    | Some (Err e) => e = InvalidDeadline ∧ instant_limit ≤ deadline
    | Some (Ok r) => restful deadline s.2 ∧ (attempts s.2 ≤ turns + 2)%nat ∧
        match r with
        | Some started => ∃ head h,
            s.2 = Ev W_TryOnce true :: Ev W_Instant started :: Ev W_Instant head :: h ∧ all_refused h ∧ head ≤ started ∧
            (head < deadline ∨ is_zero timeout = true ∧ attempts h = O)
        | None => all_refused s.2 ∧ deadline ≤ s.1 ∧ (is_zero timeout = true → attempts s.2 ≠ O)
        end
    end).
Proof.
  intros Hwf Hlo turns. unfold acquire_receipt, WaitBudget.new. simpl.
  intros start [t h] [E [H1 H2]]. simpl in E, H1, H2. subst t h. pose proof (as_nanos_nonneg timeout Hwf) as Hnn.
  unfold instant_checked_add. destruct (_ <? _) eqn:Elim; bool_to_prop; simpl.
  - assert (instant_wf (start + as_nanos timeout)) as Hat by (unfold instant_wf; lia).
    apply wp_bind. replace (turns + 3)%nat with (turns + 1 + 2)%nat by lia.
    eapply wp_mono; [eapply wp_conj; [apply (wp_acquire_loop _ _ Hat _ (turns + 2)); [|simpl..|simpl]|apply clockwork_grows]|].
    + split_and!; [simpl; lia|done|by repeat constructor|done].
    + subst turns. pose proof (Z.div_mod (as_nanos timeout) 10000000). pose proof (Z.mod_pos_bound (as_nanos timeout) 10000000).
      pose proof (Z.div_pos (as_nanos timeout) 10000000). lia.
    + lia.
    + intros [r|] s [(Hrest & Hatt & Hr) [l Hl]]; [|done]. exists start. simpl in Hl. split; [by rewrite Hl, last_snoc|].
      split; [lia|]. simpl. by split_and!.
  - exists start. by split_and!.
Qed.

(** A lost lease is final. In every interleaving of the renewal worker,
    calls of [proof] and the release: once the state has left [Held] it never
    returns, and no proof begun then is granted; and the local deadline is
    always the start of an acknowledged request plus the lifetime, never the
    time its answer arrived. *)
Theorem lost_lease_is_final sup t start ls l os ls' l' os' :
  Owned.execute (Owned.new sup t start) ls = Some (l, os) → Owned.execute l ls' = Some (l', os') →
  (∀ u, Owned.valid_until l = Some u → ∃ s, s ∈ Owned.granted l ∧ instant_checked_add s t = Some u) ∧
  (Owned.is_held (Owned.state l) = false →
     Owned.is_held (Owned.state l') = false ∧
     ((∀ c, Owned.proofs l !! c ≠ Some Owned.P_Owned) → Owned.Proved ∉ os')).
Proof.
  intros He He'. split.
  - assert (conservative (Owned.new sup t start)) as Hc.
    { split; [|simpl; by case_decide]. intros u Hu. exists start. split; [by left|]. simpl in *. by destruct sup. }
    destruct (conservative_execute _ _ _ _ Hc He) as [[Hv _] Ht]. intros u Hu. destruct (Hv u Hu) as (s & Hs & Hu').
    exists s. by rewrite Ht in Hu'.
  - intros Hh. split; [by eapply lost_execute|]. intros Hp. by apply (finished_execute ls' l l').
Qed.

(** *** Witnesses *)
Definition one_second : Duration := from_secs 1.
Definition empty_world : World := mkWorld ∅ ∅.
Definition world_held_by (t : string) : World := (apply empty_world (Acquire "k" t one_second 0)).1.

Lemma superseded_writer_is_fenced_witness :
  let w := (apply (world_held_by "a") (Acquire "k" "b" one_second 20000000)).1 in
  apply w (LeasedWrite "x" LM_Remove (mkProof "k" "a" Memory) 5 5) = (w, A_Leased (Ok LeaseLost)).
Proof.
  intros w. apply (superseded_writer_is_fenced (world_held_by "a") w (Acquire "k" "b" one_second 20000000) (A_Acquired true) [] "k" "a").
  - vm_compute. reflexivity.
  - right. exists "b"%string, one_second, 20000000. split; [discriminate|]. split; reflexivity.
  - constructor.
Defined.

Lemma live_lease_is_exclusive_witness :
  (run (world_held_by "a") [Acquire "k" "b" one_second 5]).2 = [A_Acquired false].
Proof.
  destruct (live_lease_is_exclusive (world_held_by "a") "k" "a" 10000000 10000000 [Acquire "k" "b" one_second 5]) as [H _].
  - vm_compute. reflexivity.
  - discriminate.
  - constructor; [|constructor]. intros _. reflexivity.
  - inversion_clear H as [|? a ? l H1 H2]. inversion_clear H2. reflexivity.
Defined.

Lemma lazy_eviction_is_invisible_witness :
  let os := [Put "x" [] (Some one_second) 0; Get "x" 5; Evict "x" 10000000; Get "x" 10000001] in
  omap visible (run empty_world os).2 = [Some []; None].
Proof. intros os. unfold os. rewrite (lazy_eviction_is_invisible 0); [vm_compute; reflexivity|repeat split; vm_compute; discriminate]. Defined.

(** A clock that advances by what is slept only, and an authority that refuses. *)
Definition refusing : handler (ans := wanswer) Instant := λ now c,
  match c return wanswer c * Instant with
  | W_Instant => (now, now)
  | W_TryOnce => (false, now)
  | W_Sleep d => (tt, now + as_nanos d)
  end.
Lemma bounded_acquisition_ends_witness :
  duration_wf (of_nanos 25000000) ∧
  Calls.run refusing (acquire_receipt 5 (After (of_nanos 25000000))) 7 = (Some (Ok None), 25000007) ∧
  wp clockwork (acquire_receipt 5 (After (of_nanos 25000000))) (7, []) (λ r s, r ≠ None).
Proof.
  assert (duration_wf (of_nanos 25000000)) as Hwf by (vm_compute; repeat split; discriminate || reflexivity).
  split; [exact Hwf|]. split; [vm_compute; reflexivity|].
  eapply wp_mono; [exact (bounded_acquisition_ends (of_nanos 25000000) 7 Hwf ltac:(vm_compute; discriminate))|].
  intros r s' (start & _ & _ & Hr) ->. exact Hr.
Defined.

Definition losing : list Owned.Label :=
  [Owned.Work OC_Held 0; Owned.Work OC_Held 0; Owned.Work OC_Held 0; Owned.Work OC_Held 5; Owned.Reply (Some RO_Lost)].
Definition late_proof : list Owned.Label := [Owned.StartProof 0; Owned.StepProof 0 OC_Held 9].

Lemma lost_lease_is_final_witness :
  match Owned.execute (Owned.new Renewable one_second 0) losing with
  | Some (l, _) =>
      match Owned.execute l late_proof with
      | Some (l', os) => Owned.is_held (Owned.state l') = false ∧ Owned.Proved ∉ os
      | None => False
      end
  | None => False
  end.
Proof.
  destruct (Owned.execute (Owned.new Renewable one_second 0) losing) as [[l os]|] eqn:E; [|by vm_compute in E].
  assert (Owned.is_held (Owned.state l) = false ∧ Owned.proofs l = ∅) as [Hh Hp]
    by (revert E; vm_compute; intros [= <- _]; by split).
  destruct (Owned.execute l late_proof) as [[l' os']|] eqn:E'.
  - destruct (lost_lease_is_final Renewable one_second 0 losing l os late_proof l' os' E E') as [_ H].
    destruct (H Hh) as [Hl Hn]. split; [exact Hl|]. apply Hn. intros c. by rewrite Hp.
  - exfalso. revert E'. revert E. vm_compute. intros [= <- _]. done.
Defined.
End LeaseTheorems.
