(* ===== verification/Invalidation.v ===== *)
(** * Control snapshots and the in-memory invalidation store

    Models [src/src/marker_snapshots.rs] and [InMemoryInvalidationStore] of
    [src/src/distributed.rs]: the durable journal of marker maxima per scope,
    bounded in scopes and tags, and the expendable snapshots of its facts,
    bounded in number, that reads and renewals keep reconciled with it.

    The two maps are guarded by locks taken in one order, so each operation is
    one step. Scopes are equal and hash alike by their physical names, which
    are the keys here. The iteration order of the snapshot table is a
    parameter, and so are the answers of the cancellation checks around an
    operation and of the lease that guards a fenced renewal. *)
From S2P Require Import Prelude Time Options Tags Cancellation.

#[export] Instance MarkerKind_countable : Countable MarkerKind.
Proof.
  refine (inj_countable' (λ k, match k with
    | MK_Tag t => inl t | MK_ClearExpire => inr true | MK_ClearRemove => inr false end)
    (λ x, match x with
    | inl t => MK_Tag t | inr true => MK_ClearExpire | inr false => MK_ClearRemove end) _).
  by intros [].
Defined.

(** ** Snapshots *)
Inductive MarkerSnapshotValidationError := InvalidDeadlines | SnapshotZeroCapacity.

Record MarkerSnapshot := mkSnapshot {
  snap_version : MarkerVersion;
  snap_created : Timestamp;
  snap_logical : Timestamp;
  snap_physical : Timestamp;
}.
#[export] Instance eta_MarkerSnapshot : Eta MarkerSnapshot := λ s,
  mkSnapshot (snap_version s) (snap_created s) (snap_logical s) (snap_physical s).
#[export] Instance MarkerSnapshot_eq_dec : EqDecision MarkerSnapshot.
Proof. solve_decision. Defined.

Module MarkerSnapshot.
Definition new (version : MarkerVersion) (created logical physical : Timestamp)
    : result MarkerSnapshotValidationError MarkerSnapshot :=
  if (logical <? created) || (physical <? logical) then Err InvalidDeadlines
  else Ok (mkSnapshot version created logical physical).

Definition fresh (version : MarkerVersion) (options : EntryOptions) (now : Timestamp) : MarkerSnapshot :=
  mkSnapshot version now
    (saturating_add now (EntryOptions.resolved_distributed_duration options))
    (saturating_add now (EntryOptions.distributed_physical_ttl options)).

Definition is_fresh (self : MarkerSnapshot) (now : Timestamp) : bool :=
  (now <? snap_logical self) && (now <? snap_physical self).
Definition is_physically_expired (self : MarkerSnapshot) (now : Timestamp) : bool :=
  snap_physical self <=? now.
Definition remaining_ttl (self : MarkerSnapshot) (now : Timestamp) : Duration :=
  saturating_duration_since (snap_physical self) now.

Definition with_maximum (self : MarkerSnapshot) (maximum : option MarkerVersion) : MarkerSnapshot :=
  self <| snap_version := from_option (λ v, Z.max v (snap_version self)) (snap_version self) maximum |>.

(** The lexicographic order on (version, created). *)
Definition supersedes (self other : MarkerSnapshot) : bool :=
  (snap_version other <? snap_version self)
  || ((snap_version self =? snap_version other) && (snap_created other <? snap_created self)).
End MarkerSnapshot.

(** [MarkerSnapshotLimits]. *)
Definition snapshot_limits_new (max_entries : N) : result MarkerSnapshotValidationError N :=
  if (max_entries =? 0)%N then Err SnapshotZeroCapacity else Ok max_entries.
Definition snapshot_limits_default : N := 4096.

Inductive MarkerSnapshotRenewal :=
| MR_Stored (s : MarkerSnapshot)
| MR_KeptNewer (s : MarkerSnapshot)
| MR_Expired.

Inductive MarkerSnapshotRead :=
| SR_Snapshot (s : MarkerSnapshot)
| SR_Missing (maximum : option MarkerVersion).

Definition read_snapshot_of (self : MarkerSnapshotRead) : option MarkerSnapshot :=
  match self with SR_Snapshot s => Some s | SR_Missing _ => None end.
Definition read_maximum (self : MarkerSnapshotRead) : option MarkerVersion :=
  match self with SR_Snapshot s => Some (snap_version s) | SR_Missing maximum => maximum end.

(** The errors these operations raise themselves. *)
Inductive LeaseError := UnsupportedFencing | LeaseLost.
Inductive SnapshotError := SE_Lease (e : LeaseError) | SE_Cancelled (reason : CancellationReason).

Definition check_cancellation (reason : option CancellationReason) : result SnapshotError unit :=
  match reason with Some r => Err (SE_Cancelled r) | None => Ok tt end.

(** ** The store *)
Abbreviation ScopeKey := (string * string)%type (only parsing).
Abbreviation SnapshotKey := (ScopeKey * MarkerKind)%type (only parsing).

Definition scope_key (scope : CacheScope) : ScopeKey := (physical_prefix scope, physical_suffix scope).

Record InMemoryInvalidationStore := mkStore {
  scopes : gmap ScopeKey MarkerState;
  snapshots : gmap SnapshotKey MarkerSnapshot;
  limits : MarkerStoreLimits;
  snapshot_limits : N;
}.
#[export] Instance eta_InMemoryInvalidationStore : Eta InMemoryInvalidationStore := λ s,
  mkStore (scopes s) (snapshots s) (limits s) (snapshot_limits s).

(** [min_by_key] keeps the first of the least elements. *)
Definition min_by_created (l : list (SnapshotKey * MarkerSnapshot)) : option (SnapshotKey * MarkerSnapshot) :=
  fold_left (λ acc x,
    match acc with
    | None => Some x
    | Some best => if snap_created x.2 <? snap_created best.2 then Some x else Some best
    end) l None.

Module InvalidationStore.
Section store.
Context (iter : gmap SnapshotKey MarkerSnapshot → list (SnapshotKey * MarkerSnapshot)).
Implicit Types (self : InMemoryInvalidationStore).

Definition with_snapshot_limits (limits : MarkerStoreLimits) (snapshot_limits : N) : InMemoryInvalidationStore :=
  mkStore ∅ ∅ limits snapshot_limits.
Definition new (limits : MarkerStoreLimits) : InMemoryInvalidationStore :=
  with_snapshot_limits limits snapshot_limits_default.
Definition scope_count self : nat := size (scopes self).
Definition snapshot_count self : nat := size (snapshots self).

Definition read self (scope : CacheScope) (kind : MarkerKind) : option MarkerVersion :=
  scopes self !! scope_key scope ≫= λ state, MarkerState.read state kind.

Definition advance self (scope : CacheScope) (kind : MarkerKind) (candidate : MarkerVersion)
    : result MarkerError (MarkerAdvanceOutcome * InMemoryInvalidationStore) :=
  let k := scope_key scope in
  if bool_decide (scopes self !! k = None) && (max_scopes (limits self) <=? N.of_nat (size (scopes self)))%N
  then Err (ScopeCapacity (max_scopes (limits self)))
  else
    let '(outcome, state) :=
      MarkerState.advance (default MarkerState.default (scopes self !! k)) kind candidate
        (N.to_nat (max_tags (limits self))) in
    Ok (outcome, self <| scopes := <[k := state]> (scopes self) |>).

Definition read_many_now self (scope : CacheScope) (kinds : list MarkerKind) : list StoredMarker :=
  match scopes self !! scope_key scope with
  | None => []
  | Some state => omap (λ kind, mkStoredMarker kind <$> MarkerState.read state kind) kinds
  end.

(** The body of [read_snapshot] between its two cancellation checks. *)
Definition read_snapshot_now self (scope : CacheScope) (kind : MarkerKind) (now : Timestamp)
    : MarkerSnapshotRead * InMemoryInvalidationStore :=
  let maximum := read self scope kind in
  let key := (scope_key scope, kind) in
  match snapshots self !! key with
  | Some snapshot =>
      if MarkerSnapshot.is_physically_expired snapshot now
      then (SR_Missing maximum, self <| snapshots := delete key (snapshots self) |>)
      else (SR_Snapshot (MarkerSnapshot.with_maximum snapshot maximum), self)
  | None => (SR_Missing maximum, self)
  end.

Definition read_snapshot self scope kind now (before after : option CancellationReason)
    : result SnapshotError MarkerSnapshotRead * InMemoryInvalidationStore :=
  match check_cancellation before with
  | Err e => (Err e, self)
  | Ok _ =>
      let '(r, self) := read_snapshot_now self scope kind now in
      (match check_cancellation after with Err e => Err e | Ok _ => Ok r end, self)
  end.

Definition renew_snapshot_atomic self (scope : CacheScope) (kind : MarkerKind)
    (snapshot : MarkerSnapshot) (now : Timestamp) : MarkerSnapshotRenewal * InMemoryInvalidationStore :=
  if MarkerSnapshot.is_physically_expired snapshot now then (MR_Expired, self)
  else
    let maximum := read self scope kind in
    let live := filter (λ '(_, entry), MarkerSnapshot.is_physically_expired entry now = false) (snapshots self) in
    let key := (scope_key scope, kind) in
    let kept :=
      match live !! key with
      | Some current => if MarkerSnapshot.supersedes current snapshot then Some current else None
      | None => None
      end in
    match kept with
    | Some current =>
        (MR_KeptNewer (MarkerSnapshot.with_maximum current maximum), self <| snapshots := live |>)
    | None =>
        let room :=
          if bool_decide (live !! key = None) && (snapshot_limits self <=? N.of_nat (size live))%N
          then match min_by_created (iter live) with
               | Some (oldest, _) => delete oldest live
               | None => live
               end
          else live in
        let snapshot := MarkerSnapshot.with_maximum snapshot maximum in
        (MR_Stored snapshot, self <| snapshots := <[key := snapshot]> room |>)
    end.

Definition renew_snapshot self scope kind snapshot now (before after : option CancellationReason)
    : result SnapshotError MarkerSnapshotRenewal * InMemoryInvalidationStore :=
  match check_cancellation before with
  | Err e => (Err e, self)
  | Ok _ =>
      if MarkerSnapshot.is_physically_expired snapshot now then (Ok MR_Expired, self)
      else
        let '(r, self) := renew_snapshot_atomic self scope kind snapshot now in
        (match check_cancellation after with Err e => Err e | Ok _ => Ok r end, self)
  end.

(** [owned] is what [with_memory_ownership] does with the renewal: run it, find
    the lease gone, or refuse an authority that is not the in-memory one. *)
Definition renew_snapshot_with_lease self scope kind snapshot now (owned : result LeaseError bool)
    (before after : option CancellationReason)
    : result SnapshotError MarkerSnapshotRenewal * InMemoryInvalidationStore :=
  match check_cancellation before with
  | Err e => (Err e, self)
  | Ok _ =>
      match owned with
      | Err e => (Err (SE_Lease e), self)
      | Ok false => (Err (SE_Lease LeaseLost), self)
      | Ok true =>
          let '(r, self) := renew_snapshot_atomic self scope kind snapshot now in
          (match check_cancellation after with Err e => Err e | Ok _ => Ok r end, self)
      end
  end.

(** Any operation of the store. *)
Inductive Op :=
| O_Advance (scope : CacheScope) (kind : MarkerKind) (candidate : MarkerVersion)
| O_ReadSnapshot (scope : CacheScope) (kind : MarkerKind) (now : Timestamp) (before after : option CancellationReason)
| O_Renew (scope : CacheScope) (kind : MarkerKind) (s : MarkerSnapshot) (now : Timestamp)
    (before after : option CancellationReason)
| O_RenewLeased (scope : CacheScope) (kind : MarkerKind) (s : MarkerSnapshot) (now : Timestamp)
    (owned : result LeaseError bool) (before after : option CancellationReason).

Definition apply_op self (op : Op) : InMemoryInvalidationStore :=
  match op with
  | O_Advance scope kind c => match advance self scope kind c with Ok (_, s) => s | Err _ => self end
  | O_ReadSnapshot scope kind now b a => (read_snapshot self scope kind now b a).2
  | O_Renew scope kind s now b a => (renew_snapshot self scope kind s now b a).2
  | O_RenewLeased scope kind s now o b a => (renew_snapshot_with_lease self scope kind s now o b a).2
  end.
End store.
End InvalidationStore.

(** ** Lemmas *)
Import InvalidationStore.

Lemma min_by_created_fold (l : list (SnapshotKey * MarkerSnapshot)) acc :
  ∃ x, fold_left (λ acc x,
    match acc with
    | None => Some x
    | Some best => if snap_created x.2 <? snap_created best.2 then Some x else Some best
    end) l (Some acc) = Some x ∧ (x = acc ∨ x ∈ l) ∧
    snap_created x.2 ≤ snap_created acc.2 ∧ ∀ y, y ∈ l → snap_created x.2 ≤ snap_created y.2.
Proof.
  revert acc. induction l as [|y l IH]; intros acc; simpl.
  { exists acc. split; [done|]. split; [by left|]. split; [lia|]. by intros y Hy%elem_of_nil. }
  destruct (snap_created y.2 <? snap_created acc.2) eqn:Hc; [apply Z.ltb_lt in Hc|apply Z.ltb_ge in Hc].
  - destruct (IH y) as (x & Hx & Hin & Hle & Hall). exists x. split; [done|].
    split; [right; destruct Hin as [->|]; [by left|by right]|]. split; [lia|].
    intros z [->|Hz]%elem_of_cons; [done|auto].
  - destruct (IH acc) as (x & Hx & Hin & Hle & Hall). exists x. split; [done|].
    split; [destruct Hin as [->|]; [by left|right; by right]|]. split; [done|].
    intros z [->|Hz]%elem_of_cons; [lia|auto].
Qed.

Lemma min_by_created_spec l :
  match min_by_created l with
  | None => l = []
  | Some x => x ∈ l ∧ ∀ y, y ∈ l → snap_created x.2 ≤ snap_created y.2
  end.
Proof.
  unfold min_by_created. destruct l as [|y l]; [done|]. simpl.
  destruct (min_by_created_fold l y) as (x & -> & Hin & Hle & Hall). split.
  - destruct Hin as [->|]; [by left|by right].
  - intros z [->|Hz]%elem_of_cons; [done|auto].
Qed.

(** The iteration order of a table: some order of its entries. *)
Definition iteration (iter : gmap SnapshotKey MarkerSnapshot → list (SnapshotKey * MarkerSnapshot)) : Prop :=
  ∀ m, iter m ≡ₚ map_to_list m.

Lemma renew_atomic_scopes iter self scope kind s now :
  scopes (renew_snapshot_atomic iter self scope kind s now).2 = scopes self ∧
  limits (renew_snapshot_atomic iter self scope kind s now).2 = limits self ∧
  snapshot_limits (renew_snapshot_atomic iter self scope kind s now).2 = snapshot_limits self.
Proof. unfold renew_snapshot_atomic. repeat case_match; done. Qed.

(** Every operation but [advance] leaves the journal alone. *)
Lemma apply_op_scopes iter self op :
  (∃ scope kind c o s, op = O_Advance scope kind c ∧ advance self scope kind c = Ok (o, s) ∧
     apply_op iter self op = s) ∨
  scopes (apply_op iter self op) = scopes self.
Proof.
  destruct op as [scope kind c|scope kind now b a|scope kind s now b a|scope kind s now o b a]; simpl.
  - destruct (advance self scope kind c) as [[o s]|e] eqn:Ha; [left; naive_solver|by right].
  - right. unfold read_snapshot, read_snapshot_now. by repeat case_match; simplify_eq.
  - right. unfold renew_snapshot. case_match; [|done]. case_match; [done|].
    pose proof (renew_atomic_scopes iter self scope kind s now) as (H1 & _).
    by destruct (renew_snapshot_atomic _ _ _ _ _ _).
  - right. unfold renew_snapshot_with_lease. case_match; [|done]. destruct o as [[]|]; [|done..].
    pose proof (renew_atomic_scopes iter self scope kind s now) as (H1 & _).
    by destruct (renew_snapshot_atomic _ _ _ _ _ _).
Qed.

(** What the journal holds of a scope. *)
Definition recorded (self : InMemoryInvalidationStore) (scope : CacheScope) (k : MarkerKind) (at_ : MarkerVersion) : Prop :=
  ∃ state, scopes self !! scope_key scope = Some state ∧ known state k at_.

Lemma advance_Ok self scope kind c o s :
  advance self scope kind c = Ok (o, s) →
  ∃ state, state = (MarkerState.advance (default MarkerState.default (scopes self !! scope_key scope)) kind c
                     (N.to_nat (max_tags (limits self)))).2 ∧
    s = self <| scopes := <[scope_key scope := state]> (scopes self) |> ∧
    (scopes self !! scope_key scope ≠ None ∨ (N.of_nat (size (scopes self)) < max_scopes (limits self))%N).
Proof.
  unfold advance. destruct (bool_decide _ && _)%bool eqn:Hb; [done|].
  destruct (MarkerState.advance _ _ _ _) as [o' state]. intros [= <- <-].
  exists state. split; [done|]. split; [done|].
  apply andb_false_iff in Hb as [Hb|Hb]; [left; by apply bool_decide_eq_false in Hb|right].
  by apply N.leb_gt in Hb.
Qed.

Lemma recorded_advance self scope kind c o s scope' k at_ :
  advance self scope kind c = Ok (o, s) → recorded self scope' k at_ → recorded s scope' k at_.
Proof.
  intros (state & -> & -> & _)%advance_Ok (st & Hst & Hk). unfold recorded. simpl.
  destruct (decide (scope_key scope' = scope_key scope)) as [He|Hne].
  - rewrite He in *. rewrite lookup_insert_eq. eexists. split; [done|]. rewrite Hst. simpl.
    by apply known_advance.
  - rewrite lookup_insert_ne by done. by exists st.
Qed.

Lemma recorded_run iter ops self scope k at_ :
  recorded self scope k at_ → recorded (fold_left (apply_op iter) ops self) scope k at_.
Proof.
  revert self. induction ops as [|op ops IH]; intros self Hr; simpl; [done|]. apply IH.
  destruct (apply_op_scopes iter self op) as [(sc & kd & c & o & s & -> & Ha & ->)|Hs].
  - by eapply recorded_advance.
  - unfold recorded. by rewrite Hs.
Qed.

Definition store_ok (self : InMemoryInvalidationStore) : Prop :=
  (0 < snapshot_limits self)%N ∧
  (N.of_nat (size (scopes self)) ≤ max_scopes (limits self))%N ∧
  (∀ k state, scopes self !! k = Some state → (MarkerState.tag_count state ≤ N.to_nat (max_tags (limits self)))%nat) ∧
  (N.of_nat (size (snapshots self)) ≤ snapshot_limits self)%N.

(** The live snapshots a renewal starts from. *)
Definition live_at (self : InMemoryInvalidationStore) (now : Timestamp) : gmap SnapshotKey MarkerSnapshot :=
  filter (λ '(_, entry), MarkerSnapshot.is_physically_expired entry now = false) (snapshots self).

Lemma live_at_size self now : (size (live_at self now) ≤ size (snapshots self))%nat.
Proof. apply map_subseteq_size, map_filter_subseteq. Qed.

Lemma live_at_Some self now k s :
  live_at self now !! k = Some s ↔
  snapshots self !! k = Some s ∧ MarkerSnapshot.is_physically_expired s now = false.
Proof. unfold live_at. rewrite map_lookup_filter_Some. naive_solver. Qed.

(** The room a renewal of [key] makes: at most one entry goes, the least
    recently created one, and only at capacity. *)
Definition room_for (iter : gmap SnapshotKey MarkerSnapshot → list (SnapshotKey * MarkerSnapshot))
    (limit : N) (key : SnapshotKey) (live : gmap SnapshotKey MarkerSnapshot) : gmap SnapshotKey MarkerSnapshot :=
  if bool_decide (live !! key = None) && (limit <=? N.of_nat (size live))%N
  then match min_by_created (iter live) with
       | Some (oldest, _) => delete oldest live
       | None => live
       end
  else live.

Lemma room_for_spec iter limit key live :
  iteration iter → (0 < limit)%N → (N.of_nat (size live) ≤ limit)%N →
  (∀ s, (N.of_nat (size (<[key := s]> (room_for iter limit key live))) ≤ limit)%N) ∧
  (room_for iter limit key live = live ∨
   ∃ oldest o, live !! oldest = Some o ∧ oldest ≠ key ∧ room_for iter limit key live = delete oldest live ∧
     N.of_nat (size live) = limit ∧ live !! key = None ∧
     ∀ k s, live !! k = Some s → snap_created o ≤ snap_created s).
Proof.
  intros Hit Hpos Hle. unfold room_for.
  destruct (live !! key) as [s0|] eqn:Hk.
  { rewrite bool_decide_false by done. simpl. split; [|by left]. intros s.
    rewrite map_size_insert_Some by eauto. done. }
  rewrite bool_decide_true by done. simpl. destruct (limit <=? _)%N eqn:Hf.
  2: { apply N.leb_gt in Hf. split; [|by left]. intros s. rewrite map_size_insert_None by done. lia. }
  apply N.leb_le in Hf. pose proof (min_by_created_spec (iter live)) as Hm. specialize (Hit live).
  destruct (min_by_created (iter live)) as [[oldest o]|].
  2: { rewrite Hm in Hit. apply Permutation_nil_l in Hit. symmetry in Hit.
       apply map_to_list_empty_iff in Hit. subst. rewrite map_size_empty in Hf. lia. }
  destruct Hm as [Hin Hall]. rewrite Hit in Hin. apply elem_of_map_to_list in Hin.
  pose proof (size_delete_Some live oldest o Hin) as Hsz.
  assert (oldest ≠ key) by congruence. split.
  - intros s. rewrite map_size_insert_None by (by rewrite lookup_delete_ne). lia.
  - right. exists oldest, o. split; [done|]. split; [done|]. split; [done|]. split; [lia|]. split; [done|].
    intros k s Hks. apply (Hall (k, s)). rewrite Hit. by apply elem_of_map_to_list.
Qed.

(** [renew_snapshot_atomic] in terms of the live table. *)
Lemma renew_atomic_eq iter self scope kind s now :
  renew_snapshot_atomic iter self scope kind s now =
  if MarkerSnapshot.is_physically_expired s now then (MR_Expired, self)
  else
    let key := (scope_key scope, kind) in
    match live_at self now !! key with
    | Some current =>
        if MarkerSnapshot.supersedes current s
        then (MR_KeptNewer (MarkerSnapshot.with_maximum current (read self scope kind)),
              self <| snapshots := live_at self now |>)
        else (MR_Stored (MarkerSnapshot.with_maximum s (read self scope kind)),
              self <| snapshots := <[key := MarkerSnapshot.with_maximum s (read self scope kind)]>
                        (room_for iter (snapshot_limits self) key (live_at self now)) |>)
    | None =>
        (MR_Stored (MarkerSnapshot.with_maximum s (read self scope kind)),
         self <| snapshots := <[key := MarkerSnapshot.with_maximum s (read self scope kind)]>
                   (room_for iter (snapshot_limits self) key (live_at self now)) |>)
    end.
Proof.
  unfold renew_snapshot_atomic. destruct (MarkerSnapshot.is_physically_expired s now); [done|].
  fold (live_at self now). cbv zeta. unfold room_for.
  destruct (live_at self now !! (scope_key scope, kind)); [|done].
  by destruct (MarkerSnapshot.supersedes _ _).
Qed.

Lemma store_ok_renew iter self scope kind s now :
  iteration iter → store_ok self → store_ok (renew_snapshot_atomic iter self scope kind s now).2.
Proof.
  intros Hit (H1 & H2 & H3 & H4). rewrite renew_atomic_eq.
  destruct (MarkerSnapshot.is_physically_expired s now); [done|]. cbv zeta.
  pose proof (live_at_size self now) as Hsz.
  destruct (room_for_spec iter (snapshot_limits self) (scope_key scope, kind) (live_at self now))
    as [Hr _]; [done|done|lia|].
  destruct (live_at self now !! _); [destruct (MarkerSnapshot.supersedes _ _)|];
    (split; [done|split; [done|split; [done|]]]); simpl; try apply Hr. lia.
Qed.

Lemma store_ok_op iter self op : iteration iter → store_ok self → store_ok (apply_op iter self op).
Proof.
  intros Hit Hok. destruct op as [scope kind c|scope kind now b a|scope kind s now b a|scope kind s now o b a]; simpl.
  - destruct (advance self scope kind c) as [[o s]|e] eqn:Ha; [|done].
    apply advance_Ok in Ha as (state & -> & -> & Hroom). destruct Hok as (H1 & H2 & H3 & H4).
    split; [done|]. split; [|split; [|done]]; simpl.
    + destruct (scopes self !! scope_key scope) eqn:Hs.
      * by rewrite map_size_insert_Some by eauto.
      * rewrite map_size_insert_None by done. destruct Hroom; [done|lia].
    + intros k st [[_ <-]|[_ Hst]]%lookup_insert_Some; [apply advance_bounded|by eapply H3].
  - unfold read_snapshot, read_snapshot_now. destruct (check_cancellation b); [|done].
    destruct (snapshots self !! _) as [s|] eqn:Hs; [|done].
    destruct (MarkerSnapshot.is_physically_expired s now); [|done].
    destruct Hok as (H1 & H2 & H3 & H4). split; [done|]. split; [done|]. split; [done|]. simpl.
    pose proof (size_delete_Some _ _ _ Hs). lia.
  - unfold renew_snapshot. case_match; [|done]. case_match; [done|].
    pose proof (store_ok_renew iter self scope kind s now Hit Hok).
    by destruct (renew_snapshot_atomic _ _ _ _ _ _).
  - unfold renew_snapshot_with_lease. case_match; [|done]. destruct o as [[]|]; [|done..].
    pose proof (store_ok_renew iter self scope kind s now Hit Hok).
    by destruct (renew_snapshot_atomic _ _ _ _ _ _).
Qed.

Lemma store_ok_run iter ops self :
  iteration iter → store_ok self → store_ok (fold_left (apply_op iter) ops self).
Proof. intros Hit. revert self. induction ops; intros self Hok; simpl; [done|]. by apply IHops, store_ok_op. Qed.

(** ** What the store promises *)

(** Durable facts are bounded in number and never lost. From an empty
    store and through any sequence of operations, cancelled and refused ones
    included, in any iteration order of the snapshot table: the scopes, the
    tags of each scope and the snapshots stay within their limits; and a
    revision that an advance accepted is covered for ever after, by the
    marker's own maximum or by the scope's clear-remove fence. *)
Theorem journal_bounded_and_durable iter lim n ops scope kind c o s ops' :
  iteration iter → (0 < n)%N →
  advance (fold_left (apply_op iter) ops (with_snapshot_limits lim n)) scope kind c = Ok (o, s) →
  let s' := fold_left (apply_op iter) ops' s in
  recorded s' scope kind c ∧
  (N.of_nat (scope_count s') ≤ max_scopes (limits s'))%N ∧
  (∀ k state, scopes s' !! k = Some state → (MarkerState.tag_count state ≤ N.to_nat (max_tags (limits s')))%nat) ∧
  (N.of_nat (snapshot_count s') ≤ snapshot_limits s')%N.
Proof.
  intros Hit Hn Ha. simpl.
  assert (store_ok (with_snapshot_limits lim n)) as H0.
  { split; [done|]. simpl. rewrite !map_size_empty. split; [lia|]. split; [by intros k st|lia]. }
  apply (store_ok_run iter ops) in H0; [|done].
  assert (store_ok s) as Hs.
  { pose proof (store_ok_op iter _ (O_Advance scope kind c) Hit H0) as H. simpl in H. by rewrite Ha in H. }
  split.
  - apply recorded_run. apply advance_Ok in Ha as (state & -> & -> & _).
    eexists. simpl. rewrite lookup_insert_eq. split; [done|]. apply known_advance.
  - apply (store_ok_run iter ops') in Hs as (_ & H1 & H2 & H3); done.
Qed.

Definition demo_scope : CacheScope := mkScope "app" "v1" KM_Prefix "v1:app" "".
Definition demo_limits : MarkerStoreLimits := mkLimits 1 2.
Definition demo_store : InMemoryInvalidationStore :=
  fold_left (apply_op map_to_list)
    [O_Advance demo_scope (MK_Tag "a") 10;
     O_Renew demo_scope (MK_Tag "a") (mkSnapshot 8 5 50 90) 20 None None]
    (with_snapshot_limits demo_limits 1).

Lemma journal_bounded_and_durable_witness :
  iteration map_to_list ∧
  ∃ o s, advance demo_store demo_scope (MK_Tag "b") 12 = Ok (o, s) ∧
    recorded (fold_left (apply_op map_to_list) [O_Advance demo_scope (MK_Tag "c") 11] s) demo_scope (MK_Tag "b") 12.
Proof.
  split; [intros m; reflexivity|].
  pose (r := advance demo_store demo_scope (MK_Tag "b") 12).
  pose (p := match r with Ok p => p | Err _ => (Advanced (mkStoredMarker MK_ClearExpire 0), demo_store) end).
  exists p.1, p.2. assert (Hr : advance demo_store demo_scope (MK_Tag "b") 12 = Ok (p.1, p.2)) by (vm_compute; reflexivity).
  split; [exact Hr|].
  apply (journal_bounded_and_durable map_to_list demo_limits 1
    [O_Advance demo_scope (MK_Tag "a") 10; O_Renew demo_scope (MK_Tag "a") (mkSnapshot 8 5 50 90) 20 None None]
    demo_scope (MK_Tag "b") 12 p.1 p.2 [O_Advance demo_scope (MK_Tag "c") 11]);
    [intros m; reflexivity|reflexivity|exact Hr].
Defined.

Lemma with_maximum_ge s m :
  snap_version s ≤ snap_version (MarkerSnapshot.with_maximum s m) ∧
  ∀ v, m = Some v → v ≤ snap_version (MarkerSnapshot.with_maximum s m).
Proof. destruct m as [v|]; simpl; split; intros; simplify_eq; lia. Qed.

Lemma read_now_spec self scope kind now :
  let '(r, s1) := read_snapshot_now self scope kind now in
  scopes s1 = scopes self ∧
  (∀ m, read self scope kind = Some m → ∃ v, read_maximum r = Some v ∧ m ≤ v) ∧
  (∀ t, read_snapshot_of r = Some t → MarkerSnapshot.is_physically_expired t now = false).
Proof.
  unfold read_snapshot_now.
  destruct (snapshots self !! _) as [s|]; [destruct (MarkerSnapshot.is_physically_expired s now) eqn:He|];
    (split; [done|]); (split; [intros m Hm|]); simpl; try done; try (exists m; rewrite Hm; split; [done|lia]).
  - eexists. split; [done|]. rewrite Hm. simpl. lia.
  - by intros t [= <-].
Qed.

(** The table after a renewal that was stored. *)
Lemma stored_spec iter self scope kind now s w s2 cur :
  let key := (scope_key scope, kind) in
  (room_for iter (snapshot_limits self) key (live_at self now) = live_at self now ∨
   ∃ oldest o, live_at self now !! oldest = Some o ∧ oldest ≠ key ∧
     room_for iter (snapshot_limits self) key (live_at self now) = delete oldest (live_at self now) ∧
     N.of_nat (size (live_at self now)) = snapshot_limits self ∧
     live_at self now !! key = None ∧
     ∀ k s, live_at self now !! k = Some s → snap_created o ≤ snap_created s) →
  (∀ c, cur = Some c → MarkerSnapshot.supersedes c s = false) →
  live_at self now !! key = cur →
  (MR_Stored (MarkerSnapshot.with_maximum s (read self scope kind)),
    self <| snapshots := <[key := MarkerSnapshot.with_maximum s (read self scope kind)]>
              (room_for iter (snapshot_limits self) key (live_at self now)) |>) = (w, s2) →
  match w with
  | MR_Expired => MarkerSnapshot.is_physically_expired s now = true ∧ s2 = self
  | MR_KeptNewer t =>
      ∃ current, live_at self now !! key = Some current ∧ MarkerSnapshot.supersedes current s = true ∧
        snapshots s2 = live_at self now ∧ t = MarkerSnapshot.with_maximum current (read self scope kind)
  | MR_Stored t =>
      snapshots s2 !! key = Some t ∧ snap_created t = snap_created s ∧ snap_physical t = snap_physical s ∧
      (∀ m, read self scope kind = Some m → m ≤ snap_version t) ∧
      (∀ current, live_at self now !! key = Some current → MarkerSnapshot.supersedes current t = false) ∧
      (∀ k u, k ≠ key → live_at self now !! k = Some u → snapshots s2 !! k = Some u ∨
         N.of_nat (size (live_at self now)) = snapshot_limits self ∧ live_at self now !! key = None ∧
         ∀ k' u', live_at self now !! k' = Some u' → snap_created u ≤ snap_created u')
  end.
Proof.
  intros key Hroom Hc Hl [= <- <-]. destruct (with_maximum_ge s (read self scope kind)) as [Hv Hm].
  split; [simpl; by rewrite lookup_insert_eq|]. split; [done|]. split; [done|]. split; [done|]. split.
  - intros c Hlc. specialize (Hc c ltac:(congruence)). unfold MarkerSnapshot.supersedes in *.
    apply orb_false_elim in Hc as [H1%Z.ltb_ge H2]. apply orb_false_iff.
    split; [apply Z.ltb_ge; lia|]. apply andb_false_iff in H2. apply andb_false_iff.
    destruct H2 as [H2|H2]; [left|by right]. apply Z.eqb_neq in H2. apply Z.eqb_neq. lia.
  - intros k u Hk Hu. simpl. rewrite lookup_insert_ne by done.
    destruct Hroom as [->|(oldest & o & Ho & _ & -> & Hsz & Hn & Hmin)]; [by left|].
    destruct (decide (k = oldest)) as [->|]; [right|left; by rewrite lookup_delete_ne].
    split; [done|]. split; [done|]. rewrite Hu in Ho. by injection Ho as ->.
Qed.

(** A snapshot never understates the journal. On any store: a read
    answers with a revision at least as high as the durable maximum, and with a
    snapshot only while it is physically live; a renewal stores at least the
    durable maximum and never a snapshot below a live one it replaces, in the
    order of revision and insertion, it keeps a newer one unchanged in the
    table, and it writes nothing at all once the proposal has physically
    expired; neither touches the journal. At capacity a renewal for a new key
    evicts one least recently created live snapshot and no other. *)
Theorem snapshots_never_understate iter self scope kind now s :
  iteration iter → store_ok self →
  let key := (scope_key scope, kind) in
  let '(r, s1) := read_snapshot_now self scope kind now in
  let '(w, s2) := renew_snapshot_atomic iter self scope kind s now in
  scopes s1 = scopes self ∧ scopes s2 = scopes self ∧
  (∀ m, read self scope kind = Some m → ∃ v, read_maximum r = Some v ∧ m ≤ v) ∧
  (∀ t, read_snapshot_of r = Some t → MarkerSnapshot.is_physically_expired t now = false) ∧
  match w with
  | MR_Expired => MarkerSnapshot.is_physically_expired s now = true ∧ s2 = self
  | MR_KeptNewer t =>
      ∃ current, live_at self now !! key = Some current ∧ MarkerSnapshot.supersedes current s = true ∧
        snapshots s2 = live_at self now ∧ t = MarkerSnapshot.with_maximum current (read self scope kind)
  | MR_Stored t =>
      snapshots s2 !! key = Some t ∧ snap_created t = snap_created s ∧ snap_physical t = snap_physical s ∧
      (∀ m, read self scope kind = Some m → m ≤ snap_version t) ∧
      (∀ current, live_at self now !! key = Some current → MarkerSnapshot.supersedes current t = false) ∧
      (∀ k u, k ≠ key → live_at self now !! k = Some u → snapshots s2 !! k = Some u ∨
         N.of_nat (size (live_at self now)) = snapshot_limits self ∧ live_at self now !! key = None ∧
         ∀ k' u', live_at self now !! k' = Some u' → snap_created u ≤ snap_created u')
  end.
Proof.
  intros Hit (Hpos & _ & _ & Hsz) key.
  destruct (read_snapshot_now self scope kind now) as [r s1] eqn:Hr.
  destruct (renew_snapshot_atomic iter self scope kind s now) as [w s2] eqn:Hw.
  pose proof (read_now_spec self scope kind now) as Hrs. rewrite Hr in Hrs.
  destruct Hrs as (Hr1 & Hr2 & Hr3).
  pose proof (renew_atomic_scopes iter self scope kind s now) as (Hs2 & _). rewrite Hw in Hs2.
  split; [done|]. split; [done|]. split; [done|]. split; [done|].
  rewrite renew_atomic_eq in Hw. cbv zeta in Hw. fold key in Hw.
  pose proof (live_at_size self now).
  destruct (room_for_spec iter (snapshot_limits self) key (live_at self now)) as [_ Hroom]; [done|done|lia|].
  pose proof (λ cur, stored_spec iter self scope kind now s w s2 cur Hroom) as Hst.
  fold key in Hst.
  destruct (MarkerSnapshot.is_physically_expired s now) eqn:He; [by injection Hw as <- <-|].
  destruct (live_at self now !! key) as [c|] eqn:Hl; [|exact (Hst None ltac:(done) eq_refl Hw)].
  destruct (MarkerSnapshot.supersedes c s) eqn:Hsup.
  - injection Hw as <- <-. exists c. done.
  - refine (Hst (Some c) _ eq_refl Hw). by intros ? [= <-].
Qed.

Definition demo_renewal : MarkerSnapshotRenewal * InMemoryInvalidationStore :=
  renew_snapshot_atomic map_to_list demo_store demo_scope (MK_Tag "a") (mkSnapshot 10 21 60 95) 30.

Lemma snapshots_never_understate_witness :
  iteration map_to_list ∧ store_ok demo_store ∧
  demo_renewal.1 = MR_Stored (mkSnapshot 10 21 60 95) ∧
  snapshots demo_renewal.2 !! (scope_key demo_scope, MK_Tag "a") = Some (mkSnapshot 10 21 60 95).
Proof.
  assert (Hi : iteration map_to_list) by (intros m; reflexivity).
  assert (Hok : store_ok demo_store).
  { apply (store_ok_run map_to_list); [exact Hi|]. split; [reflexivity|]. simpl. rewrite !map_size_empty.
    split; [lia|]. split; [by intros k st|lia]. }
  assert (Hw : demo_renewal.1 = MR_Stored (mkSnapshot 10 21 60 95)) by (vm_compute; reflexivity).
  split; [exact Hi|]. split; [exact Hok|]. split; [exact Hw|].
  pose proof (snapshots_never_understate map_to_list demo_store demo_scope (MK_Tag "a") 30
    (mkSnapshot 10 21 60 95) Hi Hok) as H.
  destruct (read_snapshot_now demo_store demo_scope (MK_Tag "a") 30) as [r s1].
  fold demo_renewal in H. destruct demo_renewal as [w s2]. simpl in Hw |- *. subst w.
  destruct H as (_ & _ & _ & _ & H & _). exact H.
Defined.
