(* ===== verification/Origins.v ===== *)
(** * Origin revisions

    Models [src/src/memory/origin.rs]: the per-key revisions that let a factory's
    result be committed only if nothing mutated its key in between. A revision
    is a shared atomic counter; [Origins] holds weak references to it, the
    outstanding origin tokens hold strong ones. The [Revs] heap gives every
    revision its counter and its strong-reference count. *)
From S2P Require Import Prelude Time Entry.

(** [RecoveryError::GenerationExhausted], the only failure of a capture. *)
Inductive GenerationExhausted := generation_exhausted.

Record RevObj := mkRev { rev_current : Z; strong : nat }.
Abbreviation Revs := (gmap Loc RevObj) (only parsing).

(** [RevisionSource for Revision]. *)
Definition current (h : Revs) (l : Loc) : Z := from_option rev_current 0 (h !! l).
Definition rev_advance (h : Revs) (l : Loc) : Revs :=
  alter (λ o, mkRev (saturating_add_u64 (rev_current o) 1) (strong o)) l h.

(** [Weak::upgrade] succeeds while a strong reference exists; [retain] and
    [release] clone and drop one. *)
Definition alive (h : Revs) (l : Loc) : bool :=
  match h !! l with Some o => (0 <? strong o)%nat | None => false end.
Definition retain (h : Revs) (l : Loc) : Revs :=
  alter (λ o, mkRev (rev_current o) (S (strong o))) l h.
Definition release (h : Revs) (l : Loc) : Revs :=
  alter (λ o, mkRev (rev_current o) (pred (strong o))) l h.

Record ActiveRevision := mkActive { revision : Loc; snapshots : nat }.
(** [Origins { active }]. *)
Abbreviation Origins := (gmap string ActiveRevision) (only parsing).

(** The predicate a committed origin is checked with. *)
Record RevisionSnapshot := mkSnapshot {
  snap_revision : Loc; snap_captured : Z; snap_generation : Z }.

Module RevisionSnapshot.
Definition matches (h : Revs) (self : RevisionSnapshot) (generation : Z) : bool :=
  negb (generation =? u64_max) && (snap_generation self =? generation)
  && (current h (snap_revision self) =? snap_captured self).
End RevisionSnapshot.

Module Origins.
(** The strong reference [capture_from] settles on: the active revision if it
    can be upgraded (the provided one is then dropped), else the provided one,
    else a new revision at the free address [fresh]. *)
Definition select_revision (h : Revs) (self : Origins) (key : string)
    (provided : option Loc) (fresh : Loc) : Revs * Loc :=
  match self !! key with
  | Some active =>
      if alive h (revision active)
      then (from_option (release (retain h (revision active)))
              (retain h (revision active)) provided, revision active)
      else match provided with
           | Some l => (h, l)
           | None => (<[fresh := mkRev 1 1]> h, fresh)
           end
  | None =>
      match provided with
      | Some l => (h, l)
      | None => (<[fresh := mkRev 1 1]> h, fresh)
      end
  end.

(** On failure the selected reference is dropped again. *)
Definition capture_from (h : Revs) (self : Origins) (key : string)
    (provided : option Loc) (fresh : Loc)
    : Revs * Origins * result GenerationExhausted (Loc * Z) :=
  let '(h, l) := select_revision h self key provided fresh in
  let captured := current h l in
  if captured =? u64_max then (release h l, self, Err generation_exhausted)
  else
    let self' :=
      match self !! key with
      | Some active =>
          if decide (revision active = l)
          then <[key := mkActive l (S (snapshots active))]> self
          else <[key := mkActive l 1]> self
      | None => <[key := mkActive l 1]> self
      end in
    (h, self', Ok (l, captured)).

Definition advance (h : Revs) (self : Origins) (key : string) : Revs :=
  match self !! key with
  | Some active =>
      if alive h (revision active) then rev_advance h (revision active) else h
  | None => h
  end.

(** [snapshots -= 1] is a [usize] subtraction: [None] if it would underflow. *)
Definition forget (self : Origins) (key : string) (l : Loc) : option Origins :=
  match self !! key with
  | Some active =>
      if decide (revision active = l)
      then match snapshots active with
           | O => None
           | S O => Some (delete key self)
           | S n => Some (<[key := mkActive l n]> self)
           end
      else Some self
  | None => Some self
  end.
End Origins.

(** ** The life of the outstanding origins

    An origin token ([MemoryOrigin], [BorrowedMemoryOrigin]) is captured for a
    key and dropped once; the ghost field [untouched] records whether a mutation
    of its key or a generation change happened since. *)
Record Token := mkToken { tok_key : string; tok_snapshot : RevisionSnapshot; untouched : bool }.

Record World := mkWorld {
  revs : Revs; active : Origins; generation : Z; tokens : gmap nat Token }.

Definition touch (f : Token → bool) (ts : gmap nat Token) : gmap nat Token :=
  (λ t, mkToken (tok_key t) (tok_snapshot t) (untouched t && negb (f t))) <$> ts.

Inductive step : World → World → Prop :=
| step_capture w id key fresh h o l c :
    tokens w !! id = None → revs w !! fresh = None → generation w ≠ u64_max →
    Origins.capture_from (revs w) (active w) key None fresh = (h, o, Ok (l, c)) →
    step w (mkWorld h o (generation w)
              (<[id := mkToken key (mkSnapshot l c (generation w)) true]> (tokens w)))
| step_mutate w key :
    step w (mkWorld (Origins.advance (revs w) (active w) key) (active w) (generation w)
              (touch (λ t, bool_decide (tok_key t = key)) (tokens w)))
| step_clear w :
    generation w ≠ u64_max →
    step w (mkWorld (revs w) (active w) (generation w + 1) (touch (λ _, true) (tokens w)))
| step_drop w id t o :
    tokens w !! id = Some t →
    Origins.forget (active w) (tok_key t) (snap_revision (tok_snapshot t)) = Some o →
    step w (mkWorld (release (revs w) (snap_revision (tok_snapshot t))) o (generation w)
              (delete id (tokens w))).

Definition initial : World := mkWorld ∅ ∅ 1 ∅.

(** ** The invariant *)
Section invariant.
Implicit Types (w : World) (ts : gmap nat Token).

Definition owns (key : string) (t : Token) : Z := if decide (tok_key t = key) then 1 else 0.
(** The outstanding tokens of a key. *)
Definition outstanding (key : string) (ts : gmap nat Token) : Z := msum (owns key) ts.

(** A token is marked untouched exactly when its snapshot still matches. *)
Definition token_inv w (t : Token) : Prop :=
  (∃ a, active w !! tok_key t = Some a ∧ revision a = snap_revision (tok_snapshot t)) ∧
  snap_captured (tok_snapshot t) ≤ current (revs w) (snap_revision (tok_snapshot t)) ∧
  snap_captured (tok_snapshot t) < u64_max ∧
  snap_generation (tok_snapshot t) ≤ generation w ∧
  snap_generation (tok_snapshot t) < u64_max ∧
  (untouched t = true ↔
     current (revs w) (snap_revision (tok_snapshot t)) = snap_captured (tok_snapshot t) ∧
     generation w = snap_generation (tok_snapshot t)).

Definition active_inv w (key : string) (a : ActiveRevision) : Prop :=
  (0 < snapshots a)%nat ∧ Z.of_nat (snapshots a) = outstanding key (tokens w) ∧
  ∃ o, revs w !! revision a = Some o ∧ strong o = snapshots a ∧ rev_current o ≤ u64_max.

Definition inv w : Prop :=
  generation w ≤ u64_max ∧
  (∀ id t, tokens w !! id = Some t → token_inv w t) ∧
  (∀ key a, active w !! key = Some a → active_inv w key a) ∧
  (∀ k1 k2 a1 a2, active w !! k1 = Some a1 → active w !! k2 = Some a2 →
     revision a1 = revision a2 → k1 = k2).

Lemma origins_inv_initial : inv initial.
Proof. split_and!; simpl; [lia|..]; intros; by rewrite lookup_empty in *. Qed.

Lemma outstanding_insert key id t ts :
  ts !! id = None → outstanding key (<[id := t]> ts) = owns key t + outstanding key ts.
Proof. apply msum_insert. Qed.

Lemma outstanding_delete key id t ts :
  ts !! id = Some t → outstanding key (delete id ts) = outstanding key ts - owns key t.
Proof. apply msum_delete. Qed.

Lemma outstanding_touch key f ts : outstanding key (touch f ts) = outstanding key ts.
Proof. unfold outstanding, touch. rewrite msum_fmap. by apply msum_ext. Qed.

Lemma active_alive w key a :
  inv w → active w !! key = Some a → alive (revs w) (revision a) = true.
Proof.
  intros (_ & _ & Ha & _) Hk. destruct (Ha _ _ Hk) as (Hpos & _ & o & Ho & Hs & _).
  unfold alive. rewrite Ho, Hs. by apply Nat.ltb_lt.
Qed.

Lemma current_alter h l l' f :
  current (alter f l h) l' =
  if decide (l = l') then from_option (rev_current ∘ f) 0 (h !! l) else current h l'.
Proof.
  unfold current. destruct (decide (l = l')) as [->|].
  - rewrite lookup_alter_eq. by destruct (h !! l').
  - by rewrite lookup_alter_ne.
Qed.

Lemma current_retain h l l' : current (retain h l) l' = current h l'.
Proof.
  unfold retain. rewrite current_alter. case_decide as E; [subst|done].
  unfold current. by destruct (h !! l').
Qed.
Lemma current_release h l l' : current (release h l) l' = current h l'.
Proof.
  unfold release. rewrite current_alter. case_decide as E; [subst|done].
  unfold current. by destruct (h !! l').
Qed.

(** A capture while the key is active joins its revision; otherwise it starts a
    revision at one. *)
Lemma capture_cases w key fresh h o l c :
  inv w → Origins.capture_from (revs w) (active w) key None fresh = (h, o, Ok (l, c)) →
  c ≠ u64_max ∧
  match active w !! key with
  | Some a => l = revision a ∧ h = retain (revs w) l ∧ c = current (revs w) l ∧
              o = <[key := mkActive l (S (snapshots a))]> (active w)
  | None => l = fresh ∧ h = <[fresh := mkRev 1 1]> (revs w) ∧ c = 1 ∧
            o = <[key := mkActive l 1]> (active w)
  end.
Proof.
  intros Hinv. unfold Origins.capture_from, Origins.select_revision.
  destruct (active w !! key) as [a|] eqn:Ha.
  - rewrite (active_alive w key a) by done. simpl. rewrite current_retain.
    case_match eqn:E; [done|]. rewrite decide_True by done. intros [= <- <- <- <-].
    bool_to_prop. done.
  - assert (current (<[fresh := mkRev 1 1]> (revs w)) fresh = 1) as ->
      by (unfold current; by rewrite lookup_insert_eq).
    simpl. by intros [= <- <- <- <-].
Qed.
End invariant.

(** ** Preservation *)
Section preservation.
Implicit Types (w : World) (ts : gmap nat Token).

Lemma no_active_no_token w key :
  inv w → active w !! key = None → outstanding key (tokens w) = 0.
Proof.
  intros (_ & Ht & _) Hk. apply msum_zero. intros id t Hid. unfold owns.
  case_decide as E; [|done]. subst key.
  destruct (Ht _ _ Hid) as ((a & Ha & _) & _). congruence.
Qed.

(** Tokens are unaffected by a change to the revisions of other keys. *)
Lemma token_inv_ext w w' t :
  generation w' = generation w → active w' !! tok_key t = active w !! tok_key t →
  current (revs w') (snap_revision (tok_snapshot t)) =
    current (revs w) (snap_revision (tok_snapshot t)) →
  token_inv w t → token_inv w' t.
Proof. unfold token_inv. intros -> -> ->. done. Qed.

Lemma capture_inv w id key fresh h o l c :
  inv w → tokens w !! id = None → revs w !! fresh = None → generation w ≠ u64_max →
  Origins.capture_from (revs w) (active w) key None fresh = (h, o, Ok (l, c)) →
  inv (mkWorld h o (generation w)
         (<[id := mkToken key (mkSnapshot l c (generation w)) true]> (tokens w))).
Proof.
  intros Hinv Hid Hfresh Hgen Hcap.
  destruct (capture_cases _ _ _ _ _ _ _ Hinv Hcap) as [Hc Hcase].
  pose proof Hinv as (Hg & Ht & Ha & Hinj).
  destruct (active w !! key) as [a|] eqn:Hk; destruct Hcase as (-> & -> & -> & ->).
  - destruct (Ha _ _ Hk) as (Hpos & Hcnt & obj & Hobj & Hstrong & Hmax).
    assert (current (revs w) (revision a) ≤ u64_max) as Hcm.
    { unfold current. rewrite Hobj. done. }
    split_and!; [done|..]; cbn [revs active generation tokens].
    + intros id' t [[<- <-]|[Hne Hid']]%lookup_insert_Some.
      * split_and!; simpl; rewrite ?lookup_insert_eq, ?current_retain; try lia; eauto.
      * destruct (Ht _ _ Hid') as ((a' & Ha' & Hr) & Hrest).
        split; [|cbn [revs generation]; by rewrite current_retain].
        cbn [active]. destruct (decide (tok_key t = key)) as [Heq|Hne'].
        -- rewrite Heq, lookup_insert_eq in *. eexists. split; [done|]. simpl. congruence.
        -- rewrite lookup_insert_ne by done. eauto.
    + intros key' a' [[<- <-]|[Hne Hk']]%lookup_insert_Some.
      * unfold active_inv. cbn [revs tokens snapshots revision].
        rewrite outstanding_insert by done. unfold owns; simpl. rewrite decide_True by done.
        split_and!; [lia..|]. unfold retain. rewrite lookup_alter_eq, Hobj. simpl.
        eexists. split; [done|]. simpl. lia.
      * destruct (Ha _ _ Hk') as (Hpos' & Hcnt' & obj' & Hobj' & Hs').
        unfold active_inv. cbn [revs tokens].
        rewrite outstanding_insert by done. unfold owns; simpl. rewrite decide_False by done.
        split_and!; [done|lia|]. exists obj'. split; [|done].
        unfold retain. rewrite lookup_alter_ne; [done|]. intros Heq. apply Hne. eauto.
    + intros k1 k2 a1 a2 [[<- <-]|[Hn1 H1]]%lookup_insert_Some
        [[<- <-]|[Hn2 H2]]%lookup_insert_Some; simpl; eauto.
  - assert (∀ k a, active w !! k = Some a → revision a ≠ fresh) as Hnf.
    { intros k a Hka Hf. destruct (Ha _ _ Hka) as (_ & _ & obj & Hobj & _). congruence. }
    assert (current (<[fresh := mkRev 1 1]> (revs w)) fresh = 1) as Hcur
      by (unfold current; by rewrite lookup_insert_eq).
    split_and!; [done|..]; cbn [revs active generation tokens].
    + intros id' t [[<- <-]|[Hne Hid']]%lookup_insert_Some.
      * split_and!; simpl; rewrite ?lookup_insert_eq, ?Hcur; try lia; eauto.
      * pose proof (Ht _ _ Hid') as Hti. pose proof Hti as ((a' & Ha' & Hr) & _).
        revert Hti. apply token_inv_ext; [done|..]; cbn [revs active].
        -- rewrite lookup_insert_ne; [done|]. intros Heq. congruence.
        -- unfold current. rewrite lookup_insert_ne; [done|].
           intros Heq. apply (Hnf _ _ Ha'). congruence.
    + intros key' a' [[<- <-]|[Hne Hk']]%lookup_insert_Some.
      * unfold active_inv. cbn [revs tokens snapshots revision].
        rewrite outstanding_insert, (no_active_no_token w) by done.
        unfold owns; simpl. rewrite decide_True by done.
        split_and!; [lia..|]. rewrite lookup_insert_eq. eexists. split; [done|]. simpl. lia.
      * destruct (Ha _ _ Hk') as (Hpos' & Hcnt' & obj' & Hobj' & Hs').
        unfold active_inv. cbn [revs tokens].
        rewrite outstanding_insert by done. unfold owns; simpl. rewrite decide_False by done.
        split_and!; [done|lia|]. exists obj'. split; [|done].
        rewrite lookup_insert_ne; [done|]. intros Heq. by apply (Hnf _ _ Hk').
    + intros k1 k2 a1 a2 [[<- <-]|[Hn1 H1]]%lookup_insert_Some
        [[<- <-]|[Hn2 H2]]%lookup_insert_Some; simpl; intros Heq; eauto.
      * by destruct (Hnf _ _ H2).
      * by destruct (Hnf _ _ H1).
Qed.

Lemma touch_lookup f ts id t' :
  touch f ts !! id = Some t' →
  ∃ t, ts !! id = Some t ∧
    t' = mkToken (tok_key t) (tok_snapshot t) (untouched t && negb (f t)).
Proof. unfold touch. intros (t & <- & Ht)%lookup_fmap_Some. eauto. Qed.

Lemma mutate_inv w key :
  inv w →
  inv (mkWorld (Origins.advance (revs w) (active w) key) (active w) (generation w)
         (touch (λ t, bool_decide (tok_key t = key)) (tokens w))).
Proof.
  intros Hinv. pose proof Hinv as (Hg & Ht & Ha & Hinj). unfold Origins.advance.
  destruct (active w !! key) as [a|] eqn:Hk.
  - rewrite (active_alive w key a) by done.
    destruct (Ha _ _ Hk) as (_ & _ & obj & Hobj & _ & Hmax).
    split_and!; [done|..]; cbn [revs active generation tokens]; [..|done].
    + intros id t' (t & Hid & ->)%touch_lookup.
      destruct (Ht _ _ Hid) as ((a' & Ha' & Hr) & Hle & Hc & Hgl & Hgm & Hiff).
      unfold token_inv, rev_advance. cbn [revs active generation tok_key tok_snapshot untouched].
      rewrite current_alter. split; [by eauto|].
      destruct (decide (tok_key t = key)) as [Heq|Hne].
      * assert (revision a = snap_revision (tok_snapshot t)) as Hl by congruence.
        rewrite decide_True by done. rewrite Hobj. simpl.
        unfold current in Hle. rewrite <-Hl, Hobj in Hle. simpl in Hle.
        rewrite bool_decide_eq_true_2, andb_false_r by done. unfold saturating_add_u64.
        split_and!; lia.
      * rewrite bool_decide_eq_false_2, andb_true_r by done.
        rewrite decide_False; [done|]. intros Heq. apply Hne.
        apply (Hinj _ _ a' a); congruence.
    + intros key' a' Hk'. destruct (Ha _ _ Hk') as (Hpos & Hcnt & obj' & Hobj' & Hs & Hm).
      unfold active_inv. cbn [revs tokens]. rewrite outstanding_touch.
      split_and!; [done..|]. unfold rev_advance.
      destruct (decide (revision a = revision a')) as [Heq|Hne].
      * rewrite <-Heq in *. rewrite lookup_alter_eq, Hobj'. simpl. eexists. split; [done|].
        simpl. unfold saturating_add_u64. lia.
      * rewrite lookup_alter_ne by done. eauto.
  - split_and!; [done|..]; cbn [revs active generation tokens]; [..|done].
    + intros id t' (t & Hid & ->)%touch_lookup.
      pose proof (Ht _ _ Hid) as Hti. pose proof Hti as ((a' & Ha' & _) & _).
      unfold token_inv. cbn [revs active generation tok_key tok_snapshot untouched].
      rewrite bool_decide_eq_false_2, andb_true_r by congruence. done.
    + intros key' a' Hk'. unfold active_inv. cbn [revs tokens]. rewrite outstanding_touch.
      by apply Ha.
Qed.

Lemma clear_inv w :
  inv w → generation w ≠ u64_max →
  inv (mkWorld (revs w) (active w) (generation w + 1) (touch (λ _, true) (tokens w))).
Proof.
  intros (Hg & Ht & Ha & Hinj) Hne.
  split_and!; cbn [revs active generation tokens]; [lia|..|done].
  - intros id t' (t & Hid & ->)%touch_lookup.
    destruct (Ht _ _ Hid) as (Hact & Hle & Hc & Hgl & Hgm & Hiff).
    unfold token_inv. cbn [revs active generation tok_key tok_snapshot untouched].
    rewrite andb_false_r. split_and!; try done; [lia|]. split; [done|lia].
  - intros key' a' Hk'. unfold active_inv. cbn [revs tokens]. rewrite outstanding_touch.
      by apply Ha.
Qed.

Lemma outstanding_pos key id t ts :
  ts !! id = Some t → tok_key t = key → 0 < outstanding key ts.
Proof.
  intros Hid Hk.
  assert (owns key t ≤ outstanding key ts) as Hle.
  { apply (msum_lookup_le (owns key) ts id); [|done].
    intros ? b _. unfold owns. case_decide; lia. }
  unfold owns in Hle. rewrite decide_True in Hle by done. lia.
Qed.

(** Dropping an outstanding token never underflows, and the last one of a key
    removes its entry. *)
Lemma forget_token w id t :
  inv w → tokens w !! id = Some t →
  ∃ a, active w !! tok_key t = Some a ∧ revision a = snap_revision (tok_snapshot t) ∧
    Origins.forget (active w) (tok_key t) (snap_revision (tok_snapshot t)) =
      Some match pred (snapshots a) with
           | O => delete (tok_key t) (active w)
           | S n => <[tok_key t := mkActive (revision a) (S n)]> (active w)
           end.
Proof.
  intros (_ & Ht & Ha & _) Hid. destruct (Ht _ _ Hid) as ((a & Hk & Hr) & _).
  exists a. split_and!; [done..|]. unfold Origins.forget. rewrite Hk, Hr, decide_True by done.
  destruct (Ha _ _ Hk) as (Hpos & _). destruct (snapshots a) as [|[|n]]; [lia|done..].
Qed.

Lemma drop_inv w id t o :
  inv w → tokens w !! id = Some t →
  Origins.forget (active w) (tok_key t) (snap_revision (tok_snapshot t)) = Some o →
  inv (mkWorld (release (revs w) (snap_revision (tok_snapshot t))) o (generation w)
         (delete id (tokens w))).
Proof.
  intros Hinv Hid Hf. destruct (forget_token w id t Hinv Hid) as (a & Hk & Hr & Hf').
  rewrite Hf in Hf'. injection Hf' as ->. pose proof Hinv as (Hg & Ht & Ha & Hinj).
  destruct (Ha _ _ Hk) as (Hpos & Hcnt & obj & Hobj & Hstrong & Hmax).
  set (o := match pred (snapshots a) with O => _ | S _ => _ end).
  assert (∀ k, k ≠ tok_key t → o !! k = active w !! k) as Hother.
  { intros k Hne. unfold o. case_match; [by rewrite lookup_delete_ne|by rewrite lookup_insert_ne]. }
  assert (∀ a', o !! tok_key t = Some a' → a' = mkActive (revision a) (pred (snapshots a)) ∧
            (0 < pred (snapshots a))%nat) as Hself.
  { intros a'. unfold o. destruct (pred (snapshots a)) eqn:E.
    - by rewrite lookup_delete_eq.
    - rewrite lookup_insert_eq. intros [= <-]. split; [done|lia]. }
  split_and!; [done|..]; cbn [revs active generation tokens].
  - intros id' t' [Hne Hid']%lookup_delete_Some.
    destruct (Ht _ _ Hid') as ((a' & Ha' & Hr') & Hrest).
    split; [|cbn [revs generation]; by rewrite current_release].
    cbn [active]. destruct (decide (tok_key t' = tok_key t)) as [Heq|Hne'].
    + assert (0 < outstanding (tok_key t) (delete id (tokens w))) as Hout.
      { apply (outstanding_pos _ id' t'); [by rewrite lookup_delete_ne|done]. }
      rewrite (outstanding_delete _ _ t) in Hout by done. unfold owns in Hout.
      rewrite decide_True in Hout by done.
      rewrite Heq. unfold o. destruct (pred (snapshots a)) eqn:E; [lia|].
      rewrite lookup_insert_eq. eexists. split; [done|]. simpl. congruence.
    + rewrite Hother by done. eauto.
  - intros key' a' Hk'. unfold active_inv. cbn [revs tokens].
    rewrite (outstanding_delete _ _ t) by done.
    destruct (decide (key' = tok_key t)) as [->|Hne].
    + apply Hself in Hk' as [-> Hp]. cbn [snapshots revision]. unfold owns.
      rewrite decide_True by done. split_and!; [lia..|].
      unfold release. rewrite <-Hr, lookup_alter_eq, Hobj. simpl. eexists. split; [done|].
      simpl. lia.
    + rewrite Hother in Hk' by done.
      destruct (Ha _ _ Hk') as (Hpos' & Hcnt' & obj' & Hobj' & Hs').
      unfold owns. rewrite decide_False by done. split_and!; [done|lia|].
      exists obj'. split; [|done]. unfold release. rewrite lookup_alter_ne; [done|].
      intros Heq. apply Hne. apply (Hinj _ _ a' a); congruence.
  - intros k1 k2 a1 a2 H1 H2 Heq.
    assert (∀ k b, o !! k = Some b → ∃ b', active w !! k = Some b' ∧ revision b' = revision b) as Hback.
    { intros k b Hb. destruct (decide (k = tok_key t)) as [->|Hne].
      - apply Hself in Hb as [-> _]. eauto.
      - rewrite Hother in Hb by done. eauto. }
    destruct (Hback _ _ H1) as (b1 & Hb1 & E1). destruct (Hback _ _ H2) as (b2 & Hb2 & E2).
    apply (Hinj _ _ b1 b2); congruence.
Qed.

Lemma origins_inv_step w w' : step w w' → inv w → inv w'.
Proof.
  intros [] Hinv; eauto using capture_inv, mutate_inv, clear_inv, drop_inv.
Qed.

Lemma inv_steps w w' : rtc step w w' → inv w → inv w'.
Proof. induction 1; eauto using origins_inv_step. Qed.
End preservation.

(** ** Properties *)

(** An origin may commit exactly when nothing touched its key. In every
    sequence of captures, mutations, clears and drops, an outstanding token's
    snapshot matches the store's generation if and only if neither a mutation
    of its own key nor a clear happened since it was captured; dropping a token
    never underflows the snapshot count; and a key without outstanding tokens
    keeps no revision. *)
Theorem origin_matches_iff_untouched (w : World) :
  rtc step initial w →
  (∀ id t, tokens w !! id = Some t →
     RevisionSnapshot.matches (revs w) (tok_snapshot t) (generation w) = untouched t ∧
     is_Some (Origins.forget (active w) (tok_key t) (snap_revision (tok_snapshot t)))) ∧
  (∀ key a, active w !! key = Some a → ∃ id t, tokens w !! id = Some t ∧ tok_key t = key).
Proof.
  intros Hr. assert (inv w) as Hinv by (eapply inv_steps; eauto using origins_inv_initial).
  pose proof Hinv as (Hg & Ht & Ha & _). split.
  - intros id t Hid. destruct (forget_token w id t Hinv Hid) as (a & _ & _ & ->).
    split; [|by eexists].
    destruct (Ht _ _ Hid) as (_ & _ & _ & Hgl & Hgm & Hiff).
    unfold RevisionSnapshot.matches. apply eq_bool_prop_intro.
    rewrite !Is_true_true, !andb_true_iff, negb_true_iff, Z.eqb_neq, !Z.eqb_eq, Hiff.
    clear Hiff. lia.
  - intros key a Hk. destruct (Ha _ _ Hk) as (Hpos & Hcnt & _).
    apply dec_stable. intros Hno.
    assert (outstanding key (tokens w) = 0) as Hz; [|lia].
    apply msum_zero. intros id t Hid. unfold owns. case_decide as E; [|done].
    exfalso. eauto.
Qed.

Lemma origin_matches_iff_untouched_witness :
  let h := Origins.advance (<[1%positive := mkRev 1 1]> ∅)
             (<["k"%string := mkActive 1 1]> ∅) "k" in
  RevisionSnapshot.matches h (mkSnapshot 1 1 1) 1 = false.
Proof.
  set (w1 := mkWorld (<[1%positive := mkRev 1 1]> ∅) (<["k"%string := mkActive 1 1]> ∅) 1
    (<[0%nat := mkToken "k" (mkSnapshot 1 1 1) true]> ∅)).
  set (w2 := mkWorld (Origins.advance (revs w1) (active w1) "k") (active w1) 1
    (touch (λ t, bool_decide (tok_key t = "k"%string)) (tokens w1))).
  assert (rtc step initial w2) as Hr.
  { eapply rtc_l; [|eapply rtc_l; [apply (step_mutate w1 "k")|apply rtc_refl]].
    apply (step_capture initial 0%nat "k" 1%positive); reflexivity || done. }
  destruct (origin_matches_iff_untouched w2 Hr) as [Hm _].
  apply (Hm 0%nat (mkToken "k" (mkSnapshot 1 1 1) false)). reflexivity.
Defined.
