(* ===== verification/Storage.v ===== *)
(** * What the two memory backends share

    Models the data of [src/src/memory.rs] that both the sharded unbounded map
    and the capacity-limited store use: limits, admissions, retirements,
    candidates and the conditions of a conditional write. The class [Storage]
    states what a backend promises to the [MemoryStore] facade: a conditional
    write is a compare-and-swap on one key. *)
From S2P Require Import Prelude Time Options Entry Origins.

(** ** Limits *)
Record MemoryLimits := mkMemoryLimits { limit_entries : option Z; limit_weight : option Z }.
#[export] Instance MemoryLimits_eq_dec : EqDecision MemoryLimits.
Proof. solve_decision. Defined.
Definition MemoryLimits_default : MemoryLimits := mkMemoryLimits None None.

Module MemoryLimits.
Definition fits (self : MemoryLimits) (entries : nat) (weight : Z) : bool :=
  match limit_entries self with Some limit => Z.of_nat entries <=? limit | None => true end
  && match limit_weight self with Some limit => weight <=? limit | None => true end.
End MemoryLimits.

Inductive MemoryExpiry := ClockDriven | RealTime.

Inductive CapacityRejection :=
| Oversized | ProtectedCapacity | PhysicallyExpired | VersionChanged | RejectedGeneration.
(** [RejectedGeneration] is [CapacityRejection::GenerationExhausted]. *)
Inductive MemoryAdmission := MA_Admitted | MA_Replaced | MA_Rejected (reason : CapacityRejection).
#[export] Instance CapacityRejection_eq_dec : EqDecision CapacityRejection.
Proof. solve_decision. Defined.
#[export] Instance MemoryAdmission_eq_dec : EqDecision MemoryAdmission.
Proof. solve_decision. Defined.
Definition is_rejected (a : MemoryAdmission) : bool :=
  match a with MA_Rejected _ => true | _ => false end.

Record MemoryUsage := mkUsage { usage_entries : Z; usage_weight : Z }.

(** ** Observation policy *)
Inductive MemoryWriteEvent := MW_Set | MW_Expire.
Inductive CaptureAdmission := Armed | Unarmed.
Inductive EvictionCapture := AtInsertion | AtRetirement.
Record CapturePolicy := mkPolicy { admission_ : CaptureAdmission; timing_ : EvictionCapture }.

Definition permits_payload_only (self : CapturePolicy) (original : CaptureAdmission) : bool :=
  match timing_ self, original with AtInsertion, Unarmed => true | _, _ => false end.

Inductive RetirementReason :=
| RR_Explicit | RR_Replaced | RR_Expired | RR_Capacity | RR_Eligibility | RR_Continuity
| RR_Metadata.
Inductive MemoryEvictionReason := ME_Removed | ME_Replaced | ME_Expired | ME_Capacity.

Module RetirementReason.
Definition fact (self : RetirementReason) : option MemoryEvictionReason :=
  match self with
  | RR_Explicit | RR_Eligibility | RR_Continuity => Some ME_Removed
  | RR_Replaced => Some ME_Replaced
  | RR_Expired => Some ME_Expired
  | RR_Capacity => Some ME_Capacity
  | RR_Metadata => None
  end.
Definition logical (self : RetirementReason) : bool :=
  match self with RR_Expired | RR_Capacity | RR_Eligibility => true | _ => false end.
End RetirementReason.

(** ** Retired and candidate values *)
Record Retirement (V : Type) := mkRetirement {
  ret_key : string; ret_entry : Entry V; ret_reason : RetirementReason;
  ret_capture : CaptureAdmission }.
Arguments mkRetirement {V}.
Arguments ret_key {V}.
Arguments ret_entry {V}.
Arguments ret_reason {V}.
Arguments ret_capture {V}.

Inductive MemoryRead (V : Type) :=
| Present (e : Entry V)
| Absent
| Raced (e : Entry V)
| MR_Expired (r : Retirement V).
Arguments Present {V}.
Arguments Absent {V}.
Arguments Raced {V}.
Arguments MR_Expired {V}.

(** [PreparedEntry]; the state [Stored] of a consumed candidate is the [None]
    of the [option] a write returns. *)
Inductive PreparedEntry (V : Type) := PE_Candidate (e : Entry V) | PE_Fresh (f : FreshValue V).
Arguments PE_Candidate {V}.
Arguments PE_Fresh {V}.

Module PreparedEntry.
Definition meta {V} (self : PreparedEntry V) : Metadata :=
  match self with PE_Candidate e => Entry.meta e | PE_Fresh f => fresh_meta f end.
Definition value {V} (self : PreparedEntry V) : V :=
  match self with PE_Candidate e => Entry.value e | PE_Fresh f => inner_value (fresh_inner f) end.
(** [unique]: the stored allocation has no other owner. *)
Definition try_reuse_payload {V} (unique : bool) (self : PreparedEntry V) (stored : Entry V)
    : option (V * Entry V) :=
  match self with
  | PE_Candidate _ => None
  | PE_Fresh f => Entry.replace_unique_payload unique stored f
  end.
Definition take_for_storage {V} (alloc : Loc) (self : PreparedEntry V) : Entry V :=
  match self with PE_Candidate e => e | PE_Fresh f => into_entry alloc f end.
End PreparedEntry.

Inductive Retirements (V : Type) :=
| R_None
| R_One (r : Retirement V)
| R_Many (rs : list (Retirement V))
| R_Reused (value : V) (reason : RetirementReason).
Arguments R_None {V}.
Arguments R_One {V}.
Arguments R_Many {V}.
Arguments R_Reused {V}.

Definition retirements_of_list {V} (values : list (Retirement V)) : Retirements V :=
  match values with [] => R_None | [r] => R_One r | _ => R_Many values end.

Record RetentionCommit (V : Type) := mkCommit {
  admission : MemoryAdmission; retired : Retirements V }.
Arguments mkCommit {V}.
Arguments admission {V}.
Arguments retired {V}.
Definition rejected {V} (reason : CapacityRejection) (rs : list (Retirement V))
    : RetentionCommit V := mkCommit (MA_Rejected reason) (retirements_of_list rs).

(** ** Conditional writes *)
Inductive Expected (V : Type) :=
| EX_Any
| EX_Absent
| EX_Same (e : Entry V)
| EX_Mutation
| EX_MutationOf (e : Entry V)
| EX_Origin (s : RevisionSnapshot).
Arguments EX_Any {V}.
Arguments EX_Absent {V}.
Arguments EX_Same {V}.
Arguments EX_Mutation {V}.
Arguments EX_MutationOf {V}.
Arguments EX_Origin {V}.

Definition same_instance {V} (current : option (Entry V)) (expected : Entry V) : bool :=
  match current with Some e => Entry.is_same_instance e expected | None => false end.

Module Expected.
Definition changes_origin {V} (self : Expected V) : bool :=
  match self with
  | EX_Mutation | EX_MutationOf _ | EX_Origin _ => true
  | EX_Any | EX_Absent | EX_Same _ => false
  end.
(** [matches] never sees an [Origin]: the code's [unreachable!]. *)
Definition matches {V} (self : Expected V) (current : option (Entry V)) : option bool :=
  match self with
  | EX_Any => Some true
  | EX_Absent => Some (match current with None => true | Some _ => false end)
  | EX_Same e | EX_MutationOf e => Some (same_instance current e)
  | EX_Mutation => Some true
  | EX_Origin _ => None
  end.
Definition matches_generation {V} (h : Revs) (self : Expected V) (current : option (Entry V))
    (generation : Z) : bool :=
  match self with
  | EX_Origin origin => RevisionSnapshot.matches h origin generation
  | EX_Mutation => true
  | EX_MutationOf e => same_instance current e
  | EX_Any | EX_Absent | EX_Same _ => default false (matches self current)
  end.
End Expected.

Definition entry_weight {V} (e : Entry V) : Z :=
  default 1 (Metadata.size (Entry.meta e)).

(** One write as the facade hands it to a backend, with what the environment
    supplies: a free address for a new allocation, whether the stored one is
    exclusively owned, and the monotonic clock reading. *)
Record WriteRequest (V : Type) := mkRequest {
  rq_key : string; rq_entry : PreparedEntry V; rq_time : WriteTime;
  rq_expected : Expected V; rq_policy : CapturePolicy; rq_event : MemoryWriteEvent;
  rq_alloc : Loc; rq_unique : bool; rq_instant : Instant }.
Arguments mkRequest {V}.
Arguments rq_key {V}.
Arguments rq_entry {V}.
Arguments rq_time {V}.
Arguments rq_expected {V}.
Arguments rq_policy {V}.
Arguments rq_event {V}.
Arguments rq_alloc {V}.
Arguments rq_unique {V}.
Arguments rq_instant {V}.

(** Both weights the code computes for a candidate are the weight of the entry
    it becomes. *)
Definition prepared_weight {V} (p : PreparedEntry V) : Z :=
  default 1 (Metadata.size (PreparedEntry.meta p)).

(** The representation [stored] carries the value and the metadata of [p]. *)
Definition represents {V} (p : PreparedEntry V) (stored : Entry V) : Prop :=
  Entry.value stored = PreparedEntry.value p ∧ Entry.meta stored = PreparedEntry.meta p.

Lemma represents_taken {V} alloc (p : PreparedEntry V) :
  represents p (PreparedEntry.take_for_storage alloc p).
Proof. by destruct p. Qed.

Lemma represents_reused {V} unique (p : PreparedEntry V) stored old e :
  PreparedEntry.try_reuse_payload unique p stored = Some (old, e) →
  represents p e ∧ old = Entry.value stored.
Proof. destruct p; simpl; [done|]. by destruct unique; intros; simplify_eq/=. Qed.

Lemma represents_weight {V} (p : PreparedEntry V) e :
  represents p e → entry_weight e = prepared_weight p.
Proof. intros [_ Hm]. unfold entry_weight, prepared_weight. by rewrite Hm. Qed.

(** ** The contract of a backend *)
Class Storage (S V : Type) := {
  (** The current representation of a key, expired or not. *)
  lookup_current : S → string → option (Entry V);
  store_generation : S → Z;
  store_origins : S → string → Origins;
  store_insert : Epochs → Revs → S → WriteRequest V →
                 Revs * S * option (PreparedEntry V) * RetentionCommit V;
  store_remove_as_mutation : Revs → S → string → Revs * S * option (Retirement V);
  store_clear : S → S
}.

(** [store_origins s k] is the revision table that protects the key [k]. *)
Class StorageLaws (S V : Type) `{Storage S V} := {
  store_ok : S → Prop;
  (** An admitted write replaces the representation of its key alone. *)
  law_admitted ep h s rq h' s' rest c :
    store_ok s →
    store_insert ep h s rq = (h', s', rest, c) → is_rejected (admission c) = false →
    rest = None ∧
    (∃ e, lookup_current s' (rq_key rq) = Some e ∧ represents (rq_entry rq) e) ∧
    (admission c = MA_Replaced → is_Some (lookup_current s (rq_key rq)));
  (** A refused write keeps the candidate and the key's representation, unless
      that one had expired. *)
  law_rejected ep h s rq h' s' rest c :
    store_ok s →
    store_insert ep h s rq = (h', s', rest, c) → is_rejected (admission c) = true →
    rest = Some (rq_entry rq) ∧
    (lookup_current s' (rq_key rq) = lookup_current s (rq_key rq) ∨
     lookup_current s' (rq_key rq) = None);
  (** No write creates or changes another key's representation. *)
  law_frame ep h s rq h' s' rest c k :
    store_ok s →
    store_insert ep h s rq = (h', s', rest, c) → k ≠ rq_key rq →
    lookup_current s' k = lookup_current s k ∨ lookup_current s' k = None;
  (** A write whose condition does not hold is refused and changes nothing. *)
  law_condition ep h s rq h' s' rest c :
    store_ok s →
    store_insert ep h s rq = (h', s', rest, c) →
    Expected.matches_generation h (rq_expected rq) (lookup_current s (rq_key rq))
      (store_generation s) = false →
    is_rejected (admission c) = true ∧ h' = h ∧ s' = s;
  (** An admitted write with an origin condition or a mutation advances the
      revision that protects its key, and no write does anything else to the
      revisions. *)
  law_revisions ep h s rq h' s' rest c :
    store_ok s →
    store_insert ep h s rq = (h', s', rest, c) →
    h' = h ∨ h' = Origins.advance h (store_origins s (rq_key rq)) (rq_key rq);
  law_advances ep h s rq h' s' rest c :
    store_ok s →
    store_insert ep h s rq = (h', s', rest, c) → is_rejected (admission c) = false →
    h' = if Expected.changes_origin (rq_expected rq)
         then Origins.advance h (store_origins s (rq_key rq)) (rq_key rq) else h;
  law_removed h s k h' s' r :
    store_ok s →
    store_remove_as_mutation h s k = (h', s', r) →
    h' = Origins.advance h (store_origins s k) k ∧ lookup_current s' k = None ∧
    ∀ k', k' ≠ k → lookup_current s' k' = lookup_current s k';
  law_clear s k :
    store_ok s → store_generation s ≠ u64_max →
    lookup_current (store_clear s) k = None ∧
    store_generation (store_clear s) = store_generation s + 1;
  law_ok_insert ep h s rq h' s' rest c :
    store_ok s → store_insert ep h s rq = (h', s', rest, c) → store_ok s';
  law_ok_remove h s k h' s' r :
    store_ok s → store_remove_as_mutation h s k = (h', s', r) → store_ok s';
  law_ok_clear s : store_ok s → store_ok (store_clear s)
}.
