(* ===== verification/Retention.v ===== *)
(** * The capacity-limited store

    Models [Retention] of [src/src/memory.rs], the store behind one mutex that
    enforces the entry-count and weight limits. [usize] and [u128] quantities
    are a [nat] and a [Z]; the invariant shows that no subtraction of the code
    underflows. A hash map is a [gmap]: where the code iterates over it, the
    order is the one of [map_to_list], and the theorems do not depend on it.
    [elapsed] is the [Instant::now()] reading of the operation. *)
From Stdlib Require Import Sorted.
From S2P Require Import Prelude Time Options Entry Origins Storage.

Record RStored (V : Type) := mkRStored {
  rs_entry : Entry V; rs_access : Z; monotonic_expiration : option Instant;
  rs_capture : CaptureAdmission }.
Arguments mkRStored {V}.
Arguments rs_entry {V}.
Arguments rs_access {V}.
Arguments monotonic_expiration {V}.
Arguments rs_capture {V}.

Record ProjectedCapacity := mkProjected { pc_entries : Z; pc_weight : Z }.
Definition projected_fits (limits : MemoryLimits) (self : ProjectedCapacity) : bool :=
  MemoryLimits.fits limits (Z.to_nat (pc_entries self)) (pc_weight self).

Record EvictionCandidate := mkCandidate {
  ec_key : string; ec_priority : Priority; ec_access : Z; ec_weight : Z }.

(** The order of [sort_unstable_by]: rank, then access, then key. *)
Definition candidate_leb (a b : EvictionCandidate) : bool :=
  match eviction_rank (ec_priority a) ?= eviction_rank (ec_priority b) with
  | Lt => true
  | Gt => false
  | Eq => match ec_access a ?= ec_access b with
          | Lt => true
          | Gt => false
          | Eq => String.leb (ec_key a) (ec_key b)
          end
  end.

Fixpoint insert_sorted (a : EvictionCandidate) (l : list EvictionCandidate)
    : list EvictionCandidate :=
  match l with
  | [] => [a]
  | b :: l' => if candidate_leb a b then a :: l else b :: insert_sorted a l'
  end.
Fixpoint sort_candidates (l : list EvictionCandidate) : list EvictionCandidate :=
  match l with [] => [] | a :: l => insert_sorted a (sort_candidates l) end.

Record Retention (V : Type) := mkRetention {
  r_origins : Origins; r_generation : Z; r_entries : gmap string (RStored V);
  r_weight : Z; next_access : Z; r_limits : MemoryLimits; r_expiry : MemoryExpiry }.
Arguments mkRetention {V}.
Arguments r_origins {V}.
Arguments r_generation {V}.
Arguments r_entries {V}.
Arguments r_weight {V}.
Arguments next_access {V}.
Arguments r_limits {V}.
Arguments r_expiry {V}.
#[export] Instance eta_retention {V} : Eta (Retention V) := λ r,
  mkRetention (r_origins r) (r_generation r) (r_entries r) (r_weight r) (next_access r)
    (r_limits r) (r_expiry r).

Section operations.
Context {V : Type}.
Implicit Types (self : Retention V) (ep : Epochs) (stored : RStored V).

Definition retirement_reason ep stored (now : option Timestamp) (elapsed : Instant)
    : option RetirementReason :=
  if negb (Entry.is_read_eligible ep (rs_entry stored)) then Some RR_Eligibility
  else if match now with
          | Some now => Entry.is_physically_expired (rs_entry stored) now
          | None => false
          end
          || match monotonic_expiration stored with
             | Some deadline => deadline <=? elapsed
             | None => false
             end
  then Some RR_Expired
  else None.
Definition dead ep now elapsed stored : bool :=
  match retirement_reason ep stored now elapsed with Some _ => true | None => false end.

Definition retire stored (key : string) (reason : RetirementReason) : Retirement V :=
  mkRetirement key (rs_entry stored) reason (rs_capture stored).

Definition new (limits : MemoryLimits) (expiry : MemoryExpiry) : Retention V :=
  mkRetention ∅ 1 ∅ 0 0 limits expiry.

Definition ticket self : Z * Retention V :=
  let next := saturating_add_u128 (next_access self) 1 in
  (next, self <| next_access := next |>).

Definition remove self (key : string) : Retention V * option (RStored V) :=
  match r_entries self !! key with
  | None => (self, None)
  | Some stored =>
      (self <| r_entries := delete key (r_entries self) |>
            <| r_weight := r_weight self - entry_weight (rs_entry stored) |>, Some stored)
  end.

Definition get ep self (key : string) (now : option Timestamp) (elapsed : Instant)
    : Retention V * MemoryRead V :=
  match r_entries self !! key with
  | Some stored =>
      match retirement_reason ep stored now elapsed with
      | Some reason =>
          ((remove self key).1, MR_Expired (retire stored key reason))
      | None =>
          let '(access, self) := ticket self in
          (self <| r_entries := <[key := mkRStored (rs_entry stored) access
                     (monotonic_expiration stored) (rs_capture stored)]> (r_entries self) |>,
           Present (rs_entry stored))
      end
  | None => ((ticket self).2, Absent)
  end.

(** Removing one key of a sweep, its reason read again after the removal. *)
Definition remove_dead ep now elapsed (acc : Retention V * list (Retirement V)) (key : string)
    : Retention V * list (Retirement V) :=
  let '(self, retired) := acc in
  match remove self key with
  | (self, Some stored) =>
      (self, retired ++ [retire stored key
         (default RR_Expired (retirement_reason ep stored now elapsed))])
  | (self, None) => (self, retired)
  end.
Definition dead_keys ep self now elapsed : list string :=
  (map_to_list (filter (λ '(_, s), dead ep now elapsed s = true) (r_entries self))).*1.
Definition remove_expired ep self (now : option Timestamp) (elapsed : Instant)
    : Retention V * list (Retirement V) :=
  fold_left (remove_dead ep now elapsed) (dead_keys ep self now elapsed) (self, []).

Definition projection self (key : string) (weight : Z) : ProjectedCapacity :=
  let current := r_entries self !! key in
  mkProjected
    (Z.of_nat (size (r_entries self)) + match current with None => 1 | Some _ => 0 end)
    (r_weight self - from_option (entry_weight ∘ rs_entry) 0 current + weight).

Definition expire_under_pressure ep self (key : string) (weight : Z) (now : Timestamp)
    (elapsed : Instant) : Retention V * list (Retirement V) :=
  if projected_fits (r_limits self) (projection self key weight) then (self, [])
  else remove_expired ep self (Some now) elapsed.

Definition eligible (key : string) (priority : Priority) (k : string) stored : bool :=
  let p := Metadata.priority (Entry.meta (rs_entry stored)) in
  negb (bool_decide (k = key)) && negb (bool_decide (p = NeverRemove))
  && (eviction_rank p <=? eviction_rank priority).
Definition candidate (k : string) stored : EvictionCandidate :=
  mkCandidate k (Metadata.priority (Entry.meta (rs_entry stored))) (rs_access stored)
    (entry_weight (rs_entry stored)).
Definition eligible_victims self (key : string) (priority : Priority)
    : list EvictionCandidate :=
  sort_candidates
    ((λ '(k, s), candidate k s) <$>
       map_to_list (filter (λ '(k, s), eligible key priority k s = true) (r_entries self))).

(** The loop of [plan]: take victims until the projection fits. *)
Fixpoint take_victims (limits : MemoryLimits) (projected : ProjectedCapacity)
    (candidates : list EvictionCandidate) (victims : list string)
    : result CapacityRejection (list string) :=
  match candidates with
  | [] => Err ProtectedCapacity
  | victim :: rest =>
      let projected :=
        mkProjected (pc_entries projected - 1) (pc_weight projected - ec_weight victim) in
      let victims := victims ++ [ec_key victim] in
      if projected_fits limits projected then Ok victims
      else take_victims limits projected rest victims
  end.
Definition plan self (key : string) (weight : Z) (priority : Priority)
    : result CapacityRejection (list string) :=
  let projected := projection self key weight in
  if projected_fits (r_limits self) projected then Ok []
  else take_victims (r_limits self) projected (eligible_victims self key priority) [].

Definition store self (key : string) (entry : Entry V) (capture : CaptureAdmission)
    (elapsed : Instant) : Retention V :=
  let weight := entry_weight entry in
  let '(access, self) := ticket self in
  let deadline :=
    match r_expiry self with
    | ClockDriven => None
    | RealTime => instant_checked_add elapsed (Entry.backend_ttl entry)
    end in
  self <| r_entries := <[key := mkRStored entry access deadline capture]> (r_entries self) |>
       <| r_weight := r_weight self + weight |>.

Definition remove_victim (acc : Retention V * list (Retirement V)) (victim : string)
    : Retention V * list (Retirement V) :=
  let '(self, retired) := acc in
  match remove self victim with
  | (self, Some stored) => (self, retired ++ [retire stored victim RR_Capacity])
  | (self, None) => (self, retired)
  end.
Definition commit self (key : string) (entry : Entry V) (victims : list string)
    (retired : list (Retirement V)) (capture : CaptureAdmission) (event : MemoryWriteEvent)
    (elapsed : Instant) : Retention V * RetentionCommit V :=
  let '(self, retired) := fold_left remove_victim victims (self, retired) in
  let '(self, replaced) := remove self key in
  let capture :=
    match replaced, event with
    | Some old, MW_Expire => rs_capture old
    | _, _ => capture
    end in
  let '(admission, retired) :=
    match replaced with
    | Some old =>
        (MA_Replaced, retired ++ [retire old key
           (match event with MW_Set => RR_Replaced | MW_Expire => RR_Metadata end)])
    | None => (MA_Admitted, retired)
    end in
  (store self key entry capture elapsed, mkCommit admission (retirements_of_list retired)).

Definition insert ep (h : Revs) self (rq : WriteRequest V)
    : Revs * Retention V * option (PreparedEntry V) * RetentionCommit V :=
  let key := rq_key rq in
  if negb (Expected.matches_generation h (rq_expected rq)
             (rs_entry <$> r_entries self !! key) (r_generation self))
  then (h, self, Some (rq_entry rq), rejected VersionChanged [])
  else
    let h := if Expected.changes_origin (rq_expected rq)
             then Origins.advance h (r_origins self) key else h in
    let weight := prepared_weight (rq_entry rq) in
    if negb (MemoryLimits.fits (r_limits self) 1 weight)
    then (h, self, Some (rq_entry rq), rejected Oversized [])
    else
      let '(self, retired) :=
        expire_under_pressure ep self key weight (WriteTime.now (rq_time rq)) (rq_instant rq) in
      match plan self key weight (Metadata.priority (PreparedEntry.meta (rq_entry rq))) with
      | Ok victims =>
          let '(self, c) :=
            commit self key (PreparedEntry.take_for_storage (rq_alloc rq) (rq_entry rq))
              victims retired (admission_ (rq_policy rq)) (rq_event rq) (rq_instant rq) in
          (h, self, None, c)
      | Err reason => (h, self, Some (rq_entry rq), rejected reason retired)
      end.

(** [detach_remove] and [invalidate_all] on this backend. *)
Definition remove_as_mutation (h : Revs) self (key : string)
    : Revs * Retention V * option (Retirement V) :=
  let h := Origins.advance h (r_origins self) key in
  let '(self, removed) := remove self key in
  (h, self, (λ stored, retire stored key RR_Explicit) <$> removed).
Definition clear self : Retention V :=
  self <| r_generation := saturating_add_u64 (r_generation self) 1 |>
       <| r_entries := ∅ |> <| r_weight := 0 |>.
End operations.

(** ** Sorting *)
Section sorting.
Implicit Types (a b : EvictionCandidate) (l : list EvictionCandidate).

(** The order the code's key compares first: rank, then access. *)
Definition older (a b : EvictionCandidate) : Prop :=
  eviction_rank (ec_priority a) < eviction_rank (ec_priority b) ∨
  eviction_rank (ec_priority a) = eviction_rank (ec_priority b) ∧ ec_access a ≤ ec_access b.

Lemma older_trans : Relation_Definitions.transitive _ older.
Proof. unfold Relation_Definitions.transitive, older. intros; lia. Qed.

Lemma candidate_leb_older a b : candidate_leb a b = true → older a b.
Proof.
  unfold candidate_leb, older.
  destruct (Z.compare_spec (eviction_rank (ec_priority a)) (eviction_rank (ec_priority b)));
    [|by left|done].
  destruct (Z.compare_spec (ec_access a) (ec_access b)); [|by right; lia|done].
  right. lia.
Qed.

Lemma candidate_leb_total a b : candidate_leb a b = false → candidate_leb b a = true.
Proof.
  unfold candidate_leb.
  rewrite (Z.compare_antisym (eviction_rank (ec_priority a)) (eviction_rank (ec_priority b))).
  destruct (_ ?= _); simpl; try done.
  rewrite (Z.compare_antisym (ec_access a) (ec_access b)).
  destruct (_ ?= _); simpl; try done.
  intros H. destruct (String.leb_total (ec_key a) (ec_key b)); congruence.
Qed.

Lemma insert_sorted_perm a l : insert_sorted a l ≡ₚ a :: l.
Proof.
  induction l as [|b l IH]; simpl; [done|]. case_match; [done|].
  rewrite IH. apply Permutation_swap.
Qed.
Lemma sort_candidates_perm l : sort_candidates l ≡ₚ l.
Proof. induction l as [|a l IH]; simpl; [done|]. by rewrite insert_sorted_perm, IH. Qed.

Lemma insert_sorted_sorted a l :
  Sorted older l → Sorted older (insert_sorted a l).
Proof.
  induction 1 as [|b l Hl IH Hb]; simpl; [repeat constructor|].
  destruct (candidate_leb a b) eqn:E.
  - constructor; [by constructor|]. constructor. by apply candidate_leb_older.
  - constructor; [done|]. apply candidate_leb_total, candidate_leb_older in E.
    destruct l as [|c l]; simpl in *; [by constructor|].
    inversion Hb; subst. case_match; by constructor.
Qed.
Lemma sort_candidates_sorted l : StronglySorted older (sort_candidates l).
Proof.
  apply Sorted_StronglySorted; [apply older_trans|].
  induction l as [|a l IH]; simpl; [constructor|]. by apply insert_sorted_sorted.
Qed.

Lemma strongly_sorted_app l1 l2 a b :
  StronglySorted older (l1 ++ l2) → a ∈ l1 → b ∈ l2 → older a b.
Proof.
  induction l1 as [|c l1 IH]; simpl; intros Hs Ha Hb; [by apply not_elem_of_nil in Ha|].
  inversion Hs as [|? ? Hs' Hall]; subst.
  apply elem_of_cons in Ha as [->|Ha]; [|by apply IH].
  rewrite List.Forall_forall in Hall. apply Hall. apply in_or_app. right. by apply list_elem_of_In.
Qed.
End sorting.

(** ** Lemmas on the operations *)
Section lemmas.
Context {V : Type}.
Implicit Types (self : Retention V) (ep : Epochs) (stored : RStored V).

Definition weight_of (s : RStored V) : Z := entry_weight (rs_entry s).
Definition weight_ok self : Prop := r_weight self = msum weight_of (r_entries self).
Definition same_settings self self' : Prop :=
  r_origins self' = r_origins self ∧ r_generation self' = r_generation self ∧
  next_access self' = next_access self ∧ r_limits self' = r_limits self ∧
  r_expiry self' = r_expiry self.

(** [self'] is [self] without the entries [gone]. *)
Definition without self (gone : string → Prop) self' : Prop :=
  same_settings self self' ∧ (weight_ok self → weight_ok self') ∧
  ∀ k, (gone k → r_entries self' !! k = None) ∧
       (¬ gone k → r_entries self' !! k = r_entries self !! k).

Lemma remove_spec self key :
  without self (λ k, k = key) (remove self key).1 ∧
  (remove self key).2 = r_entries self !! key ∧
  r_entries (remove self key).1 = delete key (r_entries self).
Proof.
  unfold remove. destruct (r_entries self !! key) as [stored|] eqn:Hk; simpl.
  - split; [split; [done|split]|done]; simpl.
    + unfold weight_ok; simpl. intros ->. by rewrite (msum_delete _ _ _ stored).
    + intros k. split; intros; [subst; apply lookup_delete_eq|by rewrite lookup_delete_ne].
  - split; [split; [done|split; [done|]]|by rewrite delete_id].
    intros k. split; [by intros ->|done].
Qed.

Lemma same_settings_trans self self1 self2 :
  same_settings self self1 → same_settings self1 self2 → same_settings self self2.
Proof. unfold same_settings. intuition congruence. Qed.

Lemma without_trans self self1 self2 g1 g2 :
  without self g1 self1 → without self1 g2 self2 → without self (λ k, g1 k ∨ g2 k) self2.
Proof.
  intros (Hs1 & Hw1 & Hk1) (Hs2 & Hw2 & Hk2).
  split; [by eapply same_settings_trans|]. split; [auto|].
  intros k. destruct (Hk1 k) as [H1a H1b], (Hk2 k) as [H2a H2b]. split.
  - intros [Hg|Hg]; [|auto].
    destruct (r_entries self2 !! k) eqn:E; [|done]. exfalso.
    assert (¬ g2 k) as Hn2 by (intros Hg2; pose proof (H2a Hg2); congruence).
    apply H2b in Hn2. apply H1a in Hg. congruence.
  - intros Hg. rewrite H2b, H1b by tauto. done.
Qed.

Lemma without_ext self self' g g' :
  (∀ k, g k ↔ g' k) → without self g self' → without self g' self'.
Proof.
  intros Hg (Hs & Hw & Hk). split; [done|]. split; [done|].
  intros k. destruct (Hk k). split; rewrite <-Hg; auto.
Qed.

Lemma without_refl self : without self (λ _, False) self.
Proof. by repeat split. Qed.

Lemma remove_dead_fold ep now elapsed keys self acc :
  without self (λ k, k ∈ keys) (fold_left (remove_dead ep now elapsed) keys (self, acc)).1 ∧
  ∀ r, r ∈ (fold_left (remove_dead ep now elapsed) keys (self, acc)).2 →
    r ∈ acc ∨ ret_key r ∈ keys ∧ ∃ s, r_entries self !! ret_key r = Some s ∧
      r = retire s (ret_key r) (default RR_Expired (retirement_reason ep s now elapsed)).
Proof.
  revert self acc. induction keys as [|key keys IH]; intros self acc; simpl.
  { split; [|by left]. eapply without_ext, without_refl. intros k. by rewrite elem_of_nil. }
  pose proof (remove_spec self key) as (Hw & Hr & He).
  destruct (remove self key) as [self1 removed]; simpl in *. subst removed.
  destruct (r_entries self !! key) as [s|] eqn:Hk.
  - destruct (IH self1 (acc ++ [retire s key
        (default RR_Expired (retirement_reason ep s now elapsed))])) as [Hw' Hr]. split.
    + eapply without_ext; [|by eapply without_trans]. intros k. simpl. by rewrite elem_of_cons.
    + intros r [[?|Heq%list_elem_of_singleton]%elem_of_app|(Hin & s' & Hs' & ->)]%Hr.
      * by left.
      * right. subst r. split; [apply list_elem_of_here|eauto].
      * right. simpl in *. split; [by apply list_elem_of_further|].
        rewrite He in Hs'. apply lookup_delete_Some in Hs' as [_ Hs']. eauto.
  - destruct (IH self1 acc) as [Hw' Hr]. split.
    + eapply without_ext; [|by eapply without_trans]. intros k. simpl. by rewrite elem_of_cons.
    + intros r [?|(Hin & s' & Hs' & ->)]%Hr; [by left|].
      right. simpl in *. split; [by apply list_elem_of_further|].
      rewrite He in Hs'. apply lookup_delete_Some in Hs' as [_ Hs']. eauto.
Qed.

Lemma dead_keys_spec ep self now elapsed k :
  k ∈ dead_keys ep self now elapsed ↔
  ∃ s, r_entries self !! k = Some s ∧ dead ep now elapsed s = true.
Proof.
  unfold dead_keys. rewrite list_elem_of_fmap. split.
  - intros ([k' s] & -> & Hin%elem_of_map_to_list). simpl.
    apply map_lookup_filter_Some in Hin as [? ?]. eauto.
  - intros (s & Hs & Hd). exists (k, s). split; [done|].
    apply elem_of_map_to_list. by apply map_lookup_filter_Some.
Qed.

(** A sweep removes exactly the dead entries and reports each of them. *)
Lemma remove_expired_spec ep self now elapsed :
  let '(self', rs) := remove_expired ep self now elapsed in
  without self (λ k, ∃ s, r_entries self !! k = Some s ∧ dead ep now elapsed s = true) self' ∧
  ∀ r, r ∈ rs → ∃ s reason, r_entries self !! ret_key r = Some s ∧
    retirement_reason ep s now elapsed = Some reason ∧ r = retire s (ret_key r) reason.
Proof.
  unfold remove_expired.
  pose proof (remove_dead_fold ep now elapsed (dead_keys ep self now elapsed) self []) as [Hw Hr].
  destruct (fold_left _ _ _) as [self' rs]; simpl in *. split.
  - eapply without_ext; [|done]. intros k. apply dead_keys_spec.
  - intros r [?%not_elem_of_nil|(Hin & s & Hs & Heq)]%Hr; [done|].
    apply dead_keys_spec in Hin as (s' & Hs' & Hd). rewrite Hs in Hs'. injection Hs' as <-.
    unfold dead in Hd. destruct (retirement_reason ep s now elapsed) as [reason|] eqn:E; [|done].
    exists s, reason. done.
Qed.

(** The candidates describe entries of the store, each once. *)
Definition describes self (c : EvictionCandidate) : Prop :=
  ∃ s, r_entries self !! ec_key c = Some s ∧ c = candidate (ec_key c) s.

Lemma eligible_victims_spec self key priority :
  NoDup (ec_key <$> eligible_victims self key priority) ∧
  StronglySorted older (eligible_victims self key priority) ∧
  ∀ c, c ∈ eligible_victims self key priority ↔
    ∃ s, r_entries self !! ec_key c = Some s ∧ c = candidate (ec_key c) s ∧
      eligible key priority (ec_key c) s = true.
Proof.
  unfold eligible_victims.
  set (m := filter (λ '(k, s), eligible key priority k s = true) (r_entries self)).
  split_and!; [|apply sort_candidates_sorted|].
  - rewrite sort_candidates_perm, <-list_fmap_compose.
    replace ((ec_key ∘ _) <$> map_to_list m) with (map_to_list m).*1; [apply NoDup_fst_map_to_list|].
    apply list_fmap_ext. by intros ? [k s] _.
  - intros c. rewrite sort_candidates_perm, list_elem_of_fmap. split.
    + intros ([k s] & -> & Hin%elem_of_map_to_list). simpl.
      apply map_lookup_filter_Some in Hin as [? ?]. eauto.
    + intros (s & Hs & Hc & He). exists (ec_key c, s). split; [done|].
      apply elem_of_map_to_list. by apply map_lookup_filter_Some.
Qed.

Definition total_weight (cs : list EvictionCandidate) : Z :=
  foldr (λ c acc, ec_weight c + acc) 0 cs.
Definition after_victims (p : ProjectedCapacity) (cs : list EvictionCandidate)
    : ProjectedCapacity :=
  mkProjected (pc_entries p - Z.of_nat (length cs)) (pc_weight p - total_weight cs).

(** [take_victims] stops at the first prefix that makes room. *)
Lemma take_victims_spec limits p cs vs :
  match take_victims limits p cs vs with
  | Ok victims =>
      ∃ pre last post, cs = pre ++ last :: post ∧
        victims = vs ++ (ec_key <$> (pre ++ [last])) ∧
        projected_fits limits (after_victims p (pre ++ [last])) = true ∧
        (projected_fits limits p = false → projected_fits limits (after_victims p pre) = false)
  | Err reason =>
      reason = ProtectedCapacity ∧
      (projected_fits limits p = false → projected_fits limits (after_victims p cs) = false)
  end.
Proof.
  revert p vs. induction cs as [|c cs IH]; intros p vs; simpl.
  - split; [done|]. unfold after_victims; simpl. rewrite !Z.sub_0_r. by destruct p.
  - set (p1 := mkProjected _ _).
    assert (∀ l, after_victims p (c :: l) = after_victims p1 l) as Hstep.
    { intros l. unfold after_victims, p1; simpl. f_equal; lia. }
    destruct (projected_fits limits p1) eqn:Hfit.
    + exists [], c, cs. split_and!; try done.
      * unfold after_victims; simpl. rewrite <-Hfit. unfold p1. f_equal. f_equal; lia.
      * unfold after_victims; simpl. rewrite !Z.sub_0_r. by destruct p.
    + specialize (IH p1 (vs ++ [ec_key c])).
      destruct (take_victims _ _ _ _) as [victims|reason].
      * destruct IH as (pre & last & post & -> & -> & Hf & Hnf).
        exists (c :: pre), last, post. split_and!; try done.
        -- simpl. by rewrite <-app_assoc.
        -- simpl. by rewrite Hstep.
        -- rewrite Hstep. auto.
      * destruct IH as [-> Hnf]. split; [done|]. rewrite Hstep. auto.
Qed.
End lemmas.

Section write_lemmas.
Context {V : Type}.
Implicit Types (self : Retention V) (ep : Epochs) (cs : list EvictionCandidate).

Lemma after_victims_nil p : after_victims p [] = p.
Proof. unfold after_victims; simpl. rewrite !Z.sub_0_r. by destruct p. Qed.

Lemma total_weight_app cs1 cs2 : total_weight (cs1 ++ cs2) = total_weight cs1 + total_weight cs2.
Proof. induction cs1; simpl; lia. Qed.

(** A plan evicts the shortest prefix of the eligible victims that makes room. *)
Lemma plan_ok self key w priority victims :
  plan self key w priority = Ok victims →
  ∃ cs post, victims = ec_key <$> cs ∧ eligible_victims self key priority = cs ++ post ∧
    projected_fits (r_limits self) (after_victims (projection self key w) cs) = true ∧
    (cs = [] ∨ ∃ pre last, cs = pre ++ [last] ∧
       projected_fits (r_limits self) (after_victims (projection self key w) pre) = false).
Proof.
  unfold plan. destruct (projected_fits _ (projection self key w)) eqn:Hfit.
  - intros [= <-]. exists [], (eligible_victims self key priority).
    rewrite after_victims_nil. auto.
  - pose proof (take_victims_spec (r_limits self) (projection self key w)
      (eligible_victims self key priority) []) as Hspec.
    intros Hok. rewrite Hok in Hspec.
    destruct Hspec as (pre & last & post & Heq & -> & Hf & Hnf).
    exists (pre ++ [last]), post. split_and!; [done| |done|].
    + rewrite Heq. by rewrite <-app_assoc.
    + right. eauto.
Qed.

Lemma plan_err self key w priority reason :
  plan self key w priority = Err reason →
  reason = ProtectedCapacity ∧
  projected_fits (r_limits self)
    (after_victims (projection self key w) (eligible_victims self key priority)) = false.
Proof.
  unfold plan. destruct (projected_fits _ (projection self key w)) eqn:Hfit; [done|].
  pose proof (take_victims_spec (r_limits self) (projection self key w)
    (eligible_victims self key priority) []) as Hspec.
  intros Herr. rewrite Herr in Hspec. destruct Hspec as [-> Hnf]. auto.
Qed.

Lemma remove_weight self key :
  r_weight (remove self key).1 =
  r_weight self - from_option weight_of 0 (r_entries self !! key).
Proof. unfold remove. destruct (r_entries self !! key); simpl; [done|lia]. Qed.

Lemma remove_victims_fold cs self acc :
  NoDup (ec_key <$> cs) → Forall (describes self) cs →
  let '(self', rs) := fold_left remove_victim (ec_key <$> cs) (self, acc) in
  without self (λ k, k ∈ ec_key <$> cs) self' ∧
  size (r_entries self) = (size (r_entries self') + length cs)%nat ∧
  r_weight self' = r_weight self - total_weight cs ∧
  (∀ r, r ∈ rs → r ∈ acc ∨ ∃ s, ret_key r ∈ ec_key <$> cs ∧
     r_entries self !! ret_key r = Some s ∧ r = retire s (ret_key r) RR_Capacity).
Proof.
  revert self acc. induction cs as [|c cs IH]; intros self acc Hnd Hd.
  { cbn. split_and!; [|lia..|by left]. eapply without_ext, without_refl.
    intros k. by rewrite elem_of_nil. }
  rewrite fmap_cons in *. cbn [fold_left remove_victim length total_weight foldr].
  apply NoDup_cons in Hnd as [Hnotin Hnd]. apply Forall_cons in Hd as [(s & Hs & Hc) Hd].
  pose proof (remove_spec self (ec_key c)) as (Hw & Hr & He).
  pose proof (remove_weight self (ec_key c)) as Hwt.
  destruct (remove self (ec_key c)) as [self1 old]; cbn [fst snd] in *.
  rewrite Hs in Hr, Hwt. subst old. cbn [from_option] in Hwt.
  specialize (IH self1 (acc ++ [retire s (ec_key c) RR_Capacity]) Hnd).
  destruct (fold_left _ _ _) as [self' rs].
  destruct IH as (Hw' & Hsize & Hweight & Hrs).
  { rewrite Forall_forall in Hd |- *. intros c' Hin. destruct (Hd c' Hin) as (s' & Hs' & ?).
    exists s'. split; [|done]. rewrite He. rewrite lookup_delete_ne; [done|].
    intros Heq. apply Hnotin. rewrite Heq. by apply list_elem_of_fmap_2. }
  split_and!.
  - eapply without_ext; [|by eapply without_trans]. intros k. by rewrite elem_of_cons.
  - rewrite (size_delete_Some _ _ s Hs). rewrite He in Hsize. lia.
  - rewrite Hweight, Hwt, Hc. unfold weight_of, total_weight; simpl. lia.
  - intros r [[?|Heq%list_elem_of_singleton]%elem_of_app|(s' & Hin & Hs' & Heq)]%Hrs; [by left|..].
    + right. exists s. subst r. simpl. split_and!; [apply list_elem_of_here|done..].
    + right. exists s'. split_and!; [by apply list_elem_of_further| |done].
      rewrite He in Hs'. by apply lookup_delete_Some in Hs' as [_ ?].
Qed.

(** The whole effect of [commit] after a successful plan. *)
Lemma commit_spec self key (entry : Entry V) cs rs cap ev elapsed :
  NoDup (ec_key <$> cs) → Forall (describes self) cs → key ∉ ec_key <$> cs →
  let '(self', c) := commit self key entry (ec_key <$> cs) rs cap ev elapsed in
  (weight_ok self → weight_ok self') ∧
  (∃ s, r_entries self' !! key = Some s ∧ rs_entry s = entry ∧
        rs_access s = saturating_add_u128 (next_access self) 1) ∧
  (∀ k, k ≠ key → (k ∈ ec_key <$> cs → r_entries self' !! k = None) ∧
     (k ∉ ec_key <$> cs → r_entries self' !! k = r_entries self !! k)) ∧
  (r_origins self' = r_origins self ∧ r_generation self' = r_generation self ∧
   r_limits self' = r_limits self ∧ r_expiry self' = r_expiry self ∧
   next_access self' = saturating_add_u128 (next_access self) 1) ∧
  Z.of_nat (size (r_entries self')) =
    pc_entries (after_victims (projection self key (entry_weight entry)) cs) ∧
  r_weight self' = pc_weight (after_victims (projection self key (entry_weight entry)) cs) ∧
  admission c = (match r_entries self !! key with Some _ => MA_Replaced | None => MA_Admitted end).
Proof.
  intros Hnd Hd Hnot. unfold commit.
  pose proof (remove_victims_fold cs self rs Hnd Hd) as Hfold.
  destruct (fold_left _ _ _) as [self1 rs1]. destruct Hfold as (Hw1 & Hsize & Hweight & _).
  destruct Hw1 as ((Ho & Hg & Hn & Hl & Hx) & Hwok & Hk1).
  assert (r_entries self1 !! key = r_entries self !! key) as Hkey by (by apply Hk1).
  pose proof (remove_spec self1 key) as (Hw2 & Hr2 & He2).
  destruct Hw2 as ((Ho2 & Hg2 & Hn2 & Hl2 & Hx2) & Hwok2 & Hk2).
  pose proof (remove_weight self1 key) as Hweight2.
  destruct (remove self1 key) as [self2 old]; simpl in *. subst old.
  set (c := match r_entries self1 !! key with Some old => (MA_Replaced, _) | None => _ end).
  assert (c.1 = match r_entries self !! key with Some _ => MA_Replaced | None => MA_Admitted end) as Hc.
  { unfold c. rewrite Hkey. by destruct (r_entries self !! key). }
  destruct c as [adm rs2]. simpl in Hc. subst adm. simpl.
  set (s := mkRStored entry _ _ _).
  assert (r_entries self2 !! key = None) as Hnone by (rewrite He2; apply lookup_delete_eq).
  split_and!; simpl; try congruence.
  - intros H. apply Hwok, Hwok2 in H. unfold weight_ok in *; simpl.
    rewrite msum_insert, H by done. unfold weight_of; simpl. lia.
  - exists s. split_and!; [apply lookup_insert_eq|done|]. simpl. congruence.
  - intros k Hne. rewrite lookup_insert_ne by done. destruct (Hk2 k) as [_ Hk2'].
    rewrite Hk2' by done. apply Hk1.
  - rewrite map_size_insert_None by done. rewrite He2.
    destruct (r_entries self !! key) as [o|] eqn:Eo; rewrite ?Eo in *.
    + rewrite (size_delete_Some _ key o) in Hsize by congruence.
      assert (size (r_entries self1) = S (size (delete key (r_entries self1)))) as Hs1
        by (by apply (size_delete_Some _ _ o)).
      rewrite <-(size_delete_Some (r_entries self) key o) in Hsize by done. lia.
    + rewrite delete_id by done. lia.
  - rewrite Hweight2, Hweight, Hkey. destruct (r_entries self !! key); simpl; unfold weight_of; lia.
Qed.
End write_lemmas.

(** ** The invariant and the cases of an insertion *)
Section invariant.
Context {V : Type}.
Implicit Types (self : Retention V) (ep : Epochs) (rq : WriteRequest V).

Definition limits_wf (l : MemoryLimits) : Prop :=
  match limit_entries l with Some n => is_u64 n | None => True end ∧
  match limit_weight l with Some n => is_u64 n | None => True end.

Definition inv self : Prop :=
  weight_ok self ∧
  (∀ k s, r_entries self !! k = Some s → 0 ≤ weight_of s ≤ u64_max) ∧
  MemoryLimits.fits (r_limits self) (size (r_entries self)) (r_weight self) = true ∧
  (∀ k s, r_entries self !! k = Some s → rs_access s ≤ next_access self) ∧
  0 ≤ next_access self ≤ u128_max ∧ 0 ≤ r_generation self ≤ u64_max.

Lemma fits_mono l n w n' w' :
  (n' ≤ n)%nat → w' ≤ w → MemoryLimits.fits l n w = true → MemoryLimits.fits l n' w' = true.
Proof.
  unfold MemoryLimits.fits. intros Hn Hw [He Hwt]%andb_prop. apply andb_true_intro. split.
  - destruct (limit_entries l); [|done]. bool_to_prop. apply Z.leb_le. lia.
  - destruct (limit_weight l); [|done]. bool_to_prop. apply Z.leb_le. lia.
Qed.

Lemma inv_new l x : limits_wf l → inv (new l x).
Proof.
  intros [He Hw]. unfold inv, weight_ok; simpl. rewrite msum_empty, map_size_empty.
  split_and!; try (intros; by rewrite lookup_empty in *); try lia.
  unfold MemoryLimits.fits. destruct (limit_entries l), (limit_weight l); simpl;
    unfold is_u64 in *; rewrite ?andb_true_iff, ?Z.leb_le; lia || done.
Qed.

Lemma without_subseteq self g self' : without self g self' → (∀ k, g k ∨ ¬ g k) →
  r_entries self' ⊆ r_entries self.
Proof.
  intros (_ & _ & Hk) Hdec. apply map_subseteq_spec. intros k s Hs.
  destruct (Hk k) as [Hg Hn]. destruct (Hdec k) as [H|H].
  - apply Hg in H. congruence.
  - rewrite Hn in Hs; done.
Qed.

(** Dropping entries keeps the invariant. *)
Lemma inv_shrink self self' :
  same_settings self self' → weight_ok self' → r_entries self' ⊆ r_entries self →
  inv self → inv self'.
Proof.
  intros (Ho & Hg & Hn & Hl & Hx) Hw' Hsub (Hw & Hpos & Hfit & Hacc & Hnext & Hgen).
  assert (∀ k s, r_entries self' !! k = Some s → r_entries self !! k = Some s) as Hin.
  { intros k s Hs. by eapply lookup_weaken. }
  unfold inv. rewrite Hn, Hl, Hg. split_and!; try done; try lia; eauto.
  revert Hfit. apply fits_mono.
  - by apply map_subseteq_size.
  - rewrite Hw', Hw. apply msum_subseteq; [done|]. intros k s Hs. apply Hpos in Hs. lia.
Qed.

Lemma inv_without self g self' :
  without self g self' → (∀ k, g k ∨ ¬ g k) → inv self → inv self'.
Proof.
  intros Hwo Hdec Hinv. pose proof Hwo as (Hs & Hw & _). apply (inv_shrink self); [done| | |done].
  - apply Hw, Hinv.
  - by eapply without_subseteq.
Qed.

Lemma dead_dec ep self now elapsed k :
  (∃ s, r_entries self !! k = Some s ∧ dead ep now elapsed s = true) ∨
  ¬ (∃ s, r_entries self !! k = Some s ∧ dead ep now elapsed s = true).
Proof.
  destruct (r_entries self !! k) as [s|] eqn:E; [|right; intros (s & ? & _); congruence].
  destruct (dead ep now elapsed s) eqn:D; [left; eauto|right].
  intros (s' & [= <-] & ?). congruence.
Qed.

(** Making room: the dead entries go, and only if the candidate does not fit. *)
Lemma expire_under_pressure_spec ep self key w now elapsed :
  let '(self1, rs) := expire_under_pressure ep self key w now elapsed in
  without self (λ k, projected_fits (r_limits self) (projection self key w) = false ∧
    ∃ s, r_entries self !! k = Some s ∧ dead ep (Some now) elapsed s = true) self1.
Proof.
  unfold expire_under_pressure. destruct (projected_fits _ _).
  - eapply without_ext, without_refl. intros k. split; [done|]. by intros [? _].
  - pose proof (remove_expired_spec ep self (Some now) elapsed) as Hspec.
    destruct (remove_expired _ _ _ _) as [self1 rs]. destruct Hspec as [Hw _].
    eapply without_ext; [|done]. intros k. split; [by split|by intros [_ ?]].
Qed.

(** [cs] is the shortest prefix of the eligible victims that makes room. *)
Definition planned self (key : string) (w : Z) (priority : Priority)
    (cs : list EvictionCandidate) : Prop :=
  ∃ post, eligible_victims self key priority = cs ++ post ∧
    projected_fits (r_limits self) (after_victims (projection self key w) cs) = true ∧
    (cs = [] ∨ ∃ pre last, cs = pre ++ [last] ∧
       projected_fits (r_limits self) (after_victims (projection self key w) pre) = false).

Inductive insert_outcome ep (h : Revs) self rq
    : Revs * Retention V * option (PreparedEntry V) * RetentionCommit V → Prop :=
| io_condition :
    Expected.matches_generation h (rq_expected rq) (rs_entry <$> r_entries self !! rq_key rq)
      (r_generation self) = false →
    insert_outcome ep h self rq (h, self, Some (rq_entry rq), rejected VersionChanged [])
| io_oversized h1 :
    Expected.matches_generation h (rq_expected rq) (rs_entry <$> r_entries self !! rq_key rq)
      (r_generation self) = true →
    h1 = (if Expected.changes_origin (rq_expected rq)
          then Origins.advance h (r_origins self) (rq_key rq) else h) →
    MemoryLimits.fits (r_limits self) 1 (prepared_weight (rq_entry rq)) = false →
    insert_outcome ep h self rq (h1, self, Some (rq_entry rq), rejected Oversized [])
| io_protected h1 self1 rs :
    Expected.matches_generation h (rq_expected rq) (rs_entry <$> r_entries self !! rq_key rq)
      (r_generation self) = true →
    h1 = (if Expected.changes_origin (rq_expected rq)
          then Origins.advance h (r_origins self) (rq_key rq) else h) →
    MemoryLimits.fits (r_limits self) 1 (prepared_weight (rq_entry rq)) = true →
    expire_under_pressure ep self (rq_key rq) (prepared_weight (rq_entry rq))
      (WriteTime.now (rq_time rq)) (rq_instant rq) = (self1, rs) →
    plan self1 (rq_key rq) (prepared_weight (rq_entry rq))
      (Metadata.priority (PreparedEntry.meta (rq_entry rq))) = Err ProtectedCapacity →
    insert_outcome ep h self rq (h1, self1, Some (rq_entry rq), rejected ProtectedCapacity rs)
| io_admitted h1 self1 rs cs self' c :
    Expected.matches_generation h (rq_expected rq) (rs_entry <$> r_entries self !! rq_key rq)
      (r_generation self) = true →
    h1 = (if Expected.changes_origin (rq_expected rq)
          then Origins.advance h (r_origins self) (rq_key rq) else h) →
    MemoryLimits.fits (r_limits self) 1 (prepared_weight (rq_entry rq)) = true →
    expire_under_pressure ep self (rq_key rq) (prepared_weight (rq_entry rq))
      (WriteTime.now (rq_time rq)) (rq_instant rq) = (self1, rs) →
    planned self1 (rq_key rq) (prepared_weight (rq_entry rq))
      (Metadata.priority (PreparedEntry.meta (rq_entry rq))) cs →
    NoDup (ec_key <$> cs) → Forall (describes self1) cs → rq_key rq ∉ ec_key <$> cs →
    commit self1 (rq_key rq) (PreparedEntry.take_for_storage (rq_alloc rq) (rq_entry rq))
      (ec_key <$> cs) rs (admission_ (rq_policy rq)) (rq_event rq) (rq_instant rq) = (self', c) →
    insert_outcome ep h self rq (h1, self', None, c).

(** The victims of a plan are described entries, each once, never the key. *)
Lemma plan_victims self key w priority victims :
  plan self key w priority = Ok victims →
  ∃ cs, victims = ec_key <$> cs ∧ planned self key w priority cs ∧
    NoDup (ec_key <$> cs) ∧ Forall (describes self) cs ∧ (key ∉ (ec_key <$> cs)).
Proof.
  intros (cs & post & -> & Heq & Hrest)%plan_ok. exists cs.
  destruct (eligible_victims_spec self key priority) as (Hnd & _ & Hel).
  assert (∀ c, c ∈ cs → c ∈ eligible_victims self key priority) as Hin.
  { intros c Hc. rewrite Heq. apply elem_of_app. by left. }
  split_and!; [done|by exists post|..].
  - rewrite Heq, fmap_app in Hnd. by apply NoDup_app in Hnd as [? _].
  - apply Forall_forall. intros c Hc. apply Hin, Hel in Hc as (s & Hs & Hc & _). by exists s.
  - intros (c & -> & Hc)%list_elem_of_fmap. apply Hin, Hel in Hc as (s & _ & _ & He).
    unfold eligible in He. rewrite bool_decide_eq_true_2 in He; done.
Qed.

Lemma insert_cases ep h self rq : insert_outcome ep h self rq (insert ep h self rq).
Proof.
  unfold insert.
  destruct (Expected.matches_generation _ _ _ _) eqn:Hm; cbn [negb]; [|by constructor].
  destruct (MemoryLimits.fits _ _ _) eqn:Hf; cbn [negb]; [|by constructor].
  destruct (expire_under_pressure _ _ _ _ _ _) as [self1 rs] eqn:He.
  destruct (plan _ _ _ _) as [victims|reason] eqn:Hp.
  - destruct (plan_victims _ _ _ _ _ Hp) as (cs & -> & Hpl & Hnd & Hd & Hnot).
    destruct (commit _ _ _ _ _ _ _ _) as [self' c] eqn:Hc. by eapply io_admitted.
  - destruct (plan_err _ _ _ _ _ Hp) as [-> _]. by eapply io_protected.
Qed.
End invariant.

(** ** Every operation preserves the invariant *)
Section preservation.
Context {V : Type}.
Implicit Types (self : Retention V) (ep : Epochs) (rq : WriteRequest V).

Lemma expire_under_pressure_inv ep self key w now elapsed :
  inv self → inv (expire_under_pressure ep self key w now elapsed).1.
Proof.
  intros Hinv. pose proof (expire_under_pressure_spec ep self key w now elapsed) as Hspec.
  destruct (expire_under_pressure _ _ _ _ _ _) as [self1 rs]. eapply inv_without; [done| |done].
  intros k. destruct (dead_dec ep self (Some now) elapsed k), (projected_fits _ _); tauto || intuition congruence.
Qed.

Lemma remove_expired_inv ep self now elapsed :
  inv self → inv (remove_expired ep self now elapsed).1.
Proof.
  intros Hinv. pose proof (remove_expired_spec ep self now elapsed) as Hspec.
  destruct (remove_expired _ _ _ _) as [self1 rs]. destruct Hspec as [Hw _].
  eapply inv_without; [done| |done]. apply dead_dec.
Qed.

Lemma remove_inv self key : inv self → inv (remove self key).1.
Proof.
  intros Hinv. destruct (remove_spec self key) as [Hw _].
  eapply inv_without; [done| |done]. intros k. destruct (decide (k = key)); auto.
Qed.

Lemma ticket_inv self : inv self → inv (ticket self).2.
Proof.
  intros (Hw & Hpos & Hfit & Hacc & Hnext & Hgen). unfold inv; simpl. split_and!; try done.
  all: try zsolve. intros k s Hs. apply Hacc in Hs. zsolve.
Qed.

Lemma get_inv ep self key now elapsed : inv self → inv (get ep self key now elapsed).1.
Proof.
  intros Hinv. unfold get. destruct (r_entries self !! key) as [s|] eqn:Hk; [|by apply ticket_inv].
  destruct (retirement_reason _ _ _ _); [by apply remove_inv|].
  pose proof (ticket_inv self Hinv) as Ht. unfold ticket in *. cbn [fst snd] in *.
  destruct Ht as (Hw & Hpos & Hfit & Hacc & Hnext & Hgen). unfold inv; simpl in *.
  set (s' := mkRStored _ _ _ _).
  assert (weight_of s' = weight_of s) as Hws by done.
  split_and!; try done; try lia.
  - unfold weight_ok in *; simpl in *. rewrite Hw.
    rewrite (msum_insert_any weight_of _ key s'), Hk. simpl. rewrite Hws. lia.
  - intros k s1 [[<- <-]|[_ Hs1]]%lookup_insert_Some; eauto. rewrite Hws. eauto.
  - rewrite map_size_insert_Some by (by rewrite Hk). done.
  - intros k s1 [[<- <-]|[_ Hs1]]%lookup_insert_Some; eauto. simpl. lia.
Qed.

Lemma prepared_entry_weight rq :
  entry_weight (PreparedEntry.take_for_storage (rq_alloc rq) (rq_entry rq)) =
  prepared_weight (rq_entry rq).
Proof. apply represents_weight, represents_taken. Qed.

Lemma insert_inv ep h self rq :
  is_u64 (prepared_weight (rq_entry rq)) → inv self → inv (insert ep h self rq).1.1.2.
Proof.
  intros Hu Hinv. destruct (insert_cases ep h self rq)
    as [|h1|h1 self1 rs _ _ _ He|h1 self1 rs cs self' c _ _ _ He Hp Hnd Hd Hnot Hc]; simpl; try done.
  - pose proof (expire_under_pressure_inv ep self (rq_key rq) (prepared_weight (rq_entry rq))
      (WriteTime.now (rq_time rq)) (rq_instant rq) Hinv) as Hs1. by rewrite He in Hs1.
  - pose proof (expire_under_pressure_inv ep self (rq_key rq) (prepared_weight (rq_entry rq))
      (WriteTime.now (rq_time rq)) (rq_instant rq) Hinv) as Hs1. rewrite He in Hs1. simpl in Hs1.
    pose proof Hs1 as (Hw & Hpos & Hfit & Hacc & Hnext & Hgen).
    pose proof (commit_spec self1 (rq_key rq)
      (PreparedEntry.take_for_storage (rq_alloc rq) (rq_entry rq)) cs rs
      (admission_ (rq_policy rq)) (rq_event rq) (rq_instant rq) Hnd Hd Hnot) as Hspec.
    rewrite Hc in Hspec.
    destruct Hspec as (Hwok & (s & Hs & Hse & Hsa) & Hothers & (_ & Hg & Hl & _ & Hn) & Hsz & Hwt & _).
    destruct Hp as (post & _ & Hfits & _).
    rewrite <-prepared_entry_weight in Hfits. unfold projected_fits in Hfits.
    rewrite <-Hsz, <-Hwt, Nat2Z.id in Hfits.
    assert (∀ k s', k ≠ rq_key rq → r_entries self' !! k = Some s' → r_entries self1 !! k = Some s') as Hold.
    { intros k s' Hne Hk. destruct (Hothers k Hne) as [Hgone Hkept].
      destruct (decide (k ∈ ec_key <$> cs)) as [Hin|Hin]; [rewrite Hgone in Hk; done|].
      by rewrite Hkept in Hk. }
    unfold inv. rewrite Hl, Hn, Hg. split_and!; auto; try zsolve.
    + intros k s' Hk. destruct (decide (k = rq_key rq)) as [->|Hne]; [|eauto].
      rewrite Hs in Hk. injection Hk as <-. unfold weight_of. rewrite Hse, prepared_entry_weight.
      zsolve.
    + intros k s' Hk. destruct (decide (k = rq_key rq)) as [->|Hne].
      * rewrite Hs in Hk. injection Hk as <-. lia.
      * apply Hold in Hk; [|done]. apply Hacc in Hk. zsolve.
Qed.

Lemma retention_clear_inv self : limits_wf (r_limits self) → inv self → inv (clear self).
Proof.
  intros Hl (_ & _ & _ & _ & Hnext & Hgen).
  destruct (inv_new (V:=V) (r_limits self) (r_expiry self) Hl) as (_ & _ & Hfit & _).
  unfold inv, weight_ok; simpl. rewrite msum_empty, map_size_empty.
  split_and!; try (intros; by rewrite lookup_empty in *); try done; zsolve.
Qed.

Lemma insert_limits ep h self rq : r_limits (insert ep h self rq).1.1.2 = r_limits self.
Proof.
  destruct (insert_cases ep h self rq)
    as [|h1|h1 self1 rs _ _ _ He|h1 self1 rs cs self' c _ _ _ He Hp Hnd Hd Hnot Hc]; simpl; try done.
  - pose proof (expire_under_pressure_spec ep self (rq_key rq) (prepared_weight (rq_entry rq))
      (WriteTime.now (rq_time rq)) (rq_instant rq)) as Hs1. rewrite He in Hs1. apply Hs1.
  - pose proof (expire_under_pressure_spec ep self (rq_key rq) (prepared_weight (rq_entry rq))
      (WriteTime.now (rq_time rq)) (rq_instant rq)) as Hs1. rewrite He in Hs1.
    pose proof (commit_spec self1 (rq_key rq)
      (PreparedEntry.take_for_storage (rq_alloc rq) (rq_entry rq)) cs rs
      (admission_ (rq_policy rq)) (rq_event rq) (rq_instant rq) Hnd Hd Hnot) as Hspec.
    rewrite Hc in Hspec. destruct Hspec as (_ & _ & _ & (_ & _ & Hl & _) & _). rewrite Hl. apply Hs1.
Qed.
End preservation.

(** ** The backend contract *)
Section storage.
Context {V : Type}.

#[export] Instance retention_storage : Storage (Retention V) V := {
  lookup_current s k := rs_entry <$> r_entries s !! k;
  store_generation s := r_generation s;
  store_origins s _ := r_origins s;
  store_insert := insert;
  store_remove_as_mutation := remove_as_mutation;
  store_clear := clear
}.

(** Making room for a key changes no settings and no representation but by
    removing it. *)
Lemma making_room ep (s : Retention V) key w now elapsed s1 rs :
  expire_under_pressure ep s key w now elapsed = (s1, rs) →
  same_settings s s1 ∧
  ∀ k, r_entries s1 !! k = r_entries s !! k ∨ r_entries s1 !! k = None.
Proof.
  intros He. pose proof (expire_under_pressure_spec ep s key w now elapsed) as Hspec.
  rewrite He in Hspec. destruct Hspec as (Hset & _ & Hk). split; [done|].
  intros k. destruct (Hk k) as [Hg Hn].
  destruct (projected_fits (r_limits s) (projection s key w)).
  - left. apply Hn. by intros [? _].
  - destruct (dead_dec ep s (Some now) elapsed k) as [Hd|Hd]; [right; by apply Hg|].
    left. apply Hn. by intros [_ ?].
Qed.

(** The effect of a write, seen through the contract. *)
Lemma insert_visible ep h (s : Retention V) rq h' s' rest c :
  insert ep h s rq = (h', s', rest, c) →
  r_generation s' = r_generation s ∧
  (∀ k, k ≠ rq_key rq → r_entries s' !! k = r_entries s !! k ∨ r_entries s' !! k = None) ∧
  if is_rejected (admission c)
  then rest = Some (rq_entry rq) ∧
       (r_entries s' !! rq_key rq = r_entries s !! rq_key rq ∨ r_entries s' !! rq_key rq = None)
  else rest = None ∧
       (∃ e, r_entries s' !! rq_key rq = Some e ∧ represents (rq_entry rq) (rs_entry e)) ∧
       (admission c = MA_Replaced → is_Some (r_entries s !! rq_key rq)).
Proof.
  intros Heq. pose proof (insert_cases ep h s rq) as Hcase. rewrite Heq in Hcase.
  inversion Hcase as [Hm|h1 Hm Hh Hf|h1 self1 rs Hm Hh Hf He Hp
    |h1 self1 rs cs self' c' Hm Hh Hf He Hp Hnd Hd Hnot Hc]; subst; cbn [admission rejected is_rejected].
  - auto.
  - auto.
  - destruct (making_room _ _ _ _ _ _ _ _ He) as [(_ & Hg & _) Hk]. auto.
  - destruct (making_room _ _ _ _ _ _ _ _ He) as [(_ & Hg & _) Hk].
    pose proof (commit_spec self1 (rq_key rq)
      (PreparedEntry.take_for_storage (rq_alloc rq) (rq_entry rq)) cs rs
      (admission_ (rq_policy rq)) (rq_event rq) (rq_instant rq) Hnd Hd Hnot) as Hspec.
    rewrite Hc in Hspec.
    destruct Hspec as (_ & (e & Hs & Hse & _) & Hothers & (_ & Hg' & _) & _ & _ & Hadm).
    split; [congruence|]. split.
    + intros k Hne. destruct (Hothers k Hne) as [Hgone Hkept].
      destruct (decide (k ∈ (ec_key <$> cs))) as [Hin|Hin]; [right; auto|].
      rewrite Hkept by done. apply Hk.
    + rewrite Hadm.
      assert ((∃ e, r_entries s' !! rq_key rq = Some e ∧ represents (rq_entry rq) (rs_entry e)))
        by (exists e; split; [done|rewrite Hse; apply represents_taken]).
      destruct (Hk (rq_key rq)) as [<-|Hnone]; [|rewrite Hnone; by simpl].
      by destruct (r_entries self1 !! rq_key rq).
Qed.

Lemma insert_revisions ep h (s : Retention V) rq h' s' rest c :
  insert ep h s rq = (h', s', rest, c) →
  (Expected.matches_generation h (rq_expected rq) (rs_entry <$> r_entries s !! rq_key rq)
     (r_generation s) = false → is_rejected (admission c) = true ∧ h' = h ∧ s' = s) ∧
  (h' = h ∨ h' = Origins.advance h (r_origins s) (rq_key rq)) ∧
  (is_rejected (admission c) = false →
   h' = if Expected.changes_origin (rq_expected rq)
        then Origins.advance h (r_origins s) (rq_key rq) else h).
Proof.
  intros Heq. pose proof (insert_cases ep h s rq) as Hcase. rewrite Heq in Hcase.
  inversion Hcase as [Hm|h1 Hm Hh Hf|h1 self1 rs Hm Hh Hf He Hp
    |h1 self1 rs cs self' c' Hm Hh Hf He Hp Hnd Hd Hnot Hc]; subst; cbn [admission rejected is_rejected].
  - split_and!; by auto.
  - rewrite Hm. case_match; split_and!; by auto.
  - rewrite Hm. case_match; split_and!; by auto.
  - rewrite Hm. case_match; split_and!; by auto.
Qed.

#[export] Instance retention_laws : StorageLaws (Retention V) V.
Proof.
  refine {| store_ok s := 0 ≤ r_generation s ≤ u64_max |}; simpl.
  - intros ep h s rq h' s' rest c _ Heq Ha.
    apply insert_visible in Heq as (_ & _ & Hv). rewrite Ha in Hv.
    destruct Hv as (-> & (e & -> & Hr) & Hrep). split_and!; [done|by exists (rs_entry e)|].
    intros H. apply fmap_is_Some. auto.
  - intros ep h s rq h' s' rest c _ Heq Ha.
    apply insert_visible in Heq as (_ & _ & Hv). rewrite Ha in Hv.
    destruct Hv as (-> & [->| ->]); (split; [done|]); [by left|by right].
  - intros ep h s rq h' s' rest c k _ Heq Hne.
    apply insert_visible in Heq as (_ & Hv & _).
    destruct (Hv k Hne) as [->| ->]; [by left|by right].
  - intros ep h s rq h' s' rest c _ Heq. by apply insert_revisions in Heq as (? & _).
  - intros ep h s rq h' s' rest c _ Heq. by apply insert_revisions in Heq as (_ & ? & _).
  - intros ep h s rq h' s' rest c _ Heq. by apply insert_revisions in Heq as (_ & _ & ?).
  - intros h s k h' s' r _ Heq. unfold remove_as_mutation in Heq.
    pose proof (remove_spec s k) as (_ & _ & He).
    destruct (remove s k) as [s1 o]; simplify_eq/=. rewrite He.
    split_and!; [done|by rewrite lookup_delete_eq|].
    intros k' Hne. by rewrite lookup_delete_ne.
  - intros s k Hok Hne. rewrite lookup_empty. split; [done|]. zsolve.
  - intros ep h s rq h' s' rest c Hok Heq.
    apply insert_visible in Heq as (-> & _). done.
  - intros h s k h' s' r Hok Heq. unfold remove_as_mutation in Heq.
    pose proof (remove_spec s k) as (Hw & _ & _).
    destruct (remove s k) as [s1 o]; simplify_eq/=.
    destruct Hw as ((_ & -> & _) & _). done.
  - intros s Hok. zsolve.
Defined.
End storage.

(** ** Executions of the store *)
Inductive step {V} : Retention V → Retention V → Prop :=
| step_insert ep h s rq :
    is_u64 (prepared_weight (rq_entry rq)) → step s (insert ep h s rq).1.1.2
| step_get ep s key now elapsed : step s (get ep s key now elapsed).1
| step_remove s key : step s (remove s key).1
| step_sweep ep s now elapsed : step s (remove_expired ep s now elapsed).1
| step_mutation h s key : step s (remove_as_mutation h s key).1.2
| step_clear s : step s (clear s).

Lemma get_limits {V} ep (s : Retention V) key now elapsed :
  r_limits (get ep s key now elapsed).1 = r_limits s.
Proof.
  unfold get. destruct (r_entries s !! key); [|done].
  destruct (retirement_reason _ _ _ _); [|done]. simpl. apply (remove_spec s key).
Qed.

Lemma remove_as_mutation_state {V} h (s : Retention V) key :
  (remove_as_mutation h s key).1.2 = (remove s key).1.
Proof. unfold remove_as_mutation. by destruct (remove s key). Qed.

Lemma step_limits {V} (s s' : Retention V) : step s s' → r_limits s' = r_limits s.
Proof.
  intros [].
  - apply insert_limits.
  - apply get_limits.
  - apply (remove_spec s0 key).
  - pose proof (remove_expired_spec ep s0 now elapsed) as Hspec.
    destruct (remove_expired _ _ _ _). destruct Hspec as [Hw _]. apply Hw.
  - rewrite remove_as_mutation_state. apply (remove_spec s0 key).
  - done.
Qed.

Lemma step_inv {V} (s s' : Retention V) :
  limits_wf (r_limits s) → step s s' → inv s → inv s'.
Proof.
  intros Hl Hstep Hinv. destruct Hstep.
  - by apply insert_inv.
  - by apply get_inv.
  - by apply remove_inv.
  - by apply remove_expired_inv.
  - rewrite remove_as_mutation_state. by apply remove_inv.
  - by apply retention_clear_inv.
Qed.

Lemma reachable_inv {V} l x (s : Retention V) :
  limits_wf l → rtc step (new l x) s → r_limits s = l ∧ inv s.
Proof.
  intros Hl Hr.
  assert (∀ s0, rtc step s0 s → r_limits s0 = l ∧ inv s0 → r_limits s = l ∧ inv s) as Hgen.
  { induction 1 as [|s0 s1 s2 Hstep _ IH]; [done|]. intros [Hl0 Hi0]. apply IH; [done|].
    rewrite (step_limits _ _ Hstep). split; [done|].
    eapply step_inv; [|done|done]. by rewrite Hl0. }
  apply (Hgen (new l x)); [done|]. split; [done|]. by apply inv_new.
Qed.

(** ** Properties *)

(** C32: the capacity-limited store never exceeds its limits and its weight
    accounting is exact. After any sequence of writes, reads, removals, sweeps
    and clears, the recorded weight is the sum of the stored entries' weights,
    entry count and weight are within the configured limits, the subtraction
    the code makes when it replaces or removes a key never goes below zero, and
    the weight stays far from the 128-bit bound. *)
Theorem retention_within_limits {V} (l : MemoryLimits) (x : MemoryExpiry) (s : Retention V) :
  limits_wf l → rtc step (new l x) s →
  r_weight s = msum weight_of (r_entries s) ∧
  MemoryLimits.fits l (size (r_entries s)) (r_weight s) = true ∧
  (∀ key e, r_entries s !! key = Some e → 0 ≤ r_weight s - weight_of e) ∧
  0 ≤ r_weight s ≤ u64_max * Z.of_nat (size (r_entries s)).
Proof.
  intros Hl Hr. destruct (reachable_inv l x s Hl Hr) as [<- (Hw & Hpos & Hfit & _)].
  assert (∀ k e, r_entries s !! k = Some e → 0 ≤ weight_of e) as Hnn
    by (intros k e He; apply Hpos in He; lia).
  split_and!; [done|done|..].
  - intros key e He. rewrite Hw. pose proof (msum_lookup_le weight_of _ key e Hnn He). lia.
  - rewrite Hw. by apply msum_nonneg.
  - rewrite Hw. apply msum_bound. intros k e He. apply Hpos in He. lia.
Qed.

Definition sample_value (w : Z) (p : Priority) : PreparedEntry nat :=
  PE_Fresh (mkFreshValue (mkInner 7%nat
    (mkMetadata 0 0 100 100 (from_secs 1) (EO_Fresh None) None None []
       (RM_Specified (Some w) p)) EL_Local)).
Definition sample_request (key : string) (w : Z) (p : Priority) : WriteRequest nat :=
  mkRequest key (sample_value w p) (WT_Clock 0) EX_Mutation
    (mkPolicy Unarmed AtInsertion) MW_Set 1%positive false 0.
Definition sample_limits : MemoryLimits := mkMemoryLimits None (Some 10).
Definition sample_store : Retention nat :=
  (insert (λ _, 0) ∅ (new sample_limits ClockDriven) (sample_request "a" 6 Low)).1.1.2.

Lemma sample_store_reachable : rtc step (new sample_limits ClockDriven) sample_store.
Proof. apply rtc_once, step_insert. vm_compute. split; discriminate. Qed.

Lemma sample_limits_wf : limits_wf sample_limits.
Proof. vm_compute. split; [done|split; discriminate]. Qed.

Lemma retention_within_limits_witness :
  MemoryLimits.fits sample_limits (size (r_entries sample_store)) (r_weight sample_store) = true ∧
  r_weight sample_store = 6.
Proof.
  destruct (retention_within_limits sample_limits ClockDriven sample_store
    sample_limits_wf sample_store_reachable) as (_ & H & _).
  split; [exact H|]. vm_compute. reflexivity.
Defined.

(** What one write does to the capacity-limited store. A write whose
    condition does not hold changes nothing; an oversized candidate evicts
    nothing; a candidate that does not fit is refused only if evicting every
    unpinned entry of its own or a lower priority would not make room, and then
    nothing but physically dead entries is gone; an admitted candidate is
    stored, and any other live key that disappears was unpinned and of no higher
    priority. No other rejection exists. *)
Theorem retention_insert_effect {V} (ep : Epochs) (h : Revs) (s : Retention V)
    (rq : WriteRequest V) :
  let '(h', s', rest, c) := insert ep h s rq in
  let holds := Expected.matches_generation h (rq_expected rq)
                 (rs_entry <$> r_entries s !! rq_key rq) (r_generation s) in
  let weight := prepared_weight (rq_entry rq) in
  let live k e := r_entries s !! k = Some e ∧
    dead ep (Some (WriteTime.now (rq_time rq))) (rq_instant rq) e = false in
  match admission c with
  | MA_Rejected VersionChanged => holds = false ∧ h' = h ∧ s' = s ∧ rest = Some (rq_entry rq)
  | MA_Rejected Oversized =>
      holds = true ∧ MemoryLimits.fits (r_limits s) 1 weight = false ∧ s' = s ∧
      rest = Some (rq_entry rq)
  | MA_Rejected ProtectedCapacity =>
      holds = true ∧ rest = Some (rq_entry rq) ∧
      projected_fits (r_limits s)
        (after_victims (projection s' (rq_key rq) weight)
           (eligible_victims s' (rq_key rq)
              (Metadata.priority (PreparedEntry.meta (rq_entry rq))))) = false ∧
      ∀ k e, live k e → r_entries s' !! k = Some e
  | MA_Rejected _ => False
  | MA_Admitted | MA_Replaced =>
      holds = true ∧ rest = None ∧
      (∃ e, r_entries s' !! rq_key rq = Some e ∧ represents (rq_entry rq) (rs_entry e)) ∧
      ∀ k e, k ≠ rq_key rq → live k e →
        r_entries s' !! k = Some e ∨
        r_entries s' !! k = None ∧
        eligible (rq_key rq) (Metadata.priority (PreparedEntry.meta (rq_entry rq))) k e = true
  end.
Proof.
  pose proof (insert_cases ep h s rq) as Hcase.
  destruct (insert ep h s rq) as [[[h' s'] rest] c]. cbv zeta.
  assert (∀ self1 rs, expire_under_pressure ep s (rq_key rq) (prepared_weight (rq_entry rq))
    (WriteTime.now (rq_time rq)) (rq_instant rq) = (self1, rs) →
    r_limits self1 = r_limits s ∧
    ∀ k e, r_entries s !! k = Some e →
      dead ep (Some (WriteTime.now (rq_time rq))) (rq_instant rq) e = false →
      r_entries self1 !! k = Some e) as Hexp.
  { intros self1 rs He.
    pose proof (expire_under_pressure_spec ep s (rq_key rq) (prepared_weight (rq_entry rq))
      (WriteTime.now (rq_time rq)) (rq_instant rq)) as Hspec. rewrite He in Hspec.
    destruct Hspec as ((_ & _ & _ & Hl & _) & _ & Hk). split; [done|].
    intros k e Hke Hlive. destruct (Hk k) as [_ ->]; [done|].
    intros (_ & e' & He' & Hd). rewrite Hke in He'. injection He' as <-. congruence. }
  inversion Hcase as [Hm|h1 Hm Hh Hf|h1 self1 rs Hm Hh Hf He Hp
    |h1 self1 rs cs self' c' Hm Hh Hf He Hp Hnd Hd Hnot Hc]; subst; cbn [admission rejected].
  - done.
  - done.
  - destruct (Hexp _ _ He) as [Hl Hk]. apply plan_err in Hp as [_ Hp]. rewrite Hl in Hp.
    split_and!; try done. intros k e [? ?]. auto.
  - destruct (Hexp _ _ He) as [Hl Hk].
    pose proof (commit_spec self1 (rq_key rq)
      (PreparedEntry.take_for_storage (rq_alloc rq) (rq_entry rq)) cs rs
      (admission_ (rq_policy rq)) (rq_event rq) (rq_instant rq) Hnd Hd Hnot) as Hspec.
    rewrite Hc in Hspec. destruct Hspec as (_ & (e0 & He0 & Hse & _) & Hothers & _ & _ & _ & ->).
    assert (∀ k e, k ≠ rq_key rq → r_entries self1 !! k = Some e →
      r_entries s' !! k = Some e ∨ r_entries s' !! k = None ∧
      eligible (rq_key rq) (Metadata.priority (PreparedEntry.meta (rq_entry rq))) k e = true) as Hrest.
    { intros k e Hne Hke. destruct (Hothers k Hne) as [Hgone Hkept].
      destruct (decide (k ∈ ec_key <$> cs)) as [Hin|Hin]; [right|left; by rewrite Hkept].
      split; [by apply Hgone|]. apply list_elem_of_fmap in Hin as (cand & -> & Hin).
      destruct Hp as (post & Heq & _).
      assert (cand ∈ cs ++ post) as Hin' by (apply elem_of_app; by left).
      rewrite <-Heq in Hin'. apply eligible_victims_spec in Hin' as (s1 & Hs1 & _ & Hel).
      congruence. }
    destruct (r_entries self1 !! rq_key rq); (split_and!; [done|done| |]);
      try (exists e0; split; [done|rewrite Hse; apply represents_taken]);
      intros k e Hne [Hke Hlive]; eauto.
Qed.

(** Evictions are the oldest of the lowest priority, and as few as
    possible. When a write evicts, the victims are a prefix of the eligible
    entries ordered by priority rank and then by last access, so no surviving
    eligible entry has a lower rank, or the same rank and an earlier access,
    than a victim; and without the last victim the candidate would not fit. *)
Theorem evictions_oldest_first {V} (s : Retention V) (key : string) (w : Z)
    (priority : Priority) (victims : list string) :
  plan s key w priority = Ok victims →
  (∀ v k ev ek, v ∈ victims → k ∉ victims →
     r_entries s !! v = Some ev → r_entries s !! k = Some ek →
     eligible key priority k ek = true →
     older (candidate v ev) (candidate k ek)) ∧
  (∀ v, v ∈ victims → ∃ ev, r_entries s !! v = Some ev ∧ eligible key priority v ev = true) ∧
  (victims = [] ∨ ∃ pre last, last ∈ eligible_victims s key priority ∧
     victims = (ec_key <$> pre) ++ [ec_key last] ∧
     projected_fits (r_limits s) (after_victims (projection s key w) pre) = false ∧
     projected_fits (r_limits s) (after_victims (projection s key w) (pre ++ [last])) = true).
Proof.
  intros (cs & post & -> & Heq & Hfit & Hmin)%plan_ok.
  destruct (eligible_victims_spec s key priority) as (Hnd & Hsorted & Hel).
  assert (∀ v, v ∈ ec_key <$> cs → ∃ c, c ∈ cs ∧ v = ec_key c ∧ ∃ ev,
    r_entries s !! v = Some ev ∧ c = candidate v ev ∧ eligible key priority v ev = true) as Hv.
  { intros v (c & -> & Hc)%list_elem_of_fmap.
    assert (c ∈ cs ++ post) as Hc' by (apply elem_of_app; by left).
    rewrite <-Heq in Hc'. apply Hel in Hc' as (ev & ? & ? & ?). eauto 8. }
  split_and!.
  - intros v k ev ek Hin Hnin Hev Hek Hk.
    destruct (Hv v Hin) as (c & Hc & _ & ev' & Hev' & -> & _).
    rewrite Hev in Hev'. injection Hev' as <-.
    assert (candidate k ek ∈ eligible_victims s key priority) as Hkin
      by (apply Hel; by exists ek).
    rewrite Heq in Hkin, Hsorted. apply elem_of_app in Hkin as [Hkin|Hkin].
    + destruct Hnin. apply list_elem_of_fmap. by exists (candidate k ek).
    + by eapply strongly_sorted_app.
  - intros v Hin. destruct (Hv v Hin) as (_ & _ & _ & ev & ? & _ & ?). eauto.
  - destruct Hmin as [->|(pre & last & -> & Hnot)]; [by left|]. right.
    exists pre, last. split_and!; [|by rewrite fmap_app|done|done].
    rewrite Heq. apply elem_of_app. left. apply elem_of_app. right. apply list_elem_of_here.
Qed.

Definition sample_two : Retention nat :=
  (insert (λ _, 0) ∅ sample_store (sample_request "b" 3 Low)).1.1.2.

Lemma evictions_oldest_first_witness :
  match r_entries sample_two !! "a"%string, r_entries sample_two !! "b"%string with
  | Some ea, Some eb => older (candidate "a" ea) (candidate "b" eb)
  | _, _ => False
  end.
Proof.
  assert (plan sample_two "c" 5 Normal = Ok ["a"%string]) as Hp by (vm_compute; reflexivity).
  destruct (r_entries sample_two !! "a"%string) as [ea|] eqn:Ha; [|by vm_compute in Ha].
  destruct (r_entries sample_two !! "b"%string) as [eb|] eqn:Hb; [|by vm_compute in Hb].
  destruct (evictions_oldest_first sample_two "c" 5 Normal ["a"%string] Hp) as (H & _).
  apply (H "a"%string "b"%string ea eb); [apply list_elem_of_here| |exact Ha|exact Hb|].
  - intros Hin%list_elem_of_singleton. discriminate.
  - vm_compute in Hb. injection Hb as <-. reflexivity.
Defined.
