(* ===== verification/Readers.v ===== *)
(** * The reader slots of a shard

    Models [src/src/reader_slots.rs]: the reader/writer lock of the sharded memory
    store. A reader publishes a count in a slot, then checks the writer gate; a
    writer closes the gate, then scans the counts of the slots that were ever
    used. A step is one atomic access, a mutex operation or a wait. The accesses
    of the admission handshakes are sequentially consistent in the source, which
    is the single total order of the steps; the others are owner-only or under a
    mutex. Counters are unbounded: [checked_add] panics where [usize] ends. *)
From S2P Require Import Prelude.

Module Readers.
(** The slots of one bitmap word. *)
Definition WIDTH : Z := 64.

(** Which of a slot's two counts. *)
Inductive Count := Local | Shared.
#[export] Instance Count_eq_dec : EqDecision Count.
Proof. solve_decision. Defined.

Record Slot := mkSlot { owner : Z; local : Z; shared : Z }.
#[export] Instance eta_Slot : Eta Slot := λ s, mkSlot (owner s) (local s) (shared s).

(** One [Reservation]; [admitted]: it has become a [ReadGuard]. *)
Record Hold := mkHold { hold_thread : nat; position : Z; counted : Count; admitted : bool }.
#[export] Instance eta_Hold : Eta Hold := λ h, mkHold (hold_thread h) (position h) (counted h) (admitted h).

(** What a thread is doing.

    - [NewReader]: [reader_index]; [LoadOwner] to [AddShared]: [reserve];
    - [CheckGate] to [SubWaiting]: [read] and [wait_for_writer], with the release
      of a reservation that met a closed gate ([again]) or of a guard;
    - [LockSerial] to [ScanSlot]: [write] and [try_write] ([try_]), with [idle];
      of a bitmap word [used] are left the set bits, lowest first;
    - [OpenGate] to [Unlock]: the drop of a [WriterHold]. *)
Inductive Pc :=
| Idle
| NewReader
| LoadOwner | Publish | ClaimOwner | LoadLocal | StoreLocal (count : Z) | AddShared
| CheckGate (h : nat)
| LoadDown (h : nat) (again : bool) | StoreDown (h : nat) (count : Z) (again : bool) | SubShared (h : nat) (again : bool)
| AddWaiting | LockWaiters | LoopGate | Park | Parked | Relock | SubWaiting
| LockSerial (try_ : bool) | CloseGate (try_ : bool)
| ScanGroup (try_ : bool) (g : Z) | ScanSlot (try_ : bool) (g : Z) (used : list Z) (c : Count)
| Writing
| OpenGate | LoadWaiting | LockNotify | Notify | Unnotify | Unlock.

Record Thread := mkThread { reader : option Z; pc : Pc }.
#[export] Instance eta_Thread : Eta Thread := λ t, mkThread (reader t) (pc t).

Record World := mkWorld {
  next_reader : Z;
  slots : gmap Z Slot;
  initialized : gmap Z Z;
  gate : bool;
  serial : option nat;
  mutex : option nat;
  waiting : Z;
  threads : gmap nat Thread;
  next_hold : nat;
  holds : gmap nat Hold;
}.
#[export] Instance eta_World : Eta World := λ w,
  mkWorld (next_reader w) (slots w) (initialized w) (gate w) (serial w) (mutex w) (waiting w) (threads w)
    (next_hold w) (holds w).

Definition slot_at (w : World) (i : Z) : Slot := default (mkSlot 0 0 0) (slots w !! i).
Definition thread_at (w : World) (t : nat) : Thread := default (mkThread None Idle) (threads w !! t).
Definition pc_at (w : World) (t : nat) : Pc := pc (thread_at w t).
Definition bits_at (w : World) (g : Z) : Z := default 0 (initialized w !! g).
Definition count (w : World) (i : Z) (c : Count) : Z :=
  match c with Local => local (slot_at w i) | Shared => shared (slot_at w i) end.

Definition goto (t : nat) (p : Pc) (w : World) : World :=
  w <| threads := <[t := thread_at w t <| pc := p |>]> (threads w) |>.
Definition set_owner (i v : Z) (w : World) : World :=
  w <| slots := <[i := slot_at w i <| owner := v |>]> (slots w) |>.
Definition set_count (i : Z) (c : Count) (v : Z) (w : World) : World :=
  w <| slots := <[i := match c with
                      | Local => slot_at w i <| local := v |>
                      | Shared => slot_at w i <| shared := v |>
                      end]> (slots w) |>.
Definition put_hold (h : nat) (a : Hold) (w : World) : World := w <| holds := <[h := a]> (holds w) |>.
Definition drop_hold (h : nat) (w : World) : World := w <| holds := delete h (holds w) |>.

Section slots.
(** [slots.len()] is [2 ^ size]. *)
Context (size : Z).
Definition slot_count : Z := 2 ^ size.
Definition position_of (reader : Z) : Z := Z.land reader (slot_count - 1).
Definition identity (reader : Z) : Z := reader + 1.
Definition groups : Z := (slot_count + WIDTH - 1) / WIDTH.

(** [initialized.fetch_or(1 << (index % width))] of the group's word. *)
Definition publish_bit (i : Z) (w : World) : World :=
  w <| initialized := <[i / WIDTH := Z.lor (bits_at w (i / WIDTH)) (Z.shiftl 1 (i mod WIDTH))]> (initialized w) |>.
(** The set bits of a word, lowest first: what [trailing_zeros] and
    [used &= used - 1] enumerate. *)
Definition set_bits (v : Z) : list Z := filter (λ b, Z.testbit v b = true) (seqZ 0 WIDTH).

(** The reservation thread [t] has just counted; the gate is checked next. *)
Definition reserve (t : nat) (i : Z) (c : Count) (n : Z) (w : World) : World :=
  goto t (CheckGate (next_hold w))
    (put_hold (next_hold w) (mkHold t i c false) (set_count i c n w) <| next_hold := S (next_hold w) |>).
Definition release (a : Hold) (h : nat) (again : bool) : Pc :=
  match counted a with Local => LoadDown h again | Shared => SubShared h again end.
(** After a release: wait for the writer, or be done. *)
Definition released (again : bool) : Pc := if again then AddWaiting else Idle.

(** The scan goes on with the next slot, the next group, or succeeds. *)
Definition scan_from (try_ : bool) (g : Z) (used : list Z) : Pc :=
  match used with
  | [] => if g + 1 <? groups then ScanGroup try_ (g + 1) else Writing
  | _ => ScanSlot try_ g used Local
  end.
(** [notify_all]. *)
Definition wake (p : Pc) : Pc := match p with Parked => Relock | p => p end.
Definition notify_all (w : World) : World := w <| threads := (λ t, t <| pc := wake (pc t) |>) <$> threads w |>.

Definition run_step (t : nat) (w : World) : option World :=
  match pc_at w t, reader (thread_at w t) with
  | NewReader, None =>
      let r := next_reader w in
      Some (w <| next_reader := r + 1 |> <| threads := <[t := mkThread (Some r) LoadOwner]> (threads w) |>)
  | LoadOwner, Some r =>
      let o := owner (slot_at w (position_of r)) in
      Some (goto t (if o =? 0 then Publish else if o =? identity r then LoadLocal else AddShared) w)
  | Publish, Some r => Some (goto t ClaimOwner (publish_bit (position_of r) w))
  | ClaimOwner, Some r =>
      Some (if owner (slot_at w (position_of r)) =? 0
            then goto t LoadLocal (set_owner (position_of r) (identity r) w) else goto t AddShared w)
  | LoadLocal, Some r => Some (goto t (StoreLocal (count w (position_of r) Local)) w)
  | StoreLocal n, Some r => Some (reserve t (position_of r) Local (n + 1) w)
  | AddShared, Some r => Some (reserve t (position_of r) Shared (count w (position_of r) Shared + 1) w)
  | CheckGate h, _ =>
      a ← holds w !! h;
      Some (if gate w then goto t (release a h true) w else goto t Idle (put_hold h (a <| admitted := true |>) w))
  | LoadDown h again, _ => a ← holds w !! h; Some (goto t (StoreDown h (count w (position a) Local) again) w)
  | StoreDown h n again, _ =>
      a ← holds w !! h;
      Some (goto t (released again) (drop_hold h (set_count (position a) Local (n - 1) w)))
  | SubShared h again, _ =>
      a ← holds w !! h;
      Some (goto t (released again) (drop_hold h (set_count (position a) Shared (count w (position a) Shared - 1) w)))
  (* wait_for_writer *)
  | AddWaiting, _ => Some (goto t LockWaiters (w <| waiting := waiting w + 1 |>))
  | LockWaiters, _ | Relock, _ =>
      match mutex w with None => Some (goto t LoopGate (w <| mutex := Some t |>)) | Some _ => None end
  | LoopGate, _ => Some (if gate w then goto t Park w else goto t SubWaiting (w <| mutex := None |>))
  | Park, _ => Some (goto t Parked (w <| mutex := None |>))
  | SubWaiting, _ => Some (goto t LoadOwner (w <| waiting := waiting w - 1 |>))
  (* write, try_write *)
  | LockSerial try_, _ =>
      match serial w with
      | None => Some (goto t (CloseGate try_) (w <| serial := Some t |>))
      | Some _ => if try_ : bool then Some (goto t Idle w) else None
      end
  | CloseGate try_, _ => Some (goto t (ScanGroup try_ 0) (w <| gate := true |>))
  | ScanGroup try_ g, _ => Some (goto t (scan_from try_ g (set_bits (bits_at w g))) w)
  | ScanSlot try_ g (b :: used) c, _ =>
      Some (goto t (if count w (g * WIDTH + b) c =? 0 then
                      match c with Local => ScanSlot try_ g (b :: used) Shared | Shared => scan_from try_ g used end
                    else if try_ then OpenGate else ScanGroup try_ 0) w)
  (* the drop of the writer's hold *)
  | OpenGate, _ => Some (goto t LoadWaiting (w <| gate := false |>))
  | LoadWaiting, _ => Some (goto t (if waiting w =? 0 then Unlock else LockNotify) w)
  | LockNotify, _ =>
      match mutex w with None => Some (goto t Notify (w <| mutex := Some t |>)) | Some _ => None end
  | Notify, _ => Some (goto t Unnotify (notify_all w))
  | Unnotify, _ => Some (goto t Unlock (w <| mutex := None |>))
  | Unlock, _ => Some (goto t Idle (w <| serial := None |>))
  | _, _ => None
  end.

(** What the environment does: an idle thread reads, drops one of its guards,
    writes or tries to; a writer drops its guard; a thread goes on. *)
Inductive Label := Read (t : nat) | DropGuard (t h : nat) | Write (t : nat) (try_ : bool) | DropWrite (t : nat) | Run (t : nat).

Definition step (w : World) (l : Label) : option World :=
  match l with
  | Read t =>
      match pc_at w t with
      | Idle => Some (goto t (match reader (thread_at w t) with None => NewReader | Some _ => LoadOwner end) w)
      | _ => None
      end
  | DropGuard t h =>
      a ← holds w !! h;
      match pc_at w t with
      | Idle => if decide (hold_thread a = t ∧ admitted a = true) then Some (goto t (release a h false) w) else None
      | _ => None
      end
  | Write t try_ => match pc_at w t with Idle => Some (goto t (LockSerial try_) w) | _ => None end
  | DropWrite t => match pc_at w t with Writing => Some (goto t OpenGate w) | _ => None end
  | Run t => run_step t w
  end.
Definition initial : World := mkWorld 0 ∅ ∅ false None None 0 ∅ O ∅.
Fixpoint execute (w : World) (ls : list Label) : option World :=
  match ls with [] => Some w | l :: ls => w' ← step w l; execute w' ls end.
End slots.
End Readers.

(** ** The accounting *)
Module ReadersInv.
Import Readers.
Section inv.
Context (size : Z).
Local Abbreviation position_of := (position_of size).
Local Abbreviation slot_count := (slot_count size).

Definition at_counter (i : Z) (c : Count) (a : Hold) : Z :=
  if decide (position a = i ∧ counted a = c) then 1 else 0.
Definition tally (w : World) (i : Z) (c : Count) : Z := msum (at_counter i c) (holds w).
(** The slot is in the bitmap of used slots. *)
Definition used (w : World) (i : Z) : Prop := Z.testbit (bits_at w (i / WIDTH)) (i mod WIDTH) = true.
Definition owns (w : World) (t : nat) (i : Z) : Prop :=
  ∃ r, reader (thread_at w t) = Some r ∧ position_of r = i ∧ owner (slot_at w i) = identity r.
Definition holding (w : World) (t h : nat) (a : Hold) : Prop := holds w !! h = Some a ∧ hold_thread a = t.

(** What a thread at [p] relies on. *)
Definition pc_ok (w : World) (t : nat) (p : Pc) : Prop :=
  match p with
  | ClaimOwner | AddShared => ∃ r, reader (thread_at w t) = Some r ∧ used w (position_of r)
  | LoadLocal => ∃ i, owns w t i
  | StoreLocal n => ∃ i, owns w t i ∧ n = count w i Local
  | CheckGate h => ∃ a, holding w t h a
  | LoadDown h _ => ∃ a, holding w t h a ∧ counted a = Local
  | StoreDown h n _ => ∃ a, holding w t h a ∧ counted a = Local ∧ n = count w (position a) Local
  | SubShared h _ => ∃ a, holding w t h a ∧ counted a = Shared
  | _ => True
  end.
Definition hold_ok (w : World) (h : nat) (a : Hold) : Prop :=
  (h < next_hold w)%nat ∧ 0 ≤ position a < slot_count ∧ used w (position a) ∧
  (counted a = Local → owns w (hold_thread a) (position a)).
Definition readers_ok (w : World) : Prop :=
  0 ≤ next_reader w ∧
  (∀ t r, reader (thread_at w t) = Some r → 0 ≤ r < next_reader w) ∧
  (∀ t t' r, reader (thread_at w t) = Some r → reader (thread_at w t') = Some r → t = t').

Definition inv_but (w : World) (t : nat) : Prop :=
  readers_ok w ∧ (∀ t', t' ≠ t → pc_ok w t' (pc_at w t')) ∧
  (∀ h a, holds w !! h = Some a → hold_ok w h a) ∧
  (∀ i, owner (slot_at w i) ≠ 0 → used w i) ∧
  (∀ i c, count w i c = tally w i c).
Definition inv (w : World) : Prop := ∀ t, inv_but w t ∧ pc_ok w t (pc_at w t).

Lemma readers_position_range (Hsize : 0 ≤ size) r : 0 ≤ r → 0 ≤ position_of r < slot_count.
Proof.
  intros Hr. unfold Readers.position_of, Readers.slot_count. rewrite Z.sub_1_r, <- Z.ones_equiv, Z.land_ones by done.
  apply Z.mod_pos_bound. by apply Z.pow_pos_nonneg.
Qed.

Lemma readers_thread_at_insert (m : gmap nat Thread) t x t' :
  default (mkThread None Idle) (<[t := x]> m !! t') =
  if decide (t = t') then x else default (mkThread None Idle) (m !! t').
Proof. case_decide; [subst; by rewrite lookup_insert_eq|by rewrite lookup_insert_ne]. Qed.
Lemma readers_thread_at_goto t p w t' :
  thread_at (goto t p w) t' = if decide (t = t') then thread_at w t <| pc := p |> else thread_at w t'.
Proof. unfold thread_at at 1, goto. simpl. by rewrite readers_thread_at_insert. Qed.
Lemma pc_at_goto t p w t' : pc_at (goto t p w) t' = if decide (t = t') then p else pc_at w t'.
Proof. unfold pc_at. rewrite readers_thread_at_goto. by case_decide. Qed.
Lemma reader_goto t p w t' : reader (thread_at (goto t p w) t') = reader (thread_at w t').
Proof. rewrite readers_thread_at_goto. case_decide; by subst. Qed.
Lemma slot_at_insert (m : gmap Z Slot) i x j :
  default (mkSlot 0 0 0) (<[i := x]> m !! j) = if decide (i = j) then x else default (mkSlot 0 0 0) (m !! j).
Proof. case_decide; [subst; by rewrite lookup_insert_eq|by rewrite lookup_insert_ne]. Qed.
Lemma readers_owner_set_count i c v w j : owner (slot_at (set_count i c v w) j) = owner (slot_at w j).
Proof. unfold slot_at at 1, set_count. simpl. rewrite slot_at_insert. case_decide; [subst|done]. by destruct c. Qed.
Lemma readers_count_set_count i c v w j d :
  count (set_count i c v w) j d = if decide (i = j ∧ c = d) then v else count w j d.
Proof. unfold count at 1, slot_at, set_count. simpl. rewrite slot_at_insert. destruct c, d; repeat case_decide; naive_solver. Qed.
Lemma readers_count_set_owner i v w j d : count (set_owner i v w) j d = count w j d.
Proof. unfold count at 1, slot_at, set_owner. simpl. rewrite slot_at_insert. destruct d; case_decide; by subst. Qed.
Lemma readers_owner_set_owner i v w j :
  owner (slot_at (set_owner i v w) j) = if decide (i = j) then v else owner (slot_at w j).
Proof. unfold slot_at at 1, set_owner. simpl. rewrite slot_at_insert. by case_decide. Qed.

(** Only one thread may write the local count of a slot. *)
Lemma readers_owns_unique w t t' i : readers_ok w → owns w t i → owns w t' i → t = t'.
Proof. intros (_ & _ & Hu) (r & H1 & _ & E) (r' & H2 & _ & E'). unfold identity in *. assert (r = r') as -> by lia. eauto. Qed.

(** *** Preservation, change by change *)
Lemma readers_owns_goto t p w t' i : owns (goto t p w) t' i ↔ owns w t' i.
Proof. unfold owns. setoid_rewrite reader_goto. done. Qed.
Lemma readers_pc_ok_goto t p w t' q : pc_ok (goto t p w) t' q ↔ pc_ok w t' q.
Proof. destruct q; simpl; try done; try (by setoid_rewrite readers_owns_goto); by setoid_rewrite reader_goto. Qed.
Lemma readers_hold_ok_goto t p w h a : hold_ok (goto t p w) h a ↔ hold_ok w h a.
Proof. unfold hold_ok. by rewrite readers_owns_goto. Qed.
Lemma readers_inv_goto w t p : inv_but w t → pc_ok w t p → inv (goto t p w).
Proof.
  intros (Ht & Hp & Hh & Hu & Hc) Hok.
  assert (∀ t', pc_ok (goto t p w) t' (pc_at (goto t p w) t')) as Hpc.
  { intros t'. rewrite readers_pc_ok_goto, pc_at_goto. case_decide; [by subst|by apply Hp]. }
  intros t'. split; [|done]. split_and!; [|done| |done|done].
  - unfold readers_ok. setoid_rewrite reader_goto. done.
  - intros h a Ha. by apply readers_hold_ok_goto, Hh.
Qed.

(** A write of a count by a thread entitled to it disturbs no pending write. *)
Lemma readers_count_other w t i c n t' j :
  readers_ok w → (c = Local → owns w t i) → t' ≠ t → owns w t' j →
  count (set_count i c n w) j Local = count w j Local.
Proof.
  intros Ht Hl Hne Hj. rewrite readers_count_set_count. case_decide as E; [|done].
  destruct E as [<- ->]. destruct Hne. by eapply readers_owns_unique, Hl.
Qed.
Lemma readers_owns_set_count i c n w t j : owns (set_count i c n w) t j ↔ owns w t j.
Proof. unfold owns. by setoid_rewrite readers_owner_set_count. Qed.

(** The count of slot [i] is written to [n]; the holds become [hs], of which the
    other threads' are kept. *)
Lemma inv_count w t i c n nh hs :
  inv_but w t → (c = Local → owns w t i) → (next_hold w ≤ nh)%nat →
  (∀ h a, holds w !! h = Some a → hold_thread a ≠ t → hs !! h = Some a) →
  (∀ h a, hs !! h = Some a → (h < nh)%nat ∧ 0 ≤ position a < slot_count ∧ used w (position a) ∧
     (counted a = Local → owns w (hold_thread a) (position a))) →
  (∀ j d, msum (at_counter j d) hs = if decide (i = j ∧ c = d) then n else tally w j d) →
  inv_but (set_count i c n w <| holds := hs |> <| next_hold := nh |>) t.
Proof.
  intros (Ht & Hp & Hh & Hu & Hc) Hl Hnh Hkeep Hnew Hsum. set (w' := fset next_hold _ _).
  assert (∀ t' j, owns w' t' j ↔ owns w t' j) as Ho by apply readers_owns_set_count.
  assert (∀ t' j, t' ≠ t → owns w t' j → count w' j Local = count w j Local) as Hcnt by (intros; by eapply readers_count_other).
  assert (∀ t' h a, t' ≠ t → holding w t' h a → holding w' t' h a) as Hhold.
  { intros t' h a Hne [Ha <-]. split; [|done]. by apply Hkeep. }
  split_and!; [done| | | |].
  - intros t' Hne. specialize (Hp t' Hne). change (pc_at w' t') with (pc_at w t').
    destruct (pc_at w t') eqn:Hpc; simpl in *; try done; try exact Hp.
    + destruct Hp as [j Hj]. exists j. by apply Ho.
    + destruct Hp as (j & Hj & ->). exists j. split; [by apply Ho|]. symmetry. by apply (Hcnt t').
    + destruct Hp as [a ?]. exists a. auto.
    + destruct Hp as (a & ? & ?). exists a. auto.
    + destruct Hp as (a & Hha & Hloc & ->). exists a. split_and!; [auto|done|].
      destruct Hha as [Ha <-]. destruct (Hh _ _ Ha) as (_ & _ & _ & Hb). symmetry. apply (Hcnt (hold_thread a)); [done|by apply Hb].
    + destruct Hp as (a & ? & ?). exists a. auto.
  - intros h a Ha. destruct (Hnew h a Ha) as (? & ? & ? & Hb). split; [done|]. split; [done|]. split; [done|]. intros Hloc. by apply Ho, Hb.
  - intros j. change (slot_at w' j) with (slot_at (set_count i c n w) j). rewrite readers_owner_set_count. apply Hu.
  - intros j d. change (count w' j d) with (count (set_count i c n w) j d). unfold tally. simpl.
    rewrite Hsum, readers_count_set_count. by case_decide.
Qed.

Lemma tally_put w h a j d :
  holds w !! h = None → msum (at_counter j d) (<[h := a]> (holds w)) = tally w j d + at_counter j d a.
Proof. intros Hn. rewrite msum_insert by done. unfold tally. lia. Qed.
Lemma readers_inv_reserve w t i c :
  inv_but w t → 0 ≤ i < slot_count → used w i → (c = Local → owns w t i) →
  inv_but (put_hold (next_hold w) (mkHold t i c false) (set_count i c (count w i c + 1) w) <| next_hold := S (next_hold w) |>) t
  ∧ holds w !! next_hold w = None.
Proof.
  intros Hb Hi Hbit Hl. destruct Hb as (Ht & Hp & Hh & Hu & Hc).
  assert (holds w !! next_hold w = None) as Hfresh.
  { destruct (holds w !! next_hold w) as [a|] eqn:E; [|done]. destruct (Hh _ _ E). lia. }
  split; [|done]. apply (inv_count w t i c _ (S (next_hold w)) (<[next_hold w := mkHold t i c false]> (holds w))); [done|done|lia|..].
  - intros h a Ha _. rewrite lookup_insert_ne; [done|]. intros <-. congruence.
  - intros h a. rewrite lookup_insert_Some. intros [[<- <-]|[Hne Ha]]; simpl; [split_and!; auto; lia|].
    destruct (Hh _ _ Ha) as (? & ? & ? & ?). split; [lia|done].
  - intros j d. rewrite tally_put by done. rewrite Hc. unfold at_counter. simpl. repeat case_decide; naive_solver lia.
Qed.
Lemma readers_inv_release w t h a :
  inv_but w t → holding w t h a →
  inv_but (drop_hold h (set_count (position a) (counted a) (count w (position a) (counted a) - 1) w)) t.
Proof.
  intros Hb [Ha Hth]. destruct Hb as (Ht & Hp & Hh & Hu & Hc). destruct (Hh _ _ Ha) as (_ & _ & _ & Hl).
  apply (inv_count w t _ _ _ (next_hold w) (delete h (holds w))); [done|by rewrite <- Hth|lia|..].
  - intros h' a' Ha' Hne. rewrite lookup_delete_ne; [done|]. intros <-. congruence.
  - intros h' a' [_ Ha']%lookup_delete_Some. by destruct (Hh _ _ Ha') as (? & ? & ? & ?).
  - intros j d. rewrite (msum_delete _ _ _ a) by done. fold (tally w j d). rewrite Hc. unfold at_counter.
    repeat case_decide; naive_solver lia.
Qed.

(** The other changes leave counts, owners and the holds' counters; they may set
    bits of the bitmap and wake parked threads. *)
Definition alike (w w' : World) : Prop :=
  next_reader w' = next_reader w ∧ next_hold w' = next_hold w ∧
  (∀ t, reader (thread_at w' t) = reader (thread_at w t)) ∧
  (∀ i, slot_at w' i = slot_at w i) ∧
  (∀ i, used w i → used w' i) ∧
  (∀ h, (λ a, (hold_thread a, position a, counted a)) <$> holds w' !! h =
        (λ a, (hold_thread a, position a, counted a)) <$> holds w !! h).
Lemma alike_hold w w' h a :
  alike w w' → holds w !! h = Some a →
  ∃ a', holds w' !! h = Some a' ∧ hold_thread a' = hold_thread a ∧ position a' = position a ∧ counted a' = counted a.
Proof.
  intros (_ & _ & _ & _ & _ & H) Ha. specialize (H h). rewrite Ha in H.
  destruct (holds w' !! h) as [a'|]; simplify_eq/=. eauto.
Qed.
Lemma alike_back w w' h a' :
  alike w w' → holds w' !! h = Some a' →
  ∃ a, holds w !! h = Some a ∧ hold_thread a' = hold_thread a ∧ position a' = position a ∧ counted a' = counted a.
Proof.
  intros (_ & _ & _ & _ & _ & H) Ha. specialize (H h). rewrite Ha in H.
  destruct (holds w !! h) as [a|]; simplify_eq/=. eauto.
Qed.
Lemma alike_owns w w' t i : alike w w' → owns w' t i ↔ owns w t i.
Proof. intros (_ & _ & Hr & Hs & _). unfold owns. setoid_rewrite Hr. by rewrite Hs. Qed.
Lemma alike_count w w' i c : alike w w' → count w' i c = count w i c.
Proof. intros (_ & _ & _ & Hs & _). unfold count. by rewrite Hs. Qed.
Lemma alike_tally w w' i c : alike w w' → tally w' i c = tally w i c.
Proof.
  intros (_ & _ & _ & _ & _ & H). unfold tally.
  set (f := λ x : nat * Z * Count, if decide (x.1.2 = i ∧ x.2 = c) then 1 else 0).
  set (g := λ a, (hold_thread a, position a, counted a)) in *.
  transitivity (msum f (g <$> holds w')); [rewrite msum_fmap; by apply msum_ext|].
  transitivity (msum f (g <$> holds w)); [|rewrite msum_fmap; by apply msum_ext].
  f_equal. apply map_eq. intros h. rewrite !lookup_fmap. apply H.
Qed.
Lemma pc_ok_alike w w' t p : alike w w' → pc_ok w t p → pc_ok w' t p.
Proof.
  intros H. pose proof H as (_ & _ & Hr & _ & Hu & _). assert (∀ i, owns w t i → owns w' t i) as Ho by (intros i; by apply alike_owns).
  assert (∀ h a, holding w t h a → ∃ a', holding w' t h a' ∧ position a' = position a ∧ counted a' = counted a) as Hh.
  { intros h a [Ha Hth]. destruct (alike_hold _ _ _ _ H Ha) as (a' & ? & ? & ? & ?). exists a'. split_and!; [split; congruence|done|done]. }
  destruct p; simpl; try done.
  - rewrite Hr. intros (r & ? & ?). exists r. auto.
  - intros (i & ?). exists i. auto.
  - intros (i & ? & ->). exists i. split; [auto|]. symmetry. exact (alike_count _ _ i Local H).
  - rewrite Hr. intros (r & ? & ?). exists r. auto.
  - intros (a & (a' & ? & ?)%Hh). by exists a'.
  - intros (a & (a' & ? & ? & ?)%Hh & ?). exists a'. split; [done|congruence].
  - intros (a & (a' & ? & E & ?)%Hh & ? & ->). exists a'. split; [done|]. split; [congruence|]. rewrite E. symmetry. exact (alike_count _ _ _ Local H).
  - intros (a & (a' & ? & ? & ?)%Hh & ?). exists a'. split; [done|congruence].
Qed.
Lemma inv_alike w w' t :
  inv_but w t → alike w w' → (∀ t', t' ≠ t → pc_at w' t' = pc_at w t' ∨ pc_at w' t' = Relock) → inv_but w' t.
Proof.
  intros (Ht & Hp & Hh & Hu & Hc) H Hpcs. pose proof H as (H1 & H2 & H3 & H4 & H5 & _). split_and!.
  - unfold readers_ok. setoid_rewrite H3. by rewrite H1.
  - intros t' Hne. destruct (Hpcs t' Hne) as [-> | ->]; [|done]. eapply pc_ok_alike; eauto.
  - intros h a' (a & Ha & E1 & E2 & E3)%(alike_back _ _ _ _ H). destruct (Hh _ _ Ha) as (? & ? & ? & Hb).
    unfold hold_ok. rewrite H2, E1, E2, E3. split_and!; [done|lia|lia|auto|]. intros Hl. apply (alike_owns w w'); auto.
  - intros i. rewrite H4. auto.
  - intros i c. rewrite (alike_count _ _ _ _ H), (alike_tally _ _ _ _ H). done.
Qed.

(** [Publish] *)
Lemma used_publish w i j : 0 ≤ i → used (publish_bit i w) j ↔ i = j ∨ used w j.
Proof.
  intros Hi. unfold used. assert (bits_at (publish_bit i w) (j / WIDTH) =
    if decide (i / WIDTH = j / WIDTH) then Z.lor (bits_at w (i / WIDTH)) (Z.shiftl 1 (i mod WIDTH)) else bits_at w (j / WIDTH)) as ->.
  { unfold bits_at at 1. simpl. case_decide as E; [by rewrite E, lookup_insert_eq|by rewrite lookup_insert_ne]. }
  unfold WIDTH. case_decide as E; [|naive_solver].
  rewrite Z.lor_spec, E. rewrite Z.shiftl_1_l, Z.pow2_bits_eqb by (apply Z.mod_pos_bound; lia).
  rewrite orb_true_iff, Z.eqb_eq. pose proof (Z.div_mod i 64). pose proof (Z.div_mod j 64).
  split; [intros [?|?]; [auto|left; lia]|intros [<-|?]; auto].
Qed.
Lemma readers_inv_publish w t i : 0 ≤ i → inv_but w t → inv_but (publish_bit i w) t.
Proof.
  intros Hi H. eapply inv_alike; [done| |by left]. split_and!; try done. intros j. rewrite used_publish by done. auto.
Qed.

(** [ClaimOwner] *)
Lemma readers_owns_claim w t r t' i :
  readers_ok w → reader (thread_at w t) = Some r → owner (slot_at w (position_of r)) = 0 →
  owns w t' i → owns (set_owner (position_of r) (identity r) w) t' i.
Proof.
  intros (_ & Hr & _) Hme H0 (r' & ? & ? & E). exists r'. split; [done|]. split; [done|].
  rewrite readers_owner_set_owner. case_decide; [|done]. destruct (Hr t' r'); [done|]. unfold identity in *.
  assert (r' + 1 = 0) by congruence. lia.
Qed.
Lemma readers_inv_claim w t r :
  inv_but w t → reader (thread_at w t) = Some r → owner (slot_at w (position_of r)) = 0 → used w (position_of r) →
  inv_but (set_owner (position_of r) (identity r) w) t ∧ owns (set_owner (position_of r) (identity r) w) t (position_of r).
Proof.
  intros (Ht & Hp & Hh & Hu & Hc) Hme H0 Hbit. set (w' := set_owner _ _ w).
  assert (∀ t' i, owns w t' i → owns w' t' i) as Ho by (intros; by eapply readers_owns_claim).
  split; [split_and!|].
  - done.
  - intros t' Hne. specialize (Hp t' Hne). change (pc_at w' t') with (pc_at w t').
    destruct (pc_at w t'); simpl in *; try done.
    + destruct Hp as (i & ?). exists i. auto.
    + destruct Hp as (i & ? & ->). exists i. split; [auto|]. symmetry. apply (readers_count_set_owner _ _ _ _ Local).
    + destruct Hp as (a & ? & ? & ->). exists a. split; [done|]. split; [done|]. symmetry. apply (readers_count_set_owner _ _ _ _ Local).
  - intros h a Ha. destruct (Hh _ _ Ha) as (? & ? & ? & Hb). split_and!; [done|lia|lia|done|auto].
  - intros i. change (owner (slot_at w' i) ≠ 0 → used w i). unfold w'. rewrite readers_owner_set_owner. case_decide; [by subst|apply Hu].
  - intros i c. change (count w' i c = tally w i c). unfold w'. rewrite readers_count_set_owner. apply Hc.
  - exists r. split; [done|]. split; [done|]. unfold w'. rewrite readers_owner_set_owner. by rewrite decide_True.
Qed.

(** [NewReader] *)
Lemma inv_new_reader w t :
  inv_but w t → reader (thread_at w t) = None →
  inv (w <| next_reader := next_reader w + 1 |>
         <| threads := <[t := mkThread (Some (next_reader w)) LoadOwner]> (threads w) |>).
Proof.
  intros ((H1 & Hr & Hu) & Hp & Hh & Hb & Hc) Hnone. set (w' := fset threads _ _).
  assert (∀ t', thread_at w' t' = if decide (t = t') then mkThread (Some (next_reader w)) LoadOwner else thread_at w t') as Hth.
  { intros t'. unfold thread_at at 1, w'. simpl. by rewrite readers_thread_at_insert. }
  assert (∀ t' r, reader (thread_at w t') = Some r → reader (thread_at w' t') = Some r) as Hrd.
  { intros t' r E. rewrite Hth. case_decide; [congruence|done]. }
  assert (∀ t' i, owns w t' i → owns w' t' i) as Ho.
  { intros t' i (r & ? & ?). exists r. auto. }
  assert (∀ t' q, pc_ok w t' q → pc_ok w' t' q) as Hpcs.
  { intros t' []; simpl; try done; naive_solver. }
  assert (readers_ok w') as Hthr.
  { assert (next_reader w' = next_reader w + 1) as Hn by done. unfold readers_ok. rewrite Hn. setoid_rewrite Hth.
    split; [lia|]. split.
    - intros t' r. case_decide; [intros [= <-]; lia|]. intros ?%Hr. lia.
    - intros t1 t2 r. repeat case_decide; simpl; intros E1 E2; subst; try done; try (by eapply Hu).
      + apply Hr in E2. injection E1 as <-. lia.
      + apply Hr in E1. injection E2 as <-. lia. }
  assert (∀ t', pc_ok w' t' (pc_at w' t')) as Hall.
  { intros t'. unfold pc_at. rewrite Hth. case_decide; [done|]. apply Hpcs, Hp. congruence. }
  intros t'. split; [|done]. split; [done|]. split; [auto|]. split; [|done].
  intros h a Ha. destruct (Hh h a Ha) as (? & ? & ? & ?). split_and!; [done|lia|lia|done|auto].
Qed.

(** *** Preservation by the steps *)
Lemma thread_at_notify w t : thread_at (notify_all w) t = thread_at w t <| pc := wake (pc_at w t) |>.
Proof. unfold pc_at, thread_at, notify_all. simpl. rewrite lookup_fmap. by destruct (threads w !! t). Qed.
Lemma pc_at_notify w t : pc_at (notify_all w) t = wake (pc_at w t).
Proof. unfold pc_at at 1. by rewrite thread_at_notify. Qed.
Lemma alike_notify w : alike w (notify_all w).
Proof. split_and!; try done. intros t. by rewrite thread_at_notify. Qed.
Lemma alike_admit w h a :
  holds w !! h = Some a → alike w (put_hold h (a <| admitted := true |>) w).
Proof.
  intros Ha. split_and!; try done. intros h'. simpl. destruct (decide (h = h')) as [<-|].
  - by rewrite lookup_insert_eq, Ha.
  - by rewrite lookup_insert_ne.
Qed.

Lemma readers_inv_initial : 0 ≤ size → inv initial.
Proof.
  intros Hsize. assert (∀ t, thread_at initial t = mkThread None Idle) as Ht by done.
  assert (∀ i, slot_at initial i = mkSlot 0 0 0) as Hs by done.
  intros t. split; [|done]. split_and!.
  - unfold readers_ok. setoid_rewrite Ht. simpl. split; [lia|]. by split.
  - intros t' _. done.
  - intros h a Ha. simpl in Ha. by apply lookup_empty_Some in Ha.
  - intros i. by rewrite Hs.
  - intros i []; unfold tally; simpl; by rewrite msum_empty.
Qed.

Lemma readers_inv_same w w' t p : inv_but w t → alike w w' → threads w' = threads w → pc_ok w t p → inv (goto t p w').
Proof.
  intros Hb Ha Ht Hp. apply readers_inv_goto; [|by eapply pc_ok_alike]. eapply inv_alike; [done|done|].
  intros t' _. left. unfold pc_at, thread_at. by rewrite Ht.
Qed.
Ltac quiet := eapply readers_inv_same; [done|by split_and!|done|]; try done.

Lemma readers_inv_run_step (Hsize : 0 ≤ size) w t w' : inv w → run_step size t w = Some w' → inv w'.
Proof.
  intros Hi Hs. pose proof Hi as [Hbut Hme]%(λ H, H t). pose proof Hbut as ((Hn & Hr & _) & _ & Hh & Hu & _). unfold run_step in Hs.
  destruct (pc_at w t) eqn:Hpc; simpl in Hme, Hs; try done;
    try match type of Hs with context [reader ?x] => destruct (reader x) as [r|] eqn:Hrd; try done end;
    try solve [injection Hs as <-; apply readers_inv_goto; done];
    try solve [repeat (case_match; try done); injection Hs as <-; subst; first [apply readers_inv_goto; [done|]; unfold scan_from; by repeat case_match|quiet]];
    try solve [injection Hs as <-; apply readers_inv_goto; [|done]; eapply inv_alike; [done|apply alike_notify|];
      intros t' _; rewrite pc_at_notify; destruct (pc_at w t'); auto].
  - injection Hs as <-. by apply inv_new_reader.
  - injection Hs as <-. apply readers_inv_goto; [done|]. repeat case_match; bool_to_prop; simpl; try done.
    + by exists (position_of r), r.
    + exists r. split; [done|]. apply Hu. lia.
  - injection Hs as <-. assert (0 ≤ position_of r) by (apply readers_position_range; [done|]; by apply Hr in Hrd; lia).
    apply readers_inv_goto; [by apply readers_inv_publish|]. exists r. split; [done|]. apply used_publish; auto.
  - destruct Hme as (r' & E & Hbit). assert (r' = r) as -> by congruence.
    case_match eqn:E0; injection Hs as <-; [|apply readers_inv_goto; [done|by exists r]].
    destruct (readers_inv_claim w t r) as [Hb Ho]; [done|done|lia|done|]. apply readers_inv_goto; [done|]. by exists (position_of r).
  - injection Hs as <-. apply readers_inv_goto; [done|]. destruct Hme as (i & Ho). exists i. split; [done|].
    by destruct Ho as (r' & ? & <- & ?); assert (r' = r) as -> by congruence.
  - injection Hs as <-. destruct Hme as (i & Ho & ->). pose proof Ho as (r' & ? & <- & Howner).
    assert (r' = r) as -> by congruence. apply readers_inv_goto; [|eexists; split; [apply lookup_insert_eq|done]].
    apply readers_inv_reserve; [done|apply readers_position_range; [done|by apply Hr in Hrd; lia]| |done].
    apply Hu. rewrite Howner. unfold identity. apply Hr in Hrd. lia.
  - injection Hs as <-. destruct Hme as (r' & ? & Hbit). assert (r' = r) as -> by congruence.
    apply readers_inv_goto; [|eexists; split; [apply lookup_insert_eq|done]].
    apply readers_inv_reserve; [done|apply readers_position_range; [done|by apply Hr in Hrd; lia]|done|done].
  - destruct Hme as (a & Ha & Hth). rewrite Ha in Hs. simpl in Hs. case_match; injection Hs as <-.
    + apply readers_inv_goto; [done|]. unfold release. destruct (counted a) eqn:Hc; exists a; split; try done; by split.
    + eapply readers_inv_same; [done|by apply alike_admit|done|done].
  - destruct Hme as (a & (Ha & Hth) & Hc). rewrite Ha in Hs. injection Hs as <-.
    apply readers_inv_goto; [done|]. exists a. done.
  - destruct Hme as (a & (Ha & Hth) & Hc & ->). rewrite Ha in Hs. injection Hs as <-.
    apply readers_inv_goto; [|by destruct again]. pose proof (readers_inv_release w t h a) as H. rewrite Hc in H. by apply H.
  - destruct Hme as (a & (Ha & Hth) & Hc). rewrite Ha in Hs. injection Hs as <-.
    apply readers_inv_goto; [|by destruct again]. pose proof (readers_inv_release w t h a) as H. rewrite Hc in H. by apply H.
Qed.

Lemma readers_inv_step (Hsize : 0 ≤ size) w l w' : inv w → step size w l = Some w' → inv w'.
Proof.
  intros Hi Hs. destruct l as [t|t h|t try_|t|t]; simpl in Hs.
  - case_match; try done. injection Hs as <-. apply readers_inv_goto; [apply Hi|]. by case_match.
  - destruct (holds w !! h) as [a|] eqn:Ha; [|done]. simpl in Hs. case_match; try done. case_decide as E; [|done]. destruct E as [<- _].
    injection Hs as <-. apply readers_inv_goto; [apply Hi|]. unfold release. destruct (counted a) eqn:Hc; exists a; split; try done; by split.
  - case_match; try done. injection Hs as <-. by apply readers_inv_goto; [apply Hi|].
  - case_match; try done. injection Hs as <-. by apply readers_inv_goto; [apply Hi|].
  - by eapply readers_inv_run_step.
Qed.

(** A counter at zero has no reservation. *)
Lemma readers_zero_empty w i c h a :
  inv w → count w i c = 0 → holds w !! h = Some a → ¬ (position a = i ∧ counted a = c).
Proof.
  intros Hi H0 Ha E. destruct (Hi O) as [(_ & _ & _ & _ & Hc) _]. rewrite Hc in H0.
  assert (1 ≤ tally w i c); [|lia]. transitivity (at_counter i c a).
  - unfold at_counter. by rewrite decide_True.
  - unfold tally. apply msum_lookup_le with h; [|done]. intros j b _. unfold at_counter. case_decide; lia.
Qed.
End inv.
End ReadersInv.

(** ** The gate, the mutexes and the waiters *)
Module ReadersProtocol.
Import Readers.

(** The thread holds [serial]; it has closed the gate; it holds [waiters]; it
    is counted in [waiting]. *)
Definition serializing (p : Pc) : bool :=
  match p with
  | CloseGate _ | ScanGroup _ _ | ScanSlot _ _ _ _ | Writing | OpenGate | LoadWaiting | LockNotify | Notify | Unnotify | Unlock => true
  | _ => false
  end.
Definition closing (p : Pc) : bool :=
  match p with ScanGroup _ _ | ScanSlot _ _ _ _ | Writing | OpenGate => true | _ => false end.
Definition locking (p : Pc) : bool := match p with LoopGate | Park | Notify | Unnotify => true | _ => false end.
Definition interested (p : Pc) : bool :=
  match p with LockWaiters | LoopGate | Park | Parked | Relock | SubWaiting => true | _ => false end.
(** The writer that will wake the parked readers. *)
Definition owing (p : Pc) : bool :=
  match p with LoadWaiting | LockNotify | Notify => true | _ => closing p end.
(** What a thread needs before it goes on. *)
Definition ready (r : option Z) (p : Pc) : bool :=
  match p with
  | NewReader => bool_decide (r = None)
  | LoadOwner | Publish | ClaimOwner | LoadLocal | StoreLocal _ | AddShared | CheckGate _
  | LoadDown _ true | StoreDown _ _ true | SubShared _ true
  | AddWaiting | LockWaiters | LoopGate | Park | Parked | Relock | SubWaiting => bool_decide (r ≠ None)
  | ScanSlot _ _ [] _ => false
  | _ => true
  end.

Definition held_by (P : Pc → bool) (w : World) (o : option nat) : Prop := ∀ t, P (pc_at w t) = true ↔ o = Some t.
Definition interest (th : Thread) : Z := if interested (pc th) then 1 else 0.

Record proto (w : World) : Prop := {
  proto_serial : held_by serializing w (serial w);
  proto_mutex : held_by locking w (mutex w);
  proto_gate : gate w = from_option (λ t, closing (pc_at w t)) false (serial w);
  proto_waiting : waiting w = msum interest (threads w);
  proto_parked t : pc_at w t = Park ∨ pc_at w t = Parked → ∃ s, serial w = Some s ∧ owing (pc_at w s) = true;
  proto_ready t : ready (reader (thread_at w t)) (pc_at w t) = true;
}.

Lemma held_by_keep P w o t p w1 :
  held_by P w o → threads w1 = threads w → P p = P (pc_at w t) → held_by P (goto t p w1) o.
Proof.
  intros H Ht Hp t'. rewrite ReadersInv.pc_at_goto. specialize (H t').
  replace (pc_at w1 t') with (pc_at w t') by (unfold pc_at, thread_at; by rewrite Ht).
  case_decide; [subst; by rewrite Hp|done].
Qed.
Lemma held_by_take P w t p w1 :
  held_by P w None → threads w1 = threads w → P p = true → held_by P (goto t p w1) (Some t).
Proof.
  intros H Ht Hp t'. rewrite ReadersInv.pc_at_goto. specialize (H t').
  replace (pc_at w1 t') with (pc_at w t') by (unfold pc_at, thread_at; by rewrite Ht).
  case_decide; naive_solver.
Qed.
Lemma held_by_give P w o t p w1 :
  held_by P w o → threads w1 = threads w → P (pc_at w t) = true → P p = false → held_by P (goto t p w1) None.
Proof.
  intros H Ht Hold Hp t'. rewrite ReadersInv.pc_at_goto. pose proof (H t) as H1. specialize (H t').
  replace (pc_at w1 t') with (pc_at w t') by (unfold pc_at, thread_at; by rewrite Ht).
  case_decide as E; [rewrite Hp; by split|]. split; [|done]. intros E'. destruct E.
  apply H1 in Hold. apply H in E'. congruence.
Qed.

Lemma interest_goto w w1 t p :
  threads w1 = threads w →
  msum interest (threads (goto t p w1)) =
  msum interest (threads w) - (if interested (pc_at w t) then 1 else 0) + (if interested p then 1 else 0).
Proof.
  intros Ht. unfold goto. simpl. rewrite msum_insert_any, Ht.
  replace (from_option interest 0 (threads w !! t)) with (if interested (pc_at w t) then 1 else 0); [done|].
  unfold pc_at, thread_at. by destruct (threads w !! t).
Qed.
Lemma interested_positive w t : interested (pc_at w t) = true → msum interest (threads w) ≠ 0.
Proof.
  unfold pc_at, thread_at. destruct (threads w !! t) as [th|] eqn:E; [|done]. simpl. intros Hi.
  enough (interest th ≤ msum interest (threads w)) as H; [unfold interest in H at 1; rewrite Hi in H; lia|].
  apply (msum_lookup_le interest _ t); [|done]. intros ? b _. unfold interest. by destruct (interested (pc b)).
Qed.

(** A step of [t] to [p] that leaves the other threads. *)
Definition gate_ok (w : World) : Prop := gate w = from_option (λ t, closing (pc_at w t)) false (serial w).
Definition parked_ok (w : World) : Prop :=
  ∀ t, pc_at w t = Park ∨ pc_at w t = Parked → ∃ s, serial w = Some s ∧ owing (pc_at w s) = true.
Lemma proto_goto w w1 t p :
  proto w → threads w1 = threads w →
  held_by serializing (goto t p w1) (serial w1) → held_by locking (goto t p w1) (mutex w1) →
  gate_ok (goto t p w1) → parked_ok (goto t p w1) →
  waiting w1 = waiting w - (if interested (pc_at w t) then 1 else 0) + (if interested p then 1 else 0) →
  ready (reader (thread_at w t)) p = true →
  proto (goto t p w1).
Proof.
  intros H Ht H1 H2 H3 H4 H5 H6. split; [done|done|done| |done|].
  - simpl. rewrite H5, (proto_waiting _ H). symmetry. by apply interest_goto.
  - intros t'. rewrite ReadersInv.reader_goto, ReadersInv.pc_at_goto. unfold pc_at, thread_at. rewrite Ht.
    case_decide; [by subst|]. apply H.
Qed.

Lemma gate_keep w w1 t p :
  proto w → threads w1 = threads w → serial w1 = serial w → gate w1 = gate w →
  closing p = closing (pc_at w t) → gate_ok (goto t p w1).
Proof.
  intros H Ht Hs Hg Hp. unfold gate_ok. simpl. rewrite Hg, (proto_gate _ H), Hs. destruct (serial w) as [s|]; [|done]. simpl.
  rewrite ReadersInv.pc_at_goto. case_decide; [by subst|]. unfold pc_at, thread_at. by rewrite Ht.
Qed.
Lemma parked_keep w w1 t p :
  proto w → threads w1 = threads w → serial w1 = serial w →
  (owing (pc_at w t) = true → owing p = true ∨ msum interest (threads w) = 0) →
  (p = Park ∨ p = Parked → owing (pc_at w t) = false ∧ (gate w = true ∨ pc_at w t = Park)) → parked_ok (goto t p w1).
Proof.
  intros H Ht Hs Hp Hpark t'. assert (∀ t', pc_at w1 t' = pc_at w t') as Hpc by (intros; unfold pc_at, thread_at; by rewrite Ht).
  rewrite ReadersInv.pc_at_goto. intros Hpk.
  assert (∃ s, serial w = Some s ∧ owing (pc_at w s) = true) as (s & Es & Hown).
  { case_decide; [subst t'|by apply (proto_parked _ H t'); rewrite <- Hpc].
    destruct (Hpark Hpk) as [_ [Hg|Ho]]; [|apply (proto_parked _ H t); auto].
    rewrite (proto_gate _ H) in Hg. destruct (serial w) as [s|]; [|done]. exists s. split; [done|]. simpl in Hg. by destruct (pc_at w s). }
  exists s. simpl. split; [congruence|]. rewrite ReadersInv.pc_at_goto, Hpc.
  destruct (decide (t = s)) as [<-|]; [|done]. destruct (Hp Hown) as [?|Hz]; [done|]. exfalso.
  case_decide; [destruct (Hpark Hpk); congruence|].
  apply (interested_positive w t'); [|done]. rewrite Hpc in Hpk. by destruct Hpk as [-> | ->].
Qed.
(** Nobody is parked. *)
Lemma parked_take w w1 t p :
  proto w → threads w1 = threads w → serial w = None → p ≠ Park → p ≠ Parked → parked_ok (goto t p w1).
Proof.
  intros H Ht Hs ?? t'. rewrite ReadersInv.pc_at_goto. case_decide; [naive_solver|].
  replace (pc_at w1 t') with (pc_at w t') by (unfold pc_at, thread_at; by rewrite Ht).
  intros (s & E & _)%(proto_parked _ H). congruence.
Qed.
Lemma parked_give w w1 t p :
  proto w → threads w1 = threads w → serial w = Some t → owing (pc_at w t) = false → p ≠ Park → p ≠ Parked →
  parked_ok (goto t p w1).
Proof.
  intros H Ht Hs Ho ?? t'. rewrite ReadersInv.pc_at_goto. case_decide; [naive_solver|].
  replace (pc_at w1 t') with (pc_at w t') by (unfold pc_at, thread_at; by rewrite Ht).
  intros (s & E & E')%(proto_parked _ H). congruence.
Qed.

(** A step that neither takes nor leaves a lock, the gate or the waiters. *)
Lemma proto_keep w w1 t p :
  proto w → threads w1 = threads w → serial w1 = serial w → mutex w1 = mutex w → gate w1 = gate w → waiting w1 = waiting w →
  serializing p = serializing (pc_at w t) → locking p = locking (pc_at w t) → closing p = closing (pc_at w t) →
  interested p = interested (pc_at w t) → owing p = owing (pc_at w t) → (p = Park → gate w = true) → p ≠ Parked →
  ready (reader (thread_at w t)) p = true → proto (goto t p w1).
Proof.
  intros H Ht H1 H2 H3 H4 P1 P2 P3 P4 P5 P6 P7 P8. apply (proto_goto w); try done.
  - rewrite H1. apply (held_by_keep _ w); [apply H|done|done].
  - rewrite H2. apply (held_by_keep _ w); [apply H|done|done].
  - by apply (gate_keep w).
  - apply (parked_keep w); try done; [rewrite P5; auto|]. intros [-> | ->]; [|done]. simpl in P5. split; [done|]. auto.
  - rewrite H4, P4. lia.
Qed.

(** Threads may change as long as their part in the protocol stays. *)
Lemma proto_ext w w' :
  proto w → serial w' = serial w → mutex w' = mutex w → gate w' = gate w → waiting w' = waiting w →
  (∀ t, serializing (pc_at w' t) = serializing (pc_at w t) ∧ locking (pc_at w' t) = locking (pc_at w t) ∧
        closing (pc_at w' t) = closing (pc_at w t) ∧ owing (pc_at w' t) = owing (pc_at w t) ∧
        (pc_at w' t = Park ∨ pc_at w' t = Parked → pc_at w t = Park ∨ pc_at w t = Parked) ∧
        ready (reader (thread_at w' t)) (pc_at w' t) = true) →
  msum interest (threads w') = msum interest (threads w) → proto w'.
Proof.
  intros H H1 H2 H3 H4 Hpc Hsum. split.
  - intros t. destruct (Hpc t) as (-> & _). rewrite H1. apply H.
  - intros t. destruct (Hpc t) as (_ & -> & _). rewrite H2. apply H.
  - rewrite H3, H1, (proto_gate _ H). destruct (serial w) as [s|]; [|done]. simpl. by destruct (Hpc s) as (_ & _ & -> & _).
  - rewrite H4, Hsum. apply H.
  - intros t Hp%Hpc. destruct (proto_parked _ H t Hp) as (s & ? & ?). exists s. destruct (Hpc s) as (_ & _ & _ & -> & _). by rewrite H1.
  - intros t. apply Hpc.
Qed.
Lemma proto_new_reader w t r :
  proto w → pc_at w t = NewReader →
  proto (w <| next_reader := r + 1 |> <| threads := <[t := mkThread (Some r) LoadOwner]> (threads w) |>).
Proof.
  intros H Hpc. apply (proto_ext w); try done.
  - intros t'. unfold pc_at, thread_at. simpl. rewrite ReadersInv.readers_thread_at_insert. case_decide; [subst t'|].
    + fold (thread_at w t). fold (pc_at w t). rewrite Hpc. simpl. split_and!; try done. by intros [|].
    + split_and!; try done. apply H.
  - simpl. rewrite msum_insert_any. unfold pc_at, thread_at in Hpc.
    change (interest (mkThread (Some r) LoadOwner)) with 0. destruct (threads w !! t) as [th|] eqn:E; simpl in *; [|done].
    assert (interest th = 0) as -> by (unfold interest; by rewrite Hpc). lia.
Qed.
Lemma proto_notify w t : proto w → pc_at w t = Notify → proto (goto t Unnotify (notify_all w)).
Proof.
  intros H Hpc. assert (proto (notify_all w)) as Hn.
  { apply (proto_ext w); try done.
    - intros t'. rewrite ReadersInv.thread_at_notify. pose proof (proto_ready _ H t') as Hr. rewrite ReadersInv.pc_at_notify. simpl.
      destruct (pc_at w t'); simpl in *; split_and!; auto.
    - simpl. rewrite msum_fmap. apply msum_ext. intros t' th _. unfold interest. simpl. by destruct (pc th). }
  assert (mutex w = Some t) as Hm by (apply (proto_mutex _ H); by rewrite Hpc).
  assert (pc_at (notify_all w) t = Notify) as Hpc' by (by rewrite ReadersInv.pc_at_notify, Hpc).
  apply (proto_goto (notify_all w)); try done; rewrite ?Hpc'; try done.
  - apply (held_by_keep _ (notify_all w)); [apply Hn|done|by rewrite Hpc'].
  - apply (held_by_keep _ (notify_all w)); [apply Hn|done|by rewrite Hpc'].
  - apply (gate_keep (notify_all w)); try done. by rewrite Hpc'.
  - intros t'. rewrite ReadersInv.pc_at_goto. case_decide; [by intros [|]|]. rewrite ReadersInv.pc_at_notify. intros Hp.
    assert (mutex w = Some t'); [|congruence]. apply (proto_mutex _ H).
    destruct (pc_at w t'); by destruct Hp.
  - simpl. lia.
Qed.

Section run.
Context (size : Z).
Lemma scan_from_proto p try_ g l :
  (p = ScanGroup try_ g ∨ ∃ b c, p = ScanSlot try_ g (b :: l) c) → let q := scan_from size try_ g l in
  serializing q = serializing p ∧ locking q = locking p ∧ closing q = closing p ∧ interested q = interested p ∧
  owing q = owing p ∧ q ≠ Park ∧ q ≠ Parked ∧ ∀ r, ready r q = true.
Proof. intros [-> | (b & c & ->)]; unfold scan_from; repeat case_match; simpl; split_and!; done. Qed.

Lemma proto_scan w t try_ g l :
  proto w → (pc_at w t = ScanGroup try_ g ∨ ∃ b c, pc_at w t = ScanSlot try_ g (b :: l) c) →
  proto (goto t (scan_from size try_ g l) w).
Proof.
  intros H (E1 & E2 & E3 & E4 & E5 & E6 & E7 & E8)%scan_from_proto. by apply (proto_keep w).
Qed.
Lemma proto_lock w t p :
  proto w → mutex w = None → locking (pc_at w t) = false → locking p = true →
  serializing p = serializing (pc_at w t) → closing p = closing (pc_at w t) → interested p = interested (pc_at w t) →
  owing p = owing (pc_at w t) → p ≠ Park → p ≠ Parked → ready (reader (thread_at w t)) p = true →
  proto (goto t p (w <| mutex := Some t |>)).
Proof.
  intros H Hm _ Hl P1 P2 P3 P4 ???. apply (proto_goto w); try done.
  - apply (held_by_keep _ w); [apply H|done|done].
  - apply (held_by_take _ w); [rewrite <- Hm; apply H|done|done].
  - by apply (gate_keep w).
  - apply (parked_keep w); try done; [rewrite P4; auto|]. by intros [|].
  - simpl. rewrite P3. lia.
Qed.
Lemma proto_unlock w t p :
  proto w → locking (pc_at w t) = true → locking p = false →
  serializing p = serializing (pc_at w t) → closing p = closing (pc_at w t) → interested p = interested (pc_at w t) →
  owing p = owing (pc_at w t) → (p = Park ∨ p = Parked → pc_at w t = Park) → ready (reader (thread_at w t)) p = true →
  proto (goto t p (w <| mutex := None |>)).
Proof.
  intros H Hl Hl' P1 P2 P3 P4 P5 ?. apply (proto_goto w); try done.
  - apply (held_by_keep _ w); [apply H|done|done].
  - eapply (held_by_give _ w); [apply H|done|done|done].
  - by apply (gate_keep w).
  - apply (parked_keep w); try done; [rewrite P4; auto|]. intros E. rewrite (P5 E). auto.
  - simpl. rewrite P3. lia.
Qed.
Lemma proto_wait w t n p :
  proto w → waiting w + n = waiting w - (if interested (pc_at w t) then 1 else 0) + (if interested p then 1 else 0) →
  locking p = locking (pc_at w t) → serializing p = false → serializing (pc_at w t) = false →
  p ≠ Park → p ≠ Parked → ready (reader (thread_at w t)) p = true →
  proto (goto t p (w <| waiting := waiting w + n |>)).
Proof.
  intros H Hn Hl P1 P2 ???. apply (proto_goto w); try done.
  - apply (held_by_keep _ w); [apply H|done|congruence].
  - apply (held_by_keep _ w); [apply H|done|done].
  - apply (gate_keep w); try done. by destruct p, (pc_at w t).
  - apply (parked_keep w); try done; [|by intros [|]]. by destruct (pc_at w t).
Qed.
(** The writer closes and opens the gate. *)
Lemma proto_gating w t b p :
  proto w → serializing (pc_at w t) = true → serializing p = true → closing p = b → owing p = true →
  locking p = false → locking (pc_at w t) = false → interested p = interested (pc_at w t) →
  ready (reader (thread_at w t)) p = true → proto (goto t p (w <| gate := b |>)).
Proof.
  intros H Hs P1 P2 P3 P4 P5 P6 ?. assert (serial w = Some t) as Es by by apply (proto_serial _ H). apply (proto_goto w); try done.
  - apply (held_by_keep _ w); [apply H|done|congruence].
  - apply (held_by_keep _ w); [apply H|done|congruence].
  - unfold gate_ok. simpl. rewrite Es. simpl. rewrite ReadersInv.pc_at_goto. by rewrite decide_True.
  - apply (parked_keep w); try done; [auto|]. by intros [-> | ->].
  - simpl. rewrite P6. lia.
Qed.

Lemma proto_run_step w t w' : proto w → run_step size t w = Some w' → proto w'.
Proof.
  intros H Hs. pose proof (proto_ready _ H t) as Hr. unfold run_step in Hs.
  destruct (pc_at w t) eqn:Hpc; simpl in Hs; try done;
    try match type of Hs with context [reader ?x] => destruct (reader x) as [r|] eqn:Hrd; try done end;
    try solve [repeat (case_match; try done); injection Hs as <-; apply (proto_keep w); try done;
                 rewrite ?Hpc, ?Hrd; repeat case_match; done].
  - injection Hs as <-. by apply proto_new_reader.
  - destruct (holds w !! h) as [a|]; [|done]. simpl in Hs. case_match; injection Hs as <-; apply (proto_keep w); try done;
      rewrite ?Hpc; unfold release; destruct (counted a); done.
  - destruct (holds w !! h) as [a|]; [|done]. injection Hs as <-. apply (proto_keep w); try done; by rewrite Hpc.
  - destruct (holds w !! h) as [a|]; [|done]. injection Hs as <-. apply (proto_keep w); try done; rewrite ?Hpc; by destruct again.
  - destruct (holds w !! h) as [a|]; [|done]. injection Hs as <-. apply (proto_keep w); try done; rewrite ?Hpc; by destruct again.
  - injection Hs as <-. apply proto_wait; rewrite ?Hpc; try done. simpl. lia.
  - case_match; [done|]. injection Hs as <-. apply proto_lock; rewrite ?Hpc; done.
  - case_match eqn:Hg; injection Hs as <-; [apply (proto_keep w); try done; by rewrite Hpc|].
    rewrite <- Hg. apply (proto_unlock w); rewrite ?Hpc; try done. by intros [|].
  - injection Hs as <-. apply proto_unlock; by rewrite ?Hpc.
  - case_match; [done|]. injection Hs as <-. apply proto_lock; rewrite ?Hpc; done.
  - injection Hs as <-. apply (proto_wait w t (-1) LoadOwner); rewrite ?Hpc; try done. simpl. lia.
  - destruct (serial w) eqn:Es; [destruct try_; [|done]|]; injection Hs as <-; [by apply (proto_keep w); rewrite ?Hpc|].
    apply (proto_goto w); try done; rewrite ?Hpc; try done.
    + apply (held_by_take _ w); [rewrite <- Es; apply H|done|done].
    + apply (held_by_keep _ w); [apply H|done|by rewrite Hpc].
    + unfold gate_ok. simpl. rewrite ReadersInv.pc_at_goto, decide_True by done. by rewrite (proto_gate _ H), Es.
    + by apply (parked_take w).
    + simpl. lia.
  - injection Hs as <-. apply proto_gating; by rewrite ?Hpc.
  - injection Hs as <-. apply proto_scan; auto.
  - destruct used as [|b used]; [done|]. repeat case_match; injection Hs as <-;
      first [apply proto_scan; [done|]; by eauto | apply (proto_keep w); try done; by rewrite ?Hpc].
  - injection Hs as <-. apply proto_gating; by rewrite ?Hpc.
  - injection Hs as <-. case_match eqn:E; [|apply (proto_keep w); try done; by rewrite ?Hpc].
    bool_to_prop. rewrite (proto_waiting _ H) in E. apply (proto_goto w); try done; rewrite ?Hpc; try done.
    + apply (held_by_keep _ w); [apply H|done|by rewrite Hpc].
    + apply (held_by_keep _ w); [apply H|done|by rewrite Hpc].
    + apply (gate_keep w); by rewrite ?Hpc.
    + apply (parked_keep w); try done; [auto|]. by intros [|].
    + simpl. lia.
  - case_match; [done|]. injection Hs as <-. apply proto_lock; rewrite ?Hpc; done.
  - injection Hs as <-. by apply proto_notify.
  - injection Hs as <-. apply proto_unlock; rewrite ?Hpc; try done. by intros [|].
  - injection Hs as <-. assert (serial w = Some t) as Es by (apply (proto_serial _ H); by rewrite Hpc).
    apply (proto_goto w); try done; rewrite ?Hpc; try done.
    + eapply (held_by_give _ w); [apply H|done|by rewrite Hpc|done].
    + apply (held_by_keep _ w); [apply H|done|by rewrite Hpc].
    + unfold gate_ok. simpl. by rewrite (proto_gate _ H), Es; simpl; rewrite Hpc.
    + apply (parked_give w); try done. by rewrite Hpc.
    + simpl. lia.
Qed.

Lemma proto_step w l w' : proto w → step size w l = Some w' → proto w'.
Proof.
  intros H Hs. destruct l as [t|t h|t try_|t|t]; simpl in Hs; [..|by eapply proto_run_step].
  - case_match eqn:Hpc; try done. injection Hs as <-. destruct (reader (thread_at w t)) eqn:Hr;
      apply (proto_keep w); try done; by rewrite ?Hpc, ?Hr.
  - destruct (holds w !! h) as [a|]; [|done]. simpl in Hs. case_match eqn:Hpc; try done. case_decide; [|done]. injection Hs as <-.
    unfold release. destruct (counted a); apply (proto_keep w); try done; by rewrite Hpc.
  - case_match eqn:Hpc; try done. injection Hs as <-. apply (proto_keep w); try done; by rewrite Hpc.
  - case_match eqn:Hpc; try done. injection Hs as <-. apply (proto_keep w); try done; by rewrite Hpc.
Qed.
Lemma proto_initial : proto initial.
Proof. split; try done. intros t. unfold pc_at, thread_at. simpl. by intros [|]. Qed.

(** *** The scan *)

(** The counters whose zero the scan has read since the gate closed. *)
Definition passed (p : Pc) (i : Z) (c : Count) : Prop :=
  match p with
  | ScanGroup _ g => i / WIDTH < g
  | ScanSlot _ g l d => i / WIDTH < g ∨ i / WIDTH = g ∧ (i mod WIDTH ∉ l ∨ head l = Some (i mod WIDTH) ∧ c = Local ∧ d = Shared)
  | Writing => True
  | _ => False
  end.
Definition scan_ok (w : World) : Prop :=
  ∀ t h a, holds w !! h = Some a → admitted a = true → ¬ passed (pc_at w t) (position a) (counted a).

Lemma passed_closing p i c : passed p i c → closing p = true.
Proof. by destruct p. Qed.
Lemma closing_gate w t : proto w → closing (pc_at w t) = true → gate w = true.
Proof.
  intros H Hc. assert (serial w = Some t) as Es by (apply (proto_serial _ H); by destruct (pc_at w t)).
  by rewrite (proto_gate _ H), Es.
Qed.
(** Once passed, the scan goes on: the counter just read is zero, or it ended. *)
Lemma scan_on w t g l h a :
  ReadersInv.inv size w → holds w !! h = Some a →
  passed (scan_from size t g l) (position a) (counted a) → position a / WIDTH ≤ g ∧ (position a / WIDTH = g → position a mod WIDTH ∉ l).
Proof.
  intros Hi Ha. destruct (Hi O) as [(_ & _ & Hh & _) _]. destruct (Hh _ _ Ha) as (_ & Hp & _).
  assert (position a / WIDTH < groups size).
  { unfold groups, WIDTH, slot_count in *. enough (position a / 64 + 1 ≤ (2 ^ size + 64 - 1) / 64) by lia.
    replace (2 ^ size + 64 - 1) with ((2 ^ size - 1) + 1 * 64) by lia. rewrite Z.div_add by lia.
    apply Zplus_le_compat_r, Z.div_le_mono; lia. }
  unfold scan_from. destruct l; [|simpl; naive_solver lia]. split; [|intros ? ?; set_solver].
  case_match; bool_to_prop; simpl in *; lia.
Qed.

Lemma scan_goto w w1 t p :
  scan_ok w → threads w1 = threads w →
  (∀ h a, holds w1 !! h = Some a → admitted a = true →
     ∃ a0, holds w !! h = Some a0 ∧ admitted a0 = true ∧ position a = position a0 ∧ counted a = counted a0) →
  (∀ h a, holds w !! h = Some a → admitted a = true → ¬ passed p (position a) (counted a)) →
  scan_ok (goto t p w1).
Proof.
  intros H Ht Hh Hp t' h a Ha Hadm. destruct (Hh h a Ha Hadm) as (a0 & Ha0 & Hadm0 & -> & ->).
  rewrite ReadersInv.pc_at_goto. unfold pc_at, thread_at. rewrite Ht. case_decide; [by eapply Hp|by eapply H].
Qed.
Lemma scan_open w : proto w → gate w = false → scan_ok w.
Proof. intros H Hg t h a _ _ Hp%passed_closing%closing_gate; [congruence|done]. Qed.
Lemma scan_quiet w w1 t p :
  scan_ok w → threads w1 = threads w → (∀ i c, ¬ passed p i c) →
  (∀ h a, holds w1 !! h = Some a → admitted a = true → holds w !! h = Some a) → scan_ok (goto t p w1).
Proof. intros H Ht Hp Hh. apply (scan_goto w); [done|done| |intros; apply Hp]. intros h a Ha Hadm. exists a. auto. Qed.
Lemma set_bits_spec v i : Z.testbit v (i mod WIDTH) = true ↔ i mod WIDTH ∈ set_bits v.
Proof.
  unfold set_bits. rewrite list_elem_of_filter, elem_of_seqZ. pose proof (Z.mod_pos_bound i WIDTH). unfold WIDTH in *.
  split; [|tauto]. intros ?. split; [done|]. lia.
Qed.
Lemma scan_start w t_ h a : ReadersInv.inv size w → holds w !! h = Some a → ¬ passed (ScanGroup t_ 0) (position a) (counted a).
Proof.
  intros Hi Ha. destruct (Hi O) as [(_ & _ & Hh & _) _]. destruct (Hh _ _ Ha) as (_ & Hp & _). simpl.
  enough (0 ≤ position a / WIDTH) by lia. apply Z.div_pos; [lia|done].
Qed.

Lemma scan_reserve w t i c n : scan_ok w → scan_ok (reserve t i c n w).
Proof.
  intros H. unfold reserve. apply (scan_quiet w); [done|done|by intros ? ? []|].
  intros h a. simpl. rewrite lookup_insert_Some. intros [[_ <-]|[_ ?]]; done.
Qed.

Lemma scan_run_step w t w' :
  ReadersInv.inv size w → proto w → scan_ok w → run_step size t w = Some w' → scan_ok w'.
Proof.
  intros Hi Hp H Hs. pose proof (proto_run_step _ _ _ Hp Hs) as Hp'. pose proof (H t) as Ht. unfold run_step in Hs.
  destruct (pc_at w t) eqn:Hpc; simpl in Hs; try done;
    try match type of Hs with context [reader ?x] => destruct (reader x) as [r|] eqn:Hrd; try done end;
    try match type of Hs with context [holds w !! ?h] => destruct (holds w !! h) as [a|] eqn:Ha; [simpl in Hs|done] end;
    try solve [repeat (case_match; try done); injection Hs as <-; apply (scan_quiet w); try done;
                 intros ? ?; repeat case_match; simpl; tauto].
  - injection Hs as <-. intros t' h a Ha Hadm. unfold pc_at, thread_at. simpl. rewrite ReadersInv.readers_thread_at_insert.
    case_decide; [by intros []|]. by apply (H t' h).
  - injection Hs as <-. by apply scan_reserve.
  - injection Hs as <-. by apply scan_reserve.
  - case_match eqn:Hg; injection Hs as <-.
    + apply (scan_quiet w); try done. intros ? ?. unfold release. by destruct (counted a); intros [].
    + by apply scan_open.
  - injection Hs as <-. apply (scan_quiet w); [done|done|intros ? ?; by destruct again; intros []|].
    intros h' a'. simpl. by intros [_ ?]%lookup_delete_Some.
  - injection Hs as <-. apply (scan_quiet w); [done|done|intros ? ?; by destruct again; intros []|].
    intros h' a'. simpl. by intros [_ ?]%lookup_delete_Some.
  - injection Hs as <-. apply (scan_goto w); [done|done|eauto|]. intros h a Ha _. by eapply scan_start.
  - injection Hs as <-. apply (scan_goto w); [done|done|eauto|]. intros h a Ha Hadm Hpass.
    destruct (scan_on _ _ _ _ _ _ Hi Ha Hpass) as [Hle Hnot]. apply (Ht h a Ha Hadm). simpl.
    destruct (decide (position a / WIDTH = g)) as [E|]; [|lia]. destruct (Hnot E). apply set_bits_spec.
    rewrite <- E. destruct (Hi O) as [(_ & _ & Hh & _) _]. by destruct (Hh _ _ Ha) as (_ & _ & ? & _).
  - destruct used as [|b used]; [done|]. case_match eqn:Hz.
    + bool_to_prop. assert (∀ h a, holds w !! h = Some a → ¬ (position a = g * WIDTH + b ∧ counted a = c)) as Hno.
      { intros h a Ha. by eapply ReadersInv.readers_zero_empty. }
      injection Hs as <-. apply (scan_goto w); [done|done|eauto|]. intros h a Ha Hadm Hpass.
      pose proof (Ht h a Ha Hadm) as Hn. pose proof (Hno h a Ha) as Hc. simpl in Hn.
      assert (position a / WIDTH = g → position a mod WIDTH = b → position a = g * WIDTH + b) as Hat.
      { intros <- <-. rewrite Z.mul_comm. apply Z.div_mod. done. }
      destruct c; [simpl in Hpass|destruct (scan_on _ _ _ _ _ _ Hi Ha Hpass) as [Hle Hnot]].
      * destruct Hpass as [?|(E & [?|(Hb & Hl & _)])]; [naive_solver|naive_solver|]. injection Hb as Hb. naive_solver.
      * apply Hn. destruct (decide (position a / WIDTH = g)) as [E|]; [right|lia]. split; [done|].
        specialize (Hnot E). rewrite not_elem_of_cons. destruct (decide (position a mod WIDTH = b)) as [Eb|]; [right|by left].
        simpl. rewrite Eb. split; [done|]. split; [|done]. destruct (counted a) eqn:Hcnt; [done|]. naive_solver.
    + injection Hs as <-. destruct try_.
      * apply (scan_quiet w); try done. by intros ? ? [].
      * apply (scan_goto w); [done|done|eauto|]. intros h a Ha _. by eapply scan_start.
  - injection Hs as <-. intros t' h a Ha Hadm. rewrite ReadersInv.pc_at_goto. case_decide; [by intros []|].
    rewrite ReadersInv.pc_at_notify. pose proof (H t' h a Ha Hadm) as Hn. by destruct (pc_at w t').
Qed.
Lemma scan_step w l w' :
  ReadersInv.inv size w → proto w → scan_ok w → step size w l = Some w' → scan_ok w'.
Proof.
  intros Hi Hp H Hs. destruct l as [t|t h|t try_|t|t]; simpl in Hs; [..|by eapply scan_run_step].
  - case_match; try done. injection Hs as <-. apply (scan_quiet w); try done. intros ? ?. by case_match; intros [].
  - destruct (holds w !! h) as [a|]; [|done]. simpl in Hs. case_match; try done. case_decide; [|done]. injection Hs as <-.
    apply (scan_quiet w); try done. intros ? ?. unfold release. by destruct (counted a); intros [].
  - case_match; try done. injection Hs as <-. apply (scan_quiet w); try done. by intros ? ? [].
  - case_match; try done. injection Hs as <-. apply (scan_quiet w); try done. by intros ? ? [].
Qed.
End run.
End ReadersProtocol.

(** ** What the lock promises *)
Module ReadersTheorems.
Import Readers.
Section theorems.
Context (size : Z) (Hsize : 0 ≤ size).

Lemma reachable_ok ls w w' :
  ReadersInv.inv size w → ReadersProtocol.proto w → ReadersProtocol.scan_ok w → execute size w ls = Some w' →
  ReadersInv.inv size w' ∧ ReadersProtocol.proto w' ∧ ReadersProtocol.scan_ok w'.
Proof.
  revert w. induction ls as [|l ls IH]; simpl; intros w Hi Hp Hc He; [by injection He as <-|].
  destruct (step size w l) as [w1|] eqn:Hs; [|done]. simpl in He. apply (IH w1); [| | |done].
  - by eapply ReadersInv.readers_inv_step.
  - by eapply ReadersProtocol.proto_step.
  - by eapply ReadersProtocol.scan_step.
Qed.
Lemma reached ls w :
  execute size initial ls = Some w →
  ReadersInv.inv size w ∧ ReadersProtocol.proto w ∧ ReadersProtocol.scan_ok w.
Proof.
  intros He. eapply reachable_ok; [by apply ReadersInv.readers_inv_initial|apply ReadersProtocol.proto_initial| |done].
  intros t h a Ha. simpl in Ha. by apply lookup_empty_Some in Ha.
Qed.

(** A thread inside a step of its own can go on, or waits for another. *)
Lemma stuck w t :
  ReadersInv.inv size w → ReadersProtocol.proto w → run_step size t w = None →
  match pc_at w t with
  | Idle | Writing | Parked => True
  | LockWaiters | Relock | LockNotify => mutex w ≠ None
  | LockSerial false => serial w ≠ None
  | _ => False
  end.
Proof.
  intros Hi Hp Hn. pose proof (ReadersProtocol.proto_ready _ Hp t) as Hr. destruct (Hi t) as [_ Hok]. unfold run_step in Hn.
  destruct (pc_at w t) eqn:Hpc; simpl in Hn, Hr, Hok; try done;
    try match type of Hn with context [reader ?x] => destruct (reader x) as [r|] eqn:Hrd; try done end;
    try (destruct Hok as (a & (Ha & _) & _); rewrite Ha in Hn; simpl in Hn; by repeat case_match);
    try (destruct Hok as (a & (Ha & _)); rewrite Ha in Hn; simpl in Hn; by repeat case_match);
    repeat case_match; done.
Qed.

(** No run of readers and writers deadlocks: when no thread inside the lock can
    go on, a writer is keeping its guard. *)
Lemma all_stuck w t :
  ReadersInv.inv size w → ReadersProtocol.proto w → (∀ s, run_step size s w = None) → pc_at w t ≠ Idle →
  ∃ s, pc_at w s = Writing.
Proof.
  intros Hi Hp Hn Ht. assert (∀ s, _) as Hst by (intros s; exact (stuck w s Hi Hp (Hn s))).
  assert (mutex w = None) as Hm.
  { destruct (mutex w) as [m|] eqn:Hm; [|done]. apply (ReadersProtocol.proto_mutex _ Hp) in Hm.
    specialize (Hst m). by destruct (pc_at w m). }
  assert (∀ s, serial w = Some s → pc_at w s = Writing) as Hserial.
  { intros s Hs%(ReadersProtocol.proto_serial _ Hp). specialize (Hst s). by destruct (pc_at w s). }
  pose proof (Hst t) as H. destruct (pc_at w t) eqn:Hpc; try done; try by eauto.
  - destruct (ReadersProtocol.proto_parked _ Hp t) as (s & Hs & _); [by right|]. eauto.
  - destruct try_; [done|]. destruct (serial w) as [s|]; [|done]. eauto.
Qed.

(** [t] runs on its own from [w] to a state where it is at [p]. *)
Definition runs_to (w : World) (t : nat) (p : Pc) : Prop :=
  ∃ n w', execute size w (replicate n (Run t)) = Some w' ∧ pc_at w' t = p.
Lemma runs_step w w1 t p : run_step size t w = Some w1 → runs_to w1 t p → runs_to w t p.
Proof. intros Hs (n & w' & ? & ?). exists (S n), w'. simpl. by rewrite Hs. Qed.

Definition empty (w : World) : Prop := ∀ i c, count w i c = 0.
Lemma pc_here t p w : pc_at (goto t p w) t = p.
Proof. rewrite ReadersInv.pc_at_goto. by rewrite decide_True. Qed.
Lemma scan_slot w t try_ g b l c :
  empty w → pc_at w t = ScanSlot try_ g (b :: l) c →
  run_step size t w = Some (goto t (match c with Local => ScanSlot try_ g (b :: l) Shared | Shared => scan_from size try_ g l end) w).
Proof. intros He Hpc. unfold run_step. by rewrite Hpc, He. Qed.
Lemma slots_pass t try_ g l p :
  (∀ w, empty w → pc_at w t = scan_from size try_ g [] → runs_to w t p) →
  ∀ w, empty w → pc_at w t = scan_from size try_ g l → runs_to w t p.
Proof.
  intros Hend. induction l as [|b l IH]; intros w He Hpc; [by apply Hend|]. simpl in Hpc.
  eapply runs_step; [by apply scan_slot|]. eapply runs_step; [by apply scan_slot; [|apply pc_here]|].
  apply IH; [done|apply pc_here].
Qed.
Lemma groups_pass t try_ k :
  ∀ g w, groups size ≤ g + Z.of_nat k → empty w → pc_at w t = ScanGroup try_ g → runs_to w t Writing.
Proof.
  induction k as [|k IH]; intros g w Hk He Hpc.
  all: eapply runs_step; [by unfold run_step; rewrite Hpc|].
  all: eapply (slots_pass t try_ g); [|done|apply pc_here]; clear w Hpc He; intros w He Hpc.
  - exists O, w. split; [done|]. rewrite Hpc. simpl. case_match; bool_to_prop; [lia|done].
  - simpl in Hpc. case_match; bool_to_prop; [apply (IH (g + 1)); [lia|done|done]|]. by exists O, w.
Qed.

(** C17: the lock of a shard excludes: while a thread writes, no reader is
    admitted and no other thread writes, however the atomic accesses of the
    threads interleave; and the two counts of every slot are always the
    reservations taken and not released there. *)
Theorem writers_exclude ls w :
  execute size initial ls = Some w →
  (∀ i c, count w i c = msum (ReadersInv.at_counter i c) (holds w)) ∧
  (∀ t, pc_at w t = Writing →
     (∀ h a, holds w !! h = Some a → admitted a = false) ∧ (∀ t', pc_at w t' = Writing → t' = t)).
Proof.
  intros (Hi & Hp & Hc)%reached. split; [by destruct (Hi O) as [(_ & _ & _ & _ & ?) _]|].
  intros t Ht. split.
  - intros h a Ha. destruct (admitted a) eqn:E; [|done]. destruct (Hc t h a Ha E). by rewrite Ht.
  - intros t' Ht'. assert (serial w = Some t ∧ serial w = Some t') as [? ?]; [|congruence].
    split; apply (ReadersProtocol.proto_serial _ Hp); [by rewrite Ht|by rewrite Ht'].
Qed.

(** Readers and writers never deadlock, and no wakeup is lost: when no
    thread inside the lock can take its next step, parked readers included,
    some thread is keeping its write guard. And a writer that finds no reservation and
    no other writer gets the lock by its own steps. *)
Theorem lock_makes_progress ls w t :
  execute size initial ls = Some w →
  ((∀ s, run_step size s w = None) → pc_at w t ≠ Idle → ∃ s, pc_at w s = Writing) ∧
  (∀ try_, pc_at w t = LockSerial try_ → serial w = None → holds w = ∅ → runs_to w t Writing).
Proof.
  intros (Hi & Hp & Hc)%reached. split; [by apply all_stuck|]. intros try_ Hpc Hs Hh.
  assert (empty w) as He.
  { intros i c. destruct (Hi O) as [(_ & _ & _ & _ & Hcnt) _]. rewrite Hcnt. unfold ReadersInv.tally. by rewrite Hh, msum_empty. }
  eapply runs_step; [by unfold run_step; rewrite Hpc, Hs|].
  eapply runs_step; [by unfold run_step; rewrite pc_here|].
  apply (groups_pass t try_ (Z.to_nat (groups size)) 0); [lia|done|apply pc_here].
Qed.
End theorems.

(** Thread 0 reads; thread 1 tries to write and is refused, then writes once the
    guard is dropped; thread 0 parks behind it. *)
Definition first_read : list Label := Read 0 :: replicate 7 (Run 0).
Definition refused : list Label := Write 1 true :: replicate 7 (Run 1).
Definition granted : list Label := DropGuard 0 0 :: replicate 2 (Run 0) ++ Write 1 false :: replicate 5 (Run 1).
Definition parked : list Label := Read 0 :: replicate 10 (Run 0).
Definition run (ls : list Label) : World := default initial (execute 1 initial ls).
Example read_write_run :
  let w := run (first_read ++ refused ++ granted ++ parked) in
  is_Some (execute 1 initial (first_read ++ refused)) ∧ pc_at (run (first_read ++ refused)) 1 = Idle ∧
  pc_at w 0 = Parked ∧ pc_at w 1 = Writing.
Proof. vm_compute. eauto. Qed.

Definition contended : list Label := first_read ++ refused ++ granted ++ parked.
Definition waited : list Label := first_read ++ refused ++ [DropGuard 0 0] ++ replicate 2 (Run 0) ++ [Write 1 false].
Lemma contended_runs : execute 1 initial contended = Some (run contended).
Proof. vm_compute. reflexivity. Qed.
Lemma waited_runs : execute 1 initial waited = Some (run waited).
Proof. vm_compute. reflexivity. Qed.
Lemma writers_exclude_witness :
  pc_at (run contended) 1 = Writing ∧ ∀ t', pc_at (run contended) t' = Writing → t' = 1%nat.
Proof.
  assert (pc_at (run contended) 1 = Writing) as Hpc by (vm_compute; reflexivity).
  split; [exact Hpc|]. assert (0 ≤ 1) as Hs by lia.
  exact (proj2 (proj2 (writers_exclude 1 Hs _ _ contended_runs) 1%nat Hpc)).
Defined.
Lemma lock_makes_progress_witness : runs_to 1 (run waited) 1 Writing.
Proof.
  assert (0 ≤ 1) as Hs by lia.
  apply (proj2 (lock_makes_progress 1 Hs waited _ 1%nat waited_runs) false); vm_compute; reflexivity.
Defined.
End ReadersTheorems.
