(* ===== verification/Supplied.v ===== *)
(** * Supplied memory storage

    Models [src/src/memory_storage.rs] and [src/src/memory/custom.rs]: a memory
    store the application supplies instead of the built-in one. Its records carry
    the key, a generation and a deadline the cache stamped on them; whatever the
    provider answers, the adapter checks them before it trusts a value. The
    provider is user code: an access that may answer anything. The generation
    counter is shared with every cache of the namespace, so other tasks advance it
    between any two accesses. *)
From stdpp Require Import relations.
From S2P Require Import Prelude Time Calls Options Entry Tags Storage.
Open Scope prog_scope.

(** ** Data *)
Inductive MemoryRecordViolation := MV_Key | MV_Namespace.
Inductive MemoryStorageError :=
| SE_Provider | SE_GenerationExhausted | SE_InvalidRecord (violation : MemoryRecordViolation).

Inductive MemoryNamespacePurpose := NP_Values | NP_LocalMarkerObservations | NP_DurableMarkerObservations.
#[export] Instance MemoryNamespacePurpose_eq_dec : EqDecision MemoryNamespacePurpose.
Proof. solve_decision. Defined.
Inductive MemoryNamespace := MN_Values (prefix : string) | MN_LocalMarkers (prefix : string) | MN_DurableMarkers (scope : CacheScope).
Module MemoryNamespace.
Definition new (prefix : option string) : MemoryNamespace := MN_Values (default EmptyString prefix).
Definition key_prefix (self : MemoryNamespace) : string :=
  match self with MN_Values prefix | MN_LocalMarkers prefix => prefix | MN_DurableMarkers scope => Tags.prefix scope end.
Definition durable_scope (self : MemoryNamespace) : option CacheScope :=
  match self with MN_DurableMarkers scope => Some scope | _ => None end.
Definition purpose (self : MemoryNamespace) : MemoryNamespacePurpose :=
  match self with
  | MN_Values _ => NP_Values
  | MN_LocalMarkers _ => NP_LocalMarkerObservations
  | MN_DurableMarkers _ => NP_DurableMarkerObservations
  end.
End MemoryNamespace.

(** [MemoryStorageEpoch] is the location of its 64-bit counter; 0 is exhausted. *)
Record MemoryGeneration := mkGeneration { generation_epoch : Loc; generation_value : Z }.

Section data.
Context {V : Type}.
(** [owner] names the cache whose observer hears of the record's retirement. *)
Record MemoryRecord := mkRecord {
  record_key : string; record_entry : Entry V; record_generation : MemoryGeneration;
  record_expires : option Instant; record_owner : Loc; record_capture : CaptureAdmission }.
Inductive MemoryCondition := MC_Any | MC_Absent | MC_Same (e : Entry V).
Record MemoryRetirement := mkRetired { retired_record : MemoryRecord; retired_reason : MemoryEvictionReason }.
Inductive MemoryStorageWrite :=
| MSW_Admitted (retired : list MemoryRetirement)
| MSW_Replaced (previous : MemoryRecord) (retired : list MemoryRetirement)
| MSW_Rejected (reason : CapacityRejection) (retired : list MemoryRetirement).

(** ** Accesses *)
Inductive SCall :=
(* the generation counters *)
| S_Load (e : Loc) | S_FetchUpdate (e : Loc)
(* the provider *)
| S_Epoch (namespace : MemoryNamespace)
| S_Get (key : string) | S_TryGet (key : string)
| S_Insert (candidate : MemoryRecord) (condition : MemoryCondition) (now : Timestamp)
| S_Remove (key : string) (expected : option (Entry V))
| S_ClearBefore (barrier : MemoryGeneration)
| S_Maintain (now : Timestamp) | S_Usage
(* clocks, allocation, continuity *)
| S_Now | S_Instant | S_Alloc | S_Stamps
(* the observer: its subscribers, what it keeps alive, what it is told *)
| S_CaptureAdmission | S_Retain (e : Entry V) | S_KeepOwner (owner : Loc)
| S_Retire (owner : Loc) (r : Retirement V)
| S_ComponentRead | S_Rejected (key : string) (reason : CapacityRejection)
| S_EmitSet (key : string) | S_EmitExpire (key : string) | S_EmitRemove (key : string).

Definition sanswer (c : SCall) : Type :=
  match c with
  | S_Load _ => Z
  | S_FetchUpdate _ => Z
  | S_Epoch _ | S_Alloc => Loc
  | S_Get _ | S_TryGet _ | S_Remove _ _ => result MemoryStorageError (option MemoryRecord)
  | S_Insert _ _ _ => result MemoryStorageError MemoryStorageWrite
  | S_ClearBefore _ => result MemoryStorageError (list MemoryRecord)
  | S_Maintain _ => result MemoryStorageError (list MemoryRetirement)
  | S_Usage => result MemoryStorageError MemoryUsage
  | S_Now => Timestamp
  | S_Instant => Instant
  | S_Stamps => Epochs
  | S_CaptureAdmission => CaptureAdmission
  | _ => unit
  end.
End data.
Arguments MemoryRecord : clear implicits.
Arguments MemoryCondition : clear implicits.
Arguments MemoryRetirement : clear implicits.
Arguments MemoryStorageWrite : clear implicits.
Arguments SCall : clear implicits.

(** ** Generations *)

(** What [fetch_update] leaves: exhausted for ever after [u64::MAX]. *)
Definition next_generation (value : Z) : Z :=
  if value =? 0 then 0 else if value =? u64_max then 0 else value + 1.

Section supplied.
Context {V : Type}.
Local Abbreviation prog := (prog (sanswer (V := V))).
Local Abbreviation action A := (prog (result MemoryStorageError A)).
Local Abbreviation ask c := (call (ans := sanswer (V := V)) c).
Implicit Types (r : MemoryRecord V).

Definition epoch_current (e : Loc) : action MemoryGeneration :=
  let* value := ask (S_Load e) in
  if value =? 0 then raise SE_GenerationExhausted else ok (mkGeneration e value).
(** [fetch_update] answers the value it replaced; it fails on 0. *)
Definition epoch_advance (e : Loc) : action MemoryGeneration :=
  let* value := ask (S_FetchUpdate e) in
  if value =? 0 then raise SE_GenerationExhausted
  else if value =? u64_max then raise SE_GenerationExhausted
  else ok (mkGeneration e (value + 1)).
Definition precedes (self : MemoryGeneration) r : bool :=
  bool_decide (generation_epoch self = generation_epoch (record_generation r))
  && (generation_value (record_generation r) <? generation_value self).
Definition is_current (self : MemoryGeneration) : prog bool :=
  if generation_value self =? 0 then Ret false
  else let* value := ask (S_Load (generation_epoch self)) in Ret (value =? generation_value self).

(** ** Records *)
Definition record_retirement_reason r (now : Timestamp) : prog (option MemoryEvictionReason) :=
  let* current := is_current (record_generation r) in
  if negb current then Ret (Some ME_Removed)
  else
    let* stamps := ask S_Stamps in
    if negb (Entry.is_read_eligible stamps (record_entry r)) then Ret (Some ME_Removed)
    else if Entry.is_physically_expired (record_entry r) now then Ret (Some ME_Expired)
    else
      match record_expires r with
      | Some deadline => let* instant := ask S_Instant in Ret (if deadline <=? instant then Some ME_Expired else None)
      | None => Ret None
      end.
Definition is_live_at r (now : Timestamp) : prog bool :=
  let* reason := record_retirement_reason r now in
  Ret match reason with None => true | Some _ => false end.
Definition is_same_entry r (e : Entry V) : bool := Entry.is_same_instance (record_entry r) e.
Definition record_weight r : Z := match Metadata.size (Entry.meta (record_entry r)) with Some weight => weight | None => 1 end.

(** A dead record counts as absent. *)
Definition condition_matches (self : MemoryCondition V) (current : option (MemoryRecord V)) (now : Timestamp) : prog bool :=
  let* current :=
    match current with
    | Some r => let* live := is_live_at r now in Ret (if live : bool then Some r else None)
    | None => Ret None
    end in
  Ret match self, current with
      | MC_Any, _ => true
      | MC_Absent, None => true
      | MC_Absent, Some _ => false
      | MC_Same e, Some r => is_same_entry r e
      | MC_Same _, None => false
      end.

(** ** The adapter *)

(** [Supplied]: the epoch of the cache's namespace, its observer and the rule of
    monotonic deadlines. *)
Record Supplied := mkSupplied { store_epoch : Loc; store_owner : Loc; store_expiry : MemoryExpiry }.

(** [CacheMemory::new_for_namespace] with a provider; the provider of a
    namespace is asked for its epoch once more, and a marker namespace for the
    epoch of the values of its prefix. *)
Definition new_for_namespace (limits : MemoryLimits) (owner : Loc) (expiry : MemoryExpiry) (namespace : MemoryNamespace)
    : prog (result (ConfigError + MemoryStorageError) Supplied) :=
  if negb (bool_decide (limits = MemoryLimits_default)) then raise (inl SuppliedMemoryWithBuiltinLimits)
  else
    let* epoch := ask (S_Epoch namespace) in
    let* again := ask (S_Epoch namespace) in
    if negb (bool_decide (epoch = again)) then raise (inl UnstableMemoryStorageEpoch)
    else
      let* aliased :=
        if bool_decide (MemoryNamespace.purpose namespace = NP_Values) then Ret false
        else
          let* values := ask (S_Epoch (MemoryNamespace.new (Some (MemoryNamespace.key_prefix namespace)))) in
          Ret (bool_decide (epoch = values)) in
      if aliased : bool then raise (inl AliasedMarkerMemoryStorageEpoch)
      else
        let* current := epoch_current epoch in
        Ret match current with
            | Ok _ => Ok (mkSupplied epoch owner expiry)
            | Err e => Err (inr e)
            end.

Context (self : Supplied).

Definition validate_record (key : string) r : result MemoryStorageError unit :=
  if negb (bool_decide (record_key r = key)) then Err (SE_InvalidRecord MV_Key)
  else if negb (bool_decide (generation_epoch (record_generation r) = store_epoch self)) then Err (SE_InvalidRecord MV_Namespace)
  else Ok tt.
Definition retire_as r (reason : RetirementReason) : prog unit :=
  ask (S_KeepOwner (record_owner r)) ;;;
  ask (S_Retire (record_owner r) (mkRetirement (record_key r) (record_entry r) reason (record_capture r))).
Definition retire (retirement : MemoryRetirement V) : prog unit :=
  retire_as (retired_record retirement)
    match retired_reason retirement with
    | ME_Removed => RR_Explicit
    | ME_Replaced => RR_Replaced
    | ME_Expired => RR_Expired
    | ME_Capacity => RR_Capacity
    end.
Fixpoint each {A} (f : A → prog unit) (l : list A) : prog unit :=
  match l with [] => Ret tt | a :: l => f a ;;; each f l end.

Definition dead_reason r : prog RetirementReason :=
  let* current := is_current (record_generation r) in
  if negb current then Ret RR_Continuity
  else
    let* stamps := ask S_Stamps in
    Ret (if Entry.is_read_eligible stamps (record_entry r) then RR_Expired else RR_Eligibility).

Definition get_at (key : string) (now : Timestamp) : action (option (Entry V)) :=
  ask S_ComponentRead ;;;
  let? _ := epoch_current (store_epoch self) in
  let? found := ask (S_Get key) in
  match found with
  | None => ok None
  | Some r =>
      let? _ := Ret (validate_record key r) in
      ask (S_KeepOwner (record_owner r)) ;;;
      let* live := is_live_at r now in
      if live : bool then ok (Some (record_entry r))
      else
        ask (S_Retain (record_entry r)) ;;;
        let? removed := ask (S_Remove key (Some (record_entry r))) in
        match removed with
        | Some removed => let* reason := dead_reason r in retire_as removed reason ;;; ok None
        | None => ok None
        end
  end.
(** Without suspending, and without removing what is dead. *)
Definition ready_at (key : string) (now : Timestamp) : action (option (Entry V)) :=
  ask S_ComponentRead ;;;
  let? _ := epoch_current (store_epoch self) in
  let? found := ask (S_TryGet key) in
  match found with
  | None => ok None
  | Some r =>
      let? _ := Ret (validate_record key r) in
      ask (S_KeepOwner (record_owner r)) ;;;
      let* live := is_live_at r now in
      ok (if live : bool then Some (record_entry r) else None)
  end.
Definition with_ready {R} (key : string) (now : Timestamp) (read : Entry V → Freshness → R) : action (option R) :=
  let? found := ready_at key now in
  ok match found with Some e => Some (read e (Entry.freshness e now)) | None => None end.

Definition remove_matching (key : string) (expected : option (Entry V)) : action (option (Entry V)) :=
  let? removed := ask (S_Remove key expected) in
  match removed with
  | None => ok None
  | Some r => retire_as r RR_Explicit ;;; ok (Some (record_entry r))
  end.
Definition remove (key : string) : action (option (Entry V)) :=
  let? e := remove_matching key None in
  ask (S_EmitRemove key) ;;;
  ok e.
Definition remove_if_same (key : string) (expected : Entry V) : action (option (Entry V)) :=
  remove_matching key (Some expected).

Definition begin_invalidation : action MemoryGeneration := epoch_advance (store_epoch self).
Definition clear_before (barrier : MemoryGeneration) : action unit :=
  let? cleared := ask (S_ClearBefore barrier) in
  each (λ r, retire_as r RR_Explicit) cleared ;;;
  ok tt.
Definition invalidate_all : action unit :=
  let? barrier := begin_invalidation in clear_before barrier.
Definition run_pending_tasks : action unit :=
  let* now := ask S_Now in
  let? retired := ask (S_Maintain now) in
  each retire retired ;;;
  ok tt.
Definition usage : action MemoryUsage := ask S_Usage.

(** *** Insertion *)
Definition rejected (key : string) (reason : CapacityRejection) : prog MemoryAdmission :=
  ask (S_Rejected key reason) ;;; Ret (MA_Rejected reason).
Definition storage_deadline (e : Entry V) : prog (option Instant) :=
  match store_expiry self with
  | ClockDriven => Ret None
  | RealTime => let* now := ask S_Instant in Ret (instant_checked_add now (Entry.backend_ttl e))
  end.
Definition prepare_record (key : string) (e : Entry V) (now : Timestamp) : action (MemoryRecord V) :=
  let* p := ask S_Alloc in
  let prepared := Entry.at_insertion p e now in
  ask (S_Retain prepared) ;;;
  let? generation := epoch_current (store_epoch self) in
  let* expires := storage_deadline prepared in
  let* capture := ask S_CaptureAdmission in
  ok (mkRecord key prepared generation expires (store_owner self) capture).
Definition replace_record (previous : MemoryRecord V) (event : MemoryWriteEvent) : prog MemoryAdmission :=
  retire_as previous match event with MW_Set => RR_Replaced | MW_Expire => RR_Metadata end ;;;
  Ret MA_Replaced.
Definition finish_insert (outcome : MemoryStorageWrite V) (event : MemoryWriteEvent) : prog MemoryAdmission :=
  let* done :=
    match outcome with
    | MSW_Admitted retired => Ret (MA_Admitted, retired)
    | MSW_Replaced previous retired => let* admission := replace_record previous event in Ret (admission, retired)
    | MSW_Rejected reason retired => Ret (MA_Rejected reason, retired)
    end in
  each retire (snd done) ;;;
  Ret (fst done).
Definition observe_insert (key : string) (admission : MemoryAdmission) (event : MemoryWriteEvent) : prog unit :=
  match admission with
  | MA_Rejected reason => let* _ := rejected key reason in Ret tt
  | MA_Admitted | MA_Replaced => match event with MW_Set => ask (S_EmitSet key) | MW_Expire => ask (S_EmitExpire key) end
  end.
Definition insert (key : string) (e : Entry V) (now : Timestamp) (condition : MemoryCondition V) (event : MemoryWriteEvent)
    : action MemoryAdmission :=
  ask (S_Retain e) ;;;
  if Entry.is_physically_expired e now then let* admission := rejected key PhysicallyExpired in ok admission
  else
    let? candidate := prepare_record key e now in
    let? outcome := ask (S_Insert candidate condition now) in
    let* admission := finish_insert outcome event in
    observe_insert key admission event ;;;
    ok admission.
Definition insert_at key e now : action MemoryAdmission := insert key e now MC_Any MW_Set.
Definition insert_if_unchanged key (expected : option (Entry V)) e now : action MemoryAdmission :=
  insert key e now match expected with Some expected => MC_Same expected | None => MC_Absent end MW_Set.
Definition expire_if_unchanged key (expected e : Entry V) now : action MemoryAdmission :=
  insert key e now (MC_Same expected) MW_Expire.
End supplied.

(** ** The generations other tasks may have advanced to *)
Module SuppliedTheory.
(** One access, answered. *)
Ltac answered x v Hv :=
  let h := fresh in let E := fresh in let w := fresh in let Ew := fresh in
  intros x [v h] [E (w & Hv & Ew)]; simpl in E, Hv, Ew; subst h; subst w; simpl.

Section theory.
Context {V : Type} (ep : Loc).
Local Abbreviation prog := (prog (sanswer (V := V))).
Local Abbreviation event := (event (sanswer (V := V))).

Definition later : Z → Z → Prop := rtc (λ a b, b = next_generation a).
Definition counter (v : Z) : Prop := 0 ≤ v ≤ u64_max.

Lemma later_bounds a b : later a b → counter a → counter b ∧ (b = 0 ∨ a ≠ 0 ∧ a ≤ b).
Proof.
  induction 1 as [a|a b c -> _ IH]; unfold counter, next_generation in *; intros Ha; [lia|].
  destruct IH as [? ?]; repeat case_match; bool_to_prop; lia.
Qed.
Lemma later_trans a b c : later a b → later b c → later a c.
Proof. intros. by etrans. Qed.
Lemma later_next a b : later a b → later a (next_generation b).
Proof. intros H. eapply rtc_r; [done|done]. Qed.

(** Every answer, with the counter of [ep] read and advanced in one total order. *)
Definition shared : Env (sanswer (V := V)) :=
  mkEnv (Z * list event) (λ s c x s',
    s'.2 = Ev c x :: s.2 ∧
    ∃ v, later s.1 v ∧
      match c return sanswer c → Prop with
      | S_Load e => λ x, s'.1 = v ∧ (e = ep → x = v)
      | S_FetchUpdate e => λ x, if decide (e = ep) then x = v ∧ s'.1 = next_generation v else s'.1 = v
      | _ => λ _, s'.1 = v
      end x).

Lemma shared_kept {A} (p : prog A) v h :
  wp shared p (v, h) (λ _ s', later v s'.1 ∧ ∀ x, x ∈ h → x ∈ s'.2).
Proof.
  apply (wp_invariant shared (λ _, True) (λ s' : env_state shared, later v s'.1 ∧ ∀ x, x ∈ h → x ∈ s'.2)).
  - by induction p as [|c k IH]; simpl; [|split].
  - split; [apply rtc_refl|done].
  - intros s c x s' _ [Hv Hl] [Hh (v' & Hv' & Hc)]. split; [|intros y Hy; rewrite Hh; right; auto].
    assert (later v v') by by eapply later_trans. destruct c; simpl in Hc; try (by rewrite Hc).
    + by destruct Hc as [-> _].
    + case_decide; [|by rewrite Hc]. destruct Hc as [_ ->]. by apply later_next.
Qed.
Lemma wp_kept {A} (p : prog A) v h Q :
  wp shared p (v, h) Q → wp shared p (v, h) (λ a s', Q a s' ∧ later v s'.1 ∧ ∀ x, x ∈ h → x ∈ s'.2).
Proof. intros H. eapply wp_conj; [done|apply shared_kept]. Qed.

(** A record found live was of a generation reached since, and was eligible and
    unexpired. *)
Definition live_since (v : Z) (now : Timestamp) (r : MemoryRecord V) (h : list event) : Prop :=
  (generation_epoch (record_generation r) = ep → later v (generation_value (record_generation r))) ∧
  generation_value (record_generation r) ≠ 0 ∧
  Entry.is_physically_expired (record_entry r) now = false ∧
  (∃ stamps, Ev S_Stamps stamps ∈ h ∧ Entry.is_read_eligible stamps (record_entry r) = true) ∧
  (∀ deadline, record_expires r = Some deadline → ∃ instant, Ev S_Instant instant ∈ h ∧ instant < deadline).
(** A record found dead is of another generation, ineligible or expired. *)
Definition found_dead (now : Timestamp) (r : MemoryRecord V) (h : list event) : Prop :=
  generation_value (record_generation r) = 0 ∨
  (∃ x, Ev (S_Load (generation_epoch (record_generation r))) x ∈ h ∧ x ≠ generation_value (record_generation r)) ∨
  (∃ stamps, Ev S_Stamps stamps ∈ h ∧ Entry.is_read_eligible stamps (record_entry r) = false) ∨
  Entry.is_physically_expired (record_entry r) now = true ∨
  ∃ deadline instant, record_expires r = Some deadline ∧ Ev S_Instant instant ∈ h ∧ deadline ≤ instant.
Lemma wp_live r now v h :
  wp shared (is_live_at r now) (v, h) (λ b s', if b : bool then live_since v now r s'.2 else found_dead now r s'.2).
Proof.
  unfold is_live_at, record_retirement_reason, is_current.
  destruct (generation_value (record_generation r) =? 0) eqn:E0; simpl; [left; by bool_to_prop|].
  intros x [v1 h1] [Hh (v' & Hv & Hv1 & Hx)]. simpl in *. subst v1 h1.
  destruct (x =? generation_value (record_generation r)) eqn:Ex; simpl; bool_to_prop.
  2: { right. left. exists x. split; [by left|done]. }
  intros st [v2 h2] [Hh (v'' & Hv' & Hc)]. simpl in *. subst v2 h2.
  destruct (Entry.is_read_eligible st (record_entry r)) eqn:Hel; simpl.
  2: { right. right. left. exists st. split; [by left|done]. }
  destruct (Entry.is_physically_expired (record_entry r) now) eqn:Hph; simpl; [do 3 right; by left|].
  assert (generation_epoch (record_generation r) = ep → later v (generation_value (record_generation r))) as Hg.
  { intros E. rewrite <- Ex, (Hx E). done. }
  destruct (record_expires r) as [d|] eqn:Hd; simpl.
  - intros i [v3 h3] [Hh (v3' & Hv3 & Hc)]. simpl in *. subst v3 h3.
    destruct (d <=? i) eqn:Hi; bool_to_prop.
    { do 4 right. exists d, i. split_and!; [done|by left|done]. }
    split_and!; [done|done|done| |].
    + exists st. split; [right; by left|done].
    + intros d' Hd'. assert (d' = d) as -> by congruence. exists i. split; [by left|done].
  - split_and!; [done|done|done| |congruence]. exists st. split; [by left|done].
Qed.

Context (self : Supplied) (Hself : store_epoch self = ep).

(** What a read serves, and why it fails: the namespace is exhausted, the
    provider said so, or its record is not of this key and namespace. *)
Definition record_of (key : string) (h : list event) (r : MemoryRecord V) : Prop :=
  Ev (S_Get key) (Ok (Some r)) ∈ h ∨ Ev (S_TryGet key) (Ok (Some r)) ∈ h.
Definition read_fault (key : string) (h : list event) (e : MemoryStorageError) : Prop :=
  e = SE_GenerationExhausted ∧ Ev (S_Load ep) 0 ∈ h ∨
  Ev (S_Get key) (Err e) ∈ h ∨ Ev (S_TryGet key) (Err e) ∈ h ∨
  (∃ expected, Ev (S_Remove key expected) (Err e) ∈ h) ∨
  ∃ r, record_of key h r ∧ validate_record self key r = Err e.
(** ... and why it serves nothing: the provider has no record, or the one it has
    is not live. *)
Definition absent (key : string) (now : Timestamp) (h : list event) : Prop :=
  Ev (S_Get key) (Ok None) ∈ h ∨ Ev (S_TryGet key) (Ok None) ∈ h ∨ ∃ r, record_of key h r ∧ found_dead now r h.
Definition validated (key : string) (now : Timestamp) (v : Z) (answer : result MemoryStorageError (option (Entry V)))
    (s' : env_state shared) : Prop :=
  match answer with
  | Ok (Some e) => ∃ r, record_of key s'.2 r ∧ record_entry r = e ∧ record_key r = key ∧
      generation_epoch (record_generation r) = ep ∧ live_since v now r s'.2
  | Ok None => absent key now s'.2
  | Err e => read_fault key s'.2 e
  end.
(** The provider reported no fault, and the records it found are of this key
    and namespace. *)
Definition calm (key : string) (ev : event) : Prop :=
  match ev with
  | Ev c x =>
      match c return sanswer c → Prop with
      | S_Get _ => λ x, match x with Ok (Some r) => validate_record self key r = Ok tt | Ok None => True | Err _ => False end
      | S_TryGet _ => λ x, match x with Ok (Some r) => validate_record self key r = Ok tt | Ok None => True | Err _ => False end
      | S_Remove _ _ => λ x, match x with Ok _ => True | Err _ => False end
      | _ => λ _, True
      end x
  end.
(** A read begins with the counter of the namespace, and answers when that is
    not exhausted and all it hears is calm. *)
Definition trusting (key : string) (h : list event) (answer : result MemoryStorageError (option (Entry V)))
    (s' : env_state shared) : Prop :=
  ∃ g l, s'.2 = l ++ Ev (S_Load (store_epoch self)) g :: Ev S_ComponentRead tt :: h ∧
    if g =? 0 then answer = Err SE_GenerationExhausted else ∀ found, answer = Ok found → Forall (calm key) l.
Lemma validate_record_ok key (r : MemoryRecord V) :
  validate_record self key r = Ok tt → record_key r = key ∧ generation_epoch (record_generation r) = ep.
Proof. unfold validate_record. repeat case_bool_decide; simpl; try done. by rewrite <- Hself. Qed.
Lemma live_since_later v v' now r h : later v v' → live_since v' now r h → live_since v now r h.
Proof. intros Hv [Hg H]. split; [|done]. intros E. by eapply later_trans, Hg. Qed.

Lemma found_dead_kept now r h h' : (∀ x, x ∈ h → x ∈ h') → found_dead now r h → found_dead now r h'.
Proof.
  intros Hk [?|[(x & ? & ?)|[(st & ? & ?)|[?|(d & i & ? & ? & ?)]]]]; [by left|right; left|right; right; left|do 3 right; by left|do 4 right].
  - exists x. auto.
  - exists st. auto.
  - exists d, i. auto.
Qed.
Lemma absent_dead key now r h h' : record_of key h r → (∀ x, x ∈ h → x ∈ h') → found_dead now r h → absent key now h'.
Proof. intros Hr Hk Hd. right. right. exists r. split; [destruct Hr; [left|right]; auto|by eapply found_dead_kept]. Qed.

Lemma wp_get_at key now v h : wp shared (get_at self key now) (v, h) (validated key now v).
Proof.
  answered x1 v1 Hv1; destruct x1 as [].
  intros g [v2 h2] [Hh (v2' & Hv2 & Hc & Hg)]. simpl in *. subst v2 h2.
  destruct (g =? 0) eqn:Eg; simpl.
  { left. split; [done|]. bool_to_prop. subst g. rewrite <- Hself. by left. }
  answered x3 v3 Hv3; destruct x3 as [[r|]|e]; simpl; [|left; by left|right; left; by left].
  assert (later v v3) as Hv by (do 2 (eapply later_trans; [done|]); done).
  destruct (validate_record self key r) as [[]|e] eqn:Hval; simpl.
  - destruct (validate_record_ok _ _ Hval) as [Hk He].
    answered x4 v4 Hv4; destruct x4 as [].
    apply wp_bind. eapply wp_mono; [apply wp_kept, wp_live|]. intros live [v5 h5] (Hlive & Hv5 & Hkept). simpl in *.
    assert (record_of key h5 r) as Hof by (left; apply Hkept; right; by left).
    destruct live; simpl.
    + exists r. split_and!; try done. eapply live_since_later, Hlive. by eapply later_trans.
    + answered x6 v6 Hv6; destruct x6 as []. answered x7 v7 Hv7; destruct x7 as [[removed|]|e]; simpl; [| |do 3 right; left; eexists; by left].
      * apply wp_bind. eapply wp_mono; [apply shared_kept|]. intros reason [v8 h8] [_ Hk8]. simpl in *.
        answered x9 v9 Hv9. answered x10 v10 Hv10. apply (absent_dead _ _ _ _ _ Hof); [|done]. intros y Hy.
        do 2 right. apply Hk8. do 2 right. done.
      * apply (absent_dead _ _ _ _ _ Hof); [|done]. intros y Hy. by do 2 right.
  - do 4 right. exists r. split; [|done]. left. by left.
Qed.
Lemma wp_ready_at key now v h : wp shared (ready_at self key now) (v, h) (validated key now v).
Proof.
  answered x1 v1 Hv1; destruct x1 as [].
  intros g [v2 h2] [Hh (v2' & Hv2 & Hc & Hg)]. simpl in *. subst v2 h2.
  destruct (g =? 0) eqn:Eg; simpl.
  { left. split; [done|]. bool_to_prop. subst g. rewrite <- Hself. by left. }
  answered x3 v3 Hv3; destruct x3 as [[r|]|e]; simpl; [|right; left; by left|do 2 right; left; by left].
  assert (later v v3) as Hv by (do 2 (eapply later_trans; [done|]); done).
  destruct (validate_record self key r) as [[]|e] eqn:Hval; simpl.
  - destruct (validate_record_ok _ _ Hval) as [Hk He].
    answered x4 v4 Hv4; destruct x4 as [].
    apply wp_bind. eapply wp_mono; [apply wp_kept, wp_live|]. intros live [v5 h5] (Hlive & Hv5 & Hkept). simpl in *.
    assert (record_of key h5 r) as Hof by (right; apply Hkept; right; by left).
    destruct live; simpl; [|by apply (absent_dead _ _ _ _ _ Hof)].
    exists r. split_and!; try done. eapply live_since_later, Hlive. by eapply later_trans.
  - do 4 right. exists r. split; [|done]. right. by left.
Qed.

(** The accesses of a read but those to the provider's records. *)
Definition quiet (c : SCall V) : Prop := match c with S_Get _ | S_TryGet _ | S_Remove _ _ => False | _ => True end.
Lemma wp_quiet {A} key (p : prog A) v h : only quiet p →
  wp shared p (v, h) (λ _ s', ∃ l, s'.2 = l ++ h ∧ Forall (calm key) l).
Proof.
  intros Hp. apply (wp_invariant shared quiet (λ s' : env_state shared, ∃ l, s'.2 = l ++ h ∧ Forall (calm key) l)); [done|by exists []|].
  intros s c x s' Hc (l & Hs & Hl) [Hh _]. exists (Ev c x :: l). rewrite Hh, Hs. split; [done|]. constructor; [by destruct c|done].
Qed.
Lemma live_quiet now (r : MemoryRecord V) : only quiet (is_live_at r now).
Proof.
  unfold is_live_at, record_retirement_reason, is_current. apply only_bind; [|done].
  apply only_bind; [by case_match|]. intros []; simpl; [|done]. split; [done|]. intros st. repeat case_match; simpl; auto.
Qed.
Lemma dead_quiet (r removed : MemoryRecord V) : only quiet (let* reason := dead_reason r in retire_as removed reason ;;; ok (E := MemoryStorageError) (@None (Entry V))).
Proof.
  unfold dead_reason, is_current. apply only_bind.
  - apply only_bind; [by case_match|]. intros []; simpl; [|done]. by split.
  - intros reason. by repeat split.
Qed.
Lemma wp_get_trusting key now v h : wp shared (get_at self key now) (v, h) (trusting key h).
Proof.
  answered x1 v1 Hv1; destruct x1 as []. intros g [v2 h2] [Hh (v2' & Hv2 & Hc0 & Hg)]. simpl in *. subst v2 h2. destruct (g =? 0) eqn:Eg; simpl; [by exists g, []; rewrite Eg|].
  answered x3 v3 Hv3. destruct x3 as [[r|]|e]; simpl.
  - destruct (validate_record self key r) as [[]|e] eqn:Hval; simpl.
    + answered x4 v4 Hv4; destruct x4 as []. apply wp_bind. eapply wp_mono; [apply (wp_quiet key), live_quiet|].
      intros live [v5 h5] (l & Hl & Hc). simpl in Hl. subst h5. destruct live; simpl.
      * exists g, (l ++ [Ev (S_KeepOwner (record_owner r)) tt; Ev (S_Get key) (Ok (Some r))]). rewrite Eg, <-(assoc_L (++)).
        split; [done|]. intros found _. apply Forall_app. by repeat constructor.
      * answered x6 v6 Hv6; destruct x6 as []. answered x7 v7 Hv7; destruct x7 as [[removed|]|e]; simpl.
        -- eapply wp_mono; [apply (wp_quiet key), (dead_quiet r removed)|]. intros a [v8 h8] (l' & Hl' & Hc'). simpl in Hl'. subst h8.
           eexists g, (l' ++ _ :: _ :: l ++ [_; _]). rewrite Eg, <-(assoc_L (++)). cbn. rewrite <-(assoc_L (++)). split; [done|]. intros found _.
           apply Forall_app. split; [done|]. do 2 (constructor; [done|]). apply Forall_app. by repeat constructor.
        -- eexists g, (_ :: _ :: l ++ [_; _]). rewrite Eg. cbn. rewrite <-!(assoc_L (++)). split; [done|]. intros found _.
           do 2 (constructor; [done|]). apply Forall_app. by repeat constructor.
        -- eexists g, (_ :: _ :: l ++ [_; _]). rewrite Eg. cbn. by rewrite <-!(assoc_L (++)).
    + exists g, [Ev (S_Get key) (Ok (Some r))]. by rewrite Eg.
  - exists g, [Ev (S_Get key) (Ok None)]. rewrite Eg. split; [done|]. intros found _. by repeat constructor.
  - exists g, [Ev (S_Get key) (Err e)]. by rewrite Eg.
Qed.
Lemma wp_ready_trusting key now v h : wp shared (ready_at self key now) (v, h) (trusting key h).
Proof.
  answered x1 v1 Hv1; destruct x1 as []. intros g [v2 h2] [Hh (v2' & Hv2 & Hc0 & Hg)]. simpl in *. subst v2 h2. destruct (g =? 0) eqn:Eg; simpl; [by exists g, []; rewrite Eg|].
  answered x3 v3 Hv3. destruct x3 as [[r|]|e]; simpl.
  - destruct (validate_record self key r) as [[]|e] eqn:Hval; simpl.
    + answered x4 v4 Hv4; destruct x4 as []. apply wp_bind. eapply wp_mono; [apply (wp_quiet key), live_quiet|].
      intros live [v5 h5] (l & Hl & Hc). simpl in Hl. subst h5.
      exists g, (l ++ [Ev (S_KeepOwner (record_owner r)) tt; Ev (S_TryGet key) (Ok (Some r))]). rewrite Eg, <-(assoc_L (++)).
      split; [done|]. intros found _. apply Forall_app. by repeat constructor.
    + exists g, [Ev (S_TryGet key) (Ok (Some r))]. by rewrite Eg.
  - exists g, [Ev (S_TryGet key) (Ok None)]. rewrite Eg. split; [done|]. intros found _. by repeat constructor.
  - exists g, [Ev (S_TryGet key) (Err e)]. by rewrite Eg.
Qed.

(** *** Clears *)
Lemma wp_each {A} (f : A → prog unit) (l : list A) v h Q :
  (∀ s', later v s'.1 → (∀ x, x ∈ h → x ∈ s'.2) → Q tt s') → wp shared (each f l) (v, h) Q.
Proof. intros HQ. eapply wp_mono; [apply shared_kept|]. intros [] s' [Hv Hk]. by apply HQ. Qed.
Lemma wp_invalidate_all v h :
  counter v →
  wp shared (invalidate_all self) (v, h) (λ r s', match r with Ok _ => v ≠ 0 → v < s'.1 ∨ s'.1 = 0 | Err _ => True end).
Proof.
  intros Hcv. intros g [v1 h1] [Hh (w & Hw & Hg)]. rewrite decide_True in Hg by done. destruct Hg as [-> Hv1].
  simpl in Hh, Hv1, Hw. subst v1 h1. destruct (later_bounds _ _ Hw Hcv) as [Hcw Hvw].
  simpl. destruct (w =? 0) eqn:E0; simpl; [done|]. destruct (w =? u64_max) eqn:Em; simpl; [done|]. bool_to_prop.
  answered x2 v2 Hv2. destruct x2 as [cleared|e]; simpl; [|done]. apply wp_bind, wp_each. intros [v3 h3] Hv3 _. simpl in *. intros Hne.
  assert (later (next_generation w) v3) as Hl by by eapply later_trans.
  assert (next_generation w = w + 1) as En by (unfold next_generation; repeat case_match; bool_to_prop; lia).
  destruct (later_bounds _ _ Hl) as [_ [->|[_ ?]]]; [unfold counter in *; lia|by right|left; lia].
Qed.

(** *** Insertions *)
Definition admission_of (outcome : MemoryStorageWrite V) : MemoryAdmission :=
  match outcome with
  | MSW_Admitted _ => MA_Admitted
  | MSW_Replaced _ _ => MA_Replaced
  | MSW_Rejected reason _ => MA_Rejected reason
  end.
(** The record offered to the provider. *)
Definition stamped (key : string) (e : Entry V) (now : Timestamp) (v : Z) (candidate : MemoryRecord V) : Prop :=
  record_key candidate = key ∧ (∃ p, record_entry candidate = Entry.at_insertion p e now) ∧
  generation_epoch (record_generation candidate) = ep ∧ generation_value (record_generation candidate) ≠ 0 ∧
  later v (generation_value (record_generation candidate)) ∧ record_owner candidate = store_owner self.
Lemma wp_finish_insert outcome event v h Q :
  (∀ s', later v s'.1 → (∀ x, x ∈ h → x ∈ s'.2) → Q (admission_of outcome) s') → wp shared (finish_insert outcome event) (v, h) Q.
Proof.
  intros HQ. eapply wp_mono; [apply wp_kept; instantiate (1 := λ a _, a = admission_of outcome)|].
  - unfold finish_insert. destruct outcome as [rs|p rs|re rs]; simpl.
    + apply wp_bind, wp_each. by intros.
    + answered x1 v1 Hv1. answered x2 v2 Hv2. apply wp_bind, wp_each. by intros.
    + apply wp_bind, wp_each. by intros.
  - intros a s' (-> & ? & ?). by apply HQ.
Qed.
Lemma wp_prepare_record key e now v h :
  wp shared (prepare_record self key e now) (v, h) (λ r _,
    match r with Ok candidate => stamped key e now v candidate | Err e => e = SE_GenerationExhausted end).
Proof.
  answered p v2 Hv2. answered x3 v3 Hv3.
  intros g [v4 h4] [Hh (w & Hw & Hg & Hgv)]. simpl in *. subst v4 h4.
  destruct (g =? 0) eqn:Eg; simpl; [done|]. bool_to_prop.
  assert (later v g) as Hvg by (rewrite (Hgv Hself); do 2 (eapply later_trans; [done|]); done).
  apply wp_bind. unfold storage_deadline. destruct (store_expiry self); simpl.
  - answered c v5 Hv5. split_and!; try done. by exists p.
  - answered i v5 Hv5. answered c v6 Hv6. split_and!; try done. by exists p.
Qed.
Lemma wp_insert key e now condition event v h :
  Entry.is_physically_expired e now = false →
  wp shared (insert self key e now condition event) (v, h) (λ r s',
    match r with
    | Ok a => ∃ candidate outcome, Ev (S_Insert candidate condition now) (Ok outcome) ∈ s'.2 ∧
        stamped key e now v candidate ∧ a = admission_of outcome
    | Err e => e = SE_GenerationExhausted ∨ ∃ candidate, Ev (S_Insert candidate condition now) (Err e) ∈ s'.2
    end).
Proof.
  intros Hph. unfold insert. answered x1 v1 Hv1. rewrite Hph. apply wp_attempt.
  eapply wp_mono; [apply wp_prepare_record|]. intros [candidate|er] [v2 h2]; [|by left]. intros Hst.
  answered x3 v3 Hv3. destruct x3 as [outcome|er]; simpl; [|right; exists candidate; by left].
  apply wp_bind, wp_finish_insert. intros [v4 h4] Hv4 Hk. simpl in *.
  apply wp_bind. eapply wp_mono; [apply shared_kept|]. intros [] [v5 h5] [Hv5 Hk5]. simpl in *.
  exists candidate, outcome. split; [apply Hk5, Hk; by left|]. split; [|done].
  destruct Hst as (? & ? & ? & ? & ? & ?). split_and!; try done. by eapply later_trans.
Qed.
End theory.
End SuppliedTheory.

(** ** What the cache may trust of a supplied store *)
Module SuppliedTheorems.
Import SuppliedTheory.
Section theorems.
Context {V : Type} (self : Supplied).
Local Abbreviation shared := (shared (V := V) (store_epoch self)).

Lemma not_preceded v (r : MemoryRecord V) now h :
  counter v → live_since (store_epoch self) v now r h → generation_epoch (record_generation r) = store_epoch self →
  v ≤ generation_value (record_generation r).
Proof. intros Hv (Hl & H0 & _) E. destruct (later_bounds _ _ (Hl E) Hv) as [_ [?|[_ ?]]]; [done|lia]. Qed.

(** C30: whatever a supplied memory store answers, a read serves only the
    entry of a record of that very key and namespace, eligible and unexpired, and
    never one that a clear begun before the read covers. It answers that there
    is nothing only when the provider has no record or the one it has is of
    another generation, ineligible or expired. It answers anything at all only
    when the namespace was not exhausted at its start, the provider reported no
    fault and every record it gave is of this key and namespace; otherwise it
    reports that fault. *)
Theorem supplied_reads_are_validated key now v :
  counter v →
  let served (r : result MemoryStorageError (option (Entry V))) s' :=
    trusting (store_epoch self) self key [] r s' ∧
    validated (store_epoch self) self key now v r s' ∧
    ∀ e, r = Ok (Some e) → ∃ record, record_of key s'.2 record ∧ record_entry record = e ∧
      ∀ barrier, generation_epoch barrier = store_epoch self → generation_value barrier ≤ v → precedes barrier record = false in
  wp shared (get_at self key now) (v, []) served ∧ wp shared (ready_at self key now) (v, []) served.
Proof.
  intros Hv served.
  assert (∀ p, wp shared p (v, []) (trusting (store_epoch self) self key []) → wp shared p (v, []) (validated (store_epoch self) self key now v) →
    wp shared p (v, []) served) as Hp.
  { intros p Ht H. eapply wp_mono; [eapply wp_conj; [exact Ht|exact H]|]. intros r s' [Htr Hr]. split; [done|]. split; [done|]. intros e ->.
    destruct Hr as (record & ? & ? & ? & Hep & Hl). exists record. split; [done|]. split; [done|]. intros b Hb Hbv.
    unfold precedes. assert (v ≤ generation_value (record_generation record)) by by eapply not_preceded.
    apply andb_false_iff. right. apply Z.ltb_ge. lia. }
  split; apply Hp; [by apply wp_get_trusting|by apply wp_get_at|by apply wp_ready_trusting|by apply wp_ready_at].
Qed.

(** A completed clear is final: a read after it serves only records
    stamped after the clear began. *)
Theorem cleared_records_stay_cleared key now v :
  counter v → v ≠ 0 →
  wp shared (let? _ := invalidate_all self in get_at self key now) (v, []) (λ r s',
    ∀ e, r = Ok (Some e) → ∃ record, record_of key s'.2 record ∧ record_entry record = e ∧
      v < generation_value (record_generation record)).
Proof.
  intros Hv H0. apply wp_attempt. eapply wp_mono; [apply wp_kept, wp_invalidate_all; done|].
  intros [u|er] [v1 h1] (Hcl & Hl & _); [|done]. simpl in Hcl, Hl.
  eapply wp_mono; [by apply wp_get_at|].
  intros r s' Hr e ->. destruct Hr as (record & ? & ? & ? & Hep & Hlive). exists record. split; [done|]. split; [done|].
  destruct (later_bounds _ _ Hl Hv) as [Hv1 _]. pose proof (not_preceded _ _ _ _ Hv1 Hlive Hep).
  destruct (Hcl H0) as [?|E]; [lia|]. destruct Hlive as (Hg & Hn & _).
  destruct (later_bounds _ _ (Hg Hep) Hv1) as [_ [?|[? _]]]; [done|congruence].
Qed.

(** An insertion offers the provider a record stamped with this key, the
    generation of the moment and this cache, and answers what the provider
    decided; an entry that is physically expired is never offered. *)
Theorem supplied_insertions_are_stamped key e now condition event v :
  wp shared (insert self key e now condition event) (v, []) (λ r s',
    if Entry.is_physically_expired e now then r = Ok (MA_Rejected PhysicallyExpired) ∧
      ∀ candidate outcome, Ev (S_Insert candidate condition now) outcome ∉ s'.2
    else match r with
         | Ok a => ∃ candidate outcome, Ev (S_Insert candidate condition now) (Ok outcome) ∈ s'.2 ∧
             stamped (store_epoch self) self key e now v candidate ∧ a = admission_of outcome
         | Err er => er = SE_GenerationExhausted ∨ ∃ candidate, Ev (S_Insert candidate condition now) (Err er) ∈ s'.2
         end).
Proof.
  destruct (Entry.is_physically_expired e now) eqn:Hph; [|by apply wp_insert].
  unfold insert. answered x1 v1 Hv1. rewrite Hph. simpl. answered x2 v2 Hv2. split; [done|].
  intros candidate outcome Hin. by apply elem_of_cons in Hin as [?|[?|?%elem_of_nil]%elem_of_cons].
Qed.
End theorems.

Definition sample_supplied : Supplied := mkSupplied 7 9 ClockDriven.
Lemma supplied_reads_are_validated_witness :
  wp (shared (V := nat) 7) (get_at sample_supplied "key" 100) (3, []) (λ r s',
    ∀ e, r = Ok (Some e) → ∃ record, record_of "key" s'.2 record ∧ record_entry record = e ∧
      precedes (mkGeneration 7 2) record = false).
Proof.
  assert (counter 3) as Hc by (unfold counter; lia).
  eapply wp_mono; [exact (proj1 (supplied_reads_are_validated sample_supplied "key" 100 3 Hc))|].
  intros r s' (_ & _ & H) e He. destruct (H e He) as (record & ? & ? & Hb). exists record. split; [done|]. split; [done|].
  apply Hb; [reflexivity|simpl; lia].
Defined.
Lemma cleared_records_stay_cleared_witness :
  wp (shared (V := nat) 7) (let? _ := invalidate_all sample_supplied in get_at sample_supplied "key" 100) (3, []) (λ r s',
    ∀ e, r = Ok (Some e) → ∃ record, record_of "key" s'.2 record ∧ record_entry record = e ∧
      3 < generation_value (record_generation record)).
Proof.
  assert (counter 3) as Hc by (unfold counter; lia).
  apply (cleared_records_stay_cleared sample_supplied "key" 100 3 Hc). lia.
Defined.

(** A supplied store with one record: it is served before a clear, not after. *)
Definition sample_resident : Entry nat :=
  mkEntry 1 (mkInner 5%nat
    {| created := 0; inserted_at := 0; logical_expiration := 1000; physical_expiration := 1000;
       meta_backend_ttl := Duration_ZERO; origin := EO_Fresh None; etag := None; last_modified := None;
       tags := []; retention := RM_Unspecified |} EL_Local).
Definition one_record : handler (ans := sanswer (V := nat)) Z := λ value c,
  match c return sanswer c * Z with
  | S_Load _ => (value, value)
  | S_FetchUpdate _ => (value, next_generation value)
  | S_Epoch _ => (7%positive, value)
  | S_Get _ | S_TryGet _ => (Ok (Some (mkRecord "key" sample_resident (mkGeneration 7 3) None 9 Armed)), value)
  | S_Remove _ _ => (Ok None, value)
  | S_Insert _ _ _ => (Err SE_Provider, value)
  | S_ClearBefore _ => (Ok [], value)
  | S_Maintain _ => (Ok [], value)
  | S_Usage => (Ok (mkUsage 1 1), value)
  | S_Now => (0, value)
  | S_Instant => (0, value)
  | S_Alloc => (1%positive, value)
  | S_Stamps => (λ _, 0, value)
  | S_CaptureAdmission => (Armed, value)
  | S_Retain _ | S_KeepOwner _ | S_Retire _ _ | S_ComponentRead | S_Rejected _ _
  | S_EmitSet _ | S_EmitExpire _ | S_EmitRemove _ => (tt, value)
  end.
Example supplied_run :
  (Calls.run one_record (get_at sample_supplied "key" 100) 3).1 = Ok (Some sample_resident) ∧
  (Calls.run one_record (let? _ := invalidate_all sample_supplied in get_at sample_supplied "key" 100) 3).1 = Ok None ∧
  (Calls.run one_record (get_at sample_supplied "other" 100) 3).1 = Err (SE_InvalidRecord MV_Key).
Proof. vm_compute. eauto. Qed.
End SuppliedTheorems.
