(* ===== verification/Sharded.v ===== *)
(** * The sharded unbounded store

    Models [src/src/memory/sharded.rs], [src/src/memory/sharded/plain.rs] and
    [src/src/memory/deadlines.rs]. A shard's reader-writer lock makes each
    operation on it atomic; the generation counter is read once inside. The hash
    function of the map is a parameter. [get] reads under the shared lock and
    removes under the exclusive one: its two halves are separate definitions, so
    that a write can come in between.

    [instant] is the [Instant::now()] reading of an operation and [coarse] the
    bound [time::coarse::upper_bound] returns for it. *)
From stdpp Require Import functions.
From S2P Require Import Prelude Time Options Entry Origins Storage.

(** ** Deadlines *)
Inductive Timing := T_Interoperable | T_Local (clock : LocalClock).
Inductive Deadlines :=
| D_Interoperable (physical : option Instant)
| D_Local (logical physical : MonotonicDeadline).

Module Timing.
Definition prepare_boundaries (self : Timing) (logical physical : Timestamp)
    (time : WriteTime) (expiry : MemoryExpiry) (instant : Instant) : Deadlines :=
  match self with
  | T_Interoperable =>
      D_Interoperable
        match expiry with
        | ClockDriven => None
        | RealTime =>
            instant_checked_add (WriteTime.physical_start time instant)
              (saturating_duration_since physical (WriteTime.now time))
        end
  | T_Local clock =>
      let logical_deadline := LocalClock.deadline clock logical in
      D_Local logical_deadline
        (if physical =? logical then logical_deadline else LocalClock.deadline clock physical)
  end.
Definition prepare (self : Timing) (meta : Metadata) (time : WriteTime)
    (expiry : MemoryExpiry) (instant : Instant) : Deadlines :=
  prepare_boundaries self (logical_expiration meta) (physical_expiration meta) time expiry
    instant.
End Timing.

Module Deadlines.
Definition physically_expired (self : Deadlines) (meta : Metadata) (now : option Timestamp)
    (elapsed : Instant) : bool :=
  match self with
  | D_Interoperable physical =>
      match now with Some now => physical_expiration meta <=? now | None => false end
      || match physical with Some deadline => deadline <=? elapsed | None => false end
  | D_Local _ physical => MonotonicDeadline.expired physical elapsed
  end.
(** [None] is the [unreachable!] of the other map. *)
Definition freshness (self : Deadlines) (now : Instant) : option Freshness :=
  match self with
  | D_Local logical _ => Some (if MonotonicDeadline.expired logical now then Stale else Fresh)
  | D_Interoperable _ => None
  end.
Definition is_local (self : Deadlines) : bool :=
  match self with D_Local _ _ => true | D_Interoperable _ => false end.
End Deadlines.

(** ** The map *)
Record Stored (V : Type) := mkStored {
  entry : Entry V; stored_generation : Z; deadlines : Deadlines;
  capture : CaptureAdmission }.
Arguments mkStored {V}.
Arguments entry {V}.
Arguments stored_generation {V}.
Arguments deadlines {V}.
Arguments capture {V}.

Record Shard (V : Type) := mkShard {
  entries : gmap string (Stored V); weight : Z; origins : Origins }.
Arguments mkShard {V}.
Arguments entries {V}.
Arguments weight {V}.
Arguments origins {V}.
#[export] Instance eta_shard {V} : Eta (Shard V) := λ s,
  mkShard (entries s) (weight s) (origins s).

(** [shards] is the boxed slice of [SHARDS] locks, by index. *)
Record Sharded (V : Type) := mkSharded {
  shards : nat → Shard V; generation : Z; maintenance : Z;
  expiry : MemoryExpiry; timing : Timing }.
Arguments mkSharded {V}.
Arguments shards {V}.
Arguments generation {V}.
Arguments maintenance {V}.
Arguments expiry {V}.
Arguments timing {V}.
#[export] Instance eta_sharded {V} : Eta (Sharded V) := λ s,
  mkSharded (shards s) (generation s) (maintenance s) (expiry s) (timing s).

Definition SHARDS : nat := 64.

Module Stored.
Section stored.
Context {V : Type}.
Implicit Types (self : Stored V) (ep : Epochs).

Definition retirement_at ep self (now : option Timestamp) (generation : Z)
    (elapsed : Instant) : option RetirementReason :=
  if negb (stored_generation self =? generation) then Some RR_Continuity
  else if negb (Entry.is_read_eligible ep (entry self)) then Some RR_Eligibility
  else if Deadlines.physically_expired (deadlines self) (Entry.meta (entry self)) now elapsed
  then Some RR_Expired
  else None.

(** One decision at one elapsed sample; the outer [None] is [unreachable!]. *)
Definition read_at ep self now generation (elapsed : Instant) : option (option Freshness) :=
  match retirement_at ep self now generation elapsed with
  | Some _ => Some None
  | None => Some <$> Deadlines.freshness (deadlines self) elapsed
  end.
Definition local_read ep self now generation (coarse : option Instant) (instant : Instant)
    : option (option Freshness) :=
  match coarse with
  | Some bound =>
      match read_at ep self now generation bound with
      | Some (Some Fresh) => Some (Some Fresh)
      | Some _ => read_at ep self now generation instant
      | None => None
      end
  | None => read_at ep self now generation instant
  end.

Definition retire self (key : string) (reason : RetirementReason) : Retirement V :=
  mkRetirement key (entry self) reason (capture self).
End stored.
End Stored.

Module Sharded.
Section sharded.
Context {V : Type} (hash : string → Z).
Implicit Types (self : Sharded V) (ep : Epochs) (h : Revs) (key : string).

Definition for_timing (expiry : MemoryExpiry) (timing : Timing) : Sharded V :=
  mkSharded (λ _, mkShard ∅ 0 ∅) 1 0 expiry timing.
Definition new (expiry : MemoryExpiry) : Sharded V := for_timing expiry T_Interoperable.
Definition with_local_clock (clock : LocalClock) : Sharded V :=
  for_timing RealTime (T_Local clock).

Definition route key : nat := Z.to_nat (Z.land (hash key) (Z.of_nat SHARDS - 1)).
Definition shard_of self key : Shard V := shards self (route key).
Definition set_shard self (i : nat) (s : Shard V) : Sharded V :=
  self <| shards := <[i := s]> (shards self) |>.

(** *** Reads *)
Definition with_ready {R} ep self key (now : Timestamp) (coarse : option Instant)
    (instant : Instant) (read_entry : Entry V → Freshness → R) : option R :=
  stored ← entries (shard_of self key) !! key;
  freshness ←
    (if Deadlines.is_local (deadlines stored)
     then default None (Stored.local_read ep stored (Some now) (generation self) coarse instant)
     else match Stored.retirement_at ep stored (Some now) (generation self) instant with
          | None => Some (Entry.freshness (entry stored) now)
          | Some _ => None
          end);
  Some (read_entry (entry stored) freshness).

(** [None] is [Err(CacheClosed)]. *)
Definition with_callback_free_local_ready {R} ep self key (closed : bool)
    (coarse : option Instant) (instant : Instant) (read_entry : Entry V → Freshness → R)
    : option (option R) :=
  if closed then None
  else match entries (shard_of self key) !! key with
       | None => Some None
       | Some stored =>
           Some (read_entry (entry stored) <$>
             default None (Stored.local_read ep stored None (generation self) coarse instant))
       end.

(** The half of [get] under the shared lock: a result, or a candidate to
    remove with its reason. *)
Definition get_read ep self key (now : option Timestamp) (instant : Instant)
    : MemoryRead V + Entry V * RetirementReason :=
  match entries (shard_of self key) !! key with
  | None => inl Absent
  | Some stored =>
      match Stored.retirement_at ep stored now (generation self) instant with
      | None => inl (Present (entry stored))
      | Some reason => inr (entry stored, reason)
      end
  end.

Definition remove_same self key (expected : option (Entry V))
    : Sharded V * option (Stored V) :=
  let state := shard_of self key in
  match entries state !! key with
  | Some stored =>
      if match expected with Some e => Entry.is_same_instance (entry stored) e | None => true end
      then (set_shard self (route key)
              (state <| entries := delete key (entries state) |>
                     <| weight := weight state - entry_weight (entry stored) |>), Some stored)
      else (self, None)
  | None => (self, None)
  end.

(** The half under the exclusive lock, in whatever state it finds. *)
Definition get_finish self key (candidate : Entry V * RetirementReason)
    : Sharded V * MemoryRead V :=
  match remove_same self key (Some candidate.1) with
  | (self, Some stored) =>
      (self, MR_Expired (mkRetirement key (entry stored) candidate.2 (capture stored)))
  | (self, None) => (self, Raced candidate.1)
  end.
Definition get ep self key now instant : Sharded V * MemoryRead V :=
  match get_read ep self key now instant with
  | inl read => (self, read)
  | inr candidate => get_finish self key candidate
  end.

Definition remove self key (expected : option (Entry V)) : Sharded V * option (Retirement V) :=
  let '(self, removed) := remove_same self key expected in
  (self, (λ stored, Stored.retire stored key RR_Explicit) <$> removed).

(** *** Origins *)
Definition origin_generation self : Z := generation self.
Definition capture_origin_from h self key (provided : option Loc) (fresh : Loc)
    : Revs * Sharded V * result GenerationExhausted (Loc * Z * Z) :=
  let state := shard_of self key in
  let generation := origin_generation self in
  if generation =? u64_max
  then (from_option (release h) h provided, self, Err generation_exhausted)
  else
    let '(h, o, captured) := Origins.capture_from h (origins state) key provided fresh in
    (h, set_shard self (route key) (state <| origins := o |>),
     (λ '(l, c), (l, c, generation)) <$> captured).
Definition forget_origin self key (l : Loc) : option (Sharded V) :=
  let state := shard_of self key in
  (λ o, set_shard self (route key) (state <| origins := o |>))
    <$> Origins.forget (origins state) key l.
Definition skip_origin h self key (origin : RevisionSnapshot) : Revs * bool :=
  if RevisionSnapshot.matches h origin (origin_generation self)
  then (Origins.advance h (origins (shard_of self key)) key, true)
  else (h, false).
Definition invalidate_origin h self key : Revs :=
  Origins.advance h (origins (shard_of self key)) key.

Definition remove_as_mutation h self key : Revs * Sharded V * option (Retirement V) :=
  let state := shard_of self key in
  let h := Origins.advance h (origins state) key in
  match entries state !! key with
  | None => (h, self, None)
  | Some stored =>
      (h, set_shard self (route key)
            (state <| entries := delete key (entries state) |>
                   <| weight := weight state - entry_weight (entry stored) |>),
       Some (Stored.retire stored key RR_Explicit))
  end.

(** *** Writes *)
Definition visible_of self (current : option (Stored V)) : option (Stored V) :=
  match current with
  | Some stored => if stored_generation stored =? generation self then Some stored else None
  | None => None
  end.

(** The slot's new content and what it retires: the payload of an exclusively
    owned, unobserved representation is replaced in place. *)
Definition fill_slot self (rq : WriteRequest V) (current : option (Stored V))
    (deadlines : Deadlines) (capture' : CaptureAdmission) : Stored V * Retirements V :=
  let fresh := mkStored (PreparedEntry.take_for_storage (rq_alloc rq) (rq_entry rq))
                 (generation self) deadlines capture' in
  match current with
  | Some old =>
      let reason :=
        match rq_event rq with
        | MW_Set => if stored_generation old =? generation self
                    then RR_Replaced else RR_Continuity
        | MW_Expire => RR_Metadata
        end in
      match (if permits_payload_only (rq_policy rq) (capture old)
             then PreparedEntry.try_reuse_payload (rq_unique rq) (rq_entry rq) (entry old)
             else None) with
      | Some (previous, e) =>
          (mkStored e (generation self) deadlines capture', R_Reused previous reason)
      | None => (fresh, R_One (Stored.retire old (rq_key rq) reason))
      end
  | None => (fresh, R_None)
  end.

Definition insert_prepared h self (rq : WriteRequest V)
    : Revs * Sharded V * option (PreparedEntry V) * RetentionCommit V :=
  let key := rq_key rq in
  let deadlines := Timing.prepare (timing self) (PreparedEntry.meta (rq_entry rq))
                     (rq_time rq) (expiry self) (rq_instant rq) in
  let state := shard_of self key in
  if generation self =? u64_max
  then (h, self, Some (rq_entry rq), rejected RejectedGeneration [])
  else
    let current := entries state !! key in
    let visible := visible_of self current in
    if negb (Expected.matches_generation h (rq_expected rq) (entry <$> visible)
               (generation self))
    then (h, self, Some (rq_entry rq), rejected VersionChanged [])
    else
      let capture' :=
        match current, rq_event rq with
        | Some old, MW_Expire => capture old
        | _, _ => admission_ (rq_policy rq)
        end in
      let old_weight := from_option (entry_weight ∘ entry) 0 current in
      let new_weight := prepared_weight (rq_entry rq) in
      let h := if Expected.changes_origin (rq_expected rq)
               then Origins.advance h (origins state) key else h in
      let '(stored, retired) := fill_slot self rq current deadlines capture' in
      (h, set_shard self (route key)
            (state <| entries := <[key := stored]> (entries state) |>
                   <| weight := weight state - old_weight + new_weight |>),
       None,
       mkCommit (match visible with Some _ => MA_Replaced | None => MA_Admitted end) retired).

(** The plain write of a default standalone replacement. *)
Definition commit_slot (slot : option (Stored V)) key (value : V) (metadata : PlainMetadata)
    (generation : Z) (deadlines : Deadlines) (policy : CapturePolicy) (alloc : Loc)
    (unique : bool) : Stored V * Retirements V * Z * bool :=
  let fresh := mkStored (into_entry alloc (PlainMetadata.into_fresh metadata value []))
                 generation deadlines (admission_ policy) in
  match slot with
  | None => (fresh, R_None, 0, false)
  | Some previous =>
      let w := entry_weight (entry previous) in
      let replacing := stored_generation previous =? generation in
      let reason := if replacing then RR_Replaced else RR_Continuity in
      match (if permits_payload_only policy (capture previous)
             then Entry.replace_plain unique (entry previous) value metadata else None) with
      | Some (retired, e) =>
          (mkStored e generation deadlines (admission_ policy), R_Reused retired reason, w,
           replacing)
      | None => (fresh, R_One (Stored.retire previous key reason), w, replacing)
      end
  end.
Definition insert_plain h self key (value : V) (metadata : PlainMetadata) (time : WriteTime)
    (policy : CapturePolicy) (alloc : Loc) (unique : bool) (instant : Instant)
    : Revs * Sharded V * RetentionCommit V :=
  let deadlines := Timing.prepare_boundaries (timing self) (PlainMetadata.logical metadata)
                     (PlainMetadata.physical metadata) time (expiry self) instant in
  let state := shard_of self key in
  if generation self =? u64_max then (h, self, rejected RejectedGeneration [])
  else
    let h := Origins.advance h (origins state) key in
    let '(stored, retired, old_weight, replacing) :=
      commit_slot (entries state !! key) key value metadata (generation self) deadlines policy
        alloc unique in
    (h, set_shard self (route key)
          (state <| entries := <[key := stored]> (entries state) |>
                 <| weight := weight state - old_weight + 1 |>),
     mkCommit (if replacing then MA_Replaced else MA_Admitted) retired).

(** *** Clears and maintenance *)
Definition begin_clear self : Z * Sharded V :=
  match checked_add_u64 (generation self) 1 with
  | Some next => (next, self <| generation := next |>)
  | None => (u64_max, self)
  end.

Definition expire_one ep now generation instant (acc : Shard V * list (Retirement V)) key
    : Shard V * list (Retirement V) :=
  let '(state, retired) := acc in
  match entries state !! key with
  | None => (state, retired)
  | Some stored =>
      match Stored.retirement_at ep stored now generation instant with
      | Some reason =>
          (state <| entries := delete key (entries state) |>
                 <| weight := weight state - entry_weight (entry stored) |>,
           retired ++ [Stored.retire stored key reason])
      | None => (state, retired)
      end
  end.
Definition expire_locked ep self (state : Shard V) (now : option Timestamp)
    (instant : Instant) : Shard V * list (Retirement V) :=
  fold_left (expire_one ep now (generation self) instant)
    (map_to_list (entries state)).*1 (state, []).
Definition expire ep self (shard : nat) now instant : Sharded V * list (Retirement V) :=
  let '(state, retired) := expire_locked ep self (shards self shard) now instant in
  (set_shard self shard state, retired).

(** [try_write] succeeds on the shards [free]. *)
Definition maintain_one ep now instant (free : nat → bool)
    (acc : Sharded V * list (Retirement V)) (i : nat) : Sharded V * list (Retirement V) :=
  let '(self, retired) := acc in
  if free i
  then let '(self, more) := expire ep self i now instant in (self, retired ++ more)
  else (self, retired).
Definition maintain_step ep self (now : option Timestamp) (instant : Instant)
    (free : nat → bool) : Sharded V * list (Retirement V) :=
  let first := maintenance self in
  let self := self <| maintenance := (first + 8) mod 2 ^ 64 |> in
  fold_left (maintain_one ep now instant free)
    ((λ offset, Z.to_nat (Z.land ((first + Z.of_nat offset) mod 2 ^ 64) (Z.of_nat SHARDS - 1)))
       <$> seq 0 8) (self, []).

Definition usage self : MemoryUsage :=
  fold_left (λ u i,
    mkUsage (saturating_add_u64 (usage_entries u) (Z.of_nat (size (entries (shards self i)))))
            (saturating_add_u128 (usage_weight u) (weight (shards self i))))
    (seq 0 SHARDS) (mkUsage 0 0).
End sharded.
End Sharded.

(** ** The store as one map *)
Section view.
Context {V : Type} (hash : string → Z).
Implicit Types (self : Sharded V) (key : string) (s : Shard V).
Abbreviation route := (Sharded.route hash) (only parsing).

Definition view self key : option (Stored V) := entries (Sharded.shard_of hash self key) !! key.
(** The representation that conditional writes and reads see. *)
Definition visible self key : option (Entry V) :=
  entry <$> Sharded.visible_of self (view self key).

Lemma shard_set self i s j :
  shards (Sharded.set_shard self i s) j = if decide (i = j) then s else shards self j.
Proof.
  unfold Sharded.set_shard; simpl. destruct (decide (i = j)) as [->|].
  - by rewrite fn_lookup_insert.
  - by rewrite fn_lookup_insert_ne.
Qed.

Lemma view_set self key s k :
  view (Sharded.set_shard self (route key) s) k =
  if decide (route key = route k) then entries s !! k else view self k.
Proof. unfold view, Sharded.shard_of. rewrite shard_set. by case_decide. Qed.

(** Updating the entries of the shard of [key] at [key] alone. *)
Lemma view_update self key s k o :
  (∀ k', k' ≠ key → entries s !! k' = entries (Sharded.shard_of hash self key) !! k') →
  entries s !! key = o →
  view (Sharded.set_shard self (route key) s) k = if decide (k = key) then o else view self k.
Proof.
  intros Hother Hkey. rewrite view_set. destruct (decide (k = key)) as [->|Hne].
  - by rewrite decide_True by done.
  - case_decide as Hr; [|done]. rewrite Hother by done. unfold view, Sharded.shard_of.
    by rewrite Hr.
Qed.

Lemma visible_update self self' key o k :
  generation self' = generation self →
  (∀ k, view self' k = if decide (k = key) then o else view self k) →
  visible self' k =
    if decide (k = key) then entry <$> Sharded.visible_of self o else visible self k.
Proof.
  intros Hg Hv. unfold visible. rewrite Hv. unfold Sharded.visible_of. rewrite Hg.
  by case_decide.
Qed.
End view.

(** ** The cases of a write *)
Section writes.
Context {V : Type} (hash : string → Z).
Implicit Types (self : Sharded V) (rq : WriteRequest V) (h : Revs).
Abbreviation route := (Sharded.route hash) (only parsing).

Definition prepared_deadlines self rq : Deadlines :=
  Timing.prepare (timing self) (PreparedEntry.meta (rq_entry rq)) (rq_time rq) (expiry self)
    (rq_instant rq).

Inductive insert_outcome h self rq
    : Revs * Sharded V * option (PreparedEntry V) * RetentionCommit V → Prop :=
| io_exhausted :
    generation self = u64_max →
    insert_outcome h self rq (h, self, Some (rq_entry rq), rejected RejectedGeneration [])
| io_condition :
    generation self ≠ u64_max →
    Expected.matches_generation h (rq_expected rq) (visible hash self (rq_key rq))
      (generation self) = false →
    insert_outcome h self rq (h, self, Some (rq_entry rq), rejected VersionChanged [])
| io_stored h1 stored retired :
    generation self ≠ u64_max →
    Expected.matches_generation h (rq_expected rq) (visible hash self (rq_key rq))
      (generation self) = true →
    h1 = (if Expected.changes_origin (rq_expected rq)
          then Origins.advance h (origins (Sharded.shard_of hash self (rq_key rq))) (rq_key rq)
          else h) →
    represents (rq_entry rq) (entry stored) →
    stored_generation stored = generation self →
    deadlines stored = prepared_deadlines self rq →
    insert_outcome h self rq
      (h1, Sharded.set_shard self (route (rq_key rq))
             (mkShard (<[rq_key rq := stored]> (entries (Sharded.shard_of hash self (rq_key rq))))
                (weight (Sharded.shard_of hash self (rq_key rq))
                 - from_option (entry_weight ∘ entry) 0 (view hash self (rq_key rq))
                 + entry_weight (entry stored))
                (origins (Sharded.shard_of hash self (rq_key rq)))),
       None,
       mkCommit (match visible hash self (rq_key rq) with Some _ => MA_Replaced | None => MA_Admitted end)
         retired).

Lemma fill_slot_spec self rq current dl cap :
  let stored := (Sharded.fill_slot self rq current dl cap).1 in
  represents (rq_entry rq) (entry stored) ∧ stored_generation stored = generation self ∧
  deadlines stored = dl.
Proof.
  unfold Sharded.fill_slot. destruct current as [old|]; simpl;
    [|split; [apply represents_taken|done]].
  destruct (if permits_payload_only _ _ then _ else None) as [[previous e]|] eqn:Hre; simpl;
    (split; [|done]); [|apply represents_taken].
  case_match; [|done]. by apply represents_reused in Hre as [? _].
Qed.

Lemma sharded_insert_cases h self rq :
  insert_outcome h self rq (Sharded.insert_prepared hash h self rq).
Proof.
  unfold Sharded.insert_prepared.
  destruct (generation self =? u64_max) eqn:Hg; bool_to_prop; [by constructor|].
  fold (view hash self (rq_key rq)). fold (visible hash self (rq_key rq)).
  destruct (Expected.matches_generation _ _ _ _) eqn:Hm; cbn [negb]; [|by constructor].
  replace (match Sharded.visible_of self (view hash self (rq_key rq)) with
           | Some _ => MA_Replaced | None => MA_Admitted end)
    with (match visible hash self (rq_key rq) with Some _ => MA_Replaced | None => MA_Admitted end)
    by (unfold visible; by destruct (Sharded.visible_of _ _)).
  fold (prepared_deadlines self rq).
  pose proof (fill_slot_spec self rq (view hash self (rq_key rq)) (prepared_deadlines self rq)
    (match view hash self (rq_key rq), rq_event rq with
     | Some old, MW_Expire => capture old | _, _ => admission_ (rq_policy rq) end)) as Hspec.
  destruct (Sharded.fill_slot _ _ _ _ _) as [stored retired]; simpl in Hspec.
  destruct Hspec as (Hrep & Hgen & Hdl). rewrite <-(represents_weight _ _ Hrep).
  by apply (io_stored h self rq _ stored).
Qed.

(** A plain write is the write of the fresh value it stands for. *)
Lemma plain_is_prepared h self key (v : V) m time policy alloc unique instant :
  Sharded.insert_plain hash h self key v m time policy alloc unique instant =
  let '(h', self', _, c) :=
    Sharded.insert_prepared hash h self
      (mkRequest key (PE_Fresh (PlainMetadata.into_fresh m v [])) time EX_Mutation policy MW_Set
         alloc unique instant) in
  (h', self', c).
Proof.
  unfold Sharded.insert_plain, Sharded.insert_prepared, Timing.prepare. simpl.
  destruct (generation self =? u64_max); [done|].
  unfold Sharded.commit_slot, Sharded.fill_slot.
  destruct (entries (Sharded.shard_of hash self key) !! key) as [old|]; simpl; [|done].
  destruct (permits_payload_only policy (capture old)); simpl; [|by case_match].
  unfold Entry.replace_plain, Entry.replace_unique_payload.
  destruct unique; simpl; by case_match.
Qed.
End writes.

(** ** The invariant *)
Section invariant.
Context {V : Type} (hash : string → Z).
Implicit Types (self : Sharded V) (s : Shard V).
Abbreviation route := (Sharded.route hash) (only parsing).

Definition weight_of (st : Stored V) : Z := entry_weight (entry st).

(** The deadlines the local clock gives an entry's boundaries. *)
Definition local_deadlines (clock : LocalClock) (m : Metadata) : Deadlines :=
  D_Local (LocalClock.deadline clock (logical_expiration m))
    (LocalClock.deadline clock (physical_expiration m)).

Definition stored_ok (timing : Timing) (generation : Z) (st : Stored V) : Prop :=
  stored_generation st ≤ generation ∧
  match timing with
  | T_Local clock => deadlines st = local_deadlines clock (Entry.meta (entry st))
  | T_Interoperable => Deadlines.is_local (deadlines st) = false
  end.

Definition shard_ok (timing : Timing) (generation : Z) (i : nat) s : Prop :=
  weight s = msum weight_of (entries s) ∧
  ∀ k st, entries s !! k = Some st → route k = i ∧ stored_ok timing generation st.

Definition inv self : Prop :=
  1 ≤ generation self ≤ u64_max ∧
  ∀ i, shard_ok (timing self) (generation self) i (shards self i).

Lemma prepare_local clock m time expiry instant :
  Timing.prepare (T_Local clock) m time expiry instant = local_deadlines clock m.
Proof.
  unfold Timing.prepare, Timing.prepare_boundaries, local_deadlines.
  destruct (physical_expiration m =? logical_expiration m) eqn:E; bool_to_prop; [|done].
  by rewrite E.
Qed.

Lemma inv_set self i s :
  inv self → shard_ok (timing self) (generation self) i s → inv (Sharded.set_shard self i s).
Proof.
  intros [Hg Hs] Hi. split; [done|]. intros j. rewrite shard_set. case_decide as E; [by subst|].
  apply Hs.
Qed.

Lemma shard_ok_delete t g i s k st :
  entries s !! k = Some st → shard_ok t g i s →
  shard_ok t g i (mkShard (delete k (entries s)) (weight s - weight_of st) (origins s)).
Proof.
  intros Hk [Hw Hall]. split; simpl.
  - by rewrite (msum_delete _ _ _ st), Hw.
  - intros k' st' [_ Hst]%lookup_delete_Some. by apply Hall.
Qed.

Lemma sharded_insert_inv h self rq :
  inv self → inv (Sharded.insert_prepared hash h self rq).1.1.2.
Proof.
  intros Hinv. destruct (sharded_insert_cases hash h self rq)
    as [Hg|Hg Hm|h1 st rs Hg Hm Hh Hrep Hgen Hdl]; simpl; [done..|].
  apply inv_set; [done|]. destruct Hinv as [_ Hs]. destruct (Hs (route (rq_key rq))) as [Hw Hall].
  split; simpl.
  - rewrite msum_insert_any. unfold Sharded.shard_of, view. rewrite Hw.
    unfold Sharded.shard_of. done.
  - intros k st' [[<- <-]|[_ Hst]]%lookup_insert_Some; [|by apply Hall].
    split; [done|]. split; [lia|]. rewrite Hdl. unfold prepared_deadlines.
    destruct Hrep as [_ ->]. destruct (timing self); [done|apply prepare_local].
Qed.

Lemma remove_same_inv self key expected :
  inv self → inv (Sharded.remove_same hash self key expected).1.
Proof.
  intros Hinv. unfold Sharded.remove_same.
  destruct (entries _ !! key) as [st|] eqn:Hk; [|done]. case_match; [|done]. simpl.
  apply inv_set; [done|]. destruct Hinv as [_ Hs]. by apply (shard_ok_delete _ _ _ _ _ st).
Qed.

Lemma remove_as_mutation_inv h self key :
  inv self → inv (Sharded.remove_as_mutation hash h self key).1.2.
Proof.
  intros Hinv. unfold Sharded.remove_as_mutation.
  destruct (entries _ !! key) as [st|] eqn:Hk; [|done]. simpl.
  apply inv_set; [done|]. destruct Hinv as [_ Hs]. by apply (shard_ok_delete _ _ _ _ _ st).
Qed.

Lemma origins_inv self key o :
  inv self → inv (Sharded.set_shard self (route key)
                    (Sharded.shard_of hash self key <| origins := o |>)).
Proof. intros Hinv. apply inv_set; [done|]. destruct Hinv as [_ Hs]. apply Hs. Qed.

Lemma sharded_capture_inv h self key p f :
  inv self → inv (Sharded.capture_origin_from hash h self key p f).1.2.
Proof.
  intros Hinv. unfold Sharded.capture_origin_from. case_match; [done|].
  destruct (Origins.capture_from _ _ _ _ _) as [[h' o] c]. by apply origins_inv.
Qed.

Lemma sharded_clear_inv self : inv self → inv (Sharded.begin_clear self).2.
Proof.
  intros [Hg Hs]. unfold Sharded.begin_clear.
  destruct (checked_add_u64 _ _) as [n|] eqn:E; [|done].
  apply checked_add_u64_Some in E as [-> Hle]. split; simpl; [lia|].
  intros i. destruct (Hs i) as [Hw Hall]. split; [done|].
  intros k st Hst. destruct (Hall k st Hst) as (? & ? & ?). split; [done|]. split; [lia|done].
Qed.

(** A sweep keeps, of each key, the entry or nothing. *)
Lemma expire_fold ep now g instant t i keys s rs :
  shard_ok t g i s →
  let '(s', rs') := fold_left (Sharded.expire_one ep now g instant) keys (s, rs) in
  shard_ok t g i s' ∧
  (∀ k, entries s' !! k = match entries s !! k with
        | Some st => if bool_decide (k ∈ keys) &&
                        (match Stored.retirement_at ep st now g instant with
                         | Some _ => true | None => false end)
                     then None else Some st
        | None => None
        end).
Proof.
  revert s rs. induction keys as [|key keys IH]; intros s rs Hok.
  { cbn. split; [done|]. intros k. destruct (entries s !! k); [|done].
    rewrite bool_decide_eq_false_2; [done|]. apply not_elem_of_nil. }
  cbn [fold_left Sharded.expire_one].
  assert (∀ k, bool_decide (k ∈ key :: keys) = bool_decide (k = key) || bool_decide (k ∈ keys)) as Hcons.
  { intros k. rewrite <-bool_decide_or. apply bool_decide_ext. by rewrite elem_of_cons. }
  destruct (entries s !! key) as [st|] eqn:Hk.
  - destruct (Stored.retirement_at ep st now g instant) as [reason|] eqn:Hr.
    + specialize (IH (mkShard (delete key (entries s)) (weight s - weight_of st) (origins s))
        (rs ++ [Stored.retire st key reason]) (shard_ok_delete _ _ _ _ _ _ Hk Hok)).
      change (s <| entries := _ |> <| weight := _ |>)
        with (mkShard (delete key (entries s)) (weight s - weight_of st) (origins s)).
      destruct (fold_left _ _ _) as [s' rs'].
      destruct IH as [Hok' Hall]. split; [done|]. intros k. rewrite Hall, Hcons. simpl.
      destruct (decide (k = key)) as [->|Hne].
      * rewrite lookup_delete_eq, Hk, Hr. by rewrite bool_decide_eq_true_2.
      * rewrite lookup_delete_ne by done. by rewrite (bool_decide_eq_false_2 (k = key)).
    + specialize (IH s rs Hok). destruct (fold_left _ _ _) as [s' rs'].
      destruct IH as [Hok' Hall]. split; [done|]. intros k. rewrite Hall, Hcons.
      destruct (decide (k = key)) as [->|Hne].
      * rewrite Hk, Hr. by rewrite !andb_false_r.
      * by rewrite (bool_decide_eq_false_2 (k = key)).
  - specialize (IH s rs Hok). destruct (fold_left _ _ _) as [s' rs'].
    destruct IH as [Hok' Hall]. split; [done|]. intros k. rewrite Hall, Hcons.
    destruct (decide (k = key)) as [->|Hne]; [by rewrite Hk|].
    by rewrite (bool_decide_eq_false_2 (k = key)).
Qed.

Lemma expire_inv ep self i now instant :
  inv self → inv (Sharded.expire ep self i now instant).1.
Proof.
  intros Hinv. unfold Sharded.expire, Sharded.expire_locked.
  pose proof (expire_fold ep now (generation self) instant (timing self) i
    (map_to_list (entries (shards self i))).*1 (shards self i) []) as H.
  destruct (fold_left _ _ _) as [s rs]. simpl. apply inv_set; [done|]. apply H, Hinv.
Qed.

Lemma sharded_inv_new e t : inv (Sharded.for_timing e t : Sharded V).
Proof.
  split; [simpl; lia|]. intros i. split; simpl; [by rewrite msum_empty|].
  intros k st Hk. by rewrite lookup_empty in Hk.
Qed.
End invariant.

(** ** The backend contract *)
Section storage.
Context {V : Type} (hash : string → Z).
Implicit Types (self : Sharded V).
Abbreviation route := (Sharded.route hash) (only parsing).

Definition sharded_storage : Storage (Sharded V) V := {|
  lookup_current := visible hash;
  store_generation := generation;
  store_origins s k := origins (Sharded.shard_of hash s k);
  store_insert _ := Sharded.insert_prepared hash;
  store_remove_as_mutation := Sharded.remove_as_mutation hash;
  store_clear s := (Sharded.begin_clear s).2
|}.

Lemma sharded_insert_visible self (rq : WriteRequest V) st w o k :
  stored_generation st = generation self →
  visible hash (Sharded.set_shard self (route (rq_key rq))
    (mkShard (<[rq_key rq := st]> (entries (Sharded.shard_of hash self (rq_key rq)))) w o)) k =
  (if decide (k = rq_key rq) then Some (entry st) else visible hash self k).
Proof.
  intros Hgen.
  rewrite (visible_update hash self _ (rq_key rq) (Some st)).
  - case_decide; [|done]. simpl. by rewrite Hgen, Z.eqb_refl.
  - done.
  - intros k'. apply view_update; simpl; [|apply lookup_insert_eq].
    intros k'' Hne. by rewrite lookup_insert_ne.
Qed.

Lemma removed_visible self key w o k :
  visible hash (Sharded.set_shard self (route key)
    (mkShard (delete key (entries (Sharded.shard_of hash self key))) w o)) k =
  (if decide (k = key) then None else visible (V:=V) hash self k).
Proof.
  rewrite (visible_update hash self _ key None); [by case_decide|done|].
  intros k'. apply view_update; simpl; [|apply lookup_delete_eq].
  intros k'' Hne. by rewrite lookup_delete_ne.
Qed.

(** After a clear no stored entry has the current generation. *)
Lemma clear_visible self key :
  inv hash self → generation self ≠ u64_max →
  generation (Sharded.begin_clear self).2 = generation self + 1 ∧
  visible hash (Sharded.begin_clear self).2 key = None ∧
  ∀ k, view hash (Sharded.begin_clear self).2 k = view hash self k.
Proof.
  intros [Hg Hs] Hne. unfold Sharded.begin_clear.
  destruct (checked_add_u64 _ _) as [n|] eqn:E.
  2: { unfold checked_add_u64 in E. case_match; [done|]. bool_to_prop. lia. }
  apply checked_add_u64_Some in E as [-> _]. split_and!; [done| |done].
  unfold visible, Sharded.visible_of, view, Sharded.shard_of; simpl.
  destruct (entries _ !! key) as [st|] eqn:Hk; [|done].
  destruct (Hs (route key)) as [_ Hall]. destruct (Hall _ _ Hk) as (_ & Hle & _).
  by rewrite (proj2 (Z.eqb_neq _ _)) by lia.
Qed.

#[export] Instance sharded_laws : @StorageLaws (Sharded V) V sharded_storage.
Proof.
  refine {| store_ok := inv hash |}; simpl.
  - intros ep h s rq h' s' rest c _ Heq Ha. pose proof (sharded_insert_cases hash h s rq) as Hc.
    rewrite Heq in Hc. inversion Hc; subst; try done. split; [done|]. split.
    + eexists. rewrite sharded_insert_visible by done. rewrite decide_True by done. done.
    + simpl. destruct (visible hash s (rq_key rq)); [by eexists|done].
  - intros ep h s rq h' s' rest c _ Heq Ha. pose proof (sharded_insert_cases hash h s rq) as Hc.
    rewrite Heq in Hc. inversion Hc; subst; try (split; [done|by left]).
    simpl in Ha. by destruct (visible hash s (rq_key rq)).
  - intros ep h s rq h' s' rest c k _ Heq Hne. pose proof (sharded_insert_cases hash h s rq) as Hc.
    rewrite Heq in Hc. inversion Hc; subst; try by left.
    left. rewrite sharded_insert_visible by done. by rewrite decide_False by done.
  - intros ep h s rq h' s' rest c _ Heq Hm. pose proof (sharded_insert_cases hash h s rq) as Hc.
    rewrite Heq in Hc. inversion Hc; subst; try (split_and!; done). congruence.
  - intros ep h s rq h' s' rest c _ Heq. pose proof (sharded_insert_cases hash h s rq) as Hc.
    rewrite Heq in Hc. inversion Hc; subst; try by left. case_match; auto.
  - intros ep h s rq h' s' rest c _ Heq Ha. pose proof (sharded_insert_cases hash h s rq) as Hc.
    rewrite Heq in Hc. inversion Hc; subst; done.
  - intros h s k h' s' r _ Heq. unfold Sharded.remove_as_mutation in Heq.
    destruct (entries (Sharded.shard_of hash s k) !! k) as [st|] eqn:Hk; simplify_eq.
    + split; [done|]. split.
      * etrans; [apply removed_visible|]. by rewrite decide_True.
      * intros k' Hne. etrans; [apply removed_visible|]. by rewrite decide_False.
    + split_and!; [done| |done]. unfold visible, view. by rewrite Hk.
  - intros s k Hok Hne. destruct (clear_visible s k Hok Hne) as (? & ? & _). done.
  - intros ep h s rq h' s' rest c Hok Heq. pose proof (sharded_insert_inv hash h s rq Hok) as Hi.
    by rewrite Heq in Hi.
  - intros h s k h' s' r Hok Heq. pose proof (remove_as_mutation_inv hash h s k Hok) as Hi.
    by rewrite Heq in Hi.
  - intros s Hok. by apply sharded_clear_inv.
Defined.
End storage.

(** ** Executions of the store *)
Inductive step {V} (hash : string → Z) : Sharded V → Sharded V → Prop :=
| step_insert h s rq : step hash s (Sharded.insert_prepared hash h s rq).1.1.2
| step_plain h s key v m time policy alloc unique instant :
    step hash s (Sharded.insert_plain hash h s key v m time policy alloc unique instant).1.2
| step_remove s key expected : step hash s (Sharded.remove_same hash s key expected).1
| step_mutation h s key : step hash s (Sharded.remove_as_mutation hash h s key).1.2
| step_capture h s key provided fresh :
    step hash s (Sharded.capture_origin_from hash h s key provided fresh).1.2
| step_forget s s' key l : Sharded.forget_origin hash s key l = Some s' → step hash s s'
| step_clear s : step hash s (Sharded.begin_clear s).2
| step_expire ep s i now instant : step hash s (Sharded.expire ep s i now instant).1
| step_maintain ep s now instant free :
    step hash s (Sharded.maintain_step ep s now instant free).1.

Section reachable.
Context {V : Type} (hash : string → Z).
Implicit Types (s : Sharded V).

Lemma maintain_fold_inv ep now instant free idx s rs :
  inv hash s → inv hash (fold_left (Sharded.maintain_one ep now instant free) idx (s, rs)).1.
Proof.
  revert s rs. induction idx as [|i idx IH]; intros s rs Hinv; [done|].
  cbn [fold_left Sharded.maintain_one]. destruct (free i); [|by apply IH].
  pose proof (expire_inv hash ep s i now instant Hinv) as He.
  destruct (Sharded.expire _ _ _ _ _) as [s1 more]. by apply IH.
Qed.

Lemma sharded_step_inv s s' : step hash s s' → inv hash s → inv hash s'.
Proof.
  intros Hstep Hinv. destruct Hstep as [h s rq|h s key v m time policy alloc unique instant
    |s key expected|h s key|h s key p f|s s' key l Hf|s|ep s i now instant|ep s now instant free].
  - by apply sharded_insert_inv.
  - rewrite plain_is_prepared. pose proof (sharded_insert_inv hash h s
      (mkRequest key (PE_Fresh (PlainMetadata.into_fresh m v [])) time EX_Mutation policy MW_Set
         alloc unique instant) Hinv) as Hi.
    by destruct (Sharded.insert_prepared _ _ _ _) as [[[? ?] ?] ?].
  - by apply remove_same_inv.
  - by apply remove_as_mutation_inv.
  - by apply sharded_capture_inv.
  - unfold Sharded.forget_origin in Hf. apply fmap_Some in Hf as (o & _ & ->).
    by apply origins_inv.
  - by apply sharded_clear_inv.
  - by apply expire_inv.
  - unfold Sharded.maintain_step. by apply maintain_fold_inv.
Qed.

(** No step changes the timing plan or takes a generation back. *)
Definition onward (s s' : Sharded V) : Prop := timing s' = timing s ∧ generation s ≤ generation s'.
Lemma onward_refl s : onward s s.
Proof. split; [done|lia]. Qed.
Lemma insert_onward h s rq : onward s (Sharded.insert_prepared hash h s rq).1.1.2.
Proof. destruct (sharded_insert_cases hash h s rq); (split; [done|]); simpl; lia. Qed.

Lemma maintain_fold_onward ep now instant free idx s rs :
  onward s (fold_left (Sharded.maintain_one ep now instant free) idx (s, rs)).1.
Proof.
  revert s rs. induction idx as [|i idx IH]; intros s rs; [apply onward_refl|].
  cbn [fold_left Sharded.maintain_one]. destruct (free i); [|by apply IH].
  unfold Sharded.expire. destruct (Sharded.expire_locked _ _ _ _ _) as [x l]. destruct (IH (Sharded.set_shard s i x) (rs ++ l)). by split.
Qed.

Lemma step_onward s s' : step hash s s' → onward s s'.
Proof.
  intros Hstep. destruct Hstep as [h s rq|h s key v m time policy alloc unique instant
    |s key expected|h s key|h s key p f|s s' key l Hf|s|ep s i now instant|ep s now instant free].
  - apply insert_onward.
  - rewrite plain_is_prepared. pose proof (insert_onward h s
      (mkRequest key (PE_Fresh (PlainMetadata.into_fresh m v [])) time EX_Mutation policy MW_Set
         alloc unique instant)) as Hi.
    by destruct (Sharded.insert_prepared _ _ _ _) as [[[? ?] ?] ?].
  - unfold Sharded.remove_same. repeat case_match; (split; [done|simpl; lia]).
  - unfold Sharded.remove_as_mutation. case_match; (split; [done|simpl; lia]).
  - unfold Sharded.capture_origin_from. case_match; [apply onward_refl|].
    destruct (Origins.capture_from _ _ _ _ _) as [[? ?] ?]. split; [done|simpl; lia].
  - unfold Sharded.forget_origin in Hf. apply fmap_Some in Hf as (o & _ & ->). split; [done|simpl; lia].
  - unfold Sharded.begin_clear. case_match; [|apply onward_refl]. split; [done|].
    apply checked_add_u64_Some in H as [-> _]. simpl. lia.
  - unfold Sharded.expire. destruct (Sharded.expire_locked _ _ _ _ _). split; [done|simpl; lia].
  - unfold Sharded.maintain_step. set (s1 := s <| maintenance := _ |>).
    match goal with |- onward _ (fold_left _ ?idx (_, ?rs)).1 => destruct (maintain_fold_onward ep now instant free idx s1 rs) end. by split.
Qed.
Lemma reachable_onward s s' : rtc (step hash) s s' → onward s s'.
Proof.
  induction 1 as [s|s s1 s2 [Ht Hg]%step_onward _ [Ht' Hg']]; [apply onward_refl|]. split; [congruence|lia].
Qed.

Lemma sharded_reachable_inv s0 s : rtc (step hash) s0 s → inv hash s0 → inv hash s ∧ timing s = timing s0.
Proof.
  intros Hr Hinv. split; [|apply (reachable_onward _ _ Hr)].
  induction Hr as [|s0 s1 s2 Hstep _ IH]; [done|]. apply IH. by eapply sharded_step_inv.
Qed.
End reachable.

(** ** Reads by elapsed time *)
Section local_reads.
Context {V : Type} (hash : string → Z).
Implicit Types (s : Sharded V) (st : Stored V).

Lemma expired_mono d a b :
  a ≤ b → MonotonicDeadline.expired d a = true → MonotonicDeadline.expired d b = true.
Proof. destruct d; simpl; [|done]. intros ? ?. bool_to_prop. apply Z.leb_le. lia. Qed.

(** A coarse upper bound never changes the decision. *)
Lemma local_read_precise ep st now g coarse instant l p :
  deadlines st = D_Local l p → (∀ b, coarse = Some b → instant ≤ b) →
  Stored.local_read ep st now g coarse instant = Stored.read_at ep st now g instant.
Proof.
  intros Hd Hc. unfold Stored.local_read. destruct coarse as [b|]; [|done].
  specialize (Hc b eq_refl). unfold Stored.read_at, Stored.retirement_at. rewrite Hd. simpl.
  destruct (stored_generation st =? g); simpl; [|done].
  destruct (Entry.is_read_eligible ep (entry st)); simpl; [|done].
  destruct (MonotonicDeadline.expired p b) eqn:Epb; simpl; [done|].
  destruct (MonotonicDeadline.expired l b) eqn:Elb; simpl; [done|].
  assert (∀ d, MonotonicDeadline.expired d b = false → MonotonicDeadline.expired d instant = false) as Hm.
  { intros d Hdb. destruct (MonotonicDeadline.expired d instant) eqn:E; [|done].
    rewrite (expired_mono d instant b) in Hdb; done. }
  by rewrite (Hm _ Epb), (Hm _ Elb).
Qed.

(** What a reader gets from a local map, decided on timestamps. *)
Definition ready_at ep s key (clock : LocalClock) (instant : Instant)
    : option (Entry V * Freshness) :=
  let t := (LocalClock.sample clock instant).1 in
  e ← visible hash s key;
  if Entry.is_read_eligible ep e && negb (Entry.is_physically_expired e t)
  then Some (e, Entry.freshness e t) else None.

Lemma read_at_sample ep s key st now clock instant :
  view hash s key = Some st → deadlines st = local_deadlines clock (Entry.meta (entry st)) →
  is_i64 (lc_epoch clock) → instant_wf (lc_origin clock) → instant_wf instant →
  lc_origin clock ≤ instant →
  is_i64 (logical_expiration (Entry.meta (entry st))) →
  is_i64 (physical_expiration (Entry.meta (entry st))) →
  (λ f, (entry st, f)) <$> default None (Stored.read_at ep st now (generation s) instant) =
  ready_at ep s key clock instant.
Proof.
  intros Hv Hd He Ho Hi Hle Hl Hp. unfold ready_at, visible, Sharded.visible_of. rewrite Hv.
  unfold Stored.read_at, Stored.retirement_at. rewrite Hd.
  destruct (stored_generation st =? generation s); simpl; [|done].
  destruct (Entry.is_read_eligible ep (entry st)); simpl; [|done].
  rewrite !deadline_expired_sample by done.
  unfold Entry.is_physically_expired, Entry.freshness, LocalClock.sample. simpl.
  destruct (is_before _ (physical_expiration _)); simpl; [|done].
  by destruct (is_before _ (logical_expiration _)).
Qed.
End local_reads.

(** ** Properties *)

(** The sharded store is one map with exact weight accounting. After any
    sequence of its operations, every key lives only in the shard its hash
    routes to, and every shard's recorded weight is the sum of the weights of
    the entries it holds, whatever was replaced, reused in place, removed or
    swept. *)
Theorem sharded_weight_exact {V} (hash : string → Z) (e : MemoryExpiry) (t : Timing)
    (s : Sharded V) :
  rtc (step hash) (Sharded.for_timing e t) s →
  ∀ i, weight (shards s i) = msum weight_of (entries (shards s i)) ∧
    ∀ k st, entries (shards s i) !! k = Some st →
      Sharded.route hash k = i ∧ view hash s k = Some st.
Proof.
  intros Hr i.
  destruct (sharded_reachable_inv hash _ _ Hr (sharded_inv_new hash e t)) as [[_ Hs] _].
  destruct (Hs i) as [Hw Hall]. split; [done|]. intros k st Hk.
  destruct (Hall k st Hk) as [Hroute _]. split; [done|].
  unfold view, Sharded.shard_of. by rewrite Hroute.
Qed.

Definition sample_hash (k : string) : Z := Z.of_nat (String.length k).
Definition sample_write (key : string) (w : Z) : WriteRequest nat :=
  mkRequest key (PE_Fresh (mkFreshValue (mkInner 7%nat
    (mkMetadata 0 0 50 100 (from_secs 1) (EO_Fresh None) None None []
       (RM_Specified (Some w) Normal)) EL_Local)))
    (WT_Clock 0) EX_Mutation (mkPolicy Unarmed AtInsertion) MW_Set 1%positive true 0.
Definition sample_clock : LocalClock := mkLocalClock 0 0.
Definition sample_store : Sharded nat :=
  (Sharded.insert_prepared sample_hash ∅ (Sharded.with_local_clock sample_clock)
     (sample_write "key" 6)).1.1.2.
Lemma sample_reachable :
  rtc (step sample_hash) (Sharded.for_timing RealTime (T_Local sample_clock)) sample_store.
Proof. apply rtc_once, step_insert. Qed.

Lemma sharded_weight_exact_witness : weight (shards sample_store 3) = 6.
Proof.
  destruct (sharded_weight_exact sample_hash RealTime (T_Local sample_clock) sample_store
    sample_reachable 3%nat) as [H _].
  rewrite H. vm_compute. reflexivity.
Defined.

(** Every way to read the slot of a key. *)
Definition nothing_read {V} (hash : string → Z) (s : Sharded V) (key : string) : Prop :=
  (∀ ep now instant found, Sharded.get_read hash ep s key now instant ≠ inl (Present found)) ∧
  (∀ ep now instant found, (Sharded.get hash ep s key now instant).2 ≠ Present found) ∧
  (∀ ep now coarse instant, Sharded.with_ready hash ep s key now coarse instant (λ e f, (e, f)) = None) ∧
  (∀ ep closed coarse instant,
     Sharded.with_callback_free_local_ready hash ep s key closed coarse instant (λ e f, (e, f)) =
       if closed then None else Some None).
Lemma stale_is_unread {V} (hash : string → Z) (s : Sharded V) key :
  (∀ st, view hash s key = Some st → stored_generation st ≠ generation s) → nothing_read hash s key.
Proof.
  intros Hst. assert (∀ ep st now instant, view hash s key = Some st →
    Stored.retirement_at ep st now (generation s) instant = Some RR_Continuity) as Hret.
  { intros ep st now instant Hv. unfold Stored.retirement_at. by rewrite (proj2 (Z.eqb_neq _ _) (Hst st Hv)). }
  assert (∀ ep now instant found, Sharded.get_read hash ep s key now instant ≠ inl (Present found)) as Hget.
  { intros ep now instant found. unfold Sharded.get_read. fold (view hash s key).
    destruct (view hash s key) as [st|] eqn:Hv; [|done]. by rewrite (Hret ep st). }
  assert (∀ ep st now coarse instant, view hash s key = Some st →
    Stored.local_read ep st now (generation s) coarse instant = Some None) as Hlocal.
  { intros ep st now coarse instant Hv. unfold Stored.local_read, Stored.read_at.
    destruct coarse; by rewrite ?(Hret ep st). }
  split_and!; [done|..].
  - intros ep now instant found. unfold Sharded.get. pose proof (Hget ep now instant) as Hr.
    destruct (Sharded.get_read _ _ _ _ _ _) as [r|c]; [intros H; simpl in H; subst; by eapply Hr|].
    unfold Sharded.get_finish. by destruct (Sharded.remove_same _ _ _ _) as [? [?|]].
  - intros ep now coarse instant. unfold Sharded.with_ready. fold (view hash s key).
    destruct (view hash s key) as [st|] eqn:Hv; [|done]. simpl.
    destruct (Deadlines.is_local _); [by rewrite (Hlocal ep st)|by rewrite (Hret ep st)].
  - intros ep closed coarse instant. unfold Sharded.with_callback_free_local_ready. destruct closed; [done|].
    fold (view hash s key). destruct (view hash s key) as [st|] eqn:Hv; [|done]. by rewrite (Hlocal ep st).
Qed.

(** C28: a clear is a visibility barrier without touching a single shard. After
    [begin_clear] below the terminal generation, none of the ways to read a key
    ([get], [with_ready], [with_callback_free_local_ready]) returns what is
    stored; a conditional write that expects such an entry or presents an
    origin captured before is refused and changes nothing; and the stored
    entries are still there to be reclaimed by later reads and sweeps, which
    retire them for continuity. It stays so: whatever operations follow, what
    was stored before the clear, which is exactly what carries a generation not
    above the one it ended, is never read again, while a write that is admitted
    carries a later one. *)
Theorem clear_is_barrier {V} (hash : string → Z) (e : MemoryExpiry) (t : Timing)
    (s : Sharded V) (key : string) :
  rtc (step hash) (Sharded.for_timing e t) s → generation s ≠ u64_max →
  let s' := (Sharded.begin_clear s).2 in
  nothing_read hash s' key ∧
  (∀ h rq old snap,
     rq_key rq = key →
     rq_expected rq = EX_Same old ∨ rq_expected rq = EX_MutationOf old ∨
       (rq_expected rq = EX_Origin snap ∧ snap_generation snap ≤ generation s) →
     let '(h', s'', _, c) := Sharded.insert_prepared hash h s' rq in
     is_rejected (admission c) = true ∧ h' = h ∧ s'' = s') ∧
  view hash s' key = view hash s key ∧
  (∀ ep st now instant, view hash s key = Some st →
     Stored.retirement_at ep st now (generation s') instant = Some RR_Continuity) ∧
  (∀ st, view hash s key = Some st → stored_generation st ≤ generation s) ∧
  (∀ later st, rtc (step hash) s' later → view hash later key = Some st →
     stored_generation st ≤ generation s → nothing_read hash later key) ∧
  (∀ later h rq, rtc (step hash) s' later →
     let '(_, after, _, c) := Sharded.insert_prepared hash h later rq in
     is_rejected (admission c) = false →
     ∃ st, view hash after (rq_key rq) = Some st ∧ generation s < stored_generation st).
Proof.
  intros Hr Hne s'.
  destruct (sharded_reachable_inv hash _ _ Hr (sharded_inv_new hash e t)) as [Hinv _].
  destruct (clear_visible hash s key Hinv Hne) as (Hg & Hnone & Hview). fold s' in Hg, Hnone, Hview.
  assert (∀ st, view hash s' key = Some st → stored_generation st ≠ generation s') as Hstale.
  { intros st Hv. unfold visible, Sharded.visible_of in Hnone. rewrite Hv in Hnone.
    destruct (stored_generation st =? generation s') eqn:E; [done|]. by apply Z.eqb_neq. }
  assert (∀ st, view hash s key = Some st → stored_generation st ≤ generation s) as Hle.
  { intros st Hv. destruct Hinv as [_ Hs]. destruct (Hs (Sharded.route hash key)) as [_ Hall]. by apply (Hall key st Hv). }
  split_and!; [by apply stale_is_unread| |done| |done|..].
  - intros h rq old snap Hk Hex. pose proof (sharded_insert_cases hash h s' rq) as Hc.
    assert (Expected.matches_generation h (rq_expected rq) (visible hash s' (rq_key rq))
      (generation s') = false) as Hfalse.
    { rewrite Hk, Hnone. destruct Hex as [->|[->|[-> Hsnap]]]; [done..|]. simpl.
      unfold RevisionSnapshot.matches. rewrite (proj2 (Z.eqb_neq (snap_generation snap) _)) by lia.
      by rewrite andb_false_r. }
    destruct (Sharded.insert_prepared _ _ _ _) as [[[h' s''] rest] c].
    inversion Hc; subst; [done..|]. congruence.
  - intros ep st now instant Hv. unfold Stored.retirement_at. rewrite <-Hview in Hv.
    by rewrite (proj2 (Z.eqb_neq _ _) (Hstale st Hv)).
  - intros later st [_ Hl]%reachable_onward Hv Hst. apply stale_is_unread. intros st' Hv'. simplify_eq. lia.
  - intros later h rq [_ Hl]%reachable_onward. pose proof (sharded_insert_cases hash h later rq) as Hc.
    destruct (Sharded.insert_prepared _ _ _ _) as [[[h' after] rest] c].
    inversion Hc as [| |? st rs ? ? ? Hrep Hgen]; subst; [done..|]. intros _. exists st.
    split; [|lia]. rewrite view_set, decide_True by done. apply lookup_insert_eq.
Qed.

Lemma clear_is_barrier_witness :
  view sample_hash sample_store "key" ≠ None ∧ nothing_read sample_hash (Sharded.begin_clear sample_store).2 "key".
Proof.
  split; [by vm_compute|]. apply (clear_is_barrier sample_hash RealTime (T_Local sample_clock) sample_store "key"
    sample_reachable).
  vm_compute. discriminate.
Defined.

(** A hit decided on stored monotonic deadlines is the hit the timestamps
    would give. In a store with the local clock, for every reading of the
    monotonic clock and every coarse bound not before it, a read returns the
    visible representation exactly when it is eligible and the timestamp sampled
    at that reading is before its physical boundary, and reports it fresh
    exactly when the sample is before the logical one; the callback-free read
    of an open cache returns the same. *)
Theorem local_hits_agree_with_clock {V} (hash : string → Z) (clock : LocalClock)
    (s : Sharded V) (key : string) (ep : Epochs) (now : Timestamp) (instant : Instant)
    (coarse : option Instant) :
  rtc (step hash) (Sharded.with_local_clock clock) s →
  is_i64 (lc_epoch clock) → instant_wf (lc_origin clock) → instant_wf instant →
  lc_origin clock ≤ instant → (∀ bound, coarse = Some bound → instant ≤ bound) →
  (∀ e, visible hash s key = Some e →
     is_i64 (logical_expiration (Entry.meta e)) ∧ is_i64 (physical_expiration (Entry.meta e))) →
  Sharded.with_ready hash ep s key now coarse instant (λ e f, (e, f)) =
    ready_at hash ep s key clock instant ∧
  Sharded.with_callback_free_local_ready hash ep s key false coarse instant (λ e f, (e, f)) =
    Some (ready_at hash ep s key clock instant).
Proof.
  intros Hr He Ho Hi Hle Hc Hmeta.
  destruct (sharded_reachable_inv hash _ _ Hr (sharded_inv_new hash RealTime (T_Local clock))) as [[_ Hs] Ht].
  unfold Sharded.with_ready, Sharded.with_callback_free_local_ready.
  fold (view hash s key). destruct (view hash s key) as [st|] eqn:Hv; simpl.
  2: { unfold ready_at, visible. by rewrite Hv. }
  destruct (Hs (Sharded.route hash key)) as [_ Hall].
  destruct (Hall key st Hv) as (_ & _ & Hd). rewrite Ht in Hd. simpl in Hd.
  rewrite Hd. simpl. rewrite !(local_read_precise _ _ _ _ _ _ _ _ Hd Hc).
  destruct (stored_generation st =? generation s) eqn:Hgen.
  - destruct (Hmeta (entry st)) as [Hl Hp].
    { unfold visible, Sharded.visible_of. by rewrite Hv, Hgen. }
    rewrite <-(read_at_sample hash ep s key st (Some now) clock instant) by done.
    split.
    + by destruct (default None _).
    + f_equal. rewrite (read_at_sample hash ep s key st (Some now) clock instant) by done.
      by apply read_at_sample.
  - unfold Stored.read_at, Stored.retirement_at, ready_at, visible, Sharded.visible_of.
    by rewrite Hv, Hgen.
Qed.

Lemma local_hits_agree_with_clock_witness :
  match Sharded.with_ready sample_hash (λ _, 0) sample_store "key" 0 (Some 5100) 5000
          (λ e f, (e, f)) with
  | Some (e, f) => f = Stale ∧ Entry.value e = 7%nat
  | None => False
  end.
Proof.
  rewrite (proj1 (local_hits_agree_with_clock sample_hash sample_clock sample_store "key"
    (λ _, 0) 0 5000 (Some 5100) sample_reachable ltac:(vm_compute; split; discriminate)
    ltac:(vm_compute; split; [discriminate|reflexivity])
    ltac:(vm_compute; split; [discriminate|reflexivity]) ltac:(vm_compute; discriminate)
    ltac:(intros ? [= <-]; lia)
    ltac:(intros e He; vm_compute in He; injection He as <-; vm_compute;
          split; split; discriminate))).
  vm_compute. done.
Defined.

(** The plain write of a default standalone replacement is an
    optimisation only: in every state it gives the same store, revisions,
    admission and retirements as the general write of the fresh value it stands
    for, whether it fills a vacant slot, reuses an exclusively owned one in
    place or replaces a shared one. *)
Theorem plain_write_equivalent {V} (hash : string → Z) (h : Revs) (s : Sharded V)
    (key : string) (v : V) (plan : PlainPlan) (now : Timestamp) (time : WriteTime)
    (policy : CapturePolicy) (alloc : Loc) (unique : bool) (instant : Instant) :
  Sharded.insert_plain hash h s key v (PlainPlan.metadata plan now) time policy alloc unique
    instant =
  let '(h', s', _, c) :=
    Sharded.insert_prepared hash h s
      (mkRequest key (PE_Fresh (PlainPlan.prepare plan v now [])) time EX_Mutation policy MW_Set
         alloc unique instant) in
  (h', s', c).
Proof. apply plain_is_prepared. Qed.
