(* ===== verification/Memory.v ===== *)
(** * The memory store

    Models [MemoryStore] of [src/src/memory.rs]: the facade that dispatches to
    one of the two backends, prepares and applies conditional writes, captures
    and checks origins, retires values and reports what happened. The writes are
    defined against the contract [Storage], which the sum of the backends
    implements; what observers are told is the list of [Effect]s an operation
    returns, in order.

    Whether subscribers exist ([armed]) and whether reclamation is deferred to
    the end of the operation ([deferred]) are fields of the facade. *)
From S2P Require Import Prelude Time Options Entry Origins Storage Retention Sharded.

Inductive Effect (V : Type) :=
| E_Eviction (key : string)
| E_LayerEviction (key : string) (reason : MemoryEvictionReason)
| E_Captured (key : string) (reason : MemoryEvictionReason) (e : Entry V)
| E_Set (key : string)
| E_Expire (key : string)
| E_Remove (key : string)
| E_AdmissionRejected (key : string) (reason : CapacityRejection)
| E_ComponentRead.
Arguments E_Eviction {V}.
Arguments E_LayerEviction {V}.
Arguments E_Captured {V}.
Arguments E_Set {V}.
Arguments E_Expire {V}.
Arguments E_Remove {V}.
Arguments E_AdmissionRejected {V}.
Arguments E_ComponentRead {V}.

Record MemoryStore (S : Type) := mkStore {
  backend : S; observer_capture : EvictionCapture; armed : bool; deferred : bool }.
Arguments mkStore {S}.
Arguments backend {S}.
Arguments observer_capture {S}.
Arguments armed {S}.
Arguments deferred {S}.
#[export] Instance eta_store {S} : Eta (MemoryStore S) := λ m,
  mkStore (backend m) (observer_capture m) (armed m) (deferred m).

Record PreparedWrite (V : Type) := mkWrite {
  pw_key : string; pw_entry : PreparedEntry V; pw_original : option (Entry V);
  pw_retained : option (Entry V); pw_time : WriteTime; pw_capture : CaptureAdmission;
  pw_event : MemoryWriteEvent }.
Arguments mkWrite {V}.
Arguments pw_key {V}.
Arguments pw_entry {V}.
Arguments pw_original {V}.
Arguments pw_retained {V}.
Arguments pw_time {V}.
Arguments pw_capture {V}.
Arguments pw_event {V}.

(** What the environment supplies to a write: free addresses for the prepared
    copy and the stored allocation, exclusive ownership of the replaced one, and
    the monotonic reading. *)
Record Env := mkEnv { env_copy : Loc; env_alloc : Loc; env_unique : bool; env_instant : Instant }.

(** ** Operations over any backend *)
Module MemoryStore.
Section store.
Context {S V : Type} `{Storage S V}.
Implicit Types (self : MemoryStore S) (ep : Epochs) (h : Revs) (key : string).

Definition capture_admission self : CaptureAdmission := if armed self then Armed else Unarmed.
Definition for_operation self : MemoryStore S := self <| deferred := true |>.
Definition with_eviction_capture (c : EvictionCapture) self : MemoryStore S :=
  self <| observer_capture := c |>.

(** *** Observation *)
Definition retire self (r : Retirement V) : list (Effect V) :=
  (if RetirementReason.logical (ret_reason r) then [E_Eviction (ret_key r)] else [])
  ++ match RetirementReason.fact (ret_reason r) with
     | Some reason =>
         E_LayerEviction (ret_key r) reason ::
         (if match ret_capture r with Armed => true | Unarmed => false end
             || match observer_capture self with AtRetirement => true | AtInsertion => false end
          then [E_Captured (ret_key r) reason (ret_entry r)] else [])
     | None => []
     end.
Definition retire_payload key (reason : RetirementReason) : list (Effect V) :=
  (if RetirementReason.logical reason then [E_Eviction key] else [])
  ++ match RetirementReason.fact reason with
     | Some reason => [E_LayerEviction key reason]
     | None => []
     end.
Definition finish_retirements self key (r : Retirements V) : list (Effect V) :=
  match r with
  | R_None => []
  | R_One r => retire self r
  | R_Many rs => rs ≫= retire self
  | R_Reused _ reason => retire_payload key reason
  end.
Definition finish_admission key (event : MemoryWriteEvent) (admission : MemoryAdmission)
    : list (Effect V) * MemoryAdmission :=
  match admission with
  | MA_Rejected reason => ([E_AdmissionRejected key reason], admission)
  | MA_Admitted | MA_Replaced =>
      ([match event with MW_Set => E_Set key | MW_Expire => E_Expire key end], admission)
  end.

(** *** Preparing a write *)
Definition pin_for_outer_guard self (e : Entry V) : option (Entry V) :=
  if deferred self then Some e else None.
Definition prepare_write self key (e : Entry V) (now : Timestamp) (event : MemoryWriteEvent)
    (env : Env) : PreparedWrite V :=
  let '(prepared, original) :=
    if inserted_at (Entry.meta e) =? now then (e, None)
    else (Entry.at_insertion (env_copy env) e now, Some e) in
  mkWrite key (PE_Candidate prepared) original (pin_for_outer_guard self prepared)
    (WT_Clock now) (capture_admission self) event.
Definition prepare_value_borrowed self key (v : FreshValue V) (time : WriteTime) (env : Env)
    : PreparedWrite V :=
  if deferred self
  then prepare_write self key (into_entry (env_alloc env) v) (WriteTime.now time) MW_Set env
  else mkWrite key (PE_Fresh v) None None time (capture_admission self) MW_Set.

(** *** Applying it *)
Definition invalidate_origin h self key : Revs :=
  Origins.advance h (store_origins (backend self) key) key.

Definition is_mutation (e : Expected V) : bool :=
  match e with EX_Mutation => true | _ => false end.

(** The commit: revisions, store, what is left of the candidate, outcome. *)
Definition apply_write ep h self (w : PreparedWrite V) (expected : Expected V) (env : Env)
    : Revs * MemoryStore S * option (PreparedEntry V) * RetentionCommit V :=
  if negb (is_before (WriteTime.now (pw_time w))
             (physical_expiration (PreparedEntry.meta (pw_entry w))))
  then ((if is_mutation expected then invalidate_origin h self (pw_key w) else h), self,
        Some (pw_entry w), rejected PhysicallyExpired [])
  else
    let '(h, s, rest, c) :=
      store_insert ep h (backend self)
        (mkRequest (pw_key w) (pw_entry w) (pw_time w) expected
           (mkPolicy (pw_capture w) (observer_capture self)) (pw_event w)
           (env_alloc env) (env_unique env) (env_instant env)) in
    (h, self <| backend := s |>, rest, c).

Definition finish_insert self (w : PreparedWrite V) (c : RetentionCommit V)
    : list (Effect V) * MemoryAdmission :=
  let effects := finish_retirements self (pw_key w) (retired c) in
  let '(more, admission) := finish_admission (pw_key w) (pw_event w) (admission c) in
  (effects ++ more, admission).

Definition insert_internal ep h self key (e : Entry V) (now : Timestamp)
    (expected : Expected V) (event : MemoryWriteEvent) (env : Env)
    : Revs * MemoryStore S * list (Effect V) * MemoryAdmission :=
  let w := prepare_write self key e now event env in
  let '(h, self, _, c) := apply_write ep h self w expected env in
  let '(effects, admission) := finish_insert self w c in
  (h, self, effects, admission).

Definition insert_at ep h self key e now env :=
  insert_internal ep h self key e now EX_Any MW_Set env.
Definition insert_if_unchanged ep h self key (expected : option (Entry V)) e now env :=
  insert_internal ep h self key e now
    (match expected with Some old => EX_Same old | None => EX_Absent end) MW_Set env.
Definition expire_if_unchanged ep h self key (expected : Entry V) e now env :=
  insert_internal ep h self key e now (EX_Same expected) MW_Expire env.

Definition apply_insert ep h self w env := apply_write ep h self w EX_Mutation env.
Definition apply_origin ep h self w (origin : RevisionSnapshot) env :=
  apply_write ep h self w (EX_Origin origin) env.
Definition apply_expire ep h self w (expected : Entry V) env :=
  apply_write ep h self w (EX_MutationOf expected) env.

(** A standalone write of a fresh value. *)
Definition insert_value_borrowed ep h self key (v : FreshValue V) (time : WriteTime) (env : Env)
    : Revs * MemoryStore S * list (Effect V) * MemoryAdmission :=
  let w :=
    if deferred self then prepare_value_borrowed self key v time env
    else mkWrite key (PE_Fresh v) None None time (capture_admission self) MW_Set in
  let '(h, self, _, c) := apply_write ep h self w EX_Mutation env in
  let '(effects, admission) := finish_insert self w c in
  (h, self, effects, admission).

(** *** Origins *)
Definition skip_revision h self key (snapshot : RevisionSnapshot) : Revs * bool :=
  if RevisionSnapshot.matches h snapshot (store_generation (backend self))
  then (invalidate_origin h self key, true) else (h, false).
Definition is_current h self (snapshot : RevisionSnapshot) : bool :=
  RevisionSnapshot.matches h snapshot (store_generation (backend self)).

(** *** Removal *)
Definition detach_remove h self key : Revs * MemoryStore S * option (Retirement V) :=
  let '(h, s, r) := store_remove_as_mutation h (backend self) key in
  (h, self <| backend := s |>, r).
Definition finish_remove self key (removed : option (Retirement V)) : list (Effect V) :=
  from_option (retire self) [] removed ++ [E_Remove key].
End store.
End MemoryStore.

(** ** The two backends *)
Inductive Backend (V : Type) := Unbounded (s : Sharded V) | Retained (r : Retention V).
Arguments Unbounded {V}.
Arguments Retained {V}.

Section backend.
Context {V : Type} (hash : string → Z).
Implicit Types (self : MemoryStore (Backend V)) (ep : Epochs) (h : Revs) (key : string).

#[local] Existing Instance sharded_storage.

(** [match &self.backend] of every operation. *)
Definition backend_storage : Storage (Backend V) V := {|
  lookup_current b k :=
    match b with
    | Unbounded s => visible hash s k
    | Retained r => rs_entry <$> r_entries r !! k
    end;
  store_generation b :=
    match b with Unbounded s => Sharded.generation s | Retained r => r_generation r end;
  store_origins b k :=
    match b with
    | Unbounded s => origins (Sharded.shard_of hash s k)
    | Retained r => r_origins r
    end;
  store_insert ep h b rq :=
    match b with
    | Unbounded s =>
        let '(h, s, rest, c) := Sharded.insert_prepared hash h s rq in (h, Unbounded s, rest, c)
    | Retained r =>
        let '(h, r, rest, c) := Retention.insert ep h r rq in (h, Retained r, rest, c)
    end;
  store_remove_as_mutation h b k :=
    match b with
    | Unbounded s =>
        let '(h, s, r) := Sharded.remove_as_mutation hash h s k in (h, Unbounded s, r)
    | Retained s =>
        let '(h, s, r) := Retention.remove_as_mutation h s k in (h, Retained s, r)
    end;
  store_clear b :=
    match b with
    | Unbounded s => Unbounded (Sharded.begin_clear s).2
    | Retained r => Retained (Retention.clear r)
    end
|}.
#[local] Existing Instance backend_storage.

(** [MemoryStore::create]. *)
Definition create (limits : MemoryLimits) (mode : MemoryExpiry) (armed : bool)
    : MemoryStore (Backend V) :=
  mkStore (if decide (limits = MemoryLimits_default)
           then Unbounded (Sharded.new mode) else Retained (Retention.new limits mode))
    AtInsertion armed false.
Definition with_cache_clock (limits : MemoryLimits) (clock : CacheClock) (expiry : MemoryExpiry)
    (armed : bool) : MemoryStore (Backend V) :=
  match clock with
  | Local local =>
      if decide (limits = MemoryLimits_default)
      then mkStore (Unbounded (Sharded.with_local_clock local)) AtInsertion armed false
      else create limits expiry armed
  | Shared => create limits expiry armed
  end.

Definition read ep self key (now : option Timestamp) (instant : Instant)
    : MemoryStore (Backend V) * list (Effect V) * option (Entry V) :=
  let '(b, r) :=
    match backend self with
    | Unbounded s => let '(s, r) := Sharded.get hash ep s key now instant in (Unbounded s, r)
    | Retained s => let '(s, r) := Retention.get ep s key now instant in (Retained s, r)
    end in
  let self := self <| backend := b |> in
  match r with
  | Present e => (self, [E_ComponentRead], Some e)
  | Absent | Raced _ => (self, [E_ComponentRead], None)
  | MR_Expired r => (self, E_ComponentRead :: MemoryStore.retire self r, None)
  end.

Definition with_ready {R} ep self key (now : Timestamp) (coarse : option Instant)
    (instant : Instant) (read_entry : Entry V → Freshness → R)
    : MemoryStore (Backend V) * option R :=
  match backend self with
  | Unbounded s => (self, Sharded.with_ready hash ep s key now coarse instant read_entry)
  | Retained s =>
      match r_entries s !! key with
      | None => (self, None)
      | Some stored =>
          match Retention.retirement_reason ep stored (Some now) instant with
          | Some _ => (self, None)
          | None =>
              let '(access, s) := Retention.ticket s in
              let stored' := mkRStored (rs_entry stored) access
                               (monotonic_expiration stored) (rs_capture stored) in
              (self <| backend := Retained (s <| r_entries := <[key := stored']> (r_entries s) |>) |>,
               Some (read_entry (rs_entry stored) (Entry.freshness (rs_entry stored) now)))
          end
      end
  end.

Definition insert_plain_borrowed ep h self key (v : V) (m : PlainMetadata) (time : WriteTime)
    (env : Env) : Revs * MemoryStore (Backend V) * list (Effect V) * MemoryAdmission :=
  match deferred self, backend self with
  | false, Unbounded s =>
      let '(h, self, c) :=
        if negb (is_before (WriteTime.now time) (PlainMetadata.physical m))
        then (MemoryStore.invalidate_origin h self key, self, rejected PhysicallyExpired [])
        else
          let '(h, s, c) :=
            Sharded.insert_plain hash h s key v m time
              (mkPolicy (MemoryStore.capture_admission self) (observer_capture self))
              (env_alloc env) (env_unique env) (env_instant env) in
          (h, self <| backend := Unbounded s |>, c) in
      let effects := MemoryStore.finish_retirements self key (retired c) in
      let '(more, admission) := MemoryStore.finish_admission key MW_Set (admission c) in
      (h, self, effects ++ more, admission)
  | _, _ =>
      MemoryStore.insert_value_borrowed ep h self key (PlainMetadata.into_fresh m v []) time env
  end.

Definition capture_revision h self key (provided : option Loc) (fresh : Loc)
    : Revs * MemoryStore (Backend V) * result GenerationExhausted RevisionSnapshot :=
  let snapshot (r : result GenerationExhausted (Loc * Z * Z)) :=
    (λ '(l, c, g), mkSnapshot l c g) <$> r in
  match backend self with
  | Unbounded s =>
      let '(h, s, r) := Sharded.capture_origin_from hash h s key provided fresh in
      (h, self <| backend := Unbounded s |>, snapshot r)
  | Retained s =>
      if r_generation s =? u64_max
      then (from_option (release h) h provided, self, Err generation_exhausted)
      else
        let '(h, o, r) := Origins.capture_from h (r_origins s) key provided fresh in
        (h, self <| backend := Retained (s <| r_origins := o |>) |>,
         snapshot ((λ '(l, c), (l, c, r_generation s)) <$> r))
  end.
(** Dropping an origin token. *)
Definition forget self key (snapshot : RevisionSnapshot) : option (MemoryStore (Backend V)) :=
  match backend self with
  | Unbounded s =>
      (λ s, self <| backend := Unbounded s |>)
        <$> Sharded.forget_origin hash s key (snap_revision snapshot)
  | Retained s =>
      (λ o, self <| backend := Retained (s <| r_origins := o |>) |>)
        <$> Origins.forget (r_origins s) key (snap_revision snapshot)
  end.

Definition removed self key (expected : option (Entry V))
    : MemoryStore (Backend V) * list (Effect V) * option (Entry V) :=
  let '(b, r) :=
    match backend self with
    | Unbounded s => let '(s, r) := Sharded.remove hash s key expected in (Unbounded s, r)
    | Retained s =>
        if match expected with
           | Some e => negb (same_instance (rs_entry <$> r_entries s !! key) e)
           | None => false
           end
        then (Retained s, None)
        else
          let '(s, o) := Retention.remove s key in
          (Retained s, (λ stored, Retention.retire stored key RR_Explicit) <$> o)
    end in
  let self := self <| backend := b |> in
  (self, from_option (MemoryStore.retire self) [] r, ret_entry <$> r).
Definition remove self key : MemoryStore (Backend V) * list (Effect V) * option (Entry V) :=
  let '(self, effects, e) := removed self key None in (self, effects ++ [E_Remove key], e).
Definition remove_if_same self key (expected : Entry V) := removed self key (Some expected).

Definition invalidate_all self : MemoryStore (Backend V) * list (Effect V) :=
  let self' := self <| backend := store_clear (backend self) |> in
  match backend self with
  | Unbounded _ => (self', [])
  | Retained s =>
      (self', map_to_list (r_entries s) ≫= λ '(key, stored),
         MemoryStore.retire self (Retention.retire stored key RR_Explicit))
  end.

Definition run_pending_tasks ep self (now : option Timestamp) (instant : Instant)
    : MemoryStore (Backend V) * list (Effect V) :=
  let '(b, rs) :=
    match backend self with
    | Unbounded s =>
        let '(s, rs) :=
          fold_left (λ acc i,
            let '(s, rs) := acc in
            let '(s, more) := Sharded.expire ep s i now instant in (s, rs ++ more))
            (seq 0 SHARDS) (s, []) in
        (Unbounded s, rs)
    | Retained s => let '(s, rs) := remove_expired ep s now instant in (Retained s, rs)
    end in
  let self := self <| backend := b |> in (self, rs ≫= MemoryStore.retire self).

(** [locked]: the retained store's mutex is held by someone else. *)
Definition maintain_step ep self (now : option Timestamp) (instant : Instant)
    (free : nat → bool) (locked : bool) : MemoryStore (Backend V) * list (Effect V) :=
  let '(b, rs) :=
    match backend self with
    | Unbounded s =>
        let '(s, rs) := Sharded.maintain_step ep s now instant free in (Unbounded s, rs)
    | Retained s =>
        if locked then (Retained s, [])
        else let '(s, rs) := remove_expired ep s now instant in (Retained s, rs)
    end in
  let self := self <| backend := b |> in (self, rs ≫= MemoryStore.retire self).

Definition usage self : MemoryUsage :=
  match backend self with
  | Unbounded s => Sharded.usage s
  | Retained s => mkUsage (Z.of_nat (size (r_entries s))) (r_weight s)
  end.
End backend.

(** ** The sum of the backends keeps the contract *)

(** Open the result of the selected backend's operation in [H], naming the
    operation's own equation [E]. *)
Ltac open_backend H E :=
  simpl in H;
  lazymatch type of H with
  | context [Sharded.insert_prepared ?x ?h ?s ?rq] =>
      destruct (Sharded.insert_prepared x h s rq) as [[[? ?] ?] ?] eqn:E
  | context [Retention.insert ?ep ?h ?s ?rq] =>
      destruct (Retention.insert ep h s rq) as [[[? ?] ?] ?] eqn:E
  | context [Sharded.remove_as_mutation ?x ?h ?s ?k] =>
      destruct (Sharded.remove_as_mutation x h s k) as [[? ?] ?] eqn:E
  | context [Retention.remove_as_mutation ?h ?s ?k] =>
      destruct (Retention.remove_as_mutation h s k) as [[? ?] ?] eqn:E
  end;
  injection H; clear H; intros; subst.
Section laws.
Context {V : Type} (hash : string → Z).
#[local] Existing Instance backend_storage.

Definition backend_ok (b : Backend V) : Prop :=
  match b with
  | Unbounded s => @store_ok _ _ _ (sharded_laws hash) s
  | Retained s => @store_ok _ _ _ retention_laws s
  end.

#[export] Instance backend_laws : @StorageLaws (Backend V) V (backend_storage hash).
Proof.
  refine {| store_ok := backend_ok |}.
  - intros ep h [s|s] rq h' s' rest c Hok Heq Ha.
    + open_backend Heq E. exact (law_admitted (StorageLaws := sharded_laws hash) ep h s rq _ _ _ _ Hok E Ha).
    + open_backend Heq E. exact (law_admitted (StorageLaws := retention_laws) ep h s rq _ _ _ _ Hok E Ha).
  - intros ep h [s|s] rq h' s' rest c Hok Heq Ha.
    + open_backend Heq E. exact (law_rejected (StorageLaws := sharded_laws hash) ep h s rq _ _ _ _ Hok E Ha).
    + open_backend Heq E. exact (law_rejected (StorageLaws := retention_laws) ep h s rq _ _ _ _ Hok E Ha).
  - intros ep h [s|s] rq h' s' rest c k Hok Heq Ha.
    + open_backend Heq E. exact (law_frame (StorageLaws := sharded_laws hash) ep h s rq _ _ _ _ k Hok E Ha).
    + open_backend Heq E. exact (law_frame (StorageLaws := retention_laws) ep h s rq _ _ _ _ k Hok E Ha).
  - intros ep h [s|s] rq h' s' rest c Hok Heq Ha.
    + open_backend Heq E. destruct (law_condition (StorageLaws := sharded_laws hash) ep h s rq _ _ _ _ Hok E Ha)
        as (? & ? & ->). done.
    + open_backend Heq E. destruct (law_condition (StorageLaws := retention_laws) ep h s rq _ _ _ _ Hok E Ha)
        as (? & ? & ->). done.
  - intros ep h [s|s] rq h' s' rest c Hok Heq.
    + open_backend Heq E. exact (law_revisions (StorageLaws := sharded_laws hash) ep h s rq _ _ _ _ Hok E).
    + open_backend Heq E. exact (law_revisions (StorageLaws := retention_laws) ep h s rq _ _ _ _ Hok E).
  - intros ep h [s|s] rq h' s' rest c Hok Heq Ha.
    + open_backend Heq E. exact (law_advances (StorageLaws := sharded_laws hash) ep h s rq _ _ _ _ Hok E Ha).
    + open_backend Heq E. exact (law_advances (StorageLaws := retention_laws) ep h s rq _ _ _ _ Hok E Ha).
  - intros h [s|s] k h' s' r Hok Heq.
    + open_backend Heq E. exact (law_removed (StorageLaws := sharded_laws hash) h s k _ _ _ Hok E).
    + open_backend Heq E. exact (law_removed (StorageLaws := retention_laws) h s k _ _ _ Hok E).
  - intros [s|s] k Hok Hne.
    + exact (law_clear (StorageLaws := sharded_laws hash) s k Hok Hne).
    + exact (law_clear (StorageLaws := retention_laws) s k Hok Hne).
  - intros ep h [s|s] rq h' s' rest c Hok Heq.
    + open_backend Heq E. exact (law_ok_insert (StorageLaws := sharded_laws hash) ep h s rq _ _ _ _ Hok E).
    + open_backend Heq E. exact (law_ok_insert (StorageLaws := retention_laws) ep h s rq _ _ _ _ Hok E).
  - intros h [s|s] k h' s' r Hok Heq.
    + open_backend Heq E. exact (law_ok_remove (StorageLaws := sharded_laws hash) h s k _ _ _ Hok E).
    + open_backend Heq E. exact (law_ok_remove (StorageLaws := retention_laws) h s k _ _ _ Hok E).
  - intros [s|s] Hok.
    + exact (law_ok_clear (StorageLaws := sharded_laws hash) s Hok).
    + exact (law_ok_clear (StorageLaws := retention_laws) s Hok).
Defined.

Lemma create_ok limits mode armed :
  backend_ok (backend (create (V:=V) limits mode armed)).
Proof.
  unfold create. case_decide; simpl; [apply sharded_inv_new|]. simpl. lia.
Qed.
End laws.

(** ** Client lemmas, for any backend that keeps the contract *)
Section clients.
Context {S V : Type} `{StorageLaws S V}.
Implicit Types (self : MemoryStore S) (w : PreparedWrite V).

(** The revision that protects [key] is the one [snap] was captured from, it is
    held by the token, and it has not reached its terminal value. *)
Definition outstanding (h : Revs) self (key : string) (snap : RevisionSnapshot) : Prop :=
  ∃ a, store_origins (backend self) key !! key = Some a ∧
    revision a = snap_revision snap ∧ alive h (snap_revision snap) = true ∧
    snap_captured snap < u64_max.

(** Advancing the key's revision ends a current snapshot. *)
Lemma advance_ends h self key snap g :
  outstanding h self key snap →
  current h (snap_revision snap) = snap_captured snap →
  RevisionSnapshot.matches (MemoryStore.invalidate_origin h self key) snap g = false.
Proof.
  intros (a & Ha & Hr & Hal & Hmax) Hc.
  unfold RevisionSnapshot.matches, MemoryStore.invalidate_origin, Origins.advance.
  rewrite Ha, Hr, Hal. unfold rev_advance. rewrite current_alter, decide_True by done.
  unfold alive in Hal. unfold current in Hc.
  destruct (h !! snap_revision snap) as [o|]; [|done]. simpl in *.
  rewrite andb_false_intro2; [done|]. apply Z.eqb_neq. unfold saturating_add_u64. lia.
Qed.

Lemma matches_current h self snap :
  MemoryStore.is_current h self snap = true →
  current h (snap_revision snap) = snap_captured snap.
Proof.
  unfold MemoryStore.is_current, RevisionSnapshot.matches. intros Hm. by bool_to_prop.
Qed.

Definition write_expired w : bool :=
  negb (is_before (WriteTime.now (pw_time w))
          (physical_expiration (PreparedEntry.meta (pw_entry w)))).

(** The request [apply_write] hands to the backend. *)
Definition request_of self w expected (env : Env) : WriteRequest V :=
  mkRequest (pw_key w) (pw_entry w) (pw_time w) expected
    (mkPolicy (pw_capture w) (observer_capture self)) (pw_event w)
    (env_alloc env) (env_unique env) (env_instant env).

Lemma apply_write_spec ep h self w expected env h' self' rest c :
  store_ok (backend self) →
  MemoryStore.apply_write ep h self w expected env = (h', self', rest, c) →
  store_ok (backend self') ∧
  (is_rejected (admission c) = false →
     write_expired w = false ∧ rest = None ∧
     Expected.matches_generation h expected (lookup_current (backend self) (pw_key w))
       (store_generation (backend self)) = true ∧
     (∃ e, lookup_current (backend self') (pw_key w) = Some e ∧ represents (pw_entry w) e) ∧
     h' = if Expected.changes_origin expected
          then MemoryStore.invalidate_origin h self (pw_key w) else h) ∧
  (is_rejected (admission c) = true →
     rest = Some (pw_entry w) ∧
     (lookup_current (backend self') (pw_key w) = lookup_current (backend self) (pw_key w) ∨
      lookup_current (backend self') (pw_key w) = None)) ∧
  (Expected.matches_generation h expected (lookup_current (backend self) (pw_key w))
     (store_generation (backend self)) = false →
     is_rejected (admission c) = true ∧ self' = self ∧ h' = h) ∧
  (∀ k, k ≠ pw_key w →
     lookup_current (backend self') k = lookup_current (backend self) k ∨
     lookup_current (backend self') k = None).
Proof.
  intros Hok Heq. unfold MemoryStore.apply_write in Heq. fold (write_expired w) in Heq.
  destruct (write_expired w) eqn:Hexp.
  - injection Heq as <- <- <- <-. simpl. split_and!; try done; auto.
    intros Hm. split_and!; [done..|]. destruct expected; done.
  - fold (request_of self w expected env) in Heq.
    set (rq := request_of self w expected env) in *.
    destruct (store_insert ep h (backend self) rq) as [[[h1 s1] r1] c1] eqn:E.
    injection Heq as <- <- <- <-. simpl.
    assert (is_rejected (admission c1) = false →
      Expected.matches_generation h expected (lookup_current (backend self) (pw_key w))
        (store_generation (backend self)) = true) as Hmatch.
    { intros Ha. destruct (Expected.matches_generation _ _ _ _) eqn:Hm; [done|].
      destruct (law_condition ep h (backend self) rq _ _ _ _ Hok E Hm) as [? _]. congruence. }
    split_and!.
    + by apply (law_ok_insert ep h (backend self) rq _ _ _ _ Hok E).
    + intros Ha. destruct (law_admitted ep h (backend self) rq _ _ _ _ Hok E Ha) as (? & ? & _).
      pose proof (law_advances ep h (backend self) rq _ _ _ _ Hok E Ha). auto.
    + intros Ha. by apply (law_rejected ep h (backend self) rq _ _ _ _ Hok E).
    + intros Hm. destruct (law_condition ep h (backend self) rq _ _ _ _ Hok E Hm) as (? & -> & ->).
      by destruct self.
    + intros k Hne. by apply (law_frame ep h (backend self) rq _ _ _ _ k Hok E).
Qed.

Lemma prepared_entry_spec self key (e : Entry V) now event env :
  let w := MemoryStore.prepare_write self key e now event env in
  pw_key w = key ∧ PreparedEntry.value (pw_entry w) = Entry.value e ∧
  inserted_at (PreparedEntry.meta (pw_entry w)) = now ∧
  logical_expiration (PreparedEntry.meta (pw_entry w)) = logical_expiration (Entry.meta e) ∧
  physical_expiration (PreparedEntry.meta (pw_entry w)) = physical_expiration (Entry.meta e) ∧
  WriteTime.now (pw_time w) = now.
Proof.
  unfold MemoryStore.prepare_write.
  destruct (inserted_at (Entry.meta e) =? now) eqn:Hn; simpl; bool_to_prop; [done|].
  unfold Entry.at_insertion. rewrite (proj2 (Z.eqb_neq now _)) by congruence. done.
Qed.
End clients.

(** ** Properties *)

(** C29: a conditional insertion is a compare-and-swap on one key, on either
    backend. It is admitted only if the key's visible representation is exactly
    the expected one (the same allocation, or none) and the candidate is not
    physically dead; then the key holds the candidate's value and deadlines,
    stamped with the insertion instant. If the expectation fails nothing at all
    changes, and no insertion creates or alters the representation of another
    key. *)
Theorem conditional_insert_is_cas {V} (hash : string → Z) (ep : Epochs) (h h' : Revs)
    (self self' : MemoryStore (Backend V)) (key : string) (expected : option (Entry V))
    (e : Entry V) (now : Timestamp) (env : Env) (effects : list (Effect V))
    (adm : MemoryAdmission) :
  backend_ok hash (backend self) →
  MemoryStore.insert_if_unchanged (H := backend_storage hash) ep h self key expected e now env =
    (h', self', effects, adm) →
  let found := @lookup_current _ _ (backend_storage hash) (backend self) in
  let found' := @lookup_current _ _ (backend_storage hash) (backend self') in
  let holds := match expected with
               | Some old => same_instance (found key) old
               | None => match found key with None => true | Some _ => false end
               end in
  backend_ok hash (backend self') ∧
  (is_rejected adm = false →
     holds = true ∧ Entry.is_physically_expired e now = false ∧
     ∃ stored, found' key = Some stored ∧ Entry.value stored = Entry.value e ∧
       inserted_at (Entry.meta stored) = now ∧
       logical_expiration (Entry.meta stored) = logical_expiration (Entry.meta e) ∧
       physical_expiration (Entry.meta stored) = physical_expiration (Entry.meta e)) ∧
  (holds = false → is_rejected adm = true ∧ self' = self ∧ h' = h) ∧
  (∀ k, k ≠ key → found' k = found k ∨ found' k = None).
Proof.
  intros Hok Heq.
  unfold MemoryStore.insert_if_unchanged, MemoryStore.insert_internal in Heq.
  set (ex := match expected with Some old => EX_Same old | None => EX_Absent end) in Heq.
  set (w := MemoryStore.prepare_write self key e now MW_Set env) in Heq.
  destruct (MemoryStore.apply_write (H := backend_storage hash) ep h self w ex env)
    as [[[h1 self1] rest] c] eqn:E.
  destruct (prepared_entry_spec self key e now MW_Set env)
    as (Hkey & Hval & Hins & Hlog & Hphys & Hnow). fold w in Hkey, Hval, Hins, Hlog, Hphys, Hnow.
  destruct (apply_write_spec (H := backend_storage hash) (H0 := backend_laws hash)
    ep h self w ex env _ _ _ _ Hok E) as (Hok' & Hadm & _ & Hcond & Hframe).
  assert (adm = admission c ∧ h' = h1 ∧ self' = self1) as (-> & -> & ->).
  { destruct (MemoryStore.finish_insert self1 w c) as [eff a] eqn:F. injection Heq as <- <- <- <-.
    unfold MemoryStore.finish_insert, MemoryStore.finish_admission in F.
    by destruct (admission c); injection F as <- <-. }
  rewrite Hkey in *. cbv zeta.
  assert ((match expected with
    | Some old => same_instance (@lookup_current _ _ (backend_storage hash) (backend self) key) old
    | None => match @lookup_current _ _ (backend_storage hash) (backend self) key with
              | None => true | Some _ => false end end) =
    Expected.matches_generation h ex (@lookup_current _ _ (backend_storage hash) (backend self) key)
      (@store_generation _ _ (backend_storage hash) (backend self))) as ->
    by (unfold ex; by destruct expected).
  split_and!; [done| |done|done].
  intros Ha. destruct (Hadm Ha) as (Hexp & _ & Hm & (stored & Hst & Hv & Hmeta) & _).
  split; [done|]. split.
  - unfold write_expired in Hexp. rewrite Hnow, Hphys in Hexp. exact Hexp.
  - exists stored. rewrite Hv, Hmeta. done.
Qed.

Definition sample_entry (p : Loc) (v : nat) : Entry nat :=
  mkEntry p (mkInner v (mkMetadata 0 0 50 100 (from_secs 1) (EO_Fresh None) None None []
                          RM_Unspecified) EL_Local).
Definition sample_memory : MemoryStore (Backend nat) :=
  create (mkMemoryLimits (Some 2) None) ClockDriven false.
Definition sample_env : Env := mkEnv 8%positive 9%positive false 0.
Definition sample_stored : MemoryStore (Backend nat) :=
  (MemoryStore.insert_if_unchanged (H := backend_storage sample_hash) (λ _, 0) ∅ sample_memory
     "k" None (sample_entry 1 7%nat) 0 sample_env).1.1.2.

Lemma conditional_insert_is_cas_witness :
  match MemoryStore.insert_if_unchanged (H := backend_storage sample_hash) (λ _, 0) ∅
          sample_stored "k" None (sample_entry 2 8%nat) 0 sample_env with
  | (_, self', _, adm) => is_rejected adm = true ∧ self' = sample_stored
  end.
Proof.
  destruct (MemoryStore.insert_if_unchanged _ _ _ _ _ _ _ _) as [[[h' self'] eff] adm] eqn:E.
  assert (backend_ok sample_hash (backend sample_stored)) as Hok by (vm_compute; split; discriminate).
  destruct (conditional_insert_is_cas sample_hash (λ _, 0) ∅ h' sample_stored self' "k" None
    (sample_entry 2 8%nat) 0 sample_env eff adm Hok E) as (_ & _ & H & _).
  destruct H as (Hr & Hs & _); [vm_compute; reflexivity|]. split; [exact Hr|exact Hs].
Defined.

(** A factory's origin commits at most once and never over a mutation. On
    either backend, a write with an origin condition is admitted only while the
    origin is current, and is refused without any change once it is not; and
    whatever mutates the key ends every current outstanding origin of it: an
    admitted unconditional write, expiration or origin commit, a removal, and a
    skip. *)
Theorem origin_commits_at_most_once {V} (hash : string → Z) (ep : Epochs) (h : Revs)
    (self : MemoryStore (Backend V)) (w : PreparedWrite V) (snap : RevisionSnapshot)
    (env : Env) :
  let S := backend_storage hash in
  backend_ok hash (backend self) →
  outstanding (H := S) h self (pw_key w) snap →
  (MemoryStore.is_current (H := S) h self snap = false →
   let '(h', self', rest, c) := MemoryStore.apply_origin (H := S) ep h self w snap env in
   is_rejected (admission c) = true ∧ h' = h ∧ self' = self ∧ rest = Some (pw_entry w)) ∧
  (MemoryStore.is_current (H := S) h self snap = true →
   (∀ expected, Expected.changes_origin expected = true →
      let '(h', self', _, c) := MemoryStore.apply_write (H := S) ep h self w expected env in
      is_rejected (admission c) = false → MemoryStore.is_current (H := S) h' self' snap = false) ∧
   (let '(h', self', _) := MemoryStore.detach_remove (H := S) h self (pw_key w) in
    MemoryStore.is_current (H := S) h' self' snap = false) ∧
   (∀ other, let '(h', skipped) := MemoryStore.skip_revision (H := S) h self (pw_key w) other in
    skipped = true → MemoryStore.is_current (H := S) h' self snap = false)).
Proof.
  intros S Hok Hout. split.
  - intros Hcur. unfold MemoryStore.apply_origin.
    destruct (MemoryStore.apply_write ep h self w (EX_Origin snap) env)
      as [[[h' self'] rest] c] eqn:E.
    destruct (apply_write_spec (H := S) (H0 := backend_laws hash) ep h self w _ env _ _ _ _ Hok E)
      as (_ & _ & Hrej & Hcond & _).
    destruct (Hcond Hcur) as (Hr & -> & ->). destruct (Hrej Hr) as [-> _]. done.
  - intros Hcur. apply matches_current in Hcur as Hc. split_and!.
    + intros expected Hch.
      destruct (MemoryStore.apply_write ep h self w expected env) as [[[h' self'] rest] c] eqn:E.
      intros Ha.
      destruct (apply_write_spec (H := S) (H0 := backend_laws hash) ep h self w _ env _ _ _ _ Hok E)
        as (_ & Hadm & _). destruct (Hadm Ha) as (_ & _ & _ & _ & ->). rewrite Hch.
      by apply (advance_ends (H := S)).
    + unfold MemoryStore.detach_remove.
      destruct (store_remove_as_mutation h (backend self) (pw_key w)) as [[h' s'] r] eqn:E.
      destruct (law_removed (StorageLaws := backend_laws hash) h (backend self) (pw_key w) _ _ _ Hok E)
        as (-> & _). by apply (advance_ends (H := S)).
    + intros other. unfold MemoryStore.skip_revision.
      destruct (RevisionSnapshot.matches h other _); [|done]. intros _.
      by apply (advance_ends (H := S)).
Qed.

Definition sample_capture :=
  capture_revision sample_hash ∅ sample_memory "k" None 1%positive.

Lemma origin_commits_at_most_once_witness :
  match sample_capture with
  | (h, self, Ok snap) =>
      let '(h', self', _) :=
        MemoryStore.detach_remove (H := backend_storage sample_hash) h self "k" in
      MemoryStore.is_current (H := backend_storage sample_hash) h' self' snap = false
  | _ => False
  end.
Proof.
  destruct sample_capture as [[h self] [snap|]] eqn:E; [|by vm_compute in E].
  vm_compute in E. injection E as <- <- <-.
  apply (origin_commits_at_most_once sample_hash (λ _, 0) _ _
    (mkWrite "k" (PE_Candidate (sample_entry 1 7%nat)) None None (WT_Clock 0) Unarmed MW_Set)
    _ sample_env).
  - vm_compute; split; discriminate.
  - exists (mkActive 1 1). vm_compute. done.
  - vm_compute. reflexivity.
Defined.
