(* ===== verification/Lanes.v ===== *)
(** * Commit lanes

    Models [src/src/commit/ordered.rs] (the per-key admission gate) and the
    lanes and fences of [src/src/commit.rs].

    [Gate] is one shard of the suspended-mutation queues with every lane bound
    to it. Its steps are the atomic accesses of the code: each
    compare-exchange, load or store of an admission word, and each stretch of
    work under the shard lock between two such accesses. A label names the
    claim that moves and, where the claim is at rest, what its owner does with
    it (poll or drop). The accesses of one word are sequentially consistent
    because they are accesses of one atomic. *)
From S2P Require Import Prelude Time.

Module Gate.
Inductive GateState := Free | Held | Queued.

#[export] Instance GateState_eq_dec : EqDecision GateState.
Proof. solve_decision. Defined.

(** Where one claim ([LaneAcquisition], then its [LaneGuard]) stands.

    - [New]: [AcquisitionState::New], not yet polled.
    - [Enqueue]: the claim of [start] failed; the shard lock is wanted.
    - [Inspect], [SawFree], [SawHeld], [Push]: the loop of [enqueue], under
      the shard lock.
    - [Register], [Check]: [poll_waiter]; [Pending]: suspended.
    - [Owner]: a live [LaneGuard].
    - [Release], [Handoff], [Popped], [Passing], [Wake]: [release].
    - [Withdraw], [Removed]: [withdraw]. *)
Inductive Pc :=
| New | Enqueue | Inspect | SawFree | SawHeld | Push
| Register | Check | Pending
| Owner | Release | Handoff
| Popped (next : option nat) | Passing (next : option nat) | Wake (next : nat)
| Withdraw | Removed
| Finished
| Unreachable.

#[export] Instance Pc_eq_dec : EqDecision Pc.
Proof. solve_decision. Defined.

Record World := mkWorld {
  words : gmap nat GateState;
  queues : gmap nat (list nat);
  shard_lock : option nat;
  granted : gset nat;
  wakers : gset nat;
  notified : gset nat;
  claims : gmap nat (nat * Pc);
}.
#[export] Instance eta_World : Eta World := λ w,
  mkWorld (words w) (queues w) (shard_lock w) (granted w) (wakers w) (notified w) (claims w).

(** What the queue of a lane sees, in order. *)
Inductive Event :=
| Pushed (lane waiter : nat)
| Granted (lane waiter : nat)
| Withdrawn (lane waiter : nat).

Inductive Label :=
| Lock (a lane : nat)
| TryLock (a lane : nat)
| Poll (a : nat)
| Drop (a : nat)
| Run (a : nat).

Definition word (w : World) (lane : nat) : GateState := default Free (words w !! lane).
Definition queue (w : World) (lane : nat) : list nat := default [] (queues w !! lane).

Definition set_word (lane : nat) (s : GateState) (w : World) : World :=
  w <| words := <[lane := s]> (words w) |>.

(** [compare_exchange]: the new world when the word has the expected value. *)
Definition exchange (lane : nat) (old new : GateState) (w : World) : option World :=
  if decide (word w lane = old) then Some (set_word lane new w) else None.

Definition claim (lane : nat) := exchange lane Free Held.
Definition mark_queued (lane : nat) := exchange lane Held Queued.
Definition release_ready (lane : nat) := exchange lane Held Free.

Definition goto (a lane : nat) (p : Pc) (w : World) : World :=
  w <| claims := <[a := (lane, p)]> (claims w) |>.

(** [self.shard().lock()] blocks while another claim holds the shard. *)
Definition acquire (a : nat) (w : World) : option World :=
  match shard_lock w with None => Some (w <| shard_lock := Some a |>) | Some _ => None end.
Definition unlock (w : World) : World := w <| shard_lock := None |>.

(** Removal of one waiter, dropping the entry of an emptied queue. *)
Definition set_queue (lane : nat) (q : list nat) (w : World) : World :=
  w <| queues := match q with [] => delete lane (queues w) | _ => <[lane := q]> (queues w) end |>.

(** [compare_exchange] and where the claim goes on success and on failure. *)
Definition branch (a lane : nat) (r : option World) (w : World)
    (ok : World → World) (other : Pc) : World :=
  match r with Some w' => ok w' | None => goto a lane other w end.

(** One access of the claim [a] standing at [p] in its running code. *)
Definition run_step (a lane : nat) (p : Pc) (w : World) : option (World * list Event) :=
  match p with
  | Enqueue => w' ← acquire a w; Some (goto a lane Inspect w', [])
  | Inspect =>
      Some (goto a lane match word w lane with
                        | Free => SawFree | Held => SawHeld | Queued => Push end w, [])
  | SawFree => Some (branch a lane (claim lane w) w (λ w', goto a lane Owner (unlock w')) Inspect, [])
  | SawHeld => Some (branch a lane (mark_queued lane w) w (goto a lane Push) Inspect, [])
  | Push =>
      Some (goto a lane Register (unlock (set_queue lane (queue w lane ++ [a]) w)),
            [Pushed lane a])
  | Register => Some (goto a lane Check (w <| wakers := {[a]} ∪ wakers w |>), [])
  | Check => Some (goto a lane (if decide (a ∈ granted w) then Owner else Pending) w, [])
  | Release => Some (branch a lane (release_ready lane w) w (goto a lane Finished) Handoff, [])
  | Handoff =>
      w' ← acquire a w;
      Some (match queue w lane with
            | [] => goto a lane (Popped None) w'
            | n :: q => goto a lane (Popped (Some n)) (set_queue lane q w')
            end, [])
  | Popped next =>
      let state := match next with
                   | Some _ => if decide (is_Some (queues w !! lane)) then Queued else Held
                   | None => Free
                   end in
      Some (goto a lane (Passing next) (set_word lane state w), [])
  | Passing (Some n) =>
      Some (goto a lane (Wake n) (unlock (w <| granted := {[n]} ∪ granted w |>)),
            [Granted lane n])
  | Passing None => Some (goto a lane Finished (unlock w), [])
  | Wake n =>
      Some (goto a lane Finished
              (if decide (n ∈ wakers w)
               then w <| wakers := wakers w ∖ {[n]} |> <| notified := {[n]} ∪ notified w |>
               else w), [])
  | Withdraw =>
      w' ← acquire a w;
      if decide (a ∈ granted w) then Some (goto a lane Release (unlock w'), [])
      else Some (match queues w !! lane with
                 | None => goto a lane Unreachable w'
                 | Some q =>
                     match list_find (λ stored, stored = a) q with
                     | None => goto a lane Unreachable w'
                     | Some (index, _) =>
                         let q' := delete index q in
                         let w'' := set_queue lane q' w' in
                         match q' with
                         | [] => goto a lane Removed w''
                         | _ => goto a lane Finished (unlock w'')
                         end
                     end
                 end, [Withdrawn lane a])
  | Removed => Some (goto a lane Finished (unlock (set_word lane Held w)), [])
  | New | Pending | Owner | Finished | Unreachable => None
  end.

Definition step (w : World) (l : Label) : option (World * list Event) :=
  match l with
  | Lock a lane =>
      match claims w !! a with
      | None => Some (goto a lane New w, [])
      | Some _ => None
      end
  | TryLock a lane =>
      match claims w !! a with
      | None => Some (branch a lane (claim lane w) w (goto a lane Owner) Finished, [])
      | Some _ => None
      end
  | Poll a =>
      match claims w !! a with
      | Some (lane, New) => Some (branch a lane (claim lane w) w (goto a lane Owner) Enqueue, [])
      | Some (lane, Pending) => Some (goto a lane Register (w <| notified := notified w ∖ {[a]} |>), [])
      | _ => None
      end
  | Drop a =>
      match claims w !! a with
      | Some (lane, New) => Some (goto a lane Finished w, [])
      | Some (lane, Pending) => Some (goto a lane Withdraw w, [])
      | Some (lane, Owner) => Some (goto a lane Release w, [])
      | _ => None
      end
  | Run a => '(lane, p) ← claims w !! a; run_step a lane p w
  end.

Definition initial : World := mkWorld ∅ ∅ None ∅ ∅ ∅ ∅.

(** A schedule's final world and what the queues saw; [None] when a label is
    not enabled where the schedule names it. *)
Fixpoint execute (w : World) (ls : list Label) : option (World * list Event) :=
  match ls with
  | [] => Some (w, [])
  | l :: ls =>
      '(w', es) ← step w l;
      '(w'', es') ← execute w' ls;
      Some (w'', es ++ es')
  end.

(** Claims that run user code under a guard. *)
Definition owner (w : World) (a lane : nat) : Prop := claims w !! a = Some (lane, Owner).
End Gate.

(** ** The invariant of the gate *)
Module GateInv.
Import Gate.

Definition locked (p : Pc) : bool :=
  match p with
  | Inspect | SawFree | SawHeld | Push | Popped _ | Passing _ | Removed | Unreachable => true
  | _ => false
  end.

(** Positions that own the lane whatever the waiter's flag says. *)
Definition holding (p : Pc) : bool :=
  match p with
  | Owner | Release | Handoff | Popped _ | Passing (Some _) => true
  | _ => false
  end.

Definition waiting (p : Pc) : bool :=
  match p with Register | Check | Pending | Withdraw => true | _ => false end.

Definition entering (p : Pc) : bool :=
  match p with
  | New | Enqueue | Inspect | SawFree | SawHeld | Push => true
  | _ => false
  end.

Definition flying (p : Pc) (n : nat) : bool :=
  match p with
  | Popped (Some m) | Passing (Some m) => bool_decide (m = n)
  | _ => false
  end.

(** Positions at which the word and the queue disagree until the shard lock
    is released. *)
Definition mid (p : Pc) : bool :=
  match p with Push | Popped (Some _) | Removed => true | _ => false end.

Definition at_pc (w : World) (a lane : nat) (P : Pc → Prop) : Prop :=
  ∃ p, claims w !! a = Some (lane, p) ∧ P p.

Definition lock_inv (w : World) : Prop :=
  (∀ a lane p, claims w !! a = Some (lane, p) → (locked p ↔ shard_lock w = Some a)) ∧
  (∀ a, shard_lock w = Some a → is_Some (claims w !! a)).

Definition owns (w : World) (a lane : nat) : Prop :=
  at_pc w a lane (λ p, holding p ∨ waiting p ∧ a ∈ granted w).

Definition owner_inv (w : World) (o : gmap nat nat) : Prop :=
  (∀ a lane, owns w a lane ↔ o !! lane = Some a) ∧
  (∀ lane, word w lane = Free ↔ o !! lane = None).

Definition word_inv (w : World) : Prop :=
  (∀ lane, queues w !! lane ≠ Some []) ∧
  (∀ a lane, at_pc w a lane mid → word w lane = Queued) ∧
  (∀ a lane, at_pc w a lane (λ p, p = Popped None ∨ p = Removed) → queue w lane = []) ∧
  (∀ lane, (∀ a, ¬ at_pc w a lane mid) → (word w lane = Queued ↔ queue w lane ≠ [])).

Definition waiter_inv (w : World) : Prop :=
  (∀ lane, NoDup (queue w lane)) ∧
  (∀ a lane, a ∈ queue w lane ↔
     at_pc w a lane waiting ∧ (a ∉ granted w) ∧ ¬ (∃ b, at_pc w b lane (λ p, flying p a))) ∧
  (∀ a b lane, at_pc w b lane (λ p, flying p a) → at_pc w a lane waiting ∧ a ∉ granted w) ∧
  (∀ a, a ∈ granted w → ∃ lane, at_pc w a lane (λ p, ¬ entering p)).


(** Changes of position that touch nothing the invariant mentions. *)
Definition silent (old : option Pc) (new : Pc) : bool :=
  match old, new with
  | None, (New | Finished) | Some New, (Finished | Enqueue)
  | Some Inspect, (SawFree | SawHeld) | Some (SawFree | SawHeld), Inspect
  | Some Register, Check | Some Check, Pending | Some Pending, (Register | Withdraw)
  | Some Owner, Release | Some Release, Handoff | Some (Wake _), Finished => true
  | _, _ => false
  end.

(** What the queue of the lane sees of a move. *)
Definition move_events (a lane : nat) (old : option Pc) (new : Pc) : list Event :=
  match old, new with
  | Some Push, _ => [Pushed lane a]
  | Some (Passing (Some n)), _ => [Granted lane n]
  | Some Withdraw, Release => []
  | Some Withdraw, _ => [Withdrawn lane a]
  | _, _ => []
  end.

(** Registered wakers and notifications after such a change. *)
Definition wakes (w : World) (a : nat) (old : option Pc) (new : Pc) (wk nt : gset nat) : Prop :=
  match old, new with
  | Some Register, _ => wk = {[a]} ∪ wakers w ∧ nt = notified w
  | Some Pending, Register => wk = wakers w ∧ nt = notified w ∖ {[a]}
  | Some Check, _ => (a ∉ granted w) ∧ wk = wakers w ∧ nt = notified w
  | Some (Wake n), _ =>
      if decide (n ∈ wakers w) then wk = wakers w ∖ {[n]} ∧ nt = {[n]} ∪ notified w
      else wk = wakers w ∧ nt = notified w
  | _, _ => wk = wakers w ∧ nt = notified w
  end.

(** The steps, sorted by what they change. *)
Inductive move (w : World) (a lane : nat) : option Pc → Pc → World → Prop :=
| move_silent old new wk nt :
    silent old new → wakes w a old new wk nt →
    move w a lane old new (mkWorld (words w) (queues w) (shard_lock w) (granted w) wk nt
                             (<[a := (lane, new)]> (claims w)))
| move_lock : shard_lock w = None →
    move w a lane (Some Enqueue) Inspect (goto a lane Inspect (w <| shard_lock := Some a |>))
| move_claim old : old = None ∨ old = Some New → word w lane = Free →
    move w a lane old Owner (goto a lane Owner (set_word lane Held w))
| move_claim_locked : word w lane = Free →
    move w a lane (Some SawFree) Owner (goto a lane Owner (unlock (set_word lane Held w)))
| move_mark : word w lane = Held →
    move w a lane (Some SawHeld) Push (goto a lane Push (set_word lane Queued w))
| move_queued : word w lane = Queued →
    move w a lane (Some Inspect) Push (goto a lane Push w)
| move_push :
    move w a lane (Some Push) Register
      (goto a lane Register (unlock (set_queue lane (queue w lane ++ [a]) w)))
| move_granted : a ∈ granted w →
    move w a lane (Some Check) Owner (goto a lane Owner w)
| move_release : word w lane = Held →
    move w a lane (Some Release) Finished (goto a lane Finished (set_word lane Free w))
| move_pop_none : shard_lock w = None → queue w lane = [] →
    move w a lane (Some Handoff) (Popped None)
      (goto a lane (Popped None) (w <| shard_lock := Some a |>))
| move_pop n q : shard_lock w = None → queue w lane = n :: q →
    move w a lane (Some Handoff) (Popped (Some n))
      (goto a lane (Popped (Some n)) (set_queue lane q (w <| shard_lock := Some a |>)))
| move_free :
    move w a lane (Some (Popped None)) (Passing None)
      (goto a lane (Passing None) (set_word lane Free w))
| move_pass n s : s = (if decide (is_Some (queues w !! lane)) then Queued else Held) →
    move w a lane (Some (Popped (Some n))) (Passing (Some n))
      (goto a lane (Passing (Some n)) (set_word lane s w))
| move_unlock :
    move w a lane (Some (Passing None)) Finished (goto a lane Finished (unlock w))
| move_grant n :
    move w a lane (Some (Passing (Some n))) (Wake n)
      (goto a lane (Wake n) (unlock (w <| granted := {[n]} ∪ granted w |>)))
| move_cancel_granted : shard_lock w = None → a ∈ granted w →
    move w a lane (Some Withdraw) Release (goto a lane Release w)
| move_cancel q i q' : shard_lock w = None → a ∉ granted w →
    queues w !! lane = Some q → q !! i = Some a → q' = delete i q →
    move w a lane (Some Withdraw) (match q' with [] => Removed | _ => Finished end)
      (match q' with
       | [] => goto a lane Removed (set_queue lane [] (w <| shard_lock := Some a |>))
       | _ => goto a lane Finished (set_queue lane q' w)
       end)
| move_removed :
    move w a lane (Some Removed) Finished (goto a lane Finished (unlock (set_word lane Held w)))
| move_unreachable : shard_lock w = None → a ∉ granted w → a ∉ queue w lane →
    move w a lane (Some Withdraw) Unreachable
      (goto a lane Unreachable (w <| shard_lock := Some a |>)).

Lemma claim_Some w lane old new w' :
  exchange lane old new w = Some w' → word w lane = old ∧ w' = set_word lane new w.
Proof. unfold exchange. case_decide; naive_solver. Qed.


Ltac inv_exchange :=
  unfold claim, mark_queued, release_ready in *;
  repeat case_match; simplify_eq;
  repeat match goal with
  | H : exchange _ _ _ _ = Some _ |- _ => apply claim_Some in H as [? ->]
  end.

Lemma withdraw_move w a lane w' es :
  run_step a lane Withdraw w = Some (w', es) →
  ∃ new, move w a lane (Some Withdraw) new w' ∧ es = move_events a lane (Some Withdraw) new.
Proof.
  intros Hs. cbn [run_step] in Hs. unfold acquire in Hs.
  destruct (shard_lock w) eqn:Hl; [done|]. cbn in Hs.
  assert (∀ w0, shard_lock w0 = None → unlock (w0 <| shard_lock := Some a |>) = w0) as Hu
    by (intros [] ?; simpl in *; by subst).
  case_decide as Hg; simplify_eq.
  { exists Release. split; [|done]. replace (goto _ _ _ _) with (goto a lane Release w).
    - by apply move_cancel_granted.
    - f_equal. symmetry. by apply Hu. }
  destruct (queues w !! lane) as [q|] eqn:Hq; simplify_eq.
  2: { exists Unreachable. split; [|done]. apply move_unreachable; [done..|]. unfold queue. rewrite Hq. set_solver. }
  destruct (list_find _ q) as [[i b]|] eqn:Hf; simplify_eq.
  - apply list_find_Some in Hf as (Hi & -> & _).
    pose proof (move_cancel w a lane q i (delete i q) Hl Hg Hq Hi eq_refl) as Hm.
    destruct (delete i q); [by exists Removed|]. exists Finished. split; [|done].
    replace (goto _ _ _ _) with (goto a lane Finished (set_queue lane (n :: l) w)); [exact Hm|].
    f_equal. destruct w. simpl in *. by subst.
  - exists Unreachable. split; [|done]. apply move_unreachable; [done..|]. unfold queue. rewrite Hq. simpl.
    intros Ha. apply list_find_None in Hf. rewrite Forall_forall in Hf. by eapply Hf.
Qed.

Ltac silent_move lemma := split; [by apply lemma|done].

Lemma run_step_move w a lane p w' es :
  run_step a lane p w = Some (w', es) →
  ∃ new, move w a lane (Some p) new w' ∧ es = move_events a lane (Some p) new.
Proof.
  intros Hs. destruct p; try (by eapply withdraw_move); cbn [run_step] in Hs;
    unfold branch in Hs; try discriminate; inv_exchange;
    try (unfold acquire in Hs; destruct (shard_lock w) eqn:Hl; [done|]; cbn in Hs; simplify_eq);
    try (case_match eqn:Hq; simplify_eq);
    eexists;
    first [ silent_move move_lock | silent_move move_claim_locked | silent_move move_mark
          | silent_move move_queued | silent_move move_push | silent_move move_granted
          | silent_move move_release | silent_move move_pop_none | silent_move move_pop
          | silent_move move_free | silent_move move_unlock | silent_move move_grant
          | silent_move move_removed
          | idtac ].
  1-7: split; [|done];
    match goal with |- move _ _ _ (Some ?p) _ (goto _ _ ?q _) =>
      by apply (move_silent w a lane (Some p) q) end.
  - split; [|done]. eapply (move_pass _ _ _ n Queued). by rewrite decide_True.
  - split; [|done]. eapply (move_pass _ _ _ n Held). by rewrite decide_False.
  - split; [|done]. apply (move_silent w a lane (Some (Wake next)) Finished); [done|].
    simpl. by rewrite decide_True.
  - split; [|done]. apply (move_silent w a lane (Some (Wake next)) Finished); [done|].
    simpl. by rewrite decide_False.
Qed.

Lemma step_move w l w' es :
  step w l = Some (w', es) →
  ∃ a lane old new, claims w !! a = (lane,.) <$> old ∧ move w a lane old new w' ∧
    es = move_events a lane old new.
Proof.
  intros Hs. destruct l as [a L|a L|a|a|a]; cbn [step] in Hs; exists a.
  all: destruct (claims w !! a) as [[lane p]|] eqn:Hc; try discriminate.
  - exists L, None, New. simplify_eq. split; [done|]. silent_move move_silent.
  - unfold branch in Hs. inv_exchange.
    + exists L, None, Owner. split; [done|]. split; [|done]. apply move_claim; [by left|done].
    + exists L, None, Finished. split; [done|]. silent_move move_silent.
  - exists lane, (Some p). destruct p; try discriminate; unfold branch in Hs; inv_exchange.
    + exists Owner. split; [done|]. split; [|done]. apply move_claim; [by right|done].
    + exists Enqueue. split; [done|]. silent_move move_silent.
    + exists Register. split; [done|]. split; [|done].
      by apply (move_silent w a lane (Some Pending) Register).
  - exists lane, (Some p).
    destruct p; try discriminate; simplify_eq;
      [exists Finished|exists Withdraw|exists Release]; (split; [done|]); silent_move move_silent.
  - exists lane, (Some p). apply run_step_move in Hs as (new & ? & ?). eauto.
Qed.

Lemma at_pc_goto w a lane p b M (P : Pc → Prop) :
  at_pc (goto a lane p w) b M P ↔
  (b = a ∧ M = lane ∧ P p) ∨ (b ≠ a ∧ at_pc w b M P).
Proof.
  unfold at_pc, goto. simpl. destruct (decide (b = a)) as [->|Hb].
  - rewrite lookup_insert_eq. naive_solver.
  - rewrite lookup_insert_ne by done. naive_solver.
Qed.

(** The world before the position changes: every move is [goto] of one. *)
Lemma lock_inv_goto w w1 a lane p :
  lock_inv w → claims w1 = claims w →
  (locked p ↔ shard_lock w1 = Some a) →
  (shard_lock w1 = shard_lock w ∨ shard_lock w = Some a ∧ shard_lock w1 = None ∨
     shard_lock w = None ∧ shard_lock w1 = Some a) →
  lock_inv (goto a lane p w1).
Proof.
  intros [Hl Hd] Hc Hp Hs. split; unfold goto; simpl; rewrite Hc.
  - intros b L q. destruct (decide (b = a)) as [->|Hb].
    + rewrite lookup_insert_eq. intros [= -> ->]. done.
    + rewrite lookup_insert_ne by done. intros Hq%Hl. rewrite Hq.
      destruct Hs as [->|[[Hs ->]|[Hs ->]]]; [done| |]; rewrite Hs; split; congruence.
  - intros b Hb. rewrite lookup_insert_is_Some. destruct (decide (a = b)); [by left|].
    right. split; [done|]. apply Hd. destruct Hs as [Hs|[[_ Hs]|[_ Hs]]]; congruence.
Qed.

Lemma lock_inv_move w a lane old new w' :
  lock_inv w → claims w !! a = (lane,.) <$> old → move w a lane old new w' → lock_inv w'.
Proof.
  intros Hi Hc Hm. pose proof Hi as [Hl Hd].
  assert (Ha : shard_lock w = Some a ↔ from_option locked false old).
  { destruct old as [p|]; simpl in *; [by rewrite (Hl a lane p Hc)|].
    split; [|done]. intros [? ?]%Hd. congruence. }
  destruct Hm as [old new wk nt Hs Hwk| | | | | | | | | | | | | | | |q i q'| |]; simpl in Ha.
  { change (mkWorld _ _ _ _ _ _ _) with
      (goto a lane new (mkWorld (words w) (queues w) (shard_lock w) (granted w) wk nt (claims w))).
    apply lock_inv_goto with w; simpl; [done|done| |by left].
    rewrite Ha. destruct old as [[]|], new; done. }
  all: try (destruct q'; apply lock_inv_goto with w; simpl; intuition congruence).
  all: apply lock_inv_goto with w; simpl; [done|done|..]; try intuition congruence.
  destruct H as [-> | ->]; simpl in Ha; intuition congruence.
Qed.

Lemma word_set_eq w lane s : word (set_word lane s w) lane = s.
Proof. unfold word, set_word. simpl. by rewrite lookup_insert_eq. Qed.

Lemma word_set_ne w lane s M : M ≠ lane → word (set_word lane s w) M = word w M.
Proof. intros ?. unfold word, set_word. simpl. by rewrite lookup_insert_ne. Qed.

Lemma queue_set_eq w lane q : queue (set_queue lane q w) lane = q.
Proof.
  unfold queue, set_queue. simpl. destruct q; [by rewrite lookup_delete_eq|].
  by rewrite lookup_insert_eq.
Qed.

Lemma queue_set_ne w lane q M : M ≠ lane → queue (set_queue lane q w) M = queue w M.
Proof.
  intros ?. unfold queue, set_queue. simpl.
  destruct q; [by rewrite lookup_delete_ne|by rewrite lookup_insert_ne].
Qed.

Lemma owner_goto w w' a lane p o o' :
  owner_inv w o →
  claims w' = <[a := (lane, p)]> (claims w) → granted w' = granted w →
  (∀ M q, claims w !! a = Some (M, q) → M = lane) →
  (holding p ∨ waiting p ∧ a ∈ granted w ↔ o' !! lane = Some a) →
  (∀ b, b ≠ a → o' !! lane = Some b ↔ o !! lane = Some b) →
  (∀ M, M ≠ lane → o' !! M = o !! M) →
  (word w' lane = Free ↔ o' !! lane = None) →
  (∀ M, M ≠ lane → word w' M = Free ↔ word w M = Free) →
  owner_inv w' o'.
Proof.
  intros [Ho Hw] Hc Hg Hsame Ha Hb HM Hl Hwm. split.
  - intros b M. unfold owns, at_pc. rewrite Hc, Hg.
    destruct (decide (b = a)) as [->|Hba].
    + rewrite lookup_insert_eq. destruct (decide (M = lane)) as [->|HML].
      * rewrite <-Ha. split; [intros (q & [= ->] & ?)|intros ?; exists p]; done.
      * rewrite (HM M HML), <-(Ho a M).
        split; intros (q & Hq & _); [congruence|]. apply Hsame in Hq. congruence.
    + rewrite lookup_insert_ne by done. change (owns w b M ↔ o' !! M = Some b).
      rewrite Ho. destruct (decide (M = lane)) as [->|HML].
      * symmetry. by apply Hb.
      * by rewrite HM.
  - intros M. destruct (decide (M = lane)) as [->|HML]; [done|].
    rewrite (HM M HML), Hwm by done. apply Hw.
Qed.

Section owner.
Context (w w1 : World) (o : gmap nat nat) (a lane : nat) (old : option Pc) (p : Pc).
Hypothesis Hinv : owner_inv w o.
Hypothesis Hcl : claims w !! a = (lane,.) <$> old.
Hypothesis Hc1 : claims w1 = claims w.
Hypothesis Hg1 : granted w1 = granted w.

Definition owned (q : Pc) : Prop := holding q ∨ waiting q ∧ a ∈ granted w.

Lemma owner_iff : o !! lane = Some a ↔ ∃ q, old = Some q ∧ owned q.
Proof.
  destruct Hinv as [Ho _]. rewrite <-(Ho a lane). unfold owns, at_pc. rewrite Hcl.
  destruct old as [q|]; simpl.
  - split; intros (q' & [= ->] & ?); unfold owned; eauto.
  - split; intros (q' & ? & _); discriminate.
Qed.

Lemma owner_same_lane M q : claims w !! a = Some (M, q) → M = lane.
Proof. rewrite Hcl. destruct old; simpl; congruence. Qed.

Lemma owner_keep :
  (owned p ↔ ∃ q, old = Some q ∧ owned q) →
  (∀ M, word w1 M = Free ↔ word w M = Free) →
  owner_inv (goto a lane p w1) o.
Proof using All.
  intros Hp Hw. destruct Hinv as [Ho Hwo].
  apply owner_goto with w a lane p o; simpl; try done.
  - by rewrite Hc1.
  - apply owner_same_lane.
  - by rewrite owner_iff.
  - rewrite <-Hwo. apply (Hw lane).
  - intros M _. apply (Hw M).
Qed.

Lemma owner_gain :
  holding p → word w lane = Free → words w1 = <[lane := Held]> (words w) →
  owner_inv (goto a lane p w1) (<[lane := a]> o).
Proof using All.
  intros Hp Hf Hw. destruct Hinv as [Ho Hwo].
  assert (o !! lane = None) as Hn by by apply Hwo.
  apply owner_goto with w a lane p o; simpl; try done.
  - by rewrite Hc1.
  - apply owner_same_lane.
  - rewrite lookup_insert_eq. tauto.
  - intros b Hb. rewrite lookup_insert_eq, Hn. split; congruence.
  - intros M HM. by rewrite lookup_insert_ne.
  - unfold word; simpl. rewrite Hw, !lookup_insert_eq. done.
  - intros M HM. unfold word; simpl. by rewrite Hw, lookup_insert_ne.
Qed.

Lemma owner_lose q :
  ¬ owned p → old = Some q → owned q → words w1 = <[lane := Free]> (words w) →
  owner_inv (goto a lane p w1) (delete lane o).
Proof using All.
  intros Hp Hq Hoq Hw.
  assert (o !! lane = Some a) as Hn by (apply owner_iff; eauto).
  apply owner_goto with w a lane p o; simpl; try done.
  - by rewrite Hc1.
  - apply owner_same_lane.
  - rewrite lookup_delete_eq. unfold owned in Hp. naive_solver.
  - intros b Hb. rewrite lookup_delete_eq, Hn. split; congruence.
  - intros M HM. by rewrite lookup_delete_ne.
  - unfold word; simpl. rewrite Hw, lookup_insert_eq, lookup_delete_eq. done.
  - intros M HM. unfold word; simpl. by rewrite Hw, lookup_insert_ne.
Qed.
End owner.

Lemma word_frame w w1 lane s :
  words w1 = <[lane := s]> (words w) → s ≠ Free → word w lane ≠ Free →
  ∀ M, word w1 M = Free ↔ word w M = Free.
Proof.
  intros Hw Hs Hl M. unfold word. rewrite Hw. destruct (decide (M = lane)) as [->|HM].
  - rewrite lookup_insert_eq. simpl. done.
  - by rewrite lookup_insert_ne.
Qed.

(** The handoff: the flag and the lock change together. *)
Lemma owner_grant w o a lane n :
  owner_inv w o → claims w !! a = Some (lane, Passing (Some n)) →
  at_pc w n lane waiting → n ∉ granted w →
  owner_inv (goto a lane (Wake n) (unlock (w <| granted := {[n]} ∪ granted w |>)))
    (<[lane := n]> o).
Proof.
  intros [Ho Hw] Hc (p & Hn & Hp) Hg.
  assert (n ≠ a) by (intros ->; rewrite Hc in Hn; by simplify_eq).
  assert (o !! lane = Some a) as Hoa.
  { apply Ho. exists (Passing (Some n)). split; [done|]. by left. }
  split.
  - intros b M. unfold owns. rewrite at_pc_goto. simpl.
    destruct (decide (M = lane)) as [->|HM].
    + rewrite lookup_insert_eq. split.
      * intros [(-> & _ & [[]|[[] _]])|(Hb & q & Hq & Hh)]. simpl in Hq.
        destruct (decide (b = n)) as [->|Hbn]; [done|].
        assert (o !! lane = Some b); [|congruence].
        apply Ho. exists q. split; [done|]. set_solver.
      * intros [= <-]. right. split; [done|]. exists p. split; [done|]. right. set_solver.
    + rewrite lookup_insert_ne by done. rewrite <-Ho. split.
      * intros [(_ & ? & _)|(Hb & q & Hq & Hh)]; [done|]. simpl in Hq. exists q. split; [done|].
        destruct (decide (b = n)) as [->|]; [congruence|]. set_solver.
      * intros (q & Hq & Hh). right. split; [congruence|]. exists q. split; [done|]. set_solver.
  - intros M. change (word w M = Free ↔ <[lane := n]> o !! M = None). rewrite Hw.
    destruct (decide (M = lane)) as [->|HM].
    + rewrite lookup_insert_eq, Hoa. done.
    + by rewrite lookup_insert_ne.
Qed.

Lemma owner_inv_move w a lane old new w' o :
  word_inv w → waiter_inv w → owner_inv w o →
  claims w !! a = (lane,.) <$> old → move w a lane old new w' → ∃ o', owner_inv w' o'.
Proof.
  intros (_ & Hmid & _) (_ & _ & Hfly & Hent) Hi Hc Hm.
  pose proof (owner_iff w o a lane old Hi Hc) as Ha. pose proof Hi as [_ Hfree].
  assert (∀ p, old = Some p → mid p → word w lane = Queued) as Hq.
  { intros p -> Hp. apply (Hmid a). by exists p. }
  assert (∀ p, old = Some p → entering p → a ∉ granted w) as Hng.
  { intros p -> Hp (M & q & Hq' & ?)%Hent. rewrite Hc in Hq'. naive_solver. }
  assert (∀ p, old = Some p → owned w a p → word w lane ≠ Free) as Hnf.
  { intros p -> Hp. rewrite Hfree. intros Hn.
    assert (o !! lane = Some a) by (apply Ha; eauto). congruence. }
  destruct Hm as [old new wk nt Hs Hwk|Hl|old Hs Hf|Hf|Hh|Hqd| |Hg|Hh|Hl Hqe|n q Hl Hqe| |n s Hs| |n
                 |Hl Hg|q i q' Hl Hg Hqq Hi' Hq'| |Hl Hg Hn].
  - change (mkWorld _ _ _ _ _ _ _) with
      (goto a lane new (mkWorld (words w) (queues w) (shard_lock w) (granted w) wk nt (claims w))).
    exists o. eapply owner_keep; [done..| |done].
    unfold owned. destruct old as [[]|], new; simpl in *; try done; naive_solver.
  - exists o. eapply owner_keep; [done..| |done]. unfold owned; naive_solver.
  - eexists. eapply owner_gain; [done..|]. done.
  - eexists. eapply owner_gain; [done..|]. done.
  - exists o. eapply owner_keep; [done..| |].
    + unfold owned; naive_solver.
    + by eapply (word_frame _ _ lane Queued); [done..|congruence].
  - exists o. eapply owner_keep; [done..| |done]. unfold owned; naive_solver.
  - exists o. eapply owner_keep; [done..| |done].
    pose proof (Hng Push eq_refl I). unfold owned; naive_solver.
  - exists o. eapply owner_keep; [done..| |done]. unfold owned; naive_solver.
  - eexists. eapply (owner_lose w (set_word lane Free w) _ _ _ _ _ Hi Hc eq_refl eq_refl Release); try done; unfold owned; naive_solver.
  - exists o. eapply owner_keep; [done..| |done]. unfold owned; naive_solver.
  - exists o. eapply owner_keep; [done..| |done]. unfold owned; naive_solver.
  - eexists. eapply (owner_lose w (set_word lane Free w) _ _ _ _ _ Hi Hc eq_refl eq_refl (Popped None)); try done; unfold owned; naive_solver.
  - exists o. eapply owner_keep; [done..| |].
    + unfold owned; naive_solver.
    + eapply (word_frame _ _ lane s); [done|by subst; case_decide|].
      rewrite (Hq _ eq_refl I). done.
  - exists o. eapply owner_keep; [done..| |done]. unfold owned; naive_solver.
  - eexists. destruct (Hfly n a lane) as [? ?].
    { exists (Passing (Some n)). split; [done|]. simpl. by rewrite bool_decide_true. }
    by apply owner_grant.
  - exists o. eapply owner_keep; [done..| |done]. unfold owned; naive_solver.
  - exists o. destruct q'; eapply owner_keep; try done; unfold owned; naive_solver.
  - exists o. eapply owner_keep; [done..| |].
    + unfold owned; naive_solver.
    + eapply (word_frame _ _ lane Held); [done..|]. by rewrite (Hq _ eq_refl I).
  - exists o. eapply owner_keep; [done..| |done]. unfold owned; naive_solver.
Qed.

Lemma at_locked w a lane (P : Pc → Prop) :
  lock_inv w → at_pc w a lane P → (∀ p, P p → locked p) → shard_lock w = Some a.
Proof. intros [Hl _] (p & Hp & HP) Himp. by apply (Hl a lane p), Himp. Qed.

Lemma mid_locked p : mid p → locked p.
Proof. by destruct p as [| | | | | | | | | | | |[]| | | | | |]. Qed.

Definition emptied (p : Pc) : Prop := p = Popped None ∨ p = Removed.

Lemma emptied_locked p : emptied p → locked p.
Proof. by intros [->| ->]. Qed.

Section word.
Context (w : World) (a lane : nat) (old : option Pc).
Hypothesis Hlock : lock_inv w.
Hypothesis Hinv : word_inv w.
Hypothesis Hcl : claims w !! a = (lane,.) <$> old.

(** While [a] may take or holds the shard lock, no other claim is mid-way. *)
Lemma others_idle b :
  shard_lock w = None ∨ shard_lock w = Some a → b ≠ a →
  ¬ at_pc w b lane mid ∧ ¬ at_pc w b lane emptied.
Proof.
  intros Hs Hb. split; intros H.
  - apply at_locked in H; [|done|exact mid_locked]. naive_solver.
  - apply at_locked in H; [|done|exact emptied_locked]. naive_solver.
Qed.

Lemma at_own (P : Pc → Prop) : at_pc w a lane P ↔ ∃ q, old = Some q ∧ P q.
Proof.
  unfold at_pc. rewrite Hcl. destruct old as [q|]; simpl.
  - split; intros (q' & [= ->] & ?); eauto.
  - split; intros (q' & ? & _); discriminate.
Qed.

Lemma unlocked_word :
  shard_lock w = None → word w lane = Queued ↔ queue w lane ≠ [].
Proof.
  intros Hn. destruct Hinv as (_ & _ & _ & H4). apply H4.
  intros b H. apply at_locked in H; [|done|exact mid_locked]. congruence.
Qed.

Lemma word_inv_goto w1 p :
  claims w1 = claims w →
  (∀ M, M ≠ lane → word w1 M = word w M ∧ queue w1 M = queue w M) →
  (∀ M, queues w1 !! M ≠ Some []) →
  (mid p → word w1 lane = Queued) →
  (emptied p → queue w1 lane = []) →
  (∀ b, b ≠ a → at_pc w b lane mid → word w1 lane = Queued) →
  (∀ b, b ≠ a → at_pc w b lane emptied → queue w1 lane = []) →
  (¬ mid p → (∀ b, b ≠ a → ¬ at_pc w b lane mid) →
     word w1 lane = Queued ↔ queue w1 lane ≠ []) →
  word_inv (goto a lane p w1).
Proof using Hinv Hcl.
  intros Hc HM Hsh Hmp Hep Hmb Heb Hpw. destruct Hinv as (_ & H2 & H3 & H4).
  assert (∀ b M P, at_pc w1 b M P ↔ at_pc w b M P) as Hat.
  { intros b M P. unfold at_pc. by rewrite Hc. }
  assert (∀ b M P, M ≠ lane → at_pc w b M P → b ≠ a) as Hne.
  { intros b M P HML (q & Hq & _) ->. rewrite Hcl in Hq.
    destruct old; simpl in Hq; congruence. }
  split; [done|]. split; [|split].
  - intros b M. rewrite at_pc_goto, Hat. change (word (goto _ _ _ w1) M) with (word w1 M).
    intros [(-> & -> & Hp)|(Hb & Hp)]; [by apply Hmp|].
    destruct (decide (M = lane)) as [->|HML]; [by apply (Hmb b)|].
    destruct (HM M HML) as [-> _]. by apply (H2 b).
  - intros b M. rewrite at_pc_goto, Hat. change (queue (goto _ _ _ w1) M) with (queue w1 M).
    intros [(-> & -> & Hp)|(Hb & Hp)]; [by apply Hep|].
    destruct (decide (M = lane)) as [->|HML]; [by apply (Heb b)|].
    destruct (HM M HML) as [_ ->]. by apply (H3 b).
  - intros M. change (word (goto _ _ _ w1) M) with (word w1 M).
    change (queue (goto _ _ _ w1) M) with (queue w1 M).
    intros Hno. destruct (decide (M = lane)) as [->|HML].
    + apply Hpw.
      * intros Hp. apply (Hno a). apply at_pc_goto. by left.
      * intros b Hb Hp. apply (Hno b). apply at_pc_goto. right. by rewrite Hat.
    + destruct (HM M HML) as [-> ->]. apply H4. intros b Hb. apply (Hno b).
      apply at_pc_goto. right. rewrite Hat. split; [by eapply Hne|done].
Qed.

(** Positions that leave words and queues alone. *)
Lemma word_inv_keep w1 p :
  claims w1 = claims w → words w1 = words w → queues w1 = queues w →
  ¬ mid p → (∀ q, old = Some q → ¬ mid q) → (emptied p → queue w lane = []) →
  word_inv (goto a lane p w1).
Proof using Hinv Hcl.
  intros Hc Hw Hq Hp Hold Hep. pose proof Hinv as (H1 & H2 & H3 & H4).
  assert (∀ M, word w1 M = word w M) as Hwd by (intros; unfold word; by rewrite Hw).
  assert (∀ M, queue w1 M = queue w M) as Hqd by (intros; unfold queue; by rewrite Hq).
  apply word_inv_goto; rewrite ?Hwd, ?Hqd; try done.
  - by rewrite Hq.
  - intros b _. apply H2.
  - intros b _. apply H3.
  - intros _ Hno. apply H4. intros b Hb. destruct (decide (b = a)) as [->|]; [|naive_solver].
    apply at_own in Hb. naive_solver.
Qed.

(** The ready compare-exchanges, which need no lock. *)
Lemma word_inv_ready w1 p s :
  claims w1 = claims w → words w1 = <[lane := s]> (words w) → queues w1 = queues w →
  word w lane ≠ Queued → s ≠ Queued →
  ¬ mid p → (∀ q, old = Some q → ¬ mid q) → ¬ emptied p →
  word_inv (goto a lane p w1).
Proof using Hinv Hcl.
  intros Hc Hw Hq Hnq Hs Hp Hold Hep. pose proof Hinv as (H1 & H2 & H3 & H4).
  assert (∀ M, queue w1 M = queue w M) as Hqd by (intros; unfold queue; by rewrite Hq).
  assert (word w1 lane = s) as Hwl by (unfold word; by rewrite Hw, lookup_insert_eq).
  apply word_inv_goto; rewrite ?Hwl, ?Hqd; try done.
  - intros M HM. split; [|done]. unfold word. by rewrite Hw, lookup_insert_ne.
  - by rewrite Hq.
  - intros b _ Hb%H2. done.
  - intros b _. apply H3.
  - intros _ Hno. split; [done|]. intros Hne. exfalso. apply Hnq, H4; [|done].
    intros b Hb. destruct (decide (b = a)) as [->|]; [|naive_solver].
    apply at_own in Hb. naive_solver.
Qed.
End word.

Lemma set_queue_shape w lane q M :
  (∀ N, queues w !! N ≠ Some []) → queues (set_queue lane q w) !! M ≠ Some [].
Proof.
  intros H. unfold set_queue. simpl. destruct q.
  - rewrite lookup_delete_Some. naive_solver.
  - rewrite lookup_insert_Some. naive_solver.
Qed.

Lemma queue_lookup w lane : (∀ N, queues w !! N ≠ Some []) →
  is_Some (queues w !! lane) ↔ queue w lane ≠ [].
Proof.
  intros H. specialize (H lane). unfold queue. destruct (queues w !! lane) as [q|]; simpl.
  - split; [congruence|eauto].
  - split; [by intros []|done].
Qed.

Ltac positions :=
  try done; try (intros ? [= <-]); try (by intros [|]); try done; try (by intros []); try (by intros [=]).

Lemma word_inv_move w a lane old new w' :
  lock_inv w → word_inv w →
  claims w !! a = (lane,.) <$> old → move w a lane old new w' → word_inv w'.
Proof.
  intros Hlk Hi Hc Hm. pose proof Hi as (H1 & H2 & H3 & H4).
  assert (Hlocked : ∀ p, old = Some p → locked p → shard_lock w = Some a).
  { intros p -> Hp. destruct Hlk as [Hl _]. by apply (Hl a lane p). }
  pose proof (others_idle w a lane Hlk) as Hidle.
  pose proof (at_own w a lane old Hc) as Hown.
  pose proof (unlocked_word w lane Hlk Hi) as Hun.
  assert (Hne : ∀ q M, M ≠ lane → ∀ w0, queue (set_queue lane q w0) M = queue w0 M)
    by (intros; by apply queue_set_ne).
  destruct Hm as [old new wk nt Hs Hwk|Hl|old Hs Hf|Hf|Hh|Hqd| |Hg|Hh|Hl Hqe|n q Hl Hqe| |n s Hs| |n
                 |Hl Hg|q i q' Hl Hg Hqq Hi' Hq'| |Hl Hg Hn].
  - change (mkWorld _ _ _ _ _ _ _) with
      (goto a lane new (mkWorld (words w) (queues w) (shard_lock w) (granted w) wk nt (claims w))).
    eapply word_inv_keep; try done; destruct old as [[]|], new; positions.
  - eapply word_inv_keep; positions.
  - destruct Hs as [-> | ->]; eapply word_inv_ready; rewrite ?Hf; positions.
  - eapply word_inv_ready; rewrite ?Hf; positions.
  - specialize (Hlocked _ eq_refl I). eapply word_inv_goto; try done; try (by intros [|]).
    + intros M HM. by rewrite word_set_ne.
    + intros _. apply word_set_eq.
    + intros. apply word_set_eq.
    + intros b Hb Hp. by destruct (Hidle b (or_intror Hlocked) Hb).
  - specialize (Hlocked _ eq_refl I). eapply word_inv_goto; try done; try (by intros [|]).
    + intros b Hb Hp. by destruct (Hidle b (or_intror Hlocked) Hb).
  - specialize (Hlocked _ eq_refl I).
    assert (word w lane = Queued) as Hw by (apply (H2 a), Hown; eauto).
    eapply word_inv_goto; try done; try (by intros [|]).
    + intros M HM. split; [done|by apply queue_set_ne].
    + intros M. by apply set_queue_shape.
    + intros b Hb Hp. by destruct (Hidle b (or_intror Hlocked) Hb).
    + intros _ _. change (word w lane = Queued ↔ queue (set_queue lane (queue w lane ++ [a]) w) lane ≠ []).
      rewrite queue_set_eq. destruct (queue w lane); done.
  - eapply word_inv_keep; positions.
  - eapply word_inv_ready; rewrite ?Hh; positions.
  - eapply word_inv_keep; positions.
  - assert (word w lane = Queued) as Hw by (apply Hun; [done|by rewrite Hqe]).
    eapply word_inv_goto; try done; try (by intros [|]).
    + intros M HM. split; [done|by rewrite queue_set_ne].
    + intros M. by apply (set_queue_shape (w <| shard_lock := Some a |>)).
    + intros b Hb Hp. by destruct (Hidle b (or_introl Hl) Hb).
  - specialize (Hlocked _ eq_refl I).
    assert (queue w lane = []) as Hqe by (apply (H3 a), Hown; eauto).
    eapply word_inv_goto; try done; try (by intros [|]).
    + intros M HM. by rewrite word_set_ne.
    + intros b Hb Hp. by destruct (Hidle b (or_intror Hlocked) Hb).
    + rewrite word_set_eq. change (queue (set_word _ _ w) lane) with (queue w lane).
      by rewrite Hqe.
  - specialize (Hlocked _ eq_refl I). eapply word_inv_goto; try done; try (by intros [|]).
    + intros M HM. by rewrite word_set_ne.
    + intros b Hb Hp. by destruct (Hidle b (or_intror Hlocked) Hb).
    + intros b Hb Hp. by destruct (Hidle b (or_intror Hlocked) Hb).
    + rewrite word_set_eq. change (queue (set_word _ _ w) lane) with (queue w lane).
      rewrite <-queue_lookup by done. subst s. case_decide; naive_solver.
  - eapply word_inv_keep; positions.
  - eapply word_inv_keep; positions.
  - eapply word_inv_keep; positions.
  - assert (queue w lane = q) as Hqe by (unfold queue; by rewrite Hqq).
    assert (word w lane = Queued) as Hw.
    { apply Hun; [done|]. rewrite Hqe. by intros ->. }
    destruct q' as [|b q']; eapply word_inv_goto; try done; try (by intros [|]).
    + intros M HM. split; [done|by rewrite (queue_set_ne _ _ [])].
    + intros M. by apply (set_queue_shape (w <| shard_lock := Some a |>) _ []).
    + intros _. by rewrite (queue_set_eq _ _ []).
    + intros _ _ _. by rewrite (queue_set_eq _ _ []).
    + intros M HM. split; [done|by rewrite (queue_set_ne _ _ (b :: q'))].
    + intros M. by apply (set_queue_shape _ _ (b :: q')).
    + intros c Hb Hp. by destruct (Hidle c (or_introl Hl) Hb).
    + rewrite (queue_set_eq _ _ (b :: q')). done.
  - specialize (Hlocked _ eq_refl I).
    assert (queue w lane = []) as Hqe by (apply (H3 a), Hown; exists Removed; split; [done|by right]).
    eapply word_inv_goto; try done; try (by intros [|]).
    + intros M HM. split; [by apply (word_set_ne w lane Held)|done].
    + intros b Hb Hp. by destruct (Hidle b (or_intror Hlocked) Hb).
    + change (word (unlock (set_word lane Held w)) lane) with (word (set_word lane Held w) lane).
      rewrite word_set_eq. change (queue (unlock (set_word _ _ w)) lane) with (queue w lane).
      by rewrite Hqe.
  - eapply word_inv_keep; positions.
Qed.

Lemma flying_eq p n m : flying p n → flying p m → n = m.
Proof. destruct p as [| | | | | | | | | | | |[]|[]| | | | |]; simpl; try done; case_bool_decide; try done; subst; case_bool_decide; done. Qed.

Lemma flying_locked p n : flying p n → locked p.
Proof. by destruct p as [| | | | | | | | | | | |[]|[]| | | | |]. Qed.

Section waiters.
Context (w : World) (a lane : nat) (old : option Pc).
Hypothesis Hlock : lock_inv w.
Hypothesis Hinv : waiter_inv w.
Hypothesis Hcl : claims w !! a = (lane,.) <$> old.

Definition was (P : Pc → Prop) : Prop := ∃ q, old = Some q ∧ P q.

Lemma at_goto w1 p b M (P : Pc → Prop) :
  claims w1 = claims w →
  at_pc (goto a lane p w1) b M P ↔
  (b = a ∧ M = lane ∧ P p) ∨ (b ≠ a ∧ at_pc w b M P).
Proof. intros Hc. rewrite at_pc_goto. unfold at_pc. by rewrite Hc. Qed.

Lemma at_lane M (P : Pc → Prop) : at_pc w a M P ↔ M = lane ∧ was P.
Proof.
  unfold at_pc, was. rewrite Hcl. destruct old as [q|]; simpl.
  - split; [intros (q' & [= -> ->] & ?); eauto|]. intros (-> & q' & [= ->] & ?). eauto.
  - split; [intros (q' & ? & _); discriminate|]. intros (_ & q' & ? & _). discriminate.
Qed.

Lemma at_keep w1 p b M (P : Pc → Prop) :
  claims w1 = claims w → (P p ↔ was P) →
  at_pc (goto a lane p w1) b M P ↔ at_pc w b M P.
Proof.
  intros Hc HP. rewrite at_goto by done. destruct (decide (b = a)) as [->|Hb].
  - rewrite at_lane. naive_solver.
  - naive_solver.
Qed.

Lemma waiter_keep w1 p :
  claims w1 = claims w → queues w1 = queues w → granted w1 = granted w →
  (∀ n, flying p n ↔ was (λ q, flying q n)) →
  (a ∈ granted w ∧ ¬ entering p ∨ (waiting p ↔ was waiting) ∧ (entering p → a ∉ granted w)) →
  waiter_inv (goto a lane p w1).
Proof using Hinv Hcl.
  intros Hc Hq Hg Hf Hw. destruct Hinv as (W1 & W2 & W3 & W4).
  assert (∀ M, queue (goto a lane p w1) M = queue w M) as Hqd
    by (intros; unfold queue; simpl; by rewrite Hq).
  assert (granted (goto a lane p w1) = granted w) as Hgd by (simpl; by rewrite Hg).
  assert (∀ b M, b ∉ granted w → at_pc (goto a lane p w1) b M waiting ↔ at_pc w b M waiting) as Hwt.
  { intros b M Hb. rewrite at_goto by done. destruct (decide (b = a)) as [->|Hba].
    - rewrite at_lane. naive_solver.
    - naive_solver. }
  assert (∀ n b M, at_pc (goto a lane p w1) b M (λ p, flying p n) ↔ at_pc w b M (λ p, flying p n)) as Hfl.
  { intros n b M. apply at_keep; [done|apply Hf]. }
  unfold waiter_inv. setoid_rewrite Hqd. setoid_rewrite Hfl. rewrite Hgd. split; [done|]. split; [|split].
  - intros b M. rewrite W2. split; intros (H1 & H2 & H3); (split; [by apply Hwt|done]).
  - intros b c M [H1 H2]%W3. split; [by apply Hwt|done].
  - intros b Hb. destruct (decide (b = a)) as [->|Hba].
    + exists lane. apply at_goto; [done|]. left. naive_solver.
    + destruct (W4 b Hb) as (M & HM). exists M. apply at_goto; [done|]. by right.
Qed.

Lemma at_new w1 p b M (P : Pc → Prop) :
  claims w1 = claims w → ¬ was P →
  at_pc (goto a lane p w1) b M P ↔ (b = a ∧ M = lane ∧ P p) ∨ at_pc w b M P.
Proof using Hcl.
  intros Hc HP. rewrite at_goto by done. destruct (decide (b = a)) as [->|]; [|naive_solver].
  rewrite at_lane. naive_solver.
Qed.

Lemma was_old q (P : Pc → Prop) : old = Some q → was P ↔ P q.
Proof. intros Hq. unfold was. rewrite Hq. split; [by intros (? & [= <-] & ?)|eauto]. Qed.

Ltac was_is H := rewrite (was_old _ _ H); simpl; try done; try (by intros []).

Lemma no_flying M n :
  shard_lock w = None ∨ shard_lock w = Some a → ¬ was (λ q, flying q n) →
  ¬ ∃ b, at_pc w b M (λ q, flying q n).
Proof using Hlock Hcl.
  intros Hs Ha (b & Hb). pose proof Hb as Hb'.
  apply at_locked in Hb; [|done|intros p; apply flying_locked].
  destruct Hs as [Hs|Hs]; [congruence|]. rewrite Hs in Hb. injection Hb as <-.
  apply at_lane in Hb'. tauto.
Qed.

(** The waiter joins the back of its queue. *)
Lemma waiter_push :
  old = Some Push → shard_lock w = Some a →
  waiter_inv (goto a lane Register (unlock (set_queue lane (queue w lane ++ [a]) w))).
Proof using Hinv Hcl Hlock.
  intros Hold Hl. destruct Hinv as (W1 & W2 & W3 & W4).
  set (w1 := unlock _). assert (Hc : claims w1 = claims w) by done.
  assert (a ∉ granted w) as Hg.
  { intros (M & HM)%W4. apply at_lane in HM as (_ & HM). apply (was_old Push) in HM; [|done].
    by apply HM. }
  assert (∀ b M, at_pc (goto a lane Register w1) b M waiting ↔
                 (b = a ∧ M = lane) ∨ at_pc w b M waiting) as Hwt.
  { intros b M. rewrite at_new; [|done|was_is Hold]. naive_solver. }
  assert (∀ n b M, at_pc (goto a lane Register w1) b M (λ p, flying p n) ↔ at_pc w b M (λ p, flying p n)) as Hfl.
  { intros n b M. apply at_keep; [done|]. by was_is Hold. }
  assert (∀ n M, ¬ ∃ b, at_pc w b M (λ q, flying q n)) as Hnf.
  { intros n M. apply no_flying; [by right|]. by was_is Hold. }
  assert (∀ M, a ∉ queue w M) as Hna.
  { intros M (HM & _)%W2. apply at_lane in HM as [_ HM]. by apply (was_old _ _ Hold) in HM. }
  assert (∀ M, queue (goto a lane Register w1) M
    = if decide (M = lane) then queue w lane ++ [a] else queue w M) as Hqd.
  { intros M. case_decide as HM; [subst; apply queue_set_eq|by apply queue_set_ne]. }
  unfold waiter_inv. setoid_rewrite Hfl. setoid_rewrite Hwt. split; [|split; [|split]].
  - intros M. rewrite Hqd. case_decide; [|done]. apply NoDup_app.
    split; [done|]. split; [|apply NoDup_singleton]. intros b Hb ->%list_elem_of_singleton. by eapply Hna.
  - intros b M. rewrite Hqd. specialize (W2 b M). specialize (Hnf b M).
    case_decide as HM; [subst M; rewrite elem_of_app, list_elem_of_singleton|]; simpl; naive_solver.
  - intros b c M Hfly. exfalso. by eapply Hnf; eexists.
  - intros b Hb. destruct (decide (b = a)) as [->|Hba]; [done|].
    destruct (W4 b Hb) as (M & HM). exists M. apply at_goto; [done|]. by right.
Qed.

(** The head of the queue is taken by the releasing claim. *)
Lemma waiter_pop n q :
  old = Some Handoff → shard_lock w = None → queue w lane = n :: q →
  waiter_inv (goto a lane (Popped (Some n)) (set_queue lane q (w <| shard_lock := Some a |>))).
Proof using Hinv Hcl Hlock.
  intros Hold Hl Hq. destruct Hinv as (W1 & W2 & W3 & W4).
  set (w1 := set_queue _ _ _). assert (Hc : claims w1 = claims w) by done.
  assert (∀ b M, at_pc (goto a lane (Popped (Some n)) w1) b M waiting ↔ at_pc w b M waiting) as Hwt.
  { intros b M. apply at_keep; [done|]. by was_is Hold. }
  assert (∀ m b M, at_pc (goto a lane (Popped (Some n)) w1) b M (λ p, flying p m) ↔
    (b = a ∧ M = lane ∧ n = m) ∨ at_pc w b M (λ p, flying p m)) as Hfl.
  { intros m b M. rewrite at_new; [|done|was_is Hold]. simpl. by rewrite bool_decide_spec. }
  assert (∀ n M, ¬ ∃ b, at_pc w b M (λ q, flying q n)) as Hnf.
  { intros m M. apply no_flying; [by left|]. was_is Hold. }
  assert (∀ M, queue (goto a lane (Popped (Some n)) w1) M
    = if decide (M = lane) then q else queue w M) as Hqd.
  { intros M. case_decide as HM; [subst; apply queue_set_eq|].
    trans (queue w1 M); [done|]. unfold w1. by rewrite queue_set_ne. }
  pose proof (W1 lane) as Hnd. rewrite Hq in Hnd. apply NoDup_cons in Hnd as [Hnq Hnd].
  assert (at_pc w n lane waiting ∧ n ∉ granted w) as [Hnw Hng].
  { destruct (proj1 (W2 n lane)) as (? & ? & _); [|done]. rewrite Hq. by left. }
  unfold waiter_inv. setoid_rewrite Hfl. setoid_rewrite Hwt. split; [|split; [|split]].
  - intros M. rewrite Hqd. by case_decide.
  - intros b M. rewrite Hqd. specialize (W2 b M). specialize (Hnf b M). case_decide as HM.
    + subst M. rewrite Hq, elem_of_cons in W2. destruct (decide (n = b)) as [<-|Hb]; naive_solver.
    + naive_solver.
  - intros b c M [(-> & -> & <-)|Hfly]; [done|]. exfalso. by eapply Hnf; eexists.
  - intros b Hb. destruct (W4 b Hb) as (M & HM). exists M. apply at_goto; [done|].
    destruct (decide (b = a)) as [->|]; [|by right]. left. apply at_lane in HM as [-> _].
    split; [done|]. split; [done|]. by intros [].
Qed.

(** The taken waiter owns the lane from here on. *)
Lemma waiter_grant n :
  old = Some (Passing (Some n)) → shard_lock w = Some a →
  waiter_inv (goto a lane (Wake n) (unlock (w <| granted := {[n]} ∪ granted w |>))).
Proof using Hinv Hcl Hlock.
  intros Hold Hl. destruct Hinv as (W1 & W2 & W3 & W4).
  set (w1 := unlock _). assert (Hc : claims w1 = claims w) by done.
  assert (∀ b M, at_pc (goto a lane (Wake n) w1) b M waiting ↔ at_pc w b M waiting) as Hwt.
  { intros b M. apply at_keep; [done|]. by was_is Hold. }
  assert (∀ m M, ¬ ∃ b, at_pc (goto a lane (Wake n) w1) b M (λ p, flying p m)) as Hfl.
  { intros m M (b & Hb). apply at_goto in Hb as [(_ & _ & [])|(Hba & Hb)]; [|done].
    apply at_locked in Hb; [|done|intros p; apply flying_locked]. congruence. }
  assert (at_pc w a lane (λ p, flying p n)) as Hown.
  { apply at_lane. split; [done|]. was_is Hold. by rewrite bool_decide_true. }
  destruct (W3 n a lane Hown) as [Hnw Hng].
  assert (∀ m M b, at_pc w b M (λ p, flying p m) → M = lane ∧ m = n) as Hone.
  { intros m M b Hb. pose proof Hb as Hb'.
    apply at_locked in Hb; [|done|intros p; apply flying_locked].
    rewrite Hl in Hb. injection Hb as <-. apply at_lane in Hb' as [-> Hb].
    apply (was_old _ _ Hold) in Hb. simpl in Hb. apply bool_decide_unpack in Hb. done. }
  unfold waiter_inv. setoid_rewrite Hwt. split; [|split; [|split]].
  - apply W1.
  - intros b M. change (queue (goto a lane (Wake n) w1) M) with (queue w M). rewrite W2. simpl.
    specialize (Hfl b M). split.
    + intros (H1 & H2 & H3). split; [done|]. split; [|done].
      intros [->%elem_of_singleton|?]%elem_of_union; [|done].
      destruct H1 as (q & H1 & _), Hnw as (q' & Hnw & _). rewrite Hnw in H1. injection H1 as <- <-.
      apply H3. by exists a.
    + intros (H1 & H2 & _). split; [done|]. split; [set_solver|].
      intros (c & Hc')%(λ H, H). destruct (Hone _ _ _ Hc') as [-> ->]. set_solver.
  - intros b c M Hfly. exfalso. by eapply Hfl; eexists.
  - intros b [->%elem_of_singleton|Hb]%elem_of_union.
    + destruct Hnw as (q & Hnw & Hwq). exists lane. apply at_goto; [done|].
      right. split; [intros ->; rewrite Hcl, Hold in Hnw; by simplify_eq/=|].
      exists q. split; [done|]. destruct q; try done; by intros [] .
    + destruct (W4 b Hb) as (M & HM). exists M. apply at_goto; [done|].
      destruct (decide (b = a)) as [->|]; [|by right]. left. apply at_lane in HM as [-> _].
      split; [done|]. split; [done|]. by intros [].
Qed.

(** A cancelled waiter leaves its queue. *)
Lemma waiter_cancel w1 p q i q' :
  old = Some Withdraw → shard_lock w = None → a ∉ granted w →
  queue w lane = q → q !! i = Some a → q' = delete i q →
  claims w1 = claims w → granted w1 = granted w →
  queue w1 lane = q' → (∀ M, M ≠ lane → queue w1 M = queue w M) →
  ¬ waiting p → (∀ n, ¬ flying p n) →
  waiter_inv (goto a lane p w1).
Proof using Hinv Hcl Hlock.
  intros Hold Hl Hg Hq Hi Hq' Hc Hgr Hq1 Hqm Hp Hpf. destruct Hinv as (W1 & W2 & W3 & W4).
  assert (∀ b M, at_pc (goto a lane p w1) b M waiting ↔ b ≠ a ∧ at_pc w b M waiting) as Hwt.
  { intros b M. rewrite at_goto by done. naive_solver. }
  assert (∀ m b M, at_pc (goto a lane p w1) b M (λ p, flying p m) ↔ at_pc w b M (λ p, flying p m)) as Hfl.
  { intros m b M. apply at_keep; [done|]. pose proof (Hpf m). by was_is Hold. }
  assert (∀ n M, ¬ ∃ b, at_pc w b M (λ q, flying q n)) as Hnf.
  { intros m M. apply no_flying; [by left|]. was_is Hold. }
  assert (∀ b, b ∈ q' ↔ b ∈ q ∧ b ≠ a) as Hel.
  { intros b. pose proof (W1 lane) as Hnd. rewrite Hq in Hnd.
    rewrite (delete_Permutation q i a Hi), <-Hq' in Hnd |- *.
    apply NoDup_cons in Hnd as [Hna _]. rewrite elem_of_cons. naive_solver. }
  unfold waiter_inv. setoid_rewrite Hfl. setoid_rewrite Hwt. split; [|split; [|split]].
  - intros M. change (queue (goto a lane p w1) M) with (queue w1 M).
    destruct (decide (M = lane)) as [->|HM]; [|by rewrite Hqm].
    rewrite Hq1, Hq'. pose proof (W1 lane) as Hnd. rewrite Hq in Hnd.
    rewrite (delete_Permutation q i a Hi) in Hnd. by apply NoDup_cons in Hnd as [_ Hnd].
  - intros b M. change (queue (goto a lane p w1) M) with (queue w1 M).
    change (granted (goto a lane p w1)) with (granted w1). rewrite Hgr.
    specialize (W2 b M). specialize (Hnf b M). destruct (decide (M = lane)) as [->|HM].
    + rewrite Hq1, Hel, <-Hq, W2. naive_solver.
    + rewrite Hqm, W2 by done. split; [|naive_solver]. intros (H1 & H2 & H3).
      split; [|done]. split; [|done]. intros ->. by apply at_lane in H1 as [? _].
  - intros b c M Hfly. exfalso. by eapply Hnf; eexists.
  - change (granted (goto a lane p w1)) with (granted w1). rewrite Hgr. intros b Hb.
    destruct (W4 b Hb) as (M & HM). exists M. apply at_goto; [done|]. right. split; [congruence|done].
Qed.
End waiters.

Ltac was_is H := rewrite (was_old _ _ _ H); simpl; try done; try (by intros []).

Lemma waiter_inv_move w a lane old new w' :
  lock_inv w → waiter_inv w →
  claims w !! a = (lane,.) <$> old → move w a lane old new w' → waiter_inv w'.
Proof.
  intros Hlk Hi Hc Hm. pose proof Hi as (W1 & W2 & W3 & W4).
  assert (Hlocked : ∀ p, old = Some p → locked p → shard_lock w = Some a).
  { intros p -> Hp. destruct Hlk as [Hl _]. by apply (Hl a lane p). }
  assert (Hng : (old = None ∨ ∃ p, old = Some p ∧ entering p) → a ∉ granted w).
  { intros Ho (M & HM)%W4. destruct HM as (q & Hq & He). rewrite Hc in Hq.
    destruct Ho as [->|(p & -> & Hp)]; simpl in Hq; [done|]. by injection Hq as _ <-. }
  assert (Hwas : ∀ q P, old = Some q → was old P ↔ P q) by (intros; by apply was_old).
  assert (Hent : ∀ p, (entering p → old = None ∨ ∃ q, old = Some q ∧ entering q) →
                 entering p → a ∉ granted w) by (intros; by apply Hng; auto).
  destruct Hm as [old new wk nt Hs Hwk|Hl|old Hs Hf|Hf|Hh|Hqd| |Hg|Hh|Hl Hqe|n q Hl Hqe| |n s Hs| |n
                 |Hl Hg|q i q' Hl Hg Hqq Hi' Hq'| |Hl Hg Hn].
  1: { change (mkWorld _ _ _ _ _ _ _) with
      (goto a lane new (mkWorld (words w) (queues w) (shard_lock w) (granted w) wk nt (claims w))).
    eapply waiter_keep; [done..| |].
    - intros n. destruct old as [p|]; [rewrite (Hwas p _ eq_refl); by destruct p, new|].
      split; [by destruct new|by intros (? & ? & _)].
    - right. split.
      + destruct old as [p|]; [rewrite (Hwas p _ eq_refl); by destruct p, new|].
        split; [by destruct new|by intros (? & ? & _)].
      + apply Hent. intros Hn. destruct old as [p|]; [right; exists p|by left].
        split; [done|]. by destruct p, new. }
  all: try (eapply waiter_keep; [done..| |];
    [intros m; rewrite (Hwas _ _ eq_refl); done
    |right; rewrite (Hwas _ _ eq_refl); split; [done|apply Hent]; eauto]; done).
  - eapply waiter_keep; [done..| |].
    + intros m. split; [done|]. intros (p & Hp & Hf'). destruct Hs; by simplify_eq.
    + right. split; [|by intros []]. split; [done|].
      intros (p & Hp & Hf'). destruct Hs; by simplify_eq.
  - by apply (waiter_push w a lane _ Hlk Hi Hc eq_refl), (Hlocked Push).
  - eapply waiter_keep; [done..| |]; [|left; split; [done|by intros []]].
    intros m. by rewrite (Hwas _ _ eq_refl).
  - by apply (waiter_pop w a lane _ Hlk Hi Hc n q eq_refl).
  - by apply (waiter_grant w a lane _ Hlk Hi Hc n eq_refl), (Hlocked (Passing (Some n))).
  - eapply waiter_keep; [done..| |]; [|left; split; [done|by intros []]].
    intros m. by rewrite (Hwas _ _ eq_refl).
  - assert (queue w lane = q) as Hqe by (unfold queue; by rewrite Hqq).
    destruct q' as [|b q'].
    + eapply (waiter_cancel w a lane _ Hlk Hi Hc _ _ q i _ eq_refl Hl Hg Hqe Hi' Hq');
        [done..|by apply (queue_set_eq _ _ [])| |by intros []|by intros n []].
      intros M HM. by apply (queue_set_ne w lane []).
    + eapply (waiter_cancel w a lane _ Hlk Hi Hc _ _ q i _ eq_refl Hl Hg Hqe Hi' Hq');
        [done..|by apply (queue_set_eq _ _ (b :: q'))| |by intros []|by intros n []].
      intros M HM. by apply (queue_set_ne w lane (b :: q')).
  - exfalso. apply Hn, W2. split; [exists Withdraw; by split|]. split; [done|].
    eapply (no_flying w a lane _ Hlk Hc); [by left|]. rewrite (Hwas _ _ eq_refl); by intros [].
Qed.

(** ** Wake-ups

    A waiter registers its waker before it looks at its flag, and the flag is
    set before the waker is taken. *)
Definition asleep (p : Pc) : Prop := p = Check ∨ p = Pending.

Definition wake_inv (w : World) : Prop :=
  (∀ a lane, at_pc w a lane asleep → a ∉ granted w → a ∈ wakers w) ∧
  (∀ a lane, at_pc w a lane (λ p, p = Pending) → a ∈ granted w →
     a ∈ notified w ∨ a ∈ wakers w ∧ ∃ b M, at_pc w b M (λ p, p = Wake a)) ∧
  (∀ a b M, at_pc w b M (λ p, p = Wake a) → a ∈ granted w).

Section wakes.
Context (w : World) (a lane : nat) (old : option Pc).
Hypothesis Hinv : wake_inv w.
Hypothesis Hcl : claims w !! a = (lane,.) <$> old.

(** Positions away from the waker protocol. *)
Lemma wake_keep w1 p :
  claims w1 = claims w → wakers w1 = wakers w → notified w1 = notified w → granted w1 = granted w →
  ¬ asleep p → (∀ n, p ≠ Wake n) → (∀ n, old ≠ Some (Wake n)) →
  wake_inv (goto a lane p w1).
Proof using Hinv Hcl.
  intros Hc Hw Hn Hg Hp Hpw How. destruct Hinv as (I1 & I2 & I3).
  assert (∀ b M n, at_pc (goto a lane p w1) b M (λ p, p = Wake n) ↔ at_pc w b M (λ p, p = Wake n)) as Hk.
  { intros b M n. eapply at_keep; [done..|]. split; [by intros H%Hpw|].
    intros (q & Hq & ->). by destruct (How n). }
  unfold wake_inv. setoid_rewrite Hk. simpl. rewrite Hw, Hn, Hg.
  split; [|split; [|done]]; intros b M Hb; eapply at_goto in Hb as [(_ & _ & Hb)|[_ Hb]]; try done.
  - by apply (I1 b M).
  - subst. by destruct Hp; right.
  - by apply (I2 b M).
Qed.

Lemma wake_register w1 :
  old = Some Register → claims w1 = claims w → granted w1 = granted w →
  wakers w1 = {[a]} ∪ wakers w → notified w1 = notified w →
  wake_inv (goto a lane Check w1).
Proof using Hinv Hcl.
  intros Hold Hc Hg Hw Hn. destruct Hinv as (I1 & I2 & I3).
  assert (∀ b M n, at_pc (goto a lane Check w1) b M (λ p, p = Wake n) ↔ at_pc w b M (λ p, p = Wake n)) as Hk.
  { intros b M n. eapply at_keep; [done..|]. by was_is Hold. }
  unfold wake_inv. setoid_rewrite Hk. simpl. rewrite Hw, Hn, Hg. split; [|split; [|done]].
  - intros b M Hb Hbg. eapply at_goto in Hb as [(-> & _ & Hb)|[_ Hb]]; [set_solver| |done].
    apply elem_of_union_r. by apply (I1 b M).
  - intros b M Hb Hbg. eapply at_goto in Hb as [(_ & _ & Hb)|[_ Hb]]; [done| |done].
    destruct (I2 b M Hb Hbg) as [?|[? ?]]; [by left|right]. split; [set_solver|done].
Qed.

Lemma wake_suspend w1 :
  old = Some Check → a ∉ granted w → claims w1 = claims w → granted w1 = granted w →
  wakers w1 = wakers w → notified w1 = notified w →
  wake_inv (goto a lane Pending w1).
Proof using Hinv Hcl.
  intros Hold Hna Hc Hg Hw Hn. destruct Hinv as (I1 & I2 & I3).
  assert (∀ b M n, at_pc (goto a lane Pending w1) b M (λ p, p = Wake n) ↔ at_pc w b M (λ p, p = Wake n)) as Hk.
  { intros b M n. eapply at_keep; [done..|]. by was_is Hold. }
  unfold wake_inv. setoid_rewrite Hk. simpl. rewrite Hw, Hn, Hg. split; [|split; [|done]].
  - intros b M Hb Hbg. eapply at_goto in Hb as [(-> & -> & Hb)|[_ Hb]]; [|by apply (I1 b M)|done].
    apply (I1 a lane); [|done]. eapply at_lane; [done|]. split; [done|]. was_is Hold. by left.
  - intros b M Hb Hbg. eapply at_goto in Hb as [(-> & _ & Hb)|[_ Hb]]; [done|by apply (I2 b M)|done].
Qed.

Lemma wake_poll w1 :
  old = Some Pending → claims w1 = claims w → granted w1 = granted w →
  wakers w1 = wakers w → notified w1 = notified w ∖ {[a]} →
  wake_inv (goto a lane Register w1).
Proof using Hinv Hcl.
  intros Hold Hc Hg Hw Hn. destruct Hinv as (I1 & I2 & I3).
  assert (∀ b M n, at_pc (goto a lane Register w1) b M (λ p, p = Wake n) ↔ at_pc w b M (λ p, p = Wake n)) as Hk.
  { intros b M n. eapply at_keep; [done..|]. by was_is Hold. }
  unfold wake_inv. setoid_rewrite Hk. simpl. rewrite Hw, Hn, Hg. split; [|split; [|done]].
  - intros b M Hb Hbg. eapply at_goto in Hb as [(_ & _ & [|])|[_ Hb]]; [done|done|by apply (I1 b M)|done].
  - intros b M Hb Hbg. eapply at_goto in Hb as [(_ & _ & Hb)|[Hba Hb]]; [done| |done].
    destruct (I2 b M Hb Hbg) as [?|?]; [left; set_solver|by right].
Qed.

Lemma wake_wake w1 n :
  old = Some (Wake n) → claims w1 = claims w → granted w1 = granted w →
  (if decide (n ∈ wakers w) then wakers w1 = wakers w ∖ {[n]} ∧ notified w1 = {[n]} ∪ notified w
   else wakers w1 = wakers w ∧ notified w1 = notified w) →
  wake_inv (goto a lane Finished w1).
Proof using Hinv Hcl.
  intros Hold Hc Hg Hw. destruct Hinv as (I1 & I2 & I3).
  assert (n ∈ granted w) as Hng.
  { apply (I3 n a lane). eapply at_lane; [done|]. split; [done|]. by was_is Hold. }
  assert (wakers w ∖ {[n]} ⊆ wakers w1 ∧ wakers w1 ⊆ wakers w ∧ notified w ⊆ notified w1 ∧
          (n ∈ wakers w → n ∈ notified w1)) as (Hw1 & Hw2 & Hn1 & Hn2).
  { case_decide; destruct Hw as [-> ->]; set_solver. }
  assert (∀ b m, at_pc (goto a lane Finished w1) b m asleep ↔ at_pc w b m asleep) as Has.
  { intros b m. eapply at_keep; [done..|]. was_is Hold. unfold asleep. naive_solver. }
  assert (∀ b m, at_pc (goto a lane Finished w1) b m (λ p, p = Pending) ↔ at_pc w b m (λ p, p = Pending)) as Hap.
  { intros b m. eapply at_keep; [done..|]. by was_is Hold. }
  unfold wake_inv. setoid_rewrite Has. setoid_rewrite Hap. simpl. rewrite Hg. split; [|split].
  - intros b M Hb Hbg. apply Hw1. specialize (I1 b M Hb Hbg). set_solver.
  - intros b M Hb Hbg. destruct (I2 b M Hb Hbg) as [?|[Hbw (c & N & Hcw)]]; [left; set_solver|].
    destruct (decide (b = n)) as [->|Hbn]; [left; auto|].
    right. split; [set_solver|]. exists c, N. eapply at_goto; [done|]. right. split; [|done].
    intros ->. eapply at_lane in Hcw as [_ Hcw]; [|done]. apply (was_old _ _ _ Hold) in Hcw. congruence.
  - intros b c M Hb. eapply at_goto in Hb as [(_ & _ & Hb)|[_ Hb]]; [done|by eapply I3|done].
Qed.

Lemma wake_grant n :
  old = Some (Passing (Some n)) → n ∉ granted w →
  wake_inv (goto a lane (Wake n) (unlock (w <| granted := {[n]} ∪ granted w |>))).
Proof using Hinv Hcl.
  intros Hold Hng. destruct Hinv as (I1 & I2 & I3).
  set (w1 := unlock _). assert (Hc : claims w1 = claims w) by done.
  assert (∀ b m, at_pc (goto a lane (Wake n) w1) b m asleep ↔ at_pc w b m asleep) as Has.
  { intros b m. eapply at_keep; [done..|]. was_is Hold. unfold asleep. naive_solver. }
  assert (∀ b m, at_pc (goto a lane (Wake n) w1) b m (λ p, p = Pending) ↔ at_pc w b m (λ p, p = Pending)) as Hap.
  { intros b m. eapply at_keep; [done..|]. by was_is Hold. }
  assert (∀ b M m, at_pc (goto a lane (Wake n) w1) b M (λ p, p = Wake m) ↔
    (b = a ∧ M = lane ∧ n = m) ∨ at_pc w b M (λ p, p = Wake m)) as Hk.
  { intros b M m. rewrite at_new; [|done..|was_is Hold]. naive_solver. }
  unfold wake_inv. setoid_rewrite Has. setoid_rewrite Hap. setoid_rewrite Hk. simpl. split; [|split].
  - intros b M Hb Hbg. apply (I1 b M); set_solver.
  - intros b M Hb [->%elem_of_singleton|Hbg]%elem_of_union.
    + right. split; [|exists a, lane; by left]. apply (I1 n M); [|done].
      destruct Hb as (q & ? & ->). exists Pending. split; [done|]. by right.
    + destruct (I2 b M Hb Hbg) as [?|[? (c & N & ?)]]; [by left|right].
      split; [done|]. exists c, N. by right.
  - intros b c M [(_ & _ & <-)|Hb]; [set_solver|]. apply elem_of_union_r. by eapply I3.
Qed.
End wakes.

Lemma wake_inv_move w a lane old new w' :
  waiter_inv w → wake_inv w →
  claims w !! a = (lane,.) <$> old → move w a lane old new w' → wake_inv w'.
Proof.
  intros (_ & _ & W3 & _) Hi Hc Hm.
  destruct Hm as [old new wk nt Hs Hwk|Hl|old Hs Hf|Hf|Hh|Hqd| |Hg|Hh|Hl Hqe|n q Hl Hqe| |n s Hs| |n
                 |Hl Hg|q i q' Hl Hg Hqq Hi' Hq'| |Hl Hg Hn].
  1: { change (mkWorld _ _ _ _ _ _ _) with
      (goto a lane new (mkWorld (words w) (queues w) (shard_lock w) (granted w) wk nt (claims w))).
    destruct old as [p|].
    - destruct p, new; try done; simpl in Hwk;
        first [ by eapply wake_register; naive_solver | by eapply wake_suspend; naive_solver
              | by eapply wake_poll; naive_solver | by eapply wake_wake
              | destruct Hwk as [-> ->]; eapply wake_keep; try done; by intros [] ].
    - destruct Hwk as [-> ->]. eapply wake_keep; try done; destruct new; try done; by intros []. }
  14: { eapply wake_grant; [done..|]. eapply (W3 n a lane). exists (Passing (Some n)).
        split; [done|]. by apply bool_decide_pack. }
  2: { eapply wake_keep; try done; [by intros [|]|destruct Hs; naive_solver]. }
  14: { destruct q'; eapply wake_keep; try done; by intros [|]. }
  all: eapply wake_keep; try done; by intros [|].
Qed.

(** ** The order of grants

    What the queue of a lane saw, read off the events of a run. *)
Definition pushed_on (lane : nat) (es : list Event) : list nat :=
  omap (λ e, match e with Pushed M a => if decide (M = lane) then Some a else None | _ => None end) es.
Definition granted_on (lane : nat) (es : list Event) : list nat :=
  omap (λ e, match e with Granted M a => if decide (M = lane) then Some a else None | _ => None end) es.
Definition withdrawn_on (lane : nat) (es : list Event) : list nat :=
  omap (λ e, match e with Withdrawn M a => if decide (M = lane) then Some a else None | _ => None end) es.

(** The waiter between the queue and its grant, if any. *)
Definition in_flight (w : World) (lane : nat) (f : list nat) : Prop :=
  (f = [] ∧ ∀ b n, ¬ at_pc w b lane (λ p, flying p n)) ∨
  ∃ b n, f = [n] ∧ at_pc w b lane (λ p, flying p n).

Definition left_queue (p : Pc) : Prop := p = Removed ∨ p = Finished.

Definition fifo_at (w : World) (es : list Event) (lane : nat) : Prop :=
  (∀ a, a ∈ withdrawn_on lane es → at_pc w a lane left_queue) ∧
  (∀ a, a ∈ granted_on lane es → a ∈ granted w) ∧
  ∃ f, in_flight w lane f ∧
    filter (.∉ withdrawn_on lane es) (pushed_on lane es) = granted_on lane es ++ f ++ queue w lane.

Definition fifo_inv (w : World) (es : list Event) : Prop := ∀ lane, fifo_at w es lane.

Lemma pushed_on_app lane es es' : pushed_on lane (es ++ es') = pushed_on lane es ++ pushed_on lane es'.
Proof. apply omap_app. Qed.
Lemma granted_on_app lane es es' : granted_on lane (es ++ es') = granted_on lane es ++ granted_on lane es'.
Proof. apply omap_app. Qed.
Lemma withdrawn_on_app lane es es' :
  withdrawn_on lane (es ++ es') = withdrawn_on lane es ++ withdrawn_on lane es'.
Proof. apply omap_app. Qed.

(** A move that keeps the queue of the lane and its waiter in flight. *)
Lemma fifo_keep w es w' a lane old new M :
  fifo_at w es M → claims w !! a = (lane,.) <$> old →
  claims w' = <[a := (lane, new)]> (claims w) →
  granted w ⊆ granted w' → queue w' M = queue w M →
  (M = lane → (∀ n, flying new n ↔ was old (λ q, flying q n)) ∧ (was old left_queue → left_queue new)) →
  fifo_at w' es M.
Proof.
  intros (F1 & F2 & f & Hf & F3) Hcl Hc Hg Hq Hlane.
  assert (∀ b P, at_pc w' b M P ↔ at_pc (goto a lane new w) b M P) as Hat.
  { intros b P. unfold at_pc. by rewrite Hc. }
  assert (∀ b n, at_pc w' b M (λ p, flying p n) ↔ at_pc w b M (λ p, flying p n)) as Hfl.
  { intros b n. rewrite Hat, at_pc_goto. destruct (decide (b = a)) as [->|]; [|naive_solver].
    rewrite (at_lane w a lane old Hcl). destruct (decide (M = lane)) as [HM|HM]; [|naive_solver].
    destruct (Hlane HM) as [Hn _]. specialize (Hn n). naive_solver. }
  split; [|split].
  - intros b Hb%F1. rewrite Hat, at_pc_goto. destruct (decide (b = a)) as [->|]; [|by right].
    eapply at_lane in Hb as [HM Hb]; [|done]. left. destruct (Hlane HM) as [_ Hl]. auto.
  - intros b Hb%F2. set_solver.
  - exists f. rewrite Hq. split; [|done]. destruct Hf as [[-> Hf]|(b & n & -> & Hf)].
    + left. split; [done|]. intros b n. by rewrite Hfl.
    + right. exists b, n. by rewrite Hfl.
Qed.

Lemma fifo_ext w es es' M :
  fifo_at w es M → pushed_on M es' = [] → granted_on M es' = [] → withdrawn_on M es' = [] →
  fifo_at w (es ++ es') M.
Proof.
  intros H Hp Hg Hw. unfold fifo_at. rewrite pushed_on_app, granted_on_app, withdrawn_on_app, Hp, Hg, Hw.
  by rewrite !app_nil_r.
Qed.

Lemma move_frame w a lane old new w' :
  move w a lane old new w' →
  claims w' = <[a := (lane, new)]> (claims w) ∧ granted w ⊆ granted w' ∧
  ∀ M, M ≠ lane → queue w' M = queue w M.
Proof.
  intros Hm. destruct Hm as [| | | | | | | | | | | | | | | |q i q'| |].
  17: destruct q' as [|b q'].
  all: (split; [done|split; [done || apply union_subseteq_r|intros M HM; try done]]).
  - by apply queue_set_ne.
  - exact (queue_set_ne (w <| shard_lock := Some a |>) lane q M HM).
  - exact (queue_set_ne (w <| shard_lock := Some a |>) lane [] M HM).
  - by apply (queue_set_ne w lane (b :: q')).
Qed.

Lemma move_events_other a lane old new M :
  M ≠ lane →
  pushed_on M (move_events a lane old new) = [] ∧ granted_on M (move_events a lane old new) = [] ∧
  withdrawn_on M (move_events a lane old new) = [].
Proof.
  intros HM. destruct old as [[| | | | | | | | | | | | |[]| | | | |]|], new; simpl;
    try done; rewrite decide_False by done; done.
Qed.

Lemma filter_absent (q : list nat) a : a ∉ q → filter (.≠ a) q = q.
Proof.
  induction q as [|b q IH]; [done|]. intros [Hb Hq]%not_elem_of_cons.
  rewrite filter_cons_True by done. by rewrite IH.
Qed.

Lemma filter_ne_delete (q : list nat) i a :
  NoDup q → q !! i = Some a → filter (.≠ a) q = delete i q.
Proof.
  revert i. induction q as [|b q IH]; intros i Hnd Hi; [done|].
  apply NoDup_cons in Hnd as [Hb Hnd]. destruct i as [|i]; simpl in *.
  - injection Hi as ->. rewrite filter_cons_False by naive_solver.
    by apply filter_absent.
  - assert (b ≠ a) by (intros ->; by apply list_elem_of_lookup_2 in Hi).
    rewrite filter_cons_True by done. f_equal. by apply IH.
Qed.

Section fifo.
Context (w : World) (es : list Event) (a lane : nat) (old : option Pc).
Hypothesis Hlock : lock_inv w.
Hypothesis Hwait : waiter_inv w.
Hypothesis Hinv : fifo_at w es lane.
Hypothesis Hcl : claims w !! a = (lane,.) <$> old.

Lemma in_flight_none f :
  shard_lock w = None ∨ shard_lock w = Some a → ¬ (∃ n, was old (λ q, flying q n)) →
  in_flight w lane f → f = [].
Proof using Hlock Hcl.
  intros Hs Hn [[-> _]|(b & n & _ & Hb)]; [done|]. exfalso.
  eapply no_flying; [done..| |by exists b]. intros H. apply Hn. by exists n.
Qed.

Lemma left_goto w' new b :
  claims w' = <[a := (lane, new)]> (claims w) → ¬ was old left_queue →
  at_pc w b lane left_queue → at_pc w' b lane left_queue.
Proof using Hcl.
  intros Hc Hno Hb. assert (b ≠ a).
  { intros ->. eapply at_lane in Hb as [_ Hb]; [|done]. done. }
  destruct Hb as (q & Hq & Hl). exists q. by rewrite Hc, lookup_insert_ne.
Qed.

Lemma in_flight_goto w' new f :
  claims w' = <[a := (lane, new)]> (claims w) →
  (∀ n, flying new n ↔ was old (λ q, flying q n)) →
  in_flight w lane f → in_flight w' lane f.
Proof using Hcl.
  intros Hc Hn Hf.
  assert (∀ b n, at_pc w' b lane (λ p, flying p n) ↔ at_pc w b lane (λ p, flying p n)) as Hfl.
  { intros b n. transitivity (at_pc (goto a lane new w) b lane (λ p, flying p n)).
    - unfold at_pc. by rewrite Hc.
    - by eapply at_keep. }
  destruct Hf as [[-> Hf]|(b & n & -> & Hf)].
  - left. split; [done|]. intros b n. by rewrite Hfl.
  - right. exists b, n. by rewrite Hfl.
Qed.

Lemma fifo_push :
  old = Some Push →
  fifo_at (goto a lane Register (unlock (set_queue lane (queue w lane ++ [a]) w)))
    (es ++ [Pushed lane a]) lane.
Proof using Hinv Hcl.
  intros Hold. destruct Hinv as (F1 & F2 & f & Hf & F3).
  set (w1 := goto _ _ _ _).
  assert (¬ was old left_queue) as Hnl by (was_is Hold; by intros [|]).
  unfold fifo_at. rewrite pushed_on_app, granted_on_app, withdrawn_on_app. simpl.
  rewrite decide_True, !app_nil_r by done. split; [|split; [done|]].
  - intros b Hb%F1. by eapply left_goto.
  - exists f. split; [eapply in_flight_goto; [done| |done]; intros n; by was_is Hold|].
    assert (queue w1 lane = queue w lane ++ [a]) as -> by apply queue_set_eq.
    rewrite filter_app, F3, <-!app_assoc. do 3 f_equal. simpl.
    rewrite filter_cons_True; [done|]. intros Ha%F1. eapply at_lane in Ha as [_ Ha]; [|done]. done.
Qed.

Lemma fifo_pop n q :
  old = Some Handoff → shard_lock w = None → queue w lane = n :: q →
  fifo_at (goto a lane (Popped (Some n)) (set_queue lane q (w <| shard_lock := Some a |>))) es lane.
Proof using Hinv Hcl Hlock.
  intros Hold Hl Hq. destruct Hinv as (F1 & F2 & f & Hf & F3).
  apply in_flight_none in Hf as ->; [|by left|intros (m & Hm); apply (was_old _ _ _ Hold) in Hm; done].
  assert (¬ was old left_queue) as Hnl by (was_is Hold; by intros [|]).
  split; [|split; [done|]].
  - intros b Hb%F1. by eapply left_goto.
  - exists [n]. split.
    + right. exists a, n. split; [done|]. eapply at_pc_goto. left. split; [done|]. split; [done|].
      by apply bool_decide_pack.
    + rewrite F3, Hq. simpl. do 2 f_equal. symmetry.
      exact (queue_set_eq (w <| shard_lock := Some a |>) lane q).
Qed.

Lemma fifo_grant n :
  old = Some (Passing (Some n)) → shard_lock w = Some a →
  fifo_at (goto a lane (Wake n) (unlock (w <| granted := {[n]} ∪ granted w |>)))
    (es ++ [Granted lane n]) lane.
Proof using Hinv Hcl Hlock.
  clear Hwait. intros Hold Hl. destruct Hinv as (F1 & F2 & f & Hf & F3).
  assert (f = [n]) as ->.
  { destruct Hf as [[_ Hf]|(b & m & -> & Hb)].
    - destruct (Hf a n). eapply at_lane; [done|]. split; [done|]. was_is Hold. by apply bool_decide_pack.
    - pose proof Hb as Hb'. apply at_locked in Hb; [|done|intros p; apply flying_locked].
      rewrite Hl in Hb. injection Hb as <-. eapply at_lane in Hb' as [_ Hb']; [|done].
      apply (was_old _ _ _ Hold) in Hb'. apply bool_decide_unpack in Hb'. by subst. }
  assert (¬ was old left_queue) as Hnl by (was_is Hold; by intros [|]).
  unfold fifo_at. rewrite pushed_on_app, granted_on_app, withdrawn_on_app. simpl.
  rewrite decide_True, !app_nil_r by done. split; [|split].
  - intros b Hb%F1. by eapply left_goto.
  - intros b [Hb%F2| ->%list_elem_of_singleton]%elem_of_app; set_solver.
  - exists []. split; [|by rewrite F3, <-app_assoc].
    left. split; [done|]. intros b m Hb. apply at_pc_goto in Hb as [(_ & _ & [])|[Hba Hb]].
    apply Hba. change (at_pc w b lane (λ p, flying p m)) in Hb.
    eapply at_locked in Hb; [|done|intros p; apply flying_locked]. congruence.
Qed.

Lemma fifo_cancel w1 p q i q' :
  old = Some Withdraw → shard_lock w = None → a ∉ granted w →
  queue w lane = q → q !! i = Some a → q' = delete i q →
  claims w1 = claims w → granted w1 = granted w → queue w1 lane = q' → left_queue p →
  (∀ n, ¬ flying p n) →
  fifo_at (goto a lane p w1) (es ++ [Withdrawn lane a]) lane.
Proof using Hinv Hcl Hlock Hwait.
  intros Hold Hl Hg Hq Hi Hq' Hc Hgr Hq1 Hp Hpf. destruct Hinv as (F1 & F2 & f & Hf & F3).
  apply in_flight_none in Hf as ->; [|by left|intros (m & Hm); apply (was_old _ _ _ Hold) in Hm; done].
  assert (¬ was old left_queue) as Hnl by (was_is Hold; by intros [|]).
  unfold fifo_at. rewrite pushed_on_app, granted_on_app, withdrawn_on_app. simpl.
  rewrite decide_True, !app_nil_r by done. rewrite Hgr. split; [|split; [done|]].
  - intros b [Hb%F1| ->%list_elem_of_singleton]%elem_of_app.
    + eapply left_goto; [|done..]. simpl. by rewrite Hc.
    + eapply at_pc_goto. by left.
  - exists []. split.
    + left. split; [done|]. intros b m Hb.
      eapply at_goto in Hb as [(_ & _ & Hb)|[Hba Hb]]; [by apply (Hpf m)| |done].
      eapply at_locked in Hb; [|done|intros p'; apply flying_locked]. congruence.
    + transitivity (filter (.≠ a) (filter (.∉ withdrawn_on lane es) (pushed_on lane es))).
      { rewrite list_filter_filter. apply list_filter_iff. intros b. rewrite elem_of_app, list_elem_of_singleton. tauto. }
      rewrite F3, filter_app. f_equal.
      * apply filter_absent. by intros ?%F2.
      * change (queue (goto a lane p w1) lane) with (queue w1 lane). simpl.
        rewrite Hq1, Hq', Hq. apply filter_ne_delete; [|done]. rewrite <-Hq. apply Hwait.
Qed.
End fifo.

Lemma fifo_inv_move w es a lane old new w' :
  lock_inv w → waiter_inv w → fifo_inv w es →
  claims w !! a = (lane,.) <$> old → move w a lane old new w' →
  fifo_inv w' (es ++ move_events a lane old new).
Proof.
  intros Hlk Hwt Hi Hc Hm M. destruct (move_frame _ _ _ _ _ _ Hm) as (Hc' & Hg' & Hq').
  destruct (decide (M = lane)) as [->|HM].
  2: { destruct (move_events_other a lane old new M HM) as (? & ? & ?). apply fifo_ext; [|done..].
       eapply fifo_keep; [apply Hi|done..|by apply Hq'|done]. }
  assert (Hlocked : ∀ p, old = Some p → locked p → shard_lock w = Some a).
  { intros p -> Hp. destruct Hlk as [Hl _]. by apply (Hl a lane p). }
  assert (Hwas : ∀ q P, old = Some q → was old P ↔ P q) by (intros; by apply was_old).
  pose proof (Hi lane) as Hi'.
  assert (Hkeep : move_events a lane old new = [] → queue w' lane = queue w lane →
    (∀ n, flying new n ↔ was old (λ q, flying q n)) → ¬ was old left_queue ∨ left_queue new →
    fifo_at w' (es ++ move_events a lane old new) lane).
  { intros -> Hq Hn Hlq. rewrite app_nil_r. eapply fifo_keep; [done..|]. intros _. split; [done|tauto]. }
  destruct Hm as [old new wk nt Hs Hwk|Hl|old Hs Hf|Hf|Hh|Hqd| |Hg|Hh|Hl Hqe|n q Hl Hqe| |n s Hs| |n
                 |Hl Hg|q i q' Hl Hg Hqq Hi2 Hq2| |Hl Hg Hn].
  17: { assert (queue w lane = q) as Hqe by (unfold queue; by rewrite Hqq).
    destruct q' as [|b q'].
    - eapply (fifo_cancel w es a lane _ Hlk Hwt Hi' Hc _ _ q i _ eq_refl Hl Hg Hqe Hi2 Hq2);
        [done..|by apply (queue_set_eq _ _ [])|by left|by intros n []].
    - eapply (fifo_cancel w es a lane _ Hlk Hwt Hi' Hc _ _ q i _ eq_refl Hl Hg Hqe Hi2 Hq2);
        [done..|by apply (queue_set_eq _ _ (b :: q'))|by right|by intros n []]. }
  15: { by apply (fifo_grant w es a lane _ Hlk Hi' Hc n eq_refl), (Hlocked (Passing (Some n))). }
  11: { rewrite app_nil_r. by apply (fifo_pop w es a lane _ Hlk Hi' Hc n q eq_refl). }
  7: { by apply (fifo_push w es a lane _ Hi' Hc). }
  3: { apply Hkeep; [by destruct Hs as [-> | ->]|done| |];
         [intros n; split; [done|]|left]; intros (p & Hp & Hf'); destruct Hs; simplify_eq; try done.
       by destruct Hf'. }
  1: { destruct old as [p|].
    - apply Hkeep; [by destruct p, new|done| |].
      + intros n. rewrite (Hwas p _ eq_refl). by destruct p, new.
      + rewrite (Hwas p _ eq_refl). left. intros [-> | ->]; by destruct new.
    - apply Hkeep; [done|done| |].
      + intros n. split; [by destruct new|by intros (? & ? & _)].
      + left. by intros (? & ? & _). }
  13: { exfalso. destruct Hwt as (_ & W2 & _). apply Hn, W2. split; [exists Withdraw; by split|].
    split; [done|]. eapply (no_flying w a lane _ Hlk Hc); [by left|].
    rewrite (Hwas _ _ eq_refl). by intros []. }
  all: apply Hkeep; try done;
    [intros m; by rewrite (Hwas _ _ eq_refl)|].
  all: try (left; rewrite (Hwas _ _ eq_refl); by intros [|]); right; by right.
Qed.

(** ** Reachable worlds *)
Definition gate_inv (w : World) (es : list Event) : Prop :=
  lock_inv w ∧ word_inv w ∧ waiter_inv w ∧ (∃ o, owner_inv w o) ∧ wake_inv w ∧ fifo_inv w es ∧
  ∀ a lane, claims w !! a ≠ Some (lane, Unreachable).

Lemma gate_inv_initial : gate_inv initial [].
Proof.
  assert (∀ a lane P, ¬ at_pc initial a lane P) as Hno by (intros a lane P (p & ? & _); done).
  split; [by split|]. split; [|split; [|split; [|split; [|split]]]].
  - split; [done|]. split; [by intros a lane H%Hno|]. split; [by intros a lane H%Hno|]. done.
  - split; [intros; apply NoDup_nil_2|]. split; [|split].
    + intros a lane. split; [by intros H%elem_of_nil|]. intros (H & _). by apply Hno in H.
    + by intros a b lane H%Hno.
    + intros a Ha. set_solver.
  - exists ∅. split; [|done]. intros a lane. split; [by intros H%Hno|done].
  - split; [by intros a lane H%Hno|]. split; [by intros a lane H%Hno|by intros a b M H%Hno].
  - intros lane. split; [by intros a H%elem_of_nil|]. split; [by intros a H%elem_of_nil|].
    exists []. split; [|done]. left. split; [done|]. by intros b n H%Hno.
  - done.
Qed.

Lemma reachable_move w a lane old new w' :
  lock_inv w → waiter_inv w → claims w !! a = (lane,.) <$> old → move w a lane old new w' →
  new ≠ Unreachable.
Proof.
  intros Hlk (_ & W2 & _) Hc Hm. destruct Hm as [old new wk nt Hs| | | | | | | | | | | | | | | |q i q'| |Hl Hg Hn];
    try done.
  - intros ->. by destruct old as [[]|].
  - by destruct q'.
  - intros _. apply Hn, W2. split; [by exists Withdraw|]. split; [done|].
    eapply (no_flying w a lane _ Hlk Hc); [by left|]. by intros (q & [= <-] & ?).
Qed.

Lemma gate_inv_step w es l w' es' :
  gate_inv w es → step w l = Some (w', es') → gate_inv w' (es ++ es').
Proof.
  intros (H1 & H2 & H3 & (o & H4) & H5 & H6 & H7) (a & lane & old & new & Hc & Hm & ->)%step_move.
  split; [by eapply lock_inv_move|]. split; [by eapply word_inv_move|].
  split; [by eapply waiter_inv_move|]. split; [by eapply owner_inv_move|].
  split; [by eapply wake_inv_move|]. split; [by eapply fifo_inv_move|].
  intros b M. pose proof (reachable_move _ _ _ _ _ _ H1 H3 Hc Hm) as Hn.
  destruct (move_frame _ _ _ _ _ _ Hm) as (-> & _). rewrite lookup_insert_Some.
  intros [[_ [=]]|[_ ?]]; [done|]. by eapply H7.
Qed.

Lemma gate_inv_execute w es ls w' es' :
  gate_inv w es → execute w ls = Some (w', es') → gate_inv w' (es ++ es').
Proof.
  revert w es es'. induction ls as [|l ls IH]; intros w es es' Hi; simpl.
  { intros [= <- <-]. by rewrite app_nil_r. }
  intros ([w1 e1] & Hs & ([w2 e2] & He & [= <- <-])%bind_Some)%bind_Some.
  rewrite app_assoc. eapply IH; [by eapply gate_inv_step|done].
Qed.

Lemma gate_inv_run ls w es : execute initial ls = Some (w, es) → gate_inv w es.
Proof. intros H. apply (gate_inv_execute initial [] ls w es gate_inv_initial H). Qed.
End GateInv.

(** ** What the gate promises *)
Module GateTheorems.
Import Gate GateInv.

(** The claims whose code is not running: not yet polled, suspended, holding
    a guard, or done. *)
Definition resting (p : Pc) : bool :=
  match p with New | Pending | Owner | Finished => true | _ => false end.
Definition at_rest (w : World) : Prop :=
  ∀ a lane p, claims w !! a = Some (lane, p) → resting p.

(** A schedule for the witnesses: claim 1 takes lane 0, claims 2 and 3 queue
    behind it, the guard of claim 1 is dropped. *)
Definition handover : list Label :=
  [Lock 1 0; Poll 1; Lock 2 0; Poll 2] ++ replicate 6 (Run 2) ++
  [Lock 3 0; Poll 3] ++ replicate 5 (Run 3) ++ [Drop 1] ++ replicate 5 (Run 1).
Definition handed : World * list Event := default (initial, []) (execute initial handover).

Lemma handover_runs : execute initial handover = Some handed.
Proof. vm_compute. reflexivity. Qed.

(** C16: in every world the gate reaches, at most one claim owns a lane, where
    a claim owns it from its successful exchange, or from the moment its flag
    is set even if it was not polled yet, until its release lets go; and an
    owned lane's word is not free, so that no other claim can take it. *)
Theorem lane_mutual_exclusion ls w es a b lane :
  execute initial ls = Some (w, es) → owns w a lane → owns w b lane →
  a = b ∧ word w lane ≠ Free.
Proof.
  intros (_ & _ & _ & (o & Ho & Hw) & _)%gate_inv_run Ha%Ho Hb%Ho.
  split; [congruence|]. rewrite Hw. congruence.
Qed.

Lemma lane_mutual_exclusion_witness :
  execute initial handover = Some handed ∧ owns handed.1 2 0 ∧ (2 = 2)%nat ∧ word handed.1 0 ≠ Free.
Proof.
  split; [vm_compute; reflexivity|].
  assert (Ho : owns handed.1 2 0).
  { exists Pending. split; [vm_compute; reflexivity|]. right. split; [vm_compute; exact I|].
    apply (bool_decide_unpack _). vm_compute. exact I. }
  split; [exact Ho|].
  apply (lane_mutual_exclusion handover handed.1 handed.2 2 2 0); [vm_compute; reflexivity|exact Ho|exact Ho].
Defined.

(** Ownership passes in arrival order. Whenever the shard lock is free,
    the waiters that joined a lane's queue and were not cancelled there are, in
    the order they joined, exactly those that were granted the lane, in the
    order of the grants, followed by those still queued. *)
Theorem lane_fifo ls w es lane :
  execute initial ls = Some (w, es) → shard_lock w = None →
  filter (.∉ withdrawn_on lane es) (pushed_on lane es) = granted_on lane es ++ queue w lane.
Proof.
  intros (Hlk & _ & _ & _ & _ & Hf & _)%gate_inv_run Hl.
  destruct (Hf lane) as (_ & _ & f & [[-> _]|(b & n & _ & Hb)] & Heq); [done|].
  eapply at_locked in Hb; [|done|intros p; apply flying_locked]. congruence.
Qed.

Lemma lane_fifo_witness :
  execute initial handover = Some handed ∧ shard_lock handed.1 = None ∧
  filter (.∉ withdrawn_on 0 handed.2) (pushed_on 0 handed.2) = [2%nat; 3%nat] ∧
  filter (.∉ withdrawn_on 0 handed.2) (pushed_on 0 handed.2) =
    granted_on 0 handed.2 ++ queue handed.1 0.
Proof.
  split; [vm_compute; reflexivity|]. split; [vm_compute; reflexivity|].
  split; [vm_compute; reflexivity|].
  apply (lane_fifo handover handed.1 handed.2 0); vm_compute; reflexivity.
Defined.

(** No waiter is lost. Once all running code has come to rest, every
    suspended claim is either in its lane's queue or owns the lane and was
    notified; and a lane with a queue, or whose word is not free, has an owner
    that holds a guard or was notified. Cancelling a granted claim is one of
    the ways the code comes to rest, so it cannot strand the queue. *)
Theorem lane_no_lost_waiter ls w es :
  execute initial ls = Some (w, es) → at_rest w →
  (∀ a lane, claims w !! a = Some (lane, Pending) →
     a ∈ queue w lane ∨ a ∈ granted w ∧ a ∈ notified w) ∧
  (∀ lane, queue w lane ≠ [] ∨ word w lane ≠ Free →
     ∃ b, claims w !! b = Some (lane, Owner) ∨
          claims w !! b = Some (lane, Pending) ∧ b ∈ granted w ∧ b ∈ notified w).
Proof.
  intros (Hlk & (H1 & H2 & H3 & H4) & (_ & W2 & _) & (o & Ho & Hw) & (_ & I2 & _) & _)%gate_inv_run Hr.
  assert (Hno : ∀ b M (P : Pc → Prop), (∀ p, P p → ¬ resting p) → ¬ at_pc w b M P).
  { intros b M P HP (p & Hp & Hpp). apply (HP p Hpp). by apply (Hr b M). }
  assert (Hnot : ∀ a M, claims w !! a = Some (M, Pending) → a ∈ granted w → a ∈ notified w).
  { intros a M Ha Hg. destruct (I2 a M) as [?|[_ (b & N & Hb)]]; [by exists Pending|done|done|].
    exfalso. eapply Hno; [|done]. by intros p -> []. }
  split.
  - intros a lane Ha. destruct (decide (a ∈ granted w)) as [Hg|Hg]; [right; eauto|left].
    apply W2. split; [by exists Pending|]. split; [done|]. intros (b & Hb).
    eapply Hno; [|done]. intros p Hp Hrp. by destruct p as [| | | | | | | | | | | |[]|[]| | | | |].
  - intros lane Hl. assert (word w lane ≠ Free) as Hwl.
    { destruct Hl as [Hl|?]; [|done]. assert (word w lane = Queued) as ->; [|done].
      apply H4; [|done]. intros a. apply Hno. intros p Hp Hrp.
      by destruct p as [| | | | | | | | | | | |[]| | | | | |]. }
    destruct (o !! lane) as [b|] eqn:Hb; [|by apply Hw in Hb].
    exists b. apply Ho in Hb as (p & Hp & Hown). pose proof (Hr b lane p Hp) as Hres.
    destruct p; try done; destruct Hown as [|[? Hg]]; try done; [|by left]. right. eauto.
Qed.

Lemma lane_no_lost_waiter_witness :
  execute initial handover = Some handed ∧ at_rest handed.1 ∧
  claims handed.1 !! 3%nat = Some (0%nat, Pending) ∧
  (3%nat ∈ queue handed.1 0 ∨ 3%nat ∈ granted handed.1 ∧ 3%nat ∈ notified handed.1).
Proof.
  assert (Hr : at_rest handed.1).
  { intros a lane p Ha. change p with (lane, p).2.
    refine (map_Forall_lookup_1 (λ _ x, resting x.2) (claims handed.1) a (lane, p) _ Ha).
    apply (bool_decide_unpack _). vm_compute. exact I. }
  split; [vm_compute; reflexivity|]. split; [exact Hr|]. split; [vm_compute; reflexivity|].
  apply (lane_no_lost_waiter handover handed.1 handed.2); [vm_compute; reflexivity|exact Hr|].
  vm_compute; reflexivity.
Defined.

(** The gate never deadlocks. In every world it reaches where some claim's
    code is running, some running claim can take its next step: the one holding
    the shard lock if there is one, and no position the code calls unreachable
    is ever reached. *)
Theorem lane_never_stuck ls w es a lane p :
  execute initial ls = Some (w, es) → claims w !! a = Some (lane, p) → ¬ resting p →
  p ≠ Unreachable ∧ ∃ b, is_Some (step w (Run b)).
Proof.
  intros ((Hl & Hd) & _ & _ & _ & _ & _ & Hu)%gate_inv_run Ha Hp.
  split; [intros ->; by destruct (Hu _ _ Ha)|]. destruct (shard_lock w) as [b|] eqn:Hs.
  - exists b. destruct (Hd b eq_refl) as ([M q] & Hb). simpl. rewrite Hb. simpl.
    assert (locked q) as Hlq by by apply (Hl b M q).
    destruct q as [| | | | | | | | | | | | |[]| | | | |]; try done; try (eexists; reflexivity).
    by destruct (Hu _ _ Hb).
  - exists a. simpl. rewrite Ha. simpl.
    destruct p as [| | | | | | | | | | | | |[]| | | | |]; simpl; unfold acquire; rewrite ?Hs; simpl;
      try (eexists; reflexivity); try (by destruct Hp); try (case_decide; eexists; reflexivity); by destruct (Hu _ _ Ha).
Qed.

Lemma lane_never_stuck_witness :
  ∃ w es, execute initial (take 22 handover) = Some (w, es) ∧
    claims w !! 1%nat = Some (0%nat, Wake 2) ∧ (Wake 2 ≠ Unreachable ∧ ∃ b, is_Some (step w (Run b))).
Proof.
  pose (r := default (initial, []) (execute initial (take 22 handover))).
  exists r.1, r.2. split; [vm_compute; reflexivity|]. split; [vm_compute; reflexivity|].
  apply (lane_never_stuck (take 22 handover) r.1 r.2 1 0 (Wake 2));
    [vm_compute; reflexivity|vm_compute; reflexivity|intros []].
Defined.
End GateTheorems.

(** ** Revisions and fences

    [KeyLane::advance] and [KeyLane::snapshot] as the functions they compute
    when no other thread interferes, and as the sequences of accesses they
    perform, interleaved with those of every other caller. *)
Module Fences.
Record KeyLane := mkKeyLane { generation : Z; timestamp : option Timestamp }.
#[export] Instance eta_KeyLane : Eta KeyLane := λ l, mkKeyLane (generation l) (timestamp l).

Inductive RecoveryError := GenerationExhausted.

(** A fence pins its lane; [lane] is the lane's identity. *)
Record Fence := mkFence { lane : nat; captured : Z; captured_epoch : Z }.

Definition KeyLane_new : KeyLane := mkKeyLane 0 None.

Definition snapshot (id : nat) (l : KeyLane) (epoch : Z) : Fence :=
  mkFence id (generation l) epoch.

(** [fetch_update] with [checked_add(1)]. *)
Definition advance_revision (l : KeyLane) : result RecoveryError (KeyLane * Z) :=
  match checked_add_u64 (generation l) 1 with
  | Some g => Ok (l <| generation := g |>, g)
  | None => Err GenerationExhausted
  end.

Definition stamp (at_ : Timestamp) (l : KeyLane) : KeyLane :=
  l <| timestamp := Some match timestamp l with None => at_ | Some old => Z.max old at_ end |>.

Definition advance (id : nat) (l : KeyLane) (at_ : Timestamp) (epoch : Z)
    : result RecoveryError (KeyLane * Fence) :=
  '(l', g) ← advance_revision l;
  Ok (stamp at_ l', mkFence id g epoch).

Definition is_current (f : Fence) (l : KeyLane) : bool := generation l =? captured f.
Definition passive_is_current (f : Fence) (l : KeyLane) (epoch : Z) : bool :=
  is_current f l && (epoch =? captured_epoch f).

(** Where one call stands: its next access is the revision update, the
    timestamp lock, or the epoch load; then it has its fence. [by_advance]
    tells the fences of [advance] from those of [snapshot]. *)
Inductive Call :=
| Advancing (id : nat) (at_ : Timestamp)
| Revised (id : nat) (at_ : Timestamp) (g : Z)
| Stamped (id : nat) (at_ : Timestamp) (g : Z)
| Capturing (id : nat)
| Captured (id : nat) (g : Z)
| Holds (by_advance : option Timestamp) (f : Fence)
| Exhausted.

Record World := mkWorld { lanes : gmap nat KeyLane; epoch : Z; calls : gmap nat Call }.
#[export] Instance eta_World : Eta World := λ w, mkWorld (lanes w) (epoch w) (calls w).

Definition lane_of (w : World) (id : nat) : KeyLane := default KeyLane_new (lanes w !! id).
Definition put (c : nat) (p : Call) (w : World) : World := w <| calls := <[c := p]> (calls w) |>.
Definition put_lane (id : nat) (l : KeyLane) (w : World) : World :=
  w <| lanes := <[id := l]> (lanes w) |>.

Inductive Label :=
| Advance (c id : nat) (at_ : Timestamp)
| Capture (c id : nat)
| SetEpoch (e : Z)
| Run (c : nat)
| Release (c : nat).

Definition run_step (c : nat) (p : Call) (w : World) : option World :=
  match p with
  | Advancing id at_ =>
      Some match advance_revision (lane_of w id) with
           | Ok (l, g) => put c (Revised id at_ g) (put_lane id l w)
           | Err _ => put c Exhausted w
           end
  | Revised id at_ g => Some (put c (Stamped id at_ g) (put_lane id (stamp at_ (lane_of w id)) w))
  | Stamped id at_ g => Some (put c (Holds (Some at_) (mkFence id g (epoch w))) w)
  | Capturing id => Some (put c (Captured id (generation (lane_of w id))) w)
  | Captured id g => Some (put c (Holds None (mkFence id g (epoch w))) w)
  | Holds _ _ | Exhausted => None
  end.

Definition step (w : World) (l : Label) : option World :=
  match l with
  | Advance c id at_ =>
      match calls w !! c with None => Some (put c (Advancing id at_) w) | Some _ => None end
  | Capture c id =>
      match calls w !! c with None => Some (put c (Capturing id) w) | Some _ => None end
  | SetEpoch e => Some (w <| epoch := e |>)
  | Run c => p ← calls w !! c; run_step c p w
  | Release c => Some (w <| calls := delete c (calls w) |>)
  end.

Fixpoint execute (w : World) (ls : list Label) : option World :=
  match ls with
  | [] => Some w
  | l :: ls => w' ← step w l; execute w' ls
  end.

Definition initial : World := mkWorld ∅ 0 ∅.

(** The lane and generation an [advance] call has drawn. *)
Definition drawn (p : Call) : option (nat * Z) :=
  match p with
  | Revised id _ g | Stamped id _ g => Some (id, g)
  | Holds (Some _) f => Some (lane f, captured f)
  | _ => None
  end.

(** Any lane and generation a call refers to. *)
Definition refers (p : Call) : option (nat * Z) :=
  match p with
  | Captured id g => Some (id, g)
  | Holds None f => Some (lane f, captured f)
  | _ => drawn p
  end.

(** The instant a call has stamped on its lane. *)
Definition stamped (p : Call) : option (nat * Timestamp) :=
  match p with
  | Stamped id at_ _ => Some (id, at_)
  | Holds (Some at_) f => Some (lane f, at_)
  | _ => None
  end.

Definition fence_inv (w : World) : Prop :=
  (∀ id, is_u64 (generation (lane_of w id))) ∧
  (∀ c p id g, calls w !! c = Some p → refers p = Some (id, g) → g ≤ generation (lane_of w id)) ∧
  (∀ c d p q x, calls w !! c = Some p → calls w !! d = Some q →
     drawn p = Some x → drawn q = Some x → c = d) ∧
  (∀ c p id at_, calls w !! c = Some p → stamped p = Some (id, at_) →
     ∃ t, timestamp (lane_of w id) = Some t ∧ at_ ≤ t).

Lemma drawn_refers p x : drawn p = Some x → refers p = Some x.
Proof. by destruct p as [| | | | |[]|]. Qed.

Lemma lane_put_lane w id l id' :
  lane_of (put_lane id l w) id' = if decide (id' = id) then l else lane_of w id'.
Proof.
  unfold lane_of, put_lane. simpl. case_decide as H; [subst; by rewrite lookup_insert_eq|].
  by rewrite lookup_insert_ne.
Qed.

(** Changing one call and raising one lane. *)
Lemma fence_inv_put w w1 c p :
  fence_inv w → calls w1 = calls w →
  (∀ id, is_u64 (generation (lane_of w1 id))) →
  (∀ id, generation (lane_of w id) ≤ generation (lane_of w1 id)) →
  (∀ id t, timestamp (lane_of w id) = Some t → ∃ t', timestamp (lane_of w1 id) = Some t' ∧ t ≤ t') →
  (∀ id g, refers p = Some (id, g) → g ≤ generation (lane_of w1 id)) →
  (∀ x, drawn p = Some x → (∃ q, calls w !! c = Some q ∧ drawn q = Some x) ∨
                           generation (lane_of w x.1) < x.2) →
  (∀ id at_, stamped p = Some (id, at_) → ∃ t, timestamp (lane_of w1 id) = Some t ∧ at_ ≤ t) →
  fence_inv (put c p w1).
Proof.
  intros (I1 & I2 & I3 & I4) Hc Hu Hg Ht Hr Hd Hs.
  assert (∀ d q, calls (put c p w1) !! d = Some q →
    (d = c ∧ q = p) ∨ (d ≠ c ∧ calls w !! d = Some q)) as Hput.
  { intros d q. unfold put. simpl. rewrite Hc, lookup_insert_Some. naive_solver. }
  assert (∀ d q x, d ≠ c → calls w !! d = Some q → drawn q = Some x → drawn p ≠ Some x) as Hfresh.
  { intros d q [id g] Hdc Hq Hdq Hp. apply Hd in Hp as [(q' & Hq' & Hdq')|Hlt].
    - apply Hdc. by apply (I3 d c q q' (id, g)).
    - specialize (I2 d q id g Hq (drawn_refers _ _ Hdq)). simpl in Hlt. lia. }
  split; [done|]. split; [|split].
  - intros d q id g [[-> ->]|[Hdc Hq]]%Hput Hrq; [by apply Hr|].
    specialize (I2 d q id g Hq Hrq). specialize (Hg id). change (lane_of (put c p w1) id) with (lane_of w1 id). lia.
  - intros d e q r x [[-> ->]|[Hdc Hq]]%Hput [[-> ->]|[Hec Hr']]%Hput Hdq Hdr; [done| | |by eapply I3].
    + by destruct (Hfresh e r x).
    + by destruct (Hfresh d q x).
  - intros d q id at_ [[-> ->]|[Hdc Hq]]%Hput Hsq; [by apply Hs|].
    destruct (I4 d q id at_ Hq Hsq) as (t & Hlt & ?). destruct (Ht id t Hlt) as (t' & ? & ?).
    exists t'. split; [done|lia].
Qed.

Lemma fence_inv_step w l w' : fence_inv w → step w l = Some w' → fence_inv w'.
Proof.
  intros Hi Hs. pose proof Hi as (I1 & I2 & I3 & I4).
  assert (Hsame : ∀ c p, (∀ x, refers p = Some x → ∃ q, calls w !! c = Some q ∧ refers q = Some x) →
    (∀ x, drawn p = Some x → ∃ q, calls w !! c = Some q ∧ drawn q = Some x) →
    (∀ x, stamped p = Some x → ∃ q, calls w !! c = Some q ∧ stamped q = Some x) → fence_inv (put c p w)).
  { intros c p Hr Hd Hst. apply fence_inv_put with w; try done; [eauto using Z.le_refl|..].
    - intros id g (q & Hq & Hrq)%Hr. by eapply I2.
    - intros x Hx%Hd. by left.
    - intros id at_ (q & Hq & Hrq)%Hst. by eapply I4. }
  destruct l as [c id at_|c id|e|c|c]; cbn [step] in Hs.
  - destruct (calls w !! c); simplify_eq. by apply Hsame.
  - destruct (calls w !! c); simplify_eq. by apply Hsame.
  - by simplify_eq.
  - apply bind_Some in Hs as (p & Hp & Hs). destruct p as [id at_|id at_ g|id at_ g|id|id g|b f|];
      cbn [run_step] in Hs; simplify_eq.
    + unfold advance_revision. destruct (checked_add_u64 _ 1) as [g|] eqn:Hg; [|by apply Hsame].
      apply checked_add_u64_Some in Hg as [-> Hle].
      assert (∀ id', generation (lane_of w id') ≤ generation
        (lane_of (put_lane id (lane_of w id <| generation := generation (lane_of w id) + 1 |>) w) id')) as Hmono.
      { intros id'. rewrite lane_put_lane. case_decide; [subst; simpl; lia|lia]. }
      apply fence_inv_put with w; try done.
      * intros id'. rewrite lane_put_lane. case_decide; [|apply I1].
        specialize (I1 id). unfold is_u64 in *. simpl. lia.
      * intros id' t Ht. rewrite lane_put_lane. case_decide; [subst|]; exists t; (split; [done|lia]).
      * intros id' g [= <- <-]. rewrite lane_put_lane, decide_True by done. simpl. lia.
      * intros x [= <-]. right. simpl. lia.
    + apply fence_inv_put with w; try done.
      * intros id'. rewrite lane_put_lane. case_decide; [subst|]; apply I1.
      * intros id'. rewrite lane_put_lane. case_decide; [by subst|lia].
      * intros id' t Ht. rewrite lane_put_lane. case_decide; [subst id'|exists t; split; [done|lia]].
        simpl. rewrite Ht. eexists. split; [done|lia].
      * intros id' g' [= <- <-]. rewrite lane_put_lane, decide_True by done. simpl. by eapply I2.
      * intros x [= <-]. left. by eexists.
      * intros id' at' [= <- <-]. rewrite lane_put_lane, decide_True by done. simpl.
        eexists. split; [done|]. destruct (timestamp _); lia.
    + apply Hsame; intros x [= <-]; eauto.
    + apply fence_inv_put with w; try done; [eauto using Z.le_refl|].
      intros id' g [= <- <-]. lia.
    + apply Hsame; try done; intros x [= <-]; eauto.
  - simplify_eq. split; [done|]. simpl. setoid_rewrite lookup_delete_Some. split; [|split].
    + intros d p id g [_ Hd]. by apply (I2 d p).
    + intros d e p q x [_ Hd] [_ He]. by apply (I3 d e p q x).
    + intros d p id at_ [_ Hd]. by apply (I4 d p).
Qed.

Lemma fence_inv_run ls w : execute initial ls = Some w → fence_inv w.
Proof.
  assert (fence_inv initial) as Hi.
  { split; [|by split]. intros id. change (is_u64 0). unfold is_u64. lia. }
  revert Hi. generalize initial. induction ls as [|l ls IH]; intros w0 Hi; simpl; [by intros [= <-]|].
  intros (w1 & Hs & He)%bind_Some. eapply IH; [|done]. by eapply fence_inv_step.
Qed.

Lemma generation_mono_step w l w' id :
  step w l = Some w' → generation (lane_of w id) ≤ generation (lane_of w' id).
Proof.
  intros Hs. destruct l as [c i at_|c i|e|c|c]; cbn [step] in Hs;
    try (destruct (calls w !! c); simplify_eq; done); try (by simplify_eq).
  apply bind_Some in Hs as (p & Hp & Hs).
  destruct p as [i at_|i at_ g|i at_ g|i|i g|b f|]; cbn [run_step] in Hs; simplify_eq; try done.
  - unfold advance_revision. destruct (checked_add_u64 _ 1) as [g|] eqn:Hg; [|done].
    apply checked_add_u64_Some in Hg as [-> _].
    change (lane_of (put _ _ ?w) id) with (lane_of w id). rewrite lane_put_lane. case_decide; [subst; simpl|]; lia.
  - change (lane_of (put _ _ ?w) id) with (lane_of w id). rewrite lane_put_lane. case_decide; [by subst|lia].
Qed.

Lemma generation_mono w ls w' id :
  execute w ls = Some w' → generation (lane_of w id) ≤ generation (lane_of w' id).
Proof.
  revert w. induction ls as [|l ls IH]; intros w; simpl; [by intros [= <-]|].
  intros (w1 & Hs & He)%bind_Some. apply IH in He. pose proof (generation_mono_step w l w1 id Hs). lia.
Qed.
End Fences.

Module FenceTheorems.
Import Fences.

(** Without interference, the accesses of [advance] compose to the function. *)
Lemma advance_uninterrupted w c id at_ :
  calls w !! c = None →
  execute w [Advance c id at_; Run c; Run c; Run c] =
    match advance id (lane_of w id) at_ (epoch w) with
    | Ok (l, f) => Some (put c (Holds (Some at_) f) (put_lane id l w))
    | Err _ => None
    end.
Proof.
  intros Hc. cbn [execute step]. rewrite Hc. cbn [mbind option_bind put calls execute step].
  change (calls (put c ?p w)) with (<[c := p]> (calls w)). rewrite lookup_insert_eq. simpl.
  unfold advance. change (lane_of (put c ?p w) id) with (lane_of w id).
  destruct (advance_revision (lane_of w id)) as [[l g]|]; simpl; rewrite lookup_insert_eq; simpl; [|done].
  rewrite lookup_insert_eq. simpl. unfold put, put_lane, lane_of; simpl.
  rewrite !lookup_insert_eq, !insert_insert_eq. done.
Qed.

Definition two_advances : list Label :=
  [Advance 1 7 100; Advance 2 7 50; Run 1; Run 2; Run 2; Run 1; Run 1; Run 2].
Definition after_two : World := default initial (execute initial two_advances).

(** Fences are exclusive and never revive. However the accesses of any
    number of [advance] and [snapshot] calls on a lane interleave: two
    different [advance] calls never hold current fences of one lane; a fence
    that is not current is not current after any further steps; every finished
    [advance] is covered by the lane's timestamp; and generations never leave
    the 64-bit range, so none is drawn twice. *)
Theorem fences_exclusive ls w c d s t f g :
  execute initial ls = Some w →
  calls w !! c = Some (Holds (Some s) f) → calls w !! d = Some (Holds (Some t) g) →
  (lane f = lane g → is_current f (lane_of w (lane f)) → is_current g (lane_of w (lane g)) → c = d) ∧
  (is_current f (lane_of w (lane f)) = false → ∀ ls' w', execute w ls' = Some w' →
     is_current f (lane_of w' (lane f)) = false) ∧
  (∃ at_, timestamp (lane_of w (lane f)) = Some at_ ∧ s ≤ at_) ∧
  is_u64 (generation (lane_of w (lane f))).
Proof.
  intros (I1 & I2 & I3 & I4)%fence_inv_run Hc Hd. unfold is_current. split; [|split; [|split]].
  - intros Hl Hf%Is_true_eq_true%Z.eqb_eq Hg%Is_true_eq_true%Z.eqb_eq.
    eapply (I3 c d _ _ (lane f, captured f)); [done|done|done|]. simpl. congruence.
  - intros Hf%Z.eqb_neq ls' w' He. apply Z.eqb_neq.
    specialize (I2 c _ (lane f) (captured f) Hc eq_refl).
    pose proof (generation_mono w ls' w' (lane f) He). lia.
  - by apply (I4 c (Holds (Some s) f)).
  - apply I1.
Qed.

Lemma fences_exclusive_witness :
  execute initial two_advances = Some after_two ∧
  calls after_two !! 1%nat = Some (Holds (Some 100) (mkFence 7 1 0)) ∧
  calls after_two !! 2%nat = Some (Holds (Some 50) (mkFence 7 2 0)) ∧
  is_current (mkFence 7 1 0) (lane_of after_two 7) = false ∧
  is_current (mkFence 7 2 0) (lane_of after_two 7) = true ∧
  timestamp (lane_of after_two 7) = Some 100 ∧
  ∃ at_, timestamp (lane_of after_two 7) = Some at_ ∧ 100 ≤ at_.
Proof.
  repeat (split; [vm_compute; reflexivity|]).
  refine (proj1 (proj2 (proj2 (fences_exclusive two_advances after_two 1 2 100 50
    (mkFence 7 1 0) (mkFence 7 2 0) _ _ _)))); vm_compute; reflexivity.
Defined.

(** Revision exhaustion fails closed. When the lane's generation is the
    last 64-bit value, [advance] reports it and changes neither the generation
    nor the timestamp; below it, [advance] succeeds, its fence is current in
    the new lane state, every fence of the old state is stale there, and the
    timestamp becomes the larger of the two. *)
Theorem advance_or_exhausted id l at_ e old :
  is_u64 (generation l) →
  if decide (generation l = u64_max) then advance id l at_ e = Err GenerationExhausted
  else ∃ l' f, advance id l at_ e = Ok (l', f) ∧ is_current f l' = true ∧
       passive_is_current f l' e = true ∧
       (is_current old l = true → is_current old l' = false) ∧
       timestamp l' = Some (from_option (Z.max at_) at_ (timestamp l)).
Proof.
  intros Hu. unfold advance, advance_revision, is_u64 in *. case_decide as He.
  - destruct (checked_add_u64 _ 1) eqn:Ha; [|done]. apply checked_add_u64_Some in Ha. lia.
  - destruct (checked_add_u64 _ 1) as [g|] eqn:Ha.
    2: { unfold checked_add_u64 in Ha. destruct (_ <=? _) eqn:Hc; [done|]. apply Z.leb_gt in Hc. lia. }
    apply checked_add_u64_Some in Ha as [-> _]. eexists _, _. split; [reflexivity|].
    unfold passive_is_current, is_current. simpl. rewrite !Z.eqb_refl. split; [done|]. split; [done|].
    split; [intros ?%Z.eqb_eq; apply Z.eqb_neq; lia|]. destruct (timestamp l); simpl; f_equal; lia.
Qed.

Lemma advance_or_exhausted_witness :
  is_u64 (generation (mkKeyLane 4 (Some 9))) ∧
  ∃ l' f, advance 0 (mkKeyLane 4 (Some 9)) 3 0 = Ok (l', f) ∧ is_current f l' = true ∧
       passive_is_current f l' 0 = true ∧
       (is_current (mkFence 0 4 0) (mkKeyLane 4 (Some 9)) = true → is_current (mkFence 0 4 0) l' = false) ∧
       timestamp l' = Some (from_option (Z.max 3) 3 (Some 9)).
Proof.
  assert (H : is_u64 (generation (mkKeyLane 4 (Some 9)))) by (unfold is_u64; simpl; lia).
  split; [exact H|]. exact (advance_or_exhausted 0 (mkKeyLane 4 (Some 9)) 3 0 (mkFence 0 4 0) H).
Defined.
End FenceTheorems.
