(* ===== verification/Locking.v ===== *)
(** * Weak identity slots

    Models [WeakSlots] of [src/src/locking.rs]: the sharded map from keys to
    weakly referenced coordination controls (the mutexes of [KeyedLock], the
    lanes of [commit.rs]) and its bounded reclamation. A control is its
    allocation, a number never used twice; [heap] holds its strong count, as
    [Arc] does, and [held] the handles callers own. Every operation runs under
    its shard's lock and is one step. The key hash is a parameter. *)
From S2P Require Import Prelude.

Definition SLOT_SHARDS : Z := 64.
Definition RETAINED_CONTROLS_PER_SHARD : nat := 16.

Inductive CoordinationPlan := Transient | Reuse.

(** ** Strong counts *)
Module Heap.
Abbreviation Heap := (gmap nat nat).

Definition strong_count (h : Heap) (id : nat) : nat := default 0%nat (h !! id).
Definition incr (id : nat) (h : Heap) : Heap := <[id := S (strong_count h id)]> h.
Definition decr (id : nat) (h : Heap) : Heap := <[id := pred (strong_count h id)]> h.

(** [Weak::upgrade]. *)
Definition upgrade (h : Heap) (id : nat) : option Heap :=
  if (0 <? strong_count h id)%nat then Some (incr id h) else None.

Lemma strong_incr h id j :
  strong_count (incr id h) j = if decide (j = id) then S (strong_count h id) else strong_count h j.
Proof.
  change (default 0%nat (<[id := S (strong_count h id)]> h !! j) =
    if decide (j = id) then S (strong_count h id) else strong_count h j).
  case_decide; [subst; by rewrite lookup_insert_eq|]. by rewrite lookup_insert_ne.
Qed.

Lemma strong_decr h id j :
  strong_count (decr id h) j = if decide (j = id) then pred (strong_count h id) else strong_count h j.
Proof.
  change (default 0%nat (<[id := pred (strong_count h id)]> h !! j) =
    if decide (j = id) then pred (strong_count h id) else strong_count h j).
  case_decide; [subst; by rewrite lookup_insert_eq|]. by rewrite lookup_insert_ne.
Qed.

Lemma upgrade_Some h id h' : upgrade h id = Some h' ↔ (0 < strong_count h id)%nat ∧ h' = incr id h.
Proof.
  unfold upgrade. destruct (0 <? strong_count h id)%nat eqn:He; [apply Nat.ltb_lt in He|apply Nat.ltb_ge in He].
  - naive_solver.
  - split; [done|]. lia.
Qed.

Lemma upgrade_None h id : upgrade h id = None ↔ strong_count h id = 0%nat.
Proof.
  unfold upgrade. destruct (0 <? strong_count h id)%nat eqn:He; [apply Nat.ltb_lt in He|apply Nat.ltb_ge in He];
    (split; [intros; try done; lia|intros; try done; lia]).
Qed.
End Heap.
Import Heap.

(** ** One shard *)
Inductive ControlRetention :=
| Weak
| Recent (recent : list nat).

Definition retained (c : ControlRetention) : list nat :=
  match c with Weak => [] | Recent r => r end.

Record SlotShard := mkShard {
  entries : gmap string nat;
  sweep : list string;
  controls : ControlRetention;
}.
#[export] Instance eta_SlotShard : Eta SlotShard := λ s, mkShard (entries s) (sweep s) (controls s).

Module ControlRetention.
(** The reference popped from a full pool is dropped before the new one is
    cloned in. *)
Definition retain (c : ControlRetention) (id : nat) (h : Heap) : ControlRetention * Heap :=
  match c with
  | Weak => (Weak, h)
  | Recent recent =>
      let '(recent, h) :=
        if (length recent =? RETAINED_CONTROLS_PER_SHARD)%nat then
          match recent with
          | [] => ([], h)
          | front :: rest => (rest, decr front h)
          end
        else (recent, h) in
      (Recent (recent ++ [id]), incr id h)
  end.

Fixpoint clean_steps (n : nat) (recent : list nat) (h : Heap) : list nat * Heap :=
  match n, recent with
  | S n, control :: rest =>
      if (1 <? strong_count h control)%nat then clean_steps n (rest ++ [control]) h
      else clean_steps n rest (decr control h)
  | _, _ => (recent, h)
  end.

Definition clean_idle (c : ControlRetention) (budget : nat) (h : Heap) : ControlRetention * Heap :=
  match c with
  | Weak => (Weak, h)
  | Recent recent =>
      let '(recent, h) := clean_steps (min budget (length recent)) recent h in (Recent recent, h)
  end.
End ControlRetention.

Module SlotShard.
(** [create]: the new control [id] has one owner, the caller. *)
Definition create (s : SlotShard) (key : string) (id : nat) (h : Heap) : SlotShard * Heap :=
  let h := <[id := 1%nat]> h in
  let s := match entries s !! key with
           | Some _ => s <| entries := <[key := id]> (entries s) |>
           | None => s <| sweep := sweep s ++ [key] |> <| entries := <[key := id]> (entries s) |>
           end in
  let '(c, h) := ControlRetention.retain (controls s) id h in
  (s <| controls := c |>, h).

Fixpoint clean_steps (n : nat) (s : SlotShard) (h : Heap) : SlotShard :=
  match n, sweep s with
  | S n, key :: rest =>
      let s := s <| sweep := rest |> in
      match entries s !! key with
      | Some id =>
          if (strong_count h id =? 0)%nat then
            clean_steps n (s <| entries := delete key (entries s) |>) h
          else clean_steps n (s <| sweep := rest ++ [key] |>) h
      | None => clean_steps n s h
      end
  | _, _ => s
  end.

Definition clean (s : SlotShard) (budget : nat) (h : Heap) : SlotShard * nat :=
  let count := min budget (length (sweep s)) in
  (clean_steps count s h, count).
End SlotShard.

(** ** The sharded map *)
Section WeakSlots.
Context (hash : string → Z).

Record WeakSlots := mkSlots {
  maintenance : Z;
  plan : CoordinationPlan;
  shards : gmap Z SlotShard;
  heap : Heap;
  next : nat;
  held : gmap nat nat;
}.
#[local] Instance eta_WeakSlots : Eta WeakSlots := λ s,
  mkSlots (maintenance s) (plan s) (shards s) (heap s) (next s) (held s).

Definition new_shard (p : CoordinationPlan) : SlotShard :=
  mkShard ∅ [] match p with Transient => Weak | Reuse => Recent [] end.

(** [CoordinationPlan::slots]: [WeakSlots::new] or [WeakSlots::reusable]. *)
Definition slots (p : CoordinationPlan) : WeakSlots := mkSlots 0 p ∅ ∅ 0 ∅.

Definition route (key : string) : Z := Z.land (hash key) (SLOT_SHARDS - 1).
Definition shard (s : WeakSlots) (i : Z) : SlotShard := default (new_shard (plan s)) (shards s !! i).
Definition set_shard (i : Z) (sh : SlotShard) (h : Heap) (s : WeakSlots) : WeakSlots :=
  s <| shards := <[i := sh]> (shards s) |> <| heap := h |>.

Definition holders (s : WeakSlots) (id : nat) : nat := default 0%nat (held s !! id).
Definition hold (id : nat) (s : WeakSlots) : WeakSlots :=
  s <| held := <[id := S (holders s id)]> (held s) |>.

(** [lookup]: the caller receives a strong reference. *)
Definition lookup (s : WeakSlots) (key : string) : nat * WeakSlots :=
  let i := route key in
  let sh := shard s i in
  match entries sh !! key ≫= (λ id, (id,.) <$> upgrade (heap s) id) with
  | Some (id, h) => (id, hold id (s <| heap := h |>))
  | None =>
      let '(sh, _) := SlotShard.clean sh 4 (heap s) in
      let id := next s in
      let '(sh, h) := SlotShard.create sh key id (heap s) in
      (id, hold id (set_shard i sh h s <| next := S id |>))
  end.

(** [Arc::clone] and the drop of a handle by a caller. *)
Definition clone_handle (s : WeakSlots) (id : nat) : option WeakSlots :=
  match holders s id with
  | O => None
  | S _ => Some (hold id (s <| heap := incr id (heap s) |>))
  end.
Definition drop_handle (s : WeakSlots) (id : nat) : option WeakSlots :=
  match holders s id with
  | O => None
  | S n => Some (s <| held := <[id := n]> (held s) |> <| heap := decr id (heap s) |>)
  end.

(** [clean]: [free] says which shard locks [try_lock] obtains. *)
Fixpoint clean_from (n : nat) (i : Z) (remaining : nat) (free : Z → bool) (s : WeakSlots) : WeakSlots :=
  match n with
  | O => s
  | S n =>
      if (remaining =? 0)%nat then s
      else
        let j := Z.land i (SLOT_SHARDS - 1) in
        if free j then
          let sh := shard s j in
          let '(c, h) := ControlRetention.clean_idle (controls sh) remaining (heap s) in
          let '(sh, count) := SlotShard.clean (sh <| controls := c |>) remaining h in
          clean_from n (i + 1) (remaining - count) free (set_shard j sh h s)
        else clean_from n (i + 1) remaining free s
  end.

Definition clean (s : WeakSlots) (budget : nat) (free : Z → bool) : WeakSlots :=
  let start := Z.land (maintenance s) (SLOT_SHARDS - 1) in
  clean_from (Z.to_nat SLOT_SHARDS) start budget free
    (s <| maintenance := (maintenance s + 1) mod 2 ^ 64 |>).

Inductive Op :=
| Lookup (key : string)
| Clone (id : nat)
| DropHandle (id : nat)
| Clean (budget : nat) (free : Z → bool).

Definition apply_op (s : WeakSlots) (op : Op) : option WeakSlots :=
  match op with
  | Lookup key => Some (lookup s key).2
  | Clone id => clone_handle s id
  | DropHandle id => drop_handle s id
  | Clean budget free => Some (clean s budget free)
  end.

Fixpoint execute (s : WeakSlots) (ops : list Op) : option WeakSlots :=
  match ops with
  | [] => Some s
  | op :: ops => s' ← apply_op s op; execute s' ops
  end.
End WeakSlots.
#[export] Existing Instance eta_WeakSlots.

(** ** Invariants *)
Module LockingInv.

Definition pooled (id : nat) (c : ControlRetention) : nat := count_occ Nat.eq_dec (retained c) id.

(** The sweep queue lists the keys of the slots, each once. *)
Definition shard_ok (sh : SlotShard) : Prop :=
  NoDup (sweep sh) ∧
  (∀ k, k ∈ sweep sh ↔ is_Some (entries sh !! k)) ∧
  (length (retained (controls sh)) ≤ RETAINED_CONTROLS_PER_SHARD)%nat.

(** [h'] and [c'] after reclamation from [h] and [c]: references leave the
    pool one by one, and nothing else changes. *)
Definition released (c c' : ControlRetention) (h h' : Heap) : Prop :=
  (length (retained c') ≤ length (retained c))%nat ∧
  ∀ id, (pooled id c' ≤ pooled id c)%nat ∧
        (pooled id c ≤ strong_count h id →
         strong_count h' id + pooled id c = strong_count h id + pooled id c')%nat.

Lemma released_refl c h : released c c h h.
Proof. split; [done|]. intros id. lia. Qed.

Lemma released_trans c1 c2 c3 h1 h2 h3 :
  released c1 c2 h1 h2 → released c2 c3 h2 h3 → released c1 c3 h1 h3.
Proof.
  intros [L1 R1] [L2 R2]. split; [lia|]. intros id.
  destruct (R1 id) as [P1 H1], (R2 id) as [P2 H2]. split; [lia|]. intros Hle.
  specialize (H1 Hle). specialize (H2 ltac:(lia)). lia.
Qed.

Lemma pooled_app id l1 l2 : pooled id (Recent (l1 ++ l2)) = (pooled id (Recent l1) + pooled id (Recent l2))%nat.
Proof. unfold pooled. simpl. apply count_occ_app. Qed.

Lemma pooled_cons id a l :
  pooled id (Recent (a :: l)) = ((if decide (id = a) then 1 else 0) + pooled id (Recent l))%nat.
Proof.
  unfold pooled. simpl. destruct (Nat.eq_dec a id) as [->|]; case_decide; try done; lia.
Qed.

Lemma pooled_nil id : pooled id (Recent []) = 0%nat.
Proof. done. Qed.

Lemma released_pop id l h : released (Recent (id :: l)) (Recent l) h (decr id h).
Proof.
  split; [simpl; lia|]. intros j. rewrite pooled_cons, strong_decr. split; [lia|].
  intros H. case_decide; [subst|]; lia.
Qed.

Lemma released_rotate id l h : released (Recent (id :: l)) (Recent (l ++ [id])) h h.
Proof.
  split; [simpl; rewrite length_app; simpl; lia|]. intros j.
  rewrite pooled_app, !pooled_cons, pooled_nil. lia.
Qed.

Lemma clean_idle_released c budget h :
  let '(c', h') := ControlRetention.clean_idle c budget h in released c c' h h'.
Proof.
  destruct c as [|recent]; simpl; [apply released_refl|].
  generalize (min budget (length recent)). intros n. clear budget.
  revert recent h. induction n as [|n IH]; intros recent h; simpl; [apply released_refl|].
  destruct recent as [|id l]; [apply released_refl|].
  destruct (1 <? strong_count h id)%nat.
  - specialize (IH (l ++ [id]) h). destruct (ControlRetention.clean_steps _ _ _).
    eapply released_trans; [apply released_rotate|done].
  - specialize (IH l (decr id h)). destruct (ControlRetention.clean_steps _ _ _).
    eapply released_trans; [apply released_pop|done].
Qed.

Lemma released_strong c c' h h' id :
  released c c' h h' → (pooled id c ≤ strong_count h id)%nat →
  (strong_count h' id ≤ strong_count h id)%nat.
Proof. intros [_ R] H. destruct (R id) as [? H1]. specialize (H1 H). lia. Qed.

(** The slots a sweep of [n] keys removes are exactly the dead ones among the
    first [n] of the queue. *)
Lemma clean_steps_spec n sh h :
  shard_ok sh → (n ≤ length (sweep sh))%nat →
  let sh' := SlotShard.clean_steps n sh h in
  shard_ok sh' ∧ controls sh' = controls sh ∧
  ∀ k id, entries sh' !! k = Some id ↔
    entries sh !! k = Some id ∧ (strong_count h id ≠ 0%nat ∨ k ∉ take n (sweep sh)).
Proof.
  revert sh. induction n as [|n IH]; intros sh Hok Hn; simpl.
  { split; [done|]. split; [done|]. intros k id. set_solver. }
  destruct (sweep sh) as [|key rest] eqn:Hsw; simpl in Hn; [lia|].
  pose proof Hok as (Hnd & Hk & Hl). rewrite Hsw in Hnd, Hk. apply NoDup_cons in Hnd as [Hkr Hnd].
  destruct (entries sh !! key) as [id|] eqn:He.
  2: { exfalso. destruct (proj1 (Hk key)) as [? ?]; [by left|]. congruence. }
  destruct (strong_count h id =? 0)%nat eqn:Hz; [apply Nat.eqb_eq in Hz|apply Nat.eqb_neq in Hz].
  - destruct (IH (sh <| sweep := rest |> <| entries := delete key (entries sh) |>)) as (H1 & H2 & H3).
    { split; [done|]. split; [|done]. intros k. simpl. rewrite lookup_delete_is_Some, <-Hk. set_solver. }
    { simpl. lia. }
    split; [exact H1|]. split; [exact H2|]. intros k j. rewrite H3. simpl.
    rewrite lookup_delete_Some. destruct (decide (k = key)) as [->|Hne]; [|set_solver].
    split; [naive_solver|]. intros [Hj [Hs|Hs]]; [congruence|set_solver].
  - destruct (IH (sh <| sweep := rest ++ [key] |>)) as (H1 & H2 & H3).
    { split; [|split; [|done]].
      - simpl. apply NoDup_app. split; [done|]. split; [set_solver|apply NoDup_singleton].
      - intros k. simpl. rewrite <-Hk. set_solver. }
    { simpl. rewrite length_app. simpl. lia. }
    split; [exact H1|]. split; [exact H2|]. intros k j. rewrite H3. simpl.
    rewrite take_app_le by lia. destruct (decide (k = key)) as [->|Hne]; [|set_solver].
    split; [|set_solver]. intros [Hj _]. split; [done|]. left. congruence.
Qed.

Section inv.
Context (hash : string → Z).

Definition entry (s : WeakSlots) (i : Z) (k : string) : option nat := entries (shard s i) !! k.

Definition slots_inv (s : WeakSlots) : Prop :=
  (∀ i, shard_ok (shard s i)) ∧
  (∀ i k id, entry s i k = Some id → i = route hash k ∧ (id < next s)%nat) ∧
  (∀ i j k k' id, entry s i k = Some id → entry s j k' = Some id → k = k') ∧
  (∀ id, ∃ i, strong_count (heap s) id = (holders s id + pooled id (controls (shard s i)))%nat ∧
              ∀ j, j ≠ i → pooled id (controls (shard s j)) = 0%nat) ∧
  (∀ id, (next s ≤ id)%nat → strong_count (heap s) id = 0%nat).

(** The control registered for a key, for as long as it is alive. *)
Definition serves (s : WeakSlots) (k : string) (id : nat) : Prop :=
  (id < next s)%nat ∧ (entry s (route hash k) k = Some id ∨ strong_count (heap s) id = 0%nat).

Lemma shard_set_shard i sh h s j :
  shard (set_shard i sh h s) j = if decide (j = i) then sh else shard s j.
Proof.
  unfold shard, set_shard. simpl. case_decide; [subst; by rewrite lookup_insert_eq|].
  by rewrite lookup_insert_ne.
Qed.

Lemma pooled_le s i id :
  slots_inv s → (pooled id (controls (shard s i)) ≤ strong_count (heap s) id)%nat.
Proof.
  intros (_ & _ & _ & I4 & _). destruct (I4 id) as (j & Hs & Hj).
  destruct (decide (i = j)) as [->|Hij]; [lia|]. rewrite (Hj i Hij). lia.
Qed.

(** Reclamation in one shard. *)
Lemma slots_inv_reclaim s i sh h :
  slots_inv s → shard_ok sh → (∀ k id, entries sh !! k = Some id → entry s i k = Some id) →
  released (controls (shard s i)) (controls sh) (heap s) h →
  slots_inv (set_shard i sh h s).
Proof.
  intros Hi Hok He Hr. pose proof Hi as (I1 & I2 & I3 & I4 & I5).
  assert (Hent : ∀ j k id, entry (set_shard i sh h s) j k = Some id → entry s j k = Some id).
  { intros j k id. unfold entry. rewrite shard_set_shard. case_decide; [subst; apply He|done]. }
  split; [|split; [|split; [|split]]].
  - intros j. rewrite shard_set_shard. by case_decide.
  - intros j k id Hj%Hent. by apply I2.
  - intros j j' k k' id Hj%Hent Hj'%Hent. by eapply (I3 j j').
  - intros id. destruct (I4 id) as (j & Hs & Hj). exists j.
    change (holders (set_shard i sh h s) id) with (holders s id).
    change (heap (set_shard i sh h s)) with h.
    destruct Hr as [_ Hr]. destruct (Hr id) as [Hp Hb]. specialize (Hb (pooled_le s i id Hi)).
    split; [|intros j' Hj'; rewrite shard_set_shard; case_decide as Hji; [subst|by apply Hj]];
      [rewrite shard_set_shard; case_decide as Hji; [subst; lia|]|].
    + rewrite (Hj i) in Hb, Hp by done. lia.
    + rewrite (Hj i) in Hp by done. lia.
  - intros id Hid. pose proof (released_strong _ _ _ _ id Hr (pooled_le s i id Hi)).
    specialize (I5 id Hid). simpl. lia.
Qed.

Lemma serves_reclaim s i sh h k id :
  slots_inv s → serves s k id →
  (∀ k id, entry s i k = Some id → strong_count h id ≠ 0%nat → entries sh !! k = Some id) →
  released (controls (shard s i)) (controls sh) (heap s) h →
  serves (set_shard i sh h s) k id.
Proof.
  intros Hi [Hn Hs] He Hr. split; [done|]. unfold entry. rewrite shard_set_shard. simpl.
  destruct (decide (strong_count h id = 0%nat)) as [Hz|Hz]; [by right|left].
  pose proof (released_strong _ _ _ _ id Hr (pooled_le s i id Hi)).
  destruct Hs as [Hs|Hs]; [|lia]. case_decide as Hki; [rewrite <-Hki in *; by apply He|done].
Qed.

Lemma clean_from_inv n i remaining free s k id :
  slots_inv s →
  slots_inv (clean_from n i remaining free s) ∧
  (serves s k id → serves (clean_from n i remaining free s) k id).
Proof.
  revert i remaining s. induction n as [|n IH]; intros i remaining s Hi; simpl; [done|].
  destruct (remaining =? 0)%nat; [done|]. destruct (free _); [|by apply IH].
  set (j := Z.land i (SLOT_SHARDS - 1)).
  pose proof (clean_idle_released (controls (shard s j)) remaining (heap s)) as Hr.
  destruct (ControlRetention.clean_idle _ _ _) as [c h]. unfold SlotShard.clean.
  pose proof Hi as (I1 & _). destruct (I1 j) as (Hnd & Hk & Hl).
  set (sh := shard s j <| controls := c |>).
  destruct (clean_steps_spec (min remaining (length (sweep sh))) sh h) as (Hok & Hc & He);
    [split; [done|split; [done|]]; destruct Hr as [Hr _]; simpl; lia|lia|].
  assert (Hr' : released (controls (shard s j))
    (controls (SlotShard.clean_steps (min remaining (length (sweep sh))) sh h)) (heap s) h) by by rewrite Hc.
  destruct (IH (i + 1) (remaining - min remaining (length (sweep sh)))%nat
    (set_shard j (SlotShard.clean_steps (min remaining (length (sweep sh))) sh h) h s)) as [H1 H2].
  - apply slots_inv_reclaim; [done|done| |done]. by intros k' id' [? _]%He.
  - split; [exact H1|]. intros Hs. apply H2. apply serves_reclaim; [done..| |done].
    intros k' id' He' Hz. apply He. split; [done|by left].
Qed.

Lemma slots_inv_clean s budget free : slots_inv s → slots_inv (clean s budget free).
Proof. intros Hi. unfold clean. by apply (clean_from_inv _ _ _ _ _ ""%string 0). Qed.

Lemma serves_clean s budget free k id :
  slots_inv s → serves s k id → serves (clean s budget free) k id.
Proof. intros Hi Hs. unfold clean. by apply clean_from_inv. Qed.

(** A handle gained or lost with its reference. *)
Lemma slots_inv_handles s id n :
  slots_inv s → (id < next s)%nat → (holders s id ≤ strong_count (heap s) id + n)%nat →
  slots_inv (s <| held := <[id := n]> (held s) |>
               <| heap := <[id := (strong_count (heap s) id + n - holders s id)%nat]> (heap s) |>).
Proof.
  intros (I1 & I2 & I3 & I4 & I5) Hid Hn.
  assert (Hsc : ∀ m j, strong_count (<[id := m]> (heap s)) j = if decide (j = id) then m else strong_count (heap s) j).
  { intros m j. change (default 0%nat (<[id := m]> (heap s) !! j) =
      if decide (j = id) then m else strong_count (heap s) j).
    case_decide; [subst; by rewrite lookup_insert_eq|by rewrite lookup_insert_ne]. }
  split; [exact I1|]. split; [exact I2|]. split; [exact I3|]. split.
  - intros j. destruct (I4 j) as (i & Hs & Hi). exists i. split; [|exact Hi]. simpl.
    rewrite Hsc. unfold holders in *. simpl.
    change (shard _ i) with (shard s i). case_decide; [subst; rewrite lookup_insert_eq; simpl; lia|].
    by rewrite lookup_insert_ne.
  - intros j Hj. simpl in *. rewrite Hsc. case_decide; [lia|by apply I5].
Qed.

Lemma slots_inv_gain s id :
  slots_inv s → (id < next s)%nat → slots_inv (hold id (s <| heap := incr id (heap s) |>)).
Proof.
  intros Hi Hid. pose proof (slots_inv_handles s id (S (holders s id)) Hi Hid ltac:(lia)) as H.
  replace (strong_count (heap s) id + S (holders s id) - holders s id)%nat
    with (S (strong_count (heap s) id)) in H by lia.
  exact H.
Qed.

Lemma slots_inv_drop s id n :
  slots_inv s → holders s id = S n →
  slots_inv (s <| held := <[id := n]> (held s) |> <| heap := decr id (heap s) |>).
Proof.
  intros Hi Hn. pose proof Hi as (_ & _ & _ & I4 & I5).
  assert (S n ≤ strong_count (heap s) id)%nat by (destruct (I4 id) as (i & Hs & _); lia).
  assert (id < next s)%nat by (destruct (decide (id < next s)%nat); [done|]; rewrite I5 in *; lia).
  pose proof (slots_inv_handles s id n Hi ltac:(done) ltac:(lia)) as H'.
  rewrite Hn in H'. replace (strong_count (heap s) id + n - S n)%nat
    with (pred (strong_count (heap s) id)) in H' by lia.
  exact H'.
Qed.

(** A reference gained through a live one, or dropped, registers nothing. *)
Lemma serves_count s s' k id :
  next s' = next s → shards s' = shards s → plan s' = plan s →
  (strong_count (heap s) id = 0%nat → strong_count (heap s') id = 0%nat) →
  serves s k id → serves s' k id.
Proof.
  intros Hn Hsh Hp Hz [Hid Hs]. unfold serves, entry, shard. rewrite Hn, Hsh, Hp.
  split; [done|]. destruct Hs as [Hs|Hs]; [by left|right; auto].
Qed.

Lemma retain_balance c id h :
  (∀ j, pooled j c ≤ strong_count h j)%nat →
  (length (retained c) ≤ RETAINED_CONTROLS_PER_SHARD)%nat →
  let '(c', h') := ControlRetention.retain c id h in
  (length (retained c') ≤ RETAINED_CONTROLS_PER_SHARD)%nat ∧
  ∀ j, (strong_count h' j + pooled j c = strong_count h j + pooled j c')%nat ∧
       (j ≠ id → strong_count h' j ≤ strong_count h j)%nat ∧
       (j ≠ id → pooled j c' ≤ pooled j c)%nat.
Proof.
  intros Hle Hlen. destruct c as [|recent]; [split; [done|]; intros j; lia|].
  assert (Hpush : ∀ l h0, (length l < RETAINED_CONTROLS_PER_SHARD)%nat →
    (length (l ++ [id]) ≤ RETAINED_CONTROLS_PER_SHARD)%nat ∧
    ∀ j, (strong_count (incr id h0) j + pooled j (Recent l) =
          strong_count h0 j + pooled j (Recent (l ++ [id])))%nat ∧
         (j ≠ id → strong_count (incr id h0) j = strong_count h0 j) ∧
         (j ≠ id → pooled j (Recent (l ++ [id])) = pooled j (Recent l))).
  { intros l h0 Hl. rewrite length_app. simpl. split; [lia|]. intros j.
    rewrite pooled_app, pooled_cons, pooled_nil, strong_incr. case_decide; [subst|]; lia. }
  simpl in *. destruct (length recent =? RETAINED_CONTROLS_PER_SHARD)%nat eqn:He;
    [apply Nat.eqb_eq in He|apply Nat.eqb_neq in He].
  - destruct recent as [|front rest]; [done|]. simpl in He.
    destruct (Hpush rest (decr front h)) as [H1 H2]; [lia|]. split; [exact H1|].
    intros j. destruct (H2 j) as (B1 & B2 & B3). specialize (Hle j).
    rewrite pooled_cons in *. rewrite strong_decr in *.
    repeat split; intros; try rewrite B2 by done; try rewrite B3 by done; repeat case_decide; subst; lia.
  - destruct (Hpush recent h) as [H1 H2]; [lia|]. split; [exact H1|].
    intros j. destruct (H2 j) as (B1 & B2 & B3). split; [done|].
    split; intros Hj; [rewrite B2 by done|rewrite B3 by done]; lia.
Qed.

Lemma create_spec sh key id h sh' h' :
  shard_ok sh → SlotShard.create sh key id h = (sh', h') →
  ControlRetention.retain (controls sh) id (<[id := 1%nat]> h) = (controls sh', h') ∧
  entries sh' = <[key := id]> (entries sh) ∧
  ((length (retained (controls sh')) ≤ RETAINED_CONTROLS_PER_SHARD)%nat → shard_ok sh').
Proof.
  intros (Hnd & Hk & Hl). unfold SlotShard.create. intros Hc.
  assert (Hctl : controls (match entries sh !! key with
    | Some _ => sh <| entries := <[key := id]> (entries sh) |>
    | None => sh <| sweep := sweep sh ++ [key] |> <| entries := <[key := id]> (entries sh) |>
    end) = controls sh) by by destruct (entries sh !! key).
  rewrite Hctl in Hc. clear Hctl. destruct (ControlRetention.retain _ _ _) as [c h1].
  injection Hc as <- <-. simpl. split; [done|]. unfold shard_ok.
  destruct (entries sh !! key) as [old|] eqn:He; simpl; (split; [done|]); intros Hlen.
  - split; [done|]. split; [|done]. intros k. rewrite lookup_insert_is_Some, Hk.
    destruct (decide (key = k)) as [->|]; [|naive_solver]. rewrite He. naive_solver.
  - assert (key ∉ sweep sh) as Hks by (rewrite Hk, He; by intros []).
    split; [apply NoDup_app; split; [done|]; split; [set_solver|apply NoDup_singleton]|].
    split; [|done]. intros k. rewrite lookup_insert_is_Some, elem_of_app, list_elem_of_singleton, Hk.
    destruct (decide (key = k)); naive_solver.
Qed.

(** What a lookup that finds no live control establishes. *)
Lemma lookup_miss s key :
  slots_inv s →
  (∀ id, entry s (route hash key) key = Some id → strong_count (heap s) id = 0%nat) →
  let '(sh1, _) := SlotShard.clean (shard s (route hash key)) 4 (heap s) in
  let '(sh2, h2) := SlotShard.create sh1 key (next s) (heap s) in
  let s' := hold (next s) (set_shard (route hash key) sh2 h2 s <| next := S (next s) |>) in
  slots_inv s' ∧ (∀ k id, serves s k id → serves s' k id) ∧ serves s' key (next s) ∧
  entry s' (route hash key) key = Some (next s).
Proof.
  intros Hi Hdead. pose proof Hi as (I1 & I2 & I3 & I4 & I5). set (i := route hash key) in *.
  unfold SlotShard.clean. destruct (I1 i) as (Hnd & Hk & Hl).
  destruct (clean_steps_spec (min 4 (length (sweep (shard s i)))) (shard s i) (heap s) (I1 i))
    as (Hok1 & Hc1 & He1); [lia|].
  set (sh1 := SlotShard.clean_steps _ _ _) in *.
  destruct (SlotShard.create sh1 key (next s) (heap s)) as [sh2 h2] eqn:Hcr.
  apply create_spec in Hcr as (Hret & He2 & Hok2); [|done]. rewrite Hc1 in Hret.
  set (h1 := <[next s := 1%nat]> (heap s)) in *.
  assert (Hh1 : ∀ j, strong_count h1 j = if decide (j = next s) then 1%nat else strong_count (heap s) j).
  { intros j. unfold h1, strong_count. case_decide; [subst; by rewrite lookup_insert_eq|].
    by rewrite lookup_insert_ne. }
  assert (Hnew : strong_count (heap s) (next s) = 0%nat) by by apply I5.
  assert (Hpn : ∀ j, pooled (next s) (controls (shard s j)) = 0%nat).
  { intros j. pose proof (pooled_le s j (next s) Hi). lia. }
  pose proof (retain_balance (controls (shard s i)) (next s) h1) as Hb. rewrite Hret in Hb.
  destruct Hb as [Hlen Hb].
  { intros j. rewrite Hh1. pose proof (pooled_le s i j Hi). case_decide; [subst; lia|done]. }
  { apply I1. }
  set (s' := hold _ _).
  assert (Hent : ∀ j k, entry s' j k = if decide (j = i) then (<[key := next s]> (entries sh1)) !! k
                                        else entry s j k).
  { intros j k. unfold entry, s'. change (shard (hold _ ?w) j) with (shard (set_shard i sh2 h2 s) j).
    rewrite shard_set_shard. case_decide; [by rewrite He2|done]. }
  assert (Hold : ∀ j k id, entry s' j k = Some id → (j = i ∧ k = key ∧ id = next s) ∨ entry s j k = Some id).
  { intros j k id. rewrite Hent. case_decide; [subst j|by right].
    rewrite lookup_insert_Some, He1. naive_solver. }
  assert (Hinv : slots_inv s').
  { split; [|split; [|split; [|split]]].
    - intros j. change (shard s' j) with (shard (set_shard i sh2 h2 s) j). rewrite shard_set_shard.
      case_decide; [by apply Hok2|apply I1].
    - intros j k id Hj. change (next s') with (S (next s)).
      apply Hold in Hj as [(-> & -> & ->)|Hj]; [split; [done|lia]|]. apply I2 in Hj as [-> ?]. split; [done|lia].
    - intros j j' k k' id Hj Hj'. apply Hold in Hj as [(-> & -> & ->)|Hj]; apply Hold in Hj' as [(-> & -> & Hid)|Hj'].
      + done.
      + apply I2 in Hj'. lia.
      + apply I2 in Hj. lia.
      + by eapply (I3 j j').
    - intros id. change (heap s') with h2. destruct (Hb id) as (B1 & B2 & B3). rewrite Hh1 in B1.
      assert (Hho : holders s' id = if decide (id = next s) then S (holders s id) else holders s id).
      { unfold s', hold, holders. simpl. case_decide; [subst; by rewrite lookup_insert_eq|].
        by rewrite lookup_insert_ne. }
      assert (Hsh : ∀ j, shard s' j = if decide (j = i) then sh2 else shard s j).
      { intros j. change (shard s' j) with (shard (set_shard i sh2 h2 s) j). apply shard_set_shard. }
      rewrite Hho. case_decide as Hid.
      + subst id. exists i. rewrite Hsh, decide_True by done. rewrite Hpn in B1.
        assert (holders s (next s) = 0%nat) by (destruct (I4 (next s)) as (j & Hs & _); lia).
        split; [lia|]. intros j Hj. by rewrite Hsh, decide_False.
      + destruct (I4 id) as (j & Hs & Hj). exists j. specialize (B3 Hid).
        split; [|intros j' Hj'; rewrite Hsh; case_decide as Hji; [subst|by apply Hj]];
          [rewrite Hsh; case_decide as Hji; [subst; lia|]|].
        * rewrite (Hj i) in B1, B3 by done. lia.
        * rewrite (Hj i) in B3 by done. lia.
    - intros id. change (next s') with (S (next s)). intros Hid. change (heap s') with h2.
      destruct (Hb id) as (_ & B2 & _). rewrite Hh1, decide_False in B2 by lia.
      rewrite I5 in B2 by lia. assert (id ≠ next s) by lia. specialize (B2 ltac:(done)). lia. }
  split; [exact Hinv|]. split; [|split].
  - intros k id [Hid Hs]. split; [change (next s') with (S (next s)); lia|].
    destruct (Hb id) as (_ & B2 & _). rewrite Hh1, decide_False in B2 by lia. specialize (B2 ltac:(lia)).
    change (heap s') with h2. rewrite Hent.
    destruct (decide (strong_count (heap s) id = 0%nat)) as [Hz|Hz]; [right; lia|].
    destruct Hs as [Hs|Hs]; [|done]. case_decide as Hr; [|by left]. rewrite Hr in Hs.
    destruct (decide (k = key)) as [->|Hne]; [by apply Hdead in Hs|].
    left. rewrite lookup_insert_ne by done. apply He1. split; [done|by left].
  - split; [change (next s') with (S (next s)); lia|]. left. rewrite Hent.
    by rewrite decide_True, lookup_insert_eq.
  - rewrite Hent. by rewrite decide_True, lookup_insert_eq.
Qed.

Lemma holders_hold id s : (0 < holders (hold id s) id)%nat.
Proof. unfold holders at 1, hold. simpl. rewrite lookup_insert_eq. simpl. lia. Qed.

Lemma held_alive s id : slots_inv s → (0 < holders s id)%nat → strong_count (heap s) id ≠ 0%nat.
Proof. intros (_ & _ & _ & I4 & _) Hh. destruct (I4 id) as (i & Hs & _). lia. Qed.

Lemma lookup_spec s key :
  slots_inv s →
  let '(id, s') := lookup hash s key in
  slots_inv s' ∧ (∀ k j, serves s k j → serves s' k j) ∧
  serves s' key id ∧ entry s' (route hash key) key = Some id ∧
  (0 < holders s' id)%nat ∧
  (∀ j, serves s key j → strong_count (heap s) j ≠ 0%nat → id = j).
Proof.
  intros Hi. unfold lookup.
  destruct (entries (shard s (route hash key)) !! key ≫= _) as [[id h]|] eqn:Hl.
  - apply bind_Some in Hl as (id' & He & Hu).
    apply fmap_Some in Hu as (h' & [Hs ->]%upgrade_Some & [= -> ->]).
    assert (id' < next s)%nat as Hid by (destruct Hi as (_ & I2 & _); by eapply I2).
    split; [by apply slots_inv_gain|]. split; [|split; [|split; [done|split; [apply holders_hold|]]]].
    + intros k j Hj. eapply serves_count; [..|exact Hj]; try done. simpl. rewrite strong_incr.
      case_decide; [subst; lia|done].
    + split; [done|]. left. exact He.
    + intros j [_ [Hj|Hj]] Hz; [|done]. unfold entry in Hj. congruence.
  - assert (Hdead : ∀ id, entry s (route hash key) key = Some id → strong_count (heap s) id = 0%nat).
    { intros id He. apply upgrade_None. unfold entry in He. rewrite He in Hl. simpl in Hl.
      by destruct (upgrade (heap s) id). }
    pose proof (lookup_miss s key Hi Hdead) as Hm.
    destruct (SlotShard.clean _ _ _) as [sh1 n]. destruct (SlotShard.create _ _ _ _) as [sh2 h2].
    destruct Hm as (H1 & H2 & H3 & H4). split; [done|]. split; [done|]. split; [done|]. split; [done|].
    split; [apply holders_hold|]. intros j [_ [Hj|Hj]] Hz; [by apply Hdead in Hj|done].
Qed.

Lemma apply_op_inv s op s' :
  slots_inv s → apply_op hash s op = Some s' →
  slots_inv s' ∧ ∀ k id, serves s k id → serves s' k id.
Proof.
  intros Hi Ha. destruct op as [key|id|id|budget free]; simpl in Ha.
  - pose proof (lookup_spec s key Hi) as Hl. destruct (lookup hash s key) as [id s1].
    injection Ha as <-. simpl. naive_solver.
  - unfold clone_handle in Ha. destruct (holders s id) as [|n] eqn:Hn; simplify_eq.
    pose proof Hi as (_ & _ & _ & I4 & I5). destruct (I4 id) as (i & Hs & _).
    assert (id < next s)%nat by (destruct (decide (id < next s)%nat); [done|]; rewrite I5 in *; lia).
    split; [by apply slots_inv_gain|]. intros k j Hj. eapply serves_count; [..|exact Hj]; try done.
    simpl. rewrite strong_incr. case_decide; [subst; lia|done].
  - unfold drop_handle in Ha. destruct (holders s id) as [|n] eqn:Hn; simplify_eq.
    split; [by apply slots_inv_drop|]. intros k j Hj. eapply serves_count; [..|exact Hj]; try done.
    simpl. rewrite strong_decr. case_decide; [subst; lia|done].
  - simplify_eq. split; [by apply slots_inv_clean|]. intros k id. by apply serves_clean.
Qed.

Lemma locking_execute_inv s ops s' :
  slots_inv s → execute hash s ops = Some s' →
  slots_inv s' ∧ ∀ k id, serves s k id → serves s' k id.
Proof.
  revert s. induction ops as [|op ops IH]; intros s Hi; simpl; [by intros [= <-]|].
  intros (s1 & Ha & He)%bind_Some. apply apply_op_inv in Ha as [H1 H2]; [|done].
  apply IH in He as [H3 H4]; [|done]. auto.
Qed.

Lemma slots_inv_new p : slots_inv (slots p).
Proof.
  assert (∀ i, shard (slots p) i = new_shard p) as Hsh by (intros; reflexivity).
  split; [|split; [|split; [|split]]]; unfold entry; try setoid_rewrite Hsh.
  - intros _. split; [constructor|]. split; [|destruct p; simpl; lia].
    intros k. simpl. split; [by intros H%elem_of_nil|]. by intros [? ?].
  - done.
  - done.
  - intros id. exists 0. by destruct p.
  - done.
Qed.
End inv.
End LockingInv.

(** ** What the slots promise *)
Module LockingTheorems.
Import LockingInv.

(** One key, one control. Take any sequence of lookups, clones and drops
    of handles and sweeps on a fresh map. If a lookup of [key] returned the
    control [id] and, after any further operations, some handle of [id] is
    still held, then a lookup of [key] returns [id] again: neither a sweep nor
    the eviction of the idle pool replaces a control that a holder or waiter
    uses. And a control never serves two keys. *)
Theorem live_control_is_stable hash p ops s key ops' s2 key' :
  execute hash (slots p) ops = Some s →
  execute hash (lookup hash s key).2 ops' = Some s2 →
  (0 < holders s2 (lookup hash s key).1)%nat →
  (lookup hash s2 key).1 = (lookup hash s key).1 ∧
  ((lookup hash s2 key').1 = (lookup hash s key).1 → key' = key).
Proof.
  intros [Hi _]%locking_execute_inv He Hh; [|apply slots_inv_new].
  pose proof (lookup_spec hash s key Hi) as Hl. destruct (lookup hash s key) as [id s1]. simpl in *.
  destruct Hl as (Hi1 & _ & Hs1 & _). apply locking_execute_inv in He as [Hi2 Hs2]; [|done].
  specialize (Hs2 key id Hs1).
  assert (strong_count (heap s2) id ≠ 0%nat) as Hz by by apply (held_alive hash).
  split.
  - pose proof (lookup_spec hash s2 key Hi2) as Hl2. destruct (lookup hash s2 key) as [id2 s3].
    simpl. by apply Hl2.
  - pose proof (lookup_spec hash s2 key' Hi2) as Hl2. destruct (lookup hash s2 key') as [id2 s3].
    simpl. intros ->. destruct Hl2 as (Hi3 & Hs3 & _ & Hent & Hh3 & _).
    destruct (Hs3 key id Hs2) as [_ [Hk|Hk]].
    + destruct Hi3 as (_ & _ & I3 & _). by eapply I3.
    + by apply (held_alive hash) in Hh3.
Qed.

(** A hash for the witnesses: every key in one shard. *)
Definition one_shard (key : string) : Z := 5.
Definition used : WeakSlots :=
  default (slots Reuse) (execute one_shard (slots Reuse) [Lookup "a"; Lookup "b"; DropHandle 0]).

Lemma live_control_is_stable_witness :
  execute one_shard (slots Reuse) [Lookup "a"; Lookup "b"; DropHandle 0] = Some used ∧
  (lookup one_shard used "c").1 = 2%nat ∧
  (0 < holders (default used (execute one_shard (lookup one_shard used "c").2
         [Clean 9 (λ _, true); Lookup "d"])) 2)%nat ∧
  (lookup one_shard (default used (execute one_shard (lookup one_shard used "c").2
         [Clean 9 (λ _, true); Lookup "d"])) "c").1 = 2%nat.
Proof.
  split; [vm_compute; reflexivity|]. split; [vm_compute; reflexivity|].
  split; [vm_compute; lia|].
  refine (proj1 (live_control_is_stable one_shard Reuse [Lookup "a"; Lookup "b"; DropHandle 0] used "c"
    [Clean 9 (λ _, true); Lookup "d"] _ "a" _ _ _));
    [vm_compute; reflexivity|vm_compute; reflexivity|vm_compute; lia].
Defined.

(** The slots are bounded by use. After any operations, a shard's sweep
    queue lists exactly the keys of its slots, each once, its pool holds at
    most sixteen controls, and the strong count of every control is the number
    of handles held plus its occurrences in the one pool that retains it. A
    sweep of a whole shard keeps exactly the slots whose control is alive; a
    partial sweep never removes a live one. *)
Theorem slots_are_accounted hash p ops s i budget h :
  execute hash (slots p) ops = Some s →
  NoDup (sweep (shard s i)) ∧
  (∀ k, k ∈ sweep (shard s i) ↔ is_Some (entries (shard s i) !! k)) ∧
  (length (retained (controls (shard s i))) ≤ RETAINED_CONTROLS_PER_SHARD)%nat ∧
  (∀ id, ∃ home, strong_count (heap s) id = (holders s id + pooled id (controls (shard s home)))%nat ∧
                 ∀ j, j ≠ home → pooled id (controls (shard s j)) = 0%nat) ∧
  (let '(sh, count) := SlotShard.clean (shard s i) budget h in
   (count ≤ budget)%nat ∧
   (∀ k id, entries (shard s i) !! k = Some id → strong_count h id ≠ 0%nat → entries sh !! k = Some id) ∧
   ((length (sweep (shard s i)) ≤ budget)%nat → ∀ k id,
      entries sh !! k = Some id ↔ entries (shard s i) !! k = Some id ∧ strong_count h id ≠ 0%nat)).
Proof.
  intros [(I1 & _ & _ & I4 & _) _]%locking_execute_inv; [|apply slots_inv_new].
  destruct (I1 i) as (Hnd & Hk & Hl). do 4 (split; [done|]). unfold SlotShard.clean.
  destruct (clean_steps_spec (min budget (length (sweep (shard s i)))) (shard s i) h (I1 i))
    as (_ & _ & He); [lia|].
  split; [lia|]. split.
  - intros k id Hk' Hs. apply He. split; [done|by left].
  - intros Hb k id. rewrite He, take_ge by lia. rewrite Hk.
    split; [|naive_solver]. intros [Hk' [Hs|Hn]]; [done|]. destruct Hn. eauto.
Qed.

Lemma slots_are_accounted_witness :
  execute one_shard (slots Reuse) [Lookup "a"; Lookup "b"; DropHandle 0] = Some used ∧
  sweep (shard used 5) = ["a"; "b"]%string ∧ NoDup (sweep (shard used 5)).
Proof.
  split; [vm_compute; reflexivity|]. split; [vm_compute; reflexivity|].
  apply (slots_are_accounted one_shard Reuse [Lookup "a"; Lookup "b"; DropHandle 0] used 5 4 (heap used)).
  vm_compute. reflexivity.
Defined.
End LockingTheorems.
