(* ===== verification/Recovery.v ===== *)
(** * Exact-identity recovery

    Models [src/src/recovery.rs] and [src/src/recovery/marker_snapshots.rs]:
    the work captured when a storage or publication stage fails, the bounded
    queue that retains it under identities used once, and the effect each
    outcome of a replay has on it.

    The queue is guarded by one mutex, so every method is one step; a replay
    is the step that claims a ticket and, later, the step that reports its
    outcome, with any other steps in between. Commit fences are used through
    the interface [RecoveryFence]; the worker task and its executor belong to
    the runtime. *)
From S2P Require Import Prelude Time Options Tags Backplane Invalidation Lanes.

(** [RecoveryError], as far as the modelled operations raise it. *)
Inductive RecoveryError :=
| GenerationExhausted
| IdentityExhausted
| ZeroDelay
| InvalidBarrier
| ExecutorAlreadyConfigured
| Stopped
| UnsupportedMarkerExecutor
| SnapshotWritesSkipped
| MarkerIdentityChanged
| InvalidMarkerStage
| InvalidOptions.

(** ** The interface to commit lanes *)
Class RecoveryFence (F Env : Type) := {
  fence_generation : F → Z;
  fence_is_current : Env → F → bool;
}.

(** [impl RecoveryFence for Fence]: the environment is the lanes' state. *)
#[export] Instance lane_fence : RecoveryFence Fences.Fence (nat → Fences.KeyLane) := {|
  fence_generation := Fences.captured;
  fence_is_current lanes f := Fences.is_current f (lanes (Fences.lane f));
|}.

Module OperationGeneration.
Definition next (self : Z) : result RecoveryError Z :=
  match checked_add_u64 self 1 with Some g => Ok g | None => Err GenerationExhausted end.
End OperationGeneration.

(** ** Captured work *)
Inductive RecoveryAction := RA_Set | RA_Remove | RA_Expire.

Record RecoveryItem := mkItem {
  item_key : string;
  item_action : RecoveryAction;
  item_timestamp : Timestamp;
  item_expires_at : Timestamp;
  item_remaining_retries : option Z;
}.

Inductive DataMutation :=
| DM_Set (bytes : list Init.Byte.byte) (physical_expiration : Timestamp)
| DM_Remove
| DM_Expire (bytes : list Init.Byte.byte) (physical_expiration : Timestamp).

Definition remaining_ttl (self : DataMutation) (now : Timestamp) : option Duration :=
  match self with
  | DM_Set _ physical | DM_Expire _ physical => Some (saturating_duration_since physical now)
  | DM_Remove => None
  end.

Inductive PendingMutation :=
| PM_Legacy
| PM_Commit (mutation : DataMutation) (notification : option BackplaneCommand)
| PM_FencedCommit (mutation : DataMutation) (notification : option BackplaneCommand)
| PM_ColdExpire (logical_expiration : Timestamp) (notification : option BackplaneCommand)
| PM_Notify (command : BackplaneCommand).

Inductive MarkerReplay := AdvanceOnly | AdvanceAndNotify | NotifyOnly.

Inductive MarkerSnapshotParticipation := Unleased | Fenced | Cooperative.

Record MarkerSnapshotReplay := mkSnapshotReplay {
  replay_scope : CacheScope;
  replay_kind : MarkerKind;
  replay_snapshot : MarkerSnapshot;
  replay_options : EntryOptions;
  replay_participation : MarkerSnapshotParticipation;
}.

Definition validated {A} (options : EntryOptions) (a : A) : result RecoveryError A :=
  match EntryOptions.validate options with
  | Err _ => Err InvalidOptions
  | Ok _ => if EntryOptions.skip_distributed_write options then Err SnapshotWritesSkipped else Ok a
  end.

Definition snapshot_replay_capture scope kind snapshot options participation
    : result RecoveryError MarkerSnapshotReplay :=
  validated options (mkSnapshotReplay scope kind snapshot options participation).

Inductive MarkerMutationPhase :=
| MP_Advance (options : EntryOptions) (snapshot : MarkerSnapshot)
| MP_Populate (options : EntryOptions) (snapshot : MarkerSnapshot) (additional : list MarkerCommand)
| MP_Notify (additional : list MarkerCommand).

#[warnings="-register-all"]
Inductive MarkerMutationRecovery :=
| mkMutation (command : MarkerCommand) (phase : MarkerMutationPhase)
    (compaction : option MarkerMutationRecovery).

Module MarkerMutation.
Definition command (self : MarkerMutationRecovery) : MarkerCommand := let '(mkMutation c _ _) := self in c.
Definition stage (self : MarkerMutationRecovery) : MarkerMutationPhase := let '(mkMutation _ p _) := self in p.
Definition pending_compaction (self : MarkerMutationRecovery) : option MarkerMutationRecovery :=
  let '(mkMutation _ _ c) := self in c.

Definition scope_of (self : MarkerMutationRecovery) : CacheScope := cmd_scope (command self).
Definition kind_of (self : MarkerMutationRecovery) : MarkerKind := kind (cmd_marker (command self)).
Definition version_of (self : MarkerMutationRecovery) : MarkerVersion := stored_version (cmd_marker (command self)).

Definition is_advance (p : MarkerMutationPhase) : bool := match p with MP_Advance _ _ => true | _ => false end.
Definition is_notify (p : MarkerMutationPhase) : bool := match p with MP_Notify _ => true | _ => false end.

Definition with_compaction (self : MarkerMutationRecovery) (child : option MarkerMutationRecovery)
    : result RecoveryError MarkerMutationRecovery :=
  let bad c :=
    negb (CacheScope.eqb (scope_of c) (scope_of self))
    || bool_decide (kind_of c ≠ MK_ClearRemove)
    || bool_decide (is_Some (pending_compaction c))
    || is_advance (stage c) in
  if from_option bad false child then Err MarkerIdentityChanged
  else Ok (mkMutation (command self) (stage self) child).

Definition completed_compaction (self : MarkerMutationRecovery) : option MarkerMutationRecovery :=
  match stage self with
  | MP_Advance _ _ => None
  | MP_Populate options snapshot additional =>
      c ← head additional;
      Some (mkMutation c
        (MP_Populate options
           (MarkerSnapshot.fresh (stored_version (cmd_marker c)) options (snap_created snapshot)) []) None)
  | MP_Notify additional => c ← head additional; Some (mkMutation c (MP_Notify []) None)
  end.

(** The order of [max_by_key]: revision, then whether only publication is left. *)
Definition debt_le (a b : MarkerMutationRecovery) : bool :=
  (version_of a <? version_of b)
  || ((version_of a =? version_of b) && implb (is_notify (stage a)) (is_notify (stage b))).

(** [max_by_key] returns the last of the greatest elements. *)
Definition max_debt (l : list MarkerMutationRecovery) : option MarkerMutationRecovery :=
  fold_left (λ acc x,
    match acc with
    | None => Some x
    | Some best => if debt_le best x then Some x else Some best
    end) l None.

Definition debts (self previous : MarkerMutationRecovery) : list MarkerMutationRecovery :=
  option_list (completed_compaction previous)
  ++ option_list (pending_compaction previous) ++ option_list (pending_compaction self).

Definition inherit_compaction (self previous : MarkerMutationRecovery)
    : result RecoveryError MarkerMutationRecovery :=
  with_compaction self (max_debt (debts self previous)).

Definition committed_notification (command : MarkerCommand) : MarkerMutationRecovery :=
  mkMutation command (MP_Notify []) None.

Definition capture (command : MarkerCommand) (options : EntryOptions) (created : Timestamp)
    : result RecoveryError MarkerMutationRecovery :=
  validated options
    (mkMutation command
       (MP_Advance options (MarkerSnapshot.fresh (stored_version (cmd_marker command)) options created)) None).

Definition population (self : MarkerMutationRecovery) (c : MarkerCommand) (additional : list MarkerCommand)
    : result RecoveryError MarkerMutationRecovery :=
  if negb (CacheScope.eqb (scope_of self) (cmd_scope c))
     || bool_decide (kind_of self ≠ kind (cmd_marker c))
     || (stored_version (cmd_marker c) <? version_of self) then Err MarkerIdentityChanged
  else if (1 <? length additional)%nat
     || negb (bool_decide (additional = [])) && bool_decide (kind (cmd_marker c) = MK_ClearRemove)
  then Err MarkerIdentityChanged
  else if existsb (λ other, negb (CacheScope.eqb (cmd_scope other) (cmd_scope c))
                            || bool_decide (kind (cmd_marker other) ≠ MK_ClearRemove)) additional
  then Err MarkerIdentityChanged
  else match stage self with
       | MP_Advance options snapshot =>
           Ok (mkMutation c
                 (MP_Populate options
                    (MarkerSnapshot.with_maximum snapshot (Some (stored_version (cmd_marker c)))) additional)
                 (pending_compaction self))
       | _ => Err InvalidMarkerStage
       end.

Definition notification (self : MarkerMutationRecovery) : result RecoveryError MarkerMutationRecovery :=
  match stage self with
  | MP_Populate options _ additional =>
      if EntryOptions.skip_backplane_notifications options then Err InvalidMarkerStage
      else Ok (mkMutation (command self) (MP_Notify additional) (pending_compaction self))
  | _ => Err InvalidMarkerStage
  end.
End MarkerMutation.

Inductive RecoveryWork :=
| RW_Data (item : RecoveryItem) (mutation : PendingMutation)
| RW_Marker (command : MarkerCommand) (stage : MarkerReplay)
| RW_MarkerMutation (work : MarkerMutationRecovery)
| RW_MarkerSnapshot (work : MarkerSnapshotReplay).

(** Scopes are keyed by their physical names, by which they are equal and
    hash. *)
Inductive RecoveryKey :=
| RK_Data (key : string)
| RK_Marker (scope : ScopeKey) (kind : MarkerKind)
| RK_MarkerSnapshot (scope : ScopeKey) (kind : MarkerKind).

#[export] Instance RecoveryKey_eq_dec : EqDecision RecoveryKey.
Proof. solve_decision. Defined.
#[export] Instance RecoveryKey_countable : Countable RecoveryKey.
Proof.
  refine (inj_countable' (λ k, match k with
    | RK_Data s => inl s | RK_Marker s k => inr (inl (s, k)) | RK_MarkerSnapshot s k => inr (inr (s, k)) end)
    (λ x, match x with
    | inl s => RK_Data s | inr (inl (s, k)) => RK_Marker s k | inr (inr (s, k)) => RK_MarkerSnapshot s k end) _).
  by intros [].
Defined.

Module RecoveryWork.
Definition item (self : RecoveryWork) : option RecoveryItem :=
  match self with RW_Data item _ => Some item | _ => None end.

Definition key (self : RecoveryWork) : RecoveryKey :=
  match self with
  | RW_Data item _ => RK_Data (item_key item)
  | RW_Marker command _ => RK_Marker (scope_key (cmd_scope command)) (kind (cmd_marker command))
  | RW_MarkerMutation work => RK_Marker (scope_key (MarkerMutation.scope_of work)) (MarkerMutation.kind_of work)
  | RW_MarkerSnapshot work => RK_MarkerSnapshot (scope_key (replay_scope work)) (replay_kind work)
  end.

Definition timestamp (self : RecoveryWork) : Timestamp :=
  match self with
  | RW_Data item _ => item_timestamp item
  | RW_Marker command _ => stored_version (cmd_marker command)
  | RW_MarkerMutation work => MarkerMutation.version_of work
  | RW_MarkerSnapshot work => snap_version (replay_snapshot work)
  end.

Definition expires_at (self : RecoveryWork) : option Timestamp :=
  match self with
  | RW_Data item _ => Some (item_expires_at item)
  | RW_Marker _ _ | RW_MarkerMutation _ => None
  | RW_MarkerSnapshot work => Some (snap_physical (replay_snapshot work))
  end.

Definition supersedes (self previous : RecoveryWork) : bool :=
  match self with
  | RW_MarkerSnapshot work =>
      match previous with
      | RW_MarkerSnapshot previous => MarkerSnapshot.supersedes (replay_snapshot work) (replay_snapshot previous)
      | _ => false
      end
  | _ => timestamp previous <? timestamp self
  end.
End RecoveryWork.

Record RecoveryConfig := mkConfig {
  enabled : bool;
  delay : Duration;
  max_items : option N;
  max_retries : option Z;
}.
Definition config_default : RecoveryConfig := mkConfig true (from_secs 5) (Some 1024%N) None.

Inductive ReplayOutcome := RO_Paused | RO_Applied | RO_Superseded | RO_Expired.
Inductive EnqueueOutcome :=
| EO_Queued (id : Z) | EO_Replaced (id : Z) | EO_Superseded | EO_Disabled | EO_CapacityRejected | EO_Expired.
Inductive SupersedeOutcome := SO_Removed | SO_Unchanged.
Inductive RecoveryStageTransition := ST_Advanced | ST_Unchanged | ST_Superseded.
Inductive AttemptState := Pending | InFlight.

(** ** The queue *)
Section service.
Context {F Env : Type} `{!RecoveryFence F Env}.

Record ReplayTicket := mkTicket {
  ticket_id : Z;
  ticket_work : RecoveryWork;
  ticket_generation : Z;
  ticket_fence : option F;
}.
Record Queued := mkQueued {
  queued_ticket : ReplayTicket;
  queued_remaining : option Z;
  queued_state : AttemptState;
}.
Record Service := mkService {
  config : RecoveryConfig;
  entries : gmap RecoveryKey Queued;
  next_id : option Z;
  stopped : bool;
}.
#[local] Instance eta_ReplayTicket : Eta ReplayTicket := λ t,
  mkTicket (ticket_id t) (ticket_work t) (ticket_generation t) (ticket_fence t).
#[local] Instance eta_Queued : Eta Queued := λ q,
  mkQueued (queued_ticket q) (queued_remaining q) (queued_state q).
#[local] Instance eta_Service : Eta Service := λ s,
  mkService (config s) (entries s) (next_id s) (stopped s).

(** [Instant::now().checked_add(delay)] is [barrier]. *)
Definition try_new (config : RecoveryConfig) (barrier : option Z) : result RecoveryError Service :=
  if enabled config && is_zero (delay config) then Err ZeroDelay
  else if enabled config && negb (bool_decide (is_Some barrier)) then Err InvalidBarrier
  else Ok (mkService config ∅ (Some 1) false).

Definition len (self : Service) : nat := size (entries self).

Definition fence_is_current_of (env : Env) (t : ReplayTicket) : bool :=
  match ticket_fence t with
  | None => true
  | Some f => (fence_generation f =? ticket_generation t) && fence_is_current env f
  end.

Definition ticket_key (t : ReplayTicket) : RecoveryKey := RecoveryWork.key (ticket_work t).

(** The entry of exactly this ticket. *)
Definition exact (self : Service) (t : ReplayTicket) : option Queued :=
  match entries self !! ticket_key t with
  | Some q => if ticket_id (queued_ticket q) =? ticket_id t then Some q else None
  | None => None
  end.

Definition is_current (env : Env) (self : Service) (t : ReplayTicket) : bool :=
  fence_is_current_of env t && bool_decide (is_Some (exact self t)).

(** *** Admission *)

(** The existing entry rejects older work. *)
Definition is_older (generation : option Z) (work : RecoveryWork) (existing : ReplayTicket) : bool :=
  match generation, ticket_fence existing with
  | Some g, Some _ => g <=? ticket_generation existing
  | _, _ => negb (RecoveryWork.supersedes work (ticket_work existing))
  end.

(** Newer marker work takes over the compaction its predecessor owed. *)
Definition inherit (work : RecoveryWork) (existing : RecoveryWork) : result RecoveryError RecoveryWork :=
  match existing, work with
  | RW_MarkerMutation previous, RW_MarkerMutation next =>
      RW_MarkerMutation <$> MarkerMutation.inherit_compaction next previous
  | RW_MarkerMutation previous, RW_Marker command NotifyOnly =>
      next ← MarkerMutation.inherit_compaction (MarkerMutation.committed_notification command) previous;
      Ok (if bool_decide (is_Some (MarkerMutation.pending_compaction next))
          then RW_MarkerMutation next else work)
  | _, _ => Ok work
  end.

(** [min_by_key] over the entries that expire, in the table's order. *)
Definition min_by_expiry (l : list (RecoveryKey * Queued)) : option (RecoveryKey * Timestamp) :=
  fold_left (λ acc x,
    match RecoveryWork.expires_at (ticket_work (queued_ticket x.2)) with
    | None => acc
    | Some e =>
        match acc with
        | None => Some (x.1, e)
        | Some best => if e <? best.2 then Some (x.1, e) else Some best
        end
    end) l None.

(** The capacity check: what is left of the table, or nothing if the work
    cannot be admitted. *)
Definition make_room (iter : gmap RecoveryKey Queued → list (RecoveryKey * Queued)) (limit : option N)
    (work : RecoveryWork) (m : gmap RecoveryKey Queued) : gmap RecoveryKey Queued * bool :=
  match limit with
  | Some limit =>
      if (limit <=? N.of_nat (size m))%N then
        let bound := default timestamp_MAX (RecoveryWork.expires_at work) in
        let m := match min_by_expiry (iter m) with
                 | Some (victim, expiry) => if expiry <? bound then delete victim m else m
                 | None => m
                 end in
        (m, negb (limit <=? N.of_nat (size m))%N)
      else (m, true)
  | None => (m, true)
  end.

Definition budget (config : RecoveryConfig) (work : RecoveryWork) : option Z :=
  let retries := match RecoveryWork.item work ≫= item_remaining_retries with
                 | Some r => Some r
                 | None => max_retries config
                 end in
  (λ r, r + 1) <$> retries.

Definition enqueue_work (iter : gmap RecoveryKey Queued → list (RecoveryKey * Queued))
    (env : Env) (now : Timestamp) (self : Service) (work : RecoveryWork) (fence : option F)
    : result RecoveryError EnqueueOutcome * Service :=
  if negb (enabled (config self)) then (Ok EO_Disabled, self)
  else if stopped self then (Err Stopped, self)
  else if from_option (λ e, e <=? now) false (RecoveryWork.expires_at work) then (Ok EO_Expired, self)
  else if from_option (λ f, negb (fence_is_current env f)) false fence then (Ok EO_Superseded, self)
  else
    let remaining := budget (config self) work in
    let key := RecoveryWork.key work in
    let generation := fence_generation <$> fence in
    let existing := entries self !! key in
    if from_option (λ q, is_older generation work (queued_ticket q)) false existing
    then (Ok EO_Superseded, self)
    else
      match from_option (λ q, inherit work (ticket_work (queued_ticket q))) (Ok work) existing with
      | Err e => (Err e, self)
      | Ok work =>
          let '(m, admitted) :=
            match existing with
            | Some _ => (entries self, true)
            | None => make_room iter (max_items (config self)) work (entries self)
            end in
          let self := self <| entries := m |> in
          if negb admitted then (Ok EO_CapacityRejected, self)
          else match next_id self with
               | None => (Err IdentityExhausted, self)
               | Some id =>
                   let ticket := mkTicket id work (default id generation) fence in
                   (Ok match existing with Some _ => EO_Replaced id | None => EO_Queued id end,
                    self <| next_id := checked_add_u64 id 1 |>
                         <| entries := <[key := mkQueued ticket remaining Pending]> m |>)
               end
      end.

(** *** Supersession and completion *)
Definition supersede_through (self : Service) (key : string) (generation : Z) : SupersedeOutcome * Service :=
  match entries self !! RK_Data key with
  | Some q =>
      if ticket_generation (queued_ticket q) <=? generation
      then (SO_Removed, self <| entries := delete (RK_Data key) (entries self) |>)
      else (SO_Unchanged, self)
  | None => (SO_Unchanged, self)
  end.

Definition cancel_through (self : Service) (key : string) (at_ : Timestamp) : SupersedeOutcome * Service :=
  match entries self !! RK_Data key with
  | Some q =>
      if RecoveryWork.timestamp (ticket_work (queued_ticket q)) <=? at_
      then (SO_Removed, self <| entries := delete (RK_Data key) (entries self) |>)
      else (SO_Unchanged, self)
  | None => (SO_Unchanged, self)
  end.

Definition complete (self : Service) (t : ReplayTicket) : SupersedeOutcome * Service :=
  match exact self t with
  | Some _ => (SO_Removed, self <| entries := delete (ticket_key t) (entries self) |>)
  | None => (SO_Unchanged, self)
  end.

Definition put (key : RecoveryKey) (q : Queued) (self : Service) : Service :=
  self <| entries := <[key := q]> (entries self) |>.

Definition record_failure (self : Service) (t : ReplayTicket) : Service :=
  match exact self t with
  | None => self
  | Some q =>
      match queued_remaining q with
      | Some r =>
          if (r =? 0) || (r =? 1) then self <| entries := delete (ticket_key t) (entries self) |>
          else put (ticket_key t) (q <| queued_remaining := Some (r - 1) |> <| queued_state := Pending |>) self
      | None => put (ticket_key t) (q <| queued_state := Pending |>) self
      end
  end.

(** The drop of an unfinished [ReplayClaim]. *)
Definition unclaim (self : Service) (t : ReplayTicket) : Service :=
  match exact self t with
  | None => self
  | Some q => put (ticket_key t) (q <| queued_state := Pending |>) self
  end.

(** *** Stages *)
Definition next_stage (work : RecoveryWork) : option RecoveryWork :=
  match work with
  | RW_Data item (PM_Commit _ (Some command) | PM_FencedCommit _ (Some command) | PM_ColdExpire _ (Some command)) =>
      Some (RW_Data item (PM_Notify command))
  | RW_Data _ _ => None
  | RW_Marker command AdvanceAndNotify => Some (RW_Marker command NotifyOnly)
  | RW_Marker _ _ => None
  | RW_MarkerMutation work =>
      match MarkerMutation.stage work with
      | MP_Populate options _ _ =>
          if negb (EntryOptions.skip_backplane_notifications options) then
            match MarkerMutation.notification work with
            | Ok next => Some (RW_MarkerMutation next)
            | Err _ => None
            end
          else None
      | _ => None
      end
  | RW_MarkerSnapshot _ => None
  end.

Definition set_work (q : Queued) (work : RecoveryWork) : Queued :=
  q <| queued_ticket := queued_ticket q <| ticket_work := work |> |>.

Definition notification_stage (self : Service) (t : ReplayTicket) : RecoveryStageTransition * Service :=
  match exact self t with
  | None => (ST_Superseded, self)
  | Some q =>
      match next_stage (ticket_work (queued_ticket q)) with
      | Some work => (ST_Advanced, put (ticket_key t) (set_work q work) self)
      | None => (ST_Unchanged, self)
      end
  end.

Definition marker_population_stage (self : Service) (t : ReplayTicket) (work : MarkerMutationRecovery)
    : RecoveryStageTransition * Service :=
  match exact self t with
  | None => (ST_Superseded, self)
  | Some q => (ST_Advanced, put (ticket_key t) (set_work q (RW_MarkerMutation work)) self)
  end.

(** *** Replay *)
Definition claim (self : Service) (key : RecoveryKey) : option ReplayTicket * Service :=
  match entries self !! key with
  | None => (None, self)
  | Some q =>
      match queued_state q with
      | InFlight => (None, self)
      | Pending => (Some (queued_ticket q), put key (q <| queued_state := InFlight |>) self)
      end
  end.

(** The start of one key's turn in [drain_once]: the claim, and the immediate
    completion of expired or superseded work. The ticket is replayed if one is
    returned. *)
Definition begin_replay (env : Env) (now : Timestamp) (self : Service) (key : RecoveryKey)
    : option ReplayTicket * Service :=
  match claim self key with
  | (None, self) => (None, self)
  | (Some t, self) =>
      if from_option (λ e, e <=? now) false (RecoveryWork.expires_at (ticket_work t))
         || negb (fence_is_current_of env t)
      then (None, (complete self t).2)
      else (Some t, self)
  end.

(** Its end: the outcome of the executor, or [None] when the replay was
    abandoned before it had one. *)
Definition end_replay (self : Service) (t : ReplayTicket) (outcome : option (option ReplayOutcome)) : Service :=
  match outcome with
  | None | Some (Some RO_Paused) => unclaim self t
  | Some (Some (RO_Applied | RO_Superseded | RO_Expired)) => (complete self t).2
  | Some None => record_failure self t
  end.

Definition stop (self : Service) : Service := self <| stopped := true |> <| entries := ∅ |>.
End service.
Arguments ReplayTicket : clear implicits.
Arguments Queued : clear implicits.
Arguments Service : clear implicits.
#[export] Existing Instance eta_ReplayTicket.
#[export] Existing Instance eta_Queued.
#[export] Existing Instance eta_Service.

(** ** Runs of the queue *)
Module RecoveryInv.
Section inv.
Context {F Env : Type} `{!RecoveryFence F Env}.
Context (iter : gmap RecoveryKey (Queued F) → list (RecoveryKey * Queued F)).

Inductive Op :=
| O_Enqueue (env : Env) (now : Timestamp) (work : RecoveryWork) (fence : option F)
| O_Supersede (key : string) (generation : Z)
| O_Cancel (key : string) (at_ : Timestamp)
| O_Complete (t : ReplayTicket F)
| O_Notified (t : ReplayTicket F)
| O_Populate (t : ReplayTicket F) (work : MarkerMutationRecovery)
| O_Begin (env : Env) (now : Timestamp) (key : RecoveryKey)
| O_End (t : ReplayTicket F) (outcome : option (option ReplayOutcome))
| O_Stop.

Definition apply_op (s : Service F) (op : Op) : Service F :=
  match op with
  | O_Enqueue env now work fence => (enqueue_work iter env now s work fence).2
  | O_Supersede key g => (supersede_through s key g).2
  | O_Cancel key at_ => (cancel_through s key at_).2
  | O_Complete t => (complete s t).2
  | O_Notified t => (notification_stage s t).2
  | O_Populate t work => (marker_population_stage s t work).2
  | O_Begin env now key => (begin_replay env now s key).2
  | O_End t outcome => end_replay s t outcome
  | O_Stop => stop s
  end.

Definition run (s : Service F) (ops : list Op) : Service F := fold_left apply_op ops s.

(** The identity at a key. *)
Definition id_at (s : Service F) (k : RecoveryKey) : option Z :=
  (λ q : Queued F, ticket_id (queued_ticket q)) <$> entries s !! k.

(** The first identity not yet drawn. *)
Definition bound (s : Service F) : Z := default (u64_max + 1) (next_id s).

(** An operation other than a successful admission only removes entries or
    changes them in place. *)
Definition shrinks (s s' : Service F) : Prop :=
  config s' = config s ∧ next_id s' = next_id s ∧
  (∀ k id, id_at s' k = Some id → id_at s k = Some id) ∧
  (size (entries s') ≤ size (entries s))%nat.

Lemma shrinks_refl s : shrinks s s.
Proof. by split. Qed.

Lemma shrinks_trans s1 s2 s3 : shrinks s1 s2 → shrinks s2 s3 → shrinks s1 s3.
Proof.
  intros (A1 & A2 & A3 & A4) (B1 & B2 & B3 & B4).
  split; [congruence|]. split; [congruence|]. split; [auto|lia].
Qed.

Lemma shrinks_delete s k : shrinks s (s <| entries := delete k (entries s) |>).
Proof.
  split; [done|]. split; [done|]. unfold id_at. simpl. split.
  - intros j id. destruct (decide (j = k)) as [->|]; [by rewrite lookup_delete_eq|].
    by rewrite lookup_delete_ne.
  - apply map_subseteq_size, delete_subseteq.
Qed.

Lemma shrinks_put s k q q' :
  entries s !! k = Some q → ticket_id (queued_ticket q') = ticket_id (queued_ticket q) →
  shrinks s (put k q' s).
Proof.
  intros Hk Hid. split; [done|]. split; [done|]. unfold id_at, put. simpl. split.
  - intros j id. destruct (decide (j = k)) as [->|].
    + rewrite lookup_insert_eq, Hk. simpl. congruence.
    + by rewrite lookup_insert_ne.
  - by rewrite map_size_insert_Some by eauto.
Qed.

Lemma exact_Some (s : Service F) t q :
  exact s t = Some q → entries s !! ticket_key t = Some q ∧ ticket_id (queued_ticket q) = ticket_id t.
Proof.
  unfold exact. destruct (entries s !! ticket_key t) as [q0|]; [|done].
  destruct (_ =? _) eqn:He; [|done]. intros [= ->]. by apply Z.eqb_eq in He.
Qed.

Lemma shrinks_exact_put s t (q q' : Queued F) :
  exact s t = Some q → ticket_id (queued_ticket q') = ticket_id (queued_ticket q) →
  shrinks s (put (ticket_key t) q' s).
Proof. intros [Hk _]%exact_Some. by apply shrinks_put. Qed.

Lemma shrinks_complete s t : shrinks s (complete s t).2.
Proof. unfold complete. destruct (exact s t); [apply shrinks_delete|apply shrinks_refl]. Qed.

Lemma shrinks_unclaim s t : shrinks s (unclaim s t).
Proof. unfold unclaim. destruct (exact s t) eqn:He; [by eapply shrinks_exact_put|apply shrinks_refl]. Qed.

Lemma shrinks_failure s t : shrinks s (record_failure s t).
Proof.
  unfold record_failure. destruct (exact s t) as [q|] eqn:He; [|apply shrinks_refl].
  destruct (queued_remaining q) as [r|]; [|by eapply shrinks_exact_put].
  destruct (_ || _); [apply shrinks_delete|by eapply shrinks_exact_put].
Qed.

Lemma shrinks_op s op :
  (∀ env now work fence, op ≠ O_Enqueue env now work fence) → shrinks s (apply_op s op).
Proof.
  intros Hne. destruct op as [env now work fence|key g|key at_|t|t|t work|env now key|t outcome|]; simpl.
  - by destruct (Hne env now work fence).
  - unfold supersede_through. destruct (entries s !! _); [|apply shrinks_refl].
    case_match; [apply shrinks_delete|apply shrinks_refl].
  - unfold cancel_through. destruct (entries s !! _); [|apply shrinks_refl].
    case_match; [apply shrinks_delete|apply shrinks_refl].
  - apply shrinks_complete.
  - unfold notification_stage. destruct (exact s t) eqn:He; [|apply shrinks_refl].
    destruct (next_stage _); [by eapply shrinks_exact_put|apply shrinks_refl].
  - unfold marker_population_stage. destruct (exact s t) eqn:He; [by eapply shrinks_exact_put|apply shrinks_refl].
  - assert (shrinks s (claim s key).2) as Hc.
    { unfold claim. destruct (entries s !! key) as [q|] eqn:Hk; [|apply shrinks_refl].
      destruct (queued_state q); [by eapply shrinks_put|apply shrinks_refl]. }
    unfold begin_replay. destruct (claim s key) as [[t|] s1]; [|done].
    destruct (_ || _); [|done]. eapply shrinks_trans; [done|apply shrinks_complete].
  - unfold end_replay. repeat case_match; try apply shrinks_complete; try apply shrinks_unclaim;
      apply shrinks_failure.
  - unfold stop. split; [done|]. split; [done|]. split; [by intros k id|]. simpl. rewrite map_size_empty. lia.
Qed.

Lemma make_room_spec limit work m :
  let '(m', admitted) := make_room iter limit work m in
  (m' = m ∨ ∃ k, m' = delete k m) ∧
  (admitted = true → ∀ l, limit = Some l → (N.of_nat (size m') < l)%N).
Proof.
  unfold make_room. destruct limit as [l|]; [|by split; [left|]].
  destruct (l <=? N.of_nat (size m))%N eqn:Hl; [|apply N.leb_gt in Hl; split; [by left|by intros _ ? [= <-]]].
  split.
  - destruct (min_by_expiry _) as [[v e]|]; [|by left]. destruct (e <? _); [by right; exists v|by left].
  - intros Ha%negb_true_iff%N.leb_gt l' [= <-]. exact Ha.
Qed.

Definition issued (r : result RecoveryError EnqueueOutcome) : option Z :=
  match r with Ok (EO_Queued id) | Ok (EO_Replaced id) => Some id | _ => None end.

(** What an admission does: refuse, removing at most one entry, or install one
    entry under the next identity, in a table with room for it. *)
Lemma enqueue_spec env now s work fence :
  let '(r, s') := enqueue_work iter env now s work fence in
  let key := RecoveryWork.key work in
  (issued r = None ∧ shrinks s s') ∨
  ∃ id s1 q, issued r = Some id ∧ next_id s = Some id ∧ shrinks s s1 ∧
    s' = s1 <| next_id := checked_add_u64 id 1 |> <| entries := <[key := q]> (entries s1) |> ∧
    ticket_id (queued_ticket q) = id ∧ queued_remaining q = budget (config s) work ∧
    (is_Some (entries s1 !! key) ∨
     ∀ l, max_items (config s) = Some l → (N.of_nat (size (entries s1)) < l)%N).
Proof.
  unfold enqueue_work. cbv zeta.
  do 5 match goal with |- context [if ?c then (_, s) else _] =>
    destruct c; [left; split; [done|apply shrinks_refl]|] end.
  set (key := RecoveryWork.key work). destruct (from_option _ (Ok work) _) as [work'|e] eqn:Hw;
    [|left; split; [done|apply shrinks_refl]].
  destruct (match entries s !! key with Some _ => _ | None => _ end) as [m admitted] eqn:Hroom.
  assert (Hm : shrinks s (s <| entries := m |>) ∧
    (admitted = true → is_Some (m !! key) ∨
      ∀ l, max_items (config s) = Some l → (N.of_nat (size m) < l)%N)).
  { destruct (entries s !! key) as [q|] eqn:Hk.
    - injection Hroom as <- <-. split; [by destruct s|]. left. rewrite Hk. eauto.
    - pose proof (make_room_spec (max_items (config s)) work' (entries s)) as Hr. rewrite Hroom in Hr.
      destruct Hr as [[->|[k ->]] Ha].
      + split; [by destruct s|]. intros ?. right. auto.
      + split; [apply shrinks_delete|]. intros ?. right. auto. }
  destruct Hm as [Hsh Hroom'].
  destruct admitted; simpl; [|left; by split].
  destruct (next_id s) as [id|] eqn:Hn; [|left; split; [done|]; rewrite <-Hn; exact Hsh].
  right. eexists id, (s <| entries := m |>), (mkQueued _ _ _). split; [by destruct (entries s !! key)|].
  split; [done|]. split; [exact Hsh|]. split; [reflexivity|]. split; [done|]. split; [done|]. by apply Hroom'.
Qed.

(** ** The invariant *)
Definition queue_inv (s : Service F) : Prop :=
  (∀ k id, id_at s k = Some id → 1 ≤ id < bound s) ∧
  (∀ k1 k2 id, id_at s k1 = Some id → id_at s k2 = Some id → k1 = k2) ∧
  (∀ l, max_items (config s) = Some l → (N.of_nat (size (entries s)) ≤ l)%N) ∧
  (∀ n, next_id s = Some n → 1 ≤ n ≤ u64_max).

Lemma queue_inv_shrinks s s' : queue_inv s → shrinks s s' → queue_inv s'.
Proof.
  intros (I1 & I2 & I3 & I4) (Hc & Hn & Hid & Hsz). unfold queue_inv, bound in *. rewrite Hc, Hn.
  split; [eauto|]. split; [eauto|]. split; [|done]. intros l Hl. specialize (I3 l Hl). lia.
Qed.

Lemma bound_shrinks s s' : shrinks s s' → bound s' = bound s.
Proof. intros (_ & Hn & _). unfold bound. by rewrite Hn. Qed.

Lemma bound_next s id : next_id s = Some id → id ≤ u64_max → bound s = id ∧ default (u64_max + 1) (checked_add_u64 id 1) = id + 1.
Proof.
  intros Hn Hle. unfold bound. rewrite Hn. split; [done|]. unfold checked_add_u64.
  destruct (id + 1 <=? u64_max) eqn:He; simpl; [done|]. apply Z.leb_gt in He. lia.
Qed.

Lemma id_at_insert (s : Service F) n k q j :
  id_at (s <| next_id := n |> <| entries := <[k := q]> (entries s) |>) j =
  if decide (j = k) then Some (ticket_id (queued_ticket q)) else id_at s j.
Proof.
  unfold id_at. simpl. case_decide; [subst; by rewrite lookup_insert_eq|by rewrite lookup_insert_ne].
Qed.

Lemma op_spec s op :
  queue_inv s →
  let s' := apply_op s op in
  queue_inv s' ∧ bound s ≤ bound s' ∧ config s' = config s ∧
  (∀ k id, id_at s' k = Some id → id < bound s → id_at s k = Some id).
Proof.
  intros Hi. assert (Hsh : ∀ s', shrinks s s' → queue_inv s' ∧ bound s ≤ bound s' ∧ config s' = config s ∧
    (∀ k id, id_at s' k = Some id → id < bound s → id_at s k = Some id)).
  { intros s' H. split; [by eapply queue_inv_shrinks|]. rewrite (bound_shrinks _ _ H).
    destruct H as (Hc & _ & Hid & _). split; [lia|]. split; [done|]. auto. }
  destruct op as [env now work fence| | | | | | | |]; try (apply Hsh, shrinks_op; done).
  simpl. pose proof (enqueue_spec env now s work fence) as He.
  destruct (enqueue_work iter env now s work fence) as [r s']. simpl.
  destruct He as [[_ H]|(id & s1 & q & _ & Hn & Hsh1 & -> & Hid & _ & Hroom)]; [by apply Hsh|].
  pose proof Hi as (I1 & I2 & I3 & I4). destruct (I4 id Hn) as [Hlo Hhi].
  destruct (bound_next s id Hn Hhi) as [Hb Hb'].
  pose proof (queue_inv_shrinks _ _ Hi Hsh1) as (J1 & J2 & J3 & J4).
  rewrite (bound_shrinks _ _ Hsh1), Hb in J1. destruct Hsh1 as (Hc & _ & Hold & _).
  assert (Hbs : ∀ e, bound (s1 <| next_id := checked_add_u64 id 1 |> <| entries := e |>) = id + 1) by done.
  split; [|split; [rewrite Hbs; lia|split; [done|]]].
  - split; [|split; [|split]]; try setoid_rewrite id_at_insert.
    + intros k i. rewrite Hbs. case_decide; [intros [= <-]; lia|]. intros ?%J1. lia.
    + intros k1 k2 i. repeat case_decide; subst; try done.
      * intros [= <-] ?%J1. lia.
      * intros ?%J1 [= <-]. lia.
      * apply J2.
    + intros l Hl. simpl in *. rewrite Hc in Hl. specialize (J3 l). rewrite Hc in J3. specialize (J3 Hl).
      destruct (entries s1 !! RecoveryWork.key work) eqn:Hk.
      * by rewrite map_size_insert_Some by eauto.
      * rewrite map_size_insert_None by done. destruct Hroom as [[? ?]|Hroom]; [done|]. specialize (Hroom l Hl). lia.
    + simpl. intros n Hn'%checked_add_u64_Some. lia.
  - intros k i. rewrite id_at_insert. case_decide; [intros [= <-]; lia|]. intros ? _. by apply Hold.
Qed.

Lemma run_spec s ops :
  queue_inv s →
  queue_inv (run s ops) ∧ bound s ≤ bound (run s ops) ∧ config (run s ops) = config s ∧
  (∀ k id, id_at (run s ops) k = Some id → id < bound s → id_at s k = Some id).
Proof.
  revert s. induction ops as [|op ops IH]; intros s Hi; simpl.
  { split; [done|]. split; [lia|]. done. }
  destruct (op_spec s op Hi) as (H1 & H2 & H3 & H4). destruct (IH _ H1) as (J1 & J2 & J3 & J4).
  split; [done|]. split; [lia|]. split; [congruence|]. intros k id Hk Hlt. apply H4; [|done]. apply J4; [done|lia].
Qed.

(** ** Retry budgets *)

(** Entries that remain keep their identity and their budget. *)
Definition keeps (s s' : Service F) : Prop :=
  ∀ k (q' : Queued F), entries s' !! k = Some q' →
    ∃ q : Queued F, entries s !! k = Some q ∧
      ticket_id (queued_ticket q') = ticket_id (queued_ticket q) ∧
      queued_remaining q' = queued_remaining q.

Lemma keeps_refl s : keeps s s.
Proof. intros k q Hq. eauto. Qed.
Lemma keeps_trans s1 s2 s3 : keeps s1 s2 → keeps s2 s3 → keeps s1 s3.
Proof. intros H1 H2 k q3 H3. apply H2 in H3 as (q2 & H3 & ? & ?). apply H1 in H3 as (q1 & ? & ? & ?).
  exists q1. split; [done|]. split; congruence. Qed.
Lemma keeps_delete s k : keeps s (s <| entries := delete k (entries s) |>).
Proof. intros j q Hq. simpl in Hq. apply lookup_delete_Some in Hq as [_ Hq]. eauto. Qed.
Lemma keeps_put s k (q q' : Queued F) :
  entries s !! k = Some q → ticket_id (queued_ticket q') = ticket_id (queued_ticket q) →
  queued_remaining q' = queued_remaining q → keeps s (put k q' s).
Proof.
  intros Hk Hi Hr j p Hp. unfold put in Hp. simpl in Hp.
  apply lookup_insert_Some in Hp as [[<- <-]|[_ Hp]]; eauto.
Qed.
Lemma keeps_complete s t : keeps s (complete s t).2.
Proof. unfold complete. destruct (exact s t); [apply keeps_delete|apply keeps_refl]. Qed.
Lemma keeps_unclaim s t : keeps s (unclaim s t).
Proof.
  unfold unclaim. destruct (exact s t) eqn:He; [|apply keeps_refl].
  apply exact_Some in He as [He _]. by eapply keeps_put.
Qed.

Definition is_failure (op : Op) (t : ReplayTicket F) : bool :=
  match op with
  | O_End t' (Some None) => bool_decide (ticket_key t' = ticket_key t) && (ticket_id t' =? ticket_id t)
  | _ => false
  end.

Lemma keeps_op s op :
  (∀ env now work fence, op ≠ O_Enqueue env now work fence) → (∀ t, op ≠ O_End t (Some None)) →
  keeps s (apply_op s op).
Proof.
  intros Hne Hnf. destruct op as [env now work fence|key g|key at_|t|t|t work|env now key|t outcome|]; simpl.
  - by destruct (Hne env now work fence).
  - unfold supersede_through. destruct (entries s !! _); [|apply keeps_refl].
    case_match; [apply keeps_delete|apply keeps_refl].
  - unfold cancel_through. destruct (entries s !! _); [|apply keeps_refl].
    case_match; [apply keeps_delete|apply keeps_refl].
  - apply keeps_complete.
  - unfold notification_stage. destruct (exact s t) eqn:He; [|apply keeps_refl].
    apply exact_Some in He as [He _]. destruct (next_stage _); [by eapply keeps_put|apply keeps_refl].
  - unfold marker_population_stage. destruct (exact s t) eqn:He; [|apply keeps_refl].
    apply exact_Some in He as [He _]. by eapply keeps_put.
  - assert (keeps s (claim s key).2) as Hc.
    { unfold claim. destruct (entries s !! key) as [q|] eqn:Hk; [|apply keeps_refl].
      destruct (queued_state q); [by eapply keeps_put|apply keeps_refl]. }
    unfold begin_replay. destruct (claim s key) as [[t|] s1]; [|done].
    destruct (_ || _); [|done]. eapply keeps_trans; [done|apply keeps_complete].
  - unfold end_replay. repeat case_match; try apply keeps_complete; try apply keeps_unclaim.
    by destruct (Hnf t).
  - unfold stop. by intros k q.
Qed.

Lemma keeps_exact s s' t q' :
  keeps s s' → exact s' t = Some q' → ∃ q, exact s t = Some q ∧ queued_remaining q' = queued_remaining q.
Proof.
  intros Hk [He Hid]%exact_Some. apply Hk in He as (q & Hq & Hi & Hr). exists q. split; [|done].
  unfold exact. rewrite Hq. rewrite (proj2 (Z.eqb_eq _ _)); [done|congruence].
Qed.

(** An admission keeps what it does not install. *)
Lemma enqueue_keeps env now s work fence :
  ∀ k (q' : Queued F), entries (enqueue_work iter env now s work fence).2 !! k = Some q' →
    (∃ q : Queued F, entries s !! k = Some q ∧
       ticket_id (queued_ticket q') = ticket_id (queued_ticket q) ∧
       queued_remaining q' = queued_remaining q) ∨
    next_id s = Some (ticket_id (queued_ticket q')).
Proof.
  unfold enqueue_work. cbv zeta. intros k q'.
  do 5 match goal with |- context [if ?c then (_, s) else _] => destruct c; [intros ?; left; eauto|] end.
  destruct (from_option _ (Ok work) _) as [work'|e]; [|intros ?; left; eauto].
  destruct (match entries s !! _ with Some _ => _ | None => _ end) as [m admitted] eqn:Hroom.
  assert (Hm : ∀ k (q' : Queued F), m !! k = Some q' → entries s !! k = Some q').
  { intros j p. destruct (entries s !! _) as [q|]; [by injection Hroom as <- <-|].
    pose proof (make_room_spec (max_items (config s)) work' (entries s)) as Hr. rewrite Hroom in Hr.
    destruct Hr as [[->|[v ->]] _]; [done|]. by intros [_ ?]%lookup_delete_Some. }
  destruct admitted; simpl; [|intros ?; left; eauto].
  destruct (next_id s) as [id|]; simpl; [|intros ?; left; eauto].
  intros [[_ <-]|[_ Hq]]%lookup_insert_Some; [by right|left; eauto].
Qed.

(** One operation, seen by a ticket with [r] attempts left. *)
Lemma budget_op s op t q r :
  queue_inv s → exact s t = Some q → queued_remaining q = Some r → 1 ≤ r →
  ∀ q', exact (apply_op s op) t = Some q' →
    queued_remaining q' = Some (r - (if is_failure op t then 1 else 0)) ∧
    1 ≤ r - (if is_failure op t then 1 else 0).
Proof.
  intros Hi He Hr Hpos q' He'.
  assert (Hkeep : keeps s (apply_op s op) → is_failure op t = false →
    queued_remaining q' = Some (r - (if is_failure op t then 1 else 0)) ∧
    1 ≤ r - (if is_failure op t then 1 else 0)).
  { intros Hk ->. destruct (keeps_exact _ _ _ _ Hk He') as (q0 & Hq0 & ->).
    rewrite Hq0 in He. injection He as ->. rewrite Hr. split; [f_equal; lia|lia]. }
  destruct op as [env now work fence|key g|key at_|t'|t'|t' work|env now key|t' outcome|];
    try (apply Hkeep; [by apply keeps_op|done]).
  - clear Hkeep. simpl in *. pose proof (enqueue_spec env now s work fence) as Hs.
    pose proof (enqueue_keeps env now s work fence) as Hk.
    destruct (enqueue_work iter env now s work fence) as [res s']. simpl in He'.
    apply exact_Some in He' as [He' Hid']. apply exact_Some in He as [He Hid].
    destruct (Hk _ _ He') as [(q0 & Hq0 & _ & Hr')|Hfresh].
    + rewrite Hq0 in He. injection He as ->. rewrite Hr', Hr. split; [f_equal; lia|lia].
    + destruct Hi as (I1 & _). assert (id_at s (ticket_key t) = Some (ticket_id t)) as Hat.
      { unfold id_at. rewrite He. simpl. by rewrite Hid. }
      apply I1 in Hat. unfold bound in Hat. rewrite Hfresh in Hat. simpl in Hat. lia.
  - destruct outcome as [[o|]|]; try (apply Hkeep; [by apply keeps_op|done]).
    simpl in He' |- *. unfold record_failure in He'.
    destruct (exact s t') as [p|] eqn:Hp.
    2: { rewrite He in He'. injection He' as <-.
         destruct (bool_decide _ && _) eqn:Hb; [|rewrite Hr; split; [f_equal; lia|lia]].
         apply andb_prop in Hb as [Hb%bool_decide_eq_true Hb2%Z.eqb_eq].
         unfold exact in Hp, He. rewrite Hb, Hb2 in Hp. congruence. }
    apply exact_Some in Hp as [Hp Hpid]. pose proof He as He0. apply exact_Some in He0 as [He1 Hid].
    destruct (bool_decide _ && _) eqn:Hb.
    + apply andb_prop in Hb as [Hb%bool_decide_eq_true Hb2%Z.eqb_eq]. rewrite Hb in *.
      rewrite Hp in He1. injection He1 as ->. rewrite Hr in He'.
      destruct ((r =? 0) || (r =? 1)) eqn:Hz.
      * apply exact_Some in He' as [He' _]. simpl in He'. by rewrite lookup_delete_eq in He'.
      * apply orb_false_elim in Hz as [Hz0%Z.eqb_neq Hz1%Z.eqb_neq].
        apply exact_Some in He' as [He' _]. unfold put in He'. simpl in He'. rewrite lookup_insert_eq in He'.
        injection He' as <-. simpl. split; [done|lia].
    + assert (ticket_key t' ≠ ticket_key t) as Hne.
      { intros Heq. rewrite Heq in Hp. rewrite Hp in He1. injection He1 as ->.
        rewrite (bool_decide_true _ Heq) in Hb. simpl in Hb. apply Z.eqb_neq in Hb. congruence. }
      assert (entries s !! ticket_key t = Some q') as Hsame.
      { apply exact_Some in He' as [He' _]. destruct (queued_remaining p) as [x|];
          [destruct ((x =? 0) || (x =? 1))|]; unfold put in He'; simpl in He';
          by rewrite ?lookup_delete_ne, ?lookup_insert_ne in He' by done. }
      rewrite Hsame in He1. injection He1 as ->. rewrite Hr. split; [f_equal; lia|lia].
Qed.
End inv.
End RecoveryInv.

(** ** What recovery promises *)
Module RecoveryTheorems.
Import RecoveryInv.

Section theorems.
Context {F Env : Type} `{!RecoveryFence F Env}.
Context (iter : gmap RecoveryKey (Queued F) → list (RecoveryKey * Queued F)).

Lemma queue_inv_new c b (s : Service F) : try_new c b = Ok s → queue_inv s ∧ config s = c.
Proof.
  unfold try_new. destruct (_ && _); [done|]. destruct (_ && _); [done|]. intros [= <-].
  split; [|done]. unfold queue_inv, id_at, bound. simpl. setoid_rewrite lookup_empty.
  split; [done|]. split; [done|]. split; [intros; rewrite map_size_empty; lia|]. intros n [= <-]. lia.
Qed.

(** The failures of [t] that a run reports while its entry is there. *)
Fixpoint failures (s : Service F) (ops : list Op) (t : ReplayTicket F) : Z :=
  match ops with
  | [] => 0
  | op :: ops =>
      (if bool_decide (is_Some (exact s t)) && is_failure op t then 1 else 0)
      + failures (apply_op iter s op) ops t
  end.

Lemma stale_forever s ops t :
  queue_inv s → ticket_id t < bound s → exact s t = None → exact (run iter s ops) t = None.
Proof.
  intros Hi Hlt He. destruct (exact (run iter s ops) t) as [q|] eqn:Hq; [|done].
  apply exact_Some in Hq as [Hq Hid]. destruct (run_spec iter s ops Hi) as (_ & _ & _ & Hold).
  specialize (Hold (ticket_key t) (ticket_id t)). unfold id_at in Hold. rewrite Hq in Hold. simpl in Hold.
  rewrite Hid in Hold. specialize (Hold eq_refl Hlt). apply fmap_Some in Hold as (q0 & Hq0 & Hid0).
  unfold exact in He. rewrite Hq0, <-Hid0, Z.eqb_refl in He. done.
Qed.

Lemma failures_stale s ops t :
  queue_inv s → ticket_id t < bound s → exact s t = None → failures s ops t = 0.
Proof.
  revert s. induction ops as [|op ops IH]; intros s Hi Hlt He; simpl; [done|].
  rewrite He, bool_decide_false by (by intros []). simpl.
  destruct (op_spec iter s op Hi) as (H1 & H2 & _). rewrite IH; [done|done|lia|].
  by apply (stale_forever s [op] t).
Qed.

(** A ticket without its entry is refused by every operation that takes one. *)
Definition refused (s : Service F) (t : ReplayTicket F) : Prop :=
  (∀ env, is_current env s t = false) ∧ complete s t = (SO_Unchanged, s) ∧
  (∀ outcome, end_replay s t outcome = s) ∧ notification_stage s t = (ST_Superseded, s) ∧
  (∀ work, marker_population_stage s t work = (ST_Superseded, s)).
Lemma stale_refused s t : exact s t = None → refused s t.
Proof.
  intros He. unfold refused, is_current, complete, notification_stage, marker_population_stage, end_replay, unclaim,
    record_failure, complete. rewrite !He.
  split_and!; [|done| |done..]; [intros env; by destruct (fence_is_current_of env t)|by intros [[[]|]|]].
Qed.
Lemma issued_next env now s work fence id :
  queue_inv s → issued (enqueue_work iter env now s work fence).1 = Some id →
  let s' := (enqueue_work iter env now s work fence).2 in
  bound s = id ∧ bound s' = id + 1 ∧ queue_inv s' ∧ id_at s' (RecoveryWork.key work) = Some id.
Proof.
  intros Hi Hiss. pose proof (enqueue_spec iter env now s work fence) as He.
  destruct (op_spec iter s (O_Enqueue env now work fence) Hi) as (Hi' & _). cbn [apply_op] in Hi'.
  destruct (enqueue_work iter env now s work fence) as [r s1]. cbn [fst snd] in *. cbv zeta in He.
  destruct He as [[He _]|(i & s2 & q & He & Hn & _ & -> & Hid & _)]; [congruence|]. assert (i = id) as -> by congruence.
  pose proof Hi as (_ & _ & _ & I4). destruct (bound_next s id Hn) as [Hb Hb']; [by apply I4|].
  split_and!; [done|exact Hb'|done|]. rewrite id_at_insert. case_decide; [congruence|done].
Qed.
Lemma exact_bound (s : Service F) t q : queue_inv s → exact s t = Some q → ticket_id t < bound s.
Proof.
  intros (I1 & _) [He Hid]%exact_Some. apply (I1 (ticket_key t)). unfold id_at. rewrite He. simpl. by rewrite Hid.
Qed.

(** C33: identities are exact, bounded and never reused. After any operations
    on a new queue there are no more entries than configured and no identity
    stands at two keys. An admission that hands out an identity leaves it at the
    key of its work; it is larger than all those retained, and whatever is done
    from there, every later admission hands out a larger one. A ticket that had
    its entry, and whose entry is then replaced, completed, cancelled, evicted or
    exhausted, never regains it: after any further operations it is not current,
    and completing it, ending its replay with any outcome, advancing it to its
    publication or replacing its work by a population are all refused and leave
    the whole queue as it is. *)
Theorem recovery_identities_exact c b s0 ops :
  try_new c b = Ok s0 →
  let s := run iter s0 ops in
  (∀ l, max_items c = Some l → (N.of_nat (len s) ≤ l)%N) ∧
  (∀ k1 k2 i, id_at s k1 = Some i → id_at s k2 = Some i → k1 = k2) ∧
  (∀ env now work fence id,
     let admission := enqueue_work iter env now s work fence in
     issued admission.1 = Some id →
     id_at admission.2 (RecoveryWork.key work) = Some id ∧ (∀ k i, id_at s k = Some i → i < id) ∧
     ∀ ops' env' now' work' fence' id',
       issued (enqueue_work iter env' now' (run iter admission.2 ops') work' fence').1 = Some id' → id < id') ∧
  (∀ t ops1 ops2,
     is_Some (exact s t) → exact (run iter s ops1) t = None → refused (run iter (run iter s ops1) ops2) t).
Proof.
  intros [Hi0 Hc]%queue_inv_new s. destruct (run_spec iter s0 ops Hi0) as (Hi & _ & Hcfg & _). fold s in Hi, Hcfg.
  pose proof Hi as (I1 & I2 & I3 & _). split_and!; [intros l Hl; apply I3; by rewrite Hcfg, Hc|done| |].
  - intros env now work fence id admission Hiss.
    destruct (issued_next _ _ _ _ _ _ Hi Hiss) as (Hb & Hb' & Hi' & Hat). split_and!; [done| |].
    + intros k i Hk%I1. lia.
    + intros ops' env' now' work' fence' id' Hiss'. destruct (run_spec iter _ ops' Hi') as (Hi2 & Hle & _).
      destruct (issued_next _ _ _ _ _ _ Hi2 Hiss') as (Hb2 & _). subst admission. lia.
  - intros t ops1 ops2 [q Hq] Hgone. destruct (run_spec iter s ops1 Hi) as (Hi1 & Hle & _).
    apply exact_bound in Hq; [|done]. apply stale_refused, stale_forever; [done|lia|done].
Qed.

(** Retry budgets are exact. An entry with [r] attempts left leaves the
    queue by the [r]-th failure reported for it: however replays, failures,
    pauses, stage changes and admissions interleave from there, at most [r]
    failures of that ticket count, and while the entry is still there its
    remaining budget is [r] less the failures so far, and positive. *)
Theorem retry_budget_exact c b s0 ops ops' t q r :
  let s := run iter s0 ops in
  let s' := run iter s ops' in
  try_new c b = Ok s0 → exact s t = Some q → queued_remaining q = Some r → 1 ≤ r →
  failures s ops' t ≤ r ∧
  ∀ q', exact s' t = Some q' →
    queued_remaining q' = Some (r - failures s ops' t) ∧ 1 ≤ r - failures s ops' t.
Proof.
  intros s s' [Hi0 _]%queue_inv_new. destruct (run_spec iter s0 ops Hi0) as (Hi & _). fold s in Hi.
  clearbody s. subst s'. clear Hi0. revert s q r Hi.
  induction ops' as [|op ops' IH]; intros s q r Hi He Hr Hpos; simpl.
  { split; [lia|]. intros q' Hq'. rewrite He in Hq'. injection Hq' as <-. rewrite Hr. split; [f_equal; lia|lia]. }
  rewrite (bool_decide_true _ (mk_is_Some _ _ He)). simpl.
  destruct (op_spec iter s op Hi) as (Hi1 & Hb1 & _).
  assert (ticket_id t < bound s) as Hlt.
  { apply exact_Some in He as [He Hid]. destruct Hi as (I1 & _). apply (I1 (ticket_key t)).
    unfold id_at. rewrite He. simpl. by rewrite Hid. }
  destruct (exact (apply_op iter s op) t) as [q1|] eqn:He1.
  - destruct (budget_op iter s op t q r Hi He Hr Hpos q1 He1) as [Hr1 Hpos1].
    destruct (IH _ q1 _ Hi1 He1 Hr1 Hpos1) as [Hle Hq']. split; [lia|].
    intros q' Hq'0. destruct (Hq' q' Hq'0) as [-> ?]. split; [f_equal; lia|lia].
  - rewrite (failures_stale (apply_op iter s op) ops' t Hi1 ltac:(lia) He1).
    split; [destruct (is_failure op t); lia|]. intros q' Hq'.
    pose proof (stale_forever (apply_op iter s op) ops' t Hi1 ltac:(lia) He1) as Hs.
    unfold run in Hs. simpl in Hs. unfold run in Hq'. congruence.
Qed.
End theorems.

(** A run for the witnesses: a value is queued with one retry, replaced, and
    its first ticket fails once after that. *)
Definition demo_config : RecoveryConfig := mkConfig true (from_secs 5) (Some 2%N) (Some 1).
Definition demo_fence (g : Z) : Fences.Fence := Fences.mkFence 0 g 0.
Definition demo_lanes (g : Z) : nat → Fences.KeyLane := λ _, Fences.mkKeyLane g None.
Definition demo_work (at_ : Timestamp) : RecoveryWork :=
  RW_Data (mkItem "k" RA_Remove at_ 1000 None) (PM_Commit DM_Remove None).
Definition demo_start : Service Fences.Fence := mkService demo_config ∅ (Some 1) false.
Definition demo_ops : list (Op (F := Fences.Fence) (Env := nat → Fences.KeyLane)) :=
  [O_Enqueue (demo_lanes 1) 10 (demo_work 5) (Some (demo_fence 1));
   O_Enqueue (demo_lanes 2) 11 (demo_work 5) (Some (demo_fence 2))].
Definition demo_ticket (id g : Z) : ReplayTicket Fences.Fence :=
  mkTicket id (demo_work 5) g (Some (demo_fence g)).

Lemma recovery_identities_exact_witness :
  try_new demo_config (Some 5) = Ok demo_start ∧
  is_Some (exact (run map_to_list demo_start (take 1 demo_ops)) (demo_ticket 1 1)) ∧
  issued (enqueue_work map_to_list (demo_lanes 2) 11 (run map_to_list demo_start (take 1 demo_ops)) (demo_work 5)
    (Some (demo_fence 2))).1 = Some 2 ∧
  id_at (run map_to_list demo_start demo_ops) (RK_Data "k") = Some 2 ∧
  refused (run map_to_list demo_start demo_ops) (demo_ticket 1 1).
Proof.
  assert (H1 : try_new demo_config (Some 5) = Ok demo_start) by (vm_compute; reflexivity).
  assert (H2 : is_Some (exact (run map_to_list demo_start (take 1 demo_ops)) (demo_ticket 1 1)))
    by (eexists; vm_compute; reflexivity).
  assert (H3 : issued (enqueue_work map_to_list (demo_lanes 2) 11 (run map_to_list demo_start (take 1 demo_ops)) (demo_work 5)
    (Some (demo_fence 2))).1 = Some 2) by (vm_compute; reflexivity).
  destruct (recovery_identities_exact map_to_list demo_config (Some 5) demo_start (take 1 demo_ops) H1)
    as (_ & _ & Hissued & Hstale).
  split; [exact H1|]. split; [exact H2|]. split; [exact H3|]. split.
  - exact (proj1 (Hissued _ _ _ _ _ H3)).
  - exact (Hstale (demo_ticket 1 1) (drop 1 demo_ops) [] H2 ltac:(vm_compute; reflexivity)).
Defined.

Definition demo_failures : list (Op (F := Fences.Fence) (Env := nat → Fences.KeyLane)) :=
  [O_Begin (demo_lanes 2) 20 (RK_Data "k"); O_End (demo_ticket 2 2) (Some None);
   O_End (demo_ticket 1 1) (Some None)].

Lemma retry_budget_exact_witness :
  try_new demo_config (Some 5) = Ok demo_start ∧
  exact (run map_to_list demo_start demo_ops) (demo_ticket 2 2)
    = Some (mkQueued (demo_ticket 2 2) (Some 2) Pending) ∧
  failures map_to_list (run map_to_list demo_start demo_ops) demo_failures (demo_ticket 2 2) = 1 ∧
  failures map_to_list (run map_to_list demo_start demo_ops) demo_failures (demo_ticket 2 2) ≤ 2.
Proof.
  assert (H1 : try_new demo_config (Some 5) = Ok demo_start) by (vm_compute; reflexivity).
  assert (H2 : exact (run map_to_list demo_start demo_ops) (demo_ticket 2 2)
    = Some (mkQueued (demo_ticket 2 2) (Some 2) Pending)) by (vm_compute; reflexivity).
  split; [exact H1|]. split; [exact H2|]. split; [vm_compute; reflexivity|].
  exact (proj1 (retry_budget_exact map_to_list demo_config (Some 5) demo_start demo_ops demo_failures
    (demo_ticket 2 2) (mkQueued (demo_ticket 2 2) (Some 2) Pending) 2 H1 H2 eq_refl ltac:(lia))).
Defined.
End RecoveryTheorems.
