(* ===== verification/Observe.v ===== *)
(** * Marker observations

    Models [src/src/marker_reads.rs], [src/src/marker_reads/memory.rs] and the
    keys of [src/src/marker_leases.rs] and [src/src/cache/ordinary_markers.rs]:
    what a node remembers of a marker, the clear shortcut, the memory that holds
    observations, and the compare-and-swap loops that admit one without losing a
    larger maximum. An operation is a program over [OCall], the accesses of the
    marker memory and of the continuity counter; its loops count their rounds. *)
From S2P Require Import Prelude Time Calls Options Entry Tags Backplane Storage Invalidation.
Open Scope prog_scope.

(** ** Data *)
Inductive MarkerReadFailure :=
| RF_LockTimeout | RF_SoftTimeout | RF_HardTimeout | RF_FactorySoftTimeout | RF_FactoryHardTimeout
| RF_Backend | RF_Protocol.
Inductive MarkerReadOutcome :=
| RO_Cached | RO_Observed | RO_Local | RO_KnownMaximum | RO_Skipped
| RO_StaleFallback (failure : MarkerReadFailure) | RO_Unavailable (failure : MarkerReadFailure).
Inductive MarkerPresence := Present (v : MarkerVersion) | Absent.
Inductive MarkerObservation :=
| Confirmed (presence : MarkerPresence)
| ObservedLocally (presence : MarkerPresence)
| KnownMaximum (v : MarkerVersion)
| Retained (presence : MarkerPresence) (failure : MarkerReadFailure).
#[export] Instance MarkerPresence_eq_dec : EqDecision MarkerPresence.
Proof. solve_decision. Defined.
#[export] Instance MarkerReadFailure_eq_dec : EqDecision MarkerReadFailure.
Proof. solve_decision. Defined.
#[export] Instance MarkerReadOutcome_eq_dec : EqDecision MarkerReadOutcome.
Proof. solve_decision. Defined.
#[export] Instance MarkerObservation_eq_dec : EqDecision MarkerObservation.
Proof. solve_decision. Defined.

Module MarkerObservation.
Definition presence (self : MarkerObservation) : MarkerPresence :=
  match self with
  | Confirmed presence | ObservedLocally presence | Retained presence _ => presence
  | KnownMaximum version => Present version
  end.
Definition outcome (self : MarkerObservation) : MarkerReadOutcome :=
  match self with
  | Confirmed _ => RO_Cached
  | ObservedLocally _ => RO_Local
  | KnownMaximum _ => RO_KnownMaximum
  | Retained _ failure => RO_StaleFallback failure
  end.
Definition observed_outcome (self : MarkerObservation) : MarkerReadOutcome :=
  match self with Confirmed _ => RO_Observed | _ => outcome self end.
Definition reconcile_maximum (self : MarkerObservation) (maximum : option MarkerVersion) : MarkerObservation :=
  match presence self, maximum with
  | Absent, Some maximum => KnownMaximum maximum
  | Present version, Some maximum => if version <? maximum then KnownMaximum maximum else self
  | _, None => self
  end.
End MarkerObservation.

Definition version_of (presence : MarkerPresence) : option MarkerVersion :=
  match presence with Present version => Some version | Absent => None end.

(** [MarkerReady]: what a ready probe may use without suspending. *)
Inductive ClearShortcut := CS_Allow | CS_Bypass.
Inductive MarkerReady :=
| RD_Cached (observation : MarkerObservation)
| RD_Shortcut (outcome : MarkerReadOutcome)
| RD_Skipped (maximum : option MarkerVersion).
Module MarkerReady.
Definition outcome (self : MarkerReady) : MarkerReadOutcome :=
  match self with
  | RD_Cached observation => MarkerObservation.outcome observation
  | RD_Shortcut outcome => outcome
  | RD_Skipped _ => RO_Skipped
  end.
Definition maximum (self : MarkerReady) : option MarkerVersion :=
  match self with
  | RD_Cached observation => version_of (MarkerObservation.presence observation)
  | RD_Shortcut _ => None
  | RD_Skipped maximum => maximum
  end.
End MarkerReady.

(** ** The clear shortcut *)
Inductive ClearObservation := CO_Unknown | CO_Known (epoch : Z) (outcome : MarkerReadOutcome).
Record ClearObservations := mkClears { clears_remove : ClearObservation; clears_expire : ClearObservation }.
#[export] Instance eta_ClearObservations : Eta ClearObservations := λ c,
  mkClears (clears_remove c) (clears_expire c).
Definition clears_unknown : ClearObservations := mkClears CO_Unknown CO_Unknown.

Module Clears.
Definition clear_status (self : ClearObservations) (k : MarkerKind) (epoch : Z) : option MarkerReadOutcome :=
  match match k with
        | MK_ClearRemove => Some (clears_remove self)
        | MK_ClearExpire => Some (clears_expire self)
        | MK_Tag _ => None
        end with
  | Some (CO_Known captured outcome) => if captured =? epoch then Some outcome else None
  | Some CO_Unknown | None => None
  end.
Definition initialize_clear (self : ClearObservations) (k : MarkerKind) (epoch : Z) (outcome : MarkerReadOutcome)
    : ClearObservations :=
  let known := CO_Known epoch (match outcome with RO_Observed => RO_Cached | outcome => outcome end) in
  match k with
  | MK_ClearRemove => self <| clears_remove := known |>
  | MK_ClearExpire => self <| clears_expire := known |>
  | MK_Tag _ => self
  end.
Definition reset_clears (self : ClearObservations) : ClearObservations := clears_unknown.
End Clears.

(** ** Keys *)
Definition bytes_of (s : string) : list Z := (λ c, Z.of_N (Ascii.N_of_ascii c)) <$> list_of_string s.
Definition hex_of (s : string) : string := encode_hex (bytes_of s).
(** [\x1f]. *)
Definition US : string := String (Ascii.ascii_of_N 31) EmptyString.

Inductive MarkerMemoryNamespace := NS_Local (prefix : string) | NS_Durable (scope : CacheScope).

Definition observation_key (k : MarkerKind) : string :=
  match k with
  | MK_ClearRemove => "clear:remove"
  | MK_ClearExpire => "clear:expire"
  | MK_Tag tag => "tag:" +:+ tag
  end.
Definition namespace_key (ns : MarkerMemoryNamespace) (k : MarkerKind) : string :=
  let '(authority, scope) := match ns with
                             | NS_Local prefix => ("local", prefix)
                             | NS_Durable scope => ("durable", CacheScope.storage_id scope)
                             end in
  (US +:+ "amalgam/marker-memory/" +:+ authority +:+ "/" +:+ hex_of scope +:+ "/"
   +:+ hex_of (observation_key k))%string.
Definition marker_lease_key (scope : CacheScope) (k : MarkerKind) : string :=
  (US +:+ "amalgam/v2/marker-locks/" +:+ hex_of (CacheScope.storage_id scope) +:+ "/"
   +:+ hex_of (observation_key k))%string.
Definition ordinary_key (scope : CacheScope) (k : MarkerKind) : string :=
  let scope := CacheScope.storage_id scope in
  match k with
  | MK_ClearRemove => ("amalgam:byte-marker:" +:+ scope +:+ ":remove")%string
  | MK_ClearExpire => ("amalgam:byte-marker:" +:+ scope +:+ ":expire")%string
  | MK_Tag tag => ("amalgam:byte-marker:" +:+ scope +:+ ":tag:" +:+ decimal (str_len tag) +:+ ":" +:+ tag)%string
  end.

(** ** The observation memory *)
Inductive MarkerLifecycle := DurableOnly | CachedSnapshots.
(** [MarkerObservations], its immutable part: whether the application supplied
    the memory, and its namespace. *)
Record Observations := mkObservations {
  namespace : MarkerMemoryNamespace; supplied : bool; lifecycle : MarkerLifecycle; obs_epoch : Loc }.

Definition is_local_supplied (self : Observations) : bool :=
  supplied self && match namespace self with NS_Local _ => true | NS_Durable _ => false end.
Definition memory_key (self : Observations) (k : MarkerKind) : string := namespace_key (namespace self) k.
Definition lock_key (self : Observations) (k : MarkerKind) : string :=
  if supplied self then memory_key self k else observation_key k.

(** What the operations raise: the memory's own fault, or an invalid entry. *)
Inductive ObservationError := OE_Memory | OE_Entry (e : Error).

Local Abbreviation Observed := (Entry MarkerObservation).
Inductive OCall :=
| O_Get (key : string) (now : Timestamp)
| O_Insert (key : string) (expected : option Observed) (e : Observed) (now : Timestamp)
| O_Epoch | O_Stamps | O_Alloc | O_Yield.
Definition oanswer (c : OCall) : Type :=
  match c with
  | O_Get _ _ => result ObservationError (option Observed)
  | O_Insert _ _ _ _ => result ObservationError MemoryAdmission
  | O_Epoch => Z
  | O_Stamps => Epochs
  | O_Alloc => Loc
  | O_Yield => unit
  end.

Section observations.
Context (self : Observations).
Local Abbreviation prog := (prog oanswer).
Local Abbreviation action A := (prog (result ObservationError A)).
Local Abbreviation ask c := (call (ans := oanswer) c).
Local Abbreviation Observed := (Entry MarkerObservation).

(** A pure step of [Entry], under [?]. *)
Definition entry_step {A} (r : result Error A) : action A :=
  Ret (match r with Ok a => Ok a | Err e => Err (OE_Entry e) end).
Definition stamp_current (captured : Z) : prog bool := let* epoch := ask O_Epoch in Ret (epoch =? captured).
Definition stamp (captured : Z) : ContinuityStamp := mkStamp (obs_epoch self) captured.

(** One round of [admit_observation]: [None] when the resident observation has
    changed since it was read. *)
Definition admit_round (key : string) (e : Observed) (now : Timestamp) (captured : Z)
    : action (option MarkerObservation) :=
  let* current := stamp_current captured in
  if negb current then ok (Some (Entry.value e))
  else
    let? current := ask (O_Get key now) in
    let maximum := current ≫= λ c, version_of (MarkerObservation.presence (Entry.value c)) in
    let* p := ask O_Alloc in
    let merged := Entry.with_value p e (MarkerObservation.reconcile_maximum (Entry.value e) maximum) in
    let? admission := ask (O_Insert key current merged now) in
    if bool_decide (admission = MA_Rejected VersionChanged) then ask O_Yield ;;; ok None
    else ok (Some (Entry.value merged)).

(** One round of [merge_maximum]. *)
Definition merge_round (key : string) (maximum : MarkerVersion) (now : Timestamp) (captured : Z)
    : action (option (option MarkerObservation)) :=
  let* current := stamp_current captured in
  if negb current then ok (Some None)
  else
    let? found := ask (O_Get key now) in
    match found with
    | None => ok (Some None)
    | Some current =>
        let observation := MarkerObservation.reconcile_maximum (Entry.value current) (Some maximum) in
        if bool_decide (observation = Entry.value current) then ok (Some (Some observation))
        else
          let* p := ask O_Alloc in
          let? admission := ask (O_Insert key (Some current) (Entry.with_value p current observation) now) in
          if bool_decide (admission = MA_Rejected VersionChanged) then ask O_Yield ;;; ok None
          else ok (Some (Some observation))
    end.

(** A loop of rounds: [None] when [fuel] rounds were not enough. *)
Fixpoint rounds {A} (fuel : nat) (round : action (option A)) : prog (option (result ObservationError A)) :=
  match fuel with
  | O => Ret None
  | S fuel =>
      let* r := round in
      match r with
      | Ok (Some a) => Ret (Some (Ok a))
      | Ok None => rounds fuel round
      | Err e => Ret (Some (Err e))
      end
  end.
(** [?] on a loop: early errors are outcomes. *)
Definition then_rounds {A B} (p : action A) (f : A → prog (option (result ObservationError B)))
    : prog (option (result ObservationError B)) :=
  let* r := p in match r with Ok a => f a | Err e => Ret (Some (Err e)) end.

Definition admit_observation (fuel : nat) (key : string) (e : Observed) (now : Timestamp) (captured : Z)
    : prog (option (result ObservationError MarkerObservation)) :=
  rounds fuel (admit_round key e now captured).
Definition merge_maximum (fuel : nat) (k : MarkerKind) (maximum : MarkerVersion) (now : Timestamp) (captured : Z)
    : prog (option (result ObservationError (option MarkerObservation))) :=
  rounds fuel (merge_round (memory_key self k) maximum now captured).

Definition store (fuel : nat) (k : MarkerKind) (observation : MarkerObservation) (options : EntryOptions)
    (now : Timestamp) (jitter : JitterSample) (captured : Z)
    : prog (option (result ObservationError MarkerObservation)) :=
  let* current := if EntryOptions.skip_memory_write options then Ret false else stamp_current captured in
  if negb current then Ret (Some (Ok observation))
  else
    let* p := ask O_Alloc in
    then_rounds (entry_step
      (Entry.try_fresh_with_jitter p observation options now now jitter [] None None)) (λ e,
    let* p := ask O_Alloc in
    admit_observation fuel (memory_key self k)
      (Entry.with_hydrated_value p e observation (stamp captured)) now captured).

Definition store_snapshot (fuel : nat) (k : MarkerKind) (observation : MarkerObservation)
    (snapshot : MarkerSnapshot) (options : EntryOptions) (now : Timestamp) (captured : Z)
    : prog (option (result ObservationError MarkerObservation)) :=
  let* current := if EntryOptions.skip_memory_write options then Ret false else stamp_current captured in
  if negb current then Ret (Some (Ok observation))
  else
    let* p := ask O_Alloc in
    then_rounds (entry_step
      (Entry.try_rehydrate p observation (snap_created snapshot) (snap_logical snapshot)
         (snap_physical snapshot) false None None [] now)) (λ source,
    let* p := ask O_Alloc in
    let* stamps := ask O_Stamps in
    then_rounds (entry_step (Entry.for_memory_hydration p stamps source options now)) (λ local,
    match local with
    | None => Ret (Some (Ok observation))
    | Some local =>
        let* p := ask O_Alloc in
        admit_observation fuel (memory_key self k)
          (Entry.with_hydrated_value p local observation (stamp captured)) now captured
    end)).

(** The stale observation's own throttled copy, if nobody replaced it. *)
Definition retain_fallback (k : MarkerKind) (source : Observed) (options : EntryOptions) (now : Timestamp)
    (failure : MarkerReadFailure) : action MarkerObservation :=
  let observation := Retained (MarkerObservation.presence (Entry.value source)) failure in
  if EntryOptions.skip_memory_write options then ok observation
  else
    let* p := ask O_Alloc in
    let* stamps := ask O_Stamps in
    let? throttled := entry_step (Entry.try_throttled p stamps source options now) in
    match throttled with
    | None => ok observation
    | Some e =>
        let key := memory_key self k in
        let* p := ask O_Alloc in
        let? admission := ask (O_Insert key (Some source) (Entry.with_value p e observation) now) in
        if bool_decide (admission = MA_Rejected VersionChanged) then
          let? current := ask (O_Get key now) in
          ok (match current with Some current => Entry.value current | None => observation end)
        else ok observation
    end.

Definition retain_snapshot_fallback (fuel : nat) (k : MarkerKind) (snapshot : MarkerSnapshot)
    (presence : MarkerPresence) (options : EntryOptions) (now : Timestamp) (failure : MarkerReadFailure)
    (captured : Z) : prog (option (result ObservationError MarkerObservation)) :=
  let observation := Retained presence failure in
  let* current := if EntryOptions.skip_memory_write options then Ret false else stamp_current captured in
  if negb current then Ret (Some (Ok observation))
  else
    let* p := ask O_Alloc in
    then_rounds (entry_step
      (source ← Entry.try_rehydrate p observation (snap_created snapshot) (snap_logical snapshot)
                  (snap_physical snapshot) false None None [] now;
       size ← config (EntryOptions.size options);
       Ok (source, size))) (λ '(source, size),
    let* p := ask O_Alloc in
    let source := Entry.with_retention p source size (EntryOptions.priority options) in
    let* p := ask O_Alloc in
    let* stamps := ask O_Stamps in
    then_rounds (entry_step (Entry.try_throttled p stamps source options now)) (λ throttled,
    match throttled with
    | None => Ret (Some (Ok observation))
    | Some throttled =>
        let* p := ask O_Alloc in
        admit_observation fuel (memory_key self k)
          (Entry.with_hydrated_value p throttled observation (stamp captured)) now captured
    end)).

(** The eager refresh's claim: the resident entry without its eager deadline. *)
Definition claim_eager (k : MarkerKind) (current : Observed) (now : Timestamp) : action MemoryAdmission :=
  let* p := ask O_Alloc in
  ask (O_Insert (memory_key self k) (Some current) (Entry.without_eager_refresh p current) now).

(** *** Readiness, without suspending *)
Definition ready_value (clears : ClearObservations) (k : MarkerKind) (options : EntryOptions) (now : Timestamp)
    (epoch : Z) (clear_shortcut : ClearShortcut) : action (option MarkerReady) :=
  match match clear_shortcut with CS_Allow => Clears.clear_status clears k epoch | CS_Bypass => None end with
  | Some outcome => ok (Some (RD_Shortcut outcome))
  | None =>
      let? cached := if EntryOptions.skip_memory_read options then ok None else ask (O_Get (memory_key self k) now) in
      let rest :=
        if negb (is_local_supplied self)
           && (EntryOptions.skip_distributed_read options
               || bool_decide (is_Some cached) && EntryOptions.skip_distributed_read_when_stale options)
        then
          match lifecycle self with
          | DurableOnly =>
              ok (Some (RD_Skipped (cached ≫= λ e, version_of (MarkerObservation.presence (Entry.value e)))))
          | CachedSnapshots => ok None
          end
        else ok None in
      match cached with
      | Some e =>
          if Entry.is_fresh (Entry.freshness e now) then
            if (match lifecycle self with CachedSnapshots => true | DurableOnly => false end || is_local_supplied self)
               && Entry.should_eager_refresh e now
            then ok None
            else ok (Some (RD_Cached (Entry.value e)))
          else rest
      | None => rest
      end
  end.
End observations.

(** ** Maxima *)

(** [Absent] is below every maximum. *)
Definition presence_le (a b : MarkerPresence) : Prop :=
  match a, b with
  | Absent, _ => True
  | Present v, Present w => v ≤ w
  | Present _, Absent => False
  end.
#[export] Instance presence_le_dec a b : Decision (presence_le a b).
Proof. unfold presence_le. destruct a, b; apply _. Defined.
#[export] Instance presence_le_order : PartialOrder presence_le.
Proof.
  split; [split|].
  - intros []; cbn; [lia|done].
  - intros [a|] [b|] [c|]; cbn; (done || lia).
  - intros [a|] [b|]; cbn; intros; f_equal; (done || lia).
Qed.
Definition version_presence (v : option MarkerVersion) : MarkerPresence :=
  match v with Some v => Present v | None => Absent end.
Definition known (e : Entry MarkerObservation) : MarkerPresence := MarkerObservation.presence (Entry.value e).

(** Reconciling is the join. *)
Lemma reconcile_le_l o m : presence_le (MarkerObservation.presence o) (MarkerObservation.presence (MarkerObservation.reconcile_maximum o m)).
Proof.
  unfold MarkerObservation.reconcile_maximum.
  destruct (MarkerObservation.presence o) eqn:Ho, m as [m|]; cbn; rewrite ?Ho; cbn; try done.
  destruct (_ <? _) eqn:?; cbn; rewrite ?Ho; cbn; lia.
Qed.
Lemma reconcile_le_r o m : presence_le (version_presence m) (MarkerObservation.presence (MarkerObservation.reconcile_maximum o m)).
Proof.
  unfold MarkerObservation.reconcile_maximum.
  destruct (MarkerObservation.presence o) eqn:Ho, m as [m|]; cbn; rewrite ?Ho; cbn; try done.
  destruct (_ <? _) eqn:?; cbn; rewrite ?Ho; cbn; lia.
Qed.
Lemma reconcile_lub o m p :
  presence_le (MarkerObservation.presence o) p → presence_le (version_presence m) p →
  presence_le (MarkerObservation.presence (MarkerObservation.reconcile_maximum o m)) p.
Proof.
  unfold MarkerObservation.reconcile_maximum. intros Ho Hm.
  destruct (MarkerObservation.presence o) eqn:Hp, m as [m|]; cbn; rewrite ?Hp; try done.
  destruct (_ <? _); cbn; [done|by rewrite Hp].
Qed.
Lemma version_presence_of p : version_presence (version_of p) = p.
Proof. by destruct p. Qed.

(** ** The programs only raise what is resident *)
Definition raising (c : OCall) : Prop :=
  match c with
  | O_Insert _ (Some old) e _ => presence_le (known old) (known e)
  | _ => True
  end.
Abbreviation raises := (only raising).

Section raising.
Context (self : Observations).

Lemma raises_call c : raising c → raises (call (ans := oanswer) c).
Proof. by split. Qed.

Lemma raises_rounds {A} fuel (round : prog oanswer (result ObservationError (option A))) :
  raises round → raises (rounds fuel round).
Proof.
  intros Hr. induction fuel as [|fuel IH]; [done|]. apply only_bind; [done|]. by intros [[]|].
Qed.
Lemma raises_then {A B} (p : prog oanswer (result ObservationError A)) (f : A → prog oanswer (option (result ObservationError B))) :
  raises p → (∀ a, raises (f a)) → raises (then_rounds p f).
Proof. intros Hp Hf. apply only_bind; [done|]. by intros []. Qed.

Lemma raises_admit_round key e now captured : raises (admit_round key e now captured).
Proof.
  unfold admit_round, stamp_current. repeat (split; [done|]; intros ?); cbn.
  destruct (negb _); [done|]. split; [done|]. intros [current|]; [|done]. cbn. split; [done|]. intros p.
  split.
  - destruct current as [c|]; cbn; [|done]. unfold known. cbn.
    pose proof (reconcile_le_r (Entry.value e) (version_of (MarkerObservation.presence (Entry.value c)))) as H.
    by rewrite version_presence_of in H.
  - intros [a|]; [|done]. cbn. destruct (bool_decide _); [|done]. by split.
Qed.
Lemma raises_merge_round key maximum now captured : raises (merge_round key maximum now captured).
Proof.
  unfold merge_round, stamp_current. repeat (split; [done|]; intros ?); cbn.
  destruct (negb _); [done|]. split; [done|]. intros [[c|]|]; cbn; try done.
  destruct (bool_decide _); [done|]. split; [done|]. intros p. split; [apply reconcile_le_l|].
  intros [a|]; [|done]. cbn. destruct (bool_decide _); [|done]. by split.
Qed.
End raising.
Create HintDb raising discriminated.
#[export] Hint Resolve raises_admit_round raises_merge_round raises_rounds raises_call : raising.

Ltac raise_step :=
  match goal with
  | |- only raising (Ret _) => exact I
  | |- only raising (ok _) => exact I
  | |- only raising (entry_step _) => exact I
  | |- only raising (call _) => apply raises_call; try exact I
  | |- only raising (bind _ _) => apply only_bind
  | |- only raising (attempt _ _) => apply only_attempt
  | |- only raising (then_rounds _ _) => apply raises_then
  | |- only raising (stamp_current _) => unfold stamp_current
  | |- only raising (admit_observation _ _ _ _ _) => apply raises_rounds, raises_admit_round
  | |- only raising (match ?x with _ => _ end) => destruct x eqn:?
  | |- only raising (let '(_, _) := ?x in _) => destruct x
  | |- ∀ _, _ => intros ?
  end.

Section operations.
Context (self : Observations).
Lemma raises_store fuel k o opts now jitter captured : raises (store self fuel k o opts now jitter captured).
Proof. unfold store. repeat raise_step. Qed.
Lemma raises_store_snapshot fuel k o s opts now captured : raises (store_snapshot self fuel k o s opts now captured).
Proof. unfold store_snapshot. repeat raise_step. Qed.
Lemma raises_merge_maximum fuel k m now captured : raises (merge_maximum self fuel k m now captured).
Proof. apply raises_rounds, raises_merge_round. Qed.
Lemma raises_retain_snapshot_fallback fuel k s pr opts now f captured :
  raises (retain_snapshot_fallback self fuel k s pr opts now f captured).
Proof. unfold retain_snapshot_fallback. repeat raise_step. Qed.
Lemma raises_retain_fallback k source opts now f : raises (retain_fallback self k source opts now f).
Proof. unfold retain_fallback. repeat raise_step. cbn. unfold known. cbn. reflexivity. Qed.
Lemma raises_claim_eager k current now : raises (claim_eager self k current now).
Proof. unfold claim_eager. repeat raise_step. cbn. reflexivity. Qed.
Lemma raises_ready_value clears k opts now epoch s : raises (ready_value self clears k opts now epoch s).
Proof. unfold ready_value. repeat raise_step. Qed.
End operations.

(** ** Any number of operations on one memory *)
Module Shared.
Local Abbreviation Observed := (Entry MarkerObservation).
Record World := mkWorld {
  cells : gmap string Observed; epoch : Z; threads : gmap nat (prog oanswer unit) }.

(** What the memory may answer. An entry is immutable, so that the identity a
    conditional insertion compares is that of the whole entry. A read may find
    nothing (the entry has expired), an insertion may be refused or fail. *)
Inductive answers (w : World) : ∀ c, oanswer c → gmap string Observed → Prop :=
| A_Get key now found : found = cells w !! key ∨ found = None → answers w (O_Get key now) (Ok found) (cells w)
| A_GetFault key now e : answers w (O_Get key now) (Err e) (cells w)
| A_Insert key expected e now a : cells w !! key = expected → is_rejected a = false →
    answers w (O_Insert key expected e now) (Ok a) (<[key := e]> (cells w))
| A_Refuse key expected e now reason :
    answers w (O_Insert key expected e now) (Ok (MA_Rejected reason)) (cells w)
| A_InsertFault key expected e now x : answers w (O_Insert key expected e now) (Err x) (cells w)
| A_Epoch : answers w O_Epoch (epoch w) (cells w)
| A_Stamps stamps : answers w O_Stamps stamps (cells w)
| A_Alloc p : answers w O_Alloc p (cells w)
| A_Yield : answers w O_Yield tt (cells w).

(** Operations start and run in any order; the memory drops what has expired or
    exceeds its capacity, and a clear drops everything and advances the epoch. *)
Inductive step (w : World) : World → Prop :=
| S_Start i p : raises p → threads w !! i = None → step w (mkWorld (cells w) (epoch w) (<[i := p]> (threads w)))
| S_Run i c k x cells' : threads w !! i = Some (Act c k) → answers w c x cells' →
    step w (mkWorld cells' (epoch w) (<[i := k x]> (threads w)))
| S_Evict key : step w (mkWorld (delete key (cells w)) (epoch w) (threads w))
| S_Clear : step w (mkWorld ∅ (epoch w + 1) (threads w)).

Definition initial : World := mkWorld ∅ 1 ∅.
Definition reachable (w : World) : Prop := rtc step initial w.
Definition well_behaved (w : World) : Prop := ∀ i p, threads w !! i = Some p → raises p.

Lemma reachable_well_behaved w : reachable w → well_behaved w.
Proof.
  unfold reachable. intros Hr.
  enough (∀ w0, rtc step w0 w → well_behaved w0 → well_behaved w) as H by (apply (H initial); [done|by intros ??]).
  clear Hr. intros w0 Hr. induction Hr as [|w0 w1 w2 Hs Hr IH]; [done|]. intros Hw. apply IH.
  destruct Hs as [i p Hp _|i c k x cells' Hi Ha|key|]; intros j q Hq; cbn in Hq; try by apply (Hw j).
  - destruct (decide (i = j)) as [->|]; simplify_map_eq; [done|by apply (Hw j)].
  - destruct (decide (i = j)) as [->|]; simplify_map_eq; [|by apply (Hw j)]. destruct (Hw _ _ Hi) as [_ Hk]. apply Hk.
Qed.

(** A step keeps each cell, raises it, or drops it. *)
Lemma step_raises w w' key old e' :
  well_behaved w → step w w' → cells w !! key = Some old → cells w' !! key = Some e' → presence_le (known old) (known e').
Proof.
  intros Hw Hs Ho He. destruct Hs as [i p _ _|i c k x cells' Hi Ha|key'|]; cbn in He.
  - simplify_eq. done.
  - destruct (Hw _ _ Hi) as [Hc _].
    destruct Ha as [| |key' expected e now a Hx _| | | | | |]; try (simplify_eq; done).
    destruct (decide (key' = key)) as [->|]; simplify_map_eq; [exact Hc|done].
  - apply lookup_delete_Some in He as [_ He]. simplify_eq. done.
  - done.
Qed.
End Shared.

(** ** Termination *)

(** Every round but the last ended with an insertion refused because the cell
    had changed. *)
Definition contended (ev : event oanswer) : bool :=
  match ev_call ev as c return oanswer c → bool with
  | O_Insert _ _ _ _ => λ a, match a with Ok a => bool_decide (a = MA_Rejected VersionChanged) | Err _ => false end
  | _ => λ _, false
  end (ev_answer ev).
Abbreviation everything := (any (λ _ : OCall, true)).

Section termination.
Lemma wp_rounds {A} (round : prog oanswer (result ObservationError (option A))) fuel h :
  (∀ h, wp everything round h (λ r h', ∃ l, h' = l ++ h ∧ (r = Ok None → (0 < length (filter (λ ev, contended ev = true) l))%nat))) →
  wp everything (rounds fuel round) h (λ r h', ∃ l, h' = l ++ h ∧
    (r = None → (fuel ≤ length (filter (λ ev, contended ev = true) l))%nat)).
Proof.
  intros Hr. revert h. induction fuel as [|fuel IH]; intros h; [by exists []|].
  cbn [rounds]. apply wp_bind. eapply wp_mono; [apply Hr|]. intros r h' (l & -> & Hl).
  destruct r as [[a|]|e]; [by exists l| |by exists l].
  eapply wp_mono; [apply IH|]. intros r h' (l' & -> & Hl'). exists (l' ++ l).
  split; [by rewrite app_assoc|]. intros Hn. rewrite filter_app, length_app. specialize (Hl eq_refl). specialize (Hl' Hn). lia.
Qed.

(** [ev] is a refusal in the round's record. *)
Lemma refused l key expected e now :
  Ev (O_Insert key expected e now) (Ok (MA_Rejected VersionChanged)) ∈ l →
  (0 < length (filter (λ ev, contended ev = true) l))%nat.
Proof.
  intros Hl. assert (Ev (O_Insert key expected e now) (Ok (MA_Rejected VersionChanged)) ∈
    filter (λ ev, contended ev = true) l) as Hf by (by apply list_elem_of_filter).
  destruct (filter _ l); [by apply elem_of_nil in Hf|cbn; lia].
Qed.

Lemma wp_admit_observation fuel key e now captured h :
  wp everything (admit_observation fuel key e now captured) h (λ r h', ∃ l, h' = l ++ h ∧
    (r = None → (fuel ≤ length (filter (λ ev, contended ev = true) l))%nat)).
Proof.
  apply wp_rounds. clear h. intros h. unfold admit_round, stamp_current.
  intros x h0 ->. cbn. destruct (negb _); [by exists [Ev O_Epoch x]|].
  intros [current|f] h1 ->; cbn; [|by eexists [_; _]].
  intros p h2 -> [a|f] h3 ->; cbn; [|by eexists [_; _; _; _]].
  destruct (decide (a = MA_Rejected VersionChanged)) as [->|Hne]; [|rewrite bool_decide_eq_false_2 by done; by eexists [_; _; _; _]].
  cbn. intros u h4 ->. eexists [_; _; _; _; _]. split; [done|]. intros _. eapply refused. right. left.
Qed.

Lemma wp_merge_maximum self fuel k maximum now captured h :
  wp everything (merge_maximum self fuel k maximum now captured) h (λ r h', ∃ l, h' = l ++ h ∧
    (r = None → (fuel ≤ length (filter (λ ev, contended ev = true) l))%nat)).
Proof.
  apply wp_rounds. clear h. intros h. unfold merge_round, stamp_current.
  intros x h0 ->. cbn. destruct (negb _); [by exists [Ev O_Epoch x]|].
  intros [[current|]|f] h1 ->; cbn; [|by eexists [_; _]..].
  destruct (bool_decide _); [by eexists [_; _]|].
  intros p h2 -> [a|f] h3 ->; cbn; [|by eexists [_; _; _; _]].
  destruct (decide (a = MA_Rejected VersionChanged)) as [->|Hne]; [|rewrite bool_decide_eq_false_2 by done; by eexists [_; _; _; _]].
  cbn. intros u h4 ->. eexists [_; _; _; _; _]. split; [done|]. intros _. eapply refused. right. left.
Qed.
End termination.

(** ** Keys *)
Section keys.
(** ["/"]. *)
Definition slash : Ascii.ascii := Ascii.ascii_of_N 47.
Fixpoint no_slash (s : string) : bool :=
  match s with EmptyString => true | String c s => negb (Ascii.eqb c slash) && no_slash s end.
Lemma slash_split a b s t :
  no_slash a = true → no_slash b = true → (a +:+ "/" +:+ s)%string = (b +:+ "/" +:+ t)%string → a = b ∧ s = t.
Proof.
  revert b. induction a as [|c a IH]; intros [|c' b]; cbn; intros Ha Hb H.
  - by injection H.
  - injection H as <- _. done.
  - injection H as -> _. done.
  - injection H as <- H. apply andb_true_iff in Ha as [_ Ha], Hb as [_ Hb].
    by destruct (IH b Ha Hb H) as [-> ->].
Qed.
Lemma no_slash_hex s : no_slash (hex_of s) = true.
Proof.
  unfold hex_of, encode_hex, bytes_of.
  assert (∀ c : Ascii.ascii, ∃ a b, [hex_char (Z.shiftr (Z.of_N (Ascii.N_of_ascii c)) 4);
    hex_char (Z.land (Z.of_N (Ascii.N_of_ascii c)) 15)] = [a; b] ∧ a ≠ slash ∧ b ≠ slash) as Hc.
  { intros c. eexists _, _. split; [done|]. by destruct c as [[] [] [] [] [] [] [] []]. }
  induction s as [|c s IH]; [done|]. cbn [list_of_string fmap list_fmap mbind list_bind].
  destruct (Hc c) as (a & b & -> & Ha%Ascii.eqb_neq & Hb%Ascii.eqb_neq). cbn in Ha, Hb |- *. by rewrite Ha, Hb.
Qed.
Lemma hex_of_inj s t : hex_of s = hex_of t → s = t.
Proof.
  intros H. unfold hex_of in H. apply (f_equal decode_hex) in H.
  assert (∀ s, Forall (λ b, 0 ≤ b ≤ 255) (bytes_of s)) as Hb.
  { intros r. unfold bytes_of. induction r as [|c r IH]; constructor; [|done].
    by destruct c as [[] [] [] [] [] [] [] []]. }
  rewrite !decode_encode_hex in H by apply Hb. injection H as H. revert t H.
  induction s as [|c s IH]; intros [|c' t]; cbn; intros H; try done.
  injection H as Hc%N2Z.inj H. apply (f_equal Ascii.ascii_of_N) in Hc. rewrite !Ascii.ascii_N_embedding in Hc.
  rewrite Hc. f_equal. by apply IH.
Qed.
Lemma observation_key_inj k k' : observation_key k = observation_key k' → k = k'.
Proof. destruct k, k'; cbn; intros H; by simplify_eq. Qed.
Lemma append_cancel p s t : (p +:+ s)%string = (p +:+ t)%string → s = t.
Proof. intros H. by apply append_inj_length in H as [_ ?]. Qed.
Lemma app_nil_str (s : string) : (s +:+ "")%string = s.
Proof. induction s as [|c s IH]; [done|]. exact (f_equal (String c) IH). Qed.
Lemma app_assoc_str (s t u : string) : ((s +:+ t) +:+ u)%string = (s +:+ (t +:+ u))%string.
Proof. induction s as [|c s IH]; [done|]. exact (f_equal (String c) IH). Qed.
(** What follows a scope in an ordinary key. *)
Definition marker_suffix (k : MarkerKind) : string :=
  match k with
  | MK_ClearRemove => "remove"
  | MK_ClearExpire => "expire"
  | MK_Tag tag => "tag:" +:+ decimal (str_len tag) +:+ ":" +:+ tag
  end%string.
Lemma marker_suffix_inj k k' : marker_suffix k = marker_suffix k' → k = k'.
Proof.
  destruct k as [t| |], k' as [t'| |]; cbn [marker_suffix]; intros H; try done.
  apply append_cancel in H. f_equal.
  apply (length_delimited_inj t t' "" "")%string.
  by rewrite !(app_nil_str _).
Qed.
Lemma ordinary_key_split s s' k k' : ordinary_key s k = ordinary_key s' k' →
  CacheScope.storage_id s = CacheScope.storage_id s' ∧ marker_suffix k = marker_suffix k'.
Proof.
  assert (∀ s k, ordinary_key s k = ("amalgam:byte-marker:" +:+ CacheScope.storage_id s +:+ ":" +:+ marker_suffix k)%string)
    as Hk by (by intros ? []).
  rewrite !Hk. intros H%append_cancel. unfold CacheScope.storage_id in *.
  rewrite !app_assoc_str in H. apply length_delimited_inj in H as [-> H].
  apply length_delimited_inj in H as [-> H]. split; [done|].
  by apply append_cancel in H.
Qed.
End keys.

Module ObserveTheorems.
Import Shared.

(** No observation forgets a maximum. Whatever operations of the
    observation memory run concurrently on it, in any order of their accesses
    (admissions, snapshot installations, fail-safe retentions, merges, eager
    claims, readiness probes), a step of any of them leaves every resident
    observation as it is or replaces it by one whose marker maximum is at least
    as large: a late or lower response never lowers what a node knows. Only
    eviction and a clear of the whole memory drop an observation. *)
Theorem observations_never_regress (self : Observations) :
  (∀ fuel k o opts now jitter captured, raises (store self fuel k o opts now jitter captured)) ∧
  (∀ fuel k o s opts now captured, raises (store_snapshot self fuel k o s opts now captured)) ∧
  (∀ fuel k m now captured, raises (merge_maximum self fuel k m now captured)) ∧
  (∀ fuel k s pr opts now f captured, raises (retain_snapshot_fallback self fuel k s pr opts now f captured)) ∧
  (∀ k source opts now f, raises (retain_fallback self k source opts now f)) ∧
  (∀ k current now, raises (claim_eager self k current now)) ∧
  (∀ clears k opts now epoch s, raises (ready_value self clears k opts now epoch s)) ∧
  (∀ w w' key old e, reachable w → step w w' → cells w !! key = Some old → cells w' !! key = Some e →
     presence_le (known old) (known e)).
Proof.
  split_and!; [apply raises_store|apply raises_store_snapshot|apply raises_merge_maximum|
    apply raises_retain_snapshot_fallback|apply raises_retain_fallback|apply raises_claim_eager|
    apply raises_ready_value|].
  intros w w' key old e Hw. by apply step_raises, reachable_well_behaved.
Qed.

(** Two writers of one marker: the second read before the first inserted, and
    starts over. *)
Definition sample_meta : Metadata :=
  mkMetadata 0 0 100 100 Duration_ZERO (EO_Fresh None) None None [] RM_Unspecified.
Definition sample_observation (p : Loc) (v : MarkerVersion) : Entry MarkerObservation :=
  mkEntry p (mkInner (KnownMaximum v) sample_meta EL_Local).
Definition first_writer : prog oanswer unit :=
  let* _ := call (ans := oanswer) (O_Insert "k" None (sample_observation 1 5) 0) in Ret tt.
Definition second_writer : prog oanswer unit :=
  let* _ := call (ans := oanswer) (O_Insert "k" (Some (sample_observation 1 5)) (sample_observation 2 7) 0) in Ret tt.
Definition sample_threads : gmap nat (prog oanswer unit) :=
  <[1%nat := second_writer]> (<[0%nat := Ret tt]> (<[0%nat := first_writer]> ∅)).
Definition sample_world : World := mkWorld (<["k" := sample_observation 1 5]> ∅) 1 sample_threads.

Lemma observations_never_regress_witness :
  presence_le (known (sample_observation 1 5)) (known (sample_observation 2 7)).
Proof.
  destruct (observations_never_regress (mkObservations (NS_Local "app") false DurableOnly 1))
    as (_ & _ & _ & _ & _ & _ & _ & H).
  apply (H sample_world (mkWorld (<["k" := sample_observation 2 7]> (<["k" := sample_observation 1 5]> ∅)) 1
    (<[1%nat := Ret tt]> sample_threads)) "k"); try reflexivity.
  - eapply rtc_l; [apply (S_Start _ 0 first_writer); [by split|reflexivity]|].
    eapply rtc_l; [eapply (S_Run _ 0); [reflexivity|by apply (A_Insert _ _ _ _ _ MA_Admitted)]|].
    eapply rtc_l; [apply (S_Start _ 1 second_writer); [by split|reflexivity]|]. apply rtc_refl.
  - eapply (S_Run sample_world 1 (O_Insert "k" (Some (sample_observation 1 5)) (sample_observation 2 7) 0) (λ _, Ret tt)
      (Ok MA_Admitted)); [reflexivity|by apply (A_Insert sample_world)].
Defined.

(** An admission ends as soon as nobody contends for its key. A loop
    that has not ended after [fuel] rounds was refused [fuel] times, and each
    refusal is the memory's answer that another writer had changed the entry
    since this one read it: as many rounds as there were competing changes, and
    one, are enough. *)
Theorem admissions_end_without_contention self fuel key e now captured k maximum h :
  wp everything (admit_observation fuel key e now captured) h (λ r h', ∃ l, h' = l ++ h ∧
    (r = None → (fuel ≤ length (filter (λ ev, contended ev = true) l))%nat)) ∧
  wp everything (merge_maximum self fuel k maximum now captured) h (λ r h', ∃ l, h' = l ++ h ∧
    (r = None → (fuel ≤ length (filter (λ ev, contended ev = true) l))%nat)).
Proof. split; [apply wp_admit_observation|apply wp_merge_maximum]. Qed.

(** Two markers never share a key. In the observation memory, among
    the leases of marker refreshes and among the ordinary byte markers, the keys
    of two markers are equal only if the markers are, in the same scope (in the
    memory: in the same namespace, local or durable), whatever separators occur
    in scopes, prefixes and tags. *)
Theorem marker_keys_collision_free (k k' : MarkerKind) :
  (∀ ns ns', namespace_key ns k = namespace_key ns' k' ↔
     k = k' ∧ match ns, ns' with
              | NS_Local p, NS_Local p' => p = p'
              | NS_Durable s, NS_Durable s' => CacheScope.eqb s s' = true
              | _, _ => False
              end) ∧
  (∀ s s', marker_lease_key s k = marker_lease_key s' k' ↔ k = k' ∧ CacheScope.eqb s s' = true) ∧
  (∀ s s', ordinary_key s k = ordinary_key s' k' ↔ k = k' ∧ CacheScope.eqb s s' = true).
Proof.
  assert (∀ a b : string, (hex_of a +:+ "/" +:+ hex_of (observation_key k))%string =
    (hex_of b +:+ "/" +:+ hex_of (observation_key k'))%string ↔ k = k' ∧ a = b) as Hhex.
  { intros a b. split; [|by intros [-> ->]]. intros H. apply slash_split in H as [->%hex_of_inj H%hex_of_inj];
      [|apply no_slash_hex..]. by apply observation_key_inj in H. }
  split_and!.
  - intros [p|s] [p'|s']; unfold namespace_key.
    + rewrite <- Hhex. split; [by intros H%append_cancel%append_cancel%append_cancel%append_cancel|by intros ->].
    + split; [|by intros []]. by intros H%append_cancel%append_cancel.
    + split; [|by intros []]. by intros H%append_cancel%append_cancel.
    + rewrite <- storage_id_collision_free, <- Hhex.
      split; [by intros H%append_cancel%append_cancel%append_cancel%append_cancel|by intros ->].
  - intros s s'. unfold marker_lease_key. rewrite <- storage_id_collision_free, <- Hhex.
    split; [|by intros ->]. by intros H%append_cancel%append_cancel.
  - intros s s'. rewrite <- storage_id_collision_free. split; [|intros [-> Hs]; unfold ordinary_key; by rewrite Hs].
    intros H. apply ordinary_key_split in H as [-> H]. split; [|done]. by apply marker_suffix_inj.
Qed.
End ObserveTheorems.
