(* ===== verification/Factory.v ===== *)
(** * Factories and their products

    Models [src/src/factory.rs] and [src/src/factory/feedback.rs]: the context a
    factory adapts, the conditional builders, and the cell through which an
    adaptation reaches the product. A factory returns a plain value; options,
    tags and validators travel beside it in the cell of its execution, which
    each adaptation overwrites and the completion takes. *)
From S2P Require Import Prelude Time Options Tags Cancellation.

(** ** Data *)
Inductive FactoryError := FE_Message | FE_Source | FE_Cancelled (reason : CancellationReason).

Inductive TagRequest := TR_Inherited | TR_Valid (tags : list Tag) | TR_Rejected (e : TagError).
Inductive FactoryInvocation := FI_Foreground | FI_EagerRefresh.
Inductive ProductOrigin := PO_Constant | PO_Modified | PO_NotModified.

(** Metadata of a modified value, or of a kept one. *)
Inductive ProducedMetadata :=
| PD_Modified (etag : option string) (last_modified : option Timestamp)
| PD_NotModified (etag : option string) (last_modified : option Timestamp).
Record FactoryAdaptation := mkAdaptation {
  adapted_options : EntryOptions; adapted_tags : result TagError (list Tag);
  adapted_metadata : ProducedMetadata }.
(** [FactoryFeedback]: a cell that was never used holds nothing either. *)
Definition FactoryFeedback : Type := option FactoryAdaptation.

Inductive ValidatorUpdate (T : Type) := Retain | Replace (value : T) | Clear.
Arguments Retain {T}.
Arguments Replace {T}.
Arguments Clear {T}.

Section data.
Context {V : Type}.

Record StaleInfo := mkStale {
  stale_value : V; stale_etag : option string; stale_last_modified : option Timestamp;
  stale_tags : list Tag }.

Inductive FactoryOutput :=
| FO_Constant (v : V) (tags : result TagError (list Tag))
| FO_Modified (v : V) (etag : option string) (last_modified : option Timestamp)
    (tags : result TagError (list Tag))
| FO_NotModified (stale : StaleInfo) (tags : result TagError (list Tag)).
Record FactoryProduct := mkProduct { product_output : FactoryOutput; product_options : EntryOptions }.

Record FactoryPayload := mkPayload {
  payload_value : V; payload_options : EntryOptions; payload_etag : option string;
  payload_last_modified : option Timestamp; payload_tags : list Tag; payload_origin : ProductOrigin }.

Definition into_payload (product : FactoryProduct) : result TagError FactoryPayload :=
  let options := product_options product in
  match product_output product with
  | FO_Constant v tags => tags ← tags; Ok (mkPayload v options None None tags PO_Constant)
  | FO_Modified v etag last_modified tags =>
      tags ← tags; Ok (mkPayload v options etag last_modified tags PO_Modified)
  | FO_NotModified stale tags =>
      tags ← tags;
      Ok (mkPayload (stale_value stale) options (stale_etag stale) (stale_last_modified stale) tags PO_NotModified)
  end.

(** The cancellation token of a context is its execution's: it names the cell. *)
Record FactoryContext := mkContext {
  context_invocation : FactoryInvocation; context_raw : string; context_key : string;
  context_options : EntryOptions; context_call_tags : list Tag; context_adaptive_tags : TagRequest;
  context_stale : option StaleInfo }.
#[export] Instance eta_context : Eta FactoryContext := λ c,
  mkContext (context_invocation c) (context_raw c) (context_key c) (context_options c) (context_call_tags c)
    (context_adaptive_tags c) (context_stale c).
End data.
Arguments StaleInfo : clear implicits.
Arguments FactoryOutput : clear implicits.
Arguments FactoryProduct : clear implicits.
Arguments FactoryPayload : clear implicits.
Arguments FactoryContext : clear implicits.

Module TagRequest.
Definition resolve (self : TagRequest) (fallback : list Tag) : result TagError (list Tag) :=
  match self with TR_Inherited => Ok fallback | TR_Valid tags => Ok tags | TR_Rejected e => Err e end.
(** The legacy adapter keeps what was wrong with the tags. *)
Definition legacy (raw : list string) : TagRequest :=
  match try_collect_tags raw with Ok tags => TR_Valid tags | Err e => TR_Rejected e end.
End TagRequest.

Definition validator_apply {T} (self : ValidatorUpdate T) (previous : option T) : option T :=
  match self with Retain => previous | Replace value => Some value | Clear => None end.

(** ** The context's operations *)
Module FactoryContext.
Section context.
Context {V : Type}.
Implicit Types (self : FactoryContext V) (cell : FactoryFeedback).

Definition with_cancellation (raw full : string) (options : EntryOptions) (call_tags : list Tag)
    (stale : option (StaleInfo V)) : FactoryContext V :=
  mkContext FI_Foreground raw full options call_tags TR_Inherited stale.
Definition with_invocation self (invocation : FactoryInvocation) : FactoryContext V :=
  self <| context_invocation := invocation |>.

Definition tags self : result TagError (list Tag) :=
  match context_adaptive_tags self with
  | TR_Inherited => Ok (context_call_tags self)
  | TR_Valid tags => Ok tags
  | TR_Rejected e => Err e
  end.

(** [FactoryFeedback::publish] replaces what the cell held. *)
Definition publish cell (adaptation : FactoryAdaptation) : FactoryFeedback := Some adaptation.
Definition publish_adaptation self cell : FactoryFeedback :=
  publish cell (mkAdaptation (context_options self)
    (TagRequest.resolve (context_adaptive_tags self) (context_call_tags self)) (PD_Modified None None)).

(** [adapt]; releasing [options_mut]'s view publishes in the same way. *)
Definition adapt self cell (f : EntryOptions → EntryOptions) : FactoryContext V * FactoryFeedback :=
  let self := self <| context_options := f (context_options self) |> in (self, publish_adaptation self cell).
Definition set_request self cell (request : TagRequest) : FactoryContext V * FactoryFeedback :=
  let self := self <| context_adaptive_tags := request |> in (self, publish_adaptation self cell).
Definition set_validated_tags self cell (tags : list Tag) := set_request self cell (TR_Valid tags).
Definition try_set_tags self cell (raw : list string)
    : result TagError (FactoryContext V * FactoryFeedback) :=
  tags ← try_collect_tags raw; Ok (set_request self cell (TR_Valid tags)).
Definition set_tags self cell (raw : list string) := set_request self cell (TagRequest.legacy raw).

Definition constant self (v : V) : FactoryProduct V :=
  mkProduct (FO_Constant v (TagRequest.resolve (context_adaptive_tags self) (context_call_tags self)))
    (context_options self).

Definition not_modified self cell : result FactoryError (V * FactoryFeedback) :=
  match context_stale self with
  | None => Err FE_Message
  | Some stale =>
      Ok (stale_value stale,
          publish cell (mkAdaptation (context_options self)
            (TagRequest.resolve (context_adaptive_tags self) (stale_tags stale))
            (PD_NotModified (stale_etag stale) (stale_last_modified stale))))
  end.
End context.
End FactoryContext.

(** ** The builders *)
Record NotModifiedBuilder (V : Type) := mkNotModified {
  nm_stale : StaleInfo V; nm_options : EntryOptions; nm_tags : TagRequest;
  nm_etag : ValidatorUpdate string; nm_last_modified : ValidatorUpdate Timestamp }.
Arguments mkNotModified {V}.
Arguments nm_stale {V}.
Arguments nm_options {V}.
Arguments nm_tags {V}.
Arguments nm_etag {V}.
Arguments nm_last_modified {V}.

Record ModifiedBuilder (V : Type) := mkModified {
  md_ctx : FactoryContext V; md_value : V; md_etag : option string;
  md_last_modified : option Timestamp; md_tags : TagRequest }.
Arguments mkModified {V}.
Arguments md_ctx {V}.
Arguments md_value {V}.
Arguments md_etag {V}.
Arguments md_last_modified {V}.
Arguments md_tags {V}.

Section builders.
Context {V : Type}.

(** [ConditionalRefreshError::NoStaleSnapshot] is the [None]. *)
Definition not_modified_builder (self : FactoryContext V) : option (NotModifiedBuilder V) :=
  match context_stale self with
  | None => None
  | Some stale =>
      Some (mkNotModified stale (context_options self)
        match context_adaptive_tags self with
        | TR_Inherited | TR_Valid _ => TR_Inherited
        | TR_Rejected e => TR_Rejected e
        end Retain Retain)
  end.

Inductive NotModifiedStep : Type :=
| NS_Etag (update : ValidatorUpdate string) | NS_LastModified (update : ValidatorUpdate Timestamp)
| NS_ValidatedTags (tags : list Tag).
Definition not_modified_step (b : NotModifiedBuilder V) (s : NotModifiedStep) : NotModifiedBuilder V :=
  match s with
  | NS_Etag update => mkNotModified (nm_stale b) (nm_options b) (nm_tags b) update (nm_last_modified b)
  | NS_LastModified update => mkNotModified (nm_stale b) (nm_options b) (nm_tags b) (nm_etag b) update
  | NS_ValidatedTags tags =>
      mkNotModified (nm_stale b) (nm_options b) (TR_Valid tags) (nm_etag b) (nm_last_modified b)
  end.
Definition not_modified_done (b : NotModifiedBuilder V) (cell : FactoryFeedback) : V * FactoryFeedback :=
  let stale := nm_stale b in
  (stale_value stale,
   FactoryContext.publish cell (mkAdaptation (nm_options b) (TagRequest.resolve (nm_tags b) (stale_tags stale))
     (PD_NotModified (validator_apply (nm_etag b) (stale_etag stale))
        (validator_apply (nm_last_modified b) (stale_last_modified stale))))).

Definition modified (self : FactoryContext V) (v : V) : ModifiedBuilder V :=
  mkModified self v None None TR_Inherited.
Inductive ModifiedStep :=
| MS_Etag (etag : string) | MS_LastModified (at_ : Timestamp) | MS_ValidatedTags (tags : list Tag)
| MS_TryTags (raw : list string) | MS_Tags (raw : list string).
(** [try_tags] consumes the builder when it rejects. *)
Definition modified_step (b : ModifiedBuilder V) (s : ModifiedStep) : result TagError (ModifiedBuilder V) :=
  let with_tags tags := mkModified (md_ctx b) (md_value b) (md_etag b) (md_last_modified b) tags in
  match s with
  | MS_Etag etag => Ok (mkModified (md_ctx b) (md_value b) (Some etag) (md_last_modified b) (md_tags b))
  | MS_LastModified at_ => Ok (mkModified (md_ctx b) (md_value b) (md_etag b) (Some at_) (md_tags b))
  | MS_ValidatedTags tags => Ok (with_tags (TR_Valid tags))
  | MS_TryTags raw => tags ← try_collect_tags raw; Ok (with_tags (TR_Valid tags))
  | MS_Tags raw => Ok (with_tags (TagRequest.legacy raw))
  end.
Definition modified_done (b : ModifiedBuilder V) (cell : FactoryFeedback) : V * FactoryFeedback :=
  let ctx := md_ctx b in
  let inherited := TagRequest.resolve (context_adaptive_tags ctx) (context_call_tags ctx) in
  let tags := match md_tags b with
              | TR_Inherited => inherited
              | TR_Valid tags => Ok tags
              | TR_Rejected e => Err e
              end in
  (md_value b,
   FactoryContext.publish cell
     (mkAdaptation (context_options ctx) tags (PD_Modified (md_etag b) (md_last_modified b)))).
End builders.

(** ** Completion

    [FactoryCompletion] is captured before the factory runs: it has the call's
    options and tags, and takes whatever the cell then holds. *)
Definition complete {V} (options : EntryOptions) (tags : list Tag) (cell : FactoryFeedback) (v : V)
    : FactoryProduct V :=
  let adaptation := default (mkAdaptation options (Ok tags) (PD_Modified None None)) cell in
  mkProduct
    match adapted_metadata adaptation with
    | PD_Modified etag last_modified => FO_Modified v etag last_modified (adapted_tags adaptation)
    | PD_NotModified etag last_modified =>
        FO_NotModified (mkStale v etag last_modified []) (adapted_tags adaptation)
    end (adapted_options adaptation).

(** ** A factory as a script

    What user code can do with its context before it returns a value. *)
Module Factories.
Section script.
Context {V : Type}.

Inductive Adapt :=
| AD_Adapt (f : EntryOptions → EntryOptions) | AD_ValidatedTags (tags : list Tag)
| AD_TryTags (raw : list string) | AD_Tags (raw : list string).
Inductive Finish :=
| FN_Value (v : V)
| FN_Modified (v : V) (steps : list ModifiedStep)
| FN_NotModified
| FN_NotModifiedBuilder (steps : list NotModifiedStep)
| FN_Fail (e : FactoryError).

(** A rejected [try_set_tags] changes nothing; the factory may go on. *)
Definition adapt_step (s : FactoryContext V * FactoryFeedback) (a : Adapt) : FactoryContext V * FactoryFeedback :=
  let '(ctx, cell) := s in
  match a with
  | AD_Adapt f => FactoryContext.adapt ctx cell f
  | AD_ValidatedTags tags => FactoryContext.set_validated_tags ctx cell tags
  | AD_TryTags raw => match FactoryContext.try_set_tags ctx cell raw with Ok s => s | Err _ => (ctx, cell) end
  | AD_Tags raw => FactoryContext.set_tags ctx cell raw
  end.
Fixpoint modified_steps (b : ModifiedBuilder V) (steps : list ModifiedStep) : result TagError (ModifiedBuilder V) :=
  match steps with [] => Ok b | s :: steps => b ← modified_step b s; modified_steps b steps end.

(** [CacheOrigin::invoke]: the completion is captured, the factory runs, and
    the value it returns is completed from the cell. *)
Definition invoke (ctx : FactoryContext V) (adapts : list Adapt) (finish : Finish)
    : result FactoryError (FactoryProduct V) :=
  let complete := complete (context_options ctx) (context_call_tags ctx) in
  let '(ctx, cell) := foldl adapt_step (ctx, None) adapts in
  match finish with
  | FN_Value v => Ok (complete cell v)
  | FN_Modified v steps =>
      match modified_steps (modified ctx v) steps with
      | Ok b => let '(v, cell) := modified_done b cell in Ok (complete cell v)
      | Err _ => Err FE_Source
      end
  | FN_NotModified =>
      match FactoryContext.not_modified ctx cell with
      | Ok (v, cell) => Ok (complete cell v)
      | Err e => Err e
      end
  | FN_NotModifiedBuilder steps =>
      match not_modified_builder ctx with
      | Some b => let '(v, cell) := not_modified_done (foldl not_modified_step b steps) cell in Ok (complete cell v)
      | None => Err FE_Source
      end
  | FN_Fail e => Err e
  end.

(** *** What a script asks for, without the cell *)
Definition options_after (options : EntryOptions) (adapts : list Adapt) : EntryOptions :=
  foldl (λ o a, match a with AD_Adapt f => f o | _ => o end) options adapts.
Definition request_of (r : TagRequest) (a : Adapt) : TagRequest :=
  match a with
  | AD_Adapt _ => r
  | AD_ValidatedTags tags => TR_Valid tags
  | AD_TryTags raw => match try_collect_tags raw with Ok tags => TR_Valid tags | Err _ => r end
  | AD_Tags raw => TagRequest.legacy raw
  end.
Definition request_after (adapts : list Adapt) : TagRequest := foldl request_of TR_Inherited adapts.

(** The last accepted word of each kind. *)
Definition last_some {A B} (f : A → option B) (b : B) (l : list A) : B :=
  foldl (λ b a, default b (f a)) b l.
Definition builder_tags (s : ModifiedStep) : option TagRequest :=
  match s with
  | MS_ValidatedTags tags => Some (TR_Valid tags)
  | MS_TryTags raw => match try_collect_tags raw with Ok tags => Some (TR_Valid tags) | Err _ => None end
  | MS_Tags raw => Some (TagRequest.legacy raw)
  | _ => None
  end.
Definition builder_etag (s : ModifiedStep) : option (option string) :=
  match s with MS_Etag etag => Some (Some etag) | _ => None end.
Definition builder_last_modified (s : ModifiedStep) : option (option Timestamp) :=
  match s with MS_LastModified at_ => Some (Some at_) | _ => None end.
Definition rejects (s : ModifiedStep) : bool :=
  match s with MS_TryTags raw => negb (is_ok (try_collect_tags raw)) | _ => false end.
Definition update_etag (s : NotModifiedStep) : option (ValidatorUpdate string) :=
  match s with NS_Etag u => Some u | _ => None end.
Definition update_last_modified (s : NotModifiedStep) : option (ValidatorUpdate Timestamp) :=
  match s with NS_LastModified u => Some u | _ => None end.
Definition update_tags (s : NotModifiedStep) : option TagRequest :=
  match s with NS_ValidatedTags tags => Some (TR_Valid tags) | _ => None end.

Definition product_of (options : EntryOptions) (call_tags : list Tag) (stale : option (StaleInfo V))
    (adapts : list Adapt) (finish : Finish) : result FactoryError (FactoryProduct V) :=
  let request := request_after adapts in
  let product output := Ok (mkProduct output (options_after options adapts)) in
  match finish with
  | FN_Value v => product (FO_Modified v None None (TagRequest.resolve request call_tags))
  | FN_Modified v steps =>
      if existsb rejects steps then Err FE_Source
      else product (FO_Modified v (last_some builder_etag None steps) (last_some builder_last_modified None steps)
             match last_some builder_tags TR_Inherited steps with
             | TR_Inherited => TagRequest.resolve request call_tags
             | TR_Valid tags => Ok tags
             | TR_Rejected e => Err e
             end)
  | FN_NotModified =>
      match stale with
      | None => Err FE_Message
      | Some s => product (FO_NotModified (mkStale (stale_value s) (stale_etag s) (stale_last_modified s) [])
                    (TagRequest.resolve request (stale_tags s)))
      end
  | FN_NotModifiedBuilder steps =>
      match stale with
      | None => Err FE_Source
      | Some s =>
          product (FO_NotModified
            (mkStale (stale_value s)
               (validator_apply (last_some update_etag Retain steps) (stale_etag s))
               (validator_apply (last_some update_last_modified Retain steps) (stale_last_modified s)) [])
            (TagRequest.resolve
               (last_some update_tags (match request with TR_Rejected e => TR_Rejected e | _ => TR_Inherited end) steps)
               (stale_tags s)))
      end
  | FN_Fail e => Err e
  end.

(** *** The cell follows the context *)
Definition follows (ctx0 : FactoryContext V) (adapts : list Adapt) (s : FactoryContext V * FactoryFeedback) : Prop :=
  let '(ctx, cell) := s in
  context_options ctx = options_after (context_options ctx0) adapts ∧
  context_adaptive_tags ctx = foldl request_of (context_adaptive_tags ctx0) adapts ∧
  context_call_tags ctx = context_call_tags ctx0 ∧ context_stale ctx = context_stale ctx0 ∧
  (cell = Some (mkAdaptation (context_options ctx)
     (TagRequest.resolve (context_adaptive_tags ctx) (context_call_tags ctx)) (PD_Modified None None))
   ∨ cell = None ∧ context_options ctx = context_options ctx0 ∧
     context_adaptive_tags ctx = context_adaptive_tags ctx0).

Lemma adapt_step_follows ctx0 adapts s a :
  follows ctx0 adapts s → follows ctx0 (adapts ++ [a]) (adapt_step s a).
Proof.
  destruct s as [ctx cell]. intros (Ho & Hr & Ht & Hs & Hcell). unfold follows, options_after.
  destruct a as [f|tags|raw|raw]; cbn; rewrite !foldl_app; cbn.
  - rewrite Ho, Hr, Ht. split_and!; auto.
  - rewrite Ho, Ht. split_and!; auto.
  - unfold FactoryContext.try_set_tags. destruct (try_collect_tags raw) as [tags|e]; cbn; rewrite Ho, Ht.
    + split_and!; auto.
    + split_and!; auto. destruct Hcell as [->|(-> & Ho' & Hr')]; [left; by rewrite Ho, Ht|right; by rewrite <- Ho].
  - rewrite Ho, Ht. split_and!; auto.
Qed.
Lemma adapts_follow ctx0 adapts : follows ctx0 adapts (foldl adapt_step (ctx0, None) adapts).
Proof.
  induction adapts as [|a adapts IH] using rev_ind; [by cbn; split_and!; auto|].
  rewrite foldl_app. by apply adapt_step_follows.
Qed.

Lemma modified_steps_exact (b : ModifiedBuilder V) steps :
  modified_steps b steps =
  if existsb rejects steps then
    match modified_steps b steps with Err e => Err e | Ok b => Ok b end
  else Ok (mkModified (md_ctx b) (md_value b) (last_some builder_etag (md_etag b) steps)
             (last_some builder_last_modified (md_last_modified b) steps)
             (last_some builder_tags (md_tags b) steps)).
Proof.
  revert b. induction steps as [|s steps IH]; intros b; [by destruct b|].
  cbn [existsb]. destruct (rejects s || existsb rejects steps) eqn:Hr; [by destruct (modified_steps _ _)|].
  apply orb_false_iff in Hr as [Hs Hr]. destruct s as [etag|at_|tags|raw|raw]; cbn in *.
  all: try (rewrite IH, Hr; reflexivity).
  destruct (try_collect_tags raw) as [tags|]; [|done]. cbn. rewrite IH, Hr. reflexivity.
Qed.
Lemma modified_steps_reject (b : ModifiedBuilder V) steps :
  existsb rejects steps = true → is_ok (modified_steps b steps) = false.
Proof.
  revert b. induction steps as [|s steps IH]; intros b; [done|]. cbn [existsb modified_steps].
  intros [Hs|Hs]%orb_true_iff.
  - destruct s as [| | |raw|]; try done. cbn in *. by destruct (try_collect_tags raw).
  - destruct (modified_step b s) as [b'|e]; cbn; [by apply IH|done].
Qed.
Lemma not_modified_steps_exact (b : NotModifiedBuilder V) steps :
  foldl not_modified_step b steps =
  mkNotModified (nm_stale b) (nm_options b) (last_some update_tags (nm_tags b) steps)
    (last_some update_etag (nm_etag b) steps) (last_some update_last_modified (nm_last_modified b) steps).
Proof.
  revert b. induction steps as [|s steps IH]; intros b; [by destruct b|].
  cbn [foldl]. rewrite IH. by destruct s.
Qed.

(** The cell is exact: a product has exactly what its script asked for. For
    every script of adaptations and every way to finish, the product completed
    from the shared cell is the one computed without it: the options after every
    adaptation in order, the tags of the last accepted request (a rejected
    [try_set_tags] leaves the previous request, a rejected legacy one is kept as
    the error), the builder's own tags and validators before the context's, the
    stale snapshot's value, validators and tags for a kept product, and the
    call's own options and tags when nothing was adapted. A conditional product
    without a stale snapshot, and a builder whose tags are rejected, fail. *)
Theorem factory_products_exact raw full options call_tags stale adapts finish :
  invoke (FactoryContext.with_cancellation raw full options call_tags stale) adapts finish =
  product_of options call_tags stale adapts finish.
Proof.
  unfold invoke. set (ctx0 := FactoryContext.with_cancellation raw full options call_tags stale).
  pose proof (adapts_follow ctx0 adapts) as Hf.
  destruct (foldl adapt_step (ctx0, None) adapts) as [ctx cell].
  destruct Hf as (Ho & Hr & Ht & Hs & Hcell). cbn in Ho, Hr, Ht, Hs.
  destruct finish as [v|v steps| |steps|e]; [..|done]; cbn [product_of].
  - destruct Hcell as [->|(-> & Ho' & Hr')]; cbn; [by rewrite Ho, Hr, Ht|].
    unfold request_after. cbn in Ho', Hr'. rewrite <- Hr, <- Ho, Hr'. by rewrite Ho'.
  - destruct (existsb rejects steps) eqn:Hrej.
    { pose proof (modified_steps_reject (modified ctx v) steps Hrej). by destruct (modified_steps _ _). }
    rewrite modified_steps_exact, Hrej. cbn. by rewrite Ho, Hr, Ht.
  - unfold FactoryContext.not_modified. rewrite Hs. destruct stale as [s|]; cbn; [|done]. by rewrite Ho, Hr.
  - unfold not_modified_builder. rewrite Hs. destruct stale as [s|]; cbn; [|done].
    rewrite not_modified_steps_exact. cbn. rewrite Ho, Hr. unfold request_after. by destruct (foldl _ _ _).
Qed.

(** Invalid tags never silently disappear: whatever the product, a rejected
    request is the error of its payload. *)
Lemma rejected_tags_are_errors product e :
  match product_output product with
  | FO_Constant _ tags | FO_Modified _ _ _ tags | FO_NotModified _ tags => tags = Err e
  end → into_payload (V := V) product = Err e.
Proof. unfold into_payload. by destruct (product_output product); intros ->. Qed.
End script.
End Factories.
