(* ===== verification/Worker.v ===== *)
(** * The worker: what every value pipeline shares

    Models the worker-wide part of [src/src/cache.rs] and [src/src/cache/ready.rs],
    the error and outcome types of [src/src/error.rs] and [src/src/events.rs], the
    copy policy of [src/src/serializers.rs] and [src/src/cache/distributed_key.rs].

    A pipeline is a program over [Call]: one constructor per access to a
    component that other tasks share, to a provider, or to the observers. The
    immutable configuration of the cache ([CacheInner]) is the record [Inner].
    Errors keep their family; the messages and sources they carry are dropped,
    as are tracing spans and log lines. *)
From Stdlib Require Init.Byte.
From S2P Require Import Prelude Time Calls Circuit Options Entry Tags Backplane Cancellation Factory.
From S2P Require Import Invalidation Storage Lanes Wire Lease Recovery.

(** ** Errors *)
Inductive CloneError := CL_Serialization | CL_Deserialization | CL_Custom.
Inductive CodecError := CO_Serialization | CO_Deserialization.
Inductive TransportError := TE_Distributed | TE_Backplane.
Inductive CircuitComponent := CC_Distributed | CC_Backplane.
#[export] Instance CircuitComponent_eq_dec : EqDecision CircuitComponent.
Proof. solve_decision. Defined.

(** [Error]; [CE_Panic] is a panic that unwinds through the operation. *)
Inductive CacheError :=
| CE_ReentrantDrain | CE_Tag (e : TagError) | CE_Marker (e : MarkerError) | CE_Lease (e : LeaseError)
| CE_MemoryLocker | CE_MemoryStorage | CE_MarkerMemoryStorage | CE_MemoryInvalidation
| CE_Recovery (e : RecoveryError) | CE_Shutdown | CE_Config (e : ConfigError) | CE_Clone (e : CloneError)
| CE_Plugin | CE_Registry | CE_Factory | CE_FactoryWithSource | CE_FactoryPanicked
| CE_FactoryCancelled (reason : CancellationReason) | CE_OperationCancelled (reason : CancellationReason)
| CE_CacheClosed | CE_CircuitOpen (component : CircuitComponent) | CE_FactoryTimeout (elapsed : Duration)
| CE_LockTimeout (elapsed : Duration) | CE_DistributedTimeout (elapsed : Duration)
| CE_Serialization | CE_Deserialization | CE_Codec (e : CodecError) | CE_Distributed | CE_Backplane
| CE_Transport (e : TransportError) | CE_Panic.

(** The [From] conversions that [?] applies. *)
Definition map_err {X Y A} (f : X → Y) (r : result X A) : result Y A :=
  match r with Ok a => Ok a | Err e => Err (f e) end.
Definition from_entry_error (e : Error) : CacheError :=
  match e with Config e => CE_Config e | Panicked => CE_Panic end.
Definition from_factory_error (e : FactoryError) : CacheError :=
  match e with
  | FE_Message => CE_Factory
  | FE_Source => CE_FactoryWithSource
  | FE_Cancelled reason => CE_FactoryCancelled reason
  end.
Definition from_wire_error (e : WireError) : CacheError :=
  match e with
  | Serialization => CE_Codec CO_Serialization
  | Deserialization => CE_Codec CO_Deserialization
  | WE_Tag e => CE_Tag e
  | WE_Entry e => from_entry_error e
  | OperationCancelled r => CE_OperationCancelled r
  end.

(** ** Observations *)
Inductive CacheLevel := CL_Memory | CL_Distributed | CL_Origin | CL_Backplane.
Inductive OperationOutcome := OO_Hit | OO_StaleHit | OO_Miss | OO_Stored | OO_Removed | OO_Expired.

(** [LayerEvent] and [CacheEvent], as far as the pipelines emit them. *)
Inductive LayerEvent :=
| LE_MemoryMiss (key : string) | LE_MemoryHit (key : string) (stale : bool) | LE_MemoryRemove (key : string)
| LE_DistributedMiss (key : string) | LE_DistributedHit (key : string) (stale : bool)
| LE_DistributedSet (key : string) | LE_DistributedRemove (key : string)
| LE_DistributedCircuit (closed : bool) | LE_BackplaneCircuit (closed : bool)
| LE_SerializationError (key : string) | LE_DeserializationError (key : string)
| LE_MessagePublished (command : BackplaneCommand).
Inductive CacheEvent :=
| EV_Hit (key : string) (stale : bool) | EV_Miss (key : string) | EV_Set (key : string)
| EV_Remove (key : string) | EV_Expire (key : string) | EV_FailSafeActivate (key : string)
| EV_EagerRefresh (key : string) | EV_CircuitBreakerChange (component : CircuitComponent) (closed : bool)
| EV_SerializationError (key : string) | EV_DeserializationError (key : string)
| EV_MessagePublished (key : string) | EV_FactorySyntheticTimeout (key : string) | EV_FactorySuccess (key : string)
| EV_BackgroundFactorySuccess (key : string) | EV_FactoryError (key : string).
Inductive Notice := N_Layer (e : LayerEvent) | N_Cache (e : CacheEvent).

(** Why an optional stage was omitted. *)
Inductive SkipReason := SK_Policy | SK_PhysicallyExpired | SK_Superseded.

Record Observed (T : Type) := mkObserved {
  observed_value : T; observed_outcome : OperationOutcome; observed_level : option CacheLevel }.
Arguments mkObserved {T}.
Arguments observed_value {T}.
Arguments observed_outcome {T}.
Arguments observed_level {T}.

(** ** Physical keys *)
Inductive DistributedKey := DK_Prefix (prefix : string) | DK_Suffix (suffix : string) | DK_Unmodified.

Module DistributedKey.
Definition new (version : string) (mode : KeyModifierMode) : DistributedKey :=
  match mode with
  | KM_Prefix => DK_Prefix (version +:+ ":")
  | KM_Suffix => DK_Suffix (":" +:+ version)
  | KM_None => DK_Unmodified
  end.
Definition physical (self : DistributedKey) (key : string) : string :=
  match self with
  | DK_Prefix prefix => prefix +:+ key
  | DK_Suffix suffix => key +:+ suffix
  | DK_Unmodified => key
  end.
(** [strip_suffix]. *)
Definition strip_suffix (s p : string) : option string :=
  let n := (String.length s - String.length p)%nat in
  if decide (String.substring 0 n s +:+ p = s) then Some (String.substring 0 n s) else None.
Definition logical (self : DistributedKey) (physical : string) : option string :=
  match self with
  | DK_Prefix prefix => Backplane.strip_prefix prefix physical
  | DK_Suffix suffix => strip_suffix physical suffix
  | DK_Unmodified => Some physical
  end.
End DistributedKey.

(** ** Configuration *)
Inductive MarkerReadPolicy := DurableRequired | OptionsControlled.
Inductive MarkerPrefetch := Separate | WithValue.
Inductive DistributedReadPlan := PlanOwned | PlanImmediate.
Inductive WritePlan := InlineMemory | GeneralWrite.
Inductive LeasePolicy := LP_Fenced | LP_Cooperative.
Inductive DistributedExpirePolicy := RetainStale | DropStale.
Inductive RuntimeRequirement := RR_Inline | RR_Runtime.
(** [Storage]; of its serializer only its kind is configuration. *)
Inductive CacheStorage := ST_MemoryOnly | ST_Hybrid (codec : Serializer unit unit).

Definition is_hybrid (s : CacheStorage) : bool := match s with ST_Hybrid _ => true | ST_MemoryOnly => false end.

(** The immutable fields of [CacheInner]. [epoch_loc] names the continuity
    counter; the optional components are the flags of their presence. *)
Record Inner := mkInnerConfig {
  storage : CacheStorage;
  serialization_mode : SerializationMode;
  default_options : EntryOptions;
  default_runtime : RuntimeRequirement;
  jitter : JitterPlan;
  has_cloner : bool;
  has_backplane : bool;
  has_locker : bool;
  has_recovery : bool;
  disable_tagging : bool;
  remove_by_tag_behavior : RemoveByTagBehavior;
  marker_read_policy : MarkerReadPolicy;
  marker_prefetch : MarkerPrefetch;
  distributed_read_plan : DistributedReadPlan;
  write_plan : WritePlan;
  lease_policy : LeasePolicy;
  lease_ttl : Duration;
  instance_id : string;
  key_prefix : option string;
  distributed_key : DistributedKey;
  scope : CacheScope;
  epoch_loc : Loc;
}.
#[export] Instance eta_inner : Eta Inner := λ i,
  mkInnerConfig (storage i) (serialization_mode i) (default_options i) (default_runtime i) (jitter i)
    (has_cloner i) (has_backplane i) (has_locker i) (has_recovery i) (disable_tagging i)
    (remove_by_tag_behavior i) (marker_read_policy i) (marker_prefetch i) (distributed_read_plan i)
    (write_plan i) (lease_policy i) (lease_ttl i) (instance_id i) (key_prefix i) (distributed_key i)
    (scope i) (epoch_loc i).

Module RuntimeRequirement.
Definition for_options (options : EntryOptions) (distributed backplane locker : bool) : RuntimeRequirement :=
  let background :=
    bool_decide (is_Some (EntryOptions.eager_refresh_threshold options))
    || EntryOptions.allow_background_distributed_operations options && distributed
    || EntryOptions.allow_background_backplane_operations options && backplane in
  if EntryOptions.requires_timer_runtime options || background
     || negb (EntryOptions.skip_distributed_locker options) && locker
  then RR_Runtime else RR_Inline.
Definition requires_runtime (self : RuntimeRequirement) : bool :=
  match self with RR_Inline => false | RR_Runtime => true end.
End RuntimeRequirement.

(** ** Accesses *)

(** An owned lease, by the name of its key. *)
Inductive ClusterParticipation := CP_Local | CP_Cooperative (lease : string) | CP_Fenced (lease : string).
Inductive LocalParticipation := Held (key : string) | UnlockedAfterTimeout | ReplayOnly.
Record FlightGuard := mkFlight { flight_local : LocalParticipation; flight_lease : ClusterParticipation }.

Inductive OriginKind := OK_Factory | OK_Constant.
Inductive Audience := AU_Foreground | AU_Background.

Inductive MarkedRead :=
| MR_Miss
| MR_Value (bytes : list Init.Byte.byte) (prefetched : option (result MarkerError (list StoredMarker))).

Section calls.
Context {V : Type}.

Inductive Call :=
(* time, tokens and allocation *)
| C_Now | C_Instant | C_Cancelled | C_Closed | C_Runtime | C_Alloc | C_Stamps | C_Epoch | C_Health
| C_OptionsFor (key : string) | C_CloneValue (v : V) | C_Random (maximum : Duration)
(* the memory store *)
| C_GetAt (key : string) (now : Timestamp)
| C_RemoveIfSame (key : string) (e : Entry V)
| C_Remove (key : string)
| C_InsertAt (key : string) (e : Entry V) (now : Timestamp)
| C_InsertIfUnchanged (key : string) (expected : option (Entry V)) (e : Entry V) (now : Timestamp)
| C_ExpireIfUnchanged (key : string) (expected e : Entry V) (now : Timestamp)
| C_InvalidateOrigin (key : string)
| C_OriginCurrent (version : nat)
| C_ApplyInsert (key : string) (e : Entry V) (now : Timestamp)
| C_ApplyExpire (key : string) (e : Entry V) (now : Timestamp) (expected : Entry V)
| C_DetachRemove (key : string)
| C_SkipOrigin (key : string) (version : nat)
| C_ApplyOrigin (key : string) (e : Entry V) (now : Timestamp) (version : nat)
| C_ReadyForMutation (key : string) (now : Timestamp)
| C_WithReady (key : string) (now : Timestamp)
| C_InsertPlain (key : string) (v : V) (m : PlainMetadata)
| C_InsertValue (key : string) (e : FreshValue V) (now : Timestamp)
(* markers *)
| C_Tags (created : Timestamp) (tags : list Tag) (behavior : RemoveByTagBehavior)
| C_ReconcileControlled (e : Entry V)
| C_ReconcileMarkers (tags : list Tag) (prefetched : option (result MarkerError (list StoredMarker)))
(* circuit breakers *)
| C_ClosedWithoutClock (c : CircuitComponent) | C_CircuitCheck (c : CircuitComponent) (now : Timestamp)
| C_Trip (c : CircuitComponent) (now : Timestamp) | C_Close (c : CircuitComponent)
(* the distributed provider and its codec *)
| C_GetImmediate (physical : string) | C_BackendGet (physical : string)
| C_GetMarked (physical : string) (kinds : list MarkerKind)
| C_BackendSet (physical : string) (bytes : list Init.Byte.byte) (ttl : option Duration)
| C_BackendRemove (physical : string)
| C_WriteWithLease (physical : string) (mutation : LeasedMutation) (proof : LeaseProof)
| C_Decode (bytes : list Init.Byte.byte) | C_Encode (snapshot : DistributedSnapshot V)
(* lanes, leases and same-key locks *)
| C_TryLane (key : string) | C_Lane (key : string) | C_Unlane (key : string) | C_Snapshot (key : string)
| C_PassiveCurrent (fence : Fences.Fence) | C_Advance (key : string) (at_ : Timestamp)
| C_LaneTimestamp (fence : Fences.Fence)
| C_LeaseProof (lease : string) | C_LeaseState (lease : string)
| C_ReleaseLease (lease : string) | C_ReleaseLocal (key : string)
| C_AcquireLocal (key : string) (timeout : Timeout) | C_AcquireLease (key : string) (timeout : Timeout)
| C_TryLocal (key : string) | C_TryEager (key : string)
(* an origin's execution: the factory, under its lease if it has one *)
| C_StartOrigin (key : string) | C_CaptureMemory (key : string)
| C_Invoke (kind : OriginKind) (ctx : FactoryContext V)
| C_InvokeLeased (kind : OriginKind) (ctx : FactoryContext V) (lease : string)
| C_CancelOrigin (reason : CancellationReason) | C_DropWork | C_Audience
(* recovery and the backplane *)
| C_Enqueue (work : RecoveryWork) (fence : Fences.Fence) | C_Supersede (key : string) (generation : Z)
| C_Publish (command : BackplaneCommand)
(* budgets *)
| C_Elapsed | C_PhaseReason | C_PhaseCancel (reason : CancellationReason) | C_Checkpoint
(* observers *)
| C_ComponentRead | C_Emit (notice : Notice).

(** What an access answers. *)
Definition answer (c : Call) : Type :=
  match c with
  | C_Now => Timestamp
  | C_Instant => Instant
  | C_Cancelled | C_PhaseReason => option CancellationReason
  | C_Closed | C_Runtime | C_Elapsed => bool
  | C_Alloc => Loc
  | C_Stamps => Epochs
  | C_Epoch => Z
  | C_Health => result CacheError unit
  | C_OptionsFor _ => option EntryOptions
  | C_CloneValue _ => result CloneError V
  | C_Random _ => Z
  | C_GetAt _ _ | C_RemoveIfSame _ _ | C_Remove _ => result CacheError (option (Entry V))
  | C_InsertAt _ _ _ | C_InsertIfUnchanged _ _ _ _ | C_ExpireIfUnchanged _ _ _ _ =>
      result CacheError MemoryAdmission
  | C_InvalidateOrigin _ => unit
  | C_SkipOrigin _ _ | C_OriginCurrent _ => bool
  | C_ApplyInsert _ _ _ | C_ApplyOrigin _ _ _ _ | C_ApplyExpire _ _ _ _ => MemoryAdmission
  | C_DetachRemove _ => option (Entry V)
  | C_ReadyForMutation _ _ => option (Entry V)
  | C_WithReady _ _ => option (Entry V * Freshness)
  | C_InsertPlain _ _ _ | C_InsertValue _ _ _ => MemoryAdmission
  | C_Tags _ _ _ => TagVerdict
  | C_ReconcileControlled _ | C_ReconcileMarkers _ _ => result CacheError unit
  | C_ClosedWithoutClock _ => bool
  | C_CircuitCheck _ _ => CircuitCheck
  | C_Trip _ _ | C_Close _ => bool
  | C_GetImmediate _ => option (result CacheError (option (list Init.Byte.byte)))
  | C_BackendGet _ => result CacheError (option (list Init.Byte.byte))
  | C_GetMarked _ _ => result CacheError MarkedRead
  | C_BackendSet _ _ _ | C_BackendRemove _ => result CacheError unit
  | C_WriteWithLease _ _ _ => result CacheError LeasedWriteOutcome
  | C_Decode _ => result CacheError (DistributedSnapshot V)
  | C_Encode _ => result CacheError (list Init.Byte.byte)
  | C_TryLane _ => bool
  | C_Lane _ | C_Unlane _ => unit
  | C_Snapshot _ => Fences.Fence
  | C_PassiveCurrent _ => bool
  | C_Advance _ _ => result RecoveryError Fences.Fence
  | C_LaneTimestamp _ => option Timestamp
  | C_LeaseProof _ => result LeaseError LeaseProof
  | C_LeaseState _ => Owned.LeaseState
  | C_ReleaseLease _ | C_ReleaseLocal _ => unit
  | C_AcquireLocal _ _ => result CacheError bool
  | C_AcquireLease _ _ => result LeaseError (option string)
  | C_TryLocal _ => result CacheError bool
  | C_TryEager _ => bool
  | C_StartOrigin _ | C_CancelOrigin _ | C_DropWork => unit
  | C_CaptureMemory _ => result CacheError nat
  | C_Invoke _ _ => result FactoryError (FactoryProduct V)
  | C_InvokeLeased _ _ _ => option (result FactoryError (FactoryProduct V))
  | C_Audience => Audience
  | C_Enqueue _ _ => result RecoveryError EnqueueOutcome
  | C_Supersede _ _ => SupersedeOutcome
  | C_Publish _ => result CacheError unit
  | C_PhaseCancel _ | C_Checkpoint | C_ComponentRead | C_Emit _ => unit
  end.
End calls.
Arguments Call : clear implicits.

(** ** Operations every pipeline uses *)
Open Scope prog_scope.
Section worker.
Context {V : Type} (inner : Inner).
Local Abbreviation prog := (prog (answer (V := V))).
Local Abbreviation action A := (prog (result CacheError A)).
(** A call of this cache's value type. *)
Local Abbreviation ask c := (call (ans := answer (V := V)) c).
Local Abbreviation Entry := (Entry V).

(** A fallible access, or a pure computation, under [?]. *)
Definition from {X A} (f : X → CacheError) (r : result X A) : action A := Ret (map_err f r).

Definition l2_key (key : string) : string := DistributedKey.physical (distributed_key inner) key.
Definition full_key (key : string) : string :=
  match key_prefix inner with Some prefix => (prefix +:+ key)%string | None => key end.

(** [FactoryCancellation::check]. *)
Definition check : action unit :=
  let* reason := ask C_Cancelled in
  match reason with Some reason => raise (CE_OperationCancelled reason) | None => ok tt end.

(** *** Observers *)
Definition emit_layer (e : LayerEvent) : prog unit := ask (C_Emit (N_Layer e)).
Definition emit_outcome (e : CacheEvent) : prog unit := ask (C_Emit (N_Cache e)).
Definition emit (event : CacheEvent) : prog unit :=
  match event with
  | EV_CircuitBreakerChange component closed =>
      emit_layer (match component with
                  | CC_Distributed => LE_DistributedCircuit closed
                  | CC_Backplane => LE_BackplaneCircuit closed
                  end)
  | EV_SerializationError key => emit_layer (LE_SerializationError key)
  | EV_DeserializationError key => emit_layer (LE_DeserializationError key)
  | _ => Ret tt
  end ;;;
  emit_outcome event.

(** *** Options *)
Definition validate_runtime (required : bool) : action unit :=
  if required then
    let* running := ask C_Runtime in
    if running then ok tt else raise (CE_Config (Options.MissingRuntime RC_Execution))
  else ok tt.

Definition options_require_runtime (opts : EntryOptions) (distributed : bool) : bool :=
  RuntimeRequirement.requires_runtime
    (RuntimeRequirement.for_options opts distributed (has_backplane inner) (has_locker inner)).

(** [ValueCopy::validated], then the runtime the options need. *)
Definition validate_options (opts : EntryOptions) : action unit :=
  let? _ := from CE_Config (EntryOptions.validate_with_cloner opts (has_cloner inner)) in
  validate_runtime (options_require_runtime opts (is_hybrid (storage inner))).

(** [LookupOptions] is the flag and the options: [true] for the defaults. *)
Definition resolve_lookup_options (key : string) (options : option EntryOptions)
    : action EntryOptions :=
  let* selected := match options with Some o => Ret (Some o) | None => ask (C_OptionsFor key) end in
  match selected with
  | Some options => let? _ := validate_options options in ok options
  | None =>
      let? _ := validate_runtime (RuntimeRequirement.requires_runtime (default_runtime inner)) in
      ok (default_options inner)
  end.

Definition resolve_options (key : string) (options : option EntryOptions) : action EntryOptions :=
  let* provided := match options with Some o => Ret (Some o) | None => ask (C_OptionsFor key) end in
  let opts := default (default_options inner) provided in
  let? _ := validate_options opts in ok opts.

(** *** Values and entries *)

(** [copy_value]: an ordinary [Clone] is the same model value. *)
Definition copy (v : V) (opts : EntryOptions) : action V :=
  let? _ := from CE_Config (EntryOptions.validate opts) in
  if negb (EntryOptions.enable_auto_clone opts) then ok v
  else if has_cloner inner then
    let* copied := ask (C_CloneValue v) in from CE_Clone copied
  else raise (CE_Config AutoCloneWithoutCloner).

Definition evaluate_tags (e : Entry) : prog TagVerdict :=
  if disable_tagging inner then Ret Valid
  else ask (C_Tags (created (Entry.meta e)) (tags (Entry.meta e)) (remove_by_tag_behavior inner)).

(** The random draw is asked for in every case; [JitterPlan.sample] uses it only
    when the standard source has a positive maximum. *)
Definition jitter_sample (opts : EntryOptions) : action JitterSample :=
  let* drawn := ask (C_Random (EntryOptions.jitter_max opts)) in
  from CE_Config (JitterPlan.sample (jitter inner) drawn (EntryOptions.jitter_max opts)).

Definition fresh_entry (v : V) (opts : EntryOptions) (snapshot : Timestamp) (tags : list Tag)
    (etag : option string) (last_modified : option Timestamp) : action Entry :=
  let* now := ask C_Now in
  let? sample := jitter_sample opts in
  let* p := ask C_Alloc in
  from from_entry_error
    (Entry.try_fresh_with_jitter p v opts snapshot now sample tags etag last_modified).

Definition stale_info (e : Entry) (opts : EntryOptions) : action (StaleInfo V) :=
  let? value := copy (Entry.value e) opts in
  ok (mkStale value (etag (Entry.meta e)) (last_modified (Entry.meta e)) (tags (Entry.meta e))).

(** [Serializer::encode] and [decode]: the token is checked around the codec. *)
Definition codec {A} (work : action A) : action A :=
  let? _ := check in
  let* result := work in
  let? _ := check in
  Ret result.
Definition decode (bytes : list Init.Byte.byte) : action (DistributedSnapshot V) :=
  codec (ask (C_Decode bytes)).
Definition encode (snapshot : DistributedSnapshot V) : action (list Init.Byte.byte) :=
  codec (ask (C_Encode snapshot)).

(** *** Circuit breakers *)
Definition circuit (component : CircuitComponent) : prog bool :=
  let* closed := ask (C_ClosedWithoutClock component) in
  if closed then Ret true
  else
    let* now := ask C_Now in
    let* checked := ask (C_CircuitCheck component now) in
    match checked with
    | Open _ => Ret false
    | Closed => Ret true
    | ClosedAfterCooldown => emit (EV_CircuitBreakerChange component true) ;;; Ret true
    end.

Definition close_circuit (component : CircuitComponent) : prog unit :=
  let* closed := ask (C_Close component) in
  if closed then emit (EV_CircuitBreakerChange component true) else Ret tt.

Definition trip_circuit (component : CircuitComponent) : prog unit :=
  let* now := ask C_Now in
  let* opened := ask (C_Trip component now) in
  if opened then emit (EV_CircuitBreakerChange component false) else Ret tt.

(** The breaker an error belongs to. *)
Definition transport_of (e : CacheError) : option CircuitComponent :=
  match e with
  | CE_Distributed | CE_Lease Lease.Backend | CE_Marker Tags.Backend | CE_Transport TE_Distributed =>
      Some CC_Distributed
  | CE_Backplane | CE_Transport TE_Backplane => Some CC_Backplane
  | _ => None
  end.

Definition failure (key : string) (e : CacheError) : prog unit :=
  match e with
  | CE_Serialization | CE_Codec CO_Serialization => emit (EV_SerializationError key)
  | CE_Deserialization | CE_Codec CO_Deserialization => emit (EV_DeserializationError key)
  | _ => match transport_of e with Some component => trip_circuit component | None => Ret tt end
  end.

(** *** Flight guards *)

(** [ClusterParticipation::proof]. *)
Definition proof (flight : FlightGuard) : action (option LeaseProof) :=
  match flight_lease flight with
  | CP_Local => ok None
  | CP_Fenced lease =>
      let* proved := ask (C_LeaseProof lease) in
      Ret (map_err CE_Lease (Some <$> proved))
  | CP_Cooperative lease =>
      let* state := ask (C_LeaseState lease) in
      match state with
      | Owned.LS_Lost => raise (CE_Lease Lost)
      | _ => ok None
      end
  end.
Definition is_fenced (c : ClusterParticipation) : bool := match c with CP_Fenced _ => true | _ => false end.
(** [flight.map(FlightGuard::proof).transpose()?.flatten()]. *)
Definition flight_proof (flight : option FlightGuard) : action (option LeaseProof) :=
  match flight with Some flight => proof flight | None => ok None end.

(** [drop] of a guard: the lease's release is handed to the supervisor before
    the local lock is freed. *)
Definition drop_flight (flight : FlightGuard) : prog unit :=
  match flight_lease flight with
  | CP_Local => Ret tt
  | CP_Cooperative lease | CP_Fenced lease => ask (C_ReleaseLease lease)
  end ;;;
  match flight_local flight with
  | Held key => ask (C_ReleaseLocal key)
  | UnlockedAfterTimeout | ReplayOnly => Ret tt
  end.

(** *** Budgets *)
Definition validate_budget (timeout : Timeout) : action unit :=
  match timeout with
  | Infinite => ok tt
  | After _ =>
      let* now := ask C_Instant in
      if unrepresentable now timeout then raise (CE_Config DeadlineOutOfRange) else ok tt
  end.

(** The accesses at which a task can suspend. *)
Definition suspends (c : Call V) : bool :=
  match c with
  | C_GetAt _ _ | C_BackendGet _ | C_GetMarked _ _ | C_Decode _ | C_ReconcileMarkers _ _ => true
  | _ => false
  end.
Definition is_checkpoint (c : Call V) : bool := match c with C_Checkpoint => true | _ => false end.

(** Work that is polled under a deadline ([timed]) is dropped at a suspension
    when the timer has elapsed; a child phase ([phased]) also ends there when
    its token, its parent or the registry is cancelled. The flag tells whether
    the work recorded its checkpoint. *)
Fixpoint supervise {A} (timed phased : bool) (reached : bool) (work : action A)
    : prog (option (result CacheError A) * bool) :=
  match work with
  | Ret a =>
      if phased then
        let* reason := ask C_PhaseReason in
        match reason with
        | Some r => Ret (Some (Err (CE_OperationCancelled r)), reached)
        | None => Ret (Some a, reached)
        end
      else Ret (Some a, reached)
  | Act c k =>
      let continue := Act c (λ x, supervise timed phased (reached || is_checkpoint c) (k x)) in
      let phase :=
        if phased && suspends c then
          let* reason := ask C_PhaseReason in
          match reason with
          | Some r => Ret (Some (Err (CE_OperationCancelled r)), reached)
          | None => continue
          end
        else continue in
      if timed && suspends c then
        let* elapsed := ask C_Elapsed in
        if elapsed then Ret (None, reached) else phase
      else phase
  end.

(** [bounded], of work that may record a checkpoint. *)
Definition bounded {A} (timeout : Timeout) (phased : bool) (work : action A)
    : prog (result CacheError (option (result CacheError A)) * bool) :=
  let* valid := validate_budget timeout in
  match valid with
  | Err e => Ret (Err e, false)
  | Ok _ =>
      match timeout with
      | Infinite =>
          let* done := supervise false phased false work in Ret (Ok (fst done), snd done)
      | After duration =>
          if is_zero duration then Ret (Ok None, false)
          else let* done := supervise true phased false work in Ret (Ok (fst done), snd done)
      end
  end.
End worker.
(** Proofs go through the laws of these operations. *)
#[global] Arguments check : simpl never.
#[global] Arguments emit : simpl never.
#[global] Arguments validate_runtime : simpl never.
#[global] Arguments validate_options : simpl never.
#[global] Arguments resolve_lookup_options : simpl never.
#[global] Arguments resolve_options : simpl never.
#[global] Arguments copy : simpl never.
#[global] Arguments evaluate_tags : simpl never.
#[global] Arguments jitter_sample : simpl never.
#[global] Arguments fresh_entry : simpl never.
#[global] Arguments stale_info : simpl never.
#[global] Arguments codec : simpl never.
#[global] Arguments decode : simpl never.
#[global] Arguments encode : simpl never.
#[global] Arguments circuit : simpl never.
#[global] Arguments close_circuit : simpl never.
#[global] Arguments trip_circuit : simpl never.
#[global] Arguments failure : simpl never.
#[global] Arguments proof : simpl never.
#[global] Arguments flight_proof : simpl never.
#[global] Arguments drop_flight : simpl never.
#[global] Arguments validate_budget : simpl never.
#[global] Arguments bounded : simpl never.

(** ** Laws

    Everything but the budget's own accesses is recorded. *)
Definition is_budget {V} (c : Call V) : bool :=
  match c with C_Instant | C_Elapsed | C_PhaseReason | C_PhaseCancel _ => true | _ => false end.
Definition world V : Env (answer (V := V)) := any (λ c, negb (is_budget c)).
Abbreviation history V := (list (event (answer (V := V)))) (only parsing).

(** Run a program to its next choice: the accesses take arbitrary answers, and
    every test and answer is split. *)
Ltac wp_step :=
  match goal with
  | |- wp _ _ _ _ =>
      progress cbn [wp bind call attempt ok raise from map_err any world record is_budget negb
                    env_state allows emit_layer emit_outcome]
  | |- ∀ x s', s' = _ → _ => intros ? ? ->
  | |- wp _ (match ?x with _ => _ end) _ _ => destruct x eqn:?
  | |- wp _ (bind (match ?x with _ => _ end) _) _ _ => destruct x eqn:?
  | |- wp _ (bind (bind (match ?x with _ => _ end) _) _) _ _ => destruct x eqn:?
  | |- wp _ (attempt (match ?x with _ => _ end) _) _ _ => destruct x eqn:?
  end.
Ltac wp_run := unfold attempt; repeat wp_step.

(** Find an access in a record; find what followed it. *)
Ltac recorded :=
  first [ eassumption | apply list_elem_of_here | apply list_elem_of_further; recorded
        | apply elem_of_app; right; recorded | apply elem_of_app; left; recorded ].

(** [∃ l, h' = l ++ h ∧ _], of a record that has visibly grown. *)
Lemma grow_nil {A} (h : list A) : h = [] ++ h.
Proof. done. Qed.
Lemma grow_cons {A} (x : A) t l h : t = l ++ h → x :: t = (x :: l) ++ h.
Proof. by intros ->. Qed.
Lemma grow_app {A} (l' t l h : list A) : t = l ++ h → l' ++ t = (l' ++ l) ++ h.
Proof. intros ->. apply app_assoc. Qed.
Ltac grow :=
  first [ apply grow_nil | match goal with |- ?l ++ ?h = _ ++ ?h => exact (eq_refl (l ++ h)) end
        | apply grow_cons; grow | apply grow_app; grow ].
Ltac grown := eexists; split; [grow|].

Tactic Notation "wp_use" uconstr(L) :=
  apply wp_bind; eapply wp_mono; [apply L|]; intros ? ? (? & -> & ?).
Tactic Notation "wp_use" uconstr(L) "as" simple_intropattern(p) :=
  apply wp_bind; eapply wp_mono; [apply L|]; intros ? ? (? & -> & p).
Ltac wp_pass := apply wp_skip; intros ? ?.
Ltac seen := repeat first [ eassumption | apply since_now | apply since_app_r; eassumption | apply since_later | apply since_app; seen ].

Section laws.
Context {V : Type} (inner : Inner).
Implicit Types (h : history V).

Lemma wp_supervise {A} (E : Env (answer (V := V))) timed phased reached
    (work : prog (answer (V := V)) (result CacheError A)) s Q :
  (∀ s c x s', is_budget c = true → allows E s c x s' → s' = s) →
  wp E work s Q →
  wp E (supervise timed phased reached work) s (λ done s',
    match done.1 with
    | Some (Ok a) => Q (Ok a) s'
    | Some (Err e) => Q (Err e) s' ∨ ∃ r, e = CE_OperationCancelled r
    | None => timed = true
    end).
Proof.
  intros HE. revert s reached. induction work as [a|c k IH]; intros s reached Hw; cbn [supervise wp] in *.
  - destruct phased; cbn.
    + intros r s' Hr. apply HE in Hr as ->; [|done]. destruct r as [r|]; cbn; [eauto|].
      by destruct a; [|left].
    + by destruct a; [|left].
  - assert (wp E (Act c (λ x, supervise timed phased (reached || is_checkpoint c) (k x))) s (λ done s',
      match done.1 with
      | Some (Ok a) => Q (Ok a) s'
      | Some (Err e) => Q (Err e) s' ∨ ∃ r, e = CE_OperationCancelled r
      | None => timed = true
      end)) as Hgo by (cbn; intros x s' Hx; apply IH; by apply Hw).
    assert (∀ (p : prog (answer (V := V)) (option (result CacheError A) * bool)) (Q' : _ → _ → Prop),
      wp E p s Q' → (∀ r, Q' (Some (Err (CE_OperationCancelled r)), reached) s) →
      wp E (bind (call C_PhaseReason) (λ reason, match reason with
              | Some r => Ret (Some (Err (CE_OperationCancelled r)), reached) | None => p end)) s Q') as Hphase.
    { intros p Q' Hp HQ. cbn. intros r s' Hr. apply HE in Hr as ->; [|done]. destruct r; [apply HQ|done]. }
    destruct timed; cbn [andb].
    + destruct (suspends c) eqn:Hc; rewrite ?andb_true_r, ?andb_false_r; [|done].
      cbn [bind call wp]. intros b s' Hb. apply HE in Hb as ->; [|done]. destruct b; [done|].
      destruct phased; [|done]. apply Hphase; [done|]. cbn. eauto.
    + destruct (phased && suspends c); [|done]. apply Hphase; [done|]. cbn. eauto.
Qed.

(** A budgeted read: a completed answer is one the work gives. *)
Lemma wp_bounded {A} timeout phased (work : prog (answer (V := V)) (result CacheError A)) h Q :
  wp (world V) work h Q →
  wp (world V) (bounded timeout phased work) h (λ done h',
    match done.1 with
    | Ok (Some (Ok a)) => Q (Ok a) h'
    | Ok (Some (Err e)) => Q (Err e) h' ∨ ∃ r, e = CE_OperationCancelled r
    | Ok None => timeout ≠ Infinite
    | Err e => e = CE_Config DeadlineOutOfRange
    end).
Proof.
  intros Hw. assert (∀ (s : env_state (world V)) (c : Call V) x s',
    is_budget c = true → allows (world V) s c x s' → s' = s) as HE.
  { intros s c x s' Hc ->. unfold record. by rewrite Hc. }
  unfold bounded, validate_budget. destruct timeout as [|d]; cbn [bind ok].
  - apply wp_bind. eapply wp_mono; [by apply wp_supervise|].
    intros [[[a|e]|] b] h'; cbn; [done..|discriminate].
  - cbn. intros i h' ->. cbn. destruct (match instant_checked_add i d with Some _ => false | None => true end); cbn; [done|].
    destruct (is_zero d); cbn; [done|].
    apply wp_bind. eapply wp_mono; [by apply wp_supervise|].
    by intros [[[a|e]|] b] h'; cbn.
Qed.

(** *** What the shared operations record *)

(** [v'] is a copy of [v] the options allow. *)
Definition copied h (opts : EntryOptions) (v v' : V) : Prop :=
  EntryOptions.enable_auto_clone opts = false ∧ v' = v ∨ Ev (C_CloneValue v) (Ok v') ∈ h.

Lemma wp_copy v opts h :
  wp (world V) (copy inner v opts) h (λ r h', ∃ l, h' = l ++ h ∧
    match r with Ok v' => copied l opts v v' | Err e => (∃ c, e = CE_Config c) ∨ ∃ c, e = CE_Clone c end).
Proof.
  unfold copy, copied, from. destruct (EntryOptions.validate opts) eqn:?; wp_run.
  - exists []. apply negb_true_iff in Heqb. eauto.
  - eexists [_]. split; [done|]. destruct x; cbn; [right; recorded|eauto].
  - exists []. eauto.
  - exists []. eauto.
Qed.

Lemma wp_decode bytes h :
  wp (world V) (decode bytes) h (λ r h', ∃ l, h' = l ++ h ∧
    match r with Ok s => ∃ l', since (Ev (C_Decode bytes) (Ok s)) l' l | Err _ => True end).
Proof.
  unfold decode, codec, check. wp_run; grown; try done.
  destruct x0; [|done]. eexists. apply since_later, since_now.
Qed.

(** The verdict that was drawn for an entry. *)
Definition judged h (e : Entry V) (verdict : TagVerdict) : Prop :=
  if disable_tagging inner then verdict = Valid
  else Ev (C_Tags (created (Entry.meta e)) (tags (Entry.meta e)) (remove_by_tag_behavior inner)) verdict ∈ h.

Lemma wp_evaluate_tags e h :
  wp (world V) (evaluate_tags inner e) h (λ v h', ∃ l, h' = l ++ h ∧ judged l e v).
Proof.
  unfold evaluate_tags, judged. destruct (disable_tagging inner); cbn; [by exists []|].
  intros v h' ->. eexists [_]. split; [done|]. recorded.
Qed.
End laws.

(** ** Footprints

    Which kinds of access an operation can make, whatever it is answered. *)
Inductive Kind :=
| K_Time | K_Options | K_MemoryRead | K_MemoryCas | K_MemoryWrite | K_Marker | K_Circuit | K_ProviderRead
| K_ProviderWrite | K_Codec | K_Fence | K_Lane | K_Advance | K_Release | K_Lease | K_Lock | K_Recovery
| K_Publish | K_Budget | K_Observer | K_Origin.
#[export] Instance Kind_eq_dec : EqDecision Kind.
Proof. solve_decision. Defined.

Definition kind {V} (c : Call V) : Kind :=
  match c with
  | C_Now | C_Instant | C_Cancelled | C_Closed | C_Runtime | C_Alloc | C_Stamps | C_Epoch | C_Health | C_Random _ => K_Time
  | C_OptionsFor _ | C_CloneValue _ => K_Options
  | C_GetAt _ _ | C_ReadyForMutation _ _ | C_WithReady _ _ | C_OriginCurrent _ => K_MemoryRead
  | C_RemoveIfSame _ _ | C_InsertIfUnchanged _ _ _ _ => K_MemoryCas
  | C_Remove _ | C_InsertAt _ _ _ | C_ExpireIfUnchanged _ _ _ _ | C_InvalidateOrigin _ | C_ApplyInsert _ _ _
  | C_ApplyExpire _ _ _ _ | C_DetachRemove _ | C_SkipOrigin _ _ | C_ApplyOrigin _ _ _ _
  | C_InsertPlain _ _ _ | C_InsertValue _ _ _ => K_MemoryWrite
  | C_Tags _ _ _ | C_ReconcileControlled _ | C_ReconcileMarkers _ _ => K_Marker
  | C_ClosedWithoutClock _ | C_CircuitCheck _ _ | C_Trip _ _ | C_Close _ => K_Circuit
  | C_GetImmediate _ | C_BackendGet _ | C_GetMarked _ _ => K_ProviderRead
  | C_BackendSet _ _ _ | C_BackendRemove _ | C_WriteWithLease _ _ _ => K_ProviderWrite
  | C_Decode _ | C_Encode _ => K_Codec
  | C_Snapshot _ | C_PassiveCurrent _ | C_LaneTimestamp _ => K_Fence
  | C_Lane _ | C_TryLane _ => K_Lane
  | C_Advance _ _ => K_Advance
  | C_Unlane _ | C_ReleaseLease _ | C_ReleaseLocal _ => K_Release
  | C_LeaseProof _ | C_LeaseState _ => K_Lease
  | C_AcquireLocal _ _ | C_AcquireLease _ _ | C_TryLocal _ | C_TryEager _ => K_Lock
  | C_StartOrigin _ | C_CaptureMemory _ | C_Invoke _ _ | C_InvokeLeased _ _ _ | C_CancelOrigin _ | C_DropWork
  | C_Audience => K_Origin
  | C_Enqueue _ _ | C_Supersede _ _ => K_Recovery
  | C_Publish _ => K_Publish
  | C_Elapsed | C_PhaseReason | C_PhaseCancel _ | C_Checkpoint => K_Budget
  | C_ComponentRead | C_Emit _ => K_Observer
  end.

Definition touches {V A} (ks : list Kind) (p : prog (answer (V := V)) A) : Prop :=
  only (λ c, kind c ∈ ks) p.

Lemma touches_mono {V A} ks ks' (p : prog (answer (V := V)) A) :
  touches ks p → ks ⊆ ks' → touches ks' p.
Proof. intros Hp Hk. eapply only_mono; [exact Hp|]. intros c. apply Hk. Qed.

(** Split a program into its accesses; what remains are the operations with a
    footprint of their own. *)
Create HintDb footprint discriminated.
Ltac in_kinds :=
  cbn; solve [ repeat first [apply list_elem_of_here | apply list_elem_of_further]
             | apply (bool_decide_unpack _); vm_compute; exact I ].
Ltac footprint_step :=
  match goal with
  | |- touches _ _ => unfold touches
  | |- _ ∧ _ => split
  | |- ∀ _, _ => intros ?
  | |- True => exact I
  | |- kind _ ∈ _ => in_kinds
  | |- only _ (Ret _) => exact I
  | |- only _ (ok _) => exact I
  | |- only _ (raise _) => exact I
  | |- only _ (from _ _) => exact I
  | |- only _ (call _) => split; [in_kinds|intros ?; exact I]
  | |- only _ (emit_layer _) => split; [in_kinds|intros ?; exact I]
  | |- only _ (emit_outcome _) => split; [in_kinds|intros ?; exact I]
  | |- only _ (bind _ _) => apply only_bind
  | |- only _ (attempt _ _) => apply only_attempt
  | |- only _ (match ?x with _ => _ end) => destruct x
  | |- only _ (let '(_, _) := ?x in _) => destruct x
  | |- only _ _ =>
      match goal with |- only ?P ?p => eapply (touches_mono _ _ p); [solve [eauto with footprint]|in_kinds] end
  end.
Ltac footprint := repeat footprint_step.

Section footprints.
Context {V : Type} (ci : Inner).

Lemma touches_check : touches (V := V) [K_Time] check.
Proof. unfold check. footprint. Qed.
Lemma touches_emit e : touches (V := V) [K_Observer] (emit e).
Proof. unfold emit. footprint. Qed.
#[local] Hint Resolve touches_check touches_emit : footprint.
Lemma touches_copy v opts : touches (V := V) [K_Options] (copy ci v opts).
Proof. unfold copy. footprint. Qed.
Lemma touches_evaluate_tags e : touches (V := V) [K_Marker] (evaluate_tags ci e).
Proof. unfold evaluate_tags. footprint. Qed.
Lemma touches_validate_runtime b : touches (V := V) [K_Time] (validate_runtime b).
Proof. unfold validate_runtime. footprint. Qed.
#[local] Hint Resolve touches_copy touches_evaluate_tags touches_validate_runtime : footprint.
Lemma touches_validate_options opts : touches (V := V) [K_Time] (validate_options ci opts).
Proof. unfold validate_options. footprint. Qed.
#[local] Hint Resolve touches_validate_options : footprint.
Lemma touches_resolve_lookup_options key options :
  touches (V := V) [K_Time; K_Options] (resolve_lookup_options ci key options).
Proof. unfold resolve_lookup_options. footprint. Qed.
Lemma touches_resolve_options key options :
  touches (V := V) [K_Time; K_Options] (resolve_options ci key options).
Proof. unfold resolve_options. footprint. Qed.
Lemma touches_fresh_entry v opts snapshot tags etag last_modified :
  touches (V := V) [K_Time] (fresh_entry ci v opts snapshot tags etag last_modified).
Proof. unfold fresh_entry, jitter_sample. footprint. Qed.
Lemma touches_decode bytes : touches (V := V) [K_Time; K_Codec] (decode bytes).
Proof. unfold decode, codec. footprint. Qed.
Lemma touches_encode snapshot : touches (V := V) [K_Time; K_Codec] (encode snapshot).
Proof. unfold encode, codec. footprint. Qed.
Lemma touches_circuit c : touches (V := V) [K_Time; K_Circuit; K_Observer] (circuit c).
Proof. unfold circuit. footprint. Qed.
Lemma touches_close_circuit c : touches (V := V) [K_Circuit; K_Observer] (close_circuit c).
Proof. unfold close_circuit. footprint. Qed.
Lemma touches_trip_circuit c : touches (V := V) [K_Time; K_Circuit; K_Observer] (trip_circuit c).
Proof. unfold trip_circuit. footprint. Qed.
#[local] Hint Resolve touches_trip_circuit : footprint.
Lemma touches_failure key e : touches (V := V) [K_Time; K_Circuit; K_Observer] (failure key e).
Proof. unfold failure. footprint. Qed.
Lemma touches_proof flight : touches (V := V) [K_Lease] (proof flight).
Proof. unfold proof. footprint. Qed.
#[local] Hint Resolve touches_proof : footprint.
Lemma touches_flight_proof flight : touches (V := V) [K_Lease] (flight_proof flight).
Proof. unfold flight_proof. footprint. Qed.

Lemma touches_supervise {A} ks timed phased reached (work : prog (answer (V := V)) (result CacheError A)) :
  touches ks work → K_Budget ∈ ks → touches ks (supervise timed phased reached work).
Proof.
  intros Hw Hk. revert reached Hw. induction work as [a|c k IH]; intros reached Hw; cbn [supervise].
  - destruct phased; [|done]. split; [done|]. by intros [].
  - destruct Hw as [Hc Hw].
    assert (∀ b, touches ks (Act c (λ x, supervise timed phased b (k x)))) as Hgo.
    { intros b. split; [exact Hc|]. intros x. apply (IH x b), Hw. }
    destruct timed; cbn [andb].
    + destruct (suspends c); rewrite ?andb_true_r, ?andb_false_r; [|apply Hgo].
      split; [done|]. intros [|]; [done|]. destruct phased; [|apply Hgo].
      split; [done|]. intros [|]; [done|apply Hgo].
    + destruct (phased && suspends c); [|apply Hgo]. split; [done|]. intros [|]; [done|apply Hgo].
Qed.

Lemma touches_bounded {A} ks timeout phased (work : prog (answer (V := V)) (result CacheError A)) :
  touches ks work → K_Budget ∈ ks → K_Time ∈ ks → touches ks (bounded timeout phased work).
Proof.
  intros Hw Hb Ht. unfold bounded. apply only_bind.
  - unfold validate_budget. destruct timeout; [done|]. apply only_bind; [by split|]. intros i. by case_match.
  - intros [|]; [|done]. destruct timeout as [|d]; [|destruct (is_zero d); [done|]].
    all: apply only_bind; [by apply touches_supervise|done].
Qed.
End footprints.
#[export] Hint Resolve touches_check touches_emit touches_copy touches_evaluate_tags touches_validate_runtime
  touches_validate_options touches_resolve_lookup_options touches_resolve_options touches_fresh_entry
  touches_decode touches_encode touches_circuit touches_close_circuit touches_trip_circuit touches_failure
  touches_proof touches_flight_proof : footprint.

(** ** Traces: what a program's own record says about its answer *)
Section traced.
Context {V : Type}.
Local Abbreviation prog := (prog (answer (V := V))).

Definition traced {A} (p : prog A) (R : A → history V → Prop) : Prop :=
  ∀ h, wp (world V) p h (λ a h', ∃ l, h' = l ++ h ∧ R a l).

Lemma traced_ret {A} (a : A) (R : A → history V → Prop) : R a [] → traced (Ret a) R.
Proof. intros HR h. by exists []. Qed.

Lemma traced_mono {A} (p : prog A) (R R' : A → history V → Prop) :
  traced p R → (∀ a l, R a l → R' a l) → traced p R'.
Proof. intros Hp HR h. eapply wp_mono; [apply Hp|]. naive_solver. Qed.

Lemma traced_and {A} (p : prog A) (R R' : A → history V → Prop) :
  traced p R → traced p R' → traced p (λ a l, R a l ∧ R' a l).
Proof.
  intros Hp Hp' h. eapply wp_mono; [apply wp_conj; [apply Hp|apply Hp']|].
  intros a h' [(l & -> & HR) (l' & Hl & HR')]. apply app_inv_tail in Hl as <-. eauto.
Qed.

Lemma traced_bind {A B} (p : prog A) (f : A → prog B) R (R' : B → history V → Prop) :
  traced p R → (∀ a l, R a l → traced (f a) (λ b l', R' b (l' ++ l))) → traced (bind p f) R'.
Proof.
  intros Hp Hf h. apply wp_bind. eapply wp_mono; [apply Hp|]. intros a h' (l & -> & HR).
  eapply wp_mono; [by apply (Hf a l)|]. intros b h' (l' & -> & HR'). exists (l' ++ l).
  by rewrite app_assoc.
Qed.

Lemma traced_attempt {A B} (p : prog (result CacheError A)) (f : A → prog (result CacheError B)) R
    (R' : result CacheError B → history V → Prop) :
  traced p R → (∀ e l, R (Err e) l → R' (Err e) l) →
  (∀ a l, R (Ok a) l → traced (f a) (λ b l', R' b (l' ++ l))) → traced (attempt p f) R'.
Proof.
  intros Hp He Hf. eapply traced_bind; [exact Hp|]. intros [a|e] l HR; [by apply Hf|].
  apply traced_ret. by apply He.
Qed.

Lemma traced_call c : is_budget c = false → traced (call (ans := answer (V := V)) c) (λ x l, l = [Ev c x]).
Proof. intros Hc h x ? ->. unfold record. rewrite Hc. by exists [Ev c x]. Qed.

Lemma traced_any {A} (p : prog A) : traced p (λ _ _, True).
Proof. intros h. eapply wp_mono; [apply wp_grows|]. intros a h' [l ->]. by exists l. Qed.

Lemma traced_touches {A} ks (p : prog A) :
  touches ks p → traced p (λ _ l, Forall (λ ev, kind (ev_call ev) ∈ ks) l).
Proof.
  intros Hp h. eapply wp_mono; [eapply wp_only; [exact Hp|apply (traced_any p)]|].
  intros a h' (l & -> & Hl & _). eauto.
Qed.

(** A record of kinds among [ks] has no access of another kind. *)
Lemma untouched (ks : list Kind) (l : history V) ev :
  Forall (λ ev, kind (ev_call ev) ∈ ks) l → ev ∈ l → kind (ev_call ev) ∉ ks → False.
Proof. rewrite Forall_forall. eauto. Qed.
End traced.
