(* ===== verification/Read.v ===== *)
(** * Value reads

    Models the read side of [src/src/cache/read.rs], with its data from
    [src/src/cache.rs]: the L1 read, the budgeted L2 read, hydration and the
    read-only lookup. Each is a program over [Worker.Call]. The lookup that
    precedes an origin, the origin's work and the fallbacks are [Origin.v]'s. *)
From Stdlib Require Init.Byte.
From S2P Require Import Prelude Time Calls Circuit Options Entry Tags Backplane Cancellation.
From S2P Require Import Invalidation Storage Lanes Wire Lease Recovery Worker.
Open Scope prog_scope.

(** ** Data *)
Section data.
Context {V : Type}.

Inductive L1Read := L1_Fresh (e : Entry V) | L1_Stale (e : Entry V) | L1_Miss.
Inductive HydrationFence := HF_Stable (fence : Fences.Fence) (observed : option (Entry V)) | HF_ConcurrentMutation.
Record DistributedLookup := mkLookup {
  lookup_entry : Entry V; hydration : HydrationFence; observed_at : Timestamp }.
Inductive ReadStale := RS_Memory (e : Entry V) | RS_Distributed (e : Entry V).
Definition stale_entry (s : ReadStale) : Entry V :=
  match s with RS_Memory e | RS_Distributed e => e end.
Definition into_parts (s : ReadStale) : Entry V * CacheLevel :=
  match s with RS_Memory e => (e, CL_Memory) | RS_Distributed e => (e, CL_Distributed) end.
Definition newer_of (existing : option (Entry V)) (candidate : Entry V) : Entry V :=
  match existing with
  | Some existing =>
      if created (Entry.meta candidate) <=? created (Entry.meta existing) then existing else candidate
  | None => candidate
  end.
End data.
Arguments L1Read : clear implicits.
Arguments HydrationFence : clear implicits.
Arguments DistributedLookup : clear implicits.
Arguments ReadStale : clear implicits.

Inductive HydrationOutcome := HO_Evaluated (admission : MemoryAdmission) | HO_Skipped (reason : SkipReason).
Inductive FallbackAvailability := FA_Available | FA_Unavailable.
Definition is_available (f : FallbackAvailability) : bool :=
  match f with FA_Available => true | FA_Unavailable => false end.
Definition fallback_of {A} (o : option A) : FallbackAvailability :=
  match o with Some _ => FA_Available | None => FA_Unavailable end.
Inductive HitKind := HK_Fresh | HK_Stale.
Definition is_stale (k : HitKind) : bool := match k with HK_Fresh => false | HK_Stale => true end.
Definition hit_outcome (k : HitKind) : OperationOutcome :=
  match k with HK_Fresh => OO_Hit | HK_Stale => OO_StaleHit end.

(** [L2ReadPolicy::rethrow]. *)
Definition rethrow (options : EntryOptions) (e : CacheError) : bool :=
  match e with
  | CE_Serialization | CE_Deserialization | CE_Codec _ => EntryOptions.rethrow_serialization_exceptions options
  | CE_Config _ | CE_Clone _ | CE_Tag _ | CE_OperationCancelled _ | CE_FactoryCancelled _ => true
  | _ => EntryOptions.rethrow_distributed_exceptions options
  end.

Section read.
Context {V : Type} (inner : Inner).
Local Abbreviation prog := (prog (answer (V := V))).
Local Abbreviation action A := (prog (result CacheError A)).
Local Abbreviation ask c := (call (ans := answer (V := V)) c).
Local Abbreviation Entry := (Entry V).

Definition read_l1 (key : string) : action (L1Read V) :=
  let* captured := ask C_Epoch in
  let* now := ask C_Now in
  let? found := ask (C_GetAt key now) in
  match found with
  | None => emit_layer (LE_MemoryMiss key) ;;; ok L1_Miss
  | Some e =>
      emit_layer (LE_MemoryHit key (Entry.is_logically_expired e now)) ;;;
      let? _ := ask (C_ReconcileControlled e) in
      let? _ := ask C_Health in
      let? _ := check in
      let* now := ask C_Now in
      let* epoch := ask C_Epoch in
      let* stamps := ask C_Stamps in
      if negb (epoch =? captured) || negb (Entry.is_read_eligible stamps e)
         || Entry.is_physically_expired e now
      then ok L1_Miss
      else
        let* verdict := evaluate_tags inner e in
        match verdict with
        | Remove =>
            let? removed := ask (C_RemoveIfSame key e) in
            match removed with Some _ => emit_layer (LE_MemoryRemove key) | None => Ret tt end ;;;
            ok L1_Miss
        | Expire => ok (L1_Stale e)
        | Valid => ok (if is_fresh (Entry.freshness e now) then L1_Fresh e else L1_Stale e)
        end
  end.

(** ** L2 *)
Definition distributed_miss (key : string) : prog unit := emit_layer (LE_DistributedMiss key).

(** A lane that another commit holds fences nothing: its snapshot may be
    returned, never installed. *)
Definition hydration_fence (key : string) (now : Timestamp) : action (HydrationFence V) :=
  let* free := ask (C_TryLane key) in
  if free then
    let* fence := ask (C_Snapshot key) in
    ask (C_Unlane key) ;;;
    let? observed := ask (C_GetAt key now) in
    ok (HF_Stable fence observed)
  else ok HF_ConcurrentMutation.

Definition CLEAR_MARKERS : list MarkerKind := [MK_ClearRemove; MK_ClearExpire].

(** The bytes, and the markers that came with them. *)
Definition fetch_bytes (key : string)
    : action (option (list Init.Byte.byte) * option (result MarkerError (list StoredMarker))) :=
  let physical := l2_key inner key in
  let* immediate := ask (C_GetImmediate physical) in
  match immediate with
  | Some bytes => let? bytes := Ret bytes in ok (bytes, None)
  | None =>
      match marker_prefetch inner with
      | Separate => let? bytes := ask (C_BackendGet physical) in ok (bytes, None)
      | WithValue =>
          let? marked := ask (C_GetMarked physical CLEAR_MARKERS) in
          match marked with
          | MR_Miss => ok (None, None)
          | MR_Value bytes prefetched => ok (Some bytes, prefetched)
          end
      end
  end.

Definition fetch_l2 (key : string) : action (option (DistributedLookup V)) :=
  if is_hybrid (storage inner) then
    let? _ := check in
    let* fenced_at := ask C_Now in
    let? hydration := hydration_fence key fenced_at in
    ask C_ComponentRead ;;;
    let? fetched := fetch_bytes key in
    close_circuit CC_Distributed ;;;
    match fetched with
    | (None, _) => ask C_Checkpoint ;;; distributed_miss key ;;; ok None
    | (Some bytes, prefetched) =>
        let? snapshot := decode bytes in
        let* now := match distributed_read_plan inner with
                    | PlanImmediate => Ret fenced_at
                    | PlanOwned => ask C_Now
                    end in
        let* p := ask C_Alloc in
        let? source := from from_wire_error (DistributedSnapshot.try_into_cache_entry p snapshot now) in
        ask C_Checkpoint ;;;
        if Entry.is_physically_expired source now then distributed_miss key ;;; ok None
        else
          emit_layer (LE_DistributedHit key (Entry.is_logically_expired source now)) ;;;
          let? _ := match marker_read_policy inner with
                    | DurableRequired => ask (C_ReconcileMarkers (tags (Entry.meta source)) prefetched)
                    | OptionsControlled => ok tt
                    end in
          ok (Some (mkLookup source hydration now))
    end
  else ok None.

(** [L2ReadBudget], with the flag [physically_completed]. A synchronous codec
    shares the parent's budget; an asynchronous one runs in a child phase,
    which a timeout cancels with its reason. *)
Inductive L2ReadBudget := Completed (r : result CacheError (option (DistributedLookup V))) | TimedOut.

Definition from_bounded (r : result CacheError (option (result CacheError (option (DistributedLookup V)))))
    : L2ReadBudget :=
  match r with
  | Ok (Some result) => Completed result
  | Ok None => TimedOut
  | Err e => Completed (Err e)
  end.

Definition read_l2_budget (key : string) (timeout : Timeout) (soft : bool) : prog (L2ReadBudget * bool) :=
  match storage inner with
  | ST_Hybrid (Ser_Sync _) =>
      let* done := bounded timeout false (fetch_l2 key) in
      Ret (from_bounded (fst done), snd done)
  | ST_Hybrid (Ser_Async _ _) | ST_MemoryOnly =>
      let* done := bounded timeout true (fetch_l2 key) in
      match fst done with
      | Ok None => ask (C_PhaseCancel (if soft then SoftTimeout else HardTimeout))
      | _ => Ret tt
      end ;;;
      Ret (from_bounded (fst done), snd done)
  end.

Definition elapsed_of (timeout : Timeout) : Duration := default Duration_ZERO (Timeout.as_duration timeout).

Definition read_l2 (key : string) (opts : EntryOptions) (fallback : FallbackAvailability)
    : action (option (DistributedLookup V)) :=
  if negb (is_hybrid (storage inner)) then ok None
  else if EntryOptions.skip_distributed_read opts then ok None
  else
    let* closed := circuit CC_Distributed in
    if negb closed then ok None
    else
      let timeout := EntryOptions.appropriate_distributed_timeout opts (is_available fallback) in
      let degrades := EntryOptions.is_fail_safe_enabled opts && is_available fallback
                      && bool_decide (timeout = EntryOptions.distributed_soft_timeout opts) in
      let soft := degrades && negb (bool_decide (timeout = EntryOptions.distributed_hard_timeout opts)) in
      let* budget := read_l2_budget key timeout soft in
      let result := match fst budget with
                    | Completed result => result
                    | TimedOut => if degrades then Ok None else Err (CE_DistributedTimeout (elapsed_of timeout))
                    end in
      let miss := if snd budget then Ret tt else distributed_miss key in
      match result with
      | Ok None => miss ;;; ok None
      | Ok (Some found) =>
          let? _ := ask (C_ReconcileControlled (lookup_entry found)) in
          ok (Some found)
      | Err e =>
          failure key e ;;;
          if rethrow opts e then raise e else miss ;;; ok None
      end.

(** ** Hydration *)

(** A newer resident entry, or one as old that a stale snapshot would replace,
    keeps its place; so does everything once the fence is behind. *)
Definition hydration_superseded (verdict : TagVerdict) (source : Entry) (fence : Fences.Fence)
    (observed : option Entry) : prog bool :=
  let* current := ask (C_PassiveCurrent fence) in
  if negb current || bool_decide (verdict = Remove) then Ret true
  else
    match observed with
    | None => Ret false
    | Some e =>
        if created (Entry.meta source) <? created (Entry.meta e) then Ret true
        else if created (Entry.meta e) =? created (Entry.meta source) then
          if bool_decide (verdict = Expire) then Ret true
          else let* now := ask C_Now in Ret (Entry.is_logically_expired source now)
        else Ret false
    end.

(** Evaluated under the lane's guard. *)
Definition hydrate_fenced (key : string) (source : Entry) (fence : Fences.Fence) (observed : option Entry)
    (opts : EntryOptions) : action HydrationOutcome :=
  let* verdict := evaluate_tags inner source in
  let* superseded := hydration_superseded verdict source fence observed in
  if superseded then ok (HO_Skipped SK_Superseded)
  else
    let* now := ask C_Now in
    let* stamps := ask C_Stamps in
    let? prepared := from from_entry_error (Entry.prepare_memory_hydration stamps source opts now) in
    match prepared with
    | None => ok (HO_Skipped SK_PhysicallyExpired)
    | Some local =>
        let? value := copy inner (Entry.value source) opts in
        let* p := ask C_Alloc in
        let local := mkEntry p (mkInner value local
                       (EL_Hydrated (mkStamp (epoch_loc inner) (Fences.captured_epoch fence)))) in
        let* current := ask (C_PassiveCurrent fence) in
        if negb current then ok (HO_Skipped SK_Superseded)
        else
          let* now := ask C_Now in
          let? admission := ask (C_InsertIfUnchanged key observed local now) in
          ok (HO_Evaluated admission)
    end.

Definition hydrate (key : string) (source : DistributedLookup V) (opts : EntryOptions)
    : action HydrationOutcome :=
  if EntryOptions.skip_memory_write opts then ok (HO_Skipped SK_Policy)
  else
    match hydration source with
    | HF_ConcurrentMutation => ok (HO_Skipped SK_Superseded)
    | HF_Stable fence observed =>
        let* free := ask (C_TryLane key) in
        if negb free then ok (HO_Skipped SK_Superseded)
        else
          let* outcome := hydrate_fenced key (lookup_entry source) fence observed opts in
          ask (C_Unlane key) ;;;
          Ret outcome
    end.

(** ** The read-only lookup *)
Definition read_hit (key : string) (e : Entry) (opts : EntryOptions) (kind : HitKind) (level : CacheLevel)
    : action (Observed (option V)) :=
  let? value := copy inner (Entry.value e) opts in
  emit_outcome (EV_Hit key (is_stale kind)) ;;;
  ok (mkObserved (Some value) (hit_outcome kind) (Some level)).

(** What the distributed stage leaves: a served hit, or the newest stale entry. *)
Definition read_distributed (key : string) (opts : EntryOptions) (stale : option (ReadStale V))
    : action (Observed (option V) + option (ReadStale V)) :=
  if bool_decide (is_Some stale) && EntryOptions.skip_distributed_read_when_stale opts then ok (inr stale)
  else
    let? found := read_l2 key opts (fallback_of stale) in
    match found with
    | None => ok (inr stale)
    | Some found =>
        let* verdict := evaluate_tags inner (lookup_entry found) in
        match verdict with
        | Remove => ok (inr stale)
        | _ =>
            let? _ := hydrate key found opts in
            if bool_decide (verdict = Valid)
               && is_fresh (Entry.freshness (lookup_entry found) (observed_at found))
            then
              let? hit := read_hit key (lookup_entry found) opts HK_Fresh CL_Distributed in
              ok (inl hit)
            else
              ok (inr (Some (match stale with
                | Some previous =>
                    if created (Entry.meta (lookup_entry found)) <=? created (Entry.meta (stale_entry previous))
                    then previous else RS_Distributed (lookup_entry found)
                | None => RS_Distributed (lookup_entry found)
                end)))
        end
    end.

(** The end of [read]: the stale entry when the options allow it, or a miss. *)
Definition read_missed (full : string) : action (Observed (option V)) :=
  emit_outcome (EV_Miss full) ;;; ok (mkObserved None OO_Miss None).
Definition finish_read (full : string) (opts : EntryOptions) (stale : option (ReadStale V))
    : action (Observed (option V)) :=
  match stale with
  | Some stale =>
      if EntryOptions.allow_stale_on_read_only opts
      then let '(e, level) := into_parts stale in read_hit full e opts HK_Stale level
      else read_missed full
  | None => read_missed full
  end.

Definition read (raw full : string) (options : option EntryOptions) : action (Observed (option V)) :=
  let? opts := resolve_lookup_options inner raw options in
  let? _ := ask C_Health in
  let? first := if EntryOptions.skip_memory_read opts then ok L1_Miss else read_l1 full in
  match first with
  | L1_Fresh e => read_hit full e opts HK_Fresh CL_Memory
  | L1_Stale _ | L1_Miss =>
      let? rest := read_distributed full opts
                     match first with L1_Stale e => Some (RS_Memory e) | _ => None end in
      match rest with
      | inl served => ok served
      | inr stale => finish_read full opts stale
      end
  end.
End read.
#[global] Arguments rethrow : simpl never.
#[global] Arguments read_l1 : simpl never.
#[global] Arguments distributed_miss : simpl never.
#[global] Arguments hydration_fence : simpl never.
#[global] Arguments fetch_bytes : simpl never.
#[global] Arguments fetch_l2 : simpl never.
#[global] Arguments read_l2_budget : simpl never.
#[global] Arguments read_l2 : simpl never.
#[global] Arguments hydration_superseded : simpl never.
#[global] Arguments hydrate_fenced : simpl never.
#[global] Arguments hydrate : simpl never.
#[global] Arguments read_hit : simpl never.
#[global] Arguments read_distributed : simpl never.
#[global] Arguments read_missed : simpl never.
#[global] Arguments finish_read : simpl never.
#[global] Arguments read : simpl never.

(** ** What a served entry went through *)
Section facts.
Context {V : Type} (ci : Inner).
Implicit Types (h l : list (event (answer (V := V)))) (e : Entry V).

(** [e] was read from L1 under one continuity epoch, and at [now], later, it
    was eligible, physically live and judged [verdict]. *)
Definition l1_found h (key : string) e (now : Timestamp) (verdict : TagVerdict) : Prop :=
  ∃ k t l l', since (Ev C_Epoch k) l h ∧ since (Ev (C_GetAt key t) (Ok (Some e))) l' l ∧
    Ev C_Epoch k ∈ l' ∧ Ev C_Now now ∈ l' ∧ Entry.is_physically_expired e now = false ∧
    (∃ stamps, Ev C_Stamps stamps ∈ l' ∧ Entry.is_read_eligible stamps e = true) ∧
    judged ci l' e verdict.

Lemma judged_incl l h e v : (∀ x, x ∈ l → x ∈ h) → judged ci l e v → judged ci h e v.
Proof. unfold judged. case_match; auto. Qed.
Lemma judged_app l h e v : judged ci h e v → judged ci (l ++ h) e v.
Proof. apply judged_incl. intros. by apply elem_of_app; right. Qed.

Lemma l1_found_app l h key e now v : l1_found h key e now v → l1_found (l ++ h) key e now v.
Proof.
  intros (k & t & l1 & l2 & H1 & H2 & ? & ? & ? & (st & ? & ?) & ?).
  exists k, t, (l ++ l1), (l ++ l2). split_and!; [by apply since_app..|recorded|recorded|done| |by apply judged_app].
  exists st. split; [recorded|done].
Qed.

Lemma wp_read_l1 key h :
  wp (world V) (read_l1 ci key) h (λ r h', ∃ l, h' = l ++ h ∧
    match r with
    | Ok (L1_Fresh e) => ∃ now, l1_found l key e now Valid ∧ Entry.freshness e now = Fresh
    | Ok (L1_Stale e) => ∃ now v, l1_found l key e now v ∧ v ≠ Remove ∧ (v = Expire ∨ Entry.freshness e now = Stale)
    | _ => True
    end).
Proof.
  unfold read_l1, check. wp_run.
  all: try (grown; done).
  wp_use (wp_evaluate_tags (V := V)). rename H into Hj.
  apply orb_false_iff in Heqb as [[Hk%negb_false_iff%Z.eqb_eq Hel%negb_false_iff]%orb_false_iff Hph].
  match goal with |- context [x9 ++ ?t] =>
    assert (∀ pre, ∃ l, pre ++ (x9 ++ t) = l ++ h ∧ l1_found l key e x6 a2) as Hf end.
  { intros pre. grown. exists x, x0. eexists _, _.
    split; [seen|]. split; [seen|].
    split; [rewrite <-Hk; recorded|]. split; [recorded|]. split; [done|].
    split; [exists x8; split; [recorded|done]|]. eapply judged_incl, Hj. intros ev Hev. recorded. }
  destruct a2; wp_run.
  - destruct (Entry.freshness e x6) eqn:?; cbn; destruct (Hf []) as (l & El & Hl); cbn in El; rewrite El; exists l; eauto 8.
  - destruct (Hf []) as (l & El & Hl); cbn in El; rewrite El; exists l; eauto 8.
  - by grown.
  - by grown.
  - by grown.
Qed.

(** The bytes came from the provider, under the key's physical name. *)
Definition provided h (physical : string) (bytes : list Init.Byte.byte) : Prop :=
  Ev (C_GetImmediate physical) (Some (Ok (Some bytes))) ∈ h ∨
  Ev (C_BackendGet physical) (Ok (Some bytes)) ∈ h ∨
  ∃ prefetched, Ev (C_GetMarked physical CLEAR_MARKERS) (Ok (MR_Value bytes prefetched)) ∈ h.

Lemma provided_incl l h physical bytes : (∀ x, x ∈ l → x ∈ h) → provided l physical bytes → provided h physical bytes.
Proof. unfold provided. naive_solver. Qed.

(** Markers at hand came with the bytes, in the same read. *)
Definition prefetched_with h (physical : string) (bytes : list Init.Byte.byte)
    (prefetched : option (result MarkerError (list StoredMarker))) : Prop :=
  prefetched = None ∨ Ev (C_GetMarked physical CLEAR_MARKERS) (Ok (MR_Value bytes prefetched)) ∈ h.
Lemma prefetched_with_incl l h physical bytes prefetched :
  (∀ x, x ∈ l → x ∈ h) → prefetched_with l physical bytes prefetched → prefetched_with h physical bytes prefetched.
Proof. unfold prefetched_with. naive_solver. Qed.

Lemma wp_fetch_bytes key h :
  wp (world V) (fetch_bytes ci key) h (λ r h', ∃ l, h' = l ++ h ∧
    match r with
    | Ok (Some bytes, prefetched) => provided l (l2_key ci key) bytes ∧ prefetched_with l (l2_key ci key) bytes prefetched
    | _ => True
    end).
Proof.
  unfold fetch_bytes. wp_run; grown; try done.
  - destruct a as [bytes|]; [|done]. split; [left; recorded|by left].
  - destruct a as [bytes|]; [|done]. split; [right; left; recorded|by left].
  - split; [right; right; eexists; recorded|right; recorded].
Qed.

(** [e] is the snapshot read from the provider and decoded, physically live at
    [now], and under the durable policy its markers were reconciled since. *)
Definition l2_fetched h (key : string) e (now : Timestamp) : Prop :=
  ∃ bytes snapshot p l, provided h (l2_key ci key) bytes ∧
    since (Ev (C_Decode bytes) (Ok snapshot)) l h ∧ Ev C_Now now ∈ h ∧
    DistributedSnapshot.try_into_cache_entry p snapshot now = Ok e ∧
    Entry.is_physically_expired e now = false ∧
    (marker_read_policy ci = DurableRequired →
     ∃ prefetched, prefetched_with h (l2_key ci key) bytes prefetched ∧
     Ev (C_ReconcileMarkers (tags (Entry.meta e)) prefetched) (Ok tt) ∈ l).

Lemma l2_fetched_app l h key e now : l2_fetched h key e now → l2_fetched (l ++ h) key e now.
Proof.
  intros (bytes & s & p & l1 & ? & H & ? & ? & ? & Hm). exists bytes, s, p, (l ++ l1).
  split; [eapply provided_incl; [|done]; intros; recorded|]. split; [by apply since_app|].
  split; [recorded|]. split; [done|]. split; [done|].
  intros (pre & ? & ?)%Hm. exists pre. split; [eapply prefetched_with_incl; [|done]; intros; recorded|recorded].
Qed.

Lemma l2_fetched_app_r l h key e now : l2_fetched h key e now → l2_fetched (h ++ l) key e now.
Proof.
  intros (bytes & s & p & l1 & ? & H & ? & ? & ? & Hm). exists bytes, s, p, l1.
  split; [eapply provided_incl; [|done]; intros; recorded|]. split; [by apply since_app_r|].
  split; [recorded|]. split; [done|]. split; [done|].
  intros (pre & ? & ?)%Hm. exists pre. split; [eapply prefetched_with_incl; [|done]; intros; recorded|done].
Qed.

Lemma wp_fetch_l2 key h :
  wp (world V) (fetch_l2 ci key) h (λ r h', ∃ l, h' = l ++ h ∧
    match r with Ok (Some found) => l2_fetched l key (lookup_entry found) (observed_at found) | _ => True end).
Proof.
  unfold fetch_l2, check. destruct (is_hybrid (storage ci)); cbn; [|by grown].
  wp_run; [by grown|]. wp_pass. destruct a as [fence|]; wp_run; [|by grown].
  wp_use wp_fetch_bytes. destruct a as [[[bytes|] pre]|]; wp_run; [|wp_pass; wp_run; wp_pass; wp_run; by grown|by grown].
  wp_pass. wp_use wp_decode. destruct a0 as [snapshot|]; wp_run.
  all: try (by grown). all: try (wp_pass; wp_run; by grown).
  all: destruct H0 as [l' Hl']; unfold map_err in Heqr; simplify_option_eq.
  all: destruct (DistributedSnapshot.try_into_cache_entry _ _ _) eqn:Hs; simplify_eq/=.
  all: destruct H as [Hprov Hpre]; grown; exists bytes, snapshot; eexists _, _.
  all: split; [eapply provided_incl; [|done]; intros; recorded|].
  all: split; [seen|]; split; [recorded|]; split; [eassumption|]; split; [done|].
  all: intros Hp; try congruence; destruct a1; eexists; (split; [eapply prefetched_with_incl; [|done]; intros; recorded|recorded]).
Qed.

(** The breaker the error belongs to was told. *)
Definition accounted h (e : CacheError) : Prop :=
  ∀ c, transport_of e = Some c → ∃ now opened, Ev (C_Trip c now) opened ∈ h.

Lemma wp_failure key (e : CacheError) h :
  wp (world V) (failure key e) h (λ _ h', ∃ l, h' = l ++ h ∧ accounted l e).
Proof.
  assert (∀ p : prog (answer (V := V)) unit, transport_of e = None → wp (world V) p h (λ _ h', ∃ l, h' = l ++ h ∧ accounted l e)) as Hnone.
  { intros p He. eapply wp_mono; [apply wp_grows|]. intros _ h' [l ->]. exists l. split; [done|].
    intros c Hc. congruence. }
  assert (∀ c, transport_of e = Some c → wp (world V) (trip_circuit c) h (λ _ h', ∃ l, h' = l ++ h ∧ accounted l e)) as Hsome.
  { intros c Hc. unfold trip_circuit. wp_run.
    - eapply wp_mono; [apply wp_grows|]. intros _ h' [l ->]. grown. intros c' ?. simplify_eq. do 2 eexists. recorded.
    - grown. intros c' ?. simplify_eq. do 2 eexists. recorded. }
  unfold failure. destruct (transport_of e) as [c|] eqn:Hc.
  - destruct e; try discriminate; by apply Hsome.
  - destruct e as [| | | | | | | | | | | | | | | | | | | | | | | | | |[]| | | |]; by apply Hnone.
Qed.

Lemma accounted_app_r l h (e : CacheError) : accounted h e → accounted (h ++ l) e.
Proof. intros H c (now & b & ?)%H. exists now, b. recorded. Qed.

Lemma wp_read_l2_budget key timeout soft h :
  wp (world V) (read_l2_budget ci key timeout soft) h (λ done h', ∃ l, h' = l ++ h ∧
    match done.1 with
    | Completed (Ok (Some found)) => l2_fetched l key (lookup_entry found) (observed_at found)
    | TimedOut => timeout ≠ Infinite
    | _ => True
    end).
Proof.
  assert (∀ phased, wp (world V) (bounded timeout phased (fetch_l2 ci key)) h (λ done h', ∃ l, h' = l ++ h ∧
    match from_bounded done.1 with
    | Completed (Ok (Some found)) => l2_fetched l key (lookup_entry found) (observed_at found)
    | TimedOut => timeout ≠ Infinite
    | _ => True
    end)) as Hb.
  { intros phased. eapply wp_mono; [eapply wp_conj; [apply wp_grows|apply wp_bounded, wp_fetch_l2]|].
    intros [[[r|]|e] b] h' [[l ->] H]; simpl in *; [|by eexists..].
    destruct r as [[found|]|e]; [|by eexists..]. exact H. }
  unfold read_l2_budget. destruct (storage ci) as [|[]]; [| |].
  all: apply wp_bind; eapply wp_mono; [apply Hb|]; intros [d b] h' (l & -> & H); cbn [fst snd] in *.
  all: wp_run; grown; try done; try by destruct (from_bounded d) as [[[]|]|].
  all: destruct d as [[[]|]|]; simpl in *; try done.
  all: destruct r as [[found|]|]; try done; by apply (l2_fetched_app [_]).
Qed.

Lemma wp_read_l2 key opts fallback h :
  wp (world V) (read_l2 ci key opts fallback) h (λ r h', ∃ l, h' = l ++ h ∧
    match r with
    | Ok (Some found) =>
        l2_fetched l key (lookup_entry found) (observed_at found) ∧
        Ev (C_ReconcileControlled (lookup_entry found)) (Ok tt) ∈ l
    | Ok None => True
    | Err e => rethrow opts e = true ∧ accounted l e ∨
               ∃ x, Ev (C_ReconcileControlled x) (Err e) ∈ l
    end).
Proof.
  unfold read_l2. destruct (is_hybrid (storage ci)); cbn; [|by grown].
  destruct (EntryOptions.skip_distributed_read opts); cbn; [by grown|].
  wp_pass. destruct a; cbn; [|by grown].
  wp_use wp_read_l2_budget. destruct a as [[[[found|]|e]|] completed]; cbn [fst snd] in *.
  - wp_run; grown; [|right; eexists; recorded]. destruct a. split; [|recorded].
    by apply (l2_fetched_app [_]), l2_fetched_app_r.
  - wp_pass. wp_run. by grown.
  - wp_use wp_failure. destruct (rethrow opts e) eqn:?; cbn; [|wp_pass; by grown].
    grown. left. split; [done|]. by apply accounted_app_r.
  - match goal with |- context [if ?b then Ok None else _] => destruct b end; cbn.
    + wp_pass. by grown.
    + wp_use wp_failure. match goal with |- context [if rethrow opts ?e then _ else _] => destruct (rethrow opts e) eqn:? end;
        cbn; [|wp_pass; by grown].
      grown. left. split; [done|]. by apply accounted_app_r.
Qed.

(** ** Hydration *)

(** A snapshot that may take the place of what L1 held when its fence was
    taken: strictly newer, or of the same age and then valid and fresh. *)
Definition may_replace h (source : Entry V) (expected : option (Entry V)) : Prop :=
  ∀ o, expected = Some o →
    created (Entry.meta o) < created (Entry.meta source) ∨
    created (Entry.meta o) = created (Entry.meta source) ∧ judged ci h source Valid ∧
    ∃ now, Ev C_Now now ∈ h ∧ Entry.is_logically_expired source now = false.

(** What an installed copy of [source] satisfies; [l] is what preceded it. Its
    fence was current in the last check before the clock was read. *)
Definition hydrates l (fence : Fences.Fence) (expected : option (Entry V)) (source e : Entry V) : Prop :=
  (∃ now l', l = Ev C_Now now :: Ev (C_PassiveCurrent fence) true :: l') ∧ may_replace l source expected ∧
  (∃ v, v ≠ Remove ∧ judged ci l source v) ∧
  eligibility (inner e) = EL_Hydrated (mkStamp (epoch_loc ci) (Fences.captured_epoch fence)) ∧
  created (Entry.meta e) = created (Entry.meta source) ∧ tags (Entry.meta e) = tags (Entry.meta source) ∧
  logical_expiration (Entry.meta e) ≤ logical_expiration (Entry.meta source) ∧
  physical_expiration (Entry.meta e) ≤
    Z.max (physical_expiration (Entry.meta source)) (logical_expiration (Entry.meta source)).

Lemma wp_hydration_superseded verdict source fence expected h :
  wp (world V) (hydration_superseded verdict source fence expected) h (λ b h', ∃ l, h' = l ++ h ∧
    (b = false → Ev (C_PassiveCurrent fence) true ∈ l ∧ verdict ≠ Remove ∧
       ∀ o, expected = Some o →
         created (Entry.meta o) < created (Entry.meta source) ∨
         created (Entry.meta o) = created (Entry.meta source) ∧ verdict = Valid ∧
         ∃ now, Ev C_Now now ∈ l ∧ Entry.is_logically_expired source now = false)).
Proof.
  unfold hydration_superseded. wp_run; grown; try done; intros Hb; simplify_eq.
  all: repeat match goal with H : _ || _ = false |- _ => apply orb_false_elim in H as [? ?] end.
  all: bool_to_prop; subst; split; [recorded|split; [done|]]; intros ? [= <-] || intros ? ?; simplify_eq.
  - right. split; [done|]. split; [by destruct verdict|exists x0; split; [recorded|done]].
  - left. lia.
Qed.

Definition installs (c : Call V) : bool :=
  match c with C_InsertIfUnchanged _ _ _ _ => true | _ => false end.

Definition quiet (l : list (event (answer (V := V)))) : Prop :=
  Forall (λ ev, installs (ev_call ev) = false) l.
Ltac hush := unfold quiet in *; repeat first
  [ eassumption | apply Forall_nil_2 | apply Forall_app_2 | apply Forall_cons_2; [done|] ].

Lemma quiet_absurd l ev : quiet l → ev ∈ l → installs (ev_call ev) = true → False.
Proof. intros Hq Hev Hi. rewrite (proj1 (Forall_forall _ _) Hq ev Hev) in Hi. done. Qed.
Lemma quiet_evaluate_tags e : only (λ c, installs c = false) (evaluate_tags (V := V) ci e).
Proof. unfold evaluate_tags. by case_match; simpl. Qed.
Lemma quiet_copy v opts : only (λ c, installs c = false) (copy (V := V) ci v opts).
Proof.
  unfold copy, from. apply only_attempt; [done|]. intros _. destruct (negb _), (has_cloner ci); simpl; auto.
Qed.
Lemma quiet_superseded v source fence expected :
  only (λ c, installs c = false) (hydration_superseded (V := V) v source fence expected).
Proof.
  unfold hydration_superseded. split; [done|]. intros b. cbn. repeat (case_match; simpl; auto).
Qed.

(** The outcome of a hydration: nothing was installed, or, last of all and
    under its fence, one acceptable copy of the snapshot. *)
Definition hydrated_at l (key : string) (fence : Fences.Fence) expected source : Prop :=
  quiet l ∨ ∃ e now a l', l = Ev (C_InsertIfUnchanged key expected e now) a :: l' ∧ quiet l' ∧
    hydrates l' fence expected source e.

Lemma wp_hydrate_fenced key source fence expected opts h :
  wp (world V) (hydrate_fenced ci key source fence expected opts) h
    (λ _ h', ∃ l, h' = l ++ h ∧ hydrated_at l key fence expected source).
Proof.
  unfold hydrate_fenced, hydrated_at.
  apply wp_bind. eapply wp_mono; [apply wp_only; [apply quiet_evaluate_tags|apply wp_evaluate_tags]|].
  intros verdict ? (l & -> & Hq & Hj).
  apply wp_bind. eapply wp_mono.
  { apply wp_only; [apply quiet_superseded|apply wp_hydration_superseded]. }
  intros b ? (l1 & -> & Hq1 & Hb). destruct b; cbn; [grown; left; hush|].
  specialize (Hb eq_refl) as (Hc & Hv & Hr).
  wp_run; [|grown; left; hush|grown; left; hush].
  apply wp_bind. eapply wp_mono; [apply wp_only; [apply quiet_copy|apply wp_copy]|].
  intros r ? (l2 & -> & Hq2 & _). destruct r as [v|]; wp_run; try solve [grown; left; hush].
  all: grown; right; do 4 eexists; split; [done|]; split; [hush|].
  all: destruct (Entry.prepare_memory_hydration _ _ _ _) as [om|] eqn:Hm; simplify_eq/=.
  all: apply hydration_inv in Hm as (_ & _ & _ & Hl & Hp & _ & Hcr & Ht & _).
  all: apply negb_false_iff in Heqb; subst; split; [by do 2 eexists|].
  all: split; [intros o Ho; destruct (Hr o Ho) as [?|(? & -> & t & ? & ?)]; [by left|right; split; [done|]]|].
  1, 3: split; [eapply judged_incl, Hj; intros; recorded|exists t; split; [recorded|done]].
  all: split; [exists verdict; split; [done|]; eapply judged_incl, Hj; intros; recorded|].
  all: cbn; unfold Entry.meta; cbn; fold (Entry.meta source); split_and!; (done || lia).
Qed.

Lemma wp_hydrate key source opts h :
  wp (world V) (hydrate ci key source opts) h (λ _ h', ∃ l, h' = l ++ h ∧
    (quiet l ∨ ∃ fence expected l', hydration source = HF_Stable fence expected ∧
       EntryOptions.skip_memory_write opts = false ∧
       l = Ev (C_Unlane key) () :: l' ++ [Ev (C_TryLane key) true] ∧
       hydrated_at l' key fence expected (lookup_entry source))).
Proof.
  unfold hydrate. destruct (EntryOptions.skip_memory_write opts) eqn:?; cbn; [grown; left; hush|].
  destruct (hydration source) as [fence expected|]; cbn; [|grown; left; hush].
  intros free ? ->. cbn. destruct free; cbn; [|grown; left; hush].
  wp_use wp_hydrate_fenced. wp_run. grown. right. exists fence, expected, x. by destruct x0.
Qed.

(** ** The read-only lookup *)

(** The options the lookup runs with. *)
Definition chosen h (raw : string) (options : option EntryOptions) (opts : EntryOptions) : Prop :=
  match options with
  | Some o => opts = o
  | None => Ev (C_OptionsFor raw) (Some opts) ∈ h ∨
            Ev (C_OptionsFor raw) None ∈ h ∧ opts = default_options ci
  end.

Lemma wp_resolve_lookup_options raw options h :
  wp (world V) (resolve_lookup_options ci raw options) h (λ r h', ∃ l, h' = l ++ h ∧
    match r with Ok opts => chosen l raw options opts | Err _ => True end).
Proof.
  unfold resolve_lookup_options, chosen. destruct options as [o|]; cbn.
  - wp_pass. destruct a; cbn; by grown.
  - intros o ? ->. destruct o as [o|]; cbn; wp_pass; destruct a; cbn; grown; try done; [left|right; split; [|done]]; recorded.
Qed.

(** [e] came from the provider, and was judged [v] since. *)
Definition l2_found h (key : string) e (now : Timestamp) (v : TagVerdict) : Prop :=
  ∃ l l', h = l ++ l' ∧ l2_fetched l' key e now ∧ Ev (C_ReconcileControlled e) (Ok tt) ∈ l' ∧ judged ci l e v.

Lemma l2_found_app l h key e now v : l2_found h key e now v → l2_found (l ++ h) key e now v.
Proof.
  intros (l1 & l2 & -> & ? & ? & ?). exists (l ++ l1), l2. rewrite app_assoc. eauto using judged_app.
Qed.

Lemma wp_read_hit key e opts kind level h :
  wp (world V) (read_hit ci key e opts kind level) h (λ r h', ∃ l, h' = l ++ h ∧
    match r with
    | Ok o => ∃ v, o = mkObserved (Some v) (hit_outcome kind) (Some level) ∧ copied l opts (Entry.value e) v
    | Err _ => True
    end).
Proof.
  unfold read_hit. wp_use wp_copy. destruct a as [v|]; wp_run; grown; [|done].
  exists v. split; [done|]. destruct H as [?|?]; [by left|right; recorded].
Qed.

(** What a served value went through, by how it is reported. *)
Definition served h (key : string) (opts : EntryOptions) (v : V) (outcome : OperationOutcome)
    (level : option CacheLevel) : Prop :=
  ∃ e now verdict, copied h opts (Entry.value e) v ∧
    match level with
    | Some CL_Memory => l1_found h key e now verdict
    | Some CL_Distributed => l2_found h key e now verdict
    | _ => False
    end ∧
    match outcome with
    | OO_Hit => verdict = Valid ∧ Entry.freshness e now = Fresh
    | OO_StaleHit => EntryOptions.allow_stale_on_read_only opts = true ∧ verdict ≠ Remove
    | _ => False
    end.

Lemma copied_app l h opts v v' : copied h opts v v' → copied (l ++ h) opts v v'.
Proof. intros [?|?]; [by left|right; recorded]. Qed.
Lemma copied_app_r l h opts v v' : copied h opts v v' → copied (h ++ l) opts v v'.
Proof. intros [?|?]; [by left|right; recorded]. Qed.

Lemma wp_read_distributed key opts stale h :
  wp (world V) (read_distributed ci key opts stale) h (λ r h', ∃ l, h' = l ++ h ∧
    match r with
    | Ok (inl o) => ∃ v, o = mkObserved (Some v) OO_Hit (Some CL_Distributed) ∧
                    served l key opts v OO_Hit (Some CL_Distributed)
    | Ok (inr stale') =>
        stale' = stale ∨ ∃ e now v, stale' = Some (RS_Distributed e) ∧ l2_found l key e now v ∧ v ≠ Remove
    | Err _ => True
    end).
Proof.
  unfold read_distributed. case_match; cbn; [grown; by left|].
  wp_use wp_read_l2. destruct a as [[found|]|e]; cbn; [|grown; by left|by grown].
  destruct H0 as [Hf Hc]. wp_use wp_evaluate_tags.
  assert (l2_found (x0 ++ x) key (lookup_entry found) (observed_at found) a) as F by (by exists x0, x).
  assert (a ≠ Remove → ∀ l, l2_found (l ++ x0 ++ x) key (lookup_entry found) (observed_at found) a ∧ a ≠ Remove) as Hkeep.
  { intros Ha l. split; [by apply l2_found_app|done]. }
  assert (∀ l, a ≠ Remove → wp (world V) (if bool_decide (a = Valid) && is_fresh (Entry.freshness (lookup_entry found) (observed_at found))
    then let? hit := read_hit ci key (lookup_entry found) opts HK_Fresh CL_Distributed in ok (inl hit)
    else ok (inr (Some match stale with
      | Some previous => if created (Entry.meta (lookup_entry found)) <=? created (Entry.meta (stale_entry previous))
                         then previous else RS_Distributed (lookup_entry found)
      | None => RS_Distributed (lookup_entry found) end))) (l ++ x0 ++ x ++ h) (λ r h', ∃ l, h' = l ++ h ∧
    match r with
    | Ok (inl o) => ∃ v, o = mkObserved (Some v) OO_Hit (Some CL_Distributed) ∧
                    served l key opts v OO_Hit (Some CL_Distributed)
    | Ok (inr stale') =>
        stale' = stale ∨ ∃ e now v, stale' = Some (RS_Distributed e) ∧ l2_found l key e now v ∧ v ≠ Remove
    | Err _ => True
    end)) as Hend.
  { intros l Ha. destruct (bool_decide (a = Valid) && _) eqn:Hv; cbn.
    - apply andb_prop in Hv as [Hv%bool_decide_eq_true Hfr]. wp_use wp_read_hit as Hr. destruct a0 as [o|]; wp_run; [|by grown].
      destruct Hr as (v & -> & Hcp). grown. exists v. split; [done|].
      exists (lookup_entry found), (observed_at found), a. split; [by apply copied_app_r|].
      split; [by do 2 apply l2_found_app|]. split; [done|]. by destruct (Entry.freshness _ _).
    - grown. destruct stale as [previous|]; [case_match; [by left|]|]; right; do 3 eexists; by eauto. }
  destruct a; cbn; [| |grown; by left]; (apply wp_skip_attempt; [|intros; by grown]; intros ? l; by apply Hend).
Qed.

Lemma served_app l h key opts v outcome level :
  served h key opts v outcome level → served (l ++ h) key opts v outcome level.
Proof.
  intros (e & now & verdict & Hc & Hf & Ho). exists e, now, verdict. split; [by apply copied_app|].
  split; [|done]. destruct level as [[]|]; [by apply l1_found_app|by apply l2_found_app|done..].
Qed.

Lemma l1_found_app_r l h key e now v : l1_found h key e now v → l1_found (h ++ l) key e now v.
Proof.
  intros (k & t & l1 & l2 & H1 & H2 & H). exists k, t, l1, l2. split; [by apply since_app_r|done].
Qed.
Lemma l2_found_app_r l h key e now v : l2_found h key e now v → l2_found (h ++ l) key e now v.
Proof.
  intros (l1 & l2 & -> & ? & ? & ?). exists l1, (l2 ++ l). rewrite app_assoc.
  split; [done|]. split; [by apply l2_fetched_app_r|]. split; [recorded|done].
Qed.

Lemma served_app_r l h key opts v outcome level :
  served h key opts v outcome level → served (h ++ l) key opts v outcome level.
Proof.
  intros (e & now & verdict & Hc & Hf & Ho). exists e, now, verdict. split; [by apply copied_app_r|].
  split; [|done]. destruct level as [[]|]; [by apply l1_found_app_r|by apply l2_found_app_r|done..].
Qed.

Lemma chosen_incl l h raw options opts :
  (∀ x, x ∈ l → x ∈ h) → chosen l raw options opts → chosen h raw options opts.
Proof. unfold chosen. destruct options; [done|]. naive_solver. Qed.

(** The answers a lookup may give after [h]. *)
Definition answers h (key : string) (opts : EntryOptions) (r : result CacheError (Observed (option V))) : Prop :=
  match r with
  | Ok o =>
      match observed_value o with
      | Some v => served h key opts v (observed_outcome o) (observed_level o)
      | None => o = mkObserved None OO_Miss None ∧ Ev (C_Emit (N_Cache (EV_Miss key))) () ∈ h
      end
  | Err _ => True
  end.

Lemma answers_app_r l h key opts r : answers h key opts r → answers (h ++ l) key opts r.
Proof.
  destruct r as [o|]; [|done]. simpl. destruct (observed_value o); [apply served_app_r|].
  intros [-> ?]. split; [done|recorded].
Qed.

Lemma wp_read_missed key opts l0 h :
  wp (world V) (read_missed key) (l0 ++ h) (λ r h', ∃ l, h' = (l ++ l0) ++ h ∧ answers (l ++ l0) key opts r).
Proof. cbn. intros [] ? ->. exists [Ev (C_Emit (N_Cache (EV_Miss key))) ()]. split; [done|]. split; [done|recorded]. Qed.

(** [l0] vouches for a stale candidate. *)
Definition vouched l0 (key : string) (s : ReadStale V) : Prop :=
  ∃ now verdict, verdict ≠ Remove ∧
    match s with
    | RS_Memory e => l1_found l0 key e now verdict
    | RS_Distributed e => l2_found l0 key e now verdict
    end.

Lemma vouched_app l h key s : vouched h key s → vouched (l ++ h) key s.
Proof.
  intros (now & v & ? & ?). exists now, v. split; [done|].
  destruct s; [by apply l1_found_app|by apply l2_found_app].
Qed.

Lemma wp_finish_read key opts stale l0 h :
  (∀ s, stale = Some s → vouched l0 key s) →
  wp (world V) (finish_read ci key opts stale) (l0 ++ h)
    (λ r h', ∃ l, h' = (l ++ l0) ++ h ∧ answers (l ++ l0) key opts r).
Proof.
  intros Hs. unfold finish_read. destruct stale as [s|]; [|apply wp_read_missed].
  destruct (EntryOptions.allow_stale_on_read_only opts) eqn:Ha; [|apply wp_read_missed].
  destruct (Hs s eq_refl) as (now & verdict & Hv & Hf).
  destruct (into_parts s) as [e level] eqn:Hp.
  eapply wp_mono; [apply wp_read_hit|]. intros r ? (l & -> & Hl). exists l. rewrite app_assoc.
  split; [done|]. destruct r as [o|]; [|done]. destruct Hl as (v & -> & Hc).
  exists e, now, verdict. split; [by apply copied_app_r|]. split; [|done].
  destruct s; simplify_eq/=; [by apply l1_found_app|by apply l2_found_app].
Qed.

(** What a lookup that found no fresh L1 value answers. *)
Lemma wp_read_rest key opts stale l0 h :
  (∀ s, stale = Some s → vouched l0 key s) →
  wp (world V)
    (let? rest := read_distributed ci key opts stale in
     match rest with
     | inl served => ok served
     | inr stale => finish_read ci key opts stale
     end) (l0 ++ h) (λ r h', ∃ l, h' = (l ++ l0) ++ h ∧ answers (l ++ l0) key opts r).
Proof.
  intros Hs. wp_use wp_read_distributed as Hr. destruct a as [[o|stale']|e]; cbn.
  - destruct Hr as (v & -> & Hr). exists x. rewrite app_assoc. split; [done|]. by apply served_app_r.
  - rewrite app_assoc. eapply wp_mono; [apply wp_finish_read|].
    + intros s ->. destruct Hr as [Hr|(e & now & v & [= ->] & Hf & Hv)]; [by apply vouched_app, Hs|].
      exists now, v. split; [done|]. by apply l2_found_app_r.
    + intros r ? (l & -> & Hl). exists (l ++ x). by rewrite <-(app_assoc l x).
  - exists x. by rewrite app_assoc.
Qed.

End facts.

Section reading.
Context {V : Type} (ci : Inner).

Lemma wp_read raw full options :
  wp (world V) (read ci raw full options) [] (λ r h,
    match r with
    | Ok o => ∃ opts, chosen ci h raw options opts ∧ answers ci h full opts r
    | Err _ => True
    end).
Proof.
  unfold read. wp_use wp_resolve_lookup_options as Hopts. destruct a as [opts|]; [|done]. cbn.
  intros health ? ->. destruct health; cbn; [|done].
  assert (wp (world V) (if EntryOptions.skip_memory_read opts then ok L1_Miss else read_l1 ci full)
    (Ev C_Health (Ok a) :: x ++ []) (λ r h', ∃ l, h' = l ++ Ev C_Health (Ok a) :: x ++ [] ∧
    match r with
    | Ok (L1_Fresh e) => ∃ now, l1_found ci l full e now Valid ∧ Entry.freshness e now = Fresh
    | Ok (L1_Stale e) => ∃ now v, l1_found ci l full e now v ∧ v ≠ Remove ∧ (v = Expire ∨ Entry.freshness e now = Stale)
    | _ => True
    end)) as Hfirst by (destruct (EntryOptions.skip_memory_read opts); [by exists []|apply wp_read_l1]).
  assert (∀ l r l1, answers ci (l1 ++ l) full opts r →
    match r with
    | Ok _ => ∃ opts, chosen ci ((l1 ++ l) ++ Ev C_Health (Ok a) :: x ++ []) raw options opts ∧
                      answers ci ((l1 ++ l) ++ Ev C_Health (Ok a) :: x ++ []) full opts r
    | Err _ => True end) as Hdone.
  { intros l r l1 Hr. destruct r as [o|]; [|done]. exists opts.
    split; [eapply chosen_incl, Hopts; intros; recorded|by apply answers_app_r]. }
  apply wp_attempt. eapply wp_mono; [exact Hfirst|]. clear Hfirst. intros first ? (l & -> & Hl).
  destruct first as [[e|e|]|]; [| | |done].
  - eapply wp_mono; [apply wp_read_hit|]. intros r ? (l1 & -> & Hr). rewrite app_assoc. apply Hdone.
    destruct r as [o|]; [|done]. destruct Hr as (v & -> & Hc). destruct Hl as (now & Hf & Hfr).
    exists e, now, Valid. split; [by apply copied_app_r|]. split; [by apply l1_found_app|done].
  - destruct Hl as (now & v & Hf & Hv & _). eapply wp_mono; [apply wp_read_rest; intros s [= <-]; by exists now, v|].
    intros r ? (l1 & -> & Hr). by apply Hdone.
  - eapply wp_mono; [by apply wp_read_rest|]. intros r ? (l1 & -> & Hr). by apply Hdone.
Qed.

End reading.

Module ReadTheorems.
Section theorems.
Context {V : Type} (ci : Inner).

(** C2: Whatever the other tasks and the providers do, a read that answers a value
    serves it from one of four cases ([served]), under the options the lookup
    resolved to. A fresh hit was read from L1 while the continuity epoch stood
    still, or fetched from the provider under the key's physical name, decoded
    and reconciled with the markers; it was judged valid after that, physically
    live and within its logical lifetime. A stale hit needs the option that
    allows it and an entry that was not judged removed. What is handed out is a
    copy the options ask for. A read that answers none reports a miss. *)
Theorem read_serves_vetted_values raw full options :
  wp (world V) (read ci raw full options) [] (λ r h,
    match r with
    | Ok o => ∃ opts, chosen ci h raw options opts ∧ answers ci h full opts r
    | Err _ => True
    end).
Proof. apply wp_read. Qed.

(** Hydration never replaces newer data. It installs at most one entry, as its
    last access to L1, under the lane it holds and releases and by a
    compare-and-swap on what L1 held when the fence was taken, right after the
    fence was still current. The copy is strictly newer than that entry, or as
    new, valid and fresh; the snapshot was not judged removed; the copy is bound
    to the fence's epoch, keeps the creation time and tags, and is never fresh
    or live beyond the snapshot. *)
Theorem hydration_never_regresses key (source : DistributedLookup V) opts :
  wp (world V) (hydrate ci key source opts) [] (λ _ h, ∀ ev, ev ∈ h → installs (ev_call ev) = true →
    ∃ fence expected e now a l,
      hydration source = HF_Stable fence expected ∧
      ev = Ev (C_InsertIfUnchanged key expected e now) a ∧
      h = Ev (C_Unlane key) () :: ev :: l ++ [Ev (C_TryLane key) true] ∧
      hydrates ci l fence expected (lookup_entry source) e).
Proof.
  eapply wp_mono; [apply wp_hydrate|]. intros _ h (l & -> & Hl) ev Hev Hi.
  rewrite app_nil_r in *. destruct Hl as [Hq|(fence & expected & l' & Hs & _ & -> & [Hq|Hh])].
  - by destruct (quiet_absurd l ev).
  - exfalso. apply elem_of_cons in Hev as [->|Hev]; [done|].
    apply elem_of_app in Hev as [Hev| ->%list_elem_of_singleton]; [|done].
    by apply (quiet_absurd l' ev).
  - destruct Hh as (e & now & a & l1 & -> & Hq & Hh). exists fence, expected, e, now, a, l1.
    split; [done|]. assert (ev = Ev (C_InsertIfUnchanged key expected e now) a) as ->; [|done].
    apply elem_of_cons in Hev as [->|Hev]; [done|]. simpl in Hev.
    apply elem_of_cons in Hev as [->|Hev]; [done|].
    apply elem_of_app in Hev as [Hev| ->%list_elem_of_singleton]; [|done].
    by destruct (quiet_absurd l1 ev).
Qed.

(** A distributed read fails only as its policy says. An error it returns is one
    the options rethrow, and its breaker was told of it, or it is the error of
    the secondary marker check; so with both rethrow options off only
    configuration, copy, tag and cancellation errors leave it. What it finds
    was fetched, decoded and reconciled. *)
Theorem distributed_faults_degrade key opts fallback :
  wp (world V) (read_l2 ci key opts fallback) [] (λ r h,
    match r with
    | Ok None => True
    | Ok (Some found) =>
        l2_fetched ci h key (lookup_entry found) (observed_at found) ∧
        Ev (C_ReconcileControlled (lookup_entry found)) (Ok tt) ∈ h
    | Err e =>
        (∃ x, Ev (C_ReconcileControlled x) (Err e) ∈ h) ∨
        rethrow opts e = true ∧ accounted h e ∧
        (EntryOptions.rethrow_distributed_exceptions opts = false →
         EntryOptions.rethrow_serialization_exceptions opts = false →
         transport_of e = None ∧ ∀ d, e ≠ CE_DistributedTimeout d)
    end).
Proof.
  eapply wp_mono; [apply wp_read_l2|]. intros r h (l & -> & Hl). rewrite app_nil_r.
  destruct r as [[found|]|e]; [done..|]. destruct Hl as [[Hr Ha]|?]; [|by left].
  right. split; [done|]. split; [done|]. intros Hd Hs. unfold rethrow in Hr.
  destruct e; simpl in *; try congruence; by split.
Qed.
End theorems.
End ReadTheorems.
