(* ===== verification/Write.v ===== *)
(** * Value mutations

    Models [src/src/cache/write.rs], the receipts of [src/src/commit.rs], the
    commit's data from [src/src/cache.rs] and the inline mutations of
    [src/src/cache/memory_inline.rs]: preparing the payload, the ordered L1
    commit, the distributed stage with its recovery, and the publication. Each is
    a program over [Worker.Call]. A scheduled commit is the program the cache
    still owes: other tasks run between its accesses as between any others. *)
From Stdlib Require Init.Byte.
From S2P Require Import Prelude Time Calls Circuit Options Entry Tags Backplane Cancellation Factory.
From S2P Require Import Invalidation Storage Lanes Wire Lease Recovery Worker.
Open Scope prog_scope.

(** ** Receipts *)
Inductive EffectOutcome :=
| EF_Batch (stages : list EffectOutcome)
| EF_NotConfigured
| EF_Skipped (reason : SkipReason)
| EF_Applied
| EF_RecoveryQueued (cause : CacheError)
| EF_FailedSuppressed (cause : CacheError).

Definition effects (outcomes : list EffectOutcome) : EffectOutcome :=
  match outcomes with
  | [] => EF_NotConfigured
  | [first] => first
  | first :: second :: rest => EF_Batch (first :: second :: rest)
  end.

Inductive LocalEffect :=
| LE_Stored (admission : MemoryAdmission) | LE_Removed | LE_Expired | LE_Invalidated | LE_Skipped.

Record CommitReport := mkReport {
  local_effect : LocalEffect; distributed_effect : EffectOutcome; backplane_effect : EffectOutcome }.

Definition reports (l : list CommitReport) : CommitReport :=
  mkReport LE_Invalidated (effects (distributed_effect <$> l)) (effects (backplane_effect <$> l)).

Inductive CommitMode := Foreground | Background.
Inductive KeyMutation := KM_Remove | KM_Expire (policy : DistributedExpirePolicy).

Inductive PreparedData :=
| PD_Absent | PD_Skipped | PD_Ready (data : DataMutation) | PD_Failed (e : CacheError)
| PD_ColdExpire (cause : CacheError) (logical_expiration : Timestamp).

Definition recovery_action (action : BackplaneAction) : RecoveryAction :=
  match action with BA_Set => RA_Set | BA_Remove => RA_Remove | BA_Expire => RA_Expire end.

(** An origin's version, observed before it ran. *)
Inductive OriginVersion := OV_Memory (version : nat) | OV_Ordered (fence : Fences.Fence).
Record OriginCommit := mkOriginCommit { origin_guard : FlightGuard; started_at : OriginVersion }.

Section write.
Context {V : Type} (inner : Inner).
Local Abbreviation prog := (prog (answer (V := V))).
Local Abbreviation action A := (prog (result CacheError A)).
Local Abbreviation ask c := (call (ans := answer (V := V)) c).
Local Abbreviation Entry := (Entry V).

Inductive MutationReceipt :=
| Completed (report : CommitReport)
| Scheduled (completion : action CommitReport).
Definition wait (receipt : MutationReceipt) : action CommitReport :=
  match receipt with Completed report => ok report | Scheduled completion => completion end.

Inductive LocalCommit := LC_Applied (effect : LocalEffect) | LC_Store (e : Entry).

(** The lane's guard is held from the mutation on. *)
Record DataCommit := mkCommit {
  commit_key : string; commit_data_ : PreparedData; commit_command : option BackplaneCommand;
  commit_opts : EntryOptions; commit_fence : Fences.Fence; commit_flight : option FlightGuard;
  commit_local_ : LocalCommit }.

(** *** Guards *)
Definition drop_optional (flight : option FlightGuard) : prog unit :=
  match flight with Some flight => drop_flight flight | None => Ret tt end.
(** Locals drop in the reverse order of their declaration: here the lane's
    guard first, there the flight's. *)
Definition retire (key : string) (flight : option FlightGuard) : prog unit :=
  ask (C_Unlane key) ;;; drop_optional flight.
Definition retire_flight_first (key : string) (flight : option FlightGuard) : prog unit :=
  drop_optional flight ;;; ask (C_Unlane key).
(** [?] while the guards are held. *)
Definition or_release {A B} (release : prog unit) (work : action A) (k : A → action B) : action B :=
  let* r := work in
  match r with Ok a => k a | Err e => release ;;; raise e end.

(** *** Scheduling *)
Definition schedule_receipt (work : action CommitReport) : MutationReceipt := Scheduled work.

Definition commit_receipt (mode : CommitMode) (work : action CommitReport) : action MutationReceipt :=
  match mode with
  | Background => ok (schedule_receipt work)
  | Foreground => let? report := work in ok (Completed report)
  end.

Definition pipeline_receipt (mode : CommitMode) (work : action MutationReceipt) : action MutationReceipt :=
  match mode with
  | Background => ok (schedule_receipt (let? receipt := work in wait receipt))
  | Foreground => work
  end.

Definition distributed_mode (opts : EntryOptions) : CommitMode :=
  if EntryOptions.allow_background_distributed_operations opts && is_hybrid (storage inner)
  then Background else Foreground.

(** ** Stages *)
Definition data_command (action : BackplaneAction) (key : string) (timestamp : Timestamp)
    (opts : EntryOptions) : option BackplaneCommand :=
  if EntryOptions.skip_backplane_notifications opts || negb (has_backplane inner) then None
  else Some (BC_Data (mkMessage (instance_id inner) timestamp action (l2_key inner key))).

(** The provider's part of [write_data]. *)
Definition provider_write (key : string) (data : DataMutation) (ttl : option Duration)
    (proved : option LeaseProof) : action unit :=
  match proved with
  | Some proof =>
      let mutation := match data with
                      | DM_Set bytes _ | DM_Expire bytes _ => LM_Set bytes ttl
                      | DM_Remove => LM_Remove
                      end in
      let? outcome := ask (C_WriteWithLease (l2_key inner key) mutation proof) in
      match outcome with
      | Committed => ok tt
      | LeaseLost => raise (CE_Lease Lost)
      end
  | None =>
      match data with
      | DM_Set bytes _ | DM_Expire bytes _ => ask (C_BackendSet (l2_key inner key) bytes ttl)
      | DM_Remove => ask (C_BackendRemove (l2_key inner key))
      end
  end.

Definition write_data (key : string) (data : DataMutation) (flight : option FlightGuard)
    : action EffectOutcome :=
  if negb (is_hybrid (storage inner)) then ok EF_NotConfigured
  else
    let* now := ask C_Now in
    let ttl := remaining_ttl data now in
    if match ttl with Some ttl => is_zero ttl | None => false end then ok (EF_Skipped SK_PhysicallyExpired)
    else
      let? proved := flight_proof flight in
      let? _ := provider_write key data ttl proved in
      close_circuit CC_Distributed ;;;
      emit_layer (match data with
                  | DM_Set _ _ | DM_Expire _ _ => LE_DistributedSet key
                  | DM_Remove => LE_DistributedRemove key
                  end) ;;;
      ok EF_Applied.

(** A mutation without a lifetime of its own stays queued for ten minutes. *)
Definition recovery_expiry (data : PendingMutation) (at_ : Timestamp) : Timestamp :=
  match data with
  | PM_Commit (DM_Set _ physical | DM_Expire _ physical) _
  | PM_FencedCommit (DM_Set _ physical | DM_Expire _ physical) _ => physical
  | _ => saturating_add at_ (from_secs 600)
  end.

Definition is_queued (outcome : EnqueueOutcome) : bool :=
  match outcome with EO_Queued _ | EO_Replaced _ => true | _ => false end.

Definition enqueue_data (key : string) (data : PendingMutation) (act : RecoveryAction) (at_ : Timestamp)
    (fence : Fences.Fence) : action bool :=
  if has_recovery inner then
    let* outcome := ask (C_Enqueue (RW_Data (mkItem key act at_ (recovery_expiry data at_) None) data) fence) in
    Ret (map_err CE_Recovery (is_queued <$> outcome))
  else ok false.

Definition commit_local (key : string) (local : LocalCommit) (flight : option FlightGuard)
    : action LocalEffect :=
  match local with
  | LC_Applied outcome => ok outcome
  | LC_Store e =>
      let? _ := flight_proof flight in
      let* now := ask C_Now in
      let? admission := ask (C_InsertAt key e now) in
      ok (LE_Stored admission)
  end.

(** A marker's event names its category, which the model leaves out. *)
Definition publish (command : BackplaneCommand) : action unit :=
  if negb (has_backplane inner) then ok tt
  else
    let* closed := circuit CC_Backplane in
    if negb closed then raise (CE_CircuitOpen CC_Backplane)
    else
      let key := match command with BC_Data m => msg_key m | BC_Marker _ => "marker" end in
      let? _ := ask (C_Publish command) in
      close_circuit CC_Backplane ;;;
      emit_layer (LE_MessagePublished command) ;;;
      emit (EV_MessagePublished key) ;;;
      ok tt.

(** ** The commit *)

(** The early report of a failed distributed stage: the value is committed
    locally and no peer is told. *)
Definition degraded (work : DataCommit) (queued : bool) (cause : CacheError) : action CommitReport :=
  let? local := commit_local (commit_key work) (commit_local_ work) (commit_flight work) in
  ok (mkReport local
    (if queued then EF_RecoveryQueued cause else EF_FailedSuppressed cause) (EF_Skipped SK_Policy)).

Definition is_terminal_lease_error (e : CacheError) : bool :=
  match e with CE_Lease Lease.Backend => false | CE_Lease _ => true | _ => false end.

(** [inl] is an early return; [inr] goes on to publish. *)
Definition distributed_stage (work : DataCommit) (act : RecoveryAction) (at_ : Timestamp)
    : action (CommitReport + EffectOutcome) :=
  let key := commit_key work in
  match commit_data_ work with
  | PD_Absent => ok (inr EF_NotConfigured)
  | PD_Skipped => ok (inr (EF_Skipped SK_Policy))
  | PD_Failed e => let? report := degraded work false e in ok (inl report)
  | PD_ColdExpire cause logical =>
      let? queued := enqueue_data key (PM_ColdExpire logical (commit_command work)) RA_Expire at_
                       (commit_fence work) in
      if EntryOptions.rethrow_distributed_exceptions (commit_opts work) then raise cause
      else let? report := degraded work queued cause in ok (inl report)
  | PD_Ready data =>
      let strict := match commit_flight work with Some flight => is_fenced (flight_lease flight) | None => false end in
      let* result :=
        (let* closed := circuit CC_Distributed in
         if closed then write_data key data (commit_flight work)
         else raise (CE_CircuitOpen CC_Distributed)) in
      match result with
      | Ok outcome => ok (inr outcome)
      | Err e =>
          failure key e ;;;
          if is_terminal_lease_error e then raise e
          else
            let pending := if strict then PM_FencedCommit data (commit_command work)
                           else PM_Commit data (commit_command work) in
            let? queued := enqueue_data key pending act at_ (commit_fence work) in
            if EntryOptions.rethrow_distributed_exceptions (commit_opts work) then raise e
            else let? report := degraded work queued e in ok (inl report)
      end
  end.

Definition backplane_stage (work : DataCommit) (act : RecoveryAction) (at_ : Timestamp)
    : action EffectOutcome :=
  match commit_command work with
  | Some command =>
      let* published := publish command in
      match published with
      | Ok _ => ok EF_Applied
      | Err e =>
          failure (commit_key work) e ;;;
          let? queued := enqueue_data (commit_key work) (PM_Notify command) act at_ (commit_fence work) in
          if EntryOptions.rethrow_backplane_exceptions (commit_opts work) then raise e
          else ok (if queued then EF_RecoveryQueued e else EF_FailedSuppressed e)
      end
  | None => ok (if has_backplane inner then EF_Skipped SK_Policy else EF_NotConfigured)
  end.

Definition publication (work : DataCommit) (act : RecoveryAction) (at_ : Timestamp)
    (local : LocalEffect) (distributed : EffectOutcome) : action CommitReport :=
  or_release (retire (commit_key work) (commit_flight work)) (backplane_stage work act at_) (λ backplane,
  retire_flight_first (commit_key work) (commit_flight work) ;;;
  ok (mkReport local distributed backplane)).

Definition command_action (command : option BackplaneCommand) : RecoveryAction :=
  match command with
  | Some (BC_Data message) => recovery_action (msg_action message)
  | Some (BC_Marker _) | None => RA_Set
  end.

(** After the data stage: the local commit, then the peers. *)
Definition finish_commit (work : DataCommit) (act : RecoveryAction) (at_ : Timestamp)
    (distributed : EffectOutcome) : action MutationReceipt :=
  or_release (retire (commit_key work) (commit_flight work))
    (commit_local (commit_key work) (commit_local_ work) (commit_flight work)) (λ local,
  let* _ := if has_recovery inner
            then let* _ := ask (C_Supersede (commit_key work) (Fences.captured (commit_fence work))) in Ret tt
            else Ret tt in
  let mode := if EntryOptions.allow_background_backplane_operations (commit_opts work)
                 && match commit_command work with Some _ => true | None => false end
              then Background else Foreground in
  commit_receipt mode (publication work act at_ local distributed)).

Definition commit_data (work : DataCommit) : action MutationReceipt :=
  let release := retire (commit_key work) (commit_flight work) in
  let* now := ask C_Now in
  let* stamp := ask (C_LaneTimestamp (commit_fence work)) in
  let at_ := default now stamp in
  let act := command_action (commit_command work) in
  or_release release (distributed_stage work act at_) (λ staged,
  match staged with
  | inl report => release ;;; ok (Completed report)
  | inr distributed => finish_commit work act at_ distributed
  end).

(** ** Preparing a value *)

(** Cancellation is never suppressed; other codec errors follow the option. *)
Definition codec_failure (key : string) (opts : EntryOptions) (e : CacheError) : action PreparedData :=
  failure key e ;;;
  if match e with CE_OperationCancelled _ | CE_FactoryCancelled _ => true | _ => false end
     || EntryOptions.rethrow_serialization_exceptions opts
  then raise e else ok (PD_Failed e).

Definition prepare_set (key : string) (e : Entry) (opts : EntryOptions) : action PreparedData :=
  if negb (is_hybrid (storage inner)) then ok PD_Absent
  else if EntryOptions.skip_distributed_write opts then ok PD_Skipped
  else
    let? snapshot := from from_wire_error
      (DistributedSnapshot.from_entry_with_options e opts (inserted_at (Entry.meta e))) in
    let* encoded := encode snapshot in
    match encoded with
    | Ok bytes => ok (PD_Ready (DM_Set bytes (physical_expiration_ticks (entry snapshot))))
    | Err error => codec_failure key opts error
    end.

Definition is_current (version : OriginVersion) : prog bool :=
  match version with
  | OV_Memory version => ask (C_OriginCurrent version)
  | OV_Ordered fence => ask (C_PassiveCurrent fence)
  end.

(** The report of a product whose key changed while its origin ran. *)
Definition superseded_report : CommitReport :=
  mkReport (LE_Stored (MA_Rejected VersionChanged))
    (if is_hybrid (storage inner) then EF_Skipped SK_Superseded else EF_NotConfigured)
    (if has_backplane inner then EF_Skipped SK_Superseded else EF_NotConfigured).

(** What the memory store does with the value before the distributed stage: a
    fenced commit defers it until the backend has admitted the write. *)
Definition local_stage (key : string) (e : Entry) (opts : EntryOptions) (data : PreparedData)
    (flight : option FlightGuard) : action LocalCommit :=
  if EntryOptions.skip_memory_write opts then ok (LC_Applied LE_Skipped)
  else
    let? proved := flight_proof flight in
    if match proved, data with Some _, PD_Ready _ => true | _, _ => false end
    then ok (LC_Store e)
    else
      let* now := ask C_Now in
      let? admission := ask (C_InsertAt key e now) in
      ok (LC_Applied (LE_Stored admission)).

Definition inline_receipt (local : LocalEffect) : MutationReceipt :=
  Completed (mkReport local EF_NotConfigured EF_NotConfigured).

(** A pending origin's guard drops before the store's callbacks run. *)
Definition inline_entry (key : string) (e : Entry) (opts : EntryOptions) (origin : option OriginCommit)
    : action MutationReceipt :=
  let release := drop_optional (origin_guard <$> origin) in
  or_release release check (λ _,
  let* now := ask C_Now in
  or_release release check (λ _,
  if EntryOptions.skip_memory_write opts then
    let* current := match started_at <$> origin with
                    | None => ask (C_InvalidateOrigin key) ;;; Ret true
                    | Some (OV_Memory version) => ask (C_SkipOrigin key version)
                    | Some (OV_Ordered _) => Ret true
                    end in
    release ;;;
    ok (inline_receipt (if current then LE_Skipped else LE_Stored (MA_Rejected VersionChanged)))
  else
    let* admission := match started_at <$> origin with
                      | Some (OV_Memory version) => ask (C_ApplyOrigin key e now version)
                      | None | Some (OV_Ordered _) => ask (C_ApplyInsert key e now)
                      end in
    release ;;;
    ok (inline_receipt (LE_Stored admission)))).

Definition is_inline : bool := match write_plan inner with InlineMemory => true | GeneralWrite => false end.

Definition write_entry (key : string) (e : Entry) (opts : EntryOptions) (flight : option OriginCommit)
    : action MutationReceipt :=
  let guard := origin_guard <$> flight in
  if is_inline then inline_entry key e opts flight
  else
    or_release (drop_optional guard) (prepare_set key e opts) (λ data,
    ask (C_Lane key) ;;;
    or_release (retire key guard) (flight_proof guard) (λ _,
    let* current := match flight with Some origin => is_current (started_at origin) | None => Ret true end in
    if negb current then retire key guard ;;; ok (Completed superseded_report)
    else
      let late := retire_flight_first key guard in
      let* advanced := ask (C_Advance key (created (Entry.meta e))) in
      or_release late (from CE_Recovery advanced) (λ fence,
      or_release late (local_stage key e opts data guard) (λ local,
      let command := data_command BA_Set key (created (Entry.meta e)) opts in
      pipeline_receipt (distributed_mode opts)
        (commit_data (mkCommit key data command opts fence guard local)))))).

(** ** Products and assignments *)
(** [CacheValue] and its [CommitReceipt]: [None] when no commit was started. *)
Record CacheValue := mkCacheValue { cached_value : V; cached_commit : option MutationReceipt }.
Inductive OriginCompletion :=
| OC_Factory (v : CacheValue) | OC_Constant (v : CacheValue) | OC_Distributed (v : CacheValue).

Definition is_superseded (receipt : MutationReceipt) : bool :=
  match receipt with
  | Completed (mkReport (LE_Stored (MA_Rejected VersionChanged)) _ _) => true
  | _ => false
  end.

Definition store_product (key : string) (product : FactoryProduct V) (started : Timestamp)
    (guard : OriginCommit) : action OriginCompletion :=
  let prepared :=
    let? product := from CE_Tag (into_payload product) in
    let? _ := validate_options inner (payload_options product) in
    let? _ := proof (origin_guard guard) in
    let? value := copy inner (payload_value product) (payload_options product) in
    let? stored := copy inner (payload_value product) (payload_options product) in
    let? e := fresh_entry inner stored (payload_options product) started (payload_tags product)
                (payload_etag product) (payload_last_modified product) in
    ok (product, value, e) in
  or_release (drop_flight (origin_guard guard)) prepared (λ '(product, value, e),
  let? receipt := write_entry key e (payload_options product) (Some guard) in
  (if is_superseded receipt then Ret tt else emit (EV_Set key)) ;;;
  let value := mkCacheValue value (Some receipt) in
  ok (match payload_origin product with
      | PO_Modified | PO_NotModified => OC_Factory value
      | PO_Constant => OC_Constant value
      end)).

Definition set (raw : string) (value : V) (options : option EntryOptions) (tags : list Tag)
    : action (Observed MutationReceipt) :=
  let? opts := resolve_options inner raw options in
  let key := full_key inner raw in
  let* now := ask C_Now in
  let? copied := copy inner value opts in
  let? e := fresh_entry inner copied opts now tags None None in
  let? receipt := write_entry key e opts None in
  emit (EV_Set key) ;;;
  ok (mkObserved receipt OO_Stored None).

(** ** Key mutations *)
Definition inline_expire (key : string) (now : Timestamp) : prog LocalEffect :=
  let* previous := ask (C_ReadyForMutation key now) in
  match previous with
  | Some previous =>
      let* p := ask C_Alloc in
      let* _ := ask (C_ApplyExpire key (Entry.with_logical_expiration p previous now) now previous) in
      Ret LE_Expired
  | None => ask (C_InvalidateOrigin key) ;;; Ret LE_Expired
  end.

Definition inline_key_mutation (key : string) (opts : EntryOptions) (mutation : KeyMutation)
    (now : Timestamp) : prog LocalEffect :=
  if EntryOptions.skip_memory_write opts then ask (C_InvalidateOrigin key) ;;; Ret LE_Skipped
  else
    match mutation with
    | KM_Remove => let* _ := ask (C_DetachRemove key) in Ret LE_Removed
    | KM_Expire _ => inline_expire key now
    end.

Definition mutate_local (key : string) (opts : EntryOptions) (mutation : KeyMutation) (now : Timestamp)
    : action LocalEffect :=
  if EntryOptions.skip_memory_write opts then ok LE_Skipped
  else
    match mutation with
    | KM_Remove => let? _ := ask (C_Remove key) in ok LE_Removed
    | KM_Expire _ =>
        let? found := ask (C_GetAt key now) in
        match found with
        | Some e =>
            let* p := ask C_Alloc in
            let? _ := ask (C_ExpireIfUnchanged key e (Entry.with_logical_expiration p e now) now) in
            ok LE_Expired
        | None => ok LE_Expired
        end
    end.

(** The provider's snapshot, logically expired at [now]. *)
Definition expired_snapshot (snapshot : DistributedSnapshot V) (now : Timestamp)
    : result WireError (DistributedSnapshot V) :=
  let payload := entry snapshot in
  DistributedSnapshot.new
    (mkDistributedEntry (Wire.value payload) (created_ticks payload)
       (Z.min (logical_expiration_ticks payload) now) (physical_expiration_ticks payload)
       (from_fail_safe payload) (entry_etag payload) (last_modified_ticks payload) (entry_tags payload))
    (snapshot_inserted_at snapshot) (snapshot_retention snapshot).

Definition retain_stale (key : string) (opts : EntryOptions) (now : Timestamp) : action PreparedData :=
  let* found := ask (C_BackendGet (l2_key inner key)) in
  match found with
  | Ok (Some bytes) =>
      let* decoded := decode bytes in
      match decoded with
      | Ok snapshot =>
          let? expired := from from_wire_error (expired_snapshot snapshot now) in
          let* encoded := encode expired in
          match encoded with
          | Ok bytes => ok (PD_Ready (DM_Expire bytes (physical_expiration_ticks (entry expired))))
          | Err e => codec_failure key opts e
          end
      | Err e => codec_failure key opts e
      end
  | Ok None => ok (PD_Ready DM_Remove)
  | Err e => failure key e ;;; ok (PD_ColdExpire e now)
  end.

Definition prepare_mutation (key : string) (opts : EntryOptions) (mutation : KeyMutation) (now : Timestamp)
    : action PreparedData :=
  if EntryOptions.skip_distributed_write opts then ok PD_Skipped
  else if negb (is_hybrid (storage inner)) then ok PD_Absent
  else
    match mutation with
    | KM_Remove | KM_Expire DropStale => ok (PD_Ready DM_Remove)
    | KM_Expire RetainStale => retain_stale key opts now
    end.

Definition mutation_event (mutation : KeyMutation) (key : string) : CacheEvent :=
  match mutation with KM_Remove => EV_Remove key | KM_Expire _ => EV_Expire key end.
Definition mutation_outcome (mutation : KeyMutation) : OperationOutcome :=
  match mutation with KM_Remove => OO_Removed | KM_Expire _ => OO_Expired end.
Definition mutation_action (mutation : KeyMutation) : BackplaneAction :=
  match mutation with KM_Remove => BA_Remove | KM_Expire _ => BA_Expire end.

Definition key_mutation (raw : string) (options : option EntryOptions) (mutation : KeyMutation)
    : action (Observed MutationReceipt) :=
  let? opts := resolve_options inner raw options in
  let key := full_key inner raw in
  if is_inline then
    let? _ := check in
    let* now := ask C_Now in
    let* local := inline_key_mutation key opts mutation now in
    emit (mutation_event mutation key) ;;;
    ok (mkObserved (inline_receipt local) (mutation_outcome mutation) None)
  else
    ask (C_Lane key) ;;;
    let* now := ask C_Now in
    let release := ask (C_Unlane key) in
    let* advanced := ask (C_Advance key now) in
    or_release release (from CE_Recovery advanced) (λ fence,
    or_release release (mutate_local key opts mutation now) (λ local,
    or_release release (prepare_mutation key opts mutation now) (λ data,
    let command := data_command (mutation_action mutation) key now opts in
    let? receipt := pipeline_receipt (distributed_mode opts)
      (commit_data (mkCommit key data command opts fence None (LC_Applied local))) in
    emit (mutation_event mutation key) ;;;
    ok (mkObserved receipt (mutation_outcome mutation) None)))).
End write.
#[global] Arguments drop_optional : simpl never.
#[global] Arguments retire : simpl never.
#[global] Arguments retire_flight_first : simpl never.
#[global] Arguments or_release : simpl never.
#[global] Arguments pipeline_receipt : simpl never.
#[global] Arguments provider_write : simpl never.
#[global] Arguments write_data : simpl never.
#[global] Arguments enqueue_data : simpl never.
#[global] Arguments commit_local : simpl never.
#[global] Arguments publish : simpl never.
#[global] Arguments degraded : simpl never.
#[global] Arguments distributed_stage : simpl never.
#[global] Arguments backplane_stage : simpl never.
#[global] Arguments publication : simpl never.
#[global] Arguments finish_commit : simpl never.
#[global] Arguments commit_data : simpl never.
#[global] Arguments codec_failure : simpl never.
#[global] Arguments prepare_set : simpl never.
#[global] Arguments local_stage : simpl never.
#[global] Arguments inline_entry : simpl never.
#[global] Arguments write_entry : simpl never.
#[global] Arguments store_product : simpl never.
#[global] Arguments inline_key_mutation : simpl never.
#[global] Arguments mutate_local : simpl never.
#[global] Arguments retain_stale : simpl never.
#[global] Arguments prepare_mutation : simpl never.

(** ** Footprints of the stages *)
Section footprints.
Context {V : Type} (ci : Inner).

Lemma touches_provider_write key data ttl proved :
  touches (V := V) [K_ProviderWrite] (provider_write ci key data ttl proved).
Proof. unfold provider_write. footprint. Qed.
#[local] Hint Resolve touches_provider_write : footprint.
Lemma touches_write_data key data flight :
  touches (V := V) [K_Time; K_Lease; K_ProviderWrite; K_Circuit; K_Observer] (write_data ci key data flight).
Proof. unfold write_data. footprint. Qed.
Lemma touches_enqueue_data key data act at_ fence :
  touches (V := V) [K_Recovery] (enqueue_data ci key data act at_ fence).
Proof. unfold enqueue_data. footprint. Qed.
Lemma touches_commit_local key local flight :
  touches (V := V) [K_Time; K_Lease; K_MemoryWrite] (commit_local key local flight).
Proof. unfold commit_local. footprint. Qed.
Lemma touches_publish command :
  touches (V := V) [K_Time; K_Circuit; K_Publish; K_Observer] (publish ci command).
Proof. unfold publish. footprint. Qed.
#[local] Hint Resolve touches_write_data touches_enqueue_data touches_commit_local touches_publish : footprint.
Lemma touches_degraded work queued cause :
  touches (V := V) [K_Time; K_Lease; K_MemoryWrite] (degraded work queued cause).
Proof. unfold degraded. footprint. Qed.
#[local] Hint Resolve touches_degraded : footprint.
Lemma touches_distributed_stage work act at_ :
  touches (V := V) [K_Time; K_Lease; K_MemoryWrite; K_ProviderWrite; K_Circuit; K_Observer; K_Recovery]
    (distributed_stage ci work act at_).
Proof. unfold distributed_stage. footprint. Qed.
Lemma touches_backplane_stage work act at_ :
  touches (V := V) [K_Time; K_Circuit; K_Publish; K_Observer; K_Recovery] (backplane_stage ci work act at_).
Proof. unfold backplane_stage. footprint. Qed.
Lemma touches_codec_failure key opts e :
  touches (V := V) [K_Time; K_Circuit; K_Observer] (codec_failure key opts e).
Proof. unfold codec_failure. footprint. Qed.
#[local] Hint Resolve touches_codec_failure : footprint.
Lemma touches_prepare_set key e opts :
  touches (V := V) [K_Time; K_Codec; K_Circuit; K_Observer] (prepare_set ci key e opts).
Proof. unfold prepare_set. footprint. Qed.
Lemma touches_local_stage key e opts data flight :
  touches (V := V) [K_Time; K_Lease; K_MemoryWrite] (local_stage key e opts data flight).
Proof. unfold local_stage. footprint. Qed.
Lemma touches_mutate_local key opts mutation now :
  touches (V := V) [K_Time; K_MemoryRead; K_MemoryWrite] (mutate_local key opts mutation now).
Proof. unfold mutate_local. footprint. Qed.
Lemma touches_retain_stale key opts now :
  touches (V := V) [K_Time; K_ProviderRead; K_Codec; K_Circuit; K_Observer] (retain_stale ci key opts now).
Proof. unfold retain_stale. footprint. Qed.
#[local] Hint Resolve touches_retain_stale : footprint.
Lemma touches_prepare_mutation key opts mutation now :
  touches (V := V) [K_Time; K_ProviderRead; K_Codec; K_Circuit; K_Observer]
    (prepare_mutation ci key opts mutation now).
Proof. unfold prepare_mutation. footprint. Qed.
End footprints.
#[export] Hint Resolve touches_provider_write touches_write_data touches_enqueue_data touches_commit_local touches_publish
  touches_degraded touches_distributed_stage touches_backplane_stage touches_codec_failure
  touches_prepare_set touches_local_stage touches_mutate_local touches_retain_stale
  touches_prepare_mutation : footprint.
