(* ===== verification/Commit.v ===== *)
(** * What a commit did, as its record tells it

    The theory of [Write.v]: what each stage of a mutation answers against what
    its accesses show, the order of the stages, and the theorems about receipts,
    publication, lost leases and guards. *)
From Stdlib Require Init.Byte.
From S2P Require Import Prelude Time Calls Circuit Options Entry Tags Backplane Cancellation.
From S2P Require Import Invalidation Storage Lanes Wire Lease Recovery Worker Write.
Open Scope prog_scope.
(** ** The record of the providers *)
Section stages.
Context {V : Type} (ci : Inner).
Implicit Types (h l : history V) (e : CacheError).

(** The provider acknowledged the mutation. *)
Definition applied l (key : string) (data : DataMutation) : Prop :=
  ∃ ttl, match data with
  | DM_Set bytes _ | DM_Expire bytes _ =>
      Ev (C_BackendSet (l2_key ci key) bytes ttl) (Ok tt) ∈ l
      ∨ ∃ proved, Ev (C_WriteWithLease (l2_key ci key) (LM_Set bytes ttl) proved) (Ok Committed) ∈ l
  | DM_Remove =>
      Ev (C_BackendRemove (l2_key ci key)) (Ok tt) ∈ l
      ∨ ∃ proved, Ev (C_WriteWithLease (l2_key ci key) LM_Remove proved) (Ok Committed) ∈ l
  end.
(** The breaker answered that it is open. *)
Definition broken l (c : CircuitComponent) : Prop := ∃ now until, Ev (C_CircuitCheck c now) (Open until) ∈ l.
(** The write failed for [cause]: its breaker was open, the lease could not be
    proved, or the provider answered so. *)
Definition write_failed l (key : string) (data : DataMutation) (cause : CacheError) : Prop :=
  cause = CE_CircuitOpen CC_Distributed ∧ broken l CC_Distributed ∨
  (∃ lease le, cause = CE_Lease le ∧ Ev (C_LeaseProof lease) (Err le) ∈ l) ∨
  ∃ ttl, match data with
  | DM_Set bytes _ | DM_Expire bytes _ =>
      Ev (C_BackendSet (l2_key ci key) bytes ttl) (Err cause) ∈ l
      ∨ ∃ proved, Ev (C_WriteWithLease (l2_key ci key) (LM_Set bytes ttl) proved) (Err cause) ∈ l
  | DM_Remove =>
      Ev (C_BackendRemove (l2_key ci key)) (Err cause) ∈ l
      ∨ ∃ proved, Ev (C_WriteWithLease (l2_key ci key) LM_Remove proved) (Err cause) ∈ l
  end.
(** The message was not sent for [cause]. *)
Definition unpublished l (command : BackplaneCommand) (cause : CacheError) : Prop :=
  cause = CE_CircuitOpen CC_Backplane ∧ broken l CC_Backplane ∨ Ev (C_Publish command) (Err cause) ∈ l.
(** Its lifetime was over when its turn came. *)
Definition outlived l (data : DataMutation) : Prop :=
  ∃ now ttl, Ev C_Now now ∈ l ∧ remaining_ttl data now = Some ttl ∧ is_zero ttl = true.
(** The recovery journal accepted work for the key. *)
Definition queued_in l (key : string) : Prop :=
  ∃ item data fence outcome, item_key item = key ∧ is_queued outcome = true ∧
    Ev (C_Enqueue (RW_Data item data) fence) (Ok outcome) ∈ l.
(** The memory store admitted the entry, or refused it. *)
Definition inserted l (key : string) (e : Entry V) (admission : MemoryAdmission) : Prop :=
  ∃ now, Ev (C_InsertAt key e now) (Ok admission) ∈ l.
(** A fenced write found its lease lost. *)
Definition is_lost (ev : event (answer (V := V))) : bool :=
  match ev_call ev as c return answer c → bool with
  | C_WriteWithLease _ _ _ => λ x, match x with Ok LeaseLost => true | _ => false end
  | _ => λ _, false
  end (ev_answer ev).
Definition lost l : Prop := existsb is_lost l = true.
(** No access to the memory store, the backplane or the recovery journal. *)
Definition invisible l : Prop :=
  Forall (λ ev, kind (ev_call ev) ∉ [K_MemoryWrite; K_Publish; K_Recovery]) l.

Lemma applied_incl l l' key data : l ⊆ l' → applied l key data → applied l' key data.
Proof. intros Hl (ttl & H). exists ttl. destruct data; naive_solver. Qed.
Lemma write_failed_incl l l' key data cause : l ⊆ l' → write_failed l key data cause → write_failed l' key data cause.
Proof. unfold write_failed, broken. intros Hl [H|[H|(ttl & H)]]; [left; naive_solver|right; left; naive_solver|]. right; right. exists ttl. destruct data; naive_solver. Qed.
Lemma unpublished_incl l l' command cause : l ⊆ l' → unpublished l command cause → unpublished l' command cause.
Proof. unfold unpublished, broken. naive_solver. Qed.
Lemma outlived_incl l l' data : l ⊆ l' → outlived l data → outlived l' data.
Proof. unfold outlived. naive_solver. Qed.
Lemma queued_incl l l' key : l ⊆ l' → queued_in l key → queued_in l' key.
Proof. unfold queued_in. naive_solver. Qed.
Lemma inserted_incl l l' key (e : Entry V) a : l ⊆ l' → inserted l key e a → inserted l' key e a.
Proof. unfold inserted. naive_solver. Qed.

Lemma lost_app l l' : lost (l ++ l') ↔ lost l ∨ lost l'.
Proof. unfold lost. by rewrite existsb_app, orb_true_iff. Qed.
Lemma not_lost (ks : list Kind) l :
  Forall (λ ev, kind (ev_call ev) ∈ ks) l → K_ProviderWrite ∉ ks → ¬ lost l.
Proof.
  intros Hl Hks ([[] x] & Hin & Hx)%existsb_exists; try done. apply list_elem_of_In in Hin.
  by eapply (untouched ks).
Qed.
Lemma invisible_app l l' : invisible (l ++ l') ↔ invisible l ∧ invisible l'.
Proof. apply Forall_app. Qed.
Lemma touches_invisible (ks : list Kind) l :
  Forall (λ ev, kind (ev_call ev) ∈ ks) l → K_MemoryWrite ∉ ks → K_Publish ∉ ks → K_Recovery ∉ ks →
  invisible l.
Proof.
  intros Hl ???. eapply Forall_impl; [exact Hl|]. cbn. intros ev Hev Hin.
  repeat (apply elem_of_cons in Hin as [Hin|Hin]; [by rewrite Hin in Hev|]). by apply elem_of_nil in Hin.
Qed.

End stages.

(** A record of other kinds has no lost lease. *)
Ltac no_kind := by apply (bool_decide_unpack _); vm_compute.
Ltac unlost Hl Hx := exfalso; revert Hx; eapply not_lost; [exact Hl|no_kind].
Ltac traced_run := intros ?h; unfold attempt, from; repeat wp_step; grown.

Section answers.
Context {V : Type} (ci : Inner).
Implicit Types (h l : history V) (e : CacheError).

Lemma traced_flight_proof flight :
  traced (V := V) (flight_proof flight) (λ r l, match r with
    | Ok (Some _) => ∃ f lease, flight = Some f ∧ flight_lease f = CP_Fenced lease
    | Ok None => ∀ f, flight = Some f → is_fenced (flight_lease f) = false
    | Err e => e = CE_Lease Lost ∨ ∃ lease le, e = CE_Lease le ∧ Ev (C_LeaseProof lease) (Err le) ∈ l end).
Proof.
  destruct flight as [[local [|lease|lease]]|]; unfold flight_proof, proof; cbn [flight_lease].
  all: traced_run; try done; try (by intros f [= <-]).
  - by left.
  - destruct x as [|le]; cbn; [eauto|]. right. exists lease, le. split; [done|left].
Qed.

(** Steps of a trace: skip the record of an access that cannot matter. *)
Lemma traced_step {A B} ks (p : prog (answer (V := V)) A) (f : A → prog (answer (V := V)) B) R :
  touches ks p →
  (∀ a l, Forall (λ ev, kind (ev_call ev) ∈ ks) l → traced (f a) (λ b l', R b (l' ++ l))) →
  traced (bind p f) R.
Proof. intros Hp Hf. eapply traced_bind; [by apply traced_touches|]. auto. Qed.

Lemma traced_circuit c : traced (V := V) (circuit c) (λ closed l, closed = false → broken l c).
Proof.
  intros h. unfold circuit, broken. repeat wp_step; try solve [by grown|wp_pass; by grown].
  grown. intros _. do 2 eexists. recorded.
Qed.

Lemma traced_provider_write key data ttl proved :
  traced (provider_write ci key data ttl proved) (λ r l,
    match r with Ok _ => applied ci l key data | Err e => e = CE_Lease Lost ∨ write_failed ci l key data e end ∧
    (lost l → r = Err (CE_Lease Lost) ∧ is_Some proved)).
Proof.
  unfold provider_write, lost, applied, write_failed. destruct proved as [pr|].
  - intros h. unfold attempt. repeat wp_step; grown; (split; [|cbn]).
    all: try (exists ttl; destruct data; right; exists pr; recorded).
    all: try (right; right; right; exists ttl; destruct data; right; exists pr; recorded).
    all: subst; first [done|by left|eauto].
  - destruct data; intros h x ? ->; cbn; (exists [Ev _ x]; split; [done|]); (split; [|done]).
    all: destruct x as [[]|]; [exists ttl; left; recorded|right; right; right; exists ttl; left; recorded].
Qed.

(** [write_data] answers as the provider did. *)
Lemma traced_write_data key data flight :
  traced (write_data ci key data flight) (λ r l,
    match r with
    | Ok EF_NotConfigured => is_hybrid (storage ci) = false
    | Ok (EF_Skipped SK_PhysicallyExpired) => outlived l data
    | Ok EF_Applied => applied ci l key data
    | Ok _ => False
    | Err e => e = CE_Lease Lost ∨ write_failed ci l key data e
    end ∧ (lost l → r = Err (CE_Lease Lost) ∧ ∃ f lease, flight = Some f ∧ flight_lease f = CP_Fenced lease)).
Proof.
  unfold write_data. destruct (is_hybrid (storage ci)) eqn:Hh; cbn [negb].
  2: { apply traced_ret. by split. }
  eapply traced_bind; [by apply traced_call|]. intros now ? ->. cbn zeta.
  destruct (match remaining_ttl data now with Some ttl => is_zero ttl | None => false end) eqn:Ht.
  { apply traced_ret. split; [|done]. destruct (remaining_ttl data now) as [ttl|] eqn:?; [|done].
    exists now, ttl. split; [recorded|done]. }
  eapply traced_attempt; [apply traced_and; [apply traced_flight_proof|apply traced_touches, touches_flight_proof]|..].
  { intros e l [He Hl]. split.
    - destruct He as [?|(lease & le & ? & ?)]; [by left|right; right; left]. exists lease, le. split; [done|set_solver].
    - rewrite !lost_app. intros [Hx|Hx]; [unlost Hl Hx|done]. }
  intros proved l [Hp Hl]. eapply traced_attempt; [apply traced_provider_write|..].
  { intros e l' [Hf He]. split; [destruct Hf as [?|Hf]; [by left|right; eapply write_failed_incl; [|exact Hf]; set_solver]|]. rewrite !lost_app. intros [[Hx|Hx]|Hx]; [|unlost Hl Hx|done].
    destruct (He Hx) as [[= ->] [pr ->]]. eauto. }
  intros [] l' [Ha Hn].
  eapply traced_mono.
  { apply (traced_and _ (λ r _, r = Ok EF_Applied)); [|apply (traced_touches [K_Circuit; K_Observer]); footprint].
    intros h. wp_pass. wp_pass. by grown. }
  intros r l'' [-> Hl'']. split.
  - eapply applied_incl; [|exact Ha]. set_solver.
  - rewrite !lost_app. intros [[[Hx|Hx]|Hx]|Hx]; [unlost Hl'' Hx| |unlost Hl Hx|done].
    by destruct (Hn Hx).
Qed.

(** *** The commit's stages *)
Lemma traced_enqueue_data key data act at_ fence :
  traced (enqueue_data ci key data act at_ fence) (λ r l, r = Ok true → queued_in l key).
Proof.
  unfold enqueue_data, queued_in. traced_run; [|done].
  destruct x as [o|]; cbn; [|done]. intros [= Ho]. eexists _, _, _, _. split_and!; [..|recorded]; done.
Qed.

Definition local_truth (work : DataCommit (V := V)) (effect : LocalEffect) l : Prop :=
  match commit_local_ work with
  | LC_Applied effect' => effect = effect'
  | LC_Store e => ∃ a, effect = LE_Stored a ∧ inserted l (commit_key work) e a
  end.
(** The data stage failed for [cause]. *)
Definition unwritten (work : DataCommit (V := V)) (cause : CacheError) l : Prop :=
  (∃ logical, commit_data_ work = PD_ColdExpire cause logical) ∨
  ∃ data, commit_data_ work = PD_Ready data ∧ write_failed ci l (commit_key work) data cause.
Definition data_truth (work : DataCommit (V := V)) (outcome : EffectOutcome) l : Prop :=
  match outcome with
  | EF_NotConfigured => commit_data_ work = PD_Absent ∨ is_hybrid (storage ci) = false
  | EF_Skipped SK_Policy => commit_data_ work = PD_Skipped
  | EF_Skipped SK_PhysicallyExpired => ∃ data, commit_data_ work = PD_Ready data ∧ outlived l data
  | EF_Applied => ∃ data, commit_data_ work = PD_Ready data ∧ applied ci l (commit_key work) data
  | EF_RecoveryQueued cause =>
      EntryOptions.rethrow_distributed_exceptions (commit_opts work) = false ∧ unwritten work cause l ∧
      queued_in l (commit_key work)
  | EF_FailedSuppressed cause =>
      commit_data_ work = PD_Failed cause
      ∨ EntryOptions.rethrow_distributed_exceptions (commit_opts work) = false ∧ unwritten work cause l
  | EF_Skipped SK_Superseded | EF_Batch _ => False
  end.
Definition is_degraded (outcome : EffectOutcome) : bool :=
  match outcome with EF_RecoveryQueued _ | EF_FailedSuppressed _ => true | _ => false end.
Definition peer_truth (work : DataCommit (V := V)) (outcome : EffectOutcome) l : Prop :=
  match outcome with
  | EF_NotConfigured => commit_command work = None ∧ has_backplane ci = false
  | EF_Skipped SK_Policy => commit_command work = None ∧ has_backplane ci = true
  | EF_Applied => ∃ command, commit_command work = Some command ∧
      (has_backplane ci = true → Ev (C_Publish command) (Ok tt) ∈ l)
  | EF_RecoveryQueued cause => ∃ command, commit_command work = Some command ∧ unpublished l command cause ∧
      EntryOptions.rethrow_backplane_exceptions (commit_opts work) = false ∧ queued_in l (commit_key work)
  | EF_FailedSuppressed cause => ∃ command, commit_command work = Some command ∧ unpublished l command cause ∧
      EntryOptions.rethrow_backplane_exceptions (commit_opts work) = false
  | EF_Skipped _ | EF_Batch _ => False
  end.
(** What a report says of a commit, and what its record shows. *)
Definition truthful (work : DataCommit (V := V)) (report : CommitReport) l : Prop :=
  local_truth work (local_effect report) l ∧ data_truth work (distributed_effect report) l ∧
  if is_degraded (distributed_effect report) then backplane_effect report = EF_Skipped SK_Policy
  else peer_truth work (backplane_effect report) l.

Lemma local_truth_incl work effect l l' : l ⊆ l' → local_truth work effect l → local_truth work effect l'.
Proof.
  unfold local_truth. intros Hl. destruct (commit_local_ work); [done|]. intros (a & ? & ?).
  exists a. split; [done|]. by eapply inserted_incl.
Qed.
Lemma unwritten_incl work cause l l' : l ⊆ l' → unwritten work cause l → unwritten work cause l'.
Proof. intros Hl [?|(d & ? & ?)]; [by left|right]. exists d. eauto using write_failed_incl. Qed.
Lemma data_truth_incl work outcome l l' : l ⊆ l' → data_truth work outcome l → data_truth work outcome l'.
Proof.
  intros Hl. destruct outcome as [| |[]| | |]; cbn; try done.
  - intros (d & ? & ?). exists d. split; [done|]. by eapply outlived_incl.
  - intros (d & ? & ?). exists d. split; [done|]. by eapply applied_incl.
  - intros (? & ? & ?). split_and!; [done|by eapply unwritten_incl|by eapply queued_incl].
  - intros [?|[? ?]]; [by left|right]. split; [done|by eapply unwritten_incl].
Qed.

Lemma peer_truth_incl work outcome l l' : l ⊆ l' → peer_truth work outcome l → peer_truth work outcome l'.
Proof.
  intros Hl. destruct outcome as [| |[]| | |]; cbn; try done.
  - intros (c & ? & Hc). exists c. split; [done|]. intros Hb. by apply Hl, Hc.
  - intros (c & ? & ? & ? & ?). exists c. split_and!; [done|by eapply unpublished_incl|done|by eapply queued_incl].
  - intros (c & ? & ? & ?). exists c. split_and!; [done|by eapply unpublished_incl|done].
Qed.

Lemma traced_commit_local key local flight :
  traced (commit_local key local flight) (λ r l, ∀ effect, r = Ok effect →
    match local with
    | LC_Applied effect' => effect = effect'
    | LC_Store e => ∃ a, effect = LE_Stored a ∧ inserted l key e a
    end).
Proof.
  unfold commit_local. destruct local as [effect'|e]; [by apply traced_ret; intros ? [= ->]|].
  eapply traced_attempt; [apply traced_flight_proof|done|]. intros proved l _. clear proved.
  unfold inserted. traced_run; intros effect [= <-]. eexists. split; [done|]. eexists. recorded.
Qed.

Lemma traced_degraded work queued cause :
  traced (degraded work queued cause) (λ r l, ∀ report, r = Ok report →
    local_truth work (local_effect report) l ∧
    distributed_effect report = (if queued then EF_RecoveryQueued cause else EF_FailedSuppressed cause) ∧
    backplane_effect report = EF_Skipped SK_Policy).
Proof.
  unfold degraded. eapply traced_attempt; [apply traced_commit_local|done|].
  intros effect l He. apply traced_ret. intros ? [= <-]. split; [|done]. cbn. by apply He.
Qed.
End answers.

(** *** The commit, stage by stage *)
Section commit.
Context {V : Type} (ci : Inner).
Implicit Types (l : history V) (work : DataCommit (V := V)).

Definition fenced (flight : option FlightGuard) : Prop :=
  ∃ f lease, flight = Some f ∧ flight_lease f = CP_Fenced lease.
(** A lost lease is the outcome, and nothing else was touched. *)
Definition lost_is_final {A} (cause : Prop) (r : result CacheError A) l : Prop :=
  lost l → r = Err (CE_Lease Lost) ∧ invisible l ∧ cause.
(** Only prepared data is written under a fence. *)
Definition fenced_write work : Prop :=
  fenced (commit_flight work) ∧ ∃ data, commit_data_ work = PD_Ready data.

Definition staged work (r : result CacheError (CommitReport + EffectOutcome)) l : Prop :=
  match r with
  | Ok (inl report) => truthful ci work report l ∧ is_degraded (distributed_effect report) = true
  | Ok (inr outcome) => data_truth ci work outcome l ∧ is_degraded outcome = false
  | Err _ => True
  end.

Lemma truthful_incl work report l l' : l ⊆ l' → truthful ci work report l → truthful ci work report l'.
Proof.
  intros Hl (? & ? & Hp). split_and!; [by eapply local_truth_incl|by eapply data_truth_incl|].
  case_match; [done|]. by eapply peer_truth_incl.
Qed.
Lemma staged_app work r l l' : staged work r l → staged work r (l ++ l').
Proof.
  assert (l ⊆ l ++ l') by set_solver. destruct r as [[report|outcome]|]; cbn; [..|done]; intros [? ?].
  - split; [|done]. by eapply truthful_incl.
  - split; [|done]. by eapply data_truth_incl.
Qed.

(** The rest of a failed stage: it queues, then commits locally. *)
Lemma traced_fallback work pending act at_ e l0 :
  unwritten ci work e l0 →
  traced (let? queued := enqueue_data ci (commit_key work) pending act at_ (commit_fence work) in
          if EntryOptions.rethrow_distributed_exceptions (commit_opts work) then raise e
          else let? report := degraded work queued e in ok (inl report)) (λ r l, staged work r (l ++ l0)).
Proof.
  intros Hd. assert (∀ l, unwritten ci work e (l ++ l0)) as Hu by (intros l; eapply unwritten_incl; [|exact Hd]; set_solver).
  eapply traced_attempt; [apply traced_enqueue_data|done|]. intros queued l Hq.
  destruct (EntryOptions.rethrow_distributed_exceptions (commit_opts work)) eqn:Hr; [by apply traced_ret|].
  eapply traced_attempt; [apply traced_degraded|done|]. intros report l' Hrep. apply traced_ret.
  destruct (Hrep report eq_refl) as (Hlocal & Hdist & Hpeer). unfold staged, truthful. cbn.
  rewrite Hdist. split; [|by destruct queued]. split_and!.
  - eapply local_truth_incl; [|exact Hlocal]. set_solver.
  - destruct queued; cbn; [|by right]. split_and!; [done..|]. eapply queued_incl; [|by apply Hq]. set_solver.
  - by destruct queued.
Qed.

Lemma touches_fallback work pending act at_ e :
  touches (V := V) [K_Time; K_Lease; K_MemoryWrite; K_Recovery]
    (let? queued := enqueue_data ci (commit_key work) pending act at_ (commit_fence work) in
     if EntryOptions.rethrow_distributed_exceptions (commit_opts work) then raise e
     else let? report := degraded work queued e in ok (inl report : CommitReport + EffectOutcome)).
Proof. footprint. Qed.

(** The write, behind its breaker. *)
Lemma traced_guarded_write work data :
  commit_data_ work = PD_Ready data →
  traced (let* closed := circuit CC_Distributed in
          if closed then write_data ci (commit_key work) data (commit_flight work)
          else raise (CE_CircuitOpen CC_Distributed)) (λ r l,
    match r with
    | Ok outcome => data_truth ci work outcome l ∧ is_degraded outcome = false
    | Err e => e = CE_Lease Lost ∨ write_failed ci l (commit_key work) data e
    end ∧
    lost_is_final (fenced_write work) r l).
Proof.
  intros Hd. eapply traced_bind; [apply traced_and; [apply traced_circuit|apply traced_touches, touches_circuit]|]. intros closed l [Hopen Hl].
  destruct closed.
  - eapply traced_mono; [apply traced_and; [apply traced_write_data|apply traced_touches, touches_write_data]|].
    intros r l' [[Hr Hlost] Hl']. split.
    + destruct r as [[| |[]| | |]|e]; try done; cbn.
      4: { destruct Hr as [?|Hr]; [by left|right; eapply write_failed_incl; [|exact Hr]; set_solver]. }
      all: split; [|done].
      * by right.
      * exists data. split; [done|]. eapply outlived_incl; [|exact Hr]. set_solver.
      * exists data. split; [done|]. eapply applied_incl; [|exact Hr]. set_solver.
    + intros [Hx|Hx]%lost_app; [|unlost Hl Hx]. destruct (Hlost Hx) as [-> Hf]. split_and!; [done| |by split; [exact Hf|exists data]].
      apply invisible_app. split; (eapply touches_invisible; [eassumption|no_kind..]).
  - apply traced_ret. split; [right; left; split; [done|by apply Hopen]|]. intros Hx. unlost Hl Hx.
Qed.

Lemma traced_distributed_stage work act at_ :
  traced (distributed_stage ci work act at_) (λ r l, staged work r l ∧ lost_is_final (fenced_write work) r l).
Proof.
  unfold distributed_stage. destruct (commit_data_ work) as [| |data|e|cause logical] eqn:Hd.
  - apply traced_ret. split; [by split; [left|]|done].
  - apply traced_ret. split; [by split|done].
  - eapply traced_bind; [by apply traced_guarded_write|]. intros [outcome|e] l [Hr Hlost].
    { apply traced_ret. split; [done|]. intros Hx. by destruct (Hlost Hx). }
    eapply traced_bind; [apply traced_touches, touches_failure|]. intros [] l' Hl'.
    destruct (is_terminal_lease_error e) eqn:Ht.
    { apply traced_ret. split; [done|]. cbn. intros [Hx|Hx]%lost_app; [unlost Hl' Hx|].
      destruct (Hlost Hx) as (He & Hi & Hf). split_and!; [congruence| |done]. apply invisible_app.
      split; [|done]. eapply touches_invisible; [exact Hl'|no_kind..]. }
    eapply traced_mono; [apply traced_and; [apply (traced_fallback _ _ _ _ _ (l' ++ l))|apply traced_touches, touches_fallback]|].
    { right. exists data. split; [done|]. destruct Hr as [->|Hr]; [done|]. eapply write_failed_incl; [|exact Hr]. set_solver. }
    intros r l'' [Hs Hl'']. split; [by rewrite <- app_assoc|].
    intros [[Hx|Hx]%lost_app|Hx]%lost_app; [unlost Hl'' Hx|unlost Hl' Hx|].
    destruct (Hlost Hx) as ([= ->] & _). done.
  - eapply traced_attempt; [apply traced_and; [apply traced_degraded|apply traced_touches, touches_degraded]|..].
    + intros e' l [_ Hl]. split; [done|]. intros Hx. unlost Hl Hx.
    + intros report l [Hr Hl]. destruct (Hr report eq_refl) as (Hlocal & Hdist & Hpeer). apply traced_ret. split.
      * cbn. rewrite Hdist. split; [|done]. unfold truthful. rewrite Hdist. split_and!; [done| |done]. by left.
      * intros Hx. unlost Hl Hx.
  - eapply traced_mono; [apply traced_and; [apply (traced_fallback _ _ _ _ _ [])|apply traced_touches, touches_fallback]|].
    { left. by exists logical. }
    intros r l [Hs Hl]. rewrite app_nil_r in Hs. split; [done|]. intros Hx. unlost Hl Hx.
Qed.

(** *** Publication *)
Definition is_publish (c : Call V) : bool := match c with C_Publish _ => true | _ => false end.
(** [P] held of what preceded each message to the peers. *)
Definition announced (P : history V → Prop) l : Prop :=
  ∀ l1 ev l2, l = l1 ++ ev :: l2 → is_publish (ev_call ev) = true → P l2.

Lemma announced_none P (ks : list Kind) l : Forall (λ ev, kind (ev_call ev) ∈ ks) l → K_Publish ∉ ks → announced P l.
Proof.
  intros Hl Hks l1 [c x] l2 -> Hc. exfalso.
  apply (untouched ks _ (Ev c x) Hl); [set_solver|by destruct c].
Qed.
Lemma announced_app (P : history V → Prop) l' l0 :
  (∀ l1 l2, l1 ⊆ l2 → P l1 → P l2) → P l0 → announced P l0 → announced P (l' ++ l0).
Proof.
  intros Hmono H0 Hl0 l1 ev l2 Heq Hev.
  apply app_eq_inv in Heq as [(k & -> & Hk)|(k & -> & ->)]; [|by apply (Hl0 k ev)].
  destruct k as [|x k]; cbn in *; simplify_eq; [by apply (Hl0 [] ev)|].
  eapply Hmono; [|exact H0]. set_solver.
Qed.
Lemma announced_more (P : history V → Prop) l' l0 :
  Forall (λ ev, is_publish (ev_call ev) = false) l' → announced P l0 → announced P (l' ++ l0).
Proof.
  intros Hl' Hl0 l1 ev l2 Heq Hev.
  apply app_eq_inv in Heq as [(k & -> & Hk)|(k & -> & ->)]; [|by apply (Hl0 k ev)].
  destruct k as [|x k]; cbn in *; simplify_eq; [by apply (Hl0 [] ev)|].
  apply Forall_app in Hl' as [_ [Hev' _]%Forall_cons]. congruence.
Qed.

Lemma unannounced (ks : list Kind) l :
  Forall (λ ev, kind (ev_call ev) ∈ ks) l → K_Publish ∉ ks → Forall (λ ev, is_publish (ev_call ev) = false) l.
Proof. intros Hl Hks. eapply Forall_impl; [exact Hl|]. intros [c x]. by destruct c. Qed.

(** The value is where the report will say it is. *)
Definition committed work l : Prop :=
  (∃ effect, local_truth work effect l) ∧ ∃ outcome, data_truth ci work outcome l ∧ is_degraded outcome = false.
Lemma commit_committed_incl work l l' : l ⊆ l' → committed work l → committed work l'.
Proof.
  intros Hl [[? ?] (? & ? & ?)]. split; eexists; [by eapply local_truth_incl|].
  split; [by eapply data_truth_incl|done].
Qed.

Lemma traced_publish command :
  traced (publish ci command) (λ r l, match r with
    | Ok _ => has_backplane ci = true → Ev (C_Publish command) (Ok tt) ∈ l
    | Err e => unpublished l command e end).
Proof.
  unfold publish. destruct (has_backplane ci); cbn [negb]; [|by apply traced_ret].
  eapply traced_bind; [apply traced_circuit|]. intros [|] l Hl; cbn [negb]; [|apply traced_ret; left; split; [done|by apply Hl]].
  eapply traced_attempt; [by apply (traced_call (C_Publish command))|by intros e ? ->; right; left|]. intros [] ? ->.
  intros h. wp_pass. wp_pass. wp_pass. grown. intros _. recorded.
Qed.

Lemma traced_backplane_stage work act at_ :
  traced (backplane_stage ci work act at_) (λ r l, ∀ outcome, r = Ok outcome → peer_truth ci work outcome l).
Proof.
  unfold backplane_stage. destruct (commit_command work) as [command|] eqn:Hc.
  - eapply traced_bind; [apply traced_publish|]. intros [[]|e] l Hp.
    { apply traced_ret. intros ? [= <-]. exists command. split; [done|]. exact Hp. }
    eapply traced_bind; [apply traced_any|]. intros [] l' _.
    eapply traced_attempt; [apply traced_enqueue_data|done|]. intros queued l'' Hq.
    destruct (EntryOptions.rethrow_backplane_exceptions (commit_opts work)) eqn:Hr; apply traced_ret; [done|].
    assert (unpublished ((([] ++ l'') ++ l') ++ l) command e) as Hu by (eapply unpublished_incl; [|exact Hp]; set_solver).
    intros ? [= <-]. destruct queued; exists command; [|by split_and!]. split_and!; [done..|].
    eapply queued_incl; [|by apply Hq]. set_solver.
  - apply traced_ret. intros ? [= <-]. by destruct (has_backplane ci) eqn:?.
Qed.

(** *** The whole commit *)
Lemma touches_retire key flight : touches (V := V) [K_Release] (retire key flight).
Proof. unfold retire, drop_optional, drop_flight. footprint. Qed.
Lemma touches_retire_late key flight : touches (V := V) [K_Release] (retire_flight_first key flight).
Proof. unfold retire_flight_first, drop_optional, drop_flight. footprint. Qed.
Lemma touches_drop_optional flight : touches (V := V) [K_Release] (drop_optional flight).
Proof. unfold drop_optional, drop_flight. footprint. Qed.
#[local] Hint Resolve touches_retire touches_retire_late touches_drop_optional : footprint.

Lemma touches_or_release {A B} ks release (p : prog (answer (V := V)) (result CacheError A))
    (k : A → prog (answer (V := V)) (result CacheError B)) :
  touches ks release → touches ks p → (∀ a, touches ks (k a)) → touches ks (or_release release p k).
Proof.
  intros Hr Hp Hk. apply only_bind; [exact Hp|]. intros [a|e]; [apply Hk|].
  apply only_bind; [exact Hr|done].
Qed.
Lemma touches_publication work act at_ local distributed :
  touches (V := V) [K_Time; K_Circuit; K_Publish; K_Observer; K_Recovery; K_Release]
    (publication ci work act at_ local distributed).
Proof.
  unfold publication. apply touches_or_release; [footprint..|]. intros b. footprint.
Qed.

Lemma traced_or_release {A B} release (p : prog (answer (V := V)) (result CacheError A))
    (k : A → prog (answer (V := V)) (result CacheError B)) R (R' : result CacheError B → history V → Prop) :
  touches [K_Release] release → traced p R →
  (∀ e l lr, R (Err e) l → Forall (λ ev, kind (ev_call ev) ∈ [K_Release]) lr → R' (Err e) (lr ++ l)) →
  (∀ a l, R (Ok a) l → traced (k a) (λ b l', R' b (l' ++ l))) → traced (or_release release p k) R'.
Proof.
  intros Hrel Hp He Hk. eapply traced_bind; [exact Hp|]. intros [a|e] l HR; [by apply Hk|].
  eapply traced_bind; [by apply traced_touches|]. intros ? lr Hlr. apply traced_ret. by apply He.
Qed.

Lemma traced_publication work act at_ local distributed :
  traced (publication ci work act at_ local distributed) (λ r l, ∀ report, r = Ok report →
    local_effect report = local ∧ distributed_effect report = distributed ∧
    peer_truth ci work (backplane_effect report) l).
Proof.
  eapply traced_or_release; [apply touches_retire|apply traced_backplane_stage|done|].
  intros outcome l Hp. eapply traced_bind; [apply traced_any|]. intros [] l' _. apply traced_ret.
  intros ? [= <-]. split_and!; [done..|]. eapply peer_truth_incl; [|by apply Hp]. set_solver.
Qed.

(** What is known of a commit at its end: now, or when the scheduled rest ends. *)
Definition delivers (T : result CacheError CommitReport → history V → Prop)
    (r : result CacheError (MutationReceipt (V := V))) l : Prop :=
  match r with
  | Ok (Completed report) => T (Ok report) l
  | Ok (Scheduled rest) => traced rest (λ r l', T r (l' ++ l))
  | Err e => T (Err e) l
  end.

Lemma traced_pipeline mode (p : prog (answer (V := V)) (result CacheError MutationReceipt)) T :
  traced p (delivers T) → traced (pipeline_receipt mode p) (delivers T).
Proof.
  intros Hw. destruct mode; [exact Hw|]. apply traced_ret. cbn.
  eapply traced_attempt; [exact Hw|..].
  - intros e l He. by rewrite app_nil_r.
  - intros [report|rest] l HT; cbn.
    + apply traced_ret. by rewrite app_nil_r.
    + eapply traced_mono; [exact HT|]. intros r l' Hr. by rewrite app_nil_r.
Qed.

(** The account of a commit. *)
Definition accounted work (r : result CacheError CommitReport) l : Prop :=
  (∀ report, r = Ok report → truthful ci work report l) ∧ announced (committed work) l ∧
  lost_is_final (fenced_write work) r l.

(** Accesses that show nothing, before it. *)
Definition quiet : list Kind :=
  [K_Time; K_Options; K_MemoryRead; K_Circuit; K_ProviderRead; K_Codec; K_Fence; K_Lane; K_Advance;
   K_Release; K_Lease; K_Observer].
Local Abbreviation silent l := (Forall (λ ev, kind (ev_call ev) ∈ quiet) l).

Lemma silent_kinds (ks : list Kind) l : Forall (λ ev, kind (ev_call ev) ∈ ks) l → ks ⊆ quiet → silent l.
Proof. intros Hl Hks. eapply Forall_impl; [exact Hl|]. intros ev. apply Hks. Qed.

Lemma lost_is_final_before {A} cause (r : result CacheError A) l l0 :
  silent l0 → lost_is_final cause r l → lost_is_final cause r (l ++ l0).
Proof.
  intros Hl0 Hl [Hx|Hx]%lost_app; [|unlost Hl0 Hx]. destruct (Hl Hx) as (? & ? & ?). split_and!; [done| |done].
  apply invisible_app. split; [done|]. eapply touches_invisible; [exact Hl0|no_kind..].
Qed.
Lemma lost_is_final_after {A} cause (r : result CacheError A) l l0 :
  silent l0 → lost_is_final cause r l → lost_is_final cause r (l0 ++ l).
Proof.
  intros Hl0 Hl [Hx|Hx]%lost_app; [unlost Hl0 Hx|]. destruct (Hl Hx) as (? & ? & ?). split_and!; [done| |done].
  apply invisible_app. split; [|done]. eapply touches_invisible; [exact Hl0|no_kind..].
Qed.
Lemma lost_is_final_err {A B} cause e l :
  lost_is_final (A := A) cause (Err e) l → lost_is_final (A := B) cause (Err e) l.
Proof. intros Hl Hx. destruct (Hl Hx) as ([= ->] & ?). done. Qed.
Lemma announced_before (P : history V → Prop) l l0 :
  (∀ l1 l2, l1 ⊆ l2 → P l1 → P l2) → silent l0 → announced P l → announced P (l ++ l0).
Proof.
  intros Hmono Hl0 Hl l1 ev l2 Heq Hev.
  assert (ev ∉ l0) as Hnot.
  { rewrite Forall_forall in Hl0. intros Hq%Hl0.
    assert (K_Publish ∉ quiet) by no_kind. destruct ev as [c x]. by destruct c. }
  apply app_eq_inv in Heq as [(k & -> & Hk)|(k & -> & ->)]; [|set_solver].
  destruct k as [|x k]; cbn in *; simplify_eq; [set_solver|].
  eapply Hmono; [|by eapply (Hl l1)]. set_solver.
Qed.

Lemma accounted_before work r l l0 : silent l0 → accounted work r l → accounted work r (l ++ l0).
Proof.
  intros Hl0 (Ht & Ha & Hf). split_and!.
  - intros report Hr. eapply truthful_incl; [|by apply Ht]. set_solver.
  - apply announced_before; [apply commit_committed_incl|done..].
  - by apply lost_is_final_before.
Qed.
Lemma delivers_before T T' r l l0 :
  (∀ r l, T r l → T' r (l ++ l0)) → delivers T r l → delivers T' r (l ++ l0).
Proof.
  intros HT. destruct r as [[report|rest]|e]; cbn; [auto| |auto].
  intros Hr. eapply traced_mono; [exact Hr|]. intros r l' Hl'. rewrite app_assoc. by apply HT.
Qed.

(** After the data stage: local commit, then the peers. *)
Lemma traced_announcement work act at_ local distributed l :
  local_truth work local l → data_truth ci work distributed l → is_degraded distributed = false →
  announced (committed work) l → ¬ lost l →
  traced (publication ci work act at_ local distributed) (λ r l', accounted work r (l' ++ l)).
Proof.
  intros Hlocal Hdata Hdeg Hann Hlost.
  eapply traced_mono; [apply traced_and; [apply traced_publication|apply traced_touches, touches_publication]|].
  intros r l' [Hp Hl']. split_and!.
  - intros report Hr. destruct (Hp report Hr) as (<- & <- & Hpeer). unfold truthful. rewrite Hdeg. split_and!.
    + eapply local_truth_incl; [|exact Hlocal]. set_solver.
    + eapply data_truth_incl; [|exact Hdata]. set_solver.
    + eapply peer_truth_incl; [|exact Hpeer]. set_solver.
  - apply announced_app; [apply commit_committed_incl| |done]. split; eauto.
  - intros [Hx|Hx]%lost_app; [unlost Hl' Hx|done].
Qed.

Ltac unsaid := eapply unannounced; [eassumption|no_kind].
Lemma traced_finish_commit work act at_ distributed l :
  data_truth ci work distributed l → is_degraded distributed = false →
  Forall (λ ev, is_publish (ev_call ev) = false) l → ¬ lost l →
  traced (finish_commit ci work act at_ distributed) (λ r l', delivers (accounted work) r (l' ++ l)).
Proof.
  intros Hdata Hdeg Hl Hnl.
  assert (announced (committed work) l) as Hann.
  { rewrite <- (app_nil_r l). apply announced_more; [done|]. by intros []. }
  eapply traced_or_release; [apply touches_retire|
    apply traced_and; [apply traced_commit_local|apply traced_touches, touches_commit_local]|..].
  - intros e lc lr [_ Hlc] Hlr. rewrite <- app_assoc. split_and!; [done| |].
    + do 2 (apply announced_more; [unsaid|]). done.
    + intros [Hx|[Hx|Hx]%lost_app]%lost_app; [unlost Hlr Hx|unlost Hlc Hx|done].
  - intros local lc [Hlocal Hlc]. eapply (traced_step [K_Recovery]); [footprint|]. intros ? ls Hls.
    eapply (traced_mono _ (λ r l', delivers (accounted work) r (l' ++ ls ++ lc ++ l)));
      [|intros r l'; by rewrite <- !app_assoc].
    assert (traced (publication ci work act at_ local distributed)
      (λ r l', accounted work r (l' ++ ls ++ lc ++ l))) as Hpub.
    { apply traced_announcement; [| |done| |].
      - eapply local_truth_incl; [|exact (Hlocal local eq_refl)]. set_solver.
      - eapply data_truth_incl; [|exact Hdata]. set_solver.
      - by do 2 (apply announced_more; [unsaid|]).
      - intros [Hx|[Hx|Hx]%lost_app]%lost_app; [unlost Hls Hx|unlost Hlc Hx|done]. }
    unfold commit_receipt. destruct (_ && _); [by apply traced_ret|].
    eapply traced_attempt; [exact Hpub|done|]. intros report l' Hr. by apply traced_ret.
Qed.

Lemma traced_commit_data work : traced (commit_data ci work) (delivers (accounted work)).
Proof.
  unfold commit_data. eapply (traced_step [K_Time]); [footprint|]. intros now l0 Hl0.
  eapply traced_mono; [|intros r l; apply delivers_before; intros r' l'; apply accounted_before;
    eapply silent_kinds; [exact Hl0|set_solver]].
  eapply (traced_step [K_Fence]); [footprint|]. clear l0 Hl0. intros stamp l0 Hl0.
  eapply traced_mono; [|intros r l; apply delivers_before; intros r' l'; apply accounted_before;
    eapply silent_kinds; [exact Hl0|set_solver]]. clear l0 Hl0.
  eapply traced_or_release; [apply touches_retire|
    apply traced_and; [apply traced_distributed_stage|apply traced_touches, touches_distributed_stage]|..].
  - intros e l lr [[_ Hlost] Hl] Hlr. split_and!; [done| |].
    + apply announced_more; [unsaid|]. eapply announced_none; [exact Hl|no_kind].
    + apply lost_is_final_after; [by eapply silent_kinds; [exact Hlr|set_solver]|by eapply lost_is_final_err].
  - intros [report|distributed] l [[[Hs Hdeg] Hlost] Hl].
    + eapply traced_bind; [apply traced_touches, touches_retire|]. intros [] lr Hlr. apply traced_ret.
      split_and!.
      * intros ? [= <-]. eapply truthful_incl; [|exact Hs]. set_solver.
      * apply announced_more; [unsaid|]. eapply announced_none; [exact Hl|no_kind].
      * intros [Hx|Hx]%lost_app; [unlost Hlr Hx|by destruct (Hlost Hx)].
    + apply traced_finish_commit; [done|done|unsaid|]. intros Hx. by destruct (Hlost Hx).
Qed.
End commit.
#[export] Hint Resolve touches_retire touches_retire_late touches_drop_optional touches_publication : footprint.

(** *** The tally of a commit: what took effect outside the memory *)
Section tally.
Context {V : Type} (ci : Inner).
Implicit Types (l : history V) (work : DataCommit (V := V)).

(** The recovery journal accepted work; the peers were told; the provider
    acknowledged a write. *)
Definition is_accepted (ev : event (answer (V := V))) : bool :=
  match ev_call ev as c return answer c → bool with
  | C_Enqueue _ _ => λ x, match x with Ok outcome => is_queued outcome | Err _ => false end
  | _ => λ _, false
  end (ev_answer ev).
Definition is_told (ev : event (answer (V := V))) : bool :=
  match ev_call ev as c return answer c → bool with
  | C_Publish _ => λ x, match x with Ok _ => true | Err _ => false end
  | _ => λ _, false
  end (ev_answer ev).
Definition is_written (ev : event (answer (V := V))) : bool :=
  match ev_call ev as c return answer c → bool with
  | C_BackendSet _ _ _ | C_BackendRemove _ => λ x, match x with Ok _ => true | Err _ => false end
  | C_WriteWithLease _ _ _ => λ x, match x with Ok Committed => true | _ => false end
  | _ => λ _, false
  end (ev_answer ev).
Record Tally := mkTally { accepted : bool; told : bool; written : bool }.
Definition tally l : Tally := mkTally (existsb is_accepted l) (existsb is_told l) (existsb is_written l).
Definition add (a b : Tally) : Tally := mkTally (accepted a || accepted b) (told a || told b) (written a || written b).
Definition nothing : Tally := mkTally false false false.

Definition is_effect (outcome : EffectOutcome) : bool := match outcome with EF_Applied => true | _ => false end.
Definition queues (outcome : EffectOutcome) : bool := match outcome with EF_RecoveryQueued _ => true | _ => false end.
(** What a report says took effect. *)
Definition reported (report : CommitReport) : Tally :=
  mkTally (queues (distributed_effect report) || queues (backplane_effect report))
    (has_backplane ci && is_effect (backplane_effect report)) (is_effect (distributed_effect report)).

Lemma tally_app l l' : tally (l ++ l') = add (tally l) (tally l').
Proof. unfold tally, add. cbn. by rewrite !existsb_app. Qed.
Lemma add_nothing_l t : add nothing t = t.
Proof. by destruct t. Qed.
Lemma add_nothing_r t : add t nothing = t.
Proof. unfold add. cbn. rewrite !orb_false_r. by destruct t. Qed.

(** Accesses without such an effect. *)
Definition effectless (c : Call V) : bool :=
  match c with
  | C_Enqueue _ _ | C_Publish _ | C_BackendSet _ _ _ | C_BackendRemove _ | C_WriteWithLease _ _ _ => false
  | _ => true
  end.
Lemma tally_effectless l : Forall (λ ev, effectless (ev_call ev) = true) l → tally l = nothing.
Proof.
  induction 1 as [|[c x] l Hc _ IH]; [done|]. change ((Ev c x) :: l) with ([Ev c x] ++ l). rewrite tally_app, IH.
  by destruct c.
Qed.
Lemma tallied_only {A} (p : prog (answer (V := V)) A) :
  only (λ c, effectless c = true) p → traced p (λ _ l, tally l = nothing).
Proof.
  intros Hp h. eapply wp_mono; [eapply wp_only; [exact Hp|apply (traced_any p)]|].
  intros a h' (l & -> & Hl & _). exists l. split; [done|by apply tally_effectless].
Qed.
Definition harmless : list Kind :=
  [K_Time; K_Options; K_MemoryRead; K_MemoryCas; K_MemoryWrite; K_Marker; K_Circuit; K_ProviderRead; K_Codec; K_Fence;
   K_Lane; K_Advance; K_Release; K_Lease; K_Lock; K_Origin; K_Budget; K_Observer].
Lemma tallied_touches {A} (p : prog (answer (V := V)) A) : touches harmless p → traced p (λ _ l, tally l = nothing).
Proof.
  intros Hp. apply tallied_only. eapply only_mono; [exact Hp|]. intros c Hc.
  destruct c; try done; exfalso; revert Hc; no_kind.
Qed.
(** Past an operation without such an effect. *)
Lemma tallied_step {A B} (p : prog (answer (V := V)) A) (f : A → prog (answer (V := V)) B) (R : B → history V → Prop) :
  traced p (λ _ l, tally l = nothing) → (∀ b l l0, tally (l ++ l0) = tally l → R b l → R b (l ++ l0)) →
  (∀ a, traced (f a) R) → traced (bind p f) R.
Proof.
  intros Hp HR Hf. eapply traced_bind; [exact Hp|]. intros a l Hl. eapply traced_mono; [apply Hf|].
  intros b l'. apply HR. by rewrite tally_app, Hl, add_nothing_r.
Qed.
Ltac untallied := apply tallied_touches; footprint.
Ltac past := eapply tallied_step; [untallied|by cbn; intros ? ? ? ->|].

Lemma tallied_enqueue key data act at_ fence :
  traced (V := V) (enqueue_data ci key data act at_ fence) (λ r l,
    tally l = mkTally (match r with Ok b => b | Err _ => false end) false false).
Proof.
  unfold enqueue_data. destruct (has_recovery ci); [|by apply traced_ret].
  eapply traced_bind; [by apply traced_call|]. intros x ? ->. apply traced_ret. by destruct x as [[]|].
Qed.
Lemma tallied_provider_write key data ttl proved :
  traced (V := V) (provider_write ci key data ttl proved) (λ r l,
    tally l = mkTally false false (match r with Ok _ => true | Err _ => false end)).
Proof.
  unfold provider_write. destruct proved as [pr|]; [|destruct data]; intros h; unfold attempt; repeat wp_step; grown.
  all: try done; by destruct x as [[]|].
Qed.
Lemma tallied_write key data flight :
  traced (V := V) (write_data ci key data flight) (λ r l,
    tally l = mkTally false false (match r with Ok outcome => is_effect outcome | Err _ => false end)).
Proof.
  unfold write_data. destruct (negb _); [by apply traced_ret|]. past. intros now. cbv zeta.
  case_match; [by apply traced_ret|]. past. intros [proved|e]; [|by apply traced_ret].
  eapply traced_attempt; [apply tallied_provider_write|done|]. intros [] l Hl.
  eapply (traced_mono _ (λ r l, r = Ok EF_Applied ∧ tally l = nothing)).
  - past. intros []. past. intros []. by apply traced_ret.
  - intros r l' [-> Ht]. by rewrite tally_app, Ht, Hl.
Qed.
Lemma tallied_publish command :
  traced (V := V) (publish ci command) (λ r l,
    tally l = mkTally false (has_backplane ci && match r with Ok _ => true | Err _ => false end) false).
Proof.
  unfold publish. destruct (has_backplane ci); cbn [negb andb]; [|by apply traced_ret].
  past. intros [|]; cbn [negb]; [|by apply traced_ret].
  eapply traced_attempt; [by apply (traced_call (C_Publish command))|by intros e ? ->|]. intros [] ? ->.
  eapply (traced_mono _ (λ r l, r = Ok tt ∧ tally l = nothing)).
  - past. intros []. past. intros []. past. intros []. by apply traced_ret.
  - intros r l' [-> Ht]. by rewrite tally_app, Ht.
Qed.

Definition stage_tally (r : result CacheError (CommitReport + EffectOutcome)) l : Prop :=
  match r with
  | Ok (inl report) => backplane_effect report = EF_Skipped SK_Policy ∧ tally l = reported report
  | Ok (inr outcome) => queues outcome = false ∧ tally l = mkTally false false (is_effect outcome)
  | Err _ => True
  end.
Lemma tallied_degraded work (queued : bool) cause l :
  tally l = mkTally queued false false →
  traced (let? report := degraded work queued cause in ok (inl report)) (λ r l', stage_tally r (l' ++ l)).
Proof.
  intros Hl. unfold degraded, attempt. eapply traced_bind; [apply (traced_and _ (λ (r : result CacheError CommitReport) l', tally l' = nothing) (λ r _, ∀ report, r = Ok report →
    distributed_effect report = (if queued then EF_RecoveryQueued cause else EF_FailedSuppressed cause) ∧
    backplane_effect report = EF_Skipped SK_Policy))|].
  - past. intros [local|e]; by apply traced_ret.
  - eapply traced_bind; [apply traced_any|]. intros [local|e] l0 _; apply traced_ret; [|done]. by intros ? [= <-].
  - intros [report|e] l' [Ht Hr]; apply traced_ret; [|done]. destruct (Hr report eq_refl) as [Hd Hb]. cbn.
    rewrite tally_app, Ht, Hl. unfold reported. rewrite Hd, Hb. split; [done|]. by destruct queued, (has_backplane ci).
Qed.
Lemma tallied_fallback work pending act at_ e :
  traced (let? queued := enqueue_data ci (commit_key work) pending act at_ (commit_fence work) in
          if EntryOptions.rethrow_distributed_exceptions (commit_opts work) then raise e
          else let? report := degraded work queued e in ok (inl report)) stage_tally.
Proof.
  eapply traced_attempt; [apply tallied_enqueue|done|]. intros queued l Hl.
  destruct (EntryOptions.rethrow_distributed_exceptions _); [by apply traced_ret|by apply tallied_degraded].
Qed.
Lemma tallied_distributed work act at_ : traced (distributed_stage ci work act at_) stage_tally.
Proof.
  unfold distributed_stage. destruct (commit_data_ work) as [| |data|e|cause logical] eqn:Hd; [by apply traced_ret..| | |].
  - eapply traced_bind.
    { instantiate (1 := λ (r : result CacheError EffectOutcome) l, (∀ outcome, r = Ok outcome → queues outcome = false) ∧
        tally l = mkTally false false (match r with Ok outcome => is_effect outcome | Err _ => false end)).
      past. intros [|]; [|by apply traced_ret]. eapply traced_mono; [apply traced_and; [apply tallied_write|apply traced_write_data]|].
      intros r l [Ht [Hr _]]. split; [|done]. intros outcome ->. by destruct outcome. }
    intros [outcome|e] l [Hq Hl]; [apply traced_ret; split; [by apply Hq|exact Hl]|].
    eapply traced_mono; [|intros r l' Hr; exact Hr].
    eapply traced_bind; [untallied|]. intros [] l' Hl'. destruct (is_terminal_lease_error e); [by apply traced_ret|].
    eapply traced_mono; [apply tallied_fallback|]. intros [[report|outcome]|err] l'' Hs; [| |done].
    all: cbn in Hs |- *; by rewrite !tally_app, Hl', Hl, !add_nothing_r.
  - eapply (traced_mono _ (λ r l, stage_tally r (l ++ []))); [by apply tallied_degraded|]. intros r l. by rewrite app_nil_r.
  - apply tallied_fallback.
Qed.
Lemma tallied_backplane work act at_ :
  traced (backplane_stage ci work act at_) (λ r l, ∀ outcome, r = Ok outcome →
    tally l = mkTally (queues outcome) (has_backplane ci && is_effect outcome) false).
Proof.
  unfold backplane_stage. destruct (commit_command work) as [command|].
  - eapply traced_bind; [apply tallied_publish|]. intros [[]|e] l Hl.
    { apply traced_ret. by intros ? [= <-]. }
    eapply traced_bind; [untallied|]. intros [] l' Hl'. eapply traced_attempt; [apply tallied_enqueue|done|].
    intros queued l'' Hq. case_match; apply traced_ret; [done|]. intros ? [= <-]. cbn.
    rewrite !tally_app, Hq, Hl', Hl. by destruct queued, (has_backplane ci).
  - apply traced_ret. intros ? [= <-]. by destruct (has_backplane ci) eqn:?.
Qed.

(** The report says exactly what took effect. *)
Definition tallies (r : result CacheError CommitReport) l : Prop := ∀ report, r = Ok report → tally l = reported report.
Lemma tallied_publication work act at_ local distributed l :
  queues distributed = false → tally l = mkTally false false (is_effect distributed) →
  traced (publication ci work act at_ local distributed) (λ r l', tallies r (l' ++ l)).
Proof.
  intros Hq Hl. eapply traced_or_release; [apply touches_retire|apply tallied_backplane|by intros ? ? ? _ _|].
  intros outcome l' Ho. eapply traced_bind; [untallied|]. intros [] l'' Hl''. apply traced_ret. intros ? [= <-].
  cbn [app]. rewrite !tally_app, Hl'', (Ho outcome eq_refl), Hl. unfold reported, add, nothing. cbn. rewrite Hq.
  by rewrite !orb_false_r.
Qed.
Lemma delivers_tallied r l l0 : tally l0 = nothing → delivers tallies r l → delivers tallies r (l ++ l0).
Proof.
  intros Hl0. apply delivers_before. intros r' l' Ht report Hr. rewrite tally_app, Hl0, add_nothing_r. by apply Ht.
Qed.
Lemma tallied_quiet_bind {A} (p : prog (answer (V := V)) A) (f : A → prog (answer (V := V)) (result CacheError MutationReceipt)) :
  traced p (λ _ l, tally l = nothing) → (∀ a, traced (f a) (delivers tallies)) → traced (bind p f) (delivers tallies).
Proof.
  intros Hp Hf. eapply traced_bind; [exact Hp|]. intros a l Hl. eapply traced_mono; [apply Hf|].
  intros r l'. by apply delivers_tallied.
Qed.
Lemma tallied_commit work : traced (commit_data ci work) (delivers tallies).
Proof.
  unfold commit_data. apply tallied_quiet_bind; [untallied|]. intros now. apply tallied_quiet_bind; [untallied|]. intros stamp.
  eapply traced_or_release; [apply touches_retire|apply tallied_distributed|by intros ? ? ? _ _|].
  intros [report|distributed] l Hs.
  - eapply traced_bind; [untallied|]. intros [] lr Hlr. apply traced_ret. destruct Hs as [_ Hs].
    intros ? [= <-]. cbn. by rewrite tally_app, Hlr, Hs.
  - destruct Hs as [Hq Hl]. unfold finish_commit.
    eapply traced_or_release; [apply touches_retire|untallied|by intros ? ? ? _ _|].
    intros local lc Hlc. eapply traced_bind.
    { instantiate (1 := λ _ l, tally l = nothing). apply tallied_only. by destruct (has_recovery ci). }
    intros ? ls Hls. eapply (traced_mono _ (λ r l', delivers tallies r (l' ++ ls ++ lc ++ l)));
      [|intros r l'; by rewrite <- !app_assoc].
    assert (traced (publication ci work (command_action (commit_command work)) (default now stamp) local distributed)
      (λ r l', tallies r (l' ++ ls ++ lc ++ l))) as Hpub.
    { apply tallied_publication; [done|]. by rewrite !tally_app, Hls, Hlc, !add_nothing_l. }
    unfold commit_receipt. destruct (_ && _); [by apply traced_ret|].
    eapply traced_attempt; [exact Hpub|done|]. intros report l' Hr. by apply traced_ret.
Qed.
End tally.

(** *** A value's write *)
Section entry.
Context {V : Type} (ci : Inner).
Implicit Types (l : history V) (opts : EntryOptions).

(** [bytes] is the entry's canonical snapshot, as the codec encoded it. *)
Definition encoded l (e : Entry V) opts (bytes : list Init.Byte.byte) (physical : Timestamp) : Prop :=
  ∃ snapshot, DistributedSnapshot.from_entry_with_options e opts (inserted_at (Entry.meta e)) = Ok snapshot ∧
    physical = physical_expiration_ticks (entry snapshot) ∧ Ev (C_Encode snapshot) (Ok bytes) ∈ l.
(** The entry is at every level its options ask for. *)
Definition stored key (e : Entry V) opts l : Prop :=
  (EntryOptions.skip_memory_write opts = false → ∃ a, inserted l key e a) ∧
  (is_hybrid (storage ci) = true → EntryOptions.skip_distributed_write opts = false →
   ∃ bytes physical, encoded l e opts bytes physical ∧
     (applied ci l key (DM_Set bytes physical) ∨ outlived l (DM_Set bytes physical))).

Lemma encoded_incl l l' (e : Entry V) opts bytes physical :
  l ⊆ l' → encoded l e opts bytes physical → encoded l' e opts bytes physical.
Proof. intros Hl (s & ? & ? & ?). exists s. auto. Qed.

Lemma traced_encode (snapshot : DistributedSnapshot V) :
  traced (encode snapshot) (λ r l, ∀ bytes, r = Ok bytes → Ev (C_Encode snapshot) (Ok bytes) ∈ l).
Proof.
  unfold encode, codec, check. traced_run; try done. intros bytes ->. recorded.
Qed.

Lemma traced_prepare_set key (e : Entry V) opts :
  traced (prepare_set ci key e opts) (λ r l, ∀ data, r = Ok data →
    match data with
    | PD_Absent => is_hybrid (storage ci) = false
    | PD_Skipped => EntryOptions.skip_distributed_write opts = true
    | PD_Ready data => ∃ bytes physical, data = DM_Set bytes physical ∧ encoded l e opts bytes physical
    | PD_Failed _ => is_hybrid (storage ci) = true
    | PD_ColdExpire _ _ => False
    end).
Proof.
  unfold prepare_set. destruct (is_hybrid (storage ci)) eqn:Hh; cbn [negb]; [|by apply traced_ret; intros ? [= <-]].
  destruct (EntryOptions.skip_distributed_write opts) eqn:Hs; [by apply traced_ret; intros ? [= <-]|].
  destruct (DistributedSnapshot.from_entry_with_options e opts (inserted_at (Entry.meta e))) as [snapshot|] eqn:Hw;
    [|by apply traced_ret].
  eapply traced_attempt; [by apply (traced_ret _ (λ r l, r = Ok snapshot ∧ l = []))|by intros ? ? [? ?]|].
  intros ? ? [[= ->] ->]. eapply traced_bind; [apply traced_encode|]. intros [bytes|error] l Hb.
  - apply traced_ret. intros ? [= <-]. eexists _, _. split; [done|]. exists snapshot. split_and!; [done..|].
    cbn. rewrite app_nil_r. by apply Hb.
  - unfold codec_failure. eapply traced_bind; [apply traced_any|]. intros [] l' _.
    destruct (_ || _); apply traced_ret; [done|]. by intros ? [= <-].
Qed.

Lemma traced_local_stage key (e : Entry V) opts data flight :
  traced (local_stage key e opts data flight) (λ r l, ∀ local, r = Ok local →
    (EntryOptions.skip_memory_write opts = false →
       local = LC_Store e ∨ ∃ a, local = LC_Applied (LE_Stored a) ∧ inserted l key e a) ∧
    (fenced flight → (∃ d, data = PD_Ready d) → Forall (λ ev, kind (ev_call ev) ∈ quiet) l)).
Proof.
  unfold local_stage. destruct (EntryOptions.skip_memory_write opts); [by apply traced_ret|].
  eapply traced_attempt; [apply traced_and; [apply traced_flight_proof|apply traced_touches, touches_flight_proof]|done|].
  intros proved l [Hp Hl]. destruct (match proved, data with Some _, PD_Ready _ => true | _, _ => false end) eqn:Hc.
  - apply traced_ret. intros ? [= <-]. split; [by left|]. intros _ _. cbn. eapply silent_kinds; [exact Hl|set_solver].
  - unfold inserted. traced_run; intros ? [= <-]. split.
    + intros _. right. eexists. split; [done|]. eexists. recorded.
    + intros (f & lease & -> & Hf) [d ->]. destruct proved; [done|].
      specialize (Hp f eq_refl). by rewrite Hf in Hp.
Qed.

Definition entered key (e : Entry V) opts (r : result CacheError CommitReport) l : Prop :=
  announced (stored key e opts) l ∧ lost_is_final True r l.

Lemma unspoken key (e : Entry V) opts (ks : list Kind) r l :
  Forall (λ ev, kind (ev_call ev) ∈ ks) l → K_Publish ∉ ks → K_ProviderWrite ∉ ks → entered key e opts r l.
Proof.
  intros Hl ??. split; [by eapply announced_none|]. intros Hx. by eapply not_lost in Hx.
Qed.

Lemma touches_inline_entry key (e : Entry V) opts origin :
  touches [K_Time; K_MemoryWrite; K_Release] (inline_entry key e opts origin).
Proof.
  unfold inline_entry, inline_receipt. apply touches_or_release; [footprint..|]. intros _.
  apply only_bind; [footprint|]. intros now. apply touches_or_release; [footprint..|]. intros _. footprint.
Qed.

(** What preparing an entry established, before its commit: [lp] is the record
    of its encoding, [ll] that of its local stage. *)
Record prepared key (e : Entry V) opts (work : DataCommit (V := V)) lp ll : Prop := {
  prepared_key : commit_key work = key;
  prepared_data :
    match commit_data_ work with
    | PD_Absent => is_hybrid (storage ci) = false
    | PD_Skipped => EntryOptions.skip_distributed_write opts = true
    | PD_Ready data => ∃ bytes physical, data = DM_Set bytes physical ∧ encoded lp e opts bytes physical
    | PD_Failed _ => is_hybrid (storage ci) = true
    | PD_ColdExpire _ _ => False
    end;
  prepared_local : EntryOptions.skip_memory_write opts = false →
    commit_local_ work = LC_Store e ∨ ∃ a, commit_local_ work = LC_Applied (LE_Stored a) ∧ inserted ll key e a;
  prepared_silent : fenced_write work → Forall (λ ev, kind (ev_call ev) ∈ quiet) ll;
  prepared_quiet : Forall (λ ev, kind (ev_call ev) ∈ quiet) lp;
  prepared_kinds : Forall (λ ev, kind (ev_call ev) ∈ K_MemoryWrite :: quiet) ll }.

Lemma committed_stored key (e : Entry V) opts work lp ll l :
  prepared key e opts work lp ll → committed ci work l → stored key e opts (l ++ ll ++ lp).
Proof.
  intros [<- Hdata Hlocal _ _ _] [[effect Heffect] (outcome & Hout & Hdeg)]. split.
  - intros Hs. unfold local_truth in Heffect. destruct (Hlocal Hs) as [Hl|(a & Hl & Ha)].
    + rewrite Hl in Heffect. destruct Heffect as (a & _ & Ha). exists a.
      eapply inserted_incl; [|exact Ha]. set_solver.
    + exists a. eapply inserted_incl; [|exact Ha]. set_solver.
  - intros Hh Hs.
    destruct outcome as [| |[]| | |]; cbn in Hout, Hdeg; try done.
    + destruct Hout as [Hout|Hout]; [rewrite Hout in Hdata|]; congruence.
    + rewrite Hout in Hdata. congruence.
    + destruct Hout as (data & Hout & Ho). rewrite Hout in Hdata. destruct Hdata as (bytes & physical & -> & He).
      exists bytes, physical. split; [eapply encoded_incl; [|exact He]; set_solver|].
      right. eapply outlived_incl; [|exact Ho]. set_solver.
    + destruct Hout as (data & Hout & Ho). rewrite Hout in Hdata. destruct Hdata as (bytes & physical & -> & He).
      exists bytes, physical. split; [eapply encoded_incl; [|exact He]; set_solver|].
      left. eapply applied_incl; [|exact Ho]. set_solver.
Qed.

Lemma entered_commit key (e : Entry V) opts work lp ll r l :
  prepared key e opts work lp ll → accounted ci work r l → entered key e opts r (l ++ ll ++ lp).
Proof.
  intros Hprep (_ & Hann & Hlost). pose proof Hprep as [_ _ _ Hsilent Hlp Hll]. split.
  - intros l1 ev l2 Heq Hev.
    assert (ev ∉ ll ++ lp) as Hnot.
    { intros Hin. assert (K_Publish ∉ K_MemoryWrite :: quiet) by no_kind.
      assert (Forall (λ ev, kind (ev_call ev) ∈ K_MemoryWrite :: quiet) (ll ++ lp)) as Hall.
      { apply Forall_app. split; [done|]. eapply Forall_impl; [exact Hlp|]. intros ev'. by right. }
      rewrite Forall_forall in Hall. apply Hall in Hin. destruct ev as [c x]. by destruct c. }
    apply app_eq_inv in Heq as [(k & -> & Hk)|(k & -> & Hk)];
      [|by destruct Hnot; rewrite Hk; apply elem_of_app; right; left].
    destruct k as [|x k]; cbn in Hk; [by destruct Hnot; rewrite <- Hk; left|]. injection Hk as <- ->.
    eapply committed_stored; [exact Hprep|]. exact (Hann l1 ev k eq_refl Hev).
  - intros [Hx|[Hx|Hx]%lost_app]%lost_app; [|unlost Hll Hx|unlost Hlp Hx].
    destruct (Hlost Hx) as (? & Hi & Hf). split_and!; [done| |done].
    apply invisible_app. split; [done|]. apply invisible_app.
    split; (apply (touches_invisible quiet); [|no_kind..]); [by apply Hsilent|exact Hlp].
Qed.

(** Silent steps on the way to the commit, after a silent record [lp]. *)
Local Abbreviation silent l := (Forall (λ ev, kind (ev_call ev) ∈ quiet) l).
Lemma traced_quiet_step {A B} ks (p : prog (answer (V := V)) A) (f : A → prog (answer (V := V)) B) T lp :
  touches ks p → ks ⊆ quiet → silent lp →
  (∀ a lp', silent lp' → lp ⊆ lp' → traced (f a) (λ b l, T b (l ++ lp'))) →
  traced (bind p f) (λ b l, T b (l ++ lp)).
Proof.
  intros Hp Hks Hlp Hf. eapply traced_step; [exact Hp|]. intros a l Hl.
  eapply traced_mono; [apply (Hf a (l ++ lp))|intros b l'; by rewrite <- app_assoc].
  - apply Forall_app. split; [by eapply silent_kinds|done].
  - set_solver.
Qed.
Lemma traced_quiet_guard {A B} ks release (p : prog (answer (V := V)) (result CacheError A))
    (k : A → prog (answer (V := V)) (result CacheError B)) T lp :
  touches ks p → ks ⊆ quiet → touches [K_Release] release → silent lp →
  (∀ e lp', silent lp' → T (Err e) lp') →
  (∀ a lp', silent lp' → lp ⊆ lp' → traced (k a) (λ b l, T b (l ++ lp'))) →
  traced (or_release release p k) (λ b l, T b (l ++ lp)).
Proof.
  intros Hp Hks Hrel Hlp He Hk. eapply traced_quiet_step; [exact Hp|done|done|].
  intros [a|e] lp' Hlp' Hincl; [by apply Hk|].
  eapply (traced_quiet_step [K_Release]); [exact Hrel|set_solver|done|]. intros ? lp'' Hlp'' _.
  apply traced_ret. by apply He.
Qed.

Lemma inline_entry_completes key (e : Entry V) opts origin :
  traced (inline_entry key e opts origin) (λ r _, match r with Ok (Scheduled _) => False | _ => True end).
Proof.
  intros h. unfold inline_entry, or_release.
  repeat first [apply wp_skip; intros ? ? | progress (repeat case_match) | by (cbn; grown)].
Qed.

Lemma entered_quiet key (e : Entry V) opts r l : silent l → entered key e opts r l.
Proof. intros Hl. eapply unspoken; [exact Hl|no_kind..]. Qed.

Lemma traced_write_entry key (e : Entry V) opts origin :
  traced (write_entry ci key e opts origin) (delivers (entered key e opts)).
Proof.
  unfold write_entry. set (guard := origin_guard <$> origin). destruct (is_inline ci).
  { eapply traced_mono; [apply traced_and; [apply inline_entry_completes|apply traced_touches, touches_inline_entry]|].
    intros [[report|rest]|err] l [Hn Hl]; cbn; [|done|]; (eapply unspoken; [exact Hl|no_kind..]). }
  eapply traced_or_release; [apply touches_drop_optional|
    apply traced_and; [apply traced_prepare_set|apply traced_touches, touches_prepare_set]|..].
  { intros err l lr [_ Hl] Hlr. apply entered_quiet, Forall_app.
    split; (eapply silent_kinds; [eassumption|set_solver]). }
  intros data l0 [Hdata Hl0]. apply (silent_kinds _ _) in Hl0; [|set_solver].
  eapply (traced_quiet_step [K_Lane]); [footprint|set_solver|done|]. intros ? l1 Hl1 Hi1.
  eapply (traced_quiet_guard [K_Lease]); [footprint|set_solver|footprint|done|..]; [by intros; apply entered_quiet|].
  intros proved l2 Hl2 Hi2. clear proved.
  eapply (traced_quiet_step [K_Fence; K_MemoryRead]); [unfold is_current; footprint|set_solver|done|].
  intros [|] l3 Hl3 Hi3; cbn [negb].
  2: { eapply (traced_quiet_step [K_Release]); [footprint|set_solver|done|]. intros ? l4 Hl4 _.
       apply traced_ret. by apply entered_quiet. }
  eapply (traced_quiet_step [K_Advance]); [footprint|set_solver|done|]. intros advanced l4 Hl4 Hi4.
  eapply (traced_quiet_guard []); [footprint|set_solver|footprint|done|..]; [by intros; apply entered_quiet|].
  intros fence l5 Hl5 Hi5.
  eapply traced_or_release; [apply touches_retire_late|
    apply traced_and; [apply traced_local_stage|apply traced_touches, touches_local_stage]|..].
  { intros err l lr [_ Hl] Hlr. rewrite <- app_assoc. apply (unspoken _ _ _ (K_MemoryWrite :: quiet)); [|no_kind..].
    apply Forall_app; split; [|apply Forall_app; split].
    1: eapply (Forall_impl _ _ _ Hlr). 2: eapply (Forall_impl _ _ _ Hl). 3: eapply (Forall_impl _ _ _ Hl5).
    all: intros ev; set_solver. }
  intros local l6 [Hlocal Hl6]. destruct (Hlocal local eq_refl) as [Hstore Hsilent].
  eapply traced_mono; [apply traced_pipeline, traced_commit_data|].
  intros r l Hr. rewrite <- app_assoc. revert Hr. apply delivers_before. intros r' l'. apply entered_commit.
  split; cbn; [done| |done| |done|].
  - specialize (Hdata data eq_refl). destruct data as [| |data| |]; try done.
    destruct Hdata as (bytes & physical & -> & Henc). exists bytes, physical. split; [done|].
    eapply encoded_incl; [|exact Henc]. set_solver.
  - intros [Hf Hd]. by apply Hsilent.
  - eapply (Forall_impl _ _ _ Hl6). intros ev. set_solver.
Qed.
End entry.

(** ** Properties *)
Module WriteTheorems.
Section properties.
Context {V : Type} (ci : Inner).

(** C10: Receipts tell the truth. Whatever the providers answer and whatever
    other tasks do in between, the report of a commit, be it returned at once
    or by the scheduled rest, says what the commit's own accesses show. [Applied]
    at the distributed level means the provider acknowledged these bytes under
    this key, plainly or under the lease; a queued outcome means that the stage
    failed for the cause it names, that the recovery journal accepted work for
    the key and that the options suppress the error; a suppressed one that the
    stage failed so and the options suppress it, or that the payload could not be
    encoded; [NotConfigured] and [Skipped] that there was nothing to write, by
    configuration, by the options or because the lifetime was over. The local
    effect is the admission the memory store answered, and [Applied] at the
    backplane an acknowledged publication of the command. Conversely nothing else
    took effect: the journal accepted work exactly when a queued outcome is
    reported (so a suppressed one means that nothing was queued), the peers were
    told exactly when [Applied] is reported by a cache with a backplane, and the
    provider acknowledged a write exactly when [Applied] is. *)
Theorem receipts_tell_the_truth (work : DataCommit (V := V)) :
  traced (commit_data ci work)
    (delivers (λ r l, ∀ report, r = Ok report → truthful ci work report l ∧ tally l = reported ci report)).
Proof.
  eapply traced_mono; [apply traced_and; [apply traced_commit_data|apply tallied_commit]|].
  intros [[report|rest]|e] l [Hr Ht]; cbn; [|eapply traced_mono; [apply (traced_and _ _ _ Hr Ht)|]|done].
  - intros report' [= <-]. destruct Hr as [Hr _]. auto.
  - intros r l' [[Hr' _] Ht'] report Hrep. auto.
Qed.

(** C9: No peer is told of a value before the value is there. Whenever a
    write publishes to the backplane, the memory store has already answered for
    exactly this entry, unless the options skip it, and the provider has
    already acknowledged the encoding of exactly this entry, unless the options
    or the configuration skip it or its lifetime is over. So a peer that drops
    its copy and reads again cannot miss the value that made it do so. *)
Theorem peers_learn_stored_values key (e : Entry V) opts origin :
  traced (write_entry ci key e opts origin)
    (delivers (λ _ l, announced (stored ci key e opts) l)).
Proof.
  eapply traced_mono; [apply traced_write_entry|]. intros [[report|rest]|err] l; cbn; [by intros [? _]| |by intros [? _]].
  intros Hr. eapply traced_mono; [exact Hr|]. by intros r l' [? _].
Qed.

(** A writer that lost its lease shows nothing. When the provider
    answers a fenced write with [LeaseLost], the write ends with that error and
    has touched neither the memory store, nor the recovery journal, nor the
    backplane, before or after: the value of the new owner stands. *)
Theorem lost_lease_shows_nothing key (e : Entry V) opts origin :
  traced (write_entry ci key e opts origin)
    (delivers (λ r l, lost l → r = Err (CE_Lease Lost) ∧ invisible l)).
Proof.
  eapply traced_mono; [apply traced_write_entry|]. intros [[report|rest]|err] l; cbn.
  - intros [_ Hl] Hx. by destruct (Hl Hx).
  - intros Hr. eapply traced_mono; [exact Hr|]. intros r l' [_ Hl] Hx. by destruct (Hl Hx) as (? & ? & _).
  - intros [_ Hl] Hx. by destruct (Hl Hx) as (? & ? & _).
Qed.

End properties.
End WriteTheorems.
