(* ===== verification/Origin.v ===== *)
(** * Value origins

    Models the origin side of [src/src/cache/read.rs] and its data from
    [src/src/cache.rs] and [src/src/cache/origin.rs]: the lookup that precedes an
    origin, same-key ownership, the origin's own work, its budget, the fail-safe
    fallbacks and the eager refresh. An origin is user code: one access, which is
    answered with its product. Work that outlives its caller is the program the
    cache still owes, as a scheduled commit is. *)
From Stdlib Require Init.Byte.
From S2P Require Import Prelude Time Calls Circuit Options Entry Tags Backplane Cancellation Factory.
From S2P Require Import Invalidation Storage Lanes Wire Lease Recovery Worker Read Write Commit.
Open Scope prog_scope.

(** The fail-safe snapshot, the memory store and the lock each have a say. *)
Inductive LockOutcome (V : Type) :=
| LO_Acquired (guard : FlightGuard) | LO_UnlockedAfterTimeout (guard : FlightGuard) | LO_Served (v : V).
Arguments LO_Acquired {V}.
Arguments LO_UnlockedAfterTimeout {V}.
Arguments LO_Served {V}.

(** [Acquire], or ownership the caller already holds. *)
Definition OriginLock : Type := option FlightGuard.

Section origin.
Context {V : Type} (inner : Inner).
Local Abbreviation prog := (prog (answer (V := V))).
Local Abbreviation action A := (prog (result CacheError A)).
Local Abbreviation ask c := (call (ans := answer (V := V)) c).
Local Abbreviation Entry := (Entry V).
Local Abbreviation CacheValue := (CacheValue (V := V)).
Local Abbreviation OriginCompletion := (OriginCompletion (V := V)).
Local Abbreviation MutationReceipt := (MutationReceipt (V := V)).

Inductive OriginLookup :=
| OL_Served (observed : Observed CacheValue)
| OL_Refresh (options : EntryOptions) (current : Entry)
| OL_Origin (options : EntryOptions) (stale : option Entry) (guard : FlightGuard).

Definition unchanged (v : V) : CacheValue := mkCacheValue v None.

Definition served (key : string) (e : Entry) (opts : EntryOptions) (level : CacheLevel)
    : action (Observed CacheValue) :=
  let? value := copy inner (Entry.value e) opts in
  emit_outcome (EV_Hit key false) ;;;
  ok (mkObserved (unchanged value) OO_Hit (Some level)).

(** ** Same-key ownership *)
Definition flight_guard (local : LocalParticipation) (lease : option string) : FlightGuard :=
  mkFlight local
    match lease with
    | None => CP_Local
    | Some lease => match lease_policy inner with LP_Cooperative => CP_Cooperative lease | LP_Fenced => CP_Fenced lease end
    end.
Definition release_local (local : LocalParticipation) : prog unit :=
  match local with Held key => ask (C_ReleaseLocal key) | UnlockedAfterTimeout | ReplayOnly => Ret tt end.
Definition lock_key (key : string) : string := ("amalgam:lock:" +:+ l2_key inner key)%string.
Definition duration_of (timeout : Timeout) : Duration := default Duration_ZERO (Timeout.as_duration timeout).

(** A cooperative locker's failure may be degraded; a fenced one's never is. *)
Definition acquire_cluster (key : string) (opts : EntryOptions) : action (option string) :=
  if EntryOptions.skip_distributed_locker opts || negb (has_locker inner) then ok None
  else
    let timeout := EntryOptions.distributed_lock_timeout opts in
    let* acquired := ask (C_AcquireLease (lock_key key) timeout) in
    match acquired with
    | Ok (Some lease) => ok (Some lease)
    | Ok None => raise (CE_LockTimeout (duration_of timeout))
    | Err e =>
        if EntryOptions.rethrow_distributed_locker_exceptions opts
           || match lease_policy inner with LP_Fenced => true | LP_Cooperative => false end
        then raise (CE_Lease e) else ok None
    end.

Definition acquire_lock (key : string) (opts : EntryOptions) (stale : option Entry) : action (LockOutcome V) :=
  let fail_safe := EntryOptions.is_fail_safe_enabled opts in
  let timeout := if bool_decide (EntryOptions.memory_lock_timeout opts = Infinite) && fail_safe
                    && bool_decide (is_Some stale)
                 then EntryOptions.factory_soft_timeout opts else EntryOptions.memory_lock_timeout opts in
  let? owned := ask (C_AcquireLocal key timeout) in
  let participate (local : LocalParticipation) :=
    or_release (release_local local) (acquire_cluster key opts) (λ lease,
    let guard := flight_guard local lease in
    ok (match local with UnlockedAfterTimeout => LO_UnlockedAfterTimeout guard | _ => LO_Acquired guard end)) in
  if owned then participate (Held key)
  else
    match stale with
    | Some stale =>
        if fail_safe then
          emit (EV_Hit key true) ;;;
          let? value := copy inner (Entry.value stale) opts in
          ok (LO_Served value)
        else participate UnlockedAfterTimeout
    | None => participate UnlockedAfterTimeout
    end.

Definition try_origin_guard (key : string) : action (option FlightGuard) :=
  let? owned := ask (C_TryLocal key) in
  ok (if owned then Some (flight_guard (Held key) None) else None).

(** ** The lookup before an origin *)
Definition lookup_l2 (key : string) (opts : EntryOptions) (default : bool) (stale : option Entry)
    : action (Observed CacheValue + option Entry) :=
  if bool_decide (is_Some stale) && EntryOptions.skip_distributed_read_when_stale opts then ok (inr stale)
  else
    let fallback := if bool_decide (is_Some stale) || default then FA_Available else FA_Unavailable in
    let? found := read_l2 inner key opts fallback in
    match found with
    | None => ok (inr stale)
    | Some found =>
        let* verdict := evaluate_tags inner (lookup_entry found) in
        match verdict with
        | Remove => ok (inr stale)
        | _ =>
            let? _ := hydrate inner key found opts in
            if bool_decide (verdict = Valid)
               && is_fresh (Entry.freshness (lookup_entry found) (observed_at found))
            then
              let? observed := served key (lookup_entry found) opts CL_Distributed in
              ok (inl observed)
            else ok (inr (Some (newer_of stale (lookup_entry found))))
        end
    end.

(** Under the ownership: the memory store once more, then the provider. *)
Definition lookup_owned (key : string) (opts : EntryOptions) (default : bool) (stale : option Entry)
    (guard : FlightGuard) : action OriginLookup :=
  let release := drop_flight guard in
  or_release release (if EntryOptions.skip_memory_read opts then ok L1_Miss else read_l1 inner key) (λ second,
  match second with
  | L1_Fresh e =>
      or_release release (served key e opts CL_Memory) (λ observed, release ;;; ok (OL_Served observed))
  | _ =>
      let stale := match second with L1_Stale e => Some e | _ => stale end in
      or_release release (lookup_l2 key opts default stale) (λ rest,
      match rest with
      | inl observed => release ;;; ok (OL_Served observed)
      | inr stale => ok (OL_Origin opts stale guard)
      end)
  end).

Definition lookup_missed (key : string) (opts : EntryOptions) (default : bool) (lock : OriginLock)
    (stale : option Entry) : action OriginLookup :=
  emit_outcome (EV_Miss key) ;;;
  match lock with
  | Some guard => lookup_owned key opts default stale guard
  | None =>
      let? outcome := acquire_lock key opts stale in
      match outcome with
      | LO_Acquired guard | LO_UnlockedAfterTimeout guard => lookup_owned key opts default stale guard
      | LO_Served value => ok (OL_Served (mkObserved (unchanged value) OO_StaleHit (Some CL_Memory)))
      end
  end.

Definition lookup_origin (key : string) (opts : EntryOptions) (kind : OriginKind) (default : bool)
    (lock : OriginLock) : action OriginLookup :=
  let release := drop_optional lock in
  or_release release (ask C_Health) (λ _,
  or_release release (if EntryOptions.skip_memory_read opts then ok L1_Miss else read_l1 inner key) (λ first,
  match first with
  | L1_Fresh e =>
      let* due := match kind with
                  | OK_Factory => let* now := ask C_Now in Ret (Entry.should_eager_refresh e now)
                  | OK_Constant => Ret false
                  end in
      if due then release ;;; ok (OL_Refresh opts e)
      else or_release release (served key e opts CL_Memory) (λ observed, release ;;; ok (OL_Served observed))
  | L1_Stale e => lookup_missed key opts default lock (Some e)
  | L1_Miss => lookup_missed key opts default lock None
  end)).

(** ** The origin's work *)

(** Its report, for the audience its caller left it. *)
Definition report_origin_result (key : string) (result : result CacheError OriginCompletion) (audience : Audience)
    : prog unit :=
  match result with
  | Ok (OC_Factory _) =>
      emit (match audience with
            | AU_Foreground => EV_FactorySuccess key
            | AU_Background => EV_BackgroundFactorySuccess key
            end)
  | Err CE_Factory | Err CE_FactoryWithSource => emit (EV_FactoryError key)
  | _ => Ret tt
  end.

(** The factory, against the loss of its lease. *)
Definition invoke_origin (kind : OriginKind) (ctx : FactoryContext V) (lease : ClusterParticipation)
    : action (FactoryProduct V) :=
  match lease with
  | CP_Cooperative lease | CP_Fenced lease =>
      let* product := ask (C_InvokeLeased kind ctx lease) in
      match product with
      | None => ask (C_CancelOrigin LeaseLostReason) ;;; raise (CE_FactoryCancelled LeaseLostReason)
      | Some product => Ret (map_err from_factory_error product)
      end
  | CP_Local => let* product := ask (C_Invoke kind ctx) in Ret (map_err from_factory_error product)
  end.

(** The eager refresh leaves the token of a lost lease alone. *)
Definition invoke_eager (kind : OriginKind) (ctx : FactoryContext V) (lease : ClusterParticipation)
    : action (FactoryProduct V) :=
  match lease with
  | CP_Cooperative lease | CP_Fenced lease =>
      let* product := ask (C_InvokeLeased kind ctx lease) in
      match product with
      | None => raise (CE_FactoryCancelled LeaseLostReason)
      | Some product => Ret (map_err from_factory_error product)
      end
  | CP_Local => let* product := ask (C_Invoke kind ctx) in Ret (map_err from_factory_error product)
  end.

(** The commit a completion started. *)
Definition completion_value (completion : OriginCompletion) : CacheValue :=
  match completion with OC_Factory v | OC_Constant v | OC_Distributed v => v end.
Definition commit_of (result : result CacheError OriginCompletion) : option MutationReceipt :=
  match result with Ok completion => cached_commit (completion_value completion) | Err _ => None end.

(** An execution's end: its result, and the receipt it dropped. *)
Definition OriginEnd : Type := result CacheError OriginCompletion * option MutationReceipt.

(** A product lost with its lease cancels the execution; any other outcome is
    replaced by the execution's own cancellation, and its receipt dropped: a
    scheduled commit goes on without an observer. *)
Definition settle_product (result : result CacheError OriginCompletion)
    : prog OriginEnd :=
  match result with
  | Err (CE_Lease Lost) => ask (C_CancelOrigin LeaseLostReason) ;;; Ret (result, None)
  | _ =>
      let* live := check in
      match live with Ok _ => Ret (result, None) | Err e => Ret (Err e, commit_of result) end
  end.

Definition origin_work (key : string) (kind : OriginKind) (ctx : FactoryContext V) (started : Timestamp)
    (guard : OriginCommit) : prog OriginEnd :=
  let release := drop_flight (origin_guard guard) in
  let* produced :=
    or_release release check (λ _,
    or_release release (invoke_origin kind ctx (flight_lease (origin_guard guard))) (λ product,
    let* result := store_product inner key product started guard in ok result)) in
  let* ended := match produced with Ok result => settle_product result | Err e => Ret (Err e, None) end in
  let* audience := ask C_Audience in
  report_origin_result key (fst ended) audience ;;;
  Ret ended.

(** ** The budget of an origin *)

(** Everything the work can wait for. *)
Definition awaits (c : Call V) : bool :=
  suspends c
  || match c with
     | C_Invoke _ _ | C_InvokeLeased _ _ _ | C_Encode _ | C_Lane _ | C_InsertAt _ _ _ | C_BackendSet _ _ _
     | C_BackendRemove _ | C_WriteWithLease _ _ _ | C_Publish _ => true
     | _ => false
     end.

(** Work polled under its caller's timer and its own token. At a suspension the
    timer may elapse: the caller goes on and the rest remains, [inr]. Or the
    token is cancelled: the rest is dropped, with the guards it holds. *)
Fixpoint race {A} (timed : bool) (dropped : CancellationReason → A) (work : prog A) : prog (A + prog A) :=
  match work with
  | Ret a => Ret (inl a)
  | Act c k =>
      let continue := Act c (λ x, race timed dropped (k x)) in
      if awaits c then
        let* reason := ask C_PhaseReason in
        match reason with
        | Some r => ask C_DropWork ;;; Ret (inl (dropped r))
        | None =>
            if timed then
              let* elapsed := ask C_Elapsed in
              if elapsed then Ret (inr work) else continue
            else continue
        end
      else continue
  end.

(** ** Fail-safe *)
Definition fallback_entry (opts : EntryOptions) (stale : option Entry) (default : option V) (now : Timestamp)
    : action (option Entry) :=
  let? throttled :=
    match stale with
    | Some stale =>
        let* p := ask C_Alloc in
        let* stamps := ask C_Stamps in
        from from_entry_error (Entry.try_throttled p stamps stale opts now)
    | None => ok None
    end in
  match throttled, default with
  | Some e, _ => ok (Some e)
  | None, None => ok None
  | None, Some value =>
      let? value := copy inner value opts in
      let* p := ask C_Alloc in
      let? e := from from_entry_error (Entry.try_from_fail_safe_default p value opts now) in
      ok (Some e)
  end.

Definition fallback (key : string) (opts : EntryOptions) (stale : option Entry) (default : option V)
    : action (option V) :=
  if negb (EntryOptions.is_fail_safe_enabled opts) then ok None
  else
    let* now := ask C_Now in
    let? e := fallback_entry opts stale default now in
    match e with
    | None => ok None
    | Some e =>
        let? value := copy inner (Entry.value e) opts in
        let? _ := if EntryOptions.skip_memory_write opts then ok tt
                  else let? _ := ask (C_InsertAt key e now) in ok tt in
        emit (EV_FailSafeActivate key) ;;;
        emit (EV_Hit key true) ;;;
        ok (Some value)
    end.

Definition stale_hit (value : V) : Observed CacheValue := mkObserved (unchanged value) OO_StaleHit (Some CL_Memory).
Definition timeout_fallback (key : string) (opts : EntryOptions) (stale : option Entry) (default : option V)
    (timeout : Timeout) : action (Observed CacheValue) :=
  let? value := fallback key opts stale default in
  match value with
  | Some value => ok (stale_hit value)
  | None => raise (CE_FactoryTimeout (duration_of timeout))
  end.

(** ** Computing a value *)
Record OriginMiss := mkMiss {
  miss_raw : string; miss_key : string; miss_kind : OriginKind; miss_options : EntryOptions;
  miss_tags : list Tag; miss_stale : option Entry; miss_default : option V; miss_guard : FlightGuard }.

(** A soft budget is the one a fallback makes safe to miss. *)
Definition origin_budget (miss : OriginMiss) : Timeout * bool :=
  let opts := miss_options miss in
  let has_stale := bool_decide (is_Some (miss_stale miss)) in
  match miss_kind miss with
  | OK_Factory =>
      let timeout := EntryOptions.appropriate_factory_timeout opts has_stale in
      (timeout,
       EntryOptions.is_fail_safe_enabled opts && has_stale
       && bool_decide (timeout = EntryOptions.factory_soft_timeout opts)
       && negb (bool_decide (timeout = EntryOptions.factory_hard_timeout opts)))
  | OK_Constant => (Infinite, false)
  end.

Definition capture_origin (key : string) (guard : FlightGuard) : action OriginCommit :=
  if is_inline inner then
    let? version := ask (C_CaptureMemory key) in ok (mkOriginCommit guard (OV_Memory version))
  else let* fence := ask (C_Snapshot key) in ok (mkOriginCommit guard (OV_Ordered fence)).

Definition origin_context (miss : OriginMiss) : action (FactoryContext V) :=
  let? stale := match miss_kind miss, miss_stale miss with
                | OK_Factory, Some e => let? s := stale_info inner e (miss_options miss) in ok (Some s)
                | _, _ => ok None
                end in
  ok (FactoryContext.with_cancellation (miss_raw miss) (miss_key miss) (miss_options miss) (miss_tags miss) stale).

Definition conclude (miss : OriginMiss) (result : result CacheError OriginCompletion)
    : action (Observed CacheValue) :=
  match result with
  | Ok completion =>
      let '(value, level) := match completion with
                             | OC_Factory value => (value, Some CL_Origin)
                             | OC_Constant value => (value, None)
                             | OC_Distributed value => (value, Some CL_Distributed)
                             end in
      ok (mkObserved value OO_Stored level)
  | Err ((CE_Factory | CE_FactoryWithSource) as e) =>
      let? value := fallback (miss_key miss) (miss_options miss) (miss_stale miss) (miss_default miss) in
      match value with Some value => ok (stale_hit value) | None => raise e end
  | Err e => raise e
  end.

(** What the cache owes after its caller is answered: an origin that outlived
    its caller, an eager refresh, or a commit nobody observes. *)
Inductive Owed :=
| OW_Origin (rest : prog OriginEnd)
| OW_Refresh (rest : action OriginCompletion)
| OW_Commit (receipt : MutationReceipt).

(** The work a timed-out caller leaves: cancelled, or owed by the cache. *)
Definition abandon (opts : EntryOptions) (soft : bool) (rest : prog OriginEnd) : prog (option Owed) :=
  if EntryOptions.allow_timed_out_factory_background_completion opts then Ret (Some (OW_Origin rest))
  else ask (C_CancelOrigin (if soft then SoftTimeout else HardTimeout)) ;;; ask C_DropWork ;;; Ret None.

Definition compute_origin (miss : OriginMiss)
    : prog (result CacheError (Observed CacheValue) * option Owed) :=
  let key := miss_key miss in
  let opts := miss_options miss in
  let '(timeout, soft) := origin_budget miss in
  let timed_out := timeout_fallback key opts (miss_stale miss) (miss_default miss) timeout in
  let answer (work : action (Observed CacheValue)) (owed : option Owed) := let* result := work in Ret (result, owed) in
  if match timeout with After d => is_zero d | Infinite => false end then
    answer (drop_flight (miss_guard miss) ;;; timed_out) None
  else
    ask (C_StartOrigin key) ;;;
    let* prepared := or_release (drop_flight (miss_guard miss))
                       (let? ctx := origin_context miss in
                        let? guard := capture_origin key (miss_guard miss) in
                        ok (ctx, guard)) ok in
    match prepared with
    | Err e => Ret (Err e, None)
    | Ok (ctx, guard) =>
        let* started := ask C_Now in
        let* outcome := race (match timeout with After _ => true | Infinite => false end)
                          (λ reason, (Err (CE_OperationCancelled reason), None))
                          (origin_work key (miss_kind miss) ctx started guard) in
        match outcome with
        | inl (result, dropped) => answer (conclude miss result) (OW_Commit <$> dropped)
        | inr rest =>
            emit (EV_FactorySyntheticTimeout key) ;;;
            let* owed := abandon opts soft rest in
            answer timed_out owed
        end
    end.

(** ** Eager refresh

    Returns the value at hand, and the refresh the cache then owes. *)
Definition eager_work (raw key : string) (opts : EntryOptions) (current : Entry) (tags : list Tag)
    (kind : OriginKind) : action OriginCompletion :=
  let local := Held key in
  or_release (release_local local)
    (if EntryOptions.skip_distributed_locker opts || negb (has_locker inner) then ok None
     else
       let timeout := EntryOptions.distributed_lock_timeout opts in
       let* acquired := ask (C_AcquireLease (lock_key key) timeout) in
       match acquired with
       | Ok (Some lease) => ok (Some lease)
       | Ok None => raise (CE_LockTimeout (duration_of timeout))
       | Err e => raise (CE_Lease e)
       end) (λ lease,
  let guard := flight_guard local lease in
  let release := drop_flight guard in
  let renewed :=
    let? found := read_l2 inner key opts FA_Available in
    match found with
    | None => ok None
    | Some found =>
        if created (Entry.meta (lookup_entry found)) <=? created (Entry.meta current) then ok None
        else
          let* verdict := evaluate_tags inner (lookup_entry found) in
          if bool_decide (verdict = Valid) then
            let* now := ask C_Now in
            if is_fresh (Entry.freshness (lookup_entry found) now) then
              let? _ := hydrate inner key found opts in
              let? value := copy inner (Entry.value (lookup_entry found)) opts in
              ok (Some value)
            else ok None
          else ok None
    end in
  or_release release renewed (λ renewed,
  match renewed with
  | Some value => release ;;; ok (OC_Distributed (unchanged value))
  | None =>
      or_release release
        (let? stale := stale_info inner current opts in
         let? guard := capture_origin key guard in
         let* started := ask C_Now in
         ok (stale, guard, started)) (λ '(stale, guard, started),
      let ctx := FactoryContext.with_invocation
                   (FactoryContext.with_cancellation raw key opts tags (Some stale)) FI_EagerRefresh in
      or_release release (invoke_eager kind ctx (flight_lease (origin_guard guard))) (λ product,
      let* result := store_product inner key product started guard in
      match result with
      | Err (CE_Lease Lost) => ask (C_CancelOrigin LeaseLostReason) ;;; Ret result
      | _ => Ret result
      end))
  end)).

Definition background_origin (key : string) (work : action OriginCompletion) : action OriginCompletion :=
  let? completion := work in
  match completion with
  | OC_Factory _ => emit (EV_BackgroundFactorySuccess key)
  | OC_Constant _ | OC_Distributed _ => Ret tt
  end ;;;
  ok completion.

Definition eager (raw key : string) (opts : EntryOptions) (current : Entry) (tags : list Tag) (kind : OriginKind)
    : prog (option Owed) :=
  let* claimed := ask (C_TryEager key) in
  if claimed then
    emit (EV_EagerRefresh key) ;;;
    Ret (Some (OW_Refresh (background_origin key (eager_work raw key opts current tags kind))))
  else Ret None.

Definition refresh_and_serve (raw key : string) (tags : list Tag) (kind : OriginKind) (opts : EntryOptions)
    (current : Entry) : prog (result CacheError (Observed CacheValue) * option Owed) :=
  let* owed := eager raw key opts current tags kind in
  let* result := served key current opts CL_Memory in
  Ret (result, owed).

(** ** Get or set *)
Definition continue_origin (raw key : string) (kind : OriginKind) (tags : list Tag) (default : option V)
    (lookup : OriginLookup) : prog (result CacheError (Observed CacheValue) * option Owed) :=
  match lookup with
  | OL_Served observed => Ret (Ok observed, None)
  | OL_Refresh options current => refresh_and_serve raw key tags kind options current
  | OL_Origin options stale guard => compute_origin (mkMiss raw key kind options tags stale default guard)
  end.

Definition get_or_set (raw key : string) (kind : OriginKind) (options : option EntryOptions) (tags : list Tag)
    (default : option V) : prog (result CacheError (Observed CacheValue) * option Owed) :=
  let* lookup :=
    (let? opts := resolve_lookup_options inner raw options in
     lookup_origin key opts kind (bool_decide (is_Some default)) None) in
  match lookup with
  | Err e => Ret (Err e, None)
  | Ok lookup => continue_origin raw key kind tags default lookup
  end.
End origin.
#[global] Arguments served : simpl never.
#[global] Arguments acquire_cluster : simpl never.
#[global] Arguments acquire_lock : simpl never.
#[global] Arguments lookup_l2 : simpl never.
#[global] Arguments lookup_owned : simpl never.
#[global] Arguments lookup_missed : simpl never.
#[global] Arguments lookup_origin : simpl never.
#[global] Arguments fallback_entry : simpl never.
#[global] Arguments fallback : simpl never.

(** ** What the lookup found *)
Section lookup.
Context {V : Type} (ci : Inner).
Implicit Types (l : history V) (e : Entry V).

(** A candidate for fail-safe was read and judged like any served entry. *)
Definition candidate l (key : string) (stale : option (Entry V)) : Prop :=
  ∀ e, stale = Some e → ∃ now v, v ≠ Remove ∧ (l1_found ci l key e now v ∨ l2_found ci l key e now v).
(** A value served without an origin, by how it is reported. *)
Definition served_early l (key : string) (opts : EntryOptions) (o : Observed (CacheValue (V := V))) : Prop :=
  cached_commit (observed_value o) = None ∧
  ∃ e now, copied l opts (Entry.value e) (cached_value (observed_value o)) ∧
    match observed_outcome o, observed_level o with
    | OO_Hit, Some CL_Memory => l1_found ci l key e now Valid ∧ Entry.freshness e now = Fresh
    | OO_Hit, Some CL_Distributed => l2_found ci l key e now Valid ∧ Entry.freshness e now = Fresh
    | OO_StaleHit, Some CL_Memory =>
        (∃ v, v ≠ Remove ∧ l1_found ci l key e now v) ∧ EntryOptions.is_fail_safe_enabled opts = true ∧
        ∃ t, Ev (C_AcquireLocal key t) (Ok false) ∈ l
    | _, _ => False
    end.
(** What ownership a guard stands for, as [l] recorded its acquisition; [l']
    is what followed. *)
Definition owned_since l (key : string) (opts : EntryOptions) (guard : FlightGuard) l' : Prop :=
  ∃ t owned, since (Ev (C_AcquireLocal key t) (Ok owned)) l' l ∧
    flight_local guard = (if owned then Held key else UnlockedAfterTimeout) ∧
    (EntryOptions.skip_distributed_locker opts = false → has_locker ci = true → lease_policy ci = LP_Fenced →
     ∃ lease t', flight_lease guard = CP_Fenced lease ∧
       Ev (C_AcquireLease (lock_key ci key) t') (Ok (Some lease)) ∈ l').

Lemma candidate_app l l' key stale : candidate l key stale → candidate (l' ++ l) key stale.
Proof.
  intros Hc e He. destruct (Hc e He) as (now & v & ? & [?|?]); exists now, v; split; [done| |done|].
  - left. by apply l1_found_app.
  - right. by apply l2_found_app.
Qed.
Lemma candidate_app_r l l' key stale : candidate l key stale → candidate (l ++ l') key stale.
Proof.
  intros Hc e He. destruct (Hc e He) as (now & v & ? & [?|?]); exists now, v; split; [done| |done|].
  - left. by apply l1_found_app_r.
  - right. by apply l2_found_app_r.
Qed.
Lemma served_early_app_r l l' key opts o : served_early l key opts o → served_early (l ++ l') key opts o.
Proof.
  intros (Hn & e & now & Hc & Ho). split; [done|]. exists e, now. split; [by apply copied_app_r|].
  destruct (observed_outcome o), (observed_level o) as [[]|]; try done.
  - destruct Ho. split; [by apply l1_found_app_r|done].
  - destruct Ho. split; [by apply l2_found_app_r|done].
  - destruct Ho as ((v & ? & ?) & ? & t & ?). split_and!; [|done|exists t; recorded].
    exists v. split; [done|by apply l1_found_app_r].
Qed.

Lemma served_early_app l l' key opts o : served_early l key opts o → served_early (l' ++ l) key opts o.
Proof.
  intros (Hn & e & now & Hc & Ho). split; [done|]. exists e, now. split; [by apply copied_app|].
  destruct (observed_outcome o), (observed_level o) as [[]|]; try done.
  - destruct Ho. split; [by apply l1_found_app|done].
  - destruct Ho. split; [by apply l2_found_app|done].
  - destruct Ho as ((v & ? & ?) & ? & t & ?). split_and!; [|done|exists t; recorded].
    exists v. split; [done|by apply l1_found_app].
Qed.

Lemma traced_read_l1 key :
  traced (read_l1 ci key) (λ r l, match r with
    | Ok (L1_Fresh e) => ∃ now, l1_found ci l key e now Valid ∧ Entry.freshness e now = Fresh
    | Ok (L1_Stale e) => candidate l key (Some e) ∧ ∃ now v, v ≠ Remove ∧ l1_found ci l key e now v
    | _ => True
    end).
Proof.
  intros h. eapply wp_mono; [apply wp_read_l1|]. intros r h' (l & -> & Hr). exists l. split; [done|].
  destruct r as [[e|e|]|]; [done| |done..]. destruct Hr as (now & v & Hf & Hv & _).
  split; [intros ? [= <-]|]; exists now, v; eauto.
Qed.

Lemma traced_l1_again key :
  traced (read_l1 ci key) (λ r l, ∀ x, r = Ok x → ∃ t found, Ev (C_GetAt key t) (Ok found) ∈ l).
Proof.
  intros h. unfold read_l1, check. wp_run; try (grown; intros ??; do 2 eexists; recorded); try (by grown).
  apply wp_skip. intros v l. destruct v; wp_run; grown; intros ??; do 2 eexists; recorded.
Qed.

Lemma traced_served key e opts level :
  traced (served ci key e opts level) (λ r l, ∀ o, r = Ok o →
    cached_commit (observed_value o) = None ∧ observed_outcome o = OO_Hit ∧ observed_level o = Some level ∧
    copied l opts (Entry.value e) (cached_value (observed_value o))).
Proof.
  unfold served. eapply traced_attempt; [intros h; apply wp_copy|done|]. intros v l Hc.
  eapply traced_bind; [apply traced_any|]. intros [] l' _. apply traced_ret. intros ? [= <-]. split_and!; [done..|].
  cbn. by apply (copied_app).
Qed.

Lemma traced_lookup_l2 key opts default stale :
  traced (lookup_l2 ci key opts default stale) (λ r l, match r with
    | Ok (inl o) => served_early l key opts o
    | Ok (inr stale') => stale' = stale ∨ candidate l key stale'
    | Err _ => True
    end).
Proof.
  unfold lookup_l2. destruct (bool_decide (is_Some stale) && _); [by apply traced_ret; left|].
  eapply traced_attempt; [intros h; apply wp_read_l2|done|]. intros [found|] l; [|intros _; by apply traced_ret; left].
  intros [Hf Hr]. eapply traced_bind; [intros h; apply wp_evaluate_tags|]. intros verdict l1 Hj.
  assert (l2_found ci (l1 ++ l) key (lookup_entry found) (observed_at found) verdict) as F by (by exists l1, l).
  assert (verdict ≠ Remove → traced (let? _ := hydrate ci key found opts in
    if bool_decide (verdict = Valid) && is_fresh (Entry.freshness (lookup_entry found) (observed_at found))
    then let? observed := served ci key (lookup_entry found) opts CL_Distributed in ok (inl observed)
    else ok (inr (Some (newer_of stale (lookup_entry found))))) (λ r l', match r with
    | Ok (inl o) => served_early ((l' ++ l1) ++ l) key opts o
    | Ok (inr stale') => stale' = stale ∨ candidate ((l' ++ l1) ++ l) key stale'
    | Err _ => True end)) as Hrest; [|by destruct verdict; [apply Hrest..|apply traced_ret; left]].
  intros Hv. eapply traced_attempt; [apply traced_any|done|]. intros outcome l2 _.
  destruct (bool_decide (verdict = Valid) && _) eqn:Hfr.
  - apply andb_prop in Hfr as [->%bool_decide_eq_true Hfr].
    eapply traced_attempt; [apply traced_served|done|]. intros o l3 Ho.
    destruct (Ho o eq_refl) as (Hc & Hout & Hlev & Hcp). apply traced_ret. split; [done|].
    exists (lookup_entry found), (observed_at found). rewrite Hout, Hlev. split_and!.
    + rewrite <- !app_assoc. cbn. by apply copied_app_r.
    + rewrite <- (app_assoc _ l1 l). by apply l2_found_app.
    + by destruct (Entry.freshness _ _).
  - apply traced_ret. cbn. rewrite <- app_assoc. unfold newer_of.
    assert (candidate (l2 ++ l1 ++ l) key (Some (lookup_entry found))) as Hcand.
    { apply candidate_app. intros ? [= <-]. eauto. }
    destruct stale as [s|]; [|by right]. case_match; [by left|by right].
Qed.

Lemma owned_since_app l key opts guard l' l2 :
  owned_since l key opts guard l' → owned_since (l2 ++ l) key opts guard (l2 ++ l').
Proof.
  intros (t & owned & Hs & Hl & Hc). exists t, owned. split; [by apply since_app|]. split; [done|].
  intros H1 H2 H3. destruct (Hc H1 H2 H3) as (lease & t' & ? & ?). exists lease, t'. split; [done|recorded].
Qed.
Lemma owned_since_app_r l key opts guard l' l2 :
  owned_since l key opts guard l' → owned_since (l ++ l2) key opts guard l'.
Proof. intros (t & owned & Hs & ?). exists t, owned. split; [by apply since_app_r|done]. Qed.

Lemma traced_acquire_cluster key opts :
  traced (acquire_cluster (V := V) ci key opts) (λ r l, ∀ lease, r = Ok lease →
    EntryOptions.skip_distributed_locker opts = false → has_locker ci = true → lease_policy ci = LP_Fenced →
    ∃ name t, lease = Some name ∧ Ev (C_AcquireLease (lock_key ci key) t) (Ok (Some name)) ∈ l).
Proof.
  unfold acquire_cluster. destruct (EntryOptions.skip_distributed_locker opts), (has_locker ci); cbn [orb negb];
    try (by apply traced_ret).
  eapply traced_bind; [by apply (traced_call (C_AcquireLease (lock_key ci key) _))|]. intros [[name|]|e] ? ->.
  - apply traced_ret. intros ? [= <-] _ _ _. do 2 eexists. split; [done|recorded].
  - by apply traced_ret.
  - destruct (lease_policy ci); [rewrite orb_true_r; by apply traced_ret|].
    destruct (_ || _); by apply traced_ret.
Qed.

Lemma traced_acquire_lock key opts stale :
  traced (acquire_lock ci key opts stale) (λ r l, match r with
    | Ok (LO_Acquired guard | LO_UnlockedAfterTimeout guard) => ∃ l', owned_since l key opts guard l'
    | Ok (LO_Served v) => ∃ e t, stale = Some e ∧ EntryOptions.is_fail_safe_enabled opts = true ∧
        Ev (C_AcquireLocal key t) (Ok false) ∈ l ∧ copied l opts (Entry.value e) v
    | Err _ => True
    end).
Proof.
  unfold acquire_lock. cbv zeta. match goal with |- context [C_AcquireLocal key ?t] => generalize t; intros timeout end.
  eapply traced_attempt; [by apply (traced_call (C_AcquireLocal key timeout))|done|]. intros owned l ->.
  assert (∀ local, local = (if owned then Held key else UnlockedAfterTimeout) →
    traced (or_release (release_local local) (acquire_cluster ci key opts) (λ lease,
      ok (match local with UnlockedAfterTimeout => LO_UnlockedAfterTimeout (flight_guard ci local lease)
          | _ => LO_Acquired (flight_guard ci local lease) end))) (λ r l', match r with
    | Ok (LO_Acquired guard | LO_UnlockedAfterTimeout guard) =>
        ∃ l'', owned_since (l' ++ [Ev (C_AcquireLocal key timeout) (Ok owned)]) key opts guard l''
    | Ok (LO_Served v) => ∃ e t, stale = Some e ∧ EntryOptions.is_fail_safe_enabled opts = true ∧
        Ev (C_AcquireLocal key t) (Ok false) ∈ l' ++ [Ev (C_AcquireLocal key timeout) (Ok owned)] ∧
        copied (l' ++ [Ev (C_AcquireLocal key timeout) (Ok owned)]) opts (Entry.value e) v
    | Err _ => True end)) as Hpart.
  { intros local Hlocal. eapply traced_or_release; [unfold release_local; footprint|apply traced_acquire_cluster|done|].
    intros lease l1 Hlease. apply traced_ret. cbn [app].
    assert (owned_since (l1 ++ [Ev (C_AcquireLocal key timeout) (Ok owned)]) key opts (flight_guard ci local lease) l1) as Ho.
    { exists timeout, owned. split; [rewrite <- (app_nil_r l1) at 1; apply since_app, since_now|]. split; [by subst|].
      intros H1 H2 H3. destruct (Hlease lease eq_refl H1 H2 H3) as (name & t & -> & Hin).
      exists name, t. cbn. rewrite H3. done. }
    destruct local; by exists l1. }
  destruct owned; [by apply Hpart|]. destruct stale as [e|]; [|by apply Hpart].
  destruct (EntryOptions.is_fail_safe_enabled opts) eqn:Hfs; [|by apply Hpart].
  eapply traced_bind; [apply traced_any|]. intros [] l1 _.
  eapply traced_attempt; [intros h; apply wp_copy|done|]. intros v l2 Hc. apply traced_ret. cbn.
  exists e, timeout. split_and!; [done..|recorded|]. rewrite <- app_assoc. by apply copied_app_r.
Qed.

Lemma traced_lookup_rest key opts default stale guard :
  traced (or_release (drop_flight guard) (lookup_l2 ci key opts default stale) (λ rest,
    match rest with
    | inl observed => drop_flight guard ;;; ok (OL_Served observed)
    | inr stale => ok (OL_Origin opts stale guard)
    end)) (λ r l, ∀ l0, candidate l0 key stale →
    match r with
    | Ok (OL_Served o) => served_early l key opts o
    | Ok (OL_Origin opts' stale' guard') => opts' = opts ∧ guard' = guard ∧ candidate (l ++ l0) key stale'
    | Ok (OL_Refresh _ _) => False
    | Err _ => True
    end).
Proof.
  eapply traced_or_release; [unfold drop_flight; footprint|apply traced_lookup_l2|done|].
  intros [o|stale'] l1 Hr.
  - eapply traced_bind; [apply traced_any|]. intros [] l2 _. apply traced_ret. intros l0 _. cbn. by apply served_early_app.
  - apply traced_ret. intros l0 Hl0. cbn. split_and!; [done..|].
    destruct Hr as [->|Hr]; [by apply candidate_app|by apply candidate_app_r].
Qed.

Lemma traced_lookup_owned key opts default stale guard :
  traced (lookup_owned ci key opts default stale guard) (λ r l, ∀ l0, candidate l0 key stale →
    match r with
    | Ok (OL_Served o) => served_early l key opts o
    | Ok (OL_Origin opts' stale' guard') => opts' = opts ∧ guard' = guard ∧ candidate (l ++ l0) key stale' ∧
        (EntryOptions.skip_memory_read opts = false → ∃ t found, Ev (C_GetAt key t) (Ok found) ∈ l)
    | Ok (OL_Refresh _ _) => False
    | Err _ => True
    end).
Proof.
  unfold lookup_owned. cbv zeta. eapply (traced_or_release _ _ _ (λ r l,
    match r with
    | Ok (L1_Fresh e) => ∃ now, l1_found ci l key e now Valid ∧ Entry.freshness e now = Fresh
    | Ok (L1_Stale e) => candidate l key (Some e)
    | _ => True
    end ∧ (EntryOptions.skip_memory_read opts = false → ∀ x, r = Ok x → ∃ t found, Ev (C_GetAt key t) (Ok found) ∈ l)));
    [unfold drop_flight; footprint| |done|].
  { destruct (EntryOptions.skip_memory_read opts); [by apply traced_ret|].
    eapply traced_mono; [apply traced_and; [apply traced_read_l1|apply traced_l1_again]|].
    intros [[e|e|]|] l [Hr Hg]; (split; [|by auto]); try done. by destruct Hr. }
  intros second l [Hsecond Hget].
  assert (∀ l1, EntryOptions.skip_memory_read opts = false → ∃ t found, Ev (C_GetAt key t) (Ok found) ∈ l1 ++ l) as Hagain.
  { intros l1 Hs. destruct (Hget Hs _ eq_refl) as (t & found & ?). exists t, found. recorded. }
  destruct second as [e|e|].
  - destruct Hsecond as (now & Hf & Hfr). eapply traced_or_release; [unfold drop_flight; footprint|apply traced_served|done|].
    intros o l1 Ho. destruct (Ho o eq_refl) as (Hc & Hout & Hlev & Hcp).
    eapply traced_bind; [apply traced_any|]. intros [] l2 _. apply traced_ret. intros l0 _. split; [done|].
    exists e, now. rewrite Hout, Hlev. cbn. split_and!; [|by apply l1_found_app|done].
    apply copied_app_r, copied_app, Hcp.
  - eapply traced_mono; [apply traced_lookup_rest|]. intros r l1 Hr l0 Hl0.
    specialize (Hr l (Hsecond : candidate l key (Some e))). destruct r as [[o|? ?|? ? ?]|]; [|done| |done].
    + by apply served_early_app_r.
    + destruct Hr as (? & ? & ?). split_and!; [done..| |by apply Hagain]. by apply candidate_app_r.
  - eapply traced_mono; [apply traced_lookup_rest|]. intros r l1 Hr l0 Hl0.
    specialize (Hr (l ++ l0)). destruct r as [[o|? ?|? ? ?]|]; [| | |done].
    + apply served_early_app_r, Hr. by apply candidate_app.
    + apply Hr. by apply candidate_app.
    + destruct Hr as (? & ? & ?); [by apply candidate_app|]. split_and!; [done..| |by apply Hagain]. by rewrite <- app_assoc.
Qed.

(** What a lookup hands on. *)
Definition looked_up l (key : string) (opts : EntryOptions) (kind : OriginKind) (lock : OriginLock)
    (r : result CacheError (OriginLookup (V := V))) : Prop :=
  match r with
  | Ok (OL_Served o) => served_early l key opts o
  | Ok (OL_Refresh opts' e) => opts' = opts ∧ kind = OK_Factory ∧
      ∃ now t, l1_found ci l key e now Valid ∧ Entry.freshness e now = Fresh ∧
        Ev C_Now t ∈ l ∧ Entry.should_eager_refresh e t = true
  | Ok (OL_Origin opts' stale guard) => opts' = opts ∧ candidate l key stale ∧
      match lock with
      | Some held => guard = held
      | None => ∃ l', owned_since l key opts guard l' ∧
          (EntryOptions.skip_memory_read opts = false → ∃ t found, Ev (C_GetAt key t) (Ok found) ∈ l')
      end
  | Err _ => True
  end.

Lemma looked_up_app_r l l' key opts kind lock r :
  looked_up l key opts kind lock r → looked_up (l ++ l') key opts kind lock r.
Proof.
  destruct r as [[o|opts' e|opts' stale guard]|]; [| | |done]; cbn.
  - apply served_early_app_r.
  - intros (? & ? & now & t & ? & ? & ? & ?). split_and!; [done..|]. exists now, t.
    split_and!; [by apply l1_found_app_r|done|recorded|done].
  - intros (? & ? & Hg). split_and!; [done|by apply candidate_app_r|]. destruct lock; [done|].
    destruct Hg as (l1 & ? & ?). exists l1. split; [by apply owned_since_app_r|done].
Qed.

Lemma traced_lookup_missed key opts kind default lock stale :
  traced (lookup_missed ci key opts default lock stale) (λ r l, ∀ l0,
    (∀ e, stale = Some e → ∃ now v, v ≠ Remove ∧ l1_found ci l0 key e now v) →
    looked_up (l ++ l0) key opts kind lock r).
Proof.
  assert (∀ l0, (∀ e, stale = Some e → ∃ now v, v ≠ Remove ∧ l1_found ci l0 key e now v) → candidate l0 key stale) as Hcand.
  { intros l0 H e He. destruct (H e He) as (now & v & ? & ?). exists now, v. auto. }
  unfold lookup_missed. eapply traced_bind; [apply traced_any|]. intros [] l1 _. destruct lock as [guard|].
  - eapply traced_mono; [apply traced_lookup_owned|]. intros r l Hr l0 Hl0.
    specialize (Hr (l1 ++ l0)). rewrite <- app_assoc. destruct r as [[o|? ?|? ? ?]|]; [| | |done]; cbn.
    + apply served_early_app_r, Hr, candidate_app. auto.
    + destruct Hr. apply candidate_app. auto.
    + destruct Hr as (-> & -> & Hs & _); [apply candidate_app; auto|]. done.
  - eapply traced_attempt; [apply traced_acquire_lock|done|].
    assert (∀ guard l, (∃ l', owned_since l key opts guard l') →
      traced (lookup_owned ci key opts default stale guard) (λ r l', ∀ l0,
        (∀ e, stale = Some e → ∃ now v, v ≠ Remove ∧ l1_found ci l0 key e now v) →
        looked_up (((l' ++ l) ++ l1) ++ l0) key opts kind None r)) as Howned.
    { intros guard l (l' & Hl'). eapply traced_mono; [apply traced_lookup_owned|]. intros r l2 Hr l0 Hl0.
      specialize (Hr (l ++ l1 ++ l0)). rewrite <- !app_assoc. destruct r as [[o|? ?|? ? ?]|]; [| | |done]; cbn.
      - apply served_early_app_r, Hr. do 2 apply candidate_app. auto.
      - destruct Hr. do 2 apply candidate_app. auto.
      - destruct Hr as (-> & -> & Hs & Hget); [do 2 apply candidate_app; auto|]. split_and!; [done..|].
        exists (l2 ++ l'). split; [by apply owned_since_app, owned_since_app_r|].
        intros Hsk. destruct (Hget Hsk) as (t & found & ?). exists t, found. recorded. }
    intros [guard|guard|v] l Hl; [by apply Howned..|]. apply traced_ret. intros l0 Hl0.
    destruct Hl as (e & t & He & Hfs & Hloc & Hc). destruct (Hl0 e He) as (now & verdict & Hv & Hf).
    split; [done|]. exists e, now. cbn. split_and!; [by do 2 apply copied_app_r| |done|exists t; recorded].
    exists verdict. split; [done|]. by apply l1_found_app.
Qed.

(** A fresh first look: an eager refresh when one is due, or the value. *)
Lemma traced_lookup_fresh key e opts kind lock now l0 :
  l1_found ci l0 key e now Valid → Entry.freshness e now = Fresh →
  traced (let* due := match kind with
                      | OK_Factory => let* now := call C_Now in Ret (Entry.should_eager_refresh e now)
                      | OK_Constant => Ret false
                      end in
          if due then drop_optional lock ;;; ok (OL_Refresh opts e)
          else or_release (drop_optional lock) (served ci key e opts CL_Memory) (λ observed,
            drop_optional lock ;;; ok (OL_Served observed)))
    (λ r l, looked_up (l ++ l0) key opts kind lock r).
Proof.
  intros Hf Hfr. eapply (traced_bind _ _ (λ due l, due = true →
    kind = OK_Factory ∧ ∃ t, Ev C_Now t ∈ l ∧ Entry.should_eager_refresh e t = true)).
  { destruct kind; [|by apply traced_ret]. eapply traced_bind; [by apply (traced_call C_Now)|].
    intros t ? ->. apply traced_ret. intros Hd. split; [done|]. exists t. split; [recorded|done]. }
  intros [|] l Hdue.
  - destruct (Hdue eq_refl) as (-> & t & Ht & Hs). eapply traced_bind; [apply traced_any|]. intros [] l1 _.
    apply traced_ret. cbn. split_and!; [done..|]. exists now, t. split_and!; [|done|recorded|done].
    by apply l1_found_app.
  - eapply traced_or_release; [footprint|apply traced_served|done|]. intros o l1 Ho.
    destruct (Ho o eq_refl) as (Hc & Hout & Hlev & Hcp). eapply traced_bind; [apply traced_any|]. intros [] l2 _.
    apply traced_ret. cbn. split; [done|]. exists e, now. rewrite Hout, Hlev, <- !app_assoc.
    split_and!; [by apply copied_app, copied_app_r|by do 3 apply l1_found_app|done].
Qed.

Lemma traced_lookup_origin key opts kind default lock :
  traced (lookup_origin ci key opts kind default lock) (λ r l, looked_up l key opts kind lock r).
Proof.
  unfold lookup_origin. cbv zeta. eapply traced_or_release; [footprint|apply traced_any|done|]. intros ? l _.
  eapply (traced_or_release _ _ _ (λ r l,
    match r with
    | Ok (L1_Fresh e) => ∃ now, l1_found ci l key e now Valid ∧ Entry.freshness e now = Fresh
    | Ok (L1_Stale e) => ∃ now v, v ≠ Remove ∧ l1_found ci l key e now v
    | _ => True
    end)); [footprint| |done|].
  { destruct (EntryOptions.skip_memory_read opts); [by apply traced_ret|].
    eapply traced_mono; [apply traced_read_l1|]. intros [[e|e|]|] l1; try done. by intros [_ ?]. }
  intros [e|e|] l1 Hfirst.
  - destruct Hfirst as (now & Hf & Hfr). eapply traced_mono; [by eapply traced_lookup_fresh|].
    intros r l2 Hr. by apply looked_up_app_r.
  - eapply traced_mono; [apply traced_lookup_missed|]. intros r l2 Hr. apply looked_up_app_r, Hr. by intros ? [= <-].
  - eapply traced_mono; [apply traced_lookup_missed|]. intros r l2 Hr. apply looked_up_app_r, Hr. done.
Qed.
End lookup.

(** ** The fallback *)
Section fallback.
Context {V : Type} (ci : Inner).
Implicit Types (l : history V).

(** A stale entry fail-safe cannot use: there is none, or a fence or the clock
    forbids it. *)
Definition unusable l (stale : option (Entry V)) (now : Timestamp) : Prop :=
  stale = None ∨ ∃ s stamps, stale = Some s ∧ Ev C_Stamps stamps ∈ l ∧
    (Entry.is_read_eligible stamps s = false ∨ Entry.is_physically_expired s now = true).
(** The entry fail-safe serves: the stale one inserted again, its physical end
    kept and its freshness throttled within it, or the call's default, whose
    lifetime starts now. *)
Definition throttled_inner (s : Entry V) (opts : EntryOptions) (now : Timestamp) : EntryInner V :=
  let m := Entry.meta s in
  mkInner (Entry.value s)
    (m <| inserted_at := now |>
       <| logical_expiration := Z.min (saturating_add now (EntryOptions.fail_safe_throttle_duration opts)) (physical_expiration m) |>
       <| meta_backend_ttl := saturating_duration_since (physical_expiration m) now |>
       <| origin := EO_FailSafe |>)
    (eligibility (inner s)).
Definition default_inner (v : V) (size : option EntryWeight) (opts : EntryOptions) (now : Timestamp) : EntryInner V :=
  let physical := saturating_add now (EntryOptions.physical_ttl opts) in
  mkInner v
    {| created := now; inserted_at := now;
       logical_expiration := Z.min (saturating_add now (EntryOptions.fail_safe_throttle_duration opts)) physical;
       physical_expiration := physical; meta_backend_ttl := EntryOptions.physical_ttl opts;
       origin := EO_FailSafe; etag := None; last_modified := None; tags := [];
       retention := RM_Specified size (EntryOptions.priority opts) |} EL_Local.
Definition fail_safe_entry l (opts : EntryOptions) (stale : option (Entry V)) (default : option V)
    (now : Timestamp) (e : Entry V) : Prop :=
  (∃ s stamps, stale = Some s ∧ Ev C_Stamps stamps ∈ l ∧ Entry.is_read_eligible stamps s = true ∧
     Entry.is_physically_expired s now = false ∧ inner e = throttled_inner s opts now) ∨
  (∃ d v size, default = Some d ∧ unusable l stale now ∧ copied l opts d v ∧ EntryOptions.size opts = Ok size ∧
     inner e = default_inner v size opts now).

Lemma copied_incl l l' opts (v v' : V) : l ⊆ l' → copied l opts v v' → copied l' opts v v'.
Proof. intros Hl [?|?]; [by left|right; by apply Hl]. Qed.
Lemma unusable_incl l l' stale now : l ⊆ l' → unusable l stale now → unusable l' stale now.
Proof. intros Hl [?|(s & st & ? & ? & ?)]; [by left|right]. exists s, st. auto. Qed.
Lemma fail_safe_entry_incl l l' opts stale default now e :
  l ⊆ l' → fail_safe_entry l opts stale default now e → fail_safe_entry l' opts stale default now e.
Proof.
  intros Hl [(s & st & ? & ? & ?)|(d & v & size & ? & ? & ? & ?)]; [left; exists s, st; auto|].
  right. exists d, v, size. split_and!; [done|by eapply unusable_incl|by eapply copied_incl|tauto..].
Qed.

Lemma traced_throttled opts stale now :
  traced (match stale with
    | Some stale => let* p := call C_Alloc in let* stamps := call C_Stamps in
        from from_entry_error (Entry.try_throttled p stamps stale opts now)
    | None => ok (E := CacheError) None end)
    (λ r l, match r with
      | Ok (Some e) => fail_safe_entry l opts stale None now e
      | Ok None => unusable l stale now
      | Err _ => True
      end).
Proof.
  destruct stale as [s|]; [|apply traced_ret; by left].
  eapply traced_bind; [apply traced_any|]. intros p l0 _. eapply traced_bind; [by apply (traced_call C_Stamps)|]. intros st l ->.
  unfold from. destruct (Entry.try_throttled p st s opts now) as [[e|]|] eqn:Ht; apply traced_ret; [| |done].
  - apply throttled_inv in Ht as (_ & Hel & Hp & ->). left. exists s, st. split_and!; [done|recorded|done|done|].
    unfold throttled_inner. cbn. by destruct (Entry.meta s).
  - right. exists s, st. split; [done|]. split; [recorded|]. unfold Entry.try_throttled in Ht.
    apply result_bind_ok in Ht as (u & _ & Ht). destruct (Entry.is_read_eligible st s), (Entry.is_physically_expired s now); auto.
    discriminate Ht.
Qed.
Lemma traced_fallback_entry opts stale default now :
  traced (fallback_entry ci opts stale default now) (λ r l, match r with
    | Ok (Some e) => fail_safe_entry l opts stale default now e
    | Ok None => unusable l stale now ∧ default = None
    | Err _ => True
    end).
Proof.
  unfold fallback_entry. eapply traced_attempt; [apply traced_throttled|done|].
  intros throttled l Ht. destruct throttled as [e|].
  { apply traced_ret. destruct Ht as [?|(d & v & size & ? & _)]; [by left|done]. }
  destruct default as [d|]; [|by apply traced_ret].
  eapply traced_attempt; [intros h; apply wp_copy|by intros|]. intros v l1 Hc.
  eapply traced_bind; [apply traced_any|]. intros p l2 _. unfold from.
  destruct (Entry.try_from_fail_safe_default p v opts now) as [e|] eqn:He; [|by apply traced_ret].
  eapply traced_attempt; [by apply (traced_ret _ (λ r _, r = Ok e))|done|]. intros ? l3 [= ->].
  apply traced_ret. right. unfold Entry.try_from_fail_safe_default in He.
  apply result_bind_ok in He as (size & Hs & [= <-]). exists d, v, size. split_and!; try done.
  - eapply unusable_incl; [|exact Ht]. set_solver.
  - rewrite <- !app_assoc. apply copied_app, copied_app, copied_app, copied_app_r, Hc.
  - unfold config in Hs. destruct (EntryOptions.size opts); by simplify_eq/=.
Qed.

Lemma traced_stale_fallback key opts stale default :
  traced (fallback ci key opts stale default) (λ r l,
    (EntryOptions.is_fail_safe_enabled opts = false → r = Ok None ∧ l = []) ∧
    (EntryOptions.is_fail_safe_enabled opts = true → r = Ok None →
       default = None ∧ ∃ now, Ev C_Now now ∈ l ∧ unusable l stale now) ∧
    ∀ v, r = Ok (Some v) → ∃ now e, Ev C_Now now ∈ l ∧ fail_safe_entry l opts stale default now e ∧
      copied l opts (Entry.value e) v ∧
      (EntryOptions.skip_memory_write opts = false → ∃ a, Ev (C_InsertAt key e now) (Ok a) ∈ l)).
Proof.
  unfold fallback. destruct (EntryOptions.is_fail_safe_enabled opts); cbn [negb]; [|by apply traced_ret].
  eapply (traced_mono _ (λ r l, (r = Ok None → default = None ∧ ∃ now, Ev C_Now now ∈ l ∧ unusable l stale now) ∧
    ∀ v, r = Ok (Some v) → ∃ now e, Ev C_Now now ∈ l ∧ fail_safe_entry l opts stale default now e ∧
      copied l opts (Entry.value e) v ∧
      (EntryOptions.skip_memory_write opts = false → ∃ a, Ev (C_InsertAt key e now) (Ok a) ∈ l)));
    [|intros r l [? ?]; split; [discriminate|by split]].
  eapply traced_bind; [by apply (traced_call C_Now)|]. intros now l0 ->.
  eapply traced_attempt; [apply traced_fallback_entry|done|]. intros [e|] l Hentry.
  2: { apply traced_ret. split; [|done]. intros _. destruct Hentry as [Hu ->]. split; [done|]. exists now. split; [recorded|].
       eapply unusable_incl; [|exact Hu]. set_solver. }
  eapply traced_attempt; [intros h; apply wp_copy|by intros|]. intros v l1 Hc.
  eapply (traced_attempt _ _ (λ r l, r = Ok tt → EntryOptions.skip_memory_write opts = false →
    ∃ a, Ev (C_InsertAt key e now) (Ok a) ∈ l)); [|done|].
  { destruct (EntryOptions.skip_memory_write opts); [by apply traced_ret|].
    eapply traced_attempt; [by apply (traced_call (C_InsertAt key e now))|done|]. intros a ? ->.
    apply traced_ret. intros _ _. exists a. recorded. }
  intros [] l2 Hins. eapply traced_bind; [apply traced_any|]. intros [] l3 _.
  eapply traced_bind; [apply traced_any|]. intros [] l4 _. apply traced_ret. split; [done|].
  intros ? [= <-]. exists now, e. split_and!; [recorded| | |].
  - eapply fail_safe_entry_incl; [|exact Hentry]. set_solver.
  - eapply copied_incl; [|exact Hc]. set_solver.
  - intros Hs. destruct (Hins eq_refl Hs) as [a ?]. exists a. recorded.
Qed.
End fallback.

(** ** What get-or-set answers with *)
Section answers.
Context {V : Type} (ci : Inner).
Implicit Types (l : history V).

(** The factory ran, once its caller missed, and answered [product]. *)
Definition invoked l (kind : OriginKind) (ctx : FactoryContext V) (product : FactoryProduct V) : Prop :=
  Ev (C_Invoke kind ctx) (Ok product) ∈ l ∨
  ∃ lease, Ev (C_InvokeLeased kind ctx lease) (Some (Ok product)) ∈ l.

(** [completion] hands out a copy of the product's payload, with its receipt. *)
Definition product_kept l (product : FactoryProduct V) (completion : OriginCompletion (V := V)) : Prop :=
  ∃ payload receipt, into_payload product = Ok payload ∧
    copied l (payload_options payload) (payload_value payload) (cached_value (completion_value completion)) ∧
    cached_commit (completion_value completion) = Some receipt ∧
    match completion with
    | OC_Factory _ => payload_origin payload ≠ PO_Constant
    | OC_Constant _ => payload_origin payload = PO_Constant
    | OC_Distributed _ => False
    end.
Definition computed l kind ctx (completion : OriginCompletion (V := V)) : Prop :=
  ∃ product, invoked l kind ctx product ∧ product_kept l product completion.

Lemma product_kept_incl l l' product c : l ⊆ l' → product_kept l product c → product_kept l' product c.
Proof.
  intros Hl (p & r & ? & Hc & ?). exists p, r. split; [done|]. split; [by eapply copied_incl|done].
Qed.
Lemma computed_incl l l' kind ctx c : l ⊆ l' → computed l kind ctx c → computed l' kind ctx c.
Proof.
  intros Hl (p & Hi & Hk). exists p. split; [|by eapply product_kept_incl].
  destruct Hi as [Hi|[lease Hi]]; [left|right; exists lease]; by apply Hl.
Qed.

Lemma touches_drop_flight flight : touches (V := V) [K_Release] (drop_flight flight).
Proof. unfold drop_flight. footprint. Qed.
#[local] Hint Resolve touches_drop_flight : footprint.

Lemma traced_store_product key product started guard :
  traced (store_product ci key product started guard) (λ r l, ∀ c, r = Ok c → product_kept l product c).
Proof.
  unfold store_product. eapply (traced_or_release _ _ _ (λ r l, ∀ p v e, r = Ok (p, v, e) →
    into_payload product = Ok p ∧ copied l (payload_options p) (payload_value p) v)); [footprint| |done|].
  { unfold from. destruct (into_payload product) as [p|] eqn:Hp; [|by apply traced_ret].
    eapply traced_attempt; [by apply (traced_ret _ (λ r _, r = Ok p))|done|]. intros ? l0 [= ->].
    do 2 (eapply traced_attempt; [apply traced_any|done|]; intros ? ? _).
    eapply traced_attempt; [intros h; apply wp_copy|by intros|]. intros v l3 Hv.
    do 2 (eapply traced_attempt; [apply traced_any|by intros|]; intros ? ? _).
    apply traced_ret. intros ??? [= <- <- <-]. split; [done|].
    eapply copied_incl; [|exact Hv]. set_solver. }
  intros [[p v] e] l Hp. destruct (Hp p v e eq_refl) as [Hpay Hc].
  eapply traced_attempt; [apply traced_any|done|]. intros receipt l1 _.
  eapply traced_bind; [apply traced_any|]. intros [] l2 _. apply traced_ret.
  intros c Hcc. exists p, receipt. split; [done|].
  split; [|by destruct (payload_origin p) eqn:Ho; simplify_eq/=].
  assert (cached_value (completion_value c) = v) as -> by (destruct (payload_origin p); injection Hcc as <-; done).
  eapply copied_incl; [|exact Hc]. set_solver.
Qed.

Lemma traced_invoke_origin kind ctx lease :
  traced (invoke_origin (V := V) kind ctx lease) (λ r l, ∀ product, r = Ok product → invoked l kind ctx product).
Proof.
  assert (∀ r (product : FactoryProduct V), map_err from_factory_error r = Ok product → r = Ok product) as Hm
    by (intros [] ? [=]; by subst).
  unfold invoke_origin. destruct lease as [|lease|lease].
  - eapply traced_bind; [by apply (traced_call (C_Invoke kind ctx))|]. intros r ? ->. apply traced_ret.
    intros p ->%Hm. left. recorded.
  - eapply traced_bind; [by apply (traced_call (C_InvokeLeased kind ctx lease))|]. intros [r|] ? ->.
    + apply traced_ret. intros p ->%Hm. right. exists lease. recorded.
    + eapply traced_bind; [apply traced_any|]. intros ???. by apply traced_ret.
  - eapply traced_bind; [by apply (traced_call (C_InvokeLeased kind ctx lease))|]. intros [r|] ? ->.
    + apply traced_ret. intros p ->%Hm. right. exists lease. recorded.
    + eapply traced_bind; [apply traced_any|]. intros ???. by apply traced_ret.
Qed.

Lemma traced_origin_work key kind ctx started guard :
  traced (origin_work ci key kind ctx started guard) (λ (o : OriginEnd (V := V)) l, ∀ c, o.1 = Ok c → computed l kind ctx c).
Proof.
  unfold origin_work. cbv zeta.
  eapply (traced_bind _ _ (λ r l, ∀ c, r = Ok (Ok c) → computed l kind ctx c)).
  - eapply traced_or_release; [footprint|apply traced_any|done|]. intros _ l0 _.
    eapply traced_or_release; [footprint|apply traced_invoke_origin|done|]. intros product l1 Hi.
    eapply traced_bind; [apply traced_store_product|]. intros r l2 Hr. apply traced_ret.
    intros c [= ->]. exists product. split.
    + destruct (Hi _ eq_refl) as [?|[lease ?]]; [left; recorded|right; exists lease; recorded].
    + eapply product_kept_incl; [|by apply Hr]. set_solver.
  - intros produced l Hp.
    eapply (traced_bind _ _ (λ (o : OriginEnd (V := V)) l', ∀ c, o.1 = Ok c → produced = Ok (Ok c))).
    + destruct produced as [r|e]; [|by apply traced_ret]. unfold settle_product.
      assert (traced (V := V) (let* live := check in
        match live with Ok _ => Ret (r, None) | Err e => Ret (Err e, commit_of r) end)
        (λ (o : OriginEnd (V := V)) _, ∀ c, o.1 = Ok c → Ok r = Ok (Ok c) :> result CacheError _)) as Hcheck.
      { eapply traced_bind; [apply traced_any|]. intros [|] ? _; apply traced_ret; cbn; [by intros c ->|done]. }
      destruct r as [c|e]; [exact Hcheck|].
      destruct e as [| | |[]| | | | | | | | | | | | | | | | | | | | | | | | | | |]; try exact Hcheck.
      eapply traced_bind; [apply traced_any|]. intros ???. by apply traced_ret.
    + intros o l1 Ho. do 2 (eapply traced_bind; [apply traced_any|]; intros ? ? _). apply traced_ret.
      intros c Hc. eapply computed_incl; [|by apply Hp, Ho]. set_solver.
Qed.

(** The budget's accesses are not recorded: what the work says, its race says. *)
Lemma traced_race {A} timed dropped (work : prog (answer (V := V)) A) R :
  traced work R →
  traced (race timed dropped work) (λ r l, match r with inl a => R a l ∨ ∃ reason, a = dropped reason | inr _ => True end).
Proof.
  intros Hw h. specialize (Hw h). revert h Hw.
  enough (∀ l0 h, wp (world V) work (l0 ++ h) (λ a h', ∃ l, h' = l ++ h ∧ R a l) →
    wp (world V) (race timed dropped work) (l0 ++ h) (λ r h', ∃ l, h' = l ++ h ∧
      match r with inl a => R a l ∨ ∃ reason, a = dropped reason | inr _ => True end)) as H by (intros h; apply (H [])).
  induction work as [a|c k IH]; intros l0 h Hw; cbn [race].
  { destruct Hw as (l & Hl & ?). exists l. eauto. }
  assert (wp (world V) (Act c (λ x, race timed dropped (k x))) (l0 ++ h) (λ r h', ∃ l, h' = l ++ h ∧
      match r with inl a => R a l ∨ ∃ reason, a = dropped reason | inr _ => True end)) as Hgo.
  { intros x s' Hs. specialize (Hw x s' Hs). cbv [allows world any record] in Hs.
    destruct (negb (is_budget c)); subst s'; [exact (IH x (_ :: l0) h Hw)|exact (IH x l0 h Hw)]. }
  destruct (awaits c); [|exact Hgo].
  intros [reason|] s' ->; cbn [record is_budget negb].
  - intros [] s' ->. exists (Ev C_DropWork tt :: l0). eauto.
  - destruct timed; [|exact Hgo]. intros [|] s' ->; [by exists l0|exact Hgo].
Qed.

(** *** The whole request *)

(** Fail-safe answers with a stale hit, an entry it may serve. *)
Definition fell_back l (opts : EntryOptions) stale default (o : Observed (CacheValue (V := V))) : Prop :=
  EntryOptions.is_fail_safe_enabled opts = true ∧
  ∃ now e v, Ev C_Now now ∈ l ∧ fail_safe_entry l opts stale default now e ∧ copied l opts (Entry.value e) v ∧
    o = stale_hit v.
Definition completion_level (c : OriginCompletion (V := V)) : option CacheLevel :=
  match c with OC_Factory _ => Some CL_Origin | OC_Constant _ => None | OC_Distributed _ => Some CL_Distributed end.
(** The origin's product, run on the request's own context. *)
Definition produced l raw key kind opts tags stale (o : Observed (CacheValue (V := V))) : Prop :=
  ∃ info c, computed l kind (FactoryContext.with_cancellation raw key opts tags info) c ∧
    o = mkObserved (completion_value c) OO_Stored (completion_level c) ∧
    (∀ s, info = Some s → ∃ e : Entry V, stale = Some e ∧ kind = OK_Factory ∧
       copied l opts (Entry.value e) (stale_value s)).

Lemma fell_back_incl l l' opts stale default o :
  l ⊆ l' → fell_back l opts stale default o → fell_back l' opts stale default o.
Proof.
  intros Hl (? & now & e & v & ? & ? & ? & ?). split; [done|]. exists now, e, v.
  split_and!; [by apply Hl|by eapply fail_safe_entry_incl|by eapply copied_incl|done].
Qed.

Lemma traced_fell_back key opts stale default l :
  traced (fallback ci key opts stale default) (λ r l', ∀ v, r = Ok (Some v) →
    fell_back (l' ++ l) opts stale default (stale_hit v)).
Proof.
  eapply traced_mono; [apply traced_stale_fallback|]. intros r l' (Hoff & _ & Hv) v Hr.
  destruct (EntryOptions.is_fail_safe_enabled opts) eqn:Hf; [|by destruct (Hoff eq_refl) as [-> _]].
  destruct (Hv v Hr) as (now & e & ? & ? & ? & _). split; [done|]. exists now, e, v.
  split_and!; [recorded|eapply fail_safe_entry_incl; [|done]; set_solver|eapply copied_incl; [|done]; set_solver|done].
Qed.
End answers.

Section requests.
Context {V : Type} (ci : Inner).
Implicit Types (l : history V).

Lemma traced_timeout_fallback key opts stale default timeout l :
  traced (timeout_fallback ci key opts stale default timeout) (λ r l', ∀ o, r = Ok o →
    fell_back (l' ++ l) opts stale default o).
Proof.
  unfold timeout_fallback. eapply traced_attempt; [apply (traced_fell_back ci key opts stale default l)|done|].
  intros [v|] l' Hv; apply traced_ret; [|done]. intros ? [= <-]. eapply fell_back_incl; [|by apply Hv]. set_solver.
Qed.

Lemma traced_conclude miss r l :
  traced (conclude ci miss r) (λ r' l', ∀ o, r' = Ok o →
    (∃ c, r = Ok c ∧ o = mkObserved (completion_value c) OO_Stored (completion_level c)) ∨
    fell_back (l' ++ l) (miss_options miss) (miss_stale miss) (miss_default miss) o).
Proof.
  destruct r as [c|e].
  { unfold conclude. destruct c; apply traced_ret; intros ? [= <-]; left; eexists; by split. }
  assert (traced (let? value := fallback ci (miss_key miss) (miss_options miss) (miss_stale miss) (miss_default miss) in
    match value with Some v => ok (stale_hit v) | None => raise e end) (λ r' l', ∀ o, r' = Ok o →
    (∃ c, Err e = Ok c ∧ o = mkObserved (completion_value c) OO_Stored (completion_level c)) ∨
    fell_back (l' ++ l) (miss_options miss) (miss_stale miss) (miss_default miss) o)) as Hf.
  { eapply traced_attempt; [apply (traced_fell_back ci (miss_key miss) _ _ _ l)|done|].
    intros [v|] l' Hv; apply traced_ret; [|done]. intros ? [= <-]. right.
    eapply fell_back_incl; [|by apply Hv]. set_solver. }
  destruct e; first [exact Hf|by apply traced_ret].
Qed.

(** The context a miss gives its factory: its own key, options and tags, and a
    copy of the stale value. *)
Definition context_of l (miss : OriginMiss (V := V)) (ctx : FactoryContext V) : Prop :=
  ∃ info,
    ctx = FactoryContext.with_cancellation (miss_raw miss) (miss_key miss) (miss_options miss) (miss_tags miss) info ∧
    ∀ s, info = Some s → ∃ e : Entry V, miss_stale miss = Some e ∧ miss_kind miss = OK_Factory ∧
      copied l (miss_options miss) (Entry.value e) (stale_value s).
Lemma context_of_incl l l' miss ctx : l ⊆ l' → context_of l miss ctx → context_of l' miss ctx.
Proof.
  intros Hl (info & ? & Hi). exists info. split; [done|]. intros s (e & ? & ? & ?)%Hi. exists e.
  split_and!; [done..|by eapply copied_incl].
Qed.

Lemma traced_origin_context miss :
  traced (origin_context ci miss) (λ r l, ∀ ctx, r = Ok ctx → context_of l miss ctx).
Proof.
  unfold origin_context. eapply (traced_attempt _ _ (λ r l, ∀ info, r = Ok info →
    ∀ s, info = Some s → ∃ e : Entry V, miss_stale miss = Some e ∧ miss_kind miss = OK_Factory ∧
      copied l (miss_options miss) (Entry.value e) (stale_value s))); [|done|].
  - destruct (miss_kind miss), (miss_stale miss) as [e|]; try (apply traced_ret; by intros ? [= <-]).
    eapply (traced_attempt _ _ (λ r l, ∀ s, r = Ok s → copied l (miss_options miss) (Entry.value e) (stale_value s)));
      [|done|].
    + eapply traced_attempt; [intros h; apply wp_copy|done|]. intros v l Hv. apply traced_ret. intros ? [= <-].
      exact Hv.
    + intros s l Hs. apply traced_ret. intros ? [= <-] ? [= <-]. exists e. split_and!; [done..|].
      exact (Hs s eq_refl).
  - intros info l Hi. apply traced_ret. intros ? [= <-]. exists info. split; [done|]. by apply Hi.
Qed.

(** How a miss is answered, and what the cache owes then. *)
Definition miss_answered l (miss : OriginMiss (V := V)) (o : Observed (CacheValue (V := V))) : Prop :=
  produced l (miss_raw miss) (miss_key miss) (miss_kind miss) (miss_options miss) (miss_tags miss)
    (miss_stale miss) o ∨
  fell_back l (miss_options miss) (miss_stale miss) (miss_default miss) o.

Lemma miss_answered_incl l l' miss o : l ⊆ l' → miss_answered l miss o → miss_answered l' miss o.
Proof.
  intros Hl [(info & c & Hc & ? & Hi)|Hf]; [left|right; by eapply fell_back_incl].
  exists info, c. split_and!; [by eapply computed_incl|done|]. intros s (e & ? & ? & ?)%Hi. exists e.
  split_and!; [done..|by eapply copied_incl].
Qed.

Lemma traced_compute_origin miss :
  traced (compute_origin ci miss) (λ r l,
    (∀ o, r.1 = Ok o → miss_answered l miss o) ∧
    (∀ rest, r.2 = Some (OW_Origin rest) →
       EntryOptions.allow_timed_out_factory_background_completion (miss_options miss) = true)).
Proof.
  unfold compute_origin. destruct (origin_budget miss) as [timeout soft]. cbv zeta.
  set (opts := miss_options miss). set (timed_out := timeout_fallback _ _ _ _ _ _).
  assert (∀ l (owed : option (Owed (V := V))), traced (let* r := timed_out in Ret (r, owed)) (λ r l',
    (∀ o, r.1 = Ok o → miss_answered (l' ++ l) miss o) ∧ r.2 = owed)) as Hout.
  { intros l owed. eapply traced_bind; [apply traced_timeout_fallback with (l := l)|]. intros r l' Hr. apply traced_ret.
    split; [|done]. intros o Ho. right. by apply Hr. }
  destruct (match timeout with After d => is_zero d | Infinite => false end).
  { eapply traced_bind with (R := λ r l, ∀ o, r = Ok o → miss_answered l miss o).
    - eapply traced_bind; [apply traced_any|]. intros [] l _.
      eapply traced_mono; [apply traced_timeout_fallback with (l := l)|]. intros r l' Hr o Ho. right. by apply Hr.
    - intros r l Hr. apply traced_ret. by split. }
  eapply traced_bind; [apply traced_any|]. intros [] l0 _.
  eapply (traced_bind _ _ (λ r l, ∀ ctx g, r = Ok (ctx, g) → context_of l miss ctx)).
  { eapply (traced_or_release _ _ _ (λ r l, ∀ ctx g, r = Ok (ctx, g) → context_of l miss ctx));
      [apply touches_drop_flight| |done|].
    - eapply traced_attempt; [apply traced_origin_context|done|]. intros ctx l Hctx.
      eapply traced_attempt; [apply traced_any|by intros|]. intros g l1 _. apply traced_ret.
      intros ?? [= <- <-]. eapply context_of_incl; [|by apply Hctx]. set_solver.
    - intros [ctx g] l Hctx. apply traced_ret. intros ?? [= <- <-]. by apply (Hctx ctx g). }
  intros [[ctx g]|e] l Hctx; [|by apply traced_ret].
  destruct (Hctx ctx g eq_refl) as (info & -> & Hi).
  eapply traced_bind; [apply traced_any|]. intros started l1 _.
  eapply traced_bind; [apply traced_race, traced_origin_work|]. intros [[r dropped]|rest] l2 Hw.
  - eapply traced_bind; [apply traced_conclude with (l := l2 ++ l1 ++ l ++ l0)|]. intros r' l3 Hr'. apply traced_ret. cbn [fst snd].
    split; [|by destruct dropped]. intros o Ho. destruct (Hr' o Ho) as [(c & -> & ->)|Hf]; [left|right; eapply fell_back_incl; [|exact Hf]; set_solver].
    exists info, c. split_and!; [|done|].
    + destruct Hw as [Hw|[reason [= ]]]. eapply computed_incl; [|by apply Hw]. set_solver.
    + intros s (e & ? & ? & ?)%Hi. exists e. split_and!; [done..|]. eapply copied_incl; [|done]. set_solver.
  - eapply traced_bind; [apply traced_any|]. intros [] l3 _.
    eapply (traced_bind _ _ (λ (r : option (Owed (V := V))) _, ∀ rest, r = Some (OW_Origin rest) →
      EntryOptions.allow_timed_out_factory_background_completion opts = true)).
    + unfold abandon. destruct (EntryOptions.allow_timed_out_factory_background_completion opts); [by apply traced_ret|].
      do 2 (eapply traced_bind; [apply traced_any|]; intros ???). by apply traced_ret.
    + intros owed l4 Howed. eapply traced_mono; [apply Hout with (l := l4 ++ l3 ++ l2 ++ l1 ++ l ++ l0)|].
      intros r l5 [Ha ->]. split; [|exact Howed]. intros o Ho. eapply miss_answered_incl; [|by apply Ha]. set_solver.
Qed.
End requests.

Module OriginTheorems.
(** Kinds of accesses of a lookup: it runs no origin. *)
Definition lookup_kinds : list Kind :=
  [K_Time; K_Options; K_MemoryRead; K_MemoryCas; K_Marker; K_Circuit; K_ProviderRead; K_Codec; K_Fence; K_Lane;
   K_Lock; K_Release; K_Budget; K_Observer].
Section theorems.
Context {V : Type} (ci : Inner).
Implicit Types (l : history V).

Lemma touches_lookup_origin key opts kind default :
  touches (V := V) lookup_kinds (lookup_origin ci key opts kind default None).
Proof.
  assert (touches (V := V) lookup_kinds (read_l1 ci key)) as H1.
  { unfold read_l1. footprint. }
  assert (∀ fallback, touches (V := V) lookup_kinds (read_l2 ci key opts fallback)) as H2.
  { intros fb. assert (touches (V := V) lookup_kinds (fetch_l2 ci key)) as Hf.
    { unfold fetch_l2, hydration_fence, fetch_bytes, distributed_miss. footprint. }
    unfold read_l2, read_l2_budget, distributed_miss. footprint. all: by apply touches_bounded; [|in_kinds..]. }
  assert (∀ e, touches (V := V) lookup_kinds (hydrate ci key e opts)) as H3.
  { intros e. unfold hydrate, hydrate_fenced, hydration_superseded. footprint. }
  assert (∀ e level, touches (V := V) lookup_kinds (served ci key e opts level)) as H4.
  { intros e level. unfold served. footprint. }
  assert (∀ guard, touches (V := V) lookup_kinds (drop_flight guard)) as H5.
  { intros guard. unfold drop_flight. footprint. }
  assert (∀ guard, touches (V := V) lookup_kinds (drop_optional guard)) as H6.
  { intros guard. unfold drop_optional. footprint. }
  assert (∀ stale, touches (V := V) lookup_kinds (lookup_l2 ci key opts default stale)) as H7.
  { intros stale. unfold lookup_l2. footprint. }
  assert (∀ stale guard, touches (V := V) lookup_kinds (lookup_owned ci key opts default stale guard)) as H8.
  { intros stale guard. unfold lookup_owned. apply touches_or_release; [apply H5|footprint|].
    assert (∀ stale, touches (V := V) lookup_kinds
      (or_release (drop_flight guard) (lookup_l2 ci key opts default stale) (λ rest,
        match rest with
        | inl observed => drop_flight guard ;;; ok (OL_Served observed)
        | inr stale => ok (OL_Origin opts stale guard)
        end))) as H.
    { intros s. apply touches_or_release; [apply H5|apply H7|]. intros []; footprint. }
    intros [e|e|]; [|apply H..]. apply touches_or_release; [apply H5|apply H4|]. intros o. footprint. }
  assert (∀ stale, touches (V := V) lookup_kinds (acquire_lock ci key opts stale)) as H9.
  { intros stale. unfold acquire_lock. footprint.
    all: apply touches_or_release; [unfold release_local; footprint|unfold acquire_cluster; footprint|intros; footprint]. }
  assert (∀ stale, touches (V := V) lookup_kinds (lookup_missed ci key opts default None stale)) as H10.
  { intros stale. unfold lookup_missed. footprint. }
  unfold lookup_origin. apply touches_or_release; [apply H6|footprint|]. intros _.
  apply touches_or_release; [apply H6|footprint|]. intros [e|e|]; [|apply H10..].
  footprint; [apply H6|]. apply touches_or_release; [apply H6|apply H4|]. intros o. footprint. apply H6.
Qed.

Lemma not_invoked (ks : list Kind) l kind ctx product :
  Forall (λ ev, Worker.kind (ev_call ev) ∈ ks) l → K_Origin ∉ ks → ¬ invoked l kind ctx product.
Proof. intros Hl Hk [Hi|[lease Hi]]; by eapply (untouched ks l _ Hl Hi). Qed.


(** C36: Fail-safe stays within what it was given. When it is disabled the
    fallback does nothing. Otherwise the value it serves is a copy of that of an
    entry that is either the stale one - eligible and not physically expired -
    with every attribute kept but the time it was inserted, its fail-safe mark,
    the remaining lifetime for a backend and its logical expiration, which is
    throttled and never after its physical one; or, only when there is no usable
    stale entry, the call's default, whose lifetime starts now. Unless memory
    writes are skipped that very entry was put in L1. It serves nothing only
    when there is neither a usable stale entry nor a default. *)
Theorem fallbacks_stay_within_fail_safe key opts stale default :
  traced (fallback ci key opts stale default) (λ r l,
    (EntryOptions.is_fail_safe_enabled opts = false → r = Ok None ∧ l = []) ∧
    (EntryOptions.is_fail_safe_enabled opts = true → r = Ok None →
       default = None ∧ ∃ now, Ev C_Now now ∈ l ∧ unusable l stale now) ∧
    ∀ v, r = Ok (Some v) → ∃ now e, Ev C_Now now ∈ l ∧ fail_safe_entry l opts stale default now e ∧
      copied l opts (Entry.value e) v ∧
      (EntryOptions.skip_memory_write opts = false → ∃ a, Ev (C_InsertAt key e now) (Ok a) ∈ l)).
Proof. apply traced_stale_fallback. Qed.
End theorems.
End OriginTheorems.
