(* ===== verification/Guards.v ===== *)
(** * Who holds what

    The linear discipline of the pipelines' guards: lanes ([lane_guard]),
    same-key locks and leases ([FlightGuard]). Rust drops a guard exactly once, at
    the end of its scope or where it is moved; the model writes each drop, so
    that this is to be proved. [owning p held Q] says that [p], started while it
    holds [held], only releases what it holds, and ends holding a [left] that
    [Q] accepts, whatever it is answered. *)
From S2P Require Import Prelude Time Calls Circuit Options Entry Tags Backplane Cancellation Factory.
From S2P Require Import Invalidation Storage Lanes Wire Lease Recovery Worker Read Write Commit Origin.
Open Scope prog_scope.

Section owning.
Context {V : Type}.
Local Abbreviation prog := (prog (answer (V := V))).
Local Abbreviation Call := (Call V).

Definition is_release (c : Call) : bool :=
  match c with C_Unlane _ | C_ReleaseLease _ | C_ReleaseLocal _ => true | _ => false end.
Definition is_drop (c : Call) : bool := match c with C_DropWork => true | _ => false end.

(** The releases an acquisition obliges to. *)
Definition takes (c : Call) : answer c → list Call :=
  match c with
  | C_TryLane key => λ taken, if taken then [C_Unlane key] else []
  | C_Lane key => λ _, [C_Unlane key]
  | C_AcquireLocal key _ | C_TryLocal key =>
      λ r, match r with Ok true => [C_ReleaseLocal key] | _ => [] end
  | C_TryEager key => λ taken, if taken then [C_ReleaseLocal key] else []
  | C_AcquireLease _ _ => λ r, match r with Ok (Some lease) => [C_ReleaseLease lease] | _ => [] end
  | _ => λ _, []
  end.

(** At the calls [calm] selects nothing may be held. A release gives up one
    held guard; dropping unfinished work gives up those it holds. *)
Fixpoint owning (calm : Call → bool) {A} (p : prog A) (held : list Call) (Q : A → list Call → Prop) : Prop :=
  match p with
  | Ret a => ∃ left, held ≡ₚ left ∧ Q a left
  | Act c k =>
      (calm c = true → held = []) ∧
      if is_release c then ∃ left, held ≡ₚ c :: left ∧ ∀ x, owning calm (k x) left Q
      else if is_drop c then ∃ left, left ⊆+ held ∧ ∀ x, owning calm (k x) left Q
      else ∀ x, owning calm (k x) (takes c x ++ held) Q
  end.
Definition always : Call → bool := λ _, false.
Local Abbreviation owns := (owning always).

(** Programs that hold at their end what they held at their start. *)
Definition keeps {A} : A → list Call → Prop := λ _ left, left = [].
Definition neutral {A} (p : prog A) : Prop := owns p [] keeps.

Lemma owning_perm calm {A} (p : prog A) held held' Q :
  owning calm p held Q → held ≡ₚ held' → owning calm p held' Q.
Proof.
  revert held held'. induction p as [a|c k IH]; intros held held'; cbn [owning].
  - intros (left & ? & ?) Hp. exists left. split; [by rewrite <- Hp|done].
  - intros [Hc Hk] Hp. split.
    { intros H. apply Hc in H as ->. by apply Permutation_nil_l in Hp. }
    destruct (is_release c); [|destruct (is_drop c)].
    + destruct Hk as (left & ? & ?). exists left. split; [by rewrite <- Hp|done].
    + destruct Hk as (left & ? & ?). exists left. split; [by rewrite <- Hp|done].
    + intros x. eapply IH; [by apply Hk|]. by rewrite Hp.
Qed.

Lemma owning_mono calm {A} (p : prog A) held (Q Q' : A → list Call → Prop) :
  owning calm p held Q → (∀ a left, Q a left → Q' a left) → owning calm p held Q'.
Proof.
  intros Hp HQ. revert held Hp. induction p as [a|c k IH]; intros held; cbn [owning].
  - intros (left & ? & ?). eauto.
  - intros [Hc Hk]. split; [done|].
    destruct (is_release c); [|destruct (is_drop c)]; [destruct Hk as (left & ? & ?); eauto..|auto].
Qed.

Lemma owning_bind calm {A B} (p : prog A) (f : A → prog B) held Q :
  owning calm p held (λ a left, owning calm (f a) left Q) → owning calm (bind p f) held Q.
Proof.
  revert held. induction p as [a|c k IH]; intros held; cbn [owning bind].
  - intros (left & Hp & HQ). by eapply owning_perm.
  - intros [Hc Hk]. split; [done|].
    destruct (is_release c); [|destruct (is_drop c)]; [destruct Hk as (left & ? & ?); eauto..|auto].
Qed.

Lemma owning_attempt calm {A B X} (p : prog (result X A)) (f : A → prog (result X B)) held Q :
  owning calm p held (λ r left, match r with Ok a => owning calm (f a) left Q | Err e => Q (Err e) left end) →
  owning calm (attempt p f) held Q.
Proof.
  intros Hp. apply owning_bind. eapply owning_mono; [exact Hp|]. intros [a|e] left; [done|].
  cbn. eauto.
Qed.

(** What a program does not touch stays. *)
Lemma owns_frame {A} (p : prog A) held rest Q :
  owns p held Q → owns p (held ++ rest) (λ a left, ∃ l, left = l ++ rest ∧ Q a l).
Proof.
  revert held. induction p as [a|c k IH]; intros held; cbn [owning].
  - intros (left & Hp & HQ). exists (left ++ rest). rewrite Hp. eauto.
  - intros [_ Hk]. split; [done|]. destruct (is_release c); [|destruct (is_drop c)].
    + destruct Hk as (left & Hp & ?). exists (left ++ rest). split; [by rewrite Hp|auto].
    + destruct Hk as (left & Hp & ?). exists (left ++ rest). split; [by apply submseteq_skips_r|auto].
    + intros x. rewrite app_assoc. by apply IH.
Qed.

Lemma owns_neutral {A} (p : prog A) held (Q : A → list Call → Prop) :
  neutral p → (∀ a, Q a held) → owns p held Q.
Proof.
  intros Hp HQ. eapply owning_mono; [apply (owns_frame p [] held), Hp|].
  intros a left (l & -> & ->). apply HQ.
Qed.

Lemma neutral_ret {A} (a : A) : neutral (Ret a).
Proof. by exists []. Qed.
Lemma neutral_bind {A B} (p : prog A) (f : A → prog B) :
  neutral p → (∀ a, neutral (f a)) → neutral (bind p f).
Proof. intros Hp Hf. apply owning_bind, owns_neutral; [done|]. intros a. apply Hf. Qed.
Lemma neutral_attempt {A B X} (p : prog (result X A)) (f : A → prog (result X B)) :
  neutral p → (∀ a, neutral (f a)) → neutral (attempt p f).
Proof. intros Hp Hf. apply neutral_bind; [done|]. intros [a|e]; [apply Hf|apply neutral_ret]. Qed.

(** Kinds that take and release nothing. *)
Lemma neutral_touches {A} (ks : list Kind) (p : prog A) :
  touches ks p → K_Release ∉ ks → K_Lane ∉ ks → K_Lock ∉ ks → neutral p.
Proof.
  intros Hp Hr Hl Hk. induction p as [a|c k IH]; [apply neutral_ret|]. destruct Hp as [Hc Hp].
  split; [done|]. assert (is_release c = false) as -> by (destruct c; try done; exfalso; by apply Hr).
  destruct (is_drop c); [exists []; split; [done|]; intros x; exact (IH x (Hp x))|]. intros x.
  assert (takes c x = []) as -> by (destruct c; try done; exfalso; (by apply Hl) || by apply Hk).
  exact (IH x (Hp x)).
Qed.

(** A supervised program may be dropped where it suspends: it must hold nothing
    there. *)
Lemma neutral_supervise {A} timed phased reached (work : prog (result CacheError A)) :
  owning suspends work [] keeps → neutral (supervise timed phased reached work).
Proof.
  enough (∀ held, owning suspends work held keeps →
    owns (supervise timed phased reached work) held keeps) as H by apply H.
  revert reached. induction work as [a|c k IH]; intros reached held; cbn [supervise owning].
  - intros (left & Hp & HQ). destruct phased; cbn; [|eauto]. split; [done|]. intros [r|]; cbn; eauto.
  - intros [Hc Hk].
    assert (owns (Act c (λ x, supervise timed phased (reached || is_checkpoint c) (k x))) held keeps) as Hgo.
    { split; [done|]. destruct (is_release c); [|destruct (is_drop c)];
        [destruct Hk as (left & ? & ?); eauto..|auto]. }
    destruct timed, phased; cbn [andb]; try done; destruct (suspends c); try done; rewrite (Hc eq_refl) in *.
    + split; [done|]. intros [|]; cbn; [by exists []|]. split; [done|]. intros [r|]; cbn; [by exists []|done].
    + split; [done|]. intros [|]; cbn; [by exists []|done].
    + split; [done|]. intros [r|]; cbn; [by exists []|done].
Qed.
End owning.

(** ** Rules *)
Section rules.
Context {V : Type} (ci : Inner).
Local Abbreviation prog := (prog (answer (V := V))).
Local Abbreviation action A := (prog (result CacheError A)).
Local Abbreviation Call := (Call V).
Local Abbreviation owns := (owning (V := V) always).

Lemma calm_touches calm {A} (ks : list Kind) (p : prog A) :
  touches ks p → K_Release ∉ ks → K_Lane ∉ ks → K_Lock ∉ ks → owning calm p [] keeps.
Proof.
  intros Hp Hr Hl Hk. induction p as [a|c k IH]; [by exists []|]. destruct Hp as [Hc Hp].
  split; [done|]. assert (is_release c = false) as -> by (destruct c; try done; exfalso; by apply Hr).
  destruct (is_drop c); [exists []; split; [done|]; intros x; exact (IH x (Hp x))|]. intros x.
  assert (takes c x = []) as -> by (destruct c; try done; exfalso; (by apply Hl) || by apply Hk).
  exact (IH x (Hp x)).
Qed.

Lemma neutral_call (c : Call) :
  is_release c = false → is_drop c = false → (∀ x, takes c x = []) → neutral (call c).
Proof. intros Hr Hd Ht. split; [done|]. rewrite Hr, Hd. intros x. rewrite Ht. by exists []. Qed.

(** A release that gives up all that is held. *)
Definition drops (release : prog unit) (held : list Call) : Prop := owns release held keeps.

Lemma owns_or_release {A B} release (work : action A) (k : A → action B) held Q :
  owns work held (λ r left, match r with
                            | Ok a => owns (k a) left Q
                            | Err e => drops release left ∧ Q (Err e) []
                            end) →
  owns (or_release release work k) held Q.
Proof.
  intros Hw. apply owning_bind. eapply owning_mono; [exact Hw|]. intros [a|e] left; [done|]. intros [Hd HQ].
  apply owning_bind. eapply owning_mono; [exact Hd|]. intros [] l ->. cbn. eauto.
Qed.

Lemma owns_or_release_neutral {A B} release (work : action A) (k : A → action B) held Q :
  neutral work → drops release held → (∀ e, Q (Err e) []) → (∀ a, owns (k a) held Q) →
  owns (or_release release work k) held Q.
Proof. intros Hw Hd He Hk. apply owns_or_release, owns_neutral; [done|]. intros [a|e]; [apply Hk|done]. Qed.

Lemma owns_then {A} release (k : prog A) held Q :
  drops release held → owns k [] Q → owns (release ;;; k) held Q.
Proof. intros Hd Hk. apply owning_bind. eapply owning_mono; [exact Hd|]. by intros [] ? ->. Qed.

Lemma owns_bind_neutral {A B} (p : prog A) (f : A → prog B) held Q :
  neutral p → (∀ a, owns (f a) held Q) → owns (bind p f) held Q.
Proof. intros Hp Hf. apply owning_bind, owns_neutral; [done|]. exact Hf. Qed.
Lemma owns_attempt_neutral {A B} (p : action A) (f : A → action B) held (Q : result CacheError B → list Call → Prop) :
  neutral p → (∀ a, owns (f a) held Q) → (∀ e, Q (Err e) held) → owns (attempt p f) held Q.
Proof. intros Hp Hf He. apply owning_attempt, owns_neutral; [done|]. intros [a|e]; [apply Hf|apply He]. Qed.

Lemma owns_ret {A} (a : A) held (Q : A → list Call → Prop) : Q a held → owns (Ret a) held Q.
Proof. by exists held. Qed.

Lemma owns_release (c : Call) held : is_release c = true → owns (call c) (c :: held) (λ _ left, left = held).
Proof. intros Hc. split; [done|]. rewrite Hc. exists held. split; [done|]. intros x. by exists held. Qed.

(** What a guard's drop releases. *)
Definition lease_releases (lease : ClusterParticipation) : list Call :=
  match lease with CP_Local => [] | CP_Cooperative lease | CP_Fenced lease => [C_ReleaseLease lease] end.
Definition local_releases (local : LocalParticipation) : list Call :=
  match local with Held key => [C_ReleaseLocal key] | UnlockedAfterTimeout | ReplayOnly => [] end.
Definition flight_releases (flight : FlightGuard) : list Call :=
  lease_releases (flight_lease flight) ++ local_releases (flight_local flight).
Definition optional_releases (flight : option FlightGuard) : list Call := from_option flight_releases [] flight.
Definition lane_releases (key : string) (flight : option FlightGuard) : list Call :=
  C_Unlane key :: optional_releases flight.

Lemma owns_drop_flight flight held :
  owns (drop_flight flight) (flight_releases flight ++ held) (λ _ left, left = held).
Proof.
  unfold drop_flight, flight_releases. destruct flight as [local lease]; cbn [flight_lease flight_local].
  rewrite <- app_assoc. apply owning_bind.
  enough (owns match local with Held key => call (C_ReleaseLocal key) | _ => Ret tt end
            (local_releases local ++ held) (λ _ left, left = held)) as Hl.
  { destruct lease; cbn [lease_releases app]; [by eexists|..];
      (eapply owning_mono; [by apply owns_release|]; by intros [] ? ->). }
  destruct local; cbn [local_releases app]; [by apply owns_release|by eexists..].
Qed.
Lemma drops_drop_flight flight : drops (drop_flight flight) (flight_releases flight).
Proof. rewrite <- (app_nil_r (flight_releases flight)). apply owns_drop_flight. Qed.
Lemma owns_drop_optional flight held :
  owns (drop_optional flight) (optional_releases flight ++ held) (λ _ left, left = held).
Proof. destruct flight as [flight|]; [apply owns_drop_flight|by eexists]. Qed.
Lemma drops_drop_optional flight : drops (drop_optional flight) (optional_releases flight).
Proof. rewrite <- (app_nil_r (optional_releases flight)). apply owns_drop_optional. Qed.
Lemma drops_retire key flight : drops (retire key flight) (lane_releases key flight).
Proof.
  apply owning_bind. eapply owning_mono; [by apply owns_release|]. intros [] ? ->. apply drops_drop_optional.
Qed.
Lemma drops_retire_flight_first key flight : drops (retire_flight_first key flight) (lane_releases key flight).
Proof.
  apply owning_perm with (optional_releases flight ++ [C_Unlane key]); [|symmetry; apply Permutation_cons_append].
  apply owning_bind. eapply owning_mono; [apply owns_drop_optional|]. intros [] ? ->. by apply owns_release.
Qed.
Lemma drops_unlane key : drops (call (C_Unlane key)) [C_Unlane key].
Proof. by apply owns_release. Qed.
Lemma drops_release_local local : drops (release_local local) (local_releases local).
Proof. destruct local; [by apply owns_release|by exists []..]. Qed.
Lemma flight_guard_releases local lease :
  flight_releases (flight_guard ci local lease) ≡ₚ
  (match lease with Some lease => [C_ReleaseLease lease] | None => [] end) ++ local_releases local.
Proof. unfold flight_releases, flight_guard. destruct lease; cbn; [by destruct (lease_policy ci)|done]. Qed.
End rules.

Create HintDb guards discriminated.
#[export] Hint Resolve drops_drop_flight drops_drop_optional drops_retire drops_retire_flight_first
  drops_unlane drops_release_local : guards.

(** Take a neutral program apart; the leaves are footprints and calls. *)
Ltac no_kind_in := apply (bool_decide_unpack _); vm_compute; exact I.
Ltac neutral_leaf :=
  first [ solve [eauto with guards]
        | match goal with |- neutral (call ?c) => exact (neutral_call c eq_refl eq_refl (λ _, eq_refl)) end
        | solve [apply neutral_call; [reflexivity|reflexivity|by intros ?]]
        | solve [eapply neutral_touches; [solve [eauto with footprint]|no_kind_in..]] ].
Ltac neutral_step :=
  match goal with
  | |- ∀ _, _ => intros ?
  | |- neutral (Ret _) => apply neutral_ret
  | |- neutral (ok _) => apply neutral_ret
  | |- neutral (raise _) => apply neutral_ret
  | |- neutral (from _ _) => apply neutral_ret
  | |- neutral (bind _ _) => apply neutral_bind
  | |- neutral (attempt _ _) => apply neutral_attempt
  | |- neutral (match ?x with _ => _ end) => destruct x
  | |- neutral (let '(_, _) := ?x in _) => destruct x
  | |- neutral _ => neutral_leaf
  end.
Ltac neutral_program := repeat neutral_step.

(** ** Reads *)
Section reads.
Context {V : Type} (ci : Inner).
Local Abbreviation prog := (prog (answer (V := V))).
Local Abbreviation action A := (prog (result CacheError A)).

(** Holding nothing wherever its caller may drop it. *)
Definition droppable {A} (p : prog A) : Prop := owning (V := V) suspends p [] keeps.
Lemma droppable_bind {A B} (p : prog A) (f : A → prog B) :
  droppable p → (∀ a, droppable (f a)) → droppable (bind p f).
Proof. intros Hp Hf. apply owning_bind. eapply owning_mono; [exact Hp|]. intros a ? ->. apply Hf. Qed.
Lemma droppable_attempt {A B} (p : action A) (f : A → action B) :
  droppable p → (∀ a, droppable (f a)) → droppable (attempt p f).
Proof. intros Hp Hf. apply droppable_bind; [done|]. intros [a|e]; [apply Hf|by exists []]. Qed.

Lemma droppable_hydration_fence key now : droppable (hydration_fence (V := V) key now).
Proof.
  split; [done|]. intros [|]; cbn [bind takes app]; [|by exists []]. split; [done|]. intros fence.
  split; [done|]. exists []. split; [done|]. intros [].
  split; [done|]. intros [observed|e]; cbn; by exists [].
Qed.

Lemma droppable_fetch_l2 key : droppable (fetch_l2 ci key).
Proof.
  assert (∀ A (ks : list Kind) (p : prog A), touches ks p → K_Release ∉ ks → K_Lane ∉ ks → K_Lock ∉ ks →
    droppable p) as Hcalm by (intros; by eapply calm_touches).
  unfold fetch_l2. destruct (is_hybrid _); [|by exists []].
  apply droppable_attempt; [eapply Hcalm; [apply touches_check|no_kind_in..]|]. intros _.
  apply droppable_bind; [eapply (Hcalm _ [K_Time]); [split; [in_kinds|done]|no_kind_in..]|]. intros now.
  apply droppable_attempt; [apply droppable_hydration_fence|]. intros fence.
  eapply (Hcalm _ [K_Observer; K_ProviderRead; K_Circuit; K_Budget; K_Time; K_Codec; K_Marker]); [|no_kind_in..].
  unfold fetch_bytes, distributed_miss. footprint.
Qed.

Lemma neutral_bounded {A} timeout phased (work : action A) : droppable work → neutral (bounded timeout phased work).
Proof.
  intros Hw. unfold bounded, validate_budget. neutral_program; by apply neutral_supervise.
Qed.

Lemma neutral_read_l2 key opts fallback : neutral (V := V) (read_l2 ci key opts fallback).
Proof.
  assert (∀ b t, neutral (bounded t b (fetch_l2 ci key))) by (intros; apply neutral_bounded, droppable_fetch_l2).
  unfold read_l2, read_l2_budget, distributed_miss. neutral_program; auto.
Qed.

Lemma neutral_hydrate key source opts : neutral (V := V) (hydrate ci key source opts).
Proof.
  unfold hydrate. destruct (EntryOptions.skip_memory_write opts); [apply neutral_ret|].
  destruct (hydration source) as [fence observed|]; [|apply neutral_ret].
  split; [done|]. intros [|]; cbn [takes app bind]; [|by exists []].
  apply owns_bind_neutral; [unfold hydrate_fenced, hydration_superseded; neutral_program|]. intros outcome.
  apply owns_then; [apply drops_unlane|]. by exists [].
Qed.

Lemma neutral_read_l1 key : neutral (V := V) (read_l1 ci key).
Proof. unfold read_l1. neutral_program. Qed.
End reads.
#[export] Hint Resolve neutral_read_l1 neutral_read_l2 neutral_hydrate : guards.

Section whole_reads.
Context {V : Type} (ci : Inner).
Lemma neutral_read raw full options : neutral (V := V) (read ci raw full options).
Proof. unfold read, read_distributed, finish_read, read_missed, read_hit. neutral_program. Qed.
Lemma neutral_served key e opts level : neutral (V := V) (served ci key e opts level).
Proof. unfold served. neutral_program. Qed.
Lemma neutral_lookup_l2 key opts default stale : neutral (V := V) (lookup_l2 ci key opts default stale).
Proof. pose proof neutral_served. unfold lookup_l2. neutral_program; auto. Qed.
End whole_reads.
#[export] Hint Resolve neutral_read neutral_served neutral_lookup_l2 : guards.

(** ** Mutations *)
Section mutations.
Context {V : Type} (ci : Inner).
Local Abbreviation prog := (prog (answer (V := V))).
Local Abbreviation action A := (prog (result CacheError A)).
Local Abbreviation owns := (owning (V := V) always).

(** A receipt's holder: a scheduled commit releases, when it runs, what is still
    held. *)
Definition settled (r : result CacheError (MutationReceipt (V := V))) (left : list (Call V)) : Prop :=
  match r with Ok (Scheduled rest) => owns rest left keeps | _ => left = [] end.

Lemma owns_commit_receipt mode (work : action CommitReport) held :
  owns work held keeps → owns (commit_receipt mode work) held settled.
Proof.
  intros Hw. destruct mode; [|by apply owns_ret].
  apply owning_attempt. eapply owning_mono; [exact Hw|]. intros [a|e] ? ->; [by apply owns_ret|done].
Qed.

Lemma owns_pipeline_receipt mode (work : action MutationReceipt) held :
  owns work held settled → owns (pipeline_receipt mode work) held settled.
Proof.
  intros Hw. destruct mode; [done|]. apply owns_ret. cbn. apply owning_attempt.
  eapply owning_mono; [exact Hw|]. intros [[report|rest]|e] left H; cbn in H; [subst; by apply owns_ret|done|done].
Qed.

Lemma owns_publication work act at_ local distributed :
  owns (publication ci work act at_ local distributed)
    (lane_releases (commit_key work) (commit_flight work)) keeps.
Proof.
  apply owns_or_release_neutral; [neutral_program|apply drops_retire|done|]. intros backplane.
  apply owns_then; [apply drops_retire_flight_first|]. by apply owns_ret.
Qed.

Lemma owns_commit_data work :
  owns (commit_data ci work) (lane_releases (commit_key work) (commit_flight work)) settled.
Proof.
  unfold commit_data. apply owns_bind_neutral; [neutral_program|]. intros now.
  apply owns_bind_neutral; [neutral_program|]. intros stamp.
  apply owns_or_release_neutral; [neutral_program|apply drops_retire|done|]. intros [report|distributed].
  { apply owns_then; [apply drops_retire|]. by apply owns_ret. }
  apply owns_or_release_neutral; [neutral_program|apply drops_retire|done|]. intros local.
  apply owns_bind_neutral; [neutral_program|]. intros _.
  apply owns_commit_receipt, owns_publication.
Qed.

Lemma owns_lane {A} key (k : prog A) held Q :
  owns k (C_Unlane key :: held) Q → owns (call (C_Lane key) ;;; k) held Q.
Proof. intros Hk. split; [done|]. by intros []. Qed.

Lemma owns_inline_entry key e opts origin :
  owns (inline_entry key e opts origin) (optional_releases (origin_guard <$> origin)) settled.
Proof.
  unfold inline_entry, inline_receipt.
  apply owns_or_release_neutral; [neutral_program|apply drops_drop_optional|done|]. intros _.
  apply owns_bind_neutral; [neutral_program|]. intros now.
  apply owns_or_release_neutral; [neutral_program|apply drops_drop_optional|done|]. intros _.
  destruct (EntryOptions.skip_memory_write opts);
    (apply owns_bind_neutral; [neutral_program|]; intros ?;
     apply owns_then; [apply drops_drop_optional|]; by apply owns_ret).
Qed.

Lemma owns_write_entry key e opts flight :
  owns (write_entry ci key e opts flight) (optional_releases (origin_guard <$> flight)) settled.
Proof.
  unfold write_entry. destruct (is_inline ci); [apply owns_inline_entry|].
  apply owns_or_release_neutral; [neutral_program|apply drops_drop_optional|done|]. intros data.
  apply owns_lane. fold (lane_releases (V := V) key (origin_guard <$> flight)).
  apply owns_or_release_neutral; [neutral_program|apply drops_retire|done|]. intros _.
  apply owns_bind_neutral; [destruct flight as [origin|]; [unfold is_current|]; neutral_program|]. intros [|]; cbn [negb].
  2: { apply owns_then; [apply drops_retire|]. by apply owns_ret. }
  apply owns_bind_neutral; [neutral_program|]. intros advanced.
  apply owns_or_release_neutral; [neutral_program|apply drops_retire_flight_first|done|]. intros fence.
  apply owns_or_release_neutral; [neutral_program|apply drops_retire_flight_first|done|]. intros local.
  apply owns_pipeline_receipt. apply owns_commit_data.
Qed.

(** What a value's receipt still owes. *)
Definition settled_value (r : result CacheError (CacheValue (V := V))) (left : list (Call V)) : Prop :=
  match r with
  | Ok v => match cached_commit v with Some receipt => settled (Ok receipt) left | None => left = [] end
  | Err _ => left = []
  end.
Definition settled_completion (r : result CacheError (OriginCompletion (V := V))) : list (Call V) → Prop :=
  settled_value (match r with Ok c => Ok (completion_value c) | Err e => Err e end).

Lemma owns_store_product key product started guard :
  owns (store_product ci key product started guard) (flight_releases (origin_guard guard)) settled_completion.
Proof.
  unfold store_product. apply owns_or_release_neutral; [neutral_program|apply drops_drop_flight|done|].
  intros [[p v] e]. apply owning_attempt. eapply owning_mono; [apply owns_write_entry|].
  intros [receipt|err] left Hs; [|done]. apply owns_bind_neutral; [neutral_program|]. intros _.
  apply owns_ret. by destruct (payload_origin p).
Qed.

Lemma owns_set raw value options tags :
  owns (set ci raw value options tags) []
    (λ r left, settled (match r with Ok o => Ok (observed_value o) | Err e => Err e end) left).
Proof.
  unfold set. apply owns_attempt_neutral; [neutral_program| |done]. intros opts.
  apply owns_bind_neutral; [neutral_program|]. intros now.
  apply owns_attempt_neutral; [neutral_program| |done]. intros copied.
  apply owns_attempt_neutral; [neutral_program| |done]. intros e.
  apply owning_attempt. eapply owning_mono; [apply owns_write_entry|].
  intros [receipt|err] left Hs; [|done]. apply owns_bind_neutral; [neutral_program|]. intros _.
  by apply owns_ret.
Qed.

Lemma neutral_inline_key_mutation key opts mutation now : neutral (V := V) (inline_key_mutation key opts mutation now).
Proof. unfold inline_key_mutation, inline_expire. neutral_program. Qed.

Lemma owns_key_mutation raw options mutation :
  owns (key_mutation ci raw options mutation) []
    (λ r left, settled (match r with Ok o => Ok (observed_value o) | Err e => Err e end) left).
Proof.
  pose proof neutral_inline_key_mutation.
  unfold key_mutation. apply owns_attempt_neutral; [neutral_program| |done]. intros opts.
  destruct (is_inline ci).
  { apply owns_attempt_neutral; [neutral_program| |done]. intros _.
    apply owns_bind_neutral; [neutral_program|]. intros now.
    apply owns_bind_neutral; [auto|]. intros local.
    apply owns_bind_neutral; [neutral_program|]. intros _. by apply owns_ret. }
  apply owns_lane. apply owns_bind_neutral; [neutral_program|]. intros now.
  apply owns_bind_neutral; [neutral_program|]. intros advanced.
  apply owns_or_release_neutral; [neutral_program|apply drops_unlane|done|]. intros fence.
  apply owns_or_release_neutral; [neutral_program|apply drops_unlane|done|]. intros local.
  apply owns_or_release_neutral; [neutral_program|apply drops_unlane|done|]. intros data.
  apply owning_attempt. eapply owning_mono.
  { apply owns_pipeline_receipt. exact (owns_commit_data (mkCommit _ data _ opts fence None (LC_Applied local))). }
  intros [receipt|err] left Hs; [|done]. apply owns_bind_neutral; [neutral_program|]. intros _.
  by apply owns_ret.
Qed.
End mutations.

(** ** Origins *)
Section origins.
Context {V : Type} (ci : Inner).
Local Abbreviation prog := (prog (answer (V := V))).
Local Abbreviation action A := (prog (result CacheError A)).
Local Abbreviation owns := (owning (V := V) always).

Lemma owns_acquire_cluster key opts held :
  owns (acquire_cluster ci key opts) held
    (λ r left, left = match r with Ok (Some lease) => [C_ReleaseLease lease] | _ => [] end ++ held).
Proof.
  unfold acquire_cluster. destruct (_ || _); [by apply owns_ret|].
  split; [done|]. intros [[lease|]|e]; cbn; [by eexists..|]. by destruct (_ || _); eexists.
Qed.

(** A granted lock is held with its guard; no other answer holds anything. *)
Definition locked (r : result CacheError (LockOutcome V)) (left : list (Call V)) : Prop :=
  left = match r with Ok (LO_Acquired g | LO_UnlockedAfterTimeout g) => flight_releases g | _ => [] end.

Lemma flight_releases_guard local lease :
  flight_releases (V := V) (flight_guard ci local lease) =
  match lease with Some lease => [C_ReleaseLease lease] | None => [] end ++ local_releases local.
Proof. unfold flight_releases, flight_guard. destruct lease; [by cbn; destruct (lease_policy ci)|done]. Qed.

Lemma owns_participate key opts local :
  owns (or_release (release_local local) (acquire_cluster ci key opts) (λ lease,
      ok (match local with
          | UnlockedAfterTimeout => LO_UnlockedAfterTimeout (flight_guard ci local lease)
          | _ => LO_Acquired (flight_guard ci local lease)
          end)))
    (local_releases local) locked.
Proof.
  apply owns_or_release. eapply owning_mono; [apply owns_acquire_cluster|].
  intros [lease|e] left ->; [|split; [apply drops_release_local|done]].
  apply owns_ret. unfold locked. destruct local; by rewrite flight_releases_guard.
Qed.

Lemma owns_acquire_lock key opts stale : owns (acquire_lock ci key opts stale) [] locked.
Proof.
  pose proof (owns_participate key opts) as Hp. unfold acquire_lock.
  split; [done|]. intros [[|]|e]; [exact (Hp (Held key))|..|by apply owns_ret].
  specialize (Hp UnlockedAfterTimeout). destruct stale as [stale|]; [|done].
  destruct (EntryOptions.is_fail_safe_enabled opts) eqn:Hf; cbn [bind]; rewrite ?Hf; [|done].
  apply (owns_bind_neutral (emit (EV_Hit key true))); [neutral_program|]. intros _.
  apply owns_attempt_neutral; [neutral_program| |done]. intros value. by apply owns_ret.
Qed.

(** A lookup that leads to an origin leaves it the guard. *)
Definition looked (r : result CacheError (OriginLookup (V := V))) (left : list (Call V)) : Prop :=
  left = match r with Ok (OL_Origin _ _ g) => flight_releases g | _ => [] end.

Lemma owns_lookup_owned key opts default stale guard :
  owns (lookup_owned ci key opts default stale guard) (flight_releases guard) looked.
Proof.
  unfold lookup_owned. apply owns_or_release_neutral; [neutral_program|apply drops_drop_flight|done|].
  assert (∀ stale, owns (or_release (drop_flight guard) (lookup_l2 ci key opts default stale) (λ rest,
    match rest with
    | inl observed => drop_flight guard ;;; ok (OL_Served observed)
    | inr stale => ok (OL_Origin opts stale guard)
    end)) (flight_releases guard) looked) as Hrest.
  { intros s. apply owns_or_release_neutral; [neutral_program|apply drops_drop_flight|done|].
    intros [observed|s']; [|by apply owns_ret]. apply owns_then; [apply drops_drop_flight|]. by apply owns_ret. }
  intros [e|e|]; [|apply Hrest..].
  apply owns_or_release_neutral; [neutral_program|apply drops_drop_flight|done|].
  intros observed. apply owns_then; [apply drops_drop_flight|]. by apply owns_ret.
Qed.

Lemma owns_lookup_missed key opts default lock stale :
  owns (lookup_missed ci key opts default lock stale) (optional_releases lock) looked.
Proof.
  unfold lookup_missed. apply owns_bind_neutral; [neutral_program|]. intros _.
  destruct lock as [guard|]; [apply owns_lookup_owned|]. cbn [optional_releases from_option].
  apply owning_attempt. eapply owning_mono; [apply owns_acquire_lock|].
  intros [[g|g|v]|e] left ->; [apply owns_lookup_owned..|by apply owns_ret|done].
Qed.

Lemma owns_lookup_origin key opts kind default lock :
  owns (lookup_origin ci key opts kind default lock) (optional_releases lock) looked.
Proof.
  unfold lookup_origin.
  apply owns_or_release_neutral; [neutral_program|apply drops_drop_optional|done|]. intros _.
  apply owns_or_release_neutral; [neutral_program|apply drops_drop_optional|done|].
  intros [e|e|]; [|apply owns_lookup_missed..].
  apply owns_bind_neutral; [neutral_program|]. intros [|].
  - apply owns_then; [apply drops_drop_optional|]. by apply owns_ret.
  - apply owns_or_release_neutral; [neutral_program|apply drops_drop_optional|done|].
    intros observed. apply owns_then; [apply drops_drop_optional|]. by apply owns_ret.
Qed.
End origins.

Section computations.
Context {V : Type} (ci : Inner).
Local Abbreviation prog := (prog (answer (V := V))).
Local Abbreviation action A := (prog (result CacheError A)).
Local Abbreviation owns := (owning (V := V) always).

(** An execution's end: a dropped receipt keeps what its commit holds. *)
Definition ended (o : OriginEnd (V := V)) (left : list (Call V)) : Prop :=
  match snd o with
  | None => settled_completion (fst o) left
  | Some receipt => is_ok (fst o) = false ∧ settled (Ok receipt) left
  end.

Lemma neutral_invoke_origin kind ctx lease : neutral (V := V) (invoke_origin kind ctx lease).
Proof. unfold invoke_origin. neutral_program. Qed.
Lemma neutral_invoke_eager kind ctx lease : neutral (V := V) (invoke_eager kind ctx lease).
Proof. unfold invoke_eager. neutral_program. Qed.
Lemma neutral_capture_origin key guard : neutral (V := V) (capture_origin ci key guard).
Proof. unfold capture_origin. neutral_program. Qed.
Lemma neutral_origin_context miss : neutral (V := V) (origin_context ci miss).
Proof. unfold origin_context, stale_info. neutral_program. Qed.
Lemma neutral_fallback key opts stale default : neutral (V := V) (fallback ci key opts stale default).
Proof. unfold fallback, fallback_entry. neutral_program. Qed.
Lemma neutral_report_origin_result key r audience : neutral (V := V) (report_origin_result key r audience).
Proof. unfold report_origin_result. neutral_program. Qed.
#[local] Hint Resolve neutral_invoke_origin neutral_invoke_eager neutral_capture_origin neutral_origin_context
  neutral_fallback neutral_report_origin_result : guards.
Lemma neutral_conclude_error miss e : neutral (V := V) (conclude ci miss (Err e)).
Proof. unfold conclude. neutral_program. Qed.
Lemma neutral_timeout_fallback key opts stale default timeout :
  neutral (V := V) (timeout_fallback ci key opts stale default timeout).
Proof. unfold timeout_fallback. neutral_program. Qed.
#[local] Hint Resolve neutral_conclude_error neutral_timeout_fallback : guards.

Lemma owns_settle_product r held :
  settled_completion r held → owns (settle_product (V := V) r) held ended.
Proof.
  intros Hr. assert (∀ e, r = Err e → held = []) as He by (by intros e ->).
  assert (owns (let* live := check in match live with Ok _ => Ret (r, None) | Err e => Ret (Err e, commit_of r) end)
            held ended) as Hcheck.
  { apply owns_bind_neutral; [neutral_program|]. intros [|e]; [by apply owns_ret|].
    apply owns_ret. unfold ended; cbn [fst snd]. destruct r as [c|e']; cbn [commit_of]; [|by rewrite (He e')].
    unfold settled_completion, settled_value in *. by destruct (cached_commit (completion_value c)). }
  unfold settle_product. destruct r as [c|e]; [exact Hcheck|].
  destruct e as [| | |[]| | | | | | | | | | | | | | | | | | | | | | | | | | |]; try exact Hcheck.
  rewrite (He _ eq_refl). apply owns_bind_neutral; [neutral_program|]. intros _. by apply owns_ret.
Qed.

Lemma owns_origin_work key kind ctx started guard :
  owns (origin_work ci key kind ctx started guard) (flight_releases (origin_guard guard)) ended.
Proof.
  unfold origin_work. apply owning_bind.
  apply owning_mono with (λ r left, match r with Ok result => settled_completion result left | Err _ => left = [] end).
  - apply owns_or_release_neutral; [neutral_program|apply drops_drop_flight|done|]. intros _.
    apply owns_or_release_neutral; [neutral_program|apply drops_drop_flight|done|]. intros product.
    apply owning_bind. eapply owning_mono; [apply owns_store_product|]. intros r left Hr. by apply owns_ret.
  - intros produced left Hp. apply owning_bind.
    apply owning_mono with ended; [destruct produced; [by apply owns_settle_product|by apply owns_ret]|].
    intros o l Ho. apply owns_bind_neutral; [neutral_program|]. intros audience.
    apply owns_bind_neutral; [neutral_program|]. intros _. by apply owns_ret.
Qed.

(** Work that outlives its caller keeps what it holds; work dropped drops it. *)
Lemma owns_race {A} timed dropped (work : prog A) held Q :
  owns work held Q → (∀ reason, Q (dropped reason) []) →
  owns (race timed dropped work) held
    (λ o left, match o with inl a => Q a left | inr rest => owns rest left Q end).
Proof.
  intros Hw Hd. revert held Hw. induction work as [a|c k IH]; intros held Hw; [exact Hw|].
  assert (owns (Act c (λ x, race timed dropped (k x))) held
    (λ o left, match o with inl a => Q a left | inr rest => owns rest left Q end)) as Hgo.
  { destruct Hw as [Hc Hk]. split; [done|].
    destruct (is_release c); [|destruct (is_drop c)]; [destruct Hk as (left & ? & ?); eauto..|auto]. }
  cbn [race]. destruct (awaits c); [|exact Hgo].
  split; [done|]. intros [reason|]; cbn [bind call].
  - split; [done|]. exists []. split; [apply submseteq_nil_l|]. intros []. by apply owns_ret.
  - destruct timed; [|exact Hgo]. split; [done|]. intros [|]; [by apply owns_ret|exact Hgo].
Qed.

(** What the cache still owes holds what its guards are. *)
Definition owed_holds (o : option (Owed (V := V))) (left : list (Call V)) : Prop :=
  match o with
  | None => left = []
  | Some (OW_Origin rest) => owns rest left ended
  | Some (OW_Refresh rest) => owns rest left settled_completion
  | Some (OW_Commit receipt) => settled (Ok receipt) left
  end.

Lemma owns_abandon opts soft (rest : prog (OriginEnd (V := V))) held :
  owns rest held ended → owns (abandon opts soft rest) held owed_holds.
Proof.
  intros Hr. unfold abandon. destruct (EntryOptions.allow_timed_out_factory_background_completion opts);
    [by apply owns_ret|].
  apply owns_bind_neutral; [neutral_program|]. intros _. split; [done|].
  exists []. split; [apply submseteq_nil_l|]. intros []. by apply owns_ret.
Qed.

(** An answered caller: the receipt's commit and the owed work share out what is
    held. *)
Definition answered (r : result CacheError (Observed (CacheValue (V := V))) * option (Owed (V := V)))
    (left : list (Call V)) : Prop :=
  ∃ l l', left = l ++ l' ∧
    settled_value (match fst r with Ok o => Ok (observed_value o) | Err e => Err e end) l ∧ owed_holds (snd r) l'.
End computations.
#[export] Hint Resolve neutral_invoke_origin neutral_invoke_eager neutral_capture_origin neutral_origin_context
  neutral_fallback neutral_report_origin_result neutral_conclude_error neutral_timeout_fallback : guards.

Section requests.
Context {V : Type} (ci : Inner).
Local Abbreviation prog := (prog (answer (V := V))).
Local Abbreviation action A := (prog (result CacheError A)).
Local Abbreviation owns := (owning (V := V) always).

(** What an answer's receipt still owes. *)
Definition settled_observed (r : result CacheError (Observed (CacheValue (V := V)))) : list (Call V) → Prop :=
  settled_value (match r with Ok o => Ok (observed_value o) | Err e => Err e end).

Lemma owns_answer (work : action (Observed (CacheValue (V := V)))) owed l l' :
  owed_holds owed l' → owns work l settled_observed →
  owns (let* result := work in Ret (result, owed)) (l ++ l') answered.
Proof.
  intros Ho Hw. apply owning_bind. eapply owning_mono; [apply owns_frame, Hw|].
  intros r left (l1 & -> & Hr). apply owns_ret. by exists l1, l'.
Qed.

Lemma owns_timeout_fallback key opts stale default timeout :
  owns (timeout_fallback ci key opts stale default timeout) [] settled_observed.
Proof. apply owns_attempt_neutral; [neutral_program| |done]. intros [v|]; by apply owns_ret. Qed.
Lemma owns_served key e opts level : owns (served ci key e opts level) [] settled_observed.
Proof.
  apply owns_attempt_neutral; [neutral_program| |done]. intros v.
  apply owns_bind_neutral; [neutral_program|]. intros _. by apply owns_ret.
Qed.
Lemma owns_conclude miss r held : settled_completion r held → owns (conclude ci miss r) held settled_observed.
Proof.
  destruct r as [c|e]; [intros Hr; destruct c; by apply owns_ret|]. cbn. intros ->.
  assert (owns (let? value := fallback ci (miss_key miss) (miss_options miss) (miss_stale miss) (miss_default miss) in
    match value with Some v => ok (stale_hit v) | None => raise e end) [] settled_observed) as Hf.
  { apply owns_attempt_neutral; [neutral_program| |done]. intros [v|]; by apply owns_ret. }
  destruct e; first [exact Hf|by apply owns_ret].
Qed.

Lemma owns_capture_origin key guard :
  owns (capture_origin ci key guard) (flight_releases guard)
    (λ r left, left = flight_releases guard ∧ ∀ g, r = Ok g → origin_guard g = guard).
Proof.
  unfold capture_origin.
  destruct (is_inline ci); [apply owns_attempt_neutral; [neutral_program| |done]|apply owns_bind_neutral; [neutral_program|]];
    (intros v; apply owns_ret; split; [done|]; by intros g [= <-]).
Qed.

Lemma owns_compute_origin miss : owns (compute_origin ci miss) (flight_releases (miss_guard miss)) answered.
Proof.
  unfold compute_origin. destruct (origin_budget miss) as [timeout soft].
  destruct (match timeout with After d => is_zero d | Infinite => false end).
  { rewrite <- (app_nil_r (flight_releases _)). apply owns_answer; [done|].
    apply owns_then; [apply drops_drop_flight|]. apply owns_timeout_fallback. }
  apply owns_bind_neutral; [neutral_program|]. intros _. apply owning_bind.
  apply owning_mono with (λ r left, left = match r with Ok (_, g) => flight_releases (origin_guard g) | Err _ => [] end).
  { apply owns_or_release, owns_attempt_neutral; [neutral_program| |by split; [apply drops_drop_flight|]].
    intros ctx. apply owning_attempt. eapply owning_mono; [apply owns_capture_origin|].
    intros [g|e] left [-> Hg]; [|by split; [apply drops_drop_flight|]].
    apply owns_ret. apply owns_ret. by rewrite (Hg g eq_refl). }
  intros [[ctx g]|e] left ->; [|apply owns_ret; by exists [], []].
  apply owns_bind_neutral; [neutral_program|]. intros started. apply owning_bind.
  eapply owning_mono; [by apply owns_race; [apply owns_origin_work|]|].
  intros [[r dropped]|rest] left Ho.
  - destruct dropped as [receipt|].
    + destruct Ho as [Hr Hs]. destruct r as [c|e]; [done|]. apply (owns_answer _ _ []); [done|].
      by apply owns_conclude.
    + rewrite <- (app_nil_r left). apply owns_answer; [done|]. by apply owns_conclude.
  - apply owns_bind_neutral; [neutral_program|]. intros _. apply owning_bind.
    eapply owning_mono; [by apply owns_abandon|]. intros owed l Howed.
    apply (owns_answer _ _ []); [done|]. apply owns_timeout_fallback.
Qed.

Lemma owns_eager_work raw key opts current tags kind :
  owns (eager_work ci raw key opts current tags kind) [C_ReleaseLocal key] settled_completion.
Proof.
  unfold eager_work. apply owns_or_release.
  apply owning_mono with (λ r left, left = match r with Ok (Some lease) => [C_ReleaseLease lease] | _ => [] end
                                            ++ [C_ReleaseLocal key]).
  { destruct (_ || _); [by apply owns_ret|]. split; [done|]. by intros [[lease|]|e]; eexists. }
  intros [lease|e] left ->; [|split; [exact (drops_release_local (Held key))|done]].
  set (guard := flight_guard ci (Held key) lease).
  assert (match lease with Some lease => [C_ReleaseLease lease] | None => [] end ++ [C_ReleaseLocal key] =
    flight_releases (V := V) guard) as -> by (unfold guard; by rewrite flight_releases_guard).
  apply owns_or_release_neutral; [neutral_program|apply drops_drop_flight|done|]. intros [v|].
  { apply owns_then; [apply drops_drop_flight|]. by apply owns_ret. }
  apply owns_or_release, owns_attempt_neutral; [unfold stale_info; neutral_program| |by split; [apply drops_drop_flight|]].
  intros stale. apply owning_attempt. eapply owning_mono; [apply owns_capture_origin|].
  intros [g|e] left [-> Hg]; [|by split; [apply drops_drop_flight|]].
  apply owns_bind_neutral; [neutral_program|]. intros started. apply owns_ret.
  pose proof (Hg g eq_refl) as Hgg. rewrite <- Hgg.
  apply owns_or_release_neutral; [neutral_program|apply drops_drop_flight|done|]. intros product.
  apply owning_bind. eapply owning_mono; [apply owns_store_product|]. intros r left Hr.
  assert (owns (Ret r) left settled_completion) as Hret by by apply owns_ret.
  destruct r as [c|e]; [done|].
  destruct e as [| | |[]| | | | | | | | | | | | | | | | | | | | | | | | | | |]; try exact Hret.
  apply owns_bind_neutral; [neutral_program|]. by intros _.
Qed.

Lemma owns_eager raw key opts current tags kind :
  owns (eager ci raw key opts current tags kind) [] owed_holds.
Proof.
  unfold eager. split; [done|]. intros [|]; [|by apply owns_ret].
  apply (owns_bind_neutral (emit (EV_EagerRefresh key))); [neutral_program|]. intros _. apply owns_ret.
  apply owning_attempt. eapply owning_mono; [apply owns_eager_work|]. intros [c|e] left Hc; [|done].
  apply owns_bind_neutral; [destruct c; neutral_program|]. intros _. by apply owns_ret.
Qed.

(** A fact of every execution holds of what is left. *)
Lemma owning_fact calm {A} (p : prog A) held Q (R : A → Prop) :
  owning (V := V) calm p held Q → traced p (λ a _, R a) → owning calm p held (λ a left, Q a left ∧ R a).
Proof.
  intros Hp HR. assert (wp (world V) p [] (λ a _, R a)) as Hw.
  { eapply wp_mono; [apply HR|]. naive_solver. }
  clear HR. revert held Hp Hw. generalize (@nil (event (answer (V := V)))).
  induction p as [a|c k IH]; intros h held; cbn [owning].
  - intros (left & ? & ?) ?. by exists left.
  - intros [Hc Hk] HR. split; [done|]. pose proof (λ x held Hk, IH x _ held Hk (HR x _ eq_refl)) as Hx.
    destruct (is_release c); [|destruct (is_drop c)]; [destruct Hk as (left & ? & ?); eauto..|auto].
Qed.

Lemma owns_continue_origin raw key kind tags default r left :
  looked (Ok r) left → (∀ o, r = OL_Served o → cached_commit (observed_value o) = None) →
  owns (continue_origin ci raw key kind tags default r) left answered.
Proof.
  unfold looked. intros -> Hr. destruct r as [o|opts current|opts stale guard].
  - apply owns_ret. exists [], []. split_and!; [done| |done]. unfold settled_value. cbn. by rewrite (Hr o).
  - apply owning_bind. eapply owning_mono; [apply owns_eager|]. intros owed left Ho.
    apply (owns_answer _ _ []); [done|apply owns_served].
  - apply owns_compute_origin.
Qed.

Lemma owns_get_or_set raw key kind options tags default :
  owns (get_or_set ci raw key kind options tags default) [] answered.
Proof.
  unfold get_or_set. apply owning_bind.
  apply owning_mono with (λ r left, looked r left ∧
    match r with Ok (OL_Served o) => cached_commit (observed_value o) = None | _ => True end).
  - apply owns_attempt_neutral; [neutral_program| |done]. intros opts.
    apply owning_fact; [apply (owns_lookup_origin ci key opts kind _ None)|].
    eapply traced_mono; [apply traced_lookup_origin|]. intros [[]|] l H; try done. apply H.
  - intros [r|e] left [Hl Hr]; [|apply owns_ret; exists [], []; by rewrite Hl].
    apply owns_continue_origin; [done|]. by intros o ->.
Qed.
End requests.

(** ** What the predicate says of executions *)
Section accounts.
Context {V : Type}.
Local Abbreviation prog := (prog (answer (V := V))).
Implicit Types l : list (event (answer (V := V))).

Definition acquired l : list (Call V) := l ≫= λ ev, takes (ev_call ev) (ev_answer ev).
Definition released l : list (Call V) := l ≫= λ ev, if is_release (ev_call ev) then [ev_call ev] else [].
Definition drops_work l : bool := existsb (λ ev, is_drop (ev_call ev)) l.

Lemma acquired_snoc l ev : acquired (l ++ [ev]) = acquired l ++ takes (ev_call ev) (ev_answer ev).
Proof. unfold acquired. rewrite bind_app. cbn. by rewrite app_nil_r. Qed.
Lemma released_snoc l ev :
  released (l ++ [ev]) = released l ++ (if is_release (ev_call ev) then [ev_call ev] else []).
Proof. unfold released. rewrite bind_app. cbn. by rewrite app_nil_r. Qed.

(** Unless unfinished work was dropped, the guards released and those left are
    the guards held at first and those acquired, each exactly once. *)
Lemma owning_accounts calm {A} (p : prog A) held Q h :
  owning calm p held Q →
  wp (any (λ _, true)) p h (λ a h', ∃ l, h' = l ++ h ∧
    (drops_work l = false → ∃ left, Q a left ∧ acquired l ++ held ≡ₚ released l ++ left)).
Proof.
  revert held h. induction p as [a|c k IH]; intros held h; cbn [owning wp].
  { intros (left & Hp & HQ). exists []. split; [done|]. intros _. by exists left. }
  intros [_ Hk] x h' Hh. cbv [allows any record] in Hh. subst h'.
  assert (∀ held', owning calm (k x) held' Q →
    (is_drop c = false → ∀ l left, acquired l ++ held' ≡ₚ released l ++ left →
       acquired (l ++ [Ev c x]) ++ held ≡ₚ released (l ++ [Ev c x]) ++ left) →
    wp (any (λ _, true)) (k x) (Ev c x :: h) (λ a h', ∃ l, h' = l ++ h ∧
      (drops_work l = false → ∃ left, Q a left ∧ acquired l ++ held ≡ₚ released l ++ left))) as Hgo.
  { intros held' Hp Hacc. eapply wp_mono; [by apply (IH x held')|].
    intros a h' (l & -> & Hl). exists (l ++ [Ev c x]). split; [by rewrite <- app_assoc|].
    unfold drops_work. rewrite existsb_app, orb_false_iff. intros [Hd Hc]. cbn in Hc. rewrite orb_false_r in Hc.
    destruct (Hl Hd) as (left & HQ & Hperm). exists left. split; [done|]. by apply Hacc. }
  setoid_rewrite acquired_snoc in Hgo. setoid_rewrite released_snoc in Hgo. cbn [ev_call ev_answer] in Hgo.
  destruct (is_release c) eqn:Hr; [|destruct (is_drop c) eqn:Hd].
  - destruct Hk as (left & Hp & Hk). apply (Hgo left); [done|]. intros _ l left' Hl.
    assert (takes c x = []) as -> by by destruct c. rewrite app_nil_r, Hp.
    rewrite <- Permutation_middle, Hl, <- app_assoc. cbn [app]. by rewrite <- Permutation_middle.
  - destruct Hk as (left & _ & Hk). by apply (Hgo left).
  - apply (Hgo (takes c x ++ held)); [done|]. intros _ l left' Hl.
    by rewrite app_nil_r, <- Hl, !app_assoc.
Qed.
End accounts.

Module GuardTheorems.
Section theorems.
Context {V : Type} (ci : Inner).
Local Abbreviation owns := (owning (V := V) always).

(** C6: Every lane, same-key lock and cluster lease a request acquires is
    released exactly once, on every path: a read, an assignment or a removal
    that returns an error holds nothing at its end, one that succeeds holds
    nothing but what its scheduled commit goes on to release, and what
    get-or-set leaves is shared between its receipt's commit and the work the
    cache still owes (the origin that outlived its caller, the eager refresh,
    a commit whose receipt was dropped), each of which releases its share in
    turn. No path releases a guard it does not hold, and a read that its
    budget may drop holds nothing wherever it can be dropped. *)
Theorem guards_are_linear :
  (∀ raw full options, owns (read ci raw full options) [] keeps) ∧
  (∀ key, owning (V := V) suspends (fetch_l2 ci key) [] keeps) ∧
  (∀ raw value options tags, owns (set ci raw value options tags) []
     (λ r, settled (match r with Ok o => Ok (observed_value o) | Err e => Err e end))) ∧
  (∀ raw options mutation, owns (key_mutation ci raw options mutation) []
     (λ r, settled (match r with Ok o => Ok (observed_value o) | Err e => Err e end))) ∧
  (∀ raw key kind options tags default, owns (get_or_set ci raw key kind options tags default) [] answered).
Proof.
  split_and!; intros;
    [apply neutral_read|apply droppable_fetch_l2|apply owns_set|apply owns_key_mutation|apply owns_get_or_set].
Qed.
End theorems.
End GuardTheorems.
