(* ===== verification/Control.v ===== *)
(** * The language of the control pipelines

    Models what the marker pipelines of [src/src/cache/markers.rs] and the replays
    of [src/src/cache/recovery.rs] share: their accesses, the guards they hold,
    the phases they own and the configuration they read. A control pipeline is a
    program over [MCall]: the accesses of the value pipelines ([M_Worker]) and
    those of the marker components. Provider futures owned by a phase are dropped
    at a suspension when the phase's timer elapses or its token is cancelled. *)
From Stdlib Require Init.Byte.
From S2P Require Import Prelude Time Calls Circuit Options Entry Tags Backplane Cancellation.
From S2P Require Import Invalidation Storage Lanes Wire Lease Recovery Observe Worker Write.
Open Scope prog_scope.

(** ** Configuration *)
Inductive MarkerAccess := AC_Local | AC_Unavailable | AC_Durable | AC_Ordinary.
#[export] Instance MarkerAccess_eq_dec : EqDecision MarkerAccess.
Proof. solve_decision. Defined.
Inductive MarkerReads := DurableReads | ControlledReads (observations : Observations).

(** The marker fields of [CacheInner]. *)
Record MarkerConfig := mkMarkers {
  tags_default_options : EntryOptions;
  markers : MarkerAccess;
  marker_reads : MarkerReads }.

Definition is_durable (access : MarkerAccess) : bool :=
  match access with AC_Durable | AC_Ordinary => true | AC_Local | AC_Unavailable => false end.
Definition caches_snapshots (observations : Observations) : bool :=
  match lifecycle observations with CachedSnapshots => true | DurableOnly => false end.

(** Ownership of a marker refresh; the lease is named by its key. *)
Inductive MarkerLease := ML_Unleased | ML_Fenced (lease : string) | ML_Cooperative (lease : string).
Definition is_held (lease : MarkerLease) : bool := match lease with ML_Unleased => false | _ => true end.

(** ** Commits *)
Inductive MarkerLocalCommit :=
| LO_Admitted
| LO_AwaitingFence (observation : MarkerObservation) (created : Timestamp) (jitter : JitterSample).
Record MarkerSnapshotCommit := mkSnapshotCommit {
  sc_kind : MarkerKind; sc_snapshot : MarkerSnapshot; sc_options : EntryOptions; sc_captured : Z;
  sc_lease : MarkerLease; sc_local : MarkerLocalCommit }.
#[export] Instance eta_MarkerSnapshotCommit : Eta MarkerSnapshotCommit := λ c,
  mkSnapshotCommit (sc_kind c) (sc_snapshot c) (sc_options c) (sc_captured c) (sc_lease c) (sc_local c).

Inductive MarkerSnapshotWriteOutcome := SW_Stored | SW_KeptNewer | SW_Expired | SW_BackendFailure | SW_ProtocolFailure.

(** What the pipelines emit, besides the events of a value pipeline. *)
Inductive MarkerEvent :=
| ME_Read (kind : MarkerKind) (outcome : MarkerReadOutcome)
| ME_EagerRefresh (kind : MarkerKind)
| ME_SnapshotWrite (kind : MarkerKind) (outcome : MarkerSnapshotWriteOutcome)
| ME_RemoveByTag (tag : Tag) | ME_Clear.

(** The tasks the cache owns; each takes over what its starter held for it. *)
Inductive MarkerTask :=
| MT_EagerRemote (kind : MarkerKind) (current : Entry MarkerObservation) (captured : Z)
| MT_EagerLocal (kind : MarkerKind) (captured : Z)
| MT_Commit (commit : MarkerSnapshotCommit).

(** A hybrid cache with a locker, a recovery queue and a backplane. *)
Definition demo_inner : Inner :=
  mkInnerConfig (ST_Hybrid (Ser_Sync tt)) SyncPreferred Options.default_options RR_Inline Standard false true true true
    false RBT_Expire OptionsControlled Separate PlanOwned GeneralWrite LP_Fenced (from_secs 30) "node" None DK_Unmodified
    demo_scope 1.
Definition demo_observations : Observations := mkObservations (NS_Durable demo_scope) false CachedSnapshots 1.
Definition demo_config : MarkerConfig :=
  mkMarkers Options.default_options AC_Durable (ControlledReads demo_observations).

(** ** Accesses *)
Section control.
Context {V : Type}.

Inductive MCall :=
| M_Worker (c : Call V)
(* the registry and the clear shortcut *)
| M_Version (k : MarkerKind) | M_Advance (k : MarkerKind) (v : MarkerVersion)
| M_ClearStatus (k : MarkerKind) (epoch : Z)
| M_InitializeClear (k : MarkerKind) (epoch : Z) (outcome : MarkerReadOutcome)
(* the observation memory *)
| M_Cached (k : MarkerKind) (now : Timestamp)
| M_Store (k : MarkerKind) (o : MarkerObservation) (opts : EntryOptions) (now : Timestamp) (jitter : JitterSample) (captured : Z)
| M_StoreSnapshot (k : MarkerKind) (o : MarkerObservation) (s : MarkerSnapshot) (opts : EntryOptions) (now : Timestamp) (captured : Z)
| M_RetainFallback (k : MarkerKind) (source : Entry MarkerObservation) (opts : EntryOptions) (now : Timestamp) (failure : MarkerReadFailure)
| M_RetainSnapshot (k : MarkerKind) (s : MarkerSnapshot) (p : MarkerPresence) (opts : EntryOptions) (now : Timestamp)
    (failure : MarkerReadFailure) (captured : Z)
| M_MergeMaximum (k : MarkerKind) (v : MarkerVersion) (now : Timestamp) (captured : Z)
| M_Claim (k : MarkerKind) (current : Entry MarkerObservation) (now : Timestamp)
(* locks, the marker lane and leases *)
| M_Lock (key : string) (timeout : Timeout) | M_TryLock (key : string) | M_Unlock (key : string)
| M_Lane | M_Unlane
| M_Acquire (key : string) (timeout : Timeout) (policy : LeasePolicy)
| M_LeaseProof (lease : string) | M_LeaseState (lease : string)
| M_Release (lease : string) | M_DropLease (lease : string)
| M_Supervise (k : MarkerKind) (e : LeaseError)
(* marker storage *)
| M_Read (k : MarkerKind) | M_ReadBytes (key : string)
| M_ReadManyImmediate (kinds : list MarkerKind) | M_ReadMany (kinds : list MarkerKind)
| M_AdvanceStore (scope : CacheScope) (k : MarkerKind) (v : MarkerVersion)
| M_WriteBytes (key : string) (bytes : list Init.Byte.byte) (ttl : option Duration)
| M_ReadSnapshot (k : MarkerKind) (now : Timestamp)
| M_Renew (k : MarkerKind) (s : MarkerSnapshot) (now : Timestamp) (proof : option LeaseProof)
(* the memory store, recovery, observers and tasks *)
| M_InvalidateAll
| M_Enqueue (work : RecoveryWork)
| M_IsCurrent | M_NotificationStage | M_PopulationStage (work : MarkerMutationRecovery) | M_Connected
| M_Emit (e : MarkerEvent)
| M_Spawn (task : MarkerTask).

Definition manswer (c : MCall) : Type :=
  match c with
  | M_Worker c => answer c
  | M_Version _ => option MarkerVersion
  | M_Advance _ _ => MarkerAdvanceOutcome
  | M_ClearStatus _ _ => option MarkerReadOutcome
  | M_InitializeClear _ _ _ => unit
  | M_Cached _ _ => result CacheError (option (Entry MarkerObservation))
  | M_Store _ _ _ _ _ _ | M_StoreSnapshot _ _ _ _ _ _ | M_RetainFallback _ _ _ _ _
  | M_RetainSnapshot _ _ _ _ _ _ _ => result CacheError MarkerObservation
  | M_MergeMaximum _ _ _ _ => result CacheError (option MarkerObservation)
  | M_Claim _ _ _ => result CacheError MemoryAdmission
  | M_Lock _ _ | M_TryLock _ => result CacheError bool
  | M_Unlock _ | M_Lane | M_Unlane | M_DropLease _ | M_Supervise _ _ => unit
  | M_Acquire _ _ _ => result CacheError (option string)
  | M_LeaseProof _ => result LeaseError LeaseProof
  | M_LeaseState _ => Owned.LeaseState
  | M_Release _ => result LeaseError unit
  | M_Read _ => result CacheError (option MarkerVersion)
  | M_ReadBytes _ => result CacheError (option (list Init.Byte.byte))
  | M_ReadManyImmediate _ => option (result MarkerError (list StoredMarker))
  | M_ReadMany _ => result MarkerError (list StoredMarker)
  | M_AdvanceStore _ _ _ => result MarkerError MarkerAdvanceOutcome
  | M_WriteBytes _ _ _ => result CacheError unit
  | M_ReadSnapshot _ _ => result CacheError MarkerSnapshotRead
  | M_Renew _ _ _ _ => result CacheError MarkerSnapshotRenewal
  | M_InvalidateAll => result CacheError unit
  | M_Enqueue _ => result RecoveryError EnqueueOutcome
  | M_IsCurrent | M_Connected => bool
  | M_NotificationStage | M_PopulationStage _ => RecoveryStageTransition
  | M_Emit _ | M_Spawn _ => unit
  end.
End control.
Arguments MCall V : clear implicits.

(** ** Shared operations *)
Section shared.
Context {V : Type} (ci : Inner) (mc : MarkerConfig).
Local Abbreviation prog := (prog (manswer (V := V))).
Local Abbreviation action A := (prog (result CacheError A)).
Local Abbreviation ask c := (call (ans := manswer (V := V)) c).
Local Abbreviation tell c := (call (ans := manswer (V := V)) (M_Worker c)).

(** A value pipeline's operation, in a control pipeline. *)
Fixpoint lift {A} (p : Calls.prog (answer (V := V)) A) : prog A :=
  match p with
  | Ret a => Ret a
  | Act c k => Act (M_Worker c) (λ x, lift (k x))
  end.

Definition check : action unit := lift Worker.check.
Definition now : prog Timestamp := tell C_Now.
Definition fresh_jitter (opts : EntryOptions) : action JitterSample := lift (jitter_sample ci opts).
Definition or_error {A} (from : LeaseError → CacheError) (r : result LeaseError A) : result CacheError A := map_err from r.

(** A guard dropped at the end of its scope, on every path. *)
Definition finally {A} (release : prog unit) (work : prog A) : prog A :=
  let* r := work in release ;;; Ret r.
(** [?] while a guard is held that is handed on later. *)
Definition or_release {A B} (release : prog unit) (work : action A) (k : A → action B) : action B :=
  let* r := work in
  match r with Ok a => k a | Err e => release ;;; raise e end.

(** *** Options *)
Definition validate_execution_options (opts : EntryOptions) : action unit :=
  let? _ := Ret (map_err CE_Config (EntryOptions.validate opts)) in
  lift (validate_runtime (options_require_runtime ci opts (is_durable (markers mc)))).
Definition marker_clear_shortcut : bool := is_hybrid (storage ci) && has_backplane ci.

(** *** The registry *)
Definition apply_marker (marker : StoredMarker) : prog unit :=
  let* _ := ask (M_Advance (Tags.kind marker) (stored_version marker)) in Ret tt.
Fixpoint apply_markers (l : list StoredMarker) : prog unit :=
  match l with [] => Ret tt | marker :: l => apply_marker marker ;;; apply_markers l end.
Definition accept_marker_observation (k : MarkerKind) (o : MarkerObservation) : prog unit :=
  match MarkerObservation.presence o with
  | Present v => apply_marker (mkStoredMarker k v)
  | Absent => Ret tt
  end.

(** *** Phases *)

(** The accesses at which a control pipeline can suspend. *)
Definition suspends (c : MCall V) : bool :=
  match c with
  | M_Worker (C_Publish _) | M_Worker (C_BackendGet _) | M_Worker (C_Decode _) | M_Worker (C_Encode _)
  | M_Worker (C_GetAt _ _) | M_Worker (C_Lane _) | M_Worker (C_BackendSet _ _ _) | M_Worker (C_BackendRemove _)
  | M_Worker (C_WriteWithLease _ _ _)
  | M_Cached _ _ | M_Store _ _ _ _ _ _ | M_StoreSnapshot _ _ _ _ _ _ | M_RetainFallback _ _ _ _ _
  | M_RetainSnapshot _ _ _ _ _ _ _ | M_MergeMaximum _ _ _ _ | M_Claim _ _ _ | M_Lock _ _ | M_Lane | M_Acquire _ _ _
  | M_Release _ | M_Read _ | M_ReadBytes _ | M_ReadMany _ | M_AdvanceStore _ _ _ | M_WriteBytes _ _ _
  | M_ReadSnapshot _ _ | M_Renew _ _ _ _ => true
  | _ => false
  end.

(** A child phase under an optional timer: [None] when the timer elapsed, the
    token's error when it, its parent or the registry was cancelled. What the
    dropped work held is dropped with it. *)
Fixpoint phase {A} (timed : bool) (work : action A) : prog (option (result CacheError A)) :=
  match work with
  | Ret a =>
      let* reason := tell C_PhaseReason in
      match reason with
      | Some r => tell C_DropWork ;;; Ret (Some (Err (CE_OperationCancelled r)))
      | None => Ret (Some a)
      end
  | Act c k =>
      if suspends c then
        let* elapsed := if timed then tell C_Elapsed else Ret false in
        if elapsed then tell C_DropWork ;;; Ret None
        else
          let* reason := tell C_PhaseReason in
          match reason with
          | Some r => tell C_DropWork ;;; Ret (Some (Err (CE_OperationCancelled r)))
          | None => Act c (λ x, phase timed (k x))
          end
      else Act c (λ x, phase timed (k x))
  end.
(** [execution.await]: without a timer a phase always answers. *)
Definition owned {A} (work : action A) : action A :=
  let* r := phase false work in
  Ret (match r with Some r => r | None => Err CE_Panic end).
Definition bounded {A} (timeout : Timeout) (work : action A) : action (option (result CacheError A)) :=
  let? _ := lift (validate_budget timeout) in
  match timeout with
  | Infinite => let* r := phase false work in ok r
  | After duration =>
      if is_zero duration then ok None else let* r := phase true work in ok r
  end.

(** *** Leases *)
Definition lease_proof (lease : MarkerLease) : action (option LeaseProof) :=
  match lease with
  | ML_Unleased => ok None
  | ML_Fenced lease =>
      let* proved := ask (M_LeaseProof lease) in Ret (map_err CE_Lease (Some <$> proved))
  | ML_Cooperative lease =>
      let* state := ask (M_LeaseState lease) in
      match state with
      | Owned.LS_Held => ok None
      | _ => raise (CE_Lease Lost)
      end
  end.
Definition lease_release (lease : MarkerLease) : prog (result LeaseError unit) :=
  match lease with
  | ML_Unleased => ok tt
  | ML_Fenced lease | ML_Cooperative lease => ask (M_Release lease)
  end.
(** [drop]: the release is handed to the supervisor. *)
Definition drop_lease (lease : MarkerLease) : prog unit :=
  match lease with
  | ML_Unleased => Ret tt
  | ML_Fenced lease | ML_Cooperative lease => ask (M_DropLease lease)
  end.

Definition cooperative (policy : LeasePolicy) : bool := match policy with LP_Cooperative => true | LP_Fenced => false end.
Definition is_backend_fault (e : LeaseError) : bool := match e with Lease.Backend => true | _ => false end.

Definition finish_control_marker_lease {A} (k : MarkerKind) (lease : MarkerLease) (r : result CacheError A) : action A :=
  let* released := lease_release lease in
  let released :=
    match released with
    | Err e =>
        if is_backend_fault e && cooperative (lease_policy ci)
           && negb (EntryOptions.rethrow_distributed_locker_exceptions (tags_default_options mc))
        then Ok tt else Err e
    | Ok _ => Ok tt
    end in
  match r, released with
  | Ok a, Ok _ => ok a
  | Ok _, Err e => raise (CE_Lease e)
  | Err e, Ok _ => raise e
  | Err e, Err cleanup => ask (M_Supervise k cleanup) ;;; raise e
  end.
End shared.

(** ** A value pipeline with its control pipelines in place

    [Read.v] asks for a reconciliation with one access; [expand] runs the
    pipeline that answers it. *)
Section expand.
Context {V : Type} (controlled : Entry V → prog (manswer (V := V)) (result CacheError unit)).
Context (reconcile : list Tag → option (result MarkerError (list StoredMarker)) →
  prog (manswer (V := V)) (result CacheError unit)).

Definition expand_call (c : Call V) : prog (manswer (V := V)) (answer c) :=
  match c return prog (manswer (V := V)) (answer c) with
  | C_ReconcileControlled e => controlled e
  | C_ReconcileMarkers tags prefetched => reconcile tags prefetched
  | c => call (M_Worker c)
  end.
Fixpoint expand {A} (p : prog (answer (V := V)) A) : prog (manswer (V := V)) A :=
  match p with
  | Ret a => Ret a
  | Act c k => bind (expand_call c) (λ x, expand (k x))
  end.
End expand.

(** ** Theory: what a control pipeline ensures *)
Definition quiet {V} (c : MCall V) : bool :=
  match c with M_Worker C_DropWork => true | M_Worker c => is_budget c | _ => false end.
Abbreviation chronicle V := (list (event (manswer (V := V)))) (only parsing).

Section theory.
Context {V : Type} (J : chronicle V → MCall V → Prop).
Local Abbreviation prog := (prog (manswer (V := V))).
Local Abbreviation note := (record (λ c : MCall V, negb (quiet c))).
Implicit Types (h : chronicle V).

(** Every access is justified by what was recorded before it, and what the
    program answers satisfies [Q]. *)
Fixpoint ensures {A} (p : prog A) (h : chronicle V) (Q : A → chronicle V → Prop) : Prop :=
  match p with
  | Ret a => Q a h
  | Act c k => J h c ∧ ∀ x, ensures (k x) (note c x h) Q
  end.

Lemma ensures_grows {A} (p : prog A) h Q :
  ensures p h Q → ensures p h (λ a h', h ⊆ h' ∧ Q a h').
Proof.
  enough (∀ h0, h0 ⊆ h → ensures p h Q → ensures p h (λ a h', h0 ⊆ h' ∧ Q a h')) as H by (by apply H).
  induction p as [a|c k IH] in h |- *; intros h0 Hh; [done|]. intros [Hc Hk]. split; [done|]. intros x.
  apply IH; [|done]. unfold record. destruct (negb _); set_solver.
Qed.
Lemma ensures_mono {A} (p : prog A) h (Q Q' : A → chronicle V → Prop) :
  ensures p h Q → (∀ a h', h ⊆ h' → Q a h' → Q' a h') → ensures p h Q'.
Proof.
  intros Hp HQ. apply ensures_grows in Hp.
  enough (∀ h0, ensures p h (λ a h', h0 ⊆ h' ∧ Q a h') → (∀ a h', h0 ⊆ h' → Q a h' → Q' a h') → ensures p h Q')
    as H by (by apply (H h)).
  clear HQ Hp. intros h0 Hp HQ. induction p as [a|c k IH] in h, Hp |- *; [apply HQ; apply Hp|].
  destruct Hp as [Hc Hk]. split; [done|]. intros x. by apply IH.
Qed.
Lemma ensures_bind {A B} (p : prog A) (f : A → prog B) h Q :
  ensures p h (λ a h', ensures (f a) h' Q) → ensures (bind p f) h Q.
Proof. revert h. induction p as [a|c k IH]; intros h; [done|]. intros [Hc Hk]. split; [done|]. intros x. by apply IH. Qed.
Lemma ensures_use {A B} (p : prog A) (f : A → prog B) h P Q :
  ensures p h P → (∀ a h', h ⊆ h' → P a h' → ensures (f a) h' Q) → ensures (bind p f) h Q.
Proof. intros Hp Hf. apply ensures_bind. by eapply ensures_mono. Qed.
Lemma ensures_attempt {A B X} (p : prog (result X A)) (f : A → prog (result X B)) h
    (P : result X A → chronicle V → Prop) (Q : result X B → chronicle V → Prop) :
  ensures p h P → (∀ e h', h ⊆ h' → P (Err e) h' → Q (Err e) h') →
  (∀ a h', h ⊆ h' → P (Ok a) h' → ensures (f a) h' Q) → ensures (attempt p f) h Q.
Proof. intros Hp He Hf. eapply ensures_use; [exact Hp|]. intros [a|e] h' Hh HP; [by apply Hf|by apply He]. Qed.
Lemma ensures_only {A} (p : prog A) h : only (λ c, ∀ h, J h c) p → ensures p h (λ _ _, True).
Proof. revert h. induction p as [a|c k IH]; intros h; [done|]. intros [Hc Hk]. split; [apply Hc|]. intros x. by apply IH. Qed.
Lemma ensures_release {A B} (release : prog unit) (work : prog (result CacheError A)) (k : A → prog (result CacheError B)) h
    (P : result CacheError A → chronicle V → Prop) (Q : result CacheError B → chronicle V → Prop) :
  ensures work h P → (∀ e h', h ⊆ h' → P (Err e) h' → ensures release h' (λ _ h'', Q (Err e) h'')) →
  (∀ a h', h ⊆ h' → P (Ok a) h' → ensures (k a) h' Q) → ensures (or_release release work k) h Q.
Proof.
  intros Hp He Hf. eapply ensures_use; [exact Hp|]. intros [a|e] h' Hh HP; [by apply Hf|].
  apply ensures_bind. eapply ensures_mono; [by apply He|]. by intros [] h'' _ HQ.
Qed.
Lemma ensures_finally {A} (release : prog unit) (work : prog A) h (P : A → chronicle V → Prop) (Q : A → chronicle V → Prop) :
  ensures work h P → (∀ a h', h ⊆ h' → P a h' → ensures release h' (λ _ h'', Q a h'')) →
  ensures (finally release work) h Q.
Proof.
  intros Hp Hr. eapply ensures_use; [exact Hp|]. intros a h' Hh HP. apply ensures_bind.
  eapply ensures_mono; [by apply Hr|]. by intros [] h'' _ HQ.
Qed.

(** A phase answers what its work does, or that it was cancelled or late. [I]
    holds where the work can be dropped. *)
Context (I : chronicle V → Prop).
Definition phased {A} (timed : bool) (Q : result CacheError A → chronicle V → Prop)
    (r : option (result CacheError A)) (h : chronicle V) : Prop :=
  match r with
  | Some (Ok a) => Q (Ok a) h
  | Some (Err e) => Q (Err e) h ∨ ∃ reason, e = CE_OperationCancelled reason
  | None => timed = true ∧ I h
  end.
Context (HJ : ∀ h c, quiet c = true → J h c) (HI : ∀ h c, J h c → suspends c = true → I h).
Lemma ensures_quiet {A} (c : MCall V) (k : manswer c → prog A) h Q :
  quiet c = true → (∀ x, ensures (k x) h Q) → ensures (Act c k) h Q.
Proof. intros Hc Hk. split; [by apply HJ|]. intros x. unfold record. rewrite Hc. apply Hk. Qed.
Lemma ensures_phase {A} timed (work : prog (result CacheError A)) h Q :
  ensures work h Q → ensures (phase timed work) h (phased timed Q).
Proof.
  assert (∀ h (e : option (result CacheError A)), phased timed Q e h →
    ensures (bind (call (M_Worker C_DropWork)) (λ _ : unit, Ret e)) h (phased timed Q)) as Hdrop.
  { intros h' e He. cbn [bind call]. by apply ensures_quiet. }
  revert h. induction work as [a|c k IH]; intros h; cbn [phase].
  - intros HQ. cbn [bind call]. apply ensures_quiet; [done|]. intros [r|]; cbn [bind].
    + apply Hdrop. cbn. eauto.
    + destruct a; cbn; eauto.
  - intros [Hc Hk]. assert (ensures (Act c (λ x, phase timed (k x))) h (phased timed Q)) as Hgo
      by (split; [done|]; intros x; by apply IH).
    destruct (suspends c) eqn:Hsuspends; [|done].
    assert (ensures (bind (call (M_Worker C_PhaseReason)) (λ reason : option CancellationReason,
      match reason with
      | Some r => bind (call (M_Worker C_DropWork)) (λ _ : unit, Ret (Some (Err (CE_OperationCancelled r))))
      | None => Act c (λ x, phase timed (k x)) end)) h (phased timed Q)) as Hreason.
    { cbn [bind call]. apply ensures_quiet; [done|]. intros [r|]; [|done]. apply Hdrop. cbn. eauto. }
    destruct timed; [|exact Hreason]. cbn [bind call]. apply ensures_quiet; [done|]. intros [|]; [|exact Hreason].
    apply Hdrop. cbn. eauto.
Qed.
Lemma ensures_owned {A} (work : prog (result CacheError A)) h Q :
  ensures work h Q → ensures (owned work) h (λ r h', Q r h' ∨ ∃ reason, r = Err (CE_OperationCancelled reason)).
Proof.
  intros Hw. eapply ensures_use; [by apply ensures_phase|]. intros [[a|e]|] h' _; cbn; [eauto| |by intros []].
  intros [|[r ->]]; eauto.
Qed.

(** Checking a budget records nothing. *)
Lemma ensures_budget timeout h : ensures (lift (validate_budget timeout)) h (λ r h', h' = h ∧ match r with Ok _ => True | Err e => ∃ c, e = CE_Config c end).
Proof.
  unfold validate_budget. destruct timeout as [|d]; [done|]. cbn [lift bind call]. apply ensures_quiet; [done|].
  intros at_. case_match; cbn; eauto.
Qed.
Lemma ensures_bounded {A} timeout (work : prog (result CacheError A)) h Q :
  I h → ensures work h Q →
  ensures (bounded timeout work) h (λ r h', match r with
    | Ok (Some (Ok a)) => Q (Ok a) h'
    | Ok (Some (Err e)) => Q (Err e) h' ∨ ∃ reason, e = CE_OperationCancelled reason
    | Ok None => I h'
    | Err e => ∃ c, e = CE_Config c end).
Proof.
  intros Hh Hw. eapply ensures_attempt; [apply ensures_budget|by intros e h' _ []|]. intros [] h' _ [-> _].
  destruct timeout as [|d]; [|destruct (is_zero d); [done|]].
  all: eapply ensures_use; [by apply ensures_phase|]; intros [[a|e]|] h'' _; cbn; try done; by intros [].
Qed.

(** A lifted operation records accesses of the worker. *)
Lemma ensures_lift {A} (p : Calls.prog (answer (V := V)) A) h :
  (∀ h c, J h (M_Worker c)) → ensures (lift p) h (λ _ _, True).
Proof. intros Hw. apply ensures_only. induction p as [a|c k IH]; [done|]. split; [intros ?; apply Hw|exact IH]. Qed.

(** From justified accesses to the record of an execution. *)
Lemma ensures_wp {A} (p : prog A) h Q :
  ensures p h Q → wp (any (λ c, negb (quiet c))) p h Q.
Proof. revert h. induction p as [a|c k IH]; intros h; [done|]. intros [_ Hk] x s' ->. by apply IH. Qed.
End theory.

Lemma ensures_weaken {V A} (J J' : chronicle V → MCall V → Prop) (p : prog (manswer (V := V)) A) h Q :
  ensures J p h Q → (∀ h c, J h c → J' h c) → ensures J' p h Q.
Proof. intros Hp HJ. revert h Hp. induction p as [a|c k IH]; intros h; [done|]. intros [Hc Hk]. split; auto. Qed.

(** Lifting is a morphism. *)
Lemma ensures_lift_bind {V A B} J (p : Calls.prog (answer (V := V)) A) (f : A → Calls.prog (answer (V := V)) B) h Q :
  ensures J (bind (lift p) (λ a, lift (f a))) h Q → ensures J (lift (bind p f)) h Q.
Proof. revert h. induction p as [a|c k IH]; intros h; [done|]. intros [Hc Hk]. split; [done|]. intros x. by apply IH. Qed.

(** A phase only adds accesses that nothing records. *)
Lemma only_phase {V A} (P : MCall V → Prop) timed (work : prog (manswer (V := V)) (result CacheError A)) :
  (∀ c, quiet c = true → P c) → only P work → only P (phase timed work).
Proof.
  intros HP Hw. assert (∀ (r : option (result CacheError A)),
    only P (bind (call (ans := manswer) (M_Worker C_DropWork)) (λ _ : unit, Ret r))) as Hdrop by (intros r; split; [by apply HP|done]).
  induction work as [a|c k IH]; cbn [phase].
  - split; [by apply HP|]. intros [r|]; [apply Hdrop|done].
  - destruct Hw as [Hc Hk]. assert (only P (Act c (λ x, phase timed (k x)))) as Hgo by (split; eauto).
    assert (only P (bind (call (ans := manswer) (M_Worker C_PhaseReason)) (λ reason : option CancellationReason,
      match reason with
      | Some r => bind (call (ans := manswer) (M_Worker C_DropWork)) (λ _ : unit, Ret (Some (Err (CE_OperationCancelled r))))
      | None => Act c (λ x, phase timed (k x)) end))) as Hreason.
    { split; [by apply HP|]. intros [r|]; [apply Hdrop|exact Hgo]. }
    destruct (suspends c); [|done]. destruct timed; [|exact Hreason].
    split; [by apply HP|]. intros [|]; [apply Hdrop|exact Hreason].
Qed.
Lemma only_owned {V A} (P : MCall V → Prop) (work : prog (manswer (V := V)) (result CacheError A)) :
  (∀ c, quiet c = true → P c) → only P work → only P (owned work).
Proof. intros HP Hw. apply only_bind; [by apply only_phase|done]. Qed.
Lemma only_lifted {V A} (P : MCall V → Prop) (p : Calls.prog (answer (V := V)) A) :
  only (λ c, P (M_Worker c)) p → only P (lift p).
Proof. induction p as [a|c k IH]; [done|]. intros [? ?]. split; auto. Qed.
Lemma only_lift {V A} (P : MCall V → Prop) (p : Calls.prog (answer (V := V)) A) :
  (∀ c, P (M_Worker c)) → only P (lift p).
Proof. intros HP. induction p as [a|c k IH]; [done|]. by split. Qed.

(** Every access a program can make, whatever it is answered; what has no
    syntax of its own is unfolded. *)
Ltac head_of t := match t with ?f _ => head_of f | _ => constr:(t) end.
Ltac only_step :=
  match goal with
  | |- only _ (Ret _) => exact I
  | |- only _ (ok _) => exact I
  | |- only _ (raise _) => exact I
  | |- only _ (lift _) => apply only_lift; reflexivity
  | |- only _ (owned _) => apply only_owned; [by intros []|]
  | |- only _ (call _) => split; [reflexivity|intros ?; exact I]
  | |- only _ (Act _ _) => split; [reflexivity|intros ?]
  | |- only _ (bind _ _) => apply only_bind
  | |- only _ (attempt _ _) => apply only_attempt
  | |- only _ (or_release _ _ _) => apply only_bind
  | |- only _ (finally _ _) => apply only_bind
  | |- only _ (match ?x with _ => _ end) => destruct x
  | |- ∀ _, _ => intros ?
  | |- only _ ?p => let f := head_of p in unfold f
  end.
Ltac only_run := repeat only_step.
