(* ===== verification/Markers.v ===== *)
(** * Reading and refreshing markers

    Models the reading half of [src/src/cache/markers.rs], with
    [src/src/cache/marker_eager.rs] and [src/src/cache/marker_local.rs]: the batch
    read of durable markers before a value is trusted, the options-controlled
    reads with their fallbacks, and the snapshot "factory" that repairs an expired
    observation under a lease. Each operation is a program over [Control.MCall]. *)
From Stdlib Require Init.Byte.
From S2P Require Import Prelude Time Calls Circuit Options Entry Tags Backplane Cancellation.
From S2P Require Import Invalidation Storage Lanes Wire Lease Recovery Observe Worker Write Control.
Open Scope prog_scope.

Inductive MarkerSnapshotWritePolicy := WP_Operation | WP_Replay.
Inductive MarkerUnobservedRead := UR_Skipped | UR_Unavailable (failure : MarkerReadFailure).
Inductive MarkerFactoryRead := FR_Read (read : MarkerSnapshotRead) | FR_Unobserved (read : MarkerUnobservedRead).
Inductive MarkerFactoryMode := FM_Foreground | FM_Eager.
Inductive MarkerLeaseAcquisition := LA_Acquired (lease : MarkerLease) | LA_Contended.
Inductive MarkerFetch :=
| MF_Observed (presence : MarkerPresence) | MF_Snapshot (read : MarkerSnapshotRead) | MF_Deadline (failure : MarkerReadFailure).
Inductive MarkerSnapshotFetch := SF_Read (read : MarkerSnapshotRead) | SF_Deadline (failure : MarkerReadFailure).
Definition into_marker_fetch (self : MarkerSnapshotFetch) : MarkerFetch :=
  match self with SF_Read read => MF_Snapshot read | SF_Deadline failure => MF_Deadline failure end.
Inductive MarkerLookup := LU_Ready (outcome : MarkerReadOutcome) | LU_Refresh (cached : option (Entry MarkerObservation)).
Inductive MarkerFactoryStale :=
| FS_Memory (cached : Entry MarkerObservation) | FS_Distributed (snapshot : MarkerSnapshot) | FS_Absent.
Inductive MarkerProviderFault := PF_Backend | PF_Protocol.
Definition read_failure (self : MarkerProviderFault) : MarkerReadFailure :=
  match self with PF_Backend => RF_Backend | PF_Protocol => RF_Protocol end.
Definition write_outcome (self : MarkerProviderFault) : MarkerSnapshotWriteOutcome :=
  match self with PF_Backend => SW_BackendFailure | PF_Protocol => SW_ProtocolFailure end.

(** [MarkerRefresh]; its token is the task's. *)
Record MarkerRefresh := mkRefresh { rf_kind : MarkerKind; rf_captured : Z; rf_mode : MarkerFactoryMode }.

Definition CLEAR_MARKERS : list MarkerKind := [MK_ClearRemove; MK_ClearExpire].
Definition secondary_marker_kinds (tags : list Tag) : list MarkerKind :=
  MK_ClearRemove :: (MK_Tag <$> tags) ++ [MK_ClearExpire].
Definition memory_stale (cached : option (Entry MarkerObservation)) : MarkerFactoryStale :=
  match cached with Some cached => FS_Memory cached | None => FS_Absent end.
Definition has {A} (o : option A) : bool := bool_decide (is_Some o).
Definition is_eager (mode : MarkerFactoryMode) : bool := match mode with FM_Eager => true | FM_Foreground => false end.
Definition is_present (p : MarkerPresence) : bool := match p with Present _ => true | Absent => false end.
Definition is_fenced_lease (lease : MarkerLease) : bool := match lease with ML_Fenced _ => true | _ => false end.

(** The bytes of an ordinary marker. *)
Definition marker_bytes (v : MarkerVersion) : list Init.Byte.byte :=
  String.list_byte_of_string (MarkerVersion.ordered_hex v).
Definition marker_of_bytes (bytes : list Init.Byte.byte) : result MarkerError MarkerVersion :=
  MarkerVersion.from_ordered_hex (String.string_of_list_byte bytes).

Section markers.
Context {V : Type} (ci : Inner) (mc : MarkerConfig).
Local Abbreviation prog := (prog (manswer (V := V))).
Local Abbreviation action A := (prog (result CacheError A)).
Local Abbreviation ask c := (call (ans := manswer (V := V)) c).
Local Abbreviation tell c := (call (ans := manswer (V := V)) (M_Worker c)).
Local Abbreviation Observed := (Entry MarkerObservation).
Let options : EntryOptions := tags_default_options mc.

(** ** Durable markers *)
Definition reconcile_kinds (tags : list Tag) (clear_read : bool) : list MarkerKind :=
  if clear_read then MK_Tag <$> tags else CLEAR_MARKERS ++ (MK_Tag <$> tags).

Definition reconcile_markers (tags : list Tag) (prefetched : option (result MarkerError (list StoredMarker)))
    : action unit :=
  if disable_tagging ci then ok tt
  else
    match markers mc with
    | AC_Durable =>
        let? clear_read :=
          match prefetched with
          | Some (Ok l) => apply_markers l ;;; ok true
          | Some (Err e) => raise (CE_Marker e)
          | None => ok false
          end in
        if clear_read && bool_decide (tags = []) then ok tt
        else
          let kinds := reconcile_kinds tags clear_read in
          let* immediate := ask (M_ReadManyImmediate kinds) in
          let* read := match immediate with Some read => Ret read | None => ask (M_ReadMany kinds) end in
          match read with
          | Ok l => apply_markers l ;;; ok tt
          | Err e => raise (CE_Marker e)
          end
    | AC_Local | AC_Unavailable | AC_Ordinary => ok tt
    end.

(** ** Faults *)
Definition suppressed_marker_fault (e : MarkerError) : result CacheError MarkerProviderFault :=
  match e with
  | Tags.Backend => if EntryOptions.rethrow_distributed_exceptions options then Err (CE_Marker e) else Ok PF_Backend
  | Tags.Protocol => if EntryOptions.rethrow_serialization_exceptions options then Err (CE_Marker e) else Ok PF_Protocol
  | _ => Err (CE_Marker e)
  end.

(** ** Reads of the memory and of the store *)
Section observations.
Context (observations : Observations).

Definition marker_cached (k : MarkerKind) : action (option Observed) :=
  if EntryOptions.skip_memory_read options then ok None
  else
    let* at_ := now in
    let? cached := ask (M_Cached k at_) in
    match cached with
    | Some e => accept_marker_observation k (Entry.value e) ;;; ok cached
    | None => ok None
    end.

Definition marker_fallback_eligible (cached : option Observed) : prog bool :=
  if EntryOptions.is_fail_safe_enabled options then
    match cached with
    | Some e =>
        let* stamps := tell C_Stamps in
        if Entry.is_read_eligible stamps e then
          let* at_ := now in Ret (negb (Entry.is_physically_expired e at_))
        else Ret false
    | None => Ret false
    end
  else Ret false.

Definition marker_lock_timeout (cached : option Observed) : prog Timeout :=
  if Timeout.is_infinite (EntryOptions.memory_lock_timeout options) then
    let* eligible := marker_fallback_eligible cached in
    Ret (if eligible then EntryOptions.factory_soft_timeout options else EntryOptions.memory_lock_timeout options)
  else Ret (EntryOptions.memory_lock_timeout options).

(** A soft deadline only ends a read that has something to fall back on. *)
Definition soft_deadline (has_fallback : bool) (timeout : Timeout) : bool :=
  EntryOptions.is_fail_safe_enabled options && has_fallback
  && bool_decide (timeout = EntryOptions.distributed_soft_timeout options)
  && negb (bool_decide (timeout = EntryOptions.distributed_hard_timeout options)).
(** A phase that missed its deadline is cancelled. *)
Definition deadline_missed (soft : bool) : prog MarkerReadFailure :=
  tell (C_PhaseCancel (if soft then SoftTimeout else HardTimeout)) ;;;
  Ret (if soft then RF_SoftTimeout else RF_HardTimeout).

Definition fetch_control_snapshot (k : MarkerKind) (has_fallback : bool) : action MarkerSnapshotFetch :=
  let timeout := EntryOptions.appropriate_distributed_timeout options has_fallback in
  let soft := soft_deadline has_fallback timeout in
  let? done := bounded timeout (let* at_ := now in let? read := ask (M_ReadSnapshot k at_) in ok (SF_Read read)) in
  match done with
  | Some result => Ret result
  | None => let* failure := deadline_missed soft in ok (SF_Deadline failure)
  end.

(** [MarkerReadStorage::read_with_cancellation]. *)
Definition phase_check : action unit :=
  let* reason := tell C_PhaseReason in
  match reason with Some r => raise (CE_OperationCancelled r) | None => ok tt end.
Definition ordinary_read (k : MarkerKind) : action (option MarkerVersion) :=
  let* read := ask (M_ReadBytes (ordinary_key (scope ci) k)) in
  Ret (match read with
       | Ok (Some bytes) => map_err CE_Marker (Some <$> marker_of_bytes bytes)
       | Ok None => Ok None
       | Err _ => Err (CE_Marker Tags.Backend)
       end).
Definition read_with_cancellation (k : MarkerKind) : action (option MarkerVersion) :=
  match markers mc with
  | AC_Ordinary =>
      let? _ := phase_check in
      let* read := ordinary_read k in
      let? _ := phase_check in
      Ret read
  | _ => ask (M_Read k)
  end.
Definition fetch_control_marker (k : MarkerKind) (has_fallback : bool) : action MarkerFetch :=
  let timeout := EntryOptions.appropriate_distributed_timeout options has_fallback in
  let soft := soft_deadline has_fallback timeout in
  let? done := bounded timeout (read_with_cancellation k) in
  match done with
  | Some (Ok (Some v)) => ok (MF_Observed (Present v))
  | Some (Ok None) => ok (MF_Observed Absent)
  | Some (Err e) => raise e
  | None => let* failure := deadline_missed soft in ok (MF_Deadline failure)
  end.

(** ** Recording what was read *)
Definition record_control_snapshot (k : MarkerKind) (snapshot : MarkerSnapshot) (captured : Z) : action MarkerReadOutcome :=
  let* known := ask (M_Version k) in
  let observation := MarkerObservation.reconcile_maximum (Confirmed (Present (snap_version snapshot))) known in
  let* at_ := now in
  let? observation := ask (M_StoreSnapshot k observation snapshot options at_ captured) in
  accept_marker_observation k observation ;;;
  ok (MarkerObservation.observed_outcome observation).

Definition record_control_observation (k : MarkerKind) (presence : MarkerPresence) (captured : Z) : action MarkerReadOutcome :=
  match presence with Present v => apply_marker (mkStoredMarker k v) | Absent => Ret tt end ;;;
  let* known := ask (M_Version k) in
  let* at_ := now in
  let? jitter := fresh_jitter ci options in
  let? observation := ask (M_Store k (MarkerObservation.reconcile_maximum (Confirmed presence) known) options at_ jitter captured) in
  accept_marker_observation k observation ;;;
  ok (MarkerObservation.observed_outcome observation).

Definition marker_degraded (k : MarkerKind) (cached : option Observed) (failure : MarkerReadFailure) : action MarkerReadOutcome :=
  let* eligible := marker_fallback_eligible cached in
  match eligible, cached with
  | true, Some source =>
      let* at_ := now in
      let? observation := ask (M_RetainFallback k source options at_ failure) in
      accept_marker_observation k observation ;;;
      ok (RO_StaleFallback failure)
  | _, _ => ok (RO_Unavailable failure)
  end.

(** ** Leases *)
Definition control_marker_contention (mode : MarkerFactoryMode) : result CacheError MarkerLeaseAcquisition :=
  match mode, lease_policy ci with
  | FM_Foreground, LP_Fenced => Err (CE_Lease AcquisitionTimeout)
  | FM_Foreground, LP_Cooperative => Ok (LA_Acquired ML_Unleased)
  | FM_Eager, _ => Ok LA_Contended
  end.

Definition acquire_control_marker_lease (k : MarkerKind) (mode : MarkerFactoryMode) : action MarkerLeaseAcquisition :=
  let? _ := check in
  if EntryOptions.skip_distributed_locker options
     || EntryOptions.skip_distributed_read options && EntryOptions.skip_distributed_write options
  then ok (LA_Acquired ML_Unleased)
  else if negb (has_locker ci) then ok (LA_Acquired ML_Unleased)
  else
    let timeout :=
      match mode with FM_Foreground => EntryOptions.distributed_lock_timeout options | FM_Eager => After Duration_ZERO end in
    let* acquired := owned (ask (M_Acquire (marker_lease_key (scope ci) k) timeout (lease_policy ci))) in
    (* an acquired lease is dropped when the caller is cancelled *)
    or_release (match acquired with Ok (Some lease) => drop_lease (ML_Fenced lease) | _ => Ret tt end) check (λ _,
    match acquired with
    | Ok (Some lease) =>
        ok (LA_Acquired (match lease_policy ci with LP_Fenced => ML_Fenced lease | LP_Cooperative => ML_Cooperative lease end))
    | Ok None | Err (CE_Lease AcquisitionTimeout) => Ret (control_marker_contention mode)
    | Err (CE_Lease Lease.Backend) =>
        if cooperative (lease_policy ci) && negb (EntryOptions.rethrow_distributed_locker_exceptions options)
        then ok (match mode with FM_Foreground => LA_Acquired ML_Unleased | FM_Eager => LA_Contended end)
        else raise (CE_Lease Lease.Backend)
    | Err e => raise e
    end).

Definition recheck_control_snapshot (k : MarkerKind) (has_fallback : bool) : action (option MarkerSnapshotRead) :=
  if negb (caches_snapshots observations)
     || EntryOptions.skip_distributed_read options
     || has_fallback && EntryOptions.skip_distributed_read_when_stale options
  then ok None
  else
    let* fetched := fetch_control_snapshot k has_fallback in
    match fetched with
    | Ok (SF_Read read) => ok (Some read)
    | Ok (SF_Deadline _) => ok None
    | Err (CE_Marker e) => let? _ := Ret (suppressed_marker_fault e) in ok None
    | Err e => raise e
    end.
End observations.

(** ** The snapshot factory *)
Definition known_control_factory_observation (k : MarkerKind) (cached : option Observed) : prog (option MarkerObservation) :=
  let cached := cached ≫= λ e, version_of (MarkerObservation.presence (Entry.value e)) in
  let* known := ask (M_Version k) in
  Ret (KnownMaximum <$> match known, cached with
                        | Some a, Some b => Some (Z.max a b)
                        | Some a, None => Some a
                        | None, b => b
                        end).

Definition marker_factory_fallback_eligible (stale : MarkerFactoryStale) : prog bool :=
  if EntryOptions.is_fail_safe_enabled options then
    match stale with
    | FS_Memory cached => marker_fallback_eligible (Some cached)
    | FS_Distributed snapshot => let* at_ := now in Ret (negb (MarkerSnapshot.is_physically_expired snapshot at_))
    | FS_Absent => Ret false
    end
  else Ret false.

(** A zero budget excludes the factory: its failure, or an error without
    fail-safe. *)
Definition excluded_marker_factory (stale : MarkerFactoryStale) (mode : MarkerFactoryMode) : action (option MarkerReadFailure) :=
  if is_eager mode then ok None
  else
    let* has_fallback := marker_factory_fallback_eligible stale in
    let timeout := EntryOptions.appropriate_factory_timeout options has_fallback in
    match timeout with
    | After d =>
        if is_zero d then
          if negb (EntryOptions.is_fail_safe_enabled options) then raise (CE_FactoryTimeout Duration_ZERO)
          else ok (Some (if has_fallback
                            && bool_decide (timeout = EntryOptions.factory_soft_timeout options)
                            && negb (bool_decide (timeout = EntryOptions.factory_hard_timeout options))
                         then RF_FactorySoftTimeout else RF_FactoryHardTimeout))
        else ok None
    | Infinite => ok None
    end.

Definition retain_excluded_marker_factory (k : MarkerKind) (presence : MarkerPresence) (stale : MarkerFactoryStale)
    (captured : Z) (failure : MarkerReadFailure) : action MarkerReadOutcome :=
  match stale with
  | FS_Distributed snapshot =>
      let* eligible := marker_factory_fallback_eligible stale in
      if eligible then
        let* at_ := now in
        let? observation := ask (M_RetainSnapshot k snapshot presence options at_ failure captured) in
        accept_marker_observation k observation ;;;
        ok (RO_StaleFallback failure)
      else ok (RO_Unavailable failure)
  | FS_Memory cached => marker_degraded k (Some cached) failure
  | FS_Absent => ok (RO_Unavailable failure)
  end.

(** *** The commit of a snapshot *)
Definition participation_of (lease : MarkerLease) : MarkerSnapshotParticipation :=
  match lease with ML_Unleased => Unleased | ML_Fenced _ => Fenced | ML_Cooperative _ => Cooperative end.
Definition enqueued (r : result RecoveryError EnqueueOutcome) : result CacheError bool :=
  map_err CE_Recovery (is_queued <$> r).
Definition queue_marker_snapshot (commit : MarkerSnapshotCommit) : action bool :=
  if negb (has_recovery ci) then ok false
  else
    let? work := Ret (map_err CE_Recovery (snapshot_replay_capture (scope ci) (sc_kind commit) (sc_snapshot commit)
                                             (sc_options commit) (participation_of (sc_lease commit)))) in
    let* outcome := ask (M_Enqueue (RW_MarkerSnapshot work)) in
    Ret (enqueued outcome).

Definition marker_snapshot_failure (commit : MarkerSnapshotCommit) (e : MarkerError) (policy : MarkerSnapshotWritePolicy)
    : action EffectOutcome :=
  match match e with
        | Tags.Backend => Some (PF_Backend, EntryOptions.rethrow_distributed_exceptions (sc_options commit))
        | Tags.Protocol => Some (PF_Protocol, EntryOptions.rethrow_serialization_exceptions (sc_options commit))
        | _ => None
        end with
  | None => raise (CE_Marker e)
  | Some (fault, rethrow) =>
      ask (M_Emit (ME_SnapshotWrite (sc_kind commit) (write_outcome fault))) ;;;
      match policy with
      | WP_Replay => raise (CE_Marker e)
      | WP_Operation =>
          let? queued := queue_marker_snapshot commit in
          if (rethrow : bool) then raise (CE_Marker e)
          else ok (if queued then EF_RecoveryQueued (CE_Marker e) else EF_FailedSuppressed (CE_Marker e))
      end
  end.

Definition renewal_of (renewal : MarkerSnapshotRenewal) : option MarkerSnapshot * MarkerSnapshotWriteOutcome :=
  match renewal with
  | MR_Stored snapshot => (Some snapshot, SW_Stored)
  | MR_KeptNewer snapshot => (Some snapshot, SW_KeptNewer)
  | Invalidation.MR_Expired => (None, SW_Expired)
  end.

(** What the memory observes of a committed snapshot; [controlled]: reads are
    options-controlled. *)
Definition observe_renewal (commit : MarkerSnapshotCommit) (v : MarkerVersion) : action unit :=
  if EntryOptions.skip_memory_write (sc_options commit) then ok tt
  else
    match marker_reads mc with
    | DurableReads => ok tt
    | ControlledReads _ =>
        match sc_local commit with
        | LO_Admitted =>
            let* at_ := now in
            let? observation := ask (M_MergeMaximum (sc_kind commit) v at_ (sc_captured commit)) in
            match observation with
            | Some o => accept_marker_observation (sc_kind commit) o ;;; ok tt
            | None => ok tt
            end
        | LO_AwaitingFence observation created jitter =>
            let? o := ask (M_Store (sc_kind commit) (MarkerObservation.reconcile_maximum observation (Some v))
                             (sc_options commit) created jitter (sc_captured commit)) in
            accept_marker_observation (sc_kind commit) o ;;; ok tt
        end
    end.

Definition commit_control_snapshot (commit : MarkerSnapshotCommit) (policy : MarkerSnapshotWritePolicy) : action EffectOutcome :=
  let? _ := check in
  let* epoch := tell C_Epoch in
  if negb (epoch =? sc_captured commit) then ok (EF_Skipped SK_Superseded)
  else
    let? proved := lease_proof (sc_lease commit) in
    let* at_ := now in
    let* renewed := ask (M_Renew (sc_kind commit) (sc_snapshot commit) at_ proved) in
    let? _ := check in
    match renewed with
    | Ok renewal =>
        let '(snapshot, outcome) := renewal_of renewal in
        let? _ :=
          match snapshot with
          | Some snapshot =>
              apply_marker (mkStoredMarker (sc_kind commit) (snap_version snapshot)) ;;;
              observe_renewal commit (snap_version snapshot)
          | None => ok tt
          end in
        ask (M_Emit (ME_SnapshotWrite (sc_kind commit) outcome)) ;;;
        ok (match snapshot with Some _ => EF_Applied | None => EF_Skipped SK_PhysicallyExpired end)
    | Err (CE_Marker e) => marker_snapshot_failure commit e policy
    | Err e => raise e
    end.

(** The owned write, then its lease. *)
Definition commit_task (commit : MarkerSnapshotCommit) : action unit :=
  let* r := commit_control_snapshot commit WP_Operation in
  finish_control_marker_lease ci mc (sc_kind commit) (sc_lease commit) ((λ _, tt) <$> r).

Definition write_control_snapshot (cached_snapshots : bool) (commit : MarkerSnapshotCommit) : action unit :=
  if negb cached_snapshots then drop_lease (sc_lease commit) ;;; ok tt
  else if EntryOptions.allow_background_distributed_operations (sc_options commit) then
    ask (M_Spawn (MT_Commit commit)) ;;; ok tt
  else owned (commit_task commit).

Section factory.
Context (observations : Observations).

Definition complete_control_marker_factory (observation : MarkerObservation) (stale : MarkerFactoryStale)
    (refresh : MarkerRefresh) (lease : MarkerLease) : action MarkerReadOutcome :=
  let k := rf_kind refresh in
  or_release (drop_lease lease) check (λ _,
  or_release (drop_lease lease) (lease_proof lease) (λ _,
  let* excluded := excluded_marker_factory stale (rf_mode refresh) in
  match excluded with
  | Err e => finish_control_marker_lease ci mc k lease (Err e)
  | Ok (Some failure) =>
      let* result := retain_excluded_marker_factory k (MarkerObservation.presence observation) stale (rf_captured refresh) failure in
      finish_control_marker_lease ci mc k lease result
  | Ok None =>
      let* known := ask (M_Version k) in
      let observation := MarkerObservation.reconcile_maximum observation known in
      let* created := now in
      or_release (drop_lease lease) (fresh_jitter ci options) (λ jitter,
      or_release (drop_lease lease)
        (if is_fenced_lease lease && is_present (MarkerObservation.presence observation)
            && negb (EntryOptions.skip_distributed_write options)
         then ok (observation, LO_AwaitingFence observation created jitter)
         else
           let? observation := ask (M_Store k observation options created jitter (rf_captured refresh)) in
           ok (observation, LO_Admitted)) (λ '(observation, local),
      accept_marker_observation k observation ;;;
      let? _ :=
        match MarkerObservation.presence observation, EntryOptions.skip_distributed_write options with
        | Present version, false =>
            write_control_snapshot (caches_snapshots observations)
              (mkSnapshotCommit k (MarkerSnapshot.fresh version options created) options (rf_captured refresh) lease local)
        | _, _ => finish_control_marker_lease ci mc k lease (Ok tt)
        end in
      let? _ := check in
      let* known := ask (M_Version k) in
      ok (MarkerObservation.observed_outcome (MarkerObservation.reconcile_maximum observation known))))
  end)).

(** Nothing was observed and nothing is known: no observation is installed. *)
Definition complete_unobserved_marker_factory (cached : option Observed) (read : MarkerUnobservedRead)
    (refresh : MarkerRefresh) (lease : MarkerLease) : action MarkerReadOutcome :=
  let k := rf_kind refresh in
  let stale := memory_stale cached in
  let* excluded := excluded_marker_factory stale (rf_mode refresh) in
  match excluded with
  | Err e => finish_control_marker_lease ci mc k lease (Err e)
  | Ok excluded =>
      let* result :=
        match excluded with
        | Some failure => retain_excluded_marker_factory k Absent stale (rf_captured refresh) failure
        | None => ok (match read with UR_Skipped => RO_Skipped | UR_Unavailable failure => RO_Unavailable failure end)
        end in
      finish_control_marker_lease ci mc k lease result
  end.

Definition resolve_leased_control_snapshot (cached : option Observed) (read : MarkerFactoryRead)
    (refresh : MarkerRefresh) (lease : MarkerLease) : action MarkerReadOutcome :=
  let k := rf_kind refresh in
  let complete observation stale :=
    let* known := ask (M_Version k) in
    complete_control_marker_factory (MarkerObservation.reconcile_maximum observation known) stale refresh lease in
  or_release (drop_lease lease) (lease_proof lease) (λ _,
  or_release (drop_lease lease) check (λ _,
  match read with
  | FR_Read (SR_Snapshot snapshot) =>
      apply_marker (mkStoredMarker k (snap_version snapshot)) ;;;
      let* fresh :=
        if is_eager (rf_mode refresh) then Ret false
        else let* at_ := now in Ret (MarkerSnapshot.is_fresh snapshot at_) in
      if fresh then
        let* result := record_control_snapshot k snapshot (rf_captured refresh) in
        finish_control_marker_lease ci mc k lease result
      else complete (KnownMaximum (snap_version snapshot)) (FS_Distributed snapshot)
  | FR_Read (SR_Missing maximum) =>
      match maximum with Some v => apply_marker (mkStoredMarker k v) | None => Ret tt end ;;;
      complete (Confirmed (version_presence maximum)) (memory_stale cached)
  | FR_Unobserved read =>
      let* known := known_control_factory_observation k cached in
      match known with
      | Some observation => complete observation (memory_stale cached)
      | None => complete_unobserved_marker_factory cached read refresh lease
      end
  end)).

Definition resolve_control_snapshot (k : MarkerKind) (cached : option Observed) (read : MarkerFactoryRead) (captured : Z)
    : action MarkerReadOutcome :=
  match read with
  | FR_Read read =>
      match read_maximum read with Some v => apply_marker (mkStoredMarker k v) | None => Ret tt end
  | FR_Unobserved _ => Ret tt
  end ;;;
  let* fresh :=
    match read with
    | FR_Read (SR_Snapshot snapshot) =>
        let* at_ := now in Ret (if MarkerSnapshot.is_fresh snapshot at_ then Some snapshot else None)
    | _ => Ret None
    end in
  match fresh with
  | Some snapshot => record_control_snapshot k snapshot captured
  | None =>
      let? acquired := acquire_control_marker_lease k FM_Foreground in
      match acquired with
      | LA_Contended => raise (CE_Lease AcquisitionTimeout)
      | LA_Acquired lease =>
          or_release (drop_lease lease)
            (if is_held lease then
               let? again := recheck_control_snapshot observations k (has cached) in
               ok (match again with Some read => FR_Read read | None => read end)
             else ok read) (λ read,
          resolve_leased_control_snapshot cached read (mkRefresh k captured FM_Foreground) lease)
      end
  end.

(** ** Controlled reads *)
Definition unavailable_control_marker (k : MarkerKind) (cached : option Observed) (captured : Z) (failure : MarkerReadFailure)
    : action MarkerReadOutcome :=
  match lifecycle observations with
  | DurableOnly => marker_degraded k cached failure
  | CachedSnapshots => resolve_control_snapshot k cached (FR_Unobserved (UR_Unavailable failure)) captured
  end.

Definition marker_remote (k : MarkerKind) (cached : option Observed) (captured : Z) : action MarkerReadOutcome :=
  let* fetched :=
    match lifecycle observations with
    | DurableOnly => fetch_control_marker k (has cached)
    | CachedSnapshots => let? fetched := fetch_control_snapshot k (has cached) in ok (into_marker_fetch fetched)
    end in
  match fetched with
  | Ok (MF_Snapshot read) => resolve_control_snapshot k cached (FR_Read read) captured
  | Ok (MF_Observed presence) => record_control_observation k presence captured
  | Ok (MF_Deadline failure) => unavailable_control_marker k cached captured failure
  | Err (CE_Marker e) =>
      match suppressed_marker_fault e with
      | Ok fault => unavailable_control_marker k cached captured (read_failure fault)
      | Err e => raise e
      end
  | Err e => raise e
  end.

Definition is_fresh_now (e : Observed) : prog bool :=
  let* at_ := now in Ret (Entry.is_fresh (Entry.freshness e at_)).

Definition resolve_control_read (k : MarkerKind) (captured : Z) : action MarkerReadOutcome :=
  let? cached := marker_cached k in
  let* fresh := match cached with Some e => is_fresh_now e | None => Ret false end in
  match fresh, cached with
  | true, Some e => ok (MarkerObservation.outcome (Entry.value e))
  | _, _ =>
      if EntryOptions.skip_distributed_read options
         || has cached && EntryOptions.skip_distributed_read_when_stale options
      then
        match lifecycle observations with
        | DurableOnly => ok RO_Skipped
        | CachedSnapshots => resolve_control_snapshot k cached (FR_Unobserved UR_Skipped) captured
        end
      else marker_remote k cached captured
  end.

Definition marker_lookup (k : MarkerKind) (captured : Z) : action MarkerLookup :=
  let* known := if marker_clear_shortcut ci then ask (M_ClearStatus k captured) else Ret None in
  match known with
  | Some outcome => ok (LU_Ready outcome)
  | None =>
      let? cached := marker_cached k in
      let* fresh := match cached with Some e => is_fresh_now e | None => Ret false end in
      ok (match fresh, cached with
          | true, Some e => LU_Ready (MarkerObservation.outcome (Entry.value e))
          | _, _ => LU_Refresh cached
          end)
  end.

(** Refreshing under the marker's lock: a contending reader falls back on what
    it retained, without extending it. *)
Definition under_marker_lock (k : MarkerKind) (before : option Observed) (work : action MarkerReadOutcome)
    : action MarkerReadOutcome :=
  let* timeout := marker_lock_timeout before in
  let? locked := ask (M_Lock (lock_key observations k) timeout) in
  finally (if locked then ask (M_Unlock (lock_key observations k)) else Ret tt)
    (let? _ := check in
     let* fallback := if negb locked then marker_fallback_eligible before else Ret false in
     if fallback then ok (RO_StaleFallback RF_LockTimeout) else work).

Definition refresh_control_marker (k : MarkerKind) (before_lock : option Observed) (captured : Z) : action MarkerReadOutcome :=
  under_marker_lock k before_lock (resolve_control_read k captured).

(** *** Eager refreshes *)

(** The claim of an eager refresh, the lock it takes over and its task. *)
Definition start_eager (k : MarkerKind) (captured : Z) (task : Observed → MarkerTask) : action unit :=
  let? cached := marker_cached k in
  match cached with
  | None => ok tt
  | Some current =>
      let* at_ := now in
      let* eligible :=
        if Entry.should_eager_refresh current at_ then
          let* stamps := tell C_Stamps in Ret (Entry.is_read_eligible stamps current)
        else Ret false in
      if negb eligible then ok tt
      else
        let? claim := ask (M_Claim k current at_) in
        let? _ := check in
        let* claimed := if is_rejected claim then Ret false
                        else let* epoch := tell C_Epoch in Ret (epoch =? captured) in
        if negb claimed then ok tt
        else
          let? locked := ask (M_TryLock (lock_key observations k)) in
          if negb locked then ok tt
          else ask (M_Emit (ME_EagerRefresh k)) ;;; ask (M_Spawn (task current)) ;;; ok tt
  end.

Definition maybe_eager_control_marker (k : MarkerKind) (captured : Z) : action unit :=
  if negb (has (EntryOptions.eager_refresh_threshold options)) || negb (caches_snapshots observations) then ok tt
  else
    let* known := if marker_clear_shortcut ci then ask (M_ClearStatus k captured) else Ret None in
    match known with
    | Some _ => ok tt
    | None => start_eager k captured (λ current, MT_EagerRemote k current captured)
    end.

Definition eager_control_marker (k : MarkerKind) (current : Observed) (captured : Z) : action unit :=
  let is_current := let* epoch := tell C_Epoch in Ret (epoch =? captured) in
  let? _ := check in
  let* live := is_current in
  let* stamps := tell C_Stamps in
  if negb live || negb (Entry.is_read_eligible stamps current) || negb (caches_snapshots observations) then ok tt
  else
    let? read :=
      if EntryOptions.skip_distributed_read options || EntryOptions.skip_distributed_read_when_stale options
      then ok (FR_Unobserved UR_Skipped)
      else
        let* fetched := fetch_control_snapshot k true in
        match fetched with
        | Ok (SF_Read read) => ok (FR_Read read)
        | Ok (SF_Deadline failure) => ok (FR_Unobserved (UR_Unavailable failure))
        | Err (CE_Marker e) =>
            match suppressed_marker_fault e with
            | Ok fault => ok (FR_Unobserved (UR_Unavailable (read_failure fault)))
            | Err e => raise e
            end
        | Err e => raise e
        end in
    let? _ := check in
    let* live := is_current in
    if negb live then ok tt
    else
      match read with
      | FR_Read read => match read_maximum read with Some v => apply_marker (mkStoredMarker k v) | None => Ret tt end
      | FR_Unobserved _ => Ret tt
      end ;;;
      let* newer :=
        match read with
        | FR_Read (SR_Snapshot snapshot) =>
            if (created (Entry.meta current) <? snap_created snapshot)
               || (Entry.logical_expiration (Entry.meta current) <? snap_logical snapshot)
            then let* at_ := now in Ret (if MarkerSnapshot.is_fresh snapshot at_ then Some snapshot else None)
            else Ret None
        | _ => Ret None
        end in
      match newer with
      | Some snapshot => let? _ := record_control_snapshot k snapshot captured in ok tt
      | None =>
          let? acquired := acquire_control_marker_lease k FM_Eager in
          match acquired with
          | LA_Contended => ok tt
          | LA_Acquired lease =>
              let? _ := resolve_leased_control_snapshot (Some current) read (mkRefresh k captured FM_Eager) lease in
              ok tt
          end
      end.

(** *** One marker, then every marker of an entry *)
Definition read_control_marker (k : MarkerKind) : action unit :=
  let? _ := validate_execution_options ci mc options in
  let* captured := tell C_Epoch in
  let? found := marker_lookup k captured in
  let? outcome :=
    match found with
    | LU_Ready outcome => ok outcome
    | LU_Refresh cached => refresh_control_marker k cached captured
    end in
  let? _ := check in
  (if marker_clear_shortcut ci then
     let* epoch := tell C_Epoch in
     if epoch =? captured then ask (M_InitializeClear k captured outcome) else Ret tt
   else Ret tt) ;;;
  let? _ := maybe_eager_control_marker k captured in
  ask (M_Emit (ME_Read k outcome)) ;;;
  ok tt.

(** [marker_invalidates_snapshot]: the registry's revision of the marker, then
    that of the removing clear. *)
Definition invalidates (v : option MarkerVersion) (created : Timestamp) : bool :=
  match v with Some v => created <=? v | None => false end.
Definition marker_invalidates_snapshot (k : MarkerKind) (created : Timestamp) : prog bool :=
  let* v := ask (M_Version k) in
  if invalidates v created then Ret true
  else let* clear := ask (M_Version MK_ClearRemove) in Ret (invalidates clear created).

(** The markers of an entry in order, up to one that already invalidates it. *)
Fixpoint check_markers (read : MarkerKind → action unit) (kinds : list MarkerKind) (created : Timestamp) : action unit :=
  match kinds with
  | [] => check
  | k :: kinds =>
      let? _ := check in
      let? _ := read k in
      let* invalid := marker_invalidates_snapshot k created in
      if invalid then check else check_markers read kinds created
  end.
Definition check_observed_markers (e : Entry V) : action unit :=
  check_markers read_control_marker (secondary_marker_kinds (Entry.tags (Entry.meta e))) (created (Entry.meta e)).

(** ** Memory-only caches that share an external observation memory *)
Definition complete_local_marker_factory (k : MarkerKind) (cached : option Observed) (captured : Z)
    (mode : MarkerFactoryMode) : action MarkerReadOutcome :=
  let* known := known_control_factory_observation k cached in
  complete_control_marker_factory (default (ObservedLocally Absent) known) (memory_stale cached)
    (mkRefresh k captured mode) ML_Unleased.

Definition refresh_local_control_marker (k : MarkerKind) (before : option Observed) (captured : Z) : action MarkerReadOutcome :=
  under_marker_lock k before
    (let? found := marker_lookup k captured in
     match found with
     | LU_Ready outcome => ok outcome
     | LU_Refresh cached => complete_local_marker_factory k cached captured FM_Foreground
     end).

Definition maybe_eager_local_marker (k : MarkerKind) (captured : Z) : action unit :=
  if negb (has (EntryOptions.eager_refresh_threshold options)) then ok tt
  else start_eager k captured (λ _, MT_EagerLocal k captured).

Definition eager_local_marker (k : MarkerKind) (captured : Z) : action unit :=
  let? _ := check in
  let* epoch := tell C_Epoch in
  if negb (epoch =? captured) then ok tt
  else
    let? cached := marker_cached k in
    let? _ := complete_local_marker_factory k cached captured FM_Eager in
    check.

Definition read_local_control_marker (k : MarkerKind) : action unit :=
  let? _ := validate_execution_options ci mc options in
  let* captured := tell C_Epoch in
  let? found := marker_lookup k captured in
  let? outcome :=
    match found with
    | LU_Ready outcome => ok outcome
    | LU_Refresh before => refresh_local_control_marker k before captured
    end in
  let? _ := check in
  let? _ := maybe_eager_local_marker k captured in
  ask (M_Emit (ME_Read k outcome)) ;;;
  ok tt.
Definition check_local_markers (e : Entry V) : action unit :=
  check_markers read_local_control_marker (secondary_marker_kinds (Entry.tags (Entry.meta e))) (created (Entry.meta e)).

(** The body of an owned task; an eager refresh frees its lock at the end. *)
Definition task_work (task : MarkerTask) : action unit :=
  match task with
  | MT_EagerRemote k current captured =>
      finally (ask (M_Unlock (lock_key observations k))) (eager_control_marker k current captured)
  | MT_EagerLocal k captured => finally (ask (M_Unlock (lock_key observations k))) (eager_local_marker k captured)
  | MT_Commit commit => commit_task commit
  end.
Definition run_task (task : MarkerTask) : action unit := owned (task_work task).
End factory.

Definition reconcile_controlled_markers (e : Entry V) : action unit :=
  if disable_tagging ci then ok tt
  else
    match marker_reads mc with
    | DurableReads => ok tt
    | ControlledReads observations =>
        match markers mc with
        | AC_Local => if supplied observations then check_local_markers observations e else ok tt
        | AC_Unavailable => raise (CE_Marker Tags.Unsupported)
        | AC_Durable | AC_Ordinary => check_observed_markers observations e
        end
    end.
End markers.
