(* ===== verification/Attested.v ===== *)
(** * Where marker facts come from

    The theory of [Markers.v]: every fact a marker pipeline records, applies to
    the registry, renews or falls back on was read before, from the registry, the
    observation memory or the marker store, for that very marker; and what was
    read reaches the registry before the pipeline answers. *)
From Stdlib Require Init.Byte.
From S2P Require Import Prelude Time Calls Circuit Options Entry Tags Backplane Cancellation.
From S2P Require Import Invalidation Storage Lanes Wire Lease Recovery Observe Worker Write Control Markers.
Open Scope prog_scope.

Section attested.
Context {V : Type} (ci : Inner) (mc : MarkerConfig).
Implicit Types (h : chronicle V).
Local Abbreviation MEv c x := (Ev (ans := manswer (V := V)) c x).

(** The observation memory answered with [o]. *)
Inductive remembered h (k : MarkerKind) : MarkerObservation → Prop :=
| R_Cached at_ e : MEv (M_Cached k at_) (Ok (Some e)) ∈ h → remembered h k (Entry.value e)
| R_Store o opts at_ jitter captured o' :
    MEv (M_Store k o opts at_ jitter captured) (Ok o') ∈ h → remembered h k o'
| R_StoreSnapshot o s opts at_ captured o' :
    MEv (M_StoreSnapshot k o s opts at_ captured) (Ok o') ∈ h → remembered h k o'
| R_Fallback source opts at_ failure o' :
    MEv (M_RetainFallback k source opts at_ failure) (Ok o') ∈ h → remembered h k o'
| R_FallbackSnapshot s p opts at_ failure captured o' :
    MEv (M_RetainSnapshot k s p opts at_ failure captured) (Ok o') ∈ h → remembered h k o'
| R_Merge v at_ captured o' : MEv (M_MergeMaximum k v at_ captured) (Ok (Some o')) ∈ h → remembered h k o'.

(** A revision of [k] that some component answered. *)
Inductive learned h (k : MarkerKind) (v : MarkerVersion) : Prop :=
| L_Registry : MEv (M_Version k) (Some v) ∈ h → learned h k v
| L_Read : MEv (M_Read k) (Ok (Some v)) ∈ h → learned h k v
| L_Bytes bytes : MEv (M_ReadBytes (ordinary_key (scope ci) k)) (Ok (Some bytes)) ∈ h →
    marker_of_bytes bytes = Ok v → learned h k v
| L_Snapshot at_ read : MEv (M_ReadSnapshot k at_) (Ok read) ∈ h → read_maximum read = Some v → learned h k v
| L_Renewed s at_ proof renewal s' : MEv (M_Renew k s at_ proof) (Ok renewal) ∈ h →
    (renewal_of renewal).1 = Some s' → snap_version s' = v → learned h k v
| L_Memory o : remembered h k o → MarkerObservation.presence o = Present v → learned h k v.

(** The store answered that it has no revision of [k]. *)
Inductive missing h (k : MarkerKind) : Prop :=
| N_Read : MEv (M_Read k) (Ok None) ∈ h → missing h k
| N_Bytes : MEv (M_ReadBytes (ordinary_key (scope ci) k)) (Ok None) ∈ h → missing h k
| N_Snapshot at_ : MEv (M_ReadSnapshot k at_) (Ok (SR_Missing None)) ∈ h → missing h k.

Definition snapshot_read h (k : MarkerKind) (s : MarkerSnapshot) : Prop :=
  ∃ at_, MEv (M_ReadSnapshot k at_) (Ok (SR_Snapshot s)) ∈ h.
Definition recalled h (k : MarkerKind) (e : Entry MarkerObservation) : Prop :=
  ∃ at_, MEv (M_Cached k at_) (Ok (Some e)) ∈ h.

(** Presence is learned; absence is the store's answer, or local where there is
    no store. *)
Definition attested h (k : MarkerKind) (o : MarkerObservation) : Prop :=
  match MarkerObservation.presence o with
  | Present v => learned h k v
  | Absent => o = Confirmed Absent ∧ missing h k ∨ o = ObservedLocally Absent ∧ markers mc = AC_Local
  end.
Definition attested_local h (k : MarkerKind) (local : MarkerLocalCommit) : Prop :=
  match local with LO_Admitted => True | LO_AwaitingFence o _ _ => ∃ v, MarkerObservation.presence o = Present v ∧ learned h k v end.
Definition attested_commit h (commit : MarkerSnapshotCommit) : Prop :=
  learned h (sc_kind commit) (snap_version (sc_snapshot commit)) ∧ attested_local h (sc_kind commit) (sc_local commit).
Definition attested_task h (task : MarkerTask) : Prop :=
  match task with
  | MT_EagerRemote k current _ => recalled h k current
  | MT_EagerLocal _ _ => markers mc = AC_Local
  | MT_Commit commit => attested_commit h commit
  end.

(** What an access may carry, after [h]. *)
Definition faithful h (c : MCall V) : Prop :=
  match c with
  | M_Advance k v | M_MergeMaximum k v _ _ => learned h k v
  | M_Store k o _ _ _ _ => attested h k o
  | M_StoreSnapshot k o s _ _ _ => snapshot_read h k s ∧ attested h k o
  | M_RetainFallback k source _ _ _ | M_Claim k source _ => recalled h k source
  | M_RetainSnapshot k s p _ _ _ _ => snapshot_read h k s ∧ ∃ v, p = Present v ∧ learned h k v
  | M_Renew k s _ _ => learned h k (snap_version s)
  | M_Spawn task => attested_task h task
  | _ => True
  end.

(** ** Facts stay known *)
Lemma remembered_incl h h' k o : h ⊆ h' → remembered h k o → remembered h' k o.
Proof.
  intros Hh []; [eapply R_Cached|eapply R_Store|eapply R_StoreSnapshot|eapply R_Fallback|
    eapply R_FallbackSnapshot|eapply R_Merge]; eauto.
Qed.
Lemma learned_incl h h' k v : h ⊆ h' → learned h k v → learned h' k v.
Proof.
  intros Hh []; [eapply L_Registry|eapply L_Read|eapply L_Bytes|eapply L_Snapshot|eapply L_Renewed|eapply L_Memory];
    eauto using remembered_incl.
Qed.
Lemma missing_incl h h' k : h ⊆ h' → missing h k → missing h' k.
Proof. intros Hh []; [eapply N_Read|eapply N_Bytes|eapply N_Snapshot]; eauto. Qed.
Lemma snapshot_read_incl h h' k s : h ⊆ h' → snapshot_read h k s → snapshot_read h' k s.
Proof. unfold snapshot_read. naive_solver. Qed.
Lemma recalled_incl h h' k e : h ⊆ h' → recalled h k e → recalled h' k e.
Proof. unfold recalled. naive_solver. Qed.
Lemma attested_incl h h' k o : h ⊆ h' → attested h k o → attested h' k o.
Proof.
  unfold attested. intros Hh. destruct (MarkerObservation.presence o); [by apply learned_incl|].
  naive_solver eauto using missing_incl.
Qed.
Lemma recalled_learned h k e v : recalled h k e → known e = Present v → learned h k v.
Proof. intros [at_ He] Hv. eapply L_Memory; [|exact Hv]. by eapply R_Cached. Qed.
Lemma snapshot_read_learned h k s : snapshot_read h k s → learned h k (snap_version s).
Proof. intros [at_ Hs]. by eapply L_Snapshot. Qed.

Lemma attested_present h k o v : MarkerObservation.presence o = Present v → attested h k o ↔ learned h k v.
Proof. unfold attested. by intros ->. Qed.
Lemma attested_confirmed_absent h k : missing h k → attested h k (Confirmed Absent).
Proof. intros H. left. by split. Qed.

(** Reconciling with something learned. *)
Lemma attested_reconcile h k o m :
  attested h k o → (∀ v, m = Some v → learned h k v) → attested h k (MarkerObservation.reconcile_maximum o m).
Proof.
  unfold attested, MarkerObservation.reconcile_maximum. intros Ho Hm.
  destruct (MarkerObservation.presence o) eqn:Hp, m as [m|]; cbn; rewrite ?Hp; auto.
  destruct (_ <? _); cbn; rewrite ?Hp; auto.
Qed.
End attested.

(** ** Running a pipeline *)
Ltac incl :=
  match goal with
  | |- ?h ⊆ ?h => reflexivity
  | H : ?h ⊆ ?h' |- ?h ⊆ ?h' => exact H
  | |- ?h ⊆ _ :: _ => apply list_subseteq_cons; incl
  | |- ?h ⊆ record _ _ _ _ => unfold record; cbn [quiet is_budget negb]; incl
  | H : ?h1 ⊆ ?h' |- ?h ⊆ ?h' => transitivity h1; [incl|exact H]
  end.
(** A fact that was known at an earlier point. *)
Ltac fact :=
  match goal with
  | |- faithful _ _ _ _ => cbn [faithful]; fact
  | H : learned _ ?h ?k ?v |- learned _ ?h' ?k ?v => apply (learned_incl _ h h'); [incl|exact H]
  | H : missing _ ?h ?k |- missing _ ?h' ?k => apply (missing_incl _ h h'); [incl|exact H]
  | H : snapshot_read ?h ?k ?s |- snapshot_read ?h' ?k ?s => apply (snapshot_read_incl h h'); [incl|exact H]
  | H : recalled ?h ?k ?e |- recalled ?h' ?k ?e => apply (recalled_incl h h'); [incl|exact H]
  | H : attested _ _ ?h ?k ?o |- attested _ _ ?h' ?k ?o => apply (attested_incl _ _ h h'); [incl|exact H]
  end.
(** To the next choice. *)
Ltac ens_step :=
  match goal with
  | |- ensures _ _ _ _ =>
      progress cbn [ensures bind call attempt ok raise record quiet is_budget negb map_err]
  | |- faithful _ _ _ _ ∧ _ => split
  | |- ∀ _ : manswer _, _ => intros ?
  | |- faithful _ _ _ _ => exact I
  | |- ensures _ (match ?x with _ => _ end) _ _ => destruct x eqn:?
  | |- ensures _ (bind (match ?x with _ => _ end) _) _ _ => destruct x eqn:?
  end.
Ltac ens := unfold attempt, now; repeat ens_step.
(** One access, of no fact. *)
Tactic Notation "answered" ident(x) :=
  cbn [bind call ensures]; split; [exact I|]; intros x; cbn [record quiet is_budget negb].

Section steps.
Context {V : Type} (ci : Inner) (mc : MarkerConfig).
Implicit Types (h : chronicle V).
Local Abbreviation MEv c x := (Ev (ans := manswer (V := V)) c x).
Local Abbreviation sound p h Q := (ensures (faithful ci mc) p h Q).
Local Abbreviation learned := (learned ci).
Local Abbreviation attested := (attested ci mc).

(** Accesses that carry no marker fact. *)
Definition plain (c : MCall V) : bool :=
  match c with
  | M_Advance _ _ | M_MergeMaximum _ _ _ _ | M_Store _ _ _ _ _ _ | M_StoreSnapshot _ _ _ _ _ _
  | M_RetainFallback _ _ _ _ _ | M_Claim _ _ _ | M_RetainSnapshot _ _ _ _ _ _ _ | M_Renew _ _ _ _ | M_Spawn _ => false
  | _ => true
  end.
Lemma sound_plain {A} (p : prog (manswer (V := V)) A) h : only (λ c, plain c = true) p → sound p h (λ _ _, True).
Proof. intros Hp. apply ensures_only. eapply only_mono; [exact Hp|]. by intros []. Qed.
Lemma quiet_plain h c : quiet c = true → faithful (V := V) ci mc h c.
Proof. by destruct c. Qed.

Ltac plain := apply sound_plain; only_run.

Lemma sound_apply k v h : learned h k v → sound (apply_marker (mkStoredMarker k v)) h (λ _ _, True).
Proof. intros Hv. unfold apply_marker. by ens. Qed.
Lemma sound_accept k o h :
  (∀ v, MarkerObservation.presence o = Present v → learned h k v) → sound (accept_marker_observation k o) h (λ _ _, True).
Proof. intros Hv. unfold accept_marker_observation, apply_marker. ens; cbn; auto. Qed.
Lemma sound_eligible cached h : sound (marker_fallback_eligible mc cached) h (λ _ _, True).
Proof. unfold marker_fallback_eligible, now. plain. Qed.
Lemma sound_lock_timeout cached h : sound (marker_lock_timeout mc cached) h (λ _ _, True).
Proof. unfold marker_lock_timeout, marker_fallback_eligible, now. plain. Qed.
Lemma sound_check h : sound check h (λ _ _, True).
Proof. unfold check. plain. Qed.
Lemma sound_jitter opts h : sound (fresh_jitter ci opts) h (λ _ _, True).
Proof. unfold fresh_jitter. plain. Qed.
Lemma sound_proof lease h : sound (lease_proof lease) h (λ _ _, True).
Proof. unfold lease_proof. plain. Qed.
Lemma sound_drop lease h : sound (drop_lease lease) h (λ _ _, True).
Proof. unfold drop_lease. plain. Qed.
Lemma sound_finish {A} k lease (r : result CacheError A) h :
  sound (finish_control_marker_lease ci mc k lease r) h (λ _ _, True).
Proof. unfold finish_control_marker_lease, lease_release. plain. Qed.

Lemma sound_cached k h :
  sound (marker_cached mc k) h (λ r h', ∀ e, r = Ok (Some e) → recalled h' k e).
Proof.
  unfold marker_cached. ens; try done.
  eapply ensures_use; [apply sound_accept|].
  - intros v Hv. eapply L_Memory; [eapply R_Cached; recorded|exact Hv].
  - intros [] h' Hh _. cbn. intros ? [= <-]. eexists. apply Hh. recorded.
Qed.

(** *** Phases *)
Lemma sound_bounded {A} timeout (work : prog (manswer (V := V)) (result CacheError A)) h Q :
  sound work h Q →
  sound (bounded timeout work) h (λ r h', match r with
    | Ok (Some (Ok a)) => Q (Ok a) h'
    | Ok (Some (Err e)) => Q (Err e) h' ∨ ∃ reason, e = CE_OperationCancelled reason
    | Ok None => True
    | Err _ => True end).
Proof.
  intros Hw. eapply ensures_mono; [apply (ensures_bounded _ (λ _, True)); [apply quiet_plain|done|done|exact Hw]|].
  by intros [[[a|e]|]|e] h' _.
Qed.

(** *** Fetching *)
Definition read_at h (k : MarkerKind) (read : MarkerSnapshotRead) : Prop := ∃ at_, MEv (M_ReadSnapshot k at_) (Ok read) ∈ h.
Definition presence_at h (k : MarkerKind) (p : MarkerPresence) : Prop :=
  match p with Present v => learned h k v | Absent => missing ci h k end.

Lemma sound_fetch_snapshot k fallback h :
  sound (fetch_control_snapshot mc k fallback) h (λ r h', ∀ read, r = Ok (SF_Read read) → read_at h' k read).
Proof.
  unfold fetch_control_snapshot. eapply ensures_attempt.
  { apply (sound_bounded _ _ _ (λ r h', ∀ read, r = Ok (SF_Read read) → read_at h' k read)).
    ens; [|done]. intros read [= <-]. eexists. recorded. }
  { done. }
  intros [[read|e]|] h' Hh Hr; cbn [ensures]; [exact Hr|by intros|]. unfold deadline_missed. by ens.
Qed.

Lemma sound_read k h :
  sound (read_with_cancellation ci mc k) h (λ r h', match r with
    | Ok (Some v) => learned h' k v | Ok None => missing ci h' k | Err _ => True end).
Proof.
  unfold read_with_cancellation, phase_check, ordinary_read.
  assert (sound (call (M_Read k)) h (λ (r : result CacheError (option MarkerVersion)) h', match r with
    | Ok (Some v) => learned h' k v | Ok None => missing ci h' k | Err _ => True end)) as Hread.
  { ens. destruct x as [[v|]|]; [eapply L_Read|eapply N_Read|done]; recorded. }
  destruct (markers mc); try exact Hread. clear Hread. ens; try done.
  all: match goal with |- match match ?x with _ => _ end with _ => _ end => destruct x as [[bytes|]|] end; try done.
  all: try (eapply N_Bytes; recorded).
  all: destruct (marker_of_bytes bytes) eqn:?; cbn; [|done]; eapply L_Bytes; [recorded|done].
Qed.
Lemma sound_fetch_marker k fallback h :
  sound (fetch_control_marker ci mc k fallback) h (λ r h', match r with
    | Ok (MF_Observed p) => presence_at h' k p | Ok (MF_Snapshot _) => False | _ => True end).
Proof.
  unfold fetch_control_marker. eapply ensures_attempt.
  { apply (sound_bounded _ _ _ (λ r h', match r with
      | Ok (Some v) => learned h' k v | Ok None => missing ci h' k | Err _ => True end)).
    by apply sound_read. }
  { done. }
  intros [[[v|]|e]|] h' Hh Hr; cbn [ensures raise ok]; try done; unfold deadline_missed; by ens.
Qed.

Lemma sound_recheck observations k fallback h :
  sound (recheck_control_snapshot mc observations k fallback) h (λ r h', ∀ read, r = Ok (Some read) → read_at h' k read).
Proof.
  unfold recheck_control_snapshot. case_match; [done|].
  eapply ensures_use; [apply sound_fetch_snapshot|]. intros r h' Hh Hr. ens; try done.
  intros ? [= <-]. by apply Hr.
Qed.

(** *** Recording *)
Lemma sound_record_snapshot k s captured h :
  snapshot_read h k s → sound (record_control_snapshot mc k s captured) h (λ _ _, True).
Proof.
  intros Hs. assert (learned h k (snap_version s)) as Hv by by apply snapshot_read_learned.
  unfold record_control_snapshot. ens.
  - split; [fact|]. apply attested_reconcile; [cbn; fact|]. intros v ->. apply L_Registry. recorded.
  - eapply ensures_use; [apply sound_accept|by ens]. intros v Hp. eapply L_Memory; [|exact Hp].
    eapply R_StoreSnapshot. recorded.
  - done.
Qed.
Lemma sound_record_observation k p captured h :
  presence_at h k p → sound (record_control_observation ci mc k p captured) h (λ _ _, True).
Proof.
  intros Hp. unfold record_control_observation. eapply ensures_use.
  { instantiate (1 := λ _ _, True). destruct p; [by apply sound_apply|done]. }
  intros [] h' Hh _. ens. eapply ensures_use; [apply sound_jitter|]. intros [jitter|] h'' Hh' _; ens.
  - apply attested_reconcile; [|intros v ->; apply L_Registry; apply Hh'; recorded].
    unfold attested. destruct p; cbn in *; [fact|]. left. split; [done|fact].
  - eapply ensures_use; [apply sound_accept|by ens]. intros v Hv. eapply L_Memory; [|exact Hv].
    eapply R_Store. recorded.
  - done.
  - done.
Qed.

Lemma sound_degraded k cached failure h :
  (∀ e, cached = Some e → recalled h k e) → sound (marker_degraded mc k cached failure) h (λ _ _, True).
Proof.
  intros Hc. unfold marker_degraded. eapply ensures_use; [apply sound_eligible|]. intros [] h' Hh _; ens; try done.
  - specialize (Hc _ eq_refl). cbn. fact.
  - eapply ensures_use; [apply sound_accept|by ens]. intros v Hv. eapply L_Memory; [|exact Hv].
    eapply R_Fallback. recorded.
Qed.

Lemma sound_acquire k mode h : sound (acquire_control_marker_lease ci mc k mode) h (λ _ _, True).
Proof.
  apply sound_plain. unfold acquire_control_marker_lease, or_release, check, control_marker_contention, drop_lease.
  only_run.
Qed.
Lemma sound_excluded stale mode h : sound (excluded_marker_factory mc stale mode) h (λ _ _, True).
Proof.
  unfold excluded_marker_factory, marker_factory_fallback_eligible, marker_fallback_eligible, now. plain.
Qed.
Lemma sound_factory_eligible stale h : sound (marker_factory_fallback_eligible mc stale) h (λ _ _, True).
Proof. unfold marker_factory_fallback_eligible, marker_fallback_eligible, now. plain. Qed.

Lemma sound_known k cached h :
  (∀ e, cached = Some e → recalled h k e) →
  sound (known_control_factory_observation k cached) h (λ r h', ∀ o, r = Some o →
    ∃ v, o = KnownMaximum v ∧ learned h' k v).
Proof.
  intros Hc. unfold known_control_factory_observation. ens.
  assert (∀ b, (cached ≫= λ e, version_of (MarkerObservation.presence (Entry.value e))) = Some b →
    learned (MEv (M_Version k) x :: h) k b) as Hb.
  { intros b Hb. destruct cached as [e|]; [|done]. cbn in Hb. specialize (Hc e eq_refl).
    destruct (MarkerObservation.presence (Entry.value e)) eqn:Hp; [|done]. injection Hb as ->.
    apply (learned_incl _ h); [incl|]. by eapply recalled_learned. }
  assert (∀ a, x = Some a → learned (MEv (M_Version k) x :: h) k a) as Ha by (intros a ->; apply L_Registry; recorded).
  intros o Ho. destruct x as [a|], (cached ≫= _) as [b|]; cbn in Ho; try discriminate; injection Ho as <-;
    eexists; (split; [done|]); eauto.
  destruct (Z.max_spec a b) as [[_ ->]|[_ ->]]; eauto.
Qed.

(** *** The factory *)
Definition sourced h (k : MarkerKind) (stale : MarkerFactoryStale) (p : MarkerPresence) : Prop :=
  match stale with
  | FS_Memory e => recalled h k e
  | FS_Distributed s => snapshot_read h k s ∧ ∃ v, p = Present v ∧ learned h k v
  | FS_Absent => True
  end.
Lemma sourced_incl h h' k stale p : h ⊆ h' → sourced h k stale p → sourced h' k stale p.
Proof.
  intros Hh. destruct stale; cbn; [intros ?; fact| |done]. intros [? (v & -> & ?)]. split; [fact|].
  exists v. split; [done|fact].
Qed.
Lemma sourced_memory h k cached p :
  (∀ e, cached = Some e → recalled h k e) → sourced h k (memory_stale cached) p.
Proof. intros Hc. destruct cached; cbn; auto. Qed.

Lemma sound_retain k p stale captured failure h :
  sourced h k stale p → sound (retain_excluded_marker_factory mc k p stale captured failure) h (λ _ _, True).
Proof.
  intros Hs. unfold retain_excluded_marker_factory. destruct stale as [e|s|].
  - apply sound_degraded. by intros ? [= <-].
  - eapply ensures_use; [apply sound_factory_eligible|]. intros [] h' Hh _; ens; try done.
    + destruct Hs as [? (v & -> & ?)]. split; [fact|]. exists v. split; [done|fact].
    + eapply ensures_use; [apply sound_accept|by ens]. intros v Hv. eapply L_Memory; [|exact Hv].
      eapply R_FallbackSnapshot. recorded.
  - done.
Qed.

(** *** The commit *)
Lemma sound_failure commit e policy h : sound (marker_snapshot_failure ci commit e policy) h (λ _ _, True).
Proof. apply sound_plain. unfold marker_snapshot_failure, queue_marker_snapshot. only_run. Qed.

Lemma sound_observe commit v h :
  attested_commit ci h commit → learned h (sc_kind commit) v → sound (observe_renewal mc commit v) h (λ _ _, True).
Proof.
  intros [_ Hl] Hv. unfold observe_renewal. destruct commit as [k s opts captured lease [|o at_ jitter]]; ens; try done.
  all: cbn in *; try (fact).
  - eapply ensures_use; [apply sound_accept|by ens]. intros w Hw. eapply L_Memory; [|exact Hw]. eapply R_Merge. recorded.
  - destruct Hl as (w & Hw & Hl). apply attested_reconcile; [unfold attested; by rewrite Hw|]. by intros ? [= <-].
  - eapply ensures_use; [apply sound_accept|by ens]. intros w Hw. eapply L_Memory; [|exact Hw]. eapply R_Store. recorded.
Qed.

Lemma attested_commit_incl h h' commit : h ⊆ h' → attested_commit ci h commit → attested_commit ci h' commit.
Proof.
  intros Hh [Hv Hl]. split; [fact|]. destruct (sc_local commit); [done|]. destruct Hl as (v & ? & ?).
  exists v. split; [done|fact].
Qed.

Lemma sound_renewed {A} commit snapshot (f : result CacheError unit → prog (manswer (V := V)) A) h :
  attested_commit ci h commit → (∀ s, snapshot = Some s → learned h (sc_kind commit) (snap_version s)) →
  (∀ r h', sound (f r) h' (λ _ _, True)) →
  sound (bind (match snapshot with
               | Some snapshot =>
                   apply_marker (mkStoredMarker (sc_kind commit) (snap_version snapshot)) ;;;
                   observe_renewal mc commit (snap_version snapshot)
               | None => ok tt
               end) f) h (λ _ _, True).
Proof.
  intros Hc Hs Hf. destruct snapshot as [s|]; [|apply Hf]. specialize (Hs s eq_refl).
  eapply ensures_use; [|by intros].
  eapply ensures_use; [by apply sound_apply|]. intros [] h' Hh _.
  apply sound_observe; [by eapply attested_commit_incl|fact].
Qed.

Lemma sound_commit commit policy h :
  attested_commit ci h commit → sound (commit_control_snapshot ci mc commit policy) h (λ _ _, True).
Proof.
  intros Hc. unfold commit_control_snapshot. eapply ensures_attempt; [apply sound_check|done|]. intros [] h1 H1 _.
  ens; [done|]. eapply ensures_use; [apply sound_proof|]. intros [proved|] h2 H2 _; ens; [| |done].
  { assert (h ⊆ h2) as Hh by incl. cbn. by apply (attested_commit_incl _ _ _ Hh) in Hc as [Hv _]; fact. }
  eapply ensures_use; [apply sound_check|]. intros [[]|] h3 H3 _; [|done].
  destruct x1 as [renewal|e]; [|destruct e; try done; apply sound_failure].
  destruct (renewal_of renewal) as [snapshot outcome] eqn:Hr.
  eapply sound_renewed; [by apply (attested_commit_incl h); [incl|]| |by intros [[]|] h'; ens].
  intros s ->. eapply L_Renewed; [apply H3; recorded|by rewrite Hr|done].
Qed.

Lemma sound_commit_task commit h : attested_commit ci h commit → sound (commit_task ci mc commit) h (λ _ _, True).
Proof.
  intros Hc. eapply ensures_use; [by apply sound_commit|]. intros r h' _ _. apply sound_finish.
Qed.
Lemma sound_owned {A} (work : prog (manswer (V := V)) (result CacheError A)) h :
  sound work h (λ _ _, True) → sound (owned work) h (λ _ _, True).
Proof.
  intros Hw. eapply ensures_mono; [apply (ensures_owned _ (λ _, True)); [apply quiet_plain|done|exact Hw]|done].
Qed.

Lemma sound_write cached commit h :
  attested_commit ci h commit → sound (write_control_snapshot ci mc cached commit) h (λ _ _, True).
Proof.
  intros Hc. unfold write_control_snapshot. destruct cached; cbn [negb].
  - case_match; [by ens|]. by apply sound_owned, sound_commit_task.
  - eapply ensures_use; [apply sound_drop|done].
Qed.

(** A guard's drop on an error path. *)
Lemma sound_or_drop {A B} lease (work : prog (manswer (V := V)) (result CacheError A))
    (k : A → prog (manswer (V := V)) (result CacheError B)) h (P : result CacheError A → chronicle V → Prop) :
  sound work h P → (∀ a h', h ⊆ h' → P (Ok a) h' → sound (k a) h' (λ _ _, True)) →
  sound (or_release (drop_lease lease) work k) h (λ _ _, True).
Proof.
  intros Hw Hk. eapply ensures_release; [exact Hw| |exact Hk]. intros e h' _ _. apply sound_drop.
Qed.

Lemma sound_complete observations o stale refresh lease h :
  attested h (rf_kind refresh) o → sourced h (rf_kind refresh) stale (MarkerObservation.presence o) →
  sound (complete_control_marker_factory ci mc observations o stale refresh lease) h (λ _ _, True).
Proof.
  intros Ho Hs. destruct refresh as [k captured mode]. cbn [rf_kind rf_mode rf_captured] in *.
  unfold complete_control_marker_factory. cbn [rf_kind rf_mode rf_captured].
  eapply sound_or_drop; [apply sound_check|]. intros _ h1 H1 _.
  eapply sound_or_drop; [apply sound_proof|]. intros _ h2 H2 _.
  eapply ensures_use; [apply sound_excluded|]. intros [[failure|]|e] h3 H3 _; [| |apply sound_finish].
  { eapply ensures_use; [|intros; apply sound_finish]. apply sound_retain. eapply sourced_incl; [|exact Hs]. incl. }
  ens. set (h4 := _ :: _). assert (h ⊆ h4) as H4 by (subst h4; incl).
  assert (attested h4 k (MarkerObservation.reconcile_maximum o x)) as Ho4.
  { apply attested_reconcile; [fact|]. intros v ->. apply L_Registry. subst h4. recorded. }
  clearbody h4. generalize dependent (MarkerObservation.reconcile_maximum o x). intros o' Ho'.
  eapply sound_or_drop; [apply sound_jitter|]. intros jitter h5 H5 _.
  eapply (sound_or_drop _ _ _ _ (λ r h', ∀ o l, r = Ok (o, l) →
    (∀ v, MarkerObservation.presence o = Present v → learned h' k v ∧ attested_local ci h' k l))).
  { destruct (_ && _) eqn:Hb.
    - intros o2 l [= <- <-] v Hv. unfold attested in Ho'. rewrite Hv in Ho'. split; [fact|]. cbn.
      exists v. split; [done|fact].
    - ens; [fact| |done]. intros o2 l [= <- <-] v Hv. split; [|done]. eapply L_Memory; [|exact Hv]. eapply R_Store. recorded. }
  intros [o2 l] h6 H6 Hl. specialize (Hl o2 l eq_refl).
  eapply ensures_use; [apply sound_accept; intros v Hv; by apply Hl|]. intros [] h7 H7 _.
  eapply ensures_use; [instantiate (1 := λ _ _, True)|].
  - destruct (MarkerObservation.presence o2) as [v|]; [|apply sound_finish]. case_match; [apply sound_finish|].
    destruct (Hl v eq_refl) as [Hv Ha]. apply sound_write. split; cbn; [fact|]. destruct l; [done|]. cbn in *.
    destruct Ha as (w & ? & ?). exists w. split; [done|fact].
  - intros [] h8 H8 _; [|done]. eapply ensures_use; [apply sound_check|]. intros [] h9 H9 _; by ens.
Qed.

Lemma sourced_reconcile h k stale o m :
  sourced h k stale (MarkerObservation.presence o) → attested h k o → (∀ v, m = Some v → learned h k v) →
  sourced h k stale (MarkerObservation.presence (MarkerObservation.reconcile_maximum o m)).
Proof.
  intros Hs Ho Hm. apply (attested_reconcile _ _ _ _ _ m) in Ho; [|done]. destruct stale; [done| |done].
  destruct Hs as (? & v & Hp & _). split; [done|]. 
  pose proof (reconcile_le_l o m) as Hle. rewrite Hp in Hle.
  destruct (MarkerObservation.presence (MarkerObservation.reconcile_maximum o m)) as [w|] eqn:Hw; [|done].
  exists w. split; [done|]. by apply (attested_present ci mc h k _ w Hw).
Qed.

Lemma sound_unobserved cached read refresh lease h :
  (∀ e, cached = Some e → recalled h (rf_kind refresh) e) →
  sound (complete_unobserved_marker_factory ci mc cached read refresh lease) h (λ _ _, True).
Proof.
  intros Hc. unfold complete_unobserved_marker_factory.
  eapply ensures_use; [apply sound_excluded|]. intros [[failure|]|e] h' Hh _; [| |apply sound_finish].
  - eapply ensures_use; [|intros; apply sound_finish]. apply sound_retain.
    eapply sourced_incl; [exact Hh|]. by apply sourced_memory.
  - apply sound_finish.
Qed.

Lemma sound_resolve_leased observations cached read refresh lease h :
  (∀ e, cached = Some e → recalled h (rf_kind refresh) e) →
  (∀ r, read = FR_Read r → read_at h (rf_kind refresh) r) →
  sound (resolve_leased_control_snapshot ci mc observations cached read refresh lease) h (λ _ _, True).
Proof.
  intros Hc Hr. unfold resolve_leased_control_snapshot.
  eapply sound_or_drop; [apply sound_proof|]. intros _ h1 H1 _.
  eapply sound_or_drop; [apply sound_check|]. intros _ h2 H2 _.
  assert (∀ o stale h', h2 ⊆ h' → attested h' (rf_kind refresh) o →
    sourced h' (rf_kind refresh) stale (MarkerObservation.presence o) →
    sound (let* known := call (M_Version (rf_kind refresh)) in
      complete_control_marker_factory ci mc observations (MarkerObservation.reconcile_maximum o known) stale refresh lease)
      h' (λ _ _, True)) as Hcomplete.
  { intros o stale h' Hh Ho Hs. ens.
    assert (∀ v, x = Some v → learned (MEv (M_Version (rf_kind refresh)) x :: h') (rf_kind refresh) v) as Hx
      by (intros v ->; apply L_Registry; recorded).
    apply sound_complete; [apply attested_reconcile; [fact|exact Hx]|].
    apply sourced_reconcile; [eapply sourced_incl; [|exact Hs]; incl|fact|exact Hx]. }
  assert (∀ h', h2 ⊆ h' → sourced h' (rf_kind refresh) (memory_stale cached) Absent) as Hcached.
  { intros h' Hh. eapply sourced_incl; [|by apply (sourced_memory h)]. incl. }
  destruct read as [[s|maximum]|read].
  - destruct (Hr _ eq_refl) as [at_ Hat]. assert (snapshot_read h (rf_kind refresh) s) as Hs by (by exists at_).
    assert (learned h (rf_kind refresh) (snap_version s)) as Hv by by apply snapshot_read_learned.
    eapply ensures_use; [apply sound_apply; fact|]. intros [] h3 H3 _.
    eapply ensures_use; [instantiate (1 := λ _ _, True); by ens|]. intros [] h4 H4 _.
    + eapply ensures_use; [apply sound_record_snapshot; fact|]. intros; apply sound_finish.
    + apply Hcomplete; [incl|apply (attested_present _ _ _ _ _ (snap_version s)); [done|fact]|]. cbn. split; [fact|].
      exists (snap_version s). split; [done|fact].
  - destruct (Hr _ eq_refl) as [at_ Hat].
    assert (∀ v, maximum = Some v → learned h (rf_kind refresh) v) as Hv.
    { intros v ->. eapply L_Snapshot; [exact Hat|done]. }
    eapply ensures_use; [instantiate (1 := λ _ _, True); destruct maximum; [apply sound_apply; specialize (Hv _ eq_refl); fact|done]|].
    intros [] h3 H3 _. apply Hcomplete; [incl| |].
    + destruct maximum as [v|]; [specialize (Hv v eq_refl); apply (attested_present ci mc _ _ (Confirmed (Present v)) v); [done|fact]|].
      apply attested_confirmed_absent. eapply N_Snapshot. apply H3, H2, H1, Hat.
    + specialize (Hcached h3 ltac:(incl)). by destruct cached.
  - eapply ensures_use; [apply sound_known|].
    { intros e He. specialize (Hc e He). fact. }
    intros [o|] h3 H3 Ho.
    + destruct (Ho o eq_refl) as (v & -> & Hv). apply Hcomplete; [done|exact Hv|].
      specialize (Hcached h3 H3). by destruct cached.
    + apply sound_unobserved. intros e He. specialize (Hc e He). fact.
Qed.

Lemma sound_apply_read k read h : read_at h k read →
  sound (match read_maximum read with Some v => apply_marker (mkStoredMarker k v) | None => Ret tt end) h (λ _ _, True).
Proof.
  intros [at_ Hr]. destruct (read_maximum read) as [v|] eqn:Hv; [|done]. apply sound_apply. by eapply L_Snapshot.
Qed.
Lemma read_at_incl h h' k read : h ⊆ h' → read_at h k read → read_at h' k read.
Proof. unfold read_at. naive_solver. Qed.

(** *** Controlled reads *)
Section reads.
Context (observations : Observations).

Lemma sound_resolve k cached read captured h :
  (∀ e, cached = Some e → recalled h k e) → (∀ r, read = FR_Read r → read_at h k r) →
  sound (resolve_control_snapshot ci mc observations k cached read captured) h (λ _ _, True).
Proof.
  intros Hc Hr. unfold resolve_control_snapshot. eapply ensures_use.
  { instantiate (1 := λ _ _, True). destruct read as [read|]; [apply sound_apply_read; by apply Hr|done]. }
  intros [] h1 H1 _. eapply ensures_use.
  { instantiate (1 := λ r h', h1 ⊆ h' ∧ ∀ s, r = Some s → read = FR_Read (SR_Snapshot s)). unfold now.
    destruct read as [[s|]|]; [|done..]. ens. split; [incl|]. intros s'. case_match; by intros [= <-]. }
  intros [s|] h2 H2 [_ Hs].
  { apply sound_record_snapshot. destruct (Hr _ (Hs s eq_refl)) as [at_ ?]. exists at_. by apply H2, H1. }
  eapply ensures_attempt; [apply sound_acquire|done|]. intros [lease|] h3 H3 _; [|done].
  eapply (sound_or_drop _ _ _ _ (λ r h', ∀ fr, r = Ok fr → ∀ r, fr = FR_Read r → read_at h' k r)).
  { assert (∀ h', h3 ⊆ h' → ∀ r, read = FR_Read r → read_at h' k r) as Hold.
    { intros h' Hh r Hread. apply (read_at_incl h); [incl|by apply Hr]. }
    destruct (is_held lease); [|by intros ? [= <-]; apply Hold].
    eapply ensures_attempt; [apply sound_recheck|done|]. intros [again|] h4 H4 Ha; intros ? [= <-].
    - intros r [= <-]. by apply Ha.
    - by apply Hold. }
  intros fr h4 H4 Hfr. apply sound_resolve_leased; cbn [rf_kind]; [|by apply Hfr].
  intros e He. specialize (Hc e He). fact.
Qed.

Lemma sound_unavailable k cached captured failure h :
  (∀ e, cached = Some e → recalled h k e) →
  sound (unavailable_control_marker ci mc observations k cached captured failure) h (λ _ _, True).
Proof. intros Hc. unfold unavailable_control_marker. case_match; [by apply sound_degraded|by apply sound_resolve]. Qed.

Lemma sound_remote k cached captured h :
  (∀ e, cached = Some e → recalled h k e) →
  sound (marker_remote ci mc observations k cached captured) h (λ _ _, True).
Proof.
  intros Hc. unfold marker_remote. eapply ensures_use.
  { instantiate (1 := λ r h', match r with
      | Ok (MF_Observed p) => presence_at h' k p | Ok (MF_Snapshot read) => read_at h' k read | _ => True end).
    destruct (lifecycle observations).
    - eapply ensures_mono; [apply sound_fetch_marker|]. by intros [[]|] h' _.
    - eapply ensures_attempt; [apply sound_fetch_snapshot|done|]. intros [read|] h' _ Hr; [|done]. cbn. by apply Hr. }
  intros r h' Hh Hr. assert (∀ e, cached = Some e → recalled h' k e) as Hc'.
  { intros e He. specialize (Hc e He). fact. }
  destruct r as [[p|read|failure]|e].
  - by apply sound_record_observation.
  - apply sound_resolve; [done|]. by intros ? [= <-].
  - by apply sound_unavailable.
  - destruct e; try done. destruct (suppressed_marker_fault _ _); [|done]. by apply sound_unavailable.
Qed.

Lemma sound_fresh cached h :
  sound (match cached with Some e => is_fresh_now e | None => Ret false end) h (λ _ _, True).
Proof. unfold is_fresh_now, now. plain. Qed.

Lemma sound_resolve_read k captured h : sound (resolve_control_read ci mc observations k captured) h (λ _ _, True).
Proof.
  unfold resolve_control_read. eapply ensures_attempt; [apply sound_cached|done|]. intros cached h1 H1 Hc.
  eapply ensures_use; [apply sound_fresh|]. intros fresh h2 H2 _.
  assert (∀ e, cached = Some e → recalled h2 k e) as Hc2.
  { intros e ->. specialize (Hc e eq_refl). fact. }
  assert (sound (if EntryOptions.skip_distributed_read (tags_default_options mc)
                  || has cached && EntryOptions.skip_distributed_read_when_stale (tags_default_options mc)
    then match lifecycle observations with
         | DurableOnly => ok RO_Skipped
         | CachedSnapshots => resolve_control_snapshot ci mc observations k cached (FR_Unobserved UR_Skipped) captured
         end
    else marker_remote ci mc observations k cached captured) h2 (λ _ _, True)) as Hgo.
  { case_match; [|by apply sound_remote]. case_match; [done|]. by apply sound_resolve. }
  destruct fresh; [|exact Hgo]. destruct cached; [done|exact Hgo].
Qed.

Lemma sound_lookup k captured h :
  sound (marker_lookup ci mc k captured) h (λ r h', ∀ e, r = Ok (LU_Refresh (Some e)) → recalled h' k e).
Proof.
  unfold marker_lookup. eapply ensures_use; [instantiate (1 := λ _ _, True); plain|].
  intros [outcome|] h1 H1 _; [done|]. eapply ensures_attempt; [apply sound_cached|done|]. intros cached h2 H2 Hc.
  eapply ensures_use; [apply sound_fresh|]. intros fresh h3 H3 _. cbn. intros e He.
  assert (cached = Some e) as -> by (destruct fresh, cached; naive_solver). specialize (Hc e eq_refl). fact.
Qed.

Lemma sound_locked k before (work : prog (manswer (V := V)) (result CacheError MarkerReadOutcome)) h :
  (∀ h', sound work h' (λ _ _, True)) →
  sound (under_marker_lock mc observations k before work) h (λ _ _, True).
Proof.
  intros Hw. unfold under_marker_lock. eapply ensures_use; [apply sound_lock_timeout|]. intros timeout h1 H1 _.
  ens; [|done]. eapply ensures_finally; [instantiate (1 := λ _ _, True)|by intros; destruct a; ens].
  eapply ensures_attempt; [apply sound_check|done|]. intros [] h2 H2 _.
  eapply ensures_use; [instantiate (1 := λ _ _, True); case_match; [apply sound_eligible|done]|].
  intros [] h3 H3 _; [done|apply Hw].
Qed.

(** *** Eager refreshes *)
Lemma sound_start_eager k captured task h :
  (∀ h' current, recalled h' k current → attested_task ci mc h' (task current)) →
  sound (start_eager mc observations k captured task) h (λ _ _, True).
Proof.
  intros Ht. unfold start_eager. eapply ensures_attempt; [apply sound_cached|done|]. intros [current|] h1 H1 Hc; [|done].
  specialize (Hc current eq_refl). ens; try done; try fact.
  all: eapply ensures_use; [apply sound_check|]; intros [[]|] h2 H2 _; [|done].
  all: ens; try done. all: cbn [faithful]; apply Ht; fact.
Qed.
Lemma sound_maybe_eager k captured h : sound (maybe_eager_control_marker ci mc observations k captured) h (λ _ _, True).
Proof.
  unfold maybe_eager_control_marker. case_match; [done|].
  eapply ensures_use; [instantiate (1 := λ _ _, True); plain|]. intros [] h1 H1 _; [done|]. by apply sound_start_eager.
Qed.

Lemma sound_eager k current captured h :
  recalled h k current → sound (eager_control_marker ci mc observations k current captured) h (λ _ _, True).
Proof.
  intros Hc. unfold eager_control_marker. eapply ensures_attempt; [apply sound_check|done|]. intros _ h1 H1 _.
  eapply ensures_use; [instantiate (1 := λ _ _, True); by ens|]. intros live h2 H2 _. cbn [bind call ensures]. split; [done|].
  intros stamps. case_match; [done|]. eapply ensures_attempt.
  { instantiate (1 := λ r h', ∀ read, r = Ok (FR_Read read) → read_at h' k read). case_match; [done|].
    eapply ensures_use; [apply sound_fetch_snapshot|]. intros [[read|failure]|e] h3 H3 Hr; cbn.
    - intros ? [= <-]. by apply Hr.
    - done.
    - destruct e; try done. by destruct (suppressed_marker_fault _ _). }
  { done. }
  intros read h3 H3 Hr. eapply ensures_attempt; [apply sound_check|done|]. intros _ h4 H4 _.
  answered epoch. case_match; [done|]. set (h5 := _ :: h4). assert (h4 ⊆ h5) as H5 by (subst h5; incl). clearbody h5.
  assert (∀ r, read = FR_Read r → read_at h5 k r) as Hr5.
  { intros r ->. apply (read_at_incl h3); [incl|by apply Hr]. }
  eapply ensures_use.
  { instantiate (1 := λ _ _, True). destruct read as [read|]; [apply sound_apply_read; by apply Hr5|done]. }
  intros [] h6 H6 _. eapply ensures_use.
  { instantiate (1 := λ r _, ∀ s, r = Some s → read = FR_Read (SR_Snapshot s)). unfold now.
    destruct read as [[s|]|]; [|done..]. case_match; [|done]. ens. intros s'. case_match; by intros [= <-]. }
  intros [s|] h7 H7 Hs.
  - eapply ensures_attempt; [|done|done]. apply sound_record_snapshot.
    destruct (Hr5 _ (Hs s eq_refl)) as [at_ ?]. exists at_. by apply H7, H6.
  - eapply ensures_attempt; [apply sound_acquire|done|]. intros [lease|] h8 H8 _; [|done].
    eapply ensures_attempt; [apply sound_resolve_leased; cbn [rf_kind]|done|done].
    + intros ? [= <-]. apply (recalled_incl h); [incl|done].
    + intros r He. apply (read_at_incl h5); [incl|by apply Hr5].
Qed.

(** *** One marker *)
Lemma sound_validate opts h : sound (validate_execution_options ci mc opts) h (λ _ _, True).
Proof. unfold validate_execution_options. plain. Qed.

Lemma sound_read_control k h : sound (read_control_marker ci mc observations k) h (λ _ _, True).
Proof.
  unfold read_control_marker. eapply ensures_attempt; [apply sound_validate|done|]. intros _ h1 H1 _.
  answered captured. eapply ensures_attempt; [apply sound_lookup|done|].
  intros found h2 H2 _. eapply ensures_attempt; [instantiate (1 := λ _ _, True)|done|].
  { destruct found as [outcome|before]; [done|]. apply sound_locked. intros h3. apply sound_resolve_read. }
  intros outcome h3 H3 _. eapply ensures_attempt; [apply sound_check|done|]. intros _ h4 H4 _.
  eapply ensures_use; [instantiate (1 := λ _ _, True); plain|]. intros _ h5 H5 _.
  eapply ensures_attempt; [apply sound_maybe_eager|done|]. intros _ h6 H6 _. by ens.
Qed.

Lemma sound_local_factory k cached captured mode h :
  (∀ e, cached = Some e → recalled h k e) → markers mc = AC_Local →
  sound (complete_local_marker_factory ci mc observations k cached captured mode) h (λ _ _, True).
Proof.
  intros Hc Hl. unfold complete_local_marker_factory. eapply ensures_use; [by apply sound_known|]. intros o h1 H1 Ho.
  apply sound_complete; cbn [rf_kind].
  - destruct o as [o|]; cbn; [|by right]. destruct (Ho o eq_refl) as (v & -> & Hv). exact Hv.
  - apply (sourced_incl h); [done|]. destruct cached; cbn; auto.
Qed.

Lemma sound_read_local k h :
  markers mc = AC_Local → sound (read_local_control_marker ci mc observations k) h (λ _ _, True).
Proof.
  intros Hl. unfold read_local_control_marker. eapply ensures_attempt; [apply sound_validate|done|]. intros _ h1 H1 _.
  answered captured. eapply ensures_attempt; [apply sound_lookup|done|].
  intros found h2 H2 _. eapply ensures_attempt; [instantiate (1 := λ _ _, True)|done|].
  { destruct found as [outcome|before]; [done|]. apply sound_locked. intros h3. eapply ensures_attempt; [apply sound_lookup|done|].
    intros [outcome|cached] h4 H4 Hc; [done|]. apply sound_local_factory; [|done]. intros e ->. by apply Hc. }
  intros outcome h3 H3 _. eapply ensures_attempt; [apply sound_check|done|]. intros _ h4 H4 _.
  eapply ensures_attempt; [instantiate (1 := λ _ _, True)|done|].
  { unfold maybe_eager_local_marker. case_match; [done|]. by apply sound_start_eager. }
  intros _ h5 H5 _. by ens.
Qed.

Lemma sound_check_markers (read : MarkerKind → prog (manswer (V := V)) (result CacheError unit)) kinds at_ h :
  (∀ k h, sound (read k) h (λ _ _, True)) → sound (check_markers read kinds at_) h (λ _ _, True).
Proof.
  intros Hr. revert h. induction kinds as [|k kinds IH]; intros h; [apply sound_check|]. cbn [check_markers].
  eapply ensures_attempt; [apply sound_check|done|]. intros _ h1 H1 _.
  eapply ensures_attempt; [apply Hr|done|]. intros _ h2 H2 _.
  eapply ensures_use; [instantiate (1 := λ _ _, True); unfold marker_invalidates_snapshot; plain|].
  intros [] h3 H3 _; [apply sound_check|apply IH].
Qed.

(** *** Owned tasks *)
Lemma sound_task task h :
  attested_task ci mc h task →
  sound (run_task ci mc observations task) h (λ _ _, True).
Proof.
  intros Ht. apply sound_owned. destruct task as [k current captured|k captured|commit]; cbn [task_work].
  - eapply ensures_finally; [by apply sound_eager|by intros; ens].
  - eapply ensures_finally; [instantiate (1 := λ _ _, True)|by intros; ens].
    unfold eager_local_marker. eapply ensures_attempt; [apply sound_check|done|]. intros _ h1 H1 _.
    answered epoch. case_match; [done|].
    eapply ensures_attempt; [apply sound_cached|done|]. intros cached h2 H2 Hc.
    eapply ensures_attempt; [apply sound_local_factory; [|done]|done|].
    + intros e ->. by apply Hc.
    + intros _ h3 H3 _. apply sound_check.
  - by apply sound_commit_task.
Qed.
End reads.

Lemma sound_controlled e h : sound (reconcile_controlled_markers ci mc e) h (λ _ _, True).
Proof.
  unfold reconcile_controlled_markers. case_match; [done|]. case_match; [done|]. destruct (markers mc) eqn:Hm; try done.
  - case_match; [|done]. apply sound_check_markers. intros. by apply sound_read_local.
  - apply sound_check_markers. intros. apply sound_read_control.
  - apply sound_check_markers. intros. apply sound_read_control.
Qed.
End steps.

Module AttestedTheorems.
(** C5: Marker facts are never invented. Whatever the registry, the
    observation memory and the marker store answer, a controlled reconciliation of
    an entry, and every task it starts, only applies to the registry, records,
    renews and falls back on what was read before for the same marker: a revision
    some component answered; an entry or a snapshot that was read; absence only
    where the store answered that there is no revision, or where there is no
    store. In particular neither a skipped read, nor a fault, nor a timeout is
    recorded as the absence of a marker. *)
Theorem marker_facts_are_attested {V} (ci : Inner) (mc : MarkerConfig) h :
  (∀ e : Entry V, ensures (faithful ci mc) (reconcile_controlled_markers ci mc e) h (λ _ _, True)) ∧
  (∀ observations task, attested_task ci mc h task →
     ensures (V := V) (faithful ci mc) (run_task ci mc observations task) h (λ _ _, True)).
Proof. split; [intros; apply sound_controlled|intros; by apply sound_task]. Qed.

(** The owned write of a revision the registry knew. *)
Definition sample_commit : MarkerSnapshotCommit :=
  mkSnapshotCommit MK_ClearExpire (Invalidation.mkSnapshot 7 0 10 10) Options.default_options 1 ML_Unleased LO_Admitted.
Definition sample_record : chronicle nat := [Ev (ans := manswer (V := nat)) (M_Version MK_ClearExpire) (Some 7)].

Lemma marker_facts_are_attested_witness :
  attested_task demo_inner demo_config sample_record (MT_Commit sample_commit) ∧
  ensures (V := nat) (faithful demo_inner demo_config)
    (run_task demo_inner demo_config demo_observations (MT_Commit sample_commit)) sample_record (λ _ _, True).
Proof.
  assert (attested_task demo_inner demo_config sample_record (MT_Commit sample_commit)) as H.
  { split; [|exact I]. apply L_Registry. left. }
  split; [exact H|]. by apply (marker_facts_are_attested demo_inner demo_config sample_record).
Defined.
End AttestedTheorems.
