(* ===== verification/Settled.v ===== *)
(** * What the marker store says reaches the registry

    More of the theory of [Markers.v]: a reconciliation that succeeds has applied
    to the registry every revision its provider reads answered, so that the
    verdict drawn next cannot miss one; a batch reconciliation read every marker
    of the entry; and a fenced refresh shows its observation only once its renewal
    is committed under the lease. *)
From Stdlib Require Init.Byte.
From S2P Require Import Prelude Time Calls Circuit Options Entry Tags Backplane Cancellation.
From S2P Require Import Invalidation Storage Lanes Wire Lease Recovery Observe Worker Write Control Markers Attested.
Open Scope prog_scope.

Section settled.
Context {V : Type} (ci : Inner) (excused : MarkerKind → MarkerVersion → Prop).
Implicit Types (h : chronicle V).
Local Abbreviation prog := (prog (manswer (V := V))).
Local Abbreviation MEv c x := (Ev (ans := manswer (V := V)) c x).

(** The revision of [k] that a provider's answer tells. *)
Definition told_by (k : MarkerKind) (ev : event (manswer (V := V))) : option MarkerVersion :=
  match ev_call ev as c return manswer c → option MarkerVersion with
  | M_Read k' => λ a, match a with Ok v => if decide (k' = k) then v else None | Err _ => None end
  | M_ReadBytes key => λ a,
      match a with
      | Ok (Some bytes) =>
          if decide (key = ordinary_key (scope ci) k) then
            match marker_of_bytes bytes with Ok v => Some v | Err _ => None end
          else None
      | _ => None
      end
  | M_ReadSnapshot k' _ => λ a,
      match a with Ok read => if decide (k' = k) then read_maximum read else None | Err _ => None end
  | M_Renew k' _ _ _ => λ a,
      match a with Ok r => if decide (k' = k) then snap_version <$> (renewal_of r).1 else None | Err _ => None end
  | _ => λ _, None
  end (ev_answer ev).
Definition told h (k : MarkerKind) (v : MarkerVersion) : Prop := ∃ ev, ev ∈ h ∧ told_by k ev = Some v.
Definition applied h (k : MarkerKind) (v : MarkerVersion) : Prop := ∃ outcome, MEv (M_Advance k v) outcome ∈ h.
(** What was told is applied, unless it is excused; all but possibly one, still
    in the program's hands. *)
Definition dealt h (k : MarkerKind) (v : MarkerVersion) : Prop := applied h k v ∨ excused k v.
Definition settled_but h (k : MarkerKind) (pending : option MarkerVersion) : Prop :=
  ∀ k' v, told h k' v → dealt h k' v ∨ k' = k ∧ pending = Some v.
Definition settled h : Prop := ∀ k v, told h k v → dealt h k v.

Lemma settled_none h k : settled_but h k None ↔ settled h.
Proof. unfold settled_but, settled. naive_solver. Qed.
Lemma settled_weaken h k p : settled h → settled_but h k p.
Proof. unfold settled_but, settled. naive_solver. Qed.
Lemma settled_applied_incl h h' k v : h ⊆ h' → applied h k v → applied h' k v.
Proof. intros Hh [outcome Ho]. exists outcome. by apply Hh. Qed.
Lemma dealt_incl h h' k v : h ⊆ h' → dealt h k v → dealt h' k v.
Proof. intros Hh [Ha|]; [left; by eapply settled_applied_incl|by right]. Qed.

(** Only these accesses tell a revision. *)
Definition tells (c : MCall V) : bool :=
  match c with M_Read _ | M_ReadBytes _ | M_ReadSnapshot _ _ | M_Renew _ _ _ _ => true | _ => false end.
Lemma untold k ev : tells (ev_call ev) = false → told_by k ev = None.
Proof. by destruct ev as [[] x]. Qed.

(** An event that tells at most the revision [p'] of [k]. *)
Lemma settled_tell h k p ev :
  settled h → (∀ k' v, told_by k' ev = Some v → k' = k ∧ p = Some v) → settled_but (ev :: h) k p.
Proof.
  intros Hs Hev k' v (ev' & Hin & Hv). apply elem_of_cons in Hin as [->|Hin]; [right; by apply Hev|left].
  eapply dealt_incl; [|apply Hs; by exists ev']. set_solver.
Qed.
Lemma settled_cons h c (x : manswer c) k p : tells c = false → settled_but h k p → settled_but (Ev c x :: h) k p.
Proof.
  intros Hc Hs k' v (ev & Hin & Hv). apply elem_of_cons in Hin as [->|Hin]; [by rewrite untold in Hv|].
  destruct (Hs k' v) as [Ha|]; [by exists ev| |by right]. left. eapply dealt_incl; [|exact Ha]. set_solver.
Qed.
Lemma settled_silent h ev : (∀ k, told_by k ev = None) → settled h → settled (ev :: h).
Proof.
  intros Hev Hs k v (ev' & Hin & Hv). apply elem_of_cons in Hin as [->|Hin]; [by rewrite Hev in Hv|].
  eapply dealt_incl; [|apply Hs; by exists ev']. set_solver.
Qed.
Lemma settled_next h c (x : manswer c) : tells c = false → settled h → settled (Ev c x :: h).
Proof. intros Hc. apply settled_silent. intros k. by apply untold. Qed.
Lemma settled_apply h k v outcome :
  settled_but h k (Some v) → settled (MEv (M_Advance k v) outcome :: h).
Proof.
  intros Hs k' v' (ev & Hin & Hv). apply elem_of_cons in Hin as [->|Hin]; [done|].
  destruct (Hs k' v') as [Ha|[-> [= <-]]]; [by exists ev|eapply dealt_incl; [|exact Ha]; set_solver|].
  left. exists outcome. left.
Qed.
End settled.

(** ** The traversal *)
Abbreviation fine := (ensures (λ _ _, True)).

Section steps.
Context {V : Type} (ci : Inner) (mc : MarkerConfig) (excused : MarkerKind → MarkerVersion → Prop).
Implicit Types (h : chronicle V).
Local Abbreviation prog := (prog (manswer (V := V))).
Local Abbreviation MEv c x := (Ev (ans := manswer (V := V)) c x).
Local Abbreviation settled := (settled ci excused).
Local Abbreviation settled_but := (settled_but ci excused).

Lemma fine_untold {A} (p : prog A) h k pending :
  only (λ c, tells c = false) p → settled_but h k pending → fine p h (λ _ h', settled_but h' k pending).
Proof.
  revert h. induction p as [a|c f IH]; intros h; [done|]. intros [Hc Hf] Hs. split; [done|]. intros x.
  apply IH; [done|]. unfold record. destruct (negb _); [by apply settled_cons|done].
Qed.
Lemma fine_silent {A} (p : prog A) h : only (λ c, tells c = false) p → settled h → fine p h (λ _ h', settled h').
Proof.
  intros Hp Hs. apply (settled_none _ _ _ MK_ClearRemove) in Hs.
  eapply ensures_mono; [by apply fine_untold|]. intros a h' _. apply settled_none.
Qed.
Ltac untold := only_run.
Ltac silent := first [apply fine_silent|apply fine_untold]; [untold|try done].

Lemma fine_apply k v h : settled_but h k (Some v) → fine (apply_marker (mkStoredMarker k v)) h (λ _ h', settled h').
Proof.
  intros Hs. unfold apply_marker. cbn. split; [done|]. intros x. by apply settled_apply.
Qed.
Lemma fine_apply_optional k pending h :
  settled_but h k pending →
  fine (match pending with Some v => apply_marker (mkStoredMarker k v) | None => Ret tt end) h (λ _ h', settled h').
Proof. intros Hs. destruct pending; [by apply fine_apply|]. by apply settled_none in Hs. Qed.

(** *** Fetching *)

(** Work that has nothing in hand where it can be dropped. *)
Definition calm h (c : MCall V) : Prop := suspends c = true → settled h.
Lemma fine_bounded {A} timeout (work : prog (result CacheError A)) h (Q : result CacheError A → chronicle V → Prop) :
  settled h → ensures calm work h Q →
  fine (bounded timeout work) h (λ r h', match r with
    | Ok (Some (Ok a)) => Q (Ok a) h'
    | Ok (Some (Err e)) => Q (Err e) h' ∨ ∃ reason, e = CE_OperationCancelled reason
    | Ok None => settled h'
    | Err e => ∃ c, e = CE_Config c end).
Proof.
  intros Hs Hw. eapply ensures_weaken; [|done]. eapply (ensures_bounded calm settled); [|by intros h0 c Hc|done..].
  intros h0 c Hc Hsus. destruct c; try done. by destruct c.
Qed.

(** What a fetch answers, besides cancellation. *)
Definition fetched k (r : result CacheError MarkerSnapshotFetch) h : Prop :=
  match r with
  | Ok (SF_Read read) => settled_but h k (read_maximum read)
  | Ok (SF_Deadline _) | Err (CE_Marker _) => settled h
  | Err _ => True
  end.
Lemma fine_fetch_snapshot k fallback h :
  settled h → fine (fetch_control_snapshot mc k fallback) h (fetched k).
Proof.
  intros Hs. unfold fetch_control_snapshot. eapply ensures_attempt.
  { apply (fine_bounded _ _ _ (fetched k)); [done|]. cbn. split; [done|]. intros at_.
    assert (settled (MEv (M_Worker C_Now) at_ :: h)) as Hs' by by apply settled_next.
    split; [by intros _|]. intros [read|e]; cbn.
    - apply settled_tell; [done|]. cbn. intros k' v. by case_decide; subst.
    - destruct e; try done. by apply settled_silent. }
  { by intros e h' _ [c ->]. }
  intros [[read|e]|] h' Hh Hr; cbn [ensures] in *; [exact Hr| |].
  - destruct Hr as [Hr|[r ->]]; [exact Hr|done].
  - unfold deadline_missed. cbn. split; [done|]. intros []. exact Hr.
Qed.

(** An ordinary marker's key names its marker. *)
Lemma marker_keys_of k k' : ordinary_key (scope ci) k = ordinary_key (scope ci) k' → k' = k.
Proof. intros H. symmetry. apply ordinary_key_split in H as [_ H]. by apply marker_suffix_inj. Qed.
Lemma fine_read k h : settled h → ensures calm (read_with_cancellation ci mc k) h (λ r h', match r with
  | Ok v => settled_but h' k v | Err (CE_Marker _) => settled h' | Err _ => True end).
Proof.
  intros Hs. unfold read_with_cancellation, phase_check, ordinary_read.
  assert (ensures calm (call (M_Read k)) h (λ (r : result CacheError (option MarkerVersion)) h', match r with
    | Ok v => settled_but h' k v | Err (CE_Marker _) => settled h' | Err _ => True end)) as Hread.
  { split; [by intros _|]. intros [v|e]; cbn.
    - apply settled_tell; [done|]. cbn. intros k' v'. by case_decide; subst.
    - destruct e; try done. by apply settled_silent. }
  destruct (markers mc); try exact Hread. clear Hread. cbn. split; [done|]. intros [reason|]; [done|]. cbn.
  split; [by intros _|]. intros read. split; [done|]. intros [reason|]; [done|]. cbn.
  destruct read as [[bytes|]|]; cbn.
  - destruct (marker_of_bytes bytes) as [v|] eqn:Hb; cbn.
    + apply settled_tell; [done|]. cbn. intros k' v'. case_decide as Hk; [|done].
      pose proof (marker_keys_of k k' Hk) as ->. rewrite Hb. by intros [= ->].
    + apply settled_silent; [|done]. intros k'. cbn. case_decide; by rewrite ?Hb.
  - apply settled_none, settled_silent; done.
  - by apply settled_silent.
Qed.

Definition kept {A} (r : result CacheError A) h : Prop := match r with Ok _ => settled h | Err _ => True end.
(** The error a fault policy may swallow. *)
Definition faulted {A} (Q : A → chronicle V → Prop) (r : result CacheError A) h : Prop :=
  match r with Ok a => Q a h | Err (CE_Marker _) => settled h | Err _ => True end.

Lemma fine_kept {A} (p : prog (result CacheError A)) h :
  only (λ c, tells c = false) p → settled h → fine p h kept.
Proof. intros Hp Hs. eapply ensures_mono; [by apply fine_silent|]. by intros [] h' _. Qed.

Lemma fine_fetch_marker k fallback h :
  settled h → fine (fetch_control_marker ci mc k fallback) h (faulted (λ f h', match f with
    | MF_Observed p => settled_but h' k (version_of p) | MF_Deadline _ => settled h' | MF_Snapshot _ => False end)).
Proof.
  intros Hs. unfold fetch_control_marker. eapply ensures_attempt.
  { apply (fine_bounded _ _ _ (λ r h', match r with
      | Ok v => settled_but h' k v | Err (CE_Marker _) => settled h' | Err _ => True end)); [done|by apply fine_read]. }
  { by intros e h' _ [c ->]. }
  intros [[[v|]|e]|] h' Hh Hr; cbn [ensures ok raise faulted] in *; try exact Hr.
  - destruct Hr as [Hr|[r ->]]; [exact Hr|done].
  - unfold deadline_missed. cbn. split; [done|]. intros []. exact Hr.
Qed.

Lemma fine_recheck observations k fallback h :
  settled h → fine (recheck_control_snapshot mc observations k fallback) h (λ r h', match r with
    | Ok (Some read) => settled_but h' k (read_maximum read) | Ok None => settled h' | Err _ => True end).
Proof.
  intros Hs. unfold recheck_control_snapshot. case_match; [done|].
  eapply ensures_use; [by apply fine_fetch_snapshot|]. intros [[read|f]|e] h' Hh Hr; cbn in *; try exact Hr.
  destruct e; try done. by destruct (suppressed_marker_fault _ _).
Qed.

(** *** The factory *)
Lemma fine_finish {A} k lease (r : result CacheError A) h :
  kept r h → fine (finish_control_marker_lease ci mc k lease r) h kept.
Proof.
  intros Hr. unfold finish_control_marker_lease. destruct r as [a|e].
  - apply fine_kept; [|exact Hr]. unfold lease_release. untold.
  - eapply ensures_use; [instantiate (1 := λ _ _, True); apply ensures_only; unfold lease_release; only_run; done|].
    intros released h' _ _. repeat case_match; cbn; done.
Qed.
Lemma fine_any {A} (p : prog A) h : fine p h (λ _ _, True).
Proof. by apply ensures_only; induction p; split. Qed.
Lemma fine_drop {A B} release (work : prog (result CacheError A)) (k : A → prog (result CacheError B)) h P :
  fine work h P → (∀ a h', h ⊆ h' → P (Ok a) h' → fine (k a) h' kept) →
  fine (or_release release work k) h kept.
Proof. intros Hw Hk. eapply ensures_release; [exact Hw| |exact Hk]. intros e h' _ _. apply fine_any. Qed.
Lemma fine_release {A B} release (work : prog (result CacheError A)) (k : A → prog (result CacheError B)) h :
  only (λ c, tells c = false) work → settled h → (∀ a h', settled h' → fine (k a) h' kept) →
  fine (or_release release work k) h kept.
Proof. intros Hw Hs Hk. eapply fine_drop; [by apply fine_silent|]. eauto. Qed.
Lemma fine_seq {A B} (p : prog A) (f : A → prog B) h Q :
  only (λ c, tells c = false) p → settled h → (∀ a h', settled h' → fine (f a) h' Q) → fine (bind p f) h Q.
Proof. intros Hp Hs Hf. eapply ensures_use; [by apply fine_silent|]. eauto. Qed.
Lemma fine_try {A B} (p : prog (result CacheError A)) (f : A → prog (result CacheError B)) h Q :
  only (λ c, tells c = false) p → settled h → (∀ e h', Q (Err e) h') → (∀ a h', settled h' → fine (f a) h' Q) →
  fine (attempt p f) h Q.
Proof. intros Hp Hs He Hf. apply fine_seq; [done..|]. intros [a|e] h' Hs'; [by apply Hf|apply He]. Qed.
Lemma fine_owned {A} (work : prog (result CacheError A)) h : fine work h kept → fine (owned work) h kept.
Proof.
  intros Hw. eapply ensures_mono; [apply (ensures_owned _ (λ _, True)); [done|done|exact Hw]|].
  intros r h' _ [Hr|[reason ->]]; done.
Qed.

Lemma settled_fine_commit commit policy h : settled h → fine (commit_control_snapshot ci mc commit policy) h kept.
Proof.
  intros Hs. unfold commit_control_snapshot. apply fine_try; [untold|done..|]. clear h Hs. intros _ h Hs.
  apply fine_seq; [untold|done|]. clear h Hs. intros epoch h Hs. case_match; [done|].
  apply fine_try; [untold|done..|]. clear h Hs. intros proved h Hs.
  apply fine_seq; [untold|done|]. clear h Hs. intros at_ h Hs.
  cbn [bind call ensures]. split; [done|]. intros renewed. cbn [record quiet negb].
  set (k := sc_kind commit). set (pending := match renewed with Ok r => snap_version <$> (renewal_of r).1 | Err _ => None end).
  assert (settled_but (MEv (M_Renew k (sc_snapshot commit) at_ proved) renewed :: h) k pending) as Hr.
  { apply settled_tell; [done|]. cbn. intros k' v. destruct renewed; [|done]. by case_decide; subst. }
  eapply ensures_attempt; [apply fine_untold; [untold|exact Hr]|done|]. intros [] h' _ Hp. clear Hr h Hs. subst pending.
  destruct renewed as [renewal|e].
  - destruct (renewal_of renewal) as [[s|] outcome]; cbn in Hp.
    + eapply ensures_attempt; [eapply ensures_use; [by apply fine_apply|]; intros [] h2 _ Hs; apply fine_kept; [untold|exact Hs]|done|].
      intros [] h2 _ Hs. apply fine_kept; [untold|exact Hs].
    + apply settled_none in Hp. apply fine_try; [untold|done..|]. intros [] h2 Hs.
      apply fine_kept; [untold|exact Hs].
  - apply settled_none in Hp. destruct e; try done. apply fine_kept; [untold|exact Hp].
Qed.
Lemma fine_write cached commit h : settled h → fine (write_control_snapshot ci mc cached commit) h kept.
Proof.
  intros Hs. unfold write_control_snapshot. case_match; [apply fine_kept; [untold|done]|].
  case_match; [apply fine_kept; [untold|done]|]. apply fine_owned. unfold commit_task.
  eapply ensures_use; [by apply settled_fine_commit|]. intros [a|e] h' _ Hr; by apply fine_finish.
Qed.

Lemma fine_complete observations o stale refresh lease h :
  settled h → fine (complete_control_marker_factory ci mc observations o stale refresh lease) h kept.
Proof.
  intros Hs. unfold complete_control_marker_factory.
  apply fine_release; [untold|done|]. clear h Hs. intros _ h Hs.
  apply fine_release; [untold|done|]. clear h Hs. intros _ h Hs.
  apply fine_seq; [untold|done|]. clear h Hs. intros [[failure|]|e] h Hs; [| |by apply fine_finish].
  { eapply ensures_use; [apply fine_kept; [untold|done]|]. intros r h' _ Hr. by apply fine_finish. }
  apply fine_seq; [untold|done|]. clear h Hs. intros known h Hs.
  apply fine_seq; [untold|done|]. clear h Hs. intros created h Hs.
  apply fine_release; [untold|done|]. clear h Hs. intros jitter h Hs.
  apply fine_release; [untold|done|]. clear h Hs. intros [o' local] h Hs.
  apply fine_seq; [untold|done|]. clear h Hs. intros [] h Hs.
  eapply ensures_attempt; [instantiate (1 := kept)|done|].
  { destruct (MarkerObservation.presence o'); [case_match|]; [by apply fine_finish|by apply fine_write|by apply fine_finish]. }
  intros [] h' _ Hs'. apply fine_kept; [untold|exact Hs'].
Qed.
Lemma fine_unobserved cached read refresh lease h :
  settled h → fine (complete_unobserved_marker_factory ci mc cached read refresh lease) h kept.
Proof.
  intros Hs. unfold complete_unobserved_marker_factory. apply fine_seq; [untold|done|]. clear h Hs.
  intros [excluded|e] h Hs; [|by apply fine_finish].
  eapply ensures_use; [apply fine_kept; [untold|done]|]. intros r h' _ Hr. by apply fine_finish.
Qed.

Definition pending_of (read : MarkerFactoryRead) : option MarkerVersion :=
  match read with FR_Read read => read_maximum read | FR_Unobserved _ => None end.

Lemma fine_resolve_leased observations cached read refresh lease h :
  settled_but h (rf_kind refresh) (pending_of read) →
  fine (resolve_leased_control_snapshot ci mc observations cached read refresh lease) h kept.
Proof.
  intros Hs. unfold resolve_leased_control_snapshot.
  eapply fine_drop; [apply fine_untold; [untold|exact Hs]|]. clear Hs. intros ? h1 _ Hs.
  eapply fine_drop; [apply fine_untold; [untold|exact Hs]|]. clear Hs. intros ? h2 _ Hs.
  destruct read as [[s|maximum]|read]; cbn in Hs.
  - eapply ensures_use; [by apply fine_apply|]. intros [] h3 _ Hs3. apply fine_seq; [untold|done|].
    intros [] h4 Hs4.
    + eapply ensures_use; [apply fine_kept; [untold|done]|]. intros r h5 _ Hr. by apply fine_finish.
    + apply fine_seq; [untold|done|]. intros known h5 Hs5. by apply fine_complete.
  - eapply ensures_use; [by apply fine_apply_optional|]. intros [] h3 _ Hs3. apply fine_seq; [untold|done|].
    intros known h4 Hs4. by apply fine_complete.
  - apply settled_none in Hs. apply fine_seq; [untold|done|]. intros [o|] h3 Hs3; [|by apply fine_unobserved].
    apply fine_seq; [untold|done|]. intros known h4 Hs4. by apply fine_complete.
Qed.

Section reads.
Context (observations : Observations).

Lemma fine_resolve k cached read captured h :
  settled_but h k (pending_of read) →
  fine (resolve_control_snapshot ci mc observations k cached read captured) h kept.
Proof.
  intros Hs. unfold resolve_control_snapshot. eapply ensures_use.
  { instantiate (1 := λ _ h', settled h'). destruct read as [read|]; [by apply fine_apply_optional|by apply settled_none in Hs]. }
  clear Hs. intros [] h1 _ Hs. apply fine_seq; [untold|done|]. intros [s|] h2 Hs2; [apply fine_kept; [untold|done]|].
  apply fine_try; [untold|done..|]. intros [lease|] h3 Hs3; [|done].
  eapply (fine_drop _ _ _ _ (λ r h', match r with Ok read => settled_but h' k (pending_of read) | Err _ => True end)).
  - destruct (is_held lease); [|by apply settled_weaken].
    eapply ensures_attempt; [by apply fine_recheck|done|]. intros [again|] h4 _ Hr; [exact Hr|by apply settled_weaken].
  - intros fr h4 _ Hr. by apply fine_resolve_leased.
Qed.

Lemma fine_unavailable k cached captured failure h :
  settled h → fine (unavailable_control_marker ci mc observations k cached captured failure) h kept.
Proof.
  intros Hs. unfold unavailable_control_marker. case_match; [apply fine_kept; [untold|done]|].
  by apply fine_resolve, settled_none.
Qed.
Lemma fine_remote k cached captured h :
  settled h → fine (marker_remote ci mc observations k cached captured) h kept.
Proof.
  intros Hs. unfold marker_remote. eapply ensures_use.
  { instantiate (1 := faulted (λ f h', match f with
      | MF_Observed p => settled_but h' k (version_of p) | MF_Snapshot read => settled_but h' k (read_maximum read)
      | MF_Deadline _ => settled h' end)).
    destruct (lifecycle observations).
    - eapply ensures_mono; [by apply fine_fetch_marker|]. by intros [[]|[]] h' _.
    - eapply ensures_attempt; [by apply fine_fetch_snapshot| |]; [by intros [] h' _|]. by intros [] h' _. }
  intros [[p|read|failure]|e] h' _ Hr; cbn in Hr.
  - unfold record_control_observation. eapply ensures_use.
    { instantiate (1 := λ _ h', settled h'). destruct p; [by apply fine_apply|by apply settled_none in Hr]. }
    clear Hr. intros [] h2 _ Hs2. apply fine_kept; [untold|done].
  - by apply fine_resolve.
  - by apply fine_unavailable.
  - destruct e; try done. destruct (suppressed_marker_fault _ _); [by apply fine_unavailable|done].
Qed.
Lemma fine_resolve_read k captured h : settled h → fine (resolve_control_read ci mc observations k captured) h kept.
Proof.
  intros Hs. unfold resolve_control_read. apply fine_try; [untold|done..|]. intros cached h1 Hs1.
  apply fine_seq; [untold|done|]. intros fresh h2 Hs2. case_match; [case_match; [done|]|].
  all: case_match; [case_match; [done|by apply fine_resolve, settled_none]|by apply fine_remote].
Qed.
Lemma fine_locked k before (work : prog (result CacheError MarkerReadOutcome)) h :
  settled h → (∀ h', settled h' → fine work h' kept) → fine (under_marker_lock mc observations k before work) h kept.
Proof.
  intros Hs Hw. unfold under_marker_lock. apply fine_seq; [untold|done|]. intros timeout h1 Hs1.
  apply fine_try; [untold|done..|]. intros locked h2 Hs2. eapply ensures_finally.
  - instantiate (1 := kept). apply fine_try; [untold|done..|]. intros _ h3 Hs3. apply fine_seq; [untold|done|].
    intros [] h4 Hs4; [apply fine_kept; [untold|done]|by apply Hw].
  - intros [a|e] h3 _ Hr; [apply fine_silent; [untold|exact Hr]|apply fine_any].
Qed.
Lemma fine_read_control k h : settled h → fine (read_control_marker ci mc observations k) h kept.
Proof.
  intros Hs. unfold read_control_marker. apply fine_try; [untold|done..|]. intros _ h1 Hs1.
  apply fine_seq; [untold|done|]. intros captured h2 Hs2. apply fine_try; [untold|done..|]. intros found h3 Hs3.
  eapply ensures_attempt; [instantiate (1 := kept)|done|].
  { destruct found; [done|]. apply fine_locked; [done|]. intros. by apply fine_resolve_read. }
  intros outcome h4 _ Hs4. apply fine_kept; [untold|exact Hs4].
Qed.
Lemma fine_read_local k h : settled h → fine (read_local_control_marker ci mc observations k) h kept.
Proof.
  intros Hs. unfold read_local_control_marker. apply fine_try; [untold|done..|]. intros _ h1 Hs1.
  apply fine_seq; [untold|done|]. intros captured h2 Hs2. apply fine_try; [untold|done..|]. intros found h3 Hs3.
  eapply ensures_attempt; [instantiate (1 := kept)|done|].
  { destruct found; [done|]. apply fine_locked; [done|]. intros h4 Hs4. apply fine_try; [untold|done..|].
    intros [outcome|again] h5 Hs5; [done|]. apply fine_seq; [untold|done|]. intros known h6 Hs6. by apply fine_complete. }
  intros outcome h4 _ Hs4. apply fine_kept; [untold|exact Hs4].
Qed.
Lemma fine_check_markers (read : MarkerKind → prog (result CacheError unit)) kinds at_ h :
  (∀ k h, settled h → fine (read k) h kept) → settled h → fine (check_markers read kinds at_) h kept.
Proof.
  intros Hr. revert h. induction kinds as [|k kinds IH]; intros h Hs; [apply fine_kept; [untold|done]|]. cbn [check_markers].
  apply fine_try; [untold|done..|]. intros _ h1 Hs1. eapply ensures_attempt; [by apply Hr|done|]. intros [] h2 _ Hs2.
  apply fine_seq; [untold|done|]. intros [] h3 Hs3; [apply fine_kept; [untold|done]|by apply IH].
Qed.
End reads.

Lemma fine_controlled e h : settled h → fine (reconcile_controlled_markers ci mc e) h kept.
Proof.
  intros Hs. unfold reconcile_controlled_markers. case_match; [done|]. case_match; [done|].
  destruct (markers mc); try done.
  - case_match; [|done]. apply fine_check_markers; [|done]. intros k h' Hs'. by apply fine_read_local.
  - apply fine_check_markers; [|done]. intros k h' Hs'. by apply fine_read_control.
  - apply fine_check_markers; [|done]. intros k h' Hs'. by apply fine_read_control.
Qed.
End steps.

(** ** The batch reconciliation *)
Section batch.
Context {V : Type} (ci : Inner) (mc : MarkerConfig).
Implicit Types (h : chronicle V).
Local Abbreviation MEv c x := (Ev (ans := manswer (V := V)) c x).

Definition all_applied h (l : list StoredMarker) : Prop := ∀ m, m ∈ l → applied h (Tags.kind m) (stored_version m).
(** The store answered a batch read of [kinds] with [l]. *)
Definition batch_read h (kinds : list MarkerKind) (l : list StoredMarker) : Prop :=
  MEv (M_ReadManyImmediate kinds) (Some (Ok l)) ∈ h ∨ MEv (M_ReadMany kinds) (Ok l) ∈ h.
(** Both clears and every tag were read, and what they said is applied. *)
Definition reconciled h (tags : list Tag) (prefetched : option (result MarkerError (list StoredMarker))) : Prop :=
  match prefetched with
  | Some (Ok clears) =>
      all_applied h clears ∧ (tags = [] ∨ ∃ l, batch_read h (reconcile_kinds tags true) l ∧ all_applied h l)
  | Some (Err _) => False
  | None => ∃ l, batch_read h (reconcile_kinds tags false) l ∧ all_applied h l
  end.
(** The errors are the store's. *)
Definition batch_failed h (prefetched : option (result MarkerError (list StoredMarker))) (e : CacheError) : Prop :=
  ∃ fault, e = CE_Marker fault ∧
    (prefetched = Some (Err fault) ∨ ∃ kinds, MEv (M_ReadManyImmediate kinds) (Some (Err fault)) ∈ h ∨ MEv (M_ReadMany kinds) (Err fault) ∈ h).

Lemma all_applied_incl h h' l : h ⊆ h' → all_applied h l → all_applied h' l.
Proof. intros Hh Hl m Hm. eapply settled_applied_incl; [exact Hh|by apply Hl]. Qed.
Lemma batch_read_incl h h' kinds l : h ⊆ h' → batch_read h kinds l → batch_read h' kinds l.
Proof. intros Hh [Hb|Hb]; [left|right]; by apply Hh. Qed.
Lemma reconciled_incl h h' tags prefetched : h ⊆ h' → reconciled h tags prefetched → reconciled h' tags prefetched.
Proof.
  intros Hh. unfold reconciled. destruct prefetched as [[clears|]|]; [|done|].
  - intros [Hc [->|(l & ? & ?)]]; (split; [by eapply all_applied_incl|]); [by left|right].
    exists l. eauto using batch_read_incl, all_applied_incl.
  - intros (l & ? & ?). exists l. eauto using batch_read_incl, all_applied_incl.
Qed.
Lemma fine_apply_all l h : fine (apply_markers l) h (λ _ h', all_applied h' l).
Proof.
  revert h. induction l as [|m l IH]; intros h; [by intros m ?%elem_of_nil|]. cbn [apply_markers].
  unfold apply_marker. cbn [bind call ensures]. split; [done|]. intros outcome. eapply ensures_mono; [apply IH|].
  intros [] h' Hh Hl m' [->|Hm]%elem_of_cons; [|by apply Hl]. exists outcome. apply Hh. left.
Qed.

Lemma fine_reconcile tags prefetched h :
  disable_tagging ci = false → markers mc = AC_Durable →
  fine (reconcile_markers ci mc tags prefetched) h (λ r h',
    match r with Ok _ => reconciled h' tags prefetched | Err e => batch_failed h' prefetched e end).
Proof.
  intros Ht Hm. unfold reconcile_markers. rewrite Ht, Hm. eapply ensures_attempt.
  { instantiate (1 := λ r h', match r with
      | Ok clear_read => clear_read = has prefetched ∧ match prefetched with Some (Ok l) => all_applied h' l | Some _ => False | None => True end
      | Err e => batch_failed h' prefetched e end).
    destruct prefetched as [[l|e]|].
    - eapply ensures_use; [apply fine_apply_all|]. by intros [] h' _ Hl.
    - exists e. eauto.
    - done. }
  { by intros e h' _ He. }
  intros clear_read h1 _ [-> Hp]. destruct (has prefetched && bool_decide (tags = [])) eqn:Hskip.
  { apply andb_true_iff in Hskip as [Hhas Htags%bool_decide_eq_true]. destruct prefetched as [[l|]|]; cbn; [|done..]. auto. }
  set (kinds := reconcile_kinds tags (has prefetched)).
  assert (∀ l h', h1 ⊆ h' → batch_read h' kinds l → fine (apply_markers l ;;; ok tt) h' (λ (r : result CacheError unit) h'',
    match r with Ok _ => reconciled h'' tags prefetched | Err e => batch_failed h'' prefetched e end)) as Hgo.
  { intros l h' Hh Hl. eapply ensures_use; [apply fine_apply_all|]. intros [] h2 Hh2 Ha. cbn.
    assert (∃ l, batch_read h2 kinds l ∧ all_applied h2 l) as Hb.
    { exists l. split; [|done]. destruct Hl; [left|right]; by apply Hh2. }
    destruct prefetched as [[clears|]|]; cbn in Hp |- *; [|done|exact Hb]. split; [|by right].
    eapply all_applied_incl; [|exact Hp]. by etransitivity. }
  cbn [bind call ensures]. split; [done|]. intros immediate. cbn [record quiet negb].
  destruct immediate as [[l|e]|]; cbn [bind].
  - apply Hgo; [set_solver|]. left. left.
  - exists e. split; [done|]. right. exists kinds. left. left.
  - cbn [bind call ensures]. split; [done|]. intros [l|e]; cbn [record quiet negb].
    + apply Hgo; [set_solver|]. right. left.
    + exists e. split; [done|]. right. exists kinds. right. left.
Qed.
End batch.

(** ** Fenced refreshes *)
Section fenced.
Context {V : Type} (ci : Inner) (mc : MarkerConfig) (lease : string) (k : MarkerKind).
Implicit Types (h : chronicle V).
Local Abbreviation MEv c x := (Ev (ans := manswer (V := V)) c x).

Definition proved h (proof : option LeaseProof) : Prop :=
  ∃ p, proof = Some p ∧ MEv (M_LeaseProof lease) (Ok p) ∈ h.
(** A renewal under the lease was committed. *)
Definition renewed h : Prop :=
  ∃ s at_ proof renewal s', proved h proof ∧ MEv (M_Renew k s at_ proof) (Ok renewal) ∈ h ∧ (renewal_of renewal).1 = Some s'.
Definition under_lease (commit : MarkerSnapshotCommit) : Prop := sc_kind commit = k ∧ sc_lease commit = ML_Fenced lease.
Definition behind_fence h (c : MCall V) : Prop :=
  match c with
  | M_Store _ o _ _ _ _ => is_present (MarkerObservation.presence o) = true → renewed h
  | M_Renew _ _ _ proof => proved h proof
  | M_MergeMaximum _ _ _ _ => renewed h
  | M_Spawn task => match task with MT_Commit commit => under_lease commit | _ => False end
  | _ => True
  end.
Local Abbreviation guarded p h := (ensures behind_fence p h (λ _ _, True)).

Definition unfenced (c : MCall V) : bool :=
  match c with M_Store _ _ _ _ _ _ | M_Renew _ _ _ _ | M_MergeMaximum _ _ _ _ | M_Spawn _ => false | _ => true end.
Lemma guarded_free {A} (p : prog (manswer (V := V)) A) h : only (λ c, unfenced c = true) p → guarded p h.
Proof. intros Hp. apply ensures_only. eapply only_mono; [exact Hp|]. by intros []. Qed.
Ltac free := apply guarded_free; only_run.

Lemma proved_incl h h' p : h ⊆ h' → proved h p → proved h' p.
Proof. intros Hh (x & -> & ?). exists x. eauto. Qed.
Lemma settled_renewed_incl h h' : h ⊆ h' → renewed h → renewed h'.
Proof.
  intros Hh (s & at_ & p & r & s' & Hp & Hin & Hr). exists s, at_, p, r, s'. split_and!; eauto using proved_incl.
Qed.
Lemma guarded_proof h : ensures behind_fence (lease_proof (ML_Fenced lease)) h (λ r h', ∀ p, r = Ok p → proved h' p).
Proof.
  cbn. split; [done|]. intros [p|e] q Hq; cbn in Hq; [|done]. injection Hq as <-. exists p. split; [done|left].
Qed.

Lemma guarded_commit commit policy h :
  under_lease commit → guarded (commit_control_snapshot ci mc commit policy) h.
Proof.
  intros [Hk Hlease]. unfold commit_control_snapshot.
  eapply ensures_attempt; [free|done|]. intros _ h1 _ _. eapply ensures_use; [free|]. intros epoch h2 _ _.
  case_match; [done|]. rewrite Hlease. eapply ensures_attempt; [apply guarded_proof|done|]. intros proof h3 _ Hproof.
  specialize (Hproof proof eq_refl). cbn [bind call ensures]. split; [done|]. intros at_. cbn [record quiet is_budget negb].
  split; [by eapply proved_incl; [|exact Hproof]; set_solver|]. intros result. cbn [record quiet is_budget negb].
  eapply ensures_attempt; [free|done|]. intros _ h4 H4 _. destruct result as [renewal|e].
  - destruct (renewal_of renewal) as [snapshot outcome] eqn:Hr.
    eapply ensures_use; [instantiate (1 := λ _ _, True)|intros [] h5 _ _; free].
    destruct snapshot as [s|]; [|done]. eapply ensures_use; [free|]. intros [] h5 H5 _.
    assert (renewed h5) as Hrenewed.
    { exists (sc_snapshot commit), at_, proof, renewal, s. rewrite <- Hk.
      split_and!; [eapply proved_incl; [|exact Hproof]; set_solver|apply H5, H4; left|by rewrite Hr]. }
    unfold observe_renewal. case_match; [done|]. case_match; [done|].
    destruct (sc_local commit); cbn [bind call ensures attempt].
    + split; [done|]. intros now_. cbn [bind call ensures]. split; [by eapply settled_renewed_incl; [|exact Hrenewed]; set_solver|].
      intros [o|e]; [free|done].
    + split; [intros _; exact Hrenewed|]. intros [o'|e]; [free|done].
  - destruct e; try done. free.
Qed.
Lemma guarded_task commit h : under_lease commit → guarded (commit_task ci mc commit) h.
Proof. intros Hc. eapply ensures_use; [by apply guarded_commit|]. intros r h' _ _. free. Qed.

Lemma guarded_complete observations o stale refresh h :
  rf_kind refresh = k → EntryOptions.skip_distributed_write (tags_default_options mc) = false →
  guarded (complete_control_marker_factory ci mc observations o stale refresh (ML_Fenced lease)) h.
Proof.
  intros Hk Hskip. unfold complete_control_marker_factory. rewrite Hk, Hskip.
  eapply ensures_release; [free|intros; free|]. intros _ h1 _ _.
  eapply ensures_release; [free|intros; free|]. intros _ h2 _ _.
  eapply ensures_use; [free|]. intros [[failure|]|e] h3 _ _; [free| |free].
  eapply ensures_use; [free|]. intros known h4 _ _. eapply ensures_use; [free|]. intros created h5 _ _.
  eapply ensures_release; [free|intros; free|]. intros jitter h6 _ _.
  generalize (MarkerObservation.reconcile_maximum o known). clear o known. intros o.
  eapply ensures_release; [instantiate (1 := λ _ _, True)|intros; free|].
  { cbn [is_fenced_lease negb]. rewrite andb_true_r, andb_true_l.
    destruct (is_present (MarkerObservation.presence o)) eqn:Hp; [done|].
    cbn [bind call ensures attempt]. split; [cbn; by rewrite Hp|]. by intros []. }
  intros [o' local] h7 _ _. eapply ensures_use; [free|]. intros [] h8 _ _.
  eapply ensures_attempt; [instantiate (1 := λ _ _, True)|done|intros _ h9 _ _; free].
  destruct (MarkerObservation.presence o'); [|free]. unfold write_control_snapshot. cbn [sc_lease].
  case_match; [free|]. case_match; [by repeat split|].
  eapply ensures_mono; [apply (ensures_owned _ (λ _, True)); [by intros ? []|done|by apply guarded_task]|done].
Qed.
Lemma guarded_resolve observations cached read refresh h :
  rf_kind refresh = k → EntryOptions.skip_distributed_write (tags_default_options mc) = false →
  guarded (resolve_leased_control_snapshot ci mc observations cached read refresh (ML_Fenced lease)) h.
Proof.
  intros Hk Hskip. unfold resolve_leased_control_snapshot.
  eapply ensures_release; [free|intros; free|]. intros _ h1 _ _.
  eapply ensures_release; [free|intros; free|]. intros _ h2 _ _. destruct read as [[s|maximum]|read].
  - eapply ensures_use; [free|]. intros [] h3 _ _. eapply ensures_use; [free|]. intros [] h4 _ _; [free|].
    eapply ensures_use; [free|]. intros known h5 _ _. by apply guarded_complete.
  - eapply ensures_use; [free|]. intros [] h3 _ _. eapply ensures_use; [free|]. intros known h5 _ _. by apply guarded_complete.
  - eapply ensures_use; [free|]. intros [o|] h3 _ _.
    + eapply ensures_use; [free|]. intros known h5 _ _. by apply guarded_complete.
    + free.
Qed.
End fenced.

Module SettledTheorems.
(** A reconciled entry misses no revision. When a controlled
    reconciliation of an entry succeeds, every revision that its provider reads
    (direct, byte or snapshot reads, and renewals) answered has been applied to
    the registry; so the verdict drawn next judges the entry by all of them. A
    read that was answered but whose phase was cancelled fails the
    reconciliation instead. *)
Theorem reconciled_revisions_reach_the_registry {V} (ci : Inner) (mc : MarkerConfig) (e : Entry V) h :
  fine (reconcile_controlled_markers ci mc e) h (λ r h', r = Ok tt → ∀ k v, told ci h' k v → told ci h k v ∨ applied h' k v).
Proof.
  eapply ensures_mono; [apply (fine_controlled ci mc (told ci h))|].
  - intros k v Ht. by right.
  - intros r h' _ Hr -> k v Ht. destruct (Hr k v Ht); auto.
Qed.

(** The batch reconciliation is complete or fails. With durable markers,
    a reconciliation that succeeds has read, in one batch or together with the
    value, both clear markers and every tag of the entry, and has applied every
    marker of the answers; whenever it fails the error is the one the store
    answered. *)
Theorem batch_reconciliation_exact {V} (ci : Inner) (mc : MarkerConfig) tags prefetched (h : chronicle V) :
  disable_tagging ci = false → markers mc = AC_Durable →
  fine (reconcile_markers ci mc tags prefetched) h (λ r h',
    match r with Ok _ => reconciled h' tags prefetched | Err e => batch_failed h' prefetched e end).
Proof. intros Ht Hm. by apply fine_reconcile. Qed.

Lemma batch_reconciliation_exact_witness :
  ensures (V := nat) (λ _ _, True) (reconcile_markers demo_inner demo_config [] None) [] (λ r h',
    match r with Ok _ => reconciled h' [] None | Err e => batch_failed h' None e end).
Proof. apply (batch_reconciliation_exact demo_inner demo_config); reflexivity. Defined.

(** A failed fence leaves no fresh observation. A refresh that holds a
    fenced lease, and the write it starts, records a revision in the observation
    memory only after the store committed a renewal of that marker with the proof
    of that very lease; every renewal carries such a proof, and the only task it
    starts is that write, under that lease. *)
Theorem fenced_observations_follow_their_commit {V} (ci : Inner) (mc : MarkerConfig) observations lease
    cached read refresh commit (h : chronicle V) :
  EntryOptions.skip_distributed_write (tags_default_options mc) = false →
  sc_kind commit = rf_kind refresh → sc_lease commit = ML_Fenced lease →
  ensures (behind_fence lease (rf_kind refresh))
    (resolve_leased_control_snapshot ci mc observations cached read refresh (ML_Fenced lease)) h (λ _ _, True) ∧
  ensures (behind_fence lease (rf_kind refresh)) (commit_task ci mc commit) h (λ _ _, True).
Proof. intros Hskip Hk Hl. split; [by apply guarded_resolve|by apply guarded_task]. Qed.

Definition sample_fenced_commit : MarkerSnapshotCommit :=
  mkSnapshotCommit MK_ClearExpire (Invalidation.mkSnapshot 7 0 10 10) Options.default_options 1 (ML_Fenced "lease")
    (LO_AwaitingFence (KnownMaximum 7) 0 JitterSample.ZERO).
Lemma fenced_observations_follow_their_commit_witness :
  ensures (V := nat) (behind_fence "lease" MK_ClearExpire)
    (commit_task demo_inner demo_config sample_fenced_commit) [] (λ _ _, True).
Proof.
  apply (fenced_observations_follow_their_commit demo_inner demo_config demo_observations "lease" None
    (FR_Read (SR_Missing None)) (mkRefresh MK_ClearExpire 1 FM_Foreground)); reflexivity.
Defined.
End SettledTheorems.
