(* ===== verification/Composed.v ===== *)
(** * Value pipelines with their marker pipelines in place

    [Read.v] and the other value pipelines ask for a reconciliation in one access;
    [Control.expand] runs [Markers.v] there instead. A run of the expanded program
    is a run of the original one in which each reconciliation is the access that
    answered as the pipeline did ([expand_refines]); so what was proved of a value
    pipeline against every answer holds of the composition, with what the marker
    pipelines ensure at each of their runs. *)
From Stdlib Require Init.Byte.
From S2P Require Import Prelude Time Calls Circuit Options Entry Tags Backplane Cancellation Factory.
From S2P Require Import Invalidation Storage Lanes Wire Lease Recovery Observe Worker Write Control Markers Attested.
From S2P Require Import Settled Read.
Open Scope prog_scope.

(** ** Runs of a control pipeline *)
Section runs.
Context {V : Type}.
Local Abbreviation prog := (prog (manswer (V := V))).
Implicit Types (h l : chronicle V).

(** [p], begun at the record [h], can answer [a] at the record [h']. *)
Fixpoint ran {A} (p : prog A) h (a : A) h' : Prop :=
  match p with
  | Ret b => b = a ∧ h' = h
  | Act c k => ∃ x, ran (k x) (record (λ c, negb (Control.quiet c)) c x h) a h'
  end.

Lemma ensures_ran {A} J (p : prog A) h Q a h' : ensures J p h Q → ran p h a h' → Q a h'.
Proof. revert h. induction p as [b|c k IH]; intros h; cbn; [by intros HQ [<- ->]|]. intros [_ Hk] [x Hx]. by eapply IH. Qed.
Lemma every_run {A} (p : prog A) h : ensures (λ _ _, True) p h (λ a h', ran p h a h').
Proof.
  enough (∀ (Q : A → chronicle V → Prop), (∀ a h', ran p h a h' → Q a h') → ensures (λ _ _, True) p h Q) as H by (by apply H).
  revert h. induction p as [b|c k IH]; intros h Q HQ; [by apply HQ|]. split; [done|]. intros x.
  apply IH. intros a h' Hr. apply HQ. by exists x.
Qed.

(** A run adds its own record, which does not depend on the one before. *)
Lemma ran_alone {A} (p : prog A) h a h' : ran p h a h' → ∃ l, h' = l ++ h ∧ ran p [] a l.
Proof.
  enough (∀ l0 h0, h = l0 ++ h0 → ran p h a h' → ∃ l, h' = l ++ h0 ∧ ran p l0 a l) as H by (by apply (H [] h)).
  induction p as [b|c k IH] in h |- *; intros l0 h0 ->; cbn; [intros [<- ->]; by exists l0|].
  intros [x Hx]. apply IH with (l0 := record (λ c, negb (Control.quiet c)) c x l0) (h0 := h0) in Hx as (l & -> & Hl); [|].
  - exists l. split; [done|by exists x].
  - unfold record. by destruct (negb _).
Qed.
End runs.

Lemma since_split {C} {ans : C → Type} (ev : event ans) l h : since ev l h → ∃ h0, h = l ++ ev :: h0.
Proof. induction 1 as [h|x l h _ [h0 ->]]; [by exists h|by exists h0]. Qed.

Section composed.
Context {V : Type}.
Implicit Types (h : history V) (H : chronicle V).
Context (controlled : Entry V → prog (manswer (V := V)) (result CacheError unit)).
Context (reconcile : list Tag → option (result MarkerError (list StoredMarker)) →
  prog (manswer (V := V)) (result CacheError unit)).
(** What a run of each pipeline shows, from the record before it to that after it. *)
Context (controlled_run : Entry V → result CacheError unit → chronicle V → chronicle V → Prop).
Context (reconcile_run : list Tag → option (result MarkerError (list StoredMarker)) → result CacheError unit →
  chronicle V → chronicle V → Prop).
Context (Hcontrolled : ∀ e H, fine (controlled e) H (λ r H', controlled_run e r H H')).
Context (Hreconcile : ∀ tags prefetched H, fine (reconcile tags prefetched) H (λ r H', reconcile_run tags prefetched r H H')).

Definition is_reconciliation (c : Call V) : bool :=
  match c with C_ReconcileControlled _ | C_ReconcileMarkers _ _ => true | _ => false end.
(** The value pipeline's own record of a run. *)
Inductive collapses : chronicle V → history V → Prop :=
| CO_Start : collapses [] []
| CO_Worker c x H h : is_reconciliation c = false → collapses H h →
    collapses (Ev (ans := manswer) (M_Worker c) x :: H) (Ev c x :: h)
| CO_Drop x H h : collapses H h → collapses H (Ev C_DropWork x :: h)
| CO_Controlled e r l H h : collapses H h → controlled_run e r H (l ++ H) →
    collapses (l ++ H) (Ev (C_ReconcileControlled e) r :: h)
| CO_Reconcile tags prefetched r l H h : collapses H h → reconcile_run tags prefetched r H (l ++ H) →
    collapses (l ++ H) (Ev (C_ReconcileMarkers tags prefetched) r :: h).

Lemma ensures_extends {A} (p : prog (manswer (V := V)) A) H Q :
  fine p H Q → fine p H (λ a H', ∃ l, H' = l ++ H ∧ Q a H').
Proof.
  revert H. induction p as [a|c k IH]; intros H; [by exists []|]. intros [_ Hk]. split; [done|]. intros x.
  eapply ensures_mono; [by apply IH|]. unfold record. intros a H' _ (l & -> & Ha). destruct (negb _); [|eauto].
  exists (l ++ [Ev c x]). by rewrite <- app_assoc.
Qed.

Lemma expand_refines {A} (p : prog (answer (V := V)) A) h H (Q : A → history V → Prop) :
  wp (world V) p h Q → collapses H h →
  fine (expand controlled reconcile p) H (λ a H', ∃ h', collapses H' h' ∧ Q a h').
Proof.
  revert h H. induction p as [a|c k IH]; intros h H Hp HH; [cbn; eauto|].
  assert (∀ x H', is_budget c = false → collapses H' (Ev c x :: h) →
    fine (expand controlled reconcile (k x)) H' (λ a H', ∃ h', collapses H' h' ∧ Q a h')) as Hgo.
  { intros x H' Hc HH'. eapply IH; [|exact HH']. apply Hp. cbn. unfold record. by rewrite Hc. }
  assert (∀ x, is_budget c = true →
    fine (expand controlled reconcile (k x)) H (λ a H', ∃ h', collapses H' h' ∧ Q a h')) as Hquiet.
  { intros x Hc. eapply IH; [|exact HH]. apply Hp. cbn. unfold record. by rewrite Hc. }
  cbn [expand]. apply ensures_bind.
  destruct c; try (split; [done|]; intros x; cbn [ensures record quiet is_budget negb];
    first [by apply Hquiet|by apply Hgo, CO_Worker|by apply Hgo, CO_Drop]).
  - eapply ensures_mono; [apply ensures_extends, Hcontrolled|]. intros r H' _ (l & -> & Hr).
    by apply Hgo, CO_Controlled.
  - eapply ensures_mono; [apply ensures_extends, Hreconcile|]. intros r H' _ (l & -> & Hr).
    by apply Hgo, CO_Reconcile.
Qed.

Definition reconciliation (ev : event (answer (V := V))) : option (result CacheError unit) :=
  match ev_call ev as c return answer c → option (result CacheError unit) with
  | C_ReconcileControlled _ | C_ReconcileMarkers _ _ => Some
  | _ => λ _, None
  end (ev_answer ev).

(** What an access of the value pipeline left in the record [H1] of the run,
    after the record [H2]: itself, or the run of the pipeline behind it. *)
Definition leaves (H1 H2 : chronicle V) (c : Call V) (x : answer c) : Prop :=
  (is_reconciliation c = false → c ≠ C_DropWork → Ev (ans := manswer) (M_Worker c) x ∈ H1) ∧
  (∀ e r, c = C_ReconcileControlled e → reconciliation (Ev c x) = Some r →
     ∃ L l l0, H1 = L ++ l ++ l0 ∧ controlled_run e r (l0 ++ H2) (l ++ l0 ++ H2)) ∧
  (∀ tags prefetched r, c = C_ReconcileMarkers tags prefetched → reconciliation (Ev c x) = Some r →
     ∃ L l l0, H1 = L ++ l ++ l0 ∧ reconcile_run tags prefetched r (l0 ++ H2) (l ++ l0 ++ H2)).

Lemma leaves_app l H1 H2 c (x : answer c) : leaves H1 H2 c x → leaves (l ++ H1) H2 c x.
Proof.
  intros (Hw & Hc & Hr). split_and!.
  - intros ? ?. apply elem_of_app. auto.
  - intros e r He Hx. destruct (Hc e r He Hx) as (L & m & l0 & -> & ?). exists (l ++ L), m, l0. by rewrite <- app_assoc.
  - intros tags pre r He Hx. destruct (Hr tags pre r He Hx) as (L & m & l0 & -> & ?). exists (l ++ L), m, l0. by rewrite <- app_assoc.
Qed.

(** The part of the run that a part of the record stands for. *)
Lemma collapses_app H h1 h2 : collapses H (h1 ++ h2) →
  ∃ H1 H2, H = H1 ++ H2 ∧ collapses H2 h2 ∧ ∀ c x, Ev c x ∈ h1 → leaves H1 H2 c x.
Proof.
  revert H. induction h1 as [|ev h1 IH]; intros H.
  { intros HH. exists [], H. split_and!; [done..|]. by intros c x ?%elem_of_nil. }
  cbn. intros HH.
  assert (∀ l H0, collapses H0 (h1 ++ h2) → H = l ++ H0 →
    (∀ L0 H2, H0 = L0 ++ H2 → leaves (l ++ L0) H2 (ev_call ev) (ev_answer ev)) →
    ∃ H1 H2, H = H1 ++ H2 ∧ collapses H2 h2 ∧ ∀ c x, Ev c x ∈ ev :: h1 → leaves H1 H2 c x) as Hgo.
  { intros l H0 H1 -> Hev. destruct (IH _ H1) as (L1 & L2 & -> & HL & Hin). exists (l ++ L1), L2.
    split_and!; [by rewrite app_assoc|done|]. intros c x [<-|Hx]%elem_of_cons; [by apply Hev|]. by apply leaves_app, Hin. }
  inversion HH as [|c x H0 h0 Hc H1|x H0 h0 H1|e r l H0 h0 H1 Hrun|tags pre r l H0 h0 H1 Hrun]; subst.
  - apply (Hgo [Ev (ans := manswer) (M_Worker c) x] H0 H1); [done|]. intros L0 H2 _. cbn.
    split_and!; [left|intros ? ? ->; done|intros ? ? ? ->; done].
  - apply (Hgo [] H H1); [done|]. intros L0 H2 _. cbn. split_and!; done.
  - apply (Hgo l H0 H1); [done|]. intros L0 H2 ->. cbn. split_and!; [done| |done].
    intros e' r' [= <-] [= <-]. by exists [], l, L0.
  - apply (Hgo l H0 H1); [done|]. intros L0 H2 ->. cbn. split_and!; [done..|].
    intros tags' pre' r' [= <- <-] [= <-]. by exists [], l, L0.
Qed.
End composed.



(** ** What a controlled reconciliation consults *)
Section consulted.
Context {V : Type} (ci : Inner) (mc : MarkerConfig).
Implicit Types (h l : chronicle V).
Local Abbreviation prog := (prog (manswer (V := V))).
Local Abbreviation MEv c x := (Ev (ans := manswer (V := V)) c x).

(** A configuration whose reads are controlled by the options of the tags. *)
Definition reads_are_controlled : bool :=
  negb (disable_tagging ci) &&
  match marker_reads mc with
  | DurableReads => false
  | ControlledReads observations =>
      match markers mc with AC_Local => supplied observations | AC_Unavailable => false | _ => true end
  end.

(** Markers were read in the order of [kinds], up to one whose revision (or that
    of the removing clear) already invalidates what was created at [at_]. *)
Definition read_in_order l (kinds : list MarkerKind) (at_ : Timestamp) : Prop :=
  ∃ read rest, kinds = read ++ rest ∧ (∀ k, k ∈ read → ∃ outcome, MEv (M_Emit (ME_Read k outcome)) () ∈ l) ∧
    (rest = [] ∨ ∃ k v, (k ∈ read ∨ k = MK_ClearRemove) ∧ MEv (M_Version k) (Some v) ∈ l ∧ at_ ≤ v).
Definition consulted l (e : Entry V) : Prop :=
  read_in_order l (secondary_marker_kinds (tags (Entry.meta e))) (created (Entry.meta e)).

Definition shows_read (k : MarkerKind) (r : result CacheError unit) h : Prop :=
  r = Ok tt → ∃ outcome, MEv (M_Emit (ME_Read k outcome)) () ∈ h.
Lemma fine_past {A B} (p : prog (result CacheError A)) (f : A → prog (result CacheError B)) h
    (Q : result CacheError B → chronicle V → Prop) :
  (∀ e h', Q (Err e) h') → (∀ a h', h ⊆ h' → fine (f a) h' Q) → fine (attempt p f) h Q.
Proof. intros He Hf. eapply ensures_attempt; [apply fine_any|by intros|]. intros a h' Hh _. by apply Hf. Qed.
Lemma fine_skip {A B} (p : prog A) (f : A → prog B) h (Q : B → chronicle V → Prop) :
  (∀ a h', h ⊆ h' → fine (f a) h' Q) → fine (bind p f) h Q.
Proof. intros Hf. eapply ensures_use; [apply fine_any|]. intros a h' Hh _. by apply Hf. Qed.
Ltac past := repeat first
  [ apply fine_past; [by intros|]; intros ? ? _
  | match goal with |- fine (bind (call (M_Emit (ME_Read _ _))) _) _ _ => fail 1 | _ => idtac end;
    apply fine_skip; intros ? ? _ ].

Lemma shows_control observations k h : fine (read_control_marker ci mc observations k) h (shows_read k).
Proof. unfold read_control_marker. past. cbn. split; [done|]. intros [] _. eexists. left. Qed.
Lemma shows_local observations k h : fine (read_local_control_marker ci mc observations k) h (shows_read k).
Proof. unfold read_local_control_marker. past. cbn. split; [done|]. intros [] _. eexists. left. Qed.

Lemma shows_invalid k at_ h :
  fine (marker_invalidates_snapshot k at_) h (λ b h', b = true →
    ∃ k' v, (k' = k ∨ k' = MK_ClearRemove) ∧ MEv (M_Version k') (Some v) ∈ h' ∧ at_ ≤ v).
Proof.
  assert (∀ k' v h', MEv (M_Version k') v ∈ h' → invalidates v at_ = true → (k' = k ∨ k' = MK_ClearRemove) →
    ∃ k' v, (k' = k ∨ k' = MK_ClearRemove) ∧ MEv (M_Version k') (Some v) ∈ h' ∧ at_ ≤ v) as Hv.
  { intros k' [v|] h' Hin Hi Hk; [|done]. exists k', v. split_and!; [done..|]. cbn in Hi. lia. }
  unfold marker_invalidates_snapshot. cbn. split; [done|]. intros v. destruct (invalidates v at_) eqn:Hi; cbn.
  - intros _. eapply Hv; [left|done|by left].
  - split; [done|]. intros clear Hc. eapply Hv; [left|done|by right].
Qed.

Lemma fine_in_order (read : MarkerKind → prog (result CacheError unit)) kinds at_ h :
  (∀ k h, fine (read k) h (shows_read k)) →
  fine (check_markers read kinds at_) h (λ r h', r = Ok tt → read_in_order h' kinds at_).
Proof.
  intros Hr. revert h. induction kinds as [|k kinds IH]; intros h; cbn [check_markers].
  { eapply ensures_mono; [apply fine_any|]. intros r h' _ _ _. exists [], []. split_and!; [done| |by left]. by intros ? ?%elem_of_nil. }
  apply fine_past; [by intros|]. intros _ h1 _.
  eapply ensures_attempt; [apply Hr|by intros|]. intros [] h2 _ Hs. destruct (Hs eq_refl) as [outcome Ho].
  eapply ensures_use; [apply shows_invalid|]. intros [] h3 H3 Hi.
  - destruct (Hi eq_refl) as (k' & v & Hk & Hv & Hle). eapply ensures_mono; [apply fine_any|]. intros r h4 H4 _ _.
    exists [k], kinds. split_and!; [done| |].
    + intros k'' ->%list_elem_of_singleton. exists outcome. by apply H4, H3.
    + right. exists k', v. split_and!; [|by apply H4|done]. destruct Hk as [->| ->]; [left; left|by right].
  - eapply ensures_mono; [apply IH|]. intros r h4 H4 Hrest Hok. destruct (Hrest Hok) as (done & rest & -> & Hd & He).
    exists (k :: done), rest. split_and!; [done| |].
    + intros k' [->|Hk]%elem_of_cons; [exists outcome; by apply H4, H3|by apply Hd].
    + destruct He as [->|(k' & v & Hk & ?)]; [by left|right]. exists k', v. split; [|done].
      destruct Hk; [left; by right|by right].
Qed.

Lemma fine_consulted e h : reads_are_controlled = true →
  fine (reconcile_controlled_markers ci mc e) h (λ r h', r = Ok tt → consulted h' e).
Proof.
  unfold reads_are_controlled, reconcile_controlled_markers, check_local_markers, check_observed_markers, consulted.
  destruct (disable_tagging ci); [by intros ?|]. destruct (marker_reads mc) as [|observations]; [by intros ?|].
  pose proof (fine_in_order _ (secondary_marker_kinds (tags (Entry.meta e))) (created (Entry.meta e)) h (shows_local observations)) as Hl.
  pose proof (fine_in_order _ (secondary_marker_kinds (tags (Entry.meta e))) (created (Entry.meta e)) h (shows_control observations)) as Hc.
  destruct (markers mc); cbn [negb andb]; intros Hs; [rewrite Hs; exact Hl|discriminate Hs|exact Hc|exact Hc].
Qed.
End consulted.

Module ComposedTheorems.
Section theorems.
Context {V : Type} (ci : Inner) (mc : MarkerConfig).
Implicit Types (H : chronicle V).
Local Abbreviation WEv c x := (Ev (ans := manswer (V := V)) (M_Worker c) x).

Definition whole_read raw full options : prog (manswer (V := V)) (result CacheError (Observed (option V))) :=
  expand (reconcile_controlled_markers ci mc) (reconcile_markers ci mc) (read ci raw full options).

(** The bytes came from the provider, under the key's physical name; markers that
    came with them, in the same read. *)
Definition bytes_in H (key : string) (bytes : list Init.Byte.byte) : Prop :=
  WEv (C_GetImmediate (l2_key ci key)) (Some (Ok (Some bytes))) ∈ H ∨
  WEv (C_BackendGet (l2_key ci key)) (Ok (Some bytes)) ∈ H ∨
  ∃ prefetched, WEv (C_GetMarked (l2_key ci key) Read.CLEAR_MARKERS) (Ok (MR_Value bytes prefetched)) ∈ H.
Definition came_with H (key : string) (bytes : list Init.Byte.byte)
    (prefetched : option (result MarkerError (list StoredMarker))) : Prop :=
  prefetched = None ∨ WEv (C_GetMarked (l2_key ci key) Read.CLEAR_MARKERS) (Ok (MR_Value bytes prefetched)) ∈ H.

(** [H] holds a complete, successful run of the pipeline [p], with record [l]. *)
Definition holds_run H (p : prog (manswer (V := V)) (result CacheError unit)) (l : chronicle V) : Prop :=
  (∃ l1 l0, H = l1 ++ l ++ l0) ∧ ran p [] (Ok tt) l.
(** The options the read ran with, and the copy they ask for. *)
Definition chosen_in H (raw : string) (options : option EntryOptions) (opts : EntryOptions) : Prop :=
  match options with
  | Some o => opts = o
  | None => WEv (C_OptionsFor raw) (Some opts) ∈ H ∨ WEv (C_OptionsFor raw) None ∈ H ∧ opts = default_options ci
  end.
Definition copied_in H (opts : EntryOptions) (v v' : V) : Prop :=
  EntryOptions.enable_auto_clone opts = false ∧ v' = v ∨ WEv (C_CloneValue v) (Ok v') ∈ H.

(** The pipelines' runs, as what stands behind the two accesses. *)
Definition controlled_runs (e : Entry V) r H H' : Prop := ran (reconcile_controlled_markers ci mc e) H r H'.
Definition reconcile_runs (tags : list Tag) prefetched r H H' : Prop := ran (reconcile_markers ci mc tags prefetched) H r H'.
Local Abbreviation stands := (collapses controlled_runs reconcile_runs).
Local Abbreviation leaves := (leaves controlled_runs reconcile_runs).

Lemma leaves_event H1 H2 c (x : answer c) : leaves H1 H2 c x → is_reconciliation c = false → c ≠ C_DropWork → WEv c x ∈ H1.
Proof. intros [Hw _]. exact Hw. Qed.
Lemma holds_controlled H1 H2 e : leaves H1 H2 (C_ReconcileControlled e) (Ok tt) →
  ∃ l, holds_run H1 (reconcile_controlled_markers ci mc e) l.
Proof.
  intros (_ & Hc & _). destruct (Hc e (Ok tt) eq_refl eq_refl) as (L & l & l0 & -> & Hr).
  apply ran_alone in Hr as (l' & E & Hr). apply app_inv_tail in E as <-. exists l. split; [by exists L, l0|done].
Qed.
Lemma holds_reconcile H1 H2 tags prefetched : leaves H1 H2 (C_ReconcileMarkers tags prefetched) (Ok tt) →
  ∃ l, holds_run H1 (reconcile_markers ci mc tags prefetched) l.
Proof.
  intros (_ & _ & Hc). destruct (Hc tags prefetched (Ok tt) eq_refl eq_refl) as (L & l & l0 & -> & Hr).
  apply ran_alone in Hr as (l' & E & Hr). apply app_inv_tail in E as <-. exists l. split; [by exists L, l0|done].
Qed.

(** The entry was decoded from the provider's bytes; under the durable policy a
    batch followed that read both clears and every tag, the clears perhaps in
    the read of the value itself, and that applied every marker of the answers. *)
Definition fetched_in H (key : string) (e : Entry V) (now : Timestamp) : Prop :=
  ∃ bytes snapshot p K B, H = K ++ B ∧ WEv (C_Decode bytes) (Ok snapshot) ∈ B ∧
    bytes_in H key bytes ∧ WEv C_Now now ∈ H ∧ DistributedSnapshot.try_into_cache_entry p snapshot now = Ok e ∧
    (marker_read_policy ci = DurableRequired → disable_tagging ci = false → markers mc = AC_Durable →
     ∃ prefetched l, came_with H key bytes prefetched ∧
       holds_run K (reconcile_markers ci mc (tags (Entry.meta e)) prefetched) l ∧
       reconciled l (tags (Entry.meta e)) prefetched).
(** The controlled reconciliation of [e] ran to its end: it consulted the
    markers of [e] in order, and applied every revision that it was told. *)
Definition controlled_in H (e : Entry V) : Prop :=
  ∃ l, holds_run H (reconcile_controlled_markers ci mc e) l ∧
    (reads_are_controlled ci mc = true → consulted l e) ∧ (∀ k m, told ci l k m → applied l k m).

Lemma controlled_from_run H e l : holds_run H (reconcile_controlled_markers ci mc e) l → controlled_in H e.
Proof.
  intros Hl. exists l. split; [done|]. destruct Hl as [_ Hr]. split.
  - intros Hc. by eapply (ensures_ran _ _ _ _ _ _ (fine_consulted ci mc e [] Hc) Hr).
  - intros k m Ht. pose proof (fine_controlled ci mc (λ _ _, False) e []) as Hf.
    assert (settled ci (λ _ _, False) ([] : chronicle V)) as Hs by (intros ? ? (ev & ?%elem_of_nil & _); done).
    pose proof (ensures_ran _ _ _ _ _ _ (Hf Hs) Hr) as Hk. by destruct (Hk k m Ht).
Qed.
Lemma fetched_from_reads L0 h0 key e now : stands L0 h0 → l2_fetched ci h0 key e now → fetched_in L0 key e now.
Proof.
  intros HL (bytes & s & p & l1 & Hp & Hs & Hn & Hd & _ & Hm). destruct (since_split _ _ _ Hs) as [h1 ->].
  assert (∀ c (x : answer c), Ev c x ∈ l1 ++ Ev (C_Decode bytes) (Ok s) :: h1 →
    is_reconciliation c = false → c ≠ C_DropWork → WEv c x ∈ L0) as Hall.
  { rewrite <- (app_nil_r (l1 ++ _)) in HL. destruct (collapses_app _ _ _ _ _ HL) as (M1 & M2 & -> & _ & Hin).
    intros c x Hx Hc Hw. apply elem_of_app. left. by eapply leaves_event; [by apply Hin|..]. }
  destruct (collapses_app _ _ _ _ _ HL) as (K & B & -> & HB & HK).
  destruct (collapses_app _ _ _ [_] _ HB) as (B1 & B2 & -> & _ & HD).
  exists bytes, s, p, K, (B1 ++ B2). split_and!; [done| | |by apply Hall|done|].
  - apply elem_of_app. left. by eapply leaves_event; [apply HD; left|..].
  - destruct Hp as [?|[?|[pre ?]]]; [left|right; left|right; right; exists pre]; by apply Hall.
  - intros Hpolicy Ht Hdm. destruct (Hm Hpolicy) as (pre & Hpre & Hrec).
    destruct (holds_reconcile K (B1 ++ B2) _ _ (HK _ _ Hrec)) as [l Hl]. exists pre, l.
    split_and!; [|done|].
    + destruct Hpre as [->|Hpre]; [by left|right; by apply Hall].
    + destruct Hl as [_ Hr]. exact (ensures_ran _ _ _ _ _ _ (fine_reconcile ci mc _ _ [] Ht Hdm) Hr).
Qed.

(** C4: A distributed hit was judged after its markers were reconciled. In
    the composition of the read with the marker pipelines, whatever the memory,
    the providers, the store and the other tasks answer: when a fresh value is
    served from the distributed level, it is the copy the chosen options ask for
    of an entry [e] that was decoded from the provider's bytes for the key and is
    fresh at a reading of the clock. Where tagging is enabled, the registry judged
    [e] valid in [L1]; before that, in [L0], a whole controlled reconciliation of
    [e] ran to success: it read the markers of [e] in order, up to one that
    already invalidates it, wherever the configuration controls reads by options,
    and applied every revision the providers told it. Under the durable policy, a
    whole batch reconciliation of the tags of [e] also ran in [L0], after the
    decoding: both clears (in that batch, or in the very read that brought the
    bytes) and every tag were read, and what they said was applied. *)
Theorem distributed_hits_follow_their_markers raw full options :
  fine (whole_read raw full options) [] (λ r H, ∀ o v, r = Ok o → observed_value o = Some v →
    observed_level o = Some CL_Distributed → observed_outcome o = OO_Hit →
    ∃ opts e now L1 L0, H = L1 ++ L0 ∧ chosen_in H raw options opts ∧ copied_in H opts (Entry.value e) v ∧
      Entry.freshness e now = Fresh ∧ fetched_in L0 full e now ∧ controlled_in L0 e ∧
      (disable_tagging ci = false →
       WEv (C_Tags (created (Entry.meta e)) (tags (Entry.meta e)) (remove_by_tag_behavior ci)) Valid ∈ L1)).
Proof.
  eapply ensures_mono; [eapply (expand_refines (reconcile_controlled_markers ci mc) (reconcile_markers ci mc)
    controlled_runs reconcile_runs)|]; [intros; apply every_run..|apply wp_read|apply CO_Start|].
  intros r H _ (h & HH & Hr) o v -> Hv Hl Ho. cbn in Hr. destruct Hr as (opts & Hopts & Hr). unfold answers in Hr.
  rewrite Hv, Hl, Ho in Hr. destruct Hr as (e & now & verdict & Hcopy & (l & l' & -> & Hf & Hrec & Hj) & -> & Hfresh).
  assert (∀ c (x : answer c), Ev c x ∈ l ++ l' → is_reconciliation c = false → c ≠ C_DropWork → WEv c x ∈ H) as Hall.
  { rewrite <- (app_nil_r (l ++ l')) in HH. destruct (collapses_app _ _ _ _ _ HH) as (M1 & M2 & -> & _ & Hin).
    intros c x Hx Hc Hw. apply elem_of_app. left. by eapply leaves_event; [by apply Hin|..]. }
  destruct (collapses_app _ _ _ _ _ HH) as (L1 & L0 & -> & HL0 & Hin). exists opts, e, now, L1, L0. split_and!; [done| | |done| | |].
  - unfold chosen in Hopts. unfold chosen_in. destruct options; [done|]. destruct Hopts as [?|[? ?]]; [left|right; split; [|done]]; by apply Hall.
  - destruct Hcopy as [?|?]; [by left|right; by apply Hall].
  - by eapply fetched_from_reads.
  - assert (∃ l0, holds_run L0 (reconcile_controlled_markers ci mc e) l0) as [l0 Hl0]; [|by eapply controlled_from_run].
    rewrite <- (app_nil_r l') in HL0. destruct (collapses_app _ _ _ _ _ HL0) as (M1 & M2 & -> & _ & HM).
    destruct (holds_controlled _ _ _ (HM _ _ Hrec)) as (l0 & (A & B & ->) & Hr). exists l0. split; [|done].
    exists A, (B ++ M2). by rewrite <- !app_assoc.
  - intros Ht. unfold judged in Hj. rewrite Ht in Hj. by eapply leaves_event; [by apply Hin|..].
Qed.
End theorems.
End ComposedTheorems.
