(* ===== verification/Mutate.v ===== *)
(** * Invalidations

    Models the mutating half of [src/src/cache/markers.rs] and of
    [src/src/cache/marker_recovery.rs], with the writes of
    [src/src/cache/ordinary_markers.rs]: a tag or a clear is advanced in the
    registry, remembered, written to the store, published to the peers, and what
    failed is queued for a replay. As in [Write.v], a scheduled receipt is the
    program the cache still owes. *)
From Stdlib Require Init.Byte.
From S2P Require Import Prelude Time Calls Circuit Options Entry Tags Backplane Cancellation.
From S2P Require Import Invalidation Storage Lanes Wire Lease Recovery Observe Worker Write Control Markers.
Open Scope prog_scope.

(** What a store acknowledged. *)
Inductive MarkerWriteOutcome := MW_Written (m : StoredMarker) | MW_Compacted (m : StoredMarker) (clear_remove : MarkerVersion).
Definition written_marker (self : MarkerWriteOutcome) : StoredMarker :=
  match self with MW_Written m | MW_Compacted m _ => m end.
Definition from_advance (outcome : MarkerAdvanceOutcome) : MarkerWriteOutcome :=
  match outcome with Advanced m => MW_Written m | Compacted m clear => MW_Compacted m clear end.

Section mutate.
Context {V : Type} (ci : Inner) (mc : MarkerConfig).
Local Abbreviation prog := (prog (manswer (V := V))).
Local Abbreviation action A := (prog (result CacheError A)).
Local Abbreviation ask c := (call (ans := manswer (V := V)) c).
Local Abbreviation tell c := (call (ans := manswer (V := V)) (M_Worker c)).

Inductive MarkerReceipt := MC_Completed (report : CommitReport) | MC_Scheduled (completion : action CommitReport).
Definition wait (receipt : MarkerReceipt) : action CommitReport :=
  match receipt with MC_Completed report => ok report | MC_Scheduled completion => completion end.
Definition is_scheduled (receipt : MarkerReceipt) : bool :=
  match receipt with MC_Scheduled _ => true | MC_Completed _ => false end.
Definition commit_receipt (mode : CommitMode) (work : action CommitReport) : action MarkerReceipt :=
  match mode with
  | Background => ok (MC_Scheduled work)
  | Foreground => let? report := work in ok (MC_Completed report)
  end.
Definition pipeline_receipt (mode : CommitMode) (work : action MarkerReceipt) : action MarkerReceipt :=
  match mode with
  | Background => ok (MC_Scheduled (let? receipt := work in wait receipt))
  | Foreground => work
  end.

Definition is_stored (access : MarkerAccess) : bool :=
  match access with AC_Durable | AC_Ordinary => true | AC_Local | AC_Unavailable => false end.
Definition marker_command (marker : StoredMarker) : action MarkerCommand :=
  Ret (map_err CE_Marker (MarkerCommand.new (instance_id ci) (scope ci) marker)).

(** ** The observation memory *)
Definition seed_marker (marker : StoredMarker) (options : EntryOptions) : action unit :=
  match marker_reads mc with
  | DurableReads => ok tt
  | ControlledReads _ =>
      let k := Tags.kind marker in
      let* captured := tell C_Epoch in
      let? observed :=
        match markers mc with
        | AC_Local => ok (ObservedLocally (Present (stored_version marker)))
        | AC_Durable | AC_Ordinary => ok (Confirmed (Present (stored_version marker)))
        | AC_Unavailable => raise (CE_Marker Tags.Unsupported)
        end in
      let* known := ask (M_Version k) in
      let* at_ := now in
      let? jitter := fresh_jitter ci options in
      let? observation := ask (M_Store k (MarkerObservation.reconcile_maximum observed known) options at_ jitter captured) in
      accept_marker_observation k observation ;;;
      if marker_clear_shortcut ci then
        let* epoch := tell C_Epoch in
        if epoch =? captured then ask (M_InitializeClear k captured (MarkerObservation.outcome observation)) ;;; ok tt
        else ok tt
      else ok tt
  end.

(** ** The store *)

(** [OrdinaryMarkers::write]. *)
Definition ordinary_write (scope : CacheScope) (k : MarkerKind) (snapshot : MarkerSnapshot) (at_ : Timestamp)
    : action StoredMarker :=
  let version := snap_version snapshot in
  let ttl := MarkerSnapshot.remaining_ttl snapshot at_ in
  let* written := ask (M_WriteBytes (ordinary_key scope k) (marker_bytes version) (Some ttl)) in
  match written with
  | Ok _ => ok (mkStoredMarker k version)
  | Err _ => raise (CE_Marker Tags.Backend)
  end.

Definition write_marker_revision (scope : CacheScope) (k : MarkerKind) (snapshot : MarkerSnapshot) (options : EntryOptions)
    : action MarkerWriteOutcome :=
  match markers mc with
  | AC_Durable =>
      let* advanced := ask (M_AdvanceStore scope k (snap_version snapshot)) in
      Ret (map_err CE_Marker (from_advance <$> advanced))
  | AC_Ordinary =>
      let* at_ := now in
      let? marker := ordinary_write scope k (MarkerSnapshot.fresh (snap_version snapshot) options at_) at_ in
      ok (MW_Written marker)
  | AC_Local | AC_Unavailable => raise (CE_Marker Tags.Unsupported)
  end.

(** ** Recovery *)
Definition queue_marker_mutation (command : MarkerCommand) (options : EntryOptions) (created : Timestamp) : action bool :=
  if negb (has_recovery ci) then ok false
  else
    let? work := Ret (map_err CE_Recovery (MarkerMutation.capture command options created)) in
    let* outcome := ask (M_Enqueue (RW_MarkerMutation work)) in
    Ret (enqueued outcome).
Definition queue_marker (command : MarkerCommand) (stage : MarkerReplay) : action bool :=
  if negb (has_recovery ci) then ok false
  else let* outcome := ask (M_Enqueue (RW_Marker command stage)) in Ret (enqueued outcome).

(** ** Snapshots *)
Definition marker_snapshot_provider : bool :=
  match marker_reads mc with ControlledReads observations => caches_snapshots observations | DurableReads => false end.

Definition populate_marker_snapshot (command : MarkerCommand) (options : EntryOptions) (created : Timestamp)
    (policy : MarkerSnapshotWritePolicy) : action EffectOutcome :=
  if EntryOptions.skip_distributed_write options then ok (EF_Skipped SK_Policy)
  else if negb marker_snapshot_provider then ok EF_NotConfigured
  else
    let snapshot := MarkerSnapshot.fresh (stored_version (cmd_marker command)) options created in
    let* at_ := now in
    if MarkerSnapshot.is_physically_expired snapshot at_ then ok (EF_Skipped SK_PhysicallyExpired)
    else
      let* captured := tell C_Epoch in
      commit_control_snapshot ci mc
        (mkSnapshotCommit (Tags.kind (cmd_marker command)) snapshot options captured ML_Unleased LO_Admitted) policy.

(** Every command is tried; the first failure is kept. *)
Fixpoint populate_each (l : list MarkerCommand) (options : EntryOptions) (created : Timestamp)
    (outcomes : list EffectOutcome) (failure : option CacheError) : prog (list EffectOutcome * option CacheError) :=
  match l with
  | [] => Ret (outcomes, failure)
  | command :: l =>
      let* r := populate_marker_snapshot command options created WP_Operation in
      match r with
      | Ok outcome => populate_each l options created (outcomes ++ [outcome]) failure
      | Err e => populate_each l options created outcomes (Some (default e failure))
      end
  end.
Fixpoint queue_notifications (l : list MarkerCommand) : action unit :=
  match l with
  | [] => ok tt
  | command :: l => let? _ := queue_marker command NotifyOnly in queue_notifications l
  end.

Definition populate_marker_commands_owned (l : list MarkerCommand) (options : EntryOptions) (created : Timestamp)
    (durable : EffectOutcome) : action EffectOutcome :=
  let* done := populate_each l options created [durable] None in
  match done.2 with
  | Some e =>
      let? _ := if negb (EntryOptions.skip_backplane_notifications options) && has_backplane ci
                then queue_notifications l else ok tt in
      raise e
  | None => ok (effects done.1)
  end.
(** An execution of its own, linked to the caller's token. *)
Definition populate_marker_commands (l : list MarkerCommand) (options : EntryOptions) (created : Timestamp)
    (durable : EffectOutcome) : action EffectOutcome :=
  owned (populate_marker_commands_owned l options created durable).
Definition populate_marker_mutation (l : list MarkerCommand) (options : EntryOptions) (created : Timestamp)
    (durable : EffectOutcome) : action EffectOutcome :=
  if EntryOptions.skip_distributed_write options || negb marker_snapshot_provider then ok durable
  else populate_marker_commands l options created durable.

(** ** The commit *)
Definition publish_marker (command : MarkerCommand) : action unit := lift (publish ci (BC_Marker command)).
Definition marker_failure (e : CacheError) : prog unit := lift (failure "invalidation" e).

Fixpoint publish_markers (l : list MarkerCommand) (opts : EntryOptions) (outcomes : list EffectOutcome)
    : action (list EffectOutcome) :=
  match l with
  | [] => ok outcomes
  | command :: l =>
      let* published := publish_marker command in
      match published with
      | Ok _ => publish_markers l opts (outcomes ++ [EF_Applied])
      | Err e =>
          marker_failure e ;;;
          let? queued := queue_marker command NotifyOnly in
          if EntryOptions.rethrow_backplane_exceptions opts then raise e
          else publish_markers l opts (outcomes ++ [if queued : bool then EF_RecoveryQueued e else EF_FailedSuppressed e])
      end
  end.

(** The publication keeps the marker lane until it is done. *)
Definition marker_publication (l : list MarkerCommand) (opts : EntryOptions) (distributed : EffectOutcome)
    : action CommitReport :=
  finally (ask M_Unlane)
    (let? backplane :=
       if EntryOptions.skip_backplane_notifications opts then ok (EF_Skipped SK_Policy)
       else if negb (has_backplane ci) then ok EF_NotConfigured
       else let? outcomes := publish_markers l opts [] in ok (effects outcomes) in
     ok (mkReport LE_Invalidated distributed backplane)).

(** What an acknowledged write publishes: a forced clear before its marker. *)
Definition acknowledge_marker (outcome : MarkerWriteOutcome) (opts : EntryOptions) : action (list MarkerCommand) :=
  apply_marker (written_marker outcome) ;;;
  let? _ := seed_marker (written_marker outcome) opts in
  let? committed := marker_command (written_marker outcome) in
  let? notifications :=
    match outcome with
    | MW_Compacted _ clear_remove =>
        let? clear := marker_command (mkStoredMarker MK_ClearRemove clear_remove) in
        apply_marker (cmd_marker clear) ;;;
        let? _ := seed_marker (cmd_marker clear) opts in
        ok [clear]
    | MW_Written _ => ok []
    end in
  ok (notifications ++ [committed]).

(** The store's write: an early report, or the commands to publish. *)
Definition store_marker (command : MarkerCommand) (opts : EntryOptions) (created : Timestamp)
    : action (CommitReport + list MarkerCommand * EffectOutcome) :=
  let marker := cmd_marker command in
  let* written := write_marker_revision (cmd_scope command) (Tags.kind marker)
                    (MarkerSnapshot.fresh (stored_version marker) opts created) opts in
  match written with
  | Ok outcome => let? notifications := acknowledge_marker outcome opts in ok (inr (notifications, EF_Applied))
  | Err e =>
      let? queued := queue_marker_mutation command opts created in
      marker_failure e ;;;
      if EntryOptions.rethrow_distributed_exceptions opts then raise e
      else ok (inl (mkReport LE_Invalidated
                      (if queued : bool then EF_RecoveryQueued e else EF_FailedSuppressed e) (EF_Skipped SK_Policy)))
  end.
Definition marker_distributed (command : MarkerCommand) (opts : EntryOptions) (created : Timestamp)
    : action (CommitReport + list MarkerCommand * EffectOutcome) :=
  match markers mc with
  | AC_Local => ok (inr ([command], EF_NotConfigured))
  | AC_Unavailable => raise (CE_Marker Tags.Unsupported)
  | AC_Durable | AC_Ordinary =>
      if EntryOptions.skip_distributed_write opts then ok (inr ([command], EF_Skipped SK_Policy))
      else store_marker command opts created
  end.

Definition commit_marker (command : MarkerCommand) (opts : EntryOptions) (created : Timestamp) : action MarkerReceipt :=
  ask M_Lane ;;;
  or_release (ask M_Unlane) (marker_distributed command opts created) (λ staged,
  match staged with
  | inl report => ask M_Unlane ;;; ok (MC_Completed report)
  | inr (notifications, distributed) =>
      or_release (ask M_Unlane) (populate_marker_mutation notifications opts created distributed) (λ distributed,
      let mode := if EntryOptions.allow_background_backplane_operations opts
                     && negb (EntryOptions.skip_backplane_notifications opts) && has_backplane ci
                  then Background else Foreground in
      commit_receipt mode (marker_publication notifications opts distributed))
  end).

(** ** The mutation *)
Definition marker_event (k : MarkerKind) : MarkerEvent :=
  match k with MK_Tag tag => ME_RemoveByTag tag | MK_ClearExpire | MK_ClearRemove => ME_Clear end.

(** The local half of one marker; its commands, a forced clear last. *)
Definition mutate_one (k : MarkerKind) (opts : EntryOptions) (at_ : Timestamp) : action (list MarkerCommand) :=
  let* outcome := ask (M_Advance k at_) in
  let marker := outcome_marker outcome in
  let? _ := seed_marker marker opts in
  let? _ := if bool_decide (k = MK_ClearRemove) then ask M_InvalidateAll else ok tt in
  ask (M_Emit (marker_event k)) ;;;
  let? command := marker_command marker in
  match outcome with
  | Compacted _ clear_remove =>
      let clear := mkStoredMarker MK_ClearRemove clear_remove in
      let? _ := ask M_InvalidateAll in
      let? _ := seed_marker clear opts in
      let? clear := marker_command clear in
      ok [command; clear]
  | Advanced _ => ok [command]
  end.
Fixpoint mutate_each (kinds : list MarkerKind) (opts : EntryOptions) (at_ : Timestamp) : action (list MarkerCommand) :=
  match kinds with
  | [] => ok []
  | k :: kinds =>
      let? commands := mutate_one k opts at_ in
      let? rest := mutate_each kinds opts at_ in
      ok (commands ++ rest)
  end.

Fixpoint commit_each (commands : list MarkerCommand) (opts : EntryOptions) (at_ : Timestamp) : action (list MarkerReceipt) :=
  match commands with
  | [] => ok []
  | command :: commands =>
      let? receipt := commit_marker command opts at_ in
      let? rest := commit_each commands opts at_ in
      ok (receipt :: rest)
  end.
Fixpoint wait_each (receipts : list MarkerReceipt) : action (list CommitReport) :=
  match receipts with
  | [] => ok []
  | receipt :: receipts =>
      let? report := wait receipt in
      let? rest := wait_each receipts in
      ok (report :: rest)
  end.
Definition commit_markers (commands : list MarkerCommand) (opts : EntryOptions) (at_ : Timestamp) : action MarkerReceipt :=
  let? receipts := commit_each commands opts at_ in
  let all := (let? completed := wait_each receipts in ok (reports completed)) in
  commit_receipt (if existsb is_scheduled receipts then Background else Foreground) all.

Definition mutation_mode (opts : EntryOptions) : CommitMode :=
  if EntryOptions.allow_background_distributed_operations opts
     && negb (EntryOptions.skip_distributed_write opts) && is_stored (markers mc)
  then Background else Foreground.

Definition mutate_markers (kinds : list MarkerKind) (options : option EntryOptions) : action MarkerReceipt :=
  let opts := default (tags_default_options mc) options in
  let? _ := validate_execution_options ci mc opts in
  if disable_tagging ci || bool_decide (markers mc = AC_Unavailable) then raise (CE_Marker Tags.Unsupported)
  else
    let* at_ := now in
    let? commands := mutate_each kinds opts at_ in
    pipeline_receipt (mutation_mode opts) (commit_markers commands opts at_).

(** The invalidation with everything it schedules. *)
Definition mutation (kinds : list MarkerKind) (options : option EntryOptions) : action CommitReport :=
  let? receipt := mutate_markers kinds options in wait receipt.
End mutate.
Arguments MarkerReceipt V : clear implicits.
