(* ===== verification/Announce.v ===== *)
(** * What an invalidation tells

    The theory of [Mutate.v]: which revisions an invalidation writes, publishes
    and queues, and what its report may claim of them, whatever the registry, the
    observation memory, the marker store, the recovery queue and the backplane
    answer. *)
From Stdlib Require Init.Byte.
From S2P Require Import Prelude Time Calls Circuit Options Entry Tags Backplane Cancellation.
From S2P Require Import Invalidation Storage Lanes Wire Lease Recovery Observe Worker Write Control Markers Mutate.
Open Scope prog_scope.

Section facts.
Context {V : Type} (ci : Inner) (mc : MarkerConfig) (opts : EntryOptions).
Implicit Types (h : chronicle V).
Local Abbreviation MEv c x := (Ev (ans := manswer (V := V)) c x).

(** Revisions go through a store. *)
Definition stores : bool := is_stored (markers mc) && negb (EntryOptions.skip_distributed_write opts).
Definition revision (command : MarkerCommand) : MarkerKind * MarkerVersion :=
  (Tags.kind (cmd_marker command), stored_version (cmd_marker command)).

(** The store acknowledged a write of revision [v] of [k], or failed. *)
Inductive wrote h (k : MarkerKind) (v : MarkerVersion) : MarkerWriteOutcome → Prop :=
| WR_Atomic out : markers mc = AC_Durable → MEv (M_AdvanceStore (scope ci) k v) (Ok out) ∈ h → wrote h k v (from_advance out)
| WR_Bytes ttl : markers mc = AC_Ordinary →
    MEv (M_WriteBytes (ordinary_key (scope ci) k) (marker_bytes v) ttl) (Ok tt) ∈ h → wrote h k v (MW_Written (mkStoredMarker k v)).
Inductive refused h (k : MarkerKind) (v : MarkerVersion) : CacheError → Prop :=
| RF_Atomic e : markers mc = AC_Durable → MEv (M_AdvanceStore (scope ci) k v) (Err e) ∈ h → refused h k v (CE_Marker e)
| RF_Bytes ttl e : markers mc = AC_Ordinary →
    MEv (M_WriteBytes (ordinary_key (scope ci) k) (marker_bytes v) ttl) (Err e) ∈ h → refused h k v (CE_Marker Tags.Backend).

(** The markers an outcome names, in the order of their publication. *)
Definition outcome_markers (out : MarkerWriteOutcome) : list StoredMarker :=
  match out with
  | MW_Written m => [m]
  | MW_Compacted m clear => [mkStoredMarker MK_ClearRemove clear; m]
  end.
(** The registry answered an advance with [m], or forced the clear [m]. *)
Definition registered h (m : StoredMarker) : Prop :=
  ∃ k v out, MEv (M_Advance k v) out ∈ h ∧ m ∈ outcome_markers (from_advance out).
Definition acknowledged h (m : StoredMarker) : Prop :=
  (∃ k v out, wrote h k v out ∧ m ∈ outcome_markers out) ∧
  ∃ out, MEv (M_Advance (Tags.kind m) (stored_version m)) out ∈ h.
(** The observation memory took at least this revision. *)
Definition seeded h (m : StoredMarker) : Prop :=
  match marker_reads mc with
  | DurableReads => True
  | ControlledReads _ => ∃ o at_ jitter captured o' v, MEv (M_Store (Tags.kind m) o opts at_ jitter captured) (Ok o') ∈ h ∧
      MarkerObservation.presence o = Present v ∧ stored_version m ≤ v
  end.
Definition ours (command : MarkerCommand) : Prop :=
  cmd_source_id command = instance_id ci ∧ cmd_scope command = scope ci.
(** A command of this invalidation; one that peers may learn. *)
Definition raised h (command : MarkerCommand) : Prop :=
  ours command ∧ seeded h (cmd_marker command) ∧ registered h (cmd_marker command).
Definition announced h (command : MarkerCommand) : Prop :=
  ours command ∧ seeded h (cmd_marker command) ∧
  if stores then acknowledged h (cmd_marker command) else registered h (cmd_marker command).

(** What an access may carry, after [h]. *)
Definition announcing h (c : MCall V) : Prop :=
  match c with
  | M_Worker (C_Publish (BC_Marker command)) => announced h command
  | M_Worker (C_Publish (BC_Data _)) => False
  | M_AdvanceStore s k v => s = scope ci ∧ registered h (mkStoredMarker k v)
  | M_Enqueue (RW_Marker command stage) => stage = NotifyOnly ∧ announced h command
  | M_Enqueue (RW_MarkerMutation w) => ∃ command created e, raised h command ∧
      MarkerMutation.capture command opts created = Ok w ∧ refused h (revision command).1 (revision command).2 e
  | M_Enqueue (RW_Data _ _) => False
  | M_InvalidateAll => ∃ k v out, MEv (M_Advance k v) out ∈ h ∧
      (k = MK_ClearRemove ∨ ∃ m clear, out = Compacted m clear)
  | _ => True
  end.

(** *** What a report claims *)
Definition queue_answered h (work : RecoveryWork) (queued : bool) : Prop :=
  queued = false ∧ has_recovery ci = false ∨
  ∃ q, MEv (M_Enqueue work) (Ok q) ∈ h ∧ is_queued q = queued.
(** The message was not sent for [e]: its breaker was open, or the backplane
    answered so. *)
Definition unsent h (command : MarkerCommand) (e : CacheError) : Prop :=
  (e = CE_CircuitOpen CC_Backplane ∧ ∃ at_ until, MEv (M_Worker (C_CircuitCheck CC_Backplane at_)) (Open until) ∈ h) ∨
  MEv (M_Worker (C_Publish (BC_Marker command))) (Err e) ∈ h.
Definition notified h (command : MarkerCommand) (o : EffectOutcome) : Prop :=
  match o with
  | EF_Applied => MEv (M_Worker (C_Publish (BC_Marker command))) (Ok tt) ∈ h
  | EF_RecoveryQueued e => unsent h command e ∧ EntryOptions.rethrow_backplane_exceptions opts = false ∧
      queue_answered h (RW_Marker command NotifyOnly) true
  | EF_FailedSuppressed e => unsent h command e ∧ EntryOptions.rethrow_backplane_exceptions opts = false ∧
      queue_answered h (RW_Marker command NotifyOnly) false
  | _ => False
  end.
Definition peers_told h (l : list MarkerCommand) (o : EffectOutcome) : Prop :=
  if EntryOptions.skip_backplane_notifications opts then o = EF_Skipped SK_Policy
  else if negb (has_backplane ci) then o = EF_NotConfigured
  else ∃ outcomes, Forall2 (notified h) l outcomes ∧ o = effects outcomes.
Definition durable_effect : EffectOutcome :=
  if stores then EF_Applied
  else match markers mc with AC_Local => EF_NotConfigured | _ => EF_Skipped SK_Policy end.
(** The commands a committed one stands for. *)
Definition stands_for h (command : MarkerCommand) (l : list MarkerCommand) : Prop :=
  if stores then
    ∃ out, wrote h (revision command).1 (revision command).2 out ∧ cmd_marker <$> l = outcome_markers out
  else l = [command].
Definition capture_answered h at_ (command : MarkerCommand) (queued : bool) : Prop :=
  queued = false ∧ has_recovery ci = false ∨
  ∃ w q, MarkerMutation.capture command opts at_ = Ok w ∧
    MEv (M_Enqueue (RW_MarkerMutation w)) (Ok q) ∈ h ∧ is_queued q = queued.

(** The snapshot stage: the snapshot of a command, what the provider of
    snapshots answered to its renewal, and the replay of a failed one. *)
Definition snapshot_of at_ (command : MarkerCommand) : MarkerSnapshot :=
  MarkerSnapshot.fresh (stored_version (cmd_marker command)) opts at_.
Definition renewal_answered h at_ (command : MarkerCommand) (r : result CacheError MarkerSnapshotRenewal) : Prop :=
  ∃ t, MEv (M_Renew (Tags.kind (cmd_marker command)) (snapshot_of at_ command) t None) r ∈ h.
Definition snapshot_queued h at_ (command : MarkerCommand) (queued : bool) : Prop :=
  queued = false ∧ has_recovery ci = false ∨
  ∃ w q, snapshot_replay_capture (scope ci) (Tags.kind (cmd_marker command)) (snapshot_of at_ command) opts Unleased = Ok w ∧
    MEv (M_Enqueue (RW_MarkerSnapshot w)) (Ok q) ∈ h ∧ is_queued q = queued.
Definition suppressible (e : CacheError) : Prop :=
  match e with
  | CE_Marker Tags.Backend => EntryOptions.rethrow_distributed_exceptions opts = false
  | CE_Marker Tags.Protocol => EntryOptions.rethrow_serialization_exceptions opts = false
  | _ => False
  end.
(** What the report says of the snapshot of one command. *)
Definition snapshotted h at_ (command : MarkerCommand) (o : EffectOutcome) : Prop :=
  match o with
  | EF_Applied => ∃ renewal s out, renewal_answered h at_ command (Ok renewal) ∧ (renewal_of renewal).1 = Some s ∧
      MEv (M_Advance (Tags.kind (cmd_marker command)) (snap_version s)) out ∈ h
  | EF_Skipped SK_PhysicallyExpired =>
      (∃ t, MEv (M_Worker C_Now) t ∈ h ∧ MarkerSnapshot.is_physically_expired (snapshot_of at_ command) t = true) ∨
      ∃ renewal, renewal_answered h at_ command (Ok renewal) ∧ (renewal_of renewal).1 = None
  | EF_Skipped SK_Superseded =>
      ∃ epoch epoch', epoch ≠ epoch' ∧ MEv (M_Worker C_Epoch) epoch ∈ h ∧ MEv (M_Worker C_Epoch) epoch' ∈ h
  | EF_RecoveryQueued e => renewal_answered h at_ command (Err e) ∧ suppressible e ∧ snapshot_queued h at_ command true
  | EF_FailedSuppressed e => renewal_answered h at_ command (Err e) ∧ suppressible e ∧ snapshot_queued h at_ command false
  | EF_NotConfigured | EF_Skipped SK_Policy | EF_Batch _ => False
  end.
(** One outcome per command, where snapshots are populated. *)
Definition populates : bool := marker_snapshot_provider mc && negb (EntryOptions.skip_distributed_write opts).
Definition snapshots_told h at_ (l : list MarkerCommand) (rest : list EffectOutcome) : Prop :=
  if populates then Forall2 (snapshotted h at_) l rest else rest = [].

Inductive committed h at_ (command : MarkerCommand) : CommitReport → Prop :=
| CM_Refused e queued : stores = true → refused h (revision command).1 (revision command).2 e →
    EntryOptions.rethrow_distributed_exceptions opts = false → capture_answered h at_ command queued →
    committed h at_ command (mkReport LE_Invalidated (if queued then EF_RecoveryQueued e else EF_FailedSuppressed e)
                           (EF_Skipped SK_Policy))
| CM_Committed l rest backplane : stands_for h command l → Forall (announced h) l → peers_told h l backplane →
    snapshots_told h at_ l rest →
    committed h at_ command (mkReport LE_Invalidated (effects (durable_effect :: rest)) backplane).

(** The local half of one marker. *)
Definition localised h (at_ : Timestamp) (k : MarkerKind) (l : list MarkerCommand) : Prop :=
  Forall (raised h) l ∧
  ∃ out, MEv (M_Advance k at_) out ∈ h ∧
    cmd_marker <$> l = match out with
                       | Advanced m => [m]
                       | Compacted m clear => [m; mkStoredMarker MK_ClearRemove clear]
                       end ∧
    (k = MK_ClearRemove ∨ (∃ m clear, out = Compacted m clear) → MEv M_InvalidateAll (Ok tt) ∈ h).

(** *** Facts stay known *)
Lemma wrote_incl h h' k v out : h ⊆ h' → wrote h k v out → wrote h' k v out.
Proof. intros Hh []; [eapply WR_Atomic|eapply WR_Bytes]; eauto. Qed.
Lemma refused_incl h h' k v e : h ⊆ h' → refused h k v e → refused h' k v e.
Proof. intros Hh []; [eapply RF_Atomic|eapply RF_Bytes]; eauto. Qed.
Lemma registered_incl h h' m : h ⊆ h' → registered h m → registered h' m.
Proof. unfold registered. naive_solver. Qed.
Lemma acknowledged_incl h h' m : h ⊆ h' → acknowledged h m → acknowledged h' m.
Proof. unfold acknowledged. naive_solver eauto using wrote_incl. Qed.
Lemma seeded_incl h h' m : h ⊆ h' → seeded h m → seeded h' m.
Proof. unfold seeded. case_match; naive_solver. Qed.
Lemma raised_incl h h' command : h ⊆ h' → raised h command → raised h' command.
Proof. unfold raised. naive_solver eauto using seeded_incl, registered_incl. Qed.
Lemma announced_incl h h' command : h ⊆ h' → announced h command → announced h' command.
Proof.
  intros Hh (? & ? & Ha). split_and!; [done|by eapply seeded_incl|].
  destruct stores; [by eapply acknowledged_incl|by eapply registered_incl].
Qed.
Lemma queue_answered_incl h h' work queued : h ⊆ h' → queue_answered h work queued → queue_answered h' work queued.
Proof. unfold queue_answered. naive_solver. Qed.
Lemma unsent_incl h h' command e : h ⊆ h' → unsent h command e → unsent h' command e.
Proof. unfold unsent. naive_solver. Qed.
Lemma notified_incl h h' command o : h ⊆ h' → notified h command o → notified h' command o.
Proof. intros Hh. destruct o; cbn; [done..|by apply Hh| |]; intros (? & ? & ?); eauto using queue_answered_incl, unsent_incl. Qed.
Lemma renewal_answered_incl h h' at_ command r : h ⊆ h' → renewal_answered h at_ command r → renewal_answered h' at_ command r.
Proof. unfold renewal_answered. naive_solver. Qed.
Lemma snapshot_queued_incl h h' at_ command queued :
  h ⊆ h' → snapshot_queued h at_ command queued → snapshot_queued h' at_ command queued.
Proof. unfold snapshot_queued. naive_solver. Qed.
Lemma snapshotted_incl h h' at_ command o : h ⊆ h' → snapshotted h at_ command o → snapshotted h' at_ command o.
Proof.
  intros Hh. destruct o as [| |[]| | |]; cbn; try done.
  - intros [(t & ? & ?)|(r & ? & ?)]; [left; eauto|right; eauto using renewal_answered_incl].
  - intros (e1 & e2 & ? & ? & ?). exists e1, e2. auto.
  - intros (r & s & out & ? & ? & ?). exists r, s, out. eauto using renewal_answered_incl.
  - intros (? & ? & ?). eauto using renewal_answered_incl, snapshot_queued_incl.
  - intros (? & ? & ?). eauto using renewal_answered_incl, snapshot_queued_incl.
Qed.
Lemma snapshots_told_incl h h' at_ l rest : h ⊆ h' → snapshots_told h at_ l rest → snapshots_told h' at_ l rest.
Proof.
  unfold snapshots_told. intros Hh. case_match; [|done]. intros Hl. eapply Forall2_impl; [exact Hl|].
  intros. by eapply snapshotted_incl.
Qed.
Lemma peers_told_incl h h' l o : h ⊆ h' → peers_told h l o → peers_told h' l o.
Proof.
  unfold peers_told. intros Hh. do 2 (case_match; [done|]). intros (outcomes & Ho & ->). exists outcomes. split; [|done].
  eapply Forall2_impl; [exact Ho|]. intros. by eapply notified_incl.
Qed.
Lemma capture_answered_incl h h' at_ command queued :
  h ⊆ h' → capture_answered h at_ command queued → capture_answered h' at_ command queued.
Proof. unfold capture_answered. naive_solver. Qed.
Lemma stands_for_incl h h' command l : h ⊆ h' → stands_for h command l → stands_for h' command l.
Proof. unfold stands_for. case_match; [|done]. naive_solver eauto using wrote_incl. Qed.
Lemma committed_incl h h' at_ command report : h ⊆ h' → committed h at_ command report → committed h' at_ command report.
Proof.
  intros Hh [e queued|l rest backplane].
  - apply CM_Refused; eauto using refused_incl, capture_answered_incl.
  - eapply CM_Committed; eauto using stands_for_incl, peers_told_incl, snapshots_told_incl. eapply Forall_impl; [eassumption|].
    intros. by eapply announced_incl.
Qed.
Lemma localised_incl h h' at_ k l : h ⊆ h' → localised h at_ k l → localised h' at_ k l.
Proof.
  intros Hh (Hr & out & ? & ? & Hc). split; [eapply Forall_impl; [exact Hr|intros; by eapply raised_incl]|].
  exists out. naive_solver.
Qed.
End facts.

(** ** The traversal *)
Definition mute {V} (c : MCall V) : bool :=
  match c with
  | M_Worker (C_Publish _) | M_AdvanceStore _ _ _ | M_InvalidateAll => false
  | M_Enqueue (RW_MarkerSnapshot _) => true
  | M_Enqueue _ => false
  | _ => true
  end.

Section traversal.
Context {V : Type} (ci : Inner) (mc : MarkerConfig) (opts : EntryOptions).
Implicit Types (h : chronicle V).
Local Abbreviation prog := (prog (manswer (V := V))).
Local Abbreviation MEv c x := (Ev (ans := manswer (V := V)) c x).
Local Abbreviation announcing := (announcing (V := V) ci mc opts).
Local Abbreviation tells p h Q := (ensures announcing p h Q).

Lemma mute_announcing h (c : MCall V) : mute c = true → announcing h c.
Proof. destruct c as [[]| | | | | | | | | | | | | | | | | | | | | | | | | | | | | | | |[]| | | | | |]; try done. Qed.
Lemma tells_mute {A} (p : prog A) h : only (λ c, mute c = true) p → tells p h (λ _ _, True).
Proof. intros Hp. apply ensures_only. eapply only_mono; [exact Hp|]. intros c Hc h'. by apply mute_announcing. Qed.
Lemma quiet_announcing h (c : MCall V) : quiet c = true → announcing h c.
Proof. intros Hq. apply mute_announcing. destruct c as [[]| | | | | | | | | | | | | | | | | | | | | | | | | | | | | | | | | | | | | |]; try done. Qed.

Ltac mute_step := first [progress (apply only_lifted) | only_step].
Ltac mute := apply tells_mute; repeat mute_step.
(** One access that is not judged. *)
Tactic Notation "access" ident(x) :=
  cbn [bind call ensures]; split; [by apply mute_announcing|]; intros x; cbn [record quiet is_budget negb].

Lemma tells_failure e h : tells (marker_failure e) h (λ _ _, True).
Proof. unfold marker_failure. mute. Qed.
Lemma tells_jitter h : tells (fresh_jitter ci opts) h (λ _ _, True).
Proof. unfold fresh_jitter. mute. Qed.
Lemma tells_accept k o h : tells (accept_marker_observation (V := V) k o) h (λ _ _, True).
Proof. mute. Qed.
Lemma tells_command m h :
  tells (marker_command ci m) h (λ r h', h' = h ∧ ∀ command, r = Ok command → ours ci command ∧ cmd_marker command = m).
Proof.
  unfold marker_command, MarkerCommand.new. cbn [ensures]. split; [done|]. by destruct trims_empty; intros command [= <-].
Qed.

Lemma reconciled_presence o v m : MarkerObservation.presence o = Present v →
  ∃ v', MarkerObservation.presence (MarkerObservation.reconcile_maximum o m) = Present v' ∧ v ≤ v'.
Proof.
  intros Ho. pose proof (reconcile_le_l o m) as Hle. rewrite Ho in Hle.
  destruct (MarkerObservation.presence (MarkerObservation.reconcile_maximum o m)); [|done]. eauto.
Qed.
Lemma tells_seed m h : tells (seed_marker ci mc m opts) h (λ r h', r = Ok tt → seeded mc opts h' m).
Proof.
  unfold seed_marker. destruct (marker_reads mc) as [|observations] eqn:Hm; [by unfold seeded; rewrite Hm|]. access captured.
  apply ensures_attempt with (P := λ r _, ∀ o, r = Ok o → MarkerObservation.presence o = Present (stored_version m)).
  { by destruct (markers mc); cbn; intros ? [= <-]. }
  { done. }
  intros o h1 H1 Ho. access known. unfold now. access at_. eapply ensures_attempt; [apply tells_jitter|done|].
  intros jitter h2 H2 _. apply ensures_bind. access stored. destruct stored as [o'|e]; [|done].
  destruct (reconciled_presence o (stored_version m) known) as (v & Hv & Hle); [by apply Ho|].
  match goal with |- ensures _ _ ?h3 _ => assert (seeded mc opts h3 m) as Hs end.
  { unfold seeded. rewrite Hm. do 6 eexists. split; [left|done]. }
  eapply ensures_mono; [mute|]. intros r h4 H4 _ _. by eapply seeded_incl.
Qed.

(** *** The store and the queue *)
Lemma refused_stored h k v e : stores mc opts = true → refused ci mc h k v e → ∃ e', e = CE_Marker e'.
Proof. intros _ []; eauto. Qed.
Lemma tells_write k v at_ h :
  stores mc opts = true → registered h (mkStoredMarker k v) →
  tells (write_marker_revision mc (scope ci) k (MarkerSnapshot.fresh v opts at_) opts) h (λ r h',
    match r with Ok out => wrote ci mc h' k v out | Err e => refused ci mc h' k v e end).
Proof.
  unfold stores, write_marker_revision. intros Hs Hr. destruct (markers mc) eqn:Hm; try done.
  - cbn [bind call ensures]. split; [by split|]. intros [out|e]; cbn.
    + apply WR_Atomic; [done|left].
    + apply RF_Atomic; [done|left].
  - unfold now, ordinary_write. access now. cbn [attempt bind call ensures]. split; [done|].
    intros [[]|e]; cbn.
    + eapply WR_Bytes; [done|left].
    + eapply RF_Bytes; [done|left].
Qed.
(** Asking the breaker. *)
Lemma tells_circuit c h :
  tells (lift (circuit c)) h (λ closed h', closed = false →
    ∃ at_ until, MEv (M_Worker (C_CircuitCheck c at_)) (Open until) ∈ h').
Proof.
  unfold circuit. cbn [lift call bind]. access closed. destruct closed; cbn [lift bind]; [done|]. access at_. access checked.
  destruct checked as [|until|]; cbn [lift bind ensures]; [done|intros _; do 2 eexists; left|].
  apply ensures_lift_bind. eapply ensures_use; [mute|]. by intros _ h' _ _.
Qed.

Lemma tells_queue_mutation command at_ e h :
  raised ci mc opts h command → refused ci mc h (revision command).1 (revision command).2 e →
  tells (queue_marker_mutation ci command opts at_) h (λ r h', ∀ queued, r = Ok queued → capture_answered ci opts h' at_ command queued).
Proof.
  intros Hc He. unfold queue_marker_mutation, capture_answered. destruct (has_recovery ci); cbn [negb].
  2: { cbn. intros queued [= <-]. auto. }
  destruct (MarkerMutation.capture command opts at_) as [w|] eqn:Hw; [|done]. cbn. split; [by eauto 10|].
  intros [q|]; cbn; [|done]. intros queued [= <-]. right. do 2 eexists. split_and!; [done|left|done].
Qed.
Lemma tells_queue command h :
  announced ci mc opts h command →
  tells (queue_marker ci command NotifyOnly) h (λ r h', ∀ queued, r = Ok queued →
    queue_answered ci h' (RW_Marker command NotifyOnly) queued).
Proof.
  intros Hc. unfold queue_marker, queue_answered. destruct (has_recovery ci); cbn [negb].
  2: { cbn. intros queued [= <-]. auto. }
  cbn. split; [done|]. intros [q|]; cbn; [|done]. intros queued [= <-]. right. eexists. split; [left|done].
Qed.

(** *** Publication *)
Lemma tells_publish command h :
  announced ci mc opts h command →
  tells (publish_marker ci command) h (λ r h', match r with
    | Ok _ => has_backplane ci = true → MEv (M_Worker (C_Publish (BC_Marker command))) (Ok tt) ∈ h'
    | Err e => unsent h' command e end).
Proof.
  intros Hc. unfold publish_marker, publish. destruct (has_backplane ci) eqn:Hb; [|done]. cbn [negb].
  apply ensures_lift_bind. eapply ensures_use; [apply tells_circuit|].
  intros [|] h1 H1 Hopen; cbn [negb]; [|by left; split; [|by apply Hopen]].
  apply ensures_lift_bind. cbn [lift call bind ensures]. split; [by eapply announced_incl|].
  intros [[]|e]; [|by right; left]. cbn [lift bind].
  apply ensures_lift_bind. eapply ensures_use; [mute|]. intros _ h2 H2 _.
  apply ensures_lift_bind. eapply ensures_use; [mute|]. intros _ h3 H3 _.
  apply ensures_lift_bind. eapply ensures_use; [mute|]. intros _ h4 H4 _ _. apply H4, H3, H2. left.
Qed.
Lemma announced_each h h' l : h ⊆ h' → Forall (announced ci mc opts h) l → Forall (announced ci mc opts h') l.
Proof. intros Hh Hl. eapply Forall_impl; [exact Hl|]. intros. by eapply announced_incl. Qed.
Lemma tells_publish_each l outcomes h :
  has_backplane ci = true → Forall (announced ci mc opts h) l →
  tells (publish_markers ci l opts outcomes) h (λ r h', ∀ all, r = Ok all →
    ∃ new, all = outcomes ++ new ∧ Forall2 (notified ci opts h') l new).
Proof.
  intros Hb. revert outcomes h. induction l as [|command l IH]; intros outcomes h Hl; cbn [publish_markers].
  { intros all [= <-]. exists []. by rewrite app_nil_r. }
  apply Forall_cons in Hl as [Hc Hl]. eapply ensures_use; [by apply tells_publish|].
  assert (∀ o h1, h ⊆ h1 → notified ci opts h1 command o →
    tells (publish_markers ci l opts (outcomes ++ [o])) h1 (λ r h', ∀ all, r = Ok all →
      ∃ new, all = outcomes ++ new ∧ Forall2 (notified ci opts h') (command :: l) new)) as Hnext.
  { intros o h1 H1 Ho. eapply ensures_mono; [apply IH; by eapply announced_each|].
    intros r h2 H2 Hr all ->. destruct (Hr all eq_refl) as (new & -> & Hnew). exists (o :: new).
    rewrite <- app_assoc. split; [done|]. constructor; [by eapply notified_incl|done]. }
  intros [[]|e] h1 H1 Hp; [apply Hnext; [done|by apply Hp]|].
  eapply ensures_use; [apply tells_failure|]. intros _ h2 H2 _.
  eapply ensures_attempt; [apply tells_queue; eapply announced_incl; [|exact Hc]; by etrans|done|].
  intros queued h3 H3 Hq. destruct (EntryOptions.rethrow_backplane_exceptions opts) eqn:Hrethrow; [done|].
  apply Hnext; [by do 2 etrans|]. specialize (Hq queued eq_refl).
  assert (unsent h3 command e) as Hu by (eapply unsent_incl; [|exact Hp]; by etrans). by destruct queued.
Qed.
Lemma tells_publication l distributed h :
  Forall (announced ci mc opts h) l →
  tells (marker_publication ci l opts distributed) h (λ r h', ∀ report, r = Ok report →
    ∃ backplane, report = mkReport LE_Invalidated distributed backplane ∧ peers_told ci opts h' l backplane).
Proof.
  intros Hl. unfold marker_publication. eapply ensures_finally.
  { eapply ensures_attempt.
    - instantiate (1 := λ r h', ∀ o, r = Ok o → peers_told ci opts h' l o). unfold peers_told.
      case_match; [by intros o [= <-]|]. destruct (has_backplane ci) eqn:Hb; cbn [negb]; [|by intros o [= <-]].
      eapply ensures_attempt; [by apply tells_publish_each|done|]. intros all h1 _ Hall o [= <-].
      destruct (Hall all eq_refl) as (new & -> & Hnew). by exists new.
    - instantiate (1 := λ r h', ∀ report, r = Ok report →
        ∃ backplane, report = mkReport LE_Invalidated distributed backplane ∧ peers_told ci opts h' l backplane). done.
    - intros o h1 _ Ho report [= <-]. exists o. split; [done|]. by apply Ho. }
  intros r h1 _ Hr. access u. intros report ->. destruct (Hr report eq_refl) as (o & -> & Ho).
  exists o. split; [done|]. eapply peers_told_incl; [|exact Ho]. by apply list_subseteq_cons.
Qed.

(** *** Population *)
Lemma tells_queue_each l h :
  Forall (announced ci mc opts h) l → tells (queue_notifications ci l) h (λ _ _, True).
Proof.
  revert h. induction l as [|command l IH]; intros h; [done|]. intros [Hc Hl]%Forall_cons.
  eapply ensures_attempt; [by apply tells_queue|done|]. intros queued h1 H1 _. apply IH. by eapply announced_each.
Qed.
Lemma tells_snapshot_failure command at_ captured e h :
  renewal_answered opts h at_ command (Err (CE_Marker e)) →
  tells (marker_snapshot_failure ci (mkSnapshotCommit (Tags.kind (cmd_marker command)) (snapshot_of opts at_ command)
    opts captured ML_Unleased LO_Admitted) e WP_Operation) h (λ r h', ∀ o, r = Ok o → snapshotted ci opts h' at_ command o).
Proof.
  intros Hr. unfold marker_snapshot_failure. cbn [sc_options sc_kind].
  assert (∀ fault (rethrow : bool), (rethrow = false → suppressible opts (CE_Marker e)) →
    tells (call (M_Emit (ME_SnapshotWrite (Tags.kind (cmd_marker command)) (write_outcome fault))) ;;;
      (let? queued := queue_marker_snapshot ci (mkSnapshotCommit (Tags.kind (cmd_marker command)) (snapshot_of opts at_ command)
         opts captured ML_Unleased LO_Admitted) in
       if rethrow then raise (CE_Marker e)
       else ok (if queued then EF_RecoveryQueued (CE_Marker e) else EF_FailedSuppressed (CE_Marker e)))) h
      (λ r h', ∀ o, r = Ok o → snapshotted ci opts h' at_ command o)) as Hgo.
  { intros fault rethrow Hs. access u. unfold queue_marker_snapshot. cbn [sc_kind sc_snapshot sc_options sc_lease participation_of].
    match goal with |- ensures _ _ ?h1 _ => assert (renewal_answered opts h1 at_ command (Err (CE_Marker e))) as Hr1 by
      (eapply renewal_answered_incl; [|exact Hr]; by apply list_subseteq_cons) end.
    destruct (has_recovery ci) eqn:Hrec; cbn [negb].
    - destruct (snapshot_replay_capture _ _ _ _ _) as [w|] eqn:Hw; [|done]. cbn. split; [done|].
      intros [q|]; cbn; [|done]. destruct rethrow; [done|]. intros o [= <-].
      match goal with |- snapshotted _ _ ?h2 _ _ _ => assert (renewal_answered opts h2 at_ command (Err (CE_Marker e)) ∧
        snapshot_queued ci opts h2 at_ command (is_queued q)) as [Hr2 Hq] end.
      { split; [eapply renewal_answered_incl; [|exact Hr1]; by apply list_subseteq_cons|]. right. exists w, q. split_and!; [done|left|done]. }
      destruct (is_queued q); (split_and!; [done|by apply Hs|done]).
    - cbn. destruct rethrow; [done|]. intros o [= <-]. split_and!; [done|by apply Hs|by left]. }
  destruct e; try done; by apply Hgo.
Qed.
Lemma tells_populate_snapshot command at_ h :
  EntryOptions.skip_distributed_write opts = false → marker_snapshot_provider mc = true →
  tells (populate_marker_snapshot ci mc command opts at_ WP_Operation) h (λ r h', ∀ o, r = Ok o → snapshotted ci opts h' at_ command o).
Proof.
  intros Hs Hp. unfold populate_marker_snapshot, now. rewrite Hs, Hp. cbn [negb]. cbv zeta.
  change (MarkerSnapshot.fresh (stored_version (cmd_marker command)) opts at_) with (snapshot_of opts at_ command).
  access t. destruct (MarkerSnapshot.is_physically_expired (snapshot_of opts at_ command) t) eqn:Ht.
  { intros o [= <-]. left. exists t. split; [left|done]. }
  access captured. unfold commit_control_snapshot, now. cbn [sc_captured sc_lease sc_kind sc_snapshot sc_options sc_local].
  eapply ensures_attempt; [mute|done|]. intros [] h1 H1 _. access epoch.
  destruct (epoch =? captured) eqn:He; cbn [negb].
  2: { intros o [= <-]. exists epoch, captured. split_and!; [lia|left|right; apply H1; left]. }
  cbn [lease_proof]. eapply ensures_attempt with (P := λ r _, ∀ p, r = Ok p → p = None); [by intros ? [= <-]|done|].
  intros p h2 H2 Hnone. rewrite (Hnone p eq_refl). clear p Hnone. access t'. access renewed.
  match goal with |- ensures _ _ ?h3 _ => assert (renewal_answered opts h3 at_ command renewed) as Hr by (exists t'; left) end.
  eapply ensures_attempt; [mute|done|]. intros [] h4 H4 _.
  assert (renewal_answered opts h4 at_ command renewed) as Hr4 by (by eapply renewal_answered_incl). clear Hr.
  destruct renewed as [renewal|[]]; try done; [|by apply tells_snapshot_failure].
  destruct (renewal_of renewal) as [[s|] outcome] eqn:Hren.
  - unfold apply_marker. eapply ensures_attempt with (P := λ r h', ∃ out,
      MEv (M_Advance (Tags.kind (cmd_marker command)) (snap_version s)) out ∈ h'); [|done|].
    + access out. eapply ensures_mono; [mute|]. intros r h' Hh _. exists out. apply Hh. left.
    + intros [] h5 H5 [out Hout]. access u. intros o [= <-]. exists renewal, s, out. split_and!; [|by rewrite Hren|by right].
      eapply renewal_answered_incl; [|exact Hr4]. etrans; [exact H5|]. by apply list_subseteq_cons.
  - cbn [attempt bind]. access u. intros o [= <-]. right. exists renewal. split; [|by rewrite Hren].
    eapply renewal_answered_incl; [|exact Hr4]. by apply list_subseteq_cons.
Qed.
Lemma tells_populate_each l at_ outcomes failure h :
  EntryOptions.skip_distributed_write opts = false → marker_snapshot_provider mc = true →
  tells (populate_each ci mc l opts at_ outcomes failure) h (λ r h', r.2 = None →
    failure = None ∧ ∃ more, r.1 = outcomes ++ more ∧ Forall2 (snapshotted ci opts h' at_) l more).
Proof.
  intros Hs Hp. revert outcomes failure h. induction l as [|command l IH]; intros outcomes failure h; cbn [populate_each].
  { cbn. intros ->. split; [done|]. exists []. by rewrite app_nil_r. }
  eapply ensures_use; [by apply tells_populate_snapshot|]. intros [o|e] h1 H1 Ho.
  - eapply ensures_mono; [apply IH|]. intros r h2 H2 Hr Hnone. destruct (Hr Hnone) as (-> & more & -> & Hmore).
    split; [done|]. exists (o :: more). rewrite <- app_assoc. split; [done|]. constructor; [|done].
    eapply snapshotted_incl; [exact H2|]. by apply Ho.
  - eapply ensures_mono; [apply IH|]. intros r h2 _ Hr Hnone. by destruct (Hr Hnone) as [? _].
Qed.
Lemma tells_populate l at_ durable h :
  Forall (announced ci mc opts h) l →
  tells (populate_marker_mutation ci mc l opts at_ durable) h (λ r h', ∀ o, r = Ok o →
    ∃ rest, o = effects (durable :: rest) ∧ snapshots_told ci mc opts h' at_ l rest).
Proof.
  intros Hl. unfold populate_marker_mutation, snapshots_told, populates.
  destruct (EntryOptions.skip_distributed_write opts) eqn:Hs; cbn [orb].
  { rewrite andb_false_r. intros o [= <-]. by exists []. }
  destruct (marker_snapshot_provider mc) eqn:Hp; cbn [negb andb]; [|intros o [= <-]; by exists []].
  eapply ensures_mono; [apply (ensures_owned _ (λ _, True)); [apply quiet_announcing|done|]|].
  - unfold populate_marker_commands_owned. eapply ensures_use; [by apply tells_populate_each|].
    intros [outcomes failure] h1 H1 Hr.
    instantiate (1 := λ r h', ∀ o, r = Ok o → ∃ rest, o = effects (durable :: rest) ∧ Forall2 (snapshotted ci opts h' at_) l rest).
    cbn [fst snd] in *. destruct failure as [e|].
    + eapply ensures_attempt; [|done|by intros]. instantiate (1 := λ _ _, True).
      case_match; [|done]. apply tells_queue_each. by eapply announced_each.
    + cbn. intros o [= <-]. destruct (Hr eq_refl) as (_ & more & -> & Hmore). by exists more.
  - intros r h1 _ [Hr|[reason ->]]; [exact Hr|done].
Qed.

(** *** One command *)
Lemma outcome_written out : written_marker out ∈ outcome_markers out.
Proof. destruct out; set_solver. Qed.
Lemma tells_apply m h : tells (apply_marker m) h (λ _ h', ∃ out, MEv (M_Advance (Tags.kind m) (stored_version m)) out ∈ h').
Proof. unfold apply_marker. access out. exists out. left. Qed.

(** A revision the store acknowledged is applied and remembered before peers learn it. *)
Lemma tells_accept_write k v out m h :
  stores mc opts = true → wrote ci mc h k v out → m ∈ outcome_markers out →
  ∀ B (rest : unit → prog (result CacheError B)) (Q : result CacheError B → chronicle V → Prop),
    (∀ e h', Q (Err e) h') →
    (∀ h', h ⊆ h' → seeded mc opts h' m → acknowledged ci mc h' m → tells (rest tt) h' Q) →
    tells (bind (apply_marker m) (λ _, attempt (seed_marker ci mc m opts) rest)) h Q.
Proof.
  intros Hs Hw Hm B rest Q Herr Hrest. eapply ensures_use; [apply tells_apply|]. intros _ h1 H1 [out' Ha].
  eapply ensures_attempt; [apply tells_seed|by intros|]. intros [] h2 H2 Hseed. apply Hrest.
  - by etrans.
  - by apply Hseed.
  - split; [|exists out'; by apply H2]. exists k, v, out. split; [|done]. eapply wrote_incl; [|exact Hw]. by etrans.
Qed.
Lemma announced_stored command m h :
  stores mc opts = true → ours ci command → cmd_marker command = m → seeded mc opts h m → acknowledged ci mc h m →
  announced ci mc opts h command.
Proof. intros Hs Ho Hm Hseed Ha. unfold announced. rewrite Hs, Hm. done. Qed.
Definition staged_as h at_ (command : MarkerCommand) (staged : CommitReport + list MarkerCommand * EffectOutcome) : Prop :=
  match staged with
  | inl report => committed ci mc opts h at_ command report
  | inr (l, distributed) => stands_for ci mc opts h command l ∧ Forall (announced ci mc opts h) l ∧
      distributed = durable_effect mc opts
  end.
(** The store's answer, as the commands it stands for. *)
Lemma tells_acknowledge k v out h :
  stores mc opts = true → wrote ci mc h k v out →
  tells (acknowledge_marker ci mc out opts) h (λ r h', ∀ l, r = Ok l →
    Forall (announced ci mc opts h') l ∧ cmd_marker <$> l = outcome_markers out).
Proof.
  intros Hs Hw. eapply tells_accept_write; [done|exact Hw|apply outcome_written|done|]. intros h1 H1 Hseed Hack.
  eapply ensures_attempt; [apply tells_command|done|]. intros committed h2 H2 [-> Hc].
  destruct (Hc committed eq_refl) as [Hours Hmarker]. clear Hc H2.
  apply ensures_attempt with (P := λ r h', ∀ l, r = Ok l → Forall (announced ci mc opts h') l ∧
    cmd_marker <$> (l ++ [committed]) = outcome_markers out).
  - destruct out as [m|m clear]; cbn [written_marker] in *; [intros l [= <-]; cbn; by rewrite Hmarker|].
    eapply ensures_attempt; [apply tells_command|done|]. intros command' h2 H2 [-> Hc].
    destruct (Hc command' eq_refl) as [Hours' Hmarker']. rewrite Hmarker'.
    eapply tells_accept_write; [done|eapply wrote_incl; [exact H1|exact Hw]|set_solver|done|]. intros h3 H3 Hseed' Hack'.
    intros l [= <-]. cbn. rewrite Hmarker, Hmarker'. split; [|done]. constructor; [|done]. by eapply announced_stored.
  - done.
  - intros l h2 H2 Hl all [= <-]. destruct (Hl l eq_refl) as [Hall Hmarkers]. split; [|done]. apply Forall_app; split; [done|].
    constructor; [|done]. eapply announced_incl; [exact H2|]. by eapply announced_stored.
Qed.
Lemma tells_store command at_ h :
  stores mc opts = true → raised ci mc opts h command →
  tells (store_marker ci mc command opts at_) h (λ r h', ∀ staged, r = Ok staged → staged_as h' at_ command staged).
Proof.
  intros Hs Hc. unfold store_marker. assert (cmd_scope command = scope ci) as -> by apply Hc.
  eapply ensures_use; [apply tells_write; [done|]|].
  { assert (mkStoredMarker (Tags.kind (cmd_marker command)) (stored_version (cmd_marker command)) = cmd_marker command)
      as -> by (by destruct (cmd_marker command)). apply Hc. }
  intros [out|e] h1 H1 Hw.
  { eapply ensures_attempt; [by eapply tells_acknowledge|done|]. intros l h2 H2 Hl staged [= <-].
    destruct (Hl l eq_refl) as [Ha Hm]. split_and!; [|done|unfold durable_effect; by rewrite Hs].
    unfold stands_for. rewrite Hs. exists out. split; [|done]. eapply wrote_incl; [|exact Hw]. done. }
  eapply ensures_attempt; [eapply tells_queue_mutation; [eapply raised_incl; [exact H1|exact Hc]|exact Hw]|done|].
  intros queued h2 H2 Hq. eapply ensures_use; [apply tells_failure|]. intros _ h3 H3 _.
  destruct (EntryOptions.rethrow_distributed_exceptions opts) eqn:Hr; [done|]. intros staged [= <-].
  apply CM_Refused; [done| |done|].
  - eapply refused_incl; [|exact Hw]. by etrans.
  - eapply capture_answered_incl; [exact H3|]. by apply Hq.
Qed.
Lemma tells_distributed command at_ h :
  raised ci mc opts h command →
  tells (marker_distributed ci mc command opts at_) h (λ r h', ∀ staged, r = Ok staged → staged_as h' at_ command staged).
Proof.
  intros Hc. unfold marker_distributed. destruct (stores mc opts) eqn:Hs.
  2: { assert (announced ci mc opts h command) as Ha by (unfold announced; rewrite Hs; apply Hc).
       assert (∀ d, d = durable_effect mc opts → staged_as h at_ command (inr ([command], d))) as Hone.
       { intros d ->. split_and!; [unfold stands_for; by rewrite Hs|by constructor|done]. }
       assert (durable_effect mc opts = match markers mc with AC_Local => EF_NotConfigured | _ => EF_Skipped SK_Policy end)
         as Hd by (unfold durable_effect; by rewrite Hs).
       rewrite Hd in Hone. clear Hd. unfold stores in Hs. destruct (markers mc); cbn in Hs; [|done| |].
       all: try (apply negb_false_iff in Hs; rewrite Hs).
       all: intros staged [= <-]; by apply Hone. }
  assert (Hstored := Hs). unfold stores in Hs. apply andb_true_iff in Hs as [Hm Hskip%negb_true_iff]. rewrite Hskip.
  destruct (markers mc); [done..| |]; by apply tells_store.
Qed.

(** *** Receipts *)
Definition receipt_of h at_ (command : MarkerCommand) (receipt : MarkerReceipt V) : Prop :=
  match receipt with
  | MC_Completed report => committed ci mc opts h at_ command report
  | MC_Scheduled completion => ∀ h', h ⊆ h' → tells completion h' (λ r h'', ∀ report, r = Ok report → committed ci mc opts h'' at_ command report)
  end.
Lemma receipt_of_incl h h' at_ command receipt : h ⊆ h' → receipt_of h at_ command receipt → receipt_of h' at_ command receipt.
Proof.
  intros Hh. destruct receipt as [report|completion]; cbn; [by apply committed_incl|]. intros Hc h'' H''. apply Hc. by etrans.
Qed.
Lemma tells_wait at_ command receipt h :
  receipt_of h at_ command receipt →
  tells (wait receipt) h (λ r h', ∀ report, r = Ok report → committed ci mc opts h' at_ command report).
Proof. destruct receipt as [report|completion]; cbn; [by intros Hr ? [= <-]|]. intros Hc. by apply Hc. Qed.
Lemma tells_unlane h : tells (call M_Unlane) h (λ _ _, True).
Proof. mute. Qed.
Lemma tells_commit command at_ h :
  raised ci mc opts h command →
  tells (commit_marker ci mc command opts at_) h (λ r h', ∀ receipt, r = Ok receipt → receipt_of h' at_ command receipt).
Proof.
  intros Hc. unfold commit_marker. access u. eapply ensures_release.
  { apply tells_distributed. eapply raised_incl; [|exact Hc]. by apply list_subseteq_cons. }
  { intros e h1 H1 _. eapply ensures_mono; [apply tells_unlane|done]. }
  intros [report|[l distributed]] h1 H1 Hs.
  { access u'. intros receipt [= <-]. apply (committed_incl _ _ _ h1 _ at_); [by apply list_subseteq_cons|]. exact (Hs _ eq_refl). }
  destruct (Hs _ eq_refl) as (Hl & Ha & ->). clear Hs.
  eapply ensures_release; [by apply tells_populate| |].
  { intros e h2 H2 _. eapply ensures_mono; [apply tells_unlane|done]. }
  intros distributed h2 H2 Hd. destruct (Hd distributed eq_refl) as (rest & -> & Hrest).
  assert (∀ h', h2 ⊆ h' → tells (marker_publication ci l opts (effects (durable_effect mc opts :: rest))) h' (λ (r : result CacheError CommitReport) h'',
    ∀ report, r = Ok report → committed ci mc opts h'' at_ command report)) as Hpub.
  { intros h' H'. eapply ensures_mono; [apply tells_publication; eapply announced_each; [|exact Ha]; by etrans|].
    intros r h'' H'' Hr report ->. destruct (Hr report eq_refl) as (backplane & -> & Hb).
    eapply CM_Committed; [| |exact Hb|eapply snapshots_told_incl; [|exact Hrest]; by etrans].
    - eapply stands_for_incl; [|exact Hl]. by do 2 etrans.
    - eapply announced_each; [|exact Ha]. by do 2 etrans. }
  unfold commit_receipt. cbn zeta. case_match.
  - eapply ensures_attempt; [by apply Hpub|done|]. intros report h3 H3 Hr receipt [= <-]. by apply Hr.
  - intros receipt [= <-]. exact Hpub.
Qed.

(** *** The mutation *)
Lemma tells_mutate_one k at_ h :
  tells (mutate_one ci mc k opts at_) h (λ r h', ∀ l, r = Ok l → localised ci mc opts h' at_ k l).
Proof.
  unfold mutate_one. cbn [bind call ensures]. split; [done|]. intros out. cbn [record quiet negb].
  match goal with |- ensures _ _ ?h _ => set (h0 := h) end.
  assert (∀ m h', m ∈ outcome_markers (from_advance out) → h0 ⊆ h' → registered h' m) as Hreg.
  { intros m h' Hm Hh. exists k, at_, out. split; [apply Hh; left|done]. }
  assert (outcome_marker out ∈ outcome_markers (from_advance out)) as Hm by (destruct out; set_solver).
  assert (∀ h', h0 ⊆ h' → k = MK_ClearRemove ∨ (∃ m clear, out = Compacted m clear) →
    tells (call M_InvalidateAll) h' (λ r h'', r = Ok tt → MEv M_InvalidateAll (Ok tt) ∈ h'')) as Hinv.
  { intros h' Hh Hk. cbn. split; [|intros r ->; left]. exists k, at_, out. split; [apply Hh; left|done]. }
  eapply ensures_attempt; [apply tells_seed|done|]. intros [] h1 H1 Hseed.
  eapply ensures_attempt; [instantiate (1 := λ r h', r = Ok tt → k = MK_ClearRemove → MEv M_InvalidateAll (Ok tt) ∈ h')|done|].
  { case_bool_decide; [|by intros ? ?]. eapply ensures_mono; [apply Hinv; [done|by left]|]. auto. }
  intros [] h2 H2 Hclear. access u. eapply ensures_attempt; [apply tells_command|done|].
  intros command h3 H3 [-> Hc]. destruct (Hc command eq_refl) as [Hours Hmarker]. clear Hc H3.
  match goal with |- ensures _ _ ?h _ => set (h3 := h) end.
  assert (h2 ⊆ h3) as H3 by (by apply list_subseteq_cons). assert (h0 ⊆ h3) as H03 by (by do 2 etrans).
  assert (MEv (M_Advance k at_) out ∈ h0) as Hout by left.
  assert (raised ci mc opts h3 command) as Hraised.
  { split_and!; [done| |rewrite Hmarker; by apply Hreg]. rewrite Hmarker. apply (seeded_incl _ _ h1); [by etrans|by apply Hseed]. }
  destruct out as [m|m clear]; cbn [outcome_marker] in *.
  { intros l [= <-]. split; [by constructor|]. exists (Advanced m). split_and!; [by apply H03|cbn; by rewrite Hmarker|].
    intros [->|(? & ? & ?)]; [|done]. apply H3. by apply Hclear. }
  eapply ensures_attempt; [apply Hinv; [done|right; eauto]|done|]. intros [] h4 H4 Hall.
  eapply ensures_attempt; [apply tells_seed|done|]. intros [] h5 H5 Hseed'.
  eapply ensures_attempt; [apply tells_command|done|]. intros command' h6 H6 [-> Hc].
  destruct (Hc command' eq_refl) as [Hours' Hmarker']. intros l [= <-]. assert (h3 ⊆ h5) as H35 by (by etrans). split.
  - constructor; [by eapply raised_incl|]. constructor; [|done]. split_and!; [done|by rewrite Hmarker'; apply Hseed'|].
    rewrite Hmarker'. apply Hreg; [set_solver|by etrans].
  - exists (Compacted m clear). split_and!; [by apply H35, H03|cbn; by rewrite Hmarker, Hmarker'|].
    intros _. apply H5. by apply Hall.
Qed.
Definition localised_each h at_ (kinds : list MarkerKind) (l : list MarkerCommand) : Prop :=
  ∃ ll, l = concat ll ∧ Forall2 (localised ci mc opts h at_) kinds ll.
Lemma localised_raised h at_ kinds l : localised_each h at_ kinds l → Forall (raised ci mc opts h) l.
Proof.
  intros (ll & -> & Hll). induction Hll as [|k l kinds ll [Hl _] _ IH]; [done|]. cbn. by apply Forall_app.
Qed.
Lemma localised_each_incl h h' at_ kinds l : h ⊆ h' → localised_each h at_ kinds l → localised_each h' at_ kinds l.
Proof.
  intros Hh (ll & -> & Hll). exists ll. split; [done|]. eapply Forall2_impl; [exact Hll|]. intros. by eapply localised_incl.
Qed.
Lemma tells_mutate_each kinds at_ h :
  tells (mutate_each ci mc kinds opts at_) h (λ r h', ∀ l, r = Ok l → localised_each h' at_ kinds l).
Proof.
  revert h. induction kinds as [|k kinds IH]; intros h; cbn [mutate_each].
  { intros l [= <-]. exists []. by split. }
  eapply ensures_attempt; [apply tells_mutate_one|done|]. intros l h1 H1 Hl.
  eapply ensures_attempt; [apply IH|done|]. intros rest h2 H2 Hr all [= <-].
  destruct (Hr rest eq_refl) as (ll & -> & Hll). exists (l :: ll). split; [done|]. constructor; [|done].
  eapply localised_incl; [exact H2|]. by apply Hl.
Qed.

Lemma tells_commit_each l at_ h :
  Forall (raised ci mc opts h) l →
  tells (commit_each ci mc l opts at_) h (λ r h', ∀ receipts, r = Ok receipts → Forall2 (receipt_of h' at_) l receipts).
Proof.
  revert h. induction l as [|command l IH]; intros h Hl; cbn [commit_each]; [by intros ? [= <-]|].
  apply Forall_cons in Hl as [Hc Hl]. eapply ensures_attempt; [by apply tells_commit|done|]. intros receipt h1 H1 Hr.
  eapply ensures_attempt; [apply IH; eapply Forall_impl; [exact Hl|]; intros; by eapply raised_incl|done|].
  intros rest h2 H2 Hrest all [= <-]. constructor; [|by apply Hrest]. eapply receipt_of_incl; [exact H2|]. by apply Hr.
Qed.
Lemma tells_wait_each at_ l receipts h :
  Forall2 (receipt_of h at_) l receipts →
  tells (wait_each receipts) h (λ r h', ∀ all, r = Ok all → Forall2 (committed ci mc opts h' at_) l all).
Proof.
  intros Hr. revert h Hr. revert l. induction receipts as [|receipt receipts IH]; intros l h Hr; cbn [wait_each].
  { apply Forall2_nil_inv_r in Hr as ->. by intros ? [= <-]. }
  apply Forall2_cons_inv_r in Hr as (command & l' & Hc & Hl & ->).
  eapply ensures_attempt; [by apply tells_wait|done|]. intros report h1 H1 Hreport.
  eapply ensures_attempt; [apply IH; eapply Forall2_impl; [exact Hl|]; intros; by eapply receipt_of_incl|done|].
  intros rest h2 H2 Hrest all [= <-]. constructor; [|by apply Hrest]. eapply committed_incl; [exact H2|]. by apply Hreport.
Qed.

(** The whole invalidation: what was done for each marker, then for each command. *)
Definition invalidated h at_ (kinds : list MarkerKind) (report : CommitReport) : Prop :=
  ∃ l all, localised_each h at_ kinds l ∧ Forall2 (committed ci mc opts h at_) l all ∧ report = reports all.

Definition owed h at_ (kinds : list MarkerKind) (r : result CacheError (MarkerReceipt V)) : Prop :=
  ∀ receipt, r = Ok receipt →
    tells (wait receipt) h (λ r h', ∀ report, r = Ok report → invalidated h' at_ kinds report).
Lemma tells_commit_markers kinds l at_ h :
  localised_each h at_ kinds l → tells (commit_markers ci mc l opts at_) h (λ r h', owed h' at_ kinds r).
Proof.
  intros Hl. unfold commit_markers.
  assert (∀ receipts h1, h ⊆ h1 → Forall2 (receipt_of h1 at_) l receipts →
    tells (let? completed := wait_each receipts in ok (reports completed)) h1 (λ r h', ∀ report, r = Ok report →
      invalidated h' at_ kinds report)) as Hall.
  { intros receipts h1 H1 Hr. eapply ensures_attempt; [by apply tells_wait_each|done|]. intros all h2 H2 Ha report [= <-].
    exists l, all. split_and!; [eapply localised_each_incl; [|exact Hl]; by etrans|by apply Ha|done]. }
  eapply ensures_attempt; [apply tells_commit_each; by eapply localised_raised|done|]. intros receipts h1 H1 Hr.
  specialize (Hr receipts eq_refl). unfold commit_receipt. case_match.
  - eapply ensures_attempt; [by apply Hall|done|]. intros report h2 H2 Hrep receipt [= <-] report' [= <-]. by apply Hrep.
  - intros receipt [= <-]. by apply Hall.
Qed.
Lemma tells_mutate kinds options h :
  opts = default (tags_default_options mc) options →
  tells (mutate_markers ci mc kinds options) h (λ r h', ∃ at_, owed h' at_ kinds r).
Proof.
  intros Hopts. unfold mutate_markers. rewrite <- Hopts. eapply ensures_attempt; [mute|by exists 0|]. intros [] h1 H1 _.
  case_match; [by exists 0|]. unfold now. access at_. eapply ensures_attempt; [apply tells_mutate_each|by exists 0|].
  intros l h2 H2 Hl. specialize (Hl l eq_refl). unfold pipeline_receipt. case_match.
  - eapply ensures_mono; [by apply tells_commit_markers|]. intros r h3 H3 Hr. by exists at_.
  - exists at_. intros receipt [= <-]. cbn [wait]. eapply ensures_attempt; [by apply tells_commit_markers|done|].
    intros receipt h3 H3 Hr. by apply Hr.
Qed.
Lemma tells_mutation kinds options h :
  opts = default (tags_default_options mc) options →
  tells (mutation ci mc kinds options) h (λ r h', ∀ report, r = Ok report → ∃ at_, invalidated h' at_ kinds report).
Proof.
  intros Hopts. eapply ensures_attempt; [by apply tells_mutate|by intros|]. intros receipt h1 H1 [at_ Hr].
  eapply ensures_mono; [by apply Hr|]. intros r h2 H2 Hi report Hreport. exists at_. by apply Hi.
Qed.
End traversal.

Module AnnounceTheorems.
(** C8: peers only learn revisions that are committed here. Whatever the
    registry, the observation memory, the store, the recovery queue and the
    backplane answer, and whatever tasks run in between, an invalidation and
    everything it schedules publish and queue only commands of this cache's
    identity and scope, whose marker the observation memory took at least at that
    revision and which, where revisions go through a store, the store acknowledged
    (as the revision written, a newer one or a forced clear) and the registry
    applied. Only revisions the registry answered are written, only refused
    writes are captured for a replay, and the memory is only emptied for a clear
    the registry has taken. *)
Theorem invalidations_announce_committed_revisions {V} (ci : Inner) (mc : MarkerConfig) kinds options h :
  ensures (V := V) (announcing ci mc (default (tags_default_options mc) options))
    (mutation ci mc kinds options) h (λ _ _, True).
Proof. eapply ensures_mono; [by apply tells_mutation|done]. Qed.

(** C12: an invalidation's report tells the truth. A report means that every
    marker was advanced in the registry and remembered, that the memory was
    emptied for every removing clear, requested or forced by a compaction, and
    that every command was committed: either the store refused it, its failure is
    suppressed by the options and the report tells whether a replay was queued; or
    the store acknowledged it (or none is configured, or it is skipped, and the
    report says which), and the report follows with one outcome per command for the
    snapshots, where they are populated, and one per command for the peers, the
    forced clear first. A snapshot is reported applied only when the provider
    answered its renewal with a snapshot whose revision the registry then took;
    skipped, when it was physically expired or the provider said so, or when the
    epoch moved; queued or suppressed, with the error of its renewal, which the
    options suppress, and the recovery queue's answer. Peers are reported notified
    only when the backplane acknowledged the command; queued or lost, when it
    answered with the error that is reported or its breaker was open, the options
    suppress it, and the recovery queue answered so. Without a backplane, or with
    notifications skipped, the report says just that. *)
Theorem invalidation_reports_tell_the_truth {V} (ci : Inner) (mc : MarkerConfig) kinds options h :
  wp (any (ans := manswer (V := V)) (λ c, negb (quiet c))) (mutation ci mc kinds options) h (λ r h',
    ∀ report, r = Ok report →
      ∃ at_, invalidated ci mc (default (tags_default_options mc) options) h' at_ kinds report).
Proof. eapply ensures_wp. by apply tells_mutation. Qed.
End AnnounceTheorems.
