(* ===== verification/Replay.v ===== *)
(** * Replays of queued work

    Models [src/src/cache/recovery.rs] and the replaying half of
    [src/src/cache/marker_recovery.rs]: what the recovery queue's executor does
    with the work of one ticket. The ticket is the handler's: [M_IsCurrent] asks
    whether the queue still holds it, the stage transitions replace its work.
    The answer tells the queue whether the work is done, obsolete, or to be kept. *)
From Stdlib Require Init.Byte.
From S2P Require Import Prelude Time Calls Circuit Options Entry Tags Backplane Cancellation.
From S2P Require Import Invalidation Storage Lanes Wire Lease Recovery Observe Worker Write Control Markers Mutate.
Open Scope prog_scope.

(** What an inherited clear leaves of its parent. *)
Inductive CompactionReplay := CR_Continued (work : MarkerMutationRecovery) | CR_Stopped (outcome : ReplayOutcome).

Definition is_fenced_commit (mutation : PendingMutation) : bool :=
  match mutation with PM_FencedCommit _ _ => true | _ => false end.
(** The value a captured mutation would write. *)
Definition captured_bytes (mutation : PendingMutation) : option (list Init.Byte.byte) :=
  match mutation with
  | PM_Commit (DM_Set bytes _ | DM_Expire bytes _) _ | PM_FencedCommit (DM_Set bytes _ | DM_Expire bytes _) _ => Some bytes
  | _ => None
  end.
Definition is_applied (outcome : ReplayOutcome) : bool := match outcome with RO_Applied => true | _ => false end.
Definition advances (stage : MarkerReplay) : bool :=
  match stage with AdvanceAndNotify | AdvanceOnly => true | NotifyOnly => false end.
Definition notifies (stage : MarkerReplay) : bool :=
  match stage with AdvanceOnly => false | AdvanceAndNotify | NotifyOnly => true end.

Section replay.
Context {V : Type} (ci : Inner) (mc : MarkerConfig).
Local Abbreviation prog := (prog (manswer (V := V))).
Local Abbreviation action A := (prog (result CacheError A)).
Local Abbreviation ask c := (call (ans := manswer (V := V)) c).
Local Abbreviation tell c := (call (ans := manswer (V := V)) (M_Worker c)).

(** ** Admission *)
Definition replay_admitted : action bool :=
  let? _ := tell C_Health in
  if has_backplane ci then let* connected := ask M_Connected in ok connected else ok true.

(** A superseded ticket ends the replay; a cache that lost its peers pauses it. *)
Definition live (k : action ReplayOutcome) : action ReplayOutcome :=
  let* current := ask M_IsCurrent in
  if negb current then ok RO_Superseded
  else
    let? admitted := replay_admitted in
    if negb admitted then ok RO_Paused else k.

Definition publish_command (command : BackplaneCommand) : action unit :=
  if has_backplane ci then
    let? _ := tell (C_Publish command) in
    lift (close_circuit CC_Backplane) ;;; ok tt
  else ok tt.

(** ** Values *)
Definition replay_legacy (item : RecoveryItem) : action unit :=
  if negb (is_hybrid (storage ci)) then ok tt
  else
    match item_action item with
    | RA_Set =>
        let* at_ := now in
        let? found := tell (C_GetAt (item_key item) at_) in
        match found with
        | Some e =>
            let? snapshot := Ret (map_err from_wire_error
              (DistributedSnapshot.from_entry_with_options e (default_options ci) (inserted_at (Entry.meta e)))) in
            let? bytes := lift (encode snapshot) in
            let* at_ := now in
            tell (C_BackendSet (l2_key ci (item_key item)) bytes (Some (DistributedSnapshot.backend_ttl_at snapshot at_)))
        | None => ok tt
        end
    | RA_Remove => tell (C_BackendRemove (l2_key ci (item_key item)))
    | RA_Expire => ok tt
    end.

(** [try_into_entry] may allocate twice. *)
Definition captured_entry (bytes : list Init.Byte.byte) : action (Entry V) :=
  let? snapshot := lift (decode bytes) in
  let* at_ := now in
  let* p := tell C_Alloc in
  let* p' := tell C_Alloc in
  Ret (map_err from_wire_error (DistributedSnapshot.try_into_entry p p' snapshot at_)).

Definition reconcile_replay (item : RecoveryItem) (mutation : PendingMutation) : action ReplayOutcome :=
  if negb (is_hybrid (storage ci)) then ok RO_Applied
  else
    let? current := tell (C_BackendGet (l2_key ci (item_key item))) in
    let? superseded :=
      match current with
      | Some bytes =>
          let? snapshot := lift (decode bytes) in
          ok (item_timestamp item <? created_ticks (entry snapshot))
      | None => ok false
      end in
    if superseded then ok RO_Superseded
    else
      let? source :=
        match captured_bytes mutation with
        | Some bytes => let? e := captured_entry bytes in ok (Some e)
        | None => ok None
        end in
      let? _ := reconcile_markers ci mc (from_option (λ e, Entry.tags (Entry.meta e)) [] source) None in
      let* valid :=
        match source with
        | Some e => let* verdict := lift (evaluate_tags ci e) in Ret (bool_decide (verdict = Valid))
        | None => Ret true
        end in
      ok (if valid then RO_Applied else RO_Superseded).

Definition expired_copy (snapshot : DistributedSnapshot V) (logical : Timestamp) : result WireError (DistributedSnapshot V) :=
  let e := entry snapshot in
  DistributedSnapshot.new
    (mkDistributedEntry (Wire.value e) (created_ticks e) (Z.min (logical_expiration_ticks e) logical)
       (physical_expiration_ticks e) (from_fail_safe e) (entry_etag e) (last_modified_ticks e) (entry_tags e))
    (snapshot_inserted_at snapshot) (snapshot_retention snapshot).

Definition expire_current (key : string) (logical : Timestamp) : action ReplayOutcome :=
  if negb (is_hybrid (storage ci)) then ok RO_Applied
  else
    let? found := tell (C_BackendGet (l2_key ci key)) in
    match found with
    | None => ok RO_Applied
    | Some bytes =>
        let? snapshot := lift (decode bytes) in
        if logical <? created_ticks (entry snapshot) then ok RO_Superseded
        else
          let? expired := Ret (map_err from_wire_error (expired_copy snapshot logical)) in
          let? bytes := lift (encode expired) in
          let? _ := lift (write_data ci key (DM_Expire bytes (physical_expiration_ticks (entry expired))) None) in
          ok RO_Applied
    end.

(** A fenced commit takes its cluster lease before the lane. *)
Definition replay_flight (key : string) (mutation : PendingMutation) : action (option FlightGuard) :=
  if negb (is_fenced_commit mutation) then ok None
  else if negb (has_locker ci) then raise (CE_Lease UnsupportedFencing)
  else
    let? acquired := ask (M_Acquire ("amalgam:lock:" +:+ l2_key ci key)
                            (EntryOptions.distributed_lock_timeout (default_options ci)) LP_Fenced) in
    match acquired with
    | Some lease => ok (Some (mkFlight ReplayOnly (CP_Fenced lease)))
    | None => raise (CE_Lease AcquisitionTimeout)
    end.

Definition stage_notification (notification : option BackplaneCommand) : prog unit :=
  match notification with Some _ => let* _ := ask M_NotificationStage in Ret tt | None => Ret tt end.

(** The mutation's own stage: an early outcome, or the command left to publish. *)
Definition replay_stage (item : RecoveryItem) (mutation : PendingMutation) (flight : option FlightGuard)
    : action (ReplayOutcome + option BackplaneCommand) :=
  match mutation with
  | PM_Legacy => let? _ := replay_legacy item in ok (inr None)
  | PM_Notify command => ok (inr (Some command))
  | PM_ColdExpire logical notification =>
      let? outcome := expire_current (item_key item) logical in
      if negb (is_applied outcome) then ok (inl outcome)
      else stage_notification notification ;;; ok (inr notification)
  | PM_Commit data notification | PM_FencedCommit data notification =>
      let* at_ := now in
      if from_option is_zero false (remaining_ttl data at_) then ok (inl RO_Expired)
      else
        let? _ := lift (write_data ci (item_key item) data flight) in
        stage_notification notification ;;; ok (inr notification)
  end.

(** Under the lane, and under the lease of a fenced commit. *)
Definition replay_mutation (item : RecoveryItem) (mutation : PendingMutation) (flight : option FlightGuard)
    : action ReplayOutcome :=
  live (
    let? reconciled := reconcile_replay item mutation in
    if negb (is_applied reconciled) then ok reconciled
    else live (
      let? staged := replay_stage item mutation flight in
      match staged with
      | inl outcome => ok outcome
      | inr command => live (
          let? _ := match command with Some command => publish_command command | None => ok tt end in
          ok RO_Applied)
      end)).
Definition replay_data (item : RecoveryItem) (mutation : PendingMutation) : action ReplayOutcome :=
  let key := item_key item in
  let? flight := replay_flight key mutation in
  tell (C_Lane key) ;;;
  finally (lift (retire key flight)) (replay_mutation item mutation flight).

(** ** Markers *)
Definition replay_stored (command : MarkerCommand) (stage : MarkerReplay) : action unit :=
  let options := tags_default_options mc in
  let marker := cmd_marker command in
  let? outcome := write_marker_revision mc (cmd_scope command) (Tags.kind marker)
                    (MarkerSnapshot.fresh (stored_version marker) options (stored_version marker)) options in
  apply_marker (written_marker outcome) ;;;
  (if notifies stage then let* _ := ask M_NotificationStage in Ret tt else Ret tt) ;;;
  match outcome with
  | MW_Compacted _ clear_remove =>
      let? clear := marker_command ci (mkStoredMarker MK_ClearRemove clear_remove) in
      apply_marker (cmd_marker clear) ;;;
      if notifies stage then let? _ := queue_marker ci clear NotifyOnly in ok tt else ok tt
  | MW_Written _ => ok tt
  end.
Definition replay_advance (command : MarkerCommand) (stage : MarkerReplay) : action unit :=
  if negb (advances stage) then ok tt
  else
    match markers mc with
    | AC_Durable | AC_Ordinary => replay_stored command stage
    | AC_Local => ok tt
    | AC_Unavailable => raise (CE_Marker Tags.Unsupported)
    end.
Definition replay_marker (command : MarkerCommand) (stage : MarkerReplay) : action ReplayOutcome :=
  ask M_Lane ;;;
  finally (ask M_Unlane)
    (live (
      let? _ := replay_advance command stage in
      live (
        let? _ := if notifies stage then publish_command (BC_Marker command) else ok tt in
        ok RO_Applied))).

(** *** Snapshots *)
Definition reacquire_marker_snapshot (work : MarkerSnapshotReplay) : action MarkerLease :=
  let acquire policy wrap :=
    let? _ := check in
    if negb (has_locker ci) then raise (CE_Lease UnsupportedFencing)
    else
      let? acquired := owned (ask (M_Acquire (marker_lease_key (replay_scope work) (replay_kind work))
                                     (EntryOptions.distributed_lock_timeout (replay_options work)) policy)) in
      match acquired with
      | Some lease => or_release (drop_lease (wrap lease)) check (λ _, ok (wrap lease))
      | None => raise (CE_Lease AcquisitionTimeout)
      end in
  match replay_participation work with
  | Unleased => ok ML_Unleased
  | Fenced => acquire LP_Fenced ML_Fenced
  | Cooperative => acquire LP_Cooperative ML_Cooperative
  end.

Definition marker_replay_effect (effect : EffectOutcome) : result CacheError ReplayOutcome :=
  match effect with
  | EF_Applied | EF_NotConfigured => Ok RO_Applied
  | EF_Skipped SK_PhysicallyExpired => Ok RO_Expired
  | EF_Skipped SK_Superseded => Ok RO_Paused
  | EF_Skipped SK_Policy => Ok RO_Superseded
  | EF_Batch _ | EF_RecoveryQueued _ | EF_FailedSuppressed _ => Err (CE_Recovery InvalidMarkerStage)
  end.

Definition replay_marker_snapshot (work : MarkerSnapshotReplay) : action ReplayOutcome :=
  if negb (CacheScope.eqb (replay_scope work) (scope ci)) then raise (CE_Recovery MarkerIdentityChanged)
  else if negb (marker_snapshot_provider mc) then raise (CE_Marker Tags.Unsupported)
  else
    let? lease := reacquire_marker_snapshot work in
    let* captured := tell C_Epoch in
    let commit := mkSnapshotCommit (replay_kind work) (replay_snapshot work) (replay_options work) captured lease LO_Admitted in
    ask M_Lane ;;;
    finally (ask M_Unlane)
      (let* current := ask M_IsCurrent in
       if negb (has_recovery ci && current) then
         finish_control_marker_lease ci mc (replay_kind work) lease (Ok RO_Superseded)
       else
         (* [?]: the commit is dropped with its lease *)
         or_release (drop_lease lease) replay_admitted (λ admitted,
         let* result :=
           if negb admitted then ok RO_Paused
           else
             let? effect := commit_control_snapshot ci mc commit WP_Replay in
             Ret (marker_replay_effect effect) in
         finish_control_marker_lease ci mc (replay_kind work) lease result)).

(** *** Invalidations *)
Definition advance_captured_marker (work : MarkerMutationRecovery) (snapshot : MarkerSnapshot) (options : EntryOptions)
    : action MarkerMutationRecovery :=
  let command := MarkerMutation.command work in
  let? outcome := write_marker_revision mc (cmd_scope command) (Tags.kind (cmd_marker command)) snapshot options in
  apply_marker (written_marker outcome) ;;;
  let? committed := marker_command ci (written_marker outcome) in
  let? additional :=
    match outcome with
    | MW_Written _ => ok []
    | MW_Compacted _ clear_remove =>
        let? clear := marker_command ci (mkStoredMarker MK_ClearRemove clear_remove) in
        apply_marker (cmd_marker clear) ;;; ok [clear]
    end in
  Ret (map_err CE_Recovery (MarkerMutation.population work committed additional)).

Definition is_superseded (t : RecoveryStageTransition) : bool := match t with ST_Superseded => true | _ => false end.
(** A stage transition of the ticket. *)
Definition population_stage {A} (work : MarkerMutationRecovery) (stopped : ReplayOutcome → action A) (k : action A) : action A :=
  let* transition := ask (M_PopulationStage work) in
  if is_superseded transition then stopped RO_Superseded else k.

Definition complete_inherited_compaction (parent : MarkerMutationRecovery) : action CompactionReplay :=
  let? next := Ret (map_err CE_Recovery (MarkerMutation.with_compaction parent None)) in
  population_stage next (λ outcome, ok (CR_Stopped outcome)) (ok (CR_Continued next)).

Definition notify_inherited (parent child : MarkerMutationRecovery) : action CompactionReplay :=
  let? _ := check in
  let* current := ask M_IsCurrent in
  if negb current then ok (CR_Stopped RO_Superseded)
  else
    let? admitted := replay_admitted in
    if negb admitted then ok (CR_Stopped RO_Paused)
    else
      let? _ := publish_command (BC_Marker (MarkerMutation.command child)) in
      complete_inherited_compaction parent.
(** A populated clear is complete, or keeps its publication. *)
Definition populated_inherited (parent child : MarkerMutationRecovery) (options : EntryOptions) : action CompactionReplay :=
  if EntryOptions.skip_backplane_notifications options then complete_inherited_compaction parent
  else
    let? notified := Ret (map_err CE_Recovery (MarkerMutation.notification child)) in
    let? parent := Ret (map_err CE_Recovery (MarkerMutation.with_compaction parent (Some notified))) in
    population_stage parent (λ outcome, ok (CR_Stopped outcome)) (notify_inherited parent child).
Definition replay_inherited_compaction (parent child : MarkerMutationRecovery) : action CompactionReplay :=
  match MarkerMutation.stage child with
  | MP_Advance _ _ => raise (CE_Recovery InvalidMarkerStage)
  | MP_Populate options snapshot _ =>
      let? effect := populate_marker_snapshot ci mc (MarkerMutation.command child) options (snap_created snapshot) WP_Replay in
      match effect with
      | EF_Skipped SK_Superseded => ok (CR_Stopped RO_Paused)
      | _ => populated_inherited parent child options
      end
  | MP_Notify _ => notify_inherited parent child
  end.

(** Each command of a stage while the ticket is live. *)
Fixpoint each_live (work : MarkerCommand → action (option ReplayOutcome)) (l : list MarkerCommand) (k : action ReplayOutcome)
    : action ReplayOutcome :=
  match l with
  | [] => k
  | command :: l =>
      let? _ := check in
      live (
        let? stopped := work command in
        match stopped with
        | Some outcome => ok outcome
        | None => each_live work l k
        end)
  end.
Definition populate_captured (options : EntryOptions) (snapshot : MarkerSnapshot) (command : MarkerCommand)
    : action (option ReplayOutcome) :=
  let? effect := populate_marker_snapshot ci mc command options (snap_created snapshot) WP_Replay in
  ok (match effect with EF_Skipped SK_Superseded => Some RO_Paused | _ => None end).
Definition publish_captured (command : MarkerCommand) : action (option ReplayOutcome) :=
  let? _ := publish_command (BC_Marker command) in ok None.

Definition finish_captured_marker (work : MarkerMutationRecovery) : action ReplayOutcome :=
  let command := MarkerMutation.command work in
  let publish additional := each_live publish_captured (command :: additional) (ok RO_Applied) in
  match MarkerMutation.stage work with
  | MP_Advance _ _ => raise (CE_Recovery InvalidMarkerStage)
  | MP_Notify additional => publish additional
  | MP_Populate options snapshot additional =>
      each_live (populate_captured options snapshot) (command :: additional) (
        if EntryOptions.skip_backplane_notifications options then ok RO_Applied
        else
          let* transition := ask M_NotificationStage in
          if is_superseded transition then ok RO_Superseded else publish additional)
  end.

(** A mutation that was not advanced yet is advanced; then its work is finished. *)
Definition replay_advanced (original : MarkerMutationRecovery) : action ReplayOutcome :=
  match MarkerMutation.stage original with
  | MP_Advance options snapshot =>
      let? advanced := advance_captured_marker original snapshot options in
      population_stage advanced ok (finish_captured_marker advanced)
  | MP_Populate _ _ _ | MP_Notify _ => finish_captured_marker original
  end.
Definition replay_marker_mutation (original : MarkerMutationRecovery) : action ReplayOutcome :=
  if negb (CacheScope.eqb (cmd_scope (MarkerMutation.command original)) (scope ci))
  then raise (CE_Recovery MarkerIdentityChanged)
  else if negb (has_recovery ci) then raise (CE_Recovery Recovery.Stopped)
  else
    ask M_Lane ;;;
    finally (ask M_Unlane)
      (live (
        let? _ := check in
        match MarkerMutation.pending_compaction original with
        | Some child =>
            let? inherited := replay_inherited_compaction original child in
            match inherited with
            | CR_Continued work => replay_advanced work
            | CR_Stopped outcome => ok outcome
            end
        | None => replay_advanced original
        end)).

(** ** Tickets *)
Definition replay_owned (work : RecoveryWork) : action ReplayOutcome :=
  if negb (has_recovery ci) then ok RO_Superseded
  else
    let? admitted := replay_admitted in
    if negb admitted then ok RO_Paused
    else
      match work with
      | RW_Data item mutation => replay_data item mutation
      | RW_MarkerMutation work => replay_marker_mutation work
      | RW_MarkerSnapshot work => replay_marker_snapshot work
      | RW_Marker command stage => replay_marker command stage
      end.

(** [RecoveryExecutor] of an open cache: an execution of its own. *)
Definition replay_ticket (work : RecoveryWork) : action ReplayOutcome := owned (replay_owned work).
Definition replay (item : RecoveryItem) : action unit := owned (replay_legacy item).
End replay.
