(* ===== verification/Replayed.v ===== *)
(** * What a replay may do

    The theory of [Replay.v] and of the commits of [Mutate.v]: a replay acts only
    on a ticket the queue still holds, while the cache is healthy and connected,
    under the lane of what it touches, and never over a newer value; and the work
    of a ticket that is answered as applied is done. *)
From Stdlib Require Init.Byte.
From S2P Require Import Prelude Time Calls Circuit Options Entry Tags Backplane Cancellation.
From S2P Require Import Invalidation Storage Lanes Wire Lease Recovery Observe Worker Write Control Markers Mutate Replay.
Open Scope prog_scope.

(** ** The state of a replay, read off its record *)

(** A lane: that of a value's key, or that of the markers. *)
Inductive Lane := LN_Value (key : string) | LN_Markers.
#[export] Instance Lane_eq_dec : EqDecision Lane.
Proof. solve_decision. Defined.
Record Status := mkStatus { st_current : bool; st_healthy : bool; st_connected : bool; st_lane : option Lane }.
#[export] Instance eta_Status : Eta Status := λ s, mkStatus (st_current s) (st_healthy s) (st_connected s) (st_lane s).

Section status.
Context {V : Type} (ci : Inner).
Implicit Types (h : chronicle V).
Local Abbreviation MEv c x := (Ev (ans := manswer (V := V)) c x).

(** The queue's last word on the ticket; the cache's on its health and its
    connection, since the queue was last asked; and the lane that is held. *)
Definition status_step (s : Status) (ev : event (manswer (V := V))) : Status :=
  match ev_call ev as c return manswer c → Status with
  | M_IsCurrent => λ x, mkStatus x false false (st_lane s)
  | M_NotificationStage | M_PopulationStage _ => λ x, if is_superseded x then s <| st_current := false |> else s
  | M_Worker C_Health => λ x, s <| st_healthy := match x with Ok _ => true | Err _ => false end |>
  | M_Connected => λ x, s <| st_connected := x |>
  | M_Worker (C_Lane key) => λ _, s <| st_lane := Some (LN_Value key) |>
  | M_Lane => λ _, s <| st_lane := Some LN_Markers |>
  | M_Worker (C_Unlane _) | M_Unlane => λ _, s <| st_lane := None |>
  | _ => λ _, s
  end (ev_answer ev).
Fixpoint status h : Status :=
  match h with [] => mkStatus false false false None | ev :: h => status_step (status h) ev end.
Definition live_at h : Prop :=
  st_current (status h) = true ∧ st_healthy (status h) = true ∧ (has_backplane ci = true → st_connected (status h) = true).
Definition held (lane : Lane) h : Prop := st_lane (status h) = Some lane.

(** Accesses that change none of it. *)
Definition steady (c : MCall V) : bool :=
  match c with
  | M_IsCurrent | M_NotificationStage | M_PopulationStage _ | M_Connected | M_Lane | M_Unlane => false
  | M_Worker (C_Health | C_Lane _ | C_Unlane _) => false
  | _ => true
  end.
(** Accesses whose effect others see: writes to a provider, and publications. *)
Definition value_write (c : MCall V) : bool :=
  match c with M_Worker (C_BackendSet _ _ _ | C_BackendRemove _ | C_WriteWithLease _ _ _) => true | _ => false end.
Definition is_effect (c : MCall V) : bool :=
  match c with
  | M_AdvanceStore _ _ _ | M_WriteBytes _ _ _ | M_Renew _ _ _ _ | M_Worker (C_Publish _) => true
  | c => value_write c
  end.
Definition takes_lane (c : MCall V) : option Lane :=
  match c with M_Worker (C_Lane key) => Some (LN_Value key) | M_Lane => Some LN_Markers | _ => None end.
Definition gives_lane (c : MCall V) : option Lane :=
  match c with M_Worker (C_Unlane key) => Some (LN_Value key) | M_Unlane => Some LN_Markers | _ => None end.

(** Effects happen under [lane], the only one that is taken, and given back in
    turn. *)
Definition laned (lane : Lane) h (c : MCall V) : Prop :=
  (is_effect c = true → held lane h) ∧
  (∀ l, takes_lane c = Some l → l = lane ∧ st_lane (status h) = None) ∧
  (∀ l, gives_lane c = Some l → l = lane ∧ held lane h).

(** What a write of a value needs: the stored one was read and is not newer. *)
Definition not_newer h (key : string) (at_ : Timestamp) : Prop :=
  MEv (M_Worker (C_BackendGet (l2_key ci key))) (Ok None) ∈ h ∨
  ∃ bytes snapshot, MEv (M_Worker (C_BackendGet (l2_key ci key))) (Ok (Some bytes)) ∈ h ∧
    MEv (M_Worker (C_Decode bytes)) (Ok snapshot) ∈ h ∧ created_ticks (entry snapshot) ≤ at_.
Definition physical_of (c : MCall V) : option string :=
  match c with
  | M_Worker (C_BackendSet physical _ _ | C_BackendRemove physical | C_WriteWithLease physical _ _) => Some physical
  | _ => None
  end.

(** What a replay may do after [h]; [item] is that of a value's work, whose lane
    is its key's. *)
Definition lane_for (item : option RecoveryItem) : Lane :=
  match item with Some i => LN_Value (item_key i) | None => LN_Markers end.
Definition replaying (item : option RecoveryItem) h (c : MCall V) : Prop :=
  laned (lane_for item) h c ∧ (is_effect c = true → live_at h) ∧
  ∀ physical, physical_of c = Some physical →
    ∃ i, item = Some i ∧ physical = l2_key ci (item_key i) ∧ not_newer h (item_key i) (item_timestamp i).

Lemma steady_step s ev : steady (ev_call ev) = true → status_step s ev = s.
Proof. destruct ev as [c x]. by destruct c as [[]| | | | | | | | | | | | | | | | | | | | | | | | | | | | | | | | | | | | | |]. Qed.
Lemma quiet_steady (c : MCall V) : quiet c = true → steady c = true ∧ is_effect c = false.
Proof. by destruct c as [[]| | | | | | | | | | | | | | | | | | | | | | | | | | | | | | | | | | | | | |]. Qed.
Lemma steady_lanes c : steady c = true → takes_lane c = None ∧ gives_lane c = None.
Proof. by destruct c as [[]| | | | | | | | | | | | | | | | | | | | | | | | | | | | | | | | | | | | | |]. Qed.
Lemma live_same h h' : status h' = status h → live_at h → live_at h'.
Proof. unfold live_at. by intros ->. Qed.
Lemma held_same lane h h' : status h' = status h → held lane h → held lane h'.
Proof. unfold held. by intros ->. Qed.
Lemma not_newer_incl h h' key at_ : h ⊆ h' → not_newer h key at_ → not_newer h' key at_.
Proof. unfold not_newer. naive_solver. Qed.
Lemma effect_free c : is_effect c = false → physical_of c = None.
Proof. by destruct c as [[]| | | | | | | | | | | | | | | | | | | | | | | | | | | | | | | | | | | | | |]. Qed.

(** *** Steady programs *)
Context (J : chronicle V → MCall V → Prop).

(** [P]: the accesses of the program; they are justified wherever the status is
    that of the start. *)
Lemma ensures_steady {A} (P : MCall V → bool) (p : prog (manswer (V := V)) A) h :
  (∀ c, P c = true → steady c = true) →
  (∀ h' c, h ⊆ h' → status h' = status h → P c = true → J h' c) →
  only (λ c, P c = true) p → ensures J p h (λ _ h', status h' = status h).
Proof.
  intros HP. enough (∀ h1, h1 ⊆ h → ∀ s, status h = s → (∀ h' c, h1 ⊆ h' → status h' = s → P c = true → J h' c) →
    only (λ c, P c = true) p → ensures J p h (λ _ h', status h' = s)) as H by (intros HJ; by apply (H h)).
  induction p as [a|c k IH] in h |- *; intros h1 H1 s Hs HJ; [done|]. intros [Hc Hk]. split; [by apply HJ|].
  intros x. apply IH with h1; [| |done|done].
  - unfold record. destruct (negb _); [by apply list_subseteq_cons|done].
  - unfold record. destruct (negb _); [|done]. cbn [status]. rewrite steady_step; [done|]. by apply HP.
Qed.
End status.

Lemma ensures_and {V A} J J' (p : prog (manswer (V := V)) A) h (Q Q' : A → chronicle V → Prop) :
  ensures J p h Q → ensures J' p h Q' → ensures J p h (λ a h', Q a h' ∧ Q' a h').
Proof. revert h. induction p as [a|c k IH]; intros h; [by split|]. intros [Hc Hk] [_ Hk']. split; [done|]. intros x. by apply IH. Qed.

(** ** Replays *)
Section replays.
Context {V : Type} (ci : Inner) (mc : MarkerConfig) (item : option RecoveryItem).
Implicit Types (h : chronicle V).
Local Abbreviation prog := (prog (manswer (V := V))).
Local Abbreviation MEv c x := (Ev (ans := manswer (V := V)) c x).
Local Abbreviation J := (replaying (V := V) ci item).
Local Abbreviation acts p h Q := (ensures J p h Q).
Local Abbreviation held := (held (lane_for item)).

(** Steady accesses without effects are always possible; those with one, but
    for the writes of values, while the ticket is live and the lane held. *)
Definition inert (c : MCall V) : bool := steady c && negb (is_effect c).
Definition calm (c : MCall V) : bool := steady c && negb (value_write c).
(** Writes of this value. *)
Definition on_key (key : string) (c : MCall V) : bool :=
  steady c && from_option (λ physical, bool_decide (physical = l2_key ci key)) true (physical_of c).

Lemma acting_inert h c : inert c = true → J h c.
Proof.
  intros [Hs He%negb_true_iff]%andb_true_iff. destruct (steady_lanes c Hs) as [Hl Hu].
  split_and!; [unfold laned; rewrite He, Hl, Hu; by split_and!|by rewrite He|]. by rewrite effect_free.
Qed.
Lemma acts_inert {A} (p : prog A) h : only (λ c, inert c = true) p → acts p h (λ _ h', status h' = status h).
Proof.
  apply (ensures_steady J inert); [by intros c [? _]%andb_true_iff|]. intros h' c _ _. apply acting_inert.
Qed.
Lemma acts_calm {A} (p : prog A) h :
  held h → live_at ci h → only (λ c, calm c = true) p → acts p h (λ _ h', status h' = status h).
Proof.
  intros Hh Hl. apply (ensures_steady J calm); [by intros c [? _]%andb_true_iff|].
  intros h' c _ Hst [Hs Hv%negb_true_iff]%andb_true_iff. destruct (steady_lanes c Hs) as [Hlane Hu]. split_and!.
  - unfold laned. rewrite Hlane, Hu. split_and!; [|done|done]. intros _. by eapply held_same.
  - intros _. by eapply live_same.
  - intros physical Hp. by destruct c as [[]| | | | | | | | | | | | | | | | | | | | | | | | | | | | | | | | | | | | | |].
Qed.
Lemma acts_on_key {A} (p : prog A) h i :
  item = Some i → held h → live_at ci h → not_newer ci h (item_key i) (item_timestamp i) →
  only (λ c, on_key (item_key i) c = true) p → acts p h (λ _ h', status h' = status h).
Proof.
  intros Hi Hh Hl Hn. apply (ensures_steady J (on_key (item_key i))); [by intros c [? _]%andb_true_iff|].
  intros h' c Hincl Hst [Hs Hp]%andb_true_iff. destruct (steady_lanes c Hs) as [Hlane Hu]. split_and!.
  - unfold laned. rewrite Hlane, Hu. split_and!; [|done|done]. intros _. by eapply held_same.
  - intros _. by eapply live_same.
  - intros physical Hphys. rewrite Hphys in Hp. cbn in Hp. apply bool_decide_eq_true in Hp. exists i. split_and!; [done..|].
    by eapply not_newer_incl.
Qed.
Lemma acting_quiet h c : quiet c = true → J h c.
Proof. intros [Hs He]%quiet_steady. apply acting_inert. unfold inert. by rewrite Hs, He. Qed.

Ltac inert_step := first [progress (apply only_lifted) | only_step].
Ltac inert := apply acts_inert; repeat inert_step.
(** One access without effect. *)
Tactic Notation "reads" ident(x) :=
  cbn [bind call ensures]; split; [by apply acting_inert|]; intros x; cbn [record quiet is_budget negb].

(** A ticket that is live, for what it does next. *)
Lemma acting_neutral h c : is_effect c = false → takes_lane c = None → gives_lane c = None → J h c.
Proof.
  intros He Hl Hu. split_and!; [unfold laned; rewrite He, Hl, Hu; by split_and!|by rewrite He|]. by rewrite effect_free.
Qed.
Lemma acts_admitted h :
  acts (replay_admitted ci) h (λ r h', st_lane (status h') = st_lane (status h) ∧
    st_current (status h') = st_current (status h) ∧
    (r = Ok true → st_healthy (status h') = true ∧ (has_backplane ci = true → st_connected (status h') = true))).
Proof.
  unfold replay_admitted. cbn [bind call ensures attempt]. split; [by apply acting_neutral|].
  intros [[]|e]; cbn [record quiet is_budget negb]; [|by cbn]. destruct (has_backplane ci) eqn:Hb; [|by cbn].
  cbn [bind call ensures]. split; [by apply acting_neutral|]. intros connected. cbn. split_and!; [done..|]. by intros [= ->].
Qed.
Lemma acts_live (k : prog (result CacheError ReplayOutcome)) h (Q : result CacheError ReplayOutcome → chronicle V → Prop) :
  (∀ r h', h ⊆ h' → st_lane (status h') = st_lane (status h) → r ≠ Ok RO_Applied → r ≠ Ok RO_Expired → Q r h') →
  (∀ h', h ⊆ h' → st_lane (status h') = st_lane (status h) → live_at ci h' → acts k h' Q) →
  acts (live ci k) h Q.
Proof.
  intros Hstop Hk. unfold live. cbn [bind call ensures]. split; [by apply acting_neutral|]. intros current.
  cbn [record quiet is_budget negb]. destruct current; cbn [negb].
  2: { apply Hstop; [by apply list_subseteq_cons|done..]. }
  eapply ensures_attempt; [apply acts_admitted| |].
  - intros e h1 H1 [Hl _]. apply Hstop; [by etrans; [apply list_subseteq_cons|]|done..].
  - intros admitted h1 H1 (Hl & Hc & Ha). assert (h ⊆ h1) by (by etrans; [apply list_subseteq_cons|]).
    destruct admitted; cbn [negb]; [|by apply Hstop]. destruct (Ha eq_refl) as [Hh Hcon].
    apply Hk; [done|done|]. by split_and!.
Qed.

(** *** What was done *)
Local Abbreviation fine p h Q := (ensures (λ _ _, True) p h Q).
Ltac idle := apply ensures_only; eapply only_mono with (P := λ _, True); [repeat inert_step|by intros; exact I].

Definition published h (command : BackplaneCommand) : Prop :=
  has_backplane ci = true → MEv (M_Worker (C_Publish command)) (Ok tt) ∈ h.
Definition expired_by_now h (data : DataMutation) : Prop :=
  ∃ at_, MEv (M_Worker C_Now) at_ ∈ h ∧ from_option is_zero false (remaining_ttl data at_) = true.
(** The provider acknowledged the write, of the lease's holder if [fenced], or
    its time was over. *)
Definition write_acknowledged h (fenced : bool) (key : string) (data : DataMutation) : Prop :=
  let physical := l2_key ci key in
  if fenced then
    ∃ proof, match data with
             | DM_Set bytes _ | DM_Expire bytes _ =>
                 ∃ ttl, MEv (M_Worker (C_WriteWithLease physical (LM_Set bytes ttl) proof)) (Ok Committed) ∈ h
             | DM_Remove => MEv (M_Worker (C_WriteWithLease physical LM_Remove proof)) (Ok Committed) ∈ h
             end
  else
    match data with
    | DM_Set bytes _ | DM_Expire bytes _ => ∃ ttl, MEv (M_Worker (C_BackendSet physical bytes ttl)) (Ok tt) ∈ h
    | DM_Remove => MEv (M_Worker (C_BackendRemove physical)) (Ok tt) ∈ h
    end.
Definition written h (fenced : bool) (key : string) (data : DataMutation) : Prop :=
  is_hybrid (storage ci) = false ∨ expired_by_now h data ∨ write_acknowledged h fenced key data.
(** The stored value was absent or given the deadline. *)
Definition deadline_written h (key : string) (logical : Timestamp) : Prop :=
  is_hybrid (storage ci) = false ∨ MEv (M_Worker (C_BackendGet (l2_key ci key))) (Ok None) ∈ h ∨
  ∃ bytes snapshot expired bytes',
    MEv (M_Worker (C_BackendGet (l2_key ci key))) (Ok (Some bytes)) ∈ h ∧
    MEv (M_Worker (C_Decode bytes)) (Ok snapshot) ∈ h ∧ created_ticks (entry snapshot) ≤ logical ∧
    expired_copy snapshot logical = Ok expired ∧ MEv (M_Worker (C_Encode expired)) (Ok bytes') ∈ h ∧
    written h false key (DM_Expire bytes' (physical_expiration_ticks (entry expired))).
Definition data_stored h (key : string) (mutation : PendingMutation) : Prop :=
  match mutation with
  | PM_Commit data _ => written h false key data
  | PM_FencedCommit data _ => written h true key data
  | PM_ColdExpire logical _ => deadline_written h key logical
  | PM_Notify _ | PM_Legacy => True
  end.
Definition notification_of (mutation : PendingMutation) : option BackplaneCommand :=
  match mutation with
  | PM_Commit _ notification | PM_FencedCommit _ notification | PM_ColdExpire _ notification => notification
  | PM_Notify command => Some command
  | PM_Legacy => None
  end.

Lemma written_incl h h' fenced key data : h ⊆ h' → written h fenced key data → written h' fenced key data.
Proof.
  unfold written, expired_by_now, write_acknowledged. intros Hh [|[|Hw]]; [by left|naive_solver|]. right; right.
  destruct fenced, data; naive_solver.
Qed.
Lemma data_stored_incl h h' key mutation : h ⊆ h' → data_stored h key mutation → data_stored h' key mutation.
Proof.
  intros Hh. destruct mutation as [|data n|data n|logical n|c]; cbn; try done; try by apply written_incl.
  intros [|[|(bytes & s & e & bytes' & ? & ? & ? & ? & ? & Hw)]]; [by left|right; left; by apply Hh|]. right; right.
  exists bytes, s, e, bytes'. split_and!; eauto using written_incl.
Qed.
Lemma published_incl h h' command : h ⊆ h' → published h command → published h' command.
Proof. unfold published. auto. Qed.

Lemma fine_codec {A} (c : Call V) (work : Calls.prog (answer (V := V)) (result CacheError A)) h (P : A → chronicle V → Prop) :
  (∀ h, fine (lift work) h (λ r h', ∀ a, r = Ok a → P a h')) → (∀ a h h', h ⊆ h' → P a h → P a h') →
  fine (lift (codec work)) h (λ r h', ∀ a, r = Ok a → P a h').
Proof.
  intros Hw HP. unfold codec. apply ensures_lift_bind.
  assert (∀ h, fine (lift (Worker.check (V := V))) h (λ _ _, True)) as Hcheck by (intros; idle).
  eapply ensures_use; [apply Hcheck|]. intros [[]|e] h1 H1 _; [|done]. apply ensures_lift_bind.
  eapply ensures_use; [apply Hw|]. intros r h2 H2 Hr. apply ensures_lift_bind.
  eapply ensures_use; [apply Hcheck|]. intros [[]|e] h3 H3 _; [|done]. cbn. intros a ->. by eauto.
Qed.
Lemma fine_decode bytes h :
  fine (lift (decode bytes)) h (λ r h', ∀ s, r = Ok s → MEv (M_Worker (C_Decode bytes)) (Ok s) ∈ h').
Proof.
  apply (fine_codec (C_Decode bytes) _ _ (λ s h, MEv (M_Worker (C_Decode bytes)) (Ok s) ∈ h)); [|by auto].
  intros h1. cbn. split; [done|]. intros r s ->. left.
Qed.
Lemma fine_encode s h :
  fine (lift (encode s)) h (λ r h', ∀ bytes, r = Ok bytes → MEv (M_Worker (C_Encode s)) (Ok bytes) ∈ h').
Proof.
  apply (fine_codec (C_Encode s) _ _ (λ bytes h, MEv (M_Worker (C_Encode s)) (Ok bytes) ∈ h)); [|by auto].
  intros h1. cbn. split; [done|]. intros r bytes ->. left.
Qed.
Definition flight_of (mutation : PendingMutation) (flight : option FlightGuard) : Prop :=
  if is_fenced_commit mutation then ∃ lease, flight = Some (mkFlight ReplayOnly (CP_Fenced lease)) else flight = None.
Lemma fine_write_data key data flight (fenced : bool) h :
  (if fenced then ∃ lease, flight = Some (mkFlight ReplayOnly (CP_Fenced lease)) else flight = None) →
  fine (lift (write_data ci key data flight)) h (λ r h', ∀ o, r = Ok o → written h' fenced key data).
Proof.
  intros Hf. unfold write_data. destruct (is_hybrid (storage ci)) eqn:Hh; cbn [negb]; [|intros o _; by left].
  cbn [lift bind call ensures]. split; [done|]. intros at_. cbn [record quiet is_budget negb].
  destruct (from_option is_zero false (remaining_ttl data at_)) eqn:Hz.
  { assert (match remaining_ttl data at_ with Some ttl => is_zero ttl | None => false end = true) as -> by (by destruct (remaining_ttl data at_)).
    intros o _. right; left. exists at_. split; [left|done]. }
  assert (match remaining_ttl data at_ with Some ttl => is_zero ttl | None => false end = false) as -> by (by destruct (remaining_ttl data at_)).
  set (ttl := remaining_ttl data at_). apply ensures_lift_bind.
  eapply ensures_use with (P := λ r _, ∀ proved, r = Ok proved → if fenced then is_Some proved else proved = None).
  { unfold flight_proof. destruct fenced; [destruct Hf as [lease ->]|subst flight]; [|by intros proved [= <-]].
    cbn. split; [done|]. by intros [proof|e] proved [= <-]. }
  intros [proved|e] h1 H1 Hp; [|done]. specialize (Hp proved eq_refl). apply ensures_lift_bind.
  eapply ensures_use with (P := λ r h', r = Ok tt → write_acknowledged h' fenced key data).
  - unfold provider_write, write_acknowledged. destruct fenced; [destruct Hp as [proof ->]|subst proved].
    + cbn. split; [done|]. intros [[]|e]; cbn; try done. intros _. exists proof. destruct data; eauto using list_elem_of_here.
    + destruct data; cbn; (split; [done|]); intros [[]|e]; cbn; try done; intros _; eauto using list_elem_of_here.
  - intros [[]|e] h2 H2 Hw; [|done]. eapply ensures_mono; [idle|]. intros r h3 H3 _ o _.
    eapply written_incl; [exact H3|]. right; right. by apply Hw.
Qed.

(** *** The stages of a value's replay *)
Lemma held_lane h h' : st_lane (status h') = st_lane (status h) → held h → held h'.
Proof. intros Hl Hh. red. by rewrite Hl. Qed.
Lemma status_lane h h' : status h' = status h → st_lane (status h') = st_lane (status h).
Proof. by intros ->. Qed.

Lemma inert_markers tags h :
  acts (reconcile_markers ci mc tags None) h (λ _ h', status h' = status h).
Proof.
  apply acts_inert.
  assert (∀ l, only (λ c, inert c = true) (apply_markers (V := V) l)) as Hl.
  { induction l as [|m l IH]; [done|]. apply only_bind; [repeat inert_step|done]. }
  unfold reconcile_markers. destruct (disable_tagging ci), (markers mc); try done. apply only_attempt; [done|]. intros clear.
  case_match; [done|]. apply only_bind; [repeat inert_step|]. intros immediate. apply only_bind; [by destruct immediate; repeat inert_step|].
  intros [l|e]; [|done]. apply only_bind; [apply Hl|done].
Qed.
Lemma inert_captured bytes h :
  acts (captured_entry (V := V) bytes) h (λ _ h', status h' = status h).
Proof. unfold captured_entry, now. inert. Qed.
Lemma inert_tags e h : acts (lift (evaluate_tags ci e)) h (λ _ h', status h' = status h).
Proof. inert. Qed.
Lemma inert_decode bytes h : acts (lift (decode (V := V) bytes)) h (λ _ h', status h' = status h).
Proof. unfold decode. inert. Qed.
Lemma inert_encode s h : acts (lift (encode (V := V) s)) h (λ _ h', status h' = status h).
Proof. unfold encode. inert. Qed.

Lemma acts_reconcile i mutation h :
  acts (reconcile_replay ci mc i mutation) h (λ r h', status h' = status h ∧ r ≠ Ok RO_Expired ∧
    (r = Ok RO_Applied → is_hybrid (storage ci) = true → not_newer ci h' (item_key i) (item_timestamp i))).
Proof.
  unfold reconcile_replay. destruct (is_hybrid (storage ci)) eqn:Hh; cbn [negb]; [|done].
  apply ensures_attempt with (P := λ r h', status h' = status h ∧ ∀ found, r = Ok found →
    MEv (M_Worker (C_BackendGet (l2_key ci (item_key i)))) (Ok found) ∈ h').
  { reads found. split; [done|]. intros ? ->. left. }
  { by intros e h' _ [? _]. }
  intros current h1 H1 [Hs1 Hget].
  apply ensures_attempt with (P := λ r h', status h' = status h ∧
    (r = Ok false → not_newer ci h' (item_key i) (item_timestamp i))).
  { destruct current as [bytes|]; [|split; [done|]; intros _; left; by apply Hget].
    eapply ensures_attempt; [eapply ensures_and; [apply inert_decode|apply fine_decode]|by intros e h' _ [-> _]|].
    intros s h2 H2 [Hs2 Hd]. split; [by rewrite Hs2|]. intros [= Hlt%Z.ltb_ge]. right. exists bytes, s.
    split_and!; [apply H2; by apply Hget|by apply Hd|done]. }
  { by intros e h' _ [? _]. }
  intros superseded h2 H2 [Hs2 Hn]. destruct superseded; [done|]. specialize (Hn eq_refl).
  eapply ensures_attempt with (P := λ _ h', status h' = status h); [|by intros|].
  { destruct (captured_bytes mutation) as [bytes|]; [|done].
    eapply ensures_attempt; [apply inert_captured|by intros e h' _ ->|]. intros e h' _ Hs. cbn. by rewrite Hs. }
  intros source h3 H3 Hs3. eapply ensures_attempt; [apply inert_markers|by intros e h' _ ->|]. intros [] h4 H4 Hs4.
  eapply ensures_use with (P := λ _ h', status h' = status h).
  { destruct source as [e|]; [|cbn; by rewrite Hs4]. eapply ensures_use; [apply inert_tags|]. intros verdict h' _ Hs. cbn. by rewrite Hs, Hs4. }
  intros valid h5 H5 Hs5. cbn. split_and!; [done|by destruct valid|]. intros _ _. eapply not_newer_incl; [|exact Hn]. by do 2 etrans.
Qed.

(** Only accesses on the key's own stored value. *)
Ltac key_step :=
  match goal with
  | |- only _ (call _) => split; [by cbn; rewrite ?bool_decide_eq_true_2 by done|intros ?; exact I]
  | |- only _ (Act _ _) => split; [by cbn; rewrite ?bool_decide_eq_true_2 by done|intros ?]
  | _ => inert_step
  end.
Lemma on_key_write_data key data flight : only (λ c, on_key key c = true) (lift (write_data ci key data flight)).
Proof. apply only_lifted. unfold write_data, provider_write. repeat key_step. Qed.
Lemma on_key_legacy i : only (λ c, on_key (item_key i) c = true) (replay_legacy ci i).
Proof. unfold replay_legacy, encode, now. repeat key_step. Qed.
Lemma on_key_expire key logical : only (λ c, on_key key c = true) (expire_current ci key logical).
Proof.
  unfold expire_current, decode, encode. case_match; [done|].
  apply only_attempt; [repeat key_step|]. intros [bytes|]; [|done]. apply only_attempt; [repeat key_step|]. intros s.
  case_match; [done|]. apply only_attempt; [done|]. intros e. apply only_attempt; [repeat key_step|]. intros bytes'.
  apply only_attempt; [apply on_key_write_data|done].
Qed.
Lemma fine_expire key logical h :
  fine (expire_current ci key logical) h (λ r h', r ≠ Ok RO_Expired ∧ (r = Ok RO_Applied → deadline_written h' key logical)).
Proof.
  unfold expire_current. destruct (is_hybrid (storage ci)) eqn:Hh; cbn [negb]; [|split; [done|]; intros _; by left].
  apply ensures_attempt with (P := λ r h', ∀ found, r = Ok found → MEv (M_Worker (C_BackendGet (l2_key ci key))) (Ok found) ∈ h').
  { cbn. split; [done|]. intros r found ->. left. }
  { done. }
  intros [bytes|] h1 H1 Hget; [|split; [done|]; intros _; right; left; by apply Hget]. specialize (Hget _ eq_refl).
  eapply ensures_attempt; [apply fine_decode|done|]. intros s h2 H2 Hd. specialize (Hd s eq_refl).
  destruct (logical <? created_ticks (entry s)) eqn:Hlt; [done|]. apply Z.ltb_ge in Hlt.
  destruct (expired_copy s logical) as [expired|] eqn:He; [|done]. cbn [map_err attempt bind].
  eapply ensures_attempt; [apply fine_encode|done|]. intros bytes' h3 H3 Hb. specialize (Hb bytes' eq_refl).
  eapply ensures_attempt; [by apply (fine_write_data _ _ _ false)|done|]. intros o h4 H4 Hw. split; [done|]. intros _.
  right; right. exists bytes, s, expired, bytes'. split_and!; [..|by eapply Hw]; auto.
Qed.

Lemma acts_value {A} (p : prog A) h i :
  item = Some i → held h → live_at ci h →
  (is_hybrid (storage ci) = true → not_newer ci h (item_key i) (item_timestamp i)) →
  (is_hybrid (storage ci) = false → ∃ a, p = Ret a) →
  only (λ c, on_key (item_key i) c = true) p → acts p h (λ _ h', status h' = status h).
Proof.
  intros Hi Hh Hl Hn Hret Hp. destruct (is_hybrid (storage ci)); [by eapply acts_on_key; eauto|].
  by destruct (Hret eq_refl) as [a ->].
Qed.
Lemma acts_stage_notification notification h :
  acts (stage_notification notification) h (λ _ h', st_lane (status h') = st_lane (status h)).
Proof.
  unfold stage_notification. destruct notification; [|done]. cbn [bind call ensures]. split; [by apply acting_neutral|].
  intros t. cbn. by destruct (is_superseded t).
Qed.

(** The stage of the mutation itself. *)
Definition staged_well h (key : string) (mutation : PendingMutation) (r : result CacheError (ReplayOutcome + option BackplaneCommand))
    : Prop :=
  match r with
  | Ok (inl outcome) => outcome ≠ RO_Applied
  | Ok (inr command) => command = notification_of mutation ∧ data_stored h key mutation
  | Err _ => True
  end.
Lemma acts_staged key mutation h :
  data_stored h key mutation →
  acts (stage_notification (notification_of mutation) ;;; ok (inr (notification_of mutation))) h (λ r h',
    st_lane (status h') = st_lane (status h) ∧ staged_well h' key mutation r).
Proof.
  intros Hd. eapply ensures_use; [apply acts_stage_notification|]. intros [] h' Hh Hlane. split; [done|]. split; [done|].
  by eapply data_stored_incl.
Qed.
Lemma acts_write i data flight (fenced : bool) h :
  item = Some i → held h → live_at ci h →
  (is_hybrid (storage ci) = true → not_newer ci h (item_key i) (item_timestamp i)) →
  (if fenced then ∃ lease, flight = Some (mkFlight ReplayOnly (CP_Fenced lease)) else flight = None) →
  acts (lift (write_data ci (item_key i) data flight)) h (λ r h', status h' = status h ∧
    ∀ o, r = Ok o → written h' fenced (item_key i) data).
Proof.
  intros Hi Hh Hl Hn Hf. eapply ensures_and; [eapply acts_value with (i := i); try done; [|apply on_key_write_data]|
    by apply fine_write_data].
  intros Hno. unfold write_data. rewrite Hno. by eexists.
Qed.
Lemma acts_stage i mutation flight h :
  item = Some i → held h → live_at ci h → flight_of mutation flight →
  (is_hybrid (storage ci) = true → not_newer ci h (item_key i) (item_timestamp i)) →
  acts (replay_stage ci i mutation flight) h (λ r h', st_lane (status h') = st_lane (status h) ∧
    staged_well h' (item_key i) mutation r).
Proof.
  intros Hi Hh Hl Hf Hn.
  assert (∀ h', h ⊆ h' → is_hybrid (storage ci) = true → not_newer ci h' (item_key i) (item_timestamp i)) as Hn'.
  { intros h' Hh' Hhy. eapply not_newer_incl; [exact Hh'|by apply Hn]. }
  destruct mutation as [|data n|data n|logical n|c]; cbn [replay_stage].
  - eapply ensures_attempt; [eapply acts_value with (i := i); try done; [|apply on_key_legacy]|by intros e h1 _ ->|].
    + intros Hno. unfold replay_legacy. rewrite Hno. by eexists.
    + intros [] h1 H1 Hs. cbn. by rewrite Hs.
  - unfold now. reads at_. case_match; [done|].
    eapply ensures_attempt; [eapply (acts_write _ _ _ false); try done; by eapply Hn', list_subseteq_cons|by intros e h1 _ [-> _]|].
    intros o h1 H1 [Hs Hw]. eapply ensures_mono; [apply (acts_staged (item_key i) (PM_Commit data n)); by eapply Hw|].
    intros r h2 _ [Hl2 Hst]. split; [by rewrite Hl2, Hs|done].
  - unfold now. reads at_. case_match; [done|].
    eapply ensures_attempt; [eapply (acts_write _ _ _ true); try done; by eapply Hn', list_subseteq_cons|by intros e h1 _ [-> _]|].
    intros o h1 H1 [Hs Hw]. eapply ensures_mono; [apply (acts_staged (item_key i) (PM_FencedCommit data n)); by eapply Hw|].
    intros r h2 _ [Hl2 Hst]. split; [by rewrite Hl2, Hs|done].
  - eapply ensures_attempt; [eapply ensures_and; [eapply acts_value with (i := i); try done; [|apply on_key_expire]|apply fine_expire]| |].
    + intros Hno. unfold expire_current. rewrite Hno. by eexists.
    + intros e h1 H1 [Hs _]. by rewrite Hs.
    + intros outcome h1 H1 (Hs & _ & Hd). rewrite <- Hs. destruct outcome; try done.
      apply (acts_staged (item_key i) (PM_ColdExpire logical n)). by apply Hd.
  - done.
Qed.
Lemma acts_publish command h :
  held h → live_at ci h →
  acts (publish_command ci command) h (λ r h', status h' = status h ∧ (r = Ok tt → published h' command)).
Proof.
  intros Hh Hl. unfold publish_command. destruct (has_backplane ci) eqn:Hb.
  2: { cbn. split; [done|]. unfold published. by rewrite Hb. }
  eapply ensures_and; [apply acts_calm; [done|done|repeat inert_step]|].
  instantiate (1 := λ _ _, True). cbn. split; [done|]. intros [[]|e]; [|done]. cbn [attempt bind].
  eapply ensures_use; [idle|]. intros _ h1 H1 _ _ _. apply H1. left.
Qed.

(** *** A value's replay *)
Definition work_done h (i : RecoveryItem) (mutation : PendingMutation) : Prop :=
  data_stored h (item_key i) mutation ∧ ∀ command, notification_of mutation = Some command → published h command.
Lemma acts_mutation i mutation flight h :
  item = Some i → flight_of mutation flight → held h →
  acts (replay_mutation ci mc i mutation flight) h (λ r h', held h' ∧ (r = Ok RO_Applied → work_done h' i mutation)).
Proof.
  intros Hi Hf Hh. apply acts_live; [intros r h1 H1 Hl1 Hr _; split; [by eapply held_lane|done]|]. intros h3 H3 Hl3 Hlive3.
  assert (held h3) as Hh3 by (by eapply held_lane).
  eapply ensures_attempt; [apply acts_reconcile|intros e h4 _ [Hs _]; split; [by eapply held_same|done]|].
  intros reconciled h4 H4 (Hs4 & Hne & Hn). assert (held h4) as Hh4 by (by eapply held_same).
  destruct reconciled; cbn [is_applied negb]; try done. specialize (Hn eq_refl).
  apply acts_live; [intros r h5 H5 Hl5 Hr _; split; [by eapply held_lane|done]|]. intros h5 H5 Hl5 Hlive5.
  assert (held h5) as Hh5 by (by eapply held_lane).
  eapply ensures_attempt; [apply acts_stage; try done; intros; eapply not_newer_incl; [exact H5|by apply Hn]| |].
  { intros e h6 _ [Hl6 _]. split; [by eapply held_lane|done]. }
  intros staged h6 H6 [Hl6 Hst]. assert (held h6) as Hh6 by (by eapply held_lane).
  destruct staged as [outcome|command]; [cbn in Hst |- *; split; [done|]; by intros [= ->]|]. destruct Hst as [-> Hd].
  apply acts_live; [intros r h7 H7 Hl7 Hr _; split; [by eapply held_lane|done]|]. intros h7 H7 Hl7 Hlive7.
  assert (held h7) as Hh7 by (by eapply held_lane).
  apply ensures_attempt with (P := λ r h', held h' ∧ (r = Ok tt → ∀ command, notification_of mutation = Some command → published h' command)).
  { destruct (notification_of mutation) as [command|]; [|by cbn].
    eapply ensures_mono; [by apply acts_publish|]. intros r h8 H8 [Hs8 Hp]. split; [by eapply held_same|].
    intros Hr command' [= <-]. by apply Hp. }
  { by intros e h8 _ [? _]. }
  intros [] h8 H8 [Hh8 Hp]. cbn. split; [done|]. intros _. split; [|by apply Hp].
  eapply data_stored_incl; [|exact Hd]. by etrans.
Qed.
Lemma work_done_incl h h' i mutation : h ⊆ h' → work_done h i mutation → work_done h' i mutation.
Proof.
  intros Hh [Hd Hp]. split; [by eapply data_stored_incl|]. intros command Hc. eapply published_incl; [done|]. by apply Hp.
Qed.
Lemma acting_lane i h : item = Some i → st_lane (status h) = None → J h (M_Worker (C_Lane (item_key i))).
Proof. intros -> Hl. split_and!; [split_and!; [done| |done]|done..]. by intros l [= <-]. Qed.
Lemma acting_unlane i h : item = Some i → held h → J h (M_Worker (C_Unlane (item_key i))).
Proof. intros -> Hh. split_and!; [split_and!; [done|done|]|done..]. by intros l [= <-]. Qed.
Lemma acts_data i mutation h :
  item = Some i → st_lane (status h) = None →
  acts (replay_data ci mc i mutation) h (λ r h', st_lane (status h') = None ∧
    (r = Ok RO_Applied → work_done h' i mutation)).
Proof.
  intros Hi Hlane. unfold replay_data.
  apply ensures_attempt with (P := λ r h', st_lane (status h') = None ∧ ∀ flight, r = Ok flight → flight_of mutation flight).
  { unfold replay_flight, flight_of. destruct (is_fenced_commit mutation); cbn [negb]; [|by split; [|intros flight [= <-]]].
    case_match; [done|]. reads acquired. destruct acquired as [[lease|]|e]; [|done..]. cbn. split; [done|]. intros flight [= <-]. eauto. }
  { by intros e h1 _ [? _]. }
  intros flight h1 H1 [Hl1 Hf]. specialize (Hf flight eq_refl).
  cbn [bind call ensures]. split; [by apply acting_lane|]. intros u. cbn [record quiet is_budget negb].
  eapply ensures_finally; [apply acts_mutation; [done|done|]; red; cbn; by rewrite Hi|]. intros r h3 H3 [Hh3 Hdone]. unfold retire. apply ensures_lift_bind.
  cbn [lift bind call ensures]. split; [by apply acting_unlane|]. intros v. cbn [record quiet is_budget negb].
  eapply ensures_mono; [unfold drop_optional, drop_flight; inert|]. intros [] h4 H4 Hs. rewrite Hs. split; [done|].
  intros Hr. eapply work_done_incl; [|by apply Hdone]. by etrans; [apply list_subseteq_cons|].
Qed.
End replays.
