(* ===== verification/MarkerReplays.v ===== *)
(** * Replays of invalidations, and who writes markers

    More of the theory of [Replay.v] and [Mutate.v]: the replays of markers and of
    their snapshots, the theorems for every ticket, and the marker lane, under
    which the commits of invalidations and their replays write and publish one
    after the other. *)
From Stdlib Require Init.Byte.
From S2P Require Import Prelude Time Calls Circuit Options Entry Tags Backplane Cancellation.
From S2P Require Import Invalidation Storage Lanes Wire Lease Recovery Observe Worker Write Control Markers Mutate Replay Replayed.
Open Scope prog_scope.

(** ** What was done *)
Section done_.
Context {V : Type} (ci : Inner) (mc : MarkerConfig).
Implicit Types (h : chronicle V).
Local Abbreviation MEv c x := (Ev (ans := manswer (V := V)) c x).
Local Abbreviation published := (published (V := V) ci).

(** The store acknowledged revision [v] of [k]. *)
Inductive store_answered h (s : CacheScope) (k : MarkerKind) (v : MarkerVersion) : MarkerWriteOutcome → Prop :=
| SA_Atomic out : MEv (M_AdvanceStore s k v) (Ok out) ∈ h → store_answered h s k v (from_advance out)
| SA_Bytes ttl : MEv (M_WriteBytes (ordinary_key s k) (marker_bytes v) ttl) (Ok tt) ∈ h →
    store_answered h s k v (MW_Written (mkStoredMarker k v)).
(** The registry took a marker; the clear that an answer forces. *)
Definition taken h (m : StoredMarker) : Prop := ∃ out, MEv (M_Advance (Tags.kind m) (stored_version m)) out ∈ h.
Definition forced_clear (out : MarkerWriteOutcome) : list StoredMarker :=
  match out with MW_Written _ => [] | MW_Compacted _ clear => [mkStoredMarker MK_ClearRemove clear] end.
Definition own (command : MarkerCommand) : Prop := cmd_source_id command = instance_id ci ∧ cmd_scope command = scope ci.
Definition renewed h (k : MarkerKind) (s : MarkerSnapshot) : Prop :=
  ∃ at_ proof renewal, MEv (M_Renew k s at_ proof) (Ok renewal) ∈ h.
(** The snapshot of a command was renewed, unless no snapshots are kept or its
    time was over. *)
Definition populated h (options : EntryOptions) (created : Timestamp) (command : MarkerCommand) : Prop :=
  let snapshot := MarkerSnapshot.fresh (stored_version (cmd_marker command)) options created in
  EntryOptions.skip_distributed_write options = true ∨ marker_snapshot_provider mc = false ∨
  (∃ at_, MEv (M_Worker C_Now) at_ ∈ h ∧ MarkerSnapshot.is_physically_expired snapshot at_ = true) ∨
  renewed h (Tags.kind (cmd_marker command)) snapshot.
Definition marker_done h (command : MarkerCommand) (stage : MarkerReplay) : Prop :=
  (advances stage = true → is_stored (markers mc) = true → ∃ out,
     store_answered h (cmd_scope command) (Tags.kind (cmd_marker command)) (stored_version (cmd_marker command)) out ∧
     Forall (taken h) (written_marker out :: forced_clear out) ∧
     (notifies stage = true → has_recovery ci = true → Forall (λ m, ∃ clear q, own clear ∧ cmd_marker clear = m ∧
        MEv (M_Enqueue (RW_Marker clear NotifyOnly)) (Ok q) ∈ h) (forced_clear out))) ∧
  (notifies stage = true → published h (BC_Marker command)).
(** A mutation past its advance. *)
Definition finished h (work : MarkerMutationRecovery) : Prop :=
  let publish additional := Forall (λ command, published h (BC_Marker command)) (MarkerMutation.command work :: additional) in
  match MarkerMutation.stage work with
  | MP_Advance _ _ => False
  | MP_Populate options snapshot additional =>
      Forall (populated h options (snap_created snapshot)) (MarkerMutation.command work :: additional) ∧
      (EntryOptions.skip_backplane_notifications options = false → publish additional)
  | MP_Notify additional => publish additional
  end.
Definition advanced_done h (original : MarkerMutationRecovery) : Prop :=
  match MarkerMutation.stage original with
  | MP_Advance options snapshot =>
      let command := MarkerMutation.command original in
      ∃ out committed additional work,
        store_answered h (cmd_scope command) (Tags.kind (cmd_marker command)) (snap_version snapshot) out ∧
        Forall (taken h) (written_marker out :: forced_clear out) ∧
        Forall own (committed :: additional) ∧
        cmd_marker <$> committed :: additional = written_marker out :: forced_clear out ∧
        MarkerMutation.population original committed additional = Ok work ∧ finished h work
  | _ => finished h original
  end.
(** The clear a mutation inherited. *)
Definition inherited_done h (child : MarkerMutationRecovery) : Prop :=
  match MarkerMutation.stage child with
  | MP_Advance _ _ => False
  | MP_Populate options snapshot _ =>
      populated h options (snap_created snapshot) (MarkerMutation.command child) ∧
      (EntryOptions.skip_backplane_notifications options = false → published h (BC_Marker (MarkerMutation.command child)))
  | MP_Notify _ => published h (BC_Marker (MarkerMutation.command child))
  end.
Definition same_mutation (a b : MarkerMutationRecovery) : Prop :=
  MarkerMutation.command a = MarkerMutation.command b ∧ MarkerMutation.stage a = MarkerMutation.stage b.
Definition mutation_done h (original : MarkerMutationRecovery) : Prop :=
  (∀ child, MarkerMutation.pending_compaction original = Some child → inherited_done h child) ∧
  ∃ work, same_mutation work original ∧ advanced_done h work.

(** The work of a ticket is done. *)
Definition ticket_done h (work : RecoveryWork) : Prop :=
  match work with
  | RW_Data item mutation => work_done ci h item mutation
  | RW_Marker command stage => marker_done h command stage
  | RW_MarkerMutation original => mutation_done h original
  | RW_MarkerSnapshot work => renewed h (replay_kind work) (replay_snapshot work)
  end.

Lemma store_answered_incl h h' s k v out : h ⊆ h' → store_answered h s k v out → store_answered h' s k v out.
Proof. intros Hh []; [eapply SA_Atomic|eapply SA_Bytes]; eauto. Qed.
Lemma taken_each h h' l : h ⊆ h' → Forall (taken h) l → Forall (taken h') l.
Proof. intros Hh Hl. eapply Forall_impl; [exact Hl|]. intros m [out ?]. exists out. by apply Hh. Qed.
Lemma renewed_incl h h' k s : h ⊆ h' → renewed h k s → renewed h' k s.
Proof. unfold renewed. naive_solver. Qed.
Lemma populated_incl h h' options at_ command : h ⊆ h' → populated h options at_ command → populated h' options at_ command.
Proof. unfold populated. naive_solver eauto using renewed_incl. Qed.
Lemma marker_done_incl h h' command stage : h ⊆ h' → marker_done h command stage → marker_done h' command stage.
Proof.
  intros Hh [Ha Hp]. split; [|intros Hn; eapply published_incl; [done|by apply Hp]]. intros Hadv Hst.
  destruct (Ha Hadv Hst) as (out & Hout & Ht & Hq). exists out. split_and!; [by eapply store_answered_incl|by eapply taken_each|].
  intros Hn Hr. eapply Forall_impl; [by apply Hq|]. intros m (c & q & ? & ? & ?). exists c, q. auto.
Qed.
Lemma published_each h h' l :
  h ⊆ h' → Forall (λ command, published h (BC_Marker command)) l → Forall (λ command, published h' (BC_Marker command)) l.
Proof. intros Hh Hl. eapply Forall_impl; [exact Hl|]. intros. by eapply published_incl. Qed.
Lemma populated_each h h' options at_ l :
  h ⊆ h' → Forall (populated h options at_) l → Forall (populated h' options at_) l.
Proof. intros Hh Hl. eapply Forall_impl; [exact Hl|]. intros. by eapply populated_incl. Qed.
Lemma finished_incl h h' work : h ⊆ h' → finished h work → finished h' work.
Proof.
  unfold finished. intros Hh. destruct (MarkerMutation.stage work); [done| |by apply published_each].
  intros [Hp Hn]. split; [by eapply populated_each|]. intros Hs. eapply published_each; [done|by apply Hn].
Qed.
Lemma inherited_done_incl h h' child : h ⊆ h' → inherited_done h child → inherited_done h' child.
Proof.
  unfold inherited_done. intros Hh. destruct (MarkerMutation.stage child); [done| |by apply published_incl].
  intros [Hp Hn]. split; [by eapply populated_incl|]. intros Hs. eapply published_incl; [done|by apply Hn].
Qed.
Lemma mutation_done_incl h h' original : h ⊆ h' → mutation_done h original → mutation_done h' original.
Proof.
  intros Hh (Hc & work & Hsame & Hw). split; [intros child Hchild; eapply inherited_done_incl; [done|by apply Hc]|].
  exists work. split; [done|]. unfold advanced_done in *. destruct (MarkerMutation.stage work); try by eapply finished_incl.
  destruct Hw as (out & c & a & w & Hs & Ht & ? & ? & ? & Hf). exists out, c, a, w.
  split_and!; [by eapply store_answered_incl|by eapply taken_each|done..|by eapply finished_incl].
Qed.
End done_.

(** ** The traversal *)
Section replays.
Context {V : Type} (ci : Inner) (mc : MarkerConfig) (item : option RecoveryItem).
Implicit Types (h : chronicle V).
Local Abbreviation prog := (prog (manswer (V := V))).
Local Abbreviation action A := (prog (result CacheError A)).
Local Abbreviation MEv c x := (Ev (ans := manswer (V := V)) c x).
Local Abbreviation J := (replaying (V := V) ci item).
Local Abbreviation acts p h Q := (ensures J p h Q).
Local Abbreviation fine p h Q := (ensures (λ _ _, True) p h Q).
Local Abbreviation held := (held (lane_for item)).

Lemma quiet_inert (c : MCall V) : quiet c = true → inert c = true.
Proof. intros [Hs He]%quiet_steady. unfold inert. by rewrite Hs, He. Qed.
Ltac inert_step := first [progress (apply only_lifted) | apply only_owned; [exact quiet_inert|] | only_step].
Ltac inert := apply acts_inert; repeat inert_step.
Ltac idle := apply ensures_only; eapply only_mono with (P := λ _, True); [repeat inert_step|by intros; exact I].

Lemma acts_write_revision s k snapshot options h :
  held h → live_at ci h →
  acts (write_marker_revision mc s k snapshot options) h (λ r h', status h' = status h ∧
    ∀ out, r = Ok out → store_answered h' s k (snap_version snapshot) out).
Proof.
  intros Hh Hl. eapply ensures_and; [apply acts_calm; [done|done|repeat inert_step]|].
  instantiate (1 := λ _ _, True). unfold write_marker_revision. destruct (markers mc); try done.
  - cbn. split; [done|]. intros [out|e]; [|done]. intros out' [= <-]. apply SA_Atomic. left.
  - unfold now, ordinary_write. cbn. split; [done|]. intros at_. split; [done|]. intros [[]|e]; [|done].
    intros out [= <-]. eapply SA_Bytes. left.
Qed.
Lemma fine_commit commit h :
  fine (commit_control_snapshot (V := V) ci mc commit WP_Replay) h (λ r h', ∀ effect, r = Ok effect → effect ≠ EF_Skipped SK_Superseded →
    renewed h' (sc_kind commit) (sc_snapshot commit)).
Proof.
  unfold commit_control_snapshot, now. assert (∀ h, fine (Control.check (V := V)) h (λ _ _, True)) as Hcheck by (intros; unfold check; idle).
  eapply ensures_attempt; [apply Hcheck|done|]. intros _ h1 _ _. cbn [bind call ensures]. split; [done|]. intros epoch.
  case_match; [by intros effect [= <-]|]. eapply ensures_attempt; [unfold lease_proof; idle|done|]. intros proved h2 _ _.
  cbn [bind call ensures]. split; [done|]. intros at_. split; [done|]. intros renewal.
  eapply ensures_attempt; [apply Hcheck|done|]. intros _ h3 H3 _. destruct renewal as [renewal|e].
  - eapply ensures_mono; [|intros r h4 H4 _ effect _ _; eapply (renewed_incl h3); [exact H4|]; do 3 eexists; apply H3; left].
    instantiate (1 := λ _ _, True). idle.
  - destruct e; try done. unfold marker_snapshot_failure. destruct e; try done; by (cbn; split).
Qed.
Lemma acts_populate command options at_ h :
  held h → live_at ci h →
  acts (populate_marker_snapshot ci mc command options at_ WP_Replay) h (λ r h', status h' = status h ∧
    ∀ effect, r = Ok effect → effect ≠ EF_Skipped SK_Superseded → populated mc h' options at_ command).
Proof.
  intros Hh Hl. eapply ensures_and; [apply acts_calm; [done|done|repeat inert_step]|].
  instantiate (1 := λ _ _, True). unfold populate_marker_snapshot, populated, now.
  destruct (EntryOptions.skip_distributed_write options) eqn:?; [by intros effect [= <-]; left|].
  destruct (marker_snapshot_provider mc) eqn:?; cbn [negb]; [|by intros effect [= <-]; right; left].
  cbn [bind call ensures]. split; [done|]. intros now. cbn [record quiet is_budget negb].
  destruct (MarkerSnapshot.is_physically_expired _ now) eqn:Hx.
  { intros effect [= <-] _. right; right; left. exists now. split; [left|done]. }
  cbn [bind call ensures]. split; [done|]. intros captured. eapply ensures_mono; [apply fine_commit|].
  intros r h1 _ Hr effect -> Hne. right; right; right. by eapply Hr.
Qed.

(** *** One marker *)
Lemma acts_apply m h :
  acts (apply_marker (V := V) m) h (λ _ h', status h' = status h ∧ taken h' m).
Proof.
  eapply ensures_and; [unfold apply_marker; inert|]. instantiate (1 := λ _ _, True).
  unfold apply_marker. cbn. split; [done|]. intros out. exists out. left.
Qed.
Lemma acts_command m h :
  acts (marker_command ci m) h (λ r h', h' = h ∧ ∀ command, r = Ok command → own ci command ∧ cmd_marker command = m).
Proof.
  unfold marker_command, MarkerCommand.new. cbn [ensures]. split; [done|]. by destruct trims_empty; intros command [= <-].
Qed.
(** The clear that an answer forces reaches the registry, and the queue if peers
    are to learn of it. *)
Definition clear_queued h (stage : MarkerReplay) (m : StoredMarker) : Prop :=
  taken h m ∧ (notifies stage = true → has_recovery ci = true → ∃ clear q, own ci clear ∧ cmd_marker clear = m ∧
    MEv (M_Enqueue (RW_Marker clear NotifyOnly)) (Ok q) ∈ h).
Lemma acts_forced_clear stage v h :
  acts (let? clear := marker_command ci (mkStoredMarker MK_ClearRemove v) in
        apply_marker (cmd_marker clear) ;;;
        if notifies stage then let? _ := queue_marker ci clear NotifyOnly in ok tt else ok tt) h
    (λ r h', status h' = status h ∧ (r = Ok tt → clear_queued h' stage (mkStoredMarker MK_ClearRemove v))).
Proof.
  eapply ensures_attempt; [apply acts_command|by intros e h1 _ [-> _]|]. intros clear h1 _ [-> Hc].
  destruct (Hc clear eq_refl) as [Hown Hm]. eapply ensures_use; [apply acts_apply|]. intros [] h2 H2 [Hs2 Ht]. rewrite Hm in Ht.
  destruct (notifies stage) eqn:Hn; [|cbn; split; [done|]; intros _; split; [done|]; by rewrite Hn].
  eapply ensures_attempt with (P := λ r h', status h' = status h ∧ (r ≠ Err CE_Panic → ∀ b, r = Ok b → clear_queued h' stage (mkStoredMarker MK_ClearRemove v))).
  - eapply ensures_mono; [eapply ensures_and; [inert|]|intros r h3 _ [Hs3 Hq]; split; [by rewrite Hs3|intros _; exact Hq]].
    instantiate (1 := λ _ _, True). unfold queue_marker, clear_queued. destruct (has_recovery ci) eqn:Hr; cbn [negb].
    + cbn [bind call ensures]. split; [done|]. intros [q|e]; [|done]. intros b _. split; [|intros _ _; exists clear, q; split_and!; [done..|left]].
      destruct Ht as [out Ht]. exists out. by right.
    + intros b _. split; [done|]. intros _ Hrec. congruence.
  - by intros e h3 _ [? _].
  - intros b h3 _ [Hs3 Hq]. cbn. split; [done|]. intros _. by apply (Hq ltac:(done) b).
Qed.
Definition stored_done h (command : MarkerCommand) (stage : MarkerReplay) : Prop :=
  ∃ out, store_answered h (cmd_scope command) (Tags.kind (cmd_marker command)) (stored_version (cmd_marker command)) out ∧
     Forall (taken h) (written_marker out :: forced_clear out) ∧
     (notifies stage = true → has_recovery ci = true → Forall (λ m, ∃ clear q, own ci clear ∧ cmd_marker clear = m ∧
        MEv (M_Enqueue (RW_Marker clear NotifyOnly)) (Ok q) ∈ h) (forced_clear out)).
Lemma stored_done_incl h h' command stage : h ⊆ h' → stored_done h command stage → stored_done h' command stage.
Proof.
  intros Hh (out & ? & ? & Hq). exists out. split_and!; [by eapply store_answered_incl|by eapply taken_each|].
  intros Hn Hr. eapply Forall_impl; [by apply Hq|]. intros m (c & q & ? & ? & ?). exists c, q. auto.
Qed.
Lemma acts_stored command stage h :
  held h → live_at ci h →
  acts (replay_stored ci mc command stage) h (λ r h', st_lane (status h') = st_lane (status h) ∧
    (r = Ok tt → stored_done h' command stage)).
Proof.
  intros Hh Hl. eapply ensures_attempt; [by apply acts_write_revision|by intros e h1 _ [-> _]|].
  intros out h1 H1 [Hs1 Hw]. specialize (Hw out eq_refl). eapply ensures_use; [apply acts_apply|]. intros [] h2 H2 [Hs2 Ht].
  eapply ensures_use with (P := λ _ h', st_lane (status h') = st_lane (status h)).
  { destruct (notifies stage); [|cbn; by rewrite Hs2, Hs1]. cbn [bind call ensures]. split; [by apply acting_neutral|].
    intros t. cbn. destruct (is_superseded t); cbn; by rewrite Hs2, Hs1. }
  intros [] h3 H3 Hl3. assert (∀ h', h3 ⊆ h' → store_answered h' (cmd_scope command) (Tags.kind (cmd_marker command))
    (stored_version (cmd_marker command)) out ∧ taken h' (written_marker out)) as Hnow.
  { intros h' H'. split; [eapply store_answered_incl; [|exact Hw]; by do 2 etrans|]. destruct Ht as [o Ho]. exists o. auto. }
  destruct out as [m|m clear].
  - cbn. split; [done|]. intros _. exists (MW_Written m). destruct (Hnow h3) as [? ?]; [done|]. split_and!; [done| |]; by repeat constructor.
  - eapply ensures_mono; [apply acts_forced_clear|]. intros r h4 H4 [Hs4 Hq]. split; [by rewrite Hs4|]. intros Hr.
    destruct (Hq Hr) as [Htk Hqueue]. destruct (Hnow h4 H4) as [? ?]. exists (MW_Compacted m clear).
    split_and!; [done|by repeat constructor|]. intros Hn Hrec. constructor; [by apply Hqueue|done].
Qed.
Lemma acts_advance command stage h :
  held h → live_at ci h →
  acts (replay_advance ci mc command stage) h (λ r h', st_lane (status h') = st_lane (status h) ∧
    (r = Ok tt → advances stage = true → is_stored (markers mc) = true → stored_done h' command stage)).
Proof.
  intros Hh Hl. unfold replay_advance. destruct (advances stage); cbn [negb]; [|done].
  destruct (markers mc); try done; (eapply ensures_mono; [by apply acts_stored|naive_solver]).
Qed.
Context (Hitem : item = None).
Lemma acting_marker_lane h : st_lane (status h) = None → J h M_Lane.
Proof. rewrite Hitem. intros Hl. split_and!; [split_and!; [done| |done]|done..]. by intros l [= <-]. Qed.
Lemma acting_marker_unlane h : held h → J h M_Unlane.
Proof. rewrite Hitem. intros Hh. split_and!; [split_and!; [done|done|]|done..]. by intros l [= <-]. Qed.

(** The marker lane around the work of a ticket. *)
Lemma acts_laned (work : action ReplayOutcome) (D : chronicle V → Prop) h :
  (∀ h', h ⊆ h' → held h' → acts work h' (λ r h', held h' ∧ (r = Ok RO_Applied → D h'))) →
  (∀ h h', h ⊆ h' → D h → D h') → st_lane (status h) = None →
  acts (call M_Lane ;;; finally (call M_Unlane) work) h (λ r h', st_lane (status h') = None ∧ (r = Ok RO_Applied → D h')).
Proof.
  intros Hw HD Hlane. cbn [bind call ensures]. split; [by apply acting_marker_lane|]. intros u. cbn [record quiet negb].
  eapply ensures_finally; [apply Hw; [by apply list_subseteq_cons|red; cbn; by rewrite Hitem]|]. intros r h1 H1 [Hh1 Hr].
  cbn [call ensures]. split; [by apply acting_marker_unlane|]. intros v. cbn. split; [done|]. intros Hap.
  apply (HD h1); [by apply list_subseteq_cons|]. by apply Hr.
Qed.
Lemma acts_ticket_live (k : action ReplayOutcome) (D : chronicle V → Prop) h :
  held h →
  (∀ h', h ⊆ h' → held h' → live_at ci h' → acts k h' (λ r h', held h' ∧ (r = Ok RO_Applied → D h'))) →
  acts (live ci k) h (λ r h', held h' ∧ (r = Ok RO_Applied → D h')).
Proof.
  intros Hh Hk. apply acts_live; [intros r h1 H1 Hl1 Hr _; split; [by eapply held_lane|done]|].
  intros h1 H1 Hl1 Hlive. apply Hk; [done|by eapply held_lane|done].
Qed.
Lemma acts_marker command stage h :
  st_lane (status h) = None →
  acts (replay_marker ci mc command stage) h (λ r h', st_lane (status h') = None ∧ (r = Ok RO_Applied → marker_done ci mc h' command stage)).
Proof.
  apply (acts_laned _ (λ h, marker_done ci mc h command stage)); [|by intros; eapply marker_done_incl].
  intros h1 H1 Hh1. apply (acts_ticket_live _ (λ h, marker_done ci mc h command stage)); [done|]. intros h2 H2 Hh2 Hl2.
  eapply ensures_attempt; [by apply acts_advance|intros e h3 _ [Hl3 _]; split; [by eapply held_lane|done]|].
  intros [] h3 H3 [Hl3 Had]. assert (held h3) as Hh3 by (by eapply held_lane).
  apply (acts_ticket_live _ (λ h, marker_done ci mc h command stage)); [done|].
  intros h4 H4 Hh4 Hl4.
  apply ensures_attempt with (P := λ r h', held h' ∧ (r = Ok tt → notifies stage = true → published ci h' (BC_Marker command))).
  { destruct (notifies stage); [|done]. eapply ensures_mono; [by apply acts_publish|]. intros r h5 H5 [Hs5 Hp].
    split; [by eapply held_same|]. auto. }
  { by intros e h5 _ [? _]. }
  intros [] h5 H5 [Hh5 Hp]. cbn. split; [done|]. intros _. split; [|by apply Hp]. intros Hadv Hst.
  eapply stored_done_incl; [|by apply Had]. by etrans.
Qed.

(** *** A snapshot *)
Lemma inert_reacquire work h :
  acts (reacquire_marker_snapshot (V := V) ci work) h (λ _ h', status h' = status h).
Proof. unfold reacquire_marker_snapshot. cbv zeta. destruct (replay_participation work); inert. Qed.
Lemma inert_finish {A} k lease (r : result CacheError A) h :
  acts (finish_control_marker_lease (V := V) ci mc k lease r) h (λ r' h', status h' = status h ∧ (∀ a, r' = Ok a → r = Ok a)).
Proof.
  eapply ensures_and; [inert|]. instantiate (1 := λ _ _, True). unfold finish_control_marker_lease.
  eapply ensures_use; [unfold lease_release; idle|]. intros released h1 _ _.
  destruct r as [a|e], released as [[]|e']; try done; cbn.
  - by intros a' [= <-].
  - case_match; [by intros a' [= <-]|done].
  - case_match; [done|]. by split.
Qed.
Lemma acts_snapshot work h :
  st_lane (status h) = None →
  acts (replay_marker_snapshot ci mc work) h (λ r h', st_lane (status h') = None ∧
    (r = Ok RO_Applied → renewed h' (replay_kind work) (replay_snapshot work))).
Proof.
  intros Hlane. unfold replay_marker_snapshot. case_match; [done|]. case_match; [done|].
  eapply ensures_attempt; [apply inert_reacquire|by intros e h1 _ ->|]. intros lease h1 H1 Hs1.
  cbn [bind call ensures]. split; [by apply acting_neutral|]. intros captured. cbn [record quiet is_budget negb].
  apply (acts_laned _ (λ h, renewed h (replay_kind work) (replay_snapshot work))); [|by intros; eapply renewed_incl|cbn; by rewrite Hs1].
  clear Hlane Hs1. intros h2 H2 Hh2. cbn [bind call ensures]. split; [by apply acting_neutral|]. intros current.
  cbn [record quiet is_budget negb]. match goal with |- ensures _ _ ?h _ => assert (held h) as Hh3 by done end.
  destruct (has_recovery ci && current) eqn:Hc; cbn [negb].
  2: { eapply ensures_mono; [apply inert_finish|]. intros r h3 H3 [Hs3 Hr]. split; [by eapply held_same|].
       intros ->. by specialize (Hr _ eq_refl). }
  apply andb_true_iff in Hc as [_ ->]. eapply ensures_release; [apply acts_admitted| |].
  { intros e h4 H4 [Hl4 _]. eapply ensures_mono; [unfold drop_lease; inert|]. intros [] h5 H5 Hs5.
    split; [|done]. eapply held_same; [exact Hs5|]. by eapply held_lane. }
  intros admitted h4 H4 (Hl4 & Hc4 & Ha). assert (held h4) as Hh4 by (by eapply held_lane).
  eapply ensures_use with (P := λ r h', held h' ∧ (r = Ok RO_Applied → renewed h' (replay_kind work) (replay_snapshot work))).
  - destruct admitted; cbn [negb]; [|done]. destruct (Ha eq_refl) as [Hhealthy Hcon].
    assert (live_at ci h4) as Hlive by (split_and!; [by rewrite Hc4|done|done]).
    eapply ensures_attempt; [eapply ensures_and; [apply acts_calm; [done|done|repeat inert_step]|apply fine_commit]| |].
    { intros e h5 _ [Hs5 _]. split; [by eapply held_same|done]. }
    intros effect h5 H5 [Hs5 Hr]. cbn [ensures]. split; [by eapply held_same|]. intros Heff. eapply (Hr effect); [done|].
    intros ->. done.
  - intros r h5 H5 [Hh5 Hr]. eapply ensures_mono; [apply inert_finish|]. intros r' h6 H6 [Hs6 Hr']. split; [by eapply held_same|].
    intros ->. eapply renewed_incl; [exact H6|]. apply Hr. by apply Hr'.
Qed.

(** *** An invalidation *)
Lemma acts_population_stage {A} next stopped (k : action A) h (Q : result CacheError A → chronicle V → Prop) :
  (∀ h', h ⊆ h' → st_lane (status h') = st_lane (status h) → acts (stopped RO_Superseded) h' Q) →
  (∀ h', h ⊆ h' → status h' = status h → acts k h' Q) →
  acts (population_stage next stopped k) h Q.
Proof.
  intros Hstop Hk. unfold population_stage. cbn [bind call ensures]. split; [by apply acting_neutral|]. intros t.
  cbn [record quiet negb]. destruct (is_superseded t) eqn:Ht.
  - apply Hstop; [by apply list_subseteq_cons|]. cbn. by rewrite Ht.
  - apply Hk; [by apply list_subseteq_cons|]. cbn. by rewrite Ht.
Qed.

(** What an inherited clear's replay answers: its parent, rid of it. *)
Definition continued_as h (parent child : MarkerMutationRecovery) (r : result CacheError CompactionReplay) : Prop :=
  match r with
  | Ok (CR_Continued work) => held h ∧ live_at ci h ∧ same_mutation work parent ∧ inherited_done ci mc h child
  | Ok (CR_Stopped outcome) => held h ∧ outcome ≠ RO_Applied
  | Err _ => held h
  end.
Lemma with_compaction_same work child work' :
  MarkerMutation.with_compaction work child = Ok work' → same_mutation work' work.
Proof. unfold MarkerMutation.with_compaction. case_match; [done|]. by intros [= <-]. Qed.
Lemma acts_complete parent child h :
  held h → live_at ci h → inherited_done ci mc h child →
  acts (complete_inherited_compaction (V := V) parent) h (λ r h', continued_as h' parent child r).
Proof.
  intros Hh Hl Hd. unfold complete_inherited_compaction.
  destruct (MarkerMutation.with_compaction parent None) as [next|] eqn:Hn; [|done]. cbn [map_err attempt bind].
  apply acts_population_stage.
  - intros h1 H1 Hl1. cbn. split; [by eapply held_lane|done].
  - intros h1 H1 Hs1. cbn. split_and!; [by eapply held_same|by eapply live_same|by eapply with_compaction_same|].
    by eapply inherited_done_incl.
Qed.
Lemma inert_check h : acts (check (V := V)) h (λ _ h', status h' = status h).
Proof. unfold check. inert. Qed.

(** A publication of the inherited clear, once its parent keeps only that. *)
Lemma acts_inherited_notify parent child h (Q : chronicle V → Prop) :
  held h → (∀ h h', h ⊆ h' → Q h → Q h') → Q h →
  (∀ h', Q h' → published ci h' (BC_Marker (MarkerMutation.command child)) → inherited_done ci mc h' child) →
  acts (notify_inherited ci parent child) h (λ r h', continued_as h' parent child r).
Proof.
  intros Hh HQ Hq Hdone. unfold notify_inherited. eapply ensures_attempt; [apply inert_check|intros e h1 _ Hs; exact (held_same _ _ _ Hs Hh)|].
  intros [] h1 H1 Hs1. assert (held h1) as Hh1 by (by eapply held_same). cbn [bind call ensures].
  split; [by apply acting_neutral|]. intros [|]; cbn [record quiet negb]; [|done].
  eapply ensures_attempt; [apply acts_admitted|intros e h2 _ [Hl2 _]; cbn; by eapply held_lane|].
  intros admitted h2 H2 (Hl2 & Hc2 & Ha). assert (held h2) as Hh2 by (by eapply held_lane).
  destruct admitted; cbn [negb]; [|done]. destruct (Ha eq_refl) as [Hhealthy Hcon].
  assert (live_at ci h2) as Hlive by (split_and!; [by rewrite Hc2|done|done]).
  eapply ensures_attempt; [by apply acts_publish|intros e h3 _ [Hs3 _]; cbn; by eapply held_same|].
  intros [] h3 H3 [Hs3 Hp]. apply acts_complete; [by eapply held_same|by eapply live_same|]. apply Hdone; [|by apply Hp].
  eapply HQ; [|exact Hq]. intros ev Hev. apply H3, H2. right. by apply H1.
Qed.
Lemma acts_populated_inherited parent child options snapshot additional h :
  MarkerMutation.stage child = MP_Populate options snapshot additional →
  held h → live_at ci h → populated mc h options (snap_created snapshot) (MarkerMutation.command child) →
  acts (populated_inherited ci parent child options) h (λ r h', continued_as h' parent child r).
Proof.
  intros Hst Hh Hl Hp. unfold populated_inherited.
  destruct (EntryOptions.skip_backplane_notifications options) eqn:Hskip.
  { apply acts_complete; [done..|]. unfold inherited_done. by rewrite Hst, Hskip. }
  destruct (MarkerMutation.notification child) as [notified|]; [|done]. cbn [map_err attempt bind].
  destruct (MarkerMutation.with_compaction parent (Some notified)) as [parent'|] eqn:Hw; [|done]. cbn [map_err attempt bind].
  apply with_compaction_same in Hw. apply acts_population_stage.
  - intros h2 _ Hl2. cbn. split; [by eapply held_lane|done].
  - intros h2 H2 Hs2. eapply ensures_mono; [eapply (acts_inherited_notify parent' child _
      (λ h', populated mc h' options (snap_created snapshot) (MarkerMutation.command child)))|].
    + by eapply held_same.
    + intros. by eapply populated_incl.
    + by eapply populated_incl.
    + intros h' Hp' Hpub. unfold inherited_done. by rewrite Hst.
    + intros [[work|outcome]|e] h3 _; cbn; [|done..]. intros (? & ? & Hsame & ?). split_and!; [done..| |done].
      unfold same_mutation in *. destruct Hsame, Hw. split; congruence.
Qed.
Lemma superseded_or_not effect : effect = EF_Skipped SK_Superseded ∨ effect ≠ EF_Skipped SK_Superseded.
Proof. destruct effect as [| |[]| | |]; auto; by right. Qed.
Lemma acts_inherited parent child h :
  held h → live_at ci h →
  acts (replay_inherited_compaction ci mc parent child) h (λ r h', continued_as h' parent child r).
Proof.
  intros Hh Hl. unfold replay_inherited_compaction. destruct (MarkerMutation.stage child) as [|options snapshot additional|additional] eqn:Hst.
  - done.
  - eapply ensures_attempt; [by apply acts_populate|intros e h1 _ [Hs _]; cbn; by eapply held_same|].
    intros effect h1 H1 [Hs1 Hp]. assert (held h1) as Hh1 by (by eapply held_same).
    destruct (superseded_or_not effect) as [->|Hne]; [done|]. specialize (Hp effect eq_refl Hne).
    assert (acts (populated_inherited ci parent child options) h1 (λ r h', continued_as h' parent child r)) as Hgo.
    { eapply acts_populated_inherited; try done. by eapply live_same. }
    destruct effect as [| |[]| | |]; try exact Hgo. done.
  - apply (acts_inherited_notify parent child _ (λ _, True)); [done..|]. intros h' _ Hpub. unfold inherited_done. by rewrite Hst.
Qed.

(** *** The commands of a stage *)
Lemma acts_each (work : MarkerCommand → action (option ReplayOutcome)) l k (D : chronicle V → MarkerCommand → Prop) (P : chronicle V → Prop) h :
  (∀ h h' command, h ⊆ h' → D h command → D h' command) → held h →
  (∀ command h', h ⊆ h' → held h' → live_at ci h' → acts (work command) h' (λ r h', status h' = status h' ∧ held h' ∧
     match r with Ok None => D h' command | Ok (Some outcome) => outcome ≠ RO_Applied | Err _ => True end)) →
  (∀ h', h ⊆ h' → held h' → Forall (D h') l → acts k h' (λ r h', held h' ∧ (r = Ok RO_Applied → P h'))) →
  acts (each_live ci work l k) h (λ r h', held h' ∧ (r = Ok RO_Applied → P h')).
Proof.
  intros HD. revert h. induction l as [|command l IH] in k |- *; intros h Hh Hwork Hk; [by apply Hk|]. cbn [each_live].
  eapply ensures_attempt; [apply inert_check|intros e h1 _ Hs; split; [exact (held_same _ _ _ Hs Hh)|done]|].
  intros [] h1 H1 Hs1. apply acts_ticket_live; [exact (held_same _ _ _ Hs1 Hh)|]. intros h2 H2 Hh2 Hl2.
  eapply ensures_attempt; [apply Hwork; [by etrans|done|done]|by intros e h3 _ (_ & ? & _)|].
  intros [outcome|] h3 H3 (_ & Hh3 & Hd); [cbn; split; [done|]; by intros [= ->]|].
  assert (h ⊆ h3) by (by do 2 etrans). apply IH; [done| |].
  - intros command' h' H'. apply Hwork. by etrans.
  - intros h' H' Hh' Hl. apply Hk; [by etrans|done|]. constructor; [by eapply HD|done].
Qed.
Lemma acts_publish_each l k (P : chronicle V → Prop) h :
  held h →
  (∀ h', h ⊆ h' → held h' → Forall (λ command, published ci h' (BC_Marker command)) l → acts k h' (λ r h', held h' ∧ (r = Ok RO_Applied → P h'))) →
  acts (each_live ci (publish_captured ci) l k) h (λ r h', held h' ∧ (r = Ok RO_Applied → P h')).
Proof.
  intros Hh Hk. apply (acts_each _ _ _ (λ h command, published ci h (BC_Marker command))); [|done| |done].
  - intros. by eapply published_incl.
  - intros command h1 H1 Hh1 Hl1. unfold publish_captured. eapply ensures_attempt; [by apply acts_publish| |].
    + intros e h2 _ [Hs _]. split_and!; [done|by eapply held_same|done].
    + intros [] h2 H2 [Hs2 Hp]. cbn. split_and!; [done|by eapply held_same|by apply Hp].
Qed.
Lemma acts_finish work h :
  held h → acts (finish_captured_marker ci mc work) h (λ r h', held h' ∧ (r = Ok RO_Applied → finished ci mc h' work)).
Proof.
  intros Hh. unfold finish_captured_marker, finished. cbv zeta.
  destruct (MarkerMutation.stage work) as [|options snapshot additional|additional]; [done| |].
  - apply (acts_each _ _ _ (λ h command, populated mc h options (snap_created snapshot) command)); [|done| |].
    + intros. by eapply populated_incl.
    + intros command h1 H1 Hh1 Hl1. unfold populate_captured. eapply ensures_attempt; [by apply acts_populate| |].
      * intros e h2 _ [Hs _]. split_and!; [done|by eapply held_same|done].
      * intros effect h2 H2 [Hs2 Hp]. cbn. split_and!; [done|by eapply held_same|].
        destruct (superseded_or_not effect) as [->|Hne]; [done|]. specialize (Hp _ eq_refl Hne).
        by destruct effect as [| |[]| | |].
    + intros h1 H1 Hh1 Hpop. destruct (EntryOptions.skip_backplane_notifications options) eqn:Hskip; [by cbn|].
      cbn [bind call ensures]. split; [by apply acting_neutral|]. intros t. cbn [record quiet negb].
      match goal with |- ensures _ _ ?h _ => assert (held h) as Hh2 end.
      { red. cbn. destruct (is_superseded t); exact Hh1. }
      destruct (is_superseded t); [by cbn|]. apply acts_publish_each; [done|]. intros h3 H3 Hh3 Hpub. cbn. split; [done|].
      intros _. split; [|done]. eapply populated_each; [|exact Hpop]. by etrans; [apply list_subseteq_cons|].
  - apply acts_publish_each; [done|]. intros h1 H1 Hh1 Hpub. by cbn.
Qed.

(** *** The advance and the ticket *)
(** The store's answer to the advance of captured work, and what the work then
    stands for. *)
Definition advanced_to h (work : MarkerMutationRecovery) (snapshot : MarkerSnapshot) (next : MarkerMutationRecovery) : Prop :=
  ∃ out committed additional,
    store_answered h (cmd_scope (MarkerMutation.command work)) (Tags.kind (cmd_marker (MarkerMutation.command work)))
      (snap_version snapshot) out ∧
    Forall (taken h) (written_marker out :: forced_clear out) ∧ Forall (own ci) (committed :: additional) ∧
    cmd_marker <$> committed :: additional = written_marker out :: forced_clear out ∧
    MarkerMutation.population work committed additional = Ok next.
Lemma advanced_to_incl h h' work snapshot next : h ⊆ h' → advanced_to h work snapshot next → advanced_to h' work snapshot next.
Proof.
  intros Hh (out & c & a & ? & ? & ? & ? & ?). exists out, c, a.
  split_and!; [by eapply store_answered_incl|by eapply taken_each|done..].
Qed.
Lemma acts_captured work snapshot options h :
  held h → live_at ci h →
  acts (advance_captured_marker ci mc work snapshot options) h (λ r h', status h' = status h ∧ ∀ next, r = Ok next →
    advanced_to h' work snapshot next).
Proof.
  intros Hh Hl. unfold advance_captured_marker.
  eapply ensures_attempt; [by apply acts_write_revision|by intros e h1 _ [-> _]|]. intros out h1 H1 [Hs1 Hw].
  specialize (Hw out eq_refl). eapply ensures_use; [apply acts_apply|]. intros [] h2 H2 [Hs2 Ht].
  eapply ensures_attempt; [apply acts_command|intros e h3 _ [-> _]; split; [by rewrite Hs2, Hs1|done]|].
  intros committed h3 _ [-> Hc]. destruct (Hc committed eq_refl) as [Hown Hm]. clear Hc.
  eapply ensures_attempt with (P := λ r h', status h' = status h ∧ ∀ additional, r = Ok additional →
    Forall (taken h') (forced_clear out) ∧ Forall (own ci) additional ∧ cmd_marker <$> additional = forced_clear out).
  { destruct out as [m|m clear]; [cbn; split; [by rewrite Hs2, Hs1|by intros ? [= <-]]|].
    eapply ensures_attempt; [apply acts_command|intros e h4 _ [-> _]; split; [by rewrite Hs2, Hs1|done]|].
    intros command h4 _ [-> Hc]. destruct (Hc command eq_refl) as [Hown' Hm']. eapply ensures_use; [apply acts_apply|].
    intros [] h5 H5 [Hs5 Ht5]. rewrite Hm' in Ht5. cbn [ensures ok]. split; [by rewrite Hs5, Hs2, Hs1|]. intros ? [= <-].
    split_and!; [by apply Forall_singleton|by apply Forall_singleton|cbn; by rewrite Hm']. }
  { intros e h4 _ [? _]. by split. }
  intros additional h4 H4 [Hs4 Ha]. destruct (Ha additional eq_refl) as (Hta & Howns & Hms). cbn [ensures]. split; [done|].
  intros next Hnext. exists out, committed, additional. split_and!.
  - eapply store_answered_incl; [|exact Hw]. by etrans.
  - constructor; [|done]. destruct Ht as [o Ho]. exists o. auto.
  - by constructor.
  - cbn. by rewrite Hm, Hms.
  - by destruct (MarkerMutation.population work committed additional) as [w|] eqn:Hp; [injection Hnext as ->|].
Qed.
Lemma acts_advanced original h :
  held h → live_at ci h →
  acts (replay_advanced ci mc original) h (λ r h', held h' ∧ (r = Ok RO_Applied → advanced_done ci mc h' original)).
Proof.
  intros Hh Hl. unfold replay_advanced, advanced_done.
  assert (acts (finish_captured_marker ci mc original) h (λ r h', held h' ∧ (r = Ok RO_Applied → finished ci mc h' original)))
    as Hfin by (by apply acts_finish).
  destruct (MarkerMutation.stage original) as [options snapshot| |]; [|exact Hfin..]. clear Hfin.
  eapply ensures_attempt; [by apply acts_captured|intros e h1 _ [Hs _]; split; [exact (held_same _ _ _ Hs Hh)|done]|].
  intros next h1 H1 [Hs1 Hn]. specialize (Hn next eq_refl).
  assert (held h1) as Hh1 by exact (held_same _ _ _ Hs1 Hh). apply acts_population_stage.
  - intros h2 _ Hl2. cbn. split; [by eapply held_lane|done].
  - intros h2 H2 Hs2. eapply ensures_mono; [apply acts_finish; exact (held_same _ _ _ Hs2 Hh1)|].
    intros r h3 H3 [Hh3 Hfin]. split; [done|]. intros Hr.
    assert (advanced_to h3 original snapshot next) as (out & c & a & ? & ? & ? & ? & ?) by (eapply advanced_to_incl; [|exact Hn]; by etrans).
    exists out, c, a, next. split_and!; [done..|by apply Hfin].
Qed.
Lemma acts_marker_mutation original h :
  st_lane (status h) = None →
  acts (replay_marker_mutation ci mc original) h (λ r h', st_lane (status h') = None ∧
    (r = Ok RO_Applied → mutation_done ci mc h' original)).
Proof.
  intros Hlane. unfold replay_marker_mutation. case_match; [done|]. case_match; [done|].
  apply (acts_laned _ (λ h, mutation_done ci mc h original)); [|by intros; eapply mutation_done_incl|done].
  intros h1 H1 Hh1. apply (acts_ticket_live _ (λ h, mutation_done ci mc h original)); [done|]. intros h2 H2 Hh2 Hl2.
  eapply ensures_attempt; [apply inert_check|intros e h3 _ Hs; split; [exact (held_same _ _ _ Hs Hh2)|done]|].
  intros [] h3 H3 Hs3. assert (held h3) as Hh3 by exact (held_same _ _ _ Hs3 Hh2).
  assert (live_at ci h3) as Hl3 by exact (live_same _ _ _ Hs3 Hl2).
  destruct (MarkerMutation.pending_compaction original) as [child|] eqn:Hchild.
  - eapply ensures_attempt; [by apply acts_inherited|by intros e h4 _ ?; split|].
    intros [work|outcome] h4 H4; [intros (Hh4 & Hl4 & Hsame & Hdone)|intros [Hh4 Hne]; cbn; split; [done|]; by intros [= ->]].
    eapply ensures_mono; [by apply acts_advanced|]. intros r h5 H5 [Hh5 Hr]. split; [done|]. intros Hap. split.
    + intros c Hc. assert (c = child) as -> by congruence. by eapply inherited_done_incl.
    + exists work. split; [done|by apply Hr].
  - eapply ensures_mono; [by apply acts_advanced|]. intros r h5 H5 [Hh5 Hr]. split; [done|]. intros Hap.
    split; [by rewrite Hchild|]. exists original. split; [by split|by apply Hr].
Qed.
End replays.

(** The value whose stored copy a ticket's work may touch. *)
Definition value_of (work : RecoveryWork) : option RecoveryItem :=
  match work with RW_Data item _ => Some item | _ => None end.
(** At its end a replay holds no lane, unless its phase was cancelled: that drops
    the work with the guards it holds. *)
Definition given_back {V} (r : result CacheError ReplayOutcome) (h : chronicle V) : Prop :=
  st_lane (status h) = None ∨ ∃ reason, r = Err (CE_OperationCancelled reason).
Lemma acts_ticket {V} (ci : Inner) (mc : MarkerConfig) work (h : chronicle V) :
  st_lane (status h) = None →
  ensures (replaying ci (value_of work)) (replay_ticket ci mc work) h (λ r h', given_back r h' ∧
    (r = Ok RO_Applied → ticket_done ci mc h' work)).
Proof.
  intros Hlane. unfold replay_ticket.
  eapply ensures_mono; [apply (ensures_owned _ (λ _, True)); [apply acting_quiet|done|]|].
  - instantiate (1 := λ r h', st_lane (status h') = None ∧ (r = Ok RO_Applied → ticket_done ci mc h' work)).
    unfold replay_owned. case_match; [done|]. eapply ensures_attempt; [apply acts_admitted|by intros e h1 _ [-> _]|].
    intros admitted h1 H1 (Hl1 & _). rewrite Hlane in Hl1. destruct admitted; cbn [negb]; [|done].
    destruct work as [item mutation|command stage|work|work]; (eapply ensures_mono;
      [first [by apply acts_data|by apply acts_marker|by apply acts_marker_mutation|by apply acts_snapshot]|naive_solver]).
  - unfold given_back. intros r h1 _ [[Hl Hr]|[reason ->]]; [by auto|]. split; [by eauto|done].
Qed.

(** ** The marker lane of a commit *)
Section lane.
Context {V : Type} (ci : Inner) (mc : MarkerConfig).
Implicit Types (h : chronicle V).
Local Abbreviation prog := (prog (manswer (V := V))).
Local Abbreviation action A := (prog (result CacheError A)).
Local Abbreviation under p h Q := (ensures (laned (V := V) LN_Markers) p h Q).
Local Abbreviation held := (held LN_Markers).

Ltac steady_step :=
  first [progress (apply only_lifted) | apply only_owned; [by intros c [? _]%quiet_steady|] | only_step].
Lemma under_steady {A} (p : prog A) h :
  held h → only (λ c, steady c = true) p → under p h (λ _ h', held h').
Proof.
  intros Hh Hp. eapply ensures_mono; [eapply (ensures_steady _ steady); [done| |exact Hp]|].
  - intros h' c _ Hs Hc. destruct (steady_lanes c Hc) as [Hl Hu]. unfold laned. rewrite Hl, Hu. split_and!; [|done|done].
    intros _. by eapply held_same.
  - intros a h' _ Hs. exact (held_same _ _ _ Hs Hh).
Qed.
Lemma steady_publish_each l opts outcomes : only (λ c, steady c = true) (publish_markers (V := V) ci l opts outcomes).
Proof.
  revert outcomes. induction l as [|command l IH]; intros outcomes; cbn [publish_markers]; [done|].
  apply only_bind; [unfold publish_marker; repeat steady_step|]. intros [|e]; [apply IH|].
  apply only_bind; [unfold marker_failure; repeat steady_step|]. intros _. apply only_attempt; [repeat steady_step|].
  intros queued. case_match; [done|apply IH].
Qed.
Lemma steady_populate l opts at_ durable :
  only (λ c, steady c = true) (populate_marker_mutation (V := V) ci mc l opts at_ durable).
Proof.
  unfold populate_marker_mutation. case_match; [done|]. apply only_owned; [by intros c [? _]%quiet_steady|].
  unfold populate_marker_commands_owned. apply only_bind.
  - generalize [durable] (None (A := CacheError)). induction l as [|command l IH]; intros outcomes failure; [done|]. cbn [populate_each].
    apply only_bind; [repeat steady_step|]. intros [o|e]; apply IH.
  - intros [outcomes [e|]]; cbn; [|done]. apply only_attempt; [|done]. case_match; [|done].
    induction l as [|command l IH]; [done|]. cbn [queue_notifications]. apply only_attempt; [repeat steady_step|done].
Qed.
Lemma steady_distributed command opts at_ : only (λ c, steady c = true) (marker_distributed (V := V) ci mc command opts at_).
Proof. repeat steady_step. Qed.

(** The receipt owns the lane until its publication is done. *)
Definition lane_owed h (receipt : MarkerReceipt V) : Prop :=
  under (wait receipt) h (λ _ h', st_lane (status h') = None).
Lemma laned_lane h : st_lane (status h) = None → laned (V := V) LN_Markers h M_Lane.
Proof. intros Hl. split_and!; [done| |done]. by intros l [= <-]. Qed.
Lemma laned_unlane h : held h → laned (V := V) LN_Markers h M_Unlane.
Proof. intros Hh. split_and!; [done|done|]. by intros l [= <-]. Qed.
Lemma under_unlane {A} (r : A) h : held h → under (call M_Unlane ;;; Ret r) h (λ _ h', st_lane (status h') = None).
Proof. intros Hh. cbn. split; [by apply laned_unlane|done]. Qed.
Lemma under_publication l opts distributed h :
  held h → under (marker_publication ci l opts distributed) h (λ _ h', st_lane (status h') = None).
Proof.
  intros Hh. unfold marker_publication. eapply ensures_finally.
  - apply under_steady; [done|]. apply only_attempt; [|done]. case_match; [done|]. case_match; [done|].
    apply only_attempt; [apply steady_publish_each|done].
  - intros r h1 _ Hh1. cbn. split; [by apply laned_unlane|done].
Qed.
Lemma under_commit command opts at_ h :
  st_lane (status h) = None →
  under (commit_marker ci mc command opts at_) h (λ r h',
    match r with Ok receipt => lane_owed h' receipt | Err _ => st_lane (status h') = None end).
Proof.
  intros Hlane. unfold commit_marker. cbn [bind call ensures]. split; [by apply laned_lane|]. intros u. cbn [record quiet negb].
  eapply ensures_release; [apply under_steady; [done|apply steady_distributed]| |].
  { intros e h1 _ Hh1. cbn. split; [by apply laned_unlane|done]. }
  intros [report|[l distributed]] h1 _ Hh1.
  { cbn [bind call ensures]. split; [by apply laned_unlane|]. by intros v. }
  eapply ensures_release; [apply under_steady; [done|apply steady_populate]| |].
  { intros e h2 _ Hh2. cbn. split; [by apply laned_unlane|done]. }
  intros outcome h2 _ Hh2. unfold commit_receipt. case_match.
  - eapply ensures_attempt; [by apply under_publication|by intros|]. by intros report h3 _ Hl3.
  - cbn [ensures ok]. by apply under_publication.
Qed.
End lane.

Module ReplayTheorems.
(** C7: a replay never acts on obsolete work or over a newer value.
    Whatever the queue, the providers and the other tasks answer, the execution of
    a ticket writes to a provider or publishes only while the queue's last word is
    that it still holds the ticket, the cache was found healthy and connected to
    its peers after that word, and the lane of the ticket is held: that of the
    value's own key, or the marker lane. No other lane is ever taken; it is taken
    only while none is held, only given back while held, and none is held at the
    end, unless the replay's phase was cancelled, which drops the work and the
    guard with it. A stored value is only written or removed, and only that of the
    ticket's key, after the stored copy was read and found absent or not newer
    than the work. *)
Theorem replays_act_only_while_live {V} (ci : Inner) (mc : MarkerConfig) work :
  ensures (V := V) (replaying ci (value_of work)) (replay_ticket ci mc work) [] given_back.
Proof. eapply ensures_mono; [by apply acts_ticket|by intros r h _ []]. Qed.


(** The commits of invalidations are serialised. A commit writes to
    the store, renews a snapshot and publishes only while it holds the marker
    lane, which it takes once; the lane is given back on every path, by the
    publication if that is scheduled. *)
Theorem marker_commits_hold_their_lane {V} (ci : Inner) (mc : MarkerConfig) command opts created :
  ensures (V := V) (laned LN_Markers) (let? receipt := commit_marker ci mc command opts created in wait receipt) []
    (λ _ h, st_lane (status h) = None).
Proof.
  eapply ensures_attempt; [by apply under_commit|by intros|]. by intros receipt h _.
Qed.
End ReplayTheorems.
