(* ===== verification/Health.v ===== *)
(** * Backplane continuity

    Models the continuity half of [src/src/cache/runtime.rs], with the recovery
    barrier of [src/src/recovery.rs] and [ReconciliationPolicy] of
    [src/src/cache.rs]: a worker compares the connection state of the backplane
    with the one it saw last and, when it changed, retires what the missed
    messages may have made stale. [RCall] adds to the accesses of the control
    pipelines those of the background services. The second half runs any number
    of checks, and of listener turns that found messages lost, at once, one access
    at a time: the former record a transition under the mutex of [health_seen], the
    latter advance the epoch and set the barrier of the recovery queue without it. *)
From S2P Require Import Supplied.
From S2P Require Import Prelude Time Calls Circuit Options Entry Tags Backplane Cancellation.
From S2P Require Import Invalidation Storage Lanes Wire Lease Recovery Observe Worker Write Control.
Open Scope prog_scope.

#[export] Instance BackplaneState_eq_dec : EqDecision BackplaneState.
Proof. solve_decision. Defined.
Definition is_connected (state : BackplaneState) : bool :=
  match state with BS_Connected _ => true | BS_Disconnected _ | BS_Stopped => false end.

Inductive ReconciliationPolicy :=
| LocalOnly | Expiration | Periodic (interval : Duration) | BackplaneContinuity | BackplaneBestEffort.
Definition invalidates_on_gap (self : ReconciliationPolicy) : bool :=
  match self with
  | LocalOnly | Periodic _ | BackplaneContinuity => true
  | Expiration | BackplaneBestEffort => false
  end.

Inductive BackplaneReadiness := NotConfigured | BestEffort | Acknowledged (epoch : Z).
Inductive CloseOutcome := Started | AlreadyClosing | AlreadyClosed.

(** The fields of [CacheInner] that only the background services read. *)
Record PeerConfig := mkPeers { reconciliation : ReconciliationPolicy; ignore_incoming_backplane : bool }.

(** ** Accesses *)
Section calls.
Context {V : Type}.

Inductive RCall :=
| R_Control (c : MCall V)
(* the watch of the connection; [None] when the provider has none *)
| R_Transport | R_Changed
(* [health_seen] and its mutex *)
| R_LockHealth | R_UnlockHealth | R_Seen | R_SetSeen (state : BackplaneState)
| R_BumpEpoch | R_AdmitSubscription
(* the recovery queue; [R_Until] is the monotonic clock, with the reconnect delay *)
| R_Suspend | R_Until | R_Barrier (until : Instant) | R_StopRecovery
(* visibility barriers of the memory layers *)
| R_BeginValues | R_FinishValues (barrier : Z)
| R_ResetClears | R_BeginMarkers | R_FinishMarkers (barrier : Z)
(* the lifecycle *)
| R_BeginClose | R_CloseScopes | R_StopPlugins
(* incoming messages *)
| R_LaneTimestamp (key : string) | R_CancelThrough (key : string) (at_ : Timestamp)
| R_Frame (message : BackplaneMessage) | R_Message (key : string) | R_MarkerReceived (command : MarkerCommand)
| R_SpawnPassive (key : string) (expected : Entry V) (fence : Fences.Fence).

Definition ranswer (c : RCall) : Type :=
  match c with
  | R_Control c => manswer c
  | R_Transport | R_Seen => option BackplaneState
  | R_Changed | R_BumpEpoch => bool
  | R_Until => option Instant
  | R_BeginValues | R_BeginMarkers => result MemoryStorageError Z
  | R_FinishValues _ | R_FinishMarkers _ => result MemoryStorageError unit
  | R_BeginClose => CloseOutcome
  | R_LaneTimestamp _ => option Timestamp
  | R_CancelThrough _ _ => SupersedeOutcome
  | R_LockHealth | R_UnlockHealth | R_SetSeen _ | R_AdmitSubscription | R_Suspend | R_Barrier _ | R_StopRecovery | R_ResetClears
  | R_CloseScopes | R_StopPlugins | R_Frame _ | R_Message _ | R_MarkerReceived _ | R_SpawnPassive _ _ _ => unit
  end.
End calls.
Arguments RCall V : clear implicits.

Section health.
Context {V : Type} (ci : Inner) (mc : MarkerConfig) (pc : PeerConfig).
Local Abbreviation prog := (prog (ranswer (V := V))).
Local Abbreviation action A := (prog (result CacheError A)).
Local Abbreviation ask c := (call (ans := ranswer (V := V)) c).

(** A control pipeline's operation, in a background service. *)
Fixpoint control {A} (p : Calls.prog (manswer (V := V)) A) : prog A :=
  match p with
  | Ret a => Ret a
  | Act c k => Act (R_Control c) (λ x, control (k x))
  end.

(** [CacheInner::close]. *)
Definition close : prog CloseOutcome :=
  let* outcome := ask R_BeginClose in
  ask R_CloseScopes ;;;
  match outcome with
  | Started =>
      (if has_recovery ci then ask R_StopRecovery else Ret tt) ;;;
      ask R_StopPlugins ;;;
      Ret outcome
  | AlreadyClosing | AlreadyClosed => Ret outcome
  end.

(** [MarkerReads::begin_invalidation]. *)
Definition begin_markers : prog (result MemoryStorageError (option Z)) :=
  match marker_reads mc with
  | DurableReads => Ret (Ok None)
  | ControlledReads _ =>
      ask R_ResetClears ;;;
      let* barrier := ask R_BeginMarkers in Ret (Some <$> barrier)
  end.

Definition invalidate_memory_layers : action unit :=
  let* values := ask R_BeginValues in
  let* markers := begin_markers in
  let* values :=
    match values with Ok barrier => ask (R_FinishValues barrier) | Err e => Ret (Err e) end in
  let* markers :=
    match markers with
    | Ok (Some barrier) => ask (R_FinishMarkers barrier)
    | Ok None => Ret (Ok tt)
    | Err e => Ret (Err e)
    end in
  match values, markers with
  | Ok _, Ok _ => ok tt
  | Err _, Ok _ => raise CE_MemoryStorage
  | Ok _, Err _ => raise CE_MarkerMemoryStorage
  | Err _, Err _ => raise CE_MemoryInvalidation
  end.

Definition connection : prog (option BackplaneState) :=
  if has_backplane ci then ask R_Transport else Ret None.

Definition continuity_gap : action unit :=
  let? _ :=
    if invalidates_on_gap (reconciliation pc) then
      let* advanced := ask R_BumpEpoch in
      (if advanced then Ret tt else let* _ := close in Ret tt) ;;;
      invalidate_memory_layers
    else ok tt in
  if has_recovery ci then ask R_Suspend ;;; ok tt else ok tt.

(** [AutoRecoveryService::pause_after_reconnect]: the clock is read before the
    mutex of the barrier is taken. *)
Definition pause_after_reconnect : prog (result RecoveryError unit) :=
  let* until := ask R_Until in
  match until with
  | Some until => ask (R_Barrier until) ;;; ok tt
  | None => raise InvalidBarrier
  end.

(** What the recovery queue learns of the connection, under the mutex. *)
Definition announce (current : BackplaneState) : prog unit :=
  match current with
  | BS_Disconnected _ | BS_Stopped => if has_recovery ci then ask R_Suspend else Ret tt
  | BS_Connected _ =>
      ask R_AdmitSubscription ;;;
      if has_recovery ci then let* _ := pause_after_reconnect in Ret tt else Ret tt
  end.

Definition ensure_health : action unit :=
  let* health := connection in
  match health with
  | None => ok tt
  | Some current =>
      ask R_LockHealth ;;;
      let* seen := ask R_Seen in
      if bool_decide (seen = Some current) then ask R_UnlockHealth ;;; ok tt
      else
        ask (R_SetSeen current) ;;;
        let gap := negb (is_connected current) || bool_decide (is_Some seen) in
        let invalidate := gap && invalidates_on_gap (reconciliation pc) in
        let* advanced := if invalidate then ask R_BumpEpoch else Ret true in
        announce current ;;;
        ask R_UnlockHealth ;;;
        let? _ := if invalidate then invalidate_memory_layers else ok tt in
        if negb advanced then let* _ := close in ok tt else ok tt
  end.

(** [await_readiness], over at most [changes] notifications of the watch. *)
Fixpoint await_acknowledged (changes : nat) : prog (option (result CacheError BackplaneReadiness)) :=
  let* state := ask R_Transport in
  match state with
  | None => Ret (Some (Ok BestEffort))
  | Some (BS_Connected epoch) =>
      let* r := ensure_health in
      Ret (Some (match r with Ok _ => Ok (Acknowledged epoch) | Err e => Err e end))
  | Some BS_Stopped => Ret (Some (Err CE_Backplane))
  | Some (BS_Disconnected _) =>
      let* r := ensure_health in
      match r with
      | Err e => Ret (Some (Err e))
      | Ok _ =>
          let* changed := ask R_Changed in
          if negb changed then Ret (Some (Err CE_Backplane))
          else match changes with O => Ret None | S changes => await_acknowledged changes end
      end
  end.
Definition await_readiness (changes : nat) : prog (option (result CacheError BackplaneReadiness)) :=
  if has_backplane ci then await_acknowledged changes else Ret (Some (Ok NotConfigured)).

(** [replay_admitted], with the check in place. *)
Definition admitted : action bool :=
  let? _ := ensure_health in
  let* state := connection in
  ok (from_option is_connected true state).

(** What the listener does when messages were lost, outside any mutex: its own
    channel lagged, a frame could not be decoded, the channel was closed. *)
Inductive Loss := L_Lagged | L_Frame | L_Closed.
Definition resume : action unit :=
  if has_recovery ci then let* paused := pause_after_reconnect in Ret (map_err CE_Recovery paused) else ok tt.
Definition history_lost (loss : Loss) : action unit :=
  let? _ := continuity_gap in
  match loss with
  | L_Lagged => let? _ := ensure_health in resume
  | L_Frame => let? can_replay := admitted in if can_replay then resume else ok tt
  | L_Closed => ok tt
  end.
End health.

(** ** Checks and lost messages that run at once

    [Guarded] is what the mutex of [health_seen] protects; [gaps] counts the
    transitions recorded in it that may have lost messages. The barrier of the
    recovery queue has a mutex of its own, so that one access is one step; the
    listener sets it without the mutex of [health_seen]. The continuity epoch is
    advanced under that mutex for a recorded transition, and outside of it,
    [others] times, when history was lost. *)
Module Health.
Inductive RecoveryBarrier := RB_Ready | RB_Disconnected | RB_After (until : Instant).
(** The barrier of [drain_once]. *)
Definition paused (barrier : RecoveryBarrier) (now : Instant) : bool :=
  match barrier with RB_Ready => false | RB_Disconnected => true | RB_After until => now <? until end.

Record Guarded := mkGuarded { seen : option BackplaneState; gaps : Z }.
#[export] Instance eta_guarded : Eta Guarded := λ g, mkGuarded (seen g) (gaps g).
Record World := mkWorld {
  transport : option BackplaneState; guarded : Guarded; holder : option nat; barrier : RecoveryBarrier; epoch : Z;
  time : Instant; subscription_admitted : bool; retired : Z; closing : bool; others : Z }.
#[export] Instance eta_world : Eta World := λ w,
  mkWorld (transport w) (guarded w) (holder w) (barrier w) (epoch w) (time w) (subscription_admitted w) (retired w)
  (closing w) (others w).

Section pool.
Context {V : Type} (ci : Inner) (mc : MarkerConfig) (pc : PeerConfig) (delay instant_max : Z).
Local Abbreviation prog := (prog (ranswer (V := V))).

Definition is_gap (state : BackplaneState) (seen : option BackplaneState) : bool :=
  negb (is_connected state) || bool_decide (is_Some seen).
Definition record_seen (state : BackplaneState) (g : Guarded) : Guarded :=
  mkGuarded (Some state) (if is_gap state (seen g) then gaps g + 1 else gaps g).
(** [Instant::now().checked_add(delay)]. *)
Definition reconnect_delay (now : Instant) : option Instant :=
  if now + delay <=? instant_max then Some (now + delay) else None.
(** [fetch_update] with [checked_add(1)]. *)
Definition bump (epoch : Z) : bool * Z :=
  match checked_add_u64 epoch 1 with Some next => (true, next) | None => (false, epoch) end.

(** One access of thread [me]; [None] while it is blocked. *)
Definition access (me : nat) (w : World) (c : RCall V) : option (ranswer c * World) :=
  match c return option (ranswer c * World) with
  | R_Transport => Some (transport w, w)
  | R_LockHealth => match holder w with None => Some (tt, w <| holder := Some me |>) | Some _ => None end
  | R_UnlockHealth => Some (tt, w <| holder := None |>)
  | R_Seen => Some (seen (guarded w), w)
  | R_SetSeen state => Some (tt, w <| guarded := record_seen state (guarded w) |>)
  | R_BumpEpoch =>
      let '(advanced, next) := bump (epoch w) in
      Some (advanced, w <| epoch := next |>
                        <| others := if bool_decide (holder w = Some me) then others w else others w + 1 |>)
  | R_AdmitSubscription => Some (tt, w <| subscription_admitted := true |>)
  | R_Suspend => Some (tt, w <| barrier := RB_Disconnected |>)
  | R_Until => Some (reconnect_delay (time w), w)
  | R_Barrier until => Some (tt, w <| barrier := RB_After until |>)
  | R_BeginValues | R_BeginMarkers => Some (Ok (retired w), w)
  | R_FinishValues _ | R_FinishMarkers _ => Some (Ok tt, w <| retired := retired w + 1 |>)
  | R_ResetClears | R_StopRecovery | R_CloseScopes | R_StopPlugins => Some (tt, w)
  | R_BeginClose => Some (if closing w then AlreadyClosing else Started, w <| closing := true |>)
  | _ => None
  end.

Record Pool := mkPool { world : World; threads : list (prog (result CacheError unit)) }.
#[local] Instance eta_pool : Eta Pool := λ p, mkPool (world p) (threads p).

Inductive Label := Check_ | Lost (loss : Loss) | Run (thread : nat) | Network (state : BackplaneState) | Tick (by_ : Z).
Definition step (p : Pool) (l : Label) : option Pool :=
  match l with
  | Check_ => Some (p <| threads := threads p ++ [ensure_health ci mc pc] |>)
  | Lost loss => Some (p <| threads := threads p ++ [history_lost ci mc pc loss] |>)
  | Network state => Some (p <| world := world p <| transport := Some state |> |>)
  | Tick by_ => if 0 <? by_ then Some (p <| world := world p <| time := time (world p) + by_ |> |>) else None
  | Run i =>
      match threads p !! i with
      | Some (Act c k) =>
          match access i (world p) c with
          | Some (x, w) => Some (mkPool w (<[i := k x]> (threads p)))
          | None => None
          end
      | Some (Ret _) | None => None
      end
  end.
Fixpoint execute (p : Pool) (l : list Label) : option Pool :=
  match l with [] => Some p | x :: l => p ← step p x; execute p l end.

Definition initial (transport : option BackplaneState) (time : Instant) : Pool :=
  mkPool (mkWorld transport (mkGuarded None 0) None RB_Ready 0 time false 0 false 0) [].

(** What a step is: one access of a thread, or the environment, which may start a
    thread and changes nothing but the connection and the time. *)
Inductive stepped (p : Pool) : Pool → Prop :=
| Stepped_Access i c k x w :
    threads p !! i = Some (Act c k) → access i (world p) c = Some (x, w) →
    stepped p (mkPool w (<[i := k x]> (threads p)))
| Stepped_Around w q :
    (∃ t, w = world p <| transport := t |>) ∨ (∃ d, 0 ≤ d ∧ w = world p <| time := time (world p) + d |>) →
    q = [] ∨ q = [ensure_health ci mc pc] ∨ (∃ loss, q = [history_lost ci mc pc loss]) →
    stepped p (mkPool w (threads p ++ q)).
Lemma step_stepped p l p' : step p l = Some p' → stepped p p'.
Proof.
  assert (∀ q, (q = [] ∨ q = [ensure_health ci mc pc] ∨ ∃ loss, q = [history_lost ci mc pc loss]) →
    stepped p (mkPool (world p) (threads p ++ q))) as Hsame.
  { intros q Hq. replace (world p) with (world p <| transport := transport (world p) |>) by (by destruct (world p)).
    apply Stepped_Around; [by left; eexists|done]. }
  destruct l as [|loss|i|state|by_]; simpl.
  - intros [= <-]. apply Hsame. auto.
  - intros [= <-]. apply Hsame. eauto.
  - destruct (threads p !! i) as [[|c k]|] eqn:Hq; [done| |done].
    destruct (access i (world p) c) as [[x w]|] eqn:Ha; [|done]. intros [= <-]. by eapply Stepped_Access.
  - intros [= <-]. unfold set. simpl. rewrite <-(app_nil_r (threads p)). apply Stepped_Around; eauto.
  - destruct (0 <? by_) eqn:Hb; [|done]. intros [= <-]. unfold set. simpl. rewrite <-(app_nil_r (threads p)).
    apply Stepped_Around; [right; exists by_; bool_to_prop; split; [lia|done]|auto].
Qed.
Lemma execute_stepped (P : Pool → Prop) :
  (∀ p p', P p → stepped p p' → P p') → ∀ l p p', P p → execute p l = Some p' → P p'.
Proof.
  intros HP. induction l as [|x l IH]; intros p p' Hp H; simpl in H; [by simplify_eq|].
  destruct (step p x) as [p1|] eqn:E; [|done]. eapply IH; [|done]. eapply HP; [done|by eapply step_stepped].
Qed.

(** ** The protocol of the mutex *)
Definition retires : bool := invalidates_on_gap (reconciliation pc).
(** What a thread inside knows: the recorded state, how many recorded gaps have
    not yet advanced the epoch, and whether the recovery queue is still to learn of
    a transition. *)
Record Inside := mkInside { in_seen : option BackplaneState; in_owed : Z; in_silent : bool }.
Definition is_mutex (c : RCall V) : bool :=
  match c with R_LockHealth | R_UnlockHealth | R_Seen | R_SetSeen _ => true | _ => false end.
Definition inside (s : Inside) (c : RCall V) (x : ranswer c) : Inside :=
  match c return ranswer c → Inside with
  | R_SetSeen state => λ _,
      mkInside (Some state) (if is_gap state (in_seen s) then in_owed s + 1 else in_owed s) true
  | R_BumpEpoch => λ _, mkInside (in_seen s) (in_owed s - 1) (in_silent s)
  | R_Suspend | R_Barrier _ => λ _, mkInside (in_seen s) (in_owed s) false
  | R_Until => λ until, match until with Some _ => s | None => mkInside (in_seen s) (in_owed s) false end
  | _ => λ _, s
  end x.
(** Nothing is left to do for what was recorded. *)
Definition discharged (s : Inside) : Prop :=
  (retires = true → in_owed s = 0) ∧ (has_recovery ci = true → in_silent s = false).
Fixpoint safe {A} (p : prog A) (st : option Inside) : Prop :=
  match p with
  | Ret _ => st = None
  | Act c k =>
      match st with
      | None =>
          match c return (ranswer c → prog A) → Prop with
          | R_LockHealth => λ k, ∀ seen, safe (k tt) (Some (mkInside seen 0 false))
          | c => λ k, is_mutex c = false ∧ ∀ x, safe (k x) None
          end k
      | Some s =>
          match c return (ranswer c → prog A) → Prop with
          | R_LockHealth => λ _, False
          | R_UnlockHealth => λ k, discharged s ∧ safe (k tt) None
          | R_Seen => λ k, safe (k (in_seen s)) st
          | c => λ k, ∀ x, safe (k x) (Some (inside s c x))
          end k
      end
  end.

Lemma safe_bind {A B} (p : prog A) (f : A → prog B) st :
  safe p st → (∀ a, safe (f a) None) → safe (bind p f) st.
Proof.
  intros Hp Hf. induction p as [a|c k IH] in st, Hp |- *; cbn in *; [subst; auto|].
  destruct st as [s|], c; try done; try (by destruct Hp as [? Hk]; split; auto); auto.
Qed.
Lemma safe_attempt {A B} (p : prog (result CacheError A)) (f : A → prog (result CacheError B)) st :
  safe p st → (∀ a, safe (f a) None) → safe (attempt p f) st.
Proof. intros Hp Hf. apply safe_bind; [done|]. by intros [a|e]. Qed.
Lemma safe_outside {A} (p : prog A) : only (λ c, is_mutex c = false) p → safe p None.
Proof. induction p as [a|c k IH]; cbn; [done|]. intros [Hc Hk]. destruct c; done || (split; [done|]; auto). Qed.

Lemma outside_layers : only (λ c, is_mutex c = false) (invalidate_memory_layers (V := V) mc).
Proof.
  unfold invalidate_memory_layers, begin_markers. apply only_bind; [done|]. intros values.
  apply only_bind; [by destruct (marker_reads mc)|]. intros markers.
  apply only_bind; [by destruct values|]. intros ?. apply only_bind; [by destruct markers as [[]|]|].
  intros ?. by repeat case_match.
Qed.
Lemma outside_close : only (λ c, is_mutex c = false) (close (V := V) ci).
Proof.
  unfold close. apply only_bind; [done|]. intros []; [|done..].
  apply only_bind; [done|]. intros _. apply only_bind; [by destruct (has_recovery ci)|]. done.
Qed.

(** What follows the mutex. *)
Definition leave (invalidate bumped : bool) : prog (result CacheError unit) :=
  Act (ans := ranswer (V := V)) R_UnlockHealth (λ _,
    attempt (if invalidate then invalidate_memory_layers mc else ok tt)
      (λ _, if negb bumped then bind (close ci) (λ _, ok tt) else ok tt)).
Lemma safe_leave s (invalidate bumped : bool) : discharged s → safe (leave invalidate bumped) (Some s).
Proof.
  intros Hs. unfold leave. cbn [safe]. split; [done|].
  apply safe_attempt; [apply safe_outside; destruct invalidate; [apply outside_layers|done]|].
  intros []. destruct bumped; [done|]. apply safe_bind; [apply safe_outside, outside_close|done].
Qed.
Lemma safe_announce state s (invalidate bumped : bool) :
  (retires = true → in_owed s = 0) → safe (bind (announce ci state) (λ _, leave invalidate bumped)) (Some s).
Proof.
  intros Ho. assert (∀ b, has_recovery ci = false ∨ b = false →
    safe (leave invalidate bumped) (Some (mkInside (in_seen s) (in_owed s) b))) as Hleave.
  { intros b Hb. apply safe_leave. split; [done|]. intros Hr. by destruct Hb; [congruence|]. }
  assert (has_recovery ci = false → safe (leave invalidate bumped) (Some s)) as Hnone.
  { intros Hr. destruct s as [seen owed silent]. apply Hleave. by left. }
  unfold announce, pause_after_reconnect. destruct state, (has_recovery ci) eqn:Hr; cbn [bind call safe inside]; intros; auto.
  destruct x0; cbn [bind call safe inside ok raise]; intros; apply Hleave; by right.
Qed.

Lemma safe_ensure_health : safe (ensure_health ci mc pc) None.
Proof.
  unfold ensure_health, connection. destruct (has_backplane ci); [|done]. cbn [bind call]. split; [done|].
  intros [current|]; [|done]. intros g. cbn [bind call safe in_seen].
  case_bool_decide; [by cbn|].
  cbn [bind call safe inside]. intros _. fold (is_gap current g). fold retires. cbn [in_seen in_owed].
  destruct (is_gap current g), retires eqn:Hr; cbn [andb bind call safe inside];
    try (intros bumped; apply (safe_announce current _ true bumped)); try apply (safe_announce current _ false true);
    cbn; done || congruence.
Qed.
Lemma safe_history_lost loss : safe (history_lost ci mc pc loss) None.
Proof.
  assert (safe (A := result CacheError unit) (resume ci) None) as Hresume.
  { unfold resume. destruct (has_recovery ci); [|done]. cbn. split; [done|]. by intros [until|]. }
  unfold history_lost. apply safe_attempt.
  - apply safe_outside. unfold continuity_gap. apply only_attempt; [|by destruct (has_recovery ci)].
    destruct (invalidates_on_gap _); [|done]. apply only_bind; [done|]. intros advanced.
    apply only_bind; [|intros _; apply outside_layers]. destruct advanced; [done|]. apply only_bind; [apply outside_close|done].
  - intros []. destruct loss; [| |done].
    + apply safe_attempt; [apply safe_ensure_health|done].
    + apply safe_attempt; [|by intros []]. unfold admitted. apply safe_attempt; [apply safe_ensure_health|].
      intros []. apply safe_bind; [|done]. unfold connection. by destruct (has_backplane ci).
Qed.
Lemma safe_new q (i : nat) x :
  q = [] ∨ q = [ensure_health ci mc pc] ∨ (∃ loss, q = [history_lost ci mc pc loss]) → q !! i = Some x → safe x None.
Proof.
  intros Hq Hi. destruct i as [|[]], Hq as [->|[->|[loss ->]]]; try discriminate Hi; injection Hi as <-;
    [apply safe_ensure_health|apply safe_history_lost].
Qed.

(** *** Invariants of what the mutex protects

    [R0] holds while nobody is inside, [R] relates a thread's knowledge to the
    world while it is. [Granted] restricts the answers of the accesses. *)
Section mutex.
Context (Granted : ∀ c : RCall V, ranswer c → Prop) (R0 : World → Prop) (R : Inside → World → Prop).
Context (H_outside : ∀ me w c x w', is_mutex c = false → access me w c = Some (x, w') → Granted c x →
           holder w ≠ Some me → (R0 w → R0 w') ∧ ∀ s, R s w → R s w').
Context (H_enter : ∀ me w, R0 w → R (mkInside (seen (guarded w)) 0 false) (w <| holder := Some me |>)).
Context (H_inside : ∀ me w c x w' s, c ≠ R_LockHealth → c ≠ R_UnlockHealth → access me w c = Some (x, w') → Granted c x →
           holder w = Some me → in_seen s = seen (guarded w) → R s w → R (inside s c x) w').
Context (H_leave : ∀ w s, in_seen s = seen (guarded w) → R s w → discharged s → R0 (w <| holder := None |>)).
Context (H_around : ∀ w w', (∃ t, w' = w <| transport := t |>) ∨ (∃ d, 0 ≤ d ∧ w' = w <| time := time w + d |>) →
           (R0 w → R0 w') ∧ ∀ s, R s w → R s w').

Definition mutex_inv (p : Pool) : Prop :=
  match holder (world p) with
  | None => R0 (world p) ∧ ∀ i q, threads p !! i = Some q → safe q None
  | Some h =>
      (∃ q s, threads p !! h = Some q ∧ safe q (Some s) ∧ in_seen s = seen (guarded (world p)) ∧ R s (world p)) ∧
      ∀ i q, i ≠ h → threads p !! i = Some q → safe q None
  end.

Lemma access_outside me w c x w' :
  is_mutex c = false → access me w c = Some (x, w') → guarded w' = guarded w ∧ holder w' = holder w.
Proof. destruct c; simpl; intros Hc H; simplify_eq; by repeat case_match; simplify_eq. Qed.
Lemma access_inside me w c x w' s :
  c ≠ R_LockHealth → c ≠ R_UnlockHealth → access me w c = Some (x, w') → in_seen s = seen (guarded w) →
  holder w' = holder w ∧ in_seen (inside s c x) = seen (guarded w').
Proof.
  intros H1 H2 H Hs. destruct (is_mutex c) eqn:Hc.
  - destruct c; try discriminate Hc; try done; simpl in H; by simplify_eq.
  - destruct (access_outside _ _ _ _ _ Hc H) as [-> ->]. split; [done|]. by destruct c; try discriminate Hc; simpl; try case_match.
Qed.
Lemma safe_inside_step {A} c (k : ranswer c → prog A) s me w x w' :
  safe (Act c k) (Some s) → access me w c = Some (x, w') → in_seen s = seen (guarded w) →
  (c = R_UnlockHealth ∧ w' = w <| holder := None |> ∧ discharged s ∧ safe (k x) None) ∨
  (c ≠ R_LockHealth ∧ c ≠ R_UnlockHealth ∧ safe (k x) (Some (inside s c x))).
Proof.
  intros Hs Ha Hseen. destruct c; simpl in Hs; try (right; split_and!; [done|done|apply Hs]); [done|left|].
  - simpl in Ha. injection Ha as <- <-. by destruct Hs.
  - right. simpl in Ha. injection Ha as <- <-. split_and!; [done|done|]. by rewrite <-Hseen.
Qed.
Lemma safe_outside_step {A} c (k : ranswer c → prog A) me w x w' :
  safe (Act c k) None → access me w c = Some (x, w') →
  (c = R_LockHealth ∧ holder w = None ∧ w' = w <| holder := Some me |> ∧ ∀ s, safe (k x) (Some (mkInside s 0 false))) ∨
  (is_mutex c = false ∧ safe (k x) None).
Proof.
  intros Hs Ha. destruct c; simpl in Hs; try (right; by destruct Hs). left. simpl in Ha.
  destruct (holder w); [done|]. injection Ha as <- <-. done.
Qed.

Lemma mutex_access p i c k x w :
  mutex_inv p → threads p !! i = Some (Act c k) → access i (world p) c = Some (x, w) → Granted c x →
  mutex_inv (mkPool w (<[i := k x]> (threads p))).
Proof.
  unfold mutex_inv. intros Hi Hq Ha Hgr. simpl.
  assert (∀ j q, j ≠ i → <[i := k x]> (threads p) !! j = Some q → threads p !! j = Some q) as Hne.
  { intros j q Hj. by rewrite list_lookup_insert_ne. }
  assert (<[i := k x]> (threads p) !! i = Some (k x)) as Hat by (apply list_lookup_insert_eq; by eapply lookup_lt_Some).
  assert (∀ st, safe (k x) st → (∀ j q, j ≠ i → threads p !! j = Some q → safe q None) → st = None →
    ∀ j q, <[i := k x]> (threads p) !! j = Some q → safe q None) as Hall'.
  { intros st Hst Ho -> j q Hl. destruct (decide (j = i)) as [->|]; [congruence|]. eauto. }
  destruct (holder (world p)) as [h|] eqn:Hh.
  - destruct Hi as [(q & s & Hth & Hs & Hseen & HR) Hall]. destruct (decide (i = h)) as [->|Hn].
    + rewrite Hq in Hth. injection Hth as <-.
      destruct (safe_inside_step _ _ _ _ _ _ _ Hs Ha Hseen) as [(-> & -> & Hd & Hk)|(Hl & Hu & Hk)].
      * simpl. split; [by eapply H_leave|]. by eapply Hall'.
      * destruct (access_inside _ _ _ _ _ _ Hl Hu Ha Hseen) as [-> Hseen']. rewrite Hh. split; [|intros j q Hj Hl'; eauto].
        exists (k x), (inside s c x). split_and!; [done..|by eapply H_inside].
    + destruct (safe_outside_step _ _ _ _ _ _ (Hall _ _ Hn Hq) Ha) as [(-> & E & _)|[Hc Hk]]; [congruence|].
      destruct (access_outside _ _ _ _ _ Hc Ha) as [Hg ->]. rewrite Hh. split.
      * exists q, s. rewrite list_lookup_insert_ne by done. rewrite Hg. split_and!; [done..|].
        eapply H_outside; [done|exact Ha|done|congruence|done].
      * intros j q' Hj Hl. destruct (decide (j = i)) as [->|]; [congruence|]. eauto.
  - destruct Hi as [H0 Hall].
    destruct (safe_outside_step _ _ _ _ _ _ (Hall _ _ Hq) Ha) as [(-> & _ & -> & Hk)|[Hc Hk]].
    + simpl. split; [|intros j q Hj Hl; eauto]. exists (k x), (mkInside (seen (guarded (world p))) 0 false).
      split_and!; [done..|by apply H_enter].
    + destruct (access_outside _ _ _ _ _ Hc Ha) as [Hg ->]. rewrite Hh. split.
      * eapply H_outside; [done|exact Ha|done|by rewrite Hh|done].
      * eapply Hall'; [done|by eauto|done].
Qed.
Lemma mutex_around p w q :
  mutex_inv p →
  (∃ t, w = world p <| transport := t |>) ∨ (∃ d, 0 ≤ d ∧ w = world p <| time := time (world p) + d |>) →
  q = [] ∨ q = [ensure_health ci mc pc] ∨ (∃ loss, q = [history_lost ci mc pc loss]) →
  mutex_inv (mkPool w (threads p ++ q)).
Proof.
  unfold mutex_inv. simpl. intros Hi Hw Hq. destruct (H_around _ _ Hw) as [H0 HR].
  assert (holder w = holder (world p) ∧ guarded w = guarded (world p)) as [-> ->].
  { by destruct Hw as [[? ->]|(? & _ & ->)]. }
  destruct (holder (world p)) as [h|].
  - destruct Hi as [(x & s & Hth & Hs & Hseen & Hr) Hall]. split.
    + exists x, s. split_and!; [by apply lookup_app_l_Some|done..|auto].
    + intros i y Hn [|[_ ?]]%lookup_app_Some; [eauto|by eapply safe_new].
  - destruct Hi as [Ht Hall]. split; [auto|]. intros i y [|[_ ?]]%lookup_app_Some; [eauto|by eapply safe_new].
Qed.
End mutex.

(** *** The epoch pays for every recorded gap *)
Definition account (w : World) (owed : Z) : Prop :=
  retires = true → epoch w = Z.min u64_max (gaps (guarded w) - owed + others w).
Definition inv : Pool → Prop := mutex_inv (λ w, account w 0) (λ s w, account w (in_owed s)).

Lemma bump_account w owed : account w owed → retires = true →
  (bump (epoch w)).2 = Z.min u64_max (gaps (guarded w) - owed + 1 + others w).
Proof.
  intros Ha Hr. specialize (Ha Hr). unfold bump. destruct (checked_add_u64 _ _) eqn:Hc; simpl.
  - apply checked_add_u64_Some in Hc as [-> ?]. lia.
  - unfold checked_add_u64 in Hc. case_match; [done|]. bool_to_prop. lia.
Qed.
Lemma account_outside me w c x w' owed :
  is_mutex c = false → access me w c = Some (x, w') → holder w ≠ Some me → account w owed → account w' owed.
Proof.
  intros Hc H Hh Ha Hr. pose proof (bump_account _ _ Ha Hr) as Hb. specialize (Ha Hr).
  destruct c; try discriminate Hc; simpl in H; simplify_eq; try exact Ha; try (by repeat case_match; simplify_eq).
  destruct (bump (epoch w)) as [b e]. simplify_eq. simpl in *. rewrite bool_decide_eq_false_2 by done. lia.
Qed.
Lemma account_inside me w c x w' s :
  c ≠ R_LockHealth → c ≠ R_UnlockHealth → access me w c = Some (x, w') → holder w = Some me →
  in_seen s = seen (guarded w) → account w (in_owed s) → account w' (in_owed (inside s c x)).
Proof.
  intros H1 H2 H Hh Hs Ha Hr. pose proof (bump_account _ _ Ha Hr) as Hb. specialize (Ha Hr).
  destruct c; try done; simpl in H; simplify_eq; try exact Ha; try (by repeat case_match; simplify_eq).
  - simpl. rewrite Hs. destruct (is_gap _ _); simpl; lia.
  - destruct (bump (epoch w)) as [b e]. simplify_eq. simpl in *. rewrite bool_decide_eq_true_2 by done. lia.
  - simpl. case_match; exact Ha.
Qed.
Lemma health_stepped p p' : inv p → stepped p p' → inv p'.
Proof.
  intros Hi [i c k x w Hq Ha|w q Hw Hq]; unfold inv in *.
  - eapply (mutex_access (λ _ _, True)); [..|exact Hi|exact Hq|exact Ha|done]; simpl.
    + intros. split; [|intros s]; by eapply account_outside.
    + done.
    + intros. by eapply account_inside.
    + intros w1 s _ Hs [Hz _] Hr. rewrite <-(Hz Hr). by apply Hs.
  - apply mutex_around; [|done..]. by intros w1 w2 [[t ->]|(d & _ & ->)].
Qed.
Lemma health_initial transport now : inv (initial transport now).
Proof. split; [done|]. by intros []. Qed.
Lemma health_execute l p p' : inv p → execute p l = Some p' → inv p'.
Proof. apply execute_stepped, health_stepped. Qed.

(** *** What is recorded is never forgotten *)
Definition later (w w' : World) : Prop :=
  gaps (guarded w) ≤ gaps (guarded w') ∧ others w ≤ others w' ∧ time w ≤ time w' ∧
  (gaps (guarded w') = gaps (guarded w) → is_Some (seen (guarded w)) → seen (guarded w') = seen (guarded w)).
Lemma later_worlds w1 w2 w3 : later w1 w2 → later w2 w3 → later w1 w3.
Proof.
  intros (Hg1 & Ho1 & Ht1 & H1) (Hg2 & Ho2 & Ht2 & H2). split_and!; [lia|lia|lia|]. intros E Hs.
  assert (seen (guarded w2) = seen (guarded w1)) as E1 by (apply H1; [lia|done]).
  rewrite H2; [done|lia|by rewrite E1].
Qed.
Lemma later_access me w c x w' : access me w c = Some (x, w') → later w w'.
Proof.
  intros H. destruct c; simpl in H; repeat case_match; simplify_eq; try done.
  - split_and!; simpl; [case_match; lia|lia|lia|]. intros E Hs. exfalso. unfold is_gap in E.
    rewrite (bool_decide_eq_true_2 _ Hs), orb_true_r in E. lia.
  - split_and!; simpl; [lia|case_bool_decide; lia|lia|done].
Qed.
Lemma later_stepped p p' : stepped p p' → later (world p) (world p').
Proof.
  intros [i c k x w Hq Ha|w q [[t ->]|(d & ? & ->)] Hq]; [by eapply later_access|done|].
  split_and!; simpl; done || lia.
Qed.
Lemma later_execute l p p' : execute p l = Some p' → later (world p) (world p').
Proof.
  apply (execute_stepped (λ p', later (world p) (world p'))); [|done].
  intros p1 p2 H1 H2%later_stepped. by eapply later_worlds.
Qed.

(** ** The reconnect delay

    [pause_after_reconnect] stores what it computed from the clock with its next
    access. [pending] is that value, until it is stored. *)
Fixpoint orderly {A} (pending : option Instant) (p : prog A) : Prop :=
  match p with
  | Ret _ => pending = None
  | Act c k =>
      match pending with
      | None =>
          match c return (ranswer c → prog A) → Prop with
          | R_Until => λ k, ∀ until, orderly until (k until)
          | R_Barrier _ => λ _, False
          | _ => λ k, ∀ x, orderly None (k x)
          end k
      | Some until =>
          match c return (ranswer c → prog A) → Prop with
          | R_Barrier until' => λ k, until' = until ∧ orderly None (k tt)
          | _ => λ _, False
          end k
      end
  end.
Definition is_barrier (c : RCall V) : bool := match c with R_Until | R_Barrier _ => true | _ => false end.
Lemma orderly_bind {A B} (p : prog A) (f : A → prog B) pending :
  orderly pending p → (∀ a, orderly None (f a)) → orderly pending (bind p f).
Proof.
  intros Hp Hf. induction p as [a|c k IH] in pending, Hp |- *; cbn in *; [subst; auto|].
  destruct pending, c; try done; try (by destruct Hp; split; auto); auto.
Qed.
Lemma orderly_attempt {A B} (p : prog (result CacheError A)) (f : A → prog (result CacheError B)) :
  orderly None p → (∀ a, orderly None (f a)) → orderly None (attempt p f).
Proof. intros Hp Hf. apply orderly_bind; [done|]. by intros [a|e]. Qed.
Lemma orderly_calm {A} (p : prog A) : only (λ c, is_barrier c = false) p → orderly None p.
Proof. induction p as [a|c k IH]; cbn; [done|]. intros [Hc Hk]. destruct c; done || auto. Qed.
Lemma orderly_pause : orderly None (pause_after_reconnect (V := V)).
Proof. unfold pause_after_reconnect. cbn. by intros [until|]. Qed.
Lemma calm_layers : only (λ c, is_barrier c = false) (invalidate_memory_layers (V := V) mc).
Proof.
  unfold invalidate_memory_layers, begin_markers. apply only_bind; [done|]. intros values.
  apply only_bind; [by destruct (marker_reads mc)|]. intros markers.
  apply only_bind; [by destruct values|]. intros ?. apply only_bind; [by destruct markers as [[]|]|].
  intros ?. by repeat case_match.
Qed.
Lemma calm_close : only (λ c, is_barrier c = false) (close (V := V) ci).
Proof.
  unfold close. apply only_bind; [done|]. intros []; [|done..].
  apply only_bind; [done|]. intros _. apply only_bind; [by destruct (has_recovery ci)|]. done.
Qed.
Lemma orderly_ensure_health : orderly None (ensure_health ci mc pc).
Proof.
  unfold ensure_health, connection. destruct (has_backplane ci); [|done]. cbn [bind call orderly].
  intros [current|]; [|done]. cbn [bind call orderly]. intros _ seen. case_bool_decide; [by cbn|].
  cbn [bind call orderly]. intros _. apply orderly_bind; [by case_match|]. intros advanced.
  apply orderly_bind; [unfold announce; destruct current; [|by destruct (has_recovery ci)..]|].
  - cbn [bind call orderly]. intros _. destruct (has_recovery ci); [|done]. apply orderly_bind; [apply orderly_pause|done].
  - intros _. cbn [bind call orderly]. intros _. apply orderly_attempt.
    + apply orderly_calm. case_match; [apply calm_layers|done].
    + intros _. destruct advanced; [done|]. apply orderly_bind; [apply orderly_calm, calm_close|done].
Qed.
Lemma orderly_history_lost loss : orderly None (history_lost ci mc pc loss).
Proof.
  assert (orderly (A := result CacheError unit) None (resume ci)) as Hresume.
  { unfold resume. destruct (has_recovery ci); [|done]. apply orderly_bind; [apply orderly_pause|done]. }
  unfold history_lost. apply orderly_attempt.
  - unfold continuity_gap. apply orderly_attempt; [|intros _; by destruct (has_recovery ci)].
    destruct (invalidates_on_gap _); [|done]. apply orderly_bind; [done|]. intros advanced. apply orderly_bind.
    + destruct advanced; [done|]. apply orderly_bind; [apply orderly_calm, calm_close|done].
    + intros _. apply orderly_calm, calm_layers.
  - intros []. destruct loss; [| |done].
    + apply orderly_attempt; [apply orderly_ensure_health|done].
    + apply orderly_attempt; [|by intros []]. apply orderly_attempt; [apply orderly_ensure_health|].
      intros []. apply orderly_bind; [|done]. unfold connection. by destruct (has_backplane ci).
Qed.

(** Every value that is to be stored satisfies [L]. *)
Definition punctual (L : Instant → Prop) (p : Pool) : Prop :=
  ∀ i q, threads p !! i = Some q → ∃ pending, orderly pending q ∧ from_option L True pending.
Lemma punctual_access (L : Instant → Prop) p i c k x w :
  punctual L p → threads p !! i = Some (Act c k) → access i (world p) c = Some (x, w) →
  (∀ until, reconnect_delay (time (world p)) = Some until → L until) →
  punctual L (mkPool w (<[i := k x]> (threads p))) ∧ (∀ until, c = R_Barrier until → L until).
Proof.
  intros Hp Hq Ha HL. destruct (Hp _ _ Hq) as (pending & Ho & Hpend).
  assert ((∃ pending, orderly pending (k x) ∧ from_option L True pending) ∧ (∀ until, c = R_Barrier until → L until)) as [Hk Hc].
  { destruct pending as [u|].
    - destruct c; try done. cbn in Ho. destruct Ho as [-> Ho]. destruct x. split; [by exists None|]. by intros ? [= ->].
    - destruct (is_barrier c) eqn:Hb; [destruct c; try done|].
      + simpl in Ha. injection Ha as <- <-. split; [|done]. exists (reconnect_delay (time (world p))). split; [apply Ho|].
        destruct (reconnect_delay _); [by apply HL|done].
      + split; [|by intros u ->]. exists None. split; [|done]. destruct c; try discriminate Hb; apply Ho. }
  split; [|done]. intros j q Hl. simpl in Hl. destruct (decide (j = i)) as [->|].
  - rewrite list_lookup_insert_eq in Hl by (by eapply lookup_lt_Some). by simplify_eq.
  - rewrite list_lookup_insert_ne in Hl by done. eauto.
Qed.
Lemma punctual_around L p w q :
  punctual L p → q = [] ∨ q = [ensure_health ci mc pc] ∨ (∃ loss, q = [history_lost ci mc pc loss]) →
  punctual L (mkPool w (threads p ++ q)).
Proof.
  intros Hp Hq i x [Hl|[_ Hl]]%lookup_app_Some; [by eapply Hp|]. exists None. split; [|done].
  destruct (i - length (threads p))%nat as [|[]], Hq as [->|[->|[loss ->]]]; try discriminate Hl; injection Hl as <-;
    [apply orderly_ensure_health|apply orderly_history_lost].
Qed.
Lemma punctual_execute l state now p : execute (initial state now) l = Some p → punctual (λ _, True) p.
Proof.
  apply (execute_stepped (punctual (λ _, True))); [|by intros []].
  intros p1 p2 H1 [i c k x w Hq Ha|w q _ Hq]; [|by apply punctual_around].
  by apply (punctual_access (λ _, True) p1 i c k x w).
Qed.

(** No thread stands between reading the clock and setting the barrier. *)
Definition unhurried (p : Pool) : Prop :=
  ∀ (i : nat) until (k : unit → prog (result CacheError unit)), threads p !! i ≠ Some (Act (R_Barrier until) k).
Lemma unhurried_punctual L p : punctual (λ _, True) p → unhurried p → punctual L p.
Proof.
  intros Hp Hu i q Hq. destruct (Hp _ _ Hq) as ([until|] & Ho & _); [|by exists None]. exfalso.
  destruct q as [|c k]; [done|]. destruct c; try done. by eapply Hu.
Qed.

(** The replay waits at least until [at_]. *)
Definition waits (at_ : Instant) (w : World) : Prop := ∀ t, t < at_ → paused (barrier w) t = true.
Lemma waits_after at_ until w : at_ ≤ until → waits at_ (w <| barrier := RB_After until |>).
Proof. intros H t Ht. simpl. apply Z.ltb_lt. lia. Qed.
Lemma waits_access at_ me w c x w' :
  access me w c = Some (x, w') → (∀ until, c = R_Barrier until → at_ ≤ until) → waits at_ w → waits at_ w'.
Proof.
  intros H Hc Hw. destruct c; simpl in H; repeat case_match; simplify_eq; try exact Hw; [by intros|].
  by apply waits_after, Hc.
Qed.

Section delay.
Context (from : Instant).
Local Abbreviation due := (from + delay).
(** The pools from [from] on whose clock does not overflow. *)
Definition on_time (p : Pool) : Prop :=
  from ≤ time (world p) ∧ time (world p) + delay ≤ instant_max ∧ punctual (λ until, due ≤ until) p.
Lemma on_time_delay p : on_time p → reconnect_delay (time (world p)) = Some (time (world p) + delay).
Proof. intros (_ & H & _). unfold reconnect_delay. by rewrite (proj2 (Z.leb_le _ _) H). Qed.
Lemma on_time_access p i c k x w :
  on_time p → threads p !! i = Some (Act c k) → access i (world p) c = Some (x, w) →
  punctual (λ until, due ≤ until) (mkPool w (<[i := k x]> (threads p))) ∧ ∀ until, c = R_Barrier until → due ≤ until.
Proof.
  intros Hp Hq Ha. pose proof (on_time_delay p Hp) as Hd. destruct Hp as (? & ? & Hp).
  apply (punctual_access (λ until, due ≤ until) p); [done..|]. rewrite Hd. intros u [= <-]. lia.
Qed.
Lemma on_time_execute (P : Pool → Prop) :
  (∀ p i c k x w, on_time p → P p → threads p !! i = Some (Act c k) → access i (world p) c = Some (x, w) →
     P (mkPool w (<[i := k x]> (threads p)))) →
  (∀ p w q, P p → 
     (∃ t, w = world p <| transport := t |>) ∨ (∃ d, 0 ≤ d ∧ w = world p <| time := time (world p) + d |>) →
     q = [] ∨ q = [ensure_health ci mc pc] ∨ (∃ loss, q = [history_lost ci mc pc loss]) → P (mkPool w (threads p ++ q))) →
  ∀ l p p', punctual (λ until, due ≤ until) p → from ≤ time (world p) → P p → execute p l = Some p' →
  time (world p') + delay ≤ instant_max → P p'.
Proof.
  intros Hacc Haround. induction l as [|x l IH]; intros p p' Ht Hf Hp H Hmax; simpl in H; [by simplify_eq|].
  destruct (step p x) as [p1|] eqn:E; [|done]. destruct (later_execute _ _ _ H) as (_ & _ & Ht1 & _).
  apply step_stepped in E. destruct (later_stepped _ _ E) as (_ & _ & Ht0 & _).
  assert (on_time p) as Hon by (split_and!; [done|lia|done]).
  eapply (IH p1); [| |destruct E as [i c k y w Hq Ha|w q Hw Hq]|done|done]; [|lia|by eapply Hacc|by apply Haround].
  destruct E as [i c k y w Hq Ha|w q Hw Hq]; [by eapply on_time_access|by apply punctual_around].
Qed.

(** A transition that is recorded is announced. *)
Context (before : Guarded).
Definition settled (w : World) : Prop := has_recovery ci = true → guarded w ≠ before → waits due w.
Definition settled_inv : Pool → Prop := mutex_inv settled (λ s w, in_silent s = false → settled w).
Definition granted (c : RCall V) (x : ranswer c) : Prop :=
  match c return ranswer c → Prop with
  | R_Until => λ until, until ≠ None
  | R_Barrier until => λ _, due ≤ until
  | _ => λ _, True
  end x.
Lemma settled_outside me w c x w' :
  is_mutex c = false → access me w c = Some (x, w') → granted c x → settled w → settled w'.
Proof.
  intros Hc Ha Hg Hs Hr Hseen. destruct (access_outside _ _ _ _ _ Hc Ha) as [E _]. rewrite E in Hseen.
  eapply waits_access; [done| |by apply Hs]. by intros u ->.
Qed.
Lemma settled_inside me w c x w' s :
  c ≠ R_LockHealth → c ≠ R_UnlockHealth → access me w c = Some (x, w') → granted c x →
  (in_silent s = false → settled w) → in_silent (inside s c x) = false → settled w'.
Proof.
  intros H1 H2 Ha Hg Hs Hi. destruct (is_mutex c) eqn:Hc.
  - destruct c; try done. simpl in Ha. simplify_eq. auto.
  - destruct c; try done; try (eapply settled_outside; [done|exact Ha|done|by apply Hs]); simpl in Ha; simplify_eq.
    + by intros _ _ t _.
    + apply Hs. cbn in Hg. simpl in Hi. by destruct (reconnect_delay (time w')).
    + intros _ _. by apply waits_after.
Qed.
Lemma settled_execute l p p' :
  punctual (λ until, due ≤ until) p → from ≤ time (world p) → settled_inv p → execute p l = Some p' →
  time (world p') + delay ≤ instant_max → settled_inv p'.
Proof.
  apply (on_time_execute settled_inv).
  - intros p0 i c k x w Hon Hi Hq Ha. destruct (on_time_access _ _ _ _ _ _ Hon Hq Ha) as [_ Hb].
    eapply (mutex_access granted); [..|exact Hi|exact Hq|exact Ha|]; simpl.
    + intros. split; [|intros s Hs Hsil; specialize (Hs Hsil)]; by eapply settled_outside.
    + done.
    + intros. by eapply settled_inside.
    + intros w1 s _ Hs [_ Hz] Hr. by apply (Hs (Hz Hr)).
    + destruct c; try done; [|by apply Hb]. simpl in Ha. injection Ha as <- _. by rewrite (on_time_delay _ Hon).
  - intros p0 w q Hi Hw Hq. apply mutex_around; [|done..]. by intros w1 w2 [[t ->]|(d & _ & ->)].
Qed.
End delay.

(** A program that succeeds only after it suspended the replay. *)
Fixpoint suspends {A} (p : prog (result CacheError A)) : Prop :=
  match p with
  | Ret r => ∃ e, r = Err e
  | Act c k => c = R_Suspend ∨ ∀ x, suspends (k x)
  end.
Lemma suspends_attempt {A B} (p : prog (result CacheError A)) (f : A → prog (result CacheError B)) :
  suspends p → suspends (attempt p f).
Proof. induction p as [a|c k IH]; cbn; [by intros [e ->]; exists e|]. intros [?|Hk]; [by left|]. right. intros x. by apply IH. Qed.
Lemma suspends_then {A B} (p : prog A) (f : A → prog (result CacheError B)) : (∀ a, suspends (f a)) → suspends (bind p f).
Proof. intros Hf. induction p as [a|c k IH]; cbn; [done|]. by right. Qed.
Lemma suspends_history_lost loss : has_recovery ci = true → suspends (history_lost ci mc pc loss).
Proof.
  intros Hr. unfold history_lost, continuity_gap. rewrite Hr. apply suspends_attempt, suspends_then.
  intros [[]|e]; cbn; eauto.
Qed.
Lemma loss_execute from i l p p' :
  punctual (λ until, from + delay ≤ until) p → from ≤ time (world p) →
  (∃ q, threads p !! i = Some q ∧ suspends q) → execute p l = Some p' → time (world p') + delay ≤ instant_max →
  ∃ q, threads p' !! i = Some q ∧ (suspends q ∨ waits (from + delay) (world p')).
Proof.
  intros Hp Hf (q & Hq & Hs).
  apply (on_time_execute from (λ p, ∃ q, threads p !! i = Some q ∧ (suspends q ∨ waits (from + delay) (world p)))); [..|done|done|eauto].
  - intros p0 j c k x w Hon (q0 & Hq0 & Hs0) Hj Ha. destruct (on_time_access _ _ _ _ _ _ _ Hon Hj Ha) as [_ Hb].
    assert (waits (from + delay) (world p0) → waits (from + delay) w) as Hkeep by (by eapply waits_access).
    simpl. destruct (decide (j = i)) as [->|Hn].
    + rewrite Hj in Hq0. injection Hq0 as <-. exists (k x). rewrite list_lookup_insert_eq by (by eapply lookup_lt_Some).
      split; [done|]. destruct Hs0 as [[->|Hk]|?]; [right|by left|by right; auto].
      simpl in Ha. injection Ha as _ <-. by intros t _.
    + exists q0. rewrite list_lookup_insert_ne by done. split; [done|]. destruct Hs0; auto.
  - intros p0 w q1 (q0 & Hq0 & Hs0) Hw _. exists q0. simpl. split; [by apply lookup_app_l_Some|].
    destruct Hs0 as [?|Hwait]; [by left|]. right. by destruct Hw as [[t ->]|(d & _ & ->)].
Qed.
End pool.

(** A cache that discards what a gap may have made stale. *)
Definition strict_peers : PeerConfig := mkPeers BackplaneContinuity false.
Definition demo_run (l : list Label) : option (Pool (V := nat)) :=
  execute demo_inner demo_config strict_peers 5 1000 (initial (Some (BS_Connected 1)) 0) l.
Definition whole (i n : nat) : list Label := Check_ :: replicate n (Run i).
Definition finished (p : Pool (V := nat)) : bool :=
  forallb (λ q, match q with Ret (Ok _) => true | _ => false end) (threads p).
End Health.

Module HealthTheorems.
Import Health.
Section theorems.
Context {V : Type} (ci : Inner) (mc : MarkerConfig) (pc : PeerConfig) (delay instant_max : Z).

(** C26: However many health checks run at once, however often the listener finds
    history lost, and whatever the connection does meanwhile, under a policy that
    discards on gaps: between two moments at which nobody is inside the mutex, a
    change of the recorded state means that the continuity epoch has advanced
    (or is exhausted), and that no fence captured before the change is current for
    a passive write after it. Under the other policies neither is promised. *)
Theorem gaps_retire_captured_epochs state now l1 l2 (p1 p2 : Pool (V := V)) s :
  execute ci mc pc delay instant_max (initial state now) l1 = Some p1 →
  execute ci mc pc delay instant_max p1 l2 = Some p2 →
  holder (world p1) = None → holder (world p2) = None →
  invalidates_on_gap (reconciliation pc) = true →
  seen (guarded (world p1)) = Some s → seen (guarded (world p2)) ≠ Some s →
  (epoch (world p1) < epoch (world p2) ∨ epoch (world p2) = u64_max) ∧
  ∀ (fence : Fences.Fence) (lane : Fences.KeyLane),
    Fences.captured_epoch fence ≤ epoch (world p1) → epoch (world p2) ≠ u64_max →
    Fences.passive_is_current fence lane (epoch (world p2)) = false.
Proof.
  intros H1 H2 Hh1 Hh2 Hr Hs1 Hs2.
  assert (inv ci pc p1) as Hi1 by (eapply health_execute; [apply health_initial|exact H1]).
  assert (inv ci pc p2) as Hi2 by (eapply health_execute; [exact Hi1|exact H2]).
  unfold inv, mutex_inv in Hi1, Hi2. rewrite Hh1 in Hi1. rewrite Hh2 in Hi2.
  destruct Hi1 as [A1 _], Hi2 as [A2 _]. specialize (A1 Hr). specialize (A2 Hr).
  destruct (later_execute _ _ _ _ _ _ _ _ H2) as (Hg & Ho & _ & Heq).
  assert (gaps (guarded (world p1)) < gaps (guarded (world p2))) as Hlt.
  { destruct (Z.eq_dec (gaps (guarded (world p2))) (gaps (guarded (world p1)))) as [E|]; [|lia].
    exfalso. apply Hs2. rewrite Heq, Hs1; [done|done|by rewrite Hs1]. }
  split; [lia|]. intros fence lane Hf Hm. unfold Fences.passive_is_current.
  apply andb_false_intro2, Z.eqb_neq. lia.
Qed.

(** C34: No drain of the recovery queue starts replaying within the reconnect delay
    of a transition or of a loss of history. From any reachable moment at which no
    thread stands between reading the clock and setting the barrier, whatever
    checks and listener turns run then, one access at a time, under the mutex and
    without it: if at a later moment nobody is inside the mutex and a transition of
    the connection has been recorded since (a first acknowledgement included), or
    if a turn of the listener that found history lost, not begun at the first
    moment, has since succeeded, then a drain that looks at the barrier is paused
    until the reconnect delay has passed since the first moment, as long as the
    clock has room for the delay. A disconnect that was recorded last is not
    promised to suspend the drains for good: a lag of the listener lifts it. *)
Theorem replays_wait_out_transitions state now l1 l2 (p1 p2 : Pool (V := V)) at_ :
  has_recovery ci = true →
  execute ci mc pc delay instant_max (initial state now) l1 = Some p1 →
  execute ci mc pc delay instant_max p1 l2 = Some p2 →
  unhurried p1 → time (world p2) + delay ≤ instant_max →
  (holder (world p2) = None ∧ guarded (world p2) ≠ guarded (world p1)) ∨
  (∃ i loss r, threads p1 !! i = Some (history_lost ci mc pc loss) ∧ threads p2 !! i = Some (Ret (Ok r))) →
  at_ < time (world p1) + delay → paused (barrier (world p2)) at_ = true.
Proof.
  intros Hr H1 H2 Hu Hmax Hwhy. revert at_. change (waits (time (world p1) + delay) (world p2)).
  assert (punctual (λ until, time (world p1) + delay ≤ until) p1) as Hp.
  { apply unhurried_punctual; [by eapply punctual_execute|done]. }
  destruct Hwhy as [[Hh Hseen]|(i & loss & r & Hi1 & Hi2)].
  - assert (settled_inv ci pc delay (time (world p1)) (guarded (world p1)) p2) as Hset.
    { eapply settled_execute; [exact Hp|done| |exact H2|done].
      assert (inv ci pc p1) as Hi1 by (eapply health_execute; [apply health_initial|exact H1]).
      unfold inv, settled_inv, mutex_inv, settled in *. destruct (holder (world p1)).
      - destruct Hi1 as [(q & s & ? & ? & ? & _) Hall]. split; [|done]. exists q, s. by split_and!.
      - by destruct Hi1. }
    unfold settled_inv, mutex_inv in Hset. rewrite Hh in Hset. by apply Hset.
  - destruct (loss_execute ci mc pc delay instant_max (time (world p1)) i l2 p1 p2) as (q & Hq & [Hs|Hw]); try done.
    + eexists. split; [exact Hi1|by apply suspends_history_lost].
    + rewrite Hi2 in Hq. injection Hq as <-. by destruct Hs.
Qed.
End theorems.

(** What a demonstration run leaves behind. *)
Definition summary (p : Pool (V := nat)) : option BackplaneState * option BackplaneState * RecoveryBarrier * option nat * Z :=
  (transport (world p), seen (guarded (world p)), barrier (world p), holder (world p), epoch (world p)).
Definition first_check : list Label := whole 0 8.
Definition lost_connection : list Label := Network (BS_Disconnected 1) :: whole 1 12.
Lemma demo_first : summary <$> demo_run first_check =
  Some (Some (BS_Connected 1), Some (BS_Connected 1), RB_After 5, None, 0).
Proof. vm_compute. reflexivity. Qed.
Lemma demo_lost :
  (p ← demo_run first_check; summary <$> execute demo_inner demo_config strict_peers 5 1000 p lost_connection) =
  Some (Some (BS_Disconnected 1), Some (BS_Disconnected 1), RB_Disconnected, None, 1).
Proof. vm_compute. reflexivity. Qed.

Lemma gaps_retire_captured_epochs_witness :
  ∃ p1 p2 : Pool (V := nat), demo_run first_check = Some p1 ∧
    (epoch (world p1) < epoch (world p2) ∨ epoch (world p2) = u64_max).
Proof.
  pose proof demo_first as E1. pose proof demo_lost as E2.
  destruct (demo_run first_check) as [p1|] eqn:H1; [|discriminate E1].
  cbv [fmap option_fmap option_map mbind option_bind] in E1, E2.
  destruct (execute demo_inner demo_config strict_peers 5 1000 p1 lost_connection) as [p2|] eqn:H2; [|discriminate E2].
  exists p1, p2. split; [done|]. unfold summary in E1, E2. injection E1 as _ S1 _ h1 _.
  injection E2 as _ S2 _ h2 _.
  eapply (gaps_retire_captured_epochs demo_inner demo_config strict_peers 5 1000 _ _ _ _ p1 p2 (BS_Connected 1) H1 H2);
    [done|done|reflexivity|done|by rewrite S2].
Defined.
Definition lag_starts : list Label := first_check ++ [Tick 3; Lost L_Lagged].
Definition lag_ends : list Label := replicate 13 (Run 1).
Definition barrier_next (q : Calls.prog (ranswer (V := nat)) (result CacheError unit)) : bool :=
  match q with Act (R_Barrier _) _ => true | _ => false end.
Lemma unhurried_threads (p : Pool (V := nat)) : forallb (λ q, negb (barrier_next q)) (threads p) = true → unhurried p.
Proof.
  intros H i u k Hi. rewrite forallb_forall in H. apply list_elem_of_lookup_2, list_elem_of_In, H in Hi. discriminate Hi.
Qed.
Definition at_lag (p : Pool (V := nat)) :=
  (threads p !! 1%nat, time (world p), forallb (λ q, negb (barrier_next q)) (threads p)).
Definition after_lag (p : Pool (V := nat)) := (threads p !! 1%nat, time (world p), barrier (world p)).
Lemma demo_lag_starts :
  at_lag <$> demo_run lag_starts = Some (Some (history_lost demo_inner demo_config strict_peers L_Lagged), 3, true).
Proof. vm_compute. reflexivity. Qed.
Lemma demo_lag_ends :
  after_lag <$> (demo_run lag_starts ≫= λ p, execute demo_inner demo_config strict_peers 5 1000 p lag_ends) =
  Some (Some (Ret (Ok tt)), 3, RB_After 8).
Proof. vm_compute. reflexivity. Qed.
Lemma replays_wait_out_transitions_witness :
  ∃ p1 p2 : Pool (V := nat), demo_run lag_starts = Some p1 ∧ time (world p1) = 3 ∧
    execute demo_inner demo_config strict_peers 5 1000 p1 lag_ends = Some p2 ∧ paused (barrier (world p2)) 7 = true.
Proof.
  destruct (fmap_Some_1 _ _ _ demo_lag_starts) as (p1 & H1 & E1). unfold at_lag in E1. injection E1 as T1 M1 Hu.
  destruct (fmap_Some_1 _ _ _ demo_lag_ends) as (p2 & H & E2). unfold after_lag in E2. injection E2 as T2 M2 _.
  apply bind_Some in H as (p & H & H2). rewrite H1 in H. injection H as <-.
  exists p1, p2. split; [exact H1|]. split; [done|]. split; [exact H2|].
  eapply (replays_wait_out_transitions demo_inner demo_config strict_peers 5 1000 _ _ _ _ p1 p2 7 eq_refl H1 H2).
  - by apply unhurried_threads.
  - by rewrite <-M2.
  - right. exists 1%nat, L_Lagged, tt. by rewrite <-T1, <-T2.
  - by rewrite <-M1.
Defined.

(** The connection is read before the mutex is taken: a check that read a
    disconnect and was then delayed suspends the replay after a newer
    acknowledgement was recorded, and leaves it suspended although the backplane
    is connected. *)
Definition delayed_check : list Label :=
  first_check ++ [Network (BS_Disconnected 1); Check_; Run 1; Network (BS_Connected 2)] ++ whole 2 14
  ++ replicate 11 (Run 1).
Lemma stale_check_suspends_replay :
  (λ p, (summary p, finished p)) <$> demo_run delayed_check =
  Some (Some (BS_Connected 2), Some (BS_Disconnected 1), RB_Disconnected, None, 2, true).
Proof. vm_compute. reflexivity. Qed.

(** A lag lifts the suspension of a disconnect: the listener's turn ends in a
    pause without asking whether an acknowledgement has come. *)
Definition lag_while_disconnected : list Label :=
  first_check ++ lost_connection ++ Lost L_Lagged :: replicate 13 (Run 2).
Lemma lag_lifts_the_suspension :
  (λ p, (summary p, finished p)) <$> demo_run lag_while_disconnected =
  Some (Some (BS_Disconnected 1), Some (BS_Disconnected 1), RB_After 5, None, 2, true).
Proof. vm_compute. reflexivity. Qed.
End HealthTheorems.
