(* ===== verification/Listen.v ===== *)
(** * Incoming notifications

    Models the listener of [src/src/cache/runtime.rs]: how a node applies what a
    peer announced. A data message is applied under the lane of its key, in the
    order of its timestamp; the refresh it may start is a task of its own
    ([passive]). The JSON library of the frames is a parameter, as in
    [Backplane]. *)
From S2P Require Import Supplied.
From S2P Require Import Prelude Time Calls Circuit Options Entry Tags Backplane Cancellation.
From S2P Require Import Invalidation Storage Lanes Wire Lease Recovery Observe Worker Read Write Control Markers Mutate Health.
Open Scope prog_scope.

(** What the listener's [select!] delivers. *)
Inductive Incoming := IN_Message (message : BackplaneMessage) | IN_Lagged | IN_Closed | IN_Health.

Section listen.
Context {V : Type} (ci : Inner) (mc : MarkerConfig) (pc : PeerConfig).
Context {JsonError : Type} (from_slice : list Z → result JsonError SourceFrame).
Local Abbreviation prog := (prog (ranswer (V := V))).
Local Abbreviation action A := (prog (result CacheError A)).
Local Abbreviation ask c := (call (ans := ranswer (V := V)) c).
Local Abbreviation tell c := (call (ans := ranswer (V := V)) (R_Control (M_Worker c))).
Local Abbreviation Entry := (Entry V).

(** A value pipeline's operation, in a background service. *)
Definition worker {A} (p : Calls.prog (answer (V := V)) A) : prog A := control (lift p).

Definition logical_key (physical : string) : option string :=
  key ← DistributedKey.logical (distributed_key ci) physical;
  match key_prefix ci with
  | Some prefix => if Backplane.starts_with key prefix then Some key else None
  | None => Some key
  end.

(** ** The refresh of a value that a peer replaced *)
Definition raw_key (key : string) : string :=
  match key_prefix ci with Some prefix => default key (Backplane.strip_prefix prefix key) | None => key end.

(** Evaluated under the guard of the lane. *)
Definition refresh_held (key : string) (expected : Entry) (fence : Fences.Fence) (opts : EntryOptions)
    (read : result CacheError (option (DistributedLookup V))) : action unit :=
  let* current := tell (C_PassiveCurrent fence) in
  if negb current then ok tt
  else
    let discard := let? _ := tell (C_RemoveIfSame key expected) in ok tt in
    match read with
    | Ok (Some found) =>
        let source := lookup_entry found in
        let* verdict := worker (evaluate_tags ci source) in
        if bool_decide (verdict = Remove) then discard
        else if EntryOptions.skip_memory_write opts then ok tt
        else
          let* now := tell C_Now in
          let* stamps := tell C_Stamps in
          let? prepared := Ret (map_err from_entry_error (Entry.prepare_memory_hydration stamps source opts now)) in
          match prepared with
          | None => ok tt
          | Some local =>
              let? value := worker (copy ci (Entry.value source) opts) in
              let* p := tell C_Alloc in
              let local := mkEntry p (mkInner value local
                             (EL_Hydrated (mkStamp (epoch_loc ci) (Fences.captured_epoch fence)))) in
              let* current := tell (C_PassiveCurrent fence) in
              if negb current then ok tt
              else
                let* now := tell C_Now in
                let? _ := tell (C_InsertIfUnchanged key (Some expected) local now) in
                ok tt
          end
    | Err (CE_OperationCancelled reason) => raise (CE_OperationCancelled reason)
    | Err (CE_FactoryCancelled reason) => raise (CE_FactoryCancelled reason)
    | Ok None | Err _ => discard
    end.

Definition passive (key : string) (expected : Entry) (fence : Fences.Fence) : action unit :=
  let? opts := worker (resolve_options ci (raw_key key) None) in
  let* read := worker (read_l2 ci key opts FA_Unavailable) in
  tell (C_Lane key) ;;;
  let* r := refresh_held key expected fence opts read in
  tell (C_Unlane key) ;;;
  Ret r.

(** ** Messages *)
Definition after (at_ : option Timestamp) (than : Timestamp) : bool :=
  match at_ with Some at_ => than <? at_ | None => false end.
Definition created_of (e : option Entry) : option Timestamp := (λ e, created (Entry.meta e)) <$> e.

Definition resident_event (key : string) (existing : option Entry) (now : Timestamp) : LayerEvent :=
  match existing with
  | Some e => LE_MemoryHit key (Entry.is_logically_expired e now)
  | None => LE_MemoryMiss key
  end.

(** Evaluated under the guard of the lane; what it answers is to be refreshed. *)
Definition apply_held (key : string) (message : BackplaneMessage) : action (option (Entry * Fences.Fence)) :=
  let at_ := msg_timestamp message in
  let* stamp := ask (R_LaneTimestamp key) in
  if after stamp at_ then ok None
  else
    let* now := tell C_Now in
    let? existing := tell (C_GetAt key now) in
    (if bool_decide (msg_action message = BA_Set) then worker (emit_layer (resident_event key existing now)) else Ret tt) ;;;
    if after (created_of existing) at_ then ok None
    else
      let* advanced := tell (C_Advance key at_) in
      let? fence := Ret (map_err CE_Recovery advanced) in
      (if has_recovery ci then let* _ := ask (R_CancelThrough key at_) in Ret tt else Ret tt) ;;;
      match msg_action message, existing with
      | BA_Remove, _ => let? _ := tell (C_Remove key) in ok None
      | BA_Expire, Some e =>
          let* p := tell C_Alloc in
          let* now := tell C_Now in
          let? _ := tell (C_ExpireIfUnchanged key e (Entry.with_logical_expiration p e at_) now) in
          ok None
      | BA_Set, Some e => ok (Some (e, fence))
      | BA_Expire, None | BA_Set, None => ok None
      end.

Definition apply_data (message : BackplaneMessage) : action unit :=
  match logical_key (msg_key message) with
  | None => ok tt
  | Some key =>
      ask (R_Message key) ;;;
      tell (C_Lane key) ;;;
      let* r := apply_held key message in
      tell (C_Unlane key) ;;;
      match r with
      | Err e => raise e
      | Ok None => ok tt
      | Ok (Some (e, fence)) => ask (R_SpawnPassive key e fence) ;;; ok tt
      end
  end.

Definition apply_control (command : MarkerCommand) : action unit :=
  if CacheScope.eqb (cmd_scope command) (scope ci) then
    control (apply_marker (cmd_marker command)) ;;;
    let? _ := control (seed_marker ci mc (cmd_marker command) (tags_default_options mc)) in
    ask (R_MarkerReceived command) ;;;
    ok tt
  else ok tt.

(** A peer spoke: its breaker closes, and the frame is reported. *)
Definition heard (message : BackplaneMessage) : prog unit :=
  worker (close_circuit CC_Backplane) ;;; ask (R_Frame message).

Definition reject_frame (message : BackplaneMessage) : action unit :=
  (if bool_decide (msg_source_id message = instance_id ci) then Ret tt else heard message) ;;;
  history_lost ci mc pc L_Frame.

Definition apply_backplane (message : BackplaneMessage) : action unit :=
  if ignore_incoming_backplane pc then ok tt
  else
    match from_message from_slice message with
    | Err _ => reject_frame message
    | Ok command =>
        if bool_decide (source_id command = instance_id ci) then ok tt
        else
          heard message ;;;
          match command with
          | BC_Marker command => apply_control command
          | BC_Data message => apply_data message
          end
    end.

(** One turn of the listener; it answers whether it goes on. *)
Definition listen (incoming : Incoming) : action bool :=
  match incoming with
  | IN_Message message => let? _ := apply_backplane message in ok true
  | IN_Lagged => let? _ := history_lost ci mc pc L_Lagged in ok true
  | IN_Closed => let? _ := history_lost ci mc pc L_Closed in ok false
  | IN_Health => let? _ := ensure_health ci mc pc in ok true
  end.

(** The listener's loop, over what it is delivered; a turn that fails ends it. *)
Fixpoint listener (l : list Incoming) : action unit :=
  match l with
  | [] => ok tt
  | incoming :: l => let? go_on := listen incoming in if go_on then listener l else ok tt
  end.

(** Messages in the order they arrive. *)
Fixpoint apply_all (l : list BackplaneMessage) : action unit :=
  match l with
  | [] => ok tt
  | message :: l => let? _ := apply_backplane message in apply_all l
  end.
End listen.

(** ** One key of a peer's cache *)
Module Delivery.
Section delivery.
Context {V : Type} (key : string).
Local Abbreviation prog := (prog (ranswer (V := V))).

(** The resident entry of [key] and its lane. While messages are applied nobody
    else holds the lane; an access of a store may also fail, and change nothing. *)
Record Slot := mkSlot { resident : option (Entry V); lane : Fences.KeyLane }.

Definition failed {E A} (x : result E A) : Prop := match x with Err _ => True | Ok _ => False end.
Definition effect (s : Slot) (c : RCall V) (x : ranswer c) (s' : Slot) : Prop :=
  match c return ranswer c → Prop with
  | R_LaneTimestamp k => λ x, (k = key → x = Fences.timestamp (lane s)) ∧ s' = s
  | R_Control (M_Worker (C_GetAt k _)) => λ x, (k = key → failed x ∨ x = Ok (resident s)) ∧ s' = s
  | R_Control (M_Worker (C_Advance k at_)) => λ x,
      if decide (k = key) then
        match Fences.advance 0 (lane s) at_ 0 with
        | Ok (l, _) => ¬ failed x ∧ s' = mkSlot (resident s) l
        | Err _ => failed x ∧ s' = s
        end
      else s' = s
  | R_Control (M_Worker (C_Remove k)) => λ x,
      failed x ∧ s' = s ∨ ¬ failed x ∧ s' = if decide (k = key) then mkSlot None (lane s) else s
  | R_Control (M_Worker (C_ExpireIfUnchanged k expected e _)) => λ x,
      failed x ∧ s' = s ∨
      ¬ failed x ∧ s' = (if decide (k = key)
                         then match resident s with
                              | Some r => if Entry.is_same_instance r expected then mkSlot (Some e) (lane s) else s
                              | None => s
                              end
                         else s)
  | _ => λ _, s' = s
  end x.
Definition keyed : Env (ranswer (V := V)) := mkEnv Slot effect.

(** An access that does not change this slot. *)
Definition elsewhere (c : RCall V) : Prop :=
  match c with
  | R_Control (M_Worker (C_Advance k _ | C_Remove k | C_ExpireIfUnchanged k _ _ _)) => k ≠ key
  | _ => True
  end.
Lemma wp_elsewhere {A} (p : prog A) s : only elsewhere p → wp keyed p s (λ _ s', s' = s).
Proof.
  intros Hp. apply (wp_invariant keyed elsewhere (λ s', s' = s)); [done|done|].
  intros s1 c x s2 Hc -> Ha. destruct c as [c| | | | | | | | | | | | | | | | | | | | | | | | | |]; simpl in Ha; try done; [|by destruct Ha].
  destruct c as [c| | | | | | | | | | | | | | | | | | | | | | | | | | | | | | | | | | | | | |]; simpl in Ha; try done.
  destruct c; simpl in Ha, Hc; try done; try (rewrite decide_False in Ha by done); naive_solver.
Qed.
Lemma wp_elsewhere_then {A B} (p : prog A) (f : A → prog B) s Q :
  only elsewhere p → (∀ a, wp keyed (f a) s Q) → wp keyed (bind p f) s Q.
Proof. intros Hp Hf. apply wp_bind. eapply wp_mono; [by apply wp_elsewhere|]. intros a s' ->. apply Hf. Qed.

Lemma only_control (P : RCall V → Prop) {A} (p : Calls.prog (manswer (V := V)) A) :
  only (λ c, P (R_Control c)) p → only P (control p).
Proof. induction p as [|c k IH]; simpl; [done|]. intros [? ?]. split; auto. Qed.
Lemma only_lift_call (P : MCall V → Prop) {A} (p : Calls.prog (answer (V := V)) A) :
  only (λ c, P (M_Worker c)) p → only P (lift p).
Proof. induction p as [|c k IH]; simpl; [done|]. intros [? ?]. split; auto. Qed.
Definition stale (message : BackplaneMessage) (s : Slot) : bool :=
  after (Fences.timestamp (lane s)) (msg_timestamp message)
  || after (created_of (resident s)) (msg_timestamp message).
(** What the delivery of an invalidation does to its key: nothing when the key
    has seen something newer, and otherwise the value is gone or no longer fresh
    after the time of the message. *)
Definition delivered (message : BackplaneMessage) (s s' : Slot) : Prop :=
  if stale message s then s' = s
  else ∀ e', resident s' = Some e' → ∃ e, resident s = Some e ∧ Entry.value e' = Entry.value e ∧
    created (Entry.meta e') = created (Entry.meta e) ∧ logical_expiration (Entry.meta e') ≤ msg_timestamp message.
Definition is_invalidation (message : BackplaneMessage) : Prop := msg_action message ≠ BA_Set.

Context (ci : Inner) (mc : MarkerConfig) (pc : PeerConfig).
Context {JsonError : Type} (from_slice : list Z → result JsonError SourceFrame).

Lemma wp_apply_held message s :
  is_invalidation message →
  wp keyed (apply_held ci key message) s (λ r s', ∀ next, r = Ok next → next = None ∧ delivered message s s').
Proof.
  intros Hm. unfold apply_held, delivered, stale. cbn [bind call].
  intros stamp s1 [Hst ->]. specialize (Hst eq_refl) as ->. cbn [bind].
  destruct (after (Fences.timestamp _) _); [by intros next [= <-]|]. cbn [orb bind].
  intros now s2 ->. cbn [bind]. intros got s3 [Hg ->].
  destruct got as [existing|e]; [|by intros next [=]].
  specialize (Hg eq_refl) as [[]|[= ->]]. cbn [bind].
  rewrite bool_decide_eq_false_2 by done. cbn [bind].
  destruct (after (created_of _) _); [by intros next [= <-]|]. cbn [bind].
  intros advanced s4 Ha. simpl in Ha. rewrite decide_True in Ha by done.
  destruct advanced as [f|e]; [|by intros next [=]]. cbn [map_err attempt bind].
  destruct (Fences.advance _ _ _ _) as [[l g]|]; [|by destruct Ha]. destruct Ha as [_ ->].
  apply wp_elsewhere_then; [by destruct (has_recovery ci)|]. intros [].
  destruct (msg_action message) eqn:Hact; [done| |].
  - cbn [bind call]. intros r s5 [[Hf ->]|[Hf ->]]; destruct r; try done; cbn [bind].
    intros next [= <-]. split; [done|]. by rewrite decide_True.
  - destruct (resident s) as [e|] eqn:Hr; [|by intros next [= <-]].
    cbn [bind call]. intros p s5 ->. cbn [bind]. intros now' s6 ->. cbn [bind].
    intros r s7 [[Hf ->]|[Hf ->]]; destruct r; try done; cbn [bind].
    intros next [= <-]. split; [done|]. rewrite decide_True by done. simpl.
    unfold Entry.is_same_instance. rewrite bool_decide_eq_true_2 by done. intros e' [= <-]. exists e.
    split_and!; [done..|apply Z.le_min_l].
Qed.

Ltac roam :=
  repeat first
    [ done | progress intros | split; [done|] | apply only_control | apply only_lift_call
    | apply only_bind | apply only_attempt | case_match ].

Lemma elsewhere_heard message : only elsewhere (heard (V := V) message).
Proof. unfold heard, worker, close_circuit. roam. Qed.
Lemma elsewhere_gap : only elsewhere (continuity_gap (V := V) ci mc pc).
Proof. unfold continuity_gap, invalidate_memory_layers, begin_markers, close. roam. Qed.
Lemma elsewhere_health : only elsewhere (ensure_health (V := V) ci mc pc).
Proof. unfold ensure_health, connection, announce, pause_after_reconnect, invalidate_memory_layers, begin_markers, close. roam. Qed.
Lemma elsewhere_control command : only elsewhere (apply_control (V := V) ci mc command).
Proof. unfold apply_control, seed_marker, accept_marker_observation, apply_marker. roam. Qed.
Lemma elsewhere_rejected message : only elsewhere (reject_frame (V := V) ci mc pc message).
Proof.
  unfold reject_frame, history_lost, resume, pause_after_reconnect, admitted, connection.
  apply only_bind; [case_match; [done|apply elsewhere_heard]|]. intros _.
  apply only_attempt; [apply elsewhere_gap|]. intros _.
  apply only_attempt; [apply only_attempt; [apply elsewhere_health|]; roam|]. roam.
Qed.
Lemma elsewhere_data message k :
  logical_key ci (msg_key message) = Some k → k ≠ key → only elsewhere (apply_data (V := V) ci message).
Proof. intros Hk Hne. unfold apply_data, apply_held, worker. rewrite Hk. roam. Qed.

(** The data message for this key that a frame carries, unless the node ignores it. *)
Definition addressed (message : BackplaneMessage) : option BackplaneMessage :=
  if ignore_incoming_backplane pc then None
  else
    match from_message from_slice message with
    | Ok (BC_Data data) =>
        if bool_decide (msg_source_id data = instance_id ci) then None
        else if bool_decide (logical_key ci (msg_key data) = Some key) then Some data else None
    | Ok (BC_Marker _) | Err _ => None
    end.

Lemma wp_apply_data data s :
  logical_key ci (msg_key data) = Some key → is_invalidation data →
  wp keyed (apply_data ci data) s (λ r s', r = Ok tt → delivered data s s').
Proof.
  intros Hk Hi. unfold apply_data. rewrite Hk. do 2 (apply wp_elsewhere_then; [done|]; intros []).
  apply wp_bind. eapply wp_mono; [by apply wp_apply_held|]. intros r s' Hr.
  apply wp_elsewhere_then; [done|]. intros []. destruct r as [[[e f]|]|e]; [by destruct (Hr _ eq_refl)| |done].
  intros _. by destruct (Hr _ eq_refl).
Qed.

Lemma wp_apply_backplane message s :
  (∀ data, addressed message = Some data → is_invalidation data) →
  wp keyed (apply_backplane ci mc pc from_slice message) s
    (λ r s', r = Ok tt → match addressed message with Some data => delivered data s s' | None => s' = s end).
Proof.
  unfold addressed, apply_backplane. intros Hi. destruct (ignore_incoming_backplane pc); [done|].
  assert (∀ p : prog (result CacheError unit), only elsewhere p → wp keyed p s (λ r s', r = Ok tt → s' = s)) as Hsame.
  { intros p Hp. eapply wp_mono; [by apply wp_elsewhere|]. auto. }
  destruct (from_message from_slice message) as [[data|command]|e]; [| |apply Hsame, elsewhere_rejected].
  - cbn [source_id]. case_bool_decide; [done|]. apply wp_elsewhere_then; [apply elsewhere_heard|]. intros [].
    case_bool_decide as Hk; [apply wp_apply_data; auto|]. apply Hsame.
    destruct (logical_key ci (msg_key data)) as [k|] eqn:E.
    + eapply elsewhere_data; [done|congruence].
    + unfold apply_data. by rewrite E.
  - apply Hsame. case_bool_decide; [done|]. apply only_bind; [apply elsewhere_heard|]. intros _. apply elsewhere_control.
Qed.

(** What a stream of messages has done to the slot: nothing when the key had seen
    something newer than each of them; otherwise whatever is resident is the old
    value, and no longer fresh after one of them. *)
Definition swept (seen : list BackplaneMessage) (s0 s : Slot) : Prop :=
  s = s0 ∧ (∀ data, data ∈ seen → stale data s0 = true) ∨
  (∃ data, data ∈ seen ∧ stale data s0 = false) ∧
  ∀ e', resident s = Some e' → ∃ e, resident s0 = Some e ∧ Entry.value e' = Entry.value e ∧
    created (Entry.meta e') = created (Entry.meta e) ∧
    ∃ data, data ∈ seen ∧ logical_expiration (Entry.meta e') ≤ msg_timestamp data.

Lemma swept_delivered seen data s0 s s' :
  swept seen s0 s → delivered data s s' → swept (seen ++ [data]) s0 s'.
Proof.
  unfold swept, delivered. setoid_rewrite elem_of_app. setoid_rewrite list_elem_of_singleton.
  intros [[-> Hst]|[Hn Hr]] Hd.
  - destruct (stale data s0) eqn:E; [left; subst; naive_solver|]. right. split; [naive_solver|].
    intros e' He. destruct (Hd _ He) as (e & ? & ? & ? & ?). exists e. naive_solver.
  - right. split; [naive_solver|]. destruct (stale data s); [subst; intros e' He; naive_solver|].
    intros e' He. destruct (Hd _ He) as (e & He1 & Hv & Hc & Hl). destruct (Hr _ He1) as (e0 & ? & ? & ? & _).
    exists e0. split_and!; [done|congruence|congruence|]. eauto.
Qed.

Lemma wp_apply_all l : ∀ seen s0 s,
  swept seen s0 s → (∀ message data, message ∈ l → addressed message = Some data → is_invalidation data) →
  wp keyed (apply_all ci mc pc from_slice l) s (λ r s', r = Ok tt → swept (seen ++ omap addressed l) s0 s').
Proof.
  induction l as [|message l IH]; intros seen s0 s Hs Hi; [intros _; by rewrite app_nil_r|].
  simpl. apply wp_attempt. eapply wp_mono.
  { apply wp_apply_backplane. intros data Hd. by eapply Hi; [left|]. }
  intros [[]|e] s' Hm; [|done]. specialize (Hm eq_refl).
  destruct (addressed message) as [data|] eqn:E.
  - rewrite cons_middle, app_assoc. apply IH; [by eapply swept_delivered|]. intros ????; eapply Hi; [by right|done].
  - subst. apply IH; [done|]. intros ????; eapply Hi; [by right|done].
Qed.
End delivery.
End Delivery.

(** ** Gaps, and refreshes *)
Module Tracking.
Section tracking.
Context {V : Type} (ci : Inner) (mc : MarkerConfig) (pc : PeerConfig).
Local Abbreviation prog := (prog (ranswer (V := V))).
(** Every access is recorded. *)
Definition everything : Env (ranswer (V := V)) := any (λ _, true).
Local Abbreviation chronicle := (list (event (ranswer (V := V)))).

Ltac here := solve [repeat first [apply list_elem_of_here | apply list_elem_of_further]].
(** Both memory layers were emptied. *)
Definition emptied (h : chronicle) : Prop :=
  (∃ barrier, Ev R_BeginValues (Ok barrier) ∈ h ∧ Ev (R_FinishValues barrier) (Ok tt) ∈ h) ∧
  match marker_reads mc with
  | DurableReads => True
  | ControlledReads _ =>
      Ev R_ResetClears tt ∈ h ∧
      ∃ barrier, Ev R_BeginMarkers (Ok barrier) ∈ h ∧ Ev (R_FinishMarkers barrier) (Ok tt) ∈ h
  end.
Definition reconciled (ok_ : bool) (h : chronicle) : Prop :=
  (invalidates_on_gap (reconciliation pc) = true →
     (∃ advanced, Ev R_BumpEpoch advanced ∈ h ∧ (advanced = false → Ev R_CloseScopes tt ∈ h)) ∧
     (ok_ = true → emptied h)) ∧
  (ok_ = true → has_recovery ci = true → Ev R_Suspend tt ∈ h).
Definition succeeded {A} (r : result CacheError A) : bool := match r with Ok _ => true | Err _ => false end.

Lemma emptied_mono h h' : h ⊆ h' → emptied h → emptied h'.
Proof.
  intros Hh [(b & H1 & H2) Hm]. split; [exists b; auto|]. destruct (marker_reads mc); [done|].
  destruct Hm as (? & b' & ? & ?). split; [|exists b']; auto.
Qed.
Lemma reconciled_mono (b b' : bool) h h' : h ⊆ h' → (b' = true → b = true) → reconciled b h → reconciled b' h'.
Proof.
  intros Hh Hb [H1 H2]. split; [|intros; apply Hh; auto].
  intros Hr. destruct (H1 Hr) as [(a & ? & ?) He]. split; [|intros; eapply emptied_mono; eauto].
  exists a. auto.
Qed.
Lemma sub_app_l (l h : chronicle) : l ⊆ l ++ h.
Proof. intros x. rewrite elem_of_app. auto. Qed.
Lemma sub_app_r (l h : chronicle) : h ⊆ l ++ h.
Proof. intros x. rewrite elem_of_app. auto. Qed.

Lemma wp_layers h :
  wp everything (invalidate_memory_layers mc) h (λ r h', ∃ l, h' = l ++ h ∧ (succeeded r = true → emptied l)).
Proof.
  unfold invalidate_memory_layers, begin_markers, emptied. cbn [bind call]. intros values ? ->.
  destruct (marker_reads mc); cbn [bind call].
  - destruct values as [b|e]; cbn [bind call].
    + intros [[]|e] ? ->; eexists [_; _]; (split; [reflexivity|]); [|done]. intros _. split; [|done].
      exists b. split; here.
    + by eexists [_].
  - intros [] ? ->. cbn [bind]. intros markers ? ->.
    destruct values as [b|e], markers as [b'|e']; cbn [bind call fmap result_fmap].
    + intros [[]|e] ? -> [[]|e'] ? ->; eexists [_; _; _; _; _]; (split; [reflexivity|]); try done.
      intros _. split; [exists b|split; [|exists b']]; repeat split; here.
    + intros [[]|e] ? ->; by eexists [_; _; _; _].
    + intros [[]|e'] ? ->; by eexists [_; _; _; _].
    + by eexists [_; _; _].
Qed.

Lemma wp_gap h :
  wp everything (continuity_gap ci mc pc) h (λ r h', ∃ l, h' = l ++ h ∧ reconciled (succeeded r) l).
Proof.
  unfold continuity_gap. apply wp_attempt.
  refine (wp_mono everything _ h (λ r h', ∃ l, h' = l ++ h ∧ (invalidates_on_gap (reconciliation pc) = true →
     (∃ advanced, Ev R_BumpEpoch advanced ∈ l ∧ (advanced = false → Ev R_CloseScopes tt ∈ l)) ∧
     (succeeded r = true → emptied l))) _ _ _).
  - destruct (invalidates_on_gap _); [|by exists []]. cbn [bind call]. intros advanced ? ->.
    apply wp_bind.
    refine (wp_mono everything _ _ (λ _ h', ∃ l, h' = l ++ Ev R_BumpEpoch advanced :: h ∧
      (advanced = false → Ev R_CloseScopes tt ∈ l)) _ _ _).
    { destruct advanced; [by exists []|]. unfold close. cbn [bind call]. intros outcome ? -> [] ? ->. cbn [bind].
      apply wp_bind. eapply wp_mono; [apply wp_grows|]. intros outcome' ? [l ->]. exists (l ++ [Ev R_CloseScopes tt; Ev R_BeginClose outcome]).
      split; [by rewrite <-app_assoc|]. intros _. apply elem_of_app. right. here. }
    intros [] ? (l & -> & Hc). eapply wp_mono; [apply wp_layers|]. intros r ? (l' & -> & He).
    exists (l' ++ l ++ [Ev R_BumpEpoch advanced]). split; [by rewrite <-!app_assoc|]. intros _. split.
    + exists advanced. split; [by do 2 apply sub_app_r; here|]. intros E. apply sub_app_r, sub_app_l. auto.
    + intros E. eapply emptied_mono; [apply sub_app_l|auto].
  - intros [[]|e] ? (l & -> & Hl).
    + destruct (has_recovery ci) eqn:Hrec; cbn [bind call].
      * intros [] ? ->. exists (Ev R_Suspend tt :: l). split; [done|]. split.
        -- intros Hr. destruct (Hl Hr) as [(a & ? & ?) He]. split.
           ++ exists a. split; [by right|]. intros E. right. auto.
           ++ intros _. eapply emptied_mono; [|by apply He]. intros ev. by right.
        -- intros _ _. here.
      * exists l. split; [done|]. split; [done|]. intros _ E. congruence.
    + exists l. split; [done|]. split; [|done]. intros Hr. by destruct (Hl Hr).
Qed.

(** What an event that may have lost messages leads to. *)
Context {JsonError : Type} (from_slice : list Z → result JsonError SourceFrame).
Definition loses_history (incoming : Incoming) : Prop :=
  match incoming with
  | IN_Lagged | IN_Closed => True
  | IN_Message message =>
      ignore_incoming_backplane pc = false ∧ ∃ e, from_message from_slice message = Err e
  | IN_Health => False
  end.

Lemma wp_gap_then {A} (k : unit → prog (result CacheError A)) h :
  wp everything (attempt (continuity_gap ci mc pc) k) h (λ r h', ∃ l, h' = l ++ h ∧ reconciled (succeeded r) l).
Proof.
  apply wp_attempt. eapply wp_mono; [apply wp_gap|]. intros [[]|e] ? (l & -> & Hl); [|by exists l].
  eapply wp_mono; [apply wp_grows|]. intros r ? [l' ->]. exists (l' ++ l). split; [by rewrite app_assoc|].
  apply (reconciled_mono true (succeeded r) l); [apply sub_app_r|done|exact Hl].
Qed.

Lemma wp_listen incoming :
  loses_history incoming →
  wp everything (listen ci mc pc from_slice incoming) [] (λ r h, reconciled (succeeded r) h).
Proof.
  intros Hi.
  assert (∀ A (p : prog (result CacheError A)),
    wp everything p [] (λ r h', ∃ l, h' = l ++ [] ∧ reconciled (succeeded r) l) →
    wp everything p [] (λ r h, reconciled (succeeded r) h)) as Hw.
  { intros A p Hp. eapply wp_mono; [exact Hp|]. intros r ? (l & -> & Hl). by rewrite app_nil_r. }
  assert (∀ loss (b : bool), wp everything (let? _ := history_lost ci mc pc loss in ok b) []
    (λ (r : result CacheError bool) h', ∃ l, h' = l ++ [] ∧ reconciled (succeeded r) l)) as Hlost.
  { intros loss b. apply wp_attempt. unfold history_lost. eapply wp_mono; [apply wp_gap_then|].
    intros [[]|e] ? (l & -> & Hl); by exists l. }
  apply Hw. destruct incoming as [message| | |]; [|apply Hlost..|done].
  unfold listen, apply_backplane. destruct Hi as [-> [e ->]]. unfold reject_frame.
  apply wp_attempt, wp_bind. eapply wp_mono; [apply wp_grows|]. intros [] ? [l ->].
  eapply wp_mono; [apply wp_gap_then|]. intros r ? (l' & -> & Hl).
  assert (reconciled (succeeded r) (l' ++ l)) as Hr by (apply (reconciled_mono (succeeded r) (succeeded r) l'); [apply sub_app_l|done|exact Hl]).
  destruct r as [[]|e']; exists (l' ++ l); (split; [by rewrite <-app_assoc|done]).
Qed.

(** *** Refreshes *)
Context (key : string) (expected : Entry V) (fence : Fences.Fence).

Definition mutates (c : RCall V) : bool :=
  match c with
  | R_Control (M_Worker c) => bool_decide (kind c ∈ [K_MemoryCas; K_MemoryWrite])
  | _ => false
  end.
Definition was_current : event (ranswer (V := V)) := Ev (R_Control (M_Worker (C_PassiveCurrent fence))) true.
(** The lane has been held since, and the fence was current under it. *)
Definition held (h : chronicle) : Prop :=
  ∃ l h0, h = l ++ Ev (R_Control (M_Worker (C_Lane key))) tt :: h0 ∧
    Ev (R_Control (M_Worker (C_Unlane key))) tt ∉ l ∧
    was_current ∈ l.
Definition refreshes (c : RCall V) : Prop :=
  c = R_Control (M_Worker (C_RemoveIfSame key expected)) ∨
  ∃ local now, c = R_Control (M_Worker (C_InsertIfUnchanged key (Some expected) local now)) ∧
    eligibility (inner local) = EL_Hydrated (mkStamp (epoch_loc ci) (Fences.captured_epoch fence)) ∧
    ∃ stamps (source : Entry V) opts at_, Entry.prepare_memory_hydration stamps source opts at_ = Ok (Some (Entry.meta local)).
Fixpoint conditional (h : chronicle) : Prop :=
  match h with
  | [] => True
  | ev :: h => (mutates (ev_call ev) = true → held h ∧ refreshes (ev_call ev)) ∧ conditional h
  end.

Lemma conditional_app (l h : chronicle) :
  Forall (λ ev, mutates (ev_call ev) = false) l → conditional h → conditional (l ++ h).
Proof. induction 1 as [|ev l Hev _ IH]; simpl; [done|]. intros. split; [congruence|auto]. Qed.
Lemma conditional_now (P : chronicle → Prop) ev h : mutates (ev_call ev) = false → conditional h → conditional (ev :: h).
Proof. intros E H. split; [congruence|done]. Qed.

Definition reading : list Kind :=
  [K_Time; K_Options; K_MemoryRead; K_Marker; K_Circuit; K_ProviderRead; K_Codec; K_Fence; K_Lane; K_Release;
   K_Budget; K_Observer; K_Origin].
Lemma touches_refresh_read opts : touches (V := V) reading (read_l2 ci key opts FA_Unavailable).
Proof.
  assert (touches (V := V) reading (fetch_l2 ci key)) as Hf.
  { unfold fetch_l2, hydration_fence, fetch_bytes, distributed_miss. footprint. }
  unfold read_l2, read_l2_budget, distributed_miss. footprint. all: by apply touches_bounded; [|in_kinds..].
Qed.
Lemma only_worker (P : RCall V → Prop) {A} (p : Calls.prog (answer (V := V)) A) :
  only (λ c, P (R_Control (M_Worker c))) p → only P (worker p).
Proof. intros Hp. by apply Delivery.only_control, Delivery.only_lift_call. Qed.
Lemma only_touches ks {A} (p : Calls.prog (answer (V := V)) A) :
  touches ks p → K_MemoryCas ∉ ks → K_MemoryWrite ∉ ks → only (λ c, mutates c = false) (worker p).
Proof.
  intros Hp H1 H2. apply only_worker. eapply only_mono; [exact Hp|]. intros c Hc. cbn.
  apply bool_decide_eq_false_2. rewrite !elem_of_cons, elem_of_nil. cbv beta in Hc. intros [E|[E|[]]]; by rewrite E in Hc.
Qed.

(** A stretch of the program that mutates nothing, and leaves the lane alone. *)
Lemma wp_stretch (P : RCall V → Prop) {A B} (p : prog A) (f : A → prog B) h Q :
  only P p →
  (∀ a l, Forall (λ ev, P (ev_call ev)) l → wp everything (f a) (l ++ h) Q) → wp everything (bind p f) h Q.
Proof.
  intros Hp Hf. apply wp_bind. eapply wp_mono.
  - apply (wp_only _ P p h (λ _ _, True)); [done|]. eapply wp_mono; [apply wp_grows|]. intros a ? [l ->]. eauto.
  - intros a ? (l & -> & Hl & _). by apply Hf.
Qed.

Section under_lane.
Context (h0 : chronicle).
Local Abbreviation locked := (Ev (R_Control (M_Worker (C_Lane key))) tt :: h0).
Definition unlanes (c : RCall V) : Prop := c = R_Control (M_Worker (C_Unlane key)).
Definition calm (c : RCall V) : Prop := mutates c = false ∧ ¬ unlanes c.
(** What happened under the lane so far. *)
Definition under (l : chronicle) : Prop := Forall (λ ev, ¬ unlanes (ev_call ev)) l ∧ conditional (l ++ locked).

Lemma under_calm l l' : Forall (λ ev, calm (ev_call ev)) l' → under l → under (l' ++ l).
Proof.
  intros Hl [H1 H2]. split.
  - apply Forall_app. split; [|done]. eapply Forall_impl; [exact Hl|]. by intros ev [_ ?].
  - rewrite <-app_assoc. apply conditional_app; [|done]. eapply Forall_impl; [exact Hl|]. by intros ev [? _].
Qed.
Lemma under_refresh l ev :
  was_current ∈ l → refreshes (ev_call ev) → under l → under (ev :: l).
Proof.
  intros Hc Hr [H1 H2]. split; [|split; [|done]].
  - constructor; [|done]. unfold unlanes. destruct Hr as [-> |(e & now & -> & _)]; done.
  - intros _. split; [|done]. exists l, h0. split_and!; [done| |done].
    intros Hin. rewrite Forall_forall in H1. by apply (H1 _ Hin).
Qed.

(** One access under the lane. *)
Lemma wp_calm {A} c (k : ranswer c → prog A) l Q :
  calm c → under l →
  (∀ x, under (Ev c x :: l) → wp everything (k x) ((Ev c x :: l) ++ locked) Q) →
  wp everything (Act c k) (l ++ locked) Q.
Proof.
  intros Hc Hl Hk x ? ->. apply Hk. apply (under_calm l [Ev c x]); [|done]. by constructor.
Qed.
Lemma calm_worker {A} ks (p : Calls.prog (answer (V := V)) A) :
  touches ks p → K_MemoryCas ∉ ks → K_MemoryWrite ∉ ks → K_Release ∉ ks → only calm (worker p).
Proof.
  intros Hp H1 H2 H3. apply only_worker. eapply only_mono; [exact Hp|]. intros c Hc. split; cbn.
  - apply bool_decide_eq_false_2. rewrite !elem_of_cons, elem_of_nil. cbv beta in Hc. intros [E|[E|[]]]; by rewrite E in Hc.
  - intros [= ->]. done.
Qed.

Lemma calm_kind c : kind c ∉ [K_MemoryCas; K_MemoryWrite; K_Release] → calm (R_Control (M_Worker c)).
Proof.
  intros Hc. split; cbn; [apply bool_decide_eq_false_2; set_solver|]. intros [= ->]. apply Hc. here.
Qed.

Definition refreshed {A} (_ : A) (h : env_state everything) : Prop := ∃ l, h = l ++ locked ∧ under l.
Lemma wp_return {A} (a : A) l : under l → wp everything (Ret a) (l ++ locked) refreshed.
Proof. intros Hl. by exists l. Qed.

Lemma wp_discard l :
  was_current ∈ l → under l →
  wp everything (let? _ := call (R_Control (M_Worker (C_RemoveIfSame key expected))) in ok tt) (l ++ locked)
    (refreshed (A := result CacheError unit)).
Proof.
  intros Hc Hl x ? ->. assert (under (Ev (R_Control (M_Worker (C_RemoveIfSame key expected))) x :: l)) as Hu
    by (apply under_refresh; [done|by left|done]).
  destruct x as [|e]; by eexists (_ :: l).
Qed.
Ltac calmly := apply wp_calm; [by apply calm_kind; vm_compute; set_solver|done|].

Lemma wp_refresh_held opts read :
  conditional h0 →
  wp everything (refresh_held ci key expected fence opts read) locked (refreshed (A := result CacheError unit)).
Proof.
  intros Hnil. assert (under []) as Hl by (split; [done|split; done]).
  unfold refresh_held. change locked with ([] ++ locked). cbn [bind call].
  calmly. intros current Hl1. destruct current; cbn [negb]; [|by apply wp_return].
  assert (∀ l, was_current ∈ l ++ [was_current]) as Hcur by (intros l; apply sub_app_r; here).
  destruct read as [[found|]|e]; [|by (apply wp_discard; [apply (Hcur [])|])|].
  2: { destruct e; try (by (apply wp_discard; [apply (Hcur [])|])); by apply wp_return. }
  eapply (wp_stretch calm); [by apply (calm_worker [K_Marker]); [apply touches_evaluate_tags|set_solver..]|].
  intros verdict l1 Hc1. rewrite app_assoc. apply (under_calm _ _ Hc1) in Hl1.
  case_bool_decide; [by (apply wp_discard; [apply Hcur|])|].
  destruct (EntryOptions.skip_memory_write opts); [by apply wp_return|].
  cbn [bind call]. calmly. intros now Hl2. calmly. intros stamps Hl3.
  destruct (Entry.prepare_memory_hydration stamps (lookup_entry found) opts now) as [[local|]|e] eqn:Hp;
    cbn [map_err attempt bind]; [|by apply wp_return..].
  eapply (wp_stretch calm); [by apply (calm_worker [K_Options]); [apply touches_copy|set_solver..]|].
  intros [value|e] l2 Hc2; [|rewrite app_assoc; apply (under_calm _ _ Hc2) in Hl3; by apply wp_return].
  rewrite app_assoc. apply (under_calm _ _ Hc2) in Hl3. cbn [bind call].
  calmly. intros p Hl4. calmly. intros current Hl5. destruct current; cbn [negb]; [|by apply wp_return].
  calmly. intros now' Hl6. intros admission ? ->.
  apply (under_refresh _ (Ev _ admission)) in Hl6; [|right; left|].
  - destruct admission as [a|e]; (eexists; split; [|exact Hl6]; reflexivity).
  - right. do 2 eexists. split_and!; [done|done|]. by do 4 eexists.
Qed.

End under_lane.

Definition released (h : chronicle) : Prop :=
  ∃ h', h = Ev (R_Control (M_Worker (C_Unlane key))) tt :: h'.
Lemma wp_passive :
  wp everything (passive ci key expected fence) [] (λ r h, conditional h ∧
    (released h ∨ ∃ e, r = Err e ∧ Forall (λ ev, mutates (ev_call ev) = false) h)).
Proof.
  unfold passive, attempt. apply (wp_stretch (λ c, mutates c = false)).
  { apply (only_touches [K_Time; K_Options]); [|set_solver..]. apply touches_resolve_options. }
  intros opts l Hl. assert (conditional (l ++ [])) as Hcl by by apply conditional_app.
  destruct opts as [opts|e].
  2: { split; [done|]. right. exists e. by rewrite app_nil_r. }
  apply (wp_stretch (λ c, mutates c = false)).
  { apply (only_touches reading); [|set_solver..]. apply touches_refresh_read. }
  intros read l' Hl'. assert (conditional (l' ++ l ++ [])) as Hcl' by by apply conditional_app.
  cbn [bind call]. intros [] ? ->. apply wp_bind. eapply wp_mono; [by apply wp_refresh_held|].
  intros r ? (l'' & -> & _ & Hc). cbn [bind]. intros [] ? ->. split; [by split|]. left. by eexists.
Qed.
End tracking.
End Tracking.

Module ListenTheorems.
Import Delivery.
Section theorems.
Context {V : Type} (ci : Inner) (mc : MarkerConfig) (pc : PeerConfig).
Context {JsonError : Type} (from_slice : list Z → result JsonError SourceFrame).

(** C25: Invalidations survive reordering. Whatever stream of frames arrives, in
    whatever order and however often, if what it carries for a key are removals
    and expiries, then either the key had already seen something newer than each
    of them, and nothing changed; or one of them applied, and then only the value
    that was there can still be resident, no longer fresh after one of them: an
    invalidation is never undone by an older one that arrives late. *)
Theorem invalidations_survive_reordering key l (s0 : Slot (V := V)) :
  let mine := omap (addressed key ci pc from_slice) l in
  (∀ data, data ∈ mine → msg_action data ≠ BA_Set) →
  wp (keyed key) (apply_all ci mc pc from_slice l) s0 (λ r s, r = Ok tt →
    ((∀ data, data ∈ mine → stale data s0 = true) → s = s0) ∧
    (∀ data, data ∈ mine → stale data s0 = false → ∀ e', resident s = Some e' →
       ∃ e, resident s0 = Some e ∧ Entry.value e' = Entry.value e ∧
         created (Entry.meta e') = created (Entry.meta e) ∧
         ∃ data', data' ∈ mine ∧ logical_expiration (Entry.meta e') ≤ msg_timestamp data')).
Proof.
  intros mine Hm. eapply wp_mono.
  - apply (wp_apply_all key ci mc pc from_slice l [] s0); [left; split; [done|by intros ? ?%elem_of_nil]|].
    intros message data Hl Ha. apply Hm, list_elem_of_omap. eauto.
  - intros r s Hs Hr. specialize (Hs Hr). simpl in Hs. fold mine in Hs.
    destruct Hs as [[-> Hst]|[(data & Hd & Hf) Hs]]; split; [done| |..].
    + intros data Hd Hf. rewrite (Hst _ Hd) in Hf. discriminate Hf.
    + intros Hall. rewrite (Hall _ Hd) in Hf. discriminate Hf.
    + intros data' Hd' _ e' He. destruct (Hs _ He) as (e & ? & ? & ? & ?). eauto.
Qed.

(** Lost history is reconciled. When the listener lags, when its channel
    closes, or when a frame cannot be decoded, then under a policy that discards on
    gaps the continuity epoch is advanced (or the cache closed, if it is exhausted),
    and the turn succeeds only after both memory layers were emptied behind a
    barrier taken in it and the replays were suspended. *)
Theorem lost_history_is_reconciled incoming :
  Tracking.loses_history pc from_slice incoming →
  wp Tracking.everything (listen (V := V) ci mc pc from_slice incoming) [] (λ r h,
    (invalidates_on_gap (reconciliation pc) = true →
       (∃ advanced, Ev R_BumpEpoch advanced ∈ h ∧ (advanced = false → Ev R_CloseScopes tt ∈ h)) ∧
       (Tracking.succeeded r = true →
          (∃ barrier, Ev R_BeginValues (Ok barrier) ∈ h ∧ Ev (R_FinishValues barrier) (Ok tt) ∈ h) ∧
          match marker_reads mc with
          | DurableReads => True
          | ControlledReads _ =>
              Ev R_ResetClears tt ∈ h ∧
              ∃ barrier, Ev R_BeginMarkers (Ok barrier) ∈ h ∧ Ev (R_FinishMarkers barrier) (Ok tt) ∈ h
          end)) ∧
    (Tracking.succeeded r = true → has_recovery ci = true → Ev R_Suspend tt ∈ h)).
Proof. intros Hi. eapply wp_mono; [by apply Tracking.wp_listen|]. intros r h [H1 H2]. by split. Qed.

(** A refresh replaces only what it refreshes. Whatever the stores, the
    codec and other tasks answer, the refresh that a peer's write starts changes
    the memory store only while it holds the key's lane and has seen its fence
    current under it; and then it only removes the very entry it was started for,
    or replaces that entry with one hydrated from the distributed store under the
    same fence. It has left the lane when it ends,
    or it never reached it. *)
Theorem refreshes_are_conditional key expected fence :
  wp Tracking.everything (passive (V := V) ci key expected fence) [] (λ r h,
    (∀ h1 c x h2, h = h1 ++ Ev c x :: h2 → Tracking.mutates c = true →
       Tracking.held key fence h2 ∧ Tracking.refreshes ci key expected fence c) ∧
    ((∃ h', h = Ev (R_Control (M_Worker (C_Unlane key))) tt :: h') ∨
     (Tracking.succeeded r = false ∧ ∀ ev, ev ∈ h → Tracking.mutates (ev_call ev) = false))).
Proof.
  eapply wp_mono; [apply Tracking.wp_passive|]. intros r h [Hc Hr]. split.
  - clear Hr. intros h1 c x h2 -> Hm. induction h1 as [|ev h1 IH]; simpl in Hc; [by apply Hc|]. apply IH, Hc.
  - destruct Hr as [Hr|(e & -> & Hn)]; [by left|right]. split; [done|]. by apply Forall_forall.
Qed.
End theorems.

Definition no_json (l : list Z) : result unit SourceFrame := Err tt.
Definition peer_remove : BackplaneMessage := mkMessage "peer" 7 BA_Remove "k".
Definition peer_expire : BackplaneMessage := mkMessage "peer" 6 BA_Expire "k".
Definition sample_resident : Entry nat :=
  mkEntry 1 (mkInner 7%nat (mkMetadata 0 0 50 100 (from_secs 1) (EO_Fresh None) None None [] RM_Unspecified) EL_Local).
Definition sample_slot : Slot (V := nat) :=
  mkSlot (Some sample_resident) Fences.KeyLane_new.
Definition continuous : PeerConfig := mkPeers BackplaneContinuity false.

Lemma invalidations_survive_reordering_witness :
  omap (addressed "k" demo_inner continuous no_json) [peer_remove; peer_expire] = [peer_remove; peer_expire] ∧
  stale peer_remove sample_slot = false ∧
  wp (keyed "k") (apply_all demo_inner demo_config continuous no_json [peer_remove; peer_expire]) sample_slot (λ r s,
    r = Ok tt → ∀ e', resident s = Some e' → logical_expiration (Entry.meta e') ≤ 7).
Proof.
  split; [reflexivity|]. split; [reflexivity|]. eapply wp_mono.
  - apply (invalidations_survive_reordering demo_inner demo_config continuous no_json).
    intros data [->|[->|[]%elem_of_nil]%elem_of_cons]%elem_of_cons; done.
  - intros r s H Hr e' He. destruct (H Hr) as [_ H'].
    destruct (H' peer_remove) with (e' := e') as (e & _ & _ & _ & data & Hd & Hl); [left|reflexivity|done|].
    revert Hd Hl. cbn. intros [->|[->|[]%elem_of_nil]%elem_of_cons]%elem_of_cons; cbn; lia.
Defined.

Lemma lost_history_is_reconciled_witness :
  wp Tracking.everything (listen (V := nat) demo_inner demo_config continuous no_json IN_Lagged) [] (λ r h,
    (∃ advanced, Ev R_BumpEpoch advanced ∈ h) ∧ (Tracking.succeeded r = true → Ev R_Suspend tt ∈ h)).
Proof.
  eapply wp_mono; [apply (lost_history_is_reconciled demo_inner demo_config continuous no_json IN_Lagged I)|].
  intros r h [H1 H2]. destruct (H1 eq_refl) as [(a & Ha & _) _]. split; [by exists a|]. intros Hr. by apply H2.
Defined.

(** An expiry applies by its sender's clock: until the receiver's clock reaches the
    time of the message, an entry that had already expired there is fresh again. *)
Lemma early_expiry_revives :
  Entry.is_logically_expired sample_resident 60 = true ∧
  Entry.is_logically_expired (Entry.with_logical_expiration 2 sample_resident 70) 60 = false.
Proof. split; reflexivity. Qed.
End ListenTheorems.
