(* ===== verification/Builder.v ===== *)
(** * Building a cache

    Models [src/src/cache/builder.rs], with the plan selections of
    [src/src/cache/plain_ready.rs], [immediate_read.rs] and [memory_inline.rs],
    the clock selection of [clock.rs] and the advice of [advice.rs]. A provider is
    described by what the builder asks of it; what it asks while it builds (the
    runtime, the monotonic clock, supplied stores, plugins) are accesses, so
    [try_build] is a program. It yields the configuration the other files are
    about. *)
From S2P Require Import Supplied.
From S2P Require Import Prelude Time Calls Circuit Options Entry Tags Backplane Cancellation.
From S2P Require Import Invalidation Storage Locking Lanes Wire Lease Recovery Observe Worker Write Control Health.
Open Scope prog_scope.

(** ** Providers, as the builder sees them *)
Record StoreProvider := mkStoreProvider { store_read_immediate : bool; store_snapshots : bool }.
Record DistributedProvider := mkDistributed {
  backend_read_immediate : bool; backend_fenced_writes : bool; backend_invalidation : option StoreProvider }.
Record LockerProvider := mkLocker { locker_support : LeaseSupport; locker_caller_selected : bool }.
Record BackplaneProvider := mkBackplaneProvider { backplane_health : bool }.
Record SerializerProvider := mkSerializer { codec : Serializer unit unit; codec_cloner : bool }.

Inductive ClockTiming := RealTimeModel | ControlledModel.
Inductive BuiltClock := LocalTime | SystemTime | SuppliedTime (timing : ClockTiming).
Inductive ClockDomain := DomainLocal | DomainInteroperable.
Inductive MarkerLifecyclePolicy := LifecycleDurableOnly | LifecycleCachedSnapshots.
Inductive ConfigurationProfile := FusionCache | Strict.
Inductive ReadyPlan := ReadyGeneral | CallbackFree.
(** [CacheMemory]: of the built-in store, its limits. *)
Inductive BuiltMemory := BuiltinMemory (limits : MemoryLimits) (capture : EvictionCapture) | SuppliedMemory (store : Supplied).
Inductive Advice := SharedNameWithoutPrefix | BackplaneWithoutDistributed | LockerWithoutDistributed | OrdinaryMarkerWrites.
#[export] Instance MarkerReadPolicy_eq_dec : EqDecision MarkerReadPolicy.
Proof. solve_decision. Defined.

Record CacheBuilder := mkBuilder {
  b_profile : ConfigurationProfile; b_name : option string; b_instance_id : option string; b_key_prefix : option string;
  b_default_options : EntryOptions; b_tags_default_options : EntryOptions;
  b_marker_read_policy : option MarkerReadPolicy; b_marker_lifecycle_policy : MarkerLifecyclePolicy;
  b_marker_read_limits : option MemoryLimits; b_marker_memory_storage : bool; b_clock : option ClockTiming;
  b_max_capacity : option Z; b_max_weighted_capacity : option Z; b_value_cloner : bool;
  b_jitter : option (Duration → Duration); b_invalidation_store : option StoreProvider; b_lease_policy : LeasePolicy;
  b_lease_ttl : Duration; b_reconciliation : option ReconciliationPolicy; b_memory_locker : bool;
  b_memory_storage : bool; b_remove_by_tag_behavior : RemoveByTagBehavior; b_events_capacity : Z;
  b_eviction_capture : EvictionCapture; b_distributed : option DistributedProvider;
  b_serializer : option SerializerProvider; b_serialization_mode : SerializationMode;
  b_backplane : option BackplaneProvider; b_distributed_locker : option LockerProvider; b_plugins : list nat;
  b_distributed_circuit_breaker : Duration; b_backplane_circuit_breaker : Duration; b_recovery_config : RecoveryConfig;
  b_default_options_provider : bool; b_ignore_incoming_backplane : bool; b_wire_version : string;
  b_key_modifier : KeyModifierMode; b_disable_tagging : bool; b_wait_for_subscribe : bool }.
#[export] Instance eta_CacheBuilder : Eta CacheBuilder := λ b,
  mkBuilder (b_profile b) (b_name b) (b_instance_id b) (b_key_prefix b) (b_default_options b) (b_tags_default_options b)
    (b_marker_read_policy b) (b_marker_lifecycle_policy b) (b_marker_read_limits b) (b_marker_memory_storage b) (b_clock b)
    (b_max_capacity b) (b_max_weighted_capacity b) (b_value_cloner b) (b_jitter b) (b_invalidation_store b)
    (b_lease_policy b) (b_lease_ttl b) (b_reconciliation b) (b_memory_locker b) (b_memory_storage b)
    (b_remove_by_tag_behavior b) (b_events_capacity b) (b_eviction_capture b) (b_distributed b) (b_serializer b)
    (b_serialization_mode b) (b_backplane b) (b_distributed_locker b) (b_plugins b) (b_distributed_circuit_breaker b)
    (b_backplane_circuit_breaker b) (b_recovery_config b) (b_default_options_provider b) (b_ignore_incoming_backplane b)
    (b_wire_version b) (b_key_modifier b) (b_disable_tagging b) (b_wait_for_subscribe b).

Module CacheBuilder.
Definition new : CacheBuilder :=
  mkBuilder FusionCache None None None Options.default_options EntryOptions.tag_defaults None LifecycleDurableOnly None
    false None None None false None None LP_Cooperative (from_secs 30) None false false RBT_Expire 256 AtInsertion None None
    SyncPreferred None None [] Duration_ZERO Duration_ZERO config_default false false "v2" KM_Prefix false false.
Definition strict (b : CacheBuilder) :=
  b <| b_profile := Strict |> <| b_wait_for_subscribe := true |> <| b_lease_policy := LP_Fenced |>.
Definition memory_storage (b : CacheBuilder) := b <| b_memory_storage := true |>.
Definition marker_memory_storage (b : CacheBuilder) := b <| b_marker_memory_storage := true |>.
Definition memory_eviction_capture capture (b : CacheBuilder) := b <| b_eviction_capture := capture |>.
Definition instance_id id (b : CacheBuilder) := b <| b_instance_id := Some id |>.
Definition memory_locker (b : CacheBuilder) := b <| b_memory_locker := true |>.
Definition distributed provider (b : CacheBuilder) := b <| b_distributed := Some provider |>.
(** The two codec setters replace each other. *)
Definition serializer cloner (b : CacheBuilder) := b <| b_serializer := Some (mkSerializer (Ser_Sync tt) cloner) |>.
Definition async_serializer (sync : option unit) cloner (b : CacheBuilder) :=
  b <| b_serializer := Some (mkSerializer (Ser_Async tt sync) cloner) |>.
Definition serialization_mode mode (b : CacheBuilder) := b <| b_serialization_mode := mode |>.
Definition backplane provider (b : CacheBuilder) := b <| b_backplane := Some provider |>.
Definition name name (b : CacheBuilder) := b <| b_name := Some name |>.
Definition key_prefix prefix (b : CacheBuilder) := b <| b_key_prefix := Some prefix |>.
Definition default_options options (b : CacheBuilder) := b <| b_default_options := options |>.
Definition tags_default_options options (b : CacheBuilder) := b <| b_tags_default_options := options |>.
Definition marker_read_policy policy (b : CacheBuilder) := b <| b_marker_read_policy := Some policy |>.
Definition marker_lifecycle_policy policy (b : CacheBuilder) := b <| b_marker_lifecycle_policy := policy |>.
Definition marker_read_limits limits (b : CacheBuilder) := b <| b_marker_read_limits := Some limits |>.
Definition clock timing (b : CacheBuilder) := b <| b_clock := Some timing |>.
Definition max_capacity capacity (b : CacheBuilder) := b <| b_max_capacity := Some capacity |>.
Definition max_weighted_capacity capacity (b : CacheBuilder) := b <| b_max_weighted_capacity := Some capacity |>.
Definition value_cloner (b : CacheBuilder) := b <| b_value_cloner := true |>.
Definition immutable_values (b : CacheBuilder) := b <| b_value_cloner := true |>.
Definition jitter_source source (b : CacheBuilder) := b <| b_jitter := Some source |>.
Definition invalidation_store store (b : CacheBuilder) := b <| b_invalidation_store := Some store |>.
Definition lease_policy policy (b : CacheBuilder) := b <| b_lease_policy := policy |>.
Definition lease_ttl ttl (b : CacheBuilder) := b <| b_lease_ttl := ttl |>.
Definition reconciliation_policy policy (b : CacheBuilder) := b <| b_reconciliation := Some policy |>.
Definition remove_by_tag_behavior behavior (b : CacheBuilder) := b <| b_remove_by_tag_behavior := behavior |>.
Definition events_capacity capacity (b : CacheBuilder) := b <| b_events_capacity := capacity |>.
Definition distributed_locker locker (b : CacheBuilder) := b <| b_distributed_locker := Some locker |>.
Definition plugin plugin (b : CacheBuilder) := b <| b_plugins := b_plugins b ++ [plugin] |>.
Definition cache_plugin plugin (b : CacheBuilder) := b <| b_plugins := b_plugins b ++ [plugin] |>.
Definition distributed_circuit_breaker duration (b : CacheBuilder) := b <| b_distributed_circuit_breaker := duration |>.
Definition backplane_circuit_breaker duration (b : CacheBuilder) := b <| b_backplane_circuit_breaker := duration |>.
Definition auto_recovery config (b : CacheBuilder) := b <| b_recovery_config := config |>.
Definition default_options_provider (b : CacheBuilder) := b <| b_default_options_provider := true |>.
Definition ignore_incoming_backplane ignore (b : CacheBuilder) := b <| b_ignore_incoming_backplane := ignore |>.
Definition distributed_wire_version version (b : CacheBuilder) := b <| b_wire_version := version |>.
Definition distributed_key_modifier_mode mode (b : CacheBuilder) := b <| b_key_modifier := mode |>.
Definition disable_tagging disable (b : CacheBuilder) := b <| b_disable_tagging := disable |>.
Definition wait_for_initial_backplane_subscribe wait (b : CacheBuilder) := b <| b_wait_for_subscribe := wait |>.
End CacheBuilder.

(** ** What is built *)
Record Built := mkBuilt {
  built_inner : Inner; built_markers : MarkerConfig; built_peers : PeerConfig; built_name : string;
  built_memory : BuiltMemory; built_clock : BuiltClock; built_expiry : MemoryExpiry; built_ready_plan : ReadyPlan;
  built_fresh_plan : DefaultFreshPlan; built_copies : bool; built_flights : bool; built_coordination : CoordinationPlan;
  built_locks : bool; built_marker_limits : option MemoryLimits; built_options_provider : bool;
  built_recovery : option RecoveryConfig; built_circuit_l2 : CircuitBreaker; built_circuit_backplane : CircuitBreaker;
  built_waits : bool; built_events : Z }.

(** ** Accesses *)
Section calls.
Context {V : Type}.
Inductive BCall :=
| B_InstanceId | B_Runtime | B_Deadline (after : Duration) | B_Alloc
| B_Values (c : SCall V) | B_Markers (c : SCall MarkerObservation)
| B_PluginHost
(* the services *)
| B_SetExecutor | B_SpawnRecovery | B_StartListener | B_Attach (plugin : nat) | B_Advise (advice : Advice).
Definition banswer (c : BCall) : Type :=
  match c with
  | B_InstanceId => string
  | B_Runtime | B_Deadline _ => bool
  | B_Alloc => Loc
  | B_Values c => sanswer c
  | B_Markers c => sanswer c
  | B_SetExecutor | B_SpawnRecovery => result RecoveryError unit
  | B_StartListener | B_PluginHost | B_Attach _ => result CacheError unit
  | B_Advise _ => unit
  end.
End calls.
Arguments BCall V : clear implicits.

(** ** Selections *)
Definition select_clock (supplied : option ClockTiming) (domain : ClockDomain) : BuiltClock :=
  match supplied, domain with
  | Some timing, _ => SuppliedTime timing
  | None, DomainLocal => LocalTime
  | None, DomainInteroperable => SystemTime
  end.
Definition clock_expiry (clock : BuiltClock) : MemoryExpiry :=
  match clock with
  | LocalTime | SystemTime | SuppliedTime RealTimeModel => RealTime
  | SuppliedTime ControlledModel => ClockDriven
  end.
Definition is_builtin (memory : BuiltMemory) : bool :=
  match memory with BuiltinMemory _ _ => true | SuppliedMemory _ => false end.
(** Only the unbounded backend has reader slots. *)
Definition has_reader_slots (memory : BuiltMemory) : bool :=
  match memory with BuiltinMemory limits _ => bool_decide (limits = MemoryLimits_default) | SuppliedMemory _ => false end.
Definition is_local_time (clock : BuiltClock) : bool :=
  match clock with LocalTime => true | SystemTime | SuppliedTime _ => false end.
Definition is_controlled (reads : MarkerReads) : bool :=
  match reads with ControlledReads _ => true | DurableReads => false end.

Module ReadyPlan.
(** [primitive]: whether the value type is one of the primitive types. *)
Definition select (primitive : bool) (storage : CacheStorage) (memory : BuiltMemory) (options : EntryOptions)
    (runtime : RuntimeRequirement) (clock : BuiltClock) : ReadyPlan :=
  if negb (is_hybrid storage) && negb (RuntimeRequirement.requires_runtime runtime)
     && negb (EntryOptions.enable_auto_clone options) && negb (EntryOptions.skip_memory_read options) && primitive
     && is_builtin memory && is_local_time clock && has_reader_slots memory
  then CallbackFree else ReadyGeneral.
End ReadyPlan.

Module DistributedReadPlan.
Definition select (storage : CacheStorage) (backend : option DistributedProvider) (mode : SerializationMode)
    (markers : MarkerAccess) (store : option StoreProvider) (reads : MarkerReads) (disable_tagging : bool)
    (memory : BuiltMemory) (backplane : bool) : DistributedReadPlan :=
  match storage, backend with
  | ST_Hybrid codec, Some backend =>
      let markers_immediate :=
        disable_tagging ||
        match markers with
        | AC_Durable => negb (is_controlled reads) && from_option store_read_immediate false store
        | AC_Local | AC_Ordinary | AC_Unavailable => false
        end in
      if backend_read_immediate backend && Wire.Serializer.decodes_synchronously codec mode && markers_immediate
         && is_builtin memory && negb backplane
      then PlanImmediate else PlanOwned
  | _, _ => PlanOwned
  end.
End DistributedReadPlan.

Module WritePlan.
Definition select (storage : CacheStorage) (memory : BuiltMemory) (backplane locker : bool) : WritePlan :=
  if negb (is_hybrid storage) && is_builtin memory && negb backplane && negb locker then InlineMemory else GeneralWrite.
Definition is_inline (self : WritePlan) : bool := match self with InlineMemory => true | GeneralWrite => false end.
End WritePlan.

(** ** Validation *)
Definition is_some {A} (o : option A) : bool := bool_decide (is_Some o).
Definition validate_fencing (policy : LeasePolicy) (locker : option LockerProvider) (backend : option DistributedProvider)
    : result ConfigError unit :=
  match policy with
  | LP_Cooperative => Ok tt
  | LP_Fenced =>
      if from_option (λ l, bool_decide (locker_support l = OpaqueLegacy) || negb (locker_caller_selected l)) false locker
      then Err FencedLockerWithoutOwnedLifetime
      else if from_option (λ b, negb (backend_fenced_writes b)) false backend
      then Err FencedDistributedWithoutAtomicWrites
      else Ok tt
  end.
Fixpoint validate_identities (l : list (string * IdentityField)) : result ConfigError unit :=
  match l with
  | [] => Ok tt
  | (value, field) :: l => if trims_empty value then Err (BlankIdentity field) else validate_identities l
  end.

Definition choose_reconciliation (b : CacheBuilder) : ReconciliationPolicy :=
  match b_reconciliation b with
  | Some policy => policy
  | None =>
      match b_profile b, b_backplane b, b_distributed b with
      | _, None, None => LocalOnly
      | FusionCache, None, Some _ => Expiration
      | FusionCache, Some _, _ => BackplaneBestEffort
      | Strict, Some backplane, _ => if backplane_health backplane then BackplaneContinuity else Periodic (from_secs 1)
      | Strict, None, Some _ => Periodic (from_secs 1)
      end
  end.
(** The provider's own store, unless one was supplied. *)
Definition marker_provider (b : CacheBuilder) : option StoreProvider :=
  match b_invalidation_store b with Some store => Some store | None => b_distributed b ≫= backend_invalidation end.
Definition choose_markers (b : CacheBuilder) : result ConfigError MarkerAccess :=
  match marker_provider b, b_distributed b with
  | Some _, _ => Ok AC_Durable
  | None, Some _ =>
      match b_profile b with
      | Strict => if negb (b_disable_tagging b) then Err AtomicInvalidationUnavailable else Ok AC_Unavailable
      | FusionCache => Ok AC_Ordinary
      end
  | None, None => Ok AC_Local
  end.
Definition choose_marker_reads (b : CacheBuilder) (markers : MarkerAccess) : result ConfigError MarkerReadPolicy :=
  let policy :=
    default (match markers with AC_Ordinary => OptionsControlled | _ => DurableRequired end) (b_marker_read_policy b) in
  if negb (b_disable_tagging b) && bool_decide (markers = AC_Ordinary) && bool_decide (policy = DurableRequired)
  then Err AtomicInvalidationUnavailable
  else if b_marker_memory_storage b && negb (bool_decide (policy = OptionsControlled))
  then Err SuppliedMarkerMemoryRequiresControlledReads
  else Ok policy.
Definition choose_lifecycle (b : CacheBuilder) (markers : MarkerAccess) (policy : MarkerReadPolicy)
    : result ConfigError MarkerLifecycle :=
  match b_marker_lifecycle_policy b with
  | LifecycleDurableOnly => Ok DurableOnly
  | LifecycleCachedSnapshots =>
      if negb (bool_decide (policy = OptionsControlled)) then Err MarkerLifecycleRequiresControlledReads
      else if match markers with AC_Durable => from_option store_snapshots false (marker_provider b) | _ => false end
      then Ok CachedSnapshots else Err MarkerSnapshotCapabilityUnavailable
  end.
Definition choose_storage (b : CacheBuilder) : result ConfigError CacheStorage :=
  match b_distributed b, b_serializer b with
  | Some _, Some serializer => Ok (ST_Hybrid (codec serializer))
  | None, _ => Ok ST_MemoryOnly
  | Some _, None => Err DistributedWithoutSerializer
  end.
Definition choose_domain (b : CacheBuilder) (storage : CacheStorage) (markers : MarkerAccess) : ClockDomain :=
  if negb (is_hybrid storage) && bool_decide (markers = AC_Local) && negb (is_some (b_backplane b))
     && negb (is_some (b_distributed_locker b)) && negb (b_memory_storage b) && negb (b_marker_memory_storage b)
  then DomainLocal else DomainInteroperable.

(** ** Advice *)
Definition advise_configuration (b : CacheBuilder) (name : string) (memory : BuiltMemory) (markers : MarkerAccess) : list Advice :=
  let distributed := is_some (b_distributed b) in
  let locker := is_some (b_distributed_locker b) in
  (if negb (bool_decide (name = "amalgam"))
      && from_option (λ p, bool_decide (p = EmptyString)) true (b_key_prefix b)
      && (distributed || negb (is_builtin memory) || locker)
   then [SharedNameWithoutPrefix] else [])
  ++ (if negb distributed && is_some (b_backplane b)
         && negb (EntryOptions.skip_backplane_notifications (b_default_options b))
      then [BackplaneWithoutDistributed] else [])
  ++ (if negb distributed && locker then [LockerWithoutDistributed] else [])
  ++ (if negb (b_disable_tagging b) && bool_decide (markers = AC_Ordinary) then [OrdinaryMarkerWrites] else []).

(** ** Construction *)
Section build.
Context {V : Type} (primitive : bool).
Local Abbreviation prog := (prog (banswer (V := V))).
Local Abbreviation action A := (prog (result CacheError A)).
Local Abbreviation ask c := (call (ans := banswer (V := V)) c).

Definition config {A} (r : result ConfigError A) : action A := Ret (map_err CE_Config r).
Definition deadline (after : Duration) : action unit :=
  let* fits := ask (B_Deadline after) in if fits then ok tt else raise (CE_Config DeadlineOutOfRange).
Fixpoint on_values {A} (p : Calls.prog (sanswer (V := V)) A) : prog A :=
  match p with Ret a => Ret a | Act c k => Act (B_Values c) (λ x, on_values (k x)) end.
Fixpoint on_markers {A} (p : Calls.prog (sanswer (V := MarkerObservation)) A) : prog A :=
  match p with Ret a => Ret a | Act c k => Act (B_Markers c) (λ x, on_markers (k x)) end.
Definition adapted {A} (fault : CacheError) (r : result (ConfigError + MemoryStorageError) A) : result CacheError A :=
  match r with Ok a => Ok a | Err (inl e) => Err (CE_Config e) | Err (inr _) => Err fault end.

Definition validate_reconciliation (b : CacheBuilder) (policy : ReconciliationPolicy) : action unit :=
  match policy with
  | Expiration => ok tt
  | LocalOnly =>
      if is_some (b_backplane b) || is_some (b_distributed b)
      then raise (CE_Config LocalReconciliationWithExternalStorage) else ok tt
  | Periodic interval =>
      if is_zero interval then raise (CE_Config ZeroReconciliationInterval) else deadline interval
  | BackplaneBestEffort =>
      if is_some (b_backplane b) then ok tt else raise (CE_Config BestEffortReconciliationWithoutBackplane)
  | BackplaneContinuity =>
      if from_option backplane_health false (b_backplane b) then ok tt else raise (CE_Config UnavailableBackplaneContinuity)
  end.

Definition runtime_for (component : RuntimeComponent) : action unit :=
  let* present := ask B_Runtime in
  if present then ok tt else raise (CE_Config (Options.MissingRuntime component)).

Definition build_recovery (config : RecoveryConfig) : action unit :=
  if enabled config && is_zero (delay config) then raise (CE_Recovery ZeroDelay)
  else
    let* fits := if enabled config then ask (B_Deadline (delay config)) else Ret true in
    if fits then ok tt else raise (CE_Recovery InvalidBarrier).

Definition observation_namespace (b : CacheBuilder) (markers : MarkerAccess) (scope : CacheScope) : MarkerMemoryNamespace :=
  match markers with
  | AC_Local => NS_Local (default EmptyString (b_key_prefix b))
  | AC_Durable | AC_Ordinary | AC_Unavailable => NS_Durable scope
  end.
Definition storage_namespace (namespace : MarkerMemoryNamespace) : MemoryNamespace :=
  match namespace with NS_Local prefix => MN_LocalMarkers prefix | NS_Durable scope => MN_DurableMarkers scope end.
Definition observation_limits (b : CacheBuilder) : MemoryLimits :=
  default (if b_marker_memory_storage b then MemoryLimits_default else mkMemoryLimits (Some 4096) None)
    (b_marker_read_limits b).
Definition build_marker_reads (b : CacheBuilder) (policy : MarkerReadPolicy) (markers : MarkerAccess) (scope : CacheScope)
    (lifecycle : MarkerLifecycle) (expiry : MemoryExpiry) (epoch : Loc) : action MarkerReads :=
  match policy with
  | DurableRequired => ok DurableReads
  | OptionsControlled =>
      let namespace := observation_namespace b markers scope in
      let? _ :=
        if b_marker_memory_storage b then
          let* owner := ask B_Alloc in
          let* store := on_markers (new_for_namespace (observation_limits b) owner expiry (storage_namespace namespace)) in
          Ret ((λ _, tt) <$> adapted CE_MarkerMemoryStorage store)
        else ok tt in
      ok (ControlledReads (mkObservations namespace (b_marker_memory_storage b) lifecycle epoch))
  end.

Definition build_memory (b : CacheBuilder) (expiry : MemoryExpiry) : action BuiltMemory :=
  let limits := mkMemoryLimits (b_max_capacity b) (b_max_weighted_capacity b) in
  if b_memory_storage b then
    let* owner := ask B_Alloc in
    let* store := on_values (new_for_namespace limits owner expiry (MemoryNamespace.new (b_key_prefix b))) in
    Ret (SuppliedMemory <$> adapted CE_MemoryStorage store)
  else ok (BuiltinMemory limits (b_eviction_capture b)).

(** The parts and the plans, once the settings are validated. *)
Definition plan (b : CacheBuilder) (recovery_enabled cloner : bool) (name instance_id : string) (lease_ttl : Duration)
    (reconciliation : ReconciliationPolicy) (scope : CacheScope) (markers : MarkerAccess) (policy : MarkerReadPolicy)
    (lifecycle : MarkerLifecycle) (storage : CacheStorage) : action Built :=
  let clock := select_clock (b_clock b) (choose_domain b storage markers) in
  let expiry := clock_expiry clock in
  let? _ := if recovery_enabled then build_recovery (b_recovery_config b) else ok tt in
  let? _ := ask B_PluginHost in
  let* epoch := ask B_Alloc in
  let? reads := build_marker_reads b policy markers scope lifecycle expiry epoch in
  let? memory := build_memory b expiry in
  let runtime := RuntimeRequirement.for_options (b_default_options b) (is_hybrid storage)
                   (is_some (b_backplane b)) (is_some (b_distributed_locker b)) in
  let ready :=
    if negb (b_default_options_provider b) && negb (is_some (b_key_prefix b)) && negb (is_some (b_backplane b))
       && (b_disable_tagging b || negb (is_controlled reads))
    then ReadyPlan.select primitive storage memory (b_default_options b) runtime clock
    else ReadyGeneral in
  let distributed_plan := DistributedReadPlan.select storage (b_distributed b) (b_serialization_mode b) markers
                            (marker_provider b) reads (b_disable_tagging b) memory (is_some (b_backplane b)) in
  let prefetch :=
    if negb (is_some (b_invalidation_store b)) && negb (b_disable_tagging b) && bool_decide (markers = AC_Durable)
       && negb (is_controlled reads)
    then WithValue else Separate in
  let write := WritePlan.select storage memory (is_some (b_backplane b)) (is_some (b_distributed_locker b)) in
  let? fresh :=
    if WritePlan.is_inline write
    then Ret (map_err from_entry_error (default_plan_for_options (b_default_options b)))
    else ok General in
  let? _ := config (EntryOptions.validate_with_cloner (b_default_options b) cloner) in
  let inner := mkInnerConfig storage (b_serialization_mode b) (b_default_options b) runtime
    (JitterPlan.select (b_jitter b)) cloner (is_some (b_backplane b)) (is_some (b_distributed_locker b)) recovery_enabled
    (b_disable_tagging b) (b_remove_by_tag_behavior b) policy prefetch distributed_plan write (b_lease_policy b) lease_ttl
    instance_id (b_key_prefix b) (DistributedKey.new (b_wire_version b) (b_key_modifier b)) scope epoch in
  ok (mkBuilt inner (mkMarkers (b_tags_default_options b) markers reads)
        (mkPeers reconciliation (b_ignore_incoming_backplane b)) name memory clock expiry ready fresh
        (EntryOptions.enable_auto_clone (b_default_options b))
        (WritePlan.is_inline write && negb (b_memory_locker b) && negb (is_controlled reads))
        (if is_hybrid storage then Reuse else Transient) (negb (b_memory_locker b))
        (if is_controlled reads then Some (observation_limits b) else None) (b_default_options_provider b)
        (if recovery_enabled then Some (b_recovery_config b) else None)
        (CircuitBreaker.new (b_distributed_circuit_breaker b)) (CircuitBreaker.new (b_backplane_circuit_breaker b))
        (b_wait_for_subscribe b) (Z.max 1 (b_events_capacity b))).

(** Everything up to the allocation of the cache: the checks, then the parts and
    the plans. *)
Definition assemble (b : CacheBuilder) : action Built :=
  let name := default "amalgam" (b_name b) in
  let* instance_id := match b_instance_id b with Some id => Ret id | None => ask B_InstanceId end in
  let? _ := config (validate_identities
    [(name, IF_CacheName); (instance_id, IF_InstanceId); (b_wire_version b, IF_WireVersion)]) in
  let? _ := if is_some (b_distributed b) && negb (is_some (b_serializer b))
            then raise (CE_Config DistributedWithoutSerializer) else ok tt in
  let? _ := config (validate_fencing (b_lease_policy b) (b_distributed_locker b) (b_distributed b)) in
  let cloner := b_value_cloner b || from_option codec_cloner false (b_serializer b) in
  let? _ := config (EntryOptions.validate_with_cloner (b_default_options b) cloner) in
  let? _ := config (EntryOptions.validate (b_tags_default_options b)) in
  let recovery_enabled :=
    enabled (b_recovery_config b) && (is_some (b_distributed b) || is_some (b_backplane b)) in
  let? _ := if is_some (b_backplane b) then runtime_for RC_Backplane else ok tt in
  let? _ := if recovery_enabled then runtime_for RC_Recovery else ok tt in
  let? lease_ttl := Ret (map_err CE_Lease (LeaseTtl.new (b_lease_ttl b))) in
  let reconciliation := choose_reconciliation b in
  let? _ := validate_reconciliation b reconciliation in
  let? scope := Ret (map_err CE_Marker
    (CacheScope.new (default EmptyString (b_key_prefix b)) (b_wire_version b) (b_key_modifier b))) in
  let? markers := config (choose_markers b) in
  let? policy := config (choose_marker_reads b markers) in
  let? lifecycle := config (choose_lifecycle b markers policy) in
  let? storage := config (choose_storage b) in
  plan b recovery_enabled cloner name instance_id lease_ttl reconciliation scope markers policy lifecycle storage.

Fixpoint attach_all (l : list nat) : action unit :=
  match l with [] => ok tt | plugin :: l => let? _ := ask (B_Attach plugin) in attach_all l end.
Fixpoint emit_all (l : list Advice) : prog unit :=
  match l with [] => Ret tt | advice :: l => ask (B_Advise advice) ;;; emit_all l end.

Definition start (b : CacheBuilder) (built : Built) : action unit :=
  let? _ :=
    if is_some (built_recovery built) then
      let* set := ask B_SetExecutor in
      let? _ := Ret (map_err CE_Recovery set) in
      let* spawned := ask B_SpawnRecovery in
      Ret (map_err CE_Recovery spawned)
    else ok tt in
  let? _ := ask B_StartListener in
  let? _ := attach_all (b_plugins b) in
  emit_all (advise_configuration b (built_name built) (built_memory built) (markers (built_markers built))) ;;;
  ok tt.

Definition try_build (b : CacheBuilder) : action Built :=
  let? built := assemble b in
  let? _ := start b built in
  ok built.
End build.

(** ** Theory *)
Module BuilderTheory.
Section theory.
Context {V : Type} (primitive : bool).
Local Abbreviation action A := (prog (banswer (V := V)) (result CacheError A)).

(** What a construction yields, whatever the providers answer. *)
Definition yields {A} (p : action A) (P : A → Prop) : Prop :=
  ∀ h, wp (any (λ _, true)) p h (λ r _, match r with Ok a => P a | Err _ => True end).

Lemma yields_attempt {A B} (p : action A) (f : A → action B) P Q :
  yields p P → (∀ a, P a → yields (f a) Q) → yields (attempt p f) Q.
Proof.
  intros Hp Hf h. apply wp_attempt. eapply wp_mono; [apply Hp|].
  intros [a|e] h'; simpl; [|done]. intros Ha. by apply Hf.
Qed.
Lemma yields_bind {X A} (p : prog (banswer (V := V)) X) (f : X → action A) P :
  (∀ x, yields (f x) P) → yields (bind p f) P.
Proof. intros Hf h. apply wp_bind. eapply wp_mono; [apply wp_grows|]. intros x h' _. apply Hf. Qed.
Lemma yields_ret {A} (r : result CacheError A) (P : A → Prop) : (∀ a, r = Ok a → P a) → yields (Ret r) P.
Proof. intros H h. destruct r; simpl; auto. Qed.
Lemma yields_act {A} c (k : _ → action A) P : (∀ x, yields (k x) P) → yields (Act c k) P.
Proof. intros Hk h x h' _. apply Hk. Qed.
Lemma yields_mapped {E A} (f : E → CacheError) (r : result E A) : yields (Ret (map_err f r)) (λ a, r = Ok a).
Proof. apply yields_ret. destruct r; simpl; congruence. Qed.
Lemma yields_when (g : bool) (p : action unit) P :
  (g = true → yields p P) → (g = false → P tt) → yields (if g then p else ok tt) P.
Proof. intros Hp Hk. destruct g; [auto|]. apply yields_ret. intros [] _. auto. Qed.
(** Guards that passed. *)
Lemma yields_guard (g : bool) e (P : unit → Prop) : (g = false → P tt) → yields (if g then raise e else ok tt) P.
Proof. intros H. destruct g; apply yields_ret; intros [] ?; try done; auto. Qed.
Lemma yields_unless (g : bool) e (P : unit → Prop) : (g = true → P tt) → yields (if g then ok tt else raise e) P.
Proof. intros H. destruct g; apply yields_ret; intros [] ?; try done; auto. Qed.
Lemma yields_any {A} (p : action A) : yields p (λ _, True).
Proof. intros h. eapply wp_mono; [apply wp_grows|]. by intros [?|?] ?. Qed.

Lemma yields_runtime c : yields (runtime_for c) (λ _, True).
Proof. apply yields_any. Qed.

(** *** The parts *)
Definition reconciles (b : CacheBuilder) (policy : ReconciliationPolicy) : Prop :=
  match policy with
  | Expiration => True
  | LocalOnly => b_backplane b = None ∧ b_distributed b = None
  | Periodic interval => is_zero interval = false
  | BackplaneBestEffort => is_Some (b_backplane b)
  | BackplaneContinuity => ∃ p, b_backplane b = Some p ∧ backplane_health p = true
  end.
Lemma is_some_true {A} (o : option A) : is_some o = true ↔ is_Some o.
Proof. unfold is_some. apply bool_decide_eq_true. Qed.
Lemma is_some_false {A} (o : option A) : is_some o = false ↔ o = None.
Proof. unfold is_some. rewrite bool_decide_eq_false. symmetry. apply eq_None_not_Some. Qed.

Lemma yields_reconciliation b policy : yields (validate_reconciliation b policy) (λ _, reconciles b policy).
Proof.
  unfold validate_reconciliation. destruct policy as [| |interval| |]; simpl.
  - apply yields_guard. intros E. apply orb_false_elim in E as [?%is_some_false ?%is_some_false]. done.
  - by apply yields_ret.
  - destruct (is_zero interval); [by apply yields_ret|]. intros h.
    eapply wp_mono; [apply wp_grows|]. by intros [?|?] ?.
  - apply yields_unless. intros E. destruct (b_backplane b) as [p|]; [by exists p|done].
  - apply yields_unless. intros E. by apply is_some_true in E.
Qed.

Lemma yields_recovery (config : RecoveryConfig) :
  yields (build_recovery config) (λ _, enabled config = true → is_zero (delay config) = false).
Proof.
  unfold build_recovery. destruct (enabled config), (is_zero (delay config)); simpl; try by apply yields_ret.
  - apply yields_act. intros []; by apply yields_ret.
Qed.

Definition memory_built (b : CacheBuilder) (memory : BuiltMemory) : Prop :=
  match memory with
  | BuiltinMemory limits capture =>
      b_memory_storage b = false ∧ limits = mkMemoryLimits (b_max_capacity b) (b_max_weighted_capacity b)
      ∧ capture = b_eviction_capture b
  | SuppliedMemory _ =>
      b_memory_storage b = true ∧ b_max_capacity b = None ∧ b_max_weighted_capacity b = None
  end.
Lemma yields_memory b expiry : yields (build_memory b expiry) (memory_built b).
Proof.
  unfold build_memory. destruct (b_memory_storage b) eqn:E; [|apply yields_ret; intros ? [= <-]; simpl; auto].
  apply yields_bind. intros owner. unfold new_for_namespace.
  destruct (decide (mkMemoryLimits (b_max_capacity b) (b_max_weighted_capacity b) = MemoryLimits_default)) as [L|L].
  - injection L as Hc Hw. apply yields_bind. intros r. apply yields_ret.
    intros m. destruct r as [s|[?|?]]; simpl; intros [= <-]. split_and!; [done..|].
    all: destruct (b_max_capacity b), (b_max_weighted_capacity b); done.
  - rewrite (bool_decide_eq_false_2 _ L). simpl. by apply yields_ret.
Qed.

Lemma yields_marker_reads b policy markers scope lifecycle expiry epoch :
  yields (build_marker_reads b policy markers scope lifecycle expiry epoch)
    (λ reads, match policy with
              | DurableRequired => reads = DurableReads
              | OptionsControlled => reads = ControlledReads
                  (mkObservations (observation_namespace b markers scope) (b_marker_memory_storage b) lifecycle epoch)
              end).
Proof.
  unfold build_marker_reads. destruct policy; [by apply yields_ret; intros ? [= <-]|].
  eapply yields_attempt; [apply yields_any|]. intros [] _. by apply yields_ret; intros ? [= <-].
Qed.
End theory.
End BuilderTheory.
Import BuilderTheory.

(** ** What a successful construction guarantees *)
Module BuilderTheorems.
Section theorems.
Context {V : Type} (primitive : bool).

(** The layers, the provider each decision relies on, and the plans of the fast
    paths fit each other. *)
Record coherent (b : CacheBuilder) (r : Built) : Prop := mkCoherent {
  c_storage : match storage (built_inner r) with
    | ST_MemoryOnly => b_distributed b = None
    | ST_Hybrid c => is_Some (b_distributed b) ∧ ∃ s, b_serializer b = Some s ∧ c = codec s
    end;
  c_memory : memory_built b (built_memory r);
  c_identities : trims_empty (built_name r) = false ∧ trims_empty (instance_id (built_inner r)) = false
    ∧ trims_empty (b_wire_version b) = false;
  c_options : EntryOptions.validate (default_options (built_inner r)) = Ok tt
    ∧ EntryOptions.validate (tags_default_options (built_markers r)) = Ok tt
    ∧ (EntryOptions.enable_auto_clone (default_options (built_inner r)) = true → has_cloner (built_inner r) = true)
    ∧ built_copies r = EntryOptions.enable_auto_clone (default_options (built_inner r));
  c_lease : is_zero (lease_ttl (built_inner r)) = false ∧ as_millis (lease_ttl (built_inner r)) ≤ i64_max;
  c_fenced : lease_policy (built_inner r) = LP_Fenced →
    (∀ l, b_distributed_locker b = Some l → locker_support l ≠ OpaqueLegacy ∧ locker_caller_selected l = true)
    ∧ (∀ d, b_distributed b = Some d → backend_fenced_writes d = true);
  c_markers : match markers (built_markers r) with
    | AC_Local => storage (built_inner r) = ST_MemoryOnly ∧ marker_provider b = None
    | AC_Durable => is_Some (marker_provider b)
    | AC_Ordinary => is_hybrid (storage (built_inner r)) = true ∧ marker_provider b = None
        ∧ (disable_tagging (built_inner r) = true ∨ is_controlled (marker_reads (built_markers r)) = true)
    | AC_Unavailable => is_hybrid (storage (built_inner r)) = true ∧ disable_tagging (built_inner r) = true
    end;
  c_reads : match marker_reads (built_markers r) with
    | DurableReads => marker_read_policy (built_inner r) = DurableRequired ∧ b_marker_memory_storage b = false
    | ControlledReads obs => marker_read_policy (built_inner r) = OptionsControlled
        ∧ namespace obs = observation_namespace b (markers (built_markers r)) (scope (built_inner r))
        ∧ obs_epoch obs = epoch_loc (built_inner r)
        ∧ (lifecycle obs = CachedSnapshots →
             ∃ p, marker_provider b = Some p ∧ store_snapshots p = true)
    end;
  c_peers : reconciles b (reconciliation (built_peers r));
  c_recovery : match built_recovery r with
    | Some c => has_recovery (built_inner r) = true ∧ enabled c = true ∧ is_zero (delay c) = false
        ∧ (is_hybrid (storage (built_inner r)) = true ∨ has_backplane (built_inner r) = true)
    | None => has_recovery (built_inner r) = false
    end;
  c_local_time : built_clock r = LocalTime →
    storage (built_inner r) = ST_MemoryOnly ∧ markers (built_markers r) = AC_Local
    ∧ has_backplane (built_inner r) = false ∧ has_locker (built_inner r) = false
    ∧ is_builtin (built_memory r) = true ∧ b_marker_memory_storage b = false;
  c_inline_writes : write_plan (built_inner r) = InlineMemory →
    storage (built_inner r) = ST_MemoryOnly ∧ is_builtin (built_memory r) = true
    ∧ has_backplane (built_inner r) = false ∧ has_locker (built_inner r) = false
    ∧ has_recovery (built_inner r) = false
    ∧ default_plan_for_options (default_options (built_inner r)) = Ok (built_fresh_plan r);
  c_general_writes : write_plan (built_inner r) = GeneralWrite → built_fresh_plan r = General ∧ built_flights r = false;
  c_flights : built_flights r = true → built_locks r = true ∧ marker_reads (built_markers r) = DurableReads;
  c_callback_free : built_ready_plan r = CallbackFree →
    primitive = true ∧ write_plan (built_inner r) = InlineMemory ∧ built_clock r = LocalTime
    ∧ has_reader_slots (built_memory r) = true ∧ default_runtime (built_inner r) = RR_Inline
    ∧ EntryOptions.eager_refresh_threshold (default_options (built_inner r)) = None
    ∧ EntryOptions.skip_memory_read (default_options (built_inner r)) = false ∧ built_copies r = false
    ∧ key_prefix (built_inner r) = None ∧ built_options_provider r = false
    ∧ (disable_tagging (built_inner r) = true ∨ marker_reads (built_markers r) = DurableReads);
  c_immediate : distributed_read_plan (built_inner r) = PlanImmediate →
    is_hybrid (storage (built_inner r)) = true ∧ is_builtin (built_memory r) = true
    ∧ has_backplane (built_inner r) = false
    ∧ (∃ d, b_distributed b = Some d ∧ backend_read_immediate d = true)
    ∧ (disable_tagging (built_inner r) = true ∨
       marker_reads (built_markers r) = DurableReads ∧ markers (built_markers r) = AC_Durable
       ∧ ∃ p, marker_provider b = Some p ∧ store_read_immediate p = true);
  c_prefetch : marker_prefetch (built_inner r) = WithValue →
    disable_tagging (built_inner r) = false ∧ marker_reads (built_markers r) = DurableReads
    ∧ ∃ d p, b_distributed b = Some d ∧ backend_invalidation d = Some p ∧ marker_provider b = Some p
}.

Lemma storage_chosen b s : choose_storage b = Ok s →
  match s with
  | ST_MemoryOnly => b_distributed b = None
  | ST_Hybrid c => is_Some (b_distributed b) ∧ ∃ z, b_serializer b = Some z ∧ c = codec z
  end.
Proof. unfold choose_storage. intros ?. repeat case_match; simplify_eq/=; eauto. Qed.
Lemma fencing_validated policy locker backend : validate_fencing policy locker backend = Ok tt → policy = LP_Fenced →
  (∀ l, locker = Some l → locker_support l ≠ OpaqueLegacy ∧ locker_caller_selected l = true)
  ∧ (∀ d, backend = Some d → backend_fenced_writes d = true).
Proof.
  intros H ->. simpl in H. destruct (from_option _ false locker) eqn:El; [done|].
  destruct (from_option _ false backend) eqn:Eb; [done|]. split.
  - intros l ->. simpl in El. apply orb_false_elim in El as [?%bool_decide_eq_false ?%negb_false_iff]. done.
  - intros d ->. simpl in Eb. by apply negb_false_iff.
Qed.
Lemma identities_validated l : validate_identities l = Ok tt → Forall (λ p, trims_empty p.1 = false) l.
Proof. induction l as [|[value field] l IH]; simpl; [constructor|]. case_match; [done|]. constructor; auto. Qed.
Lemma cloner_validated o cloner : EntryOptions.validate_with_cloner o cloner = Ok tt →
  EntryOptions.validate o = Ok tt ∧ (EntryOptions.enable_auto_clone o = true → cloner = true).
Proof.
  unfold EntryOptions.validate_with_cloner, EntryOptions.enable_auto_clone. intros ([] & Hv & H)%result_bind_ok.
  split; [done|]. intros Ha. rewrite Ha in H. by destruct cloner.
Qed.
Lemma lease_validated d ttl : LeaseTtl.new d = Ok ttl → is_zero ttl = false ∧ as_millis ttl ≤ i64_max.
Proof. unfold LeaseTtl.new. destruct (is_zero d) eqn:Z, (Z.ltb_spec i64_max (as_millis d)); simpl; intros [= <-]; auto. Qed.
Lemma markers_chosen b m : choose_markers b = Ok m →
  match m with
  | AC_Local => b_distributed b = None ∧ marker_provider b = None
  | AC_Durable => is_Some (marker_provider b)
  | AC_Ordinary => is_Some (b_distributed b) ∧ marker_provider b = None
  | AC_Unavailable => is_Some (b_distributed b) ∧ b_disable_tagging b = true
  end.
Proof.
  unfold choose_markers. intros ?. repeat case_match; simplify_eq/=; try (by eauto). split; [eauto|]. by apply negb_false_iff.
Qed.
Lemma policy_chosen b m p : choose_marker_reads b m = Ok p →
  (m = AC_Ordinary → b_disable_tagging b = false → p = OptionsControlled)
  ∧ (p = DurableRequired → b_marker_memory_storage b = false).
Proof.
  unfold choose_marker_reads. set (q := default _ _). intros H. destruct (_ && _ && _) eqn:G; [done|].
  destruct (b_marker_memory_storage b && _) eqn:S; [done|]. injection H as <-. split.
  - intros -> E. rewrite E in G. destruct q; [|done]. by rewrite !bool_decide_eq_true_2 in G.
  - intros E. rewrite E in S. destruct (b_marker_memory_storage b); [|done]. by rewrite bool_decide_eq_false_2 in S.
Qed.
Lemma lifecycle_chosen b m p l : choose_lifecycle b m p = Ok l → l = CachedSnapshots →
  ∃ s, marker_provider b = Some s ∧ store_snapshots s = true.
Proof.
  unfold choose_lifecycle. intros H ->. destruct (b_marker_lifecycle_policy b); [done|].
  destruct (negb _); [done|]. destruct m; try done. destruct (marker_provider b) as [s|]; simpl in H; [|done].
  destruct (store_snapshots s) eqn:E; [eauto|done].
Qed.

(** *** The selections *)
Ltac conjuncts := repeat match goal with
  | H : _ && _ = true |- _ => apply andb_true_iff in H as [? ?]
  | H : negb _ = true |- _ => apply negb_true_iff in H
  | H : _ || _ = false |- _ => apply orb_false_elim in H as [? ?]
  | H : is_some _ = false |- _ => apply is_some_false in H
  | H : is_some _ = true |- _ => apply is_some_true in H
  | H : bool_decide _ = true |- _ => apply bool_decide_eq_true in H
  | H : bool_decide _ = false |- _ => apply bool_decide_eq_false in H
  end.
Lemma memory_only_spec s : is_hybrid s = false → s = ST_MemoryOnly.
Proof. by destruct s. Qed.
Lemma hybrid_storage b s : choose_storage b = Ok s → is_hybrid s = is_some (b_distributed b).
Proof. unfold choose_storage. intros ?. repeat case_match; simplify_eq/=; done. Qed.
Lemma local_time_spec clock : is_local_time clock = true → clock = LocalTime.
Proof. by destruct clock. Qed.

Lemma selected_when {A} (g : bool) (x y z : A) : (if g then x else y) = z → y ≠ z → g = true ∧ x = z.
Proof. destruct g; [done|]. by intros ->. Qed.
Lemma callback_free_selected s m o runtime clock :
  ReadyPlan.select primitive s m o runtime clock = CallbackFree →
  s = ST_MemoryOnly ∧ runtime = RR_Inline ∧ EntryOptions.enable_auto_clone o = false
  ∧ EntryOptions.skip_memory_read o = false ∧ primitive = true ∧ is_builtin m = true ∧ clock = LocalTime
  ∧ has_reader_slots m = true.
Proof.
  unfold ReadyPlan.select. case_match eqn:G; [intros _|done]. conjuncts.
  split_and!; auto using memory_only_spec, local_time_spec. by destruct runtime.
Qed.
Lemma local_selected supplied b s m : select_clock supplied (choose_domain b s m) = LocalTime →
  s = ST_MemoryOnly ∧ m = AC_Local ∧ b_backplane b = None ∧ b_distributed_locker b = None
  ∧ b_memory_storage b = false ∧ b_marker_memory_storage b = false.
Proof.
  unfold choose_domain. destruct supplied; [done|]. case_match eqn:G; [intros _|done]. conjuncts.
  split_and!; auto using memory_only_spec.
Qed.
Lemma inline_selected s m backplane locker : WritePlan.select s m backplane locker = InlineMemory →
  s = ST_MemoryOnly ∧ is_builtin m = true ∧ backplane = false ∧ locker = false.
Proof. unfold WritePlan.select. case_match eqn:G; [intros _|done]. conjuncts. split_and!; auto using memory_only_spec. Qed.
Lemma inline_selects s m : s = ST_MemoryOnly → is_builtin m = true → WritePlan.select s m false false = InlineMemory.
Proof. intros -> H. unfold WritePlan.select. by rewrite H. Qed.
Lemma immediate_selected s backend mode m store reads tagging memory backplane :
  DistributedReadPlan.select s backend mode m store reads tagging memory backplane = PlanImmediate →
  is_hybrid s = true ∧ is_builtin memory = true ∧ backplane = false
  ∧ (∃ d, backend = Some d ∧ backend_read_immediate d = true)
  ∧ (tagging = true ∨ is_controlled reads = false ∧ m = AC_Durable
                      ∧ ∃ p, store = Some p ∧ store_read_immediate p = true).
Proof.
  unfold DistributedReadPlan.select. destruct s as [|c]; [done|]. destruct backend as [d|]; [|done].
  case_match eqn:G; [intros _|done]. conjuncts. split_and!; [done..|eauto|].
  destruct tagging; [by left|right]. destruct m; simpl in *; try done. conjuncts.
  destruct store as [p|]; simpl in *; [eauto 6|done].
Qed.
Lemma inline_runtime o distributed backplane locker :
  RuntimeRequirement.for_options o distributed backplane locker = RR_Inline →
  EntryOptions.eager_refresh_threshold o = None.
Proof.
  unfold RuntimeRequirement.for_options. case_match eqn:G; [done|intros _]. conjuncts. by apply eq_None_not_Some.
Qed.
Lemma builtin_memory b m : memory_built b m → b_memory_storage b = false → is_builtin m = true.
Proof. destruct m; simpl; [done|]. intros (H & _) ?. congruence. Qed.
Lemma controlled_false reads : is_controlled reads = false → reads = DurableReads.
Proof. by destruct reads. Qed.

Lemma yields_config {A} (r : result ConfigError A) : yields (V := V) (config r) (λ a, r = Ok a).
Proof. apply yields_mapped. Qed.
Lemma yields_if {A} (g : bool) (p q : prog (banswer (V := V)) (result CacheError A)) P :
  (g = true → yields p P) → (g = false → yields q P) → yields (if g then p else q) P.
Proof. intros Hp Hq. destruct g; auto. Qed.

Lemma yields_fresh write o :
  yields (V := V) (if WritePlan.is_inline write then Ret (map_err from_entry_error (default_plan_for_options o)) else ok General)
    (λ fresh, match write with InlineMemory => default_plan_for_options o = Ok fresh | GeneralWrite => fresh = General end).
Proof. destruct write; [apply yields_mapped|apply yields_ret; by intros ? [= <-]]. Qed.
Lemma yields_delay b (g : bool) : g = enabled (b_recovery_config b) && (is_some (b_distributed b) || is_some (b_backplane b)) →
  yields (V := V) (if g then build_recovery (b_recovery_config b) else ok tt)
    (λ _, g = true → is_zero (delay (b_recovery_config b)) = false).
Proof.
  intros E. apply yields_when; [|congruence]. intros Hg h. eapply wp_mono; [apply yields_recovery|].
  intros [[]|] ?; [|done]. intros H _. apply H. rewrite E in Hg. by apply andb_true_iff in Hg as [? _].
Qed.

Lemma planned_is_coherent b g cloner name id ttl sc m p l s :
  g = enabled (b_recovery_config b) && (is_some (b_distributed b) || is_some (b_backplane b)) →
  Forall (λ p, trims_empty p.1 = false) [(name, IF_CacheName); (id, IF_InstanceId); (b_wire_version b, IF_WireVersion)] →
  validate_fencing (b_lease_policy b) (b_distributed_locker b) (b_distributed b) = Ok tt →
  EntryOptions.validate_with_cloner (b_default_options b) cloner = Ok tt →
  EntryOptions.validate (b_tags_default_options b) = Ok tt →
  LeaseTtl.new (b_lease_ttl b) = Ok ttl →
  reconciles b (choose_reconciliation b) →
  choose_markers b = Ok m → choose_marker_reads b m = Ok p → choose_lifecycle b m p = Ok l → choose_storage b = Ok s →
  yields (V := V) (plan primitive b g cloner name id ttl (choose_reconciliation b) sc m p l s) (coherent b).
Proof.
  intros Hg Hid Hf Ho Ht Hl Hr Hm Hp Hlc Hs. unfold plan.
  eapply yields_attempt; [by apply yields_delay|]. intros [] Hd.
  eapply yields_attempt; [apply yields_any|]. intros [] _.
  apply yields_bind. intros epoch.
  eapply yields_attempt; [apply yields_marker_reads|]. intros reads Hreads.
  eapply yields_attempt; [apply yields_memory|]. intros memory Hmem.
  eapply yields_attempt; [apply yields_fresh|]. intros fresh Hfresh.
  eapply yields_attempt; [apply yields_any|]. intros [] _.
  apply yields_ret. intros r [= <-].
  pose proof (hybrid_storage _ _ Hs) as Hy. pose proof (markers_chosen _ _ Hm) as Hmk.
  destruct (policy_chosen _ _ _ Hp) as [Hord Hsup]. destruct (cloner_validated _ _ Ho) as [? ?].
  constructor; simpl.
  - by apply storage_chosen.
  - done.
  - by apply Forall_cons in Hid as [? [? [? _]%Forall_cons]%Forall_cons].
  - done.
  - by eapply lease_validated.
  - by apply fencing_validated.
  - destruct m; try done.
    + destruct Hmk as [Hn ?]. split; [|done]. apply memory_only_spec. by rewrite Hy, Hn.
    + destruct Hmk as [Hn ?]. split; [|done]. rewrite Hy. by apply is_some_true.
    + destruct Hmk as [Hn ?]. split_and!; [by rewrite Hy; apply is_some_true|done|].
      destruct (b_disable_tagging b) eqn:E; [by left|right]. rewrite (Hord eq_refl eq_refl) in Hreads. by subst.
  - destruct p; subst reads; [by auto|]. split_and!; [done..|]. by eapply lifecycle_chosen.
  - done.
  - destruct g; simpl; [|done]. symmetry in Hg. apply andb_true_iff in Hg as [? [?|?]%orb_true_iff]; [|by auto..].
    split_and!; [done..|auto|]. left. by rewrite Hy.
  - intros Hc. apply local_selected in Hc as (-> & -> & Hb & Hk & Hms & ?).
    split_and!; [done..|by apply is_some_false|by apply is_some_false|by eapply builtin_memory|done].
  - intros Hw. rewrite Hw in Hfresh. apply inline_selected in Hw as (-> & ? & Hb & ?). split_and!; try done.
    rewrite Hg, Hb. simpl in Hy. by rewrite <- Hy, andb_false_r.
  - intros Hw. by rewrite Hw in Hfresh |- *.
  - intros [[_ ?]%andb_true_iff Hc%negb_true_iff]%andb_true_iff. auto using controlled_false.
  - intros Hc. apply selected_when in Hc as [Hc Hsel]; [|done]. conjuncts.
    revert Hsel. intros (? & ? & ? & ? & ? & ? & Hl' & ?)%callback_free_selected.
    pose proof (local_selected _ _ _ _ Hl') as (? & ? & Hb%is_some_false & Hk%is_some_false & _).
    split_and!; try done; [by rewrite Hb, Hk; apply inline_selects|by eapply inline_runtime|].
    match goal with H : _ || negb _ = true |- _ => apply orb_true_iff in H as [?|?%negb_true_iff] end;
      auto using controlled_false.
  - intros (? & ? & ? & ? & [?|(?%controlled_false & ? & ?)])%immediate_selected; auto 10.
  - intros Hc. apply selected_when in Hc as [Hc _]; [|done]. conjuncts. split_and!; [done|by apply controlled_false|]. subst m.
    destruct Hmk as [q Hq]. pose proof Hq as Hq'. unfold marker_provider in Hq'.
    destruct (b_invalidation_store b); [done|]. apply bind_Some in Hq' as (d & ? & ?). eauto.
Qed.

Lemma assembled_is_coherent b : yields (assemble primitive (V := V) b) (coherent b).
Proof.
  unfold assemble. apply yields_bind. intros id.
  eapply yields_attempt; [apply yields_config|]. intros [] Hid%identities_validated.
  eapply yields_attempt; [apply yields_any|]. intros [] _.
  eapply yields_attempt; [apply yields_config|]. intros [] Hfence.
  eapply yields_attempt; [apply yields_config|]. intros [] Hopt.
  eapply yields_attempt; [apply yields_config|]. intros [] Htags.
  eapply yields_attempt; [apply yields_any|]. intros [] _.
  eapply yields_attempt; [apply yields_any|]. intros [] _.
  eapply yields_attempt; [apply yields_mapped|]. intros ttl Httl.
  eapply yields_attempt; [apply yields_reconciliation|]. intros [] Hrec.
  eapply yields_attempt; [apply yields_mapped|]. intros sc Hscope.
  eapply yields_attempt; [apply yields_config|]. intros m Hm.
  eapply yields_attempt; [apply yields_config|]. intros p Hp.
  eapply yields_attempt; [apply yields_config|]. intros l Hl.
  eapply yields_attempt; [apply yields_config|]. intros s Hs.
  by apply planned_is_coherent.
Qed.

(** *** The services *)
Definition is_service (c : BCall V) : bool :=
  match c with B_SetExecutor | B_SpawnRecovery | B_StartListener | B_Attach _ | B_Advise _ => true | _ => false end.
Definition services (b : CacheBuilder) (r : Built) : list (BCall V) :=
  (if is_some (built_recovery r) then [B_SetExecutor; B_SpawnRecovery] else [])
  ++ [B_StartListener] ++ (B_Attach <$> b_plugins b)
  ++ (B_Advise <$> advise_configuration b (built_name r) (built_memory r) (markers (built_markers r))).
(** Whether a service refused. *)
Definition refused (ev : event (banswer (V := V))) : bool :=
  match ev with
  | Ev B_SetExecutor r | Ev B_SpawnRecovery r => match r with Ok _ => false | Err _ => true end
  | Ev B_StartListener r | Ev (B_Attach _) r => match r with Ok _ => false | Err _ => true end
  | _ => false
  end.

Lemma quiet_wp keep {A} (p : prog (banswer (V := V)) A) h :
  only (λ c, keep c = false) p → wp (any keep) p h (λ _ h', h' = h).
Proof.
  intros H. apply (wp_invariant (any keep) (λ c, keep c = false) (λ h' : env_state (any keep), h' = h)); [done..|].
  intros h' c x ? Hc -> ->. unfold record. by rewrite Hc.
Qed.
Lemma yields_keep keep {A} (p : prog (banswer (V := V)) (result CacheError A)) P h :
  yields p P → wp (any keep) p h (λ r _, match r with Ok a => P a | Err _ => True end).
Proof.
  intros H. apply (wp_simulates (any keep) (any (λ _, true)) (λ _ _, True) _ _ []); [|done|].
  - intros ? t c x ? _ _. by exists (record (λ _, true) c x t).
  - eapply wp_mono; [apply H|]. auto.
Qed.

Local Abbreviation silent := (only (λ c, is_service c = false)).
Lemma silent_values {A} (p : prog (sanswer (V := V)) A) : silent (on_values p).
Proof. induction p; simpl; auto. Qed.
Lemma silent_markers {A} (p : prog (sanswer (V := MarkerObservation)) A) : silent (on_markers (V := V) p).
Proof. induction p; simpl; auto. Qed.
Ltac silent := repeat first
  [ done
  | apply silent_values | apply silent_markers
  | apply only_attempt; [|intros ?] | apply only_bind; [|intros ?]
  | progress (simpl; repeat split; intros) | case_match ].
Lemma silent_assemble b : silent (assemble primitive (V := V) b).
Proof.
  unfold assemble, plan, config, runtime_for, validate_reconciliation, deadline, build_recovery, build_marker_reads, build_memory.
  silent.
Qed.

(** The record of [start]: the services in order, cut at the first refusal. *)
Definition started (l : list (BCall V)) (r : result CacheError unit) (h : list (event (banswer (V := V)))) : Prop :=
  match r with
  | Ok _ => ev_call <$> rev h = l
  | Err _ => ∃ ev h', h = ev :: h' ∧ refused ev = true ∧ (ev_call <$> rev h) `prefix_of` l
  end.
Definition starts (p : prog (banswer (V := V)) (result CacheError unit)) (l : list (BCall V)) : Prop :=
  ∀ h, wp (any is_service) p h (λ r h', ∃ k, h' = k ++ h ∧ started l r k).

Lemma starts_then p f l l' : starts p l → starts (f tt) l' → starts (attempt p f) (l ++ l').
Proof.
  intros Hp Hf h. apply wp_attempt. eapply wp_mono; [apply Hp|].
  intros [[]|e] h' (k & -> & Hk); simpl in Hk.
  - eapply wp_mono; [apply Hf|]. intros r h' (k' & -> & Hk'). exists (k' ++ k). split; [by rewrite app_assoc|].
    destruct r as [[]|e]; simpl in *; [by rewrite rev_app_distr, fmap_app, Hk, Hk'|].
    destruct Hk' as (ev & t & -> & Hr & Hpre). exists ev, (t ++ k). split_and!; [done..|].
    change (ev :: t ++ k) with ((ev :: t) ++ k). rewrite rev_app_distr, fmap_app, Hk. by apply prefix_app.
  - destruct Hk as (ev & t & -> & Hr & Hpre). eexists. split; [done|]. exists ev, t. split_and!; [done..|].
    by apply prefix_app_r.
Qed.
Lemma starts_one c (f : banswer c → result CacheError unit) :
  is_service c = true → (∀ x, refused (Ev c x) = match f x with Ok _ => false | Err _ => true end) →
  starts (bind (call c) (λ x, Ret (f x))) [c].
Proof.
  intros Hc Hf h. cbn [bind call wp]. intros x h' ->. unfold record. rewrite Hc. exists [Ev c x]. split; [done|].
  specialize (Hf x). destruct (f x) as [[]|e]; simpl; [done|]. exists (Ev c x), []. split_and!; [done..|].
  apply prefix_nil_l || reflexivity.
Qed.
Lemma starts_attach l : starts (attach_all l) (B_Attach <$> l).
Proof.
  induction l as [|plugin l IH]; simpl; [intros h; by exists []|].
  apply (starts_then (call (B_Attach plugin)) (λ _, attach_all l) [B_Attach plugin]); [|done].
  apply (starts_one (B_Attach plugin) (λ x, x)); [done|]. by intros [].
Qed.
Lemma starts_advice l : starts (emit_all (V := V) l ;;; ok tt) (B_Advise <$> l).
Proof.
  induction l as [|advice l IH]; simpl; [intros h; by exists []|].
  intros h [] h' ->. unfold record; simpl. eapply wp_mono; [apply IH|]. intros r h' (k & -> & Hk).
  exists (k ++ [Ev (B_Advise advice) tt]). split; [by rewrite <- app_assoc|].
  destruct r as [[]|e]; simpl in *; [by rewrite rev_app_distr, fmap_app, Hk|].
  destruct Hk as (ev & t & -> & Hr & Hpre). eexists ev, (t ++ _). split_and!; [done..|].
  change (ev :: t ++ [Ev (B_Advise advice) tt]) with ((ev :: t) ++ [Ev (B_Advise advice) tt]).
  rewrite rev_app_distr, fmap_app. by apply prefix_cons.
Qed.
Lemma starts_recovery :
  starts (let* set := call B_SetExecutor in let? _ := Ret (map_err CE_Recovery set) in
          let* spawned := call B_SpawnRecovery in Ret (map_err CE_Recovery spawned))
    [B_SetExecutor; B_SpawnRecovery].
Proof.
  apply (starts_then (bind (call B_SetExecutor) (λ x, Ret (map_err CE_Recovery x)))
    (λ _, bind (call B_SpawnRecovery) (λ x, Ret (map_err CE_Recovery x))) [B_SetExecutor] [B_SpawnRecovery]).
  all: apply starts_one; [done|]; by intros [[]|].
Qed.
Lemma starts_services b r : starts (start b r) (services b r).
Proof.
  unfold start, services.
  apply (starts_then _ _ (if is_some (built_recovery r) then [B_SetExecutor; B_SpawnRecovery] else [])).
  { destruct (is_some _); [apply starts_recovery|intros h; by exists []]. }
  apply (starts_then (call B_StartListener) (λ _, _) [B_StartListener]).
  { apply (starts_one B_StartListener (λ x, x)); [done|]. by intros [[]|]. }
  apply (starts_then (attach_all (b_plugins b)) (λ _, _) (B_Attach <$> b_plugins b)); [apply starts_attach|apply starts_advice].
Qed.

(** C22: Whatever the providers, the runtime and the plugins answer, a cache
    that is built is coherent: each fast path ([CallbackFree] reads, inline
    writes, immediate distributed reads, markers read with the value, single
    flights) is only selected where the layers it skips do not exist, local time
    is only kept where no timestamp leaves the process, the fencing, serializer,
    marker, cloner and recovery providers every other choice relies on are
    there, and the durations are usable. *)
Theorem built_caches_are_coherent b h :
  wp (any (ans := banswer (V := V)) (λ _, true)) (try_build primitive b) h
    (λ r _, match r with Ok built => coherent b built | Err _ => True end).
Proof.
  apply (yields_attempt _ _ (coherent b) (coherent b)); [apply assembled_is_coherent|].
  intros r Hr. apply (yields_attempt _ _ (λ _, True)); [apply yields_any|]. intros _ _. by apply yields_ret; intros ? [= <-].
Qed.

(** The services of a cache start only once its configuration is accepted
    as a whole, in a fixed order: the recovery queue with its executor first,
    then the listener, each plugin in the order given, and the advice last, each
    once. A rejected configuration starts none of them; a service that refuses
    ends the construction at once, so that nothing after it starts. *)
Theorem services_start_in_order b :
  wp (any is_service) (try_build primitive b) []
    (λ r h, match r with
            | Ok built => coherent b built ∧ ev_call <$> rev h = services b built
            | Err _ => h = [] ∨ ∃ built ev h', coherent b built ∧ h = ev :: h' ∧ refused ev = true
                                               ∧ (ev_call <$> rev h) `prefix_of` services b built
            end).
Proof.
  apply wp_attempt. eapply wp_mono.
  { eapply wp_conj; [apply (yields_keep is_service), assembled_is_coherent|apply quiet_wp, silent_assemble]. }
  intros [r|e] h [Hr ->]; [|by left]. apply wp_attempt. eapply wp_mono; [apply starts_services|].
  intros [[]|e] h (k & -> & Hk); rewrite app_nil_r; [done|]. right. destruct Hk as (ev & h' & ? & ? & ?). by exists r, ev, h'.
Qed.
End theorems.

(** *** Constructions *)
Definition obliging : handler (ans := banswer (V := nat)) (list (BCall nat)) := λ s c,
  (match c return banswer c with
   | B_InstanceId => "amalgam-0000000000000001"%string | B_Runtime | B_Deadline _ => true | B_Alloc => 7%positive
   | B_Values c => (SuppliedTheorems.one_record 3 c).1
   | B_Markers c =>
       match c return sanswer c with
       | S_Load _ | S_FetchUpdate _ | S_Now | S_Instant => 0 | S_Epoch _ | S_Alloc => 7%positive
       | S_Stamps => λ _, 0 | S_CaptureAdmission => Armed
       | S_Get _ | S_TryGet _ | S_Remove _ _ | S_Insert _ _ _ | S_ClearBefore _ | S_Maintain _ | S_Usage => Err SE_Provider
       | _ => tt
       end
   | B_SetExecutor | B_SpawnRecovery | B_StartListener | B_PluginHost | B_Attach _ => Ok tt
   | B_Advise _ => tt
   end, c :: s).
(** What the choices of a construction came to. *)
Definition summary (r : result CacheError Built) :=
  match r with
  | Ok r => Ok (built_ready_plan r, write_plan (built_inner r), distributed_read_plan (built_inner r), built_flights r,
                built_clock r, markers (built_markers r), marker_prefetch (built_inner r))
  | Err e => Err e
  end.
Definition built (b : CacheBuilder) := Calls.run obliging (try_build true b) [].
Definition redis : DistributedProvider := mkDistributed true true (Some (mkStoreProvider true false)).

Example memory_only_run :
  summary (built CacheBuilder.new).1 =
    Ok (CallbackFree, InlineMemory, PlanOwned, true, LocalTime, AC_Local, Separate)
  ∧ (built CacheBuilder.new).2 = [B_StartListener; B_Alloc; B_PluginHost; B_InstanceId].
Proof. vm_compute. done. Qed.
Example hybrid_run :
  let b := CacheBuilder.plugin 1%nat (CacheBuilder.name "orders"
             (CacheBuilder.serializer false (CacheBuilder.distributed redis CacheBuilder.new))) in
  summary (built b).1 = Ok (ReadyGeneral, GeneralWrite, PlanImmediate, false, SystemTime, AC_Durable, WithValue)
  ∧ (built b).2 = [B_Advise SharedNameWithoutPrefix; B_Attach 1%nat; B_StartListener; B_SpawnRecovery; B_SetExecutor;
                   B_Alloc; B_PluginHost; B_Deadline (from_secs 5); B_Runtime; B_InstanceId].
Proof. vm_compute. done. Qed.
Example fenced_run :
  (built (CacheBuilder.strict (CacheBuilder.distributed_locker (mkLocker OpaqueLegacy true) CacheBuilder.new))).1
    = Err (CE_Config FencedLockerWithoutOwnedLifetime).
Proof. vm_compute. done. Qed.
Example supplied_limits_run :
  (built (CacheBuilder.max_capacity 10 (CacheBuilder.memory_storage CacheBuilder.new))).1
    = Err (CE_Config SuppliedMemoryWithBuiltinLimits).
Proof. vm_compute. done. Qed.
End BuilderTheorems.
