(* ===== verification/Lifecycle.v ===== *)
(** * Supervised tasks and shutdown

    Models [src/src/lifecycle.rs] ([Tasks], its supervisors, [flush], [drain])
    and [CacheInner::close] and [shutdown] of [src/src/cache/runtime.rs] as
    interleaved threads.

    A step is one access of something shared, or one await that is over. The
    scopes, the plugins, the recovery queue and the local locks are here what
    they answer ([Activity.v], [Execution.v] and [Recovery.v] are about the
    first and the third). A future that is dropped at an await stops there: the
    locks it holds are released, and the handle it was awaiting is gone. Tasks
    are created by admitted operations, by tasks, by plugins until their
    teardown ended, and by the recovery worker until it was joined. *)
From S2P Require Import Prelude Calls Options Cancellation Recovery Worker Health.

(** ** Data *)
Inductive ShutdownTask :=
| TaskFactory | TaskDistributed | TaskBackplane | TaskRecovery | TaskMaintenance | TaskLeaseRelease
| TaskMemoryLockerAcquisition | TaskMemoryLocker.
Module ShutdownTask.
Definition as_str (self : ShutdownTask) : string :=
  match self with
  | TaskFactory => "factory"
  | TaskDistributed => "distributed"
  | TaskBackplane => "backplane"
  | TaskRecovery => "recovery"
  | TaskMaintenance => "maintenance"
  | TaskLeaseRelease => "lease_release"
  | TaskMemoryLockerAcquisition => "memory_locker_acquisition"
  | TaskMemoryLocker => "memory_locker"
  end.
End ShutdownTask.

(** The source of a [BackgroundTask] is the join error of task [source]. *)
Inductive ShutdownFailure :=
| SF_Plugin (error : nat) | SF_BackgroundTask (task : ShutdownTask) (source : nat) | SF_Work (error : CacheError).
(** [ShutdownError]: the nonempty list of failures. *)
Inductive Lifecycle := Running | Closing | Closed (report : result (list ShutdownFailure) unit).
Inductive TaskResult := Completed (r : result CacheError unit) | TaskPanicked.
Inductive TaskEvent := BackgroundFactoryError (task : nat) | BackgroundCommitError (task : nat).

(** [Settled]: the worker returned, the supervisor has the result; [Reported]:
    it has reported and sent it, so [finished] is set; [Joined lost]: the
    supervisor itself is over, [lost] when it did not return. *)
Inductive Phase := Working | Settled (r : TaskResult) | Reported | Joined (lost : bool).
(** [cleanup]: created by [cleanup_task]. *)
Record TrackedTask := mkTask { task : ShutdownTask; cleanup : bool; phase : Phase; sent : option TaskResult }.
#[export] Instance eta_TrackedTask : Eta TrackedTask := λ t, mkTask (task t) (cleanup t) (phase t) (sent t).

Definition is_joined (t : TrackedTask) : bool := match phase t with Joined _ => true | _ => false end.
(** [*finished.borrow()], or the sender is gone. *)
Definition is_finished (t : TrackedTask) : bool := match phase t with Reported | Joined _ => true | _ => false end.
(** The kinds [flush] waits for. *)
Definition is_flushed (kind : ShutdownTask) : bool :=
  match kind with
  | TaskFactory | TaskDistributed | TaskLeaseRelease | TaskMemoryLockerAcquisition => true
  | TaskBackplane | TaskRecovery | TaskMaintenance | TaskMemoryLocker => false
  end.
(** Errors a supervisor does not report. *)
Definition is_shutdown_error (e : CacheError) : bool :=
  match e with CE_OperationCancelled CacheShutdown | CE_CacheClosed => true | _ => false end.

(** ** [wait_blocking] *)
Section blocking.
Inductive BlockingCall := W_LaunchOrCancel | W_ResultOrCancel | W_Abort | W_Join.
(** What a [select] won with; [JoinError]s tell cancelled from panicked. *)
Definition blocking_answer (c : BlockingCall) : Type :=
  match c with
  | W_LaunchOrCancel => CancellationReason + result CacheError unit
  | W_ResultOrCancel => result bool (result CacheError unit) + CancellationReason
  | W_Abort => unit
  | W_Join => result bool (result CacheError unit)
  end.
(** [Err cancelled]: the worker did not return. *)
Definition wait_blocking : prog blocking_answer (result bool (result CacheError unit)) :=
  bind (call (ans := blocking_answer) W_LaunchOrCancel) (λ launched,
    match launched with
    | inl reason => Ret (Ok (Err (CE_OperationCancelled reason)))
    | inr (Err error) => Ret (Ok (Err error))
    | inr (Ok _) =>
        bind (call (ans := blocking_answer) W_ResultOrCancel) (λ first,
          match first with
          | inl result => Ret result
          | inr reason =>
              bind (call (ans := blocking_answer) W_Abort) (λ _,
                bind (call (ans := blocking_answer) W_Join) (λ joined,
                  Ret match joined with
                      | Err true => Ok (Err (CE_OperationCancelled reason))
                      | joined => joined
                      end))
          end)
    end).
End blocking.

(** ** Threads *)
Module Lifecycle.
(** Which of the two drains of a shutdown. *)
Inductive Stage := First | Last.
Inductive Pc :=
(* [close]; [C_Stop_]: of the recovery queue, then of the plugins *)
| C_Begin | C_Scopes (outcome : CloseOutcome) | C_StopRecovery | C_StopPlugins | C_Closed (outcome : CloseOutcome)
(* [shutdown] *)
| P_Gate | P_Lookup | P_Drained | P_Plugins
| P_Join (stage : Stage) | P_Pop (stage : Stage) | P_Await (stage : Stage) (id : nat) | P_Leave (stage : Stage)
| P_Take (stage : Stage) | P_Recovery | P_Locks | P_Publish
| P_Unlock (report : result (list ShutdownFailure) unit) | P_Done (report : result (list ShutdownFailure) unit)
(* [flush]; [count]: the tasks there were when it was called *)
| F_Collect (count : nat) | F_Wait (count : nat) (pending : list nat) | F_Done (count : nat)
| Dropped.

(** [plugin_failures] and [failures] of [shutdown]. *)
Record Thread := mkThread { pc : Pc; in_shutdown : bool; plugin_failures : list nat; failures : list ShutdownFailure }.
#[export] Instance eta_Thread : Eta Thread := λ t, mkThread (pc t) (in_shutdown t) (plugin_failures t) (failures t).

(** The fields from [teardowns] on only record what happened: how often the
    plugins were stopped by [close] and which thread does it, what tasks reported as
    failures, what the recovery queue and the plugins answered to the shutdown
    under way, the handles a drain took, and whether a future was dropped, at all
    and with a handle. *)
Record World := mkWorld {
  lifecycle : Lifecycle; gate : option nat; join : option nat; scopes_closed : bool; active : nat;
  tasks : list TrackedTask; handles : list nat; reported : list ShutdownFailure; events : list TaskEvent;
  plugins_over : bool; recovery_over : bool; threads : list Thread;
  teardowns : nat; closer : option nat; pushed : list ShutdownFailure; answers : list ShutdownFailure * list nat;
  taken : list nat; abandoned : bool; detached : bool }.
#[export] Instance eta_World : Eta World := λ w,
  mkWorld (lifecycle w) (gate w) (join w) (scopes_closed w) (active w) (tasks w) (handles w) (reported w) (events w)
    (plugins_over w) (recovery_over w) (threads w) (teardowns w) (closer w) (pushed w) (answers w) (taken w)
    (abandoned w) (detached w).
Definition initial : World :=
  mkWorld Running None None false 0 [] [] [] [] false false [] 0 None [] ([], []) [] false false.

(** What creates a task. *)
Inductive Creator := ByOperation | ByTask (id : nat) | ByPlugin | ByRecovery.
(** What the plugins, the recovery queue and the local locks answer; [A_Locker]:
    there was no locker to shut down, or its cleanup was or was not accepted. *)
Inductive Answer := A_None | A_Plugins (errors : list nat) | A_Recovery (r : result RecoveryError unit) | A_Locker (accepted : option bool).
Inductive Label :=
| Call_ (shutdown : bool) | Flush_ | Run (i : nat) (a : Answer)
| Drop_ (i : nat) | Enter | Leave
| Spawn (by_ : Creator) (kind : ShutdownTask) (cleanup : bool) | Refuse (by_ : Creator)
| Settle (id : nat) (r : TaskResult) | Report (id : nat) | Join_ (id : nat) | Lose (id : nat).

(** *** The tasks *)
Definition finished_at (w : World) (id : nat) : bool := from_option is_finished false (tasks w !! id).
Definition joined_at (w : World) (id : nat) : bool := from_option is_joined false (tasks w !! id).
(** [supervise] takes at most four handles from the front and puts the unfinished
    ones back. *)
Fixpoint prune (joined : nat → bool) (count : nat) (l : list nat) : list nat :=
  match count, l with
  | S count, id :: l => prune joined count (if joined id then l else l ++ [id])
  | _, _ => l
  end.
Definition supervise (w : World) (kind : ShutdownTask) (cleanup : bool) : World :=
  let id := length (tasks w) in
  w <| tasks := tasks w ++ [mkTask kind cleanup Working None] |>
    <| handles := prune (joined_at w) (Nat.min (length (handles w)) 4) (handles w) ++ [id] |>.
Definition push (f : ShutdownFailure) (w : World) : World :=
  w <| reported := reported w ++ [f] |> <| pushed := pushed w ++ [f] |>.
(** [cleanup_task] without an executor. *)
Definition no_runtime : ShutdownFailure := SF_Work (CE_Config (Options.MissingRuntime RC_Execution)).
Definition emit (kind : ShutdownTask) (id : nat) (w : World) : World :=
  w <| events := events w ++ [match kind with TaskFactory => BackgroundFactoryError id | _ => BackgroundCommitError id end] |>.
Definition set_task (id : nat) (t : TrackedTask) (w : World) : World := w <| tasks := <[id := t]> (tasks w) |>.

(** The work of [cleanup_task] reports its own error. *)
Definition settle (id : nat) (t : TrackedTask) (r : TaskResult) (w : World) : World :=
  match cleanup t, r with
  | true, Completed (Err e) =>
      set_task id (t <| phase := Settled (Completed (Ok tt)) |>)
        (push (SF_Work e) (w <| events := events w ++ [BackgroundCommitError id] |>))
  | _, _ => set_task id (t <| phase := Settled r |>) w
  end.
Definition report (id : nat) (t : TrackedTask) (r : TaskResult) (w : World) : World :=
  set_task id (t <| phase := Reported |> <| sent := Some r |>)
    match r with
    | Completed (Ok _) => w
    | Completed (Err e) => if is_shutdown_error e then w else emit (task t) id w
    | TaskPanicked => push (SF_BackgroundTask (task t) id) (emit (task t) id w)
    end.
Definition task_step (w : World) (l : Label) : option World :=
  match l with
  | Settle id r => t ← tasks w !! id; match phase t with Working => Some (settle id t r w) | _ => None end
  | Report id => t ← tasks w !! id; match phase t with Settled r => Some (report id t r w) | _ => None end
  | Join_ id => t ← tasks w !! id;
      match phase t with Reported => Some (set_task id (t <| phase := Joined false |>) w) | _ => None end
  | Lose id => t ← tasks w !! id;
      if is_joined t then None else Some (set_task id (t <| phase := Joined true |>) w)
  | _ => None
  end.

(** *** Whether something may create a task *)
Definition may_create (w : World) (by_ : Creator) : bool :=
  match by_ with
  | ByOperation => negb (active w =? 0)%nat
  | ByTask id => match tasks w !! id with Some t => match phase t with Working => true | _ => false end | None => false end
  | ByPlugin => negb (plugins_over w)
  | ByRecovery => negb (recovery_over w) || detached w
  end.

(** *** A thread *)
Definition pending (w : World) : list nat :=
  filter (λ id, match tasks w !! id with
                | Some t => is_flushed (task t) && negb (is_finished t)
                | None => false
                end = true) (handles w).
Definition close_next (outcome : CloseOutcome) (t : Thread) : Pc := if in_shutdown t then P_Drained else C_Closed outcome.
Definition report_of (l : list ShutdownFailure) : result (list ShutdownFailure) unit :=
  match l with [] => Ok tt | _ => Err l end.

Definition begin_close (l : Lifecycle) : CloseOutcome * Lifecycle :=
  match l with
  | Running => (Started, Closing)
  | Closing => (AlreadyClosing, Closing)
  | Closed r => (AlreadyClosed, Closed r)
  end.
Definition recovery_failures (r : result RecoveryError unit) : list ShutdownFailure :=
  match r with Ok _ => [] | Err e => [SF_Work (CE_Recovery e)] end.

(** The steps of thread [i]; [None] while it waits.

    [close] *)
Definition close_step (w : World) (i : nat) (t : Thread) : option (Thread * World) :=
  match pc t with
  | C_Begin =>
      let '(outcome, l) := begin_close (lifecycle w) in
      Some (t <| pc := C_Scopes outcome |>,
            w <| lifecycle := l |> <| closer := match outcome with Started => Some i | _ => closer w end |>)
  | C_Scopes outcome =>
      Some (t <| pc := match outcome with Started => C_StopRecovery | _ => close_next outcome t end |>,
            w <| scopes_closed := true |>)
  | C_StopRecovery => Some (t <| pc := C_StopPlugins |>, w)
  | C_StopPlugins => Some (t <| pc := close_next Started t |>, w <| teardowns := S (teardowns w) |>)
  | _ => None
  end.
(** [drain], between [P_Join] and [P_Take] *)
Definition drain_step (w : World) (i : nat) (t : Thread) : option (Thread * World) :=
  match pc t with
  | P_Join stage =>
      match join w with None => Some (t <| pc := P_Pop stage |>, w <| join := Some i |>) | Some _ => None end
  | P_Pop stage =>
      match handles w with
      | [] => Some (t <| pc := P_Leave stage |>, w)
      | id :: l => Some (t <| pc := P_Await stage id |>, w <| handles := l |> <| taken := taken w ++ [id] |>)
      end
  | P_Await stage id =>
      awaited ← tasks w !! id;
      match phase awaited with
      | Joined lost =>
          Some (t <| pc := P_Pop stage |>, if lost then push (SF_BackgroundTask (task awaited) id) w else w)
      | _ => None
      end
  | P_Leave stage => Some (t <| pc := P_Take stage |>, w <| join := None |>)
  | _ => None
  end.
(** [shutdown] *)
Definition shutdown_step (w : World) (i : nat) (t : Thread) (a : Answer) : option (Thread * World) :=
  match pc t, a with
  | P_Gate, A_None => match gate w with None => Some (t <| pc := P_Lookup |>, w <| gate := Some i |>) | Some _ => None end
  | P_Lookup, A_None =>
      Some (t <| pc := match lifecycle w with Closed r => P_Unlock r | _ => C_Begin end |>, w)
  | P_Drained, A_None => if scopes_closed w && (active w =? 0)%nat then Some (t <| pc := P_Plugins |>, w) else None
  | P_Plugins, A_Plugins errors =>
      Some (t <| pc := P_Join First |> <| plugin_failures := errors |>,
            w <| plugins_over := true |> <| answers := ([], errors) |>)
  | P_Take stage, A_None =>
      Some (t <| pc := match stage with First => P_Recovery | Last => P_Publish end |>
              <| failures := failures t ++ reported w |>, w <| reported := [] |>)
  | P_Recovery, A_Recovery r =>
      Some (t <| pc := P_Locks |> <| failures := failures t ++ recovery_failures r |>,
            w <| recovery_over := true |> <| answers := (recovery_failures r, (answers w).2) |>)
  | P_Locks, A_Locker accepted =>
      Some (t <| pc := P_Join Last |>,
            match accepted with
            | None => w
            | Some true => supervise w TaskMemoryLocker true
            | Some false => push no_runtime w
            end)
  | P_Publish, A_None =>
      let r := report_of (failures t ++ (SF_Plugin <$> plugin_failures t)) in
      Some (t <| pc := P_Unlock r |>, w <| lifecycle := Closed r |>)
  | P_Unlock r, A_None => Some (t <| pc := P_Done r |>, w <| gate := None |>)
  | _, _ => None
  end.
(** [flush] *)
Definition flush_step (w : World) (t : Thread) : option (Thread * World) :=
  match pc t with
  | F_Collect count => Some (t <| pc := match pending w with [] => F_Done count | l => F_Wait count l end |>, w)
  | F_Wait count l =>
      match l with
      | [] => Some (t <| pc := F_Collect count |>, w)
      | id :: l => if finished_at w id then Some (t <| pc := F_Wait count l |>, w) else None
      end
  | _ => None
  end.
Definition run_step (w : World) (i : nat) (t : Thread) (a : Answer) : option (Thread * World) :=
  match pc t, a with
  | (C_Begin | C_Scopes _ | C_StopRecovery | C_StopPlugins), A_None => close_step w i t
  | (P_Join _ | P_Pop _ | P_Await _ _ | P_Leave _), A_None => drain_step w i t
  | (F_Collect _ | F_Wait _ _), A_None => flush_step w t
  | (P_Gate | P_Lookup | P_Drained | P_Plugins | P_Take _ | P_Recovery | P_Locks | P_Publish | P_Unlock _), a =>
      shutdown_step w i t a
  | _, _ => None
  end.

(** A future dropped at an await. *)
Definition drop_step (w : World) (t : Thread) : option World :=
  match pc t with
  | P_Gate | F_Wait _ _ => Some w
  | P_Drained | P_Plugins | P_Join _ => Some (w <| gate := None |> <| abandoned := true |>)
  | P_Await _ _ => Some (w <| gate := None |> <| join := None |> <| abandoned := true |> <| detached := true |>)
  | P_Recovery => Some (w <| gate := None |> <| abandoned := true |> <| detached := true |>)
  | _ => None
  end.

Definition set_thread (i : nat) (t : Thread) (w : World) : World := w <| threads := <[i := t]> (threads w) |>.
Definition step (w : World) (l : Label) : option World :=
  match l with
  | Call_ shutdown =>
      Some (w <| threads := threads w ++ [mkThread (if shutdown then P_Gate else C_Begin) shutdown [] []] |>)
  | Flush_ => Some (w <| threads := threads w ++ [mkThread (F_Collect (length (tasks w))) false [] []] |>)
  | Run i a =>
      t ← threads w !! i; '(t, w) ← run_step w i t a; Some (set_thread i t w)
  | Drop_ i =>
      t ← threads w !! i; w ← drop_step w t; Some (set_thread i (t <| pc := Dropped |>) w)
  | Enter => if scopes_closed w then None else Some (w <| active := S (active w) |>)
  | Leave => match active w with S n => Some (w <| active := n |>) | O => None end
  | Spawn by_ kind cleanup => if may_create w by_ then Some (supervise w kind cleanup) else None
  | Refuse by_ => if may_create w by_ then Some (push no_runtime w) else None
  | Settle _ _ | Report _ | Join_ _ | Lose _ => task_step w l
  end.
Fixpoint execute (w : World) (l : list Label) : option World :=
  match l with [] => Some w | x :: l => w ← step w x; execute w l end.
End Lifecycle.

(** ** Invariants *)
Module LifecycleInv.
Import Lifecycle.

(** The threads between their acquisition and their release of the gate. *)
Definition gate_held (t : Thread) : bool :=
  match pc t with
  | C_Begin | C_Scopes _ | C_StopRecovery | C_StopPlugins => in_shutdown t
  | P_Lookup | P_Drained | P_Plugins | P_Join _ | P_Pop _ | P_Await _ _ | P_Leave _ | P_Take _ | P_Recovery | P_Locks
  | P_Publish | P_Unlock _ => true
  | _ => false
  end.

Definition idle (w : World) : Prop := scopes_closed w = true ∧ active w = 0%nat.
Definition all_joined (w : World) : Prop := ∀ id t, tasks w !! id = Some t → is_joined t = true.
(** Nothing the cache owns runs any more. *)
Definition quiet (w : World) : Prop :=
  idle w ∧ plugins_over w = true ∧ recovery_over w = true ∧ (detached w = false → all_joined w).
Definition open (w : World) : Prop := ∀ r, lifecycle w ≠ Closed r.

Definition reached (w : World) (t : Thread) : Prop :=
  match pc t with
  | C_Scopes _ => lifecycle w ≠ Running
  | C_StopRecovery | C_StopPlugins => lifecycle w ≠ Running ∧ scopes_closed w = true
  | P_Drained => lifecycle w ≠ Running ∧ scopes_closed w = true
  | P_Plugins => lifecycle w ≠ Running ∧ idle w
  | P_Join First | P_Pop First | P_Await First _ | P_Leave First | P_Take First | P_Recovery =>
      lifecycle w ≠ Running ∧ idle w ∧ plugins_over w = true
  | P_Locks | P_Join Last | P_Pop Last | P_Await Last _ =>
      lifecycle w ≠ Running ∧ idle w ∧ plugins_over w = true ∧ recovery_over w = true
  | P_Leave Last | P_Take Last | P_Publish => lifecycle w ≠ Running ∧ quiet w
  | P_Unlock r | P_Done r => lifecycle w = Closed r
  | _ => True
  end.
Definition working (t : Thread) : Prop :=
  gate_held t = true ∧ pc t ≠ P_Lookup ∧ ∀ r, pc t ≠ P_Unlock r.

Record inv (w : World) : Prop := mkInv {
  i_gate : ∀ i t, threads w !! i = Some t → gate_held t = true → gate w = Some i;
  i_open : ∀ i t, threads w !! i = Some t → working t → open w;
  i_reached : ∀ i t, threads w !! i = Some t → reached w t;
  i_closed : ∀ r, lifecycle w = Closed r → quiet w;
  i_tracked : ∀ id t, tasks w !! id = Some t → is_joined t = false → id ∈ handles w ∨ id ∈ taken w;
  i_taken : ∀ id, id ∈ taken w → joined_at w id = false → detached w = true ∨
              ∃ i t stage, threads w !! i = Some t ∧ pc t = P_Await stage id }.

(** How the world only ever changes. *)
Record advances (w w' : World) : Prop := mkAdvances {
  a_running : lifecycle w ≠ Running → lifecycle w' ≠ Running;
  a_closed : ∀ r, lifecycle w = Closed r → lifecycle w' = Closed r;
  a_scopes : scopes_closed w = true → scopes_closed w' = true;
  a_idle : idle w → idle w';
  a_plugins : plugins_over w = true → plugins_over w' = true;
  a_recovery : recovery_over w = true → recovery_over w' = true }.
Definition at_rest (t : Thread) : bool := match pc t with P_Leave Last | P_Take Last | P_Publish => true | _ => false end.

Lemma reached_advances w w' t :
  advances w w' → (at_rest t = true → quiet w → quiet w') → reached w t → reached w' t.
Proof.
  intros [] Hq. unfold reached, at_rest in *.
  repeat case_match; rewrite <- ?and_assoc; intros; destruct_and?; split_and?; auto.
Qed.
(** The locker of the local locks may be shut down in an otherwise quiet world. *)
Definition unsettled (w : World) : Prop := ∃ i t, threads w !! i = Some t ∧ pc t = P_Locks.
Lemma unsettled_open w : inv w → unsettled w → open w ∧ ∀ j t, threads w !! j = Some t → at_rest t = true → False.
Proof.
  intros Hi (i & t & Ht & Hp). assert (gate w = Some i) as Hg by (eapply i_gate; [done..|]; unfold gate_held; by rewrite Hp).
  split.
  - eapply i_open; [done..|]. split_and!; [unfold gate_held; by rewrite Hp|congruence|intros ?; congruence].
  - intros j u Hu Hr. assert (gate w = Some j) as Hg'.
    { eapply i_gate; [done..|]. unfold gate_held, at_rest in *. by destruct (pc u). }
    rewrite Hg in Hg'. injection Hg' as <-. rewrite Ht in Hu. injection Hu as <-. unfold at_rest in Hr. by rewrite Hp in Hr.
Qed.

Lemma supervise_keeps joined n l id : id ∈ l → joined id = false → id ∈ prune joined n l.
Proof.
  intros Hid Hj. induction n as [|n IH] in l, Hid |- *; simpl; [done|]. destruct l as [|x l]; [done|]. apply IH.
  apply elem_of_cons in Hid as [->|Hid]; [rewrite Hj; set_solver|]. destruct (joined x); set_solver.
Qed.

(** *** The tasks *)
Lemma joined_at_some w id t : tasks w !! id = Some t → joined_at w id = is_joined t.
Proof. intros H. unfold joined_at. by rewrite H. Qed.

(** What a step of a task or of its creation leaves alone. *)
Record same_frame (w w' : World) : Prop := mkSame {
  s_lifecycle : lifecycle w' = lifecycle w; s_gate : gate w' = gate w; s_scopes : scopes_closed w' = scopes_closed w;
  s_active : active w' = active w; s_plugins : plugins_over w' = plugins_over w;
  s_recovery : recovery_over w' = recovery_over w; s_threads : threads w' = threads w; s_taken : taken w' = taken w;
  s_detached : detached w' = detached w; s_abandoned : abandoned w' = abandoned w; s_answers : answers w' = answers w;
  s_teardowns : teardowns w' = teardowns w; s_closer : closer w' = closer w }.
Lemma same_refl w : same_frame w w.
Proof. by constructor. Qed.
Lemma same_trans w1 w2 w3 : same_frame w1 w2 → same_frame w2 w3 → same_frame w1 w3.
Proof. intros [] []. constructor; congruence. Qed.

Lemma push_same f w : same_frame w (push f w).
Proof. by constructor. Qed.
Lemma supervise_same w kind c : same_frame w (supervise w kind c).
Proof. by constructor. Qed.
Lemma settle_same id t r w : same_frame w (settle id t r w).
Proof. unfold settle. repeat case_match; by constructor. Qed.
Lemma report_same id t r w : same_frame w (report id t r w).
Proof. unfold report. repeat case_match; by constructor. Qed.
Lemma task_step_same w l w' : task_step w l = Some w' → same_frame w w'.
Proof.
  destruct l; simpl; try done; intros (t & Ht & H)%bind_Some; repeat case_match; simplify_eq;
    auto using settle_same, report_same; by constructor.
Qed.

Lemma task_step_tasks w l w' : task_step w l = Some w' →
  handles w' = handles w ∧ ∃ id t t', tasks w !! id = Some t ∧ is_joined t = false ∧ tasks w' = <[id := t']> (tasks w)
    ∧ task t' = task t ∧ (is_finished t = true → is_finished t' = true)
    ∧ (sent t' = sent t ∨ sent t' ≠ Some TaskPanicked ∨ SF_BackgroundTask (task t) id ∈ pushed w').
Proof.
  destruct l; simpl; try done; intros (t & Ht & H)%bind_Some.
  - destruct (phase t) eqn:Hp; try done. injection H as <-. unfold settle.
    destruct (cleanup t); [destruct r as [[|]|]|]; (split; [done|]);
      eexists _, t, _; (split_and!; [exact Ht|unfold is_joined; by rewrite Hp|reflexivity|done|unfold is_finished; by rewrite Hp|by left]).
  - destruct (phase t) as [|r| |] eqn:Hp; try done. injection H as <-. unfold report.
    split; [by repeat case_match|]. eexists _, t, (t <| phase := Reported |> <| sent := Some r |>).
    split_and!; [exact Ht|unfold is_joined; by rewrite Hp|by repeat case_match|done|done|right].
    destruct r; [by left|right]. cbn. apply elem_of_app. right. by apply list_elem_of_singleton.
  - destruct (phase t) eqn:Hp; try done. injection H as <-. split; [done|].
    eexists _, t, _. split_and!; [exact Ht|unfold is_joined; by rewrite Hp|reflexivity|done|done|by left].
  - destruct (is_joined t) eqn:Hj; [done|]. injection H as <-. split; [done|].
    eexists _, t, _. split_and!; [exact Ht|done|reflexivity|done|done|by left].
Qed.

(** *** Steps that no thread takes *)
Lemma frame_advances w w' : same_frame w w' → advances w w'.
Proof.
  intros [E1 E2 E3 E4 E5 E6 E7 E8 E9 _ _ _ _]. constructor; unfold idle; congruence.
Qed.
Lemma frame_quiet w w' : same_frame w w' → (quiet w → detached w = false → all_joined w → all_joined w') → quiet w → quiet w'.
Proof.
  intros [E1 E2 E3 E4 E5 E6 E7 E8 E9 _ _ _ _] Hq Hw. pose proof Hw as ([? ?] & ? & ? & Hj).
  split_and!; [split; congruence|congruence..|]. rewrite E9. auto.
Qed.

(** A step that changes only tasks: those tracked stay tracked, and none appears
    in a quiet world. *)
Lemma frame_inv w w' :
  inv w → same_frame w w' →
  (∀ id t', tasks w' !! id = Some t' → is_joined t' = false →
     id ∈ handles w' ∨ ∃ t, tasks w !! id = Some t ∧ is_joined t = false) →
  (∀ id, id ∈ handles w → joined_at w id = false → id ∈ handles w' ∨ joined_at w' id = true) →
  (∀ id, id ∈ taken w → joined_at w' id = false → joined_at w id = false) →
  (quiet w → detached w = false → all_joined w → all_joined w') ∨ unsettled w →
  inv w'.
Proof.
  intros Hi Hs Htr Hh Hta Hq. pose proof (frame_advances _ _ Hs) as Ha.
  assert ((open w ∧ ∀ j t, threads w !! j = Some t → at_rest t = true → False) ∨ (quiet w → quiet w')) as Hq'.
  { destruct Hq as [Hq|Hu]; [right; by apply frame_quiet|left; by apply unsettled_open]. }
  destruct Hs as [E1 E2 E3 E4 E5 E6 E7 E8 E9 _ _ _ _]. constructor; rewrite ?E7, ?E2, ?E8, ?E9.
  - apply Hi.
  - intros i t Ht Hw r. rewrite E1. by apply (i_open _ Hi i t).
  - intros i t Ht. eapply reached_advances; [done| |by eapply i_reached].
    intros Hr. destruct Hq' as [[_ Hn]|?]; [destruct (Hn _ _ Ht Hr)|done].
  - intros r. rewrite E1. intros Hc. destruct Hq' as [[Ho _]|Hq']; [by destruct (Ho r)|]. apply Hq'. by eapply i_closed.
  - intros id t' Ht' Hj. destruct (Htr _ _ Ht' Hj) as [?|(t & Ht & Hj')]; [by left|].
    destruct (i_tracked _ Hi _ _ Ht Hj') as [Hin|?]; [|by right].
    destruct (Hh _ Hin) as [?|Hj'']; [by rewrite (joined_at_some _ _ _ Ht)|by left|].
    rewrite (joined_at_some _ _ _ Ht') in Hj''. congruence.
  - intros id Hid Hj. apply (i_taken _ Hi); [done|]. by apply Hta.
Qed.

Lemma task_step_inv w l w' : inv w → task_step w l = Some w' → inv w'.
Proof.
  intros Hi H. pose proof (task_step_same _ _ _ H) as Hs.
  destruct (task_step_tasks _ _ _ H) as (Hh & id & t & t' & Ht & Hj & Hts & _). apply (frame_inv w); [done..| | | |].
  - intros k u. rewrite Hts. destruct (decide (k = id)) as [->|Hne]; [eauto|]. rewrite list_lookup_insert_ne by done. eauto.
  - intros k ? _. left. by rewrite Hh.
  - intros k _. unfold joined_at. rewrite Hts. destruct (decide (k = id)) as [->|Hne]; [by rewrite Ht|].
    by rewrite list_lookup_insert_ne by done.
  - left. intros _ _ Hall. by rewrite (Hall _ _ Ht) in Hj.
Qed.
Lemma push_inv f w : inv w → inv (push f w).
Proof. intros Hi. apply (frame_inv w); [done|apply push_same|eauto..|]. left. auto. Qed.

Lemma quiet_creates_nothing w by_ : quiet w → all_joined w → may_create w by_ = true → detached w = true.
Proof.
  intros ([_ Ha] & Hp & Hr & _) Hall. destruct by_ as [|id| |]; simpl.
  - by rewrite Ha.
  - destruct (tasks w !! id) as [t|] eqn:Ht; [|done]. specialize (Hall _ _ Ht). unfold is_joined in Hall. by destruct (phase t).
  - by rewrite Hp.
  - rewrite Hr. simpl. done.
Qed.

Lemma supervise_tasks w kind c : tasks (supervise w kind c) = tasks w ++ [mkTask kind c Working None].
Proof. done. Qed.
Lemma supervise_handles w kind c : handles (supervise w kind c) =
  prune (joined_at w) (Nat.min (length (handles w)) 4) (handles w) ++ [length (tasks w)].
Proof. done. Qed.
Lemma prune_subset joined n l id : id ∈ prune joined n l → id ∈ l.
Proof.
  induction n as [|n IH] in l |- *; simpl; [done|]. destruct l as [|x l]; [done|]. intros Hid%IH.
  destruct (joined x); set_solver.
Qed.
Lemma appended_lookup {A} (l : list A) x i y : (l ++ [x]) !! i = Some y → l !! i = Some y ∨ i = length l ∧ y = x.
Proof. intros [?|[? [? ?]%list_lookup_singleton_Some]]%lookup_app_Some; [by left|right]. split; [lia|done]. Qed.

Lemma supervise_inv w kind c :
  inv w → (quiet w → detached w = false → all_joined w → False) ∨ unsettled w → inv (supervise w kind c).
Proof.
  intros Hi Hq. apply (frame_inv w); [done|apply supervise_same| | | |].
  - intros id t'. rewrite supervise_tasks. intros [?|[-> _]]%appended_lookup Hj; [eauto|]. left.
    rewrite supervise_handles. set_solver.
  - intros id Hid Hj. left. rewrite supervise_handles. apply elem_of_app. left. by apply supervise_keeps.
  - intros id _. unfold joined_at. rewrite supervise_tasks. destruct (tasks w !! id) as [t|] eqn:Ht; [|done].
    by rewrite (lookup_app_l_Some _ _ _ _ Ht).
  - destruct Hq as [Hq|?]; [left|by right]. intros ? ? ?. exfalso. auto.
Qed.
Lemma spawn_inv w by_ kind c : inv w → may_create w by_ = true → inv (supervise w kind c).
Proof.
  intros Hi Hm. apply supervise_inv; [done|]. left. intros Hq Hd Hj.
  rewrite (quiet_creates_nothing _ _ Hq Hj Hm) in Hd. done.
Qed.

(** *** Steps of a thread *)
Lemma set_thread_lookup w i t j u : threads (set_thread i t w) !! j = Some u →
  j = i ∧ u = t ∨ j ≠ i ∧ threads w !! j = Some u.
Proof. unfold set_thread. cbn. intros [(-> & <- & _)|[? ?]]%list_lookup_insert_Some; auto. Qed.

(** The thread changes; the world changes as little as [advances] says. *)
Lemma thread_inv w w' i t t' :
  inv w → threads w !! i = Some t → threads w' = threads w → advances w w' →
  (quiet w → quiet w') →
  tasks w' = tasks w →
  (∀ id, id ∈ handles w → id ∈ handles w' ∨ id ∈ taken w') →
  (∀ id, id ∈ taken w' → joined_at w id = false →
     id ∈ taken w ∧ (∀ stage, pc t ≠ P_Await stage id) ∨ detached w' = true ∨ ∃ stage, pc t' = P_Await stage id) →
  (∀ id, id ∈ taken w → id ∈ taken w') → (detached w = true → detached w' = true) →
  (gate_held t' = true → gate w' = Some i) →
  (∀ j, j ≠ i → gate w = Some j → gate w' = Some j) →
  (lifecycle w' = lifecycle w ∨ gate_held t = true ∧ quiet w' ∨ lifecycle w = Running ∧ lifecycle w' = Closing) →
  (working t' → open w') →
  reached w' t' →
  inv (set_thread i t' w').
Proof.
  intros Hi Ht Eth Ha Hq Ets Hh Hta Hmono Hdet Hg Hg' Hl Hw Hr.
  assert (∀ j u, j ≠ i → threads w' !! j = Some u → threads w !! j = Some u) as Hold by (rewrite Eth; auto).
  constructor.
  - intros j u [[-> ->]|[Hne Hu]]%set_thread_lookup; [done|]. apply Hold in Hu; [|done].
    intros Hgu. apply Hg'; [done|]. by eapply i_gate.
  - intros j u [[-> ->]|[Hne Hu]]%set_thread_lookup Hwu r; [by apply Hw|]. change (lifecycle w' ≠ Closed r). apply Hold in Hu; [|done].
    pose proof (i_open _ Hi _ _ Hu Hwu r) as Ho. destruct Hl as [->|[[Hgt _]|[_ ->]]]; [done| |done].
    pose proof (i_gate _ Hi _ _ Ht Hgt) as E1. pose proof (i_gate _ Hi _ _ Hu (proj1 Hwu)) as E2. congruence.
  - intros j u [[-> ->]|[Hne Hu]]%set_thread_lookup; [exact Hr|]. apply Hold in Hu; [|done].
    change (reached w' u). eapply reached_advances; [exact Ha|auto|]. by eapply i_reached.
  - intros r Hc. change (lifecycle w' = Closed r) in Hc. change (quiet w'). destruct Hl as [E|[[_ ?]|[_ E]]]; [|done|congruence]. rewrite E in Hc. apply Hq. by eapply i_closed.
  - intros id u Hu Hj. change (tasks w' !! id = Some u) in Hu. rewrite Ets in Hu. destruct (i_tracked _ Hi _ _ Hu Hj) as [?%Hh|?]; auto.
  - intros id Hid Hj. assert (joined_at w id = false) as Hj' by (revert Hj; unfold joined_at; cbn; by rewrite Ets).
    clear Hj. rename Hj' into Hj. change (id ∈ taken w') in Hid.
    destruct (Hta _ Hid Hj) as [[Hold' Hnot]|[?|[stage Hs]]]; [|by left|].
    + destruct (i_taken _ Hi _ Hold' Hj) as [?|(j & u & stage & Hu & Hp)]; [left; auto|right].
      assert (j ≠ i) as Hne by (intros ->; rewrite Ht in Hu; injection Hu as ->; by eapply Hnot).
      exists j, u, stage. split; [|done]. change (<[i:=t']> (threads w') !! j = Some u). rewrite Eth. by rewrite list_lookup_insert_ne.
    + right. exists i, t', stage. split; [|done]. change (<[i:=t']> (threads w') !! i = Some t'). rewrite Eth. apply list_lookup_insert_eq. by eapply lookup_lt_Some.
Qed.

(** The gate, the life cycle and the tasks stay; flags may be raised. *)
Record raises (w w' : World) : Prop := mkRaises {
  r_threads : threads w' = threads w; r_tasks : tasks w' = tasks w; r_handles : handles w' = handles w;
  r_taken : taken w' = taken w; r_detached : detached w' = detached w; r_gate : gate w' = gate w;
  r_lifecycle : lifecycle w' = lifecycle w; r_active : active w' = active w;
  r_scopes : scopes_closed w = true → scopes_closed w' = true;
  r_plugins : plugins_over w = true → plugins_over w' = true;
  r_recovery : recovery_over w = true → recovery_over w' = true }.
Lemma raises_refl w : raises w w.
Proof. by constructor. Qed.
Lemma raises_advances w w' : raises w w' → advances w w'.
Proof. intros []. constructor; try congruence; [done| |done..]. intros [? ?]. split; [auto|congruence]. Qed.
Lemma raises_quiet w w' : raises w w' → quiet w → quiet w'.
Proof.
  intros Hr ([? ?] & ? & ? & Hj). destruct Hr as [E1 E2 E3 E4 E5 E6 E7 E8 R1 R2 R3].
  split; [split; [auto|congruence]|]. split; [auto|]. split; [auto|]. unfold all_joined. by rewrite E5, E2.
Qed.
Lemma raise_inv w w' i t t' :
  inv w → threads w !! i = Some t → raises w w' →
  (∀ stage id, pc t = P_Await stage id → joined_at w id = true) →
  (gate_held t' = true → gate_held t = true) → (working t' → open w) → reached w' t' →
  inv (set_thread i t' w').
Proof.
  intros Hi Ht Hr Haw Hg Hw Hre.
  pose proof (raises_advances _ _ Hr). pose proof (raises_quiet _ _ Hr). destruct Hr as [E1 E2 E3 E4 E5 E6 E7 E8 _ _ _].
  apply (thread_inv w w' i t t'); try done; rewrite ?E3, ?E4, ?E5, ?E6, ?E7; auto.
  - intros id Hid Hj. left. split; [done|]. intros stage Hp%Haw. congruence.
  - intros Hh. eapply i_gate; [done..|auto].
  - unfold open. by rewrite E7.
Qed.
Lemma here_inv w i t t' :
  inv w → threads w !! i = Some t → (∀ stage id, pc t ≠ P_Await stage id) →
  (gate_held t' = true → gate_held t = true) → (working t' → open w) → reached w t' → inv (set_thread i t' w).
Proof. intros ? ? Hn ???. apply (raise_inv w w i t); try done. by intros ? ? ?%Hn. Qed.

Ltac held := unfold gate_held in *; cbn in *; repeat match goal with H : pc _ = _ |- _ => rewrite H in * end; auto.
Lemma working_pc t p : pc t = p → gate_held t = true → p ≠ P_Lookup → (∀ r, p ≠ P_Unlock r) → working t.
Proof. intros <- ???. by split. Qed.
Lemma working_open w i t : inv w → threads w !! i = Some t → working t → open w.
Proof. intros Hi. apply i_open, Hi. Qed.

(** [close] *)
Lemma close_next_held o t : gate_held (t <| pc := close_next o t |>) = true → in_shutdown t = true.
Proof. unfold gate_held, close_next. cbn. by destruct (in_shutdown t). Qed.
Lemma close_next_reached o w t : lifecycle w ≠ Running → scopes_closed w = true → reached w (t <| pc := close_next o t |>).
Proof. unfold reached, close_next. cbn. by destruct (in_shutdown t). Qed.

Lemma begin_inv w i t a t' w' :
  inv w → threads w !! i = Some t → pc t = C_Begin → run_step w i t a = Some (t', w') → inv (set_thread i t' w').
Proof.
  intros Hi Ht Hp H. unfold run_step, close_step, drain_step, shutdown_step, flush_step in H. rewrite Hp in H. destruct a; try done.
  assert (gate_held t = in_shutdown t) as Hg by (unfold gate_held; by rewrite Hp).
  assert (in_shutdown t = true → open w) as Hop.
  { intros Hh. eapply working_open; [done..|]. eapply working_pc; [done|congruence|done..]. }
  destruct (lifecycle w) as [| |r] eqn:El; simpl in H; injection H as <- <-.
  - apply (thread_inv w _ i t); try done; cbn; auto.
    + constructor; cbn; try done; congruence.
    + intros id Hid _. left. split; [done|]. congruence.
    + intros Hh. eapply i_gate; [done..|congruence].
  - apply (raise_inv w _ i t); try done; [congruence|by rewrite Hg|intros _ r; congruence].
  - apply (raise_inv w _ i t); try done; [congruence|by rewrite Hg|intros [Hh _]; by apply Hop].
Qed.
Lemma close_inv w i t a t' w' :
  inv w → threads w !! i = Some t → (∃ o, pc t = C_Scopes o) ∨ pc t = C_StopRecovery ∨ pc t = C_StopPlugins →
  run_step w i t a = Some (t', w') → inv (set_thread i t' w').
Proof.
  intros Hi Ht Hpc H. pose proof (i_reached _ Hi _ _ Ht) as Hre. unfold reached in Hre.
  assert (gate_held t = in_shutdown t) as Hg by (unfold gate_held; by destruct Hpc as [[o ->]|[->| ->]]).
  assert (in_shutdown t = true → open w) as Hop.
  { intros Hh. eapply working_open; [done..|]. split; [congruence|]. by destruct Hpc as [[o ->]|[->| ->]]. }
  unfold run_step, close_step, drain_step, shutdown_step, flush_step in H. destruct Hpc as [[o Hp]|[Hp|Hp]]; rewrite Hp in H, Hre; destruct a; try done; injection H as <- <-.
  - apply (raise_inv w _ i t); try done; [congruence| | |].
    + rewrite Hg. destruct o; [done|apply close_next_held..].
    + intros [Hh _]. apply Hop. destruct o; [done|by eapply close_next_held..].
    + destruct o; [done|by apply close_next_reached..].
  - apply (raise_inv w _ i t); try done; [congruence|by rewrite Hg|]. intros [Hh _]. by apply Hop.
  - destruct Hre. apply (raise_inv w _ i t); try done; [congruence|rewrite Hg; apply close_next_held| |by apply close_next_reached].
    intros [Hh _]. apply Hop. by eapply close_next_held.
Qed.

(** The gate *)
Lemma gate_inv w i t a t' w' :
  inv w → threads w !! i = Some t → pc t = P_Gate ∨ pc t = P_Lookup ∨ pc t = P_Publish ∨ (∃ r, pc t = P_Unlock r) →
  run_step w i t a = Some (t', w') → inv (set_thread i t' w').
Proof.
  intros Hi Ht Hpc H. pose proof (i_reached _ Hi _ _ Ht) as Hre. unfold reached in Hre.
  unfold run_step, close_step, drain_step, shutdown_step, flush_step in H. destruct Hpc as [Hp|[Hp|[Hp|[r Hp]]]]; rewrite Hp in H, Hre; destruct a; try done.
  - destruct (gate w) eqn:Eg; [done|]. injection H as <- <-.
    apply (thread_inv w _ i t); try done; cbn; auto; [|congruence|by intros [_ [? _]]].
    intros id Hid _. left. split; [done|congruence].
  - injection H as <- <-. apply here_inv with t; try done; [congruence|unfold gate_held; by rewrite Hp| |].
    + destruct (lifecycle w) eqn:El; intros [_ [_ Hu]] r'; [congruence..|]. by destruct (Hu _ eq_refl).
    + unfold reached. cbn. by destruct (lifecycle w).
  - assert (gate_held t = true) as Hg by (unfold gate_held; by rewrite Hp).
    assert (open w) as Ho by (eapply working_open; [done..|]; by apply (working_pc t P_Publish)).
    destruct Hre as [? Hq]. injection H as <- <-. apply (thread_inv w _ i t); try done; cbn; auto.
    + constructor; cbn; try done. intros r Hr. by destruct (Ho r).
    + intros id Hid _. left. split; [done|congruence].
    + intros _. by eapply i_gate.
    + intros [_ [_ Hu]]. by destruct (Hu _ eq_refl).
  - assert (gate w = Some i) as Hg by (eapply i_gate; [done..|]; unfold gate_held; by rewrite Hp).
    injection H as <- <-. apply (thread_inv w _ i t); try done; cbn; auto; [|congruence|by intros [? _]].
    intros id Hid _. left. split; [done|congruence].
Qed.

(** The waits and the accounts of [shutdown] *)
Definition is_wait (t : Thread) : bool :=
  match pc t with
  | P_Drained | P_Plugins | P_Join _ | P_Leave _ | P_Take _ | P_Recovery => true
  | _ => false
  end.
Lemma wait_inv w i t a t' w' :
  inv w → threads w !! i = Some t → is_wait t = true → run_step w i t a = Some (t', w') → inv (set_thread i t' w').
Proof.
  intros Hi Ht Hpc H. pose proof (i_reached _ Hi _ _ Ht) as Hre. unfold reached in Hre.
  assert (gate_held t = true) as Hg by (unfold gate_held, is_wait in *; by destruct (pc t)).
  assert (open w) as Ho.
  { eapply working_open; [done..|]. split; [done|]. unfold is_wait in Hpc. by destruct (pc t). }
  assert (∀ stage id, pc t ≠ P_Await stage id) as Hn by (unfold is_wait in Hpc; by destruct (pc t)).
  unfold run_step, close_step, drain_step, shutdown_step, flush_step in H. unfold is_wait in Hpc. destruct (pc t) eqn:Hp; try done; destruct a; try done.
  all: try (destruct (scopes_closed w && _) eqn:Hs; [|done]); try (destruct (join w); [done|]); injection H as <- <-.
  all: apply (raise_inv w _ i t); try done; try congruence.
  all: unfold reached; cbn; try (destruct stage); destruct_and?; try done.
  - split; [done|]. apply andb_true_iff in Hs as [? ?%Nat.eqb_eq]. done.
Qed.
Lemma pop_inv w i t a t' w' stage :
  inv w → threads w !! i = Some t → pc t = P_Pop stage → run_step w i t a = Some (t', w') → inv (set_thread i t' w').
Proof.
  intros Hi Ht Hp H. pose proof (i_reached _ Hi _ _ Ht) as Hre. unfold reached in Hre. rewrite Hp in Hre.
  assert (gate_held t = true) as Hg by (unfold gate_held; by rewrite Hp).
  assert (gate w = Some i) as Hgate by (by eapply i_gate).
  assert (open w) as Ho by (eapply working_open; [done..|]; by apply (working_pc t (P_Pop stage))).
  unfold run_step, close_step, drain_step, shutdown_step, flush_step in H. rewrite Hp in H. destruct a; try done. destruct (handles w) as [|id l] eqn:Eh; injection H as <- <-.
  - apply (here_inv w i t); try done; [congruence|]. unfold reached. cbn. destruct stage; [done|].
    destruct Hre as (? & ? & ? & ?). split; [done|]. split_and!; [done..|]. intros Hd id u Hu.
    destruct (is_joined u) eqn:Hj; [done|]. destruct (i_tracked _ Hi _ _ Hu Hj) as [Hin|Hin]; [rewrite Eh in Hin; set_solver|].
    destruct (i_taken _ Hi _ Hin) as [?|(j & v & s & Hv & Hpv)]; [by rewrite (joined_at_some _ _ _ Hu)|congruence|].
    assert (gate w = Some j) as Hgj by (eapply i_gate; [done..|]; unfold gate_held; by rewrite Hpv).
    rewrite Hgate in Hgj. injection Hgj as <-. rewrite Ht in Hv. congruence.
  - apply (thread_inv w _ i t); try done; cbn; auto.
    + intros k. rewrite Eh. intros [->|?]%elem_of_cons; [right; set_solver|by left].
    + intros k [?|Hk%list_elem_of_singleton]%elem_of_app _; [left; split; [done|congruence]|subst k; right; right; by eexists].
    + set_solver.
Qed.
Lemma await_inv w i t a t' w' stage id :
  inv w → threads w !! i = Some t → pc t = P_Await stage id → run_step w i t a = Some (t', w') →
  inv (set_thread i t' w').
Proof.
  intros Hi Ht Hp H. pose proof (i_reached _ Hi _ _ Ht) as Hre. unfold reached in Hre. rewrite Hp in Hre.
  assert (gate_held t = true) as Hg by (unfold gate_held; by rewrite Hp).
  assert (open w) as Ho by (eapply working_open; [done..|]; by apply (working_pc t (P_Await stage id))).
  unfold run_step, close_step, drain_step, shutdown_step, flush_step in H. rewrite Hp in H. destruct a; try done. apply bind_Some in H as (u & Hu & H).
  destruct (phase u) as [| | |lost] eqn:Hph; try done. injection H as <- <-.
  apply (raise_inv w _ i t); try done; [by destruct lost| |].
  - intros s k. rewrite Hp. intros [= _ <-]. rewrite (joined_at_some _ _ _ Hu). unfold is_joined. by rewrite Hph.
  - unfold reached. cbn. by destruct lost, stage.
Qed.
Lemma locks_inv w i t a t' w' :
  inv w → threads w !! i = Some t → pc t = P_Locks → run_step w i t a = Some (t', w') → inv (set_thread i t' w').
Proof.
  intros Hi Ht Hp H. pose proof (i_reached _ Hi _ _ Ht) as Hre. unfold reached in Hre. rewrite Hp in Hre.
  assert (gate_held t = true) as Hg by (unfold gate_held; by rewrite Hp).
  unfold run_step, close_step, drain_step, shutdown_step, flush_step in H. rewrite Hp in H. destruct a as [| | |accepted]; try done. injection H as <- <-.
  assert (∀ w1, same_frame w w1 → inv w1 → inv (set_thread i (t <| pc := P_Join Last |>) w1)) as Hmove.
  { intros w1 Hs Hi1. pose proof (s_threads _ _ Hs) as E. assert (threads w1 !! i = Some t) as Ht1 by congruence.
    apply (here_inv w1 i t); try done; [congruence| |].
    - intros _. eapply working_open; [done..|]. by apply (working_pc t P_Locks).
    - destruct Hs as [E1 _ E3 E4 E5 E6 _ _ _ _ _ _ _]. unfold reached, idle. cbn. rewrite E1, E3, E4, E5, E6. done. }
  destruct accepted as [[|]|]; apply Hmove; auto using supervise_same, push_same, same_refl, push_inv.
  apply supervise_inv; [done|]. right. by exists i, t.
Qed.
Lemma flush_inv w i t a t' w' count :
  inv w → threads w !! i = Some t → pc t = F_Collect count ∨ (∃ l, pc t = F_Wait count l) →
  run_step w i t a = Some (t', w') → inv (set_thread i t' w').
Proof.
  intros Hi Ht Hpc H. unfold run_step, close_step, drain_step, shutdown_step, flush_step in H. destruct Hpc as [Hp|[l Hp]]; rewrite Hp in H; destruct a; try done.
  - injection H as <- <-. apply (here_inv w i t); try done; [congruence|unfold gate_held; cbn; by destruct (pending w)|
      intros [Hh _]; revert Hh; unfold gate_held; cbn; by destruct (pending w)|unfold reached; cbn; by destruct (pending w)].
  - destruct l as [|id l]; [|destruct (finished_at w id); [|done]]; injection H as <- <-;
      apply (here_inv w i t); try done; try congruence; by intros [? _].
Qed.

Lemma run_inv w i t a t' w' :
  inv w → threads w !! i = Some t → run_step w i t a = Some (t', w') → inv (set_thread i t' w').
Proof.
  intros Hi Ht H. destruct (pc t) eqn:Hp.
  all: try (unfold run_step, close_step, drain_step, shutdown_step, flush_step in H; rewrite Hp in H; by destruct a).
  all: first
    [ by eapply begin_inv | by eapply pop_inv | by eapply await_inv | by eapply locks_inv
    | eapply wait_inv; [done..|unfold is_wait; by rewrite Hp|done]
    | eapply flush_inv; [done..|rewrite Hp; by eauto|done]
    | eapply gate_inv; [done..|rewrite Hp; by eauto 6|done]
    | eapply close_inv; [done..|rewrite Hp; by eauto|done] ].
Qed.

Lemma dropped_inv w w' i t : inv w → threads w !! i = Some t → drop_step w t = Some w' →
  inv (set_thread i (t <| pc := Dropped |>) w').
Proof.
  intros Hi Ht H. unfold drop_step in H.
  assert (∀ p, pc t = p → is_wait t = true ∨ (∃ s id, p = P_Await s id) → gate w = Some i) as Hg.
  { intros p Hp Hw. eapply i_gate; [done..|]. unfold gate_held, is_wait in *. destruct Hw as [Hw|(s & id & ->)];
      [by destruct (pc t)|by rewrite Hp]. }
  destruct (pc t) eqn:Hp; try done; injection H as <-.
  all: try solve [apply (here_inv w i t); [done..|by rewrite Hp|done|by intros [? _]|done]].
  all: assert (gate w = Some i) as Hgate by (eapply Hg; [done|unfold is_wait; rewrite Hp; by eauto]).
  all: apply (thread_inv w _ i t); try done; cbn; auto; try congruence.
  all: try (by intros [? _]).
  all: try (intros (? & ? & ? & Hj); split_and!; [done..|]; by intros).
  all: intros k Hk _; left; split; [done|congruence].
Qed.

Lemma new_thread_inv w t : inv w → gate_held t = false → reached w t → inv (w <| threads := threads w ++ [t] |>).
Proof.
  intros Hi Hg Hr. constructor; cbn.
  - intros j u [Hu|[-> ->]]%appended_lookup; [by eapply i_gate|congruence].
  - intros j u [Hu|[-> ->]]%appended_lookup; [by apply (i_open _ Hi j)|]. intros [? _]. congruence.
  - intros j u [Hu|[-> ->]]%appended_lookup; [by apply (i_reached _ Hi j)|done].
  - apply Hi.
  - apply Hi.
  - intros id Hid Hj. destruct (i_taken _ Hi _ Hid Hj) as [?|(j & u & s & Hu & Hp)]; [by left|right].
    exists j, u, s. split; [by apply lookup_app_l_Some|done].
Qed.
(** Operations come and go. *)
Lemma active_inv w n : inv w → (active w = 0%nat → scopes_closed w = true → n = 0%nat) → inv (w <| active := n |>).
Proof.
  intros Hi Hn. assert (advances w (w <| active := n |>)) as Ha by (constructor; try done; intros [? ?]; split; cbn; auto).
  assert (quiet w → quiet (w <| active := n |>)) as Hq by (intros (Hid & ? & ? & ?); split_and!; [by apply Ha|done..]).
  constructor; try apply Hi.
  - intros i t Ht. eapply reached_advances; [done|auto|]. by eapply i_reached.
  - intros r Hc. apply Hq. by eapply i_closed.
Qed.
Lemma lifecycle_step w l w' : inv w → step w l = Some w' → inv w'.
Proof.
  intros Hi H. destruct l as [shutdown| |i a|i| | |by_ kind c|by_|id r|id|id|id]; cbn [step] in H;
    try by eapply task_step_inv.
  - injection H as <-. apply new_thread_inv; [done|by destruct shutdown..].
  - injection H as <-. by apply new_thread_inv.
  - apply bind_Some in H as (t & Ht & H). apply bind_Some in H as ([t' w1] & Hr & H). injection H as <-. by eapply run_inv.
  - apply bind_Some in H as (t & Ht & H). apply bind_Some in H as (w1 & Hr & H). injection H as <-. by eapply dropped_inv.
  - destruct (scopes_closed w) eqn:Hs; [done|]. injection H as <-. apply active_inv; [done|congruence].
  - destruct (active w) eqn:Ha; [done|]. injection H as <-. apply active_inv; [done|congruence].
  - destruct (may_create w by_) eqn:Hm; [|done]. injection H as <-. by eapply spawn_inv.
  - destruct (may_create w by_); [|done]. injection H as <-. by apply push_inv.
Qed.
Lemma initial_inv : inv initial.
Proof. constructor; cbn; try done; try (intros ? ?; by rewrite lookup_nil). by intros ? ?%elem_of_nil. Qed.
Lemma execute_invariant (P : World → Prop) l :
  (∀ w x w', inv w → P w → step w x = Some w' → P w') → ∀ w w', inv w → P w → execute w l = Some w' → inv w' ∧ P w'.
Proof.
  intros Hstep. induction l as [|x l IH]; intros w w' Hi HP H; cbn in H; [by injection H as <-|].
  apply bind_Some in H as (w1 & H1 & H). apply (IH w1); [by eapply lifecycle_step|by eapply Hstep|done].
Qed.
End LifecycleInv.

(** ** The account of the failures *)
Module LifecycleBooks.
Import Lifecycle LifecycleInv.

Definition is_early (p : Pc) : bool :=
  match p with
  | C_Begin | C_Scopes _ | C_StopRecovery | C_StopPlugins | P_Gate | P_Lookup | P_Drained | P_Plugins => true
  | _ => false
  end.
(** What tasks reported is there, and nothing was asked yet. *)
Definition fresh_books (w : World) : Prop := reported w = pushed w ∧ answers w = ([], []).
(** A shutdown under way holds what it took, and what it was answered. *)
Definition thread_books (w : World) (t : Thread) : Prop :=
  match pc t with
  | P_Join First | P_Pop First | P_Await First _ | P_Leave First | P_Take First | P_Recovery =>
      pushed w = failures t ++ reported w ∧ answers w = ([], plugin_failures t)
  | P_Locks | P_Join Last | P_Pop Last | P_Await Last _ | P_Leave Last | P_Take Last | P_Publish =>
      ∃ t1 t2, failures t = t1 ++ (answers w).1 ++ t2 ∧ pushed w = t1 ++ t2 ++ reported w
        ∧ (answers w).2 = plugin_failures t ∧ (pc t = P_Publish → reported w = [])
  | _ => if is_early (pc t) then fresh_books w else True
  end.
Definition closed_books (w : World) (r : result (list ShutdownFailure) unit) : Prop :=
  ∃ t1 t2, r = report_of (t1 ++ (answers w).1 ++ t2 ++ (SF_Plugin <$> (answers w).2)) ∧ pushed w = t1 ++ t2.

Record books (w : World) : Prop := mkBooks {
  b_detached : detached w = true → abandoned w = true;
  b_early : ∀ i t, threads w !! i = Some t → is_early (pc t) = true → failures t = [];
  b_free : abandoned w = false → gate w = None → open w → fresh_books w;
  b_held : abandoned w = false → ∀ i t, threads w !! i = Some t → gate_held t = true → open w → thread_books w t;
  b_closed : abandoned w = false → ∀ r, lifecycle w = Closed r → closed_books w r }.

Lemma quiet_still w l w' : quiet w → detached w = false → task_step w l = Some w' → False.
Proof.
  intros (_ & _ & _ & Hj) Hd H. destruct (task_step_tasks _ _ _ H) as (_ & id & t & t' & Ht & Hn & _).
  rewrite (Hj Hd _ _ Ht) in Hn. done.
Qed.

(** What a task does to the account. *)
Definition noted (w w' : World) : Prop :=
  ∃ l, pushed w' = pushed w ++ l ∧ reported w' = reported w ++ l.
Lemma task_step_noted w l w' : task_step w l = Some w' → noted w w'.
Proof.
  assert (∀ w1 w2, pushed w2 = pushed w1 → reported w2 = reported w1 → noted w1 w2) as Hnil.
  { intros w1 w2 E1 E2. exists []. by rewrite E1, E2, !app_nil_r. }
  destruct l; cbn [task_step]; try done; intros (t & Ht & H)%bind_Some.
  - destruct (phase t); try done. injection H as <-. unfold settle.
    destruct (cleanup t); [destruct r as [[|]|]|]; try by apply Hnil. eexists. split; reflexivity.
  - destruct (phase t) as [|r| |]; try done. injection H as <-. unfold report.
    destruct r as [[|e]|]; [by apply Hnil|destruct (is_shutdown_error e); by apply Hnil|]. eexists. split; reflexivity.
  - destruct (phase t); try done. injection H as <-. by apply Hnil.
  - destruct (is_joined t); [done|]. injection H as <-. by apply Hnil.
Qed.
Lemma noted_books w w' t : noted w w' → answers w' = answers w →
  (pc t = P_Publish → reported w' = reported w) → thread_books w t → thread_books w' t.
Proof.
  intros (l & Ep & Er) Ea Hp. unfold thread_books, fresh_books. rewrite Ep, Ea.
  destruct (pc t) eqn:Hpc; try done; try (destruct stage); rewrite ?Er; try (by intros [-> ->]); try (by intros [-> ->]; rewrite app_assoc);
    intros (t1 & t2 & -> & -> & <- & Hr); exists t1, t2; rewrite <- ?app_assoc; split_and!; try done.
  intros E. specialize (Hp E). specialize (Hr E). congruence.
Qed.
Lemma not_detached w : books w → abandoned w = false → detached w = false.
Proof. intros Hb Ha. destruct (detached w) eqn:E; [|done]. by rewrite (b_detached _ Hb E) in Ha. Qed.

Lemma frame_books w w' :
  inv w → books w → same_frame w w' → noted w w' →
  (quiet w → detached w = false → reported w' = reported w ∧ pushed w' = pushed w) → books w'.
Proof.
  intros Hi Hb [E1 E2 E3 E4 E5 E6 E7 E8 E9 E10 E11 E12 E13] Hn Hq.
  assert (open w' → open w) as Hop by (unfold open; by rewrite E1). constructor; rewrite ?E7, ?E10, ?E2, ?E9.
  - apply Hb.
  - apply Hb.
  - intros Ha Hg Ho. destruct (b_free _ Hb Ha Hg) as [Er ?]; [auto|].
    destruct Hn as (l & Ep & Er'). split; congruence.
  - intros Ha i t Ht Hh Ho. pose proof (Hop Ho) as Ho'.
    apply (noted_books w); [done..| |by eapply b_held]. intros Hp.
    apply Hq; [|by apply not_detached]. pose proof (i_reached _ Hi _ _ Ht) as Hre. unfold reached in Hre.
    rewrite Hp in Hre. apply Hre.
  - intros Ha r. rewrite E1. intros Hc. destruct (Hq (i_closed _ Hi _ Hc) (not_detached _ Hb Ha)) as [_ Ep].
    destruct (b_closed _ Hb Ha r Hc) as (t1 & t2 & -> & Hp). exists t1, t2. by rewrite E11, Ep.
Qed.
Lemma task_step_books w l w' : inv w → books w → task_step w l = Some w' → books w'.
Proof.
  intros Hi Hb H. apply (frame_books w); [done..|by eapply task_step_same|by eapply task_step_noted|].
  intros Hq Hd. destruct (quiet_still _ _ _ Hq Hd H).
Qed.
Lemma push_books w by_ f : inv w → books w → may_create w by_ = true → books (push f w).
Proof.
  intros Hi Hb Hm. apply (frame_books w); [done..|apply push_same|by exists [f]|].
  intros Hq Hd. pose proof Hq as (_ & _ & _ & Hj). by rewrite (quiet_creates_nothing _ _ Hq (Hj Hd) Hm) in Hd.
Qed.
Lemma supervise_books w kind c : inv w → books w → books (supervise w kind c).
Proof.
  intros Hi Hb. apply (frame_books w); [done..|apply supervise_same|exists []; by rewrite !app_nil_r|done].
Qed.

(** What a step of a thread does to it. *)
Lemma thread_books_step w w' i t t' :
  inv w → books w → threads w !! i = Some t → threads w' = threads w →
  abandoned w' = abandoned w → (detached w' = true → detached w = true) →
  (is_early (pc t') = true → failures t' = []) →
  (gate_held t = true ∨ (pushed w' = pushed w ∧ reported w' = reported w ∧ answers w' = answers w)) →
  (open w' → open w) →
  (abandoned w = false → gate w' = None → open w' → fresh_books w') →
  (abandoned w = false → gate_held t' = true → open w' → thread_books w' t') →
  (abandoned w = false → ∀ r, lifecycle w' = Closed r → closed_books w' r) →
  books (set_thread i t' w').
Proof.
  intros Hi Hb Ht Eth Eab Hd He Hoth Hop Hfree Hheld Hcl. constructor; cbn; rewrite ?Eab; try done.
  - intros H. apply (b_detached _ Hb). auto.
  - intros j u. rewrite Eth. intros [(-> & <- & _)|[Hne Hu]]%list_lookup_insert_Some; [done|by eapply b_early].
  - intros Ha j u. rewrite Eth. intros [(-> & <- & _)|[Hne Hu]]%list_lookup_insert_Some Hh Ho; [by apply Hheld|].
    assert (thread_books w u) as Hbu by (eapply b_held; [done..|]; by apply Hop).
    destruct Hoth as [Hh'|(E1 & E2 & E3)].
    + pose proof (i_gate _ Hi _ _ Ht Hh'). pose proof (i_gate _ Hi _ _ Hu Hh). congruence.
    + revert Hbu. unfold thread_books, fresh_books. cbn. by rewrite E1, E2, E3.
Qed.

(** A step that moves a thread without touching the account. *)
Record same_books (w w' : World) : Prop := mkSameBooks {
  m_threads : threads w' = threads w; m_abandoned : abandoned w' = abandoned w; m_detached : detached w' = detached w;
  m_pushed : pushed w' = pushed w; m_reported : reported w' = reported w; m_answers : answers w' = answers w;
  m_gate : gate w' = gate w; m_lifecycle : lifecycle w' = lifecycle w ∨ lifecycle w = Running ∧ lifecycle w' = Closing }.
Lemma move_books w w' i t t' :
  inv w → books w → threads w !! i = Some t → same_books w w' →
  (is_early (pc t') = true → failures t' = []) → (gate_held t' = true → gate_held t = true) →
  (gate_held t' = true → open w → thread_books w t → thread_books w t') → books (set_thread i t' w').
Proof.
  intros Hi Hb Ht [E1 E2 E3 E4 E5 E6 E7 E8] He Hg Hm.
  assert (open w' → open w) as Hop.
  { unfold open. destruct E8 as [->|[-> ->]]; done. }
  apply (thread_books_step w _ i t); try done; try congruence; [auto|..].
  - rewrite E7. unfold fresh_books. rewrite E4, E5, E6. intros. apply b_free; auto.
  - intros Ha Hh Ho. assert (thread_books w t') as Hbt.
    { apply Hm; [done|auto|]. eapply b_held; eauto. }
    revert Hbt. unfold thread_books, fresh_books. by rewrite E4, E5, E6.
  - intros Ha r Hc. destruct E8 as [E|[_ E]]; [|congruence]. rewrite E in Hc.
    destruct (b_closed _ Hb Ha _ Hc) as (t1 & t2 & -> & Hp). exists t1, t2. by rewrite E6, E4.
Qed.

Lemma early_spec w t : is_early (pc t) = true → thread_books w t = fresh_books w.
Proof. unfold thread_books. by destruct (pc t). Qed.
Lemma close_next_books o t : gate_held (t <| pc := close_next o t |>) = true →
  is_early (pc (t <| pc := close_next o t |>)) = true.
Proof. unfold gate_held, close_next. cbn. by destruct (in_shutdown t). Qed.
Lemma early_move w w' i t p :
  inv w → books w → threads w !! i = Some t → same_books w w' → is_early (pc t) = true →
  (gate_held (t <| pc := p |>) = true → gate_held t = true) →
  (gate_held (t <| pc := p |>) = true → is_early p = true ∨ ∃ r, p = P_Unlock r) →
  books (set_thread i (t <| pc := p |>) w').
Proof.
  intros Hi Hb Ht Hs He Hg Hp. apply (move_books w _ i t); try done.
  - intros _. exact (b_early _ Hb _ _ Ht He).
  - intros Hh _. rewrite (early_spec w t He). destruct (Hp Hh) as [Hep|[r ->]]; [by rewrite early_spec|done].
Qed.
Lemma early_books w i t a t' w' :
  inv w → books w → threads w !! i = Some t → is_early (pc t) = true → run_step w i t a = Some (t', w') →
  books (set_thread i t' w').
Proof.
  intros Hi Hb Ht He H. pose proof (b_early _ Hb _ _ Ht He) as Hf.
  unfold run_step, close_step, drain_step, shutdown_step, flush_step in H. destruct (pc t) eqn:Hp; try done; destruct a; try done.
  - assert (gate_held t = in_shutdown t) as Hg by (unfold gate_held; by rewrite Hp).
    destruct (begin_close (lifecycle w)) as [o l] eqn:Ec. injection H as <- <-. apply (early_move w); try done.
    + constructor; try done. cbn. destruct (lifecycle w); injection Ec as <- <-; auto.
    + by rewrite Hp.
    + by rewrite Hg.
    + by left.
  - assert (gate_held t = in_shutdown t) as Hg by (unfold gate_held; by rewrite Hp).
    injection H as <- <-. apply (early_move w); try done; [by constructor; auto|by rewrite Hp|rewrite Hg|].
    + destruct outcome; [done|apply close_next_held..].
    + intros Hh. left. destruct outcome; [done|by eapply close_next_books..].
  - assert (gate_held t = in_shutdown t) as Hg by (unfold gate_held; by rewrite Hp).
    injection H as <- <-. apply (early_move w); try done; [by constructor; auto|by rewrite Hp|by rewrite Hg|by left].
  - assert (gate_held t = in_shutdown t) as Hg by (unfold gate_held; by rewrite Hp).
    injection H as <- <-. apply (early_move w); try done; [by constructor; auto|by rewrite Hp|rewrite Hg; apply close_next_held|].
    intros Hh. left. by eapply close_next_books.
  - destruct (gate w) eqn:Eg; [done|]. injection H as <- <-. apply (thread_books_step w _ i t); try done; auto.
    + intros Ha _ Ho. by apply (b_free _ Hb).
    + apply (b_closed _ Hb).
  - injection H as <- <-. apply (early_move w); try done; [by constructor; auto|by rewrite Hp|unfold gate_held; by rewrite Hp|].
    intros _. destruct (lifecycle w); [by left..|right; by eexists].
  - destruct (scopes_closed w && _); [|done]. injection H as <- <-.
    apply (early_move w); try done; [by constructor; auto|by rewrite Hp|unfold gate_held; by rewrite Hp|by left].
  - assert (gate_held t = true) as Hg by (unfold gate_held; by rewrite Hp).
    injection H as <- <-. apply (thread_books_step w _ i t); try done; auto.
    + cbn. intros Ha Hn. pose proof (i_gate _ Hi _ _ Ht Hg). congruence.
    + intros Ha _ Ho. pose proof (b_held _ Hb Ha _ _ Ht Hg Ho) as Hbt. rewrite early_spec in Hbt by (by rewrite Hp).
      destruct Hbt as [Er Ea]. unfold thread_books. cbn. by rewrite Hf, Er.
    + intros Ha r Hc. exfalso. eapply (i_open _ Hi _ _ Ht); [|exact Hc]. by apply (working_pc t P_Plugins).
Qed.

(** The steps of one drain *)
Definition stage_books (stage : Stage) (w : World) (t : Thread) : Prop :=
  match stage with
  | First => pushed w = failures t ++ reported w ∧ answers w = ([], plugin_failures t)
  | Last => ∃ t1 t2, failures t = t1 ++ (answers w).1 ++ t2 ∧ pushed w = t1 ++ t2 ++ reported w
      ∧ (answers w).2 = plugin_failures t
  end.
Definition at_stage (p : Pc) : option Stage :=
  match p with
  | P_Join s | P_Pop s | P_Await s _ | P_Leave s | P_Take s => Some s
  | P_Recovery => Some First | P_Locks => Some Last
  | _ => None
  end.
Lemma stage_spec w t stage : at_stage (pc t) = Some stage → thread_books w t ↔ stage_books stage w t.
Proof.
  unfold thread_books. destruct (pc t); simpl; try done; intros [= <-]; try (destruct stage0); try done.
  all: split; [intros (t1 & t2 & ? & ? & ? & _)|intros (t1 & t2 & ? & ? & ?)]; exists t1, t2; by split_and!.
Qed.
Lemma stage_held t stage : at_stage (pc t) = Some stage → gate_held t = true.
Proof. unfold gate_held. by destruct (pc t). Qed.
Lemma stage_working t stage : at_stage (pc t) = Some stage → working t.
Proof. intros H. split; [by eapply stage_held|]. by destruct (pc t). Qed.

Lemma stage_step w w' i t t' stage stage' :
  inv w → books w → threads w !! i = Some t → at_stage (pc t) = Some stage → at_stage (pc t') = Some stage' →
  threads w' = threads w → abandoned w' = abandoned w → detached w' = detached w →
  lifecycle w' = lifecycle w → gate w' = gate w → (stage_books stage w t → stage_books stage' w' t') →
  books (set_thread i t' w').
Proof.
  intros Hi Hb Ht Hs Hs' E1 E2 E3 E4 E5 Hstep. pose proof (stage_held _ _ Hs) as Hg.
  assert (open w) as Ho by (eapply working_open; [done..|by eapply stage_working]).
  apply (thread_books_step w _ i t); try done; try congruence; [by destruct (pc t')|auto|..].
  - intros _ Hn. pose proof (i_gate _ Hi _ _ Ht Hg). congruence.
  - intros Ha _ _. apply (stage_spec _ _ stage'); [done|]. apply Hstep.
    apply (stage_spec _ _ stage); [done|]. by eapply b_held.
Qed.
Lemma stage_books_push stage w t f : stage_books stage w t → stage_books stage (push f w) t.
Proof.
  destruct stage; cbn.
  - intros [-> ->]. by rewrite app_assoc.
  - intros (t1 & t2 & -> & -> & <-). exists t1, t2. by rewrite <- !app_assoc.
Qed.

Lemma late_books w i t a t' w' stage :
  inv w → books w → threads w !! i = Some t → at_stage (pc t) = Some stage → run_step w i t a = Some (t', w') →
  books (set_thread i t' w').
Proof.
  intros Hi Hb Ht Hs H. unfold run_step, close_step, drain_step, shutdown_step, flush_step in H.
  assert (open w) as Ho by (eapply working_open; [done..|by eapply stage_working]).
  pose proof (stage_held _ _ Hs) as Hg.
  destruct (pc t) as [| | | | | | | | |s|s|s id|s|s| | | | | | | | |] eqn:Hp; try done; cbn in Hs; injection Hs as Hs; subst stage; destruct a as [|e|r|acc]; try done.
  - destruct (join w); [done|]. injection H as <- <-. apply (stage_step w _ i t _ s s); try done; by rewrite Hp.
  - destruct (handles w); injection H as <- <-; (apply (stage_step w _ i t _ s s); try done; by rewrite Hp).
  - apply bind_Some in H as (u & _ & H). destruct (phase u) as [| | |lost]; try done. injection H as <- <-.
    destruct lost; apply (stage_step w _ i t _ s s); try done; try (by rewrite Hp).
    apply (stage_books_push s w t).
  - injection H as <- <-. apply (stage_step w _ i t _ s s); try done; by rewrite Hp.
  - injection H as <- <-. destruct s.
    + apply (stage_step w _ i t _ First First); try done; [by rewrite Hp|]. cbn. intros [-> ->]. by rewrite app_nil_r.
    + apply (thread_books_step w _ i t); try done; auto.
      * intros _ Hn. cbn in Hn. pose proof (i_gate _ Hi _ _ Ht Hg). congruence.
      * intros Ha _ _. pose proof (b_held _ Hb Ha _ _ Ht Hg Ho) as Hbt. apply (stage_spec _ _ Last) in Hbt; [|by rewrite Hp].
        destruct Hbt as (t1 & t2 & E1 & E2 & E3). exists t1, (t2 ++ reported w). cbn. rewrite E1, E2, app_nil_r, <- !app_assoc. done.
      * intros _ r Hc. by destruct (Ho r).
  - injection H as <- <-. apply (stage_step w _ i t _ First Last); try done; [by rewrite Hp|]. cbn.
    intros [-> ->]. exists (failures t), []. cbn. by rewrite !app_nil_r.
  - injection H as <- <-. destruct acc as [[|]|]; apply (stage_step w _ i t _ Last Last); try done; try (by rewrite Hp).
    apply (stage_books_push Last w t).
Qed.
Lemma last_books w i t a t' w' :
  inv w → books w → threads w !! i = Some t →
  pc t = P_Publish ∨ (∃ r, pc t = P_Unlock r) ∨ (∃ n, pc t = F_Collect n ∨ ∃ l, pc t = F_Wait n l) →
  run_step w i t a = Some (t', w') → books (set_thread i t' w').
Proof.
  intros Hi Hb Ht Hpc H. unfold run_step, close_step, drain_step, shutdown_step, flush_step in H.
  destruct Hpc as [Hp|[[r Hp]|[n [Hp|[l Hp]]]]]; rewrite Hp in H; destruct a; try done.
  - assert (gate_held t = true) as Hg by (unfold gate_held; by rewrite Hp).
    assert (open w) as Ho by (eapply working_open; [done..|by apply (working_pc t P_Publish)]).
    injection H as <- <-. apply (thread_books_step w _ i t); try done; auto.
    + intros _ Hn. cbn in Hn. pose proof (i_gate _ Hi _ _ Ht Hg). congruence.
    + cbn. intros Ha r [= <-]. pose proof (b_held _ Hb Ha _ _ Ht Hg Ho) as Hbt. unfold thread_books in Hbt. rewrite Hp in Hbt.
      destruct Hbt as (t1 & t2 & E1 & E2 & E3 & E4). exists t1, t2. rewrite E4 in E2 by done. cbn.
      rewrite E1, E3, <- !app_assoc. split; [done|]. by rewrite E2, app_nil_r.
  - pose proof (i_reached _ Hi _ _ Ht) as Hre. unfold reached in Hre. rewrite Hp in Hre.
    injection H as <- <-. apply (thread_books_step w _ i t); try done; [left; unfold gate_held; by rewrite Hp|..].
    + intros _ _ Ho. by destruct (Ho r).
    + apply (b_closed _ Hb).
  - injection H as <- <-. apply (move_books w _ i t); try done; try (by constructor; auto); cbn;
      unfold gate_held, thread_books; cbn; by destruct (pending w).
  - destruct l as [|id l]; [|destruct (finished_at w id); [|done]]; injection H as <- <-;
      apply (move_books w _ i t); try done; by constructor; auto.
Qed.
Lemma run_books w i t a t' w' :
  inv w → books w → threads w !! i = Some t → run_step w i t a = Some (t', w') → books (set_thread i t' w').
Proof.
  intros Hi Hb Ht H. destruct (is_early (pc t)) eqn:He; [by eapply early_books|].
  destruct (at_stage (pc t)) as [stage|] eqn:Hs; [by eapply late_books|].
  eapply last_books; [done..| |done]. destruct (pc t) eqn:Hp; try done; eauto 7.
  all: unfold run_step, close_step, drain_step, shutdown_step, flush_step in H; rewrite Hp in H; by destruct a.
Qed.
Lemma drop_books w w' i t : inv w → books w → threads w !! i = Some t → drop_step w t = Some w' →
  books (set_thread i (t <| pc := Dropped |>) w').
Proof.
  intros Hi Hb Ht H. unfold drop_step in H.
  destruct (pc t) eqn:Hp; try done; injection H as <-.
  all: try solve [apply (move_books w _ i t); try done; by constructor; auto].
  all: constructor; cbn; try done; try (apply (b_detached _ Hb)).
  all: intros j u [(-> & <- & _)|[Hne Hu]]%list_lookup_insert_Some; [done|by eapply b_early].
Qed.
Lemma step_books w l w' : inv w → books w → step w l = Some w' → books w'.
Proof.
  intros Hi Hb H. destruct l as [shutdown| |i a|i| | |by_ kind c|by_|id r|id|id|id]; cbn [step] in H;
    try by eapply task_step_books.
  - injection H as <-. constructor; cbn; try apply Hb.
    + intros j u [Hu|[-> ->]]%appended_lookup; [by eapply b_early|done].
    + intros Ha j u [Hu|[-> ->]]%appended_lookup; [by apply (b_held _ Hb Ha j)|by destruct shutdown].
  - injection H as <-. constructor; cbn; try apply Hb.
    + intros j u [Hu|[-> ->]]%appended_lookup; [by eapply b_early|done].
    + intros Ha j u [Hu|[-> ->]]%appended_lookup; [by apply (b_held _ Hb Ha j)|done].
  - apply bind_Some in H as (t & Ht & H). apply bind_Some in H as ([t' w1] & Hr & H). injection H as <-. by eapply run_books.
  - apply bind_Some in H as (t & Ht & H). apply bind_Some in H as (w1 & Hr & H). injection H as <-. by eapply drop_books.
  - destruct (scopes_closed w); [done|]. injection H as <-. constructor; apply Hb.
  - destruct (active w); [done|]. injection H as <-. constructor; apply Hb.
  - destruct (may_create w by_); [|done]. injection H as <-. by apply supervise_books.
  - destruct (may_create w by_) eqn:Hm; [|done]. injection H as <-. by eapply push_books.
Qed.
Lemma initial_books : books initial.
Proof. by constructor. Qed.
End LifecycleBooks.

Module LifecycleTheorems.
Import Lifecycle LifecycleInv LifecycleBooks.

(** *** Plugins are stopped once *)
Definition is_teardown (p : Pc) : bool :=
  match p with C_Scopes Started | C_StopRecovery | C_StopPlugins => true | _ => false end.
Record stops_once (w : World) : Prop := mkStops {
  o_running : lifecycle w = Running → teardowns w = 0%nat ∧ closer w = None;
  o_once : (teardowns w ≤ 1)%nat;
  o_closer : ∀ i t, threads w !! i = Some t → is_teardown (pc t) = true → closer w = Some i ∧ teardowns w = 0%nat }.

Lemma stops_same w w' : lifecycle w' = lifecycle w → teardowns w' = teardowns w → closer w' = closer w →
  threads w' = threads w → stops_once w → stops_once w'.
Proof. intros E1 E2 E3 E4 []. constructor; rewrite ?E1, ?E2, ?E3, ?E4; auto. Qed.
Lemma stops_thread w w' i t' :
  stops_once w → threads w' = threads w → teardowns w' = teardowns w → closer w' = closer w →
  (lifecycle w' = Running → lifecycle w = Running) →
  (is_teardown (pc t') = true → closer w = Some i ∧ teardowns w = 0%nat) → stops_once (set_thread i t' w').
Proof.
  intros [H1 H2 H3] E1 E2 E3 Hl Ht. constructor; cbn; rewrite ?E1, ?E2, ?E3; auto.
  intros j u [(-> & <- & _)|[_ Hu]]%list_lookup_insert_Some; eauto.
Qed.
Lemma close_next_teardown o t : is_teardown (pc (t <| pc := close_next o t |>)) = true → False.
Proof. unfold close_next. cbn. by destruct (in_shutdown t). Qed.

Lemma stops_run w i t a t' w' :
  stops_once w → threads w !! i = Some t → run_step w i t a = Some (t', w') → stops_once (set_thread i t' w').
Proof.
  intros Hs Ht H. pose proof (o_closer _ Hs _ _ Ht) as Hc. unfold run_step, close_step, drain_step, shutdown_step, flush_step in H. destruct (pc t) eqn:Hp; destruct a; try done.
  - destruct (lifecycle w) eqn:El; injection H as <- <-; [|by apply (stops_thread w)..].
    destruct (o_running _ Hs El) as [E1 E2]. constructor; cbn; [done|lia|].
    intros j u [(-> & <- & _)|[Hne Hu]]%list_lookup_insert_Some Htd; [done|].
    destruct (o_closer _ Hs _ _ Hu Htd). congruence.
  - injection H as <- <-. apply (stops_thread w); try done. destruct outcome; [done|by intros ?%close_next_teardown..].
  - injection H as <- <-. by apply (stops_thread w).
  - injection H as <- <-. destruct (Hc eq_refl) as [E1 E2]. constructor; cbn; [|lia|].
    + intros El. destruct (o_running _ Hs El). congruence.
    + intros j u [(-> & <- & _)|[Hne Hu]]%list_lookup_insert_Some Htd; [by apply close_next_teardown in Htd|].
      destruct (o_closer _ Hs _ _ Hu Htd). congruence.
  - destruct (gate w); [done|]. injection H as <- <-. by apply (stops_thread w).
  - injection H as <- <-. apply (stops_thread w); try done. by destruct (lifecycle w).
  - destruct (scopes_closed w && _); [|done]. injection H as <- <-. by apply (stops_thread w).
  - injection H as <- <-. by apply (stops_thread w).
  - destruct (join w); [done|]. injection H as <- <-. by apply (stops_thread w).
  - destruct (handles w); injection H as <- <-; by apply (stops_thread w).
  - apply bind_Some in H as (u & _ & H). destruct (phase u) as [| | |lost]; try done. injection H as <- <-.
    destruct lost; by apply (stops_thread w).
  - injection H as <- <-. by apply (stops_thread w).
  - injection H as <- <-. apply (stops_thread w); try done. by destruct stage.
  - injection H as <- <-. by apply (stops_thread w).
  - injection H as <- <-. destruct accepted as [[|]|]; by apply (stops_thread w).
  - injection H as <- <-. by apply (stops_thread w).
  - injection H as <- <-. by apply (stops_thread w).
  - injection H as <- <-. apply (stops_thread w); try done. by destruct (pending w).
  - destruct pending0 as [|id l]; [|destruct (finished_at w id); [|done]]; injection H as <- <-; by apply (stops_thread w).
Qed.
Lemma stops_step w l w' : stops_once w → step w l = Some w' → stops_once w'.
Proof.
  intros Hs H. destruct l as [shutdown| |i a|i| | |by_ kind c|by_|id r|id|id|id]; cbn [step] in H;
    try (destruct (task_step_same _ _ _ H); by apply (stops_same w)).
  - injection H as <-. constructor; cbn; try apply Hs.
    intros j u [Hu|[-> ->]]%appended_lookup; [by apply (o_closer _ Hs j)|by destruct shutdown].
  - injection H as <-. constructor; cbn; try apply Hs.
    intros j u [Hu|[-> ->]]%appended_lookup; [by apply (o_closer _ Hs j)|done].
  - apply bind_Some in H as (t & Ht & H). apply bind_Some in H as ([t' w1] & Hr & H). injection H as <-. by eapply stops_run.
  - apply bind_Some in H as (t & Ht & H). apply bind_Some in H as (w1 & Hr & H). injection H as <-. unfold drop_step in Hr.
    destruct (pc t); try done; injection Hr as <-; by apply (stops_thread w).
  - destruct (scopes_closed w); [done|]. injection H as <-. constructor; apply Hs.
  - destruct (active w); [done|]. injection H as <-. constructor; apply Hs.
  - destruct (may_create w by_); [|done]. injection H as <-. constructor; apply Hs.
  - destruct (may_create w by_) eqn:Hm; [|done]. injection H as <-. constructor; apply Hs.
Qed.

(** *** What tasks told, and what was flushed *)
Definition kind_of (t : TrackedTask) : ShutdownTask := task t.
Definition fault_of (id : nat) (t : TrackedTask) : ShutdownFailure := SF_BackgroundTask (task t) id.
(** Tasks keep their kind and what they are done with; what a drain took and what
    was reported stays. *)
Record later (w w' : World) : Prop := mkLater {
  t_task : ∀ id t, tasks w !! id = Some t → ∃ t', tasks w' !! id = Some t' ∧ task t' = task t
             ∧ (is_finished t = true → is_finished t' = true);
  t_back : ∀ id t', tasks w' !! id = Some t' → sent t' = Some TaskPanicked →
             fault_of id t' ∈ pushed w' ∨ ∃ t, tasks w !! id = Some t ∧ task t = task t' ∧ sent t = sent t';
  t_taken : ∀ id, id ∈ taken w → id ∈ taken w';
  t_pushed : ∀ f, f ∈ pushed w → f ∈ pushed w' }.
Lemma later_here w w' : tasks w' = tasks w → (∀ id, id ∈ taken w → id ∈ taken w') →
  (∀ f, f ∈ pushed w → f ∈ pushed w') → later w w'.
Proof. intros E Ht Hp. constructor; auto; rewrite E; eauto. Qed.
Lemma later_supervise w kind c : later w (supervise w kind c).
Proof.
  constructor; auto; rewrite supervise_tasks.
  - intros id t Ht. exists t. split; [by apply lookup_app_l_Some|done].
  - intros id t' [?|[-> ->]]%appended_lookup; [eauto|done].
Qed.
Lemma later_task w l w' : task_step w l = Some w' → later w w'.
Proof.
  intros H. pose proof (task_step_same _ _ _ H) as Hs. destruct (task_step_noted _ _ _ H) as (k & Ep & _).
  assert (∀ f, f ∈ pushed w → f ∈ pushed w') as Hp by (intros f ?; rewrite Ep; apply elem_of_app; by left).
  destruct (task_step_tasks _ _ _ H) as (_ & id & t & t' & Ht & _ & E & Hk & Hf & Hsnt).
  constructor; [..|by rewrite (s_taken _ _ Hs)|done]; rewrite E.
  - intros j u Hu. destruct (decide (j = id)) as [->|Hne].
    + exists t'. rewrite list_lookup_insert_eq by (by eapply lookup_lt_Some). rewrite Ht in Hu. by injection Hu as <-.
    + exists u. by rewrite list_lookup_insert_ne.
  - intros j u Hu Hsent. destruct (decide (j = id)) as [->|Hne]; [|rewrite list_lookup_insert_ne in Hu by done; eauto].
    rewrite list_lookup_insert_eq in Hu by (by eapply lookup_lt_Some). injection Hu as <-. unfold fault_of. rewrite Hk.
    destruct Hsnt as [?|[?|?]]; [right; by exists t|done|by left].
Qed.
Lemma later_run w i t a t' w' : run_step w i t a = Some (t', w') → later w (set_thread i t' w').
Proof.
  intros H. unfold run_step, close_step, drain_step, shutdown_step, flush_step in H.
  destruct (pc t) eqn:Hp; destruct a; try done; try (injection H as <- <-; by apply later_here).
  - destruct (begin_close (lifecycle w)). injection H as <- <-. by apply later_here.
  - destruct (gate w); [done|]. injection H as <- <-. by apply later_here.
  - destruct (scopes_closed w && _); [|done]. injection H as <- <-. by apply later_here.
  - destruct (join w); [done|]. injection H as <- <-. by apply later_here.
  - destruct (handles w); injection H as <- <-; apply later_here; try done; cbn. set_solver.
  - apply bind_Some in H as (u & _ & H). destruct (phase u) as [| | |lost]; try done. injection H as <- <-.
    destruct lost; apply later_here; try done; cbn. set_solver.
  - injection H as <- <-. destruct accepted as [[|]|]; [|apply later_here; try done; cbn; set_solver|by apply later_here].
    destruct (later_supervise w TaskMemoryLocker true). by constructor.
  - destruct pending0 as [|id l]; [|destruct (finished_at w id); [|done]]; injection H as <- <-; by apply later_here.
Qed.
Lemma recorded_step w l w' : step w l = Some w' → later w w'.
Proof.
  intros H. destruct l as [shutdown| |i a|i| | |by_ kind c|by_|id r|id|id|id]; cbn [step] in H; try by eapply later_task.
  - injection H as <-. by apply later_here.
  - injection H as <-. by apply later_here.
  - apply bind_Some in H as (t & Ht & H). apply bind_Some in H as ([t' w1] & Hr & H). injection H as <-. by eapply later_run.
  - apply bind_Some in H as (t & Ht & H). apply bind_Some in H as (w1 & Hr & H). injection H as <-. unfold drop_step in Hr.
    destruct (pc t); try done; injection Hr as <-; by apply later_here.
  - destruct (scopes_closed w); [done|]. injection H as <-. by apply later_here.
  - destruct (active w); [done|]. injection H as <-. by apply later_here.
  - destruct (may_create w by_); [|done]. injection H as <-. apply later_supervise.
  - destruct (may_create w by_) eqn:Hm; [|done]. injection H as <-. apply later_here; try done. cbn. set_solver.
Qed.

(** A flush that is done: the tasks there were are over, or a drain took them. *)
Definition flushed (w : World) (count : nat) : Prop :=
  (count ≤ length (tasks w))%nat ∧ ∀ id t, (id < count)%nat → tasks w !! id = Some t → is_flushed (task t) = true →
    is_finished t = true ∨ id ∈ taken w.
Record told (w : World) : Prop := mkTold {
  d_panics : ∀ id t, tasks w !! id = Some t → sent t = Some TaskPanicked → fault_of id t ∈ pushed w;
  d_counts : ∀ i t n, threads w !! i = Some t → pc t = F_Collect n ∨ (∃ l, pc t = F_Wait n l) → (n ≤ length (tasks w))%nat;
  d_flushed : ∀ i t n, threads w !! i = Some t → pc t = F_Done n → flushed w n }.
Lemma later_length w w' : later w w' → (length (tasks w) ≤ length (tasks w'))%nat.
Proof.
  intros Hl. destruct (decide (length (tasks w) ≤ length (tasks w'))%nat) as [|Hn]; [done|].
  destruct (lookup_lt_is_Some_2 (tasks w) (length (tasks w'))) as [t Ht]; [lia|].
  destruct (t_task _ _ Hl _ _ Ht) as (t' & Ht' & _). apply lookup_lt_Some in Ht'. lia.
Qed.
Lemma flushed_later w w' n : later w w' → flushed w n → flushed w' n.
Proof.
  intros Hl [Hn Hf]. pose proof (later_length _ _ Hl). split; [lia|]. intros id t' Hid Ht' Hk.
  destruct (lookup_lt_is_Some_2 (tasks w) id) as [t Ht]; [lia|].
  destruct (t_task _ _ Hl _ _ Ht) as (u & Hu & Hku & Hfu). rewrite Ht' in Hu. injection Hu as <-.
  destruct (Hf id t Hid Ht) as [?|?]; [congruence|left; auto|right; by apply (t_taken _ _ Hl)].
Qed.
Lemma told_later w w' : later w w' → told w →
  (∀ i t n, threads w' !! i = Some t → pc t = F_Collect n ∨ (∃ l, pc t = F_Wait n l) →
     (n ≤ length (tasks w'))%nat ∨ ∃ t0, threads w !! i = Some t0 ∧ (pc t0 = F_Collect n ∨ ∃ l, pc t0 = F_Wait n l)) →
  (∀ i t n, threads w' !! i = Some t → pc t = F_Done n → flushed w n ∨ ∃ t0, threads w !! i = Some t0 ∧ pc t0 = F_Done n) →
  told w'.
Proof.
  intros Hl [H1 H2 H3] Hc Hd. pose proof (later_length _ _ Hl). constructor.
  - intros id t' Ht' Hs. destruct (t_back _ _ Hl _ _ Ht' Hs) as [?|(t & Ht & Ek & Es)]; [done|].
    unfold fault_of. rewrite <- Ek. apply (t_pushed _ _ Hl). apply (H1 id t); [done|congruence].
  - intros i t n Ht Hp. destruct (Hc _ _ _ Ht Hp) as [?|(t0 & Ht0 & Hp0)]; [done|]. specialize (H2 _ _ _ Ht0 Hp0). lia.
  - intros i t n Ht Hp. apply (flushed_later w); [done|]. destruct (Hd _ _ _ Ht Hp) as [?|(t0 & Ht0 & Hp0)]; [done|eauto].
Qed.
Lemma pending_none w count : inv w → pending w = [] → (count ≤ length (tasks w))%nat → flushed w count.
Proof.
  intros Hi Hp Hn. split; [done|]. intros id t _ Ht Hk. destruct (is_finished t) eqn:Hf; [by left|right].
  assert (is_joined t = false) as Hj by (revert Hf; unfold is_finished, is_joined; by destruct (phase t)).
  destruct (i_tracked _ Hi _ _ Ht Hj) as [Hin|?]; [exfalso|done].
  assert (id ∈ pending w) as Hpe; [|rewrite Hp in Hpe; by apply elem_of_nil in Hpe].
  unfold pending. apply list_elem_of_filter. split; [|done]. by rewrite Ht, Hk, Hf.
Qed.
Definition in_flush (t : Thread) (n : nat) : Prop := pc t = F_Collect n ∨ ∃ l, pc t = F_Wait n l.
(** Only a flush reaches the states of a flush. *)
Lemma flush_run w i t a t' w' n : run_step w i t a = Some (t', w') →
  (in_flush t' n → in_flush t n) ∧ (pc t' = F_Done n → pc t = F_Collect n ∧ pending w = []).
Proof.
  unfold in_flush. intros H. unfold run_step, close_step, drain_step, shutdown_step, flush_step in H.
  assert (∀ o, (pc (t <| pc := close_next o t |>) = F_Collect n ∨ ∃ l, pc (t <| pc := close_next o t |>) = F_Wait n l) ∨
    pc (t <| pc := close_next o t |>) = F_Done n → False) as Hclose.
  { intros o. unfold close_next. cbn. destruct (in_shutdown t); intros [[?|[??]]|?]; done. }
  destruct (pc t) eqn:Hp; destruct a; try done;
    try (injection H as <- <-; split; [intros [?|[? ?]]; done|done]).
  - destruct (begin_close (lifecycle w)). injection H as <- <-. split; [intros [?|[? ?]]; done|done].
  - injection H as <- <-. destruct outcome; (split; [intros Hx; exfalso|intros Hx; exfalso]); try (by destruct Hx as [?|[??]]); try done;
      eapply Hclose; eauto.
  - injection H as <- <-. split; intros Hx; exfalso; eapply Hclose; eauto.
  - destruct (gate w); [done|]. injection H as <- <-. split; [intros [?|[? ?]]; done|done].
  - injection H as <- <-. destruct (lifecycle w); (split; [intros [?|[? ?]]; done|done]).
  - destruct (scopes_closed w && _); [|done]. injection H as <- <-. split; [intros [?|[? ?]]; done|done].
  - destruct (join w); [done|]. injection H as <- <-. split; [intros [?|[? ?]]; done|done].
  - destruct (handles w); injection H as <- <-; (split; [intros [?|[? ?]]; done|done]).
  - apply bind_Some in H as (u & _ & H). destruct (phase u); try done. injection H as <- <-.
    split; [intros [?|[? ?]]; done|done].
  - injection H as <- <-. destruct stage; (split; [intros [?|[? ?]]; done|done]).
  - injection H as <- <-. cbn. destruct (pending w); (split; [intros [?|[? ?]]; simplify_eq/=; auto|intros; simplify_eq/=; auto]).
  - destruct pending0 as [|id l]; [|destruct (finished_at w id); [|done]]; injection H as <- <-;
      (split; [intros [?|[? ?]]; simplify_eq/=; eauto|done]).
Qed.
Lemma run_threads w i t a t' w' : run_step w i t a = Some (t', w') → threads w' = threads w.
Proof.
  intros H. unfold run_step, close_step, drain_step, shutdown_step, flush_step in H. destruct (pc t); destruct a; try done; repeat case_match; simplify_eq/=; try done.
  apply bind_Some in H as (u & _ & H). repeat case_match; by simplify_eq/=.
Qed.
Lemma told_step w l w' : inv w → told w → step w l = Some w' → told w'.
Proof.
  intros Hi Hd H. pose proof (recorded_step _ _ _ H) as Hl.
  assert (threads w' = threads w → told w') as Hsame by (intros E; apply (told_later w); [done..| |]; rewrite E; eauto).
  destruct l as [shutdown| |i a|i| | |by_ kind c|by_|id r|id|id|id]; cbn [step] in H;
    try (apply Hsame; by eapply s_threads, task_step_same).
  - injection H as <-. apply (told_later w); [done..| |].
    + intros j u n [Hu|[-> ->]]%appended_lookup Hp; [right; eauto|destruct shutdown, Hp as [?|[??]]; done].
    + intros j u n [Hu|[-> ->]]%appended_lookup Hp; [right; eauto|by destruct shutdown].
  - injection H as <-. apply (told_later w); [done..| |].
    + intros j u n [Hu|[-> ->]]%appended_lookup Hp; [right; eauto|left]. cbn in *. destruct Hp as [[= <-]|[? ?]]; done.
    + intros j u n [Hu|[-> ->]]%appended_lookup Hp; [right; eauto|done].
  - apply bind_Some in H as (t & Ht & H). apply bind_Some in H as ([t' w1] & Hr & H). injection H as <-.
    assert (threads w1 = threads w) as E by (apply run_threads in Hr; done).
    apply (told_later w); [done..| |]; intros j u n; cbn; rewrite E;
      intros [(-> & <- & _)|[_ Hu]]%list_lookup_insert_Some Hp; try (right; by eauto).
    + right. exists t. split; [done|]. by apply (flush_run _ _ _ _ _ _ n Hr).
    + left. destruct (flush_run _ _ _ _ _ _ n Hr) as [_ Hf]. destruct (Hf Hp) as [Hc Hpe].
      apply pending_none; [done..|]. eapply (d_counts _ Hd); [done|by left].
  - apply bind_Some in H as (t & Ht & H). apply bind_Some in H as (w1 & Hr & H). injection H as <-.
    assert (threads w1 = threads w) as E by (unfold drop_step in Hr; destruct (pc t); try done; by injection Hr as <-).
    apply (told_later w); [done..| |]; intros j u n; cbn; rewrite E;
      intros [(-> & <- & _)|[_ Hu]]%list_lookup_insert_Some Hp; try (right; by eauto); by destruct Hp as [?|[??]].
  - destruct (scopes_closed w); [done|]. injection H as <-. by apply Hsame.
  - destruct (active w); [done|]. injection H as <-. by apply Hsame.
  - destruct (may_create w by_); [|done]. injection H as <-. by apply Hsame.
  - destruct (may_create w by_); [|done]. injection H as <-. by apply Hsame.
Qed.

(** *** The theorems *)
Lemma lifecycle_execute l w : execute initial l = Some w → inv w ∧ books w ∧ stops_once w ∧ told w.
Proof.
  intros H. apply (execute_invariant (λ w, books w ∧ stops_once w ∧ told w) l) with initial; [|apply initial_inv| |done].
  - intros w1 x w2 Hi (Hb & Hs & Hd) Hx. split_and!; [by eapply step_books|by eapply stops_step|by eapply told_step].
  - split_and!; [apply initial_books|constructor; [done|cbn; lia|done]|by constructor].
Qed.

(** C18: A shutdown waits for everything the cache owns. In every interleaving of
    closers, shutdowns, operations and supervised tasks, once a shutdown has
    returned, its report is the one of the closed life cycle, which every other
    or later shutdown also returns; no operation is admitted or running, the
    plugins and the recovery queue are over, and [close] stopped the plugins at
    most once; and every supervised task has been joined, unless the future of a
    shutdown was dropped while it was awaiting one. *)
Theorem shutdown_waits_for_everything l w i t r :
  execute initial l = Some w → threads w !! i = Some t → pc t = P_Done r →
  lifecycle w = Closed r ∧ scopes_closed w = true ∧ active w = 0%nat ∧
  plugins_over w = true ∧ recovery_over w = true ∧ (teardowns w ≤ 1)%nat ∧
  (detached w = false → ∀ id task, tasks w !! id = Some task → is_joined task = true).
Proof.
  intros (Hi & _ & Hs & _)%lifecycle_execute Ht Hp. pose proof (i_reached _ Hi _ _ Ht) as Hre. unfold reached in Hre.
  rewrite Hp in Hre. destruct (i_closed _ Hi _ Hre) as ([? ?] & ? & ? & Hj). split_and!; try done. apply Hs.
Qed.

(** C35: No failure is lost and none is reported twice. Unless the future of a
    shutdown was dropped, the report of a closed cache lists exactly what the
    tasks reported, in their order, with the answer of the recovery queue in
    between and those of the plugins last, and is a success when there is none;
    every task whose work panicked is in it. *)
Theorem shutdown_reports_every_failure l w r :
  execute initial l = Some w → lifecycle w = Closed r → abandoned w = false →
  ∃ before after, pushed w = before ++ after ∧
    r = report_of (before ++ (answers w).1 ++ after ++ (SF_Plugin <$> (answers w).2)) ∧
    ∀ id t, tasks w !! id = Some t → sent t = Some TaskPanicked →
      ∃ failures, r = Err failures ∧ SF_BackgroundTask (task t) id ∈ failures.
Proof.
  intros (_ & Hb & _ & Hd)%lifecycle_execute Hc Ha. destruct (b_closed _ Hb Ha r Hc) as (t1 & t2 & -> & Hp).
  exists t1, t2. split_and!; [done..|]. intros id t Ht Hs. pose proof (d_panics _ Hd _ _ Ht Hs) as Hin.
  rewrite Hp in Hin. assert (fault_of id t ∈ t1 ++ (answers w).1 ++ t2 ++ (SF_Plugin <$> (answers w).2)) as Hin'.
  { revert Hin. rewrite !elem_of_app. naive_solver. }
  destruct (t1 ++ _) as [|f k] eqn:E; [by apply elem_of_nil in Hin'|]. by exists (f :: k).
Qed.

(** A flush waits for the origins, the distributed operations and the cleanups
    there were when it was called, but for those a drain is joining. *)
Theorem flush_waits l w i t count :
  execute initial l = Some w → threads w !! i = Some t → pc t = F_Done count →
  ∀ id task, (id < count)%nat → tasks w !! id = Some task → is_flushed (kind_of task) = true →
    is_finished task = true ∨ id ∈ taken w.
Proof.
  intros (_ & _ & _ & Hd)%lifecycle_execute Ht Hp id u Hid. by eapply (d_flushed _ Hd).
Qed.

(** A started callback is joined before [wait_blocking] returns, and its result is
    only replaced by a cancellation when it was aborted before it ran. *)
Lemma blocking_work_is_joined :
  wp (any (ans := blocking_answer) (λ _, true)) wait_blocking [] (λ r h,
    (∃ reason, h = [Ev W_LaunchOrCancel (inl reason)] ∧ r = Ok (Err (CE_OperationCancelled reason))) ∨
    (∃ e, h = [Ev W_LaunchOrCancel (inr (Err e))] ∧ r = Ok (Err e)) ∨
    (∃ h', h = Ev W_ResultOrCancel (inl r) :: h') ∨
    (∃ reason joined h', h = Ev W_Join joined :: Ev W_Abort tt :: Ev W_ResultOrCancel (inr reason) :: h' ∧
       r = match joined with Err true => Ok (Err (CE_OperationCancelled reason)) | _ => joined end)).
Proof.
  intros [reason|[launched|e]] h ->; cbn; [left; by eexists| |right; left; by eexists].
  intros [r|reason] h ->; cbn; [right; right; left; by eexists|].
  intros [] h -> joined h' ->; cbn. right. right. right. by eexists _, _, _.
Qed.

(** *** Runs *)
Definition go (i n : nat) : list Label := replicate n (Run i A_None).
(** A shutdown with one supervised task; [during] happens while it is awaited. *)
Definition until_await (i : nat) : list Label := go i 6 ++ [Leave] ++ go i 1 ++ [Run i (A_Plugins [3%nat])] ++ go i 2.
Definition after_take (i : nat) : list Label := [Run i (A_Recovery (Ok tt)); Run i (A_Locker None)] ++ go i 6.
Definition panicking : list Label :=
  [Enter; Spawn ByOperation TaskDistributed false; Call_ true] ++ until_await 0
  ++ [Settle 0 TaskPanicked; Report 0; Join_ 0] ++ go 0 4 ++ after_take 0.
Definition summary (w : World) := (lifecycle w, pc <$> threads w, phase <$> tasks w, (detached w, abandoned w)).
Example panicking_run :
  summary <$> execute initial panicking =
    Some (Closed (Err [SF_BackgroundTask TaskDistributed 0; SF_Plugin 3]),
          [P_Done (Err [SF_BackgroundTask TaskDistributed 0; SF_Plugin 3])], [Joined false], (false, false)).
Proof. vm_compute. done. Qed.
(** The future of a shutdown is dropped while it awaits a task, say by a timeout:
    the next one returns a success while that task still runs. *)
Definition timed_out : list Label :=
  [Enter; Spawn ByOperation TaskDistributed false; Call_ true] ++ until_await 0 ++ [Drop_ 0; Call_ true]
  ++ go 1 5 ++ [Run 1 (A_Plugins [])] ++ go 1 4 ++ after_take 1.
Example dropped_shutdown_detaches :
  summary <$> execute initial timed_out = Some (Closed (Ok tt), [Dropped; P_Done (Ok tt)], [Working], (true, true)).
Proof. vm_compute. done. Qed.

Lemma shutdown_waits_for_everything_witness : ∃ w,
  execute initial panicking = Some w ∧ detached w = false ∧
  ∀ id task, tasks w !! id = Some task → is_joined task = true.
Proof.
  destruct (execute initial panicking) as [w|] eqn:E; [|vm_compute in E; discriminate E].
  pose proof panicking_run as R. rewrite E in R. injection R as R1 R2 R3 R4 R5.
  exists w. split; [reflexivity|]. split; [exact R4|].
  destruct (threads w) as [|t l] eqn:Et; [discriminate R2|]. injection R2 as Rp _.
  destruct (shutdown_waits_for_everything panicking w 0 t (Err [SF_BackgroundTask TaskDistributed 0; SF_Plugin 3]) E) as (_ & _ & _ & _ & _ & _ & H);
    [rewrite Et; reflexivity|exact Rp|]. apply H. exact R4.
Defined.
Lemma shutdown_reports_every_failure_witness : ∃ w before after,
  execute initial panicking = Some w ∧ pushed w = before ++ after ∧
  Err [SF_BackgroundTask TaskDistributed 0; SF_Plugin 3] =
    report_of (before ++ (answers w).1 ++ after ++ (SF_Plugin <$> (answers w).2)).
Proof.
  destruct (execute initial panicking) as [w|] eqn:E; [|vm_compute in E; discriminate E].
  pose proof panicking_run as R. rewrite E in R. injection R as R1 R2 R3 R4 R5.
  destruct (shutdown_reports_every_failure panicking w _ E R1 R5) as (t1 & t2 & H1 & H2 & _).
  exists w, t1, t2. split; [reflexivity|]. split; [exact H1|exact H2].
Defined.
End LifecycleTheorems.
