(* ===== verification/Inline.v ===== *)
(** * Inline operations of a memory-only cache

    Models [src/src/cache/inline_cold.rs], the assignment of
    [src/src/cache/memory_inline.rs] and [ValueCopy] of
    [src/src/serializers/value_copy.rs]: what a cache without a distributed store
    does on its caller's stack. An assignment prepares its entry through the plan
    of the default options and commits it under borrowed admission. A miss of
    get-or-set claims the key's flight; its leader polls the factory at once, and
    only a factory that suspends is registered as owned work. Flights themselves
    are [Flight.v]'s, the store is [Sharded.v]'s. *)
From S2P Require Import Supplied.
From S2P Require Import Prelude Time Calls Circuit Options Entry Tags Backplane Cancellation Factory.
From S2P Require Import Invalidation Storage Lanes Wire Lease Recovery Worker Read Write Commit Origin Guards Builder.
Open Scope prog_scope.

(** ** Data *)
Section data.
Context {V : Type}.
Inductive MemoryRead := MR_Fresh (v : V) | MR_Origin (stale : option (StaleInfo V)).
(** What a flight delivers; [T] is what its work returns. *)
Inductive Completion (T : Type) :=
| CM_Owned (r : result CacheError T) | CM_Shared (r : result CacheError T) | CM_Panicked | CM_FollowerPanicked.
End data.
Arguments MemoryRead : clear implicits.
Arguments CM_Owned {T}.
Arguments CM_Shared {T}.
Arguments CM_Panicked {T}.
Arguments CM_FollowerPanicked {T}.

Section inline.
Context {V : Type} (inner : Inner).
Local Abbreviation prog := (prog (answer (V := V))).
Local Abbreviation action A := (prog (result CacheError A)).
Local Abbreviation ask c := (call (ans := answer (V := V)) c).
Local Abbreviation Entry := (Entry V).
Local Abbreviation Value := (Observed (CacheValue (V := V))).

(** ** Values *)

(** A [ValueCopy] is the flag of its route; [validated] checks the options first. *)
Definition value_copy (strategy : bool) (v : V) : action V :=
  if strategy then let* copied := ask (C_CloneValue v) in from CE_Clone copied else ok v.
Definition validated_value_copy (opts : EntryOptions) : action bool :=
  let? _ := validate_options inner opts in ok (EntryOptions.enable_auto_clone opts).

(** ** The origin of a standalone miss *)
Definition inline_memory_read (key : string) (kind : OriginKind) : prog (option (MemoryRead V)) :=
  let* now := ask C_Now in
  let* found := ask (C_WithReady key now) in
  let* read :=
    match found with
    | None => Ret None
    | Some (e, freshness) =>
        let* verdict := evaluate_tags inner e in
        let stale := mkStale (Entry.value e) (etag (Entry.meta e)) (last_modified (Entry.meta e)) (tags (Entry.meta e)) in
        Ret (Some (negb (is_fresh freshness),
          match verdict with
          | Valid => if is_fresh freshness then MR_Fresh (Entry.value e)
                     else MR_Origin (match kind with OK_Factory => Some stale | OK_Constant => None end)
          | Expire => MR_Origin (match kind with OK_Factory => Some stale | OK_Constant => None end)
          | Remove => MR_Origin None
          end))
    end in
  emit_layer (match read with Some (stale, _) => LE_MemoryHit key stale | None => LE_MemoryMiss key end) ;;;
  Ret (snd <$> read).

Definition inline_hit (key : string) (v : V) : prog Value :=
  emit (EV_Hit key false) ;;; Ret (mkObserved (unchanged v) OO_Hit (Some CL_Memory)).

(** The factory's failures of its own are reported; a cancellation is not. *)
Definition invoke_inline (kind : OriginKind) (key : string) (ctx : FactoryContext V) : action (FactoryPayload V) :=
  let* product := ask (C_Invoke kind ctx) in
  let? product :=
    match map_err from_factory_error product with
    | Err ((CE_Factory | CE_FactoryWithSource) as e) => emit (EV_FactoryError key) ;;; raise e
    | product => Ret product
    end in
  from CE_Tag (into_payload product).

(** The payload, its copy for the caller, and the entry to store. *)
Definition prepare_product (kind : OriginKind) (key : string) (ctx : FactoryContext V) (started : Timestamp)
    : action (FactoryPayload V * V * Entry * Timestamp) :=
  let? product := invoke_inline kind key ctx in
  let? _ := check in
  let? strategy := validated_value_copy (payload_options product) in
  let? value := value_copy strategy (payload_value product) in
  let? stored := value_copy strategy (payload_value product) in
  let* now := ask C_Now in
  let? jitter := jitter_sample inner (payload_options product) in
  let? _ := check in
  let* p := ask C_Alloc in
  let? e := from from_entry_error
              (Entry.try_fresh_with_jitter p stored (payload_options product) started now jitter
                 (payload_tags product) (payload_etag product) (payload_last_modified product)) in
  ok (product, value, e, now).

(** The commit, conditional on the version captured under the lock, which is
    released before any callback runs. *)
Definition commit_inline (key : string) (opts : EntryOptions) (e : Entry) (now : Timestamp) (version : nat)
    (release : prog unit) : prog LocalEffect :=
  if EntryOptions.skip_memory_write opts then
    let* current := ask (C_SkipOrigin key version) in
    release ;;;
    Ret (if current then LE_Skipped else LE_Stored (MA_Rejected VersionChanged))
  else
    let* admission := ask (C_ApplyOrigin key e now version) in
    release ;;; Ret (LE_Stored admission).

Definition is_version_changed (local : LocalEffect) : bool :=
  match local with LE_Stored (MA_Rejected VersionChanged) => true | _ => false end.

(** Under the lock: the memory store once more, then the factory. *)
Definition inline_owned (raw key : string) (kind : OriginKind) (opts : EntryOptions) (tags : list Tag)
    (stale : option (StaleInfo V)) (version : nat) (release : prog unit) : action Value :=
  let* second := inline_memory_read key kind in
  match second with
  | Some (MR_Fresh v) => release ;;; let? _ := check in let* hit := inline_hit key v in ok hit
  | _ =>
      let stale := match second with Some (MR_Origin (Some s)) => Some s | _ => stale end in
      let* started := ask C_Now in
      let ctx := FactoryContext.with_cancellation raw key opts tags stale in
      or_release release (let? _ := check in prepare_product kind key ctx started) (λ '(product, value, e, now),
      let* local := commit_inline key (payload_options product) e now version release in
      let? _ := check in
      (if is_version_changed local then Ret tt else emit (EV_Set key)) ;;;
      match kind with OK_Factory => emit (EV_FactorySuccess key) | OK_Constant => Ret tt end ;;;
      let? _ := check in
      ok (mkObserved (mkCacheValue value (Some (inline_receipt local))) OO_Stored
            match kind with OK_Factory => Some CL_Origin | OK_Constant => None end))
  end.

Definition inline_origin (raw key : string) (kind : OriginKind) (opts : EntryOptions) (tags : list Tag) : action Value :=
  let? _ := check in
  let* first := inline_memory_read key kind in
  match first with
  | Some (MR_Fresh v) => let? _ := check in let* hit := inline_hit key v in ok hit
  | _ =>
      let stale := match first with Some (MR_Origin stale) => stale | _ => None end in
      let? owned := ask (C_AcquireLocal key Infinite) in
      let release := if owned then release_local (Held key) else Ret tt in
      or_release release (let? version := ask (C_CaptureMemory key) in let? _ := check in ok version) (λ version,
      inline_owned raw key kind opts tags stale version release)
  end.

(** A shared result is copied for each of its observers; the receipt of the
    commit is the leader's alone. *)
Definition leader_commit (commit : option (MutationReceipt (V := V))) : action (option (MutationReceipt (V := V))) :=
  match commit with
  | None => ok None
  | Some (Completed report) => ok (Some (inline_receipt (local_effect report)))
  | Some (Scheduled _) => raise CE_Panic
  end.
Definition complete_inline_value (completion : Completion Value) (leader : bool) (opts : EntryOptions) : action Value :=
  match completion with
  | CM_Owned r => Ret r
  | CM_Shared (Ok observed) =>
      let? value := copy inner (cached_value (observed_value observed)) opts in
      let? commit := if leader then leader_commit (cached_commit (observed_value observed)) else ok None in
      ok (mkObserved (mkCacheValue value commit) (observed_outcome observed) (observed_level observed))
  | CM_Shared (Err e) => raise e
  | CM_Panicked => raise CE_Panic
  | CM_FollowerPanicked => raise CE_FactoryPanicked
  end.
End inline.

(** ** Starting a standalone origin *)
Section cold.
Context {V : Type} (inner : Inner).
Local Abbreviation Value := (Observed (CacheValue (V := V))).

Inductive ColdCall :=
| D_Worker (c : Call V)
(* the flight: its table, its link to the caller's token, its terminal state *)
| D_Claim (key : string) | D_LinkWork | D_Suspends | D_FlightReason | D_Followers | D_TryComplete
| D_RegisterPending | D_SpawnDriver
(* the caller's token and the scopes; the runtime *)
| D_TokenReason | D_Closed | D_CanExecute.
Definition danswer (c : ColdCall) : Type :=
  match c with
  | D_Worker c => answer c
  | D_Claim _ | D_Suspends | D_Followers | D_Closed | D_CanExecute => bool
  | D_FlightReason | D_TokenReason => option CancellationReason
  | D_TryComplete => option (Completion Value)
  | D_LinkWork | D_RegisterPending | D_SpawnDriver => unit
  end.
Local Abbreviation prog := (prog danswer).
Local Abbreviation action A := (prog (result CacheError A)).
Local Abbreviation ask c := (call (ans := danswer) c).

(** [WK_Pending]: the rest of the work, suspended. *)
Inductive Polled := WK_Done (r : result CacheError Value) | WK_Pending (rest : Calls.prog (answer (V := V)) (result CacheError Value)).
Fixpoint lift {A} (p : Calls.prog (answer (V := V)) A) : prog A :=
  match p with Ret a => Ret a | Act c k => Act (D_Worker c) (λ x, lift (k x)) end.
(** What the origin waits for: its lock, and what any origin's work does. *)
Definition waits (c : Call V) : bool := awaits c || match c with C_AcquireLocal _ _ => true | _ => false end.
Fixpoint poll_inline (p : Calls.prog (answer (V := V)) (result CacheError Value)) : prog Polled :=
  match p with
  | Ret r => Ret (WK_Done r)
  | Act c k =>
      let* suspended := if waits c then ask D_Suspends else Ret false in
      if suspended : bool then Ret (WK_Pending p) else Act (D_Worker c) (λ x, poll_inline (k x))
  end.
(** A cancelled flight ends with its reason, whatever its work returned; a result
    with several observers is shared. *)
Definition terminal (r : result CacheError Value) : prog (Completion Value) :=
  let* reason := ask D_FlightReason in
  match reason with
  | Some reason => Ret (CM_Owned (Err (CE_OperationCancelled reason)))
  | None => let* shared := ask D_Followers in Ret (if shared then CM_Shared r else CM_Owned r)
  end.
Definition lead (token : bool) (work : Calls.prog (answer (V := V)) (result CacheError Value))
    : prog (Completion Value + Calls.prog (answer (V := V)) (result CacheError Value)) :=
  (if token then ask D_LinkWork else Ret tt) ;;;
  let* polled := poll_inline work in
  match polled with
  | WK_Done r => let* completion := terminal r in Ret (inl completion)
  | WK_Pending rest =>
      let* reason := ask D_FlightReason in
      match reason with
      | Some reason =>
          lift (call C_DropWork) ;;; Ret (inl (CM_Owned (Err (CE_OperationCancelled reason))))
      | None => Ret (inr rest)
      end
  end.
Definition cold_status (token : bool) : action unit :=
  let* reason := if token then ask D_TokenReason else Ret None in
  match reason with
  | Some reason => raise (CE_OperationCancelled reason)
  | None => let* closed := ask D_Closed in if closed then raise (CE_OperationCancelled CacheShutdown) else ok tt
  end.
(** [CS_Pending]: the owned observer; a leader leaves the suspended work. *)
Inductive ColdStart := CS_Ready (r : result CacheError (CacheValue (V := V)))
| CS_Pending (rest : option (Calls.prog (answer (V := V)) (result CacheError Value))).

Definition finish_cold (token leader : bool) (opts : EntryOptions) (completion : Completion Value) : prog ColdStart :=
  let* result := lift (complete_inline_value inner completion leader opts) in
  let* live := cold_status token in
  Ret (CS_Ready match live, result with
                | Err e, _ => Err e
                | Ok _, Ok observed => Ok (observed_value observed)
                | Ok _, Err e => Err e
                end).
Definition prepare_inline_cold (raw key : string) (kind : OriginKind) (opts : EntryOptions) (tags : list Tag) (token : bool)
    : prog ColdStart :=
  let* leader := ask (D_Claim key) in
  lift (emit (EV_Miss key)) ;;;
  if leader : bool then
    let* polled := lead token (inline_origin inner raw key kind opts tags) in
    match polled with
    | inl completion => finish_cold token true opts completion
    | inr rest =>
        ask D_RegisterPending ;;;
        let* runs := ask D_CanExecute in
        (if runs : bool then ask D_SpawnDriver else Ret tt) ;;;
        Ret (CS_Pending (Some rest))
    end
  else
    let* completion := ask D_TryComplete in
    match completion with
    | Some completion => finish_cold token false opts completion
    | None => Ret (CS_Pending None)
    end.
End cold.
Arguments ColdCall : clear implicits.

(** ** Assignments *)
Section set.
Context {V : Type} (r : Built).
Local Abbreviation prog := (prog (answer (V := V))).
Local Abbreviation action A := (prog (result CacheError A)).
Local Abbreviation ask c := (call (ans := answer (V := V)) c).
Local Abbreviation ci := (built_inner r).

(** [Ok None]: the default options, with the copy and the plan chosen for them. *)
Definition select_options (raw : string) (options : option EntryOptions) : action (option EntryOptions * bool) :=
  let* resolved :=
    match options with
    | Some options => Ret (Some options)
    | None => if built_options_provider r then ask (C_OptionsFor raw) else Ret None
    end in
  match resolved with
  | Some opts => let? strategy := validated_value_copy ci opts in ok (Some opts, strategy)
  | None =>
      let? _ := validate_runtime (RuntimeRequirement.requires_runtime (default_runtime ci)) in
      ok (None, built_copies r)
  end.
Definition insert_value (key : string) (opts : EntryOptions) (e : FreshValue V) (now : Timestamp) : action LocalEffect :=
  if EntryOptions.skip_memory_write opts then ask (C_InvalidateOrigin key) ;;; ok LE_Skipped
  else let* admission := ask (C_InsertValue key e now) in ok (LE_Stored admission).
Definition insert_inline (key : string) (resolved : option EntryOptions) (stored : V) (tags : list Tag)
    (jitter : JitterSample) (now : Timestamp) : action LocalEffect :=
  let opts := default (default_options ci) resolved in
  match resolved, built_fresh_plan r with
  | None, Plain plan =>
      if bool_decide (tags = []) && negb (EntryOptions.skip_memory_write opts) then
        let* admission := ask (C_InsertPlain key stored (PlainPlan.metadata plan now)) in ok (LE_Stored admission)
      else insert_value key opts (PlainPlan.prepare plan stored now tags) now
  | None, Prepared plan => insert_value key opts (FreshPlan.prepare plan stored now tags) now
  | _, _ =>
      let? e := from from_entry_error (Entry.prepare_fresh_with_jitter stored opts now now jitter tags None None) in
      insert_value key opts e now
  end.
Definition inline_set_value (raw key : string) (value : V) (options : option EntryOptions) (tags : result TagError (list Tag))
    : action LocalEffect :=
  let* closed := ask C_Closed in
  if closed : bool then raise CE_CacheClosed
  else
    let? _ := check in
    let? tags := from CE_Tag tags in
    let? selected := select_options raw options in
    let '(resolved, strategy) := selected in
    let? _ := check in
    let? stored := value_copy strategy value in
    let? jitter := jitter_sample ci (default (default_options ci) resolved) in
    let* now := ask C_Now in
    let? _ := check in
    let? local := insert_inline key resolved stored tags jitter now in
    emit (EV_Set key) ;;;
    let? _ := check in
    ok local.
Definition inline_set (raw : string) (value : V) (options : option EntryOptions) (tags : result TagError (list Tag))
    : action LocalEffect :=
  inline_set_value raw (full_key ci raw) value options tags.
End set.

(** ** What an inline origin answers *)
Module InlineTheory.
Section facts.
Context {V : Type} (ci : Inner).
Implicit Types (l : history V) (e : Entry V).

Lemma traced_only {A} (P : Call V → Prop) (p : prog (answer (V := V)) A) :
  only P p → traced p (λ _ l, Forall (λ ev, P (ev_call ev)) l).
Proof.
  intros Hp h. eapply wp_mono; [eapply wp_only; [exact Hp|apply (traced_any p)]|].
  intros a h' (l & -> & Hl & _). eauto.
Qed.

(** [e] was read from the store, which found it so fresh, and judged so. *)
Definition ready l (key : string) e (freshness : Freshness) (verdict : TagVerdict) : Prop :=
  ∃ now, Ev (C_WithReady key now) (Some (e, freshness)) ∈ l ∧ judged ci l e verdict.
Definition stale_of e : StaleInfo V :=
  mkStale (Entry.value e) (etag (Entry.meta e)) (last_modified (Entry.meta e)) (tags (Entry.meta e)).
(** A stale value an origin is given: what memory still had, and may not serve. *)
Definition stale_found l (key : string) (kind : OriginKind) (s : StaleInfo V) : Prop :=
  kind = OK_Factory ∧ ∃ e freshness verdict, ready l key e freshness verdict ∧ s = stale_of e ∧
    (verdict = Valid ∧ freshness = Stale ∨ verdict = Expire).
Definition memory_answer l (key : string) (kind : OriginKind) (read : option (MemoryRead V)) : Prop :=
  match read with
  | Some (MR_Fresh v) => ∃ e, ready l key e Fresh Valid ∧ v = Entry.value e
  | Some (MR_Origin (Some s)) => stale_found l key kind s
  | _ => True
  end.

Lemma ready_incl l l' key e f v : l ⊆ l' → ready l key e f v → ready l' key e f v.
Proof. intros Hl (now & ? & ?). exists now. split; [by apply Hl|]. by eapply judged_incl. Qed.
Lemma stale_found_incl l l' key kind s : l ⊆ l' → stale_found l key kind s → stale_found l' key kind s.
Proof. intros Hl [? (e & f & v & ? & ?)]. split; [done|]. exists e, f, v. split; [by eapply ready_incl|done]. Qed.
Lemma memory_answer_incl l l' key kind read : l ⊆ l' → memory_answer l key kind read → memory_answer l' key kind read.
Proof.
  intros Hl. destruct read as [[v|[s|]]|]; cbn; [|by apply stale_found_incl|done..].
  intros (e & ? & ?). exists e. split; [by eapply ready_incl|done].
Qed.

Lemma traced_inline_memory_read key kind :
  traced (inline_memory_read ci key kind) (λ read l, memory_answer l key kind read).
Proof.
  unfold inline_memory_read. eapply traced_bind; [apply traced_any|]. intros now l0 _.
  eapply traced_bind; [by apply (traced_call (C_WithReady key now))|]. intros found l1 ->.
  eapply (traced_bind _ _ (λ read l, memory_answer (l ++ [Ev (C_WithReady key now) found]) key kind (snd <$> read))).
  - destruct found as [[e f]|]; [|by apply traced_ret].
    eapply traced_bind; [intros h; apply wp_evaluate_tags|]. intros verdict l Hj. apply traced_ret.
    assert (∀ f', f = f' → ready (l ++ [Ev (C_WithReady key now) (Some (e, f))]) key e f' verdict) as Hr.
    { intros ? <-. exists now. split; [recorded|]. eapply judged_incl, Hj. intros. recorded. }
    cbn [fmap option_fmap option_map snd memory_answer]. cbn [app].
    destruct verdict, f, kind; cbn [is_fresh negb];
      try done; try (exists e; split; [by apply Hr|done]);
      (split; [done|]; exists e; do 2 eexists; split; [by apply Hr|split; [done|]]; by auto).
  - intros read l Hr. eapply traced_bind; [apply traced_any|]. intros [] l2 _. apply traced_ret.
    eapply memory_answer_incl; [|exact Hr]. set_solver.
Qed.

(** *** The answers *)
Definition hit_value (v : V) : Observed (CacheValue (V := V)) := mkObserved (unchanged v) OO_Hit (Some CL_Memory).
(** Accesses that run no origin and write nothing. *)
Definition passive (c : Call V) : bool :=
  match c with
  | C_Invoke _ _ | C_InvokeLeased _ _ _ => false
  | c => negb (bool_decide (kind c = K_MemoryWrite))
  end.
Definition served_inline l (key : string) (o : Observed (CacheValue (V := V))) : Prop :=
  (∃ e, ready l key e Fresh Valid ∧ o = hit_value (Entry.value e)) ∧ Forall (λ ev, passive (ev_call ev)) l.
(** The commit of a product: against the version, of an entry made of a copy. *)
Definition committed l (key : string) (payload : FactoryPayload V) (version : nat) (local : LocalEffect) : Prop :=
  if EntryOptions.skip_memory_write (payload_options payload) then
    ∃ current : bool, Ev (C_SkipOrigin key version) current ∈ l
      ∧ local = if current then LE_Skipped else LE_Stored (MA_Rejected VersionChanged)
  else
    ∃ e stored started now jitter p admission,
      Ev (C_ApplyOrigin key e now version) admission ∈ l ∧ local = LE_Stored admission
      ∧ copied l (payload_options payload) (payload_value payload) stored
      ∧ Entry.try_fresh_with_jitter p stored (payload_options payload) started now jitter
          (payload_tags payload) (payload_etag payload) (payload_last_modified payload) = Ok e.
(** The product of an origin run in this very request, copied for the caller. *)
Definition product_of l (kind : OriginKind) (ctx : FactoryContext V) (payload : FactoryPayload V) (v : V) : Prop :=
  ∃ product, Ev (C_Invoke kind ctx) (Ok product) ∈ l ∧ into_payload product = Ok payload
    ∧ copied l (payload_options payload) (payload_value payload) v.
(** No guard was released. *)
Definition unreleased l : Prop := Forall (λ ev, is_release (ev_call ev) = false) l.
(** [l'] is what was done under the key's lock: between the capture of [version],
    right after the locker answered ([owned]: with a guard), and the commit,
    after which the guard is released. No guard was released meanwhile. *)
Definition under_lock l (key : string) (owned : bool) (version : nat) l' : Prop :=
  ∃ post before, l = post ++ l' ++ Ev (C_CaptureMemory key) (Ok version) :: Ev (C_AcquireLocal key Infinite) (Ok owned) :: before
    ∧ unreleased l' ∧ (owned = true → Ev (C_ReleaseLocal key) tt ∈ post).
Definition stored_inline l (raw key : string) (kind : OriginKind) (opts : EntryOptions) (tags : list Tag)
    (o : Observed (CacheValue (V := V))) : Prop :=
  ∃ stale payload owned version local v l',
    under_lock l key owned version l'
    ∧ (∀ s, stale = Some s → stale_found l key kind s)
    ∧ product_of l' kind (FactoryContext.with_cancellation raw key opts tags stale) payload v
    ∧ committed l' key payload version local
    ∧ o = mkObserved (mkCacheValue v (Some (inline_receipt local))) OO_Stored
            match kind with OK_Factory => Some CL_Origin | OK_Constant => None end.

Lemma unreleased_app l l' : unreleased l → unreleased l' → unreleased (l ++ l').
Proof. apply Forall_app_2. Qed.
Lemma traced_unreleased {A} ks (p : prog (answer (V := V)) A) :
  touches ks p → K_Release ∉ ks → traced p (λ _ l, unreleased l).
Proof.
  intros Hp Hr. eapply traced_mono; [by apply traced_touches|]. intros a l Hl. eapply Forall_impl; [exact Hl|].
  intros [c x] Hk. cbn [ev_call] in *. destruct c; try done; cbn in Hk; contradiction.
Qed.

Lemma committed_grows l l' key payload version local :
  l ⊆ l' → committed l key payload version local → committed l' key payload version local.
Proof.
  intros Hl. unfold committed. destruct (EntryOptions.skip_memory_write _).
  - intros (c & ? & ?). exists c. split; [by apply Hl|done].
  - intros (e & st & s0 & n & j & p & a & ? & ? & ? & ?). exists e, st, s0, n, j, p, a.
    split_and!; [by apply Hl|done|by eapply copied_incl|done].
Qed.
Lemma product_of_incl l l' kind ctx payload v : l ⊆ l' → product_of l kind ctx payload v → product_of l' kind ctx payload v.
Proof. intros Hl (p & ? & ? & ?). exists p. split_and!; [by apply Hl|done|by eapply copied_incl]. Qed.

Lemma traced_value_copy opts v :
  traced (value_copy (EntryOptions.enable_auto_clone opts) v) (λ r l, ∀ v', r = Ok v' → copied l opts v v').
Proof.
  unfold value_copy. destruct (EntryOptions.enable_auto_clone opts) eqn:Ha.
  - eapply traced_bind; [by apply (traced_call (C_CloneValue v))|]. intros [v'|e] l ->; apply traced_ret; [|done].
    intros ? [= <-]. right. recorded.
  - apply traced_ret. intros ? [= <-]. by left.
Qed.
Lemma traced_validated_copy opts :
  traced (validated_value_copy (V := V) ci opts) (λ r _, ∀ s, r = Ok s → s = EntryOptions.enable_auto_clone opts).
Proof.
  unfold validated_value_copy. eapply traced_attempt; [apply traced_any|done|]. intros [] l _.
  apply traced_ret. by intros ? [= <-].
Qed.

Definition prepared l (kind : OriginKind) (ctx : FactoryContext V) (started : Timestamp)
    (r : FactoryPayload V * V * Entry V * Timestamp) : Prop :=
  let '(payload, v, e, now) := r in
  product_of l kind ctx payload v ∧ ∃ stored jitter p,
    copied l (payload_options payload) (payload_value payload) stored
    ∧ Entry.try_fresh_with_jitter p stored (payload_options payload) started now jitter
        (payload_tags payload) (payload_etag payload) (payload_last_modified payload) = Ok e.

Lemma traced_invoke_inline kind key ctx :
  traced (invoke_inline (V := V) kind key ctx) (λ r l, ∀ payload, r = Ok payload →
    ∃ product, Ev (C_Invoke kind ctx) (Ok product) ∈ l ∧ into_payload product = Ok payload).
Proof.
  unfold invoke_inline. eapply traced_bind; [by apply (traced_call (C_Invoke kind ctx))|]. intros product l ->.
  eapply (traced_attempt _ _ (λ r _, ∀ p, r = Ok p → product = Ok p)).
  - destruct product as [p|[]]; cbn [map_err from_factory_error];
      try (eapply traced_bind; [apply traced_any|]; intros ???); apply traced_ret; by intros ? [= <-].
  - done.
  - intros p l1 Hp. specialize (Hp p eq_refl) as ->. unfold from. apply traced_ret.
    intros payload Hpay. exists p. split; [recorded|]. by destruct (into_payload p); simplify_eq/=.
Qed.

Lemma traced_prepare_product kind key ctx started :
  traced (prepare_product ci kind key ctx started) (λ r l, ∀ x, r = Ok x → prepared l kind ctx started x).
Proof.
  unfold prepare_product. eapply traced_attempt; [apply traced_invoke_inline|done|]. intros payload l0 Hp.
  destruct (Hp _ eq_refl) as (product & Hin & Hpay).
  eapply traced_attempt; [apply traced_any|done|]. intros [] l1 _.
  eapply traced_attempt; [apply traced_validated_copy|done|]. intros strategy l2 Hs. specialize (Hs _ eq_refl) as ->.
  eapply traced_attempt; [apply traced_value_copy|done|]. intros v l3 Hv.
  eapply traced_attempt; [apply traced_value_copy|done|]. intros stored l4 Hst.
  eapply traced_bind; [apply traced_any|]. intros now l5 _.
  eapply traced_attempt; [apply traced_any|done|]. intros jitter l6 _.
  eapply traced_attempt; [apply traced_any|done|]. intros [] l7 _.
  eapply traced_bind; [apply traced_any|]. intros p l8 _.
  unfold from. destruct (Entry.try_fresh_with_jitter _ _ _ _ _ _ _ _ _) as [e|] eqn:He; [|by apply traced_ret].
  apply traced_ret. intros ? [= <-]. split.
  - exists product. split; [recorded|]. split; [done|]. eapply copied_incl; [|by apply Hv]. set_solver.
  - exists stored, jitter, p. split; [|done]. eapply copied_incl; [|by apply Hst]. set_solver.
Qed.

Lemma traced_commit_inline key opts e now version (release : prog (answer (V := V)) unit) (freed : history V → Prop) :
  traced release (λ _ l, freed l) →
  traced (commit_inline key opts e now version release) (λ local l, ∃ post during, l = post ++ during ∧ freed post ∧
    unreleased during ∧
    if EntryOptions.skip_memory_write opts then
      ∃ current : bool, Ev (C_SkipOrigin key version) current ∈ during
        ∧ local = if current then LE_Skipped else LE_Stored (MA_Rejected VersionChanged)
    else ∃ admission, Ev (C_ApplyOrigin key e now version) admission ∈ during ∧ local = LE_Stored admission).
Proof.
  intros Hfree. unfold commit_inline. destruct (EntryOptions.skip_memory_write opts).
  - eapply traced_bind; [by apply (traced_call (C_SkipOrigin key version))|]. intros current l ->.
    eapply traced_bind; [exact Hfree|]. intros [] l1 Hl1. apply traced_ret. exists l1, [Ev (C_SkipOrigin key version) current].
    split_and!; [done..|by repeat constructor|]. exists current. split; [recorded|done].
  - eapply traced_bind; [by apply (traced_call (C_ApplyOrigin key e now version))|]. intros a l ->.
    eapply traced_bind; [exact Hfree|]. intros [] l1 Hl1. apply traced_ret. exists l1, [Ev (C_ApplyOrigin key e now version) a].
    split_and!; [done..|by repeat constructor|]. exists a. split; [recorded|done].
Qed.

Definition calm l : Prop := Forall (λ ev, passive (ev_call ev)) l.
Lemma traced_calm {A} ks (p : prog (answer (V := V)) A) :
  touches ks p → K_Origin ∉ ks → K_MemoryWrite ∉ ks → traced p (λ _ l, calm l).
Proof.
  intros Hp Ho Hw. eapply traced_mono; [by apply traced_touches|]. intros a l Hl. eapply Forall_impl; [exact Hl|].
  intros [c x] Hk. cbn [ev_call] in *. destruct c; try done; cbn in Hk; contradiction.
Qed.
Lemma calm_app l l' : calm l → calm l' → calm (l ++ l').
Proof. apply Forall_app_2. Qed.
Lemma touches_inline_memory_read key kind :
  touches (V := V) [K_Time; K_MemoryRead; K_Marker; K_Observer] (inline_memory_read ci key kind).
Proof. unfold inline_memory_read. footprint. Qed.
Lemma calm_memory_read key kind :
  traced (inline_memory_read ci key kind) (λ read l, memory_answer l key kind read ∧ calm l).
Proof.
  apply traced_and; [apply traced_inline_memory_read|].
  eapply traced_calm; [apply touches_inline_memory_read|no_kind_in..].
Qed.
Lemma calm_hit key v :
  traced (let? _ := check in let* hit := inline_hit key v in ok hit) (λ r l, (∀ o, r = Ok o → o = hit_value v) ∧ calm l).
Proof.
  eapply traced_attempt; [by apply (traced_calm [K_Time]); [apply touches_check|no_kind_in..]|by intros|].
  intros [] l Hl. unfold inline_hit. eapply (traced_bind _ _ (λ hit l', hit = hit_value v ∧ calm l')).
  - eapply traced_bind; [by apply (traced_calm [K_Observer]); [apply touches_emit|no_kind_in..]|]. intros [] l1 Hl1.
    by apply traced_ret.
  - intros hit l1 [-> Hl1]. apply traced_ret. split; [by intros ? [= <-]|]. by apply calm_app.
Qed.
Lemma released_calm (release : prog (answer (V := V)) unit) : touches [K_Release] release → traced release (λ _ l, calm l).
Proof. intros H. eapply traced_calm; [exact H|no_kind_in..]. Qed.

Lemma prepared_incl l l' kind ctx started x : l ⊆ l' → prepared l kind ctx started x → prepared l' kind ctx started x.
Proof.
  intros Hl. destruct x as [[[payload v] e] now]. intros [Hp (st & j & p & Hc & He)].
  split; [by eapply product_of_incl|]. exists st, j, p. split; [by eapply copied_incl|done].
Qed.

Section owned.
Context (raw key : string) (kind : OriginKind) (opts : EntryOptions) (tags : list Tag).

(** The answer under ownership: [l] is recorded since the capture, [past] before;
    [owned] tells whether the locker gave a guard. *)
Definition owned_answer (owned : bool) l past (version : nat) (o : Observed (CacheValue (V := V))) : Prop :=
  ((∃ e, ready l key e Fresh Valid ∧ o = hit_value (Entry.value e)) ∧ calm l) ∨
  ∃ stale payload local v post during,
    l = post ++ during ∧ unreleased during ∧ (owned = true → Ev (C_ReleaseLocal key) tt ∈ post)
    ∧ (∀ s, stale = Some s → stale_found (l ++ past) key kind s)
    ∧ product_of during kind (FactoryContext.with_cancellation raw key opts tags stale) payload v
    ∧ committed during key payload version local
    ∧ o = mkObserved (mkCacheValue v (Some (inline_receipt local))) OO_Stored
            match kind with OK_Factory => Some CL_Origin | OK_Constant => None end.

Context (owned : bool) (release : prog (answer (V := V)) unit) (Hrel : touches [K_Release] release).
Context (Hfree : traced release (λ _ l, owned = true → Ev (C_ReleaseLocal key) tt ∈ l)).

Lemma unreleased_prepare ctx started :
  traced (let? _ := check in prepare_product ci kind key ctx started) (λ _ l, unreleased l).
Proof.
  apply (traced_unreleased [K_Time; K_Origin; K_Options; K_Observer]); [|no_kind_in].
  unfold prepare_product, invoke_inline, validated_value_copy, value_copy, jitter_sample. footprint.
Qed.
Lemma traced_produced stale version started l past :
  unreleased l → (∀ s, stale = Some s → stale_found (l ++ past) key kind s) →
  traced (or_release release (let? _ := check in prepare_product ci kind key
        (FactoryContext.with_cancellation raw key opts tags stale) started) (λ '(product, value, e, now),
      let* local := commit_inline key (payload_options product) e now version release in
      let? _ := check in
      (if is_version_changed local then Ret tt else emit (EV_Set key)) ;;;
      match kind with OK_Factory => emit (EV_FactorySuccess key) | OK_Constant => Ret tt end ;;;
      let? _ := check in
      ok (mkObserved (mkCacheValue value (Some (inline_receipt local))) OO_Stored
            match kind with OK_Factory => Some CL_Origin | OK_Constant => None end)))
    (λ r l', ∀ o, r = Ok o → owned_answer owned (l' ++ l) past version o).
Proof.
  intros Hl Hs. eapply traced_or_release; [exact Hrel| |done|].
  { apply traced_and; [|apply unreleased_prepare].
    eapply (traced_attempt _ _ _ (λ r l, ∀ x, r = Ok x → prepared l kind _ started x)); [apply traced_any|done|].
    intros [] l0 _. eapply traced_mono; [apply traced_prepare_product|]. intros r l1 Hp x Hx.
    eapply prepared_incl; [|by apply Hp]. set_solver. }
  intros [[[payload v] e] now] l0 [Hp Hl0]. destruct (Hp _ eq_refl) as [Hprod (stored & jitter & p & Hst & He)].
  eapply traced_bind; [apply (traced_commit_inline _ _ _ _ _ _ _ Hfree)|]. intros local l1 (post & during & -> & Hpost & Hduring & Hlocal).
  eapply traced_attempt; [apply traced_any|done|]. intros [] l2 _.
  eapply traced_bind; [apply traced_any|]. intros [] l3 _. eapply traced_bind; [apply traced_any|]. intros [] l4 _.
  eapply traced_attempt; [apply traced_any|done|]. intros [] l5 _. apply traced_ret. intros o [= <-]. right.
  exists stale, payload, local, v, (l5 ++ l4 ++ l3 ++ l2 ++ post), (during ++ l0 ++ l). split_and!; [..|done].
  - cbn [app]. by rewrite <- !app_assoc.
  - by repeat apply unreleased_app.
  - intros Ho. specialize (Hpost Ho). set_solver.
  - intros s Hss. eapply stale_found_incl; [|by apply Hs]. set_solver.
  - eapply product_of_incl; [|exact Hprod]. set_solver.
  - unfold committed. destruct (EntryOptions.skip_memory_write (payload_options payload)).
    + destruct Hlocal as (c & ? & ?). exists c. split; [recorded|done].
    + destruct Hlocal as (a & ? & ?). exists e, stored, started, now, jitter, p, a.
      split_and!; [recorded|done| |done]. eapply copied_incl; [|exact Hst]. set_solver.
Qed.

Lemma traced_inline_owned stale version past :
  (∀ s, stale = Some s → stale_found past key kind s) →
  traced (inline_owned ci raw key kind opts tags stale version release)
    (λ r l, ∀ o, r = Ok o → owned_answer owned l past version o).
Proof.
  intros Hs. unfold inline_owned. eapply traced_bind.
  { apply traced_and; [apply calm_memory_read|eapply traced_unreleased; [apply touches_inline_memory_read|no_kind_in]]. }
  intros second l [[Hm Hl] Hfree'].
  destruct second as [[v|second]|].
  { destruct Hm as (e & He & ->). eapply traced_bind; [by apply released_calm|]. intros [] l1 Hl1.
    eapply traced_mono; [apply calm_hit|]. intros r l2 [Hr Hl2] o Ho. left. split; [|by repeat apply calm_app].
    exists e. split; [|by apply Hr]. eapply ready_incl; [|exact He]. set_solver. }
  all: eapply traced_bind; [apply (traced_unreleased [K_Time]); [footprint|no_kind_in]|]; intros started l1 Hl1.
  all: eapply traced_mono; [apply traced_produced with (l := l1 ++ l) (past := past); [by apply unreleased_app|]|
    intros r l2 Hr o Ho; rewrite <- app_assoc; by apply Hr].
  - intros s Hss. destruct second as [s'|].
    + injection Hss as <-. eapply stale_found_incl; [|exact Hm]. set_solver.
    + eapply stale_found_incl; [|by apply Hs]. set_solver.
  - intros s Hss. eapply stale_found_incl; [|by apply Hs]. set_solver.
Qed.
End owned.

(** *** The whole origin *)
Lemma traced_capture key :
  traced (let? version := call (ans := answer (V := V)) (C_CaptureMemory key) in let? _ := check in ok version)
    (λ r l, ∀ version, r = Ok version → calm l ∧ ∃ l', l = l' ++ [Ev (C_CaptureMemory key) (Ok version)] ∧ unreleased l').
Proof.
  eapply traced_attempt; [by apply (traced_call (C_CaptureMemory key))|by intros|]. intros version l ->.
  eapply traced_attempt.
  { apply traced_and; [apply (traced_calm [K_Time]); [apply touches_check|no_kind_in..]|
      apply (traced_unreleased [K_Time]); [apply touches_check|no_kind_in]]. }
  { by intros. }
  intros [] l [Hl Hl']. apply traced_ret. intros ? [= <-]. split; [apply calm_app; [done|by repeat constructor]|].
  by exists l.
Qed.

Definition inline_answer l (raw key : string) (kind : OriginKind) (opts : EntryOptions) (tags : list Tag)
    (o : Observed (CacheValue (V := V))) : Prop :=
  served_inline l key o ∨ stored_inline l raw key kind opts tags o.

Lemma owned_inline_answer raw key kind opts tags l lc lp owned version o :
  calm lp → calm lc → (∃ l', lc = l' ++ [Ev (C_CaptureMemory key) (Ok version)] ∧ unreleased l') →
  owned_answer raw key kind opts tags owned l (lc ++ Ev (C_AcquireLocal key Infinite) (Ok owned) :: lp) version o →
  inline_answer (l ++ lc ++ Ev (C_AcquireLocal key Infinite) (Ok owned) :: lp) raw key kind opts tags o.
Proof.
  intros Hlp Hlc (l' & -> & Hl') [[(e & He & ->) Hl]|(stale & payload & local & v & post & during & -> & Hd & Hpost & Hs & Hp & Hc & ->)];
    [left|right].
  - split; [exists e; split; [|done]; eapply ready_incl; [|exact He]; set_solver|].
    apply calm_app; [exact Hl|]. apply calm_app; [exact Hlc|]. constructor; [done|exact Hlp].
  - exists stale, payload, owned, version, local, v, (during ++ l'). split_and!; [|done| | |done].
    + exists post, lp. split_and!; [cbn; by rewrite <- !app_assoc|by apply unreleased_app|done].
    + eapply product_of_incl; [|exact Hp]. set_solver.
    + eapply committed_grows; [|exact Hc]. set_solver.
Qed.

Lemma traced_inline_origin raw key kind opts tags :
  traced (inline_origin ci raw key kind opts tags) (λ r l, ∀ o, r = Ok o → inline_answer l raw key kind opts tags o).
Proof.
  unfold inline_origin.
  eapply traced_attempt; [by apply (traced_calm [K_Time]); [apply touches_check|no_kind_in..]|done|]. intros [] l0 Hl0.
  eapply traced_bind; [apply calm_memory_read|]. intros first l1 [Hm Hl1].
  destruct first as [[v|first]|].
  { destruct Hm as (e & He & ->). eapply traced_mono; [apply calm_hit|]. intros r l2 [Hr Hl2] o Ho. left. split.
    - exists e. split; [|by apply Hr]. eapply ready_incl; [|exact He]. set_solver.
    - by repeat apply calm_app. }
  all: eapply traced_attempt; [by apply (traced_call (C_AcquireLocal key Infinite))|done|]; intros owned l2 ->.
  all: assert (touches (V := V) [K_Release] (if owned then release_local (Held key) else Ret tt)) as Hrel
    by (destruct owned; unfold release_local; footprint).
  all: assert (traced (V := V) (if owned then release_local (Held key) else Ret tt) (λ _ l, owned = true → Ev (C_ReleaseLocal key) tt ∈ l))
    as Hfree by (destruct owned; [eapply traced_mono; [by apply (traced_call (C_ReleaseLocal key))|by intros [] l -> _; left]|by apply traced_ret]).
  all: eapply traced_or_release; [exact Hrel|apply traced_capture|done|].
  all: intros version l3 Hcap; destruct (Hcap _ eq_refl) as [Hl3 Hsince].
  all: eapply traced_mono; [apply (traced_inline_owned raw key kind opts tags owned _ Hrel Hfree _ version (l3 ++ Ev (C_AcquireLocal key Infinite) (Ok owned) :: l1 ++ l0))|].
  - intros s ->. eapply stale_found_incl; [|exact Hm]. set_solver.
  - intros r l4 Hr o Ho. replace ((((l4 ++ l3) ++ [_]) ++ l1) ++ l0)
      with (l4 ++ l3 ++ Ev (C_AcquireLocal key Infinite) (Ok owned) :: l1 ++ l0) by (by rewrite <- !app_assoc).
    eapply owned_inline_answer; [by apply calm_app|exact Hl3|exact Hsince|by apply Hr].
  - done.
  - intros r l4 Hr o Ho. replace ((((l4 ++ l3) ++ [_]) ++ l1) ++ l0)
      with (l4 ++ l3 ++ Ev (C_AcquireLocal key Infinite) (Ok owned) :: l1 ++ l0) by (by rewrite <- !app_assoc).
    eapply owned_inline_answer; [by apply calm_app|exact Hl3|exact Hsince|by apply Hr].
Qed.

(** *** Ownership of an inline origin *)
Lemma neutral_check : neutral (V := V) check.
Proof. eapply neutral_touches; [apply touches_check|no_kind_in..]. Qed.
Lemma neutral_memory_read key kind : neutral (V := V) (inline_memory_read ci key kind).
Proof. eapply neutral_touches; [apply touches_inline_memory_read|no_kind_in..]. Qed.
Lemma neutral_prepare_product kind key ctx started : neutral (V := V) (prepare_product ci kind key ctx started).
Proof.
  unfold prepare_product, invoke_inline, validated_value_copy, value_copy, jitter_sample. neutral_program.
Qed.
#[local] Hint Resolve neutral_check neutral_memory_read neutral_prepare_product : guards.

Definition released {A} (r : result CacheError A) (left : list (Call V)) : Prop := left = [].
Section holding.
Context (raw key : string) (kind : OriginKind) (opts : EntryOptions) (tags : list Tag).
Context (release : prog (answer (V := V)) unit) (held : list (Call V)) (Hd : drops release held).

Lemma owns_inline_owned stale version :
  owning (V := V) always (inline_owned ci raw key kind opts tags stale version release) held released.
Proof.
  unfold inline_owned. apply owns_bind_neutral; [neutral_program|]. intros second.
  assert (∀ stale, owning (V := V) always (let* started := call (ans := answer (V := V)) C_Now in
    let ctx := FactoryContext.with_cancellation raw key opts tags stale in
    or_release release (let? _ := check in prepare_product ci kind key ctx started) (λ '(product, value, e, now),
      let* local := commit_inline key (payload_options product) e now version release in
      let? _ := check in
      (if is_version_changed local then Ret tt else emit (EV_Set key)) ;;;
      match kind with OK_Factory => emit (EV_FactorySuccess key) | OK_Constant => Ret tt end ;;;
      let? _ := check in
      ok (mkObserved (mkCacheValue value (Some (inline_receipt local))) OO_Stored
            match kind with OK_Factory => Some CL_Origin | OK_Constant => None end))) held released) as Hrun.
  { intros st. apply owns_bind_neutral; [neutral_program|]. intros started. cbv zeta.
    apply owns_or_release_neutral; [neutral_program|done|done|]. intros [[[payload v] e] now].
    apply owning_bind, owning_mono with (Q := λ _ left, left = []).
    - unfold commit_inline. destruct (EntryOptions.skip_memory_write _);
        (apply owns_bind_neutral; [neutral_program|]; intros x; apply owns_then; [done|]; by apply owns_ret).
    - intros local left ->. apply owns_neutral; [|done]. neutral_program. }
  destruct second as [[v|second]|]; [|apply Hrun..].
  apply owns_then; [done|]. apply owns_neutral; [|done]. unfold inline_hit. neutral_program.
Qed.
End holding.

Lemma owns_inline_origin raw key kind opts tags :
  owning (V := V) always (inline_origin ci raw key kind opts tags) [] keeps.
Proof.
  unfold inline_origin. apply neutral_attempt; [neutral_program|]. intros [].
  apply neutral_bind; [neutral_program|]. intros first.
  assert (∀ stale, neutral (V := V) (let? owned := call (ans := answer (V := V)) (C_AcquireLocal key Infinite) in
      let release := if owned then release_local (Held key) else Ret tt in
      or_release release (let? version := call (C_CaptureMemory key) in let? _ := check in ok version) (λ version,
      inline_owned ci raw key kind opts tags stale version release))) as Hrun.
  { intros stale. split; [done|]. cbn [is_release is_drop]. intros [[]|e]; cbn [takes app bind]; [| |by exists []].
    - apply owns_or_release_neutral; [neutral_program|exact (drops_release_local (Held key))|done|]. intros version.
      eapply owning_mono; [by apply owns_inline_owned, (drops_release_local (Held key))|]. by intros a left ->.
    - apply owns_or_release_neutral; [neutral_program|by exists []|done|]. intros version.
      eapply owning_mono; [by apply owns_inline_owned; exists []|]. by intros a left ->. }
  destruct first as [[v|first]|]; [|apply Hrun..]. unfold inline_hit. neutral_program.
Qed.
End facts.

(** *** Assignments *)
Section set.
Context {V : Type} (r : Built).
Implicit Types (l : history V).
Local Abbreviation ci := (built_inner r).

(** The options in effect: the caller's, a provider's, or the defaults. *)
Definition chosen l (raw : string) (options : option EntryOptions) (opts : EntryOptions) : Prop :=
  options = Some opts ∨ options = None ∧ (Ev (C_OptionsFor raw) (Some opts) ∈ l ∨ opts = default_options ci).
(** The values the machine can hold: options, a clock's answer, a source's samples. *)
Definition widths (opts : EntryOptions) (now : Timestamp) : Prop :=
  options_wf opts ∧ is_i64 now ∧ ∀ source d, jitter ci = Configured source → duration_wf (source d).
(** The representation every path stores: that of the general constructor. *)
Definition represents l (opts : EntryOptions) (stored : V) (tags : list Tag) (now : Timestamp) (e : FreshValue V) : Prop :=
  ∃ drawn sample, Ev (C_Random (EntryOptions.jitter_max opts)) drawn ∈ l
    ∧ JitterPlan.sample (jitter ci) drawn (EntryOptions.jitter_max opts) = Ok sample
    ∧ (widths opts now → Entry.prepare_fresh_with_jitter stored opts now now sample tags None None = Ok e).
Definition inserted l (key : string) (opts : EntryOptions) (stored : V) (now : Timestamp) (e : FreshValue V) (local : LocalEffect) : Prop :=
  if EntryOptions.skip_memory_write opts then local = LE_Skipped ∧ Ev (C_InvalidateOrigin key) tt ∈ l
  else ∃ admission, local = LE_Stored admission
    ∧ (Ev (C_InsertValue key e now) admission ∈ l
       ∨ ∃ m, e = PlainMetadata.into_fresh m stored [] ∧ Ev (C_InsertPlain key stored m) admission ∈ l).
Definition assigned l (raw key : string) (v : V) (options : option EntryOptions) (tags : result TagError (list Tag))
    (local : LocalEffect) : Prop :=
  ∃ opts stored now e tags', tags = Ok tags' ∧ chosen l raw options opts ∧ copied l opts v stored ∧ Ev C_Now now ∈ l
    ∧ represents l opts stored tags' now e ∧ inserted l key opts stored now e local.

Lemma no_jitter drawn maximum sample :
  is_zero maximum = true → (∀ source d, jitter ci = Configured source → duration_wf (source d)) →
  JitterPlan.sample (jitter ci) drawn maximum = Ok sample → sample = JitterSample.ZERO.
Proof.
  intros Hz Hw. unfold JitterPlan.sample. destruct (jitter ci) as [|source]; [rewrite Hz; by intros [= <-]|].
  unfold JitterSample.new. destruct (duration_ltb _ _) eqn:Hl; [done|]. intros [= <-].
  specialize (Hw source maximum eq_refl). unfold is_zero in Hz. unfold JitterSample.ZERO. f_equal.
  destruct maximum as [ms mn], (source _) as [ss sn]. unfold duration_ltb, duration_wf, as_nanos in *. cbn in *.
  unfold Duration_ZERO. f_equal; lia.
Qed.
Lemma planned opts :
  (∀ plan, default_plan_for_options opts = Ok (Plain plan) → is_zero (EntryOptions.jitter_max opts) = true)
  ∧ (∀ plan, default_plan_for_options opts = Ok (Prepared plan) → is_zero (EntryOptions.jitter_max opts) = true).
Proof.
  unfold default_plan_for_options, FreshPlan.for_options.
  destruct (is_zero (EntryOptions.jitter_max opts)); cbn; [done|]. split; by intros ? [=].
Qed.

Context (Hplan : default_plan_for_options (default_options ci) = Ok (built_fresh_plan r)).
Context (Hcopies : built_copies r = EntryOptions.enable_auto_clone (default_options ci)).

Definition in_effect (resolved : option EntryOptions) : EntryOptions := default (default_options ci) resolved.
Lemma traced_select_options raw options :
  traced (V := V) (select_options r raw options) (λ x l, ∀ resolved strategy, x = Ok (resolved, strategy) →
    chosen l raw options (in_effect resolved) ∧ strategy = EntryOptions.enable_auto_clone (in_effect resolved)).
Proof.
  unfold select_options. eapply (traced_bind _ _ (λ resolved l, chosen l raw options (in_effect resolved))).
  - destruct options as [opts|]; [apply traced_ret; by left|].
    destruct (built_options_provider r); [|apply traced_ret; right; auto].
    eapply traced_mono; [by apply (traced_call (C_OptionsFor raw))|]. intros resolved l ->. right. split; [done|].
    destruct resolved; [left; recorded|by right].
  - intros resolved l Hc.
    assert (∀ l' : history V, chosen (l' ++ l) raw options (in_effect resolved)) as Hl.
    { intros l'. destruct Hc as [?|[? [?|?]]]; [by left|right; split; [done|]; left; recorded|right; auto]. }
    destruct resolved as [opts|].
    + eapply traced_attempt; [apply traced_validated_copy|done|]. intros s l1 Hs. apply traced_ret.
      intros ?? [= <- <-]. split; [apply (Hl l1)|by apply Hs].
    + eapply traced_attempt; [apply traced_any|done|]. intros [] l1 _. apply traced_ret. intros ?? [= <- <-].
      split; [apply (Hl l1)|done].
Qed.

Definition placed key opts (stored : V) tags sample now (x : result CacheError LocalEffect) l : Prop :=
  ∀ local, x = Ok local → ∃ e,
    (widths opts now → Entry.prepare_fresh_with_jitter stored opts now now sample tags None None = Ok e)
    ∧ inserted l key opts stored now e local.
Lemma traced_insert_value key opts stored tags sample now e :
  (widths opts now → Entry.prepare_fresh_with_jitter stored opts now now sample tags None None = Ok e) →
  traced (V := V) (insert_value key opts e now) (placed key opts stored tags sample now).
Proof.
  intros He. unfold insert_value, placed, inserted. destruct (EntryOptions.skip_memory_write opts).
  - eapply traced_bind; [by apply (traced_call (C_InvalidateOrigin key))|]. intros [] l ->. apply traced_ret.
    intros local [= <-]. exists e. split; [done|]. split; [done|recorded].
  - eapply traced_bind; [by apply (traced_call (C_InsertValue key e now))|]. intros a l ->. apply traced_ret.
    intros local [= <-]. exists e. split; [done|]. exists a. split; [done|]. left. recorded.
Qed.

(** Whatever plan was selected, the entry is the general constructor's. *)
Lemma traced_insert_inline key resolved stored tags sample now drawn :
  JitterPlan.sample (jitter ci) drawn (EntryOptions.jitter_max (in_effect resolved)) = Ok sample →
  traced (insert_inline r key resolved stored tags sample now) (placed key (in_effect resolved) stored tags sample now).
Proof.
  intros Hj. unfold insert_inline. fold (in_effect resolved). cbv zeta. set (opts := in_effect resolved) in *.
  assert (traced (V := V) (let? e := from from_entry_error (Entry.prepare_fresh_with_jitter stored opts now now sample tags None None) in
      insert_value key opts e now) (placed key opts stored tags sample now)) as Hgeneral.
  { unfold from. destruct (Entry.prepare_fresh_with_jitter _ _ _ _ _ _ _ _) as [e|] eqn:He; [|by apply traced_ret].
    by apply traced_insert_value. }
  destruct resolved as [o|]; [exact Hgeneral|].
  pose proof (planned opts) as [Hz1 Hz2]. change opts with (default_options ci) in Hz1, Hz2.
  assert (∀ plan_value, (∀ Hw : widths opts now, is_zero (EntryOptions.jitter_max opts) = true →
      Entry.prepare_fresh_with_jitter stored opts now now JitterSample.ZERO tags None None = Ok plan_value) →
      is_zero (EntryOptions.jitter_max opts) = true →
      widths opts now → Entry.prepare_fresh_with_jitter stored opts now now sample tags None None = Ok plan_value) as Hzero.
  { intros pv Hpv Hz Hw. rewrite (no_jitter drawn _ _ Hz (proj2 (proj2 Hw)) Hj). by apply Hpv. }
  pose proof (λ Hw : widths opts now, default_plan_agrees stored opts now tags (proj1 Hw) (proj1 (proj2 Hw))) as Hagree.
  change (default_plan_for_options opts) with (default_plan_for_options (default_options ci)) in Hagree.
  rewrite Hplan in Hagree. destruct (built_fresh_plan r) as [plan|plan|]; [| |exact Hgeneral].
  - specialize (Hzero (PlainPlan.prepare plan stored now tags) (λ Hw _, Hagree Hw) (Hz1 _ Hplan)).
    destruct (bool_decide (tags = []) && _) eqn:Hb; [|by apply traced_insert_value].
    apply andb_prop in Hb as [->%bool_decide_eq_true Hskip%negb_true_iff].
    eapply traced_bind; [by apply (traced_call (C_InsertPlain key stored (PlainPlan.metadata plan now)))|].
    intros a l ->. apply traced_ret. intros local [= <-]. exists (PlainPlan.prepare plan stored now []).
    split; [exact Hzero|]. unfold inserted. change (in_effect None) with opts. rewrite Hskip. exists a. split; [done|]. right.
    exists (PlainPlan.metadata plan now). split; [done|recorded].
  - specialize (Hzero (FreshPlan.prepare plan stored now tags) (λ Hw _, Hagree Hw) (Hz2 _ Hplan)). by apply traced_insert_value.
Qed.

Lemma represents_incl l l' opts stored tags now e : l ⊆ l' → represents l opts stored tags now e → represents l' opts stored tags now e.
Proof. intros Hl (d & s & ? & ? & ?). exists d, s. split; [by apply Hl|done]. Qed.
Lemma inserted_grows l l' key opts stored now e local :
  l ⊆ l' → inserted l key opts stored now e local → inserted l' key opts stored now e local.
Proof.
  intros Hl. unfold inserted. destruct (EntryOptions.skip_memory_write opts).
  - intros [? ?]. split; [done|by apply Hl].
  - intros (a & ? & [?|(m & ? & ?)]); exists a; (split; [done|]); [left|right; exists m; split; [done|]]; by apply Hl.
Qed.

Lemma traced_inline_set raw v options tags :
  traced (inline_set r raw v options tags) (λ x l, ∀ local, x = Ok local →
    assigned l raw (full_key ci raw) v options tags local).
Proof.
  unfold inline_set, inline_set_value. set (key := full_key ci raw).
  eapply traced_bind; [apply traced_any|]. intros [] l0 _; [by apply traced_ret|].
  eapply traced_attempt; [apply traced_any|done|]. intros [] l1 _.
  eapply (traced_attempt _ _ (λ x _, ∀ tags', x = Ok tags' → tags = Ok tags'));
    [destruct tags; apply traced_ret; by intros ? [= <-]|done|]. intros tags' l2 Ht.
  eapply traced_attempt; [apply traced_select_options|done|]. intros [resolved strategy] l3 Hsel.
  destruct (Hsel _ _ eq_refl) as [Hc ->].
  eapply traced_attempt; [apply traced_any|done|]. intros [] l4 _.
  eapply traced_attempt; [apply traced_value_copy|done|]. intros stored l5 Hst.
  fold (in_effect resolved).
  eapply (traced_attempt _ _ (λ x l, ∀ s, x = Ok s → ∃ drawn, Ev (C_Random (EntryOptions.jitter_max (in_effect resolved))) drawn ∈ l
    ∧ JitterPlan.sample (jitter ci) drawn (EntryOptions.jitter_max (in_effect resolved)) = Ok s)); [|done|].
  { unfold jitter_sample. eapply traced_bind; [by apply (traced_call (C_Random (EntryOptions.jitter_max (in_effect resolved))))|].
    intros drawn l ->. unfold from. apply traced_ret. intros s Hs. exists drawn. split; [recorded|].
    by destruct (JitterPlan.sample _ _ _); simplify_eq/=. }
  intros sample l6 Hs. destruct (Hs _ eq_refl) as (drawn & Hdrawn & Hsample).
  eapply traced_bind; [by apply (traced_call C_Now)|]. intros now l7 ->.
  eapply traced_attempt; [apply traced_any|done|]. intros [] l8 _.
  eapply traced_attempt; [by apply (traced_insert_inline _ _ _ _ _ _ drawn)|done|]. intros local l9 Hins.
  destruct (Hins _ eq_refl) as (e & He & Hin).
  eapply traced_bind; [apply traced_any|]. intros [] l10 _.
  eapply traced_attempt; [apply traced_any|done|]. intros [] l11 _. apply traced_ret. intros ? [= <-].
  exists (in_effect resolved), stored, now, e, tags'. split_and!.
  - by apply Ht.
  - destruct Hc as [?|[? [?|?]]]; [by left|right; split; [done|]; left; recorded|right; auto].
  - eapply copied_incl; [|by apply Hst]. set_solver.
  - recorded.
  - exists drawn, sample. split; [recorded|]. split; [done|exact He].
  - eapply inserted_grows; [|exact Hin]. set_solver.
Qed.
End set.
End InlineTheory.

(** *** Standalone starts *)
Module ColdTheory.
Import InlineTheory.
Section cold.
Context {V : Type} (ci : Inner).
Local Abbreviation events := (list (event (danswer (V := V)))).
Local Abbreviation prog := (prog (danswer (V := V))).
Local Abbreviation pipeline A := (Calls.prog (answer (V := V)) A).
Implicit Types (m g : events) (l h : history V).

Definition dtraced {A} (p : prog A) (R : A → events → Prop) : Prop :=
  ∀ g, wp (any (λ _, true)) p g (λ a g', ∃ m, g' = m ++ g ∧ R a m).
Lemma dtraced_ret {A} (a : A) (R : A → events → Prop) : R a [] → dtraced (Ret a) R.
Proof. intros HR g. by exists []. Qed.
Lemma dtraced_bind {A B} (p : prog A) (f : A → prog B) R (R' : B → events → Prop) :
  dtraced p R → (∀ a m, R a m → dtraced (f a) (λ b m', R' b (m' ++ m))) → dtraced (bind p f) R'.
Proof.
  intros Hp Hf g. apply wp_bind. eapply wp_mono; [apply Hp|]. intros a g' (m & -> & HR).
  eapply wp_mono; [by apply (Hf a m)|]. intros b g' (m' & -> & HR'). exists (m' ++ m). by rewrite app_assoc.
Qed.
Lemma dtraced_mono {A} (p : prog A) (R R' : A → events → Prop) :
  dtraced p R → (∀ a m, R a m → R' a m) → dtraced p R'.
Proof. intros Hp HR g. eapply wp_mono; [apply Hp|]. naive_solver. Qed.
Lemma dtraced_call c : dtraced (call (ans := danswer (V := V)) c) (λ x m, m = [Ev c x]).
Proof. intros g x ? ->. by exists [Ev c x]. Qed.

(** What the pipelines of the cache recorded. *)
Definition work_event (ev : event (danswer (V := V))) : history V :=
  match ev with Ev c x =>
    match c return danswer c → history V with
    | D_Worker c => λ x, if is_budget c then [] else [Ev c x]
    | _ => λ _, []
    end x
  end.
Definition work_of m : history V := m ≫= work_event.
Lemma work_of_app m m' : work_of (m ++ m') = work_of m ++ work_of m'.
Proof. apply bind_app. Qed.

Lemma dtraced_lift {A} (p : pipeline A) R : traced p R → dtraced (lift p) (λ a m, R a (work_of m)).
Proof.
  intros Hp g. specialize (Hp []).
  enough (∀ l, wp (world V) p l (λ a h, R a h) →
    wp (any (λ _, true)) (lift p) g (λ a g', ∃ m, g' = m ++ g ∧ R a (work_of m ++ l))) as H.
  { eapply wp_mono; [apply (H [])|].
    - eapply wp_mono; [exact Hp|]. intros a h (l & -> & HR). by rewrite app_nil_r.
    - intros a g' (m & -> & HR). rewrite app_nil_r in HR. eauto. }
  clear Hp. revert g. induction p as [a|c k IH]; intros g l Hp; cbn [lift]; [by exists []|].
  intros x g' ->. specialize (Hp x _ eq_refl). cbn [record] in *. apply (IH x (Ev (D_Worker c) x :: g)) in Hp.
  eapply wp_mono; [exact Hp|]. intros a g' (m & -> & HR). exists (m ++ [Ev (D_Worker c) x]).
  split; [by rewrite <- app_assoc|]. rewrite work_of_app. unfold record in HR. cbn.
  by destruct (is_budget c); [rewrite app_nil_r|rewrite <- app_assoc].
Qed.

(** The rest of a pipeline that recorded [l]: however it goes on, the whole
    record explains its result. *)
Definition resumes {A} (rest : pipeline A) (R : A → history V → Prop) l : Prop :=
  ∀ h, wp (world V) rest (l ++ h) (λ a h', ∃ l', h' = l' ++ h ∧ R a l').
Definition progress (R : result CacheError (Observed (CacheValue (V := V))) → history V → Prop) (x : Polled) l : Prop :=
  match x with WK_Done r => R r l | WK_Pending rest => resumes rest R l end.

(** A poll runs the work from where it stands. *)
Lemma dtraced_poll (p : pipeline (result CacheError (Observed (CacheValue (V := V))))) R :
  traced p R → dtraced (poll_inline p) (λ x m, progress R x (work_of m)).
Proof.
  intros Hp g.
  enough (∀ l, resumes p R l →
    wp (any (λ _, true)) (poll_inline p) g (λ x g', ∃ m, g' = m ++ g ∧ progress R x (work_of m ++ l))) as H.
  { eapply wp_mono; [apply (H []); exact Hp|]. intros x g' (m & -> & Hx). exists m. by rewrite app_nil_r in Hx. }
  clear Hp. revert g. induction p as [r|c k IH]; intros g l Hp; cbn [poll_inline].
  { exists []. split; [done|]. destruct (Hp []) as (l' & Hl & HR). rewrite !app_nil_r in Hl. by subst. }
  assert (∀ g, wp (any (λ _, true)) (Act (D_Worker c) (λ x, poll_inline (k x))) g
    (λ x g', ∃ m, g' = m ++ g ∧ progress R x (work_of m ++ l))) as Hgo.
  { clear g. intros g x g' ->. cbn [record].
    assert (resumes (k x) R (work_event (Ev (D_Worker c) x) ++ l)) as Hk.
    { intros h. specialize (Hp h x _ eq_refl). unfold record in Hp. cbn. by destruct (is_budget c). }
    eapply wp_mono; [exact (IH x (Ev (D_Worker c) x :: g) _ Hk)|]. intros y g' (m & -> & Hy).
    exists (m ++ [Ev (D_Worker c) x]). split; [by rewrite <- app_assoc|].
    rewrite work_of_app. unfold work_of at 2. cbn [mbind list_bind]. by rewrite app_nil_r, <- app_assoc. }
  destruct (waits c); [|apply Hgo]. intros [|] g' ->.
  - exists [Ev D_Suspends true]. split; [done|exact Hp].
  - eapply wp_mono; [apply Hgo|]. intros x g' (m & -> & Hx). exists (m ++ [Ev D_Suspends false]).
    split; [by rewrite <- app_assoc|]. by rewrite work_of_app, app_nil_r.
Qed.

Local Abbreviation Value := (Observed (CacheValue (V := V))).
Definition delivers_ok (completion : Completion Value) (o : Value) : Prop :=
  completion = CM_Owned (Ok o) ∨ completion = CM_Shared (Ok o).
(** [v] is what [o] was handed out as: its value or a copy, with its receipt. *)
Definition handed l (opts : EntryOptions) (o : Value) (v : CacheValue (V := V)) : Prop :=
  cached_value v = cached_value (observed_value o) ∨ copied l opts (cached_value (observed_value o)) (cached_value v).
Definition receipt_kept (leader : bool) (completion : Completion Value) (o : Value) (v : CacheValue (V := V)) : Prop :=
  match completion with
  | CM_Shared _ => if leader then match cached_commit (observed_value o) with
                                  | None => cached_commit v = None
                                  | Some (Completed report) => cached_commit v = Some (inline_receipt (local_effect report))
                                  | Some (Scheduled _) => False
                                  end
                   else cached_commit v = None
  | _ => cached_commit v = cached_commit (observed_value o)
  end.

Lemma dtraced_lead token (work : pipeline (result CacheError Value)) R :
  traced work R →
  dtraced (lead token work) (λ x m, match x with
    | inl completion => ∀ o, delivers_ok completion o → R (Ok o) (work_of m)
    | inr rest => resumes rest R (work_of m)
    end).
Proof.
  intros Hw. unfold lead.
  eapply (dtraced_bind _ _ (λ _ m, work_of m = [])).
  { destruct token; [|by apply dtraced_ret]. eapply dtraced_mono; [apply dtraced_call|]. by intros [] m ->. }
  intros [] m0 Hm0. eapply dtraced_bind; [by apply dtraced_poll|]. intros [r|rest] m1 Hp.
  - eapply (dtraced_bind _ _ (λ c m, work_of m = [] ∧ ∀ o, delivers_ok c o → r = Ok o)).
    + unfold terminal. eapply dtraced_bind; [apply dtraced_call|]. intros [reason|] m ->.
      * apply dtraced_ret. split; [done|]. intros o [[=]|[=]].
      * eapply dtraced_bind; [apply dtraced_call|]. intros [|] m ->; apply dtraced_ret; (split; [done|]);
          intros o [[=]|[=]]; done.
    + intros c m [Hm Hc]. apply dtraced_ret. intros o Ho. cbn [app]. rewrite !work_of_app, Hm, Hm0, app_nil_r.
      by rewrite <- (Hc o Ho).
  - eapply dtraced_bind; [apply dtraced_call|]. intros [reason|] m ->.
    + eapply dtraced_bind; [apply dtraced_lift, traced_any|]. intros x m _. apply dtraced_ret. intros o [[=]|[=]].
    + apply dtraced_ret. rewrite !work_of_app, Hm0, app_nil_r. exact Hp.
Qed.

Lemma dtraced_finish token leader opts completion :
  dtraced (finish_cold ci token leader opts completion) (λ start m, calm (work_of m) ∧
    match start with
    | CS_Ready (Ok v) => ∃ o, delivers_ok completion o ∧ handed (work_of m) opts o v ∧ receipt_kept leader completion o v
    | CS_Ready (Err _) => True
    | CS_Pending _ => False
    end).
Proof.
  unfold finish_cold.
  eapply (dtraced_bind _ _ (λ r m, calm (work_of m) ∧ ∀ o', r = Ok o' → ∃ o, delivers_ok completion o
    ∧ handed (work_of m) opts o (observed_value o') ∧ receipt_kept leader completion o (observed_value o'))).
  - eapply dtraced_mono; [apply (dtraced_lift _ (λ r l, calm l ∧ ∀ o', r = Ok o' → ∃ o, delivers_ok completion o
      ∧ handed l opts o (observed_value o') ∧ receipt_kept leader completion o (observed_value o')))|done].
    unfold complete_inline_value. destruct completion as [[o|e]|[o|e]| |];
      try (apply traced_ret; split; [constructor|done]).
    + apply traced_ret. split; [constructor|]. intros o' [= <-]. exists o. split; [by left|]. split; [by left|done].
    + eapply traced_attempt.
      * apply traced_and; [intros h; apply wp_copy|].
        eapply (traced_calm [K_Options]); [apply touches_copy|no_kind_in..].
      * by intros e l [_ Hl].
      * intros v l [Hv Hl]. eapply (traced_attempt _ _ (λ c l', l' = [] ∧ ∀ commit, c = Ok commit →
          receipt_kept leader (CM_Shared (Ok o)) o (mkCacheValue v commit))).
        -- destruct leader; cbn [receipt_kept]; unfold leader_commit;
             [destruct (cached_commit (observed_value o)) as [[report|w]|]|];
             apply traced_ret; (split; [done|]); by intros ? [= <-].
        -- intros e l' [-> _]. by split.
        -- intros commit l' [-> Hc]. apply traced_ret. split; [done|]. intros o' [= <-]. exists o.
           split; [by right|]. split; [by right|]. by apply Hc.
  - intros r m [Hm Hr]. eapply (dtraced_bind _ _ (λ _ m', work_of m' = [])).
    + unfold cold_status. eapply (dtraced_bind _ _ (λ _ m', work_of m' = [])).
      * destruct token; [|by apply dtraced_ret]. eapply dtraced_mono; [apply dtraced_call|]. by intros ? ? ->.
      * intros [reason|] m' Hm'; [by apply dtraced_ret|].
        eapply dtraced_bind; [apply dtraced_call|]. intros [|] m'' ->; by apply dtraced_ret.
    + intros live m' Hm'. apply dtraced_ret. cbn [app]. rewrite work_of_app, Hm'. split; [done|].
      destruct live as [[]|e], r as [o'|e']; try done. by apply Hr.
Qed.
End cold.
End ColdTheory.

Module InlineTheorems.
Import InlineTheory ColdTheory.
Section theorems.
Context {V : Type} (ci : Inner).
Local Abbreviation CacheValue := (CacheValue (V := V)).

Lemma inline_answer_app (l la lb : history V) raw key kind opts tags o :
  calm la → calm lb → inline_answer ci l raw key kind opts tags o → inline_answer ci (la ++ l ++ lb) raw key kind opts tags o.
Proof.
  intros Ha Hb [[(e & He & ->) Hl]|(stale & payload & owned & version & local & v & l' & (post & before & -> & Hun & Hpost) & Hs & Hp & Hc & ->)];
    [left|right].
  - split; [exists e; split; [|done]; eapply ready_incl; [|exact He]; set_solver|]. apply calm_app; [exact Ha|]. by apply calm_app.
  - exists stale, payload, owned, version, local, v, l'. split_and!; [| |done..].
    + exists (la ++ post), (before ++ lb). split_and!; [by rewrite <- !app_assoc|done|set_solver].
    + intros s Hss. eapply stale_found_incl; [|by apply Hs]. set_solver.
Qed.

(** C11: a get-or-set of a memory-only cache answers a miss truthfully on its
    caller's stack. Only the leader of the key's flight runs the origin. What it
    answers at once is what its origin found or made: an entry the store held
    fresh and that no marker removed, with no origin run and nothing written; or
    a copy of the product of an origin run in this very request, on a context
    made of the request's key, options and tags and of a stale value memory still
    had, with the receipt of a commit conditional on a captured version. The
    version is captured right after the key's locker answered; from there on to
    the commit, the run of the origin included, no guard is released, and a guard
    that the locker gave is released after the commit (a supplied locker may have
    none to give: the origin then runs without, as documented). An origin that
    suspends is left to the cache, and goes on to nothing else. A follower runs no
    origin and writes nothing: it answers with what the flight delivered, without
    a receipt of its own when the result is shared. The origin holds no lock at
    its end, on any path. *)
Theorem standalone_misses_answer raw key kind opts tags token :
  dtraced (prepare_inline_cold ci raw key kind opts tags token) (λ start m,
    ∃ leader, Ev (D_Claim (V := V) key) leader ∈ m ∧
    if leader : bool then
      match start with
      | CS_Ready (Err _) => True
      | CS_Ready (Ok v) => ∃ completion o, inline_answer ci (work_of m) raw key kind opts tags o
          ∧ delivers_ok completion o ∧ handed (work_of m) opts o v ∧ receipt_kept true completion o v
      | CS_Pending rest => ∃ work l, rest = Some work ∧ work_of m = l ++ [Ev (C_Emit (N_Cache (EV_Miss key))) tt]
          ∧ resumes work (λ r l, ∀ o, r = Ok o → inline_answer ci l raw key kind opts tags o) l
      end
    else calm (work_of m) ∧
      match start with
      | CS_Ready (Err _) => True
      | CS_Ready (Ok v) => ∃ completion o, Ev (D_TryComplete (V := V)) (Some completion) ∈ m
          ∧ delivers_ok completion o ∧ handed (work_of m) opts o v ∧ receipt_kept false completion o v
      | CS_Pending rest => rest = None
      end)
  ∧ owning (V := V) always (inline_origin ci raw key kind opts tags) [] keeps.
Proof.
  split; [|apply owns_inline_origin]. unfold prepare_inline_cold.
  eapply dtraced_bind; [apply (dtraced_call (D_Claim key))|]. intros leader m0 ->.
  eapply (dtraced_bind _ _ (λ _ m, work_of m = [Ev (C_Emit (N_Cache (EV_Miss key))) tt])).
  { eapply dtraced_mono; [apply dtraced_lift, (traced_call (C_Emit (N_Cache (EV_Miss key)))); done|]. by intros [] m Hm. }
  intros [] m1 Hm1. destruct leader.
  - eapply dtraced_bind; [apply dtraced_lead, traced_inline_origin|]. intros [completion|rest] m2 Hlead.
    + eapply dtraced_mono; [apply dtraced_finish|]. intros start m3 [Hm3 Hs]. exists true.
      split; [set_solver|]. destruct start as [[v|e]|rest]; [|done..]. destruct Hs as (o & Ho & Hh & Hr).
      exists completion, o. rewrite !work_of_app, Hm1. change (work_of [_]) with (@nil (event (answer (V := V)))).
      rewrite app_nil_r, <- app_assoc. split_and!; [|done| |done].
      * apply inline_answer_app; [done|by repeat constructor|]. exact (Hlead o Ho o eq_refl).
      * destruct Hh as [?|Hh]; [by left|right]. eapply copied_incl; [|exact Hh]. set_solver.
    + do 2 (eapply dtraced_bind; [apply dtraced_call|]; intros ? ? ->).
      eapply (dtraced_bind _ _ (λ _ m, work_of m = [])).
      { destruct a0; [|by apply dtraced_ret]. eapply dtraced_mono; [apply dtraced_call|]. by intros [] m ->. }
      intros [] m3 Hm3. apply dtraced_ret. exists true. split; [set_solver|]. exists rest, (work_of m2).
      split; [done|]. rewrite !work_of_app, Hm3, Hm1. cbn. by rewrite app_nil_r.
  - eapply dtraced_bind; [apply (dtraced_call D_TryComplete)|]. intros [completion|] m2 ->.
    + eapply dtraced_mono; [apply dtraced_finish|]. intros start m3 [Hm3 Hs]. exists false.
      split; [set_solver|]. rewrite !work_of_app, Hm1. cbn. rewrite !app_nil_r.
      split; [apply calm_app; [done|by repeat constructor]|].
      destruct start as [[v|e]|rest]; [|done..]. destruct Hs as (o & Ho & Hh & Hr). exists completion, o.
      split_and!; [set_solver|done| |done]. destruct Hh as [?|Hh]; [by left|right]. eapply copied_incl; [|exact Hh]. set_solver.
    + apply dtraced_ret. exists false. split; [set_solver|]. split; [|done]. rewrite !work_of_app, Hm1.
      by repeat constructor.
Qed.
End theorems.

Section sets.
Context {V : Type} (primitive : bool).
(** C24: an assignment through a prepared plan stores what the general
    constructor makes. Whatever cache the builder selected inline writes for, an
    assignment that succeeds ran under the options of the caller, of the provider
    or the defaults; it stored, under the key with its prefix, the representation
    that [Entry.prepare_fresh_with_jitter] makes of a copy of the value, of the
    tags and of the jitter drawn - the plan of the default options and the plain
    insertion that reuses a slot are only faster - and it reports the admission of
    the store, or a skip with the pending origins invalidated. *)
Theorem inline_assignments_agree b h :
  wp (any (ans := banswer (V := V)) (λ _, true)) (try_build primitive b) h (λ built _,
    match built with
    | Ok r => write_plan (built_inner r) = InlineMemory → ∀ raw (v : V) options tags,
        traced (inline_set r raw v options tags) (λ x l, ∀ local, x = Ok local →
          assigned r l raw (full_key (built_inner r) raw) v options tags local)
    | Err _ => True
    end).
Proof.
  apply (BuilderTheory.yields_attempt _ _ (BuilderTheorems.coherent primitive b) (λ r : Built, write_plan (built_inner r) = InlineMemory → _)).
  { apply BuilderTheorems.assembled_is_coherent. }
  intros r Hr. apply (BuilderTheory.yields_attempt _ _ (λ _, True)); [apply BuilderTheory.yields_any|].
  intros _ _. apply BuilderTheory.yields_ret. intros ? [= <-] Hp raw v options tags.
  destruct (BuilderTheorems.c_inline_writes _ _ _ Hr Hp) as (_ & _ & _ & _ & _ & Hplan).
  destruct (BuilderTheorems.c_options _ _ _ Hr) as (_ & _ & _ & Hcopies).
  by apply traced_inline_set.
Qed.
End sets.

(** *** Runs of the default cache: the value of [k] is 7; the factory makes 42 *)
Definition stored (fresh : bool) : Entry nat :=
  mkEntry 5%positive (mkInner 7%nat
    (mkMetadata 0 0 1000 2000 (from_secs 1) (EO_Fresh None) None None [] RM_Unspecified) EL_Local).
(** [present]: how fresh the store holds an entry, if it does; [suspends]: whether
    the factory does; [leads]: whether the caller claimed the flight. *)
Definition standalone (present : option Freshness) (suspends leads : bool) (l : list string) (c : ColdCall nat)
    : option (danswer c * list string) :=
  match c return option (danswer c * _) with
  | D_Worker c =>
      match c return option (answer c * _) with
      | C_Cancelled => Some (None, l) | C_Now => Some (500, l) | C_Alloc => Some (9%positive, l) | C_Random _ => Some (0, l)
      | C_WithReady _ _ => Some ((λ f, (stored true, f)) <$> present, l)
      | C_AcquireLocal _ _ => Some (Ok true, "lock"%string :: l) | C_ReleaseLocal _ => Some (tt, "release"%string :: l)
      | C_CaptureMemory _ => Some (Ok 3%nat, l) | C_Tags _ _ _ => Some (Valid, l)
      | C_Invoke _ ctx => Some (Ok (mkProduct (FO_Modified 42%nat None None (Ok [])) (context_options ctx)), "factory"%string :: l)
      | C_ApplyOrigin _ _ _ _ => Some (MA_Admitted, "commit"%string :: l) | C_Emit _ => Some (tt, l)
      | _ => None
      end
  | D_Claim _ => Some (leads, l) | D_Suspends => Some (suspends, l) | D_FlightReason => Some (None, l)
  | D_Followers => Some (false, l) | D_Closed => Some (false, l) | D_CanExecute => Some (true, l)
  | D_TryComplete => Some (None, l) | D_RegisterPending => Some (tt, l) | D_SpawnDriver => Some (tt, "driver"%string :: l)
  | _ => None
  end.
Fixpoint partially {S A} (h : S → ∀ c : ColdCall nat, option (danswer c * S)) (p : prog danswer A) (s : S) : option (A * S) :=
  match p with Ret a => Some (a, s) | Act c k => '(x, s) ← h s c; partially h (k x) s end.
Definition outcome (start : ColdStart (V := nat)) : option nat + bool :=
  match start with
  | CS_Ready (Ok v) => inl (Some (cached_value v)) | CS_Ready (Err _) => inl None
  | CS_Pending rest => inr (bool_decide (is_Some (rest : option (Calls.prog _ _))))
  end.
Definition default_miss (present : option Freshness) (suspends leads : bool) : option ((option nat + bool) * list string) :=
  match (BuilderTheorems.built CacheBuilder.new).1 with
  | Ok r =>
      '(start, l) ← partially (standalone present suspends leads)
         (prepare_inline_cold (built_inner r) "k" "k" OK_Factory (default_options (built_inner r)) [] false) [];
      Some (outcome start, rev l)
  | Err _ => None
  end.
Example miss_run :
  default_miss None false true = Some (inl (Some 42%nat), ["lock"; "factory"; "commit"; "release"])%string
  ∧ default_miss (Some Fresh) false true = Some (inl (Some 7%nat), [])
  ∧ default_miss (Some Stale) true true = Some (inr true, ["driver"])%string
  ∧ default_miss None false false = Some (inr false, []).
Proof. vm_compute. done. Qed.
End InlineTheorems.
