(* ===== verification/Front.v ===== *)
(** * The front of a lookup

    Models the synchronous part of a lookup, before any work is owned by the
    cache: [quiet_lookup] and its completion ([src/src/cache/plain_ready.rs]),
    the callback-free lookup ([callback_free.rs]), the ready lookup
    ([ready.rs], [start_lookup] and [ready_value] of [api.rs]), the inline attempt
    at an immediate distributed read ([immediate_read.rs]) and the entry points
    [begin_read] and [begin_origin_lazy] of [api.rs]. A lookup is a program over
    [FCall]: the accesses of the value pipelines and of the marker observations,
    and those of the front itself. What is left to the owned pipelines is
    [Read.v]'s and [Origin.v]'s. *)
From S2P Require Import Supplied.
From S2P Require Import Prelude Time Calls Circuit Options Entry Tags Backplane Cancellation.
From S2P Require Import Invalidation Storage Lanes Wire Lease Recovery Observe Worker Read Write Origin Control Markers Health Builder.
Open Scope prog_scope.

(** ** Data *)
Inductive LookupMode := LookupRead | LookupGetOrSet | LookupConstant.
Definition is_get_or_set (mode : LookupMode) : bool := match mode with LookupGetOrSet => true | _ => false end.
(** Whether the caller's inputs run code when they are dropped. *)
Inductive Inputs := NoCallbacks | Destructors.
Module Inputs.
Definition origin (needs_drop : bool) (tags : list Tag) (fallback : bool) : Inputs :=
  if needs_drop || negb (bool_decide (tags = [])) || fallback then Destructors else NoCallbacks.
End Inputs.
Inductive ReadyContext := Borrowed | Retiring.

Section data.
Context {V : Type}.
(** [ReadyHit], and [ReadyValue] with its key elsewhere: a value, and the eager
    refresh it may start. *)
Record ReadyHit := mkHit { hit_value : V; hit_refresh : option (Entry V * EntryOptions) }.
Inductive LookupStart := LS_Ready (r : result CacheError ReadyHit) | LS_Owned (resolved : option EntryOptions).
Inductive QuietCopy := QC_Value (v : V) | QC_EntryPolicy.
Inductive QuietStart := QS_General | QS_Complete (r : result CacheError V) | QS_Ready (r : result CacheError V)
| QS_Owned | QS_Recheck.
(** [Pending]: the options the owned pipeline is given. *)
Inductive ReadStart := BR_Ready (r : result CacheError (option V)) | BR_Pending (options : option EntryOptions).
(** [BO_Cold]: handed to a standalone factory ([Inline.v]); [BO_Continued]: a
    confirmed miss, with the ownership its owned pipeline continues under. *)
Inductive OriginStart := BO_Ready (r : result CacheError V) | BO_Cold (options : EntryOptions)
| BO_Continued (options : EntryOptions) (stale : option (Entry V)) (guard : FlightGuard)
| BO_Owned (options : option EntryOptions).

(** ** Accesses *)
Inductive FCall :=
| F_Worker (c : Call V) | F_Observe (c : OCall)
(* the scopes, the caller's token *)
| F_Closed | F_TokenReason
(* the cache's flags, its observers *)
| F_MaintenanceStarted | F_StartMaintenance | F_SubscriptionAdmitted | F_Quiet | F_Debug | F_ComponentRead
(* the memory store: [with_ready], and its callback-free form *)
| F_WithReady (key : string) (now : Timestamp) | F_WithLocalReady (key : string)
(* the clear shortcut, the registry, marker events *)
| F_Clears | F_Advance (k : MarkerKind) (v : MarkerVersion) | F_MarkerEvent (k : MarkerKind) (outcome : MarkerReadOutcome)
(* an eager refresh; whether a poll suspends *)
| F_Eager (key : string) (options : EntryOptions) (current : Entry V) | F_Suspends.
Definition fanswer (c : FCall) : Type :=
  match c with
  | F_Worker c => answer c
  | F_Observe c => oanswer c
  | F_Closed | F_MaintenanceStarted | F_SubscriptionAdmitted | F_Quiet | F_Debug | F_Suspends => bool
  | F_TokenReason => option CancellationReason
  | F_WithReady _ _ => result CacheError (option (Entry V * Freshness))
  | F_WithLocalReady _ => option (option (Entry V * Freshness))
  | F_Clears => ClearObservations
  | _ => unit
  end.
End data.
Arguments ReadyHit : clear implicits.
Arguments LookupStart : clear implicits.
Arguments QuietCopy : clear implicits.
Arguments QuietStart : clear implicits.
Arguments ReadStart : clear implicits.
Arguments OriginStart : clear implicits.
Arguments FCall : clear implicits.

Section front.
(** [plugin]: whether the handle is one a plugin holds. *)
Context {V : Type} (r : Built) (plugin : bool).
Local Abbreviation prog := (prog (fanswer (V := V))).
Local Abbreviation action A := (prog (result CacheError A)).
Local Abbreviation ask c := (call (ans := fanswer (V := V)) c).
Local Abbreviation Entry := (Entry V).
Local Abbreviation ci := (built_inner r).
Local Abbreviation mc := (built_markers r).

Fixpoint on_worker {A} (p : Calls.prog (answer (V := V)) A) : prog A :=
  match p with Ret a => Ret a | Act c k => Act (F_Worker c) (λ x, on_worker (k x)) end.
Fixpoint on_observations {A} (p : Calls.prog oanswer A) : prog A :=
  match p with Ret a => Ret a | Act c k => Act (F_Observe c) (λ x, on_observations (k x)) end.
(** One poll of a value pipeline: [None] when an access it waits for suspends it. *)
Fixpoint polled {A} (p : Calls.prog (answer (V := V)) A) : prog (option A) :=
  match p with
  | Ret a => Ret (Some a)
  | Act c k =>
      let* suspended := if awaits c then ask F_Suspends else Ret false in
      if suspended : bool then Ret None else Act (F_Worker c) (λ x, polled (k x))
  end.

(** ** Admission *)
Definition inline_admit : action unit :=
  let* closed := ask F_Closed in if closed then raise CE_CacheClosed else ok tt.
(** [InlinePermit::status]; [token]: whether the caller gave one. *)
Definition status (token : bool) : action unit :=
  let* reason := if token then ask F_TokenReason else Ret None in
  match reason with
  | Some reason => raise (CE_OperationCancelled reason)
  | None => let* closed := ask F_Closed in if closed then raise (CE_OperationCancelled CacheShutdown) else ok tt
  end.

(** ** Readiness *)
Definition ready_context : prog ReadyContext :=
  let* started := ask F_MaintenanceStarted in
  let* starts := if started then Ret false else ask (F_Worker C_Runtime) in
  if has_backplane ci || starts then ask F_StartMaintenance ;;; Ret Retiring else Ret Borrowed.
Definition ensure_health (context : ReadyContext) : action unit :=
  match context with Borrowed => ok tt | Retiring => ask (F_Worker C_Health) end.
Definition ready_slot_copy (opts : EntryOptions) : bool :=
  negb (EntryOptions.enable_auto_clone opts) && is_builtin (built_memory r)
  && (disable_tagging ci || negb (is_controlled (marker_reads mc))).
Definition native_inline_read : bool :=
  negb (is_hybrid (storage ci)) && is_builtin (built_memory r)
  && negb (RuntimeRequirement.requires_runtime (default_runtime ci)) && negb (built_options_provider r)
  && negb (EntryOptions.enable_auto_clone (default_options ci)).
Definition ready_tags (e : Entry) : prog TagVerdict := on_worker (evaluate_tags ci e).
Definition is_valid (v : TagVerdict) : bool := match v with Valid => true | _ => false end.

Definition from_observation (e : ObservationError) : CacheError :=
  match e with OE_Memory => CE_MarkerMemoryStorage | OE_Entry e => from_entry_error e end.
Definition probe_marker (observations : Observations) (kind : MarkerKind) (now : Timestamp) (epoch : Z) (shortcut : ClearShortcut)
    : action (option MarkerReady) :=
  let* clears := ask F_Clears in
  let* probe := on_observations (ready_value observations clears kind (tags_default_options mc) now epoch shortcut) in
  Ret (map_err from_observation probe).
Section markers.
Context (observations : Observations) (e : Entry) (now : Timestamp) (epoch : Z).
Fixpoint probe_markers (shortcut : ClearShortcut) (kinds : list MarkerKind) : action bool :=
  match kinds with
  | [] => let* verdict := ready_tags e in ok (is_valid verdict)
  | kind :: kinds =>
      let? probe := probe_marker observations kind now epoch shortcut in
      match probe with
      | None => ok false
      | Some probe =>
          match MarkerReady.maximum probe with Some maximum => ask (F_Advance kind maximum) | None => Ret tt end ;;;
          ask (F_MarkerEvent kind (MarkerReady.outcome probe)) ;;;
          let* verdict := match MarkerReady.maximum probe with Some _ => ready_tags e | None => Ret Valid end in
          if is_valid verdict then probe_markers shortcut kinds else ok false
      end
  end.
Fixpoint probe_events (kinds : list MarkerKind) : action unit :=
  match kinds with
  | [] => ok tt
  | kind :: kinds =>
      let? probe := probe_marker observations kind now epoch CS_Bypass in
      match probe with Some probe => ask (F_MarkerEvent kind (MarkerReady.outcome probe)) | None => Ret tt end ;;;
      probe_events kinds
  end.
End markers.

Definition marker_reads_ready (e : Entry) (now : Timestamp) : action bool :=
  if disable_tagging ci || bool_decide (marker_read_policy ci = DurableRequired) then ok true
  else
    match markers mc, marker_reads mc with
    | AC_Unavailable, _ => ok false
    | _, DurableReads => ok true
    | access, ControlledReads observations =>
        if bool_decide (access = AC_Local) && negb (supplied observations) then ok true
        else
          let* epoch := ask (F_Worker C_Epoch) in
          probe_markers observations e now epoch (if marker_clear_shortcut ci then CS_Allow else CS_Bypass)
            (secondary_marker_kinds (Entry.tags (Entry.meta e)))
    end.
Definition local_marker_ready_events (e : Entry) (now : Timestamp) : action unit :=
  if disable_tagging ci || negb (bool_decide (markers mc = AC_Local)) then ok tt
  else
    match marker_reads mc with
    | DurableReads => ok tt
    | ControlledReads observations =>
        if supplied observations then ok tt
        else
          let* epoch := ask (F_Worker C_Epoch) in
          probe_events observations now epoch (secondary_marker_kinds (Entry.tags (Entry.meta e)))
    end.

(** ** The ready lookup *)
Definition ready_options (options : option EntryOptions) : action EntryOptions :=
  match options with
  | Some options => let? _ := on_worker (validate_options ci options) in ok options
  | None =>
      let? _ := on_worker (validate_runtime (RuntimeRequirement.requires_runtime (default_runtime ci))) in
      ok (default_options ci)
  end.
(** An entry cloned out of its slot: its markers, then the copy. *)
Definition owned_hit (token : bool) (mode : LookupMode) (opts : EntryOptions) (e : Entry) (now : Timestamp)
    : action (option (ReadyHit V)) :=
  let? ready := marker_reads_ready e now in
  if negb ready then ok None
  else
    let eager := is_get_or_set mode && Entry.should_eager_refresh e now in
    let? value := on_worker (copy ci (Entry.value e) opts) in
    let? _ := status token in
    let? _ := local_marker_ready_events e now in
    let? _ := status token in
    ok (Some (mkHit value (if eager then Some (e, opts) else None))).
Definition select_hit (token : bool) (mode : LookupMode) (opts : EntryOptions) (now : Timestamp)
    (found : option (Entry * Freshness)) : action (option (ReadyHit V)) :=
  let* selected :=
    match found with
    | None => Ret None
    | Some (e, freshness) =>
        let* verdict := ready_tags e in
        Ret (if is_valid verdict && is_fresh freshness then Some e else None)
    end in
  let? _ := status token in
  match selected with
  | None => ok None
  | Some e =>
      if ready_slot_copy opts && negb (is_get_or_set mode && Entry.should_eager_refresh e now)
      then ok (Some (mkHit (Entry.value e) None))
      else owned_hit token mode opts e now
  end.
Definition ready_value (key : string) (options : option EntryOptions) (token : bool) (mode : LookupMode)
    : action (option (ReadyHit V)) :=
  let? _ := status token in
  let* context := ready_context in
  let* waiting :=
    if has_backplane ci && built_waits r
    then let* admitted := ask F_SubscriptionAdmitted in Ret (negb admitted) else Ret false in
  if waiting : bool then ok None
  else
    let? opts := ready_options options in
    if EntryOptions.skip_memory_read opts then ok None
    else
      let? _ := ensure_health context in
      let? _ := status token in
      let* now := ask (F_Worker C_Now) in
      let? _ := status token in
      let? found := ask (F_WithReady key now) in
      let? hit := select_hit token mode opts now found in
      match hit with
      | None => ok None
      | Some hit =>
          on_worker (emit_layer (LE_MemoryHit key false)) ;;;
          let? _ := status token in ok (Some hit)
      end.

Definition as_start (resolved : option EntryOptions) (result : result CacheError (option (ReadyHit V))) : LookupStart V :=
  match result with
  | Ok None => LS_Owned resolved
  | Ok (Some hit) => LS_Ready (Ok hit)
  | Err e => LS_Ready (Err e)
  end.
(** The provider is asked for options only while the operation may run. *)
Definition provided_options (raw : string) (options : option EntryOptions) (token : bool) : prog (option EntryOptions) :=
  match options with
  | Some _ => Ret None
  | None =>
      let* admitted := status token in
      match admitted with
      | Ok _ =>
          if built_options_provider r then
            let* provided := ask (F_Worker (C_OptionsFor raw)) in
            Ret (Some (default (default_options ci) provided))
          else Ret None
      | Err _ => Ret None
      end
  end.
Definition start_lookup (raw : string) (options : option EntryOptions) (token : bool) (mode : LookupMode)
    : prog (LookupStart V) :=
  let* resolved := provided_options raw options token in
  let* result :=
    let? _ := inline_admit in
    ready_value (full_key ci raw) (match resolved with Some o => Some o | None => options end) token mode in
  Ret (as_start resolved result).

(** [ReadyLookup::finish], and what [QuietReady::finish] shares with it. *)
Definition conclude (key : string) (token : bool) (result : result CacheError V) : action V :=
  let? value :=
    match result with
    | Err CE_CacheClosed => raise CE_CacheClosed
    | result => let? _ := status token in Ret result
    end in
  on_worker (emit_outcome (EV_Hit key false)) ;;;
  let? _ := status token in ok value.
Definition finish_ready (key : string) (token : bool) (result : result CacheError (ReadyHit V)) : action V :=
  conclude key token (match result with Ok hit => Ok (hit_value hit) | Err e => Err e end).
Definition finish_quiet (key : string) (token : bool) (value : result CacheError V) : action V :=
  let* result :=
    match value with
    | Ok value => on_worker (emit_layer (LE_MemoryHit key false)) ;;; let? _ := status token in ok value
    | Err e => raise e
    end in
  conclude key token result.

(** ** The callback-free lookup *)
Definition quiet_copy (mode : LookupMode) (e : Entry) (freshness : Freshness) : prog (option (QuietCopy V)) :=
  let* verdict := ready_tags e in
  Ret (if negb (is_valid verdict) || negb (is_fresh freshness) then None
       else if is_get_or_set mode && bool_decide (is_Some (Metadata.eager_refresh_at (Entry.meta e)))
       then Some QC_EntryPolicy else Some (QC_Value (Entry.value e))).
Definition counted_primitive_lookup (copied : result CacheError (option (QuietCopy V))) : prog (QuietStart V) :=
  match copied with
  | Ok copied =>
      ask F_ComponentRead ;;;
      Ret match copied with
          | Some (QC_Value value) => QS_Ready (Ok value)
          | Some QC_EntryPolicy => QS_Recheck
          | None => QS_Owned
          end
  | Err e => Ret (QS_Ready (Err e))
  end.
Definition callback_free_lookup (key : string) (mode : LookupMode) : prog (QuietStart V) :=
  let* found := ask (F_WithLocalReady key) in
  let* copied :=
    match found with
    | None => raise CE_CacheClosed
    | Some found =>
        let* copied := match found with Some (e, freshness) => quiet_copy mode e freshness | None => Ret None end in
        let* closed := ask F_Closed in
        if closed : bool then raise (CE_OperationCancelled CacheShutdown) else ok copied
    end in
  match copied with
  | Ok (Some (QC_Value value)) =>
      let* quiet := ask F_Quiet in
      if quiet : bool then Ret (QS_Complete (Ok value)) else counted_primitive_lookup copied
  | Err e =>
      let* quiet := ask F_Quiet in
      if quiet : bool then Ret (QS_Complete (Err e)) else counted_primitive_lookup copied
  | copied => counted_primitive_lookup copied
  end.
(** Nobody listens, and nothing is logged. *)
Definition quiet_gate : prog bool :=
  let* quiet := ask F_Quiet in
  if negb quiet then Ret false else let* debug := ask F_Debug in Ret (negb debug).
Definition quiet_lookup (key : string) (options : option EntryOptions) (token : bool) (mode : LookupMode) (inputs : Inputs)
    : prog (QuietStart V) :=
  match built_ready_plan r, options with
  | CallbackFree, None =>
      let* passes := quiet_gate in
      match inputs with
      | NoCallbacks =>
          if negb passes || token then Ret QS_General
          else if plugin then let* _ := quiet_gate in Ret QS_General
          else callback_free_lookup key mode
      | Destructors => Ret QS_General
      end
  | _, _ => Ret QS_General
  end.

(** ** Entry points *)

(** Cancellation recorded while the pipeline ran wins over its result. *)
Definition settle_inline {T} (result : result CacheError (Observed T)) : action T :=
  let* reason := ask (F_Worker C_Cancelled) in
  let? observed := match reason with Some reason => raise (CE_OperationCancelled reason) | None => Ret result end in
  let? _ := status false in
  ok (observed_value observed).
(** The inline attempt: one poll of the owned pipeline; [None] when it defers. *)
Definition immediate_read (raw full : string) (options : option EntryOptions) (token : bool)
    : prog (option (result CacheError (option V))) :=
  match distributed_read_plan ci with
  | PlanOwned => Ret None
  | PlanImmediate =>
      if token then Ret None
      else
        let* started := ask F_MaintenanceStarted in
        if negb started then Ret None
        else
          let* first := polled (Read.read ci raw full options) in
          match first with
          | None => Ret None
          | Some result => let* result := settle_inline result in Ret (Some result)
          end
  end.
(** The options of an owned pipeline: those a provider gave, else the caller's. *)
Definition or_options (resolved options : option EntryOptions) : option EntryOptions :=
  match resolved with Some o => Some o | None => options end.
Definition begin_general_read (raw : string) (options : option EntryOptions) (token : bool) : prog (ReadStart V) :=
  let* start := start_lookup raw options token LookupRead in
  match start with
  | LS_Ready ready =>
      let* result := finish_ready (full_key ci raw) token ready in
      Ret (BR_Ready (match result with Ok v => Ok (Some v) | Err e => Err e end))
  | LS_Owned resolved =>
      let options := or_options resolved options in
      let* inline := immediate_read raw (full_key ci raw) options token in
      Ret match inline with Some result => BR_Ready result | None => BR_Pending options end
  end.
(** A read that reaches [unreachable!] panics. *)
Definition begin_read (key : string) (options : option EntryOptions) (token : bool) : prog (ReadStart V) :=
  let* quiet := quiet_lookup key options token LookupRead NoCallbacks in
  match quiet with
  | QS_Complete result => Ret (BR_Ready (match result with Ok v => Ok (Some v) | Err e => Err e end))
  | QS_Ready ready =>
      let* result := finish_quiet key token ready in
      Ret (BR_Ready (match result with Ok v => Ok (Some v) | Err e => Err e end))
  | QS_Owned => Ret (BR_Pending options)
  | QS_Recheck => Ret (BR_Ready (Err CE_Panic))
  | QS_General => begin_general_read key options token
  end.

(** [begin_origin_lazy], as far as the owned pipelines: a ready value, whose
    eager refresh is started first, or a miss. *)
Definition ready_origin (raw : string) (ready : result CacheError (ReadyHit V)) : prog (result CacheError (ReadyHit V)) :=
  match ready with
  | Ok (mkHit value (Some (current, options))) => ask (F_Eager (full_key ci raw) options current) ;;; Ret (Ok (mkHit value None))
  | ready => Ret ready
  end.
Definition supports_inline_cold (options : option EntryOptions) : bool :=
  let options := default (default_options ci) options in
  built_flights r && negb (EntryOptions.enable_auto_clone options) && negb (EntryOptions.skip_memory_read options)
  && negb (EntryOptions.is_fail_safe_enabled options)
  && bool_decide (EntryOptions.eager_refresh_threshold options = None)
  && Timeout.is_infinite (EntryOptions.factory_hard_timeout options)
  && Timeout.is_infinite (EntryOptions.factory_soft_timeout options)
  && Timeout.is_infinite (EntryOptions.memory_lock_timeout options).
(** Serves a miss inline while same-key ownership is free; [None] when it
    defers. A lookup dropped at a suspension releases its ownership. *)
Definition immediate_origin (raw full : string) (options : option EntryOptions) (token : bool) (kind : OriginKind) (default : bool)
    : prog (option (OriginStart V)) :=
  match distributed_read_plan ci with
  | PlanOwned => Ret None
  | PlanImmediate =>
      if token || has_locker ci || negb (built_locks r) then Ret None
      else
        let* started := ask F_MaintenanceStarted in
        if negb started then Ret None
        else
          let* guard := on_worker (try_origin_guard ci full) in
          match guard with
          | Ok (Some guard) =>
              let* opts := on_worker (resolve_lookup_options ci raw options) in
              match opts with
              | Err _ => on_worker (drop_flight guard) ;;; Ret None
              | Ok opts =>
                  let* lookup := polled (lookup_origin ci full opts kind default (Some guard)) in
                  match lookup with
                  | None => on_worker (drop_flight guard) ;;; Ret None
                  | Some (Ok (OL_Origin opts stale guard)) => Ret (Some (BO_Continued opts stale guard))
                  | Some lookup =>
                      let* result :=
                        match lookup with
                        | Ok (OL_Refresh options current) =>
                            ask (F_Eager full options current) ;;; on_worker (served ci full current options CL_Memory)
                        | Ok (OL_Served observed) => ok observed
                        | Ok (OL_Origin _ _ _) => raise CE_Panic
                        | Err e => raise e
                        end in
                      let* result := settle_inline result in
                      Ret (Some (BO_Ready (match result with Ok value => Ok (cached_value value) | Err e => Err e end)))
                  end
              end
          | _ => Ret None
          end
  end.
Definition kind_of (mode : LookupMode) : OriginKind := match mode with LookupConstant => OK_Constant | _ => OK_Factory end.
Definition start_origin_lookup (raw : string) (start : LookupStart V) (options : option EntryOptions) (token : bool)
    (mode : LookupMode) (fallback : bool) : prog (OriginStart V) :=
  match start with
  | LS_Ready ready =>
      let* ready := ready_origin raw ready in
      let* result := finish_ready (full_key ci raw) token ready in
      Ret (BO_Ready result)
  | LS_Owned resolved =>
      let* _ := ready_context in
      let options := or_options resolved options in
      if supports_inline_cold options then Ret (BO_Cold (default (default_options ci) options))
      else
        let* inline := immediate_origin raw (full_key ci raw) options token (kind_of mode) fallback in
        Ret (default (BO_Owned options) inline)
  end.
Definition resume_plain_origin (key : string) (token : bool) : prog (LookupStart V) :=
  let* result := ready_value key None token LookupGetOrSet in
  Ret (as_start None result).
Definition begin_origin (key : string) (options : option EntryOptions) (token : bool) (mode : LookupMode) (inputs : Inputs)
    (fallback : bool) : prog (OriginStart V) :=
  let* quiet := quiet_lookup key options token mode inputs in
  match quiet with
  | QS_Complete result => Ret (BO_Ready result)
  | QS_Ready ready => let* result := finish_quiet key token ready in Ret (BO_Ready result)
  | QS_Owned => start_origin_lookup key (LS_Owned None) options token mode fallback
  | QS_Recheck =>
      let* start := resume_plain_origin key token in start_origin_lookup key start options token mode fallback
  | QS_General =>
      let* start := start_lookup key options token mode in start_origin_lookup key start options token mode fallback
  end.

(** A read with a default, and the entry points of blocking callers: a ready
    value, or what their executor then runs. *)
Inductive DefaultStart := BD_Ready (r : result CacheError V) | BD_Pending (options : option EntryOptions) (default : V).
Definition begin_default_read (key : string) (options : option EntryOptions) (token : bool) (default : V)
    : prog DefaultStart :=
  let* quiet := quiet_lookup key options token LookupRead Destructors in
  match quiet with
  | QS_Complete _ | QS_Recheck => Ret (BD_Ready (Err CE_Panic))
  | QS_Ready ready => let* result := finish_quiet key token ready in Ret (BD_Ready result)
  | QS_Owned => Ret (BD_Pending options default)
  | QS_General =>
      let* start := start_lookup key options token LookupRead in
      match start with
      | LS_Ready ready => let* result := finish_ready (full_key ci key) token ready in Ret (BD_Ready result)
      | LS_Owned resolved => Ret (BD_Pending (or_options resolved options) default)
      end
  end.
Inductive NativeStart := NR_Ready (r : result CacheError (option V)) | NR_Run (options : option EntryOptions) | NR_Request.
Definition native_read_general (key : string) (options : option EntryOptions) (token : bool) : prog NativeStart :=
  if bool_decide (is_Some options) || token || negb native_inline_read then Ret NR_Request
  else
    let* start := start_lookup key None false LookupRead in
    match start with
    | LS_Ready ready =>
        let* result := finish_ready (full_key ci key) false ready in
        Ret (NR_Ready (match result with Ok v => Ok (Some v) | Err e => Err e end))
    | LS_Owned resolved => Ret (NR_Run resolved)
    end.
Definition native_read (key : string) (options : option EntryOptions) (token : bool) : prog NativeStart :=
  let* quiet := quiet_lookup key options token LookupRead NoCallbacks in
  match quiet with
  | QS_Complete result => Ret (NR_Ready (match result with Ok v => Ok (Some v) | Err e => Err e end))
  | QS_Ready ready =>
      let* result := finish_quiet key token ready in
      Ret (NR_Ready (match result with Ok v => Ok (Some v) | Err e => Err e end))
  | QS_Owned => Ret (NR_Run None)
  | QS_Recheck => Ret (NR_Ready (Err CE_Panic))
  | QS_General => native_read_general key options token
  end.
End front.

(** ** The callback-free lookup agrees with the ready lookup *)
Module FrontTheory.
Section theory.
Context {V : Type}.

(** A world that stands still: what the scopes, the caller's token, the clock,
    the registry and the memory store answer to every question of one lookup.
    Observers, the log level and maintenance may be in any state, and change. *)
Record Still := mkStill {
  s_closed : bool; s_reason : option CancellationReason; s_now : Timestamp; s_verdict : TagVerdict;
  s_found : option (Entry V * Freshness) }.
Definition answers (s : Still) (c : FCall V) : fanswer c → Prop :=
  match c with
  | F_Closed => λ x, x = s_closed s
  | F_TokenReason => λ x, x = s_reason s
  | F_WithReady _ now => λ x, x = Ok (s_found s)
  | F_WithLocalReady _ => λ x, x = if s_closed s then None else Some (s_found s)
  | F_Worker c =>
      match c return answer c → Prop with
      | C_Now => λ x, x = s_now s
      | C_Tags _ _ _ => λ x, x = s_verdict s
      | C_Health => λ x, x = Ok tt
      | _ => λ _, True
      end
  | _ => λ _, True
  end.
(** The state records the eager refreshes. *)
Definition record_eager (c : FCall V) (l : list (Entry V)) : list (Entry V) :=
  match c with F_Eager _ _ current => l ++ [current] | _ => l end.
Definition still (s : Still) : Env (fanswer (V := V)) :=
  mkEnv (list (Entry V)) (λ l c x l', answers s c x ∧ l' = record_eager c l).

(** What a lookup without options comes to. *)
Definition verdict_of (r : Built) (s : Still) : TagVerdict := if disable_tagging (built_inner r) then Valid else s_verdict s.
Definition expected (r : Built) (token : bool) (s : Still) : result CacheError (option (Entry V)) :=
  if s_closed s then Err CE_CacheClosed
  else match (if token then s_reason s else None) with
       | Some reason => Err (CE_OperationCancelled reason)
       | None =>
           Ok match s_found s with
              | Some (e, freshness) => if is_valid (verdict_of r s) && is_fresh freshness then Some e else None
              | None => None
              end
       end.
Definition expected_read (r : Built) (token : bool) (s : Still) : ReadStart V :=
  match expected r token s with
  | Ok (Some e) => BR_Ready (Ok (Some (Entry.value e)))
  | Ok None => BR_Pending None
  | Err e => BR_Ready (Err e)
  end.

Definition computes (s : Still) {A} (p : prog (fanswer (V := V)) A) (l : list (Entry V)) (a : A) (l' : list (Entry V)) : Prop :=
  wp (still s) p l (λ x l2, x = a ∧ l2 = l').

Section computes.
Context (s : Still).
Lemma computes_ret {A} (a : A) l : computes s (Ret a) l a l.
Proof. done. Qed.
Lemma computes_bind {A B} (p : prog (fanswer (V := V)) A) (f : A → prog (fanswer (V := V)) B) l a l1 b l2 :
  computes s p l a l1 → computes s (f a) l1 b l2 → computes s (bind p f) l b l2.
Proof. intros Hp Hf. apply wp_bind. eapply wp_mono; [exact Hp|]. by intros x l' [-> ->]. Qed.
Lemma computes_ok {A B E} (p : prog (fanswer (V := V)) (result E A)) (f : A → prog (fanswer (V := V)) (result E B)) l a l1 b l2 :
  computes s p l (Ok a) l1 → computes s (f a) l1 b l2 → computes s (attempt p f) l b l2.
Proof. intros Hp Hf. unfold attempt. eapply computes_bind; [exact Hp|exact Hf]. Qed.
Lemma computes_err {A B E} (p : prog (fanswer (V := V)) (result E A)) (f : A → prog (fanswer (V := V)) (result E B)) l e l1 :
  computes s p l (Err e) l1 → computes s (attempt p f) l (Err e) l1.
Proof. intros H. unfold attempt. eapply computes_bind; [exact H|done]. Qed.
Lemma computes_act {A} c (k : fanswer c → prog (fanswer (V := V)) A) l b l2 :
  (∀ x, answers s c x → computes s (k x) (record_eager c l) b l2) → computes s (Act c k) l b l2.
Proof. intros H x l' [Hx ->]. by apply H. Qed.

Definition status_of (token : bool) : result CacheError unit :=
  match (if token then s_reason s else None) with
  | Some reason => Err (CE_OperationCancelled reason)
  | None => if s_closed s then Err (CE_OperationCancelled CacheShutdown) else Ok tt
  end.
Lemma computes_status token l : computes s (status token) l (status_of token) l.
Proof.
  unfold status, status_of. destruct token; [|apply computes_act; intros x ->; by destruct (s_closed s)].
  apply computes_act. intros x ->. destruct (s_reason s) as [reason|]; [done|].
  apply computes_act. intros x ->. by destruct (s_closed s).
Qed.
Lemma computes_admit l : computes s inline_admit l (if s_closed s then Err CE_CacheClosed else Ok tt) l.
Proof. apply computes_act. intros x ->. by destruct (s_closed s). Qed.
Lemma computes_tags r e l : computes s (ready_tags r e) l (verdict_of r s) l.
Proof.
  unfold ready_tags, evaluate_tags, verdict_of. destruct (disable_tagging (built_inner r)); [done|].
  apply computes_act. by intros x ->.
Qed.
Lemma computes_notice n l : computes s (on_worker (call (C_Emit n))) l tt l.
Proof. apply computes_act. by intros []. Qed.
End computes.

(** What the construction of a callback-free cache guarantees its lookups. *)
Record simple (r : Built) : Prop := mkSimple {
  p_plan : built_ready_plan r = CallbackFree;
  p_prefix : key_prefix (built_inner r) = None;
  p_backplane : has_backplane (built_inner r) = false;
  p_runtime : default_runtime (built_inner r) = RR_Inline;
  p_provider : built_options_provider r = false;
  p_skip : EntryOptions.skip_memory_read (default_options (built_inner r)) = false;
  p_clone : EntryOptions.enable_auto_clone (default_options (built_inner r)) = false;
  p_valid : EntryOptions.validate (default_options (built_inner r)) = Ok tt;
  p_slot : ready_slot_copy r (default_options (built_inner r)) = true;
  p_markers : disable_tagging (built_inner r) = true ∨ marker_reads (built_markers r) = DurableReads;
  p_policy : marker_reads (built_markers r) = DurableReads → marker_read_policy (built_inner r) = DurableRequired;
  p_storage : is_hybrid (storage (built_inner r)) = false;
  p_distributed : distributed_read_plan (built_inner r) = PlanOwned }.
Lemma coherent_simple primitive b r :
  BuilderTheorems.coherent primitive b r → built_ready_plan r = CallbackFree → simple r.
Proof.
  intros Hc Hp.
  destruct (BuilderTheorems.c_callback_free _ _ _ Hc Hp) as (_ & Hw & Hclock & Hslots & Hrt & _ & Hskip & Hcopies & Hpre & Hprov & Hm).
  destruct (BuilderTheorems.c_local_time _ _ _ Hc Hclock) as (Hst & _ & Hbp & _ & Hbi & _).
  destruct (BuilderTheorems.c_options _ _ _ Hc) as (Hv & _ & _ & Hcp). rewrite Hcopies in Hcp.
  constructor; auto.
  - unfold ready_slot_copy. rewrite <- Hcp, Hbi. destruct Hm as [->| ->]; [done|]. by destruct (disable_tagging _).
  - intros Hd. pose proof (BuilderTheorems.c_reads _ _ _ Hc) as Hr. rewrite Hd in Hr. apply Hr.
  - by rewrite Hst.
  - destruct (distributed_read_plan (built_inner r)) eqn:E; [done|].
    destruct (BuilderTheorems.c_immediate _ _ _ Hc E) as (Hh & _). by rewrite Hst in Hh.
Qed.

Section lookups.
Context (s : Still) (r : Built) (Hr : simple r).
Local Abbreviation ci := (built_inner r).

Definition served : option (Entry V) :=
  match s_found s with
  | Some (e, freshness) => if is_valid (verdict_of r s) && is_fresh freshness then Some e else None
  | None => None
  end.
Definition eager_of (mode : LookupMode) (e : Entry V) : bool := is_get_or_set mode && Entry.should_eager_refresh e (s_now s).
Definition hit_of (mode : LookupMode) (e : Entry V) : ReadyHit V :=
  mkHit (Entry.value e) (if eager_of mode e then Some (e, default_options ci) else None).

Lemma computes_copy (v : V) l : computes s (on_worker (copy ci v (default_options ci))) l (Ok v) l.
Proof. unfold copy, from. rewrite (p_valid _ Hr), (p_clone _ Hr). done. Qed.
Lemma marker_reads_trivial e now : marker_reads_ready (V := V) r e now = ok true.
Proof.
  unfold marker_reads_ready. destruct (p_markers _ Hr) as [->|Hd]; [done|].
  rewrite (p_policy _ Hr Hd), bool_decide_eq_true_2 by done. by rewrite orb_true_r.
Qed.
Lemma marker_events_trivial e now : local_marker_ready_events (V := V) r e now = ok tt.
Proof.
  unfold local_marker_ready_events. destruct (p_markers _ Hr) as [->| ->]; [done|]. by destruct (_ || _).
Qed.

Section admitted.
Context (token : bool) (Hst : status_of s token = Ok tt).
Lemma computes_admitted {A} (f : unit → prog (fanswer (V := V)) (result CacheError A)) l b l2 :
  computes s (f tt) l b l2 → computes s (attempt (status token) f) l b l2.
Proof. intros H. eapply computes_ok; [rewrite <- Hst; apply computes_status|done]. Qed.

Lemma computes_context {A} (f : ReadyContext → prog (fanswer (V := V)) A) l b l2 :
  (∀ context, computes s (f context) l b l2) → computes s (bind (ready_context r) f) l b l2.
Proof.
  intros H. unfold ready_context. rewrite (p_backplane _ Hr). apply computes_act. intros started _.
  destruct started; [apply H|]. apply computes_act. intros runs _. destruct runs; [|apply H].
  apply computes_act. intros [] _. apply H.
Qed.
Lemma computes_select mode l :
  computes s (select_hit r token mode (default_options ci) (s_now s) (s_found s)) l (Ok (hit_of mode <$> served)) l.
Proof.
  unfold select_hit, served. eapply (computes_bind _ _ _ _ served); unfold served.
  { destruct (s_found s) as [[e f]|]; [|done]. eapply computes_bind; [apply computes_tags|done]. }
  apply computes_admitted. destruct (s_found s) as [[e f]|]; [|done]. destruct (is_valid _ && _); [|done].
  rewrite (p_slot _ Hr). simpl. unfold hit_of, eager_of. destruct (is_get_or_set mode && _) eqn:E; [|done]. simpl.
  unfold owned_hit. rewrite marker_reads_trivial. eapply computes_ok; [done|]. simpl.
  eapply computes_ok; [apply computes_copy|]. apply computes_admitted.
  rewrite marker_events_trivial. eapply computes_ok; [done|]. apply computes_admitted. by rewrite E.
Qed.
Lemma computes_ready key mode l :
  computes s (ready_value r key None token mode) l (Ok (hit_of mode <$> served)) l.
Proof.
  unfold ready_value. apply computes_admitted, computes_context. intros context. rewrite (p_backplane _ Hr). cbn [andb].
  eapply computes_bind; [apply computes_ret|]. cbv iota.
  eapply computes_ok; [by unfold ready_options; rewrite (p_runtime _ Hr)|]. rewrite (p_skip _ Hr).
  eapply computes_ok.
  { instantiate (1 := l). instantiate (1 := tt). destruct context; [done|]. apply computes_act. by intros x ->. }
  apply computes_admitted. apply computes_act. intros x ->. apply computes_admitted.
  apply computes_act. intros x ->. eapply computes_ok; [apply computes_select|].
  destruct served as [e|]; [|done]. cbn [fmap option_fmap option_map]. eapply computes_bind; [apply computes_notice|]. by apply computes_admitted.
Qed.
End admitted.

Lemma refused_status token e : status_of s token = Err e →
  e = CE_OperationCancelled (match s_reason s with Some reason => if token then reason else CacheShutdown | None => CacheShutdown end).
Proof. unfold status_of. destruct token, (s_reason s), (s_closed s); simpl; congruence. Qed.
Lemma ready_refused key token mode e l : status_of s token = Err e →
  computes s (ready_value r key None token mode) l (Err e) l.
Proof. intros He. unfold ready_value. eapply computes_err. rewrite <- He. apply computes_status. Qed.

(** *** The completions *)
Lemma conclude_served key token v l : status_of s token = Ok tt → computes s (conclude key token (Ok v)) l (Ok v) l.
Proof.
  intros Hst. unfold conclude. eapply computes_ok; [by apply computes_admitted|].
  eapply computes_bind; [apply computes_notice|]. by apply computes_admitted.
Qed.
Lemma conclude_refused key token e l :
  e = CE_CacheClosed ∨ status_of s token = Err e → computes s (conclude (V := V) key token (Err e)) l (Err e) l.
Proof.
  intros [->|He]; unfold conclude; eapply computes_err; [done|].
  pose proof (refused_status _ _ He) as ->. cbv iota. eapply computes_err. rewrite <- He. apply computes_status.
Qed.
Lemma expected_open token : s_closed s = false → expected r token s =
  match status_of s token with Ok _ => Ok served | Err e => Err e end.
Proof.
  intros Hc. unfold expected, status_of, served. rewrite Hc. destruct (if token then s_reason s else None); [done|]. done.
Qed.

(** *** The ready lookup *)
Lemma computes_provided raw token l : computes s (provided_options r raw None token) l None l.
Proof.
  unfold provided_options. eapply computes_bind; [apply computes_status|]. destruct (status_of s token); [|done].
  by rewrite (p_provider _ Hr).
Qed.
Lemma full_key_plain key : full_key ci key = key.
Proof. unfold full_key. by rewrite (p_prefix _ Hr). Qed.
Definition expected_start (token : bool) (mode : LookupMode) : LookupStart V :=
  match expected r token s with
  | Ok (Some e) => LS_Ready (Ok (hit_of mode e))
  | Ok None => LS_Owned None
  | Err e => LS_Ready (Err e)
  end.
Lemma computes_lookup raw token mode l :
  computes s (start_lookup r raw None token mode) l (expected_start token mode) l.
Proof.
  unfold start_lookup. eapply computes_bind; [apply computes_provided|]. rewrite full_key_plain.
  destruct (s_closed s) eqn:Hc.
  - eapply computes_bind; [eapply computes_err; pose proof (computes_admit s l) as H; rewrite Hc in H; exact H|].
    unfold expected_start, expected. by rewrite Hc.
  - assert (computes s inline_admit l (Ok tt) l) as Ha by (pose proof (computes_admit s l) as H; by rewrite Hc in H).
    unfold expected_start. rewrite (expected_open _ Hc). destruct (status_of s token) as [[]|e] eqn:Hst.
    + eapply computes_bind; [eapply computes_ok; [exact Ha|by apply computes_ready]|]. by destruct served.
    + eapply computes_bind; [eapply computes_ok; [exact Ha|by apply ready_refused]|]. done.
Qed.

(** *** The callback-free lookup *)
Definition begun (token : bool) (mode : LookupMode) (q : QuietStart V) : Prop :=
  match q with
  | QS_General => True
  | QS_Complete result | QS_Ready result =>
      token = false ∧
      match result with
      | Ok v => ∃ e, expected r token s = Ok (Some e) ∧ v = Entry.value e ∧ eager_of mode e = false
      | Err e => expected r token s = Err e ∧ s_closed s = true
      end
  | QS_Owned => token = false ∧ expected r token s = Ok None
  | QS_Recheck => token = false ∧ is_get_or_set mode = true ∧ ∃ e, expected r token s = Ok (Some e)
  end.
Definition quietly (token : bool) (mode : LookupMode) (p : prog (fanswer (V := V)) (QuietStart V)) l : Prop :=
  wp (still s) p l (λ q l', l' = l ∧ begun token mode q).
Lemma quietly_quiet token mode (f : bool → prog (fanswer (V := V)) (QuietStart V)) l :
  (∀ b, quietly token mode (f b) l) → quietly token mode (bind (call F_Quiet) f) l.
Proof. intros H x l' [_ ->]. apply H. Qed.
Lemma quietly_gate token mode (f : bool → prog (fanswer (V := V)) (QuietStart V)) l :
  (∀ b, quietly token mode (f b) l) → quietly token mode (bind quiet_gate f) l.
Proof.
  intros H x l' [_ ->]. destruct x; [|apply (H false)]. intros y l2 [_ ->]. apply (H (negb y)).
Qed.
Lemma eager_needs_mark mode e : Metadata.eager_refresh_at (Entry.meta e) = None → eager_of mode e = false.
Proof. intros He. unfold eager_of, Entry.should_eager_refresh. rewrite He. by destruct (is_get_or_set mode). Qed.
Lemma expected_unasked (Hc : s_closed s = false) : expected r false s = Ok served.
Proof. unfold expected. by rewrite Hc. Qed.
Lemma expected_closed token (Hc : s_closed s = true) : expected r token s = Err CE_CacheClosed.
Proof. unfold expected. by rewrite Hc. Qed.

Lemma counted_begun mode (copied : result CacheError (option (QuietCopy V))) l :
  begun false mode match copied with
    | Ok (Some (QC_Value v)) => QS_Ready (Ok v) | Ok (Some QC_EntryPolicy) => QS_Recheck
    | Ok None => QS_Owned | Err e => QS_Ready (Err e) end →
  quietly false mode (counted_primitive_lookup copied) l.
Proof.
  intros H. destruct copied as [[[v|]|]|e]; [..|by split]; intros x l' [_ ->]; by split.
Qed.
Lemma copied_begun mode (copied : result CacheError (option (QuietCopy V))) l :
  begun false mode match copied with
    | Ok (Some (QC_Value v)) => QS_Ready (Ok v) | Ok (Some QC_EntryPolicy) => QS_Recheck
    | Ok None => QS_Owned | Err e => QS_Ready (Err e) end →
  quietly false mode match copied with
    | Ok (Some (QC_Value value)) =>
        let* quiet := call F_Quiet in
        if quiet : bool then Ret (QS_Complete (Ok value)) else counted_primitive_lookup copied
    | Err e =>
        let* quiet := call F_Quiet in
        if quiet : bool then Ret (QS_Complete (Err e)) else counted_primitive_lookup copied
    | copied => counted_primitive_lookup copied
    end l.
Proof.
  intros H. destruct copied as [[[v|]|]|e]; try by apply counted_begun.
  - apply quietly_quiet. intros [|]; [by split|by apply counted_begun].
  - apply quietly_quiet. intros [|]; [by split|by apply counted_begun].
Qed.
Lemma computes_quiet_copy mode e f l :
  computes s (quiet_copy r mode e f) l
    (if negb (is_valid (verdict_of r s)) || negb (is_fresh f) then None
     else if is_get_or_set mode && bool_decide (is_Some (Metadata.eager_refresh_at (Entry.meta e)))
     then Some QC_EntryPolicy else Some (QC_Value (Entry.value e))) l.
Proof. unfold quiet_copy. eapply computes_bind; [apply computes_tags|done]. Qed.
Lemma quietly_bind {A} token mode (p : prog (fanswer (V := V)) A) f l Q :
  wp (still s) p l (λ a l', l' = l ∧ Q a) → (∀ a, Q a → quietly token mode (f a) l) → quietly token mode (bind p f) l.
Proof. intros Hp Hf. apply wp_bind. eapply wp_mono; [exact Hp|]. intros a l' [-> Ha]. by apply Hf. Qed.
Lemma callback_free_begun key mode l : quietly false mode (callback_free_lookup r key mode) l.
Proof.
  unfold callback_free_lookup. eapply (quietly_bind _ _ _ _ _ (λ found, found = if s_closed s then None else Some (s_found s))).
  { by intros x l' [Hx ->]. }
  intros found ->. eapply (quietly_bind _ _ _ _ _ (λ copied, begun false mode match copied with
    | Ok (Some (QC_Value v)) => QS_Ready (Ok v) | Ok (Some QC_EntryPolicy) => QS_Recheck
    | Ok None => QS_Owned | Err e => QS_Ready (Err e) end)); [|intros copied Hb; by apply (copied_begun mode copied)].
  destruct (s_closed s) eqn:Hc; [split; [done|]; simpl; by rewrite expected_closed|].
  pose proof (expected_unasked Hc) as Hx. unfold served in Hx.
  destruct (s_found s) as [[e f]|].
  - apply wp_bind. eapply wp_mono; [apply computes_quiet_copy|]. intros copied l' [-> ->].
    intros closed l'' [Hcl ->]. simpl in Hcl. subst closed. rewrite Hc. split; [done|].
    rewrite <- negb_andb. destruct (is_valid _ && is_fresh f); simpl; [|by rewrite Hx].
    destruct (is_get_or_set mode && _) eqn:E; simpl.
    + apply andb_prop in E as [E _]. rewrite Hx. eauto.
    + split; [done|]. exists e. split_and!; [done..|].
      apply andb_false_iff in E as [E|E]; [unfold eager_of; by rewrite E|].
      apply eager_needs_mark. apply bool_decide_eq_false in E. by apply eq_None_not_Some.
  - apply wp_bind. simpl. intros closed l'' [Hcl ->]. simpl in Hcl. subst closed. rewrite Hc. split; [done|].
    simpl. by rewrite Hx.
Qed.
Lemma quiet_begun plugin key token mode inputs l :
  quietly token mode (quiet_lookup r plugin key None token mode inputs) l.
Proof.
  unfold quiet_lookup. rewrite (p_plan _ Hr). apply quietly_gate. intros passes.
  destruct inputs; [|by split]. destruct (negb passes || token) eqn:E; [by split|].
  apply orb_false_elim in E as [_ ->]. destruct plugin; [|apply callback_free_begun].
  apply quietly_gate. by split.
Qed.

(** *** The entry points *)
Lemma expected_refusal token e : expected r token s = Err e → e = CE_CacheClosed ∨ status_of s token = Err e.
Proof.
  destruct (s_closed s) eqn:Hc; [rewrite expected_closed; [intros [= <-]; by left|done]|].
  rewrite (expected_open _ Hc). destruct (status_of s token); [done|]. intros [= <-]. by right.
Qed.
Lemma expected_admitted token o : expected r token s = Ok o → status_of s token = Ok tt.
Proof.
  destruct (s_closed s) eqn:Hc; [by rewrite expected_closed|].
  rewrite (expected_open _ Hc). by destruct (status_of s token) as [[]|].
Qed.
Lemma finish_ready_expected raw token mode e l :
  expected r token s = Ok (Some e) → computes s (finish_ready raw token (Ok (hit_of mode e))) l (Ok (Entry.value e)) l.
Proof. intros H. by apply conclude_served, (expected_admitted _ _ H). Qed.
Lemma finish_quiet_served key token v l : status_of s token = Ok tt → computes s (finish_quiet key token (Ok v)) l (Ok v) l.
Proof.
  intros H. unfold finish_quiet. eapply computes_bind; [|by apply conclude_served].
  eapply computes_bind; [apply computes_notice|]. by apply computes_admitted.
Qed.
Lemma finish_quiet_refused key token e l :
  e = CE_CacheClosed ∨ status_of s token = Err e → computes s (finish_quiet (V := V) key token (Err e)) l (Err e) l.
Proof. intros H. unfold finish_quiet. eapply computes_bind; [done|by apply conclude_refused]. Qed.
Lemma general_read_expected raw token l :
  computes s (begin_general_read r raw None token) l (expected_read r token s) l.
Proof.
  unfold begin_general_read, expected_read. eapply computes_bind; [apply computes_lookup|].
  unfold expected_start. rewrite full_key_plain. destruct (expected r token s) as [[e|]|e] eqn:Hx.
  - eapply computes_bind; [by apply finish_ready_expected|done].
  - unfold immediate_read. rewrite (p_distributed _ Hr). done.
  - eapply computes_bind; [by apply conclude_refused, (expected_refusal _ _ Hx)|done].
Qed.
Lemma read_expected plugin raw token l :
  computes s (begin_read r plugin raw None token) l (expected_read r token s) l.
Proof.
  unfold begin_read. apply wp_bind. eapply wp_mono; [apply quiet_begun|].
  intros q l' [-> Hq]. destruct q as [|[v|e]|[v|e]| |].
  - apply general_read_expected.
  - destruct Hq as [_ (e & Hx & -> & _)]. unfold expected_read. by rewrite Hx.
  - destruct Hq as [_ [Hx _]]. unfold expected_read. by rewrite Hx.
  - destruct Hq as [_ (e & Hx & -> & _)]. unfold expected_read. rewrite Hx.
    eapply computes_bind; [by apply finish_quiet_served, (expected_admitted _ _ Hx)|done].
  - destruct Hq as [_ [Hx _]]. unfold expected_read. rewrite Hx.
    eapply computes_bind; [by apply finish_quiet_refused, (expected_refusal _ _ Hx)|done].
  - destruct Hq as [_ Hx]. unfold expected_read. by rewrite Hx.
  - destruct Hq as (_ & [=] & _).
Qed.

(** A read with a default, and the read of a blocking caller without a token. *)
Definition expected_default (token : bool) (v : V) : DefaultStart (V := V) :=
  match expected r token s with
  | Ok (Some e) => BD_Ready (Ok (Entry.value e))
  | Ok None => BD_Pending None v
  | Err e => BD_Ready (Err e)
  end.
Definition expected_native (token : bool) : NativeStart (V := V) :=
  if token then NR_Request
  else match expected r token s with
       | Ok (Some e) => NR_Ready (Ok (Some (Entry.value e)))
       | Ok None => NR_Run None
       | Err e => NR_Ready (Err e)
       end.
Lemma quiet_destructors plugin key token mode l :
  wp (still s) (quiet_lookup r plugin key None token mode Destructors) l (λ q l', l' = l ∧ q = QS_General).
Proof.
  unfold quiet_lookup. rewrite (p_plan _ Hr). intros quiet l' [_ ->].
  destruct quiet; [intros debug l' [_ ->]|]; by split.
Qed.
Lemma default_read_expected plugin raw token v l :
  computes s (begin_default_read r plugin raw None token v) l (expected_default token v) l.
Proof.
  unfold begin_default_read, expected_default. apply wp_bind. eapply wp_mono; [apply quiet_destructors|].
  intros q l' [-> ->]. eapply computes_bind; [apply computes_lookup|]. unfold expected_start. rewrite full_key_plain.
  destruct (expected r token s) as [[e|]|e] eqn:Hx.
  - eapply computes_bind; [by apply finish_ready_expected|done].
  - done.
  - eapply computes_bind; [by apply conclude_refused, (expected_refusal _ _ Hx)|done].
Qed.
Lemma native_read_expected plugin raw token l :
  computes s (native_read r plugin raw None token) l (expected_native token) l.
Proof.
  unfold native_read, expected_native. apply wp_bind. eapply wp_mono; [apply quiet_begun|].
  assert (native_inline_read r = true) as Hn.
  { unfold native_inline_read. rewrite (p_storage _ Hr), (p_runtime _ Hr), (p_provider _ Hr), (p_clone _ Hr).
    pose proof (p_slot _ Hr) as Hs. unfold ready_slot_copy in Hs. by destruct (is_builtin _); [|rewrite andb_false_r in Hs]. }
  intros q l' [-> Hq]. destruct q as [|[v|e]|[v|e]| |].
  - unfold native_read_general. rewrite Hn. destruct token; [done|]. eapply computes_bind; [apply computes_lookup|].
    unfold expected_start. rewrite full_key_plain. destruct (expected r false s) as [[e|]|e] eqn:Hx.
    + eapply computes_bind; [by apply finish_ready_expected|done].
    + done.
    + eapply computes_bind; [by apply conclude_refused, (expected_refusal _ _ Hx)|done].
  - destruct Hq as [-> (e & Hx & -> & _)]. by rewrite Hx.
  - destruct Hq as [-> [Hx _]]. by rewrite Hx.
  - destruct Hq as [-> (e & Hx & -> & _)]. rewrite Hx.
    eapply computes_bind; [by apply finish_quiet_served, (expected_admitted _ _ Hx)|done].
  - destruct Hq as [-> [Hx _]]. rewrite Hx.
    eapply computes_bind; [by apply finish_quiet_refused, (expected_refusal _ _ Hx)|done].
  - destruct Hq as [-> Hx]. by rewrite Hx.
  - destruct Hq as (_ & [=] & _).
Qed.

(** A get-or-set serves the same, and starts the refresh of a value due for one. *)
Definition expected_origin (token : bool) : OriginStart V :=
  match expected r token s with
  | Ok (Some e) => BO_Ready (Ok (Entry.value e))
  | Ok None => if supports_inline_cold r None then BO_Cold (default_options ci) else BO_Owned None
  | Err e => BO_Ready (Err e)
  end.
Definition refreshed (token : bool) (mode : LookupMode) (l : list (Entry V)) : list (Entry V) :=
  match expected r token s with
  | Ok (Some e) => if eager_of mode e then l ++ [e] else l
  | _ => l
  end.
Lemma computes_started raw token mode fallback l :
  computes s (start_origin_lookup r raw (expected_start token mode) None token mode fallback) l
    (expected_origin token) (refreshed token mode l).
Proof.
  unfold expected_start, expected_origin, refreshed. destruct (expected r token s) as [[e|]|e] eqn:Hx; unfold start_origin_lookup.
  - rewrite full_key_plain. eapply (computes_bind _ _ _ _ (Ok (mkHit (Entry.value e) None)) (if eager_of mode e then l ++ [e] else l)).
    + unfold ready_origin, hit_of. destruct (eager_of mode e); [|done]. apply computes_act. intros x _. done.
    + eapply computes_bind; [by apply conclude_served, (expected_admitted _ _ Hx)|done].
  - apply computes_context. intros _. unfold or_options. destruct (supports_inline_cold r None); [done|].
    unfold immediate_origin. by rewrite (p_distributed _ Hr).
  - eapply computes_bind; [done|]. eapply computes_bind; [by apply conclude_refused, (expected_refusal _ _ Hx)|done].
Qed.
Lemma general_origin_expected raw token mode fallback l :
  computes s (let* start := start_lookup r raw None token mode in start_origin_lookup r raw start None token mode fallback) l
    (expected_origin token) (refreshed token mode l).
Proof. eapply computes_bind; [apply computes_lookup|apply computes_started]. Qed.
Lemma origin_expected plugin raw token mode inputs fallback l :
  computes s (begin_origin r plugin raw None token mode inputs fallback) l (expected_origin token) (refreshed token mode l).
Proof.
  unfold begin_origin. apply wp_bind. eapply wp_mono; [apply quiet_begun|].
  intros q l' [-> Hq]. destruct q as [|[v|e]|[v|e]| |].
  - apply general_origin_expected.
  - destruct Hq as [_ (e & Hx & -> & Hn)]. unfold expected_origin, refreshed. by rewrite Hx, Hn.
  - destruct Hq as [_ [Hx _]]. unfold expected_origin, refreshed. by rewrite Hx.
  - destruct Hq as [_ (e & Hx & -> & Hn)]. unfold expected_origin, refreshed. rewrite Hx, Hn.
    eapply computes_bind; [by apply finish_quiet_served, (expected_admitted _ _ Hx)|done].
  - destruct Hq as [_ [Hx _]]. unfold expected_origin, refreshed. rewrite Hx.
    eapply computes_bind; [by apply finish_quiet_refused, (expected_refusal _ _ Hx)|done].
  - destruct Hq as [_ Hx]. pose proof (computes_started raw token mode fallback l) as H.
    unfold expected_start in H. by rewrite Hx in H.
  - destruct Hq as (Ht & Hm & e & Hx). destruct mode; try done. eapply computes_bind; [|apply (computes_started raw token LookupGetOrSet fallback)].
    unfold resume_plain_origin. pose proof (expected_admitted _ _ Hx) as Hst.
    eapply computes_bind; [by apply computes_ready|].
    unfold expected_start. rewrite Hx.
    assert (s_closed s = false) as Hc by (destruct (s_closed s) eqn:Hc; [by rewrite expected_closed in Hx|done]).
    rewrite (expected_open _ Hc), Hst in Hx. injection Hx as Hx. by rewrite Hx.
Qed.
End lookups.
End theory.
Section theorems.
Context {V : Type} (primitive : bool).

(** C23: the ways into a cache agree. In a cache built to serve reads without
    callbacks, and in a world that stands still for the time of one lookup, a
    read (with a default or not, native or not) and a get-or-set come to the same whichever way they take - the
    callback-free lookup, its counted form while somebody listens, the ordinary
    lookup of a plugin's handle or of inputs with destructors - and whatever
    observers and maintenance do meanwhile: a closed cache and a cancelled token
    are reported, a present, valid and fresh entry is served, and anything else
    is left to the owned pipeline; a get-or-set starts the refresh of a served
    value exactly if its own mark is due, once. *)
Theorem ways_into_a_cache_agree b h :
  wp (any (ans := banswer (V := V)) (λ _, true)) (try_build primitive b) h (λ built _,
    match built with
    | Ok r => built_ready_plan r = CallbackFree → ∀ (s : Still (V := V)) plugin key token mode inputs fallback l,
        computes s (begin_read r plugin key None token) l (expected_read r token s) l
        ∧ computes s (begin_general_read r key None token) l (expected_read r token s) l
        ∧ (∀ v, computes s (begin_default_read r plugin key None token v) l (expected_default s r token v) l)
        ∧ computes s (native_read r plugin key None token) l (expected_native s r token) l
        ∧ computes s (begin_origin r plugin key None token mode inputs fallback) l (expected_origin s r token) (refreshed s r token mode l)
        ∧ computes s (let* start := start_lookup r key None token mode in start_origin_lookup r key start None token mode fallback) l
            (expected_origin s r token) (refreshed s r token mode l)
    | Err _ => True
    end).
Proof.
  apply (BuilderTheory.yields_attempt _ _ (BuilderTheorems.coherent primitive b) (λ r : Built, built_ready_plan r = CallbackFree → _)).
  { apply BuilderTheorems.assembled_is_coherent. }
  intros r Hr. apply (BuilderTheory.yields_attempt _ _ (λ _, True)); [apply BuilderTheory.yields_any|].
  intros _ _. apply BuilderTheory.yields_ret. intros ? [= <-] Hp s plugin key token mode inputs fallback l.
  pose proof (coherent_simple _ _ _ Hr Hp) as Hs. split_and!.
  - by apply read_expected.
  - by apply general_read_expected.
  - intros v. by apply default_read_expected.
  - by apply native_read_expected.
  - by apply origin_expected.
  - by apply general_origin_expected.
Qed.
End theorems.

(** *** Lookups of the default cache *)
Definition stored (due : option Timestamp) : Entry nat :=
  mkEntry 5%positive (mkInner 42%nat
    (mkMetadata 0 0 1000 2000 (from_secs 1) (EO_Fresh due) None None [] RM_Unspecified) EL_Local).
(** The state lists the eager refreshes; [e]: the entry present, [listened]:
    whether an observer is attached. *)
Definition standing (listened : bool) (e : Entry nat) (l : list (Entry nat)) (c : FCall nat)
    : option (fanswer c * list (Entry nat)) :=
  match c return option (fanswer c * _) with
  | F_Worker c => match c return option (answer c * _) with
                  | C_Now => Some (500, l) | C_Runtime => Some (false, l) | C_Tags _ _ _ => Some (Valid, l)
                  | C_Emit _ => Some (tt, l) | _ => None
                  end
  | F_Quiet => Some (negb listened, l)
  | F_Closed | F_MaintenanceStarted | F_Debug => Some (false, l)
  | F_TokenReason => Some (None, l)
  | F_WithReady _ _ => Some (Ok (Some (e, Fresh)), l)
  | F_WithLocalReady _ => Some (Some (Some (e, Fresh)), l)
  | F_StartMaintenance | F_ComponentRead => Some (tt, l)
  | F_Eager _ _ current => Some (tt, l ++ [current])
  | _ => None
  end.
Fixpoint partially {S A} (h : S → ∀ c : FCall nat, option (fanswer c * S)) (p : prog fanswer A) (s : S) : option (A * S) :=
  match p with Ret a => Some (a, s) | Act c k => '(x, s) ← h s c; partially h (k x) s end.
Definition served_from {A} (p : Built → prog (fanswer (V := nat)) A) (listened : bool) (due : option Timestamp)
    : option (A * list (Entry nat)) :=
  match (BuilderTheorems.built CacheBuilder.new).1 with
  | Ok r => partially (standing listened (stored due)) (p r) []
  | Err _ => None
  end.
Example read_run :
  let read plugin token r := begin_read (V := nat) r plugin "k" None token in
  served_from (read false false) false None = Some (BR_Ready (Ok (Some 42%nat)), [])
  ∧ served_from (read false false) true (Some 100) = Some (BR_Ready (Ok (Some 42%nat)), [])
  ∧ served_from (read true true) false None = Some (BR_Ready (Ok (Some 42%nat)), []).
Proof. vm_compute. done. Qed.
Example origin_run :
  let get r := begin_origin (V := nat) r false "k" None false LookupGetOrSet NoCallbacks false in
  served_from get false None = Some (BO_Ready (Ok 42%nat), [])
  ∧ served_from get false (Some 100) = Some (BO_Ready (Ok 42%nat), [stored (Some 100)])
  ∧ served_from get true (Some 600) = Some (BO_Ready (Ok 42%nat), []).
Proof. vm_compute. done. Qed.
End FrontTheory.
