(* ===== verification/Plugins.v ===== *)
(** * Plugins

    Models [src/src/plugins.rs]: the attachments of one cache and their teardown,
    as a step relation. A thread is one call of the host: an event that is
    captured and delivered, an attachment, the stop of a registration, [stop_all]
    or [shutdown]. A label runs one atomic access of a thread: a lock's critical
    section, an atomic load or store, or the return of user code, whose result
    the label gives. [shutdown] waits on the scopes of [Activity.v] and on the
    [Notify] of each attachment. A panic of user code is the error [external]
    makes of it. The host lives while its threads run, and its own drop is one
    more [stop_all].

    [PluginBooks] counts the leases and stages of each attachment, [HostBooks]
    is the invariant of the host, [PluginsTheorems] what follows from both. *)
From S2P Require Import Prelude.

(** ** Data *)
Inductive PluginStage := PS_Start | PS_Event | PS_Stop.
Inductive PluginError :=
| BlankName | HostStopped | EventsAlreadyAttached | MissingRuntime | Failure (stage : PluginStage) | Panicked (stage : PluginStage).
Inductive PluginObservations := OB_Logical | OB_All.
#[export] Instance PluginObservations_eq_dec : EqDecision PluginObservations.
Proof. solve_decision. Defined.
Inductive PluginStopOutcome := SO_Stopped | SO_Pending | SO_AlreadyStopped.
Inductive NotificationSelection := Every | Legacy | Observers.
Definition selects (self : NotificationSelection) (observations : PluginObservations) : bool :=
  match self, observations with
  | Every, _ | Legacy, OB_Logical | Observers, OB_All => true
  | Legacy, OB_All | Observers, OB_Logical => false
  end.

(** The [Arc<Dispatch>] of a state is counted in the slot. *)
Inductive SessionState := Running (callbacks : nat) | Draining (callbacks : nat) | Stopping | Stopped (r : result PluginError unit).
Definition is_stopped (s : SessionState) : bool := match s with Stopped _ => true | _ => false end.
Definition accepts_events (s : SessionState) : bool := match s with Running _ => true | _ => false end.
(** [references]: of its dispatch; [hooks]: how often the stop hook returned;
    [destroyed]: its session was dropped. *)
Record PluginSlot := mkSlot {
  observations : PluginObservations; state : SessionState; references : nat; hooks : nat; destroyed : bool }.
#[export] Instance eta_slot : Eta PluginSlot := λ s, mkSlot (observations s) (state s) (references s) (hooks s) (destroyed s).
Definition drop_reference (s : PluginSlot) : PluginSlot :=
  s <| references := pred (references s) |> <| destroyed := destroyed s || (references s =? 1)%nat |>.

(** [PluginSlot::callback], [request_stop] and [finish_callback], under the lock. *)
Definition callback (s : PluginSlot) : option PluginSlot :=
  match state s with
  | Running callbacks => Some (s <| state := Running (S callbacks) |> <| references := S (references s) |>)
  | _ => None
  end.
(** [inl]: the caller finishes the stop. *)
Definition request_stop (s : SessionState) : SessionState * (unit + result PluginError PluginStopOutcome) :=
  match s with
  | Running O => (Stopping, inl tt)
  | Running callbacks => (Draining callbacks, inr (Ok SO_Pending))
  | Draining _ | Stopping => (s, inr (Ok SO_Pending))
  | Stopped r => (s, inr (match r with Ok _ => Ok SO_AlreadyStopped | Err e => Err e end))
  end.
Definition finish_callback (s : SessionState) : option (SessionState * bool) :=
  match s with
  | Running callbacks => Some (Running (pred callbacks), false)
  | Draining callbacks =>
      if (callbacks =? 1)%nat then Some (Stopping, true) else Some (Draining (pred callbacks), false)
  | Stopping | Stopped _ => None
  end.
Definition failures (r : result PluginError unit) : list PluginError := match r with Ok _ => [] | Err e => [e] end.

(** ** Threads *)
Inductive Phase := StopAll | First | Second.
(** What follows the stop of a slot. *)
Inductive Frame :=
| K_Guards (leases : list nat) (errors : list PluginError)
| K_Registration
| K_Late
| K_StopAll (todo : list nat) (errors : list PluginError)
| K_First (todo : list nat)
| K_Wait (slot : nat) (todo : list nat) (errors : list PluginError).
Inductive Outcome :=
| O_Delivered (errors : list PluginError) | O_Stop (r : result PluginError PluginStopOutcome)
| O_Attach (r : result PluginError nat) | O_StopAll (errors : list PluginError) | O_Shutdown (errors : list PluginError).
Inductive Pc :=
(* [capture_selected] *)
| Listeners (selection : NotificationSelection) | Observers_ (selection : NotificationSelection) (listeners : nat)
| Enter (selection : NotificationSelection) | Admit (selection : NotificationSelection)
| Snapshot (selection : NotificationSelection)
| Lease (selection : NotificationSelection) (todo leases : list nat)
(* [NotificationBatch::notify], the drops of its leases and of its permit *)
| Deliver (todo leases : list nat) (errors : list PluginError)
| Inside (slot : nat) (todo leases : list nat) (errors : list PluginError)
| Unpin (slot : nat) (leases : list nat) (errors : list PluginError)
| Guard (slot : nat) (leases : list nat) (errors : list PluginError)
| Leave (out : Outcome)
(* [request_stop] and [finish_stop] *)
| Request (slot : nat) (k : Frame) | Hook (slot : nat) (k : Frame)
| Destroy (slot : nat) (r : result PluginError unit) (k : Frame) | Publish (slot : nat) (r : result PluginError unit) (k : Frame)
| NotifyWaiters (slot : nat) (r : result PluginError unit) (k : Frame)
(* [PluginRegistration::stop], after the request *)
| Prune (out : Outcome)
(* [attach] *)
| AttachEnter | AttachAdmit | AttachPrune | AttachCheck | AttachUser | AttachPush (observations : PluginObservations)
| AttachStatus (slot : nat)
(* [closing_slots], and the rest of [stop_all] and [shutdown] *)
| StopContext (phase : Phase) | CloseScopes (phase : Phase) | SwapSlots (phase : Phase) | Drain
| Enable (slot : nat) (todo : list nat) (errors : list PluginError)
| CheckStopped (slot : nat) (todo : list nat) (errors : list PluginError) (notified : bool)
| Wait (slot : nat) (todo : list nat) (errors : list PluginError) (notified : bool)
| Done (out : Outcome).

Definition drop_leases (leases : list nat) (errors : list PluginError) : Pc :=
  match leases with [] => Leave (O_Delivered errors) | slot :: leases => Unpin slot leases errors end.
Definition closing (phase : Phase) (todo : list nat) (errors : list PluginError) : Pc :=
  match phase, todo with
  | StopAll, [] => Done (O_StopAll errors)
  | StopAll, slot :: todo => Request slot (K_StopAll todo errors)
  | First, [] => Drain
  | First, slot :: todo => Request slot (K_First todo)
  | Second, [] => Done (O_Shutdown errors)
  | Second, slot :: todo => Request slot (K_Wait slot todo errors)
  end.
Definition resume (k : Frame) (r : result PluginError PluginStopOutcome) : Pc :=
  match k with
  | K_Guards leases errors => drop_leases leases errors
  | K_Registration => Prune (O_Stop r)
  | K_Late => Leave (O_Attach (match r with Err e => Err e | Ok _ => Err HostStopped end))
  | K_StopAll todo errors => closing StopAll todo (errors ++ match r with Err e => [e] | Ok _ => [] end)
  | K_First todo => closing First todo []
  | K_Wait slot todo errors => Enable slot todo errors
  end.

(** ** The host *)
(** [stopped] and [registered] are [HostState]; [active] counts the permits of
    the attachments' scopes, [closed] is their gate. [writing]: the thread that
    holds the lock of the slots for writing and has stored [observers], with the
    number it is about to store in [listeners]. *)
Record World := mkWorld {
  slots : gmap nat PluginSlot; next_slot : nat; stopped : bool; registered : list nat;
  listeners : nat; observers : nat; writing : option (nat * nat);
  context_stopped : bool; closed : bool; active : nat; threads : gmap nat Pc }.
#[export] Instance eta_world : Eta World := λ w,
  mkWorld (slots w) (next_slot w) (stopped w) (registered w) (listeners w) (observers w) (writing w)
    (context_stopped w) (closed w) (active w) (threads w).
Definition initial : World := mkWorld ∅ 0 false [] 0 0 None false false 0 ∅.

Definition goto (t : nat) (p : Pc) (w : World) : World := w <| threads := <[t := p]> (threads w) |>.
Definition set_slot (s : nat) (sl : PluginSlot) (w : World) : World := w <| slots := <[s := sl]> (slots w) |>.
Definition observes (w : World) (s : nat) : bool :=
  match slots w !! s with Some sl => bool_decide (observations sl = OB_All) | None => false end.
Definition publish_listeners (t : nat) (w : World) : World :=
  if stopped w then w <| observers := O |> <| writing := Some (t, O) |>
  else w <| observers := length (filter (λ s, observes w s = true) (registered w)) |>
         <| writing := Some (t, length (registered w)) |>.
Definition slot_stopped (w : World) (s : nat) : bool :=
  match slots w !! s with Some sl => is_stopped (state sl) | None => false end.
(** The [swap_remove] loop; each round consumes one registration. *)
Fixpoint prune_from (fuel : nat) (gone : nat → bool) (kept rest : list nat) : list nat :=
  match fuel, rest with
  | S fuel, s :: rest =>
      if gone s then
        match last rest with
        | Some y => prune_from fuel gone kept (y :: removelast rest)
        | None => kept
        end
      else prune_from fuel gone (kept ++ [s]) rest
  | _, _ => kept ++ rest
  end.
Definition prune_stopped (t : nat) (w : World) : World :=
  publish_listeners t
    (if stopped w then w
     else w <| registered := prune_from (length (registered w)) (slot_stopped w) [] (registered w) |>).
(** [PluginHost::is_empty]. *)
Definition host_is_empty (w : World) : bool :=
  if stopped w then true
  else negb (existsb (λ s, match slots w !! s with Some sl => accepts_events (state sl) | None => false end) (registered w)).
(** [Notify::notify_waiters]: whoever has registered is woken. *)
Definition wake (s : nat) (p : Pc) : Pc :=
  match p with
  | CheckStopped s' todo errors _ => if decide (s = s') then CheckStopped s' todo errors true else p
  | Wait s' todo errors _ => if decide (s = s') then Wait s' todo errors true else p
  | _ => p
  end.

(** What user code returned: nothing is asked of a step that runs none. *)
Inductive Answer :=
| Silent | Returned (r : result PluginError unit) | Attached (r : result PluginError PluginObservations).

Definition is_empty (selection : NotificationSelection) (listeners observers : nat) : bool :=
  match selection with
  | Every => (listeners =? 0)%nat
  | Observers => (observers =? 0)%nat
  | Legacy => (listeners =? observers)%nat
  end.
Definition capture_step (w : World) (t : nat) (p : Pc) : option World :=
  match p with
  | Listeners selection => Some (goto t (Observers_ selection (listeners w)) w)
  | Observers_ selection n =>
      Some (goto t (if is_empty selection n (observers w) then Done (O_Delivered []) else Enter selection) w)
  | Enter selection => Some (goto t (Admit selection) (w <| active := S (active w) |>))
  | Admit selection => Some (goto t (if closed w then Leave (O_Delivered []) else Snapshot selection) w)
  | Snapshot selection => Some (goto t (Lease selection (if stopped w then [] else registered w) []) w)
  | Lease selection [] leases =>
      Some (goto t (match leases with [] => Leave (O_Delivered []) | _ => Deliver leases leases [] end) w)
  | Lease selection (s :: todo) leases =>
      sl ← slots w !! s;
      Some match (if selects selection (observations sl) then callback sl else None) with
           | Some sl => goto t (Lease selection todo (leases ++ [s])) (set_slot s sl w)
           | None => goto t (Lease selection todo leases) w
           end
  | _ => None
  end.
Definition deliver_step (w : World) (t : nat) (p : Pc) (a : Answer) : option World :=
  match p, a with
  | Deliver [] leases errors, Silent => Some (goto t (drop_leases leases errors) w)
  | Deliver (s :: todo) leases errors, Silent => Some (goto t (Inside s todo leases errors) w)
  | Inside s todo leases errors, Returned r => Some (goto t (Deliver todo leases (errors ++ failures r)) w)
  | Unpin s leases errors, Silent =>
      sl ← slots w !! s; Some (goto t (Guard s leases errors) (set_slot s (drop_reference sl) w))
  | Guard s leases errors, Silent =>
      sl ← slots w !! s;
      '(next, finishes) ← finish_callback (state sl);
      Some (goto t (if finishes : bool then Hook s (K_Guards leases errors) else drop_leases leases errors)
              (set_slot s (sl <| state := next |>) w))
  | Leave out, Silent => Some (goto t (Done out) (w <| active := pred (active w) |>))
  | _, _ => None
  end.
Definition stop_step (w : World) (t : nat) (p : Pc) (a : Answer) : option World :=
  match p, a with
  | Request s k, Silent =>
      sl ← slots w !! s;
      let '(next, r) := request_stop (state sl) in
      Some (goto t (match r with inl _ => Hook s k | inr r => resume k r end) (set_slot s (sl <| state := next |>) w))
  | Hook s k, Returned r =>
      sl ← slots w !! s; Some (goto t (Destroy s r k) (set_slot s (sl <| hooks := S (hooks sl) |>) w))
  | Destroy s r k, Silent =>
      sl ← slots w !! s; Some (goto t (Publish s r k) (set_slot s (drop_reference sl) w))
  | Publish s r k, Silent =>
      sl ← slots w !! s; Some (goto t (NotifyWaiters s r k) (set_slot s (sl <| state := Stopped r |>) w))
  | NotifyWaiters s r k, Silent =>
      Some (goto t (resume k (match r with Ok _ => Ok SO_Stopped | Err e => Err e end)) (w <| threads := wake s <$> threads w |>))
  | Prune out, Silent => Some (goto t (Done out) (prune_stopped t w))
  | _, _ => None
  end.
Definition push_slot (t : nat) (observations : PluginObservations) (w : World) : World :=
  let s := next_slot w in
  publish_listeners t
    (w <| slots := <[s := mkSlot observations (Running 0) 1 0 false]> (slots w) |> <| next_slot := S s |>
       <| registered := registered w ++ [s] |>).
Definition attach_step (w : World) (t : nat) (p : Pc) (a : Answer) : option World :=
  match p, a with
  | AttachEnter, Silent => Some (goto t AttachAdmit (w <| active := S (active w) |>))
  | AttachAdmit, Silent => Some (goto t (if closed w then Leave (O_Attach (Err HostStopped)) else AttachPrune) w)
  | AttachPrune, Silent => Some (goto t AttachCheck (prune_stopped t w))
  | AttachCheck, Silent => Some (goto t (if stopped w then Leave (O_Attach (Err HostStopped)) else AttachUser) w)
  | AttachUser, Attached (Err e) => Some (goto t (Leave (O_Attach (Err e))) w)
  | AttachUser, Attached (Ok observations) => Some (goto t (AttachPush observations) w)
  | AttachPush observations, Silent =>
      let s := next_slot w in
      Some (goto t (if stopped w then Request s K_Late else AttachStatus s) (push_slot t observations w))
  | AttachStatus s, Silent => Some (goto t (if closed w then Request s K_Late else Leave (O_Attach (Ok s))) w)
  | _, _ => None
  end.
Definition close_slots (t : nat) (w : World) : World :=
  if stopped w then w else publish_listeners t (w <| stopped := true |>).
Definition close_step (w : World) (t : nat) (p : Pc) : option World :=
  match p with
  | StopContext phase => Some (goto t (CloseScopes phase) (w <| context_stopped := true |>))
  | CloseScopes phase => Some (goto t (SwapSlots phase) (w <| closed := true |>))
  | SwapSlots phase =>
      Some (goto t (closing phase (registered w) []) (close_slots t w))
  | Drain => if (active w =? 0)%nat then Some (goto t (StopContext Second) w) else None
  | Enable s todo errors => Some (goto t (CheckStopped s todo errors false) w)
  | CheckStopped s todo errors notified =>
      sl ← slots w !! s;
      Some (goto t (match state sl with
                    | Stopped r => closing Second todo (errors ++ failures r)
                    | _ => Wait s todo errors notified
                    end) w)
  | Wait s todo errors true => Some (goto t (Enable s todo errors) w)
  | _ => None
  end.
Inductive Op := OpNotify (selection : NotificationSelection) | OpStop (slot : nat) | OpAttach | OpStopAll | OpShutdown.
Definition start (w : World) (op : Op) : option Pc :=
  match op with
  | OpNotify selection => Some (Listeners selection)
  | OpStop s => if decide (is_Some (slots w !! s)) then Some (Request s K_Registration) else None
  | OpAttach => Some AttachEnter
  | OpStopAll => Some (StopContext StopAll)
  | OpShutdown => Some (StopContext First)
  end.
Inductive Label := Spawn (t : nat) (op : Op) | Run (t : nat) (a : Answer) | Store.
Definition run (w : World) (t : nat) (p : Pc) (a : Answer) : option World :=
  match p, a with
  | (Listeners _ | Observers_ _ _ | Enter _ | Admit _ | Snapshot _ | Lease _ _ _), Silent => capture_step w t p
  | (Deliver _ _ _ | Inside _ _ _ _ | Unpin _ _ _ | Guard _ _ _ | Leave _), _ => deliver_step w t p a
  | (Request _ _ | Hook _ _ | Destroy _ _ _ | Publish _ _ _ | NotifyWaiters _ _ _ | Prune _), _ => stop_step w t p a
  | (AttachEnter | AttachAdmit | AttachPrune | AttachCheck | AttachUser | AttachPush _ | AttachStatus _), _ =>
      attach_step w t p a
  | (StopContext _ | CloseScopes _ | SwapSlots _ | Drain | Enable _ _ _ | CheckStopped _ _ _ _ | Wait _ _ _ _), Silent =>
      close_step w t p
  | _, _ => None
  end.
Definition takes_lock (p : Pc) : bool :=
  match p with Snapshot _ | Prune _ | AttachPrune | AttachCheck | AttachPush _ | SwapSlots _ => true | _ => false end.
(** While [writing], its thread goes no further and the lock is taken. *)
Definition blocked (w : World) (t : nat) (p : Pc) : bool :=
  match writing w with Some (t', _) => (t =? t')%nat || takes_lock p | None => false end.
Definition step (w : World) (l : Label) : option World :=
  match l with
  | Spawn t op =>
      match threads w !! t with
      | Some _ => None
      | None => p ← start w op; Some (goto t p w)
      end
  | Run t a => p ← threads w !! t; if blocked w t p then None else run w t p a
  | Store => '(_, n) ← writing w; Some (w <| listeners := n |> <| writing := None |>)
  end.
Definition execute (w : World) (ls : list Label) : option World := foldl (λ w l, w ← w; step w l) (Some w) ls.
Inductive reachable : World → Prop :=
| reachable_initial : reachable initial
| reachable_step w l w' : reachable w → step w l = Some w' → reachable w'.

(** ** The books of an attachment *)
Module PluginBooks.
Fixpoint occ (s : nat) (l : list nat) : Z :=
  match l with [] => 0 | x :: l => (if decide (s = x) then 1 else 0) + occ s l end.
Lemma occ_nonneg s l : 0 ≤ occ s l.
Proof. induction l; cbn; [lia|]. case_decide; lia. Qed.
Lemma occ_app s l l' : occ s (l ++ l') = occ s l + occ s l'.
Proof. induction l; cbn; [done|]. lia. Qed.
Lemma occ_pos s l : s ∈ l → 1 ≤ occ s l.
Proof.
  induction l as [|x l IH]; [by intros ?%elem_of_nil|]. intros [->|?]%elem_of_cons; cbn.
  - rewrite decide_True by done. pose proof (occ_nonneg x l). lia.
  - specialize (IH H). case_decide; lia.
Qed.

Definition frame_leases (k : Frame) : list nat := match k with K_Guards leases _ => leases | _ => [] end.
(** The callback leases a thread holds, and those that still pin their dispatch. *)
Definition pins_of (p : Pc) : list nat :=
  match p with
  | Lease _ _ leases | Deliver _ leases _ | Inside _ _ leases _ => leases
  | Unpin s leases _ => s :: leases
  | Guard _ leases _ => leases
  | Request _ k | Hook _ k | Destroy _ _ k | Publish _ _ k | NotifyWaiters _ _ k => frame_leases k
  | _ => []
  end.
Definition at_slot (s s' : nat) : Z := if decide (s = s') then 1 else 0.
Definition guards (s : nat) (p : Pc) : Z := match p with Guard s' _ _ => at_slot s s' | _ => 0 end.
Definition pins (s : nat) (p : Pc) : Z := occ s (pins_of p).
Definition hooking (s : nat) (p : Pc) : Z := match p with Hook s' _ => at_slot s s' | _ => 0 end.
Definition destroying (s : nat) (p : Pc) : Z := match p with Destroy s' _ _ => at_slot s s' | _ => 0 end.
Definition publishing (s : nat) (p : Pc) : Z := match p with Publish s' _ _ => at_slot s s' | _ => 0 end.
Definition tally (f : nat → Pc → Z) (w : World) (s : nat) : Z := msum (f s) (threads w).

Definition slot_ok (q g k d b : Z) (sl : PluginSlot) : Prop :=
  match state sl with
  | Running callbacks => q + g = Z.of_nat callbacks ∧ k = 0 ∧ d = 0 ∧ b = 0 ∧ hooks sl = O ∧ destroyed sl = false
      ∧ Z.of_nat (references sl) = 1 + q
  | Draining callbacks => q + g = Z.of_nat callbacks ∧ 0 < Z.of_nat callbacks ∧ k = 0 ∧ d = 0 ∧ b = 0 ∧ hooks sl = O
      ∧ destroyed sl = false ∧ Z.of_nat (references sl) = 1 + q
  | Stopping => q = 0 ∧ g = 0 ∧ k + d + b = 1 ∧ Z.of_nat (hooks sl) = d + b ∧ Z.of_nat (references sl) = k + d
      ∧ destroyed sl = (b =? 1)
  | Stopped _ => q = 0 ∧ g = 0 ∧ k = 0 ∧ d = 0 ∧ b = 0 ∧ hooks sl = 1%nat ∧ references sl = O ∧ destroyed sl = true
  end.
Record books (w : World) : Prop := mkBooks {
  b_slots : ∀ s sl, slots w !! s = Some sl →
    slot_ok (tally pins w s) (tally guards w s) (tally hooking w s) (tally destroying w s) (tally publishing w s) sl;
  b_none : ∀ s, slots w !! s = None → tally pins w s = 0 ∧ tally guards w s = 0 ∧ tally hooking w s = 0
    ∧ tally destroying w s = 0 ∧ tally publishing w s = 0;
  b_fresh : ∀ s, (next_slot w ≤ s)%nat → slots w !! s = None }.

Lemma at_slot_nonneg s s' : 0 ≤ at_slot s s'.
Proof. unfold at_slot. case_decide; lia. Qed.
Lemma counts_nonneg s p : 0 ≤ pins s p ∧ 0 ≤ guards s p ∧ 0 ≤ hooking s p ∧ 0 ≤ destroying s p ∧ 0 ≤ publishing s p.
Proof. split; [apply occ_nonneg|]. destruct p; cbn; repeat split; (apply at_slot_nonneg || lia). Qed.

Definition counted (f : nat → Pc → Z) : Prop := ∀ s p, 0 ≤ f s p.
Lemma tally_le f w t p s : counted f → threads w !! t = Some p → f s p ≤ tally f w s.
Proof. intros Hf Hp. apply (msum_lookup_le _ _ t); [|done]. intros ? b _. apply Hf. Qed.
Lemma counted_all : counted pins ∧ counted guards ∧ counted hooking ∧ counted destroying ∧ counted publishing.
Proof. repeat split; intros s p; apply (counts_nonneg s p). Qed.

(** A step of thread [t] from [p] to [p']: the tallies move by the difference. *)
Definition moves (w w' : World) (t : nat) (p p' : Pc) : Prop :=
  threads w !! t = Some p ∧ ∀ f s, f = pins ∨ f = guards ∨ f = hooking ∨ f = destroying ∨ f = publishing →
    tally f w' s = tally f w s - f s p + f s p'.
Lemma plugin_moves_goto w w' t p p' : threads w !! t = Some p → threads w' = threads w → moves w (goto t p' w') t p p'.
Proof.
  intros Hp Hw. split; [done|]. intros f s _. unfold tally, goto. cbn. rewrite Hw, msum_insert_any, Hp. done.
Qed.
Lemma wake_counts f s s' p : f = pins ∨ f = guards ∨ f = hooking ∨ f = destroying ∨ f = publishing → f s (wake s' p) = f s p.
Proof. intros Hf. unfold wake. destruct p; try done; case_decide; try done; by repeat destruct Hf as [->|Hf]; subst. Qed.
Lemma moves_wake w t p p' s : threads w !! t = Some p → moves w (goto t p' (w <| threads := wake s <$> threads w |>)) t p p'.
Proof.
  intros Hp. split; [done|]. intros f s' Hf. unfold tally, goto. cbn. rewrite msum_insert_any, lookup_fmap, Hp. cbn.
  rewrite msum_fmap, (wake_counts f s' s p Hf). f_equal. f_equal. apply msum_ext. intros ? q _. by apply wake_counts.
Qed.

(** The numbers of one slot, before and after. *)
Definition shift (s : nat) (p p' : Pc) (sl sl' : PluginSlot) : Prop :=
  ∀ q g k d b, pins s p ≤ q → guards s p ≤ g → hooking s p ≤ k → destroying s p ≤ d → publishing s p ≤ b →
    slot_ok q g k d b sl →
    slot_ok (q - pins s p + pins s p') (g - guards s p + guards s p') (k - hooking s p + hooking s p')
      (d - destroying s p + destroying s p') (b - publishing s p + publishing s p') sl'.
Definition same_counts (s : nat) (p p' : Pc) : Prop :=
  pins s p' = pins s p ∧ guards s p' = guards s p ∧ hooking s p' = hooking s p ∧ destroying s p' = destroying s p
  ∧ publishing s p' = publishing s p.
Lemma shift_same s p p' sl : same_counts s p p' → shift s p p' sl sl.
Proof.
  intros (H1 & H2 & H3 & H4 & H5) q g k d b ?????. rewrite H1, H2, H3, H4, H5.
  repeat match goal with |- context [?y - ?x + ?x] => replace (y - x + x) with y by lia end. done.
Qed.
Lemma books_move w w' t p p' :
  books w → moves w w' t p p' →
  (∀ s, match slots w !! s, slots w' !! s with
        | Some sl, Some sl' => shift s p p' sl sl'
        | None, None => same_counts s p p'
        | None, Some sl' => same_counts s p p' ∧ slot_ok 0 0 0 0 0 sl'
        | Some _, None => False
        end) →
  (∀ s, (next_slot w' ≤ s)%nat → slots w' !! s = None) → books w'.
Proof.
  intros [Hs Hn Hf] [Hp Hm] Hc Hfresh.
  assert (∀ f s, counted f → f s p ≤ tally f w s) as Hle by (intros; by apply (tally_le f w t p)).
  destruct counted_all as (C1 & C2 & C3 & C4 & C5).
  split; [| |done].
  - intros s sl' Hsl'. specialize (Hc s). rewrite Hsl' in Hc. rewrite !Hm by tauto.
    destruct (slots w !! s) as [sl|] eqn:Hsl.
    + apply Hc; auto.
    + destruct Hc as [(-> & -> & -> & -> & ->) Hc]. destruct (Hn s Hsl) as (-> & -> & -> & -> & ->).
      repeat match goal with |- context [0 - ?x + ?x] => replace (0 - x + x) with 0 by lia end. done.
  - intros s Hsl'. specialize (Hc s). rewrite Hsl' in Hc. rewrite !Hm by tauto.
    destruct (slots w !! s) as [sl|] eqn:Hsl; [done|]. destruct Hc as (-> & -> & -> & -> & ->).
    destruct (Hn s Hsl) as (-> & -> & -> & -> & ->). lia.
Qed.

Lemma books_quiet w w' t p p' :
  books w → moves w w' t p p' → slots w' = slots w → next_slot w' = next_slot w → (∀ s, same_counts s p p') → books w'.
Proof.
  intros Hb Hm Hs Hn Hc. eapply books_move; [exact Hb|exact Hm| |rewrite Hs, Hn; apply Hb].
  intros s. rewrite Hs. destruct (slots w !! s) as [sl|]; [|apply Hc].
  by apply shift_same.
Qed.
Lemma books_at w w' t p p' s0 sl sl' :
  books w → moves w w' t p p' → slots w !! s0 = Some sl → slots w' = <[s0 := sl']> (slots w) → next_slot w' = next_slot w →
  shift s0 p p' sl sl' → (∀ s, s ≠ s0 → same_counts s p p') → books w'.
Proof.
  intros Hb Hm Hsl Hs Hn Hshift Hc. eapply books_move; [exact Hb|exact Hm| |].
  - intros s. rewrite Hs. destruct (decide (s = s0)) as [->|Hne].
    + by rewrite Hsl, lookup_insert_eq.
    + rewrite lookup_insert_ne by done. specialize (Hc s Hne). destruct (slots w !! s) as [x|]; [|done]. by apply shift_same.
  - intros s Hle. rewrite Hn in Hle. rewrite Hs. pose proof (b_fresh _ Hb s Hle) as Hnone.
    rewrite lookup_insert_ne; [done|]. intros ->. congruence.
Qed.

Lemma pins_drop_leases s leases errors : pins s (drop_leases leases errors) = occ s leases.
Proof. by destruct leases. Qed.
Lemma pins_closing s phase todo errors : pins s (closing phase todo errors) = 0.
Proof. by destruct todo, phase. Qed.
Lemma pins_resume s k r : pins s (resume k r) = occ s (frame_leases k).
Proof. destruct k as [| | | | |]; cbn [resume frame_leases occ]; try apply pins_drop_leases; try done; by rewrite pins_closing. Qed.
Lemma no_stage f s p : f = guards ∨ f = hooking ∨ f = destroying ∨ f = publishing →
  match p with Guard _ _ _ | Hook _ _ | Destroy _ _ _ | Publish _ _ _ => False | _ => True end → f s p = 0.
Proof. intros Hf. destruct p; try done; intros _; by repeat destruct Hf as [->|Hf]; subst. Qed.
Definition idle_stage (p : Pc) : Prop := match p with Guard _ _ _ | Hook _ _ | Destroy _ _ _ | Publish _ _ _ => False | _ => True end.
Lemma idle_drop_leases leases errors : idle_stage (drop_leases leases errors).
Proof. by destruct leases. Qed.
Lemma idle_closing phase todo errors : idle_stage (closing phase todo errors).
Proof. by destruct todo, phase. Qed.
Lemma idle_resume k r : idle_stage (resume k r).
Proof. destruct k; cbn [resume]; auto using idle_drop_leases, idle_closing; done. Qed.
(** Between stages only the pins count. *)
Lemma same_idle s p p' : idle_stage p → idle_stage p' → pins s p' = pins s p → same_counts s p p'.
Proof.
  intros Hp Hp' Hq. split; [done|].
  split_and!; (etrans; [apply no_stage|symmetry; apply no_stage]); auto.
Qed.

Ltac quiet_step Hb Hp :=
  eapply books_quiet; [exact Hb|by apply plugin_moves_goto|done|done|]; intros ?; apply same_idle; [done|..];
  try (case_match; done); try done.
(** Open a step that succeeded. *)
Ltac open_step H :=
  repeat (simplify_option_eq; try match type of H with context [match ?x with _ => _ end] => destruct x eqn:? end).

Lemma pins_lease s selection todo leases : pins s (Lease selection todo leases) = occ s leases.
Proof. done. Qed.
Lemma books_capture w t p w' : books w → threads w !! t = Some p → capture_step w t p = Some w' → books w'.
Proof.
  intros Hb Hp. destruct p as [sel|sel n|sel|sel|sel|sel [|s todo] leases| | | | | | | | | | | | | | | | | | | | | | | | | |];
    intros H; try discriminate H; cbn in H; simplify_eq.
  1-5: quiet_step Hb Hp.
  - eapply books_quiet; [exact Hb|by apply plugin_moves_goto|done|done|]. intros ?. by destruct leases.
  - destruct (slots w !! s) as [sl|] eqn:Hsl; [|done]. injection H as <-.
    destruct (if selects sel (observations sl) then callback sl else None) as [sl'|] eqn:Hcb; [|by quiet_step Hb Hp].
    destruct (selects _ _); [|done]. unfold callback in Hcb. destruct (state sl) as [c| | |] eqn:Hst; try done.
    injection Hcb as <-. eapply books_at; [exact Hb|by apply plugin_moves_goto|exact Hsl|done|done| |].
    + intros q g k d b _ _ _ _ _. unfold slot_ok. rewrite Hst. simpl state. rewrite !pins_lease, occ_app. cbn.
      rewrite decide_True by done. intros (? & ? & ? & ? & ? & ? & ?). repeat split; try done; lia.
    + intros s' Hne. apply same_idle; [done..|]. rewrite !pins_lease, occ_app. cbn. rewrite decide_False by done. lia.
Qed.

Lemma at_self s : at_slot s s = 1.
Proof. by apply decide_True. Qed.
Lemma at_other s s' : s ≠ s' → at_slot s s' = 0.
Proof. apply decide_False. Qed.
Lemma same_other s p p' s0 :
  s ≠ s0 → pins s p' = pins s p →
  match p with Guard s' _ _ | Hook s' _ | Destroy s' _ _ | Publish s' _ _ => s' = s0 | _ => True end →
  match p' with Guard s' _ _ | Hook s' _ | Destroy s' _ _ | Publish s' _ _ => s' = s0 | _ => True end →
  same_counts s p p'.
Proof.
  intros Hne Hq Hp Hp'. split; [done|].
  assert (∀ q, match q with Guard s' _ _ | Hook s' _ | Destroy s' _ _ | Publish s' _ _ => s' = s0 | _ => True end →
    guards s q = 0 ∧ hooking s q = 0 ∧ destroying s q = 0 ∧ publishing s q = 0) as Hz.
  { intros q Hs. destruct q; cbn; try done; subst; by rewrite at_other. }
  destruct (Hz p Hp) as (-> & -> & -> & ->). by destruct (Hz p' Hp') as (-> & -> & -> & ->).
Qed.

Lemma no_stages s p : idle_stage p → guards s p = 0 ∧ hooking s p = 0 ∧ destroying s p = 0 ∧ publishing s p = 0.
Proof. intros Hp. repeat split; apply no_stage; auto. Qed.
Lemma books_unpin w t s leases errors sl :
  books w → threads w !! t = Some (Unpin s leases errors) → slots w !! s = Some sl →
  books (goto t (Guard s leases errors) (set_slot s (drop_reference sl) w)).
Proof.
  intros Hb Hp Hsl. eapply books_at; [exact Hb|by apply plugin_moves_goto|exact Hsl|done|done| |].
  - intros q g k d b Hq _ _ _ _. unfold pins in Hq. cbn in Hq. rewrite decide_True in Hq by done.
    pose proof (occ_nonneg s leases). unfold slot_ok, drop_reference. cbn. rewrite at_self, decide_True by done.
    destruct (state sl) as [c|c| |r]; cbn; intros Hok; [| |lia..].
    + destruct Hok as (? & ? & ? & ? & ? & -> & Hrefs). repeat split; try done; try lia.
      destruct (references sl =? 1)%nat eqn:E; [|done]. apply Nat.eqb_eq in E. lia.
    + destruct Hok as (? & ? & ? & ? & ? & ? & -> & Hrefs). repeat split; try done; try lia.
      destruct (references sl =? 1)%nat eqn:E; [|done]. apply Nat.eqb_eq in E. lia.
  - intros s' Hne. apply same_other with s; [done| |done|done]. unfold pins. cbn. rewrite decide_False by done. lia.
Qed.
Lemma books_guard w t s leases errors sl next finishes :
  books w → threads w !! t = Some (Guard s leases errors) → slots w !! s = Some sl →
  finish_callback (state sl) = Some (next, finishes) →
  books (goto t (if finishes : bool then Hook s (K_Guards leases errors) else drop_leases leases errors)
           (set_slot s (sl <| state := next |>) w)).
Proof.
  intros Hb Hp Hsl Hf. eapply books_at; [exact Hb|by apply plugin_moves_goto|exact Hsl|done|done| |].
  - intros q g k d b Hq Hg _ _ _. unfold pins in Hq. cbn in Hq, Hg. rewrite at_self in Hg. pose proof (occ_nonneg s leases).
    assert (pins s (if finishes then Hook s (K_Guards leases errors) else drop_leases leases errors) = occ s leases) as Hpins
      by (destruct finishes; [done|apply pins_drop_leases]).
    unfold slot_ok. rewrite Hpins. unfold finish_callback in Hf.
    destruct (state sl) as [c|c| |r]; [..|done|done]; simpl state.
    + simplify_eq. destruct (no_stages s _ (idle_drop_leases leases errors)) as (-> & -> & -> & ->). unfold pins. cbn.
      rewrite at_self. intros (? & ? & ? & ? & ? & ? & ?). repeat split; try done; lia.
    + destruct (c =? 1)%nat eqn:Hc; simplify_eq.
      * apply Nat.eqb_eq in Hc. subst c. unfold pins. cbn. rewrite at_self. intros (? & ? & ? & ? & ? & -> & -> & ?).
        repeat split; try done; lia.
      * apply Nat.eqb_neq in Hc. destruct (no_stages s _ (idle_drop_leases leases errors)) as (-> & -> & -> & ->). unfold pins. cbn.
        rewrite at_self. intros (? & ? & ? & ? & ? & ? & ? & ?). repeat split; try done; lia.
  - intros s' Hne. apply same_other with s; [done| |done|].
    + destruct finishes; [done|]. by rewrite pins_drop_leases.
    + destruct finishes; [done|]. by destruct leases.
Qed.
Lemma books_deliver w t p a w' : books w → threads w !! t = Some p → deliver_step w t p a = Some w' → books w'.
Proof.
  intros Hb Hp H. unfold deliver_step in H. destruct p; try discriminate H; destruct a; try discriminate H.
  1: destruct todo; try discriminate H. all: try (destruct todo as [|? ?]; discriminate H).
  - injection H as <-. eapply books_quiet; [exact Hb|by apply plugin_moves_goto|done|done|]. intros s.
    apply same_idle; [done|apply idle_drop_leases|apply pins_drop_leases].
  - injection H as <-. quiet_step Hb Hp.
  - injection H as <-. quiet_step Hb Hp.
  - destruct (slots w !! slot) as [sl|] eqn:Hsl; [|done]. injection H as <-. by apply books_unpin.
  - destruct (slots w !! slot) as [sl|] eqn:Hsl; [|done]. cbn in H.
    destruct (finish_callback (state sl)) as [[next finishes]|] eqn:Hf; [|done]. injection H as <-. by apply books_guard.
  - injection H as <-. quiet_step Hb Hp.
Qed.

Lemma pins_request s next (r : unit + result PluginError PluginStopOutcome) k : pins s (match r with inl _ => Hook next k | inr r => resume k r end) = occ s (frame_leases k).
Proof. destruct r; [done|apply pins_resume]. Qed.
Lemma books_request w t s k sl next r :
  books w → threads w !! t = Some (Request s k) → slots w !! s = Some sl → request_stop (state sl) = (next, r) →
  books (goto t (match r with inl _ => Hook s k | inr r => resume k r end) (set_slot s (sl <| state := next |>) w)).
Proof.
  intros Hb Hp Hsl Hr. eapply books_at; [exact Hb|by apply plugin_moves_goto|exact Hsl|done|done| |].
  - intros q g c d b Hq Hg _ _ _. rewrite pins_request. unfold slot_ok. simpl state.
    assert (0 ≤ q) by (etrans; [apply occ_nonneg|exact Hq]). cbn in Hg.
    change (pins s (Request s k)) with (occ s (frame_leases k)).
    destruct (state sl) as [[|n]|n| |r'] eqn:Hst; cbn in Hr; injection Hr as <- <-.
    2-5: match goal with |- context [resume ?f ?x] => destruct (no_stages s _ (idle_resume f x)) as (-> & -> & -> & ->) end; cbn;
      intros Hok; decompose [and] Hok; repeat split; try done; try lia.
    + cbn. rewrite at_self. intros (? & ? & ? & ? & ? & -> & ?). repeat split; try done; lia.
    + by replace (b - 0 + 0) with b by lia.
  - intros s' Hne. apply same_other with s; [done| |done|].
    + by rewrite pins_request.
    + destruct r as [u|r]; [done|]. pose proof (idle_resume k r) as Hi. by destruct (resume k r).
Qed.

Lemma publish_slots t w : slots (publish_listeners t w) = slots w ∧ threads (publish_listeners t w) = threads w
  ∧ next_slot (publish_listeners t w) = next_slot w ∧ stopped (publish_listeners t w) = stopped w
  ∧ registered (publish_listeners t w) = registered w ∧ closed (publish_listeners t w) = closed w
  ∧ active (publish_listeners t w) = active w.
Proof. unfold publish_listeners. destruct (stopped w) eqn:E; cbn; by rewrite ?E. Qed.
Lemma prune_slots t w : slots (prune_stopped t w) = slots w ∧ threads (prune_stopped t w) = threads w
  ∧ next_slot (prune_stopped t w) = next_slot w ∧ stopped (prune_stopped t w) = stopped w
  ∧ closed (prune_stopped t w) = closed w ∧ active (prune_stopped t w) = active w.
Proof. unfold prune_stopped, publish_listeners. destruct (stopped w) eqn:E; cbn; by rewrite ?E. Qed.

Lemma push_fields t o w : slots (push_slot t o w) = <[next_slot w := mkSlot o (Running 0) 1 0 false]> (slots w)
  ∧ threads (push_slot t o w) = threads w ∧ next_slot (push_slot t o w) = S (next_slot w) ∧ stopped (push_slot t o w) = stopped w
  ∧ registered (push_slot t o w) = registered w ++ [next_slot w] ∧ closed (push_slot t o w) = closed w
  ∧ active (push_slot t o w) = active w.
Proof. unfold push_slot. apply (publish_slots t (mkWorld _ _ _ _ _ _ _ _ _ _ _)). Qed.

Lemma books_stop w t p a w' : books w → threads w !! t = Some p → stop_step w t p a = Some w' → books w'.
Proof.
  intros Hb Hp H. unfold stop_step in H. destruct p; try discriminate H; destruct a; try discriminate H.
  all: try (destruct (slots w !! slot) as [sl|] eqn:Hsl; [|done]; cbn in H).
  - destruct (request_stop (state sl)) as [next r] eqn:Hr. injection H as <-. by apply books_request.
  - injection H as <-. eapply books_at; [exact Hb|by apply plugin_moves_goto|exact Hsl|done|done| |].
    + intros q g c d b _ _ Hk Hd Hbp. cbn in *. rewrite at_self in *. unfold slot_ok. simpl state.
      destruct (state sl); cbn; intros Hok; decompose [and] Hok; try lia. unfold pins. cbn.
      repeat split; try done; try lia. by replace (b - 0 + 0) with b by lia.
    + intros s' Hne. by apply same_other with slot.
  - injection H as <-. eapply books_at; [exact Hb|by apply plugin_moves_goto|exact Hsl|done|done| |].
    + intros q g c d b _ _ Hk Hd Hbp. cbn in *. rewrite at_self in *. unfold slot_ok, drop_reference. simpl state.
      destruct (state sl); cbn; intros Hok; decompose [and] Hok; try lia. unfold pins. cbn.
      assert (references sl = 1%nat) as -> by lia. repeat split; try done; try lia.
      replace (b - 0 + 1) with 1 by lia. by rewrite orb_true_r.
    + intros s' Hne. by apply same_other with slot.
  - injection H as <-. eapply books_at; [exact Hb|by apply plugin_moves_goto|exact Hsl|done|done| |].
    + intros q g c d b _ _ Hk Hd Hbp. cbn in *. rewrite at_self in *. unfold slot_ok. simpl state.
      destruct (state sl); cbn; intros Hok; decompose [and] Hok; try lia. unfold pins. cbn.
      assert (destroyed sl = true) as -> by (replace b with 1 in * by lia; done). repeat split; try done; lia.
    + intros s' Hne. by apply same_other with slot.
  - injection H as <-. eapply books_quiet; [exact Hb|by apply moves_wake|done|done|]. intros s.
    apply same_idle; [done|apply idle_resume|apply pins_resume].
  - injection H as <-. eapply books_quiet; [exact Hb|apply plugin_moves_goto; [done|apply prune_slots]|apply prune_slots|apply prune_slots|by intros ?].
Qed.

Lemma books_attach w t p a w' : books w → threads w !! t = Some p → attach_step w t p a = Some w' → books w'.
Proof.
  intros Hb Hp H. unfold attach_step in H. destruct p; try discriminate H; destruct a as [|?|[]]; try discriminate H; injection H as <-.
  3: eapply books_quiet; [exact Hb|apply plugin_moves_goto; [done|apply prune_slots]|apply prune_slots|apply prune_slots|by intros ?].
  1,2,3,4,5,7: quiet_step Hb Hp.
  destruct (push_fields t observations0 w) as (Hs & Ht & Hn & _ & _ & _ & _). 
  eapply books_move; [exact Hb|by apply plugin_moves_goto| |].
  - intros s. change (slots (goto ?t ?p ?w)) with (slots w). rewrite Hs.
    assert (∀ s', same_counts s' (AttachPush observations0) (if stopped w then Request (next_slot w) K_Late else AttachStatus (next_slot w)))
      as Hc by (intros s'; by destruct (stopped w)).
    destruct (decide (s = next_slot w)) as [->|Hne].
    + rewrite (b_fresh _ Hb (next_slot w)) by lia. cbn. rewrite lookup_insert_eq. split; [apply Hc|]. by repeat split.
    + cbn. rewrite lookup_insert_ne by done. destruct (slots w !! s) as [sl|]; [|apply Hc]. by apply shift_same.
  - intros s. change (slots (goto ?t ?p ?w)) with (slots w). change (next_slot (goto ?t ?p ?w)) with (next_slot w).
    rewrite Hs, Hn. intros Hle. rewrite lookup_insert_ne by lia. apply (b_fresh _ Hb). lia.
Qed.

Lemma close_fields t w : slots (close_slots t w) = slots w ∧ threads (close_slots t w) = threads w
  ∧ next_slot (close_slots t w) = next_slot w ∧ stopped (close_slots t w) = true ∧ registered (close_slots t w) = registered w
  ∧ closed (close_slots t w) = closed w ∧ active (close_slots t w) = active w.
Proof. unfold close_slots. destruct (stopped w) eqn:E; [done|]. unfold publish_listeners. cbn. done. Qed.
Lemma books_close w t p w' : books w → threads w !! t = Some p → close_step w t p = Some w' → books w'.
Proof.
  intros Hb Hp H. unfold close_step in H. destruct p; try discriminate H.
  - injection H as <-. quiet_step Hb Hp.
  - injection H as <-. quiet_step Hb Hp.
  - injection H as <-. destruct (close_fields t w) as (Hs & Ht & Hn & _).
    eapply books_quiet; [exact Hb|by apply plugin_moves_goto|done|done|]. intros s.
    apply same_idle; [done|apply idle_closing|apply pins_closing].
  - destruct (_ =? _)%nat; [|done]. injection H as <-. quiet_step Hb Hp.
  - injection H as <-. quiet_step Hb Hp.
  - destruct (slots w !! slot) as [sl|]; [|done]. injection H as <-.
    eapply books_quiet; [exact Hb|by apply plugin_moves_goto|done|done|]. intros s.
    destruct (state sl) as [| | |r]; try (by apply same_idle).
    apply same_idle; [done|apply (idle_closing Second todo)|apply (pins_closing s Second todo)].
  - destruct notified; [|done]. injection H as <-. quiet_step Hb Hp.
Qed.
Lemma books_spawn w t op p : books w → threads w !! t = None → start w op = Some p → books (goto t p w).
Proof.
  intros [Hs Hn Hf] Ht Hop.
  assert (∀ f s, f = pins ∨ f = guards ∨ f = hooking ∨ f = destroying ∨ f = publishing → tally f (goto t p w) s = tally f w s) as Heq.
  { intros f s H. unfold tally, goto. cbn. rewrite msum_insert_any, Ht. cbn. assert (f s p = 0); [|lia].
    destruct op; cbn in Hop; try case_decide; simplify_eq; by repeat destruct H as [->|H]; subst. }
  split; [..|done]; intros s; rewrite !Heq by tauto; [apply Hs|apply Hn].
Qed.
Lemma books_initial : books initial.
Proof. by split. Qed.
Lemma books_run w t p a w' : books w → threads w !! t = Some p → run w t p a = Some w' → books w'.
Proof.
  intros Hb Hp H. destruct p, a; try discriminate H;
    first [eapply books_deliver; [done..|exact H]|eapply books_stop; [done..|exact H]|eapply books_attach; [done..|exact H]
          |eapply books_capture; [done..|exact H]|eapply books_close; [done..|exact H]].
Qed.
Lemma books_step w l w' : books w → step w l = Some w' → books w'.
Proof.
  intros Hb H. destruct l as [t op|t a|]; cbn in H.
  - destruct (threads w !! t) eqn:Ht; [done|]. destruct (start w op) as [p|] eqn:Hop; [|done]. injection H as <-. by eapply books_spawn.
  - destruct (threads w !! t) as [p|] eqn:Hp; [|done]. cbn in H. destruct (blocked w t p); [done|]. by eapply books_run.
  - destruct (writing w) as [[t n]|]; [|done]. injection H as <-. by destruct Hb; split.
Qed.
Theorem books_reachable w : reachable w → books w.
Proof. induction 1 as [|w l w' _ IH H]; [apply books_initial|by eapply books_step]. Qed.
End PluginBooks.

(** ** The host *)
Module HostBooks.
Import PluginBooks.
(** One state of a slot becomes another. *)
Definition advance (a b : SessionState) : Prop :=
  match a, b with
  | Running _, _ => True
  | Stopped r, b => b = Stopped r
  | _, Running _ => False
  | _, _ => True
  end.
Lemma advance_refl a : advance a a.
Proof. by destruct a. Qed.
Record later (w w' : World) : Prop := mkLater {
  l_closed : closed w = true → closed w' = true;
  l_stopped : stopped w = true → stopped w' = true;
  l_slots : ∀ s sl, slots w !! s = Some sl →
    ∃ sl', slots w' !! s = Some sl' ∧ observations sl' = observations sl ∧ advance (state sl) (state sl') }.
Lemma later_same w w' : (closed w = true → closed w' = true) → (stopped w = true → stopped w' = true) → slots w' = slots w → later w w'.
Proof. intros Hc Hs Heq. split; [done..|]. intros s sl H. rewrite Heq. exists sl. auto using advance_refl. Qed.
Lemma later_set w s sl sl' t p : slots w !! s = Some sl → observations sl' = observations sl → advance (state sl) (state sl') →
  later w (goto t p (set_slot s sl' w)).
Proof.
  intros Hsl Ho Ha. split; [done..|]. intros s' x Hx. change (slots _) with (<[s := sl']> (slots w)).
  destruct (decide (s' = s)) as [->|Hne].
  - exists sl'. by rewrite lookup_insert_eq; simplify_eq.
  - exists x. rewrite lookup_insert_ne by done. auto using advance_refl.
Qed.
Lemma later_goto w w' t p : later w w' → later w (goto t p w').
Proof. by intros []; split. Qed.

(** Open a step of a thread: its cases, without those that refuse. *)
Ltac simpl_run H := cbn -[publish_listeners prune_stopped push_slot close_slots request_stop finish_callback callback] in H.
Ltac open_run H p a :=
  unfold run in H; destruct p, a; try discriminate H; simpl_run H;
  repeat match type of H with
    | (match ?x with _ => _ end) = _ => is_var x; destruct x; try discriminate H; simpl_run H
    | (slots ?w !! ?s ≫= _) = _ =>
        let sl := fresh "sl" in let Hsl := fresh "Hsl" in destruct (slots w !! s) as [sl|] eqn:Hsl; [|discriminate H]; simpl_run H
    | (finish_callback ?x ≫= _) = _ =>
        let next := fresh "next" in let f := fresh "finishes" in let Hf := fresh "Hf" in
        destruct (finish_callback x) as [[next f]|] eqn:Hf; [|discriminate H]; simpl_run H
    | (let '(_, _) := request_stop ?x in _) = _ =>
        let next := fresh "next" in let r := fresh "r" in let Hr := fresh "Hr" in destruct (request_stop x) as [next r] eqn:Hr; simpl_run H
    | (if ?c then _ else None) = _ => let Hc := fresh "Hc" in destruct c eqn:Hc; [|discriminate H]; simpl_run H
    end; try (injection H as <-).

Lemma advance_request a next r : request_stop a = (next, r) → advance a next.
Proof. destruct a as [[]| | |]; cbn; intros [= <- <-]; done. Qed.
Lemma advance_finish a next b : finish_callback a = Some (next, b) → advance a next.
Proof. unfold finish_callback. destruct a; [|case_match|..]; intros [= <- <-]; done. Qed.
Lemma callback_keeps sl sl' : callback sl = Some sl' → observations sl' = observations sl ∧ advance (state sl) (state sl').
Proof. unfold callback. destruct (state sl) eqn:E; intros [= <-]; cbn; done. Qed.
Lemma publishing_stopping w t s r k sl : books w → threads w !! t = Some (Publish s r k) → slots w !! s = Some sl → state sl = Stopping.
Proof.
  intros Hb Hp Hsl. pose proof (b_slots w Hb s sl Hsl) as Hok. unfold slot_ok in Hok.
  assert (1 ≤ tally publishing w s) by (rewrite <-(at_self s); apply (tally_le publishing w t _ s (proj2 (proj2 (proj2 (proj2 counted_all)))) Hp)).
  destruct (state sl); decompose [and] Hok; try done; lia.
Qed.
Lemma host_later_run w t p a w' : books w → threads w !! t = Some p → run w t p a = Some w' → later w w'.
Proof.
  intros Hb Hp H. open_run H p a.
  all: try (apply later_same; [done..|]; done).
  all: try (eapply later_set; [eassumption|done|]; eauto using advance_refl, advance_request, advance_finish; done).
  all: try (destruct (prune_slots t w) as (Hs & _ & _ & Hst & Hc & _); apply later_goto, later_same; [by rewrite Hc|by rewrite Hst|done]).
  - destruct (if selects _ _ then callback sl else None) as [sl'|] eqn:Hcb; [|by apply later_same].
    destruct (selects _ _); [|done]. destruct (callback_keeps _ _ Hcb). by eapply later_set.
  - eapply later_set; [done..|]. by rewrite (publishing_stopping w t slot r k sl).
  - destruct (push_fields t observations0 w) as (Hs & _ & _ & Hst & _ & Hc & _). apply later_goto.
    split; [by rewrite Hc|by rewrite Hst|]. intros s sl Hsl. rewrite Hs. exists sl. rewrite lookup_insert_ne; [auto using advance_refl|].
    intros <-. by rewrite (b_fresh _ Hb) in Hsl.
  - destruct (close_fields t w) as (Hs & _ & _ & Hst & _ & Hc & _). apply later_goto, later_same; [by rewrite Hc|by rewrite Hst|done].
Qed.

(** What a thread holds of the attachments' scopes. *)
Definition frame_holds (k : Frame) : bool := match k with K_Guards _ _ | K_Late => true | _ => false end.
Definition admitted (p : Pc) : bool :=
  match p with
  | Snapshot _ | Lease _ _ _ | Deliver _ _ _ | Inside _ _ _ _ | Unpin _ _ _ | Guard _ _ _
  | AttachPrune | AttachCheck | AttachUser | AttachPush _ | AttachStatus _ => true
  | Request _ k | Hook _ k | Destroy _ _ k | Publish _ _ k | NotifyWaiters _ _ k => frame_holds k
  | _ => false
  end.
Definition holds (p : Pc) : bool := match p with Admit _ | AttachAdmit | Leave _ => true | _ => admitted p end.
Definition permit (p : Pc) : Z := if holds p then 1 else 0.
Lemma holds_drop_leases leases errors : holds (drop_leases leases errors) = true.
Proof. by destruct leases. Qed.
Lemma holds_closing phase todo errors : holds (closing phase todo errors) = false.
Proof. by destruct phase, todo. Qed.
Lemma holds_resume k r : holds (resume k r) = frame_holds k.
Proof. destruct k; cbn [resume frame_holds]; auto using holds_drop_leases, holds_closing. Qed.
Lemma admitted_closing phase todo errors : admitted (closing phase todo errors) = false.
Proof. by destruct phase, todo. Qed.
Lemma admitted_resume k r : admitted (resume k r) = true → frame_holds k = true.
Proof. intros H. rewrite <-(holds_resume k r). by destruct (resume k r). Qed.

(** Whom a step wakes. *)
Definition wakes (p : Pc) : Pc → Pc := match p with NotifyWaiters s _ _ => wake s | _ => id end.
Record turn (w w' : World) (t : nat) (p p' : Pc) : Prop := mkTurn {
  t_threads : threads w' = <[t := p']> (wakes p <$> threads w);
  t_active : permit p ≤ Z.of_nat (active w) → Z.of_nat (active w') = Z.of_nat (active w) - permit p + permit p';
  t_admitted : closed w = true → admitted p' = true → admitted p = true;
  t_registered : stopped w = true → admitted p = false → registered w' = registered w }.
Lemma turn_goto w w' t p p' : wakes p = id → threads w' = threads w → active w' = active w → holds p' = holds p →
  (closed w = true → admitted p' = true → admitted p = true) → (stopped w = true → admitted p = false → registered w' = registered w) →
  turn w (goto t p' w') t p p'.
Proof.
  intros Hwk Ht Ha Hh Hadm Hreg. split; [cbn; by rewrite Ht, Hwk, map_fmap_id| |done|done]. unfold permit. rewrite Hh. cbn. rewrite Ha. lia.
Qed.
Lemma prune_registered t w : stopped w = true → registered (prune_stopped t w) = registered w.
Proof. intros E. unfold prune_stopped, publish_listeners. by rewrite E, E. Qed.
Lemma run_turn w t p a w' : run w t p a = Some w' → ∃ p', turn w w' t p p'.
Proof.
  intros H. open_run H p a.
  all: try (eexists; apply turn_goto; [done..| |]; repeat case_match; done).
  all: try (destruct (prune_slots t w) as (_ & Ht & _ & _ & _ & Ha); eexists;
    apply turn_goto; [done..|done|intros; by apply prune_registered]).
  - eexists. by apply turn_goto; [..|by destruct (is_empty _ _ _)|destruct (is_empty _ _ _)|].
  - eexists. split; [by rewrite map_fmap_id|unfold permit; cbn; lia|done..].
  - eexists. apply turn_goto; [done..|by destruct (closed w)|by intros ->|done].
  - eexists. by apply turn_goto; [..|destruct leases|destruct leases|].
  - destruct (if selects _ _ then callback sl else None) as [sl'|]; eexists; by apply turn_goto.
  - eexists. by apply turn_goto; [..|apply holds_drop_leases| |].
  - eexists. by apply turn_goto; [..|destruct finishes; [done|apply holds_drop_leases]| |].
  - eexists. split; [by rewrite map_fmap_id|unfold permit; cbn; lia|done..].
  - eexists. apply turn_goto; [done..| | |done].
    + destruct r; [done|apply holds_resume].
    + destruct r as [u|r]; [done|intros _; apply admitted_resume].
  - eexists. split; [done| |intros _; apply admitted_resume|done].
    unfold permit. rewrite holds_resume. cbn. lia.
  - eexists. split; [by rewrite map_fmap_id|unfold permit; cbn; lia|done..].
  - eexists. apply turn_goto; [done..|by destruct (closed w)|by intros ->|done].
  - eexists. by apply turn_goto; [..|destruct (stopped w)| |].
  - destruct (push_fields t observations0 w) as (_ & Ht & _ & _ & _ & _ & Ha). eexists.
    by apply turn_goto; [..|destruct (stopped w)| |].
  - eexists. by apply turn_goto; [..|destruct (closed w)| |].
  - destruct (close_fields t w) as (_ & Ht & _ & _ & Hr & _ & Ha). eexists.
    apply turn_goto; [done..|by destruct phase, (registered w)|by rewrite admitted_closing|done].
  - eexists. by apply turn_goto; [..|destruct (state sl), todo|destruct (state sl), todo|].
Qed.

(** What is known of a slot, and of the slots a thread is about to touch. *)
Definition known (w : World) (s : nat) : Prop := is_Some (slots w !! s).
Definition asked (w : World) (s : nat) : Prop :=
  ∃ sl, slots w !! s = Some sl ∧ match state sl with Running _ => False | _ => True end.
Definition ended (w : World) (s : nat) (r : result PluginError unit) : Prop := ∃ sl, slots w !! s = Some sl ∧ state sl = Stopped r.
Lemma later_known w w' s : later w w' → known w s → known w' s.
Proof. intros H [sl Hsl]. destruct (l_slots _ _ H s sl Hsl) as (sl' & ? & _). by exists sl'. Qed.
Lemma later_asked w w' s : later w w' → asked w s → asked w' s.
Proof.
  intros H (sl & Hsl & Hst). destruct (l_slots _ _ H s sl Hsl) as (sl' & Hsl' & _ & Ha). exists sl'. split; [done|].
  destruct (state sl); try done; cbn in Ha; [by destruct (state sl')..|by rewrite Ha].
Qed.
Lemma later_ended w w' s r : later w w' → ended w s r → ended w' s r.
Proof.
  intros H (sl & Hsl & Hst). destruct (l_slots _ _ H s sl Hsl) as (sl' & Hsl' & _ & Ha). rewrite Hst in Ha. by exists sl'.
Qed.
Lemma later_all w w' l : later w w' → Forall (known w) l → Forall (known w') l.
Proof. intros H Hl. eapply Forall_impl; [exact Hl|]. intros s. by apply later_known. Qed.
Lemma asked_known w s : asked w s → known w s.
Proof. intros (sl & ? & _). by exists sl. Qed.

Definition shut (w : World) : Prop := closed w = true ∧ stopped w = true.
Definition frame_ok (w : World) (s : nat) (k : Frame) : Prop :=
  match k with
  | K_Guards leases _ => Forall (known w) leases
  | K_StopAll todo _ | K_First todo => shut w ∧ Forall (known w) todo
  | K_Wait s' todo _ => shut w ∧ s' = s ∧ Forall (known w) todo
  | _ => True
  end.
Definition fact (w : World) (p : Pc) : Prop :=
  match p with
  | Lease _ todo leases => Forall (known w) todo ∧ Forall (known w) leases
  | Deliver todo leases _ => todo ⊆ leases ∧ Forall (known w) leases
  | Inside s todo leases _ => s ∈ leases ∧ todo ⊆ leases ∧ Forall (known w) leases
  | Unpin s leases _ | Guard s leases _ => known w s ∧ Forall (known w) leases
  | Request s k => known w s ∧ frame_ok w s k
  | Hook s k | Destroy s _ k | Publish s _ k | NotifyWaiters s _ k => asked w s ∧ frame_ok w s k
  | AttachStatus s => known w s
  | SwapSlots First | SwapSlots StopAll => closed w = true
  | StopContext Second | CloseScopes Second | SwapSlots Second | Drain | Done (O_Shutdown _) => shut w
  | Enable s todo _ | CheckStopped s todo _ _ | Wait s todo _ _ => shut w ∧ asked w s ∧ Forall (known w) todo
  | Leave (O_Shutdown _) | Prune (O_Shutdown _) => False
  | _ => True
  end.
Lemma later_shut w w' : later w w' → shut w → shut w'.
Proof. intros [Hc Hs _] [? ?]. split; auto. Qed.
Lemma later_frame w w' s k : later w w' → frame_ok w s k → frame_ok w' s k.
Proof.
  intros H. destruct k; cbn; try done; try (by apply later_all).
  all: intros Hk; decompose [and] Hk; eauto using later_shut, later_all.
Qed.
Lemma later_fact w w' p : later w w' → fact w p → fact w' p.
Proof.
  intros H. destruct p; cbn; try done.
  all: try (destruct phase); try (destruct out); try done; try (by apply later_known); try (by apply later_shut).
  all: try (intros Hk; decompose [and] Hk; split_and!; eauto using later_shut, later_all, later_known, later_asked, later_frame; done).
  all: apply (l_closed _ _ H).
Qed.
Lemma wake_fact w s p : fact w p → fact w (wake s p).
Proof. destruct p; try done; cbn; case_decide; done. Qed.
Lemma fact_closing w phase todo errors : shut w → Forall (known w) todo → fact w (closing phase todo errors).
Proof. intros Hs [|s l Hk Hl]; destruct phase; cbn; auto. Qed.
Lemma fact_drop_leases w leases errors : Forall (known w) leases → fact w (drop_leases leases errors).
Proof. intros [|s l Hk Hl]; cbn; auto. Qed.
Lemma fact_resume w s k r : asked w s → frame_ok w s k → fact w (resume k r).
Proof.
  intros Hs. destruct k; cbn [frame_ok resume]; try done.
  - apply fact_drop_leases.
  - intros [? ?]. by apply fact_closing.
  - intros [? ?]. by apply fact_closing.
  - intros (? & -> & ?). done.
Qed.

(** What the cache knows of its own registrations. *)
Record roster (w : World) : Prop := mkRoster {
  r_closed : stopped w = true → closed w = true;
  r_known : Forall (known w) (registered w);
  r_all : ∀ s, known w s → s ∈ registered w ∨ ∃ r, ended w s r;
  r_fresh : ∀ s, known w s → (s < next_slot w)%nat;
  r_nodup : NoDup (registered w);
  r_counts : observers w = (if stopped w then O else length (filter (λ s, observes w s = true) (registered w)))
    ∧ (match writing w with Some (_, n) => n | None => listeners w end) = (if stopped w then O else length (registered w)) }.

Lemma slots_goto w t p s : slots (goto t p w) !! s = slots w !! s.
Proof. done. Qed.
Lemma slot_set w t p s sl : slots (goto t p (set_slot s sl w)) !! s = Some sl.
Proof. apply lookup_insert_eq. Qed.
Lemma known_set w t p s sl : known (goto t p (set_slot s sl w)) s.
Proof. eexists. apply slot_set. Qed.
Lemma asked_set w t p s sl : match state sl with Running _ => False | _ => True end → asked (goto t p (set_slot s sl w)) s.
Proof. exists sl. by rewrite slot_set. Qed.
Lemma request_asks a next r : request_stop a = (next, r) → match next with Running _ => False | _ => True end.
Proof. destruct a as [[]| | |]; cbn; intros [= <- <-]; done. Qed.
Lemma finish_asks a next : finish_callback a = Some (next, true) → match next with Running _ => False | _ => True end.
Proof. unfold finish_callback. destruct a; [|case_match|..]; intros [= <-]; done. Qed.
Lemma land w w1 t p : later w (goto t p w1) → fact w p → ∃ q, threads (goto t p w1) !! t = Some q ∧ fact (goto t p w1) q.
Proof. intros Hl Hf. exists p. split; [apply lookup_insert_eq|by eapply later_fact]. Qed.
Lemma fact_run w t p a w' :
  books w → roster w → threads w !! t = Some p → fact w p → run w t p a = Some w' → ∃ p', threads w' !! t = Some p' ∧ fact w' p'.
Proof.
  intros Hb Hro Hp Hf H. pose proof (host_later_run _ _ _ _ _ Hb Hp H) as Hl.
  open_run H p a.
  all: try (apply (land w _ _ _ Hl); repeat case_match; cbn in Hf |- *; try done; tauto).
  - apply (land w _ _ _ Hl). split; [|done]. destruct (stopped w); [done|apply Hro].
  - apply (land w _ _ _ Hl). destruct leases; [done|]. split; [done|apply Hf].
  - destruct (if selects _ _ then callback sl else None) as [sl'|]; apply (land w _ _ _ Hl); destruct Hf as [Hn Hf];
      inversion Hn; subst; split; auto. apply Forall_app. auto.
  - apply (land w _ _ _ Hl), fact_drop_leases, Hf.
  - apply (land w _ _ _ Hl). destruct Hf as [Hs Hf]. split_and!; [apply Hs; left|set_solver|done].
  - eexists. split; [apply lookup_insert_eq|]. destruct Hf as [Hs Hf]. destruct finishes.
    + split; [apply asked_set; by eapply finish_asks|by eapply later_all].
    + apply fact_drop_leases. by eapply later_all.
  - apply (land w _ _ _ Hl). by destruct out.
  - eexists. split; [apply lookup_insert_eq|]. destruct Hf as [Hs Hf]. pose proof (request_asks _ _ _ Hr) as Ha.
    destruct r as [u|r]; [split|apply fact_resume with slot]; [by apply asked_set|by eapply later_frame|by apply asked_set|by eapply later_frame].
  - apply (land w _ _ _ Hl), fact_resume with slot; apply Hf.
  - apply (land w _ _ _ Hl). by destruct out.
  - destruct (push_fields t observations0 w) as (Hs & _). eexists. split; [apply lookup_insert_eq|].
    assert (known (goto t (if stopped w then Request (next_slot w) K_Late else AttachStatus (next_slot w)) (push_slot t observations0 w)) (next_slot w)) as Hk.
    { unfold known. rewrite slots_goto, Hs, lookup_insert_eq. by eexists. }
    by destruct (stopped w).
  - eexists. split; [apply lookup_insert_eq|]. destruct phase; [done..|]. split; [done|apply Hf].
  - destruct (close_fields t w) as (Hs & _ & _ & Hst & _ & Hc & _). eexists. split; [apply lookup_insert_eq|].
    apply fact_closing; [|eapply later_all; [exact Hl|apply Hro]]. split; [|done]. cbn. rewrite Hc. by destruct phase; [..|apply Hf].
  - apply (land w _ _ _ Hl). destruct Hf as (? & ? & ?). destruct (state sl); try done. by apply (fact_closing w Second).
Qed.

Lemma publish_counts t w : observers (publish_listeners t w) = (if stopped w then O else length (filter (λ s, observes w s = true) (registered w)))
  ∧ writing (publish_listeners t w) = Some (t, if stopped w then O else length (registered w)).
Proof. unfold publish_listeners. by destruct (stopped w). Qed.

Lemma observes_later w w' s : later w w' → known w s → observes w' s = observes w s.
Proof. intros H [sl Hsl]. destruct (l_slots _ _ H s sl Hsl) as (sl' & Hsl' & Ho & _). unfold observes. by rewrite Hsl, Hsl', Ho. Qed.
Lemma observers_later w w' l : later w w' → Forall (known w) l →
  length (filter (λ s, observes w' s = true) l) = length (filter (λ s, observes w s = true) l).
Proof.
  intros H. induction 1 as [|s l Hs Hl IH]; [done|]. rewrite !filter_cons. pose proof (observes_later w w' s H Hs) as Ho.
  destruct (decide (observes w' s = true)), (decide (observes w s = true)); cbn; first [by rewrite IH|congruence].
Qed.
Lemma roster_same w w' :
  later w w' → (∀ s, known w' s → known w s) → registered w' = registered w → next_slot w' = next_slot w → stopped w' = stopped w →
  observers w' = observers w → listeners w' = listeners w → writing w' = writing w → roster w → roster w'.
Proof.
  intros Hl Hk Hr Hn Hs Ho Hli Hw []. split; rewrite ?Hr, ?Hn, ?Hs, ?Ho, ?Hli, ?Hw.
  - intros E. by apply (l_closed _ _ Hl), r_closed0.
  - by eapply later_all.
  - intros s Hs'. destruct (r_all0 s (Hk s Hs')) as [?|[r ?]]; [by left|right; exists r; by eapply later_ended].
  - intros s Hs'. by apply r_fresh0, Hk.
  - done.
  - by rewrite (observers_later w w').
Qed.
Lemma prune_from_perm gone rest : ∀ fuel kept, (length rest ≤ fuel)%nat →
  prune_from fuel gone kept rest ≡ₚ kept ++ filter (λ s, gone s = false) rest.
Proof.
  induction rest as [rest IH] using (well_founded_induction (well_founded_ltof _ length)). intros fuel kept Hf.
  destruct rest as [|s rest]; [rewrite filter_nil; by destruct fuel|]. cbn in Hf. destruct fuel as [|fuel]; [lia|]. cbn [prune_from].
  rewrite filter_cons. destruct (gone s) eqn:Hg.
  - rewrite decide_False by done. destruct rest as [|y rest _] using rev_ind; [by rewrite app_nil_r|].
    rewrite last_snoc, removelast_last. rewrite length_app in Hf. cbn in Hf. rewrite IH; [|unfold ltof; cbn; rewrite length_app; cbn; lia|cbn; lia].
    by rewrite (Permutation_app_comm rest [y]).
  - rewrite decide_True by done. rewrite IH; [|unfold ltof; cbn; lia|lia]. by rewrite <-(assoc_L (++)).
Qed.
Lemma prune_perm t w : stopped w = false →
  registered (prune_stopped t w) ≡ₚ filter (λ s, slot_stopped w s = false) (registered w).
Proof.
  intros E. unfold prune_stopped. rewrite E. destruct (publish_slots t (w <| registered := prune_from (length (registered w)) (slot_stopped w) [] (registered w) |>))
    as (_ & _ & _ & _ & -> & _). cbn. by rewrite prune_from_perm.
Qed.
Lemma slot_stopped_ended w s : slot_stopped w s = true → ∃ r, ended w s r.
Proof. unfold slot_stopped, ended. destruct (slots w !! s) as [sl|]; [|done]. destruct (state sl) as [| | |r] eqn:E; try done. eauto. Qed.
Lemma observes_slots w w' l : slots w' = slots w →
  length (filter (λ s, observes w' s = true) l) = length (filter (λ s, observes w s = true) l).
Proof. intros H. f_equal. apply list_filter_iff. intros s. unfold observes. by rewrite H. Qed.
Lemma published_counts t w : let w' := publish_listeners t w in
  observers w' = (if stopped w' then O else length (filter (λ s, observes w' s = true) (registered w')))
  ∧ (match writing w' with Some (_, n) => n | None => listeners w' end) = (if stopped w' then O else length (registered w')).
Proof.
  cbn. destruct (publish_counts t w) as [-> ->]. destruct (publish_slots t w) as (Hs & _ & _ & -> & -> & _).
  by rewrite (observes_slots w (publish_listeners t w)) by done.
Qed.
Lemma roster_goto t p w : roster w → roster (goto t p w).
Proof. by intros []; split. Qed.
Lemma roster_prune t w : roster w → roster (prune_stopped t w).
Proof.
  intros Hro. destruct (prune_slots t w) as (Hs & Ht & Hn & Hst & Hc & _).
  assert (later w (prune_stopped t w)) as Hl by (apply later_same; [by rewrite Hc|by rewrite Hst|done]).
  assert (∀ s, known (prune_stopped t w) s → known w s) as Hk by (intros s; unfold known; by rewrite Hs).
  assert (∀ s, s ∈ registered (prune_stopped t w) → s ∈ registered w) as Hsub.
  { intros s. destruct (stopped w) eqn:E; [by rewrite prune_registered|]. rewrite prune_perm by done. rewrite list_elem_of_filter. tauto. }
  split.
  - rewrite Hc, Hst. apply Hro.
  - apply Forall_forall. intros s Hin. eapply later_known; [exact Hl|]. pose proof (r_known _ Hro) as Hf. rewrite Forall_forall in Hf. auto.
  - intros s Hs'. destruct (r_all _ Hro s (Hk s Hs')) as [Hin|[r Hr]]; [|right; exists r; by eapply later_ended].
    destruct (stopped w) eqn:E; [left; by rewrite prune_registered|]. destruct (slot_stopped w s) eqn:Hss.
    + right. destruct (slot_stopped_ended w s Hss) as [r Hr]. exists r. by eapply later_ended.
    + left. rewrite prune_perm by done. by apply list_elem_of_filter.
  - intros s Hs'. rewrite Hn. by apply (r_fresh _ Hro), Hk.
  - destruct (stopped w) eqn:E; [rewrite prune_registered by done; apply Hro|]. rewrite prune_perm by done. apply NoDup_filter, Hro.
  - apply published_counts.
Qed.
Lemma roster_close t w : closed w = true → roster w → roster (close_slots t w).
Proof.
  intros Hclosed Hro. destruct (close_fields t w) as (Hs & Ht & Hn & Hst & Hr & Hc & _).
  assert (later w (close_slots t w)) as Hl by (apply later_same; [by rewrite Hc|done|done]).
  split; rewrite ?Hc, ?Hr, ?Hn; try apply Hro; try done.
  - eapply later_all; [done|apply Hro].
  - intros s Hk. destruct (r_all _ Hro s) as [?|[r ?]]; [unfold known in *; by rewrite Hs in Hk|by left|right; exists r; by eapply later_ended].
  - intros s Hk. apply (r_fresh _ Hro). unfold known in *. by rewrite Hs in Hk.
  - rewrite Hst. unfold close_slots. destruct (stopped w) eqn:E; [|done]. pose proof (r_counts _ Hro) as H. by rewrite E in H.
Qed.
Lemma roster_push t o w : (∀ s, (next_slot w ≤ s)%nat → slots w !! s = None) → roster w → roster (push_slot t o w).
Proof.
  intros Hfresh Hro. destruct (push_fields t o w) as (Hs & Ht & Hn & Hst & Hr & Hc & _).
  assert (later w (push_slot t o w)) as Hl.
  { split; [by rewrite Hc|by rewrite Hst|]. intros s sl Hsl. rewrite Hs. exists sl.
    rewrite lookup_insert_ne; [auto using advance_refl|]. intros <-. by rewrite Hfresh in Hsl. }
  assert (∀ s, known (push_slot t o w) s → s = next_slot w ∨ known w s) as Hk.
  { intros s. unfold known. rewrite Hs. destruct (decide (s = next_slot w)); [by left|]. rewrite lookup_insert_ne by done. by right. }
  split.
  - rewrite Hc, Hst. apply Hro.
  - rewrite Hr. apply Forall_app. split; [eapply later_all; [done|apply Hro]|]. apply Forall_singleton.
    unfold known. rewrite Hs, lookup_insert_eq. by eexists.
  - intros s [->|Hks]%Hk; rewrite Hr; [left; apply elem_of_app; right; by left|].
    destruct (r_all _ Hro s Hks) as [?|[r ?]]; [left; apply elem_of_app; by left|right; exists r; by eapply later_ended].
  - rewrite Hn. intros s [->|Hks]%Hk; [lia|]. pose proof (r_fresh _ Hro s Hks). lia.
  - rewrite Hr. apply NoDup_app. split_and!; [apply Hro| |apply NoDup_singleton]. intros s Hin ->%list_elem_of_singleton.
    pose proof (r_known _ Hro) as Hf. rewrite Forall_forall in Hf. destruct (Hf _ Hin) as [sl Hsl]. by rewrite Hfresh in Hsl.
  - apply published_counts.
Qed.
Lemma roster_run w t p a w' : books w → roster w → threads w !! t = Some p → fact w p → run w t p a = Some w' → roster w'.
Proof.
  intros Hb Hro Hp Hf H. pose proof (host_later_run _ _ _ _ _ Hb Hp H) as Hl. open_run H p a.
  all: try (by eapply (roster_same w)).
  all: try (apply roster_goto, roster_prune, Hro).
  all: try (eapply (roster_same w); [done| |done..|done]; intros s' [x Hx]; cbn in Hx; apply lookup_insert_Some in Hx as [[<- _]|[_ Hx]]; by eexists).
  - destruct (if selects _ _ then callback sl else None) as [sl'|]; [|by eapply (roster_same w)].
    eapply (roster_same w); [done| |done..|done]. intros s' [x Hx]. cbn in Hx.
    apply lookup_insert_Some in Hx as [[<- _]|[_ Hx]]; by eexists.
  - apply roster_goto, roster_push; [apply Hb|done].
  - apply roster_goto, roster_close; [|done]. by destruct phase; [..|apply Hf].
Qed.

(** After the drain of a shutdown nobody is admitted, and the second pass over
    the registrations collects what each of them ended with. *)
Definition quiet (w : World) : Prop := ∀ t p, threads w !! t = Some p → admitted p = false.
Definition frame_pending (k : Frame) : option (option (list nat * list PluginError)) :=
  match k with K_Wait s todo errors => Some (Some (s :: todo, errors)) | _ => None end.
Definition pending (p : Pc) : option (option (list nat * list PluginError)) :=
  match p with
  | StopContext Second | CloseScopes Second | SwapSlots Second => Some None
  | Request _ k | Hook _ k | Destroy _ _ k | Publish _ _ k | NotifyWaiters _ _ k => frame_pending k
  | Enable s todo errors | CheckStopped s todo errors _ | Wait s todo errors _ => Some (Some (s :: todo, errors))
  | Done (O_Shutdown errors) => Some (Some ([], errors))
  | _ => None
  end.
Definition progress (w : World) (todo : list nat) (errors : list PluginError) : Prop :=
  ∃ before results, registered w = before ++ todo ∧ Forall2 (ended w) before results ∧ errors = concat (failures <$> results).
Definition second (w : World) (p : Pc) : Prop :=
  match pending p with
  | None => True
  | Some o => quiet w ∧ shut w ∧ match o with Some (todo, errors) => progress w todo errors | None => True end
  end.
Lemma wake_pending s p : pending (wake s p) = pending p.
Proof. by destruct p; cbn; try case_decide. Qed.
Lemma wake_admitted s p : admitted (wake s p) = admitted p.
Proof. by destruct p; cbn; try case_decide. Qed.
Lemma pending_closing phase todo errors :
  pending (closing phase todo errors) = match phase with Second => Some (Some (todo, errors)) | _ => None end.
Proof. by destruct phase, todo. Qed.
Lemma pending_drop_leases leases errors : pending (drop_leases leases errors) = None.
Proof. by destruct leases. Qed.
Lemma pending_resume k r : pending (resume k r) = frame_pending k.
Proof. destruct k; cbn [resume frame_pending]; rewrite ?pending_closing, ?pending_drop_leases; done. Qed.

(** What another thread is after a step. *)
Lemma turn_other w w' t p p' t' q : turn w w' t p p' → t' ≠ t → threads w' !! t' = Some q →
  ∃ q0, threads w !! t' = Some q0 ∧ q = wakes p q0.
Proof.
  intros [-> _ _ _] Hne. rewrite lookup_insert_ne, lookup_fmap by done. destruct (threads w !! t') as [q0|]; [|done].
  intros [= <-]. by exists q0.
Qed.
Lemma turn_self w w' t p p' : turn w w' t p p' → threads w' !! t = Some p'.
Proof. intros [-> _ _ _]. apply lookup_insert_eq. Qed.
Lemma wakes_pending p q : pending (wakes p q) = pending q.
Proof. destruct p; try done. apply wake_pending. Qed.
Lemma wakes_admitted p q : admitted (wakes p q) = admitted q.
Proof. destruct p; try done. apply wake_admitted. Qed.
Lemma quiet_turn w w' t p p' : turn w w' t p p' → threads w !! t = Some p → closed w = true → quiet w → quiet w'.
Proof.
  intros Ht Hp Hc Hq t' q Hq'. destruct (decide (t' = t)) as [->|Hne].
  - rewrite (turn_self _ _ _ _ _ Ht) in Hq'. injection Hq' as <-. destruct (admitted p') eqn:E; [|done].
    by rewrite <-(t_admitted _ _ _ _ _ Ht Hc E), (Hq t p Hp).
  - destruct (turn_other _ _ _ _ _ _ _ Ht Hne Hq') as (q0 & Hq0 & ->). rewrite wakes_admitted. by apply (Hq t').
Qed.
Lemma progress_later w w' todo errors : later w w' → registered w' = registered w → progress w todo errors → progress w' todo errors.
Proof.
  intros Hl Hr (before & results & Heq & Hf & He). exists before, results. rewrite Hr. split_and!; [done| |done].
  eapply Forall2_impl; [exact Hf|]. intros s r. by apply later_ended.
Qed.
Lemma second_turn w w' t p p' q : later w w' → turn w w' t p p' → threads w !! t = Some p → second w q → second w' q.
Proof.
  intros Hl Ht Hp. unfold second. destruct (pending q) as [o|]; [|done]. intros (Hq & [Hc Hs] & Ho).
  split_and!; [by eapply quiet_turn|by apply (later_shut w)|]. destruct o as [[todo errors]|]; [|done].
  eapply progress_later; [done| |done]. apply (t_registered _ _ _ _ _ Ht Hs). by apply (Hq t).
Qed.
Lemma second_none w p : pending p = None → second w p.
Proof. unfold second. by intros ->. Qed.
Lemma second_same w p q : pending q = pending p → second w p → second w q.
Proof. unfold second. by intros ->. Qed.
Lemma progress_next w s sl r todo errors : slots w !! s = Some sl → state sl = Stopped r →
  progress w (s :: todo) errors → progress w todo (errors ++ failures r).
Proof.
  intros Hsl Hst (before & results & Heq & Hf & ->). exists (before ++ [s]), (results ++ [r]). split_and!.
  - by rewrite <-(assoc_L (++)).
  - apply Forall2_app; [done|]. constructor; [by exists sl|constructor].
  - rewrite fmap_app, concat_app. cbn. by rewrite app_nil_r.
Qed.
Lemma second_next w t p a w' :
  fact w p → (active w = O → quiet w) → second w p → run w t p a = Some w' → ∃ p', threads w' !! t = Some p' ∧ second w p'.
Proof.
  intros Hf Hact Hsec H. open_run H p a.
  all: try (eexists; split; [apply lookup_insert_eq|]; first [by apply second_none|exact Hsec|
    apply second_none; by repeat case_match|apply second_none, pending_drop_leases]).
  - destruct (if selects _ _ then callback sl else None); eexists; (split; [apply lookup_insert_eq|by apply second_none]).
  - eexists. split; [apply lookup_insert_eq|]. apply second_none. destruct finishes; [done|apply pending_drop_leases].
  - eexists. split; [apply lookup_insert_eq|]. apply second_none. by destruct out.
  - eexists. split; [apply lookup_insert_eq|]. eapply second_same; [|exact Hsec]. destruct r; [done|apply pending_resume].
  - eexists. split; [apply lookup_insert_eq|]. eapply second_same; [|exact Hsec]. apply pending_resume.
  - eexists. split; [apply lookup_insert_eq|]. apply second_none. by destruct out.
  - eexists. split; [apply lookup_insert_eq|]. destruct phase; try (apply second_none, pending_closing).
    unfold second in *. rewrite pending_closing. destruct Hsec as (Hq & Hs & _). split_and!; [done..|].
    exists [], []. split_and!; [done|constructor|done].
  - eexists. split; [apply lookup_insert_eq|]. split_and!; [|exact Hf|done]. apply Hact. by apply Nat.eqb_eq.
  - eexists. split; [apply lookup_insert_eq|]. destruct (state sl) as [| | |r] eqn:Hst; try exact Hsec.
    change (second w (closing Second todo (errors ++ failures r))). unfold second in *. rewrite pending_closing.
    destruct Hsec as (Hq & Hs & Hpr). split_and!; [done..|]. by eapply progress_next.
Qed.

(** A thread that waits for a slot that has stopped is about to be woken. *)
Definition waiting (w : World) : Prop := ∀ t s todo errors r,
  threads w !! t = Some (Wait s todo errors false) → ended w s r → ∃ t' r' k, threads w !! t' = Some (NotifyWaiters s r' k).
Lemma ended_same w w' s r : slots w' = slots w → ended w' s r → ended w s r.
Proof. unfold ended. by intros ->. Qed.
Lemma ended_set w t p s0 sl sl' s r : slots w !! s0 = Some sl → (∀ r, state sl' = Stopped r → state sl = Stopped r) →
  ended (goto t p (set_slot s0 sl' w)) s r → ended w s r.
Proof.
  intros Hsl Hst (x & Hx & Hxr). cbn in Hx. apply lookup_insert_Some in Hx as [[<- <-]|[_ Hx]]; [exists sl; auto|by exists x].
Qed.
Lemma request_ends a next x r : request_stop a = (next, x) → next = Stopped r → a = Stopped r.
Proof. destruct a as [[]| | |]; cbn; intros [= <- <-]; done. Qed.
Lemma finish_ends a next b r : finish_callback a = Some (next, b) → next ≠ Stopped r.
Proof. unfold finish_callback. destruct a; [|case_match|..]; intros [= <- <-]; done. Qed.
Lemma ended_run w t p a w' s r : run w t p a = Some w' → ended w' s r →
  ended w s r ∨ ∃ k, threads w' !! t = Some (NotifyWaiters s r k).
Proof.
  intros H. open_run H p a.
  all: try (left; by eapply ended_same).
  all: try (intros He; left; eapply ended_set; [eassumption| |exact He]; cbn; intros ?;
    first [done|by eapply request_ends|by intros ?%(finish_ends _ _ _ _ Hf)|idtac]; done).
  all: try (intros He; left; by destruct (prune_slots t w) as [Hs _]; eapply ended_same).
  - destruct (if selects _ _ then callback sl else None) as [sl'|] eqn:Hcb; [|left; by eapply ended_same].
    destruct (selects _ _); [|done]. unfold callback in Hcb. destruct (state sl) eqn:Hst; simplify_eq.
    intros He. left. eapply ended_set; [exact Hsl| |exact He]. done.
  - intros (x & Hx & Hxr). cbn in Hx. apply lookup_insert_Some in Hx as [[<- <-]|[_ Hx]]; [|left; by exists x].
    right. cbn in Hxr. injection Hxr as <-. exists k. apply lookup_insert_eq.
  - destruct (push_fields t observations0 w) as [Hs _]. intros (x & Hx & Hxr). left. rewrite slots_goto, Hs in Hx.
    apply lookup_insert_Some in Hx as [[_ <-]|[_ Hx]]; [done|by exists x].
  - destruct (close_fields t w) as [Hs _]. intros He. left. by eapply ended_same.
Qed.

Definition sleeps (p : Pc) : Prop := match p with Wait _ _ _ false => True | _ => False end.
Lemma sleeps_closing phase todo errors : ¬ sleeps (closing phase todo errors).
Proof. destruct phase, todo; cbn; tauto. Qed.
Lemma sleeps_drop_leases leases errors : ¬ sleeps (drop_leases leases errors).
Proof. destruct leases; cbn; tauto. Qed.
Lemma sleeps_resume k r : ¬ sleeps (resume k r).
Proof. destruct k; cbn [resume]; try apply sleeps_closing; try apply sleeps_drop_leases; cbn; tauto. Qed.
Lemma sleep_run w t p a w' s todo errors r :
  run w t p a = Some w' → threads w' !! t = Some (Wait s todo errors false) → ended w' s r → False.
Proof.
  intros H Hp He. assert (∃ q, threads w' !! t = Some q ∧ sleeps q) as (q & Hq & Hz) by (eexists; split; [exact Hp|exact I]). revert q Hq Hz Hp He.
  open_run H p a; intros q Hq Hz Hp He.
  all: try (cbn in Hq; rewrite lookup_insert_eq in Hq; injection Hq as <-; repeat case_match;
    solve [exact (sleeps_closing _ _ _ Hz)|exact (sleeps_drop_leases _ _ Hz)|exact (sleeps_resume _ _ Hz)|contradiction]).
  - destruct (if selects _ _ then callback sl else None); cbn in Hq; rewrite lookup_insert_eq in Hq; by injection Hq as <-.
  - cbn in Hp. rewrite lookup_insert_eq in Hp. destruct He as (x & Hx & Hxr). rewrite slots_goto in Hx.
    destruct (state sl) eqn:Hst; try (destruct todo0; discriminate Hp); injection Hp as -> -> -> ->; congruence.
Qed.

(** ** The invariant *)
Record whole (w : World) : Prop := mkWhole {
  w_books : books w;
  w_roster : roster w;
  w_active : Z.of_nat (active w) = msum permit (threads w);
  w_facts : ∀ t p, threads w !! t = Some p → fact w p;
  w_second : ∀ t p, threads w !! t = Some p → second w p;
  w_waiting : waiting w }.
Lemma permit_nonneg p : 0 ≤ permit p.
Proof. unfold permit. case_match; lia. Qed.
Lemma permit_wake s p : permit (wake s p) = permit p.
Proof. by destruct p; cbn; try case_decide. Qed.
Lemma permits_turn w w' t p p' : turn w w' t p p' → threads w !! t = Some p →
  msum permit (threads w') = msum permit (threads w) - permit p + permit p'.
Proof.
  intros [-> _ _ _] Hp. rewrite msum_insert_any, lookup_fmap, Hp, msum_fmap. cbn.
  assert (∀ q, permit (wakes p q) = permit q) as Hw by (intros q; destruct p; try done; apply permit_wake).
  rewrite Hw. f_equal. f_equal. apply msum_ext. intros ? q _. apply Hw.
Qed.
Lemma idle_quiet w : Z.of_nat (active w) = msum permit (threads w) → active w = O → quiet w.
Proof.
  intros Ha H0 t p Hp. assert (permit p ≤ 0) as Hle.
  { replace 0 with (msum permit (threads w)) by lia. apply (msum_lookup_le _ _ t); [|done]. intros ? b _. apply permit_nonneg. }
  unfold permit in Hle. destruct (holds p) eqn:E; [lia|]. by destruct p.
Qed.
Lemma waiting_run w t p a w' p' : waiting w → turn w w' t p p' → threads w !! t = Some p → run w t p a = Some w' → waiting w'.
Proof.
  intros Hw Ht Hp H t0 s todo errors r Hp0 He. destruct (decide (t0 = t)) as [->|Hne].
  { exfalso. by eapply sleep_run. }
  destruct (ended_run _ _ _ _ _ _ _ H He) as [He0|[k Hk]]; [|by eauto].
  destruct (turn_other _ _ _ _ _ _ _ Ht Hne Hp0) as (q0 & Hq0 & Hq).
  assert (q0 = Wait s todo errors false ∧ ∀ r k, p ≠ NotifyWaiters s r k) as [-> Hnot].
  { destruct p; cbn in Hq; subst; try done. destruct q0; try discriminate Hq; cbn in Hq; case_decide; simplify_eq.
    split; [done|]. intros ? ? [= -> _ _]. done. }
  destruct (Hw _ _ _ _ _ Hq0 He0) as (t' & r' & k & Ht'). destruct (decide (t' = t)) as [->|Hne'].
  { rewrite Hp in Ht'. injection Ht' as ->. by destruct (Hnot r' k). }
  exists t', r', k. rewrite (t_threads _ _ _ _ _ Ht), lookup_insert_ne, lookup_fmap, Ht' by done. cbn. by destruct p.
Qed.
Lemma whole_run w t p a w' : whole w → threads w !! t = Some p → run w t p a = Some w' → whole w'.
Proof.
  intros [Hb Hro Ha Hf Hs Hw] Hp H. pose proof (host_later_run _ _ _ _ _ Hb Hp H) as Hl. destruct (run_turn _ _ _ _ _ H) as [p' Ht].
  assert (permit p ≤ msum permit (threads w)) as Hle by (apply (msum_lookup_le _ _ t); [intros ? b _; apply permit_nonneg|done]).
  split.
  - by eapply books_run.
  - by eapply roster_run; eauto.
  - rewrite (permits_turn _ _ _ _ _ Ht Hp), <-Ha. apply (t_active _ _ _ _ _ Ht). by rewrite Ha.
  - intros t' q Hq. destruct (decide (t' = t)) as [->|Hne].
    + destruct (fact_run _ _ _ _ _ Hb Hro Hp (Hf t p Hp) H) as (q' & Hq' & Hfact). congruence.
    + destruct (turn_other _ _ _ _ _ _ _ Ht Hne Hq) as (q0 & Hq0 & ->). destruct p; cbn; try apply wake_fact; eapply later_fact; eauto.
  - intros t' q Hq. destruct (decide (t' = t)) as [->|Hne]; (eapply second_turn; [done..|]).
    + destruct (second_next _ _ _ _ _ (Hf t p Hp) (idle_quiet w Ha) (Hs t p Hp) H) as (q' & Hq' & Hsec). congruence.
    + destruct (turn_other _ _ _ _ _ _ _ Ht Hne Hq) as (q0 & Hq0 & ->). eapply second_same; [apply wakes_pending|eauto].
  - by eapply waiting_run.
Qed.
Lemma start_fresh w op p : start w op = Some p → idle_stage p ∧ pending p = None ∧ permit p = 0 ∧ admitted p = false ∧ fact w p ∧ ¬ sleeps p.
Proof. destruct op; cbn; [..|case_decide as E| | |]; intros [= <-]; cbn; tauto. Qed.
Lemma later_refl w w' : slots w' = slots w → closed w' = closed w → stopped w' = stopped w → later w w'.
Proof. intros Hs Hc Hst. apply later_same; [by rewrite Hc|by rewrite Hst|done]. Qed.
Lemma second_world w w' p : later w w' → registered w' = registered w → (quiet w → quiet w') → second w p → second w' p.
Proof.
  intros Hl Hr Hq. unfold second. destruct (pending p) as [[[todo errors]|]|]; [..|done]; intros (? & ? & ?);
    split_and!; eauto using later_shut, progress_later.
Qed.
Lemma whole_spawn w t op p : whole w → threads w !! t = None → start w op = Some p → whole (goto t p w).
Proof.
  intros [Hb Hro Ha Hf Hs Hw] Ht Hop. destruct (start_fresh w op p Hop) as (_ & Hpend & Hperm & Hadm & Hfact & Hsl).
  assert (later w (goto t p w)) as Hl by by apply later_refl.
  assert (∀ t' q, threads (goto t p w) !! t' = Some q → q = p ∨ threads w !! t' = Some q) as Hlook.
  { intros t' q Hq. cbn in Hq. apply lookup_insert_Some in Hq as [[_ <-]|[_ Hq]]; auto. }
  split.
  - by eapply books_spawn.
  - by apply roster_goto.
  - cbn. rewrite msum_insert_any, Ht. cbn. lia.
  - intros t' q [->|Hq]%Hlook; eapply later_fact; eauto.
  - intros t' q [->|Hq]%Hlook; [by apply second_none|]. eapply second_world; [done..| |by eapply Hs].
    intros Hqu t'' q' [->|Hq']%Hlook; [done|by eapply Hqu].
  - intros t' s todo errors r [<-|Hq]%Hlook; [done|]. intros He. destruct (Hw t' s todo errors r Hq He) as (t'' & r' & k & H).
    exists t'', r', k. cbn. rewrite lookup_insert_ne; [done|]. intros ->. congruence.
Qed.
Lemma whole_store w t n : whole w → writing w = Some (t, n) → whole (w <| listeners := n |> <| writing := None |>).
Proof.
  intros [Hb Hro Ha Hf Hs Hw] Hwr. set (w' := _ <| writing := _ |>). assert (later w w') as Hl by by apply later_refl.
  split; [by destruct Hb|..|done].
  - destruct Hro as [? ? ? ? ? Hc]. split; try done. by rewrite Hwr in Hc.
  - done.
  - intros t' q Hq. eapply later_fact; [done|by eapply Hf].
  - intros t' q Hq. eapply second_world; [done..|by eapply Hs].
Qed.
Lemma whole_initial : whole initial.
Proof. split; [apply books_initial|..]; try done. split; try done; [by intros s [? ?]..|constructor]. Qed.
Theorem whole_reachable w : reachable w → whole w.
Proof.
  induction 1 as [|w l w' _ IH H]; [apply whole_initial|]. destruct l as [t op|t a|]; cbn in H.
  - destruct (threads w !! t) eqn:Ht; [done|]. destruct (start w op) as [p|] eqn:Hop; [|done]. injection H as <-. by eapply whole_spawn.
  - destruct (threads w !! t) as [p|] eqn:Hp; [|done]. cbn in H. destruct (blocked w t p); [done|]. by eapply whole_run.
  - destruct (writing w) as [[t n]|] eqn:Hwr; [|done]. injection H as <-. by eapply whole_store.
Qed.
End HostBooks.

(** ** What the host promises *)
Module PluginsTheorems.
Import PluginBooks HostBooks.
Lemma execute_reachable w ls w' : reachable w → execute w ls = Some w' → reachable w'.
Proof.
  unfold execute. revert w. induction ls as [|l ls IH]; cbn; intros w Hw H; [by injection H as <-|].
  destruct (step w l) as [w1|] eqn:E; [by apply (IH w1); [by eapply reachable_step|]|].
  exfalso. clear -H. by induction ls.
Qed.
Lemma tally_at f w t p s : counted f → threads w !! t = Some p → f s p ≤ tally f w s.
Proof. intros. by eapply tally_le. Qed.
Lemma tally_two f w t t' p p' s : counted f → t ≠ t' → threads w !! t = Some p → threads w !! t' = Some p' →
  f s p + f s p' ≤ tally f w s.
Proof.
  intros Hf Hne Hp Hp'. unfold tally. pose proof (msum_delete (f s) (threads w) t p Hp).
  assert (f s p' ≤ msum (f s) (delete t (threads w))); [|lia].
  apply (msum_lookup_le _ _ t'); [intros ? b _; apply Hf|]. by rewrite lookup_delete_ne.
Qed.
Lemma msum_pos {A} (f : A → Z) (m : gmap nat A) : 0 < msum f m → ∃ k a, m !! k = Some a ∧ 0 < f a.
Proof.
  induction m as [|k a m Hk IH] using map_ind; [rewrite msum_empty; lia|]. rewrite msum_insert by done. intros H.
  destruct (decide (0 < f a)) as [?|Hn].
  - exists k, a. by rewrite lookup_insert_eq.
  - destruct IH as (k' & a' & Hk' & ?); [lia|]. exists k', a'. rewrite lookup_insert_ne; [done|]. intros ->. congruence.
Qed.
Lemma inside_pins s todo leases errors w : fact w (Inside s todo leases errors) → 1 ≤ pins s (Inside s todo leases errors).
Proof. intros [Hin _]. by apply occ_pos. Qed.

(** C19: An attachment is stopped once and last. In every reachable state its
    stop hook has returned at most once and at most one thread is about to enter
    it. While a thread is inside a callback of the attachment, the hook has not
    been called and nobody is about to call it, and the session is alive. Once
    its end is published, the hook has returned, the session is destroyed, and
    no thread is inside its callbacks any more. *)
Theorem sessions_stop_once_and_last w s sl (Hw : reachable w) (Hs : slots w !! s = Some sl) :
  (hooks sl ≤ 1)%nat ∧
  (∀ t t' k k', threads w !! t = Some (Hook s k) → threads w !! t' = Some (Hook s k') → t = t') ∧
  (∀ t todo leases errors, threads w !! t = Some (Inside s todo leases errors) →
     hooks sl = O ∧ destroyed sl = false ∧ ∀ t' k, threads w !! t' ≠ Some (Hook s k)) ∧
  (∀ r, state sl = Stopped r → hooks sl = 1%nat ∧ destroyed sl = true ∧ references sl = O ∧
     ∀ t todo leases errors, threads w !! t ≠ Some (Inside s todo leases errors)).
Proof.
  pose proof (whole_reachable w Hw) as [Hb _ _ Hf _ _]. pose proof (b_slots w Hb s sl Hs) as Hok.
  destruct counted_all as (Cq & Cg & Ck & Cd & Cb).
  assert (∀ f, counted f → 0 ≤ tally f w s) as Hpos by (intros f Cf; apply msum_nonneg; intros; apply Cf).
  pose proof (Hpos _ Cq). pose proof (Hpos _ Cg). pose proof (Hpos _ Ck). pose proof (Hpos _ Cd). pose proof (Hpos _ Cb).
  assert (∀ t todo leases errors, threads w !! t = Some (Inside s todo leases errors) → 1 ≤ tally pins w s) as Hin.
  { intros t todo leases errors Ht. etrans; [apply (inside_pins s todo leases errors w), (Hf t _ Ht)|by apply (tally_at pins w t)]. }
  assert (∀ t k, threads w !! t = Some (Hook s k) → 1 ≤ tally hooking w s) as Hhook.
  { intros t k Ht. rewrite <-(at_self s). by apply (tally_at hooking w t _ s Ck Ht). }
  assert (tally hooking w s ≤ 1) as Hone by (unfold slot_ok in Hok; destruct (state sl); lia).
  split_and!.
  - unfold slot_ok in Hok. destruct (state sl); lia.
  - intros t t' k k' Ht Ht'. destruct (decide (t = t')) as [|Hne]; [done|]. pose proof (tally_two hooking w t t' _ _ s Ck Hne Ht Ht') as Htwo.
    cbn in Htwo. rewrite at_self in Htwo. lia.
  - intros t todo leases errors Ht. specialize (Hin _ _ _ _ Ht). unfold slot_ok in Hok.
    destruct (state sl); decompose [and] Hok; try lia; (split_and!; [done..|]; intros t' k Ht'; specialize (Hhook _ _ Ht'); lia).
  - intros r Hr. unfold slot_ok in Hok. rewrite Hr in Hok. decompose [and] Hok. split_and!; [done..|].
    intros t todo leases errors Ht. specialize (Hin _ _ _ _ Ht). lia.
Qed.

Lemma ended_all w l results results' : Forall2 (ended w) l results → Forall2 (ended w) l results' → results = results'.
Proof.
  intros H. revert results'. induction H as [|s r l results (sl & Hsl & Hr) _ IH]; intros results' H'; inversion H' as [|? r' ? ? (sl' & Hsl' & Hr')]; subst; [done|].
  f_equal; [congruence|by apply IH].
Qed.

(** C20: When a shutdown returns, every attachment there ever was has stopped,
    nobody is inside a callback, and the errors it reports are exactly the
    failures of the registrations in their order: one per session whose stop
    failed. Any other shutdown that has returned reports the same ones. *)
Theorem plugin_shutdown_reports_failures w t errors (Hw : reachable w) (Ht : threads w !! t = Some (Done (O_Shutdown errors))) :
  (∀ s sl, slots w !! s = Some sl → ∃ r, state sl = Stopped r) ∧
  (∀ t' s todo leases es, threads w !! t' ≠ Some (Inside s todo leases es)) ∧
  (∃ results, Forall2 (λ s r, ∃ sl, slots w !! s = Some sl ∧ state sl = Stopped r) (registered w) results
     ∧ errors = concat (failures <$> results)) ∧
  (∀ t' errors', threads w !! t' = Some (Done (O_Shutdown errors')) → errors' = errors).
Proof.
  pose proof (whole_reachable w Hw) as [Hb Hro _ Hf Hsec _].
  assert (∀ t errors, threads w !! t = Some (Done (O_Shutdown errors)) →
    quiet w ∧ ∃ results, Forall2 (ended w) (registered w) results ∧ errors = concat (failures <$> results)) as Hdone.
  { intros t0 errors0 Ht0. destruct (Hsec _ _ Ht0) as (Hq & _ & before & results & Heq & Hall & He).
    rewrite app_nil_r in Heq. subst before. eauto. }
  destruct (Hdone _ _ Ht) as (Hq & results & Hall & He). split_and!.
  - intros s sl Hsl. assert (∃ r, ended w s r) as (r & sl' & Hsl' & Hr); [|exists r; congruence].
    destruct (r_all w Hro s) as [Hin|?]; [by eexists| |done].
    apply list_elem_of_lookup_1 in Hin as [i Hi]. destruct (Forall2_lookup_l _ _ _ _ _ Hall Hi) as (r & _ & Hr). by exists r.
  - intros t' s todo leases es Ht'. by specialize (Hq _ _ Ht').
  - by exists results.
  - intros t' errors' Ht'. destruct (Hdone _ _ Ht') as (_ & results' & Hall' & ->). by rewrite He, (ended_all _ _ _ _ Hall Hall').
Qed.

(** A thread can go on unless it has ended, sleeps, or drains. *)
Definition can_run (w : World) (p : Pc) : Prop :=
  match p with Done _ => False | Wait _ _ _ false => False | Drain => active w = O | _ => True end.
Lemma known_slot w s : known w s → ∃ sl, slots w !! s = Some sl.
Proof. by intros [sl ?]; exists sl. Qed.
Lemma guard_finishes w t s leases errors sl : books w → threads w !! t = Some (Guard s leases errors) → slots w !! s = Some sl →
  is_Some (finish_callback (state sl)).
Proof.
  intros Hb Ht Hs. pose proof (b_slots w Hb s sl Hs) as Hok. destruct counted_all as (_ & Cg & _).
  pose proof (tally_at guards w t _ s Cg Ht) as Hg. cbn in Hg. rewrite at_self in Hg. unfold slot_ok in Hok. unfold finish_callback.
  destruct (state sl) as [c|c| |r]; decompose [and] Hok; try lia; [by eexists|]. destruct (c =? 1)%nat; by eexists.
Qed.
Lemma can_run_runs w t p : books w → fact w p → threads w !! t = Some p → can_run w p → ∃ a w', run w t p a = Some w'.
Proof.
  intros Hb Hf Hp Hc. destruct p; cbn in Hc; try done.
  all: try (exists Silent; eexists; reflexivity).
  all: try (exists (Returned (Ok tt)); eexists; reflexivity).
  all: try (pose proof (proj1 Hf) as Hs; try apply asked_known in Hs; destruct (known_slot _ _ Hs) as [sl Hsl];
    exists Silent; eexists; cbn; rewrite Hsl; reflexivity).
  all: try (pose proof (proj1 Hf) as Hs; apply asked_known in Hs; destruct (known_slot _ _ Hs) as [sl Hsl];
    exists (Returned (Ok tt)); eexists; cbn; rewrite Hsl; reflexivity).
  - exists Silent. destruct todo as [|s todo]; [by eexists|]. destruct Hf as [Hk _]. inversion Hk as [|? ? [sl Hsl] _]; subst.
    eexists. cbn. by rewrite Hsl.
  - exists Silent. destruct todo; by eexists.
  - destruct Hf as [[sl Hsl] _]. destruct (guard_finishes w t slot leases errors sl Hb Hp Hsl) as [[next b] Hfin].
    exists Silent. eexists. cbn. by rewrite Hsl; cbn; rewrite Hfin.
  - destruct Hf as [[sl Hsl] _]. exists Silent. cbn. rewrite Hsl. cbn. destruct (request_stop (state sl)). by eexists.
  - exists (Attached (Ok OB_Logical)). by eexists.
  - exists Silent. eexists. cbn. by rewrite Hc.
  - destruct Hf as (_ & Hs & _). apply asked_known in Hs as [sl Hsl]. exists Silent. eexists. cbn. by rewrite Hsl.
  - destruct notified; [|done]. exists Silent. by eexists.
Qed.
(** Whoever a blocked thread waits for can go on. *)
Lemma holder_can_run w t p : threads w !! t = Some p → 0 < permit p → can_run w p.
Proof. unfold permit. destruct p; try done; cbn; try lia. Qed.
Lemma pinner_can_run w s p : 0 < pins s p → can_run w p.
Proof. destruct p; cbn; try done; unfold pins; cbn; lia. Qed.
Lemma stage_can_run w f s p : f = guards ∨ f = hooking ∨ f = destroying ∨ f = publishing → 0 < f s p → can_run w p.
Proof. intros Hf. destruct p; try done; by repeat destruct Hf as [->|Hf]; subst. Qed.
Lemma someone_can_run w t p : whole w → threads w !! t = Some p → (∀ out, p ≠ Done out) → ∃ t' p', threads w !! t' = Some p' ∧ can_run w p'.
Proof.
  intros [Hb Hro Ha Hf Hs Hw] Hp Hnd.
  assert (∀ f s, 0 < tally f w s → (∀ p, 0 < f s p → can_run w p) → ∃ t' p', threads w !! t' = Some p' ∧ can_run w p') as Hsome.
  { intros f s H Hc. destruct (msum_pos (f s) (threads w) H) as (t' & p' & Hp' & ?). eauto. }
  destruct p; try (exists t; eexists; split; [exact Hp|exact I]); [| |by destruct (Hnd out)].
  - destruct (active w) as [|n] eqn:E; [exists t, Drain; by rewrite <-E in *|].
    destruct (msum_pos permit (threads w)) as (t' & p' & Hp' & ?); [lia|]. exists t', p'. split; [done|by eapply holder_can_run].
  - destruct notified; [by exists t; eexists|]. destruct (Hf t _ Hp) as (_ & (sl & Hsl & Hask) & _).
    pose proof (b_slots w Hb slot sl Hsl) as Hok. unfold slot_ok in Hok. destruct (state sl) as [|c| |r] eqn:Hst; [done|..].
    + destruct (decide (0 < tally pins w slot)) as [H|H]; [by apply (Hsome pins slot H), pinner_can_run|].
      apply (Hsome guards slot); [lia|]. intros p. apply stage_can_run. tauto.
    + destruct (decide (0 < tally hooking w slot)) as [H|H]; [apply (Hsome hooking slot H); intros p; apply stage_can_run; tauto|].
      destruct (decide (0 < tally destroying w slot)) as [H'|H']; [apply (Hsome destroying slot H'); intros p; apply stage_can_run; tauto|].
      apply (Hsome publishing slot); [lia|]. intros p. apply stage_can_run. tauto.
    + destruct (Hw _ _ _ _ r Hp) as (t' & r' & k & Ht'); [by exists sl|]. exists t'. eexists. split; [exact Ht'|done].
Qed.

(** C21: The host does not get stuck: as long as some call of it has not
    returned, some step is possible - a thread goes on, user code returns, or
    the holder of the lock publishes the counters. In particular a shutdown
    that drains or waits for an attachment waits for somebody who can go on. *)
Theorem host_never_gets_stuck w t p (Hw : reachable w) (Ht : threads w !! t = Some p) (Hp : ∀ out, p ≠ Done out) :
  ∃ l w', step w l = Some w' ∧ match l with Spawn _ _ => False | _ => True end.
Proof.
  pose proof (whole_reachable w Hw) as H. destruct (writing w) as [[t0 n]|] eqn:Hwr.
  - exists Store. eexists. split; [|done]. cbn. by rewrite Hwr.
  - destruct (someone_can_run w t p H Ht Hp) as (t' & p' & Hp' & Hc).
    destruct (can_run_runs w t' p' (w_books _ H) (w_facts _ H _ _ Hp') Hp' Hc) as (a & w' & Hrun).
    exists (Run t' a), w'. split; [|done]. cbn. rewrite Hp'. cbn. unfold blocked. by rewrite Hwr.
Qed.

(** ** Runs *)
Definition silent (t n : nat) : list Label := repeat (Run t Silent) n.
(** Thread [t] attaches an implementation. *)
Definition attaching (t : nat) (o : PluginObservations) : list Label :=
  [Spawn t OpAttach] ++ silent t 3 ++ [Store; Run t Silent; Run t (Attached (Ok o)); Run t Silent; Store] ++ silent t 2.
(** Thread 1 is inside a callback when thread 2 shuts the host down. *)
Definition shut_inside : list Label :=
  attaching 0 OB_Logical ++ [Spawn 1 (OpNotify Every)] ++ silent 1 8 ++ [Spawn 2 OpShutdown] ++ silent 2 3 ++ [Store] ++ silent 2 1.
Definition failure : result PluginError unit := Err (Failure PS_Stop).
Definition shut_after : list Label :=
  shut_inside ++ [Run 1 (Returned (Err (Failure PS_Event)))] ++ silent 1 3 ++ [Run 1 (Returned failure)] ++ silent 1 4
    ++ silent 2 7.
Definition inside_world : World := default initial (execute initial shut_inside).
Definition after_world : World := default initial (execute initial shut_after).
Lemma inside_reachable : reachable inside_world.
Proof. apply (execute_reachable initial shut_inside); [constructor|by vm_compute]. Qed.
Lemma after_reachable : reachable after_world.
Proof. apply (execute_reachable initial shut_after); [constructor|by vm_compute]. Qed.
Lemma sessions_stop_once_and_last_witness :
  threads inside_world !! 1%nat = Some (Inside 0 [] [0%nat] []) ∧ threads inside_world !! 2%nat = Some Drain ∧
  (∀ t' k, threads inside_world !! t' ≠ Some (Hook 0 k)).
Proof.
  split_and!; [by vm_compute..|].
  refine (proj2 (proj2 (proj1 (proj2 (proj2 (sessions_stop_once_and_last inside_world 0 (mkSlot OB_Logical (Draining 1) 2 0 false)
    inside_reachable _))) 1%nat [] [0%nat] [] _))); by vm_compute.
Defined.
Lemma plugin_shutdown_reports_failures_witness :
  threads after_world !! 2%nat = Some (Done (O_Shutdown [Failure PS_Stop])) ∧
  ∃ results, Forall2 (λ s r, ∃ sl, slots after_world !! s = Some sl ∧ state sl = Stopped r) (registered after_world) results
    ∧ [Failure PS_Stop] = concat (failures <$> results).
Proof.
  split; [by vm_compute|].
  refine (proj1 (proj2 (proj2 (plugin_shutdown_reports_failures after_world 2%nat [Failure PS_Stop] after_reachable _)))). by vm_compute.
Defined.
Lemma host_never_gets_stuck_witness :
  threads inside_world !! 2%nat = Some Drain ∧ active inside_world = 1%nat ∧
  ∃ l w', step inside_world l = Some w' ∧ match l with Spawn _ _ => False | _ => True end.
Proof.
  split_and!; [by vm_compute..|]. refine (host_never_gets_stuck inside_world 2%nat Drain inside_reachable _ _); by vm_compute.
Defined.

(** [capture_selected] loads the two counters one after the other. Thread 1
    announces an event to the attachments without observations and has loaded
    that there is one; an attachment with observations arrives, and to the second
    load all attachments have them. The event reaches nobody, although the
    attachment it is for runs from before the event until after it. *)
Definition missed : list Label :=
  attaching 0 OB_Logical ++ [Spawn 1 (OpNotify Legacy); Run 1 Silent; Spawn 2 OpAttach] ++ silent 2 3
    ++ [Store; Run 2 Silent; Run 2 (Attached (Ok OB_All)); Run 2 Silent; Run 1 Silent].
Theorem concurrent_attachment_hides_listener : ∃ w, execute initial missed = Some w ∧
  threads w !! 1%nat = Some (Done (O_Delivered [])) ∧ slots w !! 0%nat = Some (mkSlot OB_Logical (Running 0) 1 0 false) ∧
  registered w = [0%nat; 1%nat] ∧ closed w = false ∧ stopped w = false.
Proof. eexists. split; [vm_compute; reflexivity|]. by vm_compute. Qed.
End PluginsTheorems.
